(* ===== verification/_CoqProject ===== *)
-Q . S2P
Prelude.v
GoBytes.v
GoSlices.v
GoStrings.v
Netip.v
Metadata.v
RuleItems.v
RuleAction.v
RuleMatch.v
RuleSemantics.v
RuleRefine.v
Concrete.v
RuleTheorems.v
Options.v
RuleBuild.v
RuleBuildTheorems.v
RuleSetStore.v
Sniff.v
Ja3.v
Quic.v
SniffTheorems.v
StreamSafety.v
Srs.v
SrsTheorems.v
SrsMatch.v
Router.v
RouterCache.v
RouterTheorems.v
Bolt.v
DnsMessage.v
FakeIP.v
FakePool.v
FakeIPTheorems.v
CacheFile.v
CacheFakeIP.v
FakeIPResume.v
DnsCache.v
DnsCacheClean.v
DnsCacheTheorems.v
DnsClient.v
DnsClientTheorems.v
Balancer.v
BalancerTheorems.v
Group.v
GroupSelect.v
GroupTheorems.v
GroupLife.v
DnsRouter.v
DnsRouterSpec.v
DnsRouterRefine.v
DnsRouterWalk.v
DnsRouterRuns.v
DnsRouterEnds.v
DnsMode.v
DnsModeTheorems.v
DnsRouterTheorems.v
DnsLookup.v
DnsLookupTheorems.v
Reference.v
ReferenceTheorems.v
ReferenceRouting.v
Lifecycle.v
Startup.v
StartupTheorems.v
DnsGroup.v
DnsGroupTheorems.v
DnsGroupSpec.v
TlsFragment.v
TlsFragmentTheorems.v
TlsFragmentWrite.v
ConnPool.v
ConnPoolInv.v
ConnPoolSteps.v
ConnPoolMoves.v
ConnPoolInstall.v
ConnPoolReset.v
ConnPoolTheorems.v
