(* ===== verification/Prelude.v ===== *)
(** * A verification of the sing-box routing core

    sing-box is a proxy.  A connection enters through an inbound, the router
    finds out what it is (sniffing, resolving), matches it against the rules of
    the configuration and hands it to an outbound; names are resolved by a DNS
    server of its own, with rules, caches and fake addresses.  This library
    models the parts that decide where a connection goes and what a name is
    answered with, as they are written in Go, and proves what they promise.

    ** How Go is modelled

    A function becomes a function; an error or a panic is a value of [result]
    below, so that "does not panic" is a theorem and not an assumption.  A struct
    is a record and a method that changes it returns the new record; a pointer or
    interface that may be nil is an [option]; integers are [Z] with the
    wrap-around of their width written where the code can reach it; strings are
    byte strings; maps are finite maps, and where the order of a range can be
    seen, a list stands for it.  Goroutines and locks appear as steps between the
    points where they block: a run is a sequence of such steps in any order.

    Code outside the repository is a parameter, in classes with the laws its
    documentation gives: [External] and [Runtime] (address and expression
    libraries, the domain matcher, the state of the machine; Metadata.v,
    RuleItems.v), [SniffLib] and [QuicCrypto] (parsers and ciphers; Sniff.v,
    Quic.v), [SrsLib] (compression and encodings; Srs.v), [Bolt] (the database;
    Bolt.v), the caches, stores and transports of the DNS client (DnsClient.v),
    [GroupEnv] (outbounds and probes; Group.v).  Concrete.v and the witnesses
    give instances.

    ** The files and the code they model

    - Prelude, GoBytes, GoSlices, GoStrings, Netip: errors and results, tactics,
      and what the code uses of the Go library.
    - Metadata: [adapter/inbound.go].  RuleItems: [route/rule/rule_item_*.go].
      RuleAction: [route/rule/rule_action.go], [option/rule_action.go],
      [common/tlsspoof/spoof.go].  RuleMatch: [route/rule/match_state.go],
      [rule_abstract.go], [rule_item_rule_set.go], [rule_dns.go].
    - RuleSemantics, RuleRefine, RuleTheorems: the meaning of a rule as a formula
      and the proof that matching computes it.
    - Options, RuleBuild, RuleBuildTheorems: [option/rule*.go] and the
      constructors [route/rule/rule_default.go], [rule_dns.go],
      [rule_headless.go], [rule_nested_action.go].
    - RuleSetStore: [route/rule/rule_set*.go], reference counts and reloading.
    - Sniff, Ja3, Quic, SniffTheorems, StreamSafety: [common/sniff],
      [common/ja3].
    - Srs, SrsTheorems, SrsMatch: [common/srs], the binary rule-set format.
    - Router, RouterCache, RouterTheorems: [route/route.go],
      [route/group_resolve_lx.go].
    - DnsMessage, DnsClient, DnsClientTheorems: [dns/client.go] and its helpers.
    - FakeIP, FakePool, FakeIPTheorems: [dns/transport/fakeip],
      [adapter/fakeip*.go].
    - Bolt, CacheFile, CacheFakeIP, FakeIPResume, DnsCache, DnsCacheClean,
      DnsCacheTheorems: [experimental/cachefile].
    - Balancer, BalancerTheorems, Group, GroupSelect, GroupTheorems, GroupLife:
      [protocol/group], [option/group.go].
    - DnsRouter (the walk over the rules), DnsMode (the mode, the checks and the
      building of rules), DnsLookup (the legacy mode, [Exchange] and [Lookup]):
      [dns/router.go].  DnsRouterSpec is the sequential walk as a specification,
      DnsRouterRefine, DnsRouterWalk and DnsRouterRuns the simulation,
      DnsRouterEnds the termination,
      DnsModeTheorems, DnsRouterTheorems and DnsLookupTheorems the theorems.
    - Reference, ReferenceTheorems, ReferenceRouting: [route/reference.go],
      [route/reference_rule.go], [route/rule_conds.go]: which outbounds and
      servers the configuration can use, and that routing uses no others.
    - Lifecycle: [adapter/lifecycle.go].  Startup, StartupTheorems:
      [adapter/outbound/manager*.go], [adapter/endpoint/manager*.go],
      [dns/transport_manager.go], the checks of tags in [option/options.go].
    - DnsGroup, DnsGroupTheorems, DnsGroupSpec: [dns/transport/group].
    - TlsFragment, TlsFragmentTheorems, TlsFragmentWrite: [common/tlsfragment].
    - ConnPool: [dns/transport/conn_pool.go], [dns/transport/conntest_lx.go].
      ConnPoolInv is the invariant of its runs; ConnPoolSteps, ConnPoolMoves,
      ConnPoolInstall and ConnPoolReset show that the critical sections keep it,
      ConnPoolTheorems that every step does, and what follows.

    ** What the theorems show

    Rules.  Matching a rule computes its documented formula and gives the
    metadata back as it was (C1); pre-matching a DNS rule does not contradict the
    match on the response, for the rules it is meant for (C2); a rule with a rule-set matches like the two
    written as one (C4).  Rules are built exactly from well-formed options (C7),
    match by their options' meaning (C8), and DNS rules are well-formed (C10).
    References to rule-sets are counted (C13; [metadata_describes_rules] for what
    their metadata says), and survive being compiled and loaded
    (C25, C26).

    Sniffing.  A printed ClientHello is read back (C16).  No packet makes a sniffer
    panic or loop ([quic_never_panics], [packet_sniffers_never_panic]; C28), a QUIC
    hello is found in whatever order its pieces arrive (C19), and three stream
    sniffers do not depend on how a stream is cut (C23).

    Routing.  Routing never panics (C28), loses nothing of what it sniffed and
    replays it in order when one rule sniffs (C29), follows the first rule that
    decides (C30), agrees with its own pre-match over rules that do not sniff or
    override addresses (C31), and ends at an outbound that can carry the connection (C33);
    the outbounds of the chain are ones the reference manager keeps alive (C11).

    Names.  FakeIP addresses and domains determine each other in every run (C34),
    an address stays with its domain until the pool has been used up (C35), and
    both survive a restart (C36).  The cache file answers with what was queued
    last until it is stale and cleaned up, and comes to rest (C37;
    [dns_cache_flushes_end]); the DNS client's caches are transparent
    (C39) and its locks are those of the exchanges that run (C40).

    DNS rules.  The router asks several servers at once and lets race rules
    commit as answers come in.  Whatever their order, the result is one that a
    sequential walk over the rules may give, as long as no answer comes in between
    the settling of the futures and the look at them (C24), and the exchange ends,
    whenever answers come in (C32):
    [exchange_step] has a step for an answer, a round of the loop, a wake-up and
    the last exchange.  In the legacy mode the response comes from the first rule
    that rightly decides (C9); the client is a parameter there, and its law is
    proved of the client of DnsClient.v.

    DNS groups.  A group selects by its history (C15), and its elections and
    queries end (C14); [dnsgroup_step] has a step for each critical section of its
    goroutines.

    TLS fragments.  The first packet of a connection is cut inside the server name
    of its hello, and the peer still gets the packet (C18).

    DNS connections.  Whatever the order of the goroutines, the connection pool of
    the DNS servers accounts for every connection that was dialled (C38);
    [pool_step] has a step for each critical section, for a dial that returns and
    for a caller that goes away.

    Groups.  The balancer picks live slots and takes turns (C12); health checks
    keep the pool stable (C3); least_test and failover select by their policy
    (C21), and a failover check leaves a node only for a reason (C5); a
    connection test leaves no trace but that the group was used (C27).  A group
    has at most one ticker goroutine and one check at a time, and all of them end
    after it is closed (C6); selectors are restored by a restart (C17).

    Startup.  Outbounds and endpoints are started in the order of their
    dependencies, and what stands in the way is named (C20); a scope undoes what
    was done, last things first (C22).

    ** Fuel and bounds

    Recursion that is not structural takes fuel, and the theorems say that it is
    enough: the loops of the sniffers and of the ClientHello parser get the
    length of their input, which each round shortens (C28; C18 for packets below 64 KiB); rule nesting in
    the binary format is bounded by the format's own limit of 100 (C25); a probe
    run gets one more than the number of outbounds, and more changes nothing
    ([test_fuel], since no outbound is tested twice); the refill of a pool gets
    one more than the number of candidates, each round taking at least one; the
    visits of the reference manager get one round for each tag that can enter the
    queue (C11), and starting gets one round more than there are components (C20).

    ** Not modelled

    Sockets, TLS and the copying of connections; the protocols of the other
    outbounds and inbounds, which configure libraries outside the repository;
    downloading rule-sets; interface monitors and operating-system tables; the
    HTTP and gRPC interfaces, the daemon, the command line and the mobile
    bindings; decoding the configuration from JSON (the option structs are the
    input).  Of the modelled packages: logging and tracing, deadlines of dials,
    and the interruption of connections when a selection changes. *)

From Stdlib Require Export ZArith Lia.
From Stdlib Require Export Strings.Byte Strings.Ascii.
From stdpp Require Export base list strings gmap pretty.

#[global] Open Scope Z_scope.

(** ** Errors and results *)

(** Error values of the Go code.  The constructors of the [E] package (sing's
    exceptions) are kept as constructors: an error records which call built it
    and from what. *)
Inductive goerr : Type :=
| ErrInvalid                                  (* os.ErrInvalid *)
| ErrEOF                                      (* io.EOF *)
| ErrUnexpectedEOF                            (* io.ErrUnexpectedEOF *)
| ErrOverflow                                 (* encoding/binary: varint overflows *)
| ErrNeedMoreData                             (* sniff.ErrNeedMoreData *)
| ErrNew (msg : string)                       (* E.New(...) *)
| ErrCause (cause : goerr) (msg : string)     (* E.Cause(err, ...) *)
| ErrCause1 (err cause : goerr)               (* E.Cause1(err, cause) *)
| ErrExtend (err : goerr) (msg : string)      (* E.Extend(err, ...) *)
| ErrErrors (errs : list goerr)               (* E.Errors(...) *)
| ErrExternal (what : string).                (* an error value made by code outside the repository *)

(** Outcome of a Go call that may return an error or panic. *)
Inductive result (A : Type) : Type :=
| Ok (a : A)
| Err (e : goerr)
| Panic (msg : string).
Arguments Ok {A} a.
Arguments Err {A} e.
Arguments Panic {A} msg.

#[export] Instance result_ret : MRet result := @Ok.
#[export] Instance result_bind : MBind result := fun A B f r =>
  match r with Ok a => f a | Err e => Err e | Panic p => Panic p end.
#[export] Instance result_fmap : FMap result := fun A B f r =>
  match r with Ok a => Ok (f a) | Err e => Err e | Panic p => Panic p end.

(** [err = E.Cause(err, msg)] on the error path. *)
Definition wrap_cause {A} (msg : string) (r : result A) : result A :=
  match r with Err e => Err (ErrCause e msg) | _ => r end.

Definition is_ok {A} (r : result A) : bool :=
  match r with Ok _ => true | _ => false end.

Lemma bind_Ok {A B} (r : result A) (f : A → result B) b :
  (r ≫= f) = Ok b ↔ ∃ a, r = Ok a ∧ f a = Ok b.
Proof. destruct r; cbn; naive_solver. Qed.

Lemma fmap_Ok {A B} (r : result A) (f : A → B) b :
  (f <$> r) = Ok b ↔ ∃ a, r = Ok a ∧ f a = b.
Proof. destruct r; cbn; naive_solver. Qed.

Lemma wrap_cause_Ok {A} msg (r : result A) a :
  wrap_cause msg r = Ok a ↔ r = Ok a.
Proof. destruct r; cbn; naive_solver. Qed.

Lemma Ok_inj {A} (a b : A) : Ok a = Ok b → a = b.
Proof. congruence. Qed.

(** Splits every successful bind in the context. *)
Ltac invert_ok :=
  repeat match goal with
  | H : (_ ≫= _) = Ok _ |- _ => apply bind_Ok in H as (? & ? & H)
  | H : (let '(_, _) := ?x in _) = Ok _ |- _ => destruct x
  | H : (_ <$> _) = Ok _ |- _ => apply fmap_Ok in H as (? & ? & H)
  | H : wrap_cause _ _ = Ok _ |- _ => apply wrap_cause_Ok in H
  | H : Ok _ = Ok _ |- _ => apply Ok_inj in H; simplify_eq
  | H : Err _ = Ok _ |- _ => discriminate H
  | H : Panic _ = Ok _ |- _ => discriminate H
  end.

Create HintDb singbox.

Definition isSome {A} (o : option A) : bool := match o with Some _ => true | None => false end.

(** ** Lists and slices *)

(** [slices.Contains]/[map[k]bool] on a list of keys. *)
Definition containsb {A} `{EqDecision A} (x : A) (l : list A) : bool :=
  bool_decide (x ∈ l).

Lemma containsb_spec {A} `{EqDecision A} (x : A) l :
  containsb x l = true ↔ x ∈ l.
Proof. apply bool_decide_eq_true. Qed.

Definition nonempty {A} (l : list A) : bool :=
  match l with [] => false | _ => true end.

Lemma nonempty_true {A} (l : list A) : nonempty l = true ↔ l ≠ [].
Proof. destruct l; naive_solver. Qed.

Lemma nonempty_false {A} (l : list A) : nonempty l = false ↔ l = [].
Proof. destruct l; naive_solver. Qed.

Lemma nonempty_app {A} (l k : list A) : nonempty (l ++ k) = nonempty l || nonempty k.
Proof. by destruct l. Qed.

Lemma existsb_app_or {A} (f : A → bool) l k :
  existsb f (l ++ k) = existsb f l || existsb f k.
Proof. apply existsb_app. Qed.

Lemma existsb_ext_in {A} (f g : A → bool) l :
  (∀ x, x ∈ l → f x = g x) → existsb f l = existsb g l.
Proof.
  induction l as [|x l IH]; intros H; [done|]; cbn.
  rewrite H by left. rewrite IH; [done|]. intros y Hy. apply H. by right.
Qed.

Lemma forallb_ext_in {A} (f g : A → bool) l :
  (∀ x, x ∈ l → f x = g x) → forallb f l = forallb g l.
Proof.
  induction l as [|x l IH]; intros H; [done|]; cbn.
  rewrite H by left. rewrite IH; [done|]. intros y Hy. apply H. by right.
Qed.

(** Sequential [for _, x := range l] whose body may fail. *)
Fixpoint forM {A B} (f : A → result B) (l : list A) : result (list B) :=
  match l with
  | [] => Ok []
  | x :: l => y ← f x; ys ← forM f l; Ok (y :: ys)
  end.

Lemma forM_Forall2 {A B} (f : A → result B) l k :
  forM f l = Ok k ↔ Forall2 (λ x y, f x = Ok y) l k.
Proof.
  revert k; induction l as [|x l IH]; intros k; cbn.
  - split; intros H; [by invert_ok; constructor|by inversion H].
  - split.
    + intros H. invert_ok. constructor; [done|]. by apply IH.
    + intros H. inversion H as [|???? Hx Hl]; subst. rewrite Hx; cbn.
      apply IH in Hl as ->. done.
Qed.

Lemma Forall2_elem_r {A B} (P : A → B → Prop) l k y :
  Forall2 P l k → y ∈ k → ∃ x, x ∈ l ∧ P x y.
Proof.
  induction 1 as [|x z l k Hxz _ IH]; intros Hy; [by apply elem_of_nil in Hy|].
  apply elem_of_cons in Hy as [->|Hy]; [exists x; split; [left|done]|].
  destruct (IH Hy) as (w & ? & ?). exists w. split; [by right|done].
Qed.
