(* ===== verification/GoBytes.v ===== *)
(** Bytes, fixed-width integers and readers.

    What the modelled packages use of Go's [bytes], [io] and [encoding/binary]:
    a byte is [Byte.byte]; integers are [Z] with the width written out; a
    reader over the bytes not yet read is a function [list byte → result (A *
    list byte)] whose second component is what is left. *)

From S2P Require Import Prelude.

(** ** Bytes as integers *)

Definition bz (b : byte) : Z := Z.of_N (Byte.to_N b).

(** [byte(z)]: conversion keeps the low eight bits. *)
Definition zb (z : Z) : byte :=
  match Byte.of_N (Z.to_N (z mod 256)) with Some b => b | None => x00 end.

Lemma bz_range b : 0 ≤ bz b < 256.
Proof.
  unfold bz. pose proof (Byte.to_N_bounded b). lia.
Qed.

Lemma bz_zb z : bz (zb z) = z mod 256.
Proof.
  unfold bz, zb. pose proof (Z.mod_pos_bound z 256 ltac:(lia)).
  destruct (Byte.of_N (Z.to_N (z mod 256))) as [b|] eqn:E.
  - apply Byte.to_of_N in E. rewrite E. lia.
  - apply Byte.of_N_None_iff in E. lia.
Qed.

Lemma bz_inj a b : bz a = bz b → a = b.
Proof.
  unfold bz. intros H%N2Z.inj.
  pose proof (Byte.of_to_N a) as Ha. rewrite H, Byte.of_to_N in Ha. congruence.
Qed.

Lemma zb_bz b : zb (bz b) = b.
Proof. apply bz_inj. rewrite bz_zb. apply Z.mod_small, bz_range. Qed.

Lemma bz_zb_small z : 0 ≤ z < 256 → bz (zb z) = z.
Proof. intros. rewrite bz_zb. by apply Z.mod_small. Qed.

#[export] Hint Resolve bz_range : singbox.

#[export] Instance byte_eq_dec : EqDecision byte := Byte.byte_eq_dec.

(** Length of a slice as a Go [int]. *)
Definition len {A} (l : list A) : Z := Z.of_nat (length l).

Lemma len_nonneg {A} (l : list A) : 0 ≤ len l.
Proof. unfold len. lia. Qed.

Lemma len_app {A} (l k : list A) : len (l ++ k) = len l + len k.
Proof. unfold len. rewrite length_app. lia. Qed.

(** Go strings are byte strings. *)
Definition str_bytes (s : string) : list byte := String.list_byte_of_string s.
Definition bytes_str (l : list byte) : string := String.string_of_list_byte l.

Lemma bytes_str_bytes s : bytes_str (str_bytes s) = s.
Proof. apply String.string_of_list_byte_of_string. Qed.

Lemma str_bytes_str l : str_bytes (bytes_str l) = l.
Proof. apply String.list_byte_of_string_of_list_byte. Qed.

(** [b[i]] on a packet: the default stands for the run-time panic; every use in
    the model sits behind the length guard of the source. *)
Definition at_ (p : list byte) (i : Z) : Z :=
  match p !! Z.to_nat i with Some b => bz b | None => 0 end.

(** [b[lo:hi]] for [0 ≤ lo ≤ hi ≤ len b], and [b[lo:]]. *)
Definition slice {A} (l : list A) (lo hi : Z) : list A :=
  take (Z.to_nat (hi - lo)) (drop (Z.to_nat lo) l).
Definition from {A} (l : list A) (lo : Z) : list A := drop (Z.to_nat lo) l.

Lemma at_range p i : 0 ≤ at_ p i < 256.
Proof. unfold at_. destruct (p !! _); [apply bz_range|lia]. Qed.

#[export] Hint Resolve at_range : singbox.

(** ** Big-endian integers *)

Fixpoint be_acc (acc : Z) (l : list byte) : Z :=
  match l with [] => acc | b :: l => be_acc (acc * 256 + bz b) l end.
Definition be (l : list byte) : Z := be_acc 0 l.

(** [binary.BigEndian.PutUintN] with [n] bytes. *)
Fixpoint put_be (n : nat) (z : Z) : list byte :=
  match n with
  | O => []
  | S n => put_be n (z / 256) ++ [zb z]
  end.

Lemma be_acc_app acc l k : be_acc acc (l ++ k) = be_acc (be_acc acc l) k.
Proof. revert acc; induction l; intros; cbn; auto. Qed.

Lemma be_snoc l b : be (l ++ [b]) = be l * 256 + bz b.
Proof. unfold be. by rewrite be_acc_app. Qed.

Lemma length_put_be n z : length (put_be n z) = n.
Proof. revert z; induction n; intros; cbn; [done|]. rewrite length_app, IHn. cbn. lia. Qed.

Lemma be_put_be n z : 0 ≤ z < 256 ^ Z.of_nat n → be (put_be n z) = z.
Proof.
  revert z; induction n as [|n IH]; intros z Hz; [cbn in *; lia|].
  cbn [put_be]. rewrite be_snoc, bz_zb, IH.
  - pose proof (Z.div_mod z 256). lia.
  - rewrite Nat2Z.inj_succ, Z.pow_succ_r in Hz by lia. split.
    + apply Z.div_pos; lia.
    + apply Z.div_lt_upper_bound; lia.
Qed.

Lemma be_bound l : 0 ≤ be l < 256 ^ len l.
Proof.
  induction l as [|b l IH] using rev_ind; [by vm_compute|].
  rewrite be_snoc, len_app. pose proof (bz_range b).
  pose proof (len_nonneg l). rewrite Z.pow_add_r; [|lia|unfold len; cbn; lia].
  change (256 ^ len [b]) with 256. lia.
Qed.

(** ** Readers *)

Definition reader (A : Type) : Type := list byte → result (A * list byte).

(** [io.ByteReader.ReadByte]. *)
Definition ReadByte : reader byte := λ bs,
  match bs with [] => Err ErrEOF | b :: bs => Ok (b, bs) end.

(** [io.ReadFull(r, buf)] with [len(buf) = n]. *)
Definition ReadFull (n : Z) : reader (list byte) := λ bs,
  if n <=? len bs then Ok (take (Z.to_nat n) bs, drop (Z.to_nat n) bs)
  else match bs with [] => Err ErrEOF | _ => Err ErrUnexpectedEOF end.

(** [binary.Read(r, binary.BigEndian, &x)] for a [w]-byte unsigned [x]. *)
Definition ReadBE (w : Z) : reader Z := λ bs,
  '(b, bs) ← ReadFull w bs; Ok (be b, bs).

Definition ReadU8 : reader Z := ReadBE 1.

(** [binary.Read] into a [bool]: any non-zero byte is [true]. *)
Definition ReadBool : reader bool := λ bs,
  '(b, bs) ← ReadFull 1 bs; Ok (negb (be b =? 0), bs).

(** [binary.ReadUvarint]: [i] is the loop index, [x] and [s] the accumulators. *)
Fixpoint ReadUvarint_loop (fuel : nat) (i x s : Z) : reader Z := λ bs,
  match fuel with
  | O => Err ErrOverflow
  | S fuel =>
      match bs with
      | [] => Err (if 0 <? i then ErrUnexpectedEOF else ErrEOF)
      | b :: bs =>
          if bz b <? 0x80 then
            if (i =? 9) && (1 <? bz b) then Err ErrOverflow
            else Ok (Z.lor x (Z.shiftl (bz b) s), bs)
          else ReadUvarint_loop fuel (i + 1) (Z.lor x (Z.shiftl (Z.land (bz b) 0x7f) s)) (s + 7) bs
      end
  end.
(** [MaxVarintLen64] is 10: the loop body runs at most ten times. *)
Definition ReadUvarint : reader Z := ReadUvarint_loop 10 0 0 0.

(** [binary.PutUvarint], the encoding of [encoding/binary]. *)
Fixpoint PutUvarint_loop (fuel : nat) (x : Z) : list byte :=
  match fuel with
  | O => []
  | S fuel =>
      if x <? 0x80 then [zb x]
      else zb (Z.lor (x mod 256) 0x80) :: PutUvarint_loop fuel (Z.shiftr x 7)
  end.
Definition PutUvarint (x : Z) : list byte := PutUvarint_loop 10 x.

Lemma lor_shift_disjoint x s b :
  0 ≤ s → 0 ≤ x < 2 ^ s → 0 ≤ b → Z.lor x (Z.shiftl b s) = x + b * 2 ^ s.
Proof.
  intros Hs Hx Hb. rewrite Z.shiftl_mul_pow2 by done.
  assert (Z.land x (b * 2 ^ s) = 0) as Hd.
  { apply Z.bits_inj'; intros i Hi. rewrite Z.land_spec, Z.bits_0.
    destruct (Z.ltb_spec i s).
    { rewrite Z.mul_pow2_bits_low by lia. apply andb_false_r. }
    destruct (Z.eq_dec x 0) as [->|]; [by rewrite Z.bits_0|].
    rewrite (Z.bits_above_log2 x i); [done|lia|].
    apply Z.log2_lt_pow2; [lia|].
    eapply Z.lt_le_trans; [apply Hx|apply Z.pow_le_mono_r; lia]. }
  by rewrite (Z.add_nocarry_lxor _ _ Hd), (Z.lxor_lor _ _ Hd).
Qed.

Lemma zb_cont_byte x : bz (zb (Z.lor (x mod 256) 0x80)) = Z.lor (x mod 128) 0x80.
Proof.
  rewrite bz_zb. apply Z.bits_inj'. intros i Hi.
  change 256 with (2 ^ 8). change 128 with (2 ^ 7).
  destruct (Z.ltb_spec i 8).
  - rewrite Z.mod_pow2_bits_low, !Z.lor_spec, Z.mod_pow2_bits_low by lia.
    destruct (Z.eq_dec i 7) as [->|]; [by rewrite !orb_true_r|].
    rewrite Z.mod_pow2_bits_low by lia. done.
  - rewrite Z.mod_pow2_bits_high, Z.lor_spec, Z.mod_pow2_bits_high by lia. cbn.
    symmetry. apply (Z.bits_above_log2 128 i); [lia|]. cbn. lia.
Qed.

(** One round of the two loops: the reader undoes the writer from any
    accumulator that lies below the bits still to come. *)
Lemma ReadUvarint_loop_Put fuel x acc i rest :
  0 ≤ x → 0 ≤ i → 0 ≤ acc < 2 ^ (7 * i) →
  i + Z.of_nat (S fuel) = 10 → acc + x * 2 ^ (7 * i) < 2 ^ 64 →
  ReadUvarint_loop (S fuel) i acc (7 * i) (PutUvarint_loop (S fuel) x ++ rest)
  = Ok (acc + x * 2 ^ (7 * i), rest).
Proof.
  revert x acc i. induction fuel as [|fuel IH]; intros x acc i Hx Hi Hacc Hsum Hb.
  - assert (i = 9) as -> by lia. change (2 ^ (7 * 9)) with 9223372036854775808 in *.
    assert (x = 0 ∨ x = 1) as [-> | ->] by lia; cbn [PutUvarint_loop ReadUvarint_loop app Z.ltb Z.compare Pos.compare Pos.compare_cont].
    + rewrite bz_zb_small by lia. cbn -[Z.lor Z.shiftl Z.add Z.mul].
      rewrite lor_shift_disjoint by lia. done.
    + rewrite bz_zb_small by lia. cbn -[Z.lor Z.shiftl Z.add Z.mul].
      rewrite lor_shift_disjoint by lia. done.
  - remember (S fuel) as f. cbn [PutUvarint_loop ReadUvarint_loop].
    assert (0 < 2 ^ (7 * i)) by (apply Z.pow_pos_nonneg; lia).
    destruct (Z.ltb_spec x 0x80).
    + cbn [app]. rewrite bz_zb_small by lia.
      replace (x <? 0x80) with true by lia. replace (i =? 9) with false by lia. cbn [andb].
      rewrite lor_shift_disjoint by lia. done.
    + cbn [app]. rewrite zb_cont_byte.
      pose proof (Z.mod_pos_bound x 128 ltac:(lia)).
      assert (Z.lor (x mod 128) 128 = x mod 128 + 128) as Hlor.
      { change 128 with (Z.shiftl 1 7) at 2. rewrite lor_shift_disjoint; cbn; lia. }
      rewrite Hlor. replace (x mod 128 + 128 <? 128) with false by lia.
      assert (Z.land (x mod 128 + 128) 127 = x mod 128) as ->.
      { rewrite <- Hlor, Z.land_lor_distr_l. cbn [Z.land Pos.land]. rewrite Z.lor_0_r.
        change 127 with (Z.ones 7). rewrite Z.land_ones by lia. apply Z.mod_mod. lia. }
      rewrite lor_shift_disjoint by lia.
      replace (7 * i + 7) with (7 * (i + 1)) by lia.
      rewrite Z.shiftr_div_pow2 by lia. change (2 ^ 7) with 128.
      pose proof (Z.div_mod x 128 ltac:(lia)).
      assert (2 ^ (7 * (i + 1)) = 128 * 2 ^ (7 * i)) as Hp.
      { replace (7 * (i + 1)) with (7 + 7 * i) by lia. rewrite Z.pow_add_r by lia. done. }
      rewrite IH; rewrite ?Hp; [f_equal; f_equal; nia|apply Z.div_pos; lia|lia|nia|lia|nia].
Qed.

(** The varint encoding of the standard library is read back exactly. *)
Lemma ReadUvarint_PutUvarint x rest :
  0 ≤ x < 2 ^ 64 → ReadUvarint (PutUvarint x ++ rest) = Ok (x, rest).
Proof.
  intros H. unfold ReadUvarint, PutUvarint.
  rewrite (ReadUvarint_loop_Put 9 x 0 0) by (cbn in *; lia).
  do 2 f_equal. cbn. lia.
Qed.

(** ** Counted loops *)

(** [for i := range n { v, err = rd(i); if err != nil { return }; list =
    append(list, v) }] started at index [i]. *)
Fixpoint repeat_read {A} (rd : Z → reader A) (n : nat) (i : Z) : reader (list A) := λ bs,
  match n with
  | O => Ok ([], bs)
  | S n => '(a, bs) ← rd i bs; '(l, bs) ← repeat_read rd n (i + 1) bs; Ok (a :: l, bs)
  end.

(** The same loop for a count read from the input, which can be as large as
    [2^64 - 1]: a body that takes at least one byte per round fails before round
    [len bs + 1] is over ([readN_unbounded]), so no more rounds are unfolded. *)
Definition readN {A} (rd : Z → reader A) (n : Z) : reader (list A) := λ bs,
  repeat_read rd (Z.to_nat (Z.min n (len bs + 1))) 0 bs.

Definition consuming {A} (rd : reader A) : Prop :=
  ∀ bs a bs', rd bs = Ok (a, bs') → (length bs' < length bs)%nat.

Lemma repeat_read_short {A} (rd : Z → reader A) n i bs l bs' :
  (∀ j, consuming (rd j)) → repeat_read rd n i bs = Ok (l, bs') → (n + length bs' ≤ length bs)%nat.
Proof.
  intros Hc. revert i bs l; induction n as [|n IH]; intros i bs l H; cbn in H; invert_ok.
  - lia.
  - match goal with H : repeat_read _ _ _ _ = _ |- _ => apply IH in H end.
    match goal with H : rd _ _ = _ |- _ => apply Hc in H end. lia.
Qed.

Lemma repeat_read_more {A} (rd : Z → reader A) n m i bs :
  ¬ is_ok (repeat_read rd n i bs) → repeat_read rd (n + m) i bs = repeat_read rd n i bs.
Proof.
  revert i bs; induction n as [|n IH]; intros i bs H; cbn in *; [by destruct H|].
  destruct (rd i bs) as [[a bs1]|e|p]; cbn in *; [|done|done].
  rewrite IH; [done|]. intros Hok. apply H.
  by destruct (repeat_read rd n (i + 1) bs1) as [[l k]|e|p].
Qed.

Lemma readN_unbounded {A} (rd : Z → reader A) n bs :
  (∀ j, consuming (rd j)) → readN rd n bs = repeat_read rd (Z.to_nat n) 0 bs.
Proof.
  intros Hc. unfold readN. destruct (Z.leb_spec n (len bs + 1)).
  { by rewrite Z.min_l by lia. }
  rewrite Z.min_r by lia. pose proof (len_nonneg bs).
  replace (Z.to_nat n) with (Z.to_nat (len bs + 1) + Z.to_nat (n - (len bs + 1)))%nat by lia.
  rewrite repeat_read_more; [done|].
  destruct (repeat_read rd (Z.to_nat (len bs + 1)) 0 bs) as [[l k]|e|p] eqn:E; [|by intros []..].
  apply repeat_read_short in E; [|done]. unfold len in *. lia.
Qed.

(** Reading back what a loop over [xs] wrote. *)
Lemma repeat_read_concat {A B} (enc : A → list byte) (rd : Z → reader B) (f : A → B) xs i rest :
  (∀ x j r, x ∈ xs → rd j (enc x ++ r) = Ok (f x, r)) →
  repeat_read rd (length xs) i (concat (enc <$> xs) ++ rest) = Ok (f <$> xs, rest).
Proof.
  revert i; induction xs as [|x xs IH]; intros i H; [done|].
  cbn. rewrite <- app_assoc, H by left. cbn.
  rewrite IH; [done|]. intros y j r Hy. apply H. by right.
Qed.

Lemma readN_concat {A B} (enc : A → list byte) (rd : Z → reader B) (f : A → B) xs rest :
  (∀ x j r, x ∈ xs → rd j (enc x ++ r) = Ok (f x, r)) →
  (∀ x, x ∈ xs → enc x ≠ []) →
  readN rd (len xs) (concat (enc <$> xs) ++ rest) = Ok (f <$> xs, rest).
Proof.
  intros H Hne. unfold readN. rewrite Z.min_l.
  - unfold len. rewrite Nat2Z.id. by apply repeat_read_concat.
  - rewrite len_app. pose proof (len_nonneg rest).
    assert (len xs ≤ len (concat (enc <$> xs))); [|lia].
    clear H. induction xs as [|x xs IH]; [done|]. cbn.
    rewrite len_app. specialize (IH ltac:(intros; apply Hne; by right)).
    assert (1 ≤ len (enc x)); [|unfold len in *; cbn [length] in *; lia].
    specialize (Hne x ltac:(left)). unfold len. destruct (enc x); [done|cbn [length]; lia].
Qed.

(** ** Fixed-width fields *)

Lemma ReadFull_app l rest : ReadFull (len l) (l ++ rest) = Ok (l, rest).
Proof.
  unfold ReadFull. rewrite len_app. pose proof (len_nonneg rest).
  replace (len l <=? _) with true by lia. unfold len. rewrite Nat2Z.id.
  by rewrite take_app_length, drop_app_length.
Qed.

Lemma ReadBE_put w z rest :
  0 ≤ w → 0 ≤ z < 256 ^ w → ReadBE w (put_be (Z.to_nat w) z ++ rest) = Ok (z, rest).
Proof.
  intros Hw Hz. unfold ReadBE.
  assert (len (put_be (Z.to_nat w) z) = w) as Hl by (unfold len; rewrite length_put_be; lia).
  rewrite <- Hl at 1. rewrite ReadFull_app. cbn. by rewrite be_put_be by (rewrite Z2Nat.id; lia).
Qed.

Lemma ReadU8_zb z rest : 0 ≤ z < 256 → ReadU8 (zb z :: rest) = Ok (z, rest).
Proof. intros. by apply (ReadBE_put 1 z rest). Qed.

(** Reading and writing fixed-width fields are inverse. *)
Lemma put_be_be l : put_be (length l) (be l) = l.
Proof.
  induction l as [|b l IH] using rev_ind; [done|].
  rewrite length_app, Nat.add_comm. cbn [length Nat.add put_be]. rewrite be_snoc. pose proof (bz_range b).
  rewrite Z.div_add_l, (Z.div_small (bz b)), Z.add_0_r, IH by lia. f_equal. f_equal.
  apply bz_inj. rewrite bz_zb, Z.add_comm, Z.mod_add by lia. by apply Z.mod_small.
Qed.
