(* ===== verification/GoSlices.v ===== *)
(** Slice expressions that can panic.

    [p[i]], [p[lo:hi]] and the fixed-width reads of [encoding/binary] panic
    out of range; here they return [Panic], so that "no input panics" is a
    theorem about the parsers and not an assumption of the model. *)

From S2P Require Import Prelude GoBytes.

(** ** Checked access *)

(** [p[i]] as an integer. *)
Definition idx (p : list byte) (i : Z) : result Z :=
  if (0 <=? i) && (i <? len p) then Ok (at_ p i) else Panic "index out of range".

(** [p[lo:hi]] and [p[lo:]]. *)
Definition slc {A} (p : list A) (lo hi : Z) : result (list A) :=
  if (0 <=? lo) && (lo <=? hi) && (hi <=? len p) then Ok (slice p lo hi)
  else Panic "slice bounds out of range".
Definition slc_from {A} (p : list A) (lo : Z) : result (list A) := slc p lo (len p).

(** [binary.BigEndian.UintN(p)] for [n] bytes. *)
Definition uint_be (n : Z) (p : list byte) : result Z :=
  b ← slc p 0 n; Ok (be b).

(** ** Safety *)

Definition safe {A} (r : result A) : Prop := match r with Panic _ => False | _ => True end.

Lemma safe_bind {A B} (r : result A) (f : A → result B) :
  safe r → (∀ a, r = Ok a → safe (f a)) → safe (r ≫= f).
Proof. destruct r; cbn; auto. Qed.

Lemma safe_fmap {A B} (f : A → B) (r : result A) : safe r → safe (f <$> r).
Proof. by destruct r. Qed.

Lemma len_cons {A} (x : A) l : len (x :: l) = 1 + len l.
Proof. unfold len. cbn [length]. lia. Qed.

Lemma len_nil {A} : len (@nil A) = 0.
Proof. done. Qed.

Lemma len_take {A} n (l : list A) : len (take n l) = Z.min (Z.of_nat n) (len l).
Proof. unfold len. rewrite length_take. lia. Qed.

Lemma len_drop {A} n (l : list A) : len (drop n l) = Z.max 0 (len l - Z.of_nat n).
Proof. unfold len. rewrite length_drop. lia. Qed.

Lemma len_slice {A} (l : list A) lo hi : 0 ≤ lo → lo ≤ hi → hi ≤ len l → len (slice l lo hi) = hi - lo.
Proof. intros. unfold slice. rewrite len_take, len_drop. lia. Qed.

Lemma idx_ok p i : 0 ≤ i < len p → idx p i = Ok (at_ p i).
Proof. intros. unfold idx. by replace (_ && _) with true by lia. Qed.

Lemma slc_ok {A} (p : list A) lo hi : 0 ≤ lo → lo ≤ hi → hi ≤ len p → slc p lo hi = Ok (slice p lo hi).
Proof. intros. unfold slc. by replace (_ && _) with true by lia. Qed.

Lemma slc_from_ok {A} (p : list A) lo : 0 ≤ lo ≤ len p → slc_from p lo = Ok (from p lo).
Proof.
  intros. unfold slc_from. rewrite slc_ok by lia. f_equal. unfold slice, from.
  rewrite take_ge; [done|]. rewrite length_drop. unfold len in *. lia.
Qed.

Lemma uint_be_ok n p : 0 ≤ n ≤ len p → uint_be n p = Ok (be (slice p 0 n)).
Proof. intros. unfold uint_be. by rewrite slc_ok by lia. Qed.

Lemma idx_len p i z : idx p i = Ok z → 0 ≤ i < len p ∧ z = at_ p i.
Proof. unfold idx. destruct (_ && _) eqn:E; intros; simplify_eq; lia. Qed.

Lemma slc_len {A} (p : list A) lo hi s : slc p lo hi = Ok s → len s = hi - lo ∧ 0 ≤ lo ≤ hi ∧ hi ≤ len p.
Proof.
  unfold slc. destruct (_ && _ && _) eqn:E; intros; simplify_eq.
  split; [apply len_slice|]; lia.
Qed.

Lemma idx_safe p i : 0 ≤ i < len p → safe (idx p i).
Proof. intros. by rewrite idx_ok. Qed.

Lemma slc_safe {A} (p : list A) lo hi : 0 ≤ lo → lo ≤ hi → hi ≤ len p → safe (slc p lo hi).
Proof. intros. by rewrite slc_ok. Qed.

Lemma slc_from_safe {A} (p : list A) lo : 0 ≤ lo ≤ len p → safe (slc_from p lo).
Proof. intros. by rewrite slc_from_ok. Qed.

Lemma uint_be_safe n p : 0 ≤ n ≤ len p → safe (uint_be n p).
Proof. intros. by rewrite uint_be_ok. Qed.

Lemma len_from {A} (l : list A) lo : 0 ≤ lo ≤ len l → len (from l lo) = len l - lo.
Proof. intros. unfold from. rewrite len_drop. lia. Qed.

Lemma slice_app_skip {A} (l k : list A) lo hi : len l ≤ lo → slice (l ++ k) lo hi = slice k (lo - len l) (hi - len l).
Proof.
  intros. unfold slice, len in *. rewrite drop_app_ge by lia. f_equal; [lia|]. f_equal. lia.
Qed.

Lemma slice_app_head {A} (l k : list A) n : n = len l → slice (l ++ k) 0 n = l.
Proof.
  intros ->. unfold slice, len. rewrite Z.sub_0_r, Nat2Z.id. cbn. apply take_app_length.
Qed.

Lemma slice_whole {A} (l : list A) n : n = len l → slice l 0 n = l.
Proof. intros ->. unfold slice, len. rewrite Z.sub_0_r, Nat2Z.id. apply firstn_all. Qed.

Lemma slice_take_drop {A} (l : list A) lo mid :
  0 ≤ lo → lo ≤ mid → mid ≤ len l → l = take (Z.to_nat lo) l ++ slice l lo mid ++ from l mid.
Proof.
  intros. unfold slice, from. rewrite <- (take_drop (Z.to_nat lo) l) at 1. f_equal.
  rewrite <- (take_drop (Z.to_nat (mid - lo)) (drop _ l)) at 1. f_equal.
  rewrite drop_drop. f_equal. lia.
Qed.

(** ** The proof of safety *)

(** Turns boolean comparisons into propositions [lia] can use. *)
Ltac bools :=
  repeat match goal with
  | H : (_ && _) = true |- _ => apply andb_true_iff in H as [? ?]
  | H : (_ || _) = false |- _ => apply orb_false_iff in H as [? ?]
  | H : negb _ = true |- _ => apply negb_true_iff in H
  | H : negb _ = false |- _ => apply negb_false_iff in H
  | H : (_ <? _) = true |- _ => apply Z.ltb_lt in H
  | H : (_ <? _) = false |- _ => apply Z.ltb_ge in H
  | H : (_ <=? _) = true |- _ => apply Z.leb_le in H
  | H : (_ <=? _) = false |- _ => apply Z.leb_gt in H
  | H : (_ =? _) = true |- _ => apply Z.eqb_eq in H
  | H : (_ =? _) = false |- _ => apply Z.eqb_neq in H
  end.

(** Facts that [lia] needs about the values a checked access returned. *)
Ltac slice_facts :=
  repeat match goal with
  | H : idx ?p ?i = Ok ?z |- _ =>
      let H' := fresh in pose proof (at_range p i) as H'; apply idx_len in H as [? ?]; subst z
  | H : slc ?p ?lo ?hi = Ok ?s |- _ => apply slc_len in H
  | H : slc_from ?p ?lo = Ok ?s |- _ => unfold slc_from in H; apply slc_len in H
  | H : uint_be ?n ?p = Ok ?z |- _ =>
      unfold uint_be in H; apply bind_Ok in H as (? & ? & H); apply Ok_inj in H; subst z
  end.

(** A model function is safe because every access sits behind its guard. *)
Ltac solve_safe :=
  repeat match goal with
  | |- safe (Ok _) => exact I
  | |- safe (Err _) => exact I
  | |- safe (_ ≫= _) => apply safe_bind; [|intros ? ?; slice_facts]
  | |- safe (_ <$> _) => apply safe_fmap
  | |- safe (if ?b then _ else _) => let E := fresh "E" in destruct b eqn:E
  | |- safe (let '(_, _) := ?x in _) => destruct x
  | |- safe (idx _ _) => apply idx_safe; bools; lia
  | |- safe (slc _ _ _) => apply slc_safe; bools; lia
  | |- safe (slc_from _ _) => apply slc_from_safe; bools; lia
  | |- safe (uint_be _ _) => apply uint_be_safe; bools; lia
  end.

(** ** Access into concatenations *)

Lemma len_put_be n z : len (put_be n z) = Z.of_nat n.
Proof. unfold len. by rewrite length_put_be. Qed.

(** Equations between boolean combinations of comparisons. *)
Ltac bool_lia := apply eq_true_iff_eq; rewrite ?andb_true_iff, ?orb_true_iff, ?Z.leb_le, ?Z.ltb_lt, ?Z.eqb_eq; lia.

Lemma idx_skip l r i : len l ≤ i → idx (l ++ r) i = idx r (i - len l).
Proof.
  intros. unfold idx, at_. rewrite len_app. pose proof (len_nonneg l).
  replace ((0 <=? i) && (i <? len l + len r)) with ((0 <=? i - len l) && (i - len l <? len r)) by bool_lia.
  case_match; [|done]. unfold len in *. rewrite lookup_app_r by lia.
  by replace (Z.to_nat i - length l)%nat with (Z.to_nat (i - Z.of_nat (length l))) by lia.
Qed.

Lemma idx_head b r : idx (b :: r) 0 = Ok (bz b).
Proof. unfold idx. rewrite len_cons. pose proof (len_nonneg r). by replace (_ && _) with true by lia. Qed.

Lemma slc_from_skip {A} (l r : list A) i : len l ≤ i → slc_from (l ++ r) i = slc_from r (i - len l).
Proof.
  intros. unfold slc_from, slc. rewrite len_app. pose proof (len_nonneg l).
  replace ((0 <=? i) && (i <=? len l + len r) && (len l + len r <=? len l + len r))
    with ((0 <=? i - len l) && (i - len l <=? len r) && (len r <=? len r)) by bool_lia.
  case_match; [|done]. f_equal. rewrite slice_app_skip by lia. f_equal. lia.
Qed.

Lemma slc_from_0 {A} (l : list A) : slc_from l 0 = Ok l.
Proof. pose proof (len_nonneg l). by rewrite slc_from_ok by lia. Qed.

Lemma slc_skip {A} (l r : list A) i j : len l ≤ i → slc (l ++ r) i j = slc r (i - len l) (j - len l).
Proof.
  intros. unfold slc. rewrite len_app. pose proof (len_nonneg l).
  replace ((0 <=? i) && (i <=? j) && (j <=? len l + len r))
    with ((0 <=? i - len l) && (i - len l <=? j - len l) && (j - len l <=? len r)) by bool_lia.
  case_match; [|done]. by rewrite slice_app_skip by lia.
Qed.

Lemma slc_head {A} (l r : list A) n : n = len l → slc (l ++ r) 0 n = Ok l.
Proof.
  intros ->. pose proof (len_nonneg l). pose proof (len_nonneg r).
  rewrite slc_ok by (rewrite ?len_app; lia). by rewrite slice_app_head.
Qed.

Lemma uint_be_put n z r : 0 ≤ n → 0 ≤ z < 256 ^ n → uint_be n (put_be (Z.to_nat n) z ++ r) = Ok z.
Proof.
  intros Hn Hz. unfold uint_be. rewrite slc_head by (rewrite len_put_be; lia). cbn.
  by rewrite be_put_be by (rewrite Z2Nat.id; lia).
Qed.

(** Cutting a packet into fields. *)
Lemma slice_split {A} (l : list A) a b c : 0 ≤ a → a ≤ b → b ≤ c → slice l a c = slice l a b ++ slice l b c.
Proof.
  intros. unfold slice. replace (Z.to_nat (c - a)) with (Z.to_nat (b - a) + Z.to_nat (c - b))%nat by lia.
  rewrite <- take_take_drop, drop_drop. do 3 f_equal. lia.
Qed.

Lemma be_field l n z : 0 ≤ n → len l = n → be l = z → l = put_be (Z.to_nat n) z.
Proof. intros Hn Hl <-. rewrite <- (put_be_be l) at 1. f_equal. unfold len in Hl. lia. Qed.

Lemma slice_one (p : list byte) i : 0 ≤ i < len p → slice p i (i + 1) = [zb (at_ p i)].
Proof.
  intros Hi. unfold slice, at_, len in *. replace (Z.to_nat (i + 1 - i)) with 1%nat by lia.
  destruct (lookup_lt_is_Some_2 p (Z.to_nat i) ltac:(lia)) as [b Hb]. rewrite Hb, zb_bz.
  by rewrite (drop_S p b _ Hb).
Qed.
