(* ===== verification/GoStrings.v ===== *)
(** Strings: what the modelled code uses of Go's [strings] and [strconv].

    A Go string is a byte string, here [String.string]. *)

From S2P Require Import Prelude GoBytes.

(** [strings.HasPrefix(s, p)]. *)
Definition HasPrefix (s p : string) : bool := String.prefix p s.

(** [strings.Contains(s, sub)]. *)
Fixpoint Contains (s sub : string) : bool :=
  HasPrefix s sub ||
  match s with EmptyString => false | String _ s' => Contains s' sub end.

(** [strings.Cut(s, sep)] for a one-byte separator: the text before and after
    its first occurrence. *)
Fixpoint Cut (s : string) (sep : ascii) : option (string * string) :=
  match s with
  | EmptyString => None
  | String c s' =>
      if Ascii.eqb c sep then Some (EmptyString, s')
      else match Cut s' sep with
           | Some (l, r) => Some (String c l, r)
           | None => None
           end
  end.

(** [strings.Join(l, sep)]. *)
Fixpoint Join (l : list string) (sep : string) : string :=
  match l with
  | [] => EmptyString
  | [s] => s
  | s :: l => String.append s (String.append sep (Join l sep))
  end.

(** [strings.Split(s, sep)] for a one-byte separator. *)
Fixpoint Split (s : string) (sep : ascii) : list string :=
  match s with
  | EmptyString => [EmptyString]
  | String c s' =>
      if Ascii.eqb c sep then EmptyString :: Split s' sep
      else match Split s' sep with
           | w :: ws => String c w :: ws
           | [] => [String c EmptyString]
           end
  end.

(** [s[n:]]. *)
Fixpoint str_from (s : string) (n : nat) : string :=
  match n, s with
  | O, _ => s
  | S n, EmptyString => EmptyString
  | S n, String _ s => str_from s n
  end.

Definition digit (c : ascii) : option Z :=
  let n := Z.of_N (N_of_ascii c) in
  if (48 <=? n) && (n <=? 57) then Some (n - 48) else None.

Definition ErrSyntax : goerr := ErrExternal "strconv: invalid syntax".
Definition ErrRange : goerr := ErrExternal "strconv: value out of range".

Fixpoint ParseUint_loop (s : string) (n max : Z) : result Z :=
  match s with
  | EmptyString => Ok n
  | String c s =>
      match digit c with
      | None => Err ErrSyntax
      | Some d => if max <? n * 10 + d then Err ErrRange else ParseUint_loop s (n * 10 + d) max
      end
  end.

(** [strconv.ParseUint(s, 10, bitSize)] with [max = 2^bitSize - 1]. *)
Definition ParseUint (s : string) (max : Z) : result Z :=
  match s with EmptyString => Err ErrSyntax | _ => ParseUint_loop s 0 max end.

Lemma digit_range c d : digit c = Some d → 0 ≤ d ≤ 9.
Proof. unfold digit. case_match eqn:E; intros; simplify_eq. lia. Qed.

Lemma ParseUint_loop_bound s n max z :
  0 ≤ n ≤ max → ParseUint_loop s n max = Ok z → 0 ≤ z ≤ max.
Proof.
  revert n; induction s as [|c s IH]; intros n Hn H; cbn in H; [by simplify_eq|].
  destruct (digit c) as [d|] eqn:Hd; [|done]. apply digit_range in Hd.
  destruct (Z.ltb_spec max (n * 10 + d)); [done|]. eapply IH; [|done]. lia.
Qed.

Lemma ParseUint_bound s max z : 0 ≤ max → ParseUint s max = Ok z → 0 ≤ z ≤ max.
Proof.
  intros Hm H. unfold ParseUint in H. destruct s; [done|].
  eapply ParseUint_loop_bound; [|done]. lia.
Qed.

(** ** Decimal printing *)

Definition digit_char (d : Z) : ascii := ascii_of_N (Z.to_N (48 + d)).

Lemma digit_digit_char d : 0 ≤ d ≤ 9 → digit (digit_char d) = Some d.
Proof.
  intros Hd. unfold digit, digit_char. rewrite N_ascii_embedding by lia.
  rewrite Z2N.id by lia. replace (48 <=? 48 + d) with true by lia.
  replace (48 + d <=? 57) with true by lia. cbn. f_equal. lia.
Qed.

(** [strconv.FormatUint] of a number below [10^fuel]. *)
Fixpoint format_loop (fuel : nat) (n : Z) (acc : string) : string :=
  match fuel with
  | O => acc
  | S fuel =>
      let acc := String (digit_char (n mod 10)) acc in
      if n / 10 =? 0 then acc else format_loop fuel (n / 10) acc
  end.
Definition FormatUint (n : Z) : string := format_loop 20 n EmptyString.

Lemma ParseUint_loop_mono s n m max z :
  0 ≤ n ≤ m → ParseUint_loop s m max = Ok z → is_ok (ParseUint_loop s n max).
Proof.
  revert n m; induction s as [|c s IH]; intros n m Hn H; cbn in *; [done|].
  destruct (digit c) as [d|] eqn:Hd; [|done]. apply digit_range in Hd.
  destruct (Z.ltb_spec max (m * 10 + d)); [done|].
  destruct (Z.ltb_spec max (n * 10 + d)); [lia|]. eapply IH; [|done]. lia.
Qed.

(** Parsing the printed digits in front of [acc] continues on [acc] from the
    number printed. *)
Lemma ParseUint_format_loop fuel n acc max :
  0 ≤ n ≤ max → n < 10 ^ Z.of_nat fuel → (0 < fuel)%nat →
  ParseUint_loop (format_loop fuel n acc) 0 max = ParseUint_loop acc n max.
Proof.
  revert n acc; induction fuel as [|fuel IH]; intros n acc Hn Hlt Hf; [lia|].
  cbn [format_loop]. pose proof (Z.div_mod n 10 ltac:(lia)).
  pose proof (Z.mod_pos_bound n 10 ltac:(lia)).
  destruct (Z.eqb_spec (n / 10) 0) as [E|E].
  - cbn [ParseUint_loop]. rewrite digit_digit_char by lia.
    replace (0 * 10 + n mod 10) with n by lia. by replace (max <? n) with false by lia.
  - rewrite Nat2Z.inj_succ, Z.pow_succ_r in Hlt by lia.
    assert (0 < n / 10) by lia.
    rewrite IH; [|lia|lia|destruct fuel; [cbn in Hlt; lia|lia]].
    cbn [ParseUint_loop]. rewrite digit_digit_char by lia.
    replace (n / 10 * 10 + n mod 10) with n by lia. by replace (max <? n) with false by lia.
Qed.

Lemma format_loop_nonempty fuel n acc : (0 < fuel)%nat → format_loop fuel n acc ≠ EmptyString.
Proof.
  revert n acc; induction fuel as [|fuel IH]; intros n acc Hf; [lia|]. cbn.
  case_match; [done|]. destruct fuel; [done|]. apply IH. lia.
Qed.

Lemma ParseUint_FormatUint n max :
  0 ≤ n ≤ max → n < 10 ^ 20 → ParseUint (FormatUint n) max = Ok n.
Proof.
  intros Hn Hlt. unfold ParseUint, FormatUint.
  destruct (format_loop 20 n EmptyString) eqn:E; [by apply format_loop_nonempty in E; [|lia]|].
  rewrite <- E, ParseUint_format_loop by (cbn; lia). done.
Qed.
