(* ===== verification/Netip.v ===== *)
(** Addresses, prefixes and address sets.

    What the routing code uses of Go's [net/netip]: [Addr], [Prefix] and the
    methods called on them, and the range list behind [netipx.IPSet], whose
    layout [common/srs/ip_set.go] spells out ([myIPSet], [myIPRange]). *)

From S2P Require Import Prelude GoBytes.

(** [netip.Addr]: the zero value, an IPv4 address, an IPv6 address with zone. *)
Inductive Addr : Type :=
| AddrZero
| Addr4 (ip : Z)
| Addr6 (ip : Z) (zone : string).

#[export] Instance addr_eq_dec : EqDecision Addr.
Proof. solve_decision. Defined.

Definition addr_wf (a : Addr) : Prop :=
  match a with
  | AddrZero => True
  | Addr4 ip => 0 ≤ ip < 2 ^ 32
  | Addr6 ip _ => 0 ≤ ip < 2 ^ 128
  end.

Definition Addr_IsValid (a : Addr) : bool :=
  match a with AddrZero => false | _ => true end.
Definition Addr_Is4 (a : Addr) : bool :=
  match a with Addr4 _ => true | _ => false end.
Definition Addr_BitLen (a : Addr) : Z :=
  match a with AddrZero => 0 | Addr4 _ => 32 | Addr6 _ _ => 128 end.
Definition Addr_hasZone (a : Addr) : bool :=
  match a with Addr6 _ z => negb (String.eqb z "") | _ => false end.
Definition Addr_withoutZone (a : Addr) : Addr :=
  match a with Addr6 ip _ => Addr6 ip "" | _ => a end.
Definition Addr_bits (a : Addr) : Z :=
  match a with AddrZero => 0 | Addr4 ip => ip | Addr6 ip _ => ip end.

(** [Addr.Unmap]: an IPv4-mapped IPv6 address becomes the IPv4 address. *)
Definition Addr_Unmap (a : Addr) : Addr :=
  match a with
  | Addr6 ip _ => if ip / 2 ^ 32 =? 0xffff then Addr4 (ip mod 2 ^ 32) else a
  | _ => a
  end.

(** [Addr.AsSlice]: big-endian bytes, none for the zero address. *)
Definition Addr_AsSlice (a : Addr) : list byte :=
  match a with
  | AddrZero => []
  | Addr4 ip => put_be 4 ip
  | Addr6 ip _ => put_be 16 ip
  end.

(** [netip.AddrFromSlice]: four or sixteen bytes, the zero address otherwise. *)
Definition AddrFromSlice (b : list byte) : Addr :=
  if len b =? 4 then Addr4 (be b)
  else if len b =? 16 then Addr6 (be b) ""
  else AddrZero.

Lemma AddrFromSlice_AsSlice a :
  addr_wf a → Addr_hasZone a = false → AddrFromSlice (Addr_AsSlice a) = a.
Proof.
  destruct a as [|ip|ip z]; intros Hwf Hz; [done|..]; unfold AddrFromSlice, Addr_AsSlice, len;
    rewrite length_put_be; cbn [Z.of_nat Pos.of_succ_nat Pos.succ Z.eqb Pos.eqb];
    rewrite be_put_be by (cbn in *; lia); [done|].
  apply negb_false_iff, String.eqb_eq in Hz as ->. done.
Qed.

(** [netip.Prefix]; [-1] bits is the invalid prefix. *)
Record Prefix : Type := mkPrefix { p_addr : Addr; p_bits : Z }.

#[export] Instance prefix_eq_dec : EqDecision Prefix.
Proof. solve_decision. Defined.

Definition PrefixZero : Prefix := mkPrefix AddrZero (-1).

Definition PrefixFrom (ip : Addr) (bits : Z) : Prefix :=
  mkPrefix (Addr_withoutZone ip)
    (if Addr_IsValid ip && (0 <=? bits) && (bits <=? Addr_BitLen ip) then bits else -1).

Definition Prefix_IsValid (p : Prefix) : bool := 0 <=? p_bits p.

(** The [n] leading bits of an address, the rest cleared. *)
Definition Addr_masked (a : Addr) (n : Z) : Addr :=
  let clear ip := Z.shiftl (Z.shiftr ip (Addr_BitLen a - n)) (Addr_BitLen a - n) in
  match a with
  | AddrZero => AddrZero
  | Addr4 ip => Addr4 (clear ip)
  | Addr6 ip _ => Addr6 (clear ip) ""
  end.

(** [Prefix.Contains]. *)
Definition Prefix_Contains (p : Prefix) (ip : Addr) : bool :=
  if negb (Prefix_IsValid p) || Addr_hasZone ip then false
  else
    let f1 := Addr_BitLen (p_addr p) in let f2 := Addr_BitLen ip in
    if (f1 =? 0) || (f2 =? 0) || negb (f1 =? f2) then false
    else Z.shiftr (Z.lxor (Addr_bits ip) (Addr_bits (p_addr p))) (f2 - p_bits p) =? 0.

(** [Prefix.Overlaps]. *)
Definition Prefix_Overlaps (p o : Prefix) : bool :=
  if negb (Prefix_IsValid p) || negb (Prefix_IsValid o) then false
  else if bool_decide (p = o) then true
  else if negb (Bool.eqb (Addr_Is4 (p_addr p)) (Addr_Is4 (p_addr o))) then false
  else
    let minBits := Z.min (p_bits p) (p_bits o) in
    if minBits =? 0 then true
    else bool_decide (Addr_masked (p_addr p) minBits = Addr_masked (p_addr o) minBits).

Lemma Prefix_Overlaps_sym p o : Prefix_Overlaps p o = Prefix_Overlaps o p.
Proof.
  unfold Prefix_Overlaps. rewrite (orb_comm (negb (Prefix_IsValid p))), (Z.min_comm (p_bits o)).
  rewrite (bool_decide_ext (p = o) (o = p)) by done.
  destruct (Addr_Is4 (p_addr p)), (Addr_Is4 (p_addr o)); cbn;
    by repeat (case_match || case_bool_decide).
Qed.

(** [myIPRange] and [myIPSet] of [common/srs/ip_set.go]: the layout of a
    [netipx.IPSet], an ordered list of inclusive ranges. *)
Record IPRange : Type := mkIPRange { r_from : Addr; r_to : Addr }.
Definition IPSet : Type := list IPRange.

#[export] Instance iprange_eq_dec : EqDecision IPRange.
Proof. solve_decision. Defined.

(** [M.Socksaddr]: an address or a domain name, with a port. *)
Record Socksaddr : Type := mkSocksaddr {
  sa_Addr : Addr;
  sa_Port : Z;
  sa_Fqdn : string
}.
