(* ===== verification/Metadata.v ===== *)
(** The connection metadata ([adapter/inbound.go]) and the external code the
    routing packages call.

    [InboundContext] carries what the sniffers learn and what the rules read.
    The fields under the source's "rule cache" comment, the only ones rule
    matching writes, form the record [RuleCache]. *)

From S2P Require Import Prelude GoBytes Netip.

(** ** DNS messages *)

(** [dns.SVCBKeyValue] of an HTTPS record, as far as it carries addresses. *)
Inductive SVCBValue : Type :=
| SVCBIPv4Hint (hint : list (list byte))
| SVCBIPv6Hint (hint : list (list byte))
| SVCBOther.

(** [dns.RR]: the record types the code inspects, and the others by name. *)
Inductive RR : Type :=
| RR_A (name : string) (ip : list byte)
| RR_AAAA (name : string) (ip : list byte)
| RR_HTTPS (name : string) (value : list SVCBValue)
| RR_Other (name rdata : string).

Record Msg : Type := mkMsg {
  msg_Response : bool;
  msg_Rcode : Z;
  msg_Question : list string;
  msg_Answer : list RR;
  msg_Ns : list RR;
  msg_Extra : list RR
}.

Definition RcodeSuccess : Z := 0.

(** ** Code outside the repository *)

(** Types and functions of Go's [regexp], [net], [path/filepath] and [strings],
    of [go4.org/netipx], [github.com/miekg/dns] and [github.com/sagernet/sing]
    that the modelled code calls.  Nothing is assumed about them here. *)
Class External : Type := {
  Regexp : Type;
  regexp_Compile : string → result Regexp;
  Regexp_MatchString : Regexp → string → bool;
  Matcher : Type;
  NewMatcher : list string → list string → bool → Matcher;
  Matcher_Match : Matcher → string → bool;
  AdGuardMatcher : Type;
  NewAdGuardMatcher : list string → AdGuardMatcher;
  AdGuardMatcher_Match : AdGuardMatcher → string → bool;
  ParsePrefix : string → result Prefix;
  ParseAddr : string → result Addr;
  IPSetBuilder_IPSet : list (Prefix + Addr) → result IPSet;
  IPSet_Contains : IPSet → Addr → bool;
  AddrFromIP : list byte → Addr;
  IsPublicAddr : Addr → bool;
  Socksaddr_IsIP : Socksaddr → bool;
  Socksaddr_IsIPv6 : Socksaddr → bool;
  ParseMAC : string → result (list byte);
  HardwareAddr_String : list byte → string;
  dns_IsDuplicate : RR → RR → bool;
  dns_CanonicalName : string → string;
  filepath_Base : string → string;
  strings_ToLower : string → string;
  strings_EqualFold : string → string → bool;
  Prefix_String : Prefix → string;
  dns_TypeToString : Z → option string;
  dns_RcodeToString : Z → string;
  RR_String : RR → string;
  ParseSocksaddrHostPort : string → Z → Socksaddr;
  Socksaddr_IsValid : Socksaddr → bool;
  Socksaddr_AddrString : Socksaddr → string;
  Duration_String : Z → string;
  common_Uniq : list string → list string
}.

(** ** InboundContext *)

(** [adapter.ConnectionOwner], the fields the rule items read. *)
Record ConnectionOwner : Type := mkOwner {
  po_UserName : string;
  po_UserId : Z;
  po_ProcessPath : string;
  po_AndroidPackageNames : list string
}.

(** The "rule cache" fields of [InboundContext]. *)
Record RuleCache : Type := mkCache {
  IPCIDRMatchSource : bool;
  IPCIDRAcceptEmpty : bool;
  SourceAddressMatch : bool;
  SourcePortMatch : bool;
  DestinationAddressMatch : bool;
  DestinationPortMatch : bool;
  DeferredIPCIDRMatchGroups : Z;
  IgnoreDestinationIPCIDRMatch : bool
}.

Record InboundContext : Type := mkContext {
  Inbound : string;
  IPVersion : Z;
  Network : string;
  Source : Socksaddr;
  Destination : Socksaddr;
  User : string;
  Outbound : string;
  Protocol : string;
  Domain : string;
  Client : string;
  DestinationAddresses : list Addr;
  DNSResponse : option Msg;
  NamedDNSResponses : gmap string Msg;
  DestinationAddressMatchFromResponse : bool;
  ProcessInfo : option ConnectionOwner;
  SourceMACAddress : option (list byte);
  SourceHostname : string;
  QueryType : Z;
  QueryClientSubnet : Prefix;
  QueryDNSSEC : bool;
  cache : RuleCache
}.

(** Go's [metadata.f = v] on the fields the model assigns. *)
Definition set_cache (c : RuleCache) (m : InboundContext) : InboundContext :=
  match m with mkContext a b c0 d e f g h i j k l n o p q r s t u _ =>
    mkContext a b c0 d e f g h i j k l n o p q r s t u c end.
Definition set_Protocol (v : string) (m : InboundContext) : InboundContext :=
  match m with mkContext a b c d e f g _ i j k l n o p q r s t u w =>
    mkContext a b c d e f g v i j k l n o p q r s t u w end.
Definition set_Domain (v : string) (m : InboundContext) : InboundContext :=
  match m with mkContext a b c d e f g h _ j k l n o p q r s t u w =>
    mkContext a b c d e f g h v j k l n o p q r s t u w end.
Definition set_Client (v : string) (m : InboundContext) : InboundContext :=
  match m with mkContext a b c d e f g h i _ k l n o p q r s t u w =>
    mkContext a b c d e f g h i v k l n o p q r s t u w end.
(** [m.DNSResponse = v; m.DestinationAddressMatchFromResponse = true]. *)
Definition with_response (v : option Msg) (m : InboundContext) : InboundContext :=
  match m with mkContext a b c d e f g h i j k _ n _ p q r s t u w =>
    mkContext a b c d e f g h i j k v n true p q r s t u w end.

Definition on_cache (f : RuleCache → RuleCache) (m : InboundContext) : InboundContext :=
  set_cache (f (cache m)) m.

Definition set_IPCIDRMatchSource (v : bool) (c : RuleCache) : RuleCache :=
  match c with mkCache _ b d e f g h i => mkCache v b d e f g h i end.
Definition set_IPCIDRAcceptEmpty (v : bool) (c : RuleCache) : RuleCache :=
  match c with mkCache a _ d e f g h i => mkCache a v d e f g h i end.
Definition set_Deferred (v : Z) (c : RuleCache) : RuleCache :=
  match c with mkCache a b d e f g _ i => mkCache a b d e f g v i end.
Definition set_IgnoreDestinationIPCIDRMatch (v : bool) (c : RuleCache) : RuleCache :=
  match c with mkCache a b d e f g h _ => mkCache a b d e f g h v end.

(** [metadata.DeferredIPCIDRMatchGroups]. *)
Definition deferred (m : InboundContext) : Z := DeferredIPCIDRMatchGroups (cache m).
Definition matchSource (m : InboundContext) : bool := IPCIDRMatchSource (cache m).
Definition acceptEmpty (m : InboundContext) : bool := IPCIDRAcceptEmpty (cache m).
Definition ignoreDst (m : InboundContext) : bool := IgnoreDestinationIPCIDRMatch (cache m).

(** [func (c *InboundContext) ResetRuleMatchCache()]. *)
Definition ResetRuleMatchCache (m : InboundContext) : InboundContext :=
  on_cache (λ c, match c with mkCache a b _ _ _ _ _ i => mkCache a b false false false false 0 i end) m.

(** [func (c *InboundContext) ResetRuleCache()]. *)
Definition ResetRuleCache (m : InboundContext) : InboundContext :=
  ResetRuleMatchCache (on_cache (λ c, set_IPCIDRAcceptEmpty false (set_IPCIDRMatchSource false c)) m).

Section addresses.
Context {EX : External}.

Definition hint_addresses (ips : list (list byte)) (f : Addr → Addr) : list Addr :=
  filter (λ a, Addr_IsValid a) ((λ ip, f (AddrFromIP ip)) <$> ips).

Definition svcb_addresses (v : SVCBValue) : list Addr :=
  match v with
  | SVCBIPv4Hint hint => hint_addresses hint Addr_Unmap
  | SVCBIPv6Hint hint => hint_addresses hint id
  | SVCBOther => []
  end.

Definition record_addresses (r : RR) : list Addr :=
  match r with
  | RR_A _ ip | RR_AAAA _ ip => hint_addresses [ip] id
  | RR_HTTPS _ value => value ≫= svcb_addresses
  | RR_Other _ _ => []
  end.

(** [func DNSResponseAddresses(response *dns.Msg) []netip.Addr]. *)
Definition DNSResponseAddresses (response : option Msg) : list Addr :=
  match response with
  | None => []
  | Some r => if negb (msg_Rcode r =? RcodeSuccess) then [] else msg_Answer r ≫= record_addresses
  end.

Definition DNSResponseAddressesForMatch (m : InboundContext) : list Addr :=
  DNSResponseAddresses (DNSResponse m).

Lemma hint_addresses_valid ips f : Forall (λ a, Addr_IsValid a = true) (hint_addresses ips f).
Proof.
  apply Forall_forall. intros a Ha. apply list_elem_of_filter in Ha as [Ha _].
  by destruct a.
Qed.

Lemma bind_valid {A} (f : A → list Addr) l :
  (∀ x, Forall (λ a, Addr_IsValid a = true) (f x)) →
  Forall (λ a, Addr_IsValid a = true) (l ≫= f).
Proof.
  intros H. apply Forall_forall. intros a (x & Ha & _)%list_elem_of_bind.
  revert a Ha. apply Forall_forall, H.
Qed.

(** Every address offered for matching is a valid one. *)
Lemma DNSResponseAddresses_valid r :
  Forall (λ a, Addr_IsValid a = true) (DNSResponseAddresses r).
Proof.
  destruct r as [r|]; [|constructor]. unfold DNSResponseAddresses.
  destruct (negb _); [constructor|]. apply bind_valid. intros [n ip|n ip|n v|].
  - apply (hint_addresses_valid [ip] id).
  - apply (hint_addresses_valid [ip] id).
  - apply bind_valid. intros []; [apply (hint_addresses_valid _ Addr_Unmap)
      |apply (hint_addresses_valid _ id)|constructor].
  - constructor.
Qed.
End addresses.

(** The part of the metadata matching never writes. *)
Definition same_identity (m m' : InboundContext) : Prop := ∀ c, set_cache c m = set_cache c m'.

#[export] Instance same_identity_equiv : Equivalence same_identity.
Proof. split; unfold same_identity; [done|by intros ??? ?|by intros ??? H1 H2 c; rewrite H1]. Qed.

Lemma set_cache_cache m : set_cache (cache m) m = m.
Proof. by destruct m. Qed.
Lemma cache_set_cache c m : cache (set_cache c m) = c.
Proof. by destruct m. Qed.
Lemma set_cache_set_cache c c' m : set_cache c (set_cache c' m) = set_cache c m.
Proof. by destruct m. Qed.
Lemma same_identity_set_cache c m : same_identity (set_cache c m) m.
Proof. intros c'. apply set_cache_set_cache. Qed.
Lemma same_identity_on_cache f m : same_identity (on_cache f m) m.
Proof. apply same_identity_set_cache. Qed.
Lemma same_identity_Reset m : same_identity (ResetRuleMatchCache m) m.
Proof. apply same_identity_on_cache. Qed.
Lemma same_identity_ResetRuleCache m : same_identity (ResetRuleCache m) m.
Proof. unfold ResetRuleCache. rewrite same_identity_Reset. apply same_identity_on_cache. Qed.

#[export] Hint Resolve same_identity_set_cache same_identity_on_cache same_identity_Reset
  same_identity_ResetRuleCache : singbox.
