(* ===== verification/RuleItems.v ===== *)
(** Rule items: the conditions a rule is made of ([route/rule/rule_item_*.go],
    [rule_*_interface_address.go]).

    Each Go type that implements [RuleItem] is a constructor of [RuleItem]; the
    [New*Item] functions build them and [RuleItem_Match] collects the [Match]
    methods.  No item writes to the metadata. *)

From S2P Require Import Prelude GoBytes GoStrings Netip Metadata.

(** ** Network state read at match time *)

(** [adapter.NetworkInterface], the fields the items read. *)
Record NetworkInterface : Type := mkIface {
  ni_Name : string;
  ni_Type : Z;
  ni_Addresses : list Prefix;
  ni_Expensive : bool;
  ni_Constrained : bool
}.

(** What the items ask of the running box: the network manager and its
    interface monitor, the clash mode manager ([None]: not present), the
    preferred routes of outbounds and DNS servers by tag, and the platform. *)
Record Runtime : Type := mkRuntime {
  rt_DefaultNetworkInterface : option NetworkInterface;
  rt_WIFI_SSID : string;
  rt_WIFI_BSSID : string;
  rt_Interfaces : list (string * list Prefix);
  rt_NetworkInterfaces : list NetworkInterface;
  rt_MyInterfaces : list string;
  rt_DefaultInterface : option (list Prefix);
  rt_ClashMode : option string;
  rt_PreferredDomain : string → InboundContext → string → bool;
  rt_PreferredAddress : string → InboundContext → Addr → bool;
  rt_DNSPreferredDomain : string → string → bool;
  rt_IsAndroid : bool
}.

(** ** Data *)

(** A list of values with the lookup map built from it. *)
Record keySet (K : Type) `{Countable K} : Type := mkKeySet {
  ks_values : list K;
  ks_map : gset K
}.
Arguments mkKeySet {K _ _} _ _.
Arguments ks_values {K _ _} _.
Arguments ks_map {K _ _} _.

(** [m := make(map[K]bool); for _, v := range values { m[v] = true }]. *)
Definition newKeySet {K} `{Countable K} (values : list K) : keySet K :=
  mkKeySet values (foldl (λ m v, {[v]} ∪ m) ∅ values).

(** [m[v]]. *)
Definition ks_has {K} `{Countable K} (s : keySet K) (v : K) : bool := bool_decide (v ∈ ks_map s).

(** [dnsResponseAnswers], [dnsResponseNS], [dnsResponseExtra]. *)
Inductive RecordSelector : Type := selAnswer | selNs | selExtra.

Definition select (s : RecordSelector) (m : Msg) : list RR :=
  match s with selAnswer => msg_Answer m | selNs => msg_Ns m | selExtra => msg_Extra m end.

(** [rangeItem]. *)
Record rangeItem : Type := mkRange { range_start : Z; range_end : Z }.

Inductive RuleItem `{!External} : Type :=
| InboundItem (inbounds : keySet string)
| IPVersionItem (isIPv6 : bool)
| NetworkItem (networks : keySet string)
| AuthUserItem (users : keySet string)
| ProtocolItem (protocols : keySet string)
| ClientItem (clients : keySet string)
| DomainItem (matcher : Matcher) (description : string)
| DomainKeywordItem (keywords : list string)
| DomainRegexItem (matchers : list Regexp) (description : string)
| AdGuardDomainItem (matcher : AdGuardMatcher)
| IPCIDRItem (ipSet : IPSet) (isSource : bool) (description : string)
| IPIsPrivateItem (isSource : bool)
| IPAcceptAnyItem
| PortItem (ports : keySet Z) (isSource : bool)
| PortRangeItem (isSource : bool) (portRanges : list string) (portRangeList : list rangeItem)
| ProcessItem (processes : keySet string)
| ProcessPathItem (processes : keySet string)
| ProcessPathRegexItem (matchers : list Regexp) (description : string)
| PackageNameItem (packageNames : keySet string)
| PackageNameRegexItem (matchers : list Regexp) (description : string)
| UserItem (users : keySet string)
| UserIdItem (userIds : keySet Z)
| QueryTypeItem (types : keySet Z)
| QueryClientSubnetItem (prefixes : list Prefix)
| QueryDNSSECItem
| OutboundItem (outbounds : list string) (outboundMap : gset string) (matchAny : bool)
| ClashModeItem (mode : string)
| NetworkTypeItem (networkType : list Z)
| NetworkIsExpensiveItem
| NetworkIsConstrainedItem
| WIFISSIDItem (ssids : keySet string)
| WIFIBSSIDItem (bssids : keySet string)
| InterfaceAddressItem (interfaceAddresses : gmap string (list Prefix)) (description : string)
| NetworkInterfaceAddressItem (interfaceAddresses : gmap Z (list Prefix)) (description : string)
| DefaultInterfaceAddressItem (interfaceAddresses : list Prefix)
| SourceMACAddressItem (addresses : list string) (addressMap : gset string)
| SourceHostnameItem (hostnames : keySet string)
| PreferredByItem (outboundTags : list string)
| PreferredByDNSItem (transportTags : list string)
| DNSResponseRCodeItem (rcode : Z)
| DNSResponseRecordItem (field : string) (records : list (option RR)) (selector : RecordSelector).

(** ** Constructors *)

Section items.
Context {EX : External}.

Definition NewInboundRule (inbounds : list string) : RuleItem := InboundItem (newKeySet inbounds).
Definition NewIPVersionItem (isIPv6 : bool) : RuleItem := IPVersionItem isIPv6.
Definition NewNetworkItem (networks : list string) : RuleItem := NetworkItem (newKeySet networks).
Definition NewAuthUserItem (users : list string) : RuleItem := AuthUserItem (newKeySet users).
Definition NewProtocolItem (protocols : list string) : RuleItem := ProtocolItem (newKeySet protocols).
Definition NewClientItem (clients : list string) : RuleItem := ClientItem (newKeySet clients).

(** [key=v] for one value, [key=[v w ...]] otherwise. *)
Definition describe (key : string) (l : list string) : string :=
  match l with
  | [v] => String.append key (String.append "=" v)
  | _ => String.append key (String.append "=[" (String.append (Join l " ") "]"))
  end.

(** The same, cut to three values with [tail] in front of the bracket. *)
Definition describe3 (key tail : string) (l : list string) : string :=
  if 3 <? len l then
    String.append key (String.append "=[" (String.append (Join (take 3 l) " ") (String.append tail "]")))
  else describe key l.

Definition NewDomainItem (domains domainSuffixes : list string) : result RuleItem :=
  if containsb EmptyString domains then Err (ErrNew "domain: empty item is not allowed")
  else if containsb EmptyString domainSuffixes then Err (ErrNew "domain_suffix: empty item is not allowed")
  else
    let description := if nonempty domains then describe3 "domain" "..." domains else EmptyString in
    let description :=
      if nonempty domainSuffixes then
        let description :=
          if String.eqb description "" then description else String.append description " " in
        String.append description (describe3 "domain_suffix" "..." domainSuffixes)
      else description in
    Ok (DomainItem (NewMatcher domains domainSuffixes false) description).

Definition NewRawDomainItem (matcher : Matcher) : RuleItem :=
  DomainItem matcher "domain/domain_suffix=<binary>".

Definition NewDomainKeywordItem (keywords : list string) : RuleItem := DomainKeywordItem keywords.

(** The loop shared by the three regular-expression items. *)
Fixpoint compileAll (i : Z) (expressions : list string) : result (list Regexp) :=
  match expressions with
  | [] => Ok []
  | regex :: rest =>
      matcher ← wrap_cause (String.append "parse expression " (pretty i)) (regexp_Compile regex);
      matchers ← compileAll (i + 1) rest;
      Ok (matcher :: matchers)
  end.

Definition NewDomainRegexItem (expressions : list string) : result RuleItem :=
  matchers ← compileAll 0 expressions;
  Ok (DomainRegexItem matchers (describe3 "domain_regex" "" expressions)).

Definition NewProcessPathRegexItem (expressions : list string) : result RuleItem :=
  matchers ← compileAll 0 expressions;
  Ok (ProcessPathRegexItem matchers (describe3 "process_path_regex" "" expressions)).

Definition NewPackageNameRegexItem (expressions : list string) : result RuleItem :=
  matchers ← compileAll 0 expressions;
  Ok (PackageNameRegexItem matchers (describe3 "package_name_regex" "" expressions)).

Definition NewAdGuardDomainItem (ruleLines : list string) : RuleItem :=
  AdGuardDomainItem (NewAdGuardMatcher ruleLines).
Definition NewRawAdGuardDomainItem (matcher : AdGuardMatcher) : RuleItem := AdGuardDomainItem matcher.

(** The [netip.ParsePrefix]-then-[netip.ParseAddr] loop over CIDR strings that
    feeds an [IPSetBuilder]. *)
Fixpoint parseCIDRs (i : Z) (prefixStrings : list string) : result (list (Prefix + Addr)) :=
  match prefixStrings with
  | [] => Ok []
  | prefixString :: rest =>
      match ParsePrefix prefixString with
      | Ok prefix => entries ← parseCIDRs (i + 1) rest; Ok (inl prefix :: entries)
      | Err err =>
          match ParseAddr prefixString with
          | Ok addr => entries ← parseCIDRs (i + 1) rest; Ok (inr addr :: entries)
          | _ => Err (ErrCause err (String.append "parse [" (String.append (pretty i) "]")))
          end
      | Panic p => Panic p
      end
  end.

Definition cidrKey (isSource : bool) : string := if isSource then "source_ip_cidr" else "ip_cidr".

Definition NewIPCIDRItem (isSource : bool) (prefixStrings : list string) : result RuleItem :=
  entries ← parseCIDRs 0 prefixStrings;
  ipSet ← IPSetBuilder_IPSet entries;
  Ok (IPCIDRItem ipSet isSource (describe3 (cidrKey isSource) "..." prefixStrings)).

Definition NewRawIPCIDRItem (isSource : bool) (ipSet : IPSet) : RuleItem :=
  IPCIDRItem ipSet isSource (String.append (cidrKey isSource) "=<binary>").

Definition NewIPIsPrivateItem (isSource : bool) : RuleItem := IPIsPrivateItem isSource.
Definition NewIPAcceptAnyItem : RuleItem := IPAcceptAnyItem.

Definition NewPortItem (isSource : bool) (ports : list Z) : RuleItem := PortItem (newKeySet ports) isSource.

Definition ErrBadPortRange : goerr := ErrNew "bad port range".

(** One iteration of the loop of [NewPortRangeItem]. *)
Definition parsePortRange (portRange : string) : result rangeItem :=
  match Cut portRange ":" with
  | None => Err (ErrExtend ErrBadPortRange portRange)
  | Some (before, after) =>
      let bad r := match r with
                   | Err e => Err (ErrCause e (String.append "bad port range: " portRange))
                   | _ => r
                   end in
      (* subIndex > 0 *)
      start ← (if String.eqb before "" then Ok 0 else bad (ParseUint before 0xFFFF));
      (* subIndex == len(portRange)-1 *)
      end_ ← (if String.eqb after "" then Ok 0xFFFF else bad (ParseUint after 0xFFFF));
      Ok (mkRange start end_)
  end.

Definition NewPortRangeItem (isSource : bool) (rangeList : list string) : result RuleItem :=
  portRangeList ← forM parsePortRange rangeList;
  Ok (PortRangeItem isSource rangeList portRangeList).

Definition NewProcessItem (l : list string) : RuleItem := ProcessItem (newKeySet l).
Definition NewProcessPathItem (l : list string) : RuleItem := ProcessPathItem (newKeySet l).
Definition NewPackageNameItem (l : list string) : RuleItem := PackageNameItem (newKeySet l).
Definition NewUserItem (l : list string) : RuleItem := UserItem (newKeySet l).
Definition NewUserIDItem (l : list Z) : RuleItem := UserIdItem (newKeySet l).
Definition NewQueryTypeItem (l : list Z) : RuleItem := QueryTypeItem (newKeySet l).
Definition NewQueryClientSubnetItem (l : list Prefix) : RuleItem := QueryClientSubnetItem l.
Definition NewQueryDNSSECItem : RuleItem := QueryDNSSECItem.

Definition NewOutboundRule (outbounds : list string) : RuleItem :=
  let '(m, any) := foldl (λ '(m, any) outbound,
    if String.eqb outbound "any" then (m, true) else ({[outbound]} ∪ m, any)) (∅, false) outbounds in
  OutboundItem outbounds m any.

Definition NewClashModeItem (mode : string) : RuleItem := ClashModeItem mode.
Definition NewNetworkTypeItem (l : list Z) : RuleItem := NetworkTypeItem l.
Definition NewNetworkIsExpensiveItem : RuleItem := NetworkIsExpensiveItem.
Definition NewNetworkIsConstrainedItem : RuleItem := NetworkIsConstrainedItem.
Definition NewWIFISSIDItem (l : list string) : RuleItem := WIFISSIDItem (newKeySet l).
Definition NewWIFIBSSIDItem (l : list string) : RuleItem := WIFIBSSIDItem (newKeySet l).

(** [item.interfaceAddresses[entry.Key] = prefixes] over the entries in order. *)
Definition addressMap {K} `{Countable K} (entries : list (K * list Prefix)) : gmap K (list Prefix) :=
  foldl (λ m '(k, v), <[k := v]> m) ∅ entries.

Definition describeEntries (key : string) (entries : list (string * list Prefix)) : string :=
  String.append key (String.append "=["
    (String.append
      (Join ((λ '(k, v), String.append k (String.append "=" (Join (Prefix_String <$> v) ","))) <$> entries) " ")
      "]")).

(** [C.InterfaceType.String]. *)
Definition InterfaceType_String (t : Z) : string :=
  if t =? 0 then "wifi" else if t =? 1 then "cellular"
  else if t =? 2 then "ethernet" else if t =? 3 then "other" else pretty t.

Definition NewInterfaceAddressItem (entries : list (string * list Prefix)) : RuleItem :=
  InterfaceAddressItem (addressMap entries) (describeEntries "interface_address" entries).

Definition NewNetworkInterfaceAddressItem (entries : list (Z * list Prefix)) : RuleItem :=
  NetworkInterfaceAddressItem (addressMap entries)
    (describeEntries "network_interface_address" ((λ '(k, v), (InterfaceType_String k, v)) <$> entries)).

Definition NewDefaultInterfaceAddressItem (l : list Prefix) : RuleItem := DefaultInterfaceAddressItem l.

Definition NewSourceMACAddressItem (addressList : list string) : RuleItem :=
  SourceMACAddressItem addressList
    (foldl (λ m address,
       match ParseMAC address with
       | Ok parsed => {[HardwareAddr_String parsed]} ∪ m
       | _ => {[address]} ∪ m
       end) ∅ addressList).

Definition NewSourceHostnameItem (l : list string) : RuleItem := SourceHostnameItem (newKeySet l).
Definition NewPreferredByItem (l : list string) : RuleItem := PreferredByItem l.
Definition NewPreferredByDNSItem (l : list string) : RuleItem := PreferredByDNSItem l.
Definition NewDNSResponseRCodeItem (rcode : Z) : RuleItem := DNSResponseRCodeItem rcode.
Definition NewDNSResponseRecordItem (field : string) (records : list (option RR))
    (selector : RecordSelector) : RuleItem := DNSResponseRecordItem field records selector.

(** ** Match methods *)

(** [metadata.Domain], or the destination's domain name when it is empty. *)
Definition domainHost (m : InboundContext) : string :=
  if String.eqb (Domain m) "" then sa_Fqdn (Destination m) else Domain m.

(** The guard and lower-casing shared by the domain items. *)
Definition onDomainHost (m : InboundContext) (f : string → bool) : bool :=
  if String.eqb (domainHost m) "" then false else f (strings_ToLower (domainHost m)).

Definition IPCIDRItem_Match (ipSet : IPSet) (isSource : bool) (m : InboundContext) : bool :=
  if isSource || matchSource m then IPSet_Contains ipSet (sa_Addr (Source m))
  else if DestinationAddressMatchFromResponse m then
    let addresses := DNSResponseAddressesForMatch m in
    if len addresses =? 0 then acceptEmpty m else existsb (IPSet_Contains ipSet) addresses
  else if Socksaddr_IsIP (Destination m) then IPSet_Contains ipSet (sa_Addr (Destination m))
  else if 0 <? len (DestinationAddresses m) then existsb (IPSet_Contains ipSet) (DestinationAddresses m)
  else acceptEmpty m.

Definition IPIsPrivateItem_Match (isSource : bool) (m : InboundContext) : bool :=
  if isSource then negb (IsPublicAddr (sa_Addr (Source m)))
  else if DestinationAddressMatchFromResponse m then
    existsb (λ a, negb (IsPublicAddr a)) (DNSResponseAddressesForMatch m)
  else if Addr_IsValid (sa_Addr (Destination m)) then negb (IsPublicAddr (sa_Addr (Destination m)))
  else existsb (λ a, negb (IsPublicAddr a)) (DestinationAddresses m).

Definition IPAcceptAnyItem_Match (m : InboundContext) : bool :=
  if DestinationAddressMatchFromResponse m then 0 <? len (DNSResponseAddressesForMatch m)
  else 0 <? len (DestinationAddresses m).

Definition IPVersionItem_Match (isIPv6 : bool) (m : InboundContext) : bool :=
  negb (IPVersion m =? 0) && Bool.eqb (IPVersion m =? 6) isIPv6 ||
  Socksaddr_IsIP (Destination m) && Bool.eqb (Socksaddr_IsIPv6 (Destination m)) isIPv6.

Definition itemPort (isSource : bool) (m : InboundContext) : Z :=
  if isSource then sa_Port (Source m) else sa_Port (Destination m).

Definition PortRangeItem_Match (isSource : bool) (l : list rangeItem) (m : InboundContext) : bool :=
  existsb (λ r, (range_start r <=? itemPort isSource m) && (itemPort isSource m <=? range_end r)) l.

(** Items on the owner of the connection: [false] when it is unknown. *)
Definition onOwner (m : InboundContext) (f : ConnectionOwner → bool) : bool :=
  match ProcessInfo m with None => false | Some p => f p end.

Definition ProcessItem_Match (s : keySet string) (m : InboundContext) : bool :=
  onOwner m (λ p, negb (String.eqb (po_ProcessPath p) "") && ks_has s (filepath_Base (po_ProcessPath p))).

Definition ProcessPathItem_Match (rt : Runtime) (s : keySet string) (m : InboundContext) : bool :=
  onOwner m (λ p,
    negb (String.eqb (po_ProcessPath p) "") && ks_has s (po_ProcessPath p) ||
    rt_IsAndroid rt && existsb (ks_has s) (po_AndroidPackageNames p)).

Definition ProcessPathRegexItem_Match (l : list Regexp) (m : InboundContext) : bool :=
  onOwner m (λ p, negb (String.eqb (po_ProcessPath p) "") &&
    existsb (λ r, Regexp_MatchString r (po_ProcessPath p)) l).

Definition PackageNameItem_Match (s : keySet string) (m : InboundContext) : bool :=
  onOwner m (λ p, nonempty (po_AndroidPackageNames p) && existsb (ks_has s) (po_AndroidPackageNames p)).

Definition PackageNameRegexItem_Match (l : list Regexp) (m : InboundContext) : bool :=
  onOwner m (λ p, nonempty (po_AndroidPackageNames p) &&
    existsb (λ r, existsb (Regexp_MatchString r) (po_AndroidPackageNames p)) l).

Definition UserItem_Match (s : keySet string) (m : InboundContext) : bool :=
  onOwner m (λ p, negb (String.eqb (po_UserName p) "") && ks_has s (po_UserName p)).

Definition UserIdItem_Match (s : keySet Z) (m : InboundContext) : bool :=
  onOwner m (λ p, negb (po_UserId p =? -1) && ks_has s (po_UserId p)).

Definition QueryTypeItem_Match (s : keySet Z) (m : InboundContext) : bool :=
  negb (QueryType m =? 0) && ks_has s (QueryType m).

Definition QueryClientSubnetItem_Match (l : list Prefix) (m : InboundContext) : bool :=
  let clientSubnet := QueryClientSubnet m in
  Prefix_IsValid clientSubnet &&
  existsb (λ prefix, (p_bits prefix <=? p_bits clientSubnet) &&
    Prefix_Contains prefix (p_addr clientSubnet)) l.

Definition OutboundItem_Match (s : gset string) (matchAny : bool) (m : InboundContext) : bool :=
  if matchAny then negb (String.eqb (Outbound m) "") else bool_decide (Outbound m ∈ s).

Definition ClashModeItem_Match (rt : Runtime) (mode : string) : bool :=
  match rt_ClashMode rt with None => false | Some current => strings_EqualFold current mode end.

Definition onDefaultInterface (rt : Runtime) (f : NetworkInterface → bool) : bool :=
  match rt_DefaultNetworkInterface rt with None => false | Some i => f i end.

(** [InterfaceAddressItem.Match]: every configured interface exists and has an
    address in one of its prefixes.  [common.Find] returns a zero interface,
    whose name is empty, when there is none. *)
Definition InterfaceAddressItem_Match (rt : Runtime) (want : gmap string (list Prefix)) : bool :=
  forallb (λ '(ifName, addresses),
    match find (λ '(name, _), String.eqb name ifName) (rt_Interfaces rt) with
    | None => false
    | Some (name, have) =>
        negb (String.eqb name "") &&
        negb (forallb (λ address, forallb (λ it, negb (Prefix_Overlaps address it)) have) addresses)
    end) (map_to_list want).

Definition NetworkInterfaceAddressItem_Match (rt : Runtime) (want : gmap Z (list Prefix)) : bool :=
  forallb (λ '(ifType, addresses),
    existsb (λ i,
      negb (containsb (ni_Name i) (rt_MyInterfaces rt)) && (ni_Type i =? ifType) &&
      existsb (λ it, existsb (λ prefix, Prefix_Overlaps prefix it) addresses) (ni_Addresses i))
      (rt_NetworkInterfaces rt)) (map_to_list want).

Definition DefaultInterfaceAddressItem_Match (rt : Runtime) (want : list Prefix) : bool :=
  match rt_DefaultInterface rt with
  | None => false
  | Some have =>
      forallb (λ address, negb (forallb (λ it, negb (Prefix_Overlaps address it)) have)) want
  end.

Definition SourceMACAddressItem_Match (s : gset string) (m : InboundContext) : bool :=
  match SourceMACAddress m with
  | None => false
  | Some mac => bool_decide (HardwareAddr_String mac ∈ s)
  end.

Definition PreferredByItem_Match (rt : Runtime) (outbounds : list string) (m : InboundContext) : bool :=
  let byAddress address := existsb (λ o, rt_PreferredAddress rt o m address) outbounds in
  negb (String.eqb (domainHost m) "") &&
    existsb (λ o, rt_PreferredDomain rt o m (domainHost m)) outbounds ||
  Socksaddr_IsIP (Destination m) && byAddress (sa_Addr (Destination m)) ||
  existsb byAddress (DestinationAddresses m).

Definition PreferredByDNSItem_Match (rt : Runtime) (transports : list string) (m : InboundContext) : bool :=
  if String.eqb (domainHost m) "" then false
  else existsb (λ t, rt_DNSPreferredDomain rt t (dns_CanonicalName (domainHost m))) transports.

(** [DNSRecordOptions.Match]. *)
Definition DNSRecordOptions_Match (o : option RR) (record : RR) : bool :=
  match o with None => false | Some rr => dns_IsDuplicate rr record end.

Definition DNSResponseRecordItem_Match (records : list (option RR)) (s : RecordSelector)
    (m : InboundContext) : bool :=
  match DNSResponse m with
  | None => false
  | Some response => existsb (λ expected, existsb (DNSRecordOptions_Match expected) (select s response)) records
  end.

Definition InboundItem_Match (s : keySet string) (m : InboundContext) : bool := ks_has s (Inbound m).
Definition NetworkItem_Match (s : keySet string) (m : InboundContext) : bool := ks_has s (Network m).
Definition AuthUserItem_Match (s : keySet string) (m : InboundContext) : bool := ks_has s (User m).
Definition ProtocolItem_Match (s : keySet string) (m : InboundContext) : bool := ks_has s (Protocol m).
Definition ClientItem_Match (s : keySet string) (m : InboundContext) : bool := ks_has s (Client m).
Definition DomainItem_Match (matcher : Matcher) (m : InboundContext) : bool :=
  onDomainHost m (Matcher_Match matcher).
Definition DomainKeywordItem_Match (keywords : list string) (m : InboundContext) : bool :=
  onDomainHost m (λ host, existsb (Contains host) keywords).
Definition DomainRegexItem_Match (matchers : list Regexp) (m : InboundContext) : bool :=
  onDomainHost m (λ host, existsb (λ r, Regexp_MatchString r host) matchers).
Definition AdGuardDomainItem_Match (matcher : AdGuardMatcher) (m : InboundContext) : bool :=
  onDomainHost m (AdGuardMatcher_Match matcher).
Definition PortItem_Match (ports : keySet Z) (isSource : bool) (m : InboundContext) : bool :=
  ks_has ports (itemPort isSource m).
Definition QueryDNSSECItem_Match (m : InboundContext) : bool := QueryDNSSEC m.
Definition NetworkTypeItem_Match (rt : Runtime) (networkType : list Z) : bool :=
  onDefaultInterface rt (λ i, containsb (ni_Type i) networkType).
Definition NetworkIsExpensiveItem_Match (rt : Runtime) : bool := onDefaultInterface rt ni_Expensive.
Definition NetworkIsConstrainedItem_Match (rt : Runtime) : bool := onDefaultInterface rt ni_Constrained.
Definition WIFISSIDItem_Match (rt : Runtime) (s : keySet string) : bool := ks_has s (rt_WIFI_SSID rt).
Definition WIFIBSSIDItem_Match (rt : Runtime) (s : keySet string) : bool := ks_has s (rt_WIFI_BSSID rt).
Definition SourceHostnameItem_Match (s : keySet string) (m : InboundContext) : bool :=
  negb (String.eqb (SourceHostname m) "") && ks_has s (SourceHostname m).
Definition DNSResponseRCodeItem_Match (rcode : Z) (m : InboundContext) : bool :=
  match DNSResponse m with None => false | Some r => msg_Rcode r =? rcode end.

(** [RuleItem.Match], dispatched on the type of the item. *)
Definition RuleItem_Match (rt : Runtime) (i : RuleItem) (m : InboundContext) : bool :=
  match i with
  | InboundItem s => InboundItem_Match s m
  | IPVersionItem v6 => IPVersionItem_Match v6 m
  | NetworkItem s => NetworkItem_Match s m
  | AuthUserItem s => AuthUserItem_Match s m
  | ProtocolItem s => ProtocolItem_Match s m
  | ClientItem s => ClientItem_Match s m
  | DomainItem matcher _ => DomainItem_Match matcher m
  | DomainKeywordItem keywords => DomainKeywordItem_Match keywords m
  | DomainRegexItem matchers _ => DomainRegexItem_Match matchers m
  | AdGuardDomainItem matcher => AdGuardDomainItem_Match matcher m
  | IPCIDRItem ipSet isSource _ => IPCIDRItem_Match ipSet isSource m
  | IPIsPrivateItem isSource => IPIsPrivateItem_Match isSource m
  | IPAcceptAnyItem => IPAcceptAnyItem_Match m
  | PortItem ports isSource => PortItem_Match ports isSource m
  | PortRangeItem isSource _ l => PortRangeItem_Match isSource l m
  | ProcessItem s => ProcessItem_Match s m
  | ProcessPathItem s => ProcessPathItem_Match rt s m
  | ProcessPathRegexItem l _ => ProcessPathRegexItem_Match l m
  | PackageNameItem s => PackageNameItem_Match s m
  | PackageNameRegexItem l _ => PackageNameRegexItem_Match l m
  | UserItem s => UserItem_Match s m
  | UserIdItem s => UserIdItem_Match s m
  | QueryTypeItem s => QueryTypeItem_Match s m
  | QueryClientSubnetItem l => QueryClientSubnetItem_Match l m
  | QueryDNSSECItem => QueryDNSSECItem_Match m
  | OutboundItem _ s any => OutboundItem_Match s any m
  | ClashModeItem mode => ClashModeItem_Match rt mode
  | NetworkTypeItem l => NetworkTypeItem_Match rt l
  | NetworkIsExpensiveItem => NetworkIsExpensiveItem_Match rt
  | NetworkIsConstrainedItem => NetworkIsConstrainedItem_Match rt
  | WIFISSIDItem s => WIFISSIDItem_Match rt s
  | WIFIBSSIDItem s => WIFIBSSIDItem_Match rt s
  | InterfaceAddressItem want _ => InterfaceAddressItem_Match rt want
  | NetworkInterfaceAddressItem want _ => NetworkInterfaceAddressItem_Match rt want
  | DefaultInterfaceAddressItem want => DefaultInterfaceAddressItem_Match rt want
  | SourceMACAddressItem _ s => SourceMACAddressItem_Match s m
  | SourceHostnameItem s => SourceHostnameItem_Match s m
  | PreferredByItem outbounds => PreferredByItem_Match rt outbounds m
  | PreferredByDNSItem transports => PreferredByDNSItem_Match rt transports m
  | DNSResponseRCodeItem rcode => DNSResponseRCodeItem_Match rcode m
  | DNSResponseRecordItem _ records s => DNSResponseRecordItem_Match records s m
  end.

(** [option.DNSQueryTypeToString]. *)
Definition DNSQueryTypeToString (t : Z) : string :=
  match dns_TypeToString t with Some name => name | None => pretty t end.

(** ** String methods *)

Definition InboundItem_String (s : keySet string) : string := describe "inbound" (ks_values s).
Definition NetworkItem_String (s : keySet string) : string := describe "network" (ks_values s).
Definition AuthUserItem_String (s : keySet string) : string := describe "auth_user" (ks_values s).
Definition ProtocolItem_String (s : keySet string) : string := describe "protocol" (ks_values s).
Definition ClientItem_String (s : keySet string) : string := describe "client" (ks_values s).
Definition ProcessItem_String (s : keySet string) : string := describe "process_name" (ks_values s).
Definition ProcessPathItem_String (s : keySet string) : string := describe "process_path" (ks_values s).
Definition PackageNameItem_String (s : keySet string) : string := describe "package_name" (ks_values s).
Definition UserItem_String (s : keySet string) : string := describe "user" (ks_values s).
Definition WIFISSIDItem_String (s : keySet string) : string := describe "wifi_ssid" (ks_values s).
Definition WIFIBSSIDItem_String (s : keySet string) : string := describe "wifi_bssid" (ks_values s).
Definition SourceHostnameItem_String (s : keySet string) : string := describe "source_hostname" (ks_values s).
Definition IPVersionItem_String (isIPv6 : bool) : string := if isIPv6 then "ip_version=6" else "ip_version=4".
Definition DomainKeywordItem_String (keywords : list string) : string := describe3 "domain_keyword" "..." keywords.
Definition AdGuardDomainItem_String : string := "!adguard_domain_rules=<binary>".
Definition IPIsPrivateItem_String (isSource : bool) : string := if isSource then "source_ip_is_private=true" else "ip_is_private=true".
Definition IPAcceptAnyItem_String : string := "ip_accept_any=true".
Definition PortItem_String (ports : keySet Z) (isSource : bool) : string := 
  describe (if isSource then "source_port" else "port") (pretty <$> ks_values ports).
Definition PortRangeItem_String (isSource : bool) (portRanges : list string) : string := 
  describe (if isSource then "source_port_range" else "port_range") portRanges.
Definition UserIdItem_String (s : keySet Z) : string := describe "user_id" (pretty <$> ks_values s).
Definition QueryTypeItem_String (s : keySet Z) : string := describe "query_type" (DNSQueryTypeToString <$> ks_values s).
Definition QueryClientSubnetItem_String (l : list Prefix) : string := describe "query_client_subnet" (Prefix_String <$> l).
Definition OutboundItem_String (outbounds : list string) : string := describe "outbound" outbounds.
Definition NetworkTypeItem_String (l : list Z) : string := describe "network_type" (InterfaceType_String <$> l).
Definition DefaultInterfaceAddressItem_String (l : list Prefix) : string := 
  describe3 "default_interface_address" "..." (Prefix_String <$> l).
Definition SourceMACAddressItem_String (l : list string) : string := describe "source_mac_address" l.
Definition PreferredByItem_String (l : list string) : string := describe "preferred_by" l.
Definition PreferredByDNSItem_String (l : list string) : string := describe "preferred_by" l.
Definition DNSResponseRecordItem_String (field : string) (records : list (option RR)) : string :=
  String.append field (String.append "=["
        (String.append (Join (RR_String <$> omap id records) " ") "]")).

(** [RuleItem.String], dispatched on the type of the item. *)
Definition RuleItem_String (i : RuleItem) : string :=
  match i with
  | InboundItem s => InboundItem_String s
  | IPVersionItem v6 => IPVersionItem_String v6
  | NetworkItem s => NetworkItem_String s
  | AuthUserItem s => AuthUserItem_String s
  | ProtocolItem s => ProtocolItem_String s
  | ClientItem s => ClientItem_String s
  | DomainItem _ d | DomainRegexItem _ d | IPCIDRItem _ _ d | ProcessPathRegexItem _ d
  | PackageNameRegexItem _ d | InterfaceAddressItem _ d | NetworkInterfaceAddressItem _ d => d
  | DomainKeywordItem keywords => DomainKeywordItem_String keywords
  | AdGuardDomainItem _ => AdGuardDomainItem_String
  | IPIsPrivateItem isSource => IPIsPrivateItem_String isSource
  | IPAcceptAnyItem => IPAcceptAnyItem_String
  | PortItem ports isSource => PortItem_String ports isSource
  | PortRangeItem isSource l _ => PortRangeItem_String isSource l
  | ProcessItem s => ProcessItem_String s
  | ProcessPathItem s => ProcessPathItem_String s
  | PackageNameItem s => PackageNameItem_String s
  | UserItem s => UserItem_String s
  | UserIdItem s => UserIdItem_String s
  | QueryTypeItem s => QueryTypeItem_String s
  | QueryClientSubnetItem l => QueryClientSubnetItem_String l
  | QueryDNSSECItem => "query_dnssec=true"
  | OutboundItem outbounds _ _ => OutboundItem_String outbounds
  | ClashModeItem mode => String.append "clash_mode=" mode
  | NetworkTypeItem l => NetworkTypeItem_String l
  | NetworkIsExpensiveItem => "network_is_expensive=true"
  | NetworkIsConstrainedItem => "network_is_constrained=true"
  | WIFISSIDItem s => WIFISSIDItem_String s
  | WIFIBSSIDItem s => WIFIBSSIDItem_String s
  | DefaultInterfaceAddressItem l => DefaultInterfaceAddressItem_String l
  | SourceMACAddressItem l _ => SourceMACAddressItem_String l
  | SourceHostnameItem s => SourceHostnameItem_String s
  | PreferredByItem l => PreferredByItem_String l
  | PreferredByDNSItem l => PreferredByDNSItem_String l
  | DNSResponseRCodeItem rcode => String.append "response_rcode=" (dns_RcodeToString rcode)
  | DNSResponseRecordItem field records _ => DNSResponseRecordItem_String field records
  end.
End items.
