(* ===== verification/RuleAction.v ===== *)
(** Rule actions: their options ([option/rule_action.go]) and the actions built
    from them ([route/rule/rule_action.go], [common/tlsspoof/spoof.go]).

    A Go slice field is a list here, [nil] being the empty list; a pointer field
    is an [option].  Durations and times are integers of nanoseconds. *)

From S2P Require Import Prelude GoBytes GoStrings Netip Metadata RuleItems.

(** ** Options *)

(** [option.RawRouteOptionsActionOptions], also [RouteOptionsActionOptions]. *)
Record RawRouteOptionsActionOptions : Type := mkRawRouteOptions {
  ro_OverrideAddress : string;
  ro_OverridePort : Z;
  ro_NetworkStrategy : option Z;
  ro_FallbackDelay : Z;
  ro_UDPDisableDomainUnmapping : bool;
  ro_UDPConnect : bool;
  ro_UDPTimeout : Z;
  ro_TLSFragment : bool;
  ro_TLSFragmentFallbackDelay : Z;
  ro_TLSRecordFragment : bool;
  ro_TLSSpoof : string;
  ro_TLSSpoofMethod : string
}.

Record RouteActionOptions : Type := mkRouteActionOptions {
  rao_Outbound : string;
  rao_Raw : RawRouteOptionsActionOptions
}.

Record RejectActionOptions : Type := mkRejectOptions { rej_Method : string; rej_NoDrop : bool }.

Record RouteActionSniff : Type := mkSniffOptions { sno_Sniffer : list string; sno_Timeout : Z }.

Record RouteActionResolve : Type := mkResolveOptions {
  rso_Server : string;
  rso_Timeout : Z;
  rso_Strategy : Z;
  rso_DisableCache : bool;
  rso_DisableOptimisticCache : bool;
  rso_RewriteTTL : option Z;
  rso_ClientSubnet : option Prefix
}.

(** [option.RuleAction]. *)
Record RuleActionOptions : Type := mkRuleAction {
  ra_Action : string;
  ra_RouteOptions : RouteActionOptions;
  ra_RouteOptionsOptions : RawRouteOptionsActionOptions;
  ra_BypassOptions : RouteActionOptions;
  ra_RejectOptions : RejectActionOptions;
  ra_SniffOptions : RouteActionSniff;
  ra_ResolveOptions : RouteActionResolve
}.

(** [option.AbstractDNSRouteActionOptions], also [DNSRouteOptionsActionOptions]. *)
Record AbstractDNSRouteActionOptions : Type := mkDNSRouteOptions {
  do_Timeout : Z;
  do_Strategy : Z;
  do_DisableCache : bool;
  do_DisableOptimisticCache : bool;
  do_RewriteTTL : option Z;
  do_ClientSubnet : option Prefix;
  do_RemoveClientSubnet : bool
}.

Record DNSRouteActionOptions : Type := mkDNSRouteActionOptions {
  dro_Server : string;
  dro_Speculative : bool;
  dro_Abstract : AbstractDNSRouteActionOptions
}.

Record DNSEvaluateActionOptions : Type := mkDNSEvaluateOptions {
  deo_Server : string;
  deo_Tag : string;
  deo_Speculative : bool;
  deo_Abstract : AbstractDNSRouteActionOptions
}.

Record DNSRouteActionPredefined : Type := mkPredefinedOptions {
  pdo_Rcode : option Z;
  pdo_Answer : list (option RR);
  pdo_Ns : list (option RR);
  pdo_Extra : list (option RR)
}.

(** [option.DNSRuleAction]. *)
Record DNSRuleActionOptions : Type := mkDNSRuleAction {
  da_Action : string;
  da_Race : bool;
  da_RouteOptions : DNSRouteActionOptions;
  da_EvaluateOptions : DNSEvaluateActionOptions;
  da_RouteOptionsOptions : AbstractDNSRouteActionOptions;
  da_RejectOptions : RejectActionOptions;
  da_PredefinedOptions : DNSRouteActionPredefined
}.

#[export] Instance Socksaddr_eq_dec : EqDecision Socksaddr.
Proof. solve_decision. Defined.
#[export] Instance RawRouteOptions_eq_dec : EqDecision RawRouteOptionsActionOptions.
Proof. solve_decision. Defined.
#[export] Instance RouteActionOptions_eq_dec : EqDecision RouteActionOptions.
Proof. solve_decision. Defined.
#[export] Instance RejectActionOptions_eq_dec : EqDecision RejectActionOptions.
Proof. solve_decision. Defined.
#[export] Instance RouteActionSniff_eq_dec : EqDecision RouteActionSniff.
Proof. solve_decision. Defined.
#[export] Instance RouteActionResolve_eq_dec : EqDecision RouteActionResolve.
Proof. solve_decision. Defined.
#[export] Instance RuleActionOptions_eq_dec : EqDecision RuleActionOptions.
Proof. solve_decision. Defined.
#[export] Instance AbstractDNSRoute_eq_dec : EqDecision AbstractDNSRouteActionOptions.
Proof. solve_decision. Defined.
#[export] Instance DNSRouteActionOptions_eq_dec : EqDecision DNSRouteActionOptions.
Proof. solve_decision. Defined.
#[export] Instance DNSEvaluate_eq_dec : EqDecision DNSEvaluateActionOptions.
Proof. solve_decision. Defined.
#[export] Instance SVCBValue_eq_dec : EqDecision SVCBValue.
Proof. solve_decision. Defined.
#[export] Instance RR_eq_dec : EqDecision RR.
Proof. solve_decision. Defined.
#[export] Instance DNSRouteActionPredefined_eq_dec : EqDecision DNSRouteActionPredefined.
Proof. solve_decision. Defined.
#[export] Instance DNSRuleActionOptions_eq_dec : EqDecision DNSRuleActionOptions.
Proof. solve_decision. Defined.

(** Zero values. *)
Definition RawRouteOptions_zero : RawRouteOptionsActionOptions :=
  mkRawRouteOptions "" 0 None 0 false false 0 false 0 false "" "".
Definition RouteActionOptions_zero : RouteActionOptions := mkRouteActionOptions "" RawRouteOptions_zero.
Definition RuleActionOptions_zero : RuleActionOptions :=
  mkRuleAction "" RouteActionOptions_zero RawRouteOptions_zero RouteActionOptions_zero
    (mkRejectOptions "" false) (mkSniffOptions [] 0) (mkResolveOptions "" 0 0 false false None None).
Definition AbstractDNSRoute_zero : AbstractDNSRouteActionOptions :=
  mkDNSRouteOptions 0 0 false false None None false.
Definition DNSRuleActionOptions_zero : DNSRuleActionOptions :=
  mkDNSRuleAction "" false (mkDNSRouteActionOptions "" false AbstractDNSRoute_zero)
    (mkDNSEvaluateOptions "" "" false AbstractDNSRoute_zero) AbstractDNSRoute_zero
    (mkRejectOptions "" false) (mkPredefinedOptions None [] [] []).

(** ** Actions *)

(** [tlsspoof.Method]. *)
Inductive Method : Type :=
| MethodWrongSequence | MethodWrongChecksum | MethodWrongAcknowledgment
| MethodWrongMD5Sig | MethodWrongTimestamp.

Record RuleActionRouteOptions : Type := mkRouteOptions {
  OverrideAddress : Socksaddr;
  OverridePort : Z;
  NetworkStrategy : option Z;
  NetworkType : list Z;
  FallbackNetworkType : list Z;
  FallbackDelay : Z;
  UDPDisableDomainUnmapping : bool;
  UDPConnect : bool;
  UDPTimeout : Z;
  TLSFragment : bool;
  TLSFragmentFallbackDelay : Z;
  TLSRecordFragment : bool;
  TLSSpoof : string;
  TLSSpoofMethod : Method
}.

(** The sniffers an action can select, by the Go function's name. *)
Inductive StreamSniffer : Type :=
| S_TLSClientHello | S_HTTPHost | S_StreamDomainNameQuery | S_BitTorrent
| S_OpenVPNStream | S_SIPStream | S_SSH | S_RDP.

Inductive PacketSniffer : Type :=
| P_QUICClientHello | P_DomainNameQuery | P_STUNMessage | P_UTP | P_UDPTracker
| P_DTLSRecord | P_WireGuard | P_OpenVPN | P_IKE | P_TailscaleDisco | P_SIP | P_NTP.

#[export] Instance StreamSniffer_eq_dec : EqDecision StreamSniffer.
Proof. solve_decision. Defined.
#[export] Instance PacketSniffer_eq_dec : EqDecision PacketSniffer.
Proof. solve_decision. Defined.

Record RuleActionSniff : Type := mkSniff {
  SnifferNames : list string;
  StreamSniffers : list StreamSniffer;
  PacketSniffers : list PacketSniffer;
  SniffTimeout : Z;
  OverrideDestination : bool
}.

Record RuleActionDNSRouteOptions : Type := mkDNSOptions {
  dr_Strategy : Z;
  dr_Timeout : Z;
  dr_DisableCache : bool;
  dr_DisableOptimisticCache : bool;
  dr_RewriteTTL : option Z;
  dr_ClientSubnet : Prefix;
  dr_RemoveClientSubnet : bool
}.

Record RuleActionResolve : Type := mkResolve {
  rs_Server : string;
  rs_Timeout : Z;
  rs_Strategy : Z;
  rs_DisableCache : bool;
  rs_DisableOptimisticCache : bool;
  rs_RewriteTTL : option Z;
  rs_ClientSubnet : Prefix
}.

(** [RuleActionReject]: its options and the times in its drop counter. *)
Record RuleActionReject : Type := mkReject {
  rj_Method : string;
  rj_NoDrop : bool;
  rj_dropCounter : list Z
}.

(** The implementations of [adapter.RuleAction]. *)
Inductive RuleAction : Type :=
| RuleActionRoute (outbound : string) (o : RuleActionRouteOptions)
| RuleActionBypass (outbound : string) (o : RuleActionRouteOptions)
| RuleActionRouteOptions_ (o : RuleActionRouteOptions)
| RuleActionReject_ (r : RuleActionReject)
| RuleActionHijackDNS
| RuleActionSniff_ (s : RuleActionSniff)
| RuleActionResolve_ (r : RuleActionResolve)
| RuleActionDNSRoute (server : string) (speculative : bool) (o : RuleActionDNSRouteOptions)
| RuleActionEvaluate (server tag : string) (speculative : bool) (o : RuleActionDNSRouteOptions)
| RuleActionRespond
| RuleActionDNSRouteOptions_ (o : RuleActionDNSRouteOptions)
| RuleActionPredefined (rcode : Z) (answer ns extra : list (option RR)).

(** [RuleAction.Type]. *)
Definition RuleAction_Type (a : RuleAction) : string :=
  match a with
  | RuleActionRoute _ _ => "route"
  | RuleActionBypass _ _ => "bypass"
  | RuleActionRouteOptions_ _ => "route-options"
  | RuleActionReject_ _ => "reject"
  | RuleActionHijackDNS => "hijack-dns"
  | RuleActionSniff_ _ => "sniff"
  | RuleActionResolve_ _ => "resolve"
  | RuleActionDNSRoute _ _ _ => "route"
  | RuleActionEvaluate _ _ _ _ => "evaluate"
  | RuleActionRespond => "respond"
  | RuleActionDNSRouteOptions_ _ => "route-options"
  | RuleActionPredefined _ _ _ _ => "predefined"
  end.

(** ** tlsspoof options *)

Definition Method_String (m : Method) : string :=
  match m with
  | MethodWrongSequence => "wrong-sequence"
  | MethodWrongChecksum => "wrong-checksum"
  | MethodWrongAcknowledgment => "wrong-ack"
  | MethodWrongMD5Sig => "wrong-md5"
  | MethodWrongTimestamp => "wrong-timestamp"
  end.

Definition ParseMethod (s : string) : result Method :=
  if String.eqb s "" || String.eqb s "wrong-sequence" then Ok MethodWrongSequence
  else if String.eqb s "wrong-checksum" then Ok MethodWrongChecksum
  else if String.eqb s "wrong-ack" then Ok MethodWrongAcknowledgment
  else if String.eqb s "wrong-md5" then Ok MethodWrongMD5Sig
  else if String.eqb s "wrong-timestamp" then Ok MethodWrongTimestamp
  else Err (ErrNew (String.append "tls_spoof: unknown method: " s)).

(** [ParseOptions(spoof, method)], on a platform with or without raw sockets. *)
Definition ParseOptions (platformSupported : bool) (spoof method : string) : result (string * Method) :=
  if String.eqb spoof "" then
    if negb (String.eqb method "") then Err (ErrNew "spoof_method requires spoof")
    else Ok (EmptyString, MethodWrongSequence)
  else if negb platformSupported then Err (ErrNew "tls_spoof is not supported on this platform")
  else parsedMethod ← ParseMethod method; Ok (spoof, parsedMethod).

Lemma ParseMethod_String m : ParseMethod (Method_String m) = Ok m.
Proof. by destruct m. Qed.

(** ** RuleActionSniff.build *)

(** The sniffers one name adds. *)
Definition snifferOf (name : string) : result (list StreamSniffer * list PacketSniffer) :=
  if String.eqb name "tls" then Ok ([S_TLSClientHello], [])
  else if String.eqb name "http" then Ok ([S_HTTPHost], [])
  else if String.eqb name "quic" then Ok ([], [P_QUICClientHello])
  else if String.eqb name "dns" then Ok ([S_StreamDomainNameQuery], [P_DomainNameQuery])
  else if String.eqb name "stun" then Ok ([], [P_STUNMessage])
  else if String.eqb name "bittorrent" then Ok ([S_BitTorrent], [P_UTP; P_UDPTracker])
  else if String.eqb name "dtls" then Ok ([], [P_DTLSRecord])
  else if String.eqb name "wireguard" then Ok ([], [P_WireGuard])
  else if String.eqb name "openvpn" then Ok ([S_OpenVPNStream], [P_OpenVPN])
  else if String.eqb name "ike" then Ok ([], [P_IKE])
  else if String.eqb name "tailscale" then Ok ([], [P_TailscaleDisco])
  else if String.eqb name "sip" then Ok ([S_SIPStream], [P_SIP])
  else if String.eqb name "ssh" then Ok ([S_SSH], [])
  else if String.eqb name "rdp" then Ok ([S_RDP], [])
  else if String.eqb name "ntp" then Ok ([], [P_NTP])
  else Err (ErrNew (String.append "unknown sniffer: " name)).

Fixpoint build_loop (names : list string) (ss : list StreamSniffer) (ps : list PacketSniffer)
    : result (list StreamSniffer * list PacketSniffer) :=
  match names with
  | [] => Ok (ss, ps)
  | name :: rest => '(s, p) ← snifferOf name; build_loop rest (ss ++ s) (ps ++ p)
  end.

(** [func (r *RuleActionSniff) build() error]. *)
Definition RuleActionSniff_build (r : RuleActionSniff) : result RuleActionSniff :=
  '(ss, ps) ← build_loop (SnifferNames r) (StreamSniffers r) (PacketSniffers r);
  Ok (mkSniff (SnifferNames r) ss ps (SniffTimeout r) (OverrideDestination r)).

(** ** RuleActionReject.Error *)

(** What [Error] returns: [nil], or a [RejectedError] with its cause. *)
Inductive RejectOutcome : Type := RejectNil | RejectReset | RejectDrop.

Definition flood_window : Z := 30 * 1000000000.

(** [func (r *RuleActionReject) Error(ctx) error] at time [timeNow]. *)
Definition RuleActionReject_Error (timeNow : Z) (r : RuleActionReject)
    : result (RejectOutcome * RuleActionReject) :=
  if String.eqb (rj_Method r) "default" then
    if rj_NoDrop r then Ok (RejectReset, r)
    else
      let dropCounter := filter (λ t, timeNow - t <= flood_window) (rj_dropCounter r) ++ [timeNow] in
      let r := mkReject (rj_Method r) (rj_NoDrop r) dropCounter in
      Ok (if 50 <? len dropCounter then RejectDrop else RejectReset, r)
  else if String.eqb (rj_Method r) "drop" then Ok (RejectDrop, r)
  else if String.eqb (rj_Method r) "reply" then Ok (RejectNil, r)
  else Panic (String.append "unknown reject method: " (rj_Method r)).

(** ** Building actions *)

Section actions.
Context {EX : External} (PlatformSupported : bool).

(** [newRuleActionRouteOptions]: [time.Duration(options.FallbackDelay)] takes the
    number as nanoseconds, and no option sets the network types. *)
Definition newRuleActionRouteOptions (o : RawRouteOptionsActionOptions) : result RuleActionRouteOptions :=
  '(spoof, spoofMethod) ← ParseOptions PlatformSupported (ro_TLSSpoof o) (ro_TLSSpoofMethod o);
  Ok (mkRouteOptions
    (ParseSocksaddrHostPort (ro_OverrideAddress o) 0) (ro_OverridePort o) (ro_NetworkStrategy o)
    [] [] (ro_FallbackDelay o) (ro_UDPDisableDomainUnmapping o) (ro_UDPConnect o) (ro_UDPTimeout o)
    (ro_TLSFragment o) (ro_TLSFragmentFallbackDelay o) (ro_TLSRecordFragment o) spoof spoofMethod).

Definition NewRuleAction (action : RuleActionOptions) : result (option RuleAction) :=
  let kind := ra_Action action in
  if String.eqb kind "" then Ok None
  else if String.eqb kind "route" then
    routeOptions ← newRuleActionRouteOptions (rao_Raw (ra_RouteOptions action));
    Ok (Some (RuleActionRoute (rao_Outbound (ra_RouteOptions action)) routeOptions))
  else if String.eqb kind "route-options" then
    routeOptions ← newRuleActionRouteOptions (ra_RouteOptionsOptions action);
    Ok (Some (RuleActionRouteOptions_ routeOptions))
  else if String.eqb kind "bypass" then
    routeOptions ← newRuleActionRouteOptions (rao_Raw (ra_BypassOptions action));
    Ok (Some (RuleActionBypass (rao_Outbound (ra_BypassOptions action)) routeOptions))
  else if String.eqb kind "reject" then
    Ok (Some (RuleActionReject_ (mkReject (rej_Method (ra_RejectOptions action))
      (rej_NoDrop (ra_RejectOptions action)) [])))
  else if String.eqb kind "hijack-dns" then Ok (Some RuleActionHijackDNS)
  else if String.eqb kind "sniff" then
    let o := ra_SniffOptions action in
    sniffAction ← RuleActionSniff_build (mkSniff (sno_Sniffer o) [] [] (sno_Timeout o) false);
    Ok (Some (RuleActionSniff_ sniffAction))
  else if String.eqb kind "resolve" then
    let o := ra_ResolveOptions action in
    Ok (Some (RuleActionResolve_ (mkResolve (rso_Server o) (rso_Timeout o) (rso_Strategy o)
      (rso_DisableCache o) (rso_DisableOptimisticCache o) (rso_RewriteTTL o)
      (default PrefixZero (rso_ClientSubnet o)))))
  else Panic (String.append "unknown rule action: " kind).

(** The [RuleActionDNSRouteOptions] literal the DNS actions share. *)
Definition dnsRouteOptions (o : AbstractDNSRouteActionOptions) : RuleActionDNSRouteOptions :=
  mkDNSOptions (do_Strategy o) (do_Timeout o) (do_DisableCache o) (do_DisableOptimisticCache o)
    (do_RewriteTTL o) (default PrefixZero (do_ClientSubnet o)) (do_RemoveClientSubnet o).

Definition NewDNSRuleAction (action : DNSRuleActionOptions) : result (option RuleAction) :=
  let kind := da_Action action in
  if String.eqb kind "" then Ok None
  else if String.eqb kind "route" then
    let o := da_RouteOptions action in
    Ok (Some (RuleActionDNSRoute (dro_Server o) (dro_Speculative o) (dnsRouteOptions (dro_Abstract o))))
  else if String.eqb kind "evaluate" then
    let o := da_EvaluateOptions action in
    Ok (Some (RuleActionEvaluate (deo_Server o) (deo_Tag o) (deo_Speculative o)
      (dnsRouteOptions (deo_Abstract o))))
  else if String.eqb kind "respond" then Ok (Some RuleActionRespond)
  else if String.eqb kind "route-options" then
    Ok (Some (RuleActionDNSRouteOptions_ (dnsRouteOptions (da_RouteOptionsOptions action))))
  else if String.eqb kind "reject" then
    Ok (Some (RuleActionReject_ (mkReject (rej_Method (da_RejectOptions action))
      (rej_NoDrop (da_RejectOptions action)) [])))
  else if String.eqb kind "predefined" then
    let o := da_PredefinedOptions action in
    Ok (Some (RuleActionPredefined (default RcodeSuccess (pdo_Rcode o)) (pdo_Answer o) (pdo_Ns o) (pdo_Extra o)))
  else Panic (String.append "unknown rule action: " kind).

(** ** Descriptions *)

(** [if cond { descriptions = append(descriptions, s) }]. *)
Definition appendIf (cond : bool) (s : string) (l : list string) : list string :=
  if cond then l ++ [s] else l.

Definition NetworkStrategy_String (s : Z) : string :=
  if s =? 0 then "default" else if s =? 1 then "fallback" else if s =? 2 then "hybrid" else pretty s.

Definition key_value (key value : string) : string := String.append key value.
Definition call (name : string) (args : list string) : string :=
  String.append name (String.append "(" (String.append (Join args ",") ")")).

Definition RouteOptions_Descriptions (r : RuleActionRouteOptions) : list string :=
  let d := appendIf (Socksaddr_IsValid (OverrideAddress r))
    (key_value "override-address=" (Socksaddr_AddrString (OverrideAddress r))) [] in
  let d := appendIf (0 <? OverridePort r) (key_value "override-port=" (pretty (OverridePort r))) d in
  let d := match NetworkStrategy r with
           | Some s => d ++ [key_value "network-strategy=" (NetworkStrategy_String s)]
           | None => d end in
  let d := appendIf (nonempty (NetworkType r))
    (key_value "network-type=" (Join (InterfaceType_String <$> NetworkType r) ",")) d in
  let d := appendIf (nonempty (FallbackNetworkType r))
    (key_value "fallback-network-type=" (Join (InterfaceType_String <$> FallbackNetworkType r) ",")) d in
  let d := appendIf (0 <? FallbackDelay r) (key_value "fallback-delay=" (Duration_String (FallbackDelay r))) d in
  let d := appendIf (UDPDisableDomainUnmapping r) "udp-disable-domain-unmapping" d in
  let d := appendIf (UDPConnect r) "udp-connect" d in
  let d := appendIf (0 <? UDPTimeout r) "udp-timeout" d in
  let d := appendIf (TLSFragment r) "tls-fragment" d in
  let d := appendIf (0 <? TLSFragmentFallbackDelay r)
    (key_value "tls-fragment-fallback-delay=" (Duration_String (TLSFragmentFallbackDelay r))) d in
  let d := appendIf (TLSRecordFragment r) "tls-record-fragment" d in
  if negb (String.eqb (TLSSpoof r) "") then
    d ++ [key_value "tls-spoof=" (TLSSpoof r);
          key_value "tls-spoof-method=" (Method_String (TLSSpoofMethod r))]
  else d.

(** The options shared by [formatDNSRouteAction] and
    [RuleActionDNSRouteOptions.String], appended to [d]. *)
Definition DNSRouteOptions_Descriptions (o : RuleActionDNSRouteOptions) (d : list string) : list string :=
  let d := appendIf (dr_DisableCache o) "disable-cache" d in
  let d := appendIf (dr_DisableOptimisticCache o) "disable-optimistic-cache" d in
  let d := match dr_RewriteTTL o with Some t => d ++ [key_value "rewrite-ttl=" (pretty t)] | None => d end in
  let d := appendIf (0 <? dr_Timeout o) (key_value "timeout=" (Duration_String (dr_Timeout o))) d in
  let d := appendIf (Prefix_IsValid (dr_ClientSubnet o))
    (key_value "client-subnet=" (Prefix_String (dr_ClientSubnet o))) d in
  appendIf (dr_RemoveClientSubnet o) "remove-client-subnet" d.

Definition formatDNSRouteAction (action server : string) (speculative : bool)
    (o : RuleActionDNSRouteOptions) : string :=
  call action (DNSRouteOptions_Descriptions o (appendIf speculative "speculative" [server])).

(** [option.DomainStrategy.String]. *)
Definition DomainStrategy_String (s : Z) : result string :=
  if s =? 0 then Ok EmptyString
  else if s =? 1 then Ok "prefer_ipv4"%string else if s =? 2 then Ok "prefer_ipv6"%string
  else if s =? 3 then Ok "ipv4_only"%string else if s =? 4 then Ok "ipv6_only"%string
  else Panic (String.append "unknown domain strategy: " (pretty s)).

Definition Resolve_String (r : RuleActionResolve) : result string :=
  let d := appendIf (negb (String.eqb (rs_Server r) "")) (rs_Server r) [] in
  d ← (if negb (rs_Strategy r =? 0)
       then strategy ← DomainStrategy_String (rs_Strategy r); Ok (d ++ [strategy])
       else Ok d);
  let d := appendIf (rs_DisableCache r) "disable_cache" d in
  let d := appendIf (rs_DisableOptimisticCache r) "disable_optimistic_cache" d in
  let d := match rs_RewriteTTL r with Some t => d ++ [key_value "rewrite_ttl=" (pretty t)] | None => d end in
  let d := appendIf (0 <? rs_Timeout r) (key_value "timeout=" (Duration_String (rs_Timeout r))) d in
  let d := appendIf (Prefix_IsValid (rs_ClientSubnet r))
    (key_value "client_subnet=" (Prefix_String (rs_ClientSubnet r))) d in
  Ok (if nonempty d then call "resolve" d else "resolve"%string).

Definition Sniff_String (r : RuleActionSniff) : string :=
  let names := SnifferNames r in let timeout := SniffTimeout r in
  if negb (nonempty names) && (timeout =? 0) then "sniff"
  else if nonempty names && (timeout =? 0) then call "sniff" names
  else if negb (nonempty names) && (0 <? timeout) then call "sniff" [Duration_String timeout]
  else String.append "sniff(" (String.append (Join names ",")
         (String.append "," (String.append (Duration_String timeout) ")"))).

(** [dns.RR.String] on a record that may be the nil interface. *)
Definition record_String (rr : option RR) : result string :=
  match rr with Some r => Ok (RR_String r) | None => Panic "nil pointer dereference" end.

Definition RuleAction_String (a : RuleAction) : result string :=
  match a with
  | RuleActionRoute outbound o => Ok (call "route" (outbound :: RouteOptions_Descriptions o))
  | RuleActionBypass outbound o =>
      if String.eqb outbound "" then Ok "bypass()"%string
      else Ok (call "bypass" (outbound :: RouteOptions_Descriptions o))
  | RuleActionRouteOptions_ o => Ok (call "route-options" (RouteOptions_Descriptions o))
  | RuleActionReject_ r =>
      if String.eqb (rj_Method r) "default" then Ok "reject"%string else Ok (call "reject" [rj_Method r])
  | RuleActionHijackDNS => Ok "hijack-dns"%string
  | RuleActionSniff_ s => Ok (Sniff_String s)
  | RuleActionResolve_ r => Resolve_String r
  | RuleActionDNSRoute server speculative o => Ok (formatDNSRouteAction "route" server speculative o)
  | RuleActionEvaluate server _ speculative o => Ok (formatDNSRouteAction "evaluate" server speculative o)
  | RuleActionRespond => Ok "respond"%string
  | RuleActionDNSRouteOptions_ o => Ok (call "route-options" (DNSRouteOptions_Descriptions o []))
  | RuleActionPredefined rcode answer ns extra =>
      records ← forM record_String (answer ++ ns ++ extra);
      Ok (call "predefined" (dns_RcodeToString rcode :: records))
  end.
End actions.

(** ** Facts *)

(** The names in [C.Protocol*] that select sniffers. *)
Definition sniffer_names : list string :=
  ["tls"; "http"; "quic"; "dns"; "stun"; "bittorrent"; "dtls"; "wireguard"; "openvpn"; "ike";
   "tailscale"; "sip"; "ssh"; "rdp"; "ntp"].

Lemma snifferOf_ok name : is_ok (snifferOf name) = true ↔ name ∈ sniffer_names.
Proof.
  unfold snifferOf, sniffer_names. rewrite !elem_of_cons.
  repeat match goal with
  | |- context [String.eqb name ?k] =>
      destruct (String.eqb_spec name k) as [->|?]; [split; [intros _; tauto|done]|]
  end.
  rewrite elem_of_nil. split; [discriminate|tauto].
Qed.

Lemma build_loop_spec names ss ps ss' ps' :
  build_loop names ss ps = Ok (ss', ps') ↔
  ∃ l, forM snifferOf names = Ok l ∧ ss' = ss ++ mjoin (fst <$> l) ∧ ps' = ps ++ mjoin (snd <$> l).
Proof.
  revert ss ps; induction names as [|n names IH]; intros ss ps; cbn.
  - split; [intros [= <- <-]; exists []; cbn; by rewrite !app_nil_r|].
    intros (l & [= <-] & -> & ->); cbn. by rewrite !app_nil_r.
  - destruct (snifferOf n) as [[s p]|e|]; cbn; [|naive_solver..].
    rewrite IH. split.
    + intros (l & -> & -> & ->). exists ((s, p) :: l); cbn. by rewrite !(assoc_L (++)).
    + intros (l & Hl & -> & ->). destruct (forM snifferOf names) as [k|e|] eqn:Hk; [|done..].
      cbn in Hl. injection Hl as <-. exists k; cbn. by rewrite !(assoc_L (++)).
Qed.

Lemma forM_is_ok {A B} (f : A → result B) l :
  is_ok (forM f l) = true ↔ Forall (λ x, is_ok (f x) = true) l.
Proof.
  induction l as [|x l IH]; cbn; [naive_solver|]. rewrite Forall_cons, <- IH.
  destruct (f x); cbn; [|naive_solver..]. by destruct (forM f l); cbn; naive_solver.
Qed.

Lemma len_filter_le {A} (P : A → Prop) `{∀ x, Decision (P x)} l : 0 <= len (filter P l) <= len l.
Proof. unfold len. pose proof (length_filter P l). lia. Qed.

(** *** Flood detection of [RuleActionReject] *)

Definition within (now t : Z) : Prop := now - t <= flood_window.
#[export] Instance within_dec now t : Decision (within now t).
Proof. unfold within. apply _. Defined.

(** Calls of [Error] at the given times, one after the other. *)
Fixpoint reject_run (times : list Z) (r : RuleActionReject) : result (list RejectOutcome) :=
  match times with
  | [] => Ok []
  | t :: times =>
      '(o, r) ← RuleActionReject_Error t r;
      os ← reject_run times r;
      Ok (o :: os)
  end.

(** The outcome the documentation gives the call at [t] after calls at [before]. *)
Definition flood_outcome (before : list Z) (t : Z) : RejectOutcome :=
  if 50 <? len (filter (within t) (before ++ [t])) then RejectDrop else RejectReset.

Fixpoint flood_outcomes (before times : list Z) : list RejectOutcome :=
  match times with
  | [] => []
  | t :: times => flood_outcome before t :: flood_outcomes (before ++ [t]) times
  end.

Fixpoint nondecreasing (last : Z) (times : list Z) : Prop :=
  match times with [] => True | t :: times => last <= t ∧ nondecreasing t times end.

(** Dropping what is already too old loses nothing later on. *)
Lemma filter_within_twice a b (l : list Z) : a <= b → filter (within b) (filter (within a) l) = filter (within b) l.
Proof.
  intros Hab. rewrite list_filter_filter. apply list_filter_iff. unfold within. lia.
Qed.

Lemma within_refl t : within t t.
Proof. unfold within, flood_window. lia. Qed.

Lemma reject_run_flood times before counter last :
  nondecreasing last times →
  (∀ now, last <= now → filter (within now) counter = filter (within now) before) →
  reject_run times (mkReject "default" false counter) = Ok (flood_outcomes before times).
Proof.
  revert before counter last; induction times as [|t times IH]; intros before counter last Hs Hc; [done|].
  destruct Hs as [Ht Hs].
  assert (Hf : filter (within t) counter ++ [t] = filter (within t) (before ++ [t])).
  { rewrite filter_app, Hc by done. rewrite filter_cons_True by apply within_refl. done. }
  cbn [reject_run]. unfold RuleActionReject_Error. cbn [rj_Method rj_NoDrop rj_dropCounter].
  change (filter (λ t0, t - t0 <= flood_window) counter) with (filter (within t) counter).
  rewrite Hf. cbn -[filter]. rewrite (IH (before ++ [t]) _ t Hs); [done|].
  intros now Hnow. by apply filter_within_twice.
Qed.

(** The [reject] action with the default method drops instead of resetting
    exactly from the 51st rejection on within any 30 seconds, for any sequence of
    calls in time order; the counter's pruning loses no call that still counts. *)
Lemma reject_drops_floods (times : list Z) (start : Z) (Htimes : nondecreasing start times) :
  reject_run times (mkReject "default" false []) = Ok (flood_outcomes [] times).
Proof. by apply (reject_run_flood times [] [] start). Qed.

Lemma reject_drops_floods_witness :
  nondecreasing 0 (replicate 52 7 ++ [7 + flood_window + 1]) ∧
  reject_run (replicate 52 7 ++ [7 + flood_window + 1]) (mkReject "default" false []) =
  Ok (replicate 50 RejectReset ++ [RejectDrop; RejectDrop; RejectReset]).
Proof.
  assert (H : nondecreasing 0 (replicate 52 7 ++ [7 + flood_window + 1]))
    by (cbn; repeat split; discriminate).
  split; [exact H|]. rewrite (reject_drops_floods _ 0 H). vm_compute. reflexivity.
Defined.

Lemma build_loop_known names :
  is_ok (build_loop names [] []) = true ↔ Forall (λ n, n ∈ sniffer_names) names.
Proof.
  transitivity (is_ok (forM snifferOf names) = true).
  - split; intros H.
    + destruct (build_loop names [] []) as [[ss ps]| |] eqn:Hb; [|done..].
      by apply build_loop_spec in Hb as (l & -> & _).
    + destruct (forM snifferOf names) as [l| |] eqn:Hl; [|done..].
      assert (build_loop names [] [] = Ok (mjoin (fst <$> l), mjoin (snd <$> l))) as ->; [|done].
      apply build_loop_spec. by exists l.
  - rewrite forM_is_ok. apply Forall_iff. intros n. apply snifferOf_ok.
Qed.

(** A sniff action is built exactly from known protocol names, and it runs the
    sniffers of the names in the order they are listed. *)
Theorem sniff_action_build (names : list string) (timeout : Z) :
  (is_ok (RuleActionSniff_build (mkSniff names [] [] timeout false)) = true ↔ Forall (λ n, n ∈ sniffer_names) names) ∧
  ∀ r, RuleActionSniff_build (mkSniff names [] [] timeout false) = Ok r →
    ∃ l, Forall2 (λ n x, snifferOf n = Ok x) names l ∧
      StreamSniffers r = mjoin (fst <$> l) ∧ PacketSniffers r = mjoin (snd <$> l).
Proof.
  unfold RuleActionSniff_build. cbn [SnifferNames StreamSniffers PacketSniffers SniffTimeout]. split.
  - rewrite <- build_loop_known. by destruct (build_loop names [] []) as [[]| |].
  - intros r. destruct (build_loop names [] []) as [[ss ps]| |] eqn:Hb; [|done..]. intros [= <-].
    apply build_loop_spec in Hb as (l & Hl & -> & ->). exists l. by apply forM_Forall2 in Hl.
Qed.
