(* ===== verification/RuleMatch.v ===== *)
(** Rule matching ([route/rule/match_state.go], [rule_abstract.go],
    [rule_item_rule_set.go], the [Match] methods of [rule_dns.go]).

    A rule is a tree: default rules hold items in groups and may refer to
    rule-sets, rule-sets hold headless rules, logical rules hold sub-rules.
    [*adapter.InboundContext] is threaded as a state: every matching function
    takes the metadata and returns it with its answer. *)

From S2P Require Import Prelude GoBytes GoStrings Netip Metadata RuleItems RuleAction.

(** ** Group states *)

(** [ruleMatchState]: a bit set of groups in a [uint8]. *)
Definition ruleMatchState : Type := Z.
Definition ruleMatchSourceAddress : ruleMatchState := Z.shiftl 1 0.
Definition ruleMatchSourcePort : ruleMatchState := Z.shiftl 1 1.
Definition ruleMatchDestinationAddress : ruleMatchState := Z.shiftl 1 2.
Definition ruleMatchDestinationPort : ruleMatchState := Z.shiftl 1 3.

(** [func (s ruleMatchState) has(target)]. *)
Definition state_has (s target : ruleMatchState) : bool := negb (Z.land s target =? 0).

Record ruleGroupMatch : Type := mkGroups { required : ruleMatchState; satisfied : ruleMatchState }.

Definition noGroups : ruleGroupMatch := mkGroups 0 0.
(** [g.required |= s] and [g.satisfied |= s]. *)
Definition require_ (s : ruleMatchState) (g : ruleGroupMatch) : ruleGroupMatch :=
  mkGroups (Z.lor (required g) s) (satisfied g).
Definition satisfy (s : ruleMatchState) (g : ruleGroupMatch) : ruleGroupMatch :=
  mkGroups (required g) (Z.lor (satisfied g) s).

Definition groups_done (g : ruleGroupMatch) : bool := Z.ldiff (required g) (satisfied g) =? 0.

Definition mergeWith (g other : ruleGroupMatch) : ruleGroupMatch :=
  mkGroups (Z.lor (required g) (required other)) (Z.lor (satisfied g) (satisfied other)).

Record ruleMatchSnapshot : Type := mkSnapshot {
  sn_ipCidrMatchSource : bool;
  sn_ipCidrAcceptEmpty : bool;
  sn_deferredIPCIDRMatchGroups : Z
}.

Definition snapshotRuleMatch (m : InboundContext) : ruleMatchSnapshot :=
  mkSnapshot (matchSource m) (acceptEmpty m) (deferred m).

Definition restore (s : ruleMatchSnapshot) (m : InboundContext) : InboundContext :=
  on_cache (λ c, set_Deferred (sn_deferredIPCIDRMatchGroups s)
    (set_IPCIDRAcceptEmpty (sn_ipCidrAcceptEmpty s)
      (set_IPCIDRMatchSource (sn_ipCidrMatchSource s) c))) m.

(** [metadata.DeferredIPCIDRMatchGroups |= v], [&^= v], [= v]. *)
Definition or_deferred (v : Z) (m : InboundContext) : InboundContext :=
  on_cache (λ c, set_Deferred (Z.lor (DeferredIPCIDRMatchGroups c) v) c) m.
Definition clear_deferred (v : Z) (m : InboundContext) : InboundContext :=
  on_cache (λ c, set_Deferred (Z.ldiff (DeferredIPCIDRMatchGroups c) v) c) m.
Definition set_deferred (v : Z) (m : InboundContext) : InboundContext :=
  on_cache (set_Deferred v) m.

(** ** Rules *)

(** [adapter.RuleSetMetadata]. *)
Record RuleSetMetadata : Type := mkRuleSetMetadata {
  ContainsProcessRule : bool;
  ContainsWIFIRule : bool;
  ContainsIPCIDRRule : bool;
  ContainsDNSQueryTypeRule : bool;
  ContainsNonIPCIDRRule : bool
}.

(** A loaded rule-set, as the matcher sees it: its rules and metadata. *)
Record RuleSet (R : Type) : Type := mkRuleSet {
  rs_rules : list R;
  rs_metadata : RuleSetMetadata
}.
Arguments mkRuleSet {R} _ _.
Arguments rs_rules {R} _.
Arguments rs_metadata {R} _.

(** [RuleSetItem]; [setList] holds the rule-sets [Start] resolved. *)
Record RuleSetItem (R : Type) : Type := mkRuleSetItem {
  tagList : list string;
  setList : list (RuleSet R);
  ipCidrMatchSource : bool;
  ipCidrAcceptEmpty : bool
}.
Arguments mkRuleSetItem {R} _ _ _ _.
Arguments tagList {R} _.
Arguments setList {R} _.
Arguments ipCidrMatchSource {R} _.
Arguments ipCidrAcceptEmpty {R} _.

(** An element of [allItems]: one of the rule's items, or its [ruleSetItem]. *)
Inductive itemRef `{!External} : Type :=
| ItemRef (i : RuleItem)
| RuleSetRef.

Record abstractDefaultRule `{!External} (R : Type) : Type := mkDefaultRule {
  items : list RuleItem;
  sourceAddressItems : list RuleItem;
  sourcePortItems : list RuleItem;
  destinationAddressItems : list RuleItem;
  destinationIPCIDRItems : list RuleItem;
  destinationPortItems : list RuleItem;
  allItems : list itemRef;
  ruleSetItem : option (RuleSetItem R);
  invert : bool;
  action : option RuleAction
}.
Arguments mkDefaultRule {_ R} _ _ _ _ _ _ _ _ _ _.
Arguments items {_ R} _.
Arguments sourceAddressItems {_ R} _.
Arguments sourcePortItems {_ R} _.
Arguments destinationAddressItems {_ R} _.
Arguments destinationIPCIDRItems {_ R} _.
Arguments destinationPortItems {_ R} _.
Arguments allItems {_ R} _.
Arguments ruleSetItem {_ R} _.
Arguments invert {_ R} _.
Arguments action {_ R} _.

Record abstractLogicalRule (R : Type) : Type := mkLogicalRule {
  l_rules : list R;
  l_mode : string;
  l_invert : bool;
  l_action : option RuleAction
}.
Arguments mkLogicalRule {R} _ _ _ _.
Arguments l_rules {R} _.
Arguments l_mode {R} _.
Arguments l_invert {R} _.
Arguments l_action {R} _.

(** The implementations of [adapter.HeadlessRule]. *)
Inductive Rule `{!External} : Type :=
| DefaultHeadlessRule (d : abstractDefaultRule Rule)
| LogicalHeadlessRule (l : abstractLogicalRule Rule)
| DefaultRule (d : abstractDefaultRule Rule)
| LogicalRule (l : abstractLogicalRule Rule)
| DefaultDNSRule (d : abstractDefaultRule Rule) (matchResponse : bool) (matchResponseTag : string) (race : bool)
| LogicalDNSRule (l : abstractLogicalRule Rule) (matchResponseTags : list string)
    (matchResponseAnonymous : bool) (race : bool).

(** A matching function: its answer and the metadata it leaves. *)
Definition matcher : Type := InboundContext → bool * InboundContext.

Section match_.
Context {EX : External} (rt : Runtime).

(** ** Default rules *)

Definition matchAnyItem (l : list RuleItem) (m : InboundContext) : bool :=
  existsb (λ it, RuleItem_Match rt it m) l.

(** [for _, item := range items { if !item.Match(metadata) { return false } }]. *)
Definition matchAllItems (l : list RuleItem) (m : InboundContext) : bool :=
  forallb (λ it, RuleItem_Match rt it m) l.

Section default.
Context {R : Type}.

Definition destinationIPCIDRMatchesSource (d : abstractDefaultRule R) (m : InboundContext) : bool :=
  matchSource m && nonempty (destinationIPCIDRItems d).

Definition destinationIPCIDRMatchesDestination (d : abstractDefaultRule R) (m : InboundContext) : bool :=
  negb (ignoreDst m) && negb (matchSource m) && nonempty (destinationIPCIDRItems d).

(** [func (r *abstractDefaultRule) evaluateGroups(metadata) ruleGroupMatch]. *)
Definition evaluateGroups (d : abstractDefaultRule R) (m : InboundContext) : ruleGroupMatch * InboundContext :=
  let g := noGroups in
  let g :=
    if nonempty (sourceAddressItems d) then
      let g := require_ ruleMatchSourceAddress g in
      if matchAnyItem (sourceAddressItems d) m then satisfy ruleMatchSourceAddress g else g
    else g in
  let g :=
    if destinationIPCIDRMatchesSource d m then
      let g := require_ ruleMatchSourceAddress g in
      if negb (state_has (satisfied g) ruleMatchSourceAddress) && matchAnyItem (destinationIPCIDRItems d) m
      then satisfy ruleMatchSourceAddress g else g
    else g in
  let g :=
    if nonempty (sourcePortItems d) then
      let g := require_ ruleMatchSourcePort g in
      if matchAnyItem (sourcePortItems d) m then satisfy ruleMatchSourcePort g else g
    else g in
  let g :=
    if nonempty (destinationAddressItems d) then
      let g := require_ ruleMatchDestinationAddress g in
      if matchAnyItem (destinationAddressItems d) m then satisfy ruleMatchDestinationAddress g else g
    else g in
  let g :=
    if destinationIPCIDRMatchesDestination d m then
      let g := require_ ruleMatchDestinationAddress g in
      if negb (state_has (satisfied g) ruleMatchDestinationAddress) && matchAnyItem (destinationIPCIDRItems d) m
      then satisfy ruleMatchDestinationAddress g else g
    else g in
  let g :=
    if nonempty (destinationPortItems d) then
      let g := require_ ruleMatchDestinationPort g in
      if matchAnyItem (destinationPortItems d) m then satisfy ruleMatchDestinationPort g else g
    else g in
  let m :=
    if ignoreDst m && negb (matchSource m) && nonempty (destinationIPCIDRItems d)
       && negb (nonempty (destinationAddressItems d))
    then or_deferred ruleMatchDestinationAddress m else m in
  (g, m).

(** [func (r *abstractDefaultRule) evaluateForMerge(metadata)]. *)
Definition evaluateForMerge (d : abstractDefaultRule R) (m : InboundContext)
    : ruleGroupMatch * bool * InboundContext :=
  let '(groups, m) := evaluateGroups d m in
  if matchAllItems (items d) m then (groups, true, m) else (noGroups, false, m).

(** ** Rule-set items *)

Definition prepareNestedMatch (r : RuleSetItem R) (m : InboundContext) : InboundContext :=
  on_cache (λ c, set_IPCIDRAcceptEmpty (ipCidrAcceptEmpty r)
    (set_IPCIDRMatchSource (ipCidrMatchSource r) c)) (ResetRuleMatchCache m).

(** [if matched { metadata.DeferredIPCIDRMatchGroups |= deferredGroups }], after
    [snapshot.restore(metadata)]. *)
Definition finish (s : ruleMatchSnapshot) (matched : bool) (deferredGroups : Z) (m : InboundContext)
    : InboundContext :=
  let m := restore s m in
  if matched then or_deferred deferredGroups m else m.

(** The rule's own matching function and [mergeableRule] of a rule-set. *)
Context (rule_Match : R → matcher) (mergeableRule : RuleSet R → option (abstractDefaultRule R)).

Section anyHeadless.
Context (snapshot : ruleMatchSnapshot).
(** The loop of [matchAnyHeadlessRule]. *)
Fixpoint matchAnyHeadlessRule_loop (rules : list R) (matched : bool) (deferredGroups : Z)
    (m : InboundContext) : bool * InboundContext :=
  match rules with
  | [] => (matched, finish snapshot matched deferredGroups m)
  | rule :: rules =>
      let m := ResetRuleMatchCache m in
      let '(b, m) := rule_Match rule m in
      if b then
        if deferred m =? 0 then (true, restore snapshot m)
        else matchAnyHeadlessRule_loop rules true (Z.lor deferredGroups (deferred m)) m
      else matchAnyHeadlessRule_loop rules matched deferredGroups m
  end.
End anyHeadless.

Definition matchAnyHeadlessRule (rules : list R) : matcher := λ m,
  matchAnyHeadlessRule_loop (snapshotRuleMatch m) rules false 0 m.

(** [ruleSet.Match]: [LocalRuleSet] and [RemoteRuleSet] both match any rule. *)
Definition RuleSet_Match (s : RuleSet R) : matcher := matchAnyHeadlessRule (rs_rules s).

Section item.
Context (r : RuleSetItem R).

Section loops.
Context (snapshot : ruleMatchSnapshot).

(** The loop of [RuleSetItem.Match]. *)
Fixpoint RuleSetItem_Match_loop (sets : list (RuleSet R)) (m : InboundContext) : bool * InboundContext :=
  match sets with
  | [] => (false, restore snapshot m)
  | ruleSet :: sets =>
      let m := prepareNestedMatch r m in
      let '(b, m) := RuleSet_Match ruleSet m in
      if b then (true, restore snapshot m) else RuleSetItem_Match_loop sets m
  end.

(** The loop of [matchWithOuterGroups]. *)
Fixpoint matchWithOuterGroups_loop (outerGroups : ruleGroupMatch) (sets : list (RuleSet R))
    (matched : bool) (deferredGroups : Z) (m : InboundContext) : bool * InboundContext :=
  match sets with
  | [] => (matched, finish snapshot matched deferredGroups m)
  | ruleSet :: sets =>
      let m := prepareNestedMatch r m in
      match mergeableRule ruleSet with
      | Some branch =>
          let '(branchGroups, branchMatched, m) := evaluateForMerge branch m in
          if branchMatched then
            let merged := mergeWith outerGroups branchGroups in
            if groups_done merged then
              let branchDeferredGroups := Z.ldiff (deferred m) (satisfied merged) in
              if branchDeferredGroups =? 0 then
                (true, clear_deferred (satisfied merged) (restore snapshot m))
              else
                matchWithOuterGroups_loop outerGroups sets true
                  (Z.lor deferredGroups branchDeferredGroups) m
            else matchWithOuterGroups_loop outerGroups sets matched deferredGroups m
          else matchWithOuterGroups_loop outerGroups sets matched deferredGroups m
      | None =>
          if groups_done outerGroups then
            let '(b, m) := RuleSet_Match ruleSet m in
            if b then
              if deferred m =? 0 then (true, restore snapshot m)
              else
                matchWithOuterGroups_loop outerGroups sets true (Z.lor deferredGroups (deferred m)) m
            else matchWithOuterGroups_loop outerGroups sets matched deferredGroups m
          else matchWithOuterGroups_loop outerGroups sets matched deferredGroups m
      end
  end.
End loops.

Definition RuleSetItem_Match : matcher := λ m,
  RuleSetItem_Match_loop (snapshotRuleMatch m) (setList r) m.

Definition matchWithOuterGroups (outerGroups : ruleGroupMatch) : matcher := λ m,
  matchWithOuterGroups_loop (snapshotRuleMatch m) outerGroups (setList r) false 0 m.
End item.

Definition ContainsDestinationIPCIDRRule (r : RuleSetItem R) : bool :=
  if ipCidrMatchSource r then false
  else existsb (λ ruleSet, ContainsIPCIDRRule (rs_metadata ruleSet)) (setList r).

(** ** The abstract rules *)

Definition matchInner (d : abstractDefaultRule R) : matcher := λ m,
  let '(groups, m) := evaluateGroups d m in
  if matchAllItems (items d) m then
    let '(matched, m) :=
      match ruleSetItem d with
      | Some rs => matchWithOuterGroups rs groups m
      | None => (groups_done groups, m)
      end in
    (matched, if matched then clear_deferred (satisfied groups) m else m)
  else (false, m).

Definition abstractDefaultRule_Match (d : abstractDefaultRule R) : matcher := λ m,
  if negb (nonempty (allItems d)) then (true, m)
  else
    let '(matched, m) := matchInner d m in
    if invert d then
      if negb matched then (true, set_deferred 0 m) else (negb (deferred m =? 0), m)
    else (matched, m).

(** The [and] and [or] loops of [abstractLogicalRule.Match]: whether the rule
    matched, the deferred groups and the metadata before it is restored. *)
Fixpoint logicalAnd_loop (rules : list R) (deferredGroups : Z) (m : InboundContext)
    : bool * Z * InboundContext :=
  match rules with
  | [] => (true, deferredGroups, m)
  | rule :: rules =>
      let m := ResetRuleCache m in
      let '(b, m) := rule_Match rule m in
      if negb b then (false, 0, m)
      else logicalAnd_loop rules (Z.lor deferredGroups (deferred m)) m
  end.

Fixpoint logicalOr_loop (rules : list R) (matched : bool) (deferredGroups : Z) (m : InboundContext)
    : bool * Z * InboundContext :=
  match rules with
  | [] => (matched, deferredGroups, m)
  | rule :: rules =>
      let m := ResetRuleCache m in
      let '(b, m) := rule_Match rule m in
      if b then
        if deferred m =? 0 then (true, 0, m)
        else logicalOr_loop rules true (Z.lor deferredGroups (deferred m)) m
      else logicalOr_loop rules matched deferredGroups m
  end.

Definition abstractLogicalRule_Match (l : abstractLogicalRule R) : matcher := λ m,
  let snapshot := snapshotRuleMatch m in
  let '(matched, deferredGroups, m) :=
    if String.eqb (l_mode l) "and" then logicalAnd_loop (l_rules l) 0 m
    else logicalOr_loop (l_rules l) false 0 m in
  let m := finish snapshot matched deferredGroups m in
  if l_invert l then
    if negb matched then (true, m) else (negb (deferredGroups =? 0), m)
  else (matched, m).

(** [func (r *DefaultDNSRule) matchForMatch(metadata) bool]: with
    [match_response] the rule matches a copy of the metadata. *)
Definition matchForMatch (d : abstractDefaultRule R) (matchResponse : bool) (matchResponseTag : string)
    : matcher := λ m,
  if matchResponse then
    let response :=
      if negb (String.eqb matchResponseTag "") then NamedDNSResponses m !! matchResponseTag
      else DNSResponse m in
    match response with
    | None => (invert d, m)
    | Some _ => (fst (abstractDefaultRule_Match d (with_response response m)), m)
    end
  else abstractDefaultRule_Match d m.
End default.

(** ** Tying the knot *)

(** [mergeableRuleIn(rules)]: the only rule of a rule-set, when it is a default
    headless rule that is not inverted and refers to no rule-set. *)
Definition mergeableRuleIn (rules : list Rule) : option (abstractDefaultRule Rule) :=
  match rules with
  | [DefaultHeadlessRule d] =>
      if invert d then None
      else match ruleSetItem d with Some _ => None | None => Some d end
  | _ => None
  end.

(** [LocalRuleSet.mergeableRule], [RemoteRuleSet.mergeableRule]. *)
Definition mergeableRule (s : RuleSet Rule) : option (abstractDefaultRule Rule) :=
  mergeableRuleIn (rs_rules s).

(** [rule.Match(metadata)], dispatched on the type of the rule. *)
Fixpoint Match (r : Rule) : matcher :=
  match r with
  | DefaultHeadlessRule d | DefaultRule d => abstractDefaultRule_Match Match mergeableRule d
  | LogicalHeadlessRule l | LogicalRule l | LogicalDNSRule l _ _ _ => abstractLogicalRule_Match Match l
  | DefaultDNSRule d matchResponse tag _ => matchForMatch Match mergeableRule d matchResponse tag
  end.

(** ** Operations of DNS rules *)

(** [matchMetadata := *metadata; matchMetadata.ResetRuleCache(); ...]. *)
Definition limitMetadata (response : option Msg) (m : InboundContext) : InboundContext :=
  with_response response (ResetRuleCache m).

(** [LegacyPreMatch], with the deferred reset of the flag. *)
Definition preMatch (f : matcher) : matcher := λ m,
  let '(b, m) := f (on_cache (set_IgnoreDestinationIPCIDRMatch true) m) in
  (b, on_cache (set_IgnoreDestinationIPCIDRMatch false) m).

(** [DNSRule.LegacyPreMatch]; [None] for a rule that is not a DNS rule. *)
Definition LegacyPreMatch (r : Rule) : option matcher :=
  match r with
  | DefaultDNSRule d matchResponse _ _ =>
      Some (if matchResponse then λ m, (false, m)
            else preMatch (abstractDefaultRule_Match Match mergeableRule d))
  | LogicalDNSRule l _ _ _ => Some (preMatch (abstractLogicalRule_Match Match l))
  | _ => None
  end.

(** [DNSRule.MatchAddressLimit]: on a copy of the metadata. *)
Definition MatchAddressLimit (r : Rule) : option (InboundContext → option Msg → bool) :=
  match r with
  | DefaultDNSRule d _ _ _ => Some (λ m response,
      fst (abstractDefaultRule_Match Match mergeableRule d (limitMetadata response m)))
  | LogicalDNSRule l _ _ _ => Some (λ m response,
      fst (abstractLogicalRule_Match Match l (limitMetadata response m)))
  | _ => None
  end.
End match_.

Section operations.
Context {EX : External}.

(** [DNSRule.WithAddressLimit]; sub-rules that are not DNS rules are skipped. *)
Fixpoint WithAddressLimit (r : Rule) : bool :=
  match r with
  | DefaultDNSRule d _ _ _ =>
      nonempty (destinationIPCIDRItems d) ||
      match ruleSetItem d with Some rs => ContainsDestinationIPCIDRRule rs | None => false end
  | LogicalDNSRule l _ _ _ => existsb WithAddressLimit (l_rules l)
  | _ => false
  end.

(** [MatchResponseTags], [MatchResponseAnonymous] and [Race] of a DNS rule. *)
Definition MatchResponseTags (r : Rule) : list string :=
  match r with
  | DefaultDNSRule _ _ tag _ => if String.eqb tag "" then [] else [tag]
  | LogicalDNSRule _ tags _ _ => tags
  | _ => []
  end.

Definition MatchResponseAnonymous (r : Rule) : bool :=
  match r with
  | DefaultDNSRule _ matchResponse tag _ => matchResponse && String.eqb tag ""
  | LogicalDNSRule _ _ anonymous _ => anonymous
  | _ => false
  end.

(** [String] of an element of [allItems]. *)
Definition itemRef_String {R} (rs : option (RuleSetItem R)) (i : itemRef) : string :=
  match i with
  | ItemRef i => RuleItem_String i
  | RuleSetRef => describe "rule_set" (match rs with Some rs => tagList rs | None => [] end)
  end.

Definition parenthesize (invert : bool) (s : string) : string :=
  if negb invert then s else String.append "!(" (String.append s ")").

(** [rule.String()]. *)
Fixpoint Rule_String (r : Rule) : string :=
  match r with
  | DefaultHeadlessRule d | DefaultRule d | DefaultDNSRule d _ _ _ =>
      parenthesize (invert d) (Join (itemRef_String (ruleSetItem d) <$> allItems d) " ")
  | LogicalHeadlessRule l | LogicalRule l | LogicalDNSRule l _ _ _ =>
      let op := if String.eqb (l_mode l) "and" then "&&"%string
                else if String.eqb (l_mode l) "or" then "||"%string else EmptyString in
      parenthesize (l_invert l)
        (Join (map Rule_String (l_rules l)) (String.append " " (String.append op " ")))
  end.

(** [rule.Action()]. *)
Definition Rule_Action (r : Rule) : option RuleAction :=
  match r with
  | DefaultHeadlessRule d | DefaultRule d | DefaultDNSRule d _ _ _ => action d
  | LogicalHeadlessRule l | LogicalRule l | LogicalDNSRule l _ _ _ => l_action l
  end.

(** ** Induction on rules *)

(** [P] holds of every rule in the rule-sets a default rule refers to. *)
Definition nested_all (P : Rule → Prop) (rs : option (RuleSetItem Rule)) : Prop :=
  match rs with
  | None => True
  | Some rs => Forall (λ s, Forall P (rs_rules s)) (setList rs)
  end.

Section induction.
Context (P : Rule → Prop).
Context (HDefaultHeadless : ∀ d, nested_all P (ruleSetItem d) → P (DefaultHeadlessRule d)).
Context (HLogicalHeadless : ∀ l, Forall P (l_rules l) → P (LogicalHeadlessRule l)).
Context (HDefault : ∀ d, nested_all P (ruleSetItem d) → P (DefaultRule d)).
Context (HLogical : ∀ l, Forall P (l_rules l) → P (LogicalRule l)).
Context (HDefaultDNS : ∀ d a b c, nested_all P (ruleSetItem d) → P (DefaultDNSRule d a b c)).
Context (HLogicalDNS : ∀ l a b c, Forall P (l_rules l) → P (LogicalDNSRule l a b c)).

Fixpoint Rule_nested_ind (r : Rule) : P r :=
  let all := fix all (l : list Rule) : Forall P l :=
    match l with
    | [] => Forall_nil_2 P
    | x :: l => Forall_cons_2 P x l (Rule_nested_ind x) (all l)
    end in
  let sets := fix sets (l : list (RuleSet Rule)) : Forall (λ s, Forall P (rs_rules s)) l :=
    match l with
    | [] => Forall_nil_2 _
    | s :: l =>
        Forall_cons_2 (λ s, Forall P (rs_rules s)) s l
          (match s as s return Forall P (rs_rules s) with mkRuleSet rules _ => all rules end) (sets l)
    end in
  let inner := fun d : abstractDefaultRule Rule =>
    match d as d return nested_all P (ruleSetItem d) with
    | mkDefaultRule _ _ _ _ _ _ _ rs _ _ =>
        match rs as rs return nested_all P rs with
        | None => I
        | Some (mkRuleSetItem _ l _ _) => sets l
        end
    end in
  let logical := fun l : abstractLogicalRule Rule =>
    match l as l return Forall P (l_rules l) with mkLogicalRule rules _ _ _ => all rules end in
  match r with
  | DefaultHeadlessRule d => HDefaultHeadless d (inner d)
  | LogicalHeadlessRule l => HLogicalHeadless l (logical l)
  | DefaultRule d => HDefault d (inner d)
  | LogicalRule l => HLogical l (logical l)
  | DefaultDNSRule d a b c => HDefaultDNS d a b c (inner d)
  | LogicalDNSRule l a b c => HLogicalDNS l a b c (logical l)
  end.
End induction.
End operations.
