(* ===== verification/RuleSemantics.v ===== *)
(** What rule matching computes.

    [holds] is the declarative meaning of a rule: it has no metadata to thread,
    no snapshots and no deferred groups.  [sound_all] relates the stateful
    [Match] of RuleMatch to it in both modes the code runs in: ordinary
    matching, and the pre-match of DNS rules that ignores destination addresses
    until the response is known. *)

From S2P Require Import Prelude GoBytes GoStrings Netip Metadata RuleItems RuleAction RuleMatch.

(** ** Groups as Boolean functions *)

Inductive group : Type := SrcAddr | SrcPort | DstAddr | DstPort.

Definition all_groups (p : group → bool) : bool := p SrcAddr && p SrcPort && p DstAddr && p DstPort.

(** The [ruleMatchState] with the groups of [p]. *)
Definition mask (p : group → bool) : Z :=
  Z.b2z (p SrcAddr) + 2 * Z.b2z (p SrcPort) + 4 * Z.b2z (p DstAddr) + 8 * Z.b2z (p DstPort).

Lemma all_groups_true p : all_groups p = true ↔ ∀ g, p g = true.
Proof.
  unfold all_groups. rewrite !andb_true_iff. split; [intros (((? & ?) & ?) & ?) []; done|naive_solver].
Qed.

Lemma all_groups_ext p q : (∀ g, p g = q g) → all_groups p = all_groups q.
Proof. intros H. unfold all_groups. by rewrite !H. Qed.

Lemma mask_lor p q : Z.lor (mask p) (mask q) = mask (λ g, p g || q g).
Proof.
  unfold mask. by destruct (p SrcAddr), (p SrcPort), (p DstAddr), (p DstPort),
    (q SrcAddr), (q SrcPort), (q DstAddr), (q DstPort).
Qed.

Lemma mask_done p q : groups_done (mkGroups (mask p) (mask q)) = all_groups (λ g, negb (p g) || q g).
Proof.
  unfold groups_done, all_groups, mask; cbn [required satisfied].
  by destruct (p SrcAddr), (p SrcPort), (p DstAddr), (p DstPort),
    (q SrcAddr), (q SrcPort), (q DstAddr), (q DstPort).
Qed.

(** A deferred-groups byte that holds only the destination address group. *)
Definition dbit (b : bool) : Z := if b then ruleMatchDestinationAddress else 0.

Lemma dbit_zero b : (dbit b =? 0) = negb b.
Proof. by destruct b. Qed.
Lemma dbit_lor a b : Z.lor (dbit a) (dbit b) = dbit (a || b).
Proof. by destruct a, b. Qed.
Lemma dbit_ldiff a p : Z.ldiff (dbit a) (mask p) = dbit (a && negb (p DstAddr)).
Proof. unfold mask. by destruct a, (p SrcAddr), (p SrcPort), (p DstAddr), (p DstPort). Qed.
Lemma dbit_inj a b : dbit a = dbit b → a = b.
Proof. by destruct a, b. Qed.

(** ** Metadata bookkeeping *)

(** The two switches a rule-set item sets for the rules of its sets. *)
Record env : Type := mkEnv { e_source : bool; e_empty : bool }.

Definition env_of (m : InboundContext) : env := mkEnv (matchSource m) (acceptEmpty m).
Definition env0 : env := mkEnv false false.
Definition env_in {R} (rs : RuleSetItem R) : env := mkEnv (ipCidrMatchSource rs) (ipCidrAcceptEmpty rs).

(** The metadata as an item reads it under [e]. *)
Definition in_env (e : env) (m : InboundContext) : InboundContext :=
  set_cache (mkCache (e_source e) (e_empty e) false false false false 0 false) m.

(** [m'] differs from [m] at most in the deferred groups and in the four match
    flags no rule reads. *)
Definition frames (m m' : InboundContext) : Prop :=
  same_identity m m' ∧ env_of m = env_of m' ∧ ignoreDst m = ignoreDst m'.

#[export] Instance frames_equiv : Equivalence frames.
Proof.
  split; unfold frames; [done|intros a b (H1 & H2 & H3); rewrite H2, H3; split; [by symmetry|done]|].
  intros a b c (H1 & H2 & H3) (H4 & H5 & H6). rewrite H2, H3. split; [by etrans|done].
Qed.

Lemma deferred_set v m : deferred (set_deferred v m) = v.
Proof. unfold deferred, set_deferred, on_cache. rewrite cache_set_cache. by destruct (cache m). Qed.
Lemma deferred_or v m : deferred (or_deferred v m) = Z.lor (deferred m) v.
Proof. unfold deferred, or_deferred, on_cache. rewrite cache_set_cache. by destruct (cache m). Qed.
Lemma deferred_clear v m : deferred (clear_deferred v m) = Z.ldiff (deferred m) v.
Proof. unfold deferred, clear_deferred, on_cache. rewrite cache_set_cache. by destruct (cache m). Qed.

Lemma frames_on_cache f m :
  (∀ c, IPCIDRMatchSource (f c) = IPCIDRMatchSource c ∧ IPCIDRAcceptEmpty (f c) = IPCIDRAcceptEmpty c ∧
        IgnoreDestinationIPCIDRMatch (f c) = IgnoreDestinationIPCIDRMatch c) →
  frames m (on_cache f m).
Proof.
  intros H. destruct (H (cache m)) as (H1 & H2 & H3).
  unfold frames, env_of, matchSource, acceptEmpty, ignoreDst, on_cache. rewrite cache_set_cache, H1, H2, H3.
  split; [|done]. symmetry. apply same_identity_set_cache.
Qed.

Lemma frames_set_deferred v m : frames m (set_deferred v m).
Proof. apply frames_on_cache. by intros []. Qed.
Lemma frames_or_deferred v m : frames m (or_deferred v m).
Proof. apply frames_on_cache. by intros []. Qed.
Lemma frames_clear_deferred v m : frames m (clear_deferred v m).
Proof. apply frames_on_cache. by intros []. Qed.
Lemma frames_Reset m : frames m (ResetRuleMatchCache m).
Proof. apply frames_on_cache. by intros []. Qed.

Lemma deferred_Reset m : deferred (ResetRuleMatchCache m) = 0.
Proof. unfold deferred, ResetRuleMatchCache, on_cache. rewrite cache_set_cache. by destruct (cache m). Qed.
Lemma deferred_ResetRuleCache m : deferred (ResetRuleCache m) = 0.
Proof. apply deferred_Reset. Qed.
Lemma env_ResetRuleCache m : env_of (ResetRuleCache m) = env0.
Proof.
  unfold env_of, matchSource, acceptEmpty, ResetRuleCache, ResetRuleMatchCache, on_cache.
  rewrite !cache_set_cache. by destruct (cache m).
Qed.
Lemma ignoreDst_ResetRuleCache m : ignoreDst (ResetRuleCache m) = ignoreDst m.
Proof.
  unfold ignoreDst, ResetRuleCache, ResetRuleMatchCache, on_cache.
  rewrite !cache_set_cache. by destruct (cache m).
Qed.

Section prepare.
Context {R : Type} (rs : RuleSetItem R).
Lemma prepare_identity m : same_identity (prepareNestedMatch rs m) m.
Proof. unfold prepareNestedMatch. rewrite same_identity_on_cache. apply same_identity_Reset. Qed.
Lemma prepare_env m : env_of (prepareNestedMatch rs m) = env_in rs.
Proof.
  unfold env_of, matchSource, acceptEmpty, prepareNestedMatch, on_cache.
  rewrite !cache_set_cache. unfold ResetRuleMatchCache, on_cache. rewrite cache_set_cache.
  by destruct (cache m).
Qed.
Lemma prepare_ignore m : ignoreDst (prepareNestedMatch rs m) = ignoreDst m.
Proof.
  unfold ignoreDst, prepareNestedMatch, on_cache.
  rewrite !cache_set_cache. unfold ResetRuleMatchCache, on_cache. rewrite cache_set_cache.
  by destruct (cache m).
Qed.
Lemma prepare_deferred m : deferred (prepareNestedMatch rs m) = 0.
Proof.
  unfold deferred, prepareNestedMatch, on_cache.
  rewrite !cache_set_cache. unfold ResetRuleMatchCache, on_cache. rewrite cache_set_cache.
  by destruct (cache m).
Qed.
End prepare.

(** Restoring a snapshot taken at [m0]. *)
Lemma restore_deferred m0 m : deferred (restore (snapshotRuleMatch m0) m) = deferred m0.
Proof. unfold deferred, restore, on_cache. rewrite cache_set_cache. by destruct (cache m). Qed.

Lemma restore_frames m0 m :
  same_identity m m0 → ignoreDst m = ignoreDst m0 → frames m0 (restore (snapshotRuleMatch m0) m).
Proof.
  intros Hi Hg. unfold frames. split_and!.
  - unfold restore. rewrite same_identity_on_cache. by symmetry.
  - unfold env_of, matchSource, acceptEmpty, restore, on_cache. rewrite cache_set_cache. by destruct (cache m).
  - rewrite <- Hg. unfold ignoreDst, restore, on_cache. rewrite cache_set_cache. by destruct (cache m).
Qed.

#[export] Hint Resolve frames_set_deferred frames_or_deferred frames_clear_deferred frames_Reset
  restore_frames prepare_identity : singbox.

(** ** Meaning of items and groups *)

(** What the model relies on of the outbounds and DNS servers that prefer
    routes: their answer does not read the rule cache. *)
Class RuntimeLaws (rt : Runtime) : Prop := {
  preferred_domain_cache o m c host :
    rt_PreferredDomain rt o (set_cache c m) host = rt_PreferredDomain rt o m host;
  preferred_address_cache o m c a :
    rt_PreferredAddress rt o (set_cache c m) a = rt_PreferredAddress rt o m a
}.

Section semantics.
Context {EX : External} (rt : Runtime).

Definition item_holds (e : env) (m : InboundContext) (i : RuleItem) : bool :=
  RuleItem_Match rt i (in_env e m).

(** Items whose answer cannot depend on a DNS response; [source] is the
    [rule_set_ip_cidr_match_source] switch. *)
Definition response_free (source : bool) (i : RuleItem) : bool :=
  match i with
  | IPCIDRItem _ isSource _ => isSource || source
  | IPIsPrivateItem isSource => isSource
  | IPAcceptAnyItem | DNSResponseRCodeItem _ | DNSResponseRecordItem _ _ _ | PreferredByItem _ => false
  | _ => true
  end.

Lemma in_env_identity e m m' : same_identity m m' → in_env e m = in_env e m'.
Proof. intros H. apply H. Qed.

Lemma item_holds_identity e m m' i : same_identity m m' → item_holds e m i = item_holds e m' i.
Proof. intros H. unfold item_holds. by rewrite (in_env_identity e m m'). Qed.

Lemma item_holds_response e v m i :
  response_free (e_source e) i = true → item_holds e (with_response v m) i = item_holds e m i.
Proof.
  unfold item_holds. destruct m. destruct i; cbn; try done.
  - destruct isSource; [done|]. cbn. intros H. unfold IPCIDRItem_Match. cbn. by rewrite H.
  - by intros ->.
Qed.

Lemma existsb_item_response e v m l :
  forallb (response_free (e_source e)) l = true →
  existsb (item_holds e (with_response v m)) l = existsb (item_holds e m) l.
Proof.
  intros H. apply existsb_ext_in. intros i Hi. apply item_holds_response.
  rewrite forallb_forall in H. apply H. by apply list_elem_of_In.
Qed.

Lemma forallb_item_response e v m l :
  forallb (response_free (e_source e)) l = true →
  forallb (item_holds e (with_response v m)) l = forallb (item_holds e m) l.
Proof.
  intros H. apply forallb_ext_in. intros i Hi. apply item_holds_response.
  rewrite forallb_forall in H. apply H. by apply list_elem_of_In.
Qed.

Section default.
Context {R : Type} (ign : bool) (e : env).

(** Destination addresses that count for the source group, and for the
    destination group. *)
Definition ip_source (d : abstractDefaultRule R) : bool := e_source e && nonempty (destinationIPCIDRItems d).
Definition ip_dest (d : abstractDefaultRule R) : bool := negb (e_source e) && nonempty (destinationIPCIDRItems d).

(** The groups rule [d] constrains, and those an item of which holds; under
    [ign] destination addresses are left out. *)
Definition requires (d : abstractDefaultRule R) (g : group) : bool :=
  match g with
  | SrcAddr => nonempty (sourceAddressItems d) || ip_source d
  | SrcPort => nonempty (sourcePortItems d)
  | DstAddr => nonempty (destinationAddressItems d) || negb ign && ip_dest d
  | DstPort => nonempty (destinationPortItems d)
  end.

Definition satisfies (d : abstractDefaultRule R) (m : InboundContext) (g : group) : bool :=
  match g with
  | SrcAddr => existsb (item_holds e m) (sourceAddressItems d)
               || e_source e && existsb (item_holds e m) (destinationIPCIDRItems d)
  | SrcPort => existsb (item_holds e m) (sourcePortItems d)
  | DstAddr => existsb (item_holds e m) (destinationAddressItems d)
               || negb ign && negb (e_source e) && existsb (item_holds e m) (destinationIPCIDRItems d)
  | DstPort => existsb (item_holds e m) (destinationPortItems d)
  end.

(** Whether [evaluateGroups] defers the destination group. *)
Definition defers (d : abstractDefaultRule R) : bool :=
  ign && ip_dest d && negb (nonempty (destinationAddressItems d)).
End default.

(** ** Meaning of rules *)

Section rules.
Context {R : Type} (rule_holds : env → R → InboundContext → bool)
  (mergeable : RuleSet R → option (abstractDefaultRule R)).

(** A default rule with constraints [req]/[sat] and a rule-set: a set with a
    mergeable rule shares its groups with the outer rule; any other set needs
    the outer groups and one of its rules. *)
Definition set_holds (req sat : group → bool) (e : env) (m : InboundContext) (s : RuleSet R) : bool :=
  match mergeable s with
  | Some b =>
      forallb (item_holds e m) (items b) &&
      all_groups (λ g, negb (req g || requires false e b g) || (sat g || satisfies false e b m g))
  | None =>
      all_groups (λ g, negb (req g) || sat g) && existsb (λ r, rule_holds e r m) (rs_rules s)
  end.

Definition inner_holds (e : env) (d : abstractDefaultRule R) (m : InboundContext) : bool :=
  forallb (item_holds e m) (items d) &&
  match ruleSetItem d with
  | None => all_groups (λ g, negb (requires false e d g) || satisfies false e d m g)
  | Some rs => existsb (set_holds (requires false e d) (satisfies false e d m) (env_in rs) m) (setList rs)
  end.

Definition default_holds (e : env) (d : abstractDefaultRule R) (m : InboundContext) : bool :=
  negb (nonempty (allItems d)) || xorb (invert d) (inner_holds e d m).

Definition logical_holds (l : abstractLogicalRule R) (m : InboundContext) : bool :=
  xorb (l_invert l)
    (if String.eqb (l_mode l) "and" then forallb (λ r, rule_holds env0 r m) (l_rules l)
     else existsb (λ r, rule_holds env0 r m) (l_rules l)).
End rules.

(** The response a DNS rule with [match_response] looks at. *)
Definition selected_response (tag : string) (m : InboundContext) : option Msg :=
  if negb (String.eqb tag "") then NamedDNSResponses m !! tag else DNSResponse m.

Fixpoint holds (e : env) (r : Rule) (m : InboundContext) : bool :=
  match r with
  | DefaultHeadlessRule d | DefaultRule d => default_holds holds mergeableRule e d m
  | LogicalHeadlessRule l | LogicalRule l | LogicalDNSRule l _ _ _ => logical_holds holds l m
  | DefaultDNSRule d matchResponse tag _ =>
      if matchResponse then
        match selected_response tag m with
        | None => invert d
        | Some response => default_holds holds mergeableRule e d (with_response (Some response) m)
        end
      else default_holds holds mergeableRule e d m
  end.

(** ** Evaluating groups *)

Context {RL : RuntimeLaws rt}.

Lemma PreferredByItem_Match_cache c l m :
  PreferredByItem_Match rt l (set_cache c m) = PreferredByItem_Match rt l m.
Proof.
  assert (Hd : domainHost (set_cache c m) = domainHost m) by by destruct m.
  assert (Ht : Destination (set_cache c m) = Destination m) by by destruct m.
  assert (Ha : DestinationAddresses (set_cache c m) = DestinationAddresses m) by by destruct m.
  unfold PreferredByItem_Match. rewrite Hd, Ht, Ha.
  f_equal; [f_equal; f_equal|]; repeat (apply existsb_ext_in; intros ? _).
  - apply preferred_domain_cache.
  - apply preferred_address_cache.
  - apply preferred_address_cache.
Qed.

Lemma RuleItem_Match_env i m : RuleItem_Match rt i m = item_holds (env_of m) m i.
Proof.
  unfold item_holds, in_env. destruct i; try by destruct m. cbn.
  by rewrite PreferredByItem_Match_cache.
Qed.

Lemma matchAnyItem_holds l m : matchAnyItem rt l m = existsb (item_holds (env_of m) m) l.
Proof. apply existsb_ext_in. intros i _. apply RuleItem_Match_env. Qed.
Lemma matchAllItems_holds l m : matchAllItems rt l m = forallb (item_holds (env_of m) m) l.
Proof. apply forallb_ext_in. intros i _. apply RuleItem_Match_env. Qed.
End semantics.
