(* ===== verification/RuleRefine.v ===== *)
(** The stateful matcher of RuleMatch implements the meaning of RuleSemantics.

    One induction covers both modes.  In ordinary mode the answer is exactly
    [holds].  In pre-match mode ([IgnoreDestinationIPCIDRMatch]) the answer is
    three-valued: no, yes, or "yes, with the destination group deferred", and it
    is sound for every response the rule may see later, provided the rule is
    [prematchable]. *)

From S2P Require Import Prelude GoBytes GoStrings Netip Metadata RuleItems RuleAction RuleMatch RuleSemantics.

Section refine.
Context {EX : External} (rt : Runtime) {RL : RuntimeLaws rt}.

(** ** Evaluating groups *)

Lemma groups_bits (ms ig s sa sp spa da daa ip ipa dp dpa : bool) :
  (sa = true → s = true) → (spa = true → sp = true) → (daa = true → da = true) →
  (ipa = true → ip = true) → (dpa = true → dp = true) →
  (let g := noGroups in
   let g := if s then let g := require_ ruleMatchSourceAddress g in
              if sa then satisfy ruleMatchSourceAddress g else g else g in
   let g := if ms && ip then let g := require_ ruleMatchSourceAddress g in
              if negb (state_has (satisfied g) ruleMatchSourceAddress) && ipa
              then satisfy ruleMatchSourceAddress g else g else g in
   let g := if sp then let g := require_ ruleMatchSourcePort g in
              if spa then satisfy ruleMatchSourcePort g else g else g in
   let g := if da then let g := require_ ruleMatchDestinationAddress g in
              if daa then satisfy ruleMatchDestinationAddress g else g else g in
   let g := if negb ig && negb ms && ip then let g := require_ ruleMatchDestinationAddress g in
              if negb (state_has (satisfied g) ruleMatchDestinationAddress) && ipa
              then satisfy ruleMatchDestinationAddress g else g else g in
   if dp then let g := require_ ruleMatchDestinationPort g in
              if dpa then satisfy ruleMatchDestinationPort g else g else g) =
  mkGroups
    (mask (λ g, match g with SrcAddr => s || ms && ip | SrcPort => sp
                | DstAddr => da || negb ig && (negb ms && ip) | DstPort => dp end))
    (mask (λ g, match g with SrcAddr => sa || ms && ipa | SrcPort => spa
                | DstAddr => daa || negb ig && negb ms && ipa | DstPort => dpa end)).
Proof.
  intros Hs Hsp Hda Hip Hdp.
  destruct sa; [rewrite Hs by done|destruct s].
  all: destruct ipa; [rewrite Hip by done|destruct ip].
  all: destruct spa; [rewrite Hsp by done|destruct sp].
  all: destruct daa; [rewrite Hda by done|destruct da].
  all: destruct dpa; [rewrite Hdp by done|destruct dp].
  all: by destruct ms, ig.
Qed.

Lemma existsb_nonempty {A} (f : A → bool) l : existsb f l = true → nonempty l = true.
Proof. by destruct l. Qed.

Context {R : Type}.

Lemma evaluateGroups_eq (d : abstractDefaultRule R) m :
  evaluateGroups rt d m =
  (mkGroups (mask (requires (ignoreDst m) (env_of m) d))
            (mask (satisfies rt (ignoreDst m) (env_of m) d m)),
   if defers (ignoreDst m) (env_of m) d then or_deferred ruleMatchDestinationAddress m else m).
Proof.
  unfold evaluateGroups. f_equal.
  - unfold destinationIPCIDRMatchesSource, destinationIPCIDRMatchesDestination.
    rewrite !(matchAnyItem_holds rt). rewrite groups_bits by apply existsb_nonempty. done.
  - unfold defers, ip_dest, env_of. cbn. by rewrite andb_assoc.
Qed.

(** ** Pre-matching *)

(** The metadata [mf] the full match will see, from the pre-match's [m]. *)
Definition sees (m mf : InboundContext) : Prop :=
  if ignoreDst m then ∃ v, same_identity mf (with_response v m) else same_identity mf m.

Definition items_ok (e : env) (d : abstractDefaultRule R) : bool :=
  forallb (response_free (e_source e)) (items d) &&
  forallb (response_free (e_source e)) (sourceAddressItems d) &&
  forallb (response_free (e_source e)) (sourcePortItems d) &&
  forallb (response_free (e_source e)) (destinationAddressItems d) &&
  forallb (response_free (e_source e)) (destinationPortItems d) &&
  (negb (e_source e) || forallb (response_free (e_source e)) (destinationIPCIDRItems d)).

Lemma with_response_identity v m m' :
  same_identity m m' → same_identity (with_response v m) (with_response v m').
Proof.
  intros H c. specialize (H c). destruct m, m'. cbn in *. by injection H as -> -> -> -> -> -> -> -> -> -> -> -> -> -> -> -> -> -> -> -> .
Qed.

Lemma sees_frames m m' mf : same_identity m m' → ignoreDst m = ignoreDst m' → sees m mf → sees m' mf.
Proof.
  unfold sees. intros Hi <-. destruct (ignoreDst m).
  - intros [v Hv]. exists v. rewrite Hv. by apply with_response_identity.
  - intros H. by rewrite H.
Qed.

Lemma existsb_sees e m mf l :
  sees m mf → (ignoreDst m = true → forallb (response_free (e_source e)) l = true) →
  existsb (item_holds rt e m) l = existsb (item_holds rt e mf) l.
Proof.
  unfold sees. intros Hs Hl. destruct (ignoreDst m).
  - destruct Hs as [v Hv]. rewrite <- (existsb_item_response rt e v m) by auto.
    apply existsb_ext_in. intros i _. symmetry. by apply item_holds_identity.
  - apply existsb_ext_in. intros i _. symmetry. by apply item_holds_identity.
Qed.

Lemma forallb_sees e m mf l :
  sees m mf → (ignoreDst m = true → forallb (response_free (e_source e)) l = true) →
  forallb (item_holds rt e m) l = forallb (item_holds rt e mf) l.
Proof.
  unfold sees. intros Hs Hl. destruct (ignoreDst m).
  - destruct Hs as [v Hv]. rewrite <- (forallb_item_response rt e v m) by auto.
    apply forallb_ext_in. intros i _. symmetry. by apply item_holds_identity.
  - apply forallb_ext_in. intros i _. symmetry. by apply item_holds_identity.
Qed.

(** Outside the destination address group, pre-match and full match agree. *)
Lemma satisfies_sees ign e (d : abstractDefaultRule R) m mf g :
  sees m mf → ignoreDst m = ign → (ign = true → items_ok e d = true) →
  g ≠ DstAddr ∨ ign && ip_dest e d = false →
  satisfies rt ign e d m g = satisfies rt false e d mf g.
Proof.
  intros Hs <- Hok Hg. unfold items_ok in Hok. rewrite !andb_true_iff in Hok.
  destruct g; cbn.
  - rewrite (existsb_sees e m mf (sourceAddressItems d)) by naive_solver. f_equal.
    destruct (e_source e) eqn:He; [cbn|done].
    apply existsb_sees; [done|]. intros Hi. rewrite He. destruct (Hok Hi) as [_ Hx].
    done.
  - apply existsb_sees; naive_solver.
  - destruct Hg as [Hg|Hg]; [done|].
    rewrite (existsb_sees e m mf (destinationAddressItems d)) by naive_solver. f_equal.
    destruct (ignoreDst m) eqn:Hi; cbn in *.
    + unfold ip_dest in Hg. destruct (e_source e); [done|]. cbn in *.
      apply nonempty_false in Hg. by rewrite Hg.
    + f_equal. apply existsb_sees; [done|]. by rewrite Hi.
  - apply existsb_sees; naive_solver.
Qed.

Lemma requires_sees ign e (d : abstractDefaultRule R) g :
  g ≠ DstAddr ∨ ign && ip_dest e d = false → requires ign e d g = requires false e d g.
Proof.
  intros [Hg|Hg]; destruct g; try done. cbn. destruct ign; [|done]. cbn in *. by rewrite Hg.
Qed.

(** ** The loops *)

Lemma finish_frames m0 m a dg :
  same_identity m m0 → ignoreDst m = ignoreDst m0 → frames m0 (finish (snapshotRuleMatch m0) a dg m).
Proof.
  intros Hi Hg. unfold finish. destruct a; [rewrite <- frames_or_deferred|]; by apply restore_frames.
Qed.

Lemma finish_deferred m0 m a s :
  deferred m0 = dbit s → deferred (finish (snapshotRuleMatch m0) a (dbit a) m) = dbit (s || a).
Proof.
  intros Hs. unfold finish. destruct a.
  - by rewrite deferred_or, restore_deferred, Hs, dbit_lor.
  - by rewrite restore_deferred, Hs, orb_false_r.
Qed.

Section loops.
Context (rule_Match : R → matcher) (mergeable : RuleSet R → option (abstractDefaultRule R)).
Context (rule_holds : env → R → InboundContext → bool) (rule_ok may : env → R → bool).

(** [f] answers with a value [b] and deferred bit [u] that are sound for [v]. *)
Definition sound (f : matcher) (v mayd : bool) (m : InboundContext) : Prop :=
  ∃ b m' u, f m = (b, m') ∧ frames m m' ∧ (b = true → deferred m' = dbit u) ∧
    (b = false → v = false) ∧ (b = true → u = false → v = true) ∧
    (u = true → mayd = true ∧ ignoreDst m = true).

Definition rule_sound (r : R) : Prop :=
  ∀ e m mf, sees m mf → env_of m = e → deferred m = 0 →
    (ignoreDst m = true → rule_ok e r = true) →
    sound (rule_Match r) (rule_holds e r mf) (may e r) m.

(** [matchAnyHeadlessRule] from a state reached in its loop; [a] is the
    accumulated [matched], which is set only together with deferred groups. *)
Lemma any_loop_sound rules e m0 mf m a :
  Forall rule_sound rules →
  sees m0 mf → env_of m0 = e → deferred m0 = 0 →
  (ignoreDst m0 = true → forallb (rule_ok e) rules = true) →
  frames m0 m →
  ∃ b m' u, matchAnyHeadlessRule_loop rule_Match (snapshotRuleMatch m0) rules a (dbit a) m = (b, m') ∧
    frames m0 m' ∧ (b = true → deferred m' = dbit u) ∧
    (b = false → a = false ∧ existsb (λ r, rule_holds e r mf) rules = false) ∧
    (b = true → u = false → existsb (λ r, rule_holds e r mf) rules = true) ∧
    (u = true → a = true ∨ existsb (may e) rules = true ∧ ignoreDst m0 = true).
Proof.
  intros HF Hsees He Hd. revert m a.
  induction HF as [|r rules Hr HF IH]; intros m a Hok Hm; cbn [matchAnyHeadlessRule_loop existsb forallb] in *.
  { destruct Hm as (Hi & _ & Hg). eexists _, _, a. split_and!; [done| | |naive_solver..].
    - by apply finish_frames.
    - intros _. by rewrite (finish_deferred _ _ _ false). }
  assert (Hm1 : frames m0 (ResetRuleMatchCache m)) by (rewrite <- frames_Reset; done).
  destruct (Hr e (ResetRuleMatchCache m) mf) as (b & m2 & u & Hb & Hm2 & Hdef & Hf & Ht & Hu).
  { destruct Hm1 as (Hi & _ & Hg). by apply (sees_frames m0). }
  { destruct Hm1 as (_ & He1 & _). congruence. }
  { apply deferred_Reset. }
  { destruct Hm1 as (_ & _ & <-). intros Hi. apply Hok in Hi. by apply andb_true_iff in Hi as [? _]. }
  rewrite Hb. assert (Hm2' : frames m0 m2) by by etrans.
  assert (Hg : ignoreDst (ResetRuleMatchCache m) = ignoreDst m0) by (by destruct Hm1 as (_ & _ & <-)).
  rewrite Hg in Hu.
  assert (Hok' : ignoreDst m0 = true → forallb (rule_ok e) rules = true)
    by (intros Hi; apply Hok in Hi; by apply andb_true_iff in Hi as [_ ?]).
  destruct b.
  - rewrite Hdef, dbit_zero by done. destruct u; cbn.
    + rewrite (dbit_lor a true : Z.lor (dbit a) ruleMatchDestinationAddress = _), orb_true_r.
      destruct (IH m2 true Hok' Hm2') as (b' & m' & u' & Hl & ? & ? & Hf' & Ht' & Hu').
      exists b', m', u'. rewrite Hl. split_and!; [done..| | |].
      * intros ->. destruct Hf' as [? ?]; done.
      * intros ? ?. by rewrite Ht', orb_true_r.
      * intros Hu1. destruct Hu as [Hu ?]; [done|]. rewrite Hu. right. done.
    + eexists _, _, false. split_and!; [done| | |done| |done].
      * destruct Hm2' as (? & _ & ?). apply restore_frames; [by symmetry|done].
      * intros _. by rewrite restore_deferred.
      * intros _ _. by rewrite Ht.
  - destruct (IH m2 a Hok' Hm2') as (b' & m' & u' & Hl & ? & ? & Hf' & Ht' & Hu').
    exists b', m', u'. rewrite Hl. split_and!; [done..| | |].
    + intros Hb'. destruct (Hf' Hb') as [-> ->]. by rewrite Hf.
    + intros ? ?. by rewrite Ht', orb_true_r.
    + intros Hu1. destruct (Hu' Hu1) as [?|[-> ?]]; [by left|right]. by rewrite orb_true_r.
Qed.

Lemma RuleSet_Match_sound s e m mf :
  Forall rule_sound (rs_rules s) →
  sees m mf → env_of m = e → deferred m = 0 →
  (ignoreDst m = true → forallb (rule_ok e) (rs_rules s) = true) →
  sound (RuleSet_Match rule_Match s) (existsb (λ r, rule_holds e r mf) (rs_rules s))
    (existsb (may e) (rs_rules s)) m.
Proof.
  intros HF Hs He Hd Hok.
  destruct (any_loop_sound _ e m mf m false HF Hs He Hd Hok) as (b & m' & u & H); [done|].
  exists b, m', u. unfold RuleSet_Match, matchAnyHeadlessRule. naive_solver.
Qed.

(** *** Rules with rule-sets *)

(** What a pre-match needs of a set whose only rule is merged into [d]: not both
    a domain condition and a destination address condition in the merged rule. *)
Definition branch_ok (e : env) (d : abstractDefaultRule R) (e' : env) (b : abstractDefaultRule R) : bool :=
  items_ok e' b &&
  negb ((nonempty (destinationAddressItems d) || nonempty (destinationAddressItems b)) &&
        (ip_dest e d || ip_dest e' b)).

Definition set_may (rs : RuleSetItem R) (s : RuleSet R) : bool :=
  match mergeable s with
  | Some b => ip_dest (env_in rs) b
  | None => existsb (may (env_in rs)) (rs_rules s)
  end.

Definition set_ok (e : env) (d : abstractDefaultRule R) (rs : RuleSetItem R) (s : RuleSet R) : bool :=
  match mergeable s with
  | Some b => branch_ok e d (env_in rs) b
  | None =>
      forallb (rule_ok (env_in rs)) (rs_rules s) &&
      negb (nonempty (destinationAddressItems d) && existsb (may (env_in rs)) (rs_rules s))
  end.

Definition default_ok (e : env) (d : abstractDefaultRule R) : bool :=
  items_ok e d && negb (nonempty (destinationAddressItems d) && ip_dest e d) &&
  match ruleSetItem d with
  | None => true
  | Some rs => forallb (set_ok e d rs) (setList rs)
  end.

Definition default_may (e : env) (d : abstractDefaultRule R) : bool :=
  ip_dest e d || match ruleSetItem d with None => false | Some rs => existsb (set_may rs) (setList rs) end.

Lemma set_ok_may e d rs s :
  set_ok e d rs s = true → set_may rs s = true → nonempty (destinationAddressItems d) = false.
Proof.
  unfold set_ok, set_may, branch_ok. destruct (mergeable s) as [b|].
  - rewrite andb_true_iff. intros [_ H] Hb. rewrite Hb in H.
    destruct (nonempty (destinationAddressItems d)); [|done]. by rewrite orb_true_r in H.
  - rewrite andb_true_iff. intros [_ H] Hb. rewrite Hb in H. by destruct (nonempty _).
Qed.

(** Groups that agree but for a destination group the pre-match leaves open. *)
Definition agree (pre full : group → bool) (open : bool) : Prop :=
  (∀ g, g ≠ DstAddr → pre g = full g) ∧ (pre DstAddr = full DstAddr ∨ pre DstAddr = true ∧ open = true).

Lemma agree_all pre full open :
  agree pre full open →
  (all_groups pre = false → all_groups full = false) ∧
  (all_groups pre = true → open = false → all_groups full = true).
Proof.
  intros [H1 H2]. unfold all_groups. rewrite <- (H1 SrcAddr), <- (H1 SrcPort), <- (H1 DstPort) by done.
  destruct H2 as [->|[-> ->]]; [by split|]. split; [|done].
  destruct (pre SrcAddr), (pre SrcPort), (pre DstPort), (full DstAddr); done.
Qed.

(** Under [ign], a rule without domain conditions leaves the group alone. *)
Lemma dst_unconstrained e (d : abstractDefaultRule R) m :
  nonempty (destinationAddressItems d) = false →
  requires true e d DstAddr = false ∧ satisfies rt true e d m DstAddr = false.
Proof. intros H. cbn. rewrite H. apply nonempty_false in H. by rewrite H. Qed.

Lemma defers_ip ign e (d : abstractDefaultRule R) :
  defers ign e d = true → ign = true ∧ ip_dest e d = true ∧ nonempty (destinationAddressItems d) = false.
Proof. unfold defers. rewrite !andb_true_iff, negb_true_iff. naive_solver. Qed.

Lemma outer_agree e d m mf :
  sees m mf → (ignoreDst m = true → items_ok e d = true) →
  (ignoreDst m = true → nonempty (destinationAddressItems d) && ip_dest e d = false) →
  agree (λ g, negb (requires (ignoreDst m) e d g) || satisfies rt (ignoreDst m) e d m g)
        (λ g, negb (requires false e d g) || satisfies rt false e d mf g) (defers (ignoreDst m) e d).
Proof.
  intros Hs Hok Hun. split.
  - intros g Hg. rewrite requires_sees, (satisfies_sees (ignoreDst m) e d m mf) by auto. done.
  - destruct (ignoreDst m && ip_dest e d) eqn:Hip.
    + apply andb_true_iff in Hip as [Hi Hip]. right. rewrite Hi in *.
      specialize (Hun eq_refl). rewrite Hip, andb_true_r in Hun.
      destruct (dst_unconstrained e d m Hun) as [-> _]. unfold defers. by rewrite Hun, Hip.
    + left. rewrite requires_sees, (satisfies_sees (ignoreDst m) e d m mf) by auto. done.
Qed.

Lemma branch_agree e d e' b m m1 mf :
  sees m mf → sees m1 mf → ignoreDst m1 = ignoreDst m →
  (ignoreDst m = true → items_ok e d = true ∧ branch_ok e d e' b = true) →
  let ign := ignoreDst m in
  agree (λ g, negb (requires ign e d g || requires ign e' b g) ||
              (satisfies rt ign e d m g || satisfies rt ign e' b m1 g))
        (λ g, negb (requires false e d g || requires false e' b g) ||
              (satisfies rt false e d mf g || satisfies rt false e' b mf g))
        (defers ign e d || defers ign e' b).
Proof.
  intros Hs Hs1 Hi Hok ign.
  assert (Hok1 : ignoreDst m = true → items_ok e d = true) by (intros H; by destruct (Hok H)).
  assert (Hok2 : ignoreDst m = true → items_ok e' b = true)
    by (intros H; destruct (Hok H) as [_ Hb]; by apply andb_true_iff in Hb as [? _]).
  split.
  - intros g Hg. unfold ign.
    rewrite (requires_sees (ignoreDst m) e d), (requires_sees (ignoreDst m) e' b),
      (satisfies_sees (ignoreDst m) e d m mf), (satisfies_sees (ignoreDst m) e' b m1 mf)
      by auto. done.
  - destruct (ign && (ip_dest e d || ip_dest e' b)) eqn:Hip.
    + apply andb_true_iff in Hip as [Hig Hip]. right. unfold ign in *. rewrite Hig in *.
      destruct (Hok eq_refl) as [_ [_ Hun]%andb_true_iff]. rewrite Hip, andb_true_r in Hun.
      apply negb_true_iff, orb_false_iff in Hun as [Hd Hb].
      destruct (dst_unconstrained e d m Hd) as [-> _]. destruct (dst_unconstrained e' b m Hb) as [-> _].
      split; [done|]. unfold defers. rewrite Hd, Hb. by destruct (ip_dest e d), (ip_dest e' b).
    + left. unfold ign in *.
      rewrite andb_orb_distrib_r, orb_false_iff in Hip. destruct Hip.
      rewrite (requires_sees (ignoreDst m) e d), (requires_sees (ignoreDst m) e' b),
      (satisfies_sees (ignoreDst m) e d m mf), (satisfies_sees (ignoreDst m) e' b m1 mf)
        by auto. done.
Qed.

(** The metadata [evaluateGroups] leaves. *)
Definition mark (d : abstractDefaultRule R) (m : InboundContext) : InboundContext :=
  if defers (ignoreDst m) (env_of m) d then or_deferred ruleMatchDestinationAddress m else m.

Lemma mark_frames d m : frames m (mark d m).
Proof. unfold mark. destruct (defers _ _ _); [apply frames_or_deferred|done]. Qed.

Lemma mark_deferred d m : deferred m = 0 → deferred (mark d m) = dbit (defers (ignoreDst m) (env_of m) d).
Proof. intros H. unfold mark. destruct (defers _ _ _); [|done]. by rewrite deferred_or, H. Qed.

Lemma mark_items d m :
  matchAllItems rt (items d) (mark d m) = forallb (item_holds rt (env_of m) m) (items d).
Proof.
  rewrite (matchAllItems_holds rt). destruct (mark_frames d m) as (Hi & <- & _).
  apply forallb_ext_in. intros i _. symmetry. by apply item_holds_identity.
Qed.

(** One iteration over a set with a mergeable rule, up to the early return. *)
Lemma evaluateForMerge_eq b m :
  evaluateForMerge rt b m =
  if forallb (item_holds rt (env_of m) m) (items b) then
    (mkGroups (mask (requires (ignoreDst m) (env_of m) b))
              (mask (satisfies rt (ignoreDst m) (env_of m) b m)), true, mark b m)
  else (noGroups, false, mark b m).
Proof. unfold evaluateForMerge. rewrite evaluateGroups_eq. fold (mark b m). by rewrite mark_items. Qed.

Section outer.
Context (e : env) (d : abstractDefaultRule R) (rs : RuleSetItem R) (m0 mf : InboundContext).
Context (Hsees : sees m0 mf).
Let ign := ignoreDst m0.
Let s0 := defers ign e d.
Let reqp := requires ign e d.
Let satp := satisfies rt ign e d m0.
Let full := set_holds rt rule_holds mergeable (requires false e d) (satisfies rt false e d mf) (env_in rs) mf.
Context (Hd0 : deferred m0 = dbit s0).
Context (Hitems : ign = true → items_ok e d = true).
Context (Hunmixed : ign = true → nonempty (destinationAddressItems d) && ip_dest e d = false).

(** The verdict of one rule-set: the answer of its branch, and whether it is
    left open; a definite answer is final unless the outer rule is open too. *)
Definition set_verdict (s : RuleSet R) (b u : bool) : Prop :=
  (b = false → full s = false) ∧ (b = true → u = false → s0 = false → full s = true) ∧
  (u = true → set_may rs s = true ∧ ign = true).

(** The state of the loop at the start of an iteration. *)
Definition loop_state (m : InboundContext) : Prop := same_identity m m0 ∧ ignoreDst m = ign.

Lemma prepare_state m : loop_state m →
  let m1 := prepareNestedMatch rs m in
  loop_state m1 ∧ sees m1 mf ∧ env_of m1 = env_in rs ∧ deferred m1 = 0.
Proof.
  intros [Hi Hg] m1. assert (loop_state m1) as [Hi1 Hg1].
  { split; [by etrans; [apply prepare_identity|]|by rewrite <- Hg; apply prepare_ignore]. }
  split_and!; [done| |apply prepare_env|apply prepare_deferred].
  apply (sees_frames m0); [by symmetry|by symmetry|done].
Qed.

Lemma frames_state m m' : loop_state m → frames m m' → loop_state m'.
Proof. intros [Hi Hg] (Hi' & _ & Hg'). split; [by etrans; [symmetry|]|by rewrite <- Hg']. Qed.

(** With a mergeable rule [b]: what the merged groups decide. *)
Lemma merge_verdict s b m1 :
  mergeable s = Some b → loop_state m1 → sees m1 mf → env_of m1 = env_in rs →
  (ign = true → set_ok e d rs s = true) →
  let sat := λ g, satp g || satisfies rt ign (env_in rs) b m1 g in
  let done := all_groups (λ g, negb (reqp g || requires ign (env_in rs) b g) || sat g) in
  set_verdict s (forallb (item_holds rt (env_in rs) m1) (items b) && done)
    (done && defers ign (env_in rs) b) ∧
  (s0 || defers ign (env_in rs) b = true → sat DstAddr = false).
Proof.
  intros Hb [_ Hg1] Hs1 He1 Hok sat done. unfold set_ok in Hok. rewrite Hb in Hok.
  destruct (branch_agree e d (env_in rs) b m0 m1 mf) as [Hag Hop]; [done..|auto|].
  destruct (agree_all _ _ _ (conj Hag Hop)) as [Hno Hyes]. fold ign in Hno, Hyes.
  assert (Hit : forallb (item_holds rt (env_in rs) m1) (items b) =
                forallb (item_holds rt (env_in rs) mf) (items b)).
  { apply forallb_sees; [done|]. rewrite Hg1. intros Hi. apply Hok in Hi.
    unfold branch_ok, items_ok in Hi. rewrite !andb_true_iff in Hi. naive_solver. }
  unfold set_verdict, full, set_holds. rewrite Hb, Hit. split_and!.
  - intros [->|H]%andb_false_iff; [done|]. apply Hno in H. by rewrite H, andb_false_r.
  - intros [-> H]%andb_true_iff Hu Hs0. rewrite H in Hu. cbn in Hu. cbn. apply Hyes; [done|].
    fold s0. by rewrite Hs0, Hu.
  - intros [_ (Hi & Hip & _)%defers_ip]%andb_true_iff. unfold set_may. by rewrite Hb.
  - intros Hop'. unfold sat, satp.
    assert (ign = true ∧ ip_dest e d || ip_dest (env_in rs) b = true) as [Hi Hip].
    { apply orb_true_iff in Hop' as [(-> & -> & _)%defers_ip|(-> & -> & _)%defers_ip]; [done|].
      by rewrite orb_true_r. }
    apply Hok in Hi as Hbr. unfold branch_ok in Hbr. rewrite Hip, andb_true_r, andb_true_iff in Hbr.
    destruct Hbr as [_ [Hdd Hdb]%negb_true_iff%orb_false_iff]. rewrite Hi.
    destruct (dst_unconstrained e d m0 Hdd) as [_ ->]. by destruct (dst_unconstrained (env_in rs) b m1 Hdb) as [_ ->].
Qed.

Let loop := matchWithOuterGroups_loop rt rule_Match mergeable rs (snapshotRuleMatch m0)
  (mkGroups (mask reqp) (mask satp)).

(** How the loop goes on after the set [s]: it returns on a definite match. *)
Definition step_to (s : RuleSet R) (sets : list (RuleSet R)) (a : bool) (m : InboundContext) : Prop :=
  ∃ b u m2 m', set_verdict s b u ∧ loop_state m2 ∧ frames m0 m' ∧ deferred m' = dbit s0 ∧
    loop (s :: sets) a (dbit a) m =
      if b then if u then loop sets true (dbit true) m2 else (true, m') else loop sets a (dbit a) m2.

Lemma restore_state m : loop_state m →
  frames m0 (restore (snapshotRuleMatch m0) m) ∧ deferred (restore (snapshotRuleMatch m0) m) = dbit s0.
Proof. intros [Hi Hg]. split; [by apply restore_frames|by rewrite restore_deferred]. Qed.

Lemma outer_step_merge s b sets m a :
  mergeable s = Some b → loop_state m → (ign = true → set_ok e d rs s = true) → step_to s sets a m.
Proof.
  intros Hb Hm Hok. destruct (prepare_state m Hm) as (Hm1 & Hs1 & He1 & Hd1).
  destruct (merge_verdict s b _ Hb Hm1 Hs1 He1 Hok) as [Hv Hsat].
  set (m1 := prepareNestedMatch rs m) in *.
  assert (Hm2 : loop_state (mark b m1)) by (eapply frames_state; [done|apply mark_frames]).
  destruct (restore_state _ Hm2) as [Hr1 Hr2].
  pose proof (mark_deferred b m1 Hd1) as Hmd. destruct Hm1 as [_ Hg1]. rewrite He1, Hg1 in Hmd.
  unfold step_to, loop. cbn [matchWithOuterGroups_loop]. fold m1. rewrite Hb, evaluateForMerge_eq, He1, Hg1.
  destruct (forallb _ (items b)); cbn [andb] in Hv.
  2:{ exists false, false, (mark b m1), (restore (snapshotRuleMatch m0) (mark b m1)).
      split_and!; [|done..]. destruct Hv as (Hv & _). unfold set_verdict. by rewrite Hv. }
  unfold mergeWith. cbn [required satisfied]. rewrite !mask_lor, mask_done, Hmd, dbit_ldiff.
  destruct (all_groups _); cbn [andb] in Hv.
  2:{ exists false, false, (mark b m1), (restore (snapshotRuleMatch m0) (mark b m1)). split_and!; done. }
  exists true, (defers ign (env_in rs) b), (mark b m1), (clear_deferred
    (mask (λ g, satp g || satisfies rt ign (env_in rs) b m1 g)) (restore (snapshotRuleMatch m0) (mark b m1))).
  split_and!; [done|done|by rewrite <- frames_clear_deferred| |].
  - rewrite deferred_clear, Hr2, dbit_ldiff. destruct s0; [|done]. by rewrite Hsat.
  - destruct (defers ign (env_in rs) b).
    + rewrite Hsat by apply orb_true_r. cbn [negb andb]. rewrite dbit_zero, dbit_lor, orb_true_r. done.
    + done.
Qed.

Lemma outer_step_set s sets m a :
  mergeable s = None → Forall rule_sound (rs_rules s) → loop_state m →
  (ign = true → set_ok e d rs s = true) → step_to s sets a m.
Proof.
  intros Hb HF Hm Hok. destruct (prepare_state m Hm) as (Hm1 & Hs1 & He1 & Hd1).
  unfold set_ok in Hok. rewrite Hb in Hok. set (m1 := prepareNestedMatch rs m) in *.
  destruct (agree_all _ _ _ (outer_agree e d m0 mf Hsees Hitems Hunmixed)) as [Hno Hyes].
  fold ign s0 in Hno, Hyes.
  destruct (RuleSet_Match_sound s (env_in rs) m1 mf HF Hs1 He1 Hd1) as (b & m2 & u & Hr & Hf & Hdef & H1 & H2 & H3).
  { destruct Hm1 as [_ ->]. intros Hi. by apply Hok, andb_true_iff in Hi as [? _]. }
  assert (Hm2 : loop_state m2) by (by eapply frames_state).
  destruct (restore_state _ Hm2) as [Hr1 Hr2].
  unfold step_to, loop. cbn [matchWithOuterGroups_loop]. fold m1.
  unfold set_verdict, full, set_holds, set_may. rewrite Hb, mask_done.
  change (λ g, negb (reqp g) || satp g) with
    (λ g, negb (requires ign e d g) || satisfies rt ign e d m0 g) in *.
  destruct (all_groups _) eqn:Hg.
  2:{ exists false, false, m1, (restore (snapshotRuleMatch m0) m2).
      split_and!; [by rewrite Hno|done..]. }
  exists b, u, m2, (restore (snapshotRuleMatch m0) m2). rewrite Hr.
  split_and!; try done.
  - intros Hb'. by rewrite H1, andb_false_r.
  - intros Hb' Hu Hs0. by rewrite Hyes, H2.
  - intros Hu. destruct (H3 Hu) as [? Hi]. destruct Hm1 as [_ Hg1]. by rewrite <- Hg1.
  - destruct b; [|done]. rewrite Hdef, dbit_zero by done. destruct u; [|done]. cbn [negb].
    by rewrite dbit_lor, orb_true_r.
Qed.

Lemma outer_loop_sound sets m a :
  Forall (λ s, Forall rule_sound (rs_rules s)) sets → loop_state m →
  (ign = true → forallb (set_ok e d rs) sets = true) →
  ∃ b m' u, loop sets a (dbit a) m = (b, m') ∧ frames m0 m' ∧ (b = true → deferred m' = dbit (s0 || u)) ∧
    (b = false → a = false ∧ existsb full sets = false) ∧
    (b = true → u = false → s0 = false → existsb full sets = true) ∧
    (u = true → a = true ∨ existsb (set_may rs) sets = true ∧ ign = true).
Proof.
  intros HF. revert m a. induction HF as [|s sets Hs HF IH]; intros m a Hm Hok.
  { exists a, (finish (snapshotRuleMatch m0) a (dbit a) m), a. destruct Hm as [Hi Hg].
    split_and!; [done|by apply finish_frames|intros _; by apply finish_deferred|naive_solver..]. }
  assert (step_to s sets a m) as (b & u & m2 & m' & (V1 & V2 & V3) & Hm2 & Hf & Hd & ->).
  { assert (ign = true → set_ok e d rs s = true)
      by (intros Hi; by apply Hok, andb_true_iff in Hi as [? _]).
    destruct (mergeable s) as [b|] eqn:Hb; [by eapply outer_step_merge|by apply outer_step_set]. }
  assert (Hok' : ign = true → forallb (set_ok e d rs) sets = true)
    by (intros Hi; by apply Hok, andb_true_iff in Hi as [_ ?]).
  cbn [existsb]. destruct b; [destruct u|].
  - destruct (IH m2 true Hm2 Hok') as (b' & m'' & u' & -> & ? & ? & H1 & H2 & H3).
    exists b', m'', u'. split_and!; [done..| | |].
    + intros Hb. by destruct (H1 Hb).
    + intros ???. by rewrite H2, orb_true_r.
    + intros _. destruct V3 as [-> ?]; [done|]. by right.
  - exists true, m', false. rewrite orb_false_r. split_and!; [done..| |done].
    intros _ _ Hs0. by rewrite V2.
  - destruct (IH m2 a Hm2 Hok') as (b' & m'' & u' & -> & ? & ? & H1 & H2 & H3).
    exists b', m'', u'. split_and!; [done..| | |].
    + intros Hb. destruct (H1 Hb) as [-> ->]. by rewrite V1.
    + intros ???. by rewrite H2, orb_true_r.
    + intros Hu. destruct (H3 Hu) as [?|[-> ?]]; [by left|right]. by rewrite orb_true_r.
Qed.
End outer.

(** *** Default and logical rules *)

Lemma defers_satisfied ign e (d : abstractDefaultRule R) m :
  defers ign e d = true → satisfies rt ign e d m DstAddr = false.
Proof. intros (-> & _ & H)%defers_ip. by destruct (dst_unconstrained e d m H). Qed.

Lemma defers_may ign e (d : abstractDefaultRule R) :
  defers ign e d = true → default_may e d = true ∧ ign = true.
Proof. intros (-> & H & _)%defers_ip. unfold default_may. by rewrite H. Qed.

Lemma satisfies_identity ign e (d : abstractDefaultRule R) m m' g :
  same_identity m m' → satisfies rt ign e d m g = satisfies rt ign e d m' g.
Proof.
  intros H. assert (∀ l, existsb (item_holds rt e m) l = existsb (item_holds rt e m') l) as Hl
    by (intros l; apply existsb_ext_in; intros i _; by apply item_holds_identity).
  destruct g; cbn; by rewrite !Hl.
Qed.

Lemma mask_ext p q : (∀ g, p g = q g) → mask p = mask q.
Proof. intros H. unfold mask. by rewrite !H. Qed.

Lemma set_may_unconstrained e d rs m ign :
  (ign = true → default_ok e d = true) → ruleSetItem d = Some rs →
  existsb (set_may rs) (setList rs) = true → ign = true → satisfies rt ign e d m DstAddr = false.
Proof.
  intros Hok Hrs (s & Hin & Hs)%existsb_exists Hi. rewrite Hi. apply Hok in Hi.
  unfold default_ok in Hi. rewrite Hrs, !andb_true_iff, forallb_forall in Hi. destruct Hi as [_ Hi].
  by destruct (dst_unconstrained e d m (set_ok_may e d rs s (Hi s Hin) Hs)).
Qed.

Definition sets_sound (d : abstractDefaultRule R) : Prop :=
  match ruleSetItem d with
  | None => True
  | Some rs => Forall (λ s, Forall rule_sound (rs_rules s)) (setList rs)
  end.

(** The parts of [default_ok]. *)
Lemma default_ok_parts e d :
  default_ok e d = true →
  items_ok e d = true ∧ nonempty (destinationAddressItems d) && ip_dest e d = false ∧
  forallb (response_free (e_source e)) (items d) = true ∧
  (∀ rs, ruleSetItem d = Some rs → forallb (set_ok e d rs) (setList rs) = true).
Proof.
  unfold default_ok. rewrite !andb_true_iff, negb_true_iff. intros [[Hi Hu] Hr]. split_and!; [done..| |].
  - unfold items_ok in Hi. rewrite !andb_true_iff in Hi. naive_solver.
  - intros rs Hrs. by rewrite Hrs in Hr.
Qed.

(** The tail of [matchInner]: clearing the groups the rule satisfied itself. *)
Lemma clear_sound e (d : abstractDefaultRule R) m m' u b :
  (b = true → deferred m' = dbit u) →
  (u = true → satisfies rt (ignoreDst m) e d m DstAddr = false) → frames m m' →
  let m'' := if b then clear_deferred (mask (satisfies rt (ignoreDst m) e d m)) m' else m' in
  frames m m'' ∧ (b = true → deferred m'' = dbit u).
Proof.
  intros Hd Hu Hf. destruct b; [|done]. cbn. split; [by rewrite <- frames_clear_deferred|].
  intros _. rewrite deferred_clear, Hd, dbit_ldiff by done. destruct u; [by rewrite Hu|done].
Qed.

Lemma matchWithOuter_sound e d rs m mf :
  ruleSetItem d = Some rs → sets_sound d → sees m mf → env_of m = e → deferred m = 0 →
  (ignoreDst m = true → default_ok e d = true) →
  let groups := mkGroups (mask (requires (ignoreDst m) e d)) (mask (satisfies rt (ignoreDst m) e d m)) in
  let full := set_holds rt rule_holds mergeable (requires false e d) (satisfies rt false e d mf) (env_in rs) mf in
  ∃ b m' u, matchWithOuterGroups rt rule_Match mergeable rs groups (mark d m) = (b, m') ∧
    frames m m' ∧ (b = true → deferred m' = dbit u) ∧
    (u = true → satisfies rt (ignoreDst m) e d m DstAddr = false) ∧
    (b = false → existsb full (setList rs) = false) ∧ (b = true → u = false → existsb full (setList rs) = true) ∧
    (u = true → default_may e d = true ∧ ignoreDst m = true).
Proof.
  intros Hrs HF Hs He Hd Hok groups full. unfold sets_sound in HF. rewrite Hrs in HF.
  destruct (mark_frames d m) as (Hmi & Hme & Hmg). pose proof (mark_deferred d m Hd) as Hmd.
  rewrite He in Hmd. set (ign := ignoreDst m) in *.
  assert (Hok' : ign = true → _) by (intros Hi; exact (default_ok_parts e d (Hok Hi))).
  destruct (outer_loop_sound e d rs (mark d m) mf) with (sets := setList rs) (m := mark d m) (a := false)
    as (b & m' & u & Hl & Hf & Hdef & H1 & H2 & H3); rewrite <- ?Hmg; try done.
  { by apply (sees_frames m). }
  1-3: intros Hi; destruct (Hok' Hi) as (? & ? & ? & Hsets); auto.
  rewrite <- Hmg in *. change (dbit false) with 0 in Hl.
  rewrite (mask_ext _ _ (λ g, satisfies_identity ign e d _ _ g (symmetry Hmi))) in Hl.
  exists b, m', (defers ign e d || u). unfold matchWithOuterGroups. split_and!; [done| |done| |naive_solver| |].
  - etrans; [apply mark_frames|done].
  - intros [?|[?|[??]]%H3]%orb_true_iff; [by apply defers_satisfied|done|by eapply set_may_unconstrained].
  - intros Hb [??]%orb_false_iff. by apply H2.
  - intros [?|[?|[H4 ?]]%H3]%orb_true_iff; [by apply defers_may|done|].
    unfold default_may. by rewrite Hrs, H4, orb_true_r.
Qed.

Lemma matchInner_sound e d m mf :
  sets_sound d → sees m mf → env_of m = e → deferred m = 0 →
  (ignoreDst m = true → default_ok e d = true) →
  sound (matchInner rt rule_Match mergeable d) (inner_holds rt rule_holds mergeable e d mf) (default_may e d) m.
Proof.
  intros HF Hs He Hd Hok.
  assert (Hok' : ignoreDst m = true → _) by (intros Hi; exact (default_ok_parts e d (Hok Hi))).
  unfold sound, matchInner, inner_holds. rewrite evaluateGroups_eq. fold (mark d m). rewrite mark_items, He.
  rewrite <- (forallb_sees e m mf) by (auto; intros Hi; naive_solver).
  destruct (forallb (item_holds rt e m) (items d)).
  2:{ exists false, (mark d m), false. split_and!; [done|apply mark_frames|done..]. }
  cbn [satisfied andb]. destruct (ruleSetItem d) as [rs|] eqn:Hrs.
  - destruct (matchWithOuter_sound e d rs m mf Hrs HF Hs He Hd Hok)
      as (b & m' & u & -> & Hf & Hdef & Hsat & Hno & Hyes & Hmay).
    destruct (clear_sound e d m m' u b Hdef Hsat Hf) as [Hc1 Hc2].
    eexists b, _, (b && u). split_and!; [done|done| |done| |].
    + intros Hb. by rewrite Hc2, Hb.
    + intros ->. by apply Hyes.
    + by intros [_ ?]%andb_true_iff; apply Hmay.
  - rewrite mask_done. destruct (agree_all _ _ _ (outer_agree e d m mf Hs
      (λ Hi, proj1 (Hok' Hi)) (λ Hi, proj1 (proj2 (Hok' Hi))))) as [Hno Hyes].
    set (b := all_groups _) in *. pose proof (mark_deferred d m Hd) as Hmd. rewrite He in Hmd.
    destruct (clear_sound e d m (mark d m) (defers (ignoreDst m) e d) b (λ _, Hmd)
      (defers_satisfied _ e d m) (mark_frames d m)) as [Hc1 Hc2].
    eexists b, _, (b && defers (ignoreDst m) e d). split_and!; [done|done| |done| |].
    + intros Hb. by rewrite Hc2, Hb.
    + intros ->. by apply Hyes.
    + by intros [_ ?]%andb_true_iff; apply defers_may.
Qed.

Lemma default_Match_sound e d m mf :
  sets_sound d → sees m mf → env_of m = e → deferred m = 0 →
  (ignoreDst m = true → default_ok e d = true) →
  sound (abstractDefaultRule_Match rt rule_Match mergeable d)
    (default_holds rt rule_holds mergeable e d mf) (default_may e d) m.
Proof.
  intros HF Hs He Hd Hok. unfold sound, abstractDefaultRule_Match, default_holds.
  destruct (nonempty (allItems d)); cbn [negb orb].
  2:{ by exists true, m, false. }
  destruct (matchInner_sound e d m mf HF Hs He Hd Hok) as (b & m' & u & -> & Hf & Hdef & H1 & H2 & H3).
  destruct (invert d); cbn [xorb].
  - destruct b; cbn [negb].
    + rewrite Hdef, dbit_zero by done. destruct u; cbn [negb].
      * by exists true, m', true.
      * exists false, m', false. rewrite H2 by done. done.
    + exists true, (set_deferred 0 m'), false. rewrite H1 by done.
      split_and!; [done|by rewrite <- frames_set_deferred|by rewrite deferred_set|done..].
  - by exists b, m', u.
Qed.

(** The state of a logical loop: sub-rules always start from a reset cache. *)
Definition logical_state (m0 m : InboundContext) : Prop := same_identity m m0 ∧ ignoreDst m = ignoreDst m0.

Lemma logical_step r m0 m mf :
  rule_sound r → sees m0 mf → logical_state m0 m → (ignoreDst m0 = true → rule_ok env0 r = true) →
  ∃ b m' u, rule_Match r (ResetRuleCache m) = (b, m') ∧ logical_state m0 m' ∧ (b = true → deferred m' = dbit u) ∧
    (b = false → rule_holds env0 r mf = false) ∧ (b = true → u = false → rule_holds env0 r mf = true) ∧
    (u = true → may env0 r = true ∧ ignoreDst m0 = true).
Proof.
  intros Hr Hs [Hi Hg] Hok.
  assert (Hi' : same_identity (ResetRuleCache m) m0) by (etrans; [apply same_identity_ResetRuleCache|done]).
  assert (Hg' : ignoreDst (ResetRuleCache m) = ignoreDst m0) by (by rewrite ignoreDst_ResetRuleCache).
  destruct (Hr env0 (ResetRuleCache m) mf) as (b & m' & u & Hb & (Hf1 & _ & Hf3) & Hdef & H1 & H2 & H3).
  - by apply (sees_frames m0).
  - apply env_ResetRuleCache.
  - apply deferred_ResetRuleCache.
  - by rewrite Hg'.
  - rewrite Hg' in *. exists b, m', u. split_and!; [done| |done..].
    split; [by etrans; [symmetry|]|done].
Qed.

Lemma logicalAnd_sound rules m0 m mf a :
  Forall rule_sound rules → sees m0 mf → logical_state m0 m →
  (ignoreDst m0 = true → forallb (rule_ok env0) rules = true) →
  ∃ b m' u, logicalAnd_loop rule_Match rules (dbit a) m = (b, dbit u, m') ∧ logical_state m0 m' ∧
    (b = false → u = false ∧ forallb (λ r, rule_holds env0 r mf) rules = false) ∧
    (b = true → u = false → a = false ∧ forallb (λ r, rule_holds env0 r mf) rules = true) ∧
    (u = true → a = true ∨ existsb (may env0) rules = true ∧ ignoreDst m0 = true).
Proof.
  intros HF Hs. revert m a. induction HF as [|r rules Hr HF IH]; intros m a Hm Hok.
  { exists true, m, a. naive_solver. }
  cbn [logicalAnd_loop forallb existsb] in *. setoid_rewrite andb_true_iff in Hok.
  destruct (logical_step r m0 m mf Hr Hs Hm) as (b & m2 & u & -> & Hm2 & Hdef & H1 & H2 & H3); [naive_solver|].
  destruct b; cbn [negb].
  - rewrite Hdef, dbit_lor by done.
    destruct (IH m2 (a || u) Hm2) as (b' & m' & u' & -> & Hm' & V1 & V2 & V3); [naive_solver|].
    exists b', m', u'. split_and!; [done|done| | |].
    + intros Hb. destruct (V1 Hb) as [-> ->]. by rewrite andb_false_r.
    + intros Hb Hu. destruct (V2 Hb Hu) as [[-> ->]%orb_false_iff ->]. by rewrite H2.
    + intros Hu. destruct (V3 Hu) as [[?|Hu']%orb_true_iff|[-> ?]]; [by left| |right; by rewrite orb_true_r].
      destruct (H3 Hu') as [-> ?]. by right.
  - exists false, m2, false. rewrite H1 by done. done.
Qed.

Lemma logicalOr_sound rules m0 m mf a :
  Forall rule_sound rules → sees m0 mf → logical_state m0 m →
  (ignoreDst m0 = true → forallb (rule_ok env0) rules = true) →
  ∃ b m' u, logicalOr_loop rule_Match rules a (dbit a) m = (b, dbit u, m') ∧ logical_state m0 m' ∧
    (b = false → u = false ∧ a = false ∧ existsb (λ r, rule_holds env0 r mf) rules = false) ∧
    (b = true → u = false → existsb (λ r, rule_holds env0 r mf) rules = true) ∧
    (u = true → a = true ∨ existsb (may env0) rules = true ∧ ignoreDst m0 = true).
Proof.
  intros HF Hs. revert m a. induction HF as [|r rules Hr HF IH]; intros m a Hm Hok.
  { exists a, m, a. naive_solver. }
  cbn [logicalOr_loop forallb existsb] in *. setoid_rewrite andb_true_iff in Hok.
  destruct (logical_step r m0 m mf Hr Hs Hm) as (b & m2 & u & -> & Hm2 & Hdef & H1 & H2 & H3); [naive_solver|].
  destruct b; [rewrite Hdef, dbit_zero by done; destruct u; cbn [negb]|].
  - change (dbit true) with ruleMatchDestinationAddress.
    rewrite (dbit_lor a true : Z.lor (dbit a) ruleMatchDestinationAddress = _), orb_true_r.
    destruct (IH m2 true Hm2) as (b' & m' & u' & -> & Hm' & V1 & V2 & V3); [naive_solver|].
    exists b', m', u'. split_and!; [done|done| | |].
    + intros Hb. by destruct (V1 Hb) as (_ & ? & _).
    + intros Hb Hu. by rewrite V2, orb_true_r.
    + intros _. destruct H3 as [-> ?]; [done|]. by right.
  - exists true, m2, false. rewrite H2 by done. done.
  - destruct (IH m2 a Hm2) as (b' & m' & u' & -> & Hm' & V1 & V2 & V3); [naive_solver|].
    exists b', m', u'. split_and!; [done|done| | |].
    + intros Hb. destruct (V1 Hb) as (-> & -> & ->). by rewrite H1.
    + intros Hb Hu. by rewrite V2, orb_true_r.
    + intros Hu. destruct (V3 Hu) as [?|[-> ?]]; [by left|right; by rewrite orb_true_r].
Qed.

Definition logical_ok (l : abstractLogicalRule R) : bool := forallb (rule_ok env0) (l_rules l).
Definition logical_may (l : abstractLogicalRule R) : bool := existsb (may env0) (l_rules l).

Lemma logical_Match_sound l m mf :
  Forall rule_sound (l_rules l) → sees m mf → deferred m = 0 →
  (ignoreDst m = true → logical_ok l = true) →
  sound (abstractLogicalRule_Match rule_Match l) (logical_holds rule_holds l mf) (logical_may l) m.
Proof.
  intros HF Hs Hd Hok. unfold sound, abstractLogicalRule_Match, logical_holds.
  set (v := if String.eqb _ _ then _ else _ : bool).
  assert (∃ b m' u, (if String.eqb (l_mode l) "and" then logicalAnd_loop rule_Match (l_rules l) 0 m
      else logicalOr_loop rule_Match (l_rules l) false 0 m) = (b, dbit u, m') ∧ logical_state m m' ∧
      (b = false → u = false ∧ v = false) ∧ (b = true → u = false → v = true) ∧
      (u = true → logical_may l = true ∧ ignoreDst m = true)) as (b & m' & u & -> & [Hi Hg] & H1 & H2 & H3).
  { assert (Hm : logical_state m m) by done. unfold v. destruct (String.eqb _ _).
    - destruct (logicalAnd_sound (l_rules l) m m mf false HF Hs Hm Hok) as (b & m' & u & ? & ? & ? & ? & ?).
      exists b, m', u. naive_solver.
    - destruct (logicalOr_sound (l_rules l) m m mf false HF Hs Hm Hok) as (b & m' & u & ? & ? & ? & ? & ?).
      exists b, m', u. naive_solver. }
  assert (Hf : frames m (finish (snapshotRuleMatch m) b (dbit u) m')) by (by apply finish_frames).
  assert (Hdef : b = true → deferred (finish (snapshotRuleMatch m) b (dbit u) m') = dbit u).
  { intros ->. unfold finish. by rewrite deferred_or, restore_deferred, Hd. }
  assert (Hdef' : b = false → deferred (finish (snapshotRuleMatch m) b (dbit u) m') = 0).
  { intros ->. unfold finish. by rewrite restore_deferred, Hd. }
  destruct (l_invert l); [|by exists b, (finish (snapshotRuleMatch m) b (dbit u) m'), u; naive_solver].
  destruct b; cbn [negb].
  - rewrite dbit_zero. destruct u.
    + eexists true, _, true. split_and!; [done|done|auto|done..].
    + eexists false, _, false. rewrite H2 by done. split_and!; [done|done|done..].
  - destruct H1 as [-> ->]; [done|]. eexists true, _, false. split_and!; [done|done|auto|done..].
Qed.
End loops.
End refine.

(** ** Every rule *)

Section all.
Context {EX : External} (rt : Runtime) {RL : RuntimeLaws rt}.

(** Whether a pre-match of the rule may leave the destination group open. *)
Fixpoint may_defer (e : env) (r : Rule) : bool :=
  match r with
  | DefaultHeadlessRule d | DefaultRule d | DefaultDNSRule d _ _ _ =>
      default_may mergeableRule may_defer e d
  | LogicalHeadlessRule l | LogicalRule l | LogicalDNSRule l _ _ _ => logical_may may_defer l
  end.

(** Rules whose pre-match is sound: no item but the destination addresses reads
    the response, and no (merged) rule has both a domain and a destination
    address condition. *)
Fixpoint prematchable (e : env) (r : Rule) : bool :=
  match r with
  | DefaultHeadlessRule d | DefaultRule d => default_ok mergeableRule prematchable may_defer e d
  | DefaultDNSRule d matchResponse _ _ =>
      negb matchResponse && default_ok mergeableRule prematchable may_defer e d
  | LogicalHeadlessRule l | LogicalRule l | LogicalDNSRule l _ _ _ => logical_ok prematchable l
  end.

Lemma selected_response_identity tag m m' :
  same_identity m m' → selected_response tag m = selected_response tag m'.
Proof.
  intros H. specialize (H (cache m)). unfold selected_response. destruct m, m'. cbn in *.
  by injection H as -> -> -> -> -> -> -> -> -> -> -> -> -> -> -> -> -> -> -> ->.
Qed.

Lemma deferred_with_response v m : deferred (with_response v m) = deferred m.
Proof. by destruct m. Qed.
Lemma env_with_response v m : env_of (with_response v m) = env_of m.
Proof. by destruct m. Qed.
Lemma ignoreDst_with_response v m : ignoreDst (with_response v m) = ignoreDst m.
Proof. by destruct m. Qed.

Lemma matchForMatch_sound d tag e m mf :
  sets_sound (Match rt) (holds rt) prematchable may_defer d →
  sees m mf → env_of m = e → deferred m = 0 → ignoreDst m = false →
  sound (matchForMatch rt (Match rt) mergeableRule d true tag)
    (match selected_response tag mf with
     | None => invert d
     | Some response => default_holds rt (holds rt) mergeableRule e d (with_response (Some response) mf)
     end) (default_may mergeableRule may_defer e d) m.
Proof.
  intros HF Hs He Hd Hg. unfold sees in Hs. rewrite Hg in Hs.
  unfold sound, matchForMatch. fold (selected_response tag m).
  rewrite (selected_response_identity tag mf m) by done.
  destruct (selected_response tag m) as [v|].
  - destruct (default_Match_sound rt (Match rt) mergeableRule (holds rt) prematchable may_defer e d
      (with_response (Some v) m) (with_response (Some v) mf) HF) as (b & m' & u & -> & _ & _ & H1 & H2 & H3).
    + unfold sees. rewrite ignoreDst_with_response, Hg. by apply with_response_identity.
    + by rewrite env_with_response.
    + by rewrite deferred_with_response.
    + by rewrite ignoreDst_with_response, Hg.
    + rewrite ignoreDst_with_response, Hg in H3. destruct u; [naive_solver|]. by exists b, m, false.
  - exists (invert d), m, false. by destruct (invert d).
Qed.

(** The matcher is sound on every rule. *)
Lemma sound_all r : rule_sound (Match rt) (holds rt) prematchable may_defer r.
Proof.
  induction r as [d Hn|l Hn|d Hn|l Hn|d mr tag race Hn|l tags an race Hn] using Rule_nested_ind;
    intros e m mf Hs He Hd Hok; cbn in Hok; cbn [Match holds may_defer].
  - by apply (default_Match_sound rt _ _ _ prematchable).
  - by apply (logical_Match_sound _ _ prematchable).
  - by apply (default_Match_sound rt _ _ _ prematchable).
  - by apply (logical_Match_sound _ _ prematchable).
  - destruct mr.
    + apply matchForMatch_sound; [done..|]. destruct (ignoreDst m); [naive_solver|done].
    + by apply (default_Match_sound rt _ _ _ prematchable).
  - by apply (logical_Match_sound _ _ prematchable).
Qed.
End all.
