(* ===== verification/Concrete.v ===== *)
(** A concrete choice of the code outside the repository.

    The theorems are about every [External] and [Runtime]; the instances here
    give the witnesses inputs to evaluate on.  The matchers are the plain list
    searches behind the libraries' indexes, and the parsers know a few
    addresses. *)

From S2P Require Import Prelude GoBytes GoStrings Netip Metadata RuleItems RuleAction RuleMatch RuleSemantics.

Definition net10 : Prefix := mkPrefix (Addr4 0x0A000000) 8.
Definition addr_10_0_0_1 : Addr := Addr4 0x0A000001.
Definition addr_1_1_1_1 : Addr := Addr4 0x01010101.

(** The last address of a prefix. *)
Definition prefix_last (p : Prefix) : Addr :=
  match p_addr p with
  | Addr4 ip => Addr4 (Z.lor ip (Z.ones (32 - p_bits p)))
  | Addr6 ip z => Addr6 (Z.lor ip (Z.ones (128 - p_bits p))) z
  | AddrZero => AddrZero
  end.

Definition addr_le (a b : Addr) : bool :=
  match a, b with
  | Addr4 x, Addr4 y | Addr6 x _, Addr6 y _ => x <=? y
  | _, _ => false
  end.

Definition in_set (s : IPSet) (a : Addr) : bool :=
  existsb (λ r, addr_le (r_from r) a && addr_le a (r_to r)) s.

Definition has_suffix (host suffix : string) : bool :=
  bool_decide (drop (length (str_bytes host) - length (str_bytes suffix)) (str_bytes host) = str_bytes suffix).

#[export] Instance demo : External := {
  Regexp := string;
  regexp_Compile := λ s, if String.eqb s "(" then Err (ErrExternal "missing closing )") else Ok s;
  Regexp_MatchString := λ r s, Contains s r;
  Matcher := list string * list string;
  NewMatcher := λ d s _, (d, s);
  Matcher_Match := λ '(d, s) host, containsb host d || existsb (has_suffix host) s;
  AdGuardMatcher := list string;
  NewAdGuardMatcher := λ l, l;
  AdGuardMatcher_Match := λ l host, containsb host l;
  ParsePrefix := λ s, if String.eqb s "10.0.0.0/8" then Ok net10 else Err (ErrExternal "ParsePrefix");
  ParseAddr := λ s, if String.eqb s "1.1.1.1" then Ok addr_1_1_1_1 else Err (ErrExternal "ParseAddr");
  IPSetBuilder_IPSet := λ l, Ok ((λ x, match x with
    | inl p => mkIPRange (p_addr p) (prefix_last p)
    | inr a => mkIPRange a a end) <$> l);
  IPSet_Contains := in_set;
  AddrFromIP := AddrFromSlice;
  IsPublicAddr := λ a, negb (Prefix_Contains net10 a);
  Socksaddr_IsIP := λ s, Addr_IsValid (sa_Addr s);
  Socksaddr_IsIPv6 := λ s, Addr_BitLen (sa_Addr s) =? 128;
  ParseMAC := λ s, Err (ErrExternal "ParseMAC");
  HardwareAddr_String := bytes_str;
  dns_IsDuplicate := λ a b, bool_decide (a = b);
  dns_CanonicalName := λ s, s;
  filepath_Base := λ s, s;
  strings_ToLower := λ s, s;
  strings_EqualFold := String.eqb;
  Prefix_String := λ _, EmptyString;
  dns_TypeToString := λ t, if t =? 1 then Some "A"%string else None;
  dns_RcodeToString := λ c, if c =? 0 then "NOERROR"%string else "NXDOMAIN"%string;
  RR_String := λ _, EmptyString;
  ParseSocksaddrHostPort := λ s p, mkSocksaddr AddrZero p s;
  Socksaddr_IsValid := λ s, Addr_IsValid (sa_Addr s) || negb (String.eqb (sa_Fqdn s) "");
  Socksaddr_AddrString := sa_Fqdn;
  Duration_String := λ d, if d =? 300000000 then "300ms"%string else "0s"%string;
  common_Uniq := λ l, remove_dups l
}.

Definition demo_rt : Runtime := {|
  rt_DefaultNetworkInterface := None;
  rt_WIFI_SSID := "";
  rt_WIFI_BSSID := "";
  rt_Interfaces := [];
  rt_NetworkInterfaces := [];
  rt_MyInterfaces := [];
  rt_DefaultInterface := None;
  rt_ClashMode := Some "rule"%string;
  rt_PreferredDomain := λ _ _ _, false;
  rt_PreferredAddress := λ _ _ _, false;
  rt_DNSPreferredDomain := λ _ _, false;
  rt_IsAndroid := false
|}.

#[export] Instance demo_laws : RuntimeLaws demo_rt.
Proof. by split. Qed.

(** A connection from 10.0.0.1 to [host]:443, which is at 1.1.1.1. *)
Definition demo_context (host : string) : InboundContext := {|
  Inbound := "mixed-in"; IPVersion := 4; Network := "tcp";
  Source := mkSocksaddr addr_10_0_0_1 50000 "";
  Destination := mkSocksaddr AddrZero 443 host;
  User := ""; Outbound := ""; Protocol := ""; Domain := ""; Client := "";
  DestinationAddresses := [addr_1_1_1_1];
  DNSResponse := None; NamedDNSResponses := ∅; DestinationAddressMatchFromResponse := false;
  ProcessInfo := None; SourceMACAddress := None; SourceHostname := "";
  QueryType := 1; QueryClientSubnet := PrefixZero; QueryDNSSEC := false;
  cache := mkCache false false false false false false 0 false
|}.

Definition plain_rule {R} (dst ips : list RuleItem) (rs : option (RuleSetItem R)) (inv : bool)
    : abstractDefaultRule R :=
  mkDefaultRule [] [] [] dst ips []
    ((ItemRef <$> dst ++ ips) ++ match rs with Some _ => [RuleSetRef] | None => [] end) rs inv None.

Definition domain_item : RuleItem := DomainItem (["example.org"]%string, []) "domain=example.org".
Definition net10_item : RuleItem := IPCIDRItem [mkIPRange (Addr4 0x0A000000) (Addr4 0x0AFFFFFF)] false "ip_cidr=10.0.0.0/8".
Definition net1_item : RuleItem := IPCIDRItem [mkIPRange (Addr4 0x01000000) (Addr4 0x01FFFFFF)] false "ip_cidr=1.0.0.0/8".
