(* ===== verification/RuleTheorems.v ===== *)
(** Main theorems on rule matching: what [Match] computes, that it leaves the
    metadata as it found it, that DNS pre-matching is sound, and that merging a
    rule-set into a rule is matching the two rules' conditions together. *)

From S2P Require Import Prelude GoBytes GoStrings Netip Metadata RuleItems RuleAction RuleMatch.
From S2P Require Import RuleSemantics RuleRefine Concrete.

(** ** Ordinary matching *)

Section matching.
Context {EX : External} (rt : Runtime) {RL : RuntimeLaws rt}.

Lemma sees_self m : ignoreDst m = false → sees m m.
Proof. intros H. unfold sees. by rewrite H. Qed.

Lemma Match_holds r m :
  ignoreDst m = false → deferred m = 0 →
  ∃ m', Match rt r m = (holds rt (env_of m) r m, m') ∧ frames m m' ∧
    (holds rt (env_of m) r m = true → deferred m' = 0).
Proof.
  intros Hg Hd.
  destruct (sound_all rt r (env_of m) m m) as (b & m' & u & Hm & Hf & Hdef & H1 & H2 & H3);
    [by apply sees_self|done|done|by rewrite Hg|].
  assert (u = false) as -> by (destruct u; [|done]; destruct H3 as [_ H3]; [done|]; by rewrite Hg in H3).
  exists m'. destruct b; [rewrite H2 by done|rewrite H1 by done]; auto.
Qed.
End matching.

(** C1: matching a rule gives exactly its declarative meaning [holds] - the
    groups of a default rule are disjunctions joined by conjunction, a rule-set
    is a disjunction, [invert] negates - and leaves the metadata as it was, but
    for the flags no rule reads; no group stays deferred. *)
Theorem Match_refines {EX : External} (rt : Runtime) (RL : RuntimeLaws rt) (r : Rule) (m : InboundContext)
    (Hmode : ignoreDst m = false) (Hreset : deferred m = 0) :
  ∃ m', Match rt r m = (holds rt (env_of m) r m, m') ∧ frames m m' ∧
    (holds rt (env_of m) r m = true → deferred m' = 0).
Proof. by apply Match_holds. Qed.

(** A rule-set with two rules under an outer domain condition. *)
Definition demo_set : RuleSet Rule :=
  mkRuleSet [DefaultHeadlessRule (plain_rule [] [net10_item] None false);
             DefaultHeadlessRule (plain_rule [] [net1_item] None false)]
    (mkRuleSetMetadata false false true false false).

Definition demo_rule : Rule :=
  DefaultRule (plain_rule [domain_item] [] (Some (mkRuleSetItem ["set"%string] [demo_set] false false)) false).

Lemma Match_refines_witness :
  ignoreDst (demo_context "example.org") = false ∧
  fst (Match demo_rt demo_rule (demo_context "example.org")) = true.
Proof.
  split; [reflexivity|].
  destruct (Match_refines demo_rt demo_laws demo_rule (demo_context "example.org") eq_refl eq_refl)
    as (m' & H & _).
  rewrite H. vm_compute. reflexivity.
Defined.

(** ** Pre-matching of DNS rules *)

Section prematching.
Context {EX : External} (rt : Runtime) {RL : RuntimeLaws rt}.

Definition isDNSRule (r : Rule) : bool :=
  match r with DefaultDNSRule _ _ _ _ | LogicalDNSRule _ _ _ _ => true | _ => false end.

(** The matcher [LegacyPreMatch] runs is [Match] in pre-match mode. *)
Lemma LegacyPreMatch_Match r :
  isDNSRule r = true → prematchable env0 r = true → LegacyPreMatch rt r = Some (preMatch (Match rt r)).
Proof. destruct r as [| | | |d [] tag race|]; done. Qed.

Lemma MatchAddressLimit_Match r m v :
  isDNSRule r = true → prematchable env0 r = true →
  ∃ limit, MatchAddressLimit rt r = Some limit ∧ limit m v = fst (Match rt r (limitMetadata v m)).
Proof. destruct r as [| | | |d [] tag race|]; try done; intros _ _; by eexists. Qed.

Lemma set_ignore_same b m : same_identity (on_cache (set_IgnoreDestinationIPCIDRMatch b) m) m.
Proof. apply same_identity_on_cache. Qed.

Lemma set_ignore_fields b m :
  ignoreDst (on_cache (set_IgnoreDestinationIPCIDRMatch b) m) = b ∧
  env_of (on_cache (set_IgnoreDestinationIPCIDRMatch b) m) = env_of m ∧
  deferred (on_cache (set_IgnoreDestinationIPCIDRMatch b) m) = deferred m.
Proof.
  unfold ignoreDst, env_of, matchSource, acceptEmpty, deferred, on_cache. rewrite cache_set_cache.
  by destruct (cache m).
Qed.

(** The full match of [limitMetadata v m] means [holds] on the response. *)
Lemma limit_holds r v m :
  ignoreDst m = false → fst (Match rt r (limitMetadata v m)) = holds rt env0 r (limitMetadata v m).
Proof.
  intros Hg. destruct (Match_holds rt r (limitMetadata v m)) as (m' & -> & _).
  - unfold limitMetadata. by rewrite ignoreDst_with_response, ignoreDst_ResetRuleCache.
  - unfold limitMetadata. by rewrite deferred_with_response, deferred_ResetRuleCache.
  - unfold limitMetadata. by rewrite env_with_response, env_ResetRuleCache.
Qed.

(** The meaning of a rule does not read the cache. *)
Lemma holds_identity r e m m' : same_identity m m' → holds rt e r m = holds rt e r m'.
Proof.
  intros Hi.
  set (c := set_cache (mkCache (e_source e) (e_empty e) false false false false 0 false)).
  assert (Hs : ∀ m2, same_identity m2 m → fst (Match rt r (c m)) = holds rt e r m2).
  { intros m2 H2. assert (Hc : cache (c m) = mkCache (e_source e) (e_empty e) false false false false 0 false)
      by apply cache_set_cache.
    destruct (sound_all rt r e (c m) m2) as (b & m3 & u & -> & _ & Hdef & V1 & V2 & V3).
    - unfold sees, ignoreDst. rewrite Hc. cbn [IgnoreDestinationIPCIDRMatch]. etrans; [done|symmetry; apply same_identity_set_cache].
    - unfold env_of, matchSource, acceptEmpty. rewrite Hc. by destruct e.
    - unfold deferred. by rewrite Hc.
    - unfold ignoreDst. by rewrite Hc.
    - unfold ignoreDst in V3. rewrite Hc in V3. destruct u; [naive_solver|].
      cbn. destruct b; [by rewrite V2|by rewrite V1]. }
  by rewrite <- (Hs m), <- (Hs m').
Qed.

(** What one pre-match says about the full match on any response. *)
Lemma prematch_verdict r m b m' :
  isDNSRule r = true → prematchable env0 r = true → ignoreDst m = false →
  preMatch (Match rt r) (ResetRuleCache m) = (b, m') →
  ∃ u, (b = true → deferred m' = dbit u) ∧ (u = true → may_defer env0 r = true) ∧
    ignoreDst m' = false ∧ same_identity m' m ∧
    ∀ v, (b = false → holds rt env0 r (limitMetadata v m) = false) ∧
         (b = true → u = false → holds rt env0 r (limitMetadata v m) = true).
Proof.
  intros Hr Hok Hg. unfold preMatch.
  set (m1 := on_cache (set_IgnoreDestinationIPCIDRMatch true) (ResetRuleCache m)).
  destruct (set_ignore_fields true (ResetRuleCache m)) as (G1 & G2 & G3). fold m1 in G1, G2, G3.
  assert (Hi1 : same_identity m1 m)
    by (etrans; [apply set_ignore_same|apply same_identity_ResetRuleCache]).
  assert (Hv : ∀ v, sees m1 (limitMetadata v m)).
  { intros v. unfold sees. rewrite G1. exists v. apply with_response_identity.
    etrans; [apply same_identity_ResetRuleCache|by symmetry]. }
  rewrite env_ResetRuleCache in G2. rewrite deferred_ResetRuleCache in G3.
  destruct (sound_all rt r env0 m1 (limitMetadata None m)) as (b0 & m2 & u & Hm & Hf & Hdef & _ & _ & H3); auto.
  rewrite Hm. intros [= <- <-]. exists u.
  destruct (set_ignore_fields false m2) as (F1 & F2 & F3). destruct Hf as (Hf1 & _ & _).
  split_and!; [by rewrite F3|naive_solver|done|by etrans; [apply set_ignore_same|etrans; [symmetry|]]|].
  intros v. destruct (sound_all rt r env0 m1 (limitMetadata v m)) as (b1 & m3 & u1 & Hm' & _ & Hdef' & W1 & W2 & _); auto.
  rewrite Hm in Hm'. injection Hm' as -> ->. split; [done|].
  intros Hb Hu. apply W2; [done|]. apply dbit_inj. by rewrite <- Hdef', Hdef, Hu by done.
Qed.
End prematching.

(** C2: a DNS rule's [LegacyPreMatch], which runs before any response is known,
    does not contradict [MatchAddressLimit]: when it says no, the rule matches no
    response at all, and when it says yes without deferring the destination
    group, the rule matches whatever the response.  The rule is [prematchable]: no
    item in it but destination addresses reads the response, and no default rule,
    merged with its rule-sets, has both a domain and a destination address
    condition; [inverted_prematch_misses] has one that does. *)
Theorem LegacyPreMatch_sound {EX : External} (rt : Runtime) (RL : RuntimeLaws rt) (r : Rule)
    (m m' : InboundContext) (b : bool) (pre : matcher) (limit : InboundContext → option Msg → bool)
    (Hpre : LegacyPreMatch rt r = Some pre) (Hlimit : MatchAddressLimit rt r = Some limit)
    (Hok : prematchable env0 r = true) (Hmode : ignoreDst m = false)
    (Hrun : pre (ResetRuleCache m) = (b, m')) :
  (b = false → ∀ response, limit m' response = false) ∧
  (b = true → deferred m' = 0 → ∀ response, limit m' response = true).
Proof.
  assert (Hr : isDNSRule r = true) by by destruct r.
  rewrite (LegacyPreMatch_Match rt r Hr Hok) in Hpre. injection Hpre as <-.
  destruct (prematch_verdict rt r m b m' Hr Hok Hmode Hrun) as (u & Hdef & _ & Hg & Hi & Hv).
  assert (Hl : ∀ v, limit m' v = holds rt env0 r (limitMetadata v m)).
  { intros v. destruct (MatchAddressLimit_Match rt r m' v Hr Hok) as (l & Hl & Hlv).
    rewrite Hlimit in Hl. injection Hl as <-. rewrite Hlv, limit_holds by done.
    apply holds_identity; [done|]. apply with_response_identity. etrans; [apply same_identity_ResetRuleCache|].
      etrans; [done|symmetry; apply same_identity_ResetRuleCache]. }
  split; intros Hb; [|intros Hd]; intros v; rewrite Hl; destruct (Hv v) as [V1 V2]; [by apply V1|].
  apply V2; [done|]. rewrite Hdef in Hd by done. by destruct u.
Qed.

(** A DNS rule with a domain condition shared with its rule-set. *)
Definition demo_dns_rule : Rule :=
  DefaultDNSRule (plain_rule [domain_item] [] (Some (mkRuleSetItem ["set"%string]
    [mkRuleSet [DefaultHeadlessRule (plain_rule [domain_item] [] None false)]
       (mkRuleSetMetadata false false false false true)] false false)) false) false "" false.

Lemma LegacyPreMatch_sound_witness :
  prematchable env0 demo_dns_rule = true ∧
  ∃ pre limit m', LegacyPreMatch demo_rt demo_dns_rule = Some pre ∧
    MatchAddressLimit demo_rt demo_dns_rule = Some limit ∧
    pre (ResetRuleCache (demo_context "example.com")) = (false, m') ∧ ∀ response, limit m' response = false.
Proof.
  split; [vm_compute; reflexivity|]. eexists _, _, _. split_and!; [reflexivity|reflexivity|reflexivity|].
  eapply (LegacyPreMatch_sound demo_rt demo_laws demo_dns_rule (demo_context "example.com"));
    [reflexivity|reflexivity|vm_compute; reflexivity|reflexivity|reflexivity|reflexivity].
Defined.

(** ** Deferred groups are checked later *)

Section limits.
Context {EX : External}.

(** The rule-sets of a DNS rule are described by their metadata: a set that may
    defer says that it has address rules, and a set matched against the source
    address has none to defer. *)
Definition sets_described (d : abstractDefaultRule Rule) : Prop :=
  match ruleSetItem d with
  | None => True
  | Some rs => Forall (λ s, existsb (may_defer (env_in rs)) (rs_rules s) = true →
      ipCidrMatchSource rs = false ∧ ContainsIPCIDRRule (rs_metadata s) = true) (setList rs)
  end.

Fixpoint dns_described (r : Rule) : Prop :=
  match r with
  | DefaultDNSRule d _ _ _ => sets_described d
  | LogicalDNSRule l _ _ _ => foldr (λ r P, dns_described r ∧ P) True (l_rules l)
  | _ => False
  end.

Lemma mergeableRule_Some s b :
  mergeableRule s = Some b →
  rs_rules s = [DefaultHeadlessRule b] ∧ invert b = false ∧ ruleSetItem b = None.
Proof.
  unfold mergeableRule, mergeableRuleIn. destruct (rs_rules s) as [|[d| | | | |] [|]]; try done.
  destruct (invert d) eqn:?, (ruleSetItem d) eqn:?; naive_solver.
Qed.

Lemma set_may_rules rs s :
  set_may mergeableRule may_defer rs s = true → existsb (may_defer (env_in rs)) (rs_rules s) = true.
Proof.
  unfold set_may. destruct (mergeableRule s) as [b|] eqn:Hb; [|done].
  apply mergeableRule_Some in Hb as (-> & _ & _). cbn. unfold default_may. by intros ->.
Qed.

Lemma may_defer_limit r : dns_described r → may_defer env0 r = true → WithAddressLimit r = true.
Proof.
  induction r as [| | | |d mr tag race _|l tags an race Hl] using Rule_nested_ind; try done; cbn.
  - unfold sets_described, default_may. intros Hd [Hip|Hs]%orb_true_iff.
    + unfold ip_dest in Hip. cbn in Hip. by rewrite Hip.
    + destruct (ruleSetItem d) as [rs|]; [|done]. apply existsb_exists in Hs as (s & Hin & Hs).
      apply set_may_rules in Hs. rewrite Forall_forall in Hd.
      destruct (Hd s) as [Hsrc Hmeta]; [by apply list_elem_of_In|done|].
      unfold ContainsDestinationIPCIDRRule. rewrite Hsrc. apply orb_true_iff. right.
      apply existsb_exists. eauto.
  - unfold logical_may. induction Hl as [|r rules Hr _ IH]; [done|]. cbn.
    intros [Hd1 Hd2] [H|H]%orb_true_iff; [by rewrite Hr|by rewrite IH, orb_true_r].
Qed.
End limits.

(** A pre-match that says yes only because the destination group was deferred
    is never the last word: the rule reports [WithAddressLimit], so the router
    checks the response with [MatchAddressLimit]. *)
Theorem deferred_has_address_limit {EX : External} (rt : Runtime) (RL : RuntimeLaws rt) (r : Rule)
    (m m' : InboundContext) (pre : matcher)
    (Hpre : LegacyPreMatch rt r = Some pre) (Hok : prematchable env0 r = true)
    (Hdesc : dns_described r) (Hmode : ignoreDst m = false)
    (Hrun : pre (ResetRuleCache m) = (true, m')) (Hdef : deferred m' ≠ 0) :
  WithAddressLimit r = true.
Proof.
  assert (Hr : isDNSRule r = true) by by destruct r.
  rewrite (LegacyPreMatch_Match rt r Hr Hok) in Hpre. injection Hpre as <-.
  destruct (prematch_verdict rt r m true m' Hr Hok Hmode Hrun) as (u & Hu & Hmay & _).
  apply may_defer_limit; [done|]. apply Hmay. destruct u; [done|]. by rewrite Hu in Hdef.
Qed.

(** A DNS rule that can only be decided on the response. *)
Definition demo_address_rule : Rule :=
  LogicalDNSRule (mkLogicalRule [DefaultDNSRule (plain_rule [] [] (Some (mkRuleSetItem ["set"%string]
    [demo_set] false false)) true) false "" false] "and" false None) [] false false.

Lemma deferred_has_address_limit_witness :
  ∃ pre, LegacyPreMatch demo_rt demo_address_rule = Some pre ∧
    let '(b, m') := pre (ResetRuleCache (demo_context "example.org")) in
    b = true ∧ deferred m' = 4 ∧ WithAddressLimit demo_address_rule = true.
Proof.
  eexists. split; [reflexivity|].
  match goal with |- let '(_, _) := ?x in _ =>
    assert (H : fst x = true ∧ deferred (snd x) = 4) by (vm_compute; split; reflexivity);
    destruct x as [b m'] eqn:Hrun
  end.
  destruct H as [Hb Hd]. cbn [fst snd] in Hb, Hd.
  split; [exact Hb|]. split; [exact Hd|].
  eapply (deferred_has_address_limit demo_rt demo_laws demo_address_rule (demo_context "example.org"));
    [reflexivity|vm_compute; reflexivity| |reflexivity|rewrite Hb in Hrun; exact Hrun|rewrite Hd; discriminate].
  split; [|exact I]. constructor; [|constructor]. intros _. split; reflexivity.
Defined.

(** ** Merging a rule-set into a rule *)

Section merging.
Context {EX : External}.

(** The conditions of [d] and [b] in one rule, without the rule-set. *)
Definition flatten {R} (d b : abstractDefaultRule R) : abstractDefaultRule R :=
  mkDefaultRule (items d ++ items b) (sourceAddressItems d ++ sourceAddressItems b)
    (sourcePortItems d ++ sourcePortItems b)
    (destinationAddressItems d ++ destinationAddressItems b)
    (destinationIPCIDRItems d ++ destinationIPCIDRItems b)
    (destinationPortItems d ++ destinationPortItems b)
    (allItems d ++ allItems b) None (invert d) (action d).

Lemma requires_flatten {R} e (d b : abstractDefaultRule R) g :
  requires false e (flatten d b) g = requires false e d g || requires false e b g.
Proof.
  destruct g; cbn; unfold ip_source, ip_dest; cbn; rewrite ?nonempty_app; try done;
    destruct (e_source e), (nonempty (destinationIPCIDRItems d)), (nonempty (destinationIPCIDRItems b));
    cbn; rewrite ?orb_true_r, ?orb_false_r; try done;
    by destruct (nonempty (sourceAddressItems d)) || destruct (nonempty (destinationAddressItems d)).
Qed.

Lemma satisfies_flatten {R} rt e (d b : abstractDefaultRule R) m g :
  satisfies rt false e (flatten d b) m g = satisfies rt false e d m g || satisfies rt false e b m g.
Proof.
  destruct g; cbn; rewrite ?existsb_app_or; try done;
    destruct (e_source e); cbn; rewrite ?orb_false_r; try done.
  all: repeat match goal with |- context [existsb ?f ?l] => destruct (existsb f l) end; done.
Qed.

Lemma flatten_inner rt (d b : abstractDefaultRule Rule) rs s m :
  ruleSetItem d = Some rs → setList rs = [s] → mergeableRule s = Some b →
  inner_holds rt (holds rt) mergeableRule (env_in rs) d m =
  inner_holds rt (holds rt) mergeableRule (env_in rs) (flatten d b) m.
Proof.
  intros Hrs Hs Hb. unfold inner_holds. rewrite Hrs, Hs. cbn. rewrite orb_false_r.
  unfold set_holds. rewrite Hb, forallb_app, <- andb_assoc. f_equal. f_equal.
  apply all_groups_ext. intros g. by rewrite requires_flatten, satisfies_flatten.
Qed.
End merging.

(** C4: a rule that refers to one rule-set whose only rule is a plain default
    rule matches exactly when the two rules' conditions written as one rule
    match: conditions of the same group are alternatives across the two, and
    groups are joined by conjunction. *)
Theorem merge_is_flatten {EX : External} (rt : Runtime) (RL : RuntimeLaws rt)
    (d b : abstractDefaultRule Rule) (rs : RuleSetItem Rule) (s : RuleSet Rule) (m : InboundContext)
    (Hrs : ruleSetItem d = Some rs) (Hs : setList rs = [s]) (Hb : mergeableRule s = Some b)
    (Hall : nonempty (allItems d) = true)
    (Henv : env_of m = env_in rs) (Hmode : ignoreDst m = false) (Hreset : deferred m = 0) :
  fst (Match rt (DefaultRule d) m) = fst (Match rt (DefaultRule (flatten d b)) m).
Proof.
  destruct (Match_holds rt (DefaultRule d) m Hmode Hreset) as (m1 & -> & _).
  destruct (Match_holds rt (DefaultRule (flatten d b)) m Hmode Hreset) as (m2 & -> & _).
  cbn. unfold default_holds. rewrite Henv, (flatten_inner rt d b rs s m Hrs Hs Hb). cbn.
  rewrite nonempty_app, Hall. done.
Qed.

Definition demo_branch : abstractDefaultRule Rule := plain_rule [] [net1_item] None false.
Definition demo_outer : abstractDefaultRule Rule :=
  plain_rule [domain_item] [] (Some (mkRuleSetItem ["set"%string]
    [mkRuleSet [DefaultHeadlessRule demo_branch] (mkRuleSetMetadata false false true false false)] false false)) false.

Lemma merge_is_flatten_witness :
  fst (Match demo_rt (DefaultRule demo_outer) (demo_context "example.com")) = true ∧
  fst (Match demo_rt (DefaultRule demo_outer) (demo_context "example.com")) =
  fst (Match demo_rt (DefaultRule (flatten demo_outer demo_branch)) (demo_context "example.com")).
Proof.
  split; [vm_compute; reflexivity|].
  eapply (merge_is_flatten demo_rt demo_laws demo_outer demo_branch); reflexivity.
Defined.

(** ** Where the code departs from what it means to do *)

(** [rule_set_ip_cidr_match_source] and [rule_set_ip_cidr_accept_empty] have no
    effect on the logical rules of a rule-set: [abstractLogicalRule.Match] calls
    [ResetRuleCache], which clears the switches the rule-set item has set. *)
Theorem logical_rule_ignores_match_source {EX : External} (rt : Runtime) (RL : RuntimeLaws rt)
    (l : abstractLogicalRule Rule) (rs rs' : RuleSetItem Rule) (m : InboundContext)
    (Hmode : ignoreDst m = false) :
  fst (Match rt (LogicalHeadlessRule l) (prepareNestedMatch rs m)) =
  fst (Match rt (LogicalHeadlessRule l) (prepareNestedMatch rs' m)).
Proof.
  destruct (Match_holds rt (LogicalHeadlessRule l) (prepareNestedMatch rs m)) as (m1 & -> & _);
    [by rewrite prepare_ignore|apply prepare_deferred|].
  destruct (Match_holds rt (LogicalHeadlessRule l) (prepareNestedMatch rs' m)) as (m2 & -> & _);
    [by rewrite prepare_ignore|apply prepare_deferred|].
  cbn [fst]. rewrite !prepare_env.
  rewrite (holds_identity rt _ _ (prepareNestedMatch rs m) (prepareNestedMatch rs' m));
    [done|]. etrans; [apply prepare_identity|symmetry; apply prepare_identity].
Qed.

(** A rule on the set [rules] with [rule_set_ip_cidr_match_source]. *)
Definition source_rule (rules : list Rule) : Rule :=
  DefaultRule (plain_rule [] [] (Some (mkRuleSetItem ["set"%string]
    [mkRuleSet rules (mkRuleSetMetadata false false true false false)] true false)) false).

(** The source 10.0.0.1 is in 10.0.0.0/8: the set matches when the address rule
    stands alone, and no longer when it is written as a logical rule. *)
Lemma logical_rule_ignores_match_source_witness :
  let net10 := DefaultHeadlessRule (plain_rule [] [net10_item] None false) in
  let logical := mkLogicalRule [net10] "and" false None in
  fst (Match demo_rt (source_rule [net10]) (demo_context "example.org")) = true ∧
  fst (Match demo_rt (source_rule [LogicalHeadlessRule logical]) (demo_context "example.org")) = false ∧
  ∀ rs rs' : RuleSetItem Rule, fst (Match demo_rt (LogicalHeadlessRule logical) (prepareNestedMatch rs (demo_context "example.org"))) =
            fst (Match demo_rt (LogicalHeadlessRule logical) (prepareNestedMatch rs' (demo_context "example.org"))).
Proof.
  intros net10 logical. split; [vm_compute; reflexivity|]. split; [vm_compute; reflexivity|].
  intros rs rs'.
  apply (logical_rule_ignores_match_source demo_rt demo_laws logical rs rs' (demo_context "example.org")).
  reflexivity.
Defined.

(** The rule [domain = example.org and rule_set in (10.0.0.0/8 or 1.0.0.0/8)],
    inverted. *)
Definition inverted_rule : Rule :=
  DefaultDNSRule (plain_rule [domain_item] [] (Some (mkRuleSetItem ["set"%string] [demo_set] false false)) true)
    false "" false.

(** A response with no address. *)
Definition empty_response : Msg := mkMsg true RcodeSuccess ["example.org"%string] [] [] [].

(** Pre-matching an inverted rule that has both a domain condition and a
    rule-set with several address rules rejects queries the rule matches: the
    domain group clears the deferral of the set, so the negation of "maybe"
    becomes "no", while the full match on a response with no address is yes. *)
Theorem inverted_prematch_misses :
  ∃ pre limit, LegacyPreMatch demo_rt inverted_rule = Some pre ∧
    MatchAddressLimit demo_rt inverted_rule = Some limit ∧
    fst (pre (ResetRuleCache (demo_context "example.org"))) = false ∧
    limit (demo_context "example.org") (Some empty_response) = true.
Proof.
  eexists _, _. split; [reflexivity|]. split; [reflexivity|]. split; vm_compute; reflexivity.
Qed.
