(* ===== verification/Options.v ===== *)
(** Rule options ([option/rule.go], [rule_dns.go], [rule_set.go]): the decoded
    configuration the rules are built from.

    A slice field is a list, [nil] being the empty list: a decoded empty array is
    not told apart from an absent field.  An address map is the list of its
    entries in order. *)

From S2P Require Import Prelude GoBytes GoStrings Netip Metadata RuleItems RuleAction.

(** [option.RawDefaultRule]. *)
Record RawDefaultRule : Type := mkRawDefaultRule {
  r_Inbound : list string;
  r_IPVersion : Z;
  r_Network : list string;
  r_AuthUser : list string;
  r_Protocol : list string;
  r_Client : list string;
  r_Domain : list string;
  r_DomainSuffix : list string;
  r_DomainKeyword : list string;
  r_DomainRegex : list string;
  r_Geosite : list string;
  r_SourceGeoIP : list string;
  r_GeoIP : list string;
  r_SourceIPCIDR : list string;
  r_SourceIPIsPrivate : bool;
  r_IPCIDR : list string;
  r_IPIsPrivate : bool;
  r_SourcePort : list Z;
  r_SourcePortRange : list string;
  r_Port : list Z;
  r_PortRange : list string;
  r_ProcessName : list string;
  r_ProcessPath : list string;
  r_ProcessPathRegex : list string;
  r_PackageName : list string;
  r_PackageNameRegex : list string;
  r_User : list string;
  r_UserID : list Z;
  r_ClashMode : string;
  r_NetworkType : list Z;
  r_NetworkIsExpensive : bool;
  r_NetworkIsConstrained : bool;
  r_WIFISSID : list string;
  r_WIFIBSSID : list string;
  r_InterfaceAddress : list (string * list Prefix);
  r_NetworkInterfaceAddress : list (Z * list Prefix);
  r_DefaultInterfaceAddress : list Prefix;
  r_SourceMACAddress : list string;
  r_SourceHostname : list string;
  r_PreferredBy : list string;
  r_RuleSet : list string;
  r_RuleSetIPCIDRMatchSource : bool;
  r_Invert : bool;
  r_Deprecated_RulesetIPCIDRMatchSource : bool
}.

(** [option.DNSRuleMatchResponse]. *)
Record DNSRuleMatchResponse : Type := mkMatchResponse { mr_Enabled : bool; mr_Tag : string }.

Definition MatchResponse_IsEnabled (m : option DNSRuleMatchResponse) : bool :=
  match m with None => false | Some m => mr_Enabled m end.
Definition MatchResponse_ResponseTag (m : option DNSRuleMatchResponse) : string :=
  match m with None => EmptyString | Some m => mr_Tag m end.

(** [option.RawDefaultDNSRule]. *)
Record RawDefaultDNSRule : Type := mkRawDefaultDNSRule {
  d_Inbound : list string;
  d_IPVersion : Z;
  d_QueryType : list Z;
  d_QueryClientSubnet : list Prefix;
  d_QueryDNSSEC : bool;
  d_Network : list string;
  d_AuthUser : list string;
  d_Protocol : list string;
  d_Domain : list string;
  d_DomainSuffix : list string;
  d_DomainKeyword : list string;
  d_DomainRegex : list string;
  d_SourceIPCIDR : list string;
  d_SourceIPIsPrivate : bool;
  d_SourcePort : list Z;
  d_SourcePortRange : list string;
  d_Port : list Z;
  d_PortRange : list string;
  d_ProcessName : list string;
  d_ProcessPath : list string;
  d_ProcessPathRegex : list string;
  d_PackageName : list string;
  d_PackageNameRegex : list string;
  d_User : list string;
  d_UserID : list Z;
  d_Outbound : list string;
  d_ClashMode : string;
  d_NetworkType : list Z;
  d_NetworkIsExpensive : bool;
  d_NetworkIsConstrained : bool;
  d_WIFISSID : list string;
  d_WIFIBSSID : list string;
  d_InterfaceAddress : list (string * list Prefix);
  d_NetworkInterfaceAddress : list (Z * list Prefix);
  d_DefaultInterfaceAddress : list Prefix;
  d_SourceMACAddress : list string;
  d_SourceHostname : list string;
  d_PreferredBy : list string;
  d_RuleSet : list string;
  d_RuleSetIPCIDRMatchSource : bool;
  d_MatchResponse : option DNSRuleMatchResponse;
  d_IPCIDR : list string;
  d_IPIsPrivate : bool;
  d_IPAcceptAny : bool;
  d_ResponseRcode : option Z;
  d_ResponseAnswer : list (option RR);
  d_ResponseNs : list (option RR);
  d_ResponseExtra : list (option RR);
  d_Invert : bool;
  d_Geosite : list string;
  d_SourceGeoIP : list string;
  d_GeoIP : list string;
  d_RuleSetIPCIDRAcceptEmpty : bool;
  d_Deprecated_RulesetIPCIDRMatchSource : bool
}.

(** [option.DefaultHeadlessRule]; the matchers and sets read from a binary
    rule-set are carried as such. *)
Record HeadlessOptions `{!External} : Type := mkHeadlessOptions {
  h_QueryType : list Z;
  h_Network : list string;
  h_Domain : list string;
  h_DomainSuffix : list string;
  h_DomainKeyword : list string;
  h_DomainRegex : list string;
  h_SourceIPCIDR : list string;
  h_IPCIDR : list string;
  h_SourcePort : list Z;
  h_SourcePortRange : list string;
  h_Port : list Z;
  h_PortRange : list string;
  h_ProcessName : list string;
  h_ProcessPath : list string;
  h_ProcessPathRegex : list string;
  h_PackageName : list string;
  h_PackageNameRegex : list string;
  h_NetworkType : list Z;
  h_NetworkIsExpensive : bool;
  h_NetworkIsConstrained : bool;
  h_WIFISSID : list string;
  h_WIFIBSSID : list string;
  h_NetworkInterfaceAddress : list (Z * list Prefix);
  h_DefaultInterfaceAddress : list Prefix;
  h_Invert : bool;
  h_DomainMatcher : option Matcher;
  h_SourceIPSet : option IPSet;
  h_IPSet : option IPSet;
  h_AdGuardDomain : list string;
  h_AdGuardDomainMatcher : option AdGuardMatcher
}.

(** [RawLogicalRule] and its DNS and headless twins. *)
Record LogicalOptions (R : Type) : Type := mkLogicalOptions {
  lo_Mode : string;
  lo_Rules : list R;
  lo_Invert : bool
}.
Arguments mkLogicalOptions {R} _ _ _.
Arguments lo_Mode {R} _.
Arguments lo_Rules {R} _.
Arguments lo_Invert {R} _.

(** [option.Rule]: [Type], [DefaultOptions], [LogicalOptions], each of the two
    embedding its action. *)
Inductive RuleOptions : Type :=
| mkRuleOptions (type_ : string) (raw : RawDefaultRule) (rawAction : RuleActionOptions)
    (logical : LogicalOptions RuleOptions) (logicalAction : RuleActionOptions).

(** [option.DNSRule]. *)
Inductive DNSRuleOptions : Type :=
| mkDNSRuleOptions (type_ : string) (raw : RawDefaultDNSRule) (rawAction : DNSRuleActionOptions)
    (logical : LogicalOptions DNSRuleOptions) (logicalAction : DNSRuleActionOptions).

(** [option.HeadlessRule]. *)
Inductive HeadlessRuleOptions `{!External} : Type :=
| mkHeadlessRuleOptions (type_ : string) (default_ : HeadlessOptions)
    (logical : LogicalOptions HeadlessRuleOptions).

(** ** Zero values and [IsValid] *)

Definition RawDefaultRule_zero (invert : bool) : RawDefaultRule :=
  mkRawDefaultRule [] 0 [] [] [] [] [] [] [] [] [] [] [] [] false [] false [] [] [] [] [] [] [] [] []
    [] [] "" [] false false [] [] [] [] [] [] [] [] [] false invert false.

Definition RawDefaultDNSRule_zero (invert : bool) : RawDefaultDNSRule :=
  mkRawDefaultDNSRule [] 0 [] [] false [] [] [] [] [] [] [] [] false [] [] [] [] [] [] [] [] [] [] []
    [] "" [] false false [] [] [] [] [] [] [] [] [] false None [] false false None [] [] [] invert
    [] [] [] false false.

#[export] Instance RawDefaultRule_eq_dec : EqDecision RawDefaultRule.
Proof. solve_decision. Defined.
#[export] Instance DNSRuleMatchResponse_eq_dec : EqDecision DNSRuleMatchResponse.
Proof. solve_decision. Defined.
#[export] Instance RawDefaultDNSRule_eq_dec : EqDecision RawDefaultDNSRule.
Proof. solve_decision. Defined.

(** [DefaultRule.IsValid]: not [reflect.DeepEqual] to the zero rule with the
    same [Invert]. *)
Definition DefaultRule_IsValid (raw : RawDefaultRule) (a : RuleActionOptions) : bool :=
  negb (bool_decide (raw = RawDefaultRule_zero (r_Invert raw)) && bool_decide (a = RuleActionOptions_zero)).

Definition DefaultDNSRule_IsValid (raw : RawDefaultDNSRule) (a : DNSRuleActionOptions) : bool :=
  negb (bool_decide (raw = RawDefaultDNSRule_zero (d_Invert raw)) && bool_decide (a = DNSRuleActionOptions_zero)).

Section headless.
Context {EX : External}.

(** Whether every field but [Invert] is zero; matchers and sets are pointers, so
    only their presence counts. *)
Definition HeadlessOptions_isZero (o : HeadlessOptions) : bool :=
  negb (nonempty (h_QueryType o)) && negb (nonempty (h_Network o)) && negb (nonempty (h_Domain o)) &&
  negb (nonempty (h_DomainSuffix o)) && negb (nonempty (h_DomainKeyword o)) &&
  negb (nonempty (h_DomainRegex o)) && negb (nonempty (h_SourceIPCIDR o)) && negb (nonempty (h_IPCIDR o)) &&
  negb (nonempty (h_SourcePort o)) && negb (nonempty (h_SourcePortRange o)) && negb (nonempty (h_Port o)) &&
  negb (nonempty (h_PortRange o)) && negb (nonempty (h_ProcessName o)) && negb (nonempty (h_ProcessPath o)) &&
  negb (nonempty (h_ProcessPathRegex o)) && negb (nonempty (h_PackageName o)) &&
  negb (nonempty (h_PackageNameRegex o)) && negb (nonempty (h_NetworkType o)) &&
  negb (h_NetworkIsExpensive o) && negb (h_NetworkIsConstrained o) && negb (nonempty (h_WIFISSID o)) &&
  negb (nonempty (h_WIFIBSSID o)) && negb (nonempty (h_NetworkInterfaceAddress o)) &&
  negb (nonempty (h_DefaultInterfaceAddress o)) && negb (bool_decide (is_Some (h_DomainMatcher o))) &&
  negb (bool_decide (is_Some (h_SourceIPSet o))) && negb (bool_decide (is_Some (h_IPSet o))) &&
  negb (nonempty (h_AdGuardDomain o)) && negb (bool_decide (is_Some (h_AdGuardDomainMatcher o))).

Definition HeadlessOptions_IsValid (o : HeadlessOptions) : bool := negb (HeadlessOptions_isZero o).

(** [len(r.Rules) > 0 && common.All(r.Rules, Rule.IsValid)], [IsValid] of a rule
    of unknown type being a panic. *)
Definition LogicalOptions_IsValid {R} (valid : R → result bool) (l : LogicalOptions R) : result bool :=
  if negb (nonempty (lo_Rules l)) then Ok false
  else (fix all (rules : list R) : result bool :=
    match rules with
    | [] => Ok true
    | r :: rules => valid r ≫= λ b : bool, if b then all rules else Ok false
    end) (lo_Rules l).

Fixpoint HeadlessRule_IsValid (r : HeadlessRuleOptions) : result bool :=
  match r with
  | mkHeadlessRuleOptions type_ default_ logical =>
      if String.eqb type_ "default" || String.eqb type_ "" then Ok (HeadlessOptions_IsValid default_)
      else if String.eqb type_ "logical" then LogicalOptions_IsValid HeadlessRule_IsValid logical
      else Panic (String.append "unknown rule type: " type_)
  end.
End headless.

Fixpoint Rule_IsValid (r : RuleOptions) : result bool :=
  match r with
  | mkRuleOptions type_ raw a logical _ =>
      if String.eqb type_ "default" then Ok (DefaultRule_IsValid raw a)
      else if String.eqb type_ "logical" then LogicalOptions_IsValid Rule_IsValid logical
      else Panic (String.append "unknown rule type: " type_)
  end.

Fixpoint DNSRule_IsValid (r : DNSRuleOptions) : result bool :=
  match r with
  | mkDNSRuleOptions type_ raw a logical _ =>
      if String.eqb type_ "default" then Ok (DefaultDNSRule_IsValid raw a)
      else if String.eqb type_ "logical" then LogicalOptions_IsValid DNSRule_IsValid logical
      else Panic (String.append "unknown DNS rule type: " type_)
  end.
