(* ===== verification/RuleBuild.v ===== *)
(** Building rules from options ([route/rule/rule_headless.go],
    [rule_default.go], the constructors of [rule_dns.go],
    [rule_nested_action.go]).

    A constructor appends items to a rule; [addWhen] is its repeated
    "if the field is set, build the item and append it to a group and to
    [allItems]". *)

From S2P Require Import Prelude GoBytes GoStrings Netip Metadata RuleItems RuleAction RuleMatch Options.

Section build.
Context {EX : External}.

(** ** Appending items *)

Inductive slot : Type :=
| ToItems | ToSourceAddress | ToSourcePort | ToDestinationAddress | ToDestinationIPCIDR | ToDestinationPort.

Definition appendItem (s : slot) (i : RuleItem) (d : abstractDefaultRule Rule) : abstractDefaultRule Rule :=
  match d with
  | mkDefaultRule it sa sp da di dp all rs inv act =>
      let all := all ++ [ItemRef i] in
      match s with
      | ToItems => mkDefaultRule (it ++ [i]) sa sp da di dp all rs inv act
      | ToSourceAddress => mkDefaultRule it (sa ++ [i]) sp da di dp all rs inv act
      | ToSourcePort => mkDefaultRule it sa (sp ++ [i]) da di dp all rs inv act
      | ToDestinationAddress => mkDefaultRule it sa sp (da ++ [i]) di dp all rs inv act
      | ToDestinationIPCIDR => mkDefaultRule it sa sp da (di ++ [i]) dp all rs inv act
      | ToDestinationPort => mkDefaultRule it sa sp da di (dp ++ [i]) all rs inv act
      end
  end.

(** [rule.ruleSetItem = item; rule.allItems = append(rule.allItems, item)]. *)
Definition setRuleSetItem (rs : RuleSetItem Rule) (d : abstractDefaultRule Rule) : abstractDefaultRule Rule :=
  match d with
  | mkDefaultRule it sa sp da di dp all _ inv act =>
      mkDefaultRule it sa sp da di dp (all ++ [RuleSetRef]) (Some rs) inv act
  end.

Definition newAbstractRule (invert : bool) (act : option RuleAction) : abstractDefaultRule Rule :=
  mkDefaultRule [] [] [] [] [] [] [] None invert act.

(** One step of a constructor: a field, where its item goes and how it is made. *)
Definition step : Type := bool * slot * result RuleItem.

Definition addWhen (s : step) (d : abstractDefaultRule Rule) : result (abstractDefaultRule Rule) :=
  let '(cond, sl, r) := s in
  if cond then item ← r; Ok (appendItem sl item d) else Ok d.

Fixpoint addAll (steps : list step) (d : abstractDefaultRule Rule) : result (abstractDefaultRule Rule) :=
  match steps with
  | [] => Ok d
  | s :: steps => d ← addWhen s d; addAll steps d
  end.

(** [return nil, err] when a field is set. *)
Definition failWhen (cond : bool) (msg : string) (s : slot) : step := (cond, s, Err (ErrNew msg)).

(** An item that cannot fail. *)
Definition plain (cond : bool) (s : slot) (i : RuleItem) : step := (cond, s, Ok i).

(** ** Headless rules *)

(** The network conditions, added only when there is a network manager. *)
Definition headlessNetworkSteps (o : HeadlessOptions) : list step :=
  [ plain (nonempty (h_NetworkType o)) ToItems (NewNetworkTypeItem (h_NetworkType o));
    plain (h_NetworkIsExpensive o) ToItems NewNetworkIsExpensiveItem;
    plain (h_NetworkIsConstrained o) ToItems NewNetworkIsConstrainedItem;
    plain (nonempty (h_WIFISSID o)) ToItems (NewWIFISSIDItem (h_WIFISSID o));
    plain (nonempty (h_WIFIBSSID o)) ToItems (NewWIFIBSSIDItem (h_WIFIBSSID o));
    plain (nonempty (h_NetworkInterfaceAddress o)) ToItems
      (NewNetworkInterfaceAddressItem (h_NetworkInterfaceAddress o));
    plain (nonempty (h_DefaultInterfaceAddress o)) ToItems
      (NewDefaultInterfaceAddressItem (h_DefaultInterfaceAddress o)) ].

(** A raw matcher or set, used when the plain field is empty. *)
Definition rawStep {A} (cond : bool) (s : slot) (raw : option A) (f : A → RuleItem) : list step :=
  match raw with
  | Some x => [plain (negb cond) s (f x)]
  | None => []
  end.

Definition headlessSteps (networkManager : bool) (o : HeadlessOptions) : list step :=
  let domains := nonempty (h_Domain o) || nonempty (h_DomainSuffix o) in
  [ plain (nonempty (h_QueryType o)) ToItems (NewQueryTypeItem (h_QueryType o));
    plain (nonempty (h_Network o)) ToItems (NewNetworkItem (h_Network o));
    (domains, ToDestinationAddress, NewDomainItem (h_Domain o) (h_DomainSuffix o)) ] ++
  rawStep domains ToDestinationAddress (h_DomainMatcher o) NewRawDomainItem ++
  [ plain (nonempty (h_DomainKeyword o)) ToDestinationAddress (NewDomainKeywordItem (h_DomainKeyword o));
    (nonempty (h_DomainRegex o), ToDestinationAddress,
      wrap_cause "domain_regex" (NewDomainRegexItem (h_DomainRegex o)));
    (nonempty (h_SourceIPCIDR o), ToSourceAddress,
      wrap_cause "source_ip_cidr" (NewIPCIDRItem true (h_SourceIPCIDR o))) ] ++
  rawStep (nonempty (h_SourceIPCIDR o)) ToSourceAddress (h_SourceIPSet o) (NewRawIPCIDRItem true) ++
  [ (nonempty (h_IPCIDR o), ToDestinationIPCIDR, wrap_cause "ipcidr" (NewIPCIDRItem false (h_IPCIDR o))) ] ++
  rawStep (nonempty (h_IPCIDR o)) ToDestinationIPCIDR (h_IPSet o) (NewRawIPCIDRItem false) ++
  [ plain (nonempty (h_SourcePort o)) ToSourcePort (NewPortItem true (h_SourcePort o));
    (nonempty (h_SourcePortRange o), ToSourcePort,
      wrap_cause "source_port_range" (NewPortRangeItem true (h_SourcePortRange o)));
    plain (nonempty (h_Port o)) ToDestinationPort (NewPortItem false (h_Port o));
    (nonempty (h_PortRange o), ToDestinationPort,
      wrap_cause "port_range" (NewPortRangeItem false (h_PortRange o)));
    plain (nonempty (h_ProcessName o)) ToItems (NewProcessItem (h_ProcessName o));
    plain (nonempty (h_ProcessPath o)) ToItems (NewProcessPathItem (h_ProcessPath o));
    (nonempty (h_ProcessPathRegex o), ToItems,
      wrap_cause "process_path_regex" (NewProcessPathRegexItem (h_ProcessPathRegex o)));
    plain (nonempty (h_PackageName o)) ToItems (NewPackageNameItem (h_PackageName o));
    (nonempty (h_PackageNameRegex o), ToItems,
      wrap_cause "package_name_regex" (NewPackageNameRegexItem (h_PackageNameRegex o))) ] ++
  (if networkManager then headlessNetworkSteps o else []) ++
  [ plain (nonempty (h_AdGuardDomain o)) ToDestinationAddress (NewAdGuardDomainItem (h_AdGuardDomain o)) ] ++
  rawStep (nonempty (h_AdGuardDomain o)) ToDestinationAddress (h_AdGuardDomainMatcher o) NewRawAdGuardDomainItem.

Definition NewDefaultHeadlessRule (networkManager : bool) (o : HeadlessOptions)
    : result (abstractDefaultRule Rule) :=
  addAll (headlessSteps networkManager o) (newAbstractRule (h_Invert o) None).

(** [switch options.Mode { case and, or: ... default: error }]. *)
Definition checkMode (mode : string) : result string :=
  if String.eqb mode "and" || String.eqb mode "or" then Ok mode
  else Err (ErrNew (String.append "unknown logical mode: " mode)).

(** [for i, subRule := range options.Rules { ...; E.Cause(err, "sub rule[", i, "]") }]. *)
Fixpoint subRules {O} (build : O → result Rule) (i : Z) (rules : list O) : result (list Rule) :=
  match rules with
  | [] => Ok []
  | o :: rules =>
      r ← wrap_cause (String.append "sub rule[" (String.append (pretty i) "]")) (build o);
      rs ← subRules build (i + 1) rules;
      Ok (r :: rs)
  end.

Definition errMissingConditions : goerr := ErrNew "missing conditions".
Definition errUnknownType (type_ : string) : goerr := ErrNew (String.append "unknown rule type: " type_).

(** [if !valid { return nil, E.New("missing conditions") }]. *)
Definition checkValid (valid : result bool) : result unit :=
  valid ≫= λ b : bool, if b then Ok tt else Err errMissingConditions.

Fixpoint NewHeadlessRule (networkManager : bool) (o : HeadlessRuleOptions) : result Rule :=
  match o with
  | mkHeadlessRuleOptions type_ default_ logical =>
      if String.eqb type_ "" || String.eqb type_ "default" then
        _ ← checkValid (Ok (HeadlessOptions_IsValid default_));
        d ← NewDefaultHeadlessRule networkManager default_;
        Ok (DefaultHeadlessRule d)
      else if String.eqb type_ "logical" then
        _ ← checkValid (LogicalOptions_IsValid HeadlessRule_IsValid logical);
        mode ← checkMode (lo_Mode logical);
        rules ← subRules (NewHeadlessRule networkManager) 0 (lo_Rules logical);
        Ok (LogicalHeadlessRule (mkLogicalRule rules mode (lo_Invert logical) None))
      else Err (errUnknownType type_)
  end.

(** ** Nested actions *)

Definition RouteRuleActionNestedUnsupportedMessage : string := "rule action is not supported in nested rules".
Definition DNSRuleActionNestedUnsupportedMessage : string := "DNS rule action is not supported in nested rules".

(** [rule.Type] of the options. *)
Definition ro_type (r : RuleOptions) : string := match r with mkRuleOptions t _ _ _ _ => t end.
Definition do_type (r : DNSRuleOptions) : string := match r with mkDNSRuleOptions t _ _ _ _ => t end.

(** [for i, subRule := range rules { err := validate(subRule); E.Cause(err, "sub rule[", i, "]") }]. *)
Fixpoint validateSubRules {O} (validate : O → result unit) (i : Z) (rules : list O) : result unit :=
  match rules with
  | [] => Ok tt
  | o :: rules =>
      _ ← wrap_cause (String.append "sub rule[" (String.append (pretty i) "]")) (validate o);
      validateSubRules validate (i + 1) rules
  end.

Definition ruleHasConfiguredAction (r : RuleOptions) : bool :=
  match r with
  | mkRuleOptions type_ _ rawAction _ logicalAction =>
      if String.eqb type_ "" || String.eqb type_ "default" then negb (bool_decide (rawAction = RuleActionOptions_zero))
      else if String.eqb type_ "logical" then negb (bool_decide (logicalAction = RuleActionOptions_zero))
      else false
  end.

Definition dnsRuleHasConfiguredAction (r : DNSRuleOptions) : bool :=
  match r with
  | mkDNSRuleOptions type_ _ rawAction _ logicalAction =>
      if String.eqb type_ "" || String.eqb type_ "default" then negb (bool_decide (rawAction = DNSRuleActionOptions_zero))
      else if String.eqb type_ "logical" then negb (bool_decide (logicalAction = DNSRuleActionOptions_zero))
      else false
  end.

Fixpoint validateNoNestedRuleActions (nested : bool) (r : RuleOptions) : result unit :=
  if nested && ruleHasConfiguredAction r then Err (ErrNew RouteRuleActionNestedUnsupportedMessage)
  else match r with
  | mkRuleOptions type_ _ _ logical _ =>
      if negb (String.eqb type_ "logical") then Ok tt
      else validateSubRules (validateNoNestedRuleActions true) 0 (lo_Rules logical)
  end.

Fixpoint validateNoNestedDNSRuleActions (nested : bool) (r : DNSRuleOptions) : result unit :=
  if nested && dnsRuleHasConfiguredAction r then Err (ErrNew DNSRuleActionNestedUnsupportedMessage)
  else match r with
  | mkDNSRuleOptions type_ _ _ logical _ =>
      if negb (String.eqb type_ "logical") then Ok tt
      else validateSubRules (validateNoNestedDNSRuleActions true) 0 (lo_Rules logical)
  end.

(** ** Route rules *)

Definition geositeMessage : string :=
  "geosite database is deprecated in sing-box 1.8.0 and removed in sing-box 1.12.0".
Definition geoipMessage : string :=
  "geoip database is deprecated in sing-box 1.8.0 and removed in sing-box 1.12.0".
Definition rulesetSourceMessage : string :=
  "rule_set_ipcidr_match_source is deprecated in sing-box 1.10.0 and removed in sing-box 1.11.0".

Definition ipVersionStep (version : Z) : step :=
  (0 <? version, ToItems,
   if (version =? 4) || (version =? 6) then Ok (NewIPVersionItem (version =? 6))
   else Err (ErrNew (String.append "invalid ip version: " (pretty version)))).

(** The fields of [NewDefaultRule] up to the ports. *)
Definition ruleStepsAddress (o : RawDefaultRule) : list step :=
  [ plain (nonempty (r_Inbound o)) ToItems (NewInboundRule (r_Inbound o));
    ipVersionStep (r_IPVersion o);
    plain (nonempty (r_Network o)) ToItems (NewNetworkItem (r_Network o));
    plain (nonempty (r_AuthUser o)) ToItems (NewAuthUserItem (r_AuthUser o));
    plain (nonempty (r_Protocol o)) ToItems (NewProtocolItem (r_Protocol o));
    plain (nonempty (r_Client o)) ToItems (NewClientItem (r_Client o));
    (nonempty (r_Domain o) || nonempty (r_DomainSuffix o), ToDestinationAddress,
      NewDomainItem (r_Domain o) (r_DomainSuffix o));
    plain (nonempty (r_DomainKeyword o)) ToDestinationAddress (NewDomainKeywordItem (r_DomainKeyword o));
    (nonempty (r_DomainRegex o), ToDestinationAddress, NewDomainRegexItem (r_DomainRegex o));
    failWhen (nonempty (r_Geosite o)) geositeMessage ToItems;
    failWhen (nonempty (r_SourceGeoIP o)) geoipMessage ToItems;
    failWhen (nonempty (r_GeoIP o)) geoipMessage ToItems;
    (nonempty (r_SourceIPCIDR o), ToSourceAddress,
      wrap_cause "source_ip_cidr" (NewIPCIDRItem true (r_SourceIPCIDR o)));
    plain (r_SourceIPIsPrivate o) ToSourceAddress (NewIPIsPrivateItem true);
    (nonempty (r_IPCIDR o), ToDestinationIPCIDR, wrap_cause "ipcidr" (NewIPCIDRItem false (r_IPCIDR o)));
    plain (r_IPIsPrivate o) ToDestinationIPCIDR (NewIPIsPrivateItem false) ].

(** The fields of [NewDefaultRule] from the ports on. *)
Definition ruleStepsRest (o : RawDefaultRule) : list step :=
  [ plain (nonempty (r_SourcePort o)) ToSourcePort (NewPortItem true (r_SourcePort o));
    (nonempty (r_SourcePortRange o), ToSourcePort,
      wrap_cause "source_port_range" (NewPortRangeItem true (r_SourcePortRange o)));
    plain (nonempty (r_Port o)) ToDestinationPort (NewPortItem false (r_Port o));
    (nonempty (r_PortRange o), ToDestinationPort,
      wrap_cause "port_range" (NewPortRangeItem false (r_PortRange o)));
    plain (nonempty (r_ProcessName o)) ToItems (NewProcessItem (r_ProcessName o));
    plain (nonempty (r_ProcessPath o)) ToItems (NewProcessPathItem (r_ProcessPath o));
    (nonempty (r_ProcessPathRegex o), ToItems,
      wrap_cause "process_path_regex" (NewProcessPathRegexItem (r_ProcessPathRegex o)));
    plain (nonempty (r_PackageName o)) ToItems (NewPackageNameItem (r_PackageName o));
    (nonempty (r_PackageNameRegex o), ToItems,
      wrap_cause "package_name_regex" (NewPackageNameRegexItem (r_PackageNameRegex o)));
    plain (nonempty (r_User o)) ToItems (NewUserItem (r_User o));
    plain (nonempty (r_UserID o)) ToItems (NewUserIDItem (r_UserID o));
    plain (negb (String.eqb (r_ClashMode o) "")) ToItems (NewClashModeItem (r_ClashMode o));
    plain (nonempty (r_NetworkType o)) ToItems (NewNetworkTypeItem (r_NetworkType o));
    plain (r_NetworkIsExpensive o) ToItems NewNetworkIsExpensiveItem;
    plain (r_NetworkIsConstrained o) ToItems NewNetworkIsConstrainedItem;
    plain (nonempty (r_WIFISSID o)) ToItems (NewWIFISSIDItem (r_WIFISSID o));
    plain (nonempty (r_WIFIBSSID o)) ToItems (NewWIFIBSSIDItem (r_WIFIBSSID o));
    plain (nonempty (r_InterfaceAddress o)) ToItems (NewInterfaceAddressItem (r_InterfaceAddress o));
    plain (nonempty (r_NetworkInterfaceAddress o)) ToItems
      (NewNetworkInterfaceAddressItem (r_NetworkInterfaceAddress o));
    plain (nonempty (r_DefaultInterfaceAddress o)) ToItems
      (NewDefaultInterfaceAddressItem (r_DefaultInterfaceAddress o));
    plain (nonempty (r_SourceMACAddress o)) ToItems (NewSourceMACAddressItem (r_SourceMACAddress o));
    plain (nonempty (r_SourceHostname o)) ToItems (NewSourceHostnameItem (r_SourceHostname o));
    plain (nonempty (r_PreferredBy o)) ToItems (NewPreferredByItem (r_PreferredBy o)) ].

Definition ruleSteps (o : RawDefaultRule) : list step := ruleStepsAddress o ++ ruleStepsRest o.

(** [NewRuleSetItem(router, tagList, matchSource, acceptEmpty)], before [Start]. *)
Definition NewRuleSetItem (tags : list string) (matchSource acceptEmpty : bool) : RuleSetItem Rule :=
  mkRuleSetItem tags [] matchSource acceptEmpty.

Definition addRuleSet (tags : list string) (deprecated matchSource acceptEmpty : bool)
    (d : abstractDefaultRule Rule) : result (abstractDefaultRule Rule) :=
  if nonempty tags then
    if deprecated then Err (ErrNew rulesetSourceMessage)
    else Ok (setRuleSetItem (NewRuleSetItem tags matchSource acceptEmpty) d)
  else Ok d.

Context (PlatformSupported : bool).

Definition NewDefaultRule (o : RawDefaultRule) (act : RuleActionOptions) : result (abstractDefaultRule Rule) :=
  action ← wrap_cause "action" (NewRuleAction PlatformSupported act);
  d ← addAll (ruleSteps o) (newAbstractRule (r_Invert o) action);
  addRuleSet (r_RuleSet o) (r_Deprecated_RulesetIPCIDRMatchSource o) (r_RuleSetIPCIDRMatchSource o) false d.

(** [switch Action { case "", route: if Outbound == "" && checkOutbound { error } }]. *)
Definition checkTarget (kind target : string) (check : bool) (msg : string) : result unit :=
  if (String.eqb kind "" || String.eqb kind "route") && String.eqb target "" && check
  then Err (ErrNew msg) else Ok tt.

Fixpoint NewRule (checkOutbound : bool) (o : RuleOptions) : result Rule :=
  match o with
  | mkRuleOptions type_ raw rawAction logical logicalAction =>
      if String.eqb type_ "" || String.eqb type_ "default" then
        _ ← checkValid (Ok (DefaultRule_IsValid raw rawAction));
        _ ← checkTarget (ra_Action rawAction) (rao_Outbound (ra_RouteOptions rawAction)) checkOutbound
              "missing outbound field";
        d ← NewDefaultRule raw rawAction;
        Ok (DefaultRule d)
      else if String.eqb type_ "logical" then
        _ ← checkValid (LogicalOptions_IsValid Rule_IsValid logical);
        _ ← checkTarget (ra_Action logicalAction) (rao_Outbound (ra_RouteOptions logicalAction)) checkOutbound
              "missing outbound field";
        action ← wrap_cause "action" (NewRuleAction PlatformSupported logicalAction);
        mode ← checkMode (lo_Mode logical);
        rules ← subRules (λ sub, _ ← validateNoNestedRuleActions true sub; NewRule false sub) 0 (lo_Rules logical);
        Ok (LogicalRule (mkLogicalRule rules mode (lo_Invert logical) action))
      else Err (errUnknownType type_)
  end.

(** ** DNS rules *)

(** [validateDNSRuleAction(action)]. *)
Definition validateDNSRuleAction (a : DNSRuleActionOptions) : result unit :=
  let kind := da_Action a in
  if String.eqb kind "reject" && String.eqb (rej_Method (da_RejectOptions a)) "reply"
  then Err (ErrNew "reject method `reply` is not supported for DNS rules")
  else
    let routeOptions :=
      if String.eqb kind "" || String.eqb kind "route" then dro_Abstract (da_RouteOptions a)
      else if String.eqb kind "evaluate" then deo_Abstract (da_EvaluateOptions a)
      else if String.eqb kind "route-options" then da_RouteOptionsOptions a
      else AbstractDNSRoute_zero in
    if do_RemoveClientSubnet routeOptions && bool_decide (is_Some (do_ClientSubnet routeOptions))
    then Err (ErrNew "`client_subnet` and `remove_client_subnet` are mutually exclusive")
    else if da_Race a then
      if negb (containsb kind [EmptyString; "route"; "respond"; "reject"; "predefined"]%string)
      then Err (ErrNew "`race` requires a final action")
      else if dro_Speculative (da_RouteOptions a)
      then Err (ErrNew "`race` and `speculative` cannot be combined on the same rule")
      else Ok tt
    else Ok tt.

(** The fields of [NewDefaultDNSRule] up to the ports. *)
Definition dnsRuleStepsAddress (o : RawDefaultDNSRule) : list step :=
  [ plain (nonempty (d_Inbound o)) ToItems (NewInboundRule (d_Inbound o));
    ipVersionStep (d_IPVersion o);
    plain (nonempty (d_QueryType o)) ToItems (NewQueryTypeItem (d_QueryType o));
    plain (nonempty (d_QueryClientSubnet o)) ToItems (NewQueryClientSubnetItem (d_QueryClientSubnet o));
    plain (d_QueryDNSSEC o) ToItems NewQueryDNSSECItem;
    plain (nonempty (d_Network o)) ToItems (NewNetworkItem (d_Network o));
    plain (nonempty (d_AuthUser o)) ToItems (NewAuthUserItem (d_AuthUser o));
    plain (nonempty (d_Protocol o)) ToItems (NewProtocolItem (d_Protocol o));
    (nonempty (d_Domain o) || nonempty (d_DomainSuffix o), ToDestinationAddress,
      NewDomainItem (d_Domain o) (d_DomainSuffix o));
    plain (nonempty (d_DomainKeyword o)) ToDestinationAddress (NewDomainKeywordItem (d_DomainKeyword o));
    (nonempty (d_DomainRegex o), ToDestinationAddress,
      wrap_cause "domain_regex" (NewDomainRegexItem (d_DomainRegex o)));
    failWhen (nonempty (d_Geosite o)) geositeMessage ToItems;
    failWhen (nonempty (d_SourceGeoIP o)) geoipMessage ToItems;
    failWhen (nonempty (d_GeoIP o)) geoipMessage ToItems;
    (nonempty (d_SourceIPCIDR o), ToSourceAddress,
      wrap_cause "source_ip_cidr" (NewIPCIDRItem true (d_SourceIPCIDR o)));
    (nonempty (d_IPCIDR o), ToDestinationIPCIDR, wrap_cause "ip_cidr" (NewIPCIDRItem false (d_IPCIDR o)));
    plain (d_SourceIPIsPrivate o) ToSourceAddress (NewIPIsPrivateItem true);
    plain (d_IPIsPrivate o) ToDestinationIPCIDR (NewIPIsPrivateItem false);
    plain (d_IPAcceptAny o) ToDestinationIPCIDR NewIPAcceptAnyItem ] ++
  match d_ResponseRcode o with
  | Some rcode => [plain true ToItems (NewDNSResponseRCodeItem rcode)]
  | None => []
  end ++
  [ plain (nonempty (d_ResponseAnswer o)) ToItems
      (NewDNSResponseRecordItem "response_answer" (d_ResponseAnswer o) selAnswer);
    plain (nonempty (d_ResponseNs o)) ToItems (NewDNSResponseRecordItem "response_ns" (d_ResponseNs o) selNs);
    plain (nonempty (d_ResponseExtra o)) ToItems
      (NewDNSResponseRecordItem "response_extra" (d_ResponseExtra o) selExtra) ].

(** The fields of [NewDefaultDNSRule] from the ports on. *)
Definition dnsRuleStepsRest (o : RawDefaultDNSRule) : list step :=
  [ plain (nonempty (d_SourcePort o)) ToSourcePort (NewPortItem true (d_SourcePort o));
    (nonempty (d_SourcePortRange o), ToSourcePort,
      wrap_cause "source_port_range" (NewPortRangeItem true (d_SourcePortRange o)));
    plain (nonempty (d_Port o)) ToDestinationPort (NewPortItem false (d_Port o));
    (nonempty (d_PortRange o), ToDestinationPort,
      wrap_cause "port_range" (NewPortRangeItem false (d_PortRange o)));
    plain (nonempty (d_ProcessName o)) ToItems (NewProcessItem (d_ProcessName o));
    plain (nonempty (d_ProcessPath o)) ToItems (NewProcessPathItem (d_ProcessPath o));
    (nonempty (d_ProcessPathRegex o), ToItems,
      wrap_cause "process_path_regex" (NewProcessPathRegexItem (d_ProcessPathRegex o)));
    plain (nonempty (d_PackageName o)) ToItems (NewPackageNameItem (d_PackageName o));
    (nonempty (d_PackageNameRegex o), ToItems,
      wrap_cause "package_name_regex" (NewPackageNameRegexItem (d_PackageNameRegex o)));
    plain (nonempty (d_User o)) ToItems (NewUserItem (d_User o));
    plain (nonempty (d_UserID o)) ToItems (NewUserIDItem (d_UserID o));
    plain (nonempty (d_Outbound o)) ToItems (NewOutboundRule (d_Outbound o));
    plain (negb (String.eqb (d_ClashMode o) "")) ToItems (NewClashModeItem (d_ClashMode o));
    plain (nonempty (d_NetworkType o)) ToItems (NewNetworkTypeItem (d_NetworkType o));
    plain (d_NetworkIsExpensive o) ToItems NewNetworkIsExpensiveItem;
    plain (d_NetworkIsConstrained o) ToItems NewNetworkIsConstrainedItem;
    plain (nonempty (d_WIFISSID o)) ToItems (NewWIFISSIDItem (d_WIFISSID o));
    plain (nonempty (d_WIFIBSSID o)) ToItems (NewWIFIBSSIDItem (d_WIFIBSSID o));
    plain (nonempty (d_InterfaceAddress o)) ToItems (NewInterfaceAddressItem (d_InterfaceAddress o));
    plain (nonempty (d_NetworkInterfaceAddress o)) ToItems
      (NewNetworkInterfaceAddressItem (d_NetworkInterfaceAddress o));
    plain (nonempty (d_DefaultInterfaceAddress o)) ToItems
      (NewDefaultInterfaceAddressItem (d_DefaultInterfaceAddress o));
    plain (nonempty (d_SourceMACAddress o)) ToItems (NewSourceMACAddressItem (d_SourceMACAddress o));
    plain (nonempty (d_SourceHostname o)) ToItems (NewSourceHostnameItem (d_SourceHostname o));
    plain (nonempty (d_PreferredBy o)) ToItems (NewPreferredByDNSItem (d_PreferredBy o)) ].

Definition dnsRuleSteps (o : RawDefaultDNSRule) : list step := dnsRuleStepsAddress o ++ dnsRuleStepsRest o.

(** [deprecated.OptionRuleSetIPCIDRAcceptEmpty.MessageWithLink()]. *)
Definition acceptEmptyMessage : string :=
  "Legacy `rule_set_ip_cidr_accept_empty` DNS rule item is deprecated in sing-box 1.14.0 and will be removed in sing-box 1.16.0, checkout documentation for migration: https://sing-box.sagernet.org/migration/#migrate-address-filter-fields-to-response-matching".

Definition NewDefaultDNSRule (o : RawDefaultDNSRule) (act : DNSRuleActionOptions) (legacyDNSMode : bool)
    : result Rule :=
  action ← NewDNSRuleAction act;
  d ← addAll (dnsRuleSteps o) (newAbstractRule (d_Invert o) action);
  _ ← (if d_RuleSetIPCIDRAcceptEmpty o && negb legacyDNSMode then Err (ErrNew acceptEmptyMessage) else Ok tt);
  d ← addRuleSet (d_RuleSet o) (d_Deprecated_RulesetIPCIDRMatchSource o) (d_RuleSetIPCIDRMatchSource o)
        (d_RuleSetIPCIDRAcceptEmpty o) d;
  Ok (DefaultDNSRule d (MatchResponse_IsEnabled (d_MatchResponse o))
    (MatchResponse_ResponseTag (d_MatchResponse o)) (da_Race act)).

(** The checks [NewDNSRule] makes on an action before building the rule. *)
Definition checkDNSAction (checkServer : bool) (a : DNSRuleActionOptions) : result unit :=
  if negb checkServer && String.eqb (da_Action a) "evaluate"
  then Err (ErrNew (String.append (da_Action a) " is only allowed on top-level DNS rules"))
  else validateDNSRuleAction a.

Definition checkDNSServer (checkServer : bool) (a : DNSRuleActionOptions) : result unit :=
  let missing := Err (ErrNew "missing server field") in
  if String.eqb (da_Action a) "" || String.eqb (da_Action a) "route" then
    if String.eqb (dro_Server (da_RouteOptions a)) "" && checkServer then missing else Ok tt
  else if String.eqb (da_Action a) "evaluate" then
    if String.eqb (deo_Server (da_EvaluateOptions a)) "" && checkServer then missing else Ok tt
  else Ok tt.

(** The end of [NewLogicalDNSRule]: the responses the sub-rules match. *)
Definition finishLogicalDNSRule (rules : list Rule) (mode : string) (invert race : bool)
    (action : option RuleAction) : result Rule :=
  let tags := common_Uniq (rules ≫= MatchResponseTags) in
  let anonymous := existsb MatchResponseAnonymous rules in
  if race && negb (nonempty tags) && negb anonymous
  then Err (ErrNew "`race` requires `match_response` in sub-rules")
  else Ok (LogicalDNSRule (mkLogicalRule rules mode invert action) tags anonymous race).

Fixpoint NewDNSRule (checkServer legacyDNSMode : bool) (o : DNSRuleOptions) : result Rule :=
  match o with
  | mkDNSRuleOptions type_ raw rawAction logical logicalAction =>
      if String.eqb type_ "" || String.eqb type_ "default" then
        _ ← checkValid (Ok (DefaultDNSRule_IsValid raw rawAction));
        _ ← checkDNSAction checkServer rawAction;
        _ ← (if da_Race rawAction && negb (MatchResponse_IsEnabled (d_MatchResponse raw))
             then Err (ErrNew "`race` requires `match_response`") else Ok tt);
        _ ← checkDNSServer checkServer rawAction;
        NewDefaultDNSRule raw rawAction legacyDNSMode
      else if String.eqb type_ "logical" then
        _ ← checkValid (LogicalOptions_IsValid DNSRule_IsValid logical);
        _ ← checkDNSAction checkServer logicalAction;
        _ ← checkDNSServer checkServer logicalAction;
        action ← NewDNSRuleAction logicalAction;
        mode ← checkMode (lo_Mode logical);
        rules ← subRules (λ sub, _ ← validateNoNestedDNSRuleActions true sub;
                                 NewDNSRule false legacyDNSMode sub) 0 (lo_Rules logical);
        finishLogicalDNSRule rules mode (lo_Invert logical) (da_Race logicalAction) action
      else Err (errUnknownType type_)
  end.
End build.
