(* ===== verification/RuleBuildTheorems.v ===== *)
(** What the rule constructors build: the items of a rule are in the groups the
    documentation gives them, construction fails exactly on malformed fields,
    and actions appear only on top-level rules. *)

From S2P Require Import Prelude GoBytes GoStrings Netip Metadata RuleItems RuleAction RuleMatch.
From S2P Require Import RuleSemantics RuleRefine Concrete RuleTheorems Options RuleBuild.

#[export] Instance slot_eq_dec : EqDecision slot.
Proof. solve_decision. Defined.

Section addAll.
Context {EX : External}.

(** The items the set fields make, with the group each goes to. *)
Fixpoint made (steps : list step) : result (list (slot * RuleItem)) :=
  match steps with
  | [] => Ok []
  | (cond, s, r) :: steps =>
      if cond then i ← r; l ← made steps; Ok ((s, i) :: l) else made steps
  end.

Definition appendAll (l : list (slot * RuleItem)) (d : abstractDefaultRule Rule) : abstractDefaultRule Rule :=
  foldl (λ d '(s, i), appendItem s i d) d l.

Lemma addAll_made steps d : addAll steps d = (λ l, appendAll l d) <$> made steps.
Proof.
  revert d; induction steps as [|[[c s] r] steps IH]; intros d; [done|]. cbn.
  destruct c; cbn; [|apply IH]. destruct r as [i|err|p]; cbn; [|done..].
  rewrite IH. by destruct (made steps).
Qed.

(** The items that went to [s]. *)
Definition pick (s : slot) (l : list (slot * RuleItem)) : list RuleItem :=
  snd <$> filter (λ x, x.1 = s) l.

(** The group of a rule a slot names. *)
Definition slot_items (s : slot) (d : abstractDefaultRule Rule) : list RuleItem :=
  match s with
  | ToItems => items d
  | ToSourceAddress => sourceAddressItems d
  | ToSourcePort => sourcePortItems d
  | ToDestinationAddress => destinationAddressItems d
  | ToDestinationIPCIDR => destinationIPCIDRItems d
  | ToDestinationPort => destinationPortItems d
  end.

Lemma pick_cons s x l : pick s (x :: l) = (if decide (x.1 = s) then [x.2] else []) ++ pick s l.
Proof. unfold pick. rewrite filter_cons. by case_decide. Qed.

Lemma slot_items_append s s' i d :
  slot_items s (appendItem s' i d) = slot_items s d ++ (if decide (s' = s) then [i] else []).
Proof. destruct d, s, s'; cbn; by rewrite ?app_nil_r. Qed.

Lemma slot_items_appendAll s l d : slot_items s (appendAll l d) = slot_items s d ++ pick s l.
Proof.
  revert d; induction l as [|[s' i] l IH]; intros d; [by cbn; rewrite app_nil_r|].
  change (appendAll ((s', i) :: l) d) with (appendAll l (appendItem s' i d)).
  rewrite IH, slot_items_append, pick_cons. cbn. by rewrite <- (assoc_L (++)).
Qed.

Lemma appendAll_frame l d :
  allItems (appendAll l d) = allItems d ++ (ItemRef ∘ snd <$> l) ∧
  ruleSetItem (appendAll l d) = ruleSetItem d ∧ invert (appendAll l d) = invert d ∧
  action (appendAll l d) = action d.
Proof.
  revert d; induction l as [|[s i] l IH]; intros d; cbn; [by rewrite app_nil_r|].
  destruct (IH (appendItem s i d)) as (H1 & H2 & H3 & H4). unfold appendAll in *. rewrite H1, H2, H3, H4.
  destruct d, s; cbn; by rewrite <- (assoc_L (++)).
Qed.

(** A condition on the steps' fields, for the existence and truth of an item. *)
Definition step_in (s : slot) (p : RuleItem → bool) (x : step) : bool :=
  let '(c, s', r) := x in c && bool_decide (s' = s) && match r with Ok i => p i | _ => false end.

Lemma pick_existsb s p steps l :
  made steps = Ok l → existsb p (pick s l) = existsb (step_in s p) steps.
Proof.
  revert l; induction steps as [|[[c s'] r] steps IH]; intros l; cbn; [by intros [= <-]|].
  destruct c; cbn; [|by apply IH].
  destruct r as [i|err|q]; cbn; [|done..]. destruct (made steps) as [k|err|q]; cbn; [|done..].
  intros [= <-]. rewrite pick_cons, existsb_app, (IH k) by done. cbn.
  by case_decide; case_bool_decide; cbn; rewrite ?orb_false_r.
Qed.

Lemma pick_forallb s p steps l :
  made steps = Ok l → forallb p (pick s l) = negb (existsb (step_in s (negb ∘ p)) steps).
Proof.
  intros H. rewrite <- (pick_existsb s (negb ∘ p) steps l H).
  induction (pick s l) as [|i k IH]; [done|]. cbn. rewrite IH, negb_orb. unfold compose. by rewrite negb_involutive.
Qed.

Lemma pick_nonempty s steps l :
  made steps = Ok l → nonempty (pick s l) = existsb (step_in s (λ _, true)) steps.
Proof. intros H. rewrite <- (pick_existsb s _ steps l H). by destruct (pick s l). Qed.

Lemma made_is_ok steps :
  is_ok (made steps) = true ↔ Forall (λ x, x.1.1 = true → is_ok x.2 = true) steps.
Proof.
  induction steps as [|[[c s] r] steps IH]; cbn; [naive_solver|]. rewrite Forall_cons, <- IH. cbn.
  destruct c; [|naive_solver]. destruct r; cbn; [|naive_solver..].
  by destruct (made steps); cbn; naive_solver.
Qed.
End addAll.

(** ** Construction fails exactly on malformed fields *)

Section errors.
Context {EX : External}.

Definition domains_ok (domains suffixes : list string) : Prop :=
  EmptyString ∉ domains ∧ EmptyString ∉ suffixes.

Definition cidrs_ok (l : list string) : Prop :=
  ∃ entries, parseCIDRs 0 l = Ok entries ∧ is_ok (IPSetBuilder_IPSet entries) = true.

Definition regexes_ok (l : list string) : Prop := Forall (λ s, is_ok (regexp_Compile s) = true) l.
Definition ranges_ok (l : list string) : Prop := Forall (λ s, is_ok (parsePortRange s) = true) l.

Lemma NewDomainItem_ok d s : is_ok (NewDomainItem d s) = true ↔ domains_ok d s.
Proof.
  unfold NewDomainItem, domains_ok, containsb. repeat case_bool_decide; cbn; naive_solver.
Qed.

Lemma wrap_cause_is_ok {A} msg (r : result A) : is_ok (wrap_cause msg r) = is_ok r.
Proof. by destruct r. Qed.

Lemma compileAll_ok i l : is_ok (compileAll i l) = true ↔ regexes_ok l.
Proof.
  unfold regexes_ok. revert i; induction l as [|s l IH]; intros i; cbn; [naive_solver|].
  rewrite Forall_cons, <- (IH (i + 1)). destruct (regexp_Compile s); cbn; [|naive_solver..].
  destruct (compileAll (i + 1) l); cbn; naive_solver.
Qed.

Lemma NewDomainRegexItem_ok l : is_ok (NewDomainRegexItem l) = true ↔ regexes_ok l.
Proof. unfold NewDomainRegexItem. rewrite <- (compileAll_ok 0). by destruct (compileAll 0 l). Qed.
Lemma NewProcessPathRegexItem_ok l : is_ok (NewProcessPathRegexItem l) = true ↔ regexes_ok l.
Proof. unfold NewProcessPathRegexItem. rewrite <- (compileAll_ok 0). by destruct (compileAll 0 l). Qed.
Lemma NewPackageNameRegexItem_ok l : is_ok (NewPackageNameRegexItem l) = true ↔ regexes_ok l.
Proof. unfold NewPackageNameRegexItem. rewrite <- (compileAll_ok 0). by destruct (compileAll 0 l). Qed.

Lemma NewIPCIDRItem_ok src l : is_ok (NewIPCIDRItem src l) = true ↔ cidrs_ok l.
Proof.
  unfold NewIPCIDRItem, cidrs_ok. destruct (parseCIDRs 0 l) as [es|e|p]; cbn; [|naive_solver..].
  destruct (IPSetBuilder_IPSet es) eqn:H; cbn; split; [eexists; by rewrite H|done|done| |done|];
    intros (? & [= <-] & H'); by rewrite H in H'.
Qed.

Lemma NewPortRangeItem_ok src l : is_ok (NewPortRangeItem src l) = true ↔ ranges_ok l.
Proof.
  unfold NewPortRangeItem, ranges_ok. rewrite <- (forM_is_ok parsePortRange). by destruct (forM _ l).
Qed.
End errors.

Section headless.
Context {EX : External}.

Lemma rawStep_ok {A} c s (raw : option A) f :
  Forall (λ x : step, x.1.1 = true → is_ok x.2 = true) (rawStep c s raw f) ↔ True.
Proof. split; [done|intros _]. destruct raw; repeat constructor. Qed.

Lemma network_ok (b : bool) o :
  Forall (λ x : step, x.1.1 = true → is_ok x.2 = true) (if b then headlessNetworkSteps o else []) ↔ True.
Proof. split; [done|intros _]. destruct b; repeat constructor. Qed.

Lemma ok_when_nonempty {A} (l : list A) (P : Prop) : (l = [] → P) → (nonempty l = true → P) ↔ P.
Proof. destruct l; cbn; naive_solver. Qed.

Lemma domains_ok_when d s :
  (nonempty d || nonempty s = true → domains_ok d s) ↔ domains_ok d s.
Proof.
  split; [|done]. intros H. destruct d, s; try by apply H. split; apply not_elem_of_nil.
Qed.

Lemma is_ok_fmap {A B} (f : A → B) r : is_ok (f <$> r) = is_ok r.
Proof. by destruct r. Qed.

Lemma headlessSteps_ok nm o :
  is_ok (made (headlessSteps nm o)) = true ↔
  domains_ok (h_Domain o) (h_DomainSuffix o) ∧ regexes_ok (h_DomainRegex o) ∧
  (h_SourceIPCIDR o ≠ [] → cidrs_ok (h_SourceIPCIDR o)) ∧ (h_IPCIDR o ≠ [] → cidrs_ok (h_IPCIDR o)) ∧
  ranges_ok (h_SourcePortRange o) ∧ ranges_ok (h_PortRange o) ∧
  regexes_ok (h_ProcessPathRegex o) ∧ regexes_ok (h_PackageNameRegex o).
Proof.
  rewrite made_is_ok. unfold headlessSteps. rewrite !Forall_app, !rawStep_ok, network_ok, !Forall_cons.
  cbn [fst snd plain is_ok].
  rewrite NewDomainItem_ok, domains_ok_when, !wrap_cause_is_ok, NewDomainRegexItem_ok, !NewIPCIDRItem_ok,
    !NewPortRangeItem_ok, NewProcessPathRegexItem_ok, NewPackageNameRegexItem_ok.
  rewrite !(ok_when_nonempty _ (regexes_ok _)) by (intros ->; constructor).
  rewrite !(ok_when_nonempty _ (ranges_ok _)) by (intros ->; constructor).
  rewrite !nonempty_true, !Forall_nil. tauto.
Qed.
End headless.

(** C7: building a headless rule fails exactly when a field is malformed: an empty
    domain or suffix, an address that does not parse, a port range that does not
    parse, or a regular expression that does not compile. *)
Theorem NewDefaultHeadlessRule_ok_iff {EX : External} (networkManager : bool) (o : HeadlessOptions) :
  is_ok (NewDefaultHeadlessRule networkManager o) = true ↔
  domains_ok (h_Domain o) (h_DomainSuffix o) ∧ regexes_ok (h_DomainRegex o) ∧
  (h_SourceIPCIDR o ≠ [] → cidrs_ok (h_SourceIPCIDR o)) ∧ (h_IPCIDR o ≠ [] → cidrs_ok (h_IPCIDR o)) ∧
  ranges_ok (h_SourcePortRange o) ∧ ranges_ok (h_PortRange o) ∧
  regexes_ok (h_ProcessPathRegex o) ∧ regexes_ok (h_PackageNameRegex o).
Proof. unfold NewDefaultHeadlessRule. rewrite addAll_made, is_ok_fmap. apply headlessSteps_ok. Qed.

(** ** The documented meaning of a headless rule *)

Section formula.
Context {EX : External} (rt : Runtime) {RL : RuntimeLaws rt}.

(** A field: whether it is set, and its condition. *)
Definition field : Type := bool * result RuleItem.
Definition condition (m : InboundContext) (r : result RuleItem) : bool :=
  match r with Ok i => RuleItem_Match rt i m | _ => false end.

(** [a || b || ...] over the fields that are set; no constraint when none is. *)
Definition any_field (m : InboundContext) (l : list field) : bool :=
  negb (existsb fst l) || existsb (λ '(c, r), c && condition m r) l.
(** [a && b && ...] over the fields that are set. *)
Definition all_fields (m : InboundContext) (l : list field) : bool :=
  forallb (λ '(c, r), negb c || condition m r) l.

Definition raw_field {A} (c : bool) (raw : option A) (f : A → RuleItem) : list field :=
  match raw with Some x => [(negb c, Ok (f x))] | None => [] end.

(** The fields by group, as in docs/configuration/rule-set/headless-rule.md. *)
Definition destination_fields (o : HeadlessOptions) : list field :=
  let domains := nonempty (h_Domain o) || nonempty (h_DomainSuffix o) in
  [(domains, NewDomainItem (h_Domain o) (h_DomainSuffix o))] ++
  raw_field domains (h_DomainMatcher o) NewRawDomainItem ++
  [(nonempty (h_DomainKeyword o), Ok (DomainKeywordItem (h_DomainKeyword o)));
   (nonempty (h_DomainRegex o), NewDomainRegexItem (h_DomainRegex o))] ++
  [(nonempty (h_AdGuardDomain o), Ok (NewAdGuardDomainItem (h_AdGuardDomain o)))] ++
  raw_field (nonempty (h_AdGuardDomain o)) (h_AdGuardDomainMatcher o) NewRawAdGuardDomainItem ++
  [(nonempty (h_IPCIDR o), NewIPCIDRItem false (h_IPCIDR o))] ++
  raw_field (nonempty (h_IPCIDR o)) (h_IPSet o) (NewRawIPCIDRItem false).

Definition source_fields (o : HeadlessOptions) : list field :=
  (nonempty (h_SourceIPCIDR o), NewIPCIDRItem true (h_SourceIPCIDR o)) ::
  raw_field (nonempty (h_SourceIPCIDR o)) (h_SourceIPSet o) (NewRawIPCIDRItem true).

Definition source_port_fields (o : HeadlessOptions) : list field :=
  [(nonempty (h_SourcePort o), Ok (PortItem (newKeySet (h_SourcePort o)) true));
   (nonempty (h_SourcePortRange o), NewPortRangeItem true (h_SourcePortRange o))].

Definition port_fields (o : HeadlessOptions) : list field :=
  [(nonempty (h_Port o), Ok (PortItem (newKeySet (h_Port o)) false));
   (nonempty (h_PortRange o), NewPortRangeItem false (h_PortRange o))].

Definition network_fields (o : HeadlessOptions) : list field :=
  [(nonempty (h_NetworkType o), Ok (NetworkTypeItem (h_NetworkType o)));
   (h_NetworkIsExpensive o, Ok NetworkIsExpensiveItem);
   (h_NetworkIsConstrained o, Ok NetworkIsConstrainedItem);
   (nonempty (h_WIFISSID o), Ok (WIFISSIDItem (newKeySet (h_WIFISSID o))));
   (nonempty (h_WIFIBSSID o), Ok (WIFIBSSIDItem (newKeySet (h_WIFIBSSID o))));
   (nonempty (h_NetworkInterfaceAddress o), Ok (NewNetworkInterfaceAddressItem (h_NetworkInterfaceAddress o)));
   (nonempty (h_DefaultInterfaceAddress o), Ok (DefaultInterfaceAddressItem (h_DefaultInterfaceAddress o)))].

Definition other_fields (networkManager : bool) (o : HeadlessOptions) : list field :=
  [(nonempty (h_QueryType o), Ok (QueryTypeItem (newKeySet (h_QueryType o))));
   (nonempty (h_Network o), Ok (NetworkItem (newKeySet (h_Network o))));
   (nonempty (h_ProcessName o), Ok (ProcessItem (newKeySet (h_ProcessName o))));
   (nonempty (h_ProcessPath o), Ok (ProcessPathItem (newKeySet (h_ProcessPath o))));
   (nonempty (h_ProcessPathRegex o), NewProcessPathRegexItem (h_ProcessPathRegex o));
   (nonempty (h_PackageName o), Ok (PackageNameItem (newKeySet (h_PackageName o))));
   (nonempty (h_PackageNameRegex o), NewPackageNameRegexItem (h_PackageNameRegex o))] ++
  (if networkManager then network_fields o else []).

Definition headless_formula (networkManager : bool) (o : HeadlessOptions) (m : InboundContext) : bool :=
  xorb (h_Invert o)
    (any_field m (destination_fields o) && any_field m (port_fields o) && any_field m (source_fields o) &&
     any_field m (source_port_fields o) && all_fields m (other_fields networkManager o)).

(** *** Groups of a built rule *)

(** The conditions of the steps that fill [s]. *)
Definition slot_any (s : slot) (m : InboundContext) (steps : list step) : bool :=
  existsb (step_in s (item_holds rt (env_of m) m)) steps.
Definition slot_set (s : slot) (steps : list step) : bool := existsb (step_in s (λ _, true)) steps.

Lemma built_inner steps inv d m :
  addAll steps (newAbstractRule inv None) = Ok d → matchSource m = false →
  inner_holds rt (holds rt) mergeableRule (env_of m) d m =
  negb (existsb (step_in ToItems (negb ∘ item_holds rt (env_of m) m)) steps) &&
  (negb (slot_set ToSourceAddress steps) || slot_any ToSourceAddress m steps) &&
  (negb (slot_set ToSourcePort steps) || slot_any ToSourcePort m steps) &&
  (negb (slot_set ToDestinationAddress steps || slot_set ToDestinationIPCIDR steps) ||
    (slot_any ToDestinationAddress m steps || slot_any ToDestinationIPCIDR m steps)) &&
  (negb (slot_set ToDestinationPort steps) || slot_any ToDestinationPort m steps).
Proof.
  rewrite addAll_made. intros (l & Hl & <-)%fmap_Ok Hsrc.
  destruct (appendAll_frame l (newAbstractRule inv None)) as (_ & Hrs & _).
  assert (Hs : ∀ s, slot_items s (appendAll l (newAbstractRule inv None)) = pick s l)
    by (intros s; rewrite slot_items_appendAll; by destruct s).
  unfold inner_holds. rewrite Hrs. cbn [newAbstractRule ruleSetItem]. unfold all_groups, requires, satisfies, ip_source, ip_dest.
  pose proof (Hs ToItems) as H1. pose proof (Hs ToSourceAddress) as H2. pose proof (Hs ToSourcePort) as H3.
  pose proof (Hs ToDestinationAddress) as H4. pose proof (Hs ToDestinationIPCIDR) as H5.
  pose proof (Hs ToDestinationPort) as H6. cbn [slot_items] in *.
  rewrite H1, H2, H3, H4, H5, H6. unfold env_of. cbn [e_source]. rewrite Hsrc. cbn [andb negb].
  rewrite !(pick_nonempty _ steps l Hl), !(pick_existsb _ _ steps l Hl), (pick_forallb _ _ steps l Hl).
  rewrite !orb_false_r. unfold slot_set, slot_any, env_of. rewrite Hsrc. by rewrite !andb_assoc.
Qed.

(** The fields that fill a group. *)
Definition slot_fields (s : slot) (steps : list step) : list field :=
  omap (λ x : step, let '(c, s', r) := x in if decide (s' = s) then Some (c, r) else None) steps.

Lemma slot_fields_cons s c s' r steps :
  slot_fields s ((c, s', r) :: steps) = (if decide (s' = s) then [(c, r)] else []) ++ slot_fields s steps.
Proof. unfold slot_fields. cbn. by case_decide. Qed.

Lemma slot_set_fields s steps l : made steps = Ok l → slot_set s steps = existsb fst (slot_fields s steps).
Proof.
  unfold slot_set. revert l; induction steps as [|[[c s'] r] steps IH]; intros l; [done|].
  cbn [made]. rewrite slot_fields_cons, existsb_app. cbn [existsb step_in]. intros H.
  assert (Hr : c = false ∨ is_ok r = true) by (destruct c; [right; by destruct r|by left]).
  assert (∃ l', made steps = Ok l') as [l' Hl'].
  { destruct c; [|by exists l]. invert_ok. eauto. }
  rewrite (IH l' Hl'). f_equal. case_bool_decide; case_decide; try done; cbn; [|by rewrite andb_false_r].
  destruct Hr as [->|Hr]; [done|]. destruct r; [by rewrite !andb_true_r, orb_false_r|done..].
Qed.

Lemma slot_any_fields s m steps : slot_any s m steps = existsb (λ '(c, r), c && condition m r) (slot_fields s steps).
Proof.
  unfold slot_any. induction steps as [|[[c s'] r] steps IH]; [done|].
  rewrite slot_fields_cons, existsb_app. cbn [existsb step_in]. rewrite IH. f_equal.
  case_bool_decide; case_decide; try done; cbn; [|by rewrite andb_false_r].
  rewrite andb_true_r, orb_false_r. destruct r; cbn; [|done..]. by rewrite (RuleItem_Match_env rt).
Qed.

Lemma slot_all_fields m steps l : made steps = Ok l →
  negb (existsb (step_in ToItems (negb ∘ item_holds rt (env_of m) m)) steps) = all_fields m (slot_fields ToItems steps).
Proof.
  unfold all_fields. revert l; induction steps as [|[[c s'] r] steps IH]; intros l; [done|].
  cbn [made]. rewrite slot_fields_cons, forallb_app. cbn [existsb step_in]. intros H. rewrite negb_orb.
  assert (Hr : c = false ∨ is_ok r = true) by (destruct c; [right; by destruct r|by left]).
  assert (∃ l', made steps = Ok l') as [l' Hl'].
  { destruct c; [|by exists l]. invert_ok. eauto. }
  rewrite (IH l' Hl'). f_equal. case_bool_decide; case_decide; try done; cbn; [|by rewrite andb_false_r].
  destruct Hr as [->|Hr]; [done|]. destruct r; [|done..]. cbn. rewrite (RuleItem_Match_env rt).
  unfold compose. destruct c, (item_holds _ _ _ _); done.
Qed.

Lemma built_fields steps inv d m :
  addAll steps (newAbstractRule inv None) = Ok d → matchSource m = false →
  inner_holds rt (holds rt) mergeableRule (env_of m) d m =
  all_fields m (slot_fields ToItems steps) && any_field m (slot_fields ToSourceAddress steps) &&
  any_field m (slot_fields ToSourcePort steps) &&
  any_field m (slot_fields ToDestinationAddress steps ++ slot_fields ToDestinationIPCIDR steps) &&
  any_field m (slot_fields ToDestinationPort steps).
Proof.
  intros Hd Hsrc. rewrite (built_inner steps inv d m Hd Hsrc). rewrite addAll_made in Hd.
  apply fmap_Ok in Hd as (l & Hl & _). unfold any_field.
  by rewrite (slot_all_fields m steps l Hl), !(slot_set_fields _ steps l Hl), !slot_any_fields,
    !existsb_app.
Qed.

Lemma condition_wrap m msg r : condition m (wrap_cause msg r) = condition m r.
Proof. by destruct r. Qed.

Lemma slot_fields_app s l k : slot_fields s (l ++ k) = slot_fields s l ++ slot_fields s k.
Proof. apply omap_app. Qed.

Lemma slot_fields_raw {A} s c s' (raw : option A) f :
  slot_fields s (rawStep c s' raw f) = if decide (s' = s) then raw_field c raw f else [].
Proof. destruct raw; [|by case_decide]. unfold rawStep, plain. rewrite slot_fields_cons. by case_decide. Qed.

Lemma slot_fields_if s (b : bool) l : slot_fields s (if b then l else []) = if b then slot_fields s l else [].
Proof. by destruct b. Qed.

(** Fields with the same presence and the same condition. *)
Definition same_field (m : InboundContext) (f g : field) : Prop :=
  f.1 = g.1 ∧ condition m f.2 = condition m g.2.

Lemma same_fields_refl m l : Forall2 (same_field m) l l.
Proof. induction l; constructor; [split|]; done. Qed.

Lemma any_field_same m l k : Forall2 (same_field m) l k → any_field m l = any_field m k.
Proof.
  intros H. unfold any_field. assert (existsb fst l = existsb fst k ∧
    existsb (λ '(c, r), c && condition m r) l = existsb (λ '(c, r), c && condition m r) k) as [-> ->]; [|done].
  induction H as [|[c r] [c' r'] l k [Hc Hr] _ [IH1 IH2]]; [done|]. cbn in *. by rewrite Hc, Hr, IH1, IH2.
Qed.

Lemma all_fields_same m l k : Forall2 (same_field m) l k → all_fields m l = all_fields m k.
Proof.
  intros H. unfold all_fields. induction H as [|[c r] [c' r'] l k [Hc Hr] _ IH]; [done|].
  cbn in *. by rewrite Hc, Hr, IH.
Qed.

(** Computes the fields of one slot and compares them with the expected ones. *)
Local Ltac compute_fields :=
  unfold headlessSteps, plain; rewrite !slot_fields_app, !slot_fields_raw, ?slot_fields_if;
  unfold headlessNetworkSteps, plain; rewrite ?slot_fields_cons;
  repeat first [rewrite decide_True by done | rewrite decide_False by done];
  cbn [app slot_fields omap list_omap]; rewrite <- ?app_assoc; cbn [app]; rewrite ?app_nil_r.

Local Ltac solve_fields :=
  compute_fields;
  repeat first
    [ apply Forall2_nil_2
    | apply Forall2_app; [apply same_fields_refl|]
    | apply Forall2_cons_2; [split; [done|try apply condition_wrap; done]|]
    | apply same_fields_refl ].

(** The fields that make destination address items. *)
Lemma headless_ip_fields nm o :
  slot_fields ToDestinationIPCIDR (headlessSteps nm o) =
  (nonempty (h_IPCIDR o), wrap_cause "ipcidr" (NewIPCIDRItem false (h_IPCIDR o))) ::
  raw_field (nonempty (h_IPCIDR o)) (h_IPSet o) (NewRawIPCIDRItem false).
Proof. destruct nm; compute_fields; done. Qed.

Lemma headless_items m nm o :
  Forall2 (same_field m) (slot_fields ToItems (headlessSteps nm o)) (other_fields nm o).
Proof. unfold other_fields. destruct nm; solve_fields. Qed.

Lemma headless_source m nm o :
  Forall2 (same_field m) (slot_fields ToSourceAddress (headlessSteps nm o)) (source_fields o).
Proof. unfold source_fields. destruct nm; solve_fields. Qed.

Lemma headless_source_port m nm o :
  Forall2 (same_field m) (slot_fields ToSourcePort (headlessSteps nm o)) (source_port_fields o).
Proof. unfold source_port_fields. destruct nm; solve_fields. Qed.

Lemma headless_port m nm o :
  Forall2 (same_field m) (slot_fields ToDestinationPort (headlessSteps nm o)) (port_fields o).
Proof. unfold port_fields. destruct nm; solve_fields. Qed.

Lemma headless_destination m nm o :
  Forall2 (same_field m) (slot_fields ToDestinationAddress (headlessSteps nm o) ++
    slot_fields ToDestinationIPCIDR (headlessSteps nm o)) (destination_fields o).
Proof. unfold destination_fields. destruct nm; solve_fields. Qed.
End formula.

(** C8: a headless rule built from options matches exactly as documented:
    [(domain || domain_suffix || ... || ip_cidr) && (port || port_range) &&
    (source_ip_cidr) && (source_port || source_port_range) && other fields],
    negated under [invert]; a rule without items matches everything. *)
Theorem headless_rule_meaning {EX : External} (rt : Runtime) (RL : RuntimeLaws rt) (networkManager : bool)
    (o : HeadlessOptions) (d : abstractDefaultRule Rule) (m : InboundContext)
    (Hbuild : NewDefaultHeadlessRule networkManager o = Ok d)
    (Hsource : matchSource m = false) (Hmode : ignoreDst m = false) (Hreset : deferred m = 0) :
  fst (Match rt (DefaultHeadlessRule d) m) =
  negb (nonempty (allItems d)) || headless_formula rt networkManager o m.
Proof.
  destruct (Match_holds rt (DefaultHeadlessRule d) m Hmode Hreset) as (m' & -> & _).
  cbn. unfold default_holds, headless_formula. f_equal.
  rewrite (built_fields rt _ (h_Invert o) d m Hbuild Hsource).
  rewrite (all_fields_same rt m _ _ (headless_items rt m networkManager o)),
    (any_field_same rt m _ _ (headless_source rt m networkManager o)),
    (any_field_same rt m _ _ (headless_source_port rt m networkManager o)),
    (any_field_same rt m _ _ (headless_port rt m networkManager o)),
    (any_field_same rt m _ _ (headless_destination rt m networkManager o)).
  unfold NewDefaultHeadlessRule in Hbuild. rewrite addAll_made in Hbuild.
  apply fmap_Ok in Hbuild as (l & _ & <-).
  destruct (appendAll_frame l (newAbstractRule (h_Invert o) None)) as (_ & _ & -> & _). cbn [newAbstractRule invert].
  f_equal. destruct (any_field rt m (destination_fields o)), (any_field rt m (port_fields o)),
    (any_field rt m (source_fields o)), (any_field rt m (source_port_fields o)),
    (all_fields rt m (other_fields networkManager o)); done.
Qed.

(** A headless rule: domain example.org or address 10.0.0.0/8, port 443. *)
Definition demo_options : HeadlessOptions :=
  mkHeadlessOptions _ [] ["tcp"]%string ["example.org"]%string [] [] [] [] ["10.0.0.0/8"]%string [] [] [443] ["8000:8080"]%string
    [] [] [] [] [] [] false false [] [] [] [] true None None None [] None.

Lemma headless_rule_meaning_witness :
  match NewDefaultHeadlessRule true demo_options with
  | Ok d => fst (Match demo_rt (DefaultHeadlessRule d) (demo_context "example.org")) = false ∧
            fst (Match demo_rt (DefaultHeadlessRule d) (demo_context "example.org")) =
              negb (nonempty (allItems d)) || headless_formula demo_rt true demo_options (demo_context "example.org")
  | _ => False
  end.
Proof.
  assert (Hok : match NewDefaultHeadlessRule true demo_options with
    | Ok d => fst (Match demo_rt (DefaultHeadlessRule d) (demo_context "example.org")) = false
    | _ => False end) by (vm_compute; reflexivity).
  destruct (NewDefaultHeadlessRule true demo_options) as [d|e|p] eqn:H; [|destruct Hok..].
  split; [exact Hok|].
  apply (headless_rule_meaning demo_rt demo_laws true demo_options d (demo_context "example.org") H); reflexivity.
Defined.

(** ** Actions of nested rules *)

Section options_ind.
Context (P : RuleOptions → Prop).
Context (H : ∀ t raw a l la, Forall P (lo_Rules l) → P (mkRuleOptions t raw a l la)).
Fixpoint RuleOptions_nested_ind (o : RuleOptions) : P o :=
  match o with
  | mkRuleOptions t raw a (mkLogicalOptions mode rules inv) la =>
      H t raw a (mkLogicalOptions mode rules inv) la
        ((fix all (l : list RuleOptions) : Forall P l :=
          match l with
          | [] => Forall_nil_2 P
          | x :: l => Forall_cons_2 P x l (RuleOptions_nested_ind x) (all l)
          end) rules)
  end.
End options_ind.

Section dns_options_ind.
Context (P : DNSRuleOptions → Prop).
Context (H : ∀ t raw a l la, Forall P (lo_Rules l) → P (mkDNSRuleOptions t raw a l la)).
Fixpoint DNSRuleOptions_nested_ind (o : DNSRuleOptions) : P o :=
  match o with
  | mkDNSRuleOptions t raw a (mkLogicalOptions mode rules inv) la =>
      H t raw a (mkLogicalOptions mode rules inv) la
        ((fix all (l : list DNSRuleOptions) : Forall P l :=
          match l with
          | [] => Forall_nil_2 P
          | x :: l => Forall_cons_2 P x l (DNSRuleOptions_nested_ind x) (all l)
          end) rules)
  end.
End dns_options_ind.

Section actions.
Context {EX : External} (PlatformSupported : bool).

(** No rule below [r] carries an action. *)
Fixpoint nested_actionless (r : Rule) : bool :=
  match r with
  | LogicalHeadlessRule l | LogicalRule l | LogicalDNSRule l _ _ _ =>
      forallb (λ r, match Rule_Action r with None => nested_actionless r | Some _ => false end) (l_rules l)
  | _ => true
  end.

Lemma subRules_Forall2 {O} (build : O → result Rule) i rules rs :
  subRules build i rules = Ok rs → Forall2 (λ o r, build o = Ok r) rules rs.
Proof.
  revert i rs; induction rules as [|o rules IH]; intros i rs; cbn; intros H; invert_ok; [constructor|].
  constructor; [done|]. eauto.
Qed.

Lemma validateSubRules_ok {O} (validate : O → result unit) i rules :
  validateSubRules validate i rules = Ok tt → Forall (λ o, validate o = Ok tt) rules.
Proof.
  revert i; induction rules as [|o rules IH]; intros i; cbn; [constructor|]. intros H. invert_ok.
  destruct x. constructor; eauto.
Qed.

Lemma addAll_action steps d d' : addAll steps d = Ok d' → action d' = action d.
Proof.
  rewrite addAll_made. intros (l & _ & <-)%fmap_Ok. by destruct (appendAll_frame l d) as (_ & _ & _ & ?).
Qed.

Lemma addRuleSet_action tags dep ms ae d d' : addRuleSet tags dep ms ae d = Ok d' → action d' = action d.
Proof.
  unfold addRuleSet. destruct (nonempty tags), dep; intros H; invert_ok; try done. by destruct d.
Qed.

Lemma NewDefaultRule_action raw a d :
  NewDefaultRule PlatformSupported raw a = Ok d → NewRuleAction PlatformSupported a = Ok (action d).
Proof.
  unfold NewDefaultRule. intros H. invert_ok.
  erewrite addRuleSet_action, addAll_action by eauto. done.
Qed.

Lemma NewRuleAction_zero : NewRuleAction PlatformSupported RuleActionOptions_zero = Ok None.
Proof. done. Qed.

Lemma no_action check o r :
  validateNoNestedRuleActions true o = Ok tt → NewRule PlatformSupported check o = Ok r → Rule_Action r = None.
Proof.
  destruct o as [t raw a l la]. cbn.
  destruct (String.eqb t "" || String.eqb t "default") eqn:Ht.
  - case_bool_decide as Ha; [|done]. subst a. intros _ Hr. invert_ok. cbn.
    repeat match goal with H : NewDefaultRule _ _ _ = _ |- _ => apply NewDefaultRule_action in H end.
    rewrite NewRuleAction_zero in *. by invert_ok.
  - destruct (String.eqb t "logical"); [|done].
    case_bool_decide as Ha; [|done]. subst la. intros _ Hr. rewrite NewRuleAction_zero in Hr. by invert_ok.
Qed.

Lemma NewRule_nested o : ∀ check r, NewRule PlatformSupported check o = Ok r → nested_actionless r = true.
Proof.
  induction o as [t raw a l la IH] using RuleOptions_nested_ind. intros check r. cbn.
  destruct (String.eqb t "" || String.eqb t "default"); [intros H; by invert_ok|].
  destruct (String.eqb t "logical"); [|done]. intros H. invert_ok. cbn.
  match goal with H : subRules _ _ _ = Ok _ |- _ => apply subRules_Forall2 in H; rename H into Hs end.
  apply forallb_forall. intros r' Hr'%list_elem_of_In.
  destruct (Forall2_elem_r _ _ _ _ Hs Hr') as (o' & Ho' & ([] & Hval & Hb)%bind_Ok).
  rewrite (no_action false o' r' Hval Hb). rewrite Forall_forall in IH. eauto.
Qed.

(** *** DNS rules *)

Lemma NewDefaultDNSRule_shape raw a legacy r :
  NewDefaultDNSRule raw a legacy = Ok r →
  ∃ d, r = DefaultDNSRule d (MatchResponse_IsEnabled (d_MatchResponse raw))
             (MatchResponse_ResponseTag (d_MatchResponse raw)) (da_Race a) ∧
    NewDNSRuleAction a = Ok (action d).
Proof.
  unfold NewDefaultDNSRule. intros H. invert_ok. eexists. split; [done|].
  erewrite addRuleSet_action, addAll_action by eauto. done.
Qed.

Lemma no_dns_action check legacy o r :
  validateNoNestedDNSRuleActions true o = Ok tt → NewDNSRule check legacy o = Ok r → Rule_Action r = None.
Proof.
  destruct o as [t raw a l la]. cbn.
  destruct (String.eqb t "" || String.eqb t "default") eqn:Ht.
  - case_bool_decide as Ha; [|done]. subst a. intros _ Hr. invert_ok.
    apply NewDefaultDNSRule_shape in Hr as (d & -> & Hd). cbn in *. by apply Ok_inj in Hd.
  - destruct (String.eqb t "logical"); [|done].
    case_bool_decide as Ha; [|done]. subst la. intros _ Hr. invert_ok.
    unfold finishLogicalDNSRule in *. destruct (_ && _); [done|]. invert_ok. cbn in *. naive_solver.
Qed.

Lemma NewDNSRule_nested o : ∀ check legacy r, NewDNSRule check legacy o = Ok r → nested_actionless r = true.
Proof.
  induction o as [t raw a l la IH] using DNSRuleOptions_nested_ind. intros check legacy r. cbn.
  destruct (String.eqb t "" || String.eqb t "default").
  { intros H. invert_ok. by apply NewDefaultDNSRule_shape in H as (d & -> & _). }
  destruct (String.eqb t "logical"); [|done]. intros H. invert_ok.
  match goal with H : subRules _ _ _ = Ok _ |- _ => apply subRules_Forall2 in H; rename H into Hs end.
  unfold finishLogicalDNSRule in H. destruct (_ && _); [done|]. invert_ok. cbn.
  apply forallb_forall. intros r' Hr'%list_elem_of_In.
  destruct (Forall2_elem_r _ _ _ _ Hs Hr') as (o' & Ho' & ([] & Hval & Hb)%bind_Ok).
  rewrite (no_dns_action false legacy o' r' Hval Hb). rewrite Forall_forall in IH. eauto.
Qed.

(** [DNSRule.Race]. *)
Definition Rule_Race (r : Rule) : bool :=
  match r with DefaultDNSRule _ _ _ race | LogicalDNSRule _ _ _ race => race | _ => false end.

Lemma NewDNSRuleAction_reject_inv a rj :
  NewDNSRuleAction a = Ok (Some (RuleActionReject_ rj)) →
  da_Action a = "reject"%string ∧ rj_Method rj = rej_Method (da_RejectOptions a).
Proof.
  unfold NewDNSRuleAction.
  repeat match goal with |- context [if String.eqb (da_Action a) ?k then _ else _] =>
    destruct (String.eqb_spec (da_Action a) k) as [?|?]
  end; try done. by intros [= <-].
Qed.

Lemma NewDNSRuleAction_reject a rj :
  NewDNSRuleAction a = Ok (Some (RuleActionReject_ rj)) → validateDNSRuleAction a = Ok tt → rj_Method rj ≠ "reply"%string.
Proof.
  intros [Hk ->]%NewDNSRuleAction_reject_inv. unfold validateDNSRuleAction. rewrite Hk. cbn [String.eqb Ascii.eqb Bool.eqb andb].
  destruct (String.eqb_spec (rej_Method (da_RejectOptions a)) "reply"); done.
Qed.

Lemma checkDNSAction_valid check a u : checkDNSAction check a = Ok u → validateDNSRuleAction a = Ok tt.
Proof. unfold checkDNSAction. destruct (_ && _); [done|]. by destruct u. Qed.

Lemma NewDNSRule_shape check legacy o r :
  NewDNSRule check legacy o = Ok r →
  (Rule_Race r = true → MatchResponseAnonymous r = true ∨ MatchResponseTags r ≠ []) ∧
  (∀ rj, Rule_Action r = Some (RuleActionReject_ rj) → rj_Method rj ≠ "reply"%string).
Proof.
  destruct o as [t raw a l la]. cbn.
  destruct (String.eqb t "" || String.eqb t "default").
  - intros H. invert_ok. apply NewDefaultDNSRule_shape in H as (d & -> & Hd).
    repeat match goal with H : checkDNSAction _ _ = Ok _ |- _ => apply checkDNSAction_valid in H as Hv end.
    cbn. split.
    + intros Hrace. rewrite Hrace in *. destruct (MatchResponse_IsEnabled (d_MatchResponse raw)); [|done].
      destruct (String.eqb _ ""); [by left|by right].
    + intros rj Ha. rewrite Ha in Hd. by eapply NewDNSRuleAction_reject.
  - destruct (String.eqb t "logical"); [|done]. intros H. invert_ok.
    repeat match goal with H : checkDNSAction _ _ = Ok _ |- _ => apply checkDNSAction_valid in H as Hv end.
    unfold finishLogicalDNSRule in H. destruct (_ && _ && _) eqn:Hr; [done|]. invert_ok. cbn. split.
    + intros Hrace. rewrite Hrace in Hr. cbn in Hr.
      destruct (nonempty (common_Uniq _)) eqn:Hn; [right; by apply nonempty_true|left].
      cbn in Hr. by apply negb_false_iff.
    + intros rj ->. by eapply NewDNSRuleAction_reject.
Qed.
End actions.

(** A route rule built from options carries an action only at the top: no
    rule nested in a logical rule has one, at any depth. *)
Lemma NewRule_actions_on_top {EX : External} (PlatformSupported checkOutbound : bool) (o : RuleOptions)
    (r : Rule) (Hbuild : NewRule PlatformSupported checkOutbound o = Ok r) : nested_actionless r = true.
Proof. by eapply NewRule_nested. Qed.

(** A logical rule over two default rules, with a route action. *)
Definition demo_action : RuleActionOptions :=
  mkRuleAction "route" (mkRouteActionOptions "proxy" RawRouteOptions_zero) RawRouteOptions_zero
    RouteActionOptions_zero (mkRejectOptions "" false) (mkSniffOptions [] 0) (mkResolveOptions "" 0 0 false false None None).

Definition demo_domain (d : string) (a : RuleActionOptions) : RuleOptions :=
  mkRuleOptions "default" (mkRawDefaultRule [] 0 [] [] [] [] [d] [] [] [] [] [] [] [] false [] false [] [] [] []
    [] [] [] [] [] [] [] "" [] false false [] [] [] [] [] [] [] [] [] false false false) a
    (mkLogicalOptions "" [] false) RuleActionOptions_zero.

Definition demo_logical (a : RuleActionOptions) : RuleOptions :=
  mkRuleOptions "logical" (RawDefaultRule_zero false) RuleActionOptions_zero
    (mkLogicalOptions "and" [demo_domain "a.org" RuleActionOptions_zero; demo_domain "b.org" a] false) demo_action.

Lemma NewRule_actions_on_top_witness :
  is_ok (NewRule true true (demo_logical demo_action)) = false ∧
  ∃ r, NewRule true true (demo_logical RuleActionOptions_zero) = Ok r ∧ nested_actionless r = true.
Proof.
  split; [vm_compute; reflexivity|].
  assert (Hok : is_ok (NewRule true true (demo_logical RuleActionOptions_zero)) = true) by (vm_compute; reflexivity).
  destruct (NewRule true true (demo_logical RuleActionOptions_zero)) as [r|e|p] eqn:H; [|discriminate Hok..].
  exists r. split; [reflexivity|]. exact (NewRule_actions_on_top true true _ r H).
Defined.

(** C10: a DNS rule built from options is well formed: actions only at the top, a
    [race] rule looks at some response, and [reject] never uses the [reply]
    method. *)
Theorem NewDNSRule_wellformed {EX : External} (checkServer legacyDNSMode : bool) (o : DNSRuleOptions)
    (r : Rule) (Hbuild : NewDNSRule checkServer legacyDNSMode o = Ok r) :
  nested_actionless r = true ∧
  (Rule_Race r = true → MatchResponseAnonymous r = true ∨ MatchResponseTags r ≠ []) ∧
  (∀ rj, Rule_Action r = Some (RuleActionReject_ rj) → rj_Method rj ≠ "reply"%string).
Proof. split; [by eapply NewDNSRule_nested|by eapply NewDNSRule_shape]. Qed.

Definition demo_dns_options (response : option DNSRuleMatchResponse) : DNSRuleOptions :=
  mkDNSRuleOptions "" (mkRawDefaultDNSRule [] 0 [1] [] false [] [] [] [] [] [] [] [] false [] [] [] [] [] [] [] [] [] [] []
    [] "" [] false false [] [] [] [] [] [] [] [] [] false response [] false false None [] [] [] false
    [] [] [] false false)
    (mkDNSRuleAction "respond" true (mkDNSRouteActionOptions "" false AbstractDNSRoute_zero)
      (mkDNSEvaluateOptions "" "" false AbstractDNSRoute_zero) AbstractDNSRoute_zero
      (mkRejectOptions "" false) (mkPredefinedOptions None [] [] []))
    (mkLogicalOptions "" [] false) DNSRuleActionOptions_zero.

Lemma NewDNSRule_wellformed_witness :
  NewDNSRule true false (demo_dns_options None) = Err (ErrNew "`race` requires `match_response`") ∧
  ∃ r, NewDNSRule true false (demo_dns_options (Some (mkMatchResponse true "first"))) = Ok r ∧
    (Rule_Race r = true → MatchResponseAnonymous r = true ∨ MatchResponseTags r ≠ []).
Proof.
  split; [vm_compute; reflexivity|].
  assert (Hok : is_ok (NewDNSRule true false (demo_dns_options (Some (mkMatchResponse true "first")))) = true)
    by (vm_compute; reflexivity).
  destruct (NewDNSRule true false (demo_dns_options (Some (mkMatchResponse true "first")))) as [r|e|p] eqn:H;
    [|discriminate Hok..].
  exists r. split; [reflexivity|].
  destruct (NewDNSRule_wellformed true false _ r H) as (_ & Hrace & _). exact Hrace.
Defined.
