(* ===== verification/RuleSetStore.v ===== *)
(** Rule-sets and their life cycle ([route/rule/rule_set.go],
    [rule_set_local.go], [RuleSetItem.Start] and [Close] of
    [rule_item_rule_set.go]).

    A rule-set is shared: the router keeps it by tag, and every rule-set item
    that starts holds a counted reference.  The store maps tags to the objects,
    so an item refers to a set by its tag. *)

From S2P Require Import Prelude GoBytes GoStrings Netip Metadata RuleItems RuleAction RuleMatch.
From S2P Require Import RuleSemantics RuleRefine Concrete RuleTheorems Options RuleBuild RuleBuildTheorems.

(** ** Metadata *)

Section metadata.
Context {EX : External}.

(** [HasHeadlessRule(rules, cond)]. *)
Fixpoint hasHeadless (cond : HeadlessOptions → bool) (r : HeadlessRuleOptions) : bool :=
  match r with
  | mkHeadlessRuleOptions type_ default_ logical =>
      if String.eqb type_ "default" then cond default_
      else if String.eqb type_ "logical" then existsb (hasHeadless cond) (lo_Rules logical)
      else false
  end.

Definition HasHeadlessRule (rules : list HeadlessRuleOptions) (cond : HeadlessOptions → bool) : bool :=
  existsb (hasHeadless cond) rules.

Definition isProcessHeadlessRule (o : HeadlessOptions) : bool :=
  nonempty (h_ProcessName o) || nonempty (h_ProcessPath o) || nonempty (h_ProcessPathRegex o) ||
  nonempty (h_PackageName o) || nonempty (h_PackageNameRegex o).

Definition isWIFIHeadlessRule (o : HeadlessOptions) : bool :=
  nonempty (h_WIFISSID o) || nonempty (h_WIFIBSSID o).

Definition isIPCIDRHeadlessRule (o : HeadlessOptions) : bool :=
  nonempty (h_IPCIDR o) || bool_decide (is_Some (h_IPSet o)).

Definition isDNSQueryTypeHeadlessRule (o : HeadlessOptions) : bool := nonempty (h_QueryType o).

(** The same options without the fields of [ipOnly]; the rule has another
    condition when what is left is not zero. *)
Definition withoutIP (o : HeadlessOptions) : HeadlessOptions :=
  match o with
  | mkHeadlessOptions _ a b c d e f g _ h i j k l m n p q r s t u v w x y z aa _ bb cc =>
      mkHeadlessOptions _ a b c d e f g [] h i j k l m n p q r s t u v w x y z aa None bb cc
  end.

Definition isNonIPCIDRHeadlessRule (o : HeadlessOptions) : bool := negb (HeadlessOptions_isZero (withoutIP o)).

Definition buildRuleSetMetadata (rules : list HeadlessRuleOptions) : RuleSetMetadata :=
  mkRuleSetMetadata
    (HasHeadlessRule rules isProcessHeadlessRule) (HasHeadlessRule rules isWIFIHeadlessRule)
    (HasHeadlessRule rules isIPCIDRHeadlessRule) (HasHeadlessRule rules isDNSQueryTypeHeadlessRule)
    (HasHeadlessRule rules isNonIPCIDRHeadlessRule).

(** [extractIPSetFromRule(rule)]. *)
Fixpoint extractIPSetFromRule (r : Rule) : result (list IPSet) :=
  match r with
  | DefaultHeadlessRule d =>
      Ok (omap (λ i, match i with IPCIDRItem ipSet _ _ => Some ipSet | _ => None end) (destinationIPCIDRItems d))
  | LogicalHeadlessRule l =>
      (fix flat (rules : list Rule) : result (list IPSet) :=
        match rules with
        | [] => Ok []
        | r :: rules => a ← extractIPSetFromRule r; b ← flat rules; Ok (a ++ b)
        end) (l_rules l)
  | _ => Panic "unexpected rule type"
  end.

(** ** Local rule-sets *)

(** [LocalRuleSet]: its rules, metadata and reference count. *)
Record LocalRuleSet : Type := mkLocalRuleSet {
  ls_rules : list Rule;
  ls_metadata : RuleSetMetadata;
  ls_refs : Z
}.

(** [NewHeadlessRule] over the options, with the index in the error. *)
Fixpoint buildRules (networkManager : bool) (i : Z) (rules : list HeadlessRuleOptions) : result (list Rule) :=
  match rules with
  | [] => Ok []
  | o :: rules =>
      r ← wrap_cause (String.append "parse rule_set.rules.[" (String.append (pretty i) "]"))
            (NewHeadlessRule networkManager o);
      rs ← buildRules networkManager (i + 1) rules;
      Ok (r :: rs)
  end.

(** [func (s *LocalRuleSet) reloadRules(headlessRules) error]; [validate] is
    [validateRuleSetMetadataUpdate] for the set's tag. *)
Definition reloadRules (networkManager : bool) (validate : RuleSetMetadata → result unit)
    (options : list HeadlessRuleOptions) (s : LocalRuleSet) : result LocalRuleSet :=
  rules ← buildRules networkManager 0 options;
  let metadata := buildRuleSetMetadata options in
  _ ← validate metadata;
  Ok (mkLocalRuleSet rules metadata (ls_refs s)).

(** The value of a signed integer of 32 bits, as [atomic.Int32] keeps it. *)
Definition int32 (z : Z) : Z := (z + 2 ^ 31) mod 2 ^ 32 - 2 ^ 31.

Definition IncRef (s : LocalRuleSet) : LocalRuleSet := mkLocalRuleSet (ls_rules s) (ls_metadata s) (int32 (ls_refs s + 1)).

Definition DecRef (s : LocalRuleSet) : result LocalRuleSet :=
  let refs := int32 (ls_refs s - 1) in
  if refs <? 0 then Panic "rule-set: negative refs" else Ok (mkLocalRuleSet (ls_rules s) (ls_metadata s) refs).

(** [Cleanup]: frees the rules of a set nobody refers to. *)
Definition Cleanup (s : LocalRuleSet) : LocalRuleSet :=
  if ls_refs s =? 0 then mkLocalRuleSet [] (ls_metadata s) (ls_refs s) else s.

(** [func (s *LocalRuleSet) ExtractIPSet()]. *)
Fixpoint ExtractIPSet (rules : list Rule) : result (list IPSet) :=
  match rules with
  | [] => Ok []
  | r :: rules => a ← extractIPSetFromRule r; b ← ExtractIPSet rules; Ok (a ++ b)
  end.

(** ** Rule-set items that hold references *)

(** [router.RuleSet(tag)]: the loaded rule-sets by tag. *)
Local Notation Store := (gmap string LocalRuleSet).

(** A [RuleSetItem] as an object: its tags and the sets it holds, by tag. *)
Record ItemState : Type := mkItemState { is_tagList : list string; is_setList : list string }.

(** The loop of [RuleSetItem.Close]. *)
Fixpoint decAll (sets : list string) (st : Store) : result Store :=
  match sets with
  | [] => Ok st
  | tag :: sets =>
      match st !! tag with
      | None => Panic "nil pointer dereference"
      | Some s => s' ← DecRef s; decAll sets (<[tag := s']> st)
      end
  end.

Definition RuleSetItem_Close (it : ItemState) (st : Store) : result (ItemState * Store) :=
  st ← decAll (is_setList it) st;
  Ok (mkItemState (is_tagList it) [], st).

(** The loop of [RuleSetItem.Start]; [Some tag] is the error for a missing set. *)
Fixpoint startLoop (tags held : list string) (st : Store) : list string * Store * option string :=
  match tags with
  | [] => (held, st, None)
  | tag :: tags =>
      match st !! tag with
      | None => (held, st, Some tag)
      | Some s => startLoop tags (held ++ [tag]) (<[tag := IncRef s]> st)
      end
  end.

(** [func (r *RuleSetItem) Start() error]: the item and store it leaves, and its error. *)
Definition RuleSetItem_Start (it : ItemState) (st : Store) : result (ItemState * Store * option goerr) :=
  '(it, st) ← RuleSetItem_Close it st;
  let '(held, st, missing) := startLoop (is_tagList it) [] st in
  let it := mkItemState (is_tagList it) held in
  match missing with
  | None => Ok (it, st, None)
  | Some tag =>
      '(it, st) ← RuleSetItem_Close it st;
      Ok (it, st, Some (ErrNew (String.append "rule-set not found: " tag)))
  end.

(** The item a started [ItemState] is to the matcher. *)
Definition resolve (st : Store) (matchSource acceptEmpty : bool) (it : ItemState) : RuleSetItem Rule :=
  mkRuleSetItem (is_tagList it)
    (omap (λ tag, (λ s, mkRuleSet (ls_rules s) (ls_metadata s)) <$> st !! tag) (is_setList it))
    matchSource acceptEmpty.

(** ** The system of sets, items and tun inbounds *)

(** The start of a tun inbound takes the sets of [route_address_set] and
    [route_exclude_address_set], and does not give them back. *)
Fixpoint tunTakes (sets : list string) (st : Store) : Store :=
  match sets with
  | [] => st
  | tag :: sets => tunTakes sets (alter IncRef tag st)
  end.

(** The sets, the rule-set items, and the sets tun inbounds have taken. *)
Record System : Type := mkSystem { sys_store : Store; sys_items : list ItemState; sys_tun : list string }.

(** One operation on the system, in any order and interleaving. *)
Inductive sys_step : System → System → Prop :=
| step_start i it it' st its tun st' err :
    its !! i = Some it → RuleSetItem_Start it st = Ok (it', st', err) →
    sys_step (mkSystem st its tun) (mkSystem st' (<[i := it']> its) tun)
| step_close i it it' st its tun st' :
    its !! i = Some it → RuleSetItem_Close it st = Ok (it', st') →
    sys_step (mkSystem st its tun) (mkSystem st' (<[i := it']> its) tun)
| step_tun sets st its tun :
    Forall (λ tag, is_Some (st !! tag)) sets → sys_step (mkSystem st its tun) (mkSystem (tunTakes sets st) its (sets ++ tun))
| step_cleanup tag s st its tun :
    st !! tag = Some s → sys_step (mkSystem st its tun) (mkSystem (<[tag := Cleanup s]> st) its tun)
| step_reload tag s s' networkManager validate options st its tun :
    st !! tag = Some s → reloadRules networkManager validate options s = Ok s' →
    sys_step (mkSystem st its tun) (mkSystem (<[tag := s']> st) its tun).

(** A box that has loaded its rule-sets and built, but not started, its rules. *)
Definition initial (s : System) : Prop :=
  (∀ tag ls, sys_store s !! tag = Some ls → ls_refs ls = 0) ∧
  Forall (λ it, is_setList it = []) (sys_items s) ∧ sys_tun s = [].

Inductive reachable : System → Prop :=
| reach_init s : initial s → reachable s
| reach_step s s' : reachable s → sys_step s s' → reachable s'.

(** ** References are counted *)

(** How often [tag] occurs in [l], and in the sets the items hold. *)
Definition cnt (tag : string) (l : list string) : Z := len (filter (λ t, t = tag) l).
Definition total (its : list ItemState) (tag : string) : Z :=
  foldr (λ it n, cnt tag (is_setList it) + n) 0 its.

(** How many references there can be. *)
Definition capacity (its : list ItemState) : Z := foldr (λ it n, len (is_tagList it) + n) 0 its.
Definition small (s : System) : Prop := capacity (sys_items s) + len (sys_tun s) < 2 ^ 31.

Lemma int32_small z : 0 ≤ z < 2 ^ 31 → int32 z = z.
Proof. intros H. unfold int32. rewrite Z.mod_small; lia. Qed.

Lemma cnt_cons tag t l : cnt tag (t :: l) = (if decide (t = tag) then 1 else 0) + cnt tag l.
Proof. unfold cnt, len. rewrite filter_cons. case_decide; cbn [length]; lia. Qed.

Lemma cnt_nil tag : cnt tag [] = 0.
Proof. done. Qed.

Lemma cnt_app tag l k : cnt tag (l ++ k) = cnt tag l + cnt tag k.
Proof. unfold cnt, len. rewrite filter_app, length_app. lia. Qed.

Lemma cnt_nonneg tag l : 0 <= cnt tag l.
Proof. unfold cnt, len. lia. Qed.

Lemma cnt_elem tag l : tag ∈ l ↔ 0 < cnt tag l.
Proof.
  induction l as [|t l IH]; [rewrite elem_of_nil; by cbn|]. rewrite elem_of_cons, cnt_cons, IH.
  pose proof (cnt_nonneg tag l). case_decide as Ht.
  - subst t. split; [lia|by left].
  - split; [intros [->|?]; [done|lia]|intros ?; right; lia].
Qed.

Lemma cnt_len tag l : cnt tag l <= len l.
Proof. unfold cnt, len. pose proof (length_filter (λ t, t = tag) l). lia. Qed.

Lemma total_cons it its tag : total (it :: its) tag = cnt tag (is_setList it) + total its tag.
Proof. done. Qed.

Lemma total_nonneg its tag : 0 <= total its tag.
Proof.
  induction its as [|it its IH]; [done|]. rewrite total_cons. pose proof (cnt_nonneg tag (is_setList it)). lia.
Qed.

Lemma total_insert its i it it' tag :
  its !! i = Some it → total (<[i := it']> its) tag = total its tag - cnt tag (is_setList it) + cnt tag (is_setList it').
Proof.
  revert i; induction its as [|x its IH]; intros [|i] H; [done|done|..].
  - injection H as ->. change (<[0%nat := it']> (it :: its)) with (it' :: its). rewrite !total_cons. lia.
  - change (<[S i := it']> (x :: its)) with (x :: <[i := it']> its). rewrite !total_cons, IH by done. lia.
Qed.

Lemma total_elem its i it tag : its !! i = Some it → cnt tag (is_setList it) <= total its tag.
Proof.
  revert i; induction its as [|x its IH]; intros [|i] H; [done|done|..]; rewrite total_cons.
  - injection H as ->. pose proof (total_nonneg its tag). lia.
  - pose proof (cnt_nonneg tag (is_setList x)). specialize (IH i H). lia.
Qed.

Lemma capacity_insert its i it it' :
  its !! i = Some it → is_tagList it' = is_tagList it → capacity (<[i := it']> its) = capacity its.
Proof.
  revert i; induction its as [|x its IH]; intros [|i] H Ht; [done|done|..].
  - injection H as ->. cbn. by rewrite Ht.
  - cbn. f_equal. by apply IH.
Qed.

Lemma total_capacity its tag : Forall (λ it, is_setList it = [] ∨ is_setList it = is_tagList it) its → total its tag <= capacity its.
Proof.
  induction 1 as [|it its Hit _ IH]; [done|]. rewrite total_cons. pose proof (cnt_len tag (is_tagList it)). pose proof (cnt_nonneg tag (is_tagList it)).
  change (capacity (it :: its)) with (len (is_tagList it) + capacity its). destruct Hit as [->| ->]; rewrite ?cnt_nil; lia.
Qed.

(** What does not change when references do. *)
Definition contents (s : LocalRuleSet) : list Rule * RuleSetMetadata := (ls_rules s, ls_metadata s).
Definition same_contents (st st' : Store) : Prop := ∀ tag, contents <$> st !! tag = contents <$> st' !! tag.

#[local] Instance same_contents_equiv : Equivalence same_contents.
Proof. split; [by intros st tag|by intros st st' H tag|by intros a b c H1 H2 tag; rewrite H1]. Qed.

Lemma same_contents_insert st tag s s' :
  st !! tag = Some s → contents s' = contents s → same_contents (<[tag := s']> st) st.
Proof.
  intros Hs Hc t. destruct (decide (t = tag)) as [->|Hne].
  - rewrite lookup_insert_eq, Hs. cbn. by rewrite Hc.
  - by rewrite lookup_insert_ne.
Qed.

Lemma same_contents_is_Some st st' tag : same_contents st st' → is_Some (st !! tag) ↔ is_Some (st' !! tag).
Proof. intros H. specialize (H tag). destruct (st !! tag), (st' !! tag); naive_solver. Qed.

(** [n] counts the references of every set in the store. *)
Definition counts (st : Store) (n : string → Z) : Prop := ∀ tag s, st !! tag = Some s → ls_refs s = n tag.

Lemma counts_ext st n n' : (∀ tag, n tag = n' tag) → counts st n → counts st n'.
Proof. intros H Hc tag s Hs. rewrite <- H. eauto. Qed.

Lemma decAll_counts sets st n :
  counts st (λ tag, n tag + cnt tag sets) → (∀ tag, 0 <= n tag ∧ n tag + cnt tag sets < 2 ^ 31) →
  (∀ tag, tag ∈ sets → is_Some (st !! tag)) →
  ∃ st', decAll sets st = Ok st' ∧ counts st' n ∧ same_contents st' st.
Proof.
  revert st; induction sets as [|tag sets IH]; intros st Hc Hn Hin; cbn.
  { exists st. split_and!; [done| |done]. eapply counts_ext; [|done]. intros tag. cbn beta. rewrite cnt_nil. lia. }
  destruct (Hin tag) as [s Hs]; [left|]. rewrite Hs. unfold DecRef.
  pose proof (Hc tag s Hs) as Hr. cbn in Hr. rewrite cnt_cons, decide_True in Hr by done.
  pose proof (cnt_nonneg tag sets). pose proof (Hn tag) as Hn'. rewrite cnt_cons, decide_True in Hn' by done.
  rewrite int32_small by lia. destruct (ls_refs s - 1 <? 0) eqn:Hneg; [lia|]. cbn.
  set (s' := mkLocalRuleSet _ _ _).
  assert (Hsc : same_contents (<[tag := s']> st) st) by (by eapply same_contents_insert).
  destruct (IH (<[tag := s']> st)) as (st' & -> & Hc' & Hs').
  - intros t u. destruct (decide (t = tag)) as [->|Hne].
    + rewrite lookup_insert_eq. intros [= <-]. cbn. lia.
    + rewrite lookup_insert_ne by done. intros Hu. rewrite (Hc t u Hu), cnt_cons, decide_False by done. lia.
  - intros t. pose proof (Hn t) as Ht. rewrite cnt_cons in Ht. case_decide; lia.
  - intros t Ht. apply (same_contents_is_Some _ _ t Hsc). apply Hin. by right.
  - exists st'. split_and!; [done|done|by etrans].
Qed.

Lemma startLoop_counts tags held st n held' st' missing :
  startLoop tags held st = (held', st', missing) →
  counts st (λ tag, n tag + cnt tag held) → (∀ tag, 0 <= n tag ∧ n tag + cnt tag held + cnt tag tags < 2 ^ 31) →
  (∀ tag, tag ∈ held → is_Some (st !! tag)) →
  counts st' (λ tag, n tag + cnt tag held') ∧ same_contents st' st ∧ (∀ tag, tag ∈ held' → is_Some (st' !! tag)) ∧
  (∀ tag, n tag + cnt tag held' < 2 ^ 31) ∧ (missing = None → held' = held ++ tags).
Proof.
  revert held st; induction tags as [|tag tags IH]; intros held st; cbn.
  { intros [= <- <- <-] ? Hn ?. split_and!; [done..| |]; [|intros _; by rewrite app_nil_r]. intros t. specialize (Hn t). rewrite cnt_nil in Hn. lia. }
  destruct (st !! tag) as [s|] eqn:Hs.
  2: { intros [= <- <- <-] ? Hn ?. split_and!; [done..| |done]. intros t. specialize (Hn t). pose proof (cnt_nonneg t (tag :: tags)). lia. }
  intros Hl Hc Hn Hin.
  assert (Hsc : same_contents (<[tag := IncRef s]> st) st) by (by eapply same_contents_insert).
  pose proof (Hc tag s Hs) as Hr. pose proof (Hn tag) as Hb. rewrite cnt_cons, decide_True in Hb by done. cbn beta in Hr.
  pose proof (cnt_nonneg tag held). pose proof (cnt_nonneg tag tags).
  destruct (IH _ _ Hl) as (H1 & H2 & H3 & H4 & H5).
  - intros t u. rewrite cnt_app, cnt_cons. destruct (decide (t = tag)) as [->|Hne].
    + rewrite lookup_insert_eq. intros [= <-]. cbn [IncRef ls_refs]. rewrite int32_small by lia. rewrite Hr, decide_True, cnt_nil by done. lia.
    + rewrite lookup_insert_ne by done. intros Hu. rewrite (Hc t u Hu), decide_False, cnt_nil by done. lia.
  - intros t. specialize (Hn t). rewrite cnt_cons in Hn. rewrite cnt_app, cnt_cons, cnt_nil. case_decide; lia.
  - intros t Ht. apply (same_contents_is_Some _ _ t Hsc).
    apply elem_of_app in Ht as [Ht| ->%list_elem_of_singleton]; [by apply Hin|by rewrite Hs].
  - split_and!; [done|by etrans|done|done|]. intros Hm. rewrite H5 by done. by rewrite <- (assoc_L (++)).
Qed.

(** How many references there are to a set. *)
Definition refs (its : list ItemState) (tun : list string) (tag : string) : Z := total its tag + cnt tag tun.

Lemma tunTakes_counts sets st n :
  counts st n → Forall (λ tag, is_Some (st !! tag)) sets → (∀ tag, 0 <= n tag ∧ n tag + cnt tag sets < 2 ^ 31) →
  counts (tunTakes sets st) (λ tag, n tag + cnt tag sets) ∧ same_contents (tunTakes sets st) st.
Proof.
  revert st n; induction sets as [|tag sets IH]; intros st n Hc Hin Hn; cbn.
  { split; [|done]. eapply counts_ext; [|done]. intros t. cbn beta. rewrite cnt_nil. lia. }
  apply Forall_cons in Hin as [[s Hs] Hin]. assert (Halt : alter IncRef tag st = <[tag := IncRef s]> st) by (apply map_eq; intros t; destruct (decide (t = tag)) as [->|]; simplify_map_eq; done).
  assert (Hsc : same_contents (alter IncRef tag st) st) by (rewrite Halt; by eapply same_contents_insert).
  destruct (IH (alter IncRef tag st) (λ t, n t + if decide (tag = t) then 1 else 0)) as [H1 H2].
  - intros t u. pose proof (Hn t) as Ht. rewrite cnt_cons in Ht. pose proof (cnt_nonneg t sets). rewrite Halt. destruct (decide (tag = t)) as [->|Hne].
    + rewrite lookup_insert_eq. intros [= <-]. cbn [IncRef ls_refs]. rewrite (Hc t s Hs), int32_small by lia. done.
    + rewrite lookup_insert_ne by done. intros Hu. rewrite (Hc t u Hu). lia.
  - eapply Forall_impl; [exact Hin|]. intros t Ht. by apply (same_contents_is_Some _ _ t Hsc).
  - intros t. pose proof (Hn t) as Ht. rewrite cnt_cons in Ht. pose proof (cnt_nonneg t sets). cbn beta. case_decide; lia.
  - split; [|by etrans]. eapply counts_ext; [|exact H1]. intros t. cbn beta. rewrite cnt_cons. lia.
Qed.

(** The invariant: every count is the number of references held, what is held is
    in the store, and an item holds its sets or none. *)
Definition inv (s : System) : Prop :=
  counts (sys_store s) (refs (sys_items s) (sys_tun s)) ∧
  (∀ it tag, it ∈ sys_items s → tag ∈ is_setList it → is_Some (sys_store s !! tag)) ∧
  Forall (λ it, is_setList it = [] ∨ is_setList it = is_tagList it) (sys_items s).

(** The references to a set that [it] does not hold. *)
Definition others (its : list ItemState) (tun : list string) (it : ItemState) (tag : string) : Z :=
  refs its tun tag - cnt tag (is_setList it).

Lemma inv_held st its tun i it : inv (mkSystem st its tun) → small (mkSystem st its tun) → its !! i = Some it →
  counts st (λ tag, others its tun it tag + cnt tag (is_setList it)) ∧
  (∀ tag, 0 <= others its tun it tag ∧ others its tun it tag + cnt tag (is_tagList it) < 2 ^ 31) ∧
  (∀ tag, tag ∈ is_setList it → is_Some (st !! tag)) ∧ (is_setList it = [] ∨ is_setList it = is_tagList it).
Proof.
  intros (Hc & Hin & Hall) Hsm Hi. unfold others, refs, small in *. cbn [sys_store sys_items sys_tun] in *.
  pose proof (proj1 (Forall_lookup _ _) Hall i it Hi) as Hit. split_and!; [| | |done].
  - eapply counts_ext; [|exact Hc]. intros tag. unfold refs. lia.
  - intros tag. pose proof (total_elem its i it tag Hi). pose proof (cnt_nonneg tag tun). pose proof (cnt_len tag tun). split; [lia|].
    set (it' := mkItemState (is_tagList it) (is_tagList it)).
    assert (total (<[i := it']> its) tag <= capacity (<[i := it']> its)) as Hcap.
    { apply total_capacity, Forall_insert; [done|by right]. }
    rewrite (capacity_insert _ _ it), (total_insert _ _ it) in Hcap by done. cbn in Hcap. lia.
  - intros tag. apply Hin. by eapply list_elem_of_lookup_2.
Qed.

(** A bound for the references of an item holds while it has its sets. *)
Lemma held_bound its tun it tag :
  0 <= others its tun it tag → others its tun it tag + cnt tag (is_tagList it) < 2 ^ 31 → is_setList it = [] ∨ is_setList it = is_tagList it →
  others its tun it tag + cnt tag (is_setList it) < 2 ^ 31.
Proof. intros H0 H1 [->| ->]; [|done]. rewrite cnt_nil. pose proof (cnt_nonneg tag (is_tagList it)). lia. Qed.

Lemma inv_replace st its tun i it it' st' :
  inv (mkSystem st its tun) → its !! i = Some it → same_contents st' st →
  counts st' (λ tag, others its tun it tag + cnt tag (is_setList it')) →
  (∀ tag, tag ∈ is_setList it' → is_Some (st' !! tag)) → is_setList it' = [] ∨ is_setList it' = is_tagList it' →
  inv (mkSystem st' (<[i := it']> its) tun).
Proof.
  intros (_ & Hin & Hall) Hi Hsc Hc Hin' Hit'. split_and!.
  - eapply counts_ext; [|exact Hc]. intros tag. cbn [sys_items sys_tun]. unfold others, refs. rewrite (total_insert its i it it') by done. lia.
  - cbn [sys_items sys_store] in *. intros x tag (j & Hj)%list_elem_of_lookup_1 Ht.
    destruct (decide (i = j)) as [<-|Hne].
    + rewrite list_lookup_insert_eq in Hj by (by eapply lookup_lt_Some). simplify_eq. by apply Hin'.
    + rewrite list_lookup_insert_ne in Hj by done. apply (same_contents_is_Some _ _ tag Hsc).
      eapply Hin; [by eapply list_elem_of_lookup_2|done].
  - by apply Forall_insert.
Qed.

Lemma close_inv st its tun i it : inv (mkSystem st its tun) → small (mkSystem st its tun) → its !! i = Some it →
  ∃ st', RuleSetItem_Close it st = Ok (mkItemState (is_tagList it) [], st') ∧ same_contents st' st ∧ counts st' (others its tun it).
Proof.
  intros Hinv Hsm Hi. destruct (inv_held st its tun i it Hinv Hsm Hi) as (Hc & Hn & Hin & Hit).
  destruct (decAll_counts _ st _ Hc) as (st' & Hd & Hc' & Hsc); [|done|].
  { intros tag. destruct (Hn tag). split; [done|]. by apply held_bound. }
  exists st'. unfold RuleSetItem_Close. rewrite Hd. done.
Qed.

Lemma start_inv st its tun i it : inv (mkSystem st its tun) → small (mkSystem st its tun) → its !! i = Some it →
  ∃ it' st' err, RuleSetItem_Start it st = Ok (it', st', err) ∧ same_contents st' st ∧
    inv (mkSystem st' (<[i := it']> its) tun) ∧ is_tagList it' = is_tagList it ∧
    (err = None → is_setList it' = is_tagList it) ∧ (err ≠ None → is_setList it' = []).
Proof.
  intros Hinv Hsm Hi. destruct (close_inv st its tun i it Hinv Hsm Hi) as (st1 & Hcl & Hsc & Hc1).
  destruct (inv_held st its tun i it Hinv Hsm Hi) as (_ & Hn & _ & _).
  unfold RuleSetItem_Start. rewrite Hcl. cbn [mbind result_bind is_tagList].
  destruct (startLoop (is_tagList it) [] st1) as [[held st2] missing] eqn:Hl.
  destruct (startLoop_counts _ _ _ (others its tun it) _ _ _ Hl) as (Hc2 & Hsc2 & Hin2 & Hb2 & Hall).
  { eapply counts_ext; [|exact Hc1]. intros tag. rewrite cnt_nil. lia. }
  { intros tag. rewrite cnt_nil. specialize (Hn tag). lia. }
  { intros tag H. by apply elem_of_nil in H. }
  assert (Hsc2' : same_contents st2 st) by (etrans; [exact Hsc2|exact Hsc]).
  destruct missing as [tag|].
  - destruct (decAll_counts held st2 _ Hc2) as (st3 & Hd & Hc3 & Hsc3); [intros t; split; [apply Hn|apply Hb2]|done|].
    assert (Hsc3' : same_contents st3 st) by (etrans; [exact Hsc3|exact Hsc2']).
    unfold RuleSetItem_Close. cbn [is_setList is_tagList]. rewrite Hd. cbn.
    eexists _, st3, _. split_and!; [done|done| |done|done|done].
    apply (inv_replace st its tun i it); [done..| |by intros ? ?%elem_of_nil|by left].
    eapply counts_ext; [|exact Hc3]. intros t. cbn [is_setList]. rewrite cnt_nil. lia.
  - eexists _, st2, None. split_and!; [done|done| |done| |done].
    + apply (inv_replace st its tun i it); try done. right. cbn. by rewrite Hall.
    + intros _. by rewrite Hall.
Qed.

Lemma insert_refs_inv st its tun tag s s' :
  inv (mkSystem st its tun) → st !! tag = Some s → ls_refs s' = ls_refs s → inv (mkSystem (<[tag := s']> st) its tun).
Proof.
  intros (Hc & Hin & Hall) Hs Hr. split_and!; cbn [sys_store sys_items] in *; [| |done].
  - intros t u. destruct (decide (t = tag)) as [->|Hne].
    + rewrite lookup_insert_eq. intros [= <-]. rewrite Hr. by apply Hc.
    + rewrite lookup_insert_ne by done. apply Hc.
  - intros it t Hit Ht. destruct (decide (t = tag)) as [->|Hne].
    + rewrite lookup_insert_eq. eauto.
    + rewrite lookup_insert_ne by done. eauto.
Qed.

Lemma tun_inv st its tun sets :
  inv (mkSystem st its tun) → small (mkSystem st its (sets ++ tun)) → Forall (λ tag, is_Some (st !! tag)) sets →
  inv (mkSystem (tunTakes sets st) its (sets ++ tun)).
Proof.
  intros (Hc & Hin & Hall) Hsm Hsets. unfold small in Hsm. cbn [sys_store sys_items sys_tun] in *.
  destruct (tunTakes_counts sets st _ Hc Hsets) as [Hc' Hsc].
  { intros tag. unfold refs. pose proof (total_nonneg its tag). pose proof (cnt_nonneg tag tun). pose proof (total_capacity its tag Hall).
    pose proof (cnt_len tag (sets ++ tun)) as Hl. rewrite cnt_app in Hl. lia. }
  split_and!; cbn [sys_store sys_items sys_tun]; [| |done].
  - eapply counts_ext; [|exact Hc']. intros tag. cbn beta. unfold refs. rewrite cnt_app. lia.
  - intros it tag Hit Ht. apply (same_contents_is_Some _ _ tag Hsc). eauto.
Qed.

(** There were no more references before a step than after it. *)
Lemma step_small s s' : sys_step s s' → small s' → small s.
Proof.
  unfold small. intros [i it it' st its tun st' err Hi Hs|i it it' st its tun st' Hi Hs|sets st its tun _| | ]; cbn [sys_items sys_tun]; try done.
  - rewrite (capacity_insert _ _ it); [done|done|]. unfold RuleSetItem_Start, RuleSetItem_Close in Hs.
    destruct (decAll (is_setList it) st); [|done..]. cbn in Hs. destruct (startLoop _ _ _) as [[held st2] [tag|]]; [|by simplify_eq].
    destruct (decAll held st2); [|done..]. by simplify_eq/=.
  - rewrite (capacity_insert _ _ it); [done|done|]. unfold RuleSetItem_Close in Hs. by destruct (decAll _ _); simplify_eq/=.
  - unfold len. rewrite length_app. lia.
Qed.

Lemma step_inv s s' : inv s → small s' → sys_step s s' → inv s'.
Proof.
  intros Hinv Hsm' Hstep. pose proof (step_small s s' Hstep Hsm') as Hsm.
  destruct Hstep as [i it it' st its tun st' err Hi Hs|i it it' st its tun st' Hi Hs|sets st its tun Hin|tag ls st its tun Hl|
    tag ls ls' nm validate options st its tun Hl Hr].
  - destruct (start_inv st its tun i it Hinv Hsm Hi) as (? & ? & ? & Hs' & _ & ? & _). by rewrite Hs' in Hs; simplify_eq.
  - destruct (close_inv st its tun i it Hinv Hsm Hi) as (st2 & Hs' & Hsc & Hc). rewrite Hs' in Hs. simplify_eq.
    apply (inv_replace st its tun i it); [done..| |by intros ? ?%elem_of_nil|by left].
    eapply counts_ext; [|exact Hc]. intros t. cbn [is_setList]. rewrite cnt_nil. lia.
  - by apply tun_inv.
  - eapply insert_refs_inv; [done..|]. unfold Cleanup. by destruct (ls_refs ls =? 0).
  - eapply insert_refs_inv; [done..|]. unfold reloadRules in Hr. by invert_ok.
Qed.

Lemma reachable_inv s : reachable s → small s → inv s.
Proof.
  induction 1 as [s (Hrefs & Hits & Htun)|s s' _ IH Hstep]; intros Hsm; [|eapply step_inv; [|done..]; by eapply IH, step_small].
  destruct s as [st its tun]. cbn in *. subst tun. split_and!; cbn [sys_store sys_items sys_tun].
  - intros tag ls Hl. rewrite (Hrefs tag ls Hl). clear -Hits. unfold refs. rewrite cnt_nil.
    induction Hits as [|it its Hit _ IH]; [done|]. rewrite total_cons, Hit, cnt_nil. lia.
  - intros it tag Hit Ht. rewrite Forall_forall in Hits. rewrite (Hits it Hit) in Ht. by apply elem_of_nil in Ht.
  - eapply Forall_impl; [exact Hits|]. intros it Hit. by left.
Qed.

(** Cleaning up frees nothing a held reference needs. *)
Lemma cleanup_resolve st its tun it tag ls ms ae :
  inv (mkSystem st its tun) → it ∈ its → st !! tag = Some ls →
  resolve (<[tag := Cleanup ls]> st) ms ae it = resolve st ms ae it.
Proof.
  intros (Hc & _ & _) (i & Hi)%list_elem_of_lookup_1 Hl. unfold resolve. f_equal.
  assert (∀ t, t ∈ is_setList it → t = tag → Cleanup ls = ls) as Hkeep.
  { intros t Ht ->. unfold Cleanup. pose proof (Hc tag ls Hl) as Hr. cbn [sys_items sys_tun] in Hr. unfold refs in Hr.
    pose proof (total_elem its i it tag Hi). pose proof (cnt_nonneg tag tun). apply cnt_elem in Ht. destruct (Z.eqb_spec (ls_refs ls) 0); [lia|done]. }
  clear Hi. induction (is_setList it) as [|t l IH]; [done|]. cbn.
  rewrite IH by (intros t' Ht' Heq; eapply Hkeep; [by right|done]).
  destruct (decide (t = tag)) as [->|Hne]; [|by rewrite lookup_insert_ne].
  rewrite lookup_insert_eq, Hl. cbn. by rewrite (Hkeep tag) by (done || left).
Qed.
End metadata.

(** C13: however rule-sets, the rules that use them and tun inbounds are started,
    closed, reloaded and cleaned up, the reference count of a set is the number of
    references that rule-set items hold and that tun inbounds have taken, so
    starting and closing an item never panics on a negative count and always
    returns, and the sets that items hold keep their rules when unused ones are
    cleaned up.  The counter has 32 bits: the tags of the items and the sets of the
    tun inbounds are fewer than [2 ^ 31] ([small]). *)
Theorem rule_set_refs_counted {EX : External} (s : System) (Hreach : reachable s) (Hsmall : small s) :
  (∀ tag ls, sys_store s !! tag = Some ls → ls_refs ls = total (sys_items s) tag + cnt tag (sys_tun s)) ∧
  (∀ i it, sys_items s !! i = Some it →
    is_ok (RuleSetItem_Start it (sys_store s)) = true ∧ is_ok (RuleSetItem_Close it (sys_store s)) = true) ∧
  (∀ it tag ls matchSource acceptEmpty, it ∈ sys_items s → sys_store s !! tag = Some ls →
    resolve (<[tag := Cleanup ls]> (sys_store s)) matchSource acceptEmpty it = resolve (sys_store s) matchSource acceptEmpty it).
Proof.
  apply reachable_inv in Hreach; [|done]. destruct s as [st its tun]. split_and!; [apply Hreach|..]; cbn [sys_store sys_items].
  - intros i it Hi. split.
    + by destruct (start_inv st its tun i it Hreach Hsmall Hi) as (? & ? & ? & -> & _).
    + by destruct (close_inv st its tun i it Hreach Hsmall Hi) as (? & -> & _).
  - intros it tag ls ms ae Hit Hl. by eapply cleanup_resolve.
Qed.

(** A store with one set, an item that refers to it twice, and a tun inbound that
    has taken it. *)
Definition demo_system : System :=
  mkSystem {["set"%string := mkLocalRuleSet (rs_rules demo_set) (rs_metadata demo_set) 0]}
    [mkItemState ["set"; "set"]%string []] [].
Definition demo_taken : System := mkSystem (tunTakes ["set"]%string (sys_store demo_system)) (sys_items demo_system) ["set"%string].

Lemma demo_initial : reachable demo_system.
Proof.
  apply reach_init. split; [|by repeat constructor].
  intros tag ls H. cbn [demo_system sys_store] in H. apply lookup_singleton_Some in H as [_ <-]. reflexivity.
Qed.

Lemma demo_taken_reachable : reachable demo_taken.
Proof.
  eapply reach_step; [exact demo_initial|]. apply (step_tun ["set"%string] _ _ []). repeat constructor. by eexists.
Qed.

Lemma rule_set_refs_counted_witness :
  reachable demo_taken ∧
  (∀ tag ls, sys_store demo_taken !! tag = Some ls → ls_refs ls = total (sys_items demo_taken) tag + cnt tag (sys_tun demo_taken)) ∧
  cnt "set" (sys_tun demo_taken) = 1 ∧
  is_ok (RuleSetItem_Start (mkItemState ["set"; "set"]%string []) (sys_store demo_taken)) = true.
Proof.
  split; [exact demo_taken_reachable|].
  destruct (rule_set_refs_counted demo_taken demo_taken_reachable) as (H1 & H2 & _); [vm_compute; reflexivity|].
  split; [exact H1|]. split; [vm_compute; reflexivity|]. apply (H2 0%nat). reflexivity.
Defined.

(** ** Metadata of built rules *)

Section describes.
Context {EX : External}.

(** Options as the decoders produce them: [Type] is "default" or "logical". *)
Fixpoint typed (o : HeadlessRuleOptions) : bool :=
  match o with
  | mkHeadlessRuleOptions t _ logical =>
      String.eqb t "default" || String.eqb t "logical" && forallb typed (lo_Rules logical)
  end.

Section ind.
Context (P : HeadlessRuleOptions → Prop).
Context (H : ∀ t d l, Forall P (lo_Rules l) → P (mkHeadlessRuleOptions t d l)).
Fixpoint HeadlessOptions_nested_ind (o : HeadlessRuleOptions) : P o :=
  match o with
  | mkHeadlessRuleOptions t d (mkLogicalOptions mode rules inv) =>
      H t d (mkLogicalOptions mode rules inv)
        ((fix all (l : list HeadlessRuleOptions) : Forall P l :=
          match l with
          | [] => Forall_nil_2 P
          | x :: l => Forall_cons_2 P x l (HeadlessOptions_nested_ind x) (all l)
          end) rules)
  end.
End ind.

(** A built rule has destination addresses exactly when its options say so. *)
Lemma NewDefaultHeadlessRule_ip nm o d :
  NewDefaultHeadlessRule nm o = Ok d →
  ruleSetItem d = None ∧ nonempty (destinationIPCIDRItems d) = isIPCIDRHeadlessRule o.
Proof.
  unfold NewDefaultHeadlessRule. rewrite addAll_made. intros (l & Hl & <-)%fmap_Ok.
  destruct (appendAll_frame l (newAbstractRule (h_Invert o) None)) as (_ & Hrs & _). split; [done|].
  pose proof (slot_items_appendAll ToDestinationIPCIDR l (newAbstractRule (h_Invert o) None)) as Hs.
  cbn [slot_items] in Hs. rewrite Hs. cbn [newAbstractRule destinationIPCIDRItems app].
  rewrite (pick_nonempty _ _ l Hl). fold (slot_set ToDestinationIPCIDR (headlessSteps nm o)).
  rewrite (slot_set_fields _ _ l Hl), headless_ip_fields. cbn [existsb fst].
  unfold isIPCIDRHeadlessRule. destruct (h_IPSet o), (nonempty (h_IPCIDR o)); done.
Qed.

Lemma existsb_Forall2 {A B} (f : A → bool) (g : B → bool) l k :
  Forall2 (λ x y, f x = g y) l k → existsb f l = existsb g k.
Proof. induction 1 as [|x y l k H _ IH]; [done|]. cbn. by rewrite H, IH. Qed.

Lemma NewHeadlessRule_may_defer nm o : ∀ r,
  typed o = true → NewHeadlessRule nm o = Ok r → may_defer env0 r = hasHeadless isIPCIDRHeadlessRule o.
Proof.
  induction o as [t d l IH] using HeadlessOptions_nested_ind. intros r Ht.
  cbn [typed hasHeadless NewHeadlessRule] in *.
  destruct (String.eqb_spec t "default") as [->|Hd]; cbn [orb String.eqb].
  - intros H. invert_ok. cbn [may_defer]. unfold default_may, ip_dest.
    match goal with H : NewDefaultHeadlessRule _ _ = Ok _ |- _ =>
      apply NewDefaultHeadlessRule_ip in H as [-> ->] end. by rewrite orb_false_r.
  - destruct (String.eqb_spec t "logical") as [->|]; [|done]. cbn [orb andb String.eqb] in *. intros H. invert_ok.
    cbn [may_defer]. unfold logical_may. cbn [l_rules].
    match goal with H : subRules _ _ _ = Ok _ |- _ => apply subRules_Forall2 in H; rename H into Hs end.
    symmetry. apply existsb_Forall2. revert IH Ht. clear - Hs.
    induction Hs as [|o r os rs Hb _ IHs]; [constructor|]. cbn. rewrite andb_true_iff, Forall_cons.
    intros [Ho Hos] [Hto Htos]. constructor; [symmetry; by apply Ho|by apply IHs].
Qed.

Lemma buildRules_Forall2 nm i options rules :
  buildRules nm i options = Ok rules → Forall2 (λ o r, NewHeadlessRule nm o = Ok r) options rules.
Proof.
  revert i rules; induction options as [|o options IH]; intros i rules; cbn; intros H; invert_ok; [constructor|].
  constructor; [done|]. eauto.
Qed.
End describes.

(** The metadata of a rule-set tells the truth about its rules: it reports
    address rules exactly when some rule of the set, at any depth of logical
    rules, can defer on the destination address. *)
Lemma metadata_describes_rules {EX : External} (networkManager : bool)
    (validate : RuleSetMetadata → result unit) (options : list HeadlessRuleOptions) (s s' : LocalRuleSet)
    (Htyped : forallb typed options = true)
    (Hreload : reloadRules networkManager validate options s = Ok s') :
  ContainsIPCIDRRule (ls_metadata s') = existsb (may_defer env0) (ls_rules s').
Proof.
  unfold reloadRules in Hreload. invert_ok. cbn. unfold HasHeadlessRule.
  match goal with H : buildRules _ _ _ = Ok _ |- _ => apply buildRules_Forall2 in H; rename H into Hb end.
  apply existsb_Forall2. revert Htyped. clear - Hb.
  induction Hb as [|o r os rs Hb _ IH]; [constructor|]. cbn. rewrite andb_true_iff. intros [Ho Hos].
  constructor; [symmetry; by eapply NewHeadlessRule_may_defer|by apply IH].
Qed.

Lemma metadata_describes_rules_witness :
  match reloadRules true (λ _, Ok tt)
    [mkHeadlessRuleOptions "logical" demo_options (mkLogicalOptions "or"
      [mkHeadlessRuleOptions "default" demo_options (mkLogicalOptions "" [] false)] false)]
    (mkLocalRuleSet [] (mkRuleSetMetadata false false false false false) 0) with
  | Ok s' => ContainsIPCIDRRule (ls_metadata s') = true ∧
             ContainsIPCIDRRule (ls_metadata s') = existsb (may_defer env0) (ls_rules s')
  | _ => False
  end.
Proof.
  set (options := [_]). set (s := mkLocalRuleSet _ _ _).
  assert (Hok : match reloadRules true (λ _, Ok tt) options s with
    | Ok s' => ContainsIPCIDRRule (ls_metadata s') = true | _ => False end) by (vm_compute; reflexivity).
  destruct (reloadRules true (λ _, Ok tt) options s) as [s'| |] eqn:H; [|destruct Hok..].
  split; [exact Hok|].
  apply (metadata_describes_rules true (λ _, Ok tt) options s s'); [vm_compute; reflexivity|exact H].
Defined.
