(* ===== verification/Sniff.v ===== *)
(** Protocol sniffers ([common/sniff], all but [quic.go]).

    A sniffer looks at the first packet, or at the bytes of a stream read so
    far, and on success writes the protocol (and the domain or the client) into
    the metadata.  Streams arrive as the chunks [io.MultiReader] joins. *)

From S2P Require Import Prelude GoBytes GoSlices GoStrings Netip Metadata RuleAction.

(** ** State *)

(** [qCryptoFragment] of [quic.go]: a piece of the TLS handshake. *)
Record qCryptoFragment : Type := mkFragment { fr_offset : Z; fr_length : Z; fr_payload : list byte }.

(** [*adapter.InboundContext] as sniffing sees it: with the fields
    [SniffContext], [SnifferNames] and [SniffError] no rule reads.  The only
    values [SniffContext] holds are [nil] and a list of fragments. *)
Record SniffMetadata : Type := mkSniffMetadata {
  sm : InboundContext;
  SniffContext : option (list qCryptoFragment);
  sm_SnifferNames : list string;
  SniffError : option goerr
}.

Definition on_context (f : InboundContext → InboundContext) (m : SniffMetadata) : SniffMetadata :=
  mkSniffMetadata (f (sm m)) (SniffContext m) (sm_SnifferNames m) (SniffError m).

Definition packetSniffer : Type := SniffMetadata → list byte → result unit * SniffMetadata.
Definition streamSniffer : Type := SniffMetadata → list (list byte) → result unit * SniffMetadata.

(** The tail of a sniffer: on success the metadata is written. *)
Definition sniffed {A} (r : result A) (f : A → InboundContext → InboundContext) (m : SniffMetadata)
    : result unit * SniffMetadata :=
  match r with
  | Ok a => (Ok tt, on_context (f a) m)
  | Err e => (Err e, m)
  | Panic p => (Panic p, m)
  end.

Definition protocol (name : string) : unit → InboundContext → InboundContext := λ _, set_Protocol name.

(** [if cond { return os.ErrInvalid }]. *)
Definition invalid_if (cond : bool) : result unit := if cond then Err ErrInvalid else Ok tt.

(** ** Code outside the repository *)

(** Functions of [sing], [miekg/dns], [crypto/tls] and the error package that
    the sniffers call. *)
Class SniffLib : Type := {
  E_Errors : list goerr → option goerr;
  errors_Is : goerr → goerr → bool;
  SkipN : Z → list byte → result (list byte);
  ReadFullFrom : Z → list byte → list byte * option goerr;
  Msg_Unpack : list byte → result Msg;
  tls_ClientHello : list byte → option string * goerr;
  http_ReadRequest : list byte → result string;
  ParseSocksaddr : string → Socksaddr
}.

(** What the code relies on: [E.Errors] joins the errors it is given and
    [errors.Is] sees through the joined and the caused ones; the two readers
    take exactly the bytes they are asked for or report that there are fewer;
    unpacking a message and parsing a request return. *)
Class SniffLaws (SL : SniffLib) : Prop := {
  E_Errors_nil : E_Errors [] = None;
  E_Errors_cons : ∀ errs, errs ≠ [] →
    ∃ e, E_Errors errs = Some e ∧ ∀ t, errors_Is e t = existsb (λ x, errors_Is x t) errs;
  Is_Cause1 : ∀ e c t, errors_Is (ErrCause1 e c) t = errors_Is e t || errors_Is c t;
  Is_NeedMoreData : errors_Is ErrNeedMoreData ErrNeedMoreData = true;
  Is_Invalid : errors_Is ErrInvalid ErrNeedMoreData = false;
  SkipN_enough : ∀ n bs, 0 ≤ n ≤ len bs → SkipN n bs = Ok (from bs n);
  SkipN_short : ∀ n bs, len bs < n → ∃ e, SkipN n bs = Err e;
  ReadFullFrom_enough : ∀ n bs, 0 ≤ n ≤ len bs → ReadFullFrom n bs = (slice bs 0 n, None);
  ReadFullFrom_short : ∀ n bs, len bs < n → ∃ e, ReadFullFrom n bs = (bs, Some e);
  Msg_Unpack_safe : ∀ bs, safe (Msg_Unpack bs);
  ReadRequest_safe : ∀ bs, safe (http_ReadRequest bs)
}.

(** ** Packet sniffers *)

(** [stun.go] *)
Definition STUNMessage : packetSniffer := λ m packet,
  let pLen := len packet in
  sniffed (
    invalid_if (pLen <? 20);;
    s ← slc packet 4 8; cookie ← uint_be 4 s;
    invalid_if (negb (cookie =? 0x2112A442));;
    s ← slc packet 2 4; length ← uint_be 2 s;
    invalid_if (len packet <? 20 + length)) (protocol "stun") m.

(** [for extension != 0 { ... }] of [UTP]; [rest] is what the reader has left.
    [Seek] may move past the end, where every read is at the end of file.  A
    round takes at least two bytes, so the loop ends within [len rest + 1]
    rounds. *)
Fixpoint UTP_extensions (fuel : nat) (extension : Z) (rest : list byte) : result unit :=
  if extension =? 0 then Ok tt else
  match fuel with
  | O => Panic "out of fuel"
  | S fuel =>
      '(extension, rest) ← ReadU8 rest;
      invalid_if (0x04 <? extension);;
      '(length, rest) ← ReadU8 rest;
      UTP_extensions fuel extension (from rest length)
  end.

(** [bittorrent.go], [UTP]. *)
Definition UTP : packetSniffer := λ m packet,
  sniffed (
    invalid_if (len packet <? 20);;
    p0 ← idx packet 0;
    let version := Z.land p0 0x0F in
    let ty := Z.shiftr p0 4 in
    invalid_if (negb (version =? 1) || (4 <? ty));;
    extension ← idx packet 1;
    rest ← slc_from packet 20;
    UTP_extensions (S (length rest)) extension rest) (protocol "bittorrent") m.

(** [bittorrent.go], [UDPTracker]. *)
Definition trackerConnectFlag : Z := 0.
Definition trackerProtocolID : Z := 0x41727101980.
Definition trackerConnectMinSize : Z := 16.

Definition UDPTracker : packetSniffer := λ m packet,
  sniffed (
    invalid_if (len packet <? trackerConnectMinSize);;
    s ← slc packet 0 8; id ← uint_be 8 s;
    invalid_if (negb (id =? trackerProtocolID));;
    s ← slc packet 8 12; flag ← uint_be 4 s;
    invalid_if (negb (flag =? trackerConnectFlag))) (protocol "bittorrent") m.

(** [dtls.go] *)
Definition DTLSRecord : packetSniffer := λ m packet,
  sniffed (
    invalid_if (len packet <? 13);;
    contentType ← idx packet 0;
    invalid_if (negb (containsb contentType [20; 21; 22; 23; 25]));;
    versionMajor ← idx packet 1;
    invalid_if (negb (versionMajor =? 0xfe));;
    versionMinor ← idx packet 2;
    invalid_if (negb (versionMinor =? 0xff) && negb (versionMinor =? 0xfd))) (protocol "dtls") m.

(** [ntp.go].  A [uint32] divided by 65536 is exact in [float64], so
    [float64(d)/65536.0 > 16.0] is [d > 16 * 65536]. *)
Definition NTP : packetSniffer := λ m packet,
  let pLen := len packet in
  sniffed (
    invalid_if (pLen <? 48);;
    firstByte ← idx packet 0;
    let li := Z.land (Z.shiftr firstByte 6) 0x03 in
    let vn := Z.land (Z.shiftr firstByte 3) 0x07 in
    let mode := Z.land firstByte 0x07 in
    invalid_if (3 <? li);;
    invalid_if (negb (vn =? 3) && negb (vn =? 4));;
    invalid_if (negb (mode =? 3));;
    s ← slc packet 4 8; rootDelay ← uint_be 4 s;
    s ← slc packet 8 12; rootDispersion ← uint_be 4 s;
    invalid_if (16 * 65536 <? rootDelay);;
    invalid_if (16 * 65536 <? rootDispersion)) (protocol "ntp") m.

(** [wireguard_lx.go] *)
Definition wgSizeInitiation : Z := 148.
Definition wgSizeResponse : Z := 92.
Definition wgSizeCookie : Z := 64.
Definition wgSizeTransportMin : Z := 32.

Definition WireGuard : packetSniffer := λ m packet,
  sniffed (
    invalid_if (len packet <? 4);;
    type_ ← idx packet 0;
    if type_ =? 1 then invalid_if (negb (len packet =? wgSizeInitiation))
    else if type_ =? 2 then invalid_if (negb (len packet =? wgSizeResponse))
    else if type_ =? 3 then invalid_if (negb (len packet =? wgSizeCookie))
    else if type_ =? 4 then
      invalid_if ((len packet <? wgSizeTransportMin) || negb (Z.rem (len packet - wgSizeTransportMin) 16 =? 0))
    else Err ErrInvalid) (protocol "wireguard") m.

(** [openvpn_lx.go] *)
Definition ovpnOpcodeHardResetClientV2 : Z := 7.
Definition ovpnOpcodeHardResetClientV3 : Z := 10.
Definition ovpnPlainLen : Z := 14.
Definition ovpnTLSCryptMin : Z := 49.
Definition ovpnTCPMaxLen : Z := 4096.
Definition ovpnHMACLens : list Z := [16; 20; 28; 32; 48; 64].

(** [now] is [time.Now().Unix()]. *)
Definition ovpnTimePlausible (now t : Z) : bool := (1262304000 <=? t) && (t <=? now + 86400).

Definition ovpnAllZero (b : list byte) : bool := forallb (λ x, bz x =? 0) b.

(** [b && f()] where evaluating [f] may panic. *)
Definition and_then (b : bool) (f : result bool) : result bool := if b then f else Ok false.

(** The condition of the loop over [ovpnHMACLens]. *)
Definition ovpnTLSAuth (now : Z) (p : list byte) (h : Z) : result bool :=
  and_then (len p =? 22 + h) (
    s ← slc_from p (9 + h); replay ← uint_be 4 s;
    and_then (replay =? 1) (
      s ← slc_from p (13 + h); time ← uint_be 4 s;
      and_then (ovpnTimePlausible now time) (
        acks ← idx p (17 + h);
        and_then (acks =? 0) (s ← slc p (18 + h) (22 + h); Ok (ovpnAllZero s))))).

Fixpoint ovpnTLSAuth_loop (now : Z) (p : list byte) (lens : list Z) : result bool :=
  match lens with
  | [] => Ok false
  | h :: lens => ovpnTLSAuth now p h ≫= λ b : bool, if b then Ok true else ovpnTLSAuth_loop now p lens
  end.

Definition ovpnTLSCrypt (now : Z) (p : list byte) : result bool :=
  and_then (ovpnTLSCryptMin <=? len p) (
    s ← slc_from p 9; replay ← uint_be 4 s;
    and_then (replay =? 1) (
      s ← slc_from p 13; time ← uint_be 4 s;
      Ok (ovpnTimePlausible now time))).

Definition ovpnCheck (now : Z) (p : list byte) : result bool :=
  if len p <? ovpnPlainLen then Ok false else
  p0 ← idx p 0;
  if negb (Z.land p0 0x07 =? 0) then Ok false else
  let op := Z.shiftr p0 3 in
  if negb ((op =? ovpnOpcodeHardResetClientV2) || (op =? ovpnOpcodeHardResetClientV3)) then Ok false else
  if len p =? ovpnPlainLen then
    p9 ← idx p 9; and_then (p9 =? 0) (s ← slc p 10 14; Ok (ovpnAllZero s))
  else
    ovpnTLSAuth_loop now p ovpnHMACLens ≫= λ b : bool, if b then Ok true else ovpnTLSCrypt now p.

Definition OpenVPN (now : Z) : packetSniffer := λ m packet,
  sniffed (ok ← ovpnCheck now packet; invalid_if (negb ok)) (protocol "openvpn") m.

(** [ike_lx.go] *)
Definition ikeHeaderLen : Z := 28.
Definition ikeV1Version : Z := 0x10.
Definition ikeV2Version : Z := 0x20.

(** The part of [IKE] after the NAT-T marker is dropped. *)
Definition ikeHeader (p : list byte) : result unit :=
  invalid_if (len p <? ikeHeaderLen);;
  spii ← slc p 0 8; spir ← slc p 8 16;
  invalid_if (ovpnAllZero spii || negb (ovpnAllZero spir));;
  nextPayload ← idx p 16; version ← idx p 17; exchange ← idx p 18; flags ← idx p 19;
  invalid_if (nextPayload =? 0);;
  (if version =? ikeV2Version then invalid_if (negb (exchange =? 34) || negb (flags =? 0x08))
   else if version =? ikeV1Version then
     invalid_if ((negb (exchange =? 2) && negb (exchange =? 4)) || negb (flags =? 0))
   else Err ErrInvalid);;
  s ← slc_from p 20; messageID ← uint_be 4 s;
  invalid_if (negb (messageID =? 0));;
  s ← slc_from p 24; length ← uint_be 4 s;
  invalid_if (negb (length =? len p)).

Definition IKE : packetSniffer := λ m packet,
  sniffed (
    marker ← (if ikeHeaderLen + 4 <=? len packet then s ← slc packet 0 4; Ok (ovpnAllZero s) else Ok false);
    p ← (if marker : bool then slc_from packet 4 else Ok packet);
    ikeHeader p) (protocol "ike") m.

(** [tailscale_lx.go] *)
Definition tailscaleDiscoMagic : list byte := [x54; x53; xf0; x9f; x92; xac].
Definition tailscaleDiscoMinLen : Z := 6 + 32 + 24 + 16.

(** [bytes.HasPrefix]. *)
Definition bytesHasPrefix (b prefix : list byte) : bool :=
  bool_decide (take (length prefix) b = prefix).

Definition TailscaleDisco : packetSniffer := λ m packet,
  sniffed (invalid_if ((len packet <? tailscaleDiscoMinLen) || negb (bytesHasPrefix packet tailscaleDiscoMagic)))
    (protocol "tailscale") m.

(** ** SIP *)

(** [strings.IndexFunc]: the position of the first byte that satisfies [f];
    [strings.IndexByte] and [strings.IndexAny] for one-byte characters. *)
Fixpoint IndexFunc (f : ascii → bool) (s : string) : option nat :=
  match s with
  | EmptyString => None
  | String c s => if f c then Some 0%nat else S <$> IndexFunc f s
  end.
Fixpoint LastIndexFunc (f : ascii → bool) (s : string) : option nat :=
  match s with
  | EmptyString => None
  | String c s =>
      match LastIndexFunc f s with
      | Some i => Some (S i)
      | None => if f c then Some 0%nat else None
      end
  end.
(** [strings.Index(s, sub)]. *)
Fixpoint Index (s sub : string) : option nat :=
  if HasPrefix s sub then Some 0%nat else
  match s with EmptyString => None | String _ s => S <$> Index s sub end.
(** [s[:n]]. *)
Fixpoint str_to (s : string) (n : nat) : string :=
  match n, s with
  | S n, String c s => String c (str_to s n)
  | _, _ => EmptyString
  end.

Definition char_is (c d : ascii) : bool := Ascii.eqb c d.
Definition any_of (cs : list ascii) (c : ascii) : bool := existsb (Ascii.eqb c) cs.

Definition sipVersion : string := "SIP/2.0".
Definition sipMaxLineLen : Z := 1024.
Definition sipMinLineLen : nat := 17.
Definition sipPeekInitial : Z := 10.
Definition sipMethods : list string :=
  ["INVITE"; "ACK"; "BYE"; "CANCEL"; "OPTIONS"; "REGISTER"; "PRACK"; "SUBSCRIBE"; "NOTIFY";
   "PUBLISH"; "INFO"; "REFER"; "MESSAGE"; "UPDATE"]%string.

Definition sipMethodPrefix (b : list byte) : bool :=
  existsb (λ m, let ms := str_bytes (String.append m " ") in
    let n := Nat.min (length b) (length ms) in bool_decide (take n b = take n ms)) sipMethods.

Section sip.
Context {EX : External}.

(** The host of a [sip:] URI once the scheme is removed. *)
Definition sipHost (hostPart : string) : option string :=
  let hostPart := match LastIndexFunc (char_is "@") hostPart with
                  | Some i => str_from hostPart (i + 1) | None => hostPart end in
  let hostPart := match IndexFunc (any_of [";"; "?"]%char) hostPart with
                  | Some i => str_to hostPart i | None => hostPart end in
  if HasPrefix hostPart "[" then Some ""%string else
  let hostPart := match IndexFunc (char_is ":") hostPart with
                  | Some i => str_to hostPart i | None => hostPart end in
  if String.eqb hostPart "" then None else
  if is_ok (ParseAddr hostPart) then Some ""%string
  else Some (strings_ToLower hostPart).

(** [sipParseRequestLine]: [None] is [("", false)]. *)
Definition sipParseRequestLine (line : string) : option string :=
  if Nat.ltb (String.length line) sipMinLineLen then None else
  match Cut line " " with
  | None => None
  | Some (method, rest) =>
      if negb (containsb method sipMethods) then None else
      match Cut rest " " with
      | None => None
      | Some (uri, version) =>
          if negb (String.eqb version sipVersion) || String.eqb uri "" ||
             bool_decide (is_Some (IndexFunc (any_of [" "; "009"]%char) uri)) then None else
          let lower := strings_ToLower uri in
          if HasPrefix lower "sip:" then sipHost (str_from uri 4)
          else if HasPrefix lower "sips:" then sipHost (str_from uri 5)
          else if HasPrefix lower "tel:" then Some ""%string
          else None
      end
  end.

Definition sipApply (m : SniffMetadata) (line : string) : result unit * SniffMetadata :=
  match sipParseRequestLine line with
  | None => (Err ErrInvalid, m)
  | Some host =>
      let m := on_context (set_Protocol "sip") m in
      (Ok tt, if String.eqb host "" then m else on_context (set_Domain host) m)
  end.

Definition CRLF : string := String "013" (String "010" EmptyString).

Definition SIP : packetSniffer := λ m packet,
  if negb (sipMethodPrefix packet) then (Err ErrInvalid, m) else
  match Index (bytes_str (slice packet 0 (Z.min (len packet) sipMaxLineLen))) CRLF with
  | None => (Err ErrInvalid, m)
  | Some end_ => sipApply m (bytes_str (slice packet 0 (Z.of_nat end_)))
  end.
End sip.

(** ** DNS *)

Section dns.
Context {SL : SniffLib}.

(** [DomainNameQuery]: [return err] with a nil [err] on a message that is no
    query accepts it without naming a protocol. *)
Definition DomainNameQuery : packetSniffer := λ m packet,
  match Msg_Unpack packet with
  | Err e => (Err e, m)
  | Panic p => (Panic p, m)
  | Ok msg =>
      if msg_Response msg || negb (nonempty (msg_Question msg)) || nonempty (msg_Answer msg) || nonempty (msg_Ns msg)
      then (Ok tt, m)
      else (Ok tt, on_context (set_Protocol "dns") m)
  end.
End dns.

(** ** Readers over chunks *)

(** One [Read] of at most [n] bytes from an [io.MultiReader] of byte readers:
    what the first chunk that is not used up can give. *)
Fixpoint MultiRead (n : nat) (chunks : list (list byte)) : result (list byte) * list (list byte) :=
  match chunks with
  | [] => (Err ErrEOF, [])
  | [] :: chunks => MultiRead n chunks
  | chunk :: chunks => (Ok (take n chunk), drop n chunk :: chunks)
  end.

(** [io.ReadFull]: [Read] until [n] bytes have arrived. *)
Fixpoint MultiReadFull_loop (fuel n : nat) (acc : list byte) (chunks : list (list byte))
    : result (list byte) * list (list byte) :=
  if decide (n ≤ length acc)%nat then (Ok acc, chunks) else
  match fuel with
  | O => (Panic "out of fuel", chunks)
  | S fuel =>
      match MultiRead (n - length acc) chunks with
      | (Ok got, chunks) => MultiReadFull_loop fuel n (acc ++ got) chunks
      | (Err e, chunks) => (Err (if acc then e else ErrUnexpectedEOF), chunks)
      | (Panic p, chunks) => (Panic p, chunks)
      end
  end.
Definition MultiReadFull (n : nat) (chunks : list (list byte)) : result (list byte) * list (list byte) :=
  MultiReadFull_loop (S n) n [] chunks.

(** [E.Cause1(ErrNeedMoreData, err)]. *)
Definition need_more {A} (r : result A) : result A :=
  match r with Err e => Err (ErrCause1 ErrNeedMoreData e) | _ => r end.

(** [bufio.Reader.Peek(n)] on a reader that gives [bs] and then ends, for [n]
    within the buffer: the bytes there are, and an error when they are fewer. *)
Definition Peek (n : Z) (bs : list byte) : list byte * option goerr :=
  if n <=? len bs then (slice bs 0 n, None) else (bs, Some ErrEOF).

Definition newline : byte := x0a.

(** [bufio.Reader.ReadSlice('\n')] with a buffer of [size] bytes.
    [ErrBufferFull] is reported as [None]. *)
Definition index_byte (b : byte) (bs : list byte) : option nat := fst <$> list_find (eq b) bs.
Definition ReadSlice (size : nat) (bs : list byte) : option (result (list byte)) :=
  match index_byte newline (take size bs) with
  | Some i => Some (Ok (take (S i) bs))
  | None => if decide (size ≤ length bs)%nat then None else Some (Err ErrEOF)
  end.

(** [bytes]/[strings.TrimSuffix] for one byte. *)
Definition trim_suffix (b : byte) (l : list byte) : list byte :=
  match last l with
  | Some c => if bool_decide (c = b) then removelast l else l
  | None => l
  end.

(** [bufio.Reader.ReadLine] with a buffer of [size] bytes: the line without its
    end; a line the buffer cannot hold is cut; at the end of the input the
    rest is a line.  The error is only for an empty rest. *)
Definition ReadLine (size : nat) (bs : list byte) : result (list byte) :=
  match ReadSlice size bs with
  | None => Ok (trim_suffix x0d (take size bs))
  | Some (Err e) => match bs with [] => Err e | _ => Ok bs end
  | Some (Ok line) => Ok (trim_suffix x0d (removelast line))
  | Some (Panic p) => Panic p
  end.

(** ** Stream sniffers *)

(** [bittorrent.go], [BitTorrent]. *)
Definition BitTorrentHeader : list byte := str_bytes "BitTorrent protocol".

Definition BitTorrent : streamSniffer := λ m chunks,
  let '(r, chunks) := MultiReadFull 1 chunks in
  sniffed (
    first ← need_more r;
    invalid_if (negb (be first =? 19));;
    let '(r, _) := MultiRead 19 chunks in
    let protocol := match r with Ok got => got | _ => [] end in
    invalid_if (negb (bool_decide (protocol = take (length protocol) BitTorrentHeader)));;
    need_more r;;
    (if decide (length protocol < 19)%nat then Err ErrNeedMoreData else Ok tt)) (protocol "bittorrent") m.

(** [ssh.go] *)
Definition sshPrefix : list byte := str_bytes "SSH-2.0-".

Definition SSH : streamSniffer := λ m chunks,
  let bs := concat chunks in
  let '(prefix, err) := Peek (len sshPrefix) bs in
  sniffed (
    invalid_if (negb (bool_decide (prefix = take (length prefix) sshPrefix)));;
    (match err with Some e => Err (ErrCause1 ErrNeedMoreData e) | None => Ok tt end);;
    fistLine ← ReadLine 4096 bs;
    slc_from fistLine 8) (λ client c, set_Client (bytes_str client) (set_Protocol "ssh" c)) m.

Section streams.
Context {EX : External} {SL : SniffLib}.

(** [rdp.go] *)
Definition RDP_header (bs : list byte) : result unit :=
  '(tpktVersion, bs) ← need_more (ReadU8 bs);
  invalid_if (negb (tpktVersion =? 0x03));;
  '(tpktReserved, bs) ← need_more (ReadU8 bs);
  invalid_if (negb (tpktReserved =? 0x00));;
  '(tpktLength, bs) ← need_more (ReadBE 2 bs);
  invalid_if (negb (tpktLength =? 19));;
  '(cotpLength, bs) ← need_more (ReadU8 bs);
  invalid_if (negb (cotpLength =? 14));;
  '(cotpTpduType, bs) ← need_more (ReadU8 bs);
  invalid_if (negb (cotpTpduType =? 0xE0));;
  bs ← need_more (SkipN 5 bs);
  '(rdpType, bs) ← need_more (ReadU8 bs);
  invalid_if (negb (rdpType =? 0x01));;
  '(rdpFlags, bs) ← need_more (ReadU8 bs);
  '(rdpLength, bs) ← need_more (ReadU8 bs);
  invalid_if (negb (rdpLength =? 8)).

Definition RDP : streamSniffer := λ m chunks,
  sniffed (RDP_header (concat chunks)) (protocol "rdp") m.

(** [dns.go], [StreamDomainNameQuery]: the checks on the part of the message
    that has arrived. *)
Definition streamDNS_prefix (packet : list byte) : result unit :=
  let n := len packet in
  (if 2 <? n then p ← idx packet 2; invalid_if (negb (Z.land p 0x80 =? 0)) else Ok tt);;
  (if 5 <? n then p4 ← idx packet 4; p5 ← idx packet 5; invalid_if ((p4 =? 0) && (p5 =? 0)) else Ok tt);;
  (if 6 <? n then p ← idx packet 6; invalid_if (negb (p =? 0)) else Ok tt);;
  (if 7 <? n then p ← idx packet 7; invalid_if (negb (p =? 0)) else Ok tt);;
  (if 8 <? n then p ← idx packet 8; invalid_if (negb (p =? 0)) else Ok tt);;
  (if 9 <? n then p ← idx packet 9; invalid_if (negb (p =? 0)) else Ok tt).

Definition StreamDomainNameQuery : streamSniffer := λ m chunks,
  match need_more (ReadBE 2 (concat chunks)) with
  | Err e => (Err e, m)
  | Panic p => (Panic p, m)
  | Ok (length, bs) =>
      if length <? 12 then (Err ErrInvalid, m) else
      let '(packet, err) := ReadFullFrom length bs in
      match streamDNS_prefix packet with
      | Err e => (Err e, m)
      | Panic p => (Panic p, m)
      | Ok _ =>
          match err with
          | Some e => (Err (ErrCause1 ErrNeedMoreData e), m)
          | None => DomainNameQuery m packet
          end
      end
  end.

(** [sip_lx.go], [SIPStream]. *)
Definition SIPStream : streamSniffer := λ m chunks,
  let bs := concat chunks in
  let '(head, err) := Peek sipPeekInitial bs in
  if negb (sipMethodPrefix head) then (Err ErrInvalid, m) else
  match err with
  | Some e => (Err (ErrCause1 ErrNeedMoreData e), m)
  | None =>
      match ReadSlice (Z.to_nat sipMaxLineLen) bs with
      | None => (Err ErrInvalid, m)
      | Some (Err e) => (Err (ErrCause1 ErrNeedMoreData e), m)
      | Some (Panic p) => (Panic p, m)
      | Some (Ok line) => sipApply m (bytes_str (trim_suffix x0d (trim_suffix newline line)))
      end
  end.

(** [openvpn_lx.go], [OpenVPNStream]. *)
Definition OpenVPNStream (now : Z) : streamSniffer := λ m chunks,
  let bs := concat chunks in
  let '(head, err) := Peek 3 bs in
  sniffed (
    match err with
    | Some e =>
        early ← and_then (1 <=? len head) (h0 ← idx head 0; Ok (negb (h0 =? 0)));
        if early : bool then Err ErrInvalid else Err (ErrCause1 ErrNeedMoreData e)
    | None =>
        s ← slc head 0 2; frameLen ← uint_be 2 s;
        invalid_if ((frameLen <? ovpnPlainLen) || (ovpnTCPMaxLen <? frameLen));;
        op ← idx head 2;
        invalid_if (negb (op =? Z.shiftl ovpnOpcodeHardResetClientV2 3) && negb (op =? Z.shiftl ovpnOpcodeHardResetClientV3 3));;
        let '(frame, err) := Peek (2 + frameLen) bs in
        match err with
        | Some e => Err (ErrCause1 ErrNeedMoreData e)
        | None => body ← slc_from frame 2; ok ← ovpnCheck now body; invalid_if (negb ok)
        end
    end) (protocol "openvpn") m.

(** [tls.go]: the handshake with a server that only looks at the hello. *)
Definition TLSClientHello : streamSniffer := λ m chunks,
  match tls_ClientHello (concat chunks) with
  | (Some serverName, _) =>
      (Ok tt, on_context (λ c, set_Domain (sa_Fqdn (ParseSocksaddrHostPort serverName 0)) (set_Protocol "tls" c)) m)
  | (None, err) =>
      (Err (if errors_Is err ErrUnexpectedEOF then ErrCause1 ErrNeedMoreData err else err), m)
  end.

(** [http.go] *)
Definition HTTPHost : streamSniffer := λ m chunks,
  match http_ReadRequest (concat chunks) with
  | Err err => (Err (if errors_Is err ErrUnexpectedEOF then ErrCause1 ErrNeedMoreData err else err), m)
  | Panic p => (Panic p, m)
  | Ok host => (Ok tt, on_context (λ c, set_Domain (sa_Fqdn (ParseSocksaddr host)) (set_Protocol "http" c)) m)
  end.
End streams.

(** ** Peeking *)

(** [Skip]: the ports of server-first protocols. *)
Definition Skip (m : SniffMetadata) : bool :=
  containsb (sa_Port (Destination (sm m))) [25; 465; 587; 143; 993; 110; 995].

Section peek.
Context {SL : SniffLib}.

(** [return E.Errors(...)] as a result. *)
Definition errors_result (errs : list goerr) : result unit :=
  match E_Errors errs with Some e => Err e | None => Ok tt end.

Fixpoint PeekPacket_loop (m : SniffMetadata) (packet : list byte) (errs : list goerr)
    (sniffers : list packetSniffer) : result unit * SniffMetadata :=
  match sniffers with
  | [] => (errors_result errs, m)
  | sniffer :: sniffers =>
      match sniffer m packet with
      | (Ok _, m) => (Ok tt, m)
      | (Err e, m) => PeekPacket_loop m packet (errs ++ [e]) sniffers
      | (Panic p, m) => (Panic p, m)
      end
  end.

Definition PeekPacket (m : SniffMetadata) (packet : list byte) (sniffers : list packetSniffer)
    : result unit * SniffMetadata := PeekPacket_loop m packet [] sniffers.

(** What one round of the loop of [PeekStream] sees of the connection. *)
Inductive readEvent : Type :=
| SetDeadlineFails (e : goerr)
| ReadFails (e : goerr)
| ReadGot (data : list byte).

(** How the loop over the sniffers ends: with a success, or with the joined
    errors ([None] for [nil]). *)
Inductive roundOutcome : Type :=
| Accepted
| Failed (sniffError : option goerr)
| Panicked (msg : string).

Fixpoint PeekStream_round (m : SniffMetadata) (chunks : list (list byte)) (sniffError : option goerr)
    (sniffers : list streamSniffer) : roundOutcome * SniffMetadata :=
  match sniffers with
  | [] => (Failed sniffError, m)
  | sniffer :: sniffers =>
      match sniffer m chunks with
      | (Ok _, m) => (Accepted, m)
      | (Err e, m) => PeekStream_round m chunks (E_Errors (option_list sniffError ++ [e])) sniffers
      | (Panic p, m) => (Panicked p, m)
      end
  end.

(** [return sniffError]. *)
Definition error_result (e : option goerr) : result unit := match e with Some e => Err e | None => Ok tt end.

(** [PeekStream]: [buffers] are the buffers read before, [buffer] the bytes
    this call has read, [first] is [i == 0].  A connection that says nothing
    more ends the loop with a read error when the deadline passes; a buffer that is
    full is a read error among the events.  The result
    comes with what [buffer] holds at the end and what is left to read. *)
Fixpoint PeekStream_loop (first : bool) (m : SniffMetadata) (buffers : list (list byte)) (buffer : list byte)
    (sniffError : option goerr) (sniffers : list streamSniffer) (events : list readEvent)
    : (result unit * SniffMetadata) * (list byte * list readEvent) :=
  let stopped e := if first then (Err (ErrCause e "read payload"), m) else (error_result sniffError, m) in
  match events with
  | [] => (stopped (ErrExternal "i/o timeout"), (buffer, []))
  | SetDeadlineFails e :: events => ((Err (ErrCause e "set read deadline"), m), (buffer, events))
  | ReadFails e :: events => (stopped e, (buffer, events))
  | ReadGot data :: events =>
      let buffer := buffer ++ data in
      match PeekStream_round m (buffers ++ [buffer]) None sniffers with
      | (Accepted, m) => ((Ok tt, m), (buffer, events))
      | (Panicked p, m) => ((Panic p, m), (buffer, events))
      | (Failed (Some e), m) =>
          if errors_Is e ErrNeedMoreData then PeekStream_loop false m buffers buffer (Some e) sniffers events
          else ((Err e, m), (buffer, events))
      | (Failed None, m) => ((Ok tt, m), (buffer, events))
      end
  end.

Definition PeekStream (m : SniffMetadata) (buffers : list (list byte)) (sniffers : list streamSniffer)
    (events : list readEvent) : (result unit * SniffMetadata) * (list byte * list readEvent) :=
  PeekStream_loop true m buffers [] None sniffers events.
End peek.
