(* ===== verification/Ja3.v ===== *)
(** The TLS ClientHello parser of [common/ja3].

    [ja3_Compute] parses one TLS record that holds a ClientHello; [marshalJA3]
    prints the JA3 string.  On an error the source also leaves a half-filled
    [ClientHello] behind, which no caller reads. *)

From S2P Require Import Prelude GoBytes GoSlices GoStrings.

(** ** Data *)

(** [ClientHello], without the memoised [ja3ByteString] and [ja3Hash]. *)
Record ClientHello : Type := mkHello {
  Version : Z;
  CipherSuites : list Z;
  Extensions : list Z;
  EllipticCurves : list Z;
  EllipticCurvePF : list Z;
  Versions : list Z;
  SignatureAlgorithms : list Z;
  ServerName : string
}.

(** [ParseError{LengthErr, check}] and its kin, as [Error()] prints them. *)
Definition LengthErr (check : Z) : goerr :=
  ErrNew (String.append "length check " (String.append (FormatUint check) " failed")).
Definition VersionErr (check : Z) : goerr :=
  ErrNew (String.append "version check " (String.append (FormatUint check) " failed")).
Definition ContentTypeErr : goerr := ErrNew "content type not matching".
Definition HandshakeTypeErr : goerr := ErrNew "handshake type not matching".
Definition SNITypeErr : goerr := ErrNew "SNI type not supported".

Definition recordLayerHeaderLen : Z := 5.
Definition handshakeHeaderLen : Z := 6.
Definition randomDataLen : Z := 32.
Definition sessionIDHeaderLen : Z := 1.
Definition cipherSuiteHeaderLen : Z := 2.
Definition compressMethodHeaderLen : Z := 1.
Definition extensionsHeaderLen : Z := 2.
Definition extensionHeaderLen : Z := 4.
Definition sniExtensionHeaderLen : Z := 5.
Definition tlsVersionBitmask : Z := 0xFFFC.
Definition tls13 : Z := 0x0304.
Definition GreaseBitmask : Z := 0x0F0F.

(** [if cond { return &ParseError{...} }]. *)
Definition fail_if (cond : bool) (e : goerr) : result unit := if cond then Err e else Ok tt.

(** [uint16(p[i])<<8 | uint16(p[i+1])]. *)
Definition u16 (p : list byte) (i : Z) : result Z :=
  a ← idx p i; b ← idx p (i + 1); Ok (Z.lor (Z.shiftl a 8) b).

(** [for i := range n { list = append(list, u16 at start+2*i) }]. *)
Definition u16_list (p : list byte) (start n : Z) : result (list Z) :=
  forM (λ i, u16 p (start + 2 * i)) (seqZ 0 n).

(** ** Extensions *)

(** The variables the extension loop fills. *)
Record extensionVars : Type := mkVars {
  v_sni : list byte;
  v_extensions : list Z;
  v_ellipticCurves : list Z;
  v_ellipticCurvePF : list Z;
  v_versions : list Z;
  v_signatureAlgorithms : list Z
}.

(** The [switch exType] of the loop, on the body [sex] of one extension. *)
Definition parseExtension (exType : Z) (sex : list byte) (v : extensionVars) : result extensionVars :=
  let '(mkVars sni exts curves pf versions algs) := v in
  if exType =? 0 then
    fail_if (len sex <? sniExtensionHeaderLen) (LengthErr 13);;
    sniType ← idx sex 2; sniLen ← u16 sex 3;
    sex ← slc_from sex sniExtensionHeaderLen;
    fail_if (negb (len sex =? sniLen)) (LengthErr 14);;
    if sniType =? 0 then Ok (mkVars sex exts curves pf versions algs) else Err SNITypeErr
  else if exType =? 10 then
    fail_if (len sex <? 2) (LengthErr 15);;
    ecsLen ← u16 sex 0; sex ← slc_from sex 2;
    fail_if (negb (len sex =? ecsLen)) (LengthErr 16);;
    curves ← u16_list sex 0 (ecsLen / 2);
    Ok (mkVars sni exts curves pf versions algs)
  else if exType =? 11 then
    fail_if (len sex <? 1) (LengthErr 17);;
    numPF ← idx sex 0; sex ← slc_from sex 1;
    fail_if (negb (len sex =? numPF)) (LengthErr 18);;
    pf ← forM (λ i, idx sex i) (seqZ 0 numPF);
    Ok (mkVars sni exts curves pf versions algs)
  else if exType =? 43 then
    fail_if (len sex <? 1) (LengthErr 19);;
    versionsLen ← idx sex 0; sex ← slc_from sex 1;
    fail_if (len sex <? versionsLen) (LengthErr 21);;
    more ← forM (λ i, s ← slc_from sex (i * 2); uint_be 2 s) (seqZ 0 (versionsLen / 2));
    Ok (mkVars sni exts curves pf (versions ++ more) algs)
  else if exType =? 13 then
    fail_if (len sex <? 2) (LengthErr 20);;
    ssaLen ← uint_be 2 sex; sex ← slc_from sex 2;
    fail_if (len sex <? ssaLen) (LengthErr 22);;
    more ← forM (λ i, s ← slc_from sex (i * 2); uint_be 2 s) (seqZ 0 (ssaLen / 2));
    Ok (mkVars sni exts curves pf versions (algs ++ more))
  else Ok v.

Definition add_extension (exType : Z) (v : extensionVars) : extensionVars :=
  mkVars (v_sni v) (v_extensions v ++ [exType]) (v_ellipticCurves v) (v_ellipticCurvePF v)
    (v_versions v) (v_signatureAlgorithms v).

(** [for len(exs) > 0 { ... exs = exs[4+exLen:] }].  The sum [4+exLen] is a
    [uint16]: it wraps.  When it does not, every round takes at least four
    bytes and [S (length exs)] rounds are enough. *)
Fixpoint parseExtensions_loop (fuel : nat) (exs : list byte) (v : extensionVars) : result extensionVars :=
  if len exs <=? 0 then Ok v else
  match fuel with
  | O => Panic "out of fuel"
  | S fuel =>
      fail_if (len exs <? extensionHeaderLen) (LengthErr 11);;
      exType ← u16 exs 0; exLen ← u16 exs 2;
      fail_if (len exs <? extensionHeaderLen + exLen) (LengthErr 12);;
      sex ← slc exs extensionHeaderLen (extensionHeaderLen + exLen);
      v ← parseExtension exType sex (add_extension exType v);
      exs ← slc_from exs ((4 + exLen) mod 65536);
      parseExtensions_loop fuel exs v
  end.

Definition noVars : extensionVars := mkVars [] [] [] [] [] [].

(** [parseExtensions(exs)], on a hello whose version and cipher suites are set. *)
Definition parseExtensions (version : Z) (cipherSuites : list Z) (exs : list byte) : result ClientHello :=
  if len exs =? 0 then Ok (mkHello version cipherSuites [] [] [] [] [] "") else
  fail_if (len exs <? extensionsHeaderLen) (LengthErr 9);;
  exsLen ← u16 exs 0;
  exs ← slc_from exs extensionsHeaderLen;
  fail_if (len exs <? exsLen) (LengthErr 10);;
  v ← parseExtensions_loop (S (length exs)) exs noVars;
  Ok (mkHello version cipherSuites (v_extensions v) (v_ellipticCurves v) (v_ellipticCurvePF v)
    (v_versions v) (v_signatureAlgorithms v) (bytes_str (v_sni v))).

(** ** Handshake and record *)

Definition bad_version (v : Z) : bool :=
  negb (Z.land v tlsVersionBitmask =? 0x0300) && negb (v =? tls13).

Definition parseHandshake (hs : list byte) : result ClientHello :=
  fail_if (len hs <? handshakeHeaderLen + randomDataLen + sessionIDHeaderLen) (LengthErr 3);;
  handshType ← idx hs 0;
  fail_if (negb (handshType =? 1)) HandshakeTypeErr;;
  h1 ← idx hs 1; h2 ← idx hs 2; h3 ← idx hs 3;
  let handshakeLen := Z.lor (Z.lor (Z.shiftl h1 16) (Z.shiftl h2 8)) h3 in
  rest ← slc_from hs 4;
  fail_if (negb (len rest =? handshakeLen)) (LengthErr 4);;
  tlsVersion ← u16 hs 4;
  fail_if (bad_version tlsVersion) (VersionErr 2);;
  sessionIDLen ← idx hs 38;
  fail_if (len hs <? handshakeHeaderLen + randomDataLen + sessionIDHeaderLen + sessionIDLen) (LengthErr 5);;
  cs ← slc_from hs (handshakeHeaderLen + randomDataLen + sessionIDHeaderLen + sessionIDLen);
  fail_if (len cs <? cipherSuiteHeaderLen) (LengthErr 6);;
  csLen ← u16 cs 0;
  let numCiphers := csLen / 2 in
  fail_if (len cs <? cipherSuiteHeaderLen + csLen + compressMethodHeaderLen) (LengthErr 7);;
  cipherSuites ← u16_list cs 2 numCiphers;
  compressMethodLen ← idx cs (cipherSuiteHeaderLen + csLen);
  fail_if (len cs <? cipherSuiteHeaderLen + csLen + compressMethodHeaderLen + compressMethodLen) (LengthErr 8);;
  exs ← slc_from cs (cipherSuiteHeaderLen + csLen + compressMethodHeaderLen + compressMethodLen);
  parseExtensions tlsVersion cipherSuites exs.

Definition parseSegment (segment : list byte) : result ClientHello :=
  fail_if (len segment <? recordLayerHeaderLen) (LengthErr 1);;
  contType ← idx segment 0;
  fail_if (negb (contType =? 22)) ContentTypeErr;;
  tlsRecordVersion ← u16 segment 1;
  fail_if (bad_version tlsRecordVersion) (VersionErr 1);;
  segmentLen ← u16 segment 3;
  body ← slc_from segment recordLayerHeaderLen;
  fail_if (len body <? segmentLen) (LengthErr 2);;
  hs ← slc segment recordLayerHeaderLen (recordLayerHeaderLen + segmentLen);
  parseHandshake hs.

Definition ja3_Compute (payload : list byte) : result ClientHello := parseSegment payload.

(** ** The JA3 string *)

Definition dash : ascii := "-".
Definition comma : ascii := ",".

(** [for _, val := range vals { if skip { continue }; append number and dash }]. *)
Definition append_numbers (keep : Z → bool) (vals : list Z) (acc : list ascii) : list ascii :=
  acc ++ mjoin ((λ v, String.list_ascii_of_string (FormatUint v) ++ [dash]) <$> List.filter keep vals).

(** [val&GreaseBitmask != 0x0A0A] is skipped. *)
Definition isGrease (v : Z) : bool := Z.land v GreaseBitmask =? 0x0A0A.

(** One field: the numbers, the last byte replaced by a comma. *)
Definition marshalField (vals : list Z) (acc : list ascii) : list ascii :=
  if nonempty vals then removelast (append_numbers isGrease vals acc) ++ [comma] else acc ++ [comma].

Definition marshalJA3 (j : ClientHello) : list ascii :=
  let byteString := String.list_ascii_of_string (FormatUint (Version j)) ++ [comma] in
  let byteString := marshalField (CipherSuites j) byteString in
  let byteString := marshalField (Extensions j) byteString in
  let byteString := marshalField (EllipticCurves j) byteString in
  if nonempty (EllipticCurvePF j)
  then removelast (append_numbers (λ _, true) (EllipticCurvePF j) byteString)
  else byteString.

(** ** No input panics *)

Lemma fail_if_safe b e : safe (fail_if b e).
Proof. by destruct b. Qed.

Lemma fail_if_Ok b e a : fail_if b e = Ok a → b = false.
Proof. by destruct b. Qed.

Lemma forM_safe {A B} (f : A → result B) l : (∀ x, x ∈ l → safe (f x)) → safe (forM f l).
Proof.
  induction l as [|x l IH]; intros H; [done|]. cbn. apply safe_bind; [apply H; left|].
  intros y _. apply safe_bind; [|done]. apply IH. intros z Hz. apply H. by right.
Qed.

Lemma lor_bytes a b : 0 ≤ a < 256 → 0 ≤ b < 256 → Z.lor (Z.shiftl a 8) b = a * 256 + b.
Proof. intros. rewrite Z.lor_comm, lor_shift_disjoint by lia. change (2 ^ 8) with 256. lia. Qed.

Lemma u16_value p i z : u16 p i = Ok z → 0 ≤ i ∧ i + 1 < len p ∧ 0 ≤ z < 65536.
Proof.
  unfold u16. intros H. invert_ok. slice_facts. rewrite lor_bytes by done. lia.
Qed.

Lemma u16_safe p i : 0 ≤ i → i + 1 < len p → safe (u16 p i).
Proof. intros. unfold u16. solve_safe. Qed.

Lemma u16_list_safe p start n : 0 ≤ start → start + 2 * n ≤ len p → safe (u16_list p start n).
Proof.
  intros. apply forM_safe. intros i Hi%elem_of_seqZ. apply u16_safe; lia.
Qed.

(** [lia] with division and modulo. *)
Ltac Zify.zify_post_hook ::= Z.to_euclidean_division_equations.

Ltac ja3_facts :=
  slice_facts;
  repeat match goal with
  | H : fail_if _ _ = Ok _ |- _ => apply fail_if_Ok in H
  | H : u16 _ _ = Ok _ |- _ => apply u16_value in H
  end.

Ltac ja3_safe :=
  repeat match goal with
  | |- safe (_ ≫= _) => apply safe_bind; [|intros ? ?; ja3_facts]
  | |- safe (fail_if _ _) => apply fail_if_safe
  | |- safe (u16 _ _) => apply u16_safe; bools; lia
  | |- safe (u16_list _ _ _) => apply u16_list_safe; bools; lia
  | |- safe (forM _ _) => apply forM_safe; intros ? ?%elem_of_seqZ
  | _ => progress solve_safe
  end.

Section constants.
Local Ltac consts :=
  unfold recordLayerHeaderLen, handshakeHeaderLen, randomDataLen, sessionIDHeaderLen, cipherSuiteHeaderLen,
    compressMethodHeaderLen, extensionsHeaderLen, extensionHeaderLen, sniExtensionHeaderLen in *.

Lemma parseExtension_safe exType sex v : safe (parseExtension exType sex v).
Proof.
  destruct v as [sni exts curves pf versions algs]. unfold parseExtension. consts.
  repeat (case_match; [ja3_safe|]); done.
Qed.

Lemma parseExtensions_loop_safe fuel exs v :
  len exs < 65536 → (length exs < fuel)%nat → safe (parseExtensions_loop fuel exs v).
Proof.
  revert exs v. induction fuel as [|fuel IH]; intros exs v Hlen Hfuel; [lia|].
  cbn [parseExtensions_loop]. consts. case_match; [done|]. bools.
  ja3_safe; [apply parseExtension_safe|]. bools.
  match goal with H : context [(4 + ?x) mod 65536] |- _ => rewrite (Z.mod_small (4 + x)) in H by lia end.
  unfold len in *. apply IH; lia.
Qed.

Lemma parseExtensions_safe version cs exs : len exs < 65536 → safe (parseExtensions version cs exs).
Proof.
  intros. unfold parseExtensions. consts. case_match; [done|]. ja3_safe.
  apply parseExtensions_loop_safe; lia.
Qed.

Lemma parseHandshake_safe hs : len hs < 65536 → safe (parseHandshake hs).
Proof. intros. unfold parseHandshake. consts. ja3_safe. bools. apply parseExtensions_safe. lia. Qed.

Lemma ja3_Compute_safe payload : safe (ja3_Compute payload).
Proof.
  unfold ja3_Compute, parseSegment. consts. ja3_safe. bools. apply parseHandshake_safe. lia.
Qed.
End constants.

(** ** Reading back a printed hello *)

(** A ClientHello as a client writes it. *)
Inductive extension : Type :=
| ServerNameExt (host : list byte)
| SupportedGroupsExt (groups : list Z)
| PointFormatsExt (formats : list byte)
| SupportedVersionsExt (versions : list Z)
| SignatureAlgorithmsExt (algorithms : list Z)
| OtherExt (type_ : Z) (body : list byte).

Definition u16s (l : list Z) : list byte := concat (put_be 2 <$> l).

Definition ext_type (e : extension) : Z :=
  match e with
  | ServerNameExt _ => 0 | SupportedGroupsExt _ => 10 | PointFormatsExt _ => 11
  | SupportedVersionsExt _ => 43 | SignatureAlgorithmsExt _ => 13 | OtherExt t _ => t
  end.

Definition ext_body (e : extension) : list byte :=
  match e with
  | ServerNameExt host => put_be 2 (len host + 3) ++ [x00] ++ put_be 2 (len host) ++ host
  | SupportedGroupsExt l | SignatureAlgorithmsExt l => put_be 2 (2 * len l) ++ u16s l
  | PointFormatsExt l => put_be 1 (len l) ++ l
  | SupportedVersionsExt l => put_be 1 (2 * len l) ++ u16s l
  | OtherExt _ body => body
  end.

Definition enc_ext (e : extension) : list byte :=
  put_be 2 (ext_type e) ++ put_be 2 (len (ext_body e)) ++ ext_body e.

Record hello : Type := mkHelloMessage {
  he_version : Z;
  he_random : list byte;
  he_session : list byte;
  he_ciphers : list Z;
  he_compression : list byte;
  he_extensions : list extension
}.

Definition enc_exts (l : list extension) : list byte := concat (enc_ext <$> l).

Definition enc_body (h : hello) : list byte :=
  put_be 2 (he_version h) ++ he_random h ++ put_be 1 (len (he_session h)) ++ he_session h ++
  put_be 2 (2 * len (he_ciphers h)) ++ u16s (he_ciphers h) ++
  put_be 1 (len (he_compression h)) ++ he_compression h ++
  put_be 2 (len (enc_exts (he_extensions h))) ++ enc_exts (he_extensions h).

Definition enc_handshake (h : hello) : list byte := [x01] ++ put_be 3 (len (enc_body h)) ++ enc_body h.

(** The record, with whatever records follow it. *)
Definition enc_record (h : hello) (following : list byte) : list byte :=
  [x16] ++ put_be 2 0x0303 ++ put_be 2 (len (enc_handshake h)) ++ enc_handshake h ++ following.

Definition u16_range (z : Z) : Prop := 0 ≤ z < 65536.

Definition ext_ok (e : extension) : Prop :=
  match e with
  | ServerNameExt _ | PointFormatsExt _ => True
  | SupportedGroupsExt l | SupportedVersionsExt l | SignatureAlgorithmsExt l => Forall u16_range l
  | OtherExt t _ => u16_range t ∧ t ∉ [0; 10; 11; 13; 43]
  end ∧ match e with
  | SupportedVersionsExt l => len l < 128
  | PointFormatsExt l => len l < 256
  | _ => True
  end.

Record hello_ok (h : hello) : Prop := {
  ok_version : he_version h ∈ [0x0300; 0x0301; 0x0302; 0x0303; 0x0304];
  ok_random : len (he_random h) = 32;
  ok_session : len (he_session h) < 256;
  ok_ciphers : Forall u16_range (he_ciphers h);
  ok_compression : len (he_compression h) < 256;
  ok_extensions : Forall ext_ok (he_extensions h);
  ok_size : len (enc_handshake h) < 65536
}.

(** What each extension contributes; a repeated list extension replaces the
    groups and formats, and adds to the versions and algorithms. *)
Definition describe_ext (v : extensionVars) (e : extension) : extensionVars :=
  let '(mkVars sni exts curves pf versions algs) := add_extension (ext_type e) v in
  match e with
  | ServerNameExt host => mkVars host exts curves pf versions algs
  | SupportedGroupsExt l => mkVars sni exts l pf versions algs
  | PointFormatsExt l => mkVars sni exts curves (bz <$> l) versions algs
  | SupportedVersionsExt l => mkVars sni exts curves pf (versions ++ l) algs
  | SignatureAlgorithmsExt l => mkVars sni exts curves pf versions (algs ++ l)
  | OtherExt _ _ => mkVars sni exts curves pf versions algs
  end.

Definition describe (h : hello) : ClientHello :=
  let v := foldl describe_ext noVars (he_extensions h) in
  mkHello (he_version h) (he_ciphers h) (v_extensions v) (v_ellipticCurves v) (v_ellipticCurvePF v)
    (v_versions v) (v_signatureAlgorithms v) (bytes_str (v_sni v)).

Lemma len_u16s l : len (u16s l) = 2 * len l.
Proof.
  unfold u16s. induction l as [|x l IH]; [done|]. cbn [fmap list_fmap concat].
  rewrite len_app, IH, len_put_be, len_cons. lia.
Qed.

Lemma u16_skip l r i : len l ≤ i → u16 (l ++ r) i = u16 r (i - len l).
Proof.
  intros. unfold u16. rewrite !idx_skip by lia. do 2 f_equal.
  replace (i + 1 - len l) with (i - len l + 1) by lia. done.
Qed.

Lemma u16_put z r : u16_range z → u16 (put_be 2 z ++ r) 0 = Ok z.
Proof.
  unfold u16_range. intros Hz. unfold u16. cbn [put_be app]. rewrite idx_head.
  change (?a :: ?b :: r) with ([a] ++ b :: r). rewrite idx_skip by done.
  change (0 + 1 - len [zb (z / 256)]) with 0. rewrite idx_head. cbn [mbind result_bind].
  rewrite !bz_zb, lor_bytes by (apply Z.mod_pos_bound; lia). f_equal. lia.
Qed.

Lemma forM_seqZ {A} (f : Z → result A) vs start :
  (∀ k v, vs !! k = Some v → f (start + Z.of_nat k) = Ok v) → forM f (seqZ start (len vs)) = Ok vs.
Proof.
  revert start; induction vs as [|v vs IH]; intros start H; [done|].
  rewrite len_cons. pose proof (len_nonneg vs). rewrite seqZ_cons by lia.
  replace (Z.pred (1 + len vs)) with (len vs) by lia. cbn [forM].
  pose proof (H 0%nat v eq_refl) as Hv. rewrite Z.add_0_r in Hv. rewrite Hv. cbn [mbind result_bind].
  rewrite IH; [done|]. intros k w Hk. rewrite <- (H (S k) w Hk). f_equal. lia.
Qed.

(** The [k]-th number of a printed list starts at byte [2 * k]. *)
Lemma u16s_split vs k v :
  vs !! k = Some v → ∃ rest, u16s vs = u16s (take k vs) ++ put_be 2 v ++ rest ∧ len (u16s (take k vs)) = 2 * Z.of_nat k.
Proof.
  intros Hk. exists (u16s (drop (S k) vs)). split.
  - rewrite <- (take_drop_middle vs k v Hk) at 1. unfold u16s. by rewrite fmap_app, concat_app.
  - rewrite len_u16s, len_take. apply lookup_lt_Some in Hk. unfold len. lia.
Qed.

Lemma u16_list_put vs r : Forall u16_range vs → u16_list (u16s vs ++ r) 0 (len vs) = Ok vs.
Proof.
  intros Hvs. apply forM_seqZ. intros k v Hk. destruct (u16s_split vs k v Hk) as (rest & -> & Hl).
  rewrite <- !app_assoc, u16_skip by lia. replace (_ - _) with 0 by lia. apply u16_put.
  eapply Forall_lookup_1; eauto.
Qed.

Lemma be16_list_put vs r : Forall u16_range vs →
  forM (λ i, s ← slc_from (u16s vs ++ r) (i * 2); uint_be 2 s) (seqZ 0 (len vs)) = Ok vs.
Proof.
  intros Hvs. apply forM_seqZ. intros k v Hk. destruct (u16s_split vs k v Hk) as (rest & -> & Hl).
  rewrite <- !app_assoc, slc_from_skip by lia. replace (_ - _) with 0 by lia. rewrite slc_from_0.
  apply (uint_be_put 2); [lia|]. by apply (Forall_lookup_1 _ _ _ _ Hvs Hk).
Qed.

Lemma idx_list l : forM (λ i, idx l i) (seqZ 0 (len l)) = Ok (bz <$> l).
Proof.
  replace (len l) with (len (bz <$> l)) by (unfold len; by rewrite length_fmap).
  apply forM_seqZ. intros k v Hk. apply list_lookup_fmap_Some in Hk as (b & -> & Hb).
  pose proof (lookup_lt_Some _ _ _ Hb). rewrite idx_ok by (unfold len; lia).
  unfold at_. rewrite Z.add_0_l, Nat2Z.id, Hb. done.
Qed.

(** Moves to the field that is read, over the fields before it. *)
Lemma len_put1 z : len (put_be 1 z) = 1.
Proof. by rewrite len_put_be. Qed.
Lemma len_put2 z : len (put_be 2 z) = 2.
Proof. by rewrite len_put_be. Qed.
Lemma len_put3 z : len (put_be 3 z) = 3.
Proof. by rewrite len_put_be. Qed.
#[export] Hint Rewrite @len_app len_put1 len_put2 len_put3 @len_cons @len_nil @len_u16s : lens.
Ltac lens := autorewrite with lens in *.
Ltac at_field :=
  repeat first
    [ rewrite slc_from_skip by (lens; lia) | rewrite u16_skip by (lens; lia)
    | rewrite idx_skip by (lens; lia) | rewrite slc_skip by (lens; lia) ];
  repeat match goal with
  | |- context [slc_from _ ?i] => progress replace i with 0 by (lens; lia)
  | |- context [u16 _ ?i] => progress replace i with 0 by (lens; lia)
  | |- context [idx _ ?i] => progress replace i with 0 by (lens; lia)
  end.

Lemma idx_put1 z r : 0 ≤ z < 256 → idx (put_be 1 z ++ r) 0 = Ok z.
Proof. intros. cbn. rewrite idx_head, bz_zb. f_equal. by apply Z.mod_small. Qed.

Lemma fail_if_false b e : b = false → fail_if b e = Ok tt.
Proof. by intros ->. Qed.

Section roundtrip.
Local Ltac consts :=
  unfold recordLayerHeaderLen, handshakeHeaderLen, randomDataLen, sessionIDHeaderLen, cipherSuiteHeaderLen,
    compressMethodHeaderLen, extensionsHeaderLen, extensionHeaderLen, sniExtensionHeaderLen in *.
Local Ltac pass := rewrite fail_if_false by (lens; lia); cbn [mbind result_bind].
Local Ltac fields :=
  repeat first [ rewrite idx_put1 by lia | rewrite u16_put by (unfold u16_range; lia) | rewrite slc_from_0 ];
  cbn [mbind result_bind].

Lemma parseExtension_read e v :
  ext_ok e → len (ext_body e) < 65536 →
  parseExtension (ext_type e) (ext_body e) (add_extension (ext_type e) v) = Ok (describe_ext v e).
Proof.
  intros [Hok Hok2] Hlen. destruct v as [sni exts curves pf versions algs].
  unfold describe_ext, add_extension, parseExtension. consts.
  destruct e as [host|l|l|l|l|t body]; cbn [ext_type ext_body v_sni v_extensions v_ellipticCurves
    v_ellipticCurvePF v_versions v_signatureAlgorithms] in *; cbn -[len put_be slc_from idx u16 forM u16_list seqZ uint_be app].
  all: repeat match goal with
    | x : list byte |- _ => match goal with H : 0 ≤ len x |- _ => fail 1 | _ => pose proof (len_nonneg x) end
    | x : list Z |- _ => match goal with H : 0 ≤ len x |- _ => fail 1 | _ => pose proof (len_nonneg x) end
    end.
  all: lens.
  - pass. at_field. cbn [app]. rewrite idx_head. fields. by pass.
  - pass. at_field. fields. pass. rewrite Z.mul_comm, Z.div_mul by lia.
    pose proof (u16_list_put l [] Hok) as Hu. rewrite app_nil_r in Hu. by rewrite Hu.
  - pass. at_field. fields. pass. by rewrite idx_list.
  - pass. at_field. fields. pass. rewrite Z.mul_comm, Z.div_mul by lia.
    pose proof (be16_list_put l [] Hok) as Hu. rewrite app_nil_r in Hu. by rewrite Hu.
  - pass. at_field. rewrite (uint_be_put 2) by lia. fields. pass. rewrite Z.mul_comm, Z.div_mul by lia.
    pose proof (be16_list_put l [] Hok) as Hu. rewrite app_nil_r in Hu. by rewrite Hu.
  - destruct Hok as [_ Ht]. rewrite !not_elem_of_cons in Ht.
    repeat (rewrite (proj2 (Z.eqb_neq _ _)) by naive_solver). done.
Qed.

Lemma ext_type_range e : ext_ok e → u16_range (ext_type e).
Proof. unfold u16_range. intros [H _]. destruct e; cbn in *; [lia..|by destruct H]. Qed.

(** One round of the loop reads one printed extension. *)
Lemma parseExtensions_loop_step fuel e r v :
  ext_ok e → len (enc_ext e) < 65536 →
  parseExtensions_loop (S fuel) (enc_ext e ++ r) v = parseExtensions_loop fuel r (describe_ext v e).
Proof.
  intros Hok Hlen. pose proof (ext_type_range e Hok) as Ht. pose proof (parseExtension_read e v Hok) as Hread.
  pose proof (len_nonneg (ext_body e)). pose proof (len_nonneg r).
  unfold enc_ext in *. rewrite <- !app_assoc. cbn [parseExtensions_loop]. consts. lens.
  rewrite (proj2 (Z.leb_gt _ _)) by lia. pass. rewrite u16_put by done. cbn [mbind result_bind].
  at_field. rewrite u16_put by (unfold u16_range; lia). cbn [mbind result_bind]. pass.
  rewrite !slc_skip by (lens; lia). lens. rewrite slc_head by lia. cbn [mbind result_bind].
  rewrite Hread by lia. cbn [mbind result_bind]. rewrite Z.mod_small by lia.
  at_field. by rewrite slc_from_0.
Qed.

Lemma enc_exts_cons e l : enc_exts (e :: l) = enc_ext e ++ enc_exts l.
Proof. done. Qed.

Lemma parseExtensions_loop_read l v fuel :
  Forall ext_ok l → len (enc_exts l) < 65536 → (length l < fuel)%nat →
  parseExtensions_loop fuel (enc_exts l) v = Ok (foldl describe_ext v l).
Proof.
  revert v fuel. induction l as [|e l IH]; intros v fuel Hok Hlen Hfuel; [by destruct fuel|].
  destruct fuel as [|fuel]; [lia|]. apply Forall_cons in Hok as [He Hl].
  rewrite enc_exts_cons in *. cbn [foldl length] in *. rewrite len_app in Hlen.
  pose proof (len_nonneg (enc_ext e)). pose proof (len_nonneg (enc_exts l)).
  rewrite parseExtensions_loop_step by (done || lia). apply IH; [done|lia..].
Qed.

Lemma enc_exts_length l : (length l ≤ length (enc_exts l))%nat.
Proof.
  induction l as [|e l IH]; [done|]. rewrite enc_exts_cons. cbn [length]. rewrite length_app.
  unfold enc_ext at 1. rewrite length_app, length_put_be. lia.
Qed.

Lemma idx_put3 n r :
  idx (put_be 3 n ++ r) 0 = Ok (n / 256 / 256 mod 256) ∧ idx (put_be 3 n ++ r) 1 = Ok (n / 256 mod 256) ∧
  idx (put_be 3 n ++ r) 2 = Ok (n mod 256).
Proof.
  cbn [put_be app]. pose proof (len_nonneg r). rewrite <- !bz_zb. split_and!.
  all: rewrite idx_ok by (lens; lia); reflexivity.
Qed.

Lemma put3_value n : 0 ≤ n < 16777216 →
  Z.lor (Z.lor (Z.shiftl (n / 256 / 256 mod 256) 16) (Z.shiftl (n / 256 mod 256) 8)) (n mod 256) = n.
Proof.
  intros. rewrite <- Z.lor_assoc, lor_bytes by (apply Z.mod_pos_bound; lia).
  rewrite Z.lor_comm, lor_shift_disjoint; [|lia| |apply Z.mod_pos_bound; lia]; change (2 ^ 16) with 65536; lia.
Qed.

Lemma version_good v : v ∈ [0x0300; 0x0301; 0x0302; 0x0303; 0x0304] → bad_version v = false ∧ u16_range v.
Proof.
  unfold u16_range. rewrite !elem_of_cons, elem_of_nil. intros H.
  repeat destruct H as [->|H]; [by vm_compute..|done].
Qed.

Lemma parseExtensions_read version cs l :
  Forall ext_ok l → len (enc_exts l) < 65536 →
  parseExtensions version cs (put_be 2 (len (enc_exts l)) ++ enc_exts l) =
  let v := foldl describe_ext noVars l in
  Ok (mkHello version cs (v_extensions v) (v_ellipticCurves v) (v_ellipticCurvePF v) (v_versions v)
    (v_signatureAlgorithms v) (bytes_str (v_sni v))).
Proof.
  intros Hl Hlen. pose proof (len_nonneg (enc_exts l)). pose proof (enc_exts_length l).
  unfold parseExtensions. consts. lens. rewrite (proj2 (Z.eqb_neq _ _)) by lia. pass.
  rewrite u16_put by (unfold u16_range; lia). cbn [mbind result_bind]. at_field. rewrite slc_from_0.
  cbn [mbind result_bind]. pass. rewrite parseExtensions_loop_read by (done || lia). done.
Qed.

Lemma forM_ext_in {A B} (f g : A → result B) l : (∀ x, x ∈ l → f x = g x) → forM f l = forM g l.
Proof.
  induction l as [|x l IH]; intros H; [done|]. cbn [forM]. rewrite (H x) by left.
  rewrite IH; [done|]. intros y Hy. apply H. by right.
Qed.

Lemma parseHandshake_read h : hello_ok h → parseHandshake (enc_handshake h) = Ok (describe h).
Proof.
  intros [Hv Hr Hs Hc Hcomp He Hsize]. destruct (version_good _ Hv) as [Hgood Hrange].
  pose proof (enc_exts_length (he_extensions h)). unfold enc_handshake, enc_body in *.
  pose proof (len_nonneg (he_session h)). pose proof (len_nonneg (he_ciphers h)).
  pose proof (len_nonneg (he_compression h)). pose proof (len_nonneg (enc_exts (he_extensions h))).
  unfold parseHandshake. consts. lens.
  match goal with |- context [put_be 3 ?n ++ ?r] => destruct (idx_put3 n r) as (I0 & I1 & I2); set (k := n) in * end.
  pass. cbn [app]. rewrite idx_head. cbn [mbind result_bind]. rewrite fail_if_false by reflexivity. cbn [mbind result_bind].
  change (x01 :: ?l) with ([x01] ++ l). rewrite !(idx_skip [x01]) by done. lens.
  change (1 - (1 + 0)) with 0. change (2 - (1 + 0)) with 1. change (3 - (1 + 0)) with 2.
  rewrite I0, I1, I2. cbn [mbind result_bind]. rewrite put3_value by (subst k; lia). clear I0 I1 I2.
  at_field. rewrite slc_from_0. cbn [mbind result_bind]. lens. subst k. pass.
  rewrite u16_put by done. cbn [mbind result_bind]. rewrite fail_if_false by done. cbn [mbind result_bind].
  rewrite idx_put1 by lia. cbn [mbind result_bind]. pass. at_field. rewrite slc_from_0. cbn [mbind result_bind].
  lens. pass. rewrite u16_put by (unfold u16_range; lia). cbn [mbind result_bind]. pass.
  replace (2 * len (he_ciphers h) / 2) with (len (he_ciphers h)) by lia. unfold u16_list.
  rewrite (forM_ext_in _ (λ i, u16 (u16s (he_ciphers h) ++ put_be 1 (len (he_compression h)) ++ he_compression h ++
    put_be 2 (len (enc_exts (he_extensions h))) ++ enc_exts (he_extensions h)) (0 + 2 * i))).
  2: { intros i Hi%elem_of_seqZ. rewrite u16_skip by (lens; lia). f_equal. lens. lia. }
  change (forM _ (seqZ 0 ?n)) with (u16_list (u16s (he_ciphers h) ++ put_be 1 (len (he_compression h)) ++ he_compression h ++
    put_be 2 (len (enc_exts (he_extensions h))) ++ enc_exts (he_extensions h)) 0 n).
  rewrite u16_list_put by done. cbn [mbind result_bind]. at_field. rewrite idx_put1 by lia. cbn [mbind result_bind].
  pass. at_field. rewrite slc_from_0. cbn [mbind result_bind]. rewrite parseExtensions_read by (done || lia). done.
Qed.

Lemma ja3_Compute_read h following : hello_ok h → ja3_Compute (enc_record h following) = Ok (describe h).
Proof.
  intros Hok. pose proof (parseHandshake_read h Hok) as Hh. destruct Hok as [_ _ _ _ _ _ Hsize].
  pose proof (len_nonneg (enc_handshake h)). pose proof (len_nonneg following).
  unfold ja3_Compute, parseSegment, enc_record. consts. lens. pass.
  cbn [app]. rewrite idx_head. cbn [mbind result_bind]. rewrite fail_if_false by reflexivity. cbn [mbind result_bind].
  change (x16 :: ?l) with ([x16] ++ l). at_field. rewrite u16_put by (unfold u16_range; lia).
  at_field. rewrite u16_put by (unfold u16_range; lia).
  cbn [mbind result_bind]. rewrite fail_if_false by reflexivity. rewrite slc_from_0. cbn [mbind result_bind].
  lens. pass. rewrite !slc_skip by (lens; lia). lens. rewrite slc_head by lia. exact Hh.
Qed.
End roundtrip.

(** C16: a ClientHello that a client prints is read back exactly: version, cipher
    suites, the order of the extensions, groups, formats, versions, signature
    algorithms and the server name, whatever follows the record. *)
Theorem ja3_reads_hello (h : hello) (following : list byte) (Hok : hello_ok h) :
  ja3_Compute (enc_record h following) = Ok (describe h).
Proof. by apply ja3_Compute_read. Qed.

Definition demo_hello : hello :=
  mkHelloMessage 0x0303 (replicate 32 x07) [x01] [0x1301; 0x1302] [x00]
    [SupportedGroupsExt [0x001d]; ServerNameExt (str_bytes "example.com"); OtherExt 0x1234 [x01; x02];
     SupportedVersionsExt [0x0304]].

Lemma demo_hello_ok : hello_ok demo_hello.
Proof.
  split; cbn [he_version he_random he_session he_ciphers he_compression he_extensions demo_hello].
  - rewrite !elem_of_cons. auto.
  - reflexivity.
  - reflexivity.
  - repeat constructor; discriminate.
  - reflexivity.
  - repeat constructor; cbn; try discriminate. rewrite !not_elem_of_cons, elem_of_nil. intuition lia.
  - vm_compute. reflexivity.
Qed.

Lemma ja3_reads_hello_witness :
  hello_ok demo_hello ∧ ServerName (describe demo_hello) = "example.com"%string ∧
  ja3_Compute (enc_record demo_hello [x17]) = Ok (describe demo_hello).
Proof.
  split; [exact demo_hello_ok|]. split; [vm_compute; reflexivity|]. exact (ja3_reads_hello demo_hello [x17] demo_hello_ok).
Defined.

(** ** The JA3 string *)

Lemma filter_none {A} (f : A → bool) l : existsb f l = false → List.filter f l = [].
Proof. induction l as [|x l IH]; [done|]. cbn. intros [-> ?]%orb_false_iff. auto. Qed.

Lemma marshalField_none vals acc :
  vals ≠ [] → existsb isGrease vals = false → marshalField vals (acc ++ [comma]) = acc ++ [comma].
Proof.
  intros Hne Hf. unfold marshalField, append_numbers. rewrite (proj2 (nonempty_true vals)) by done.
  rewrite filter_none by done. cbn. rewrite app_nil_r, removelast_last. done.
Qed.

(** The JA3 string of a hello without GREASE values keeps nothing of its
    cipher suites, extensions and curves: the loops skip exactly the values that
    are not GREASE, so hellos that share the version and the point formats have
    the same string. *)
Theorem ja3_string_drops_values (j j' : ClientHello)
    (Hversion : Version j = Version j') (Hformats : EllipticCurvePF j = EllipticCurvePF j')
    (Hset : Forall (λ l, l ≠ [] ∧ existsb isGrease l = false)
      [CipherSuites j; Extensions j; EllipticCurves j; CipherSuites j'; Extensions j'; EllipticCurves j']) :
  marshalJA3 j = marshalJA3 j'.
Proof.
  rewrite !Forall_cons in Hset. destruct Hset as ([??] & [??] & [??] & [??] & [??] & [??] & _).
  unfold marshalJA3. rewrite !marshalField_none by done. by rewrite Hversion, Hformats.
Qed.

Lemma ja3_string_drops_values_witness :
  marshalJA3 (mkHello 771 [0x1301; 0x1302] [10; 0] [29] [0] [] [] "a") =
  marshalJA3 (mkHello 771 [0xc02b] [11] [23; 24] [0] [] [] "b").
Proof.
  apply ja3_string_drops_values; [reflexivity|reflexivity|].
  repeat (constructor; [split; [discriminate|reflexivity]|]). constructor.
Defined.
