(* ===== verification/Quic.v ===== *)
(** The QUIC sniffer ([common/sniff/quic.go], [quic_blacklist.go] and
    [internal/qtls]).

    An Initial packet is unprotected with keys derived from its connection id,
    its CRYPTO frames are collected over as many packets as it takes, and the
    ClientHello they carry is parsed by [common/ja3].  The ciphers are
    parameters. *)

From S2P Require Import Prelude GoBytes GoSlices GoStrings Netip Metadata RuleItems RuleAction RuleMatch RuleSemantics Concrete Sniff Ja3.

(** ** Ciphers *)

(** [hkdf.Extract] and [hkdf.Expand] with SHA-256, one block of AES, and
    AES-GCM with a 12-byte nonce. *)
Class QuicCrypto : Type := {
  hkdf_Extract : list byte → list byte → list byte;
  hkdf_Expand : list byte → list byte → Z → option (list byte);
  aes_Encrypt : list byte → list byte → list byte;
  gcm_Open : list byte → list byte → list byte → list byte → result (list byte)
}.

(** What the sniffer relies on: an expansion within the limit of HKDF has the
    length asked for, a block is 16 bytes, and opening does not panic. *)
Class QuicCryptoLaws (QC : QuicCrypto) : Prop := {
  hkdf_Expand_length : ∀ secret info n, 0 ≤ n ≤ 255 * 32 → ∃ out, hkdf_Expand secret info n = Some out ∧ len out = n;
  aes_Encrypt_length : ∀ key block, len (aes_Encrypt key block) = 16;
  gcm_Open_safe : ∀ key nonce data ad, safe (gcm_Open key nonce data ad)
}.

(** ** qtls *)

Definition VersionDraft29 : Z := 0xff00001d.
Definition Version1 : Z := 0x1.
Definition Version2 : Z := 0x6b3343cf.

Definition SaltOld : list byte := zb <$>
  [0xaf; 0xbf; 0xec; 0x28; 0x99; 0x93; 0xd2; 0x4c; 0x9e; 0x97; 0x86; 0xf1; 0x9c; 0x61; 0x11; 0xe0; 0x43; 0x90; 0xa8; 0x99].
Definition SaltV1 : list byte := zb <$>
  [0x38; 0x76; 0x2c; 0xf7; 0xf5; 0x59; 0x34; 0xb3; 0x4d; 0x17; 0x9a; 0xe6; 0xa4; 0xc8; 0x0c; 0xad; 0xcc; 0xbb; 0x7f; 0x0a].
Definition SaltV2 : list byte := zb <$>
  [0x0d; 0xed; 0xe3; 0xde; 0xf7; 0x00; 0xa6; 0xdb; 0x81; 0x93; 0x81; 0xbe; 0x6e; 0x26; 0x9d; 0xcb; 0xf9; 0xbd; 0x2e; 0xd9].

(** [qtls.ReadUvarint]: the top two bits of the first byte give the length. *)
Definition quic_ReadUvarint : reader Z := λ bs,
  '(firstByte, bs) ← ReadByte bs;
  let len := Z.shiftl 1 (Z.shiftr (Z.land (bz firstByte) 0xc0) 6) in
  let b1 := Z.land (bz firstByte) (0xff - 0xc0) in
  if len =? 1 then Ok (b1, bs) else
  '(b2, bs) ← ReadByte bs;
  if len =? 2 then Ok (bz b2 + Z.shiftl b1 8, bs) else
  '(b3, bs) ← ReadByte bs;
  '(b4, bs) ← ReadByte bs;
  if len =? 4 then Ok (bz b4 + Z.shiftl (bz b3) 8 + Z.shiftl (bz b2) 16 + Z.shiftl b1 24, bs) else
  '(b5, bs) ← ReadByte bs;
  '(b6, bs) ← ReadByte bs;
  '(b7, bs) ← ReadByte bs;
  '(b8, bs) ← ReadByte bs;
  Ok (bz b8 + Z.shiftl (bz b7) 8 + Z.shiftl (bz b6) 16 + Z.shiftl (bz b5) 24 + Z.shiftl (bz b4) 32 +
      Z.shiftl (bz b3) 40 + Z.shiftl (bz b2) 48 + Z.shiftl b1 56, bs).

(** [io.CopyN(io.Discard, r, n)]. *)
Definition discard (n : Z) (bs : list byte) : result (list byte) :=
  if n <=? len bs then Ok (from bs n) else Err ErrEOF.

Section quic.
Context {QC : QuicCrypto}.

Definition HKDFExpandLabel (secret context : list byte) (label : string) (length : Z) : result (list byte) :=
  let label := str_bytes label in
  let b := put_be 2 (length mod 65536) ++ [zb (6 + len label)] ++ str_bytes "tls13 " ++ label ++
           [zb (len context)] ++ context in
  match hkdf_Expand secret b length with
  | Some out => if len out =? length then Ok out else Panic "quic: HKDF-Expand-Label invocation failed unexpectedly"
  | None => Panic "quic: HKDF-Expand-Label invocation failed unexpectedly"
  end.

Definition xor_bytes (a b : list byte) : list byte := zip_with (λ x y, zb (Z.lxor (bz x) (bz y))) a b.

(** [AEADAESGCMTLS13(key, iv).Open(out, nonce, data, ad)]: the nonce is xored
    into the last eight bytes of the mask. *)
Definition AEADAESGCMTLS13_Open (key nonceMask nonce data ad : list byte) : result (list byte) :=
  if negb (len nonceMask =? 12) then Panic "tls: internal error: wrong nonce length" else
  if negb (containsb (len key) [16; 24; 32]) then Panic "crypto/aes: invalid key size" else
  gcm_Open key (slice nonceMask 0 4 ++ xor_bytes (from nonceMask 4) nonce) data ad.

(** ** Header *)

Record quicHeader : Type := mkHeader {
  qh_version : Z;
  qh_destConnID : list byte;
  qh_hdrLen : Z;
  qh_packetLen : Z;
  qh_pnBytes : list byte
}.

(** [QUICClientHello] up to the key derivation. *)
Definition quicParseHeader (packet : list byte) : result quicHeader :=
  '(typeByte, r) ← ReadByte packet;
  fail_if (Z.land (bz typeByte) 0x40 =? 0) (ErrNew "bad type byte");;
  '(versionNumber, r) ← ReadBE 4 r;
  fail_if (negb (versionNumber =? VersionDraft29) && negb (versionNumber =? Version1) &&
           negb (versionNumber =? Version2)) (ErrNew "bad version");;
  let packetType := Z.shiftr (Z.land (bz typeByte) 0x30) 4 in
  fail_if ((packetType =? 0) && (versionNumber =? Version2) ||
           (packetType =? 2) && negb (versionNumber =? Version2) || (2 <? packetType)) (ErrNew "bad packet type");;
  '(destConnIDLen, r) ← ReadByte r;
  fail_if ((bz destConnIDLen =? 0) || (20 <? bz destConnIDLen)) (ErrNew "bad destination connection id length");;
  '(destConnID, r) ← ReadFull (bz destConnIDLen) r;
  '(srcConnIDLen, r) ← ReadByte r;
  r ← discard (bz srcConnIDLen) r;
  '(tokenLen, r) ← quic_ReadUvarint r;
  r ← discard tokenLen r;
  '(packetLen, r) ← quic_ReadUvarint r;
  let hdrLen := len packet - len r in
  invalid_if (len packet <? hdrLen + packetLen);;
  r ← discard 4 r;
  '(pnBytes, r) ← ReadFull 16 r;
  Ok (mkHeader versionNumber destConnID hdrLen packetLen pnBytes).

(** ** Protection *)

(** [p[i] ^= v]. *)
Definition xor_at (p : list byte) (i : Z) (v : Z) : result (list byte) :=
  x ← idx p i; Ok (<[Z.to_nat i := zb (Z.lxor x v)]> p).

(** [copy(dst[lo:hi], src)] on the whole [dst]. *)
Definition copy_range (dst : list byte) (lo hi : Z) (src : list byte) : result (list byte) :=
  old ← slc dst lo hi;
  let n := Z.min (len old) (len src) in
  Ok (slice dst 0 lo ++ slice src 0 n ++ from dst (lo + n)).

(** From the key derivation to [cipher.Open]: the decrypted payload. *)
Definition quicDecrypt (packet : list byte) (h : quicHeader) : result (list byte) :=
  let v2 := qh_version h =? Version2 in
  let hdrLen := qh_hdrLen h in
  let packetLen := qh_packetLen h in
  let salt := if qh_version h =? Version1 then SaltV1 else if v2 then SaltV2 else SaltOld in
  let initialSecret := hkdf_Extract (qh_destConnID h) salt in
  secret ← HKDFExpandLabel initialSecret [] "client in" 32;
  hpKey ← HKDFExpandLabel secret [] (if v2 then "quicv2 hp" else "quic hp") 16;
  fail_if (negb (containsb (len hpKey) [16; 24; 32])) (ErrExternal "crypto/aes: invalid key size");;
  let mask := aes_Encrypt hpKey (qh_pnBytes h) in
  m0 ← idx mask 0; m1 ← idx mask 1; m2 ← idx mask 2; m3 ← idx mask 3; m4 ← idx mask 4;
  newPacket ← xor_at packet 0 (Z.land m0 0xf);
  newPacket ← xor_at newPacket hdrLen m1;
  newPacket ← xor_at newPacket (hdrLen + 1) m2;
  newPacket ← xor_at newPacket (hdrLen + 2) m3;
  newPacket ← xor_at newPacket (hdrLen + 3) m4;
  n0 ← idx newPacket 0;
  let packetNumberLength := Z.land n0 0x3 + 1 in
  invalid_if (packetLen + hdrLen <? hdrLen + packetNumberLength);;
  pn ← slc newPacket hdrLen (hdrLen + packetNumberLength);
  let packetNumber := be pn in
  let extHdrLen := hdrLen + packetNumberLength in
  original ← slc_from packet extHdrLen;
  newPacket ← copy_range newPacket extHdrLen (hdrLen + 4) original;
  data ← slc newPacket extHdrLen (packetLen + hdrLen);
  key ← HKDFExpandLabel secret [] (if v2 then "quicv2 key" else "quic key") 16;
  iv ← HKDFExpandLabel secret [] (if v2 then "quicv2 iv" else "quic iv") 12;
  ad ← slc newPacket 0 extHdrLen;
  AEADAESGCMTLS13_Open key iv (put_be 8 packetNumber) data ad.
End quic.

(** ** Frames *)

Definition frameTypeCrypto : Z := 0x06.
Definition frameTypePing : Z := 0x01.

(** The two varints of one ACK range. *)
Definition ackRange : reader unit := λ bs,
  '(_, bs) ← quic_ReadUvarint bs; '(_, bs) ← quic_ReadUvarint bs; Ok (tt, bs).

(** [case frameTypeAck, frameTypeAck2]. *)
Definition ackFrame (frameType : Z) : reader unit := λ bs,
  '(_, bs) ← quic_ReadUvarint bs;
  '(_, bs) ← quic_ReadUvarint bs;
  '(ackRangeCount, bs) ← quic_ReadUvarint bs;
  '(_, bs) ← quic_ReadUvarint bs;
  '(_, bs) ← readN (λ _, ackRange) ackRangeCount bs;
  if frameType =? 0x03 then
    '(_, bs) ← quic_ReadUvarint bs; '(_, bs) ← quic_ReadUvarint bs; '(_, bs) ← quic_ReadUvarint bs; Ok (tt, bs)
  else Ok (tt, bs).

Definition cryptoFrame : reader qCryptoFragment := λ bs,
  '(offset, bs) ← quic_ReadUvarint bs;
  '(length, bs) ← quic_ReadUvarint bs;
  invalid_if (len bs <? length);;
  Ok (mkFragment offset length (slice bs 0 length), from bs length).

(** [Seek] past the end leaves nothing to read. *)
Definition closeFrame : reader unit := λ bs,
  '(_, bs) ← quic_ReadUvarint bs;
  '(_, bs) ← quic_ReadUvarint bs;
  '(length, bs) ← quic_ReadUvarint bs;
  Ok (tt, from bs length).

(** The frame loop; it takes at least one byte per round. *)
Fixpoint frames_loop (fuel : nat) (types : list Z) (fragments : list qCryptoFragment) (bs : list byte)
    : result (list Z * list qCryptoFragment) :=
  match bs with
  | [] => Ok (types, fragments)
  | b :: bs =>
      match fuel with
      | O => Panic "out of fuel"
      | S fuel =>
          let frameType := bz b in
          let types := types ++ [frameType] in
          if (frameType =? 0x00) || (frameType =? frameTypePing) then frames_loop fuel types fragments bs
          else if (frameType =? 0x02) || (frameType =? 0x03) then
            '(_, bs) ← ackFrame frameType bs; frames_loop fuel types fragments bs
          else if frameType =? frameTypeCrypto then
            '(f, bs) ← cryptoFrame bs; frames_loop fuel types (fragments ++ [f]) bs
          else if frameType =? 0x1c then
            '(_, bs) ← closeFrame bs; frames_loop fuel types fragments bs
          else Err ErrInvalid
      end
  end.

Definition quicFrames (decrypted : list byte) : result (list Z * list qCryptoFragment) :=
  frames_loop (length decrypted) [] [] decrypted.

(** ** Reassembly *)

(** The inner [for] of the [find] loop. *)
Definition findFragment (index : Z) (fragments : list qCryptoFragment) : option qCryptoFragment :=
  List.find (λ f, (fr_offset f =? index) && (0 <? fr_length f)) fragments.

(** The [find] loop; [None] when the fuel runs out.  The index grows with every
    fragment, so each is used at most once ([reassemble_total]). *)
Fixpoint find_loop (fuel : nat) (fragments : list qCryptoFragment) (index : Z) (buffer : list byte)
    : option (list byte) :=
  match findFragment index fragments with
  | None => Some buffer
  | Some f =>
      match fuel with
      | O => None
      | S fuel => find_loop fuel fragments ((fr_offset f + fr_length f) mod 2 ^ 64) (buffer ++ fr_payload f)
      end
  end.

Definition frameLen (fragments : list qCryptoFragment) : Z :=
  foldl (λ n f, (n + fr_length f) mod 2 ^ 64) 0 fragments.

(** The record header written in front of the fragments. *)
Definition recordHeader (frameLen : Z) : list byte :=
  [x16] ++ put_be 2 0x0303 ++ put_be 2 (frameLen mod 65536).

Definition reassemble (fragments : list qCryptoFragment) : option (list byte) :=
  find_loop (length fragments) fragments 0 (recordHeader (frameLen fragments)).

(** ** The sniffer *)

Definition isZero (l : list Z) : bool := forallb (λ x, x =? 0) l.
Definition count (l : list Z) (value : Z) : Z := len (List.filter (λ x, x =? value) l).

Definition isQUICGo (fp : ClientHello) : bool :=
  containsb 0x11EC (EllipticCurves fp) || containsb 0xFF01 (Extensions fp).

Definition first_is_grease (l : list Z) : bool :=
  match l with x :: _ => Z.land x GreaseBitmask =? 0x0A0A | [] => false end.

(** The body of [for metadata.Client == ""]. *)
Definition quicClient (frameTypeList : list Z) (fp : ClientHello) : result string :=
  if len frameTypeList =? 1 then Ok "firefox"%string else
  match frameTypeList with
  | [] => Panic "index out of range"
  | first :: rest =>
      if (first =? frameTypeCrypto) && isZero rest &&
         ((len (Versions fp) =? 2) && first_is_grease (Versions fp) &&
          (len (EllipticCurves fp) =? 5) && first_is_grease (EllipticCurves fp))
      then Ok "safari"%string
      else if (first =? frameTypeCrypto) && isZero rest &&
         (bool_decide (CipherSuites fp = [0x1302]) && bool_decide (EllipticCurves fp = [0x001d]) &&
          bool_decide (SignatureAlgorithms fp = [0x0403]))
      then Ok "safari"%string
      else if (default 0 (last frameTypeList) =? frameTypeCrypto) && isZero (removelast frameTypeList)
      then Ok "quic-go"%string
      else if (1 <? count frameTypeList frameTypeCrypto) || (0 <? count frameTypeList frameTypePing)
      then Ok (if isQUICGo fp then "quic-go"%string else "chromium"%string)
      else Ok "unknown"%string
  end.

Definition set_SniffContext (v : option (list qCryptoFragment)) (m : SniffMetadata) : SniffMetadata :=
  mkSniffMetadata (sm m) v (sm_SnifferNames m) (SniffError m).

(** The part of [QUICClientHello] after the frames are read. *)
Definition quicFinish (m : SniffMetadata) (frameTypeList : list Z) (fragments : list qCryptoFragment)
    : result unit * SniffMetadata :=
  let fragments := fragments ++ default [] (SniffContext m) in
  let m := set_SniffContext None m in
  match reassemble fragments with
  | None => (Panic "out of fuel", m)
  | Some buffer =>
      let m := on_context (set_Protocol "quic") m in
      match ja3_Compute buffer with
      | Err e => (Err (ErrCause1 ErrNeedMoreData e), set_SniffContext (Some fragments) m)
      | Panic p => (Panic p, m)
      | Ok fp =>
          let m := on_context (set_Domain (ServerName fp)) m in
          if String.eqb (Client (sm m)) "" then
            match quicClient frameTypeList fp with
            | Ok client => (Ok tt, on_context (set_Client client) m)
            | Err e => (Err e, m)
            | Panic p => (Panic p, m)
            end
          else (Ok tt, m)
      end
  end.

Definition QUICClientHello {QC : QuicCrypto} : packetSniffer := λ m packet,
  match (h ← quicParseHeader packet; decrypted ← quicDecrypt packet h; quicFrames decrypted) with
  | Err e => (Err e, m)
  | Panic p => (Panic p, m)
  | Ok (frameTypeList, fragments) => quicFinish m frameTypeList fragments
  end.

(** ** Varints *)

Lemma ReadByte_Ok bs b bs' : ReadByte bs = Ok (b, bs') → bs = b :: bs'.
Proof. destruct bs; cbn; congruence. Qed.

Lemma low6 b : 0 ≤ Z.land (bz b) (0xff - 0xc0) < 64.
Proof. change (0xff - 0xc0) with (Z.ones 6). rewrite Z.land_ones by lia. apply Z.mod_pos_bound. lia. Qed.

(** A varint is below [2^62] and takes at least one byte. *)
Lemma quic_ReadUvarint_spec bs z bs' :
  quic_ReadUvarint bs = Ok (z, bs') → 0 ≤ z < 2 ^ 62 ∧ (length bs' < length bs)%nat.
Proof.
  unfold quic_ReadUvarint. intros H.
  repeat match type of H with
  | _ ≫= _ = _ => apply bind_Ok in H as ([? ?] & Hr & H); apply ReadByte_Ok in Hr; subst
  | (if ?c then _ else _) = _ => destruct c
  end.
  all: injection H as <- <-; rewrite ?Z.shiftl_mul_pow2 by lia; cbn [length].
  all: split; [|lia].
  all: repeat match goal with b : byte |- _ => lazymatch goal with
    | H : 0 ≤ bz b < 256 |- _ => fail
    | _ => pose proof (bz_range b); pose proof (low6 b) end end.
  all: change (2 ^ 62) with 4611686018427387904; cbn [Z.pow Z.pow_pos Pos.iter Z.mul Pos.mul]; lia.
Qed.

(** ** Frames *)

(** Fragments as the frame loop makes them. *)
Definition frag_ok (f : qCryptoFragment) : Prop :=
  0 ≤ fr_offset f < 2 ^ 62 ∧ 0 ≤ fr_length f < 2 ^ 62 ∧ len (fr_payload f) = fr_length f.

Lemma ReadByte_safe bs : safe (ReadByte bs).
Proof. by destruct bs. Qed.

Lemma quic_ReadUvarint_safe bs : safe (quic_ReadUvarint bs).
Proof.
  unfold quic_ReadUvarint.
  repeat first [apply safe_bind; [apply ReadByte_safe|intros [? ?] _] | case_match | exact I].
Qed.

Lemma invalid_if_safe b : safe (invalid_if b).
Proof. by destruct b. Qed.

Lemma invalid_if_Ok b u : invalid_if b = Ok u → b = false.
Proof. by destruct b. Qed.

Lemma ackRange_consuming (j : Z) : consuming ackRange.
Proof.
  intros bs [] bs' H. unfold ackRange in H. invert_ok.
  repeat match goal with H : quic_ReadUvarint _ = Ok _ |- _ => apply quic_ReadUvarint_spec in H end. lia.
Qed.

Lemma repeat_read_safe {A} (rd : Z → reader A) n i bs :
  (∀ j bs, safe (rd j bs)) → safe (repeat_read rd n i bs).
Proof.
  intros Hs. revert i bs; induction n as [|n IH]; intros i bs; [done|]. cbn.
  apply safe_bind; [apply Hs|]. intros [a bs'] _. apply safe_bind; [apply IH|]. by intros [? ?] _.
Qed.

Ltac quic_safe :=
  repeat first
    [ exact I | apply quic_ReadUvarint_safe | apply invalid_if_safe | apply fail_if_safe | apply ReadByte_safe
    | apply safe_bind; [|first [intros [? ?] ?|intros ? ?]] | case_match ].

Lemma readN_le {A} (rd : Z → reader A) n bs l bs' :
  (∀ j, consuming (rd j)) → readN rd n bs = Ok (l, bs') → (length bs' ≤ length bs)%nat.
Proof. intros Hc H. unfold readN in H. apply repeat_read_short in H; [lia|done]. Qed.

Lemma ackFrame_safe t bs : safe (ackFrame t bs).
Proof.
  unfold ackFrame. quic_safe. apply repeat_read_safe. intros _ k. unfold ackRange. quic_safe.
Qed.

Ltac varints :=
  repeat match goal with
  | H : quic_ReadUvarint _ = Ok _ |- _ => apply quic_ReadUvarint_spec in H
  | H : readN _ _ _ = Ok _ |- _ => apply (readN_le _ _ _ _ _ ackRange_consuming) in H
  | H : invalid_if _ = Ok _ |- _ => apply invalid_if_Ok in H
  end.

Lemma ackFrame_short t bs u bs' : ackFrame t bs = Ok (u, bs') → (length bs' < length bs)%nat.
Proof. unfold ackFrame. intros H. invert_ok. case_match; invert_ok; varints; lia. Qed.

Lemma length_from {A} (l : list A) n : (length (from l n) ≤ length l)%nat.
Proof. unfold from. rewrite length_drop. lia. Qed.

Lemma cryptoFrame_spec bs f bs' : cryptoFrame bs = Ok (f, bs') → frag_ok f ∧ (length bs' < length bs)%nat.
Proof.
  unfold cryptoFrame, frag_ok. intros H. invert_ok. varints. bools. cbn.
  match goal with |- context [from ?l ?n] => pose proof (length_from l n) end.
  split; [|lia]. split; [lia|]. split; [lia|]. rewrite len_slice by lia. lia.
Qed.

Lemma closeFrame_short bs u bs' : closeFrame bs = Ok (u, bs') → (length bs' < length bs)%nat.
Proof.
  unfold closeFrame. intros H. invert_ok. varints.
  match goal with |- context [from ?l ?n] => pose proof (length_from l n) end. lia.
Qed.

Lemma frames_loop_safe fuel types frs bs : (length bs ≤ fuel)%nat → safe (frames_loop fuel types frs bs).
Proof.
  revert types frs bs. induction fuel as [|fuel IH]; intros types frs [|b bs] Hf; cbn [frames_loop length] in *; [done|lia|done|].
  repeat case_match; try exact I.
  - apply IH. lia.
  - apply safe_bind; [apply ackFrame_safe|]. intros [u bs'] H'%ackFrame_short. apply IH. lia.
  - apply safe_bind; [unfold cryptoFrame; quic_safe|]. intros [f bs'] [_ H']%cryptoFrame_spec. apply IH. lia.
  - apply safe_bind; [unfold closeFrame; quic_safe|]. intros [u bs'] H'%closeFrame_short. apply IH. lia.
Qed.

(** The frame types grow, and every fragment is well formed. *)
Lemma frames_loop_ok fuel types frs bs types' frs' :
  frames_loop fuel types frs bs = Ok (types', frs') → Forall frag_ok frs →
  Forall frag_ok frs' ∧ types `prefix_of` types' ∧ (bs = [] → frs' = frs) ∧ (bs ≠ [] → types' ≠ []).
Proof.
  revert types frs bs. induction fuel as [|fuel IH]; intros types frs [|b bs] H Hok; cbn [frames_loop] in H.
  1,3: injection H as <- <-; done.
  { done. }
  assert (Hgo : ∀ bs1 frs1, frames_loop fuel (types ++ [bz b]) frs1 bs1 = Ok (types', frs') → Forall frag_ok frs1 →
    Forall frag_ok frs' ∧ types `prefix_of` types' ∧ (b :: bs = [] → frs' = frs) ∧ (b :: bs ≠ [] → types' ≠ [])).
  { intros bs1 frs1 Hl Hf. destruct (IH _ _ _ Hl Hf) as (H1 & [k ->] & _ & _).
    split_and!; [done|by rewrite <- app_assoc; eexists|done|]. intros _. by destruct types. }
  repeat case_match; try discriminate; invert_ok; eauto.
  eapply Hgo; [done|]. apply Forall_app. split; [done|]. apply Forall_singleton.
  match goal with H : cryptoFrame _ = Ok _ |- _ => by apply cryptoFrame_spec in H as [? _] end.
Qed.

(** ** Reassembly *)

Lemma findFragment_spec index frs f :
  findFragment index frs = Some f → f ∈ frs ∧ fr_offset f = index ∧ 0 < fr_length f.
Proof.
  unfold findFragment. intros [Hin Hf]%List.find_some. bools. split_and!; [by apply list_elem_of_In|done..].
Qed.

Definition not_before (index : Z) (f : qCryptoFragment) : bool := index <=? fr_offset f.

Lemma filter_shrinks {A} (p q : A → bool) l x :
  (∀ y, q y = true → p y = true) → x ∈ l → p x = true → q x = false →
  (length (List.filter q l) < length (List.filter p l))%nat.
Proof.
  intros Hqp Hx Hp Hq.
  assert (Hle : ∀ k, (length (List.filter q k) ≤ length (List.filter p k))%nat).
  { induction k as [|y k IH]; [done|]. cbn. destruct (q y) eqn:E; [rewrite (Hqp y E); cbn; lia|].
    destruct (p y); cbn; lia. }
  induction l as [|y l IH]; [by apply elem_of_nil in Hx|]. apply elem_of_cons in Hx as [<-|Hx]; cbn.
  - rewrite Hp, Hq. cbn. specialize (Hle l). lia.
  - specialize (IH Hx). destruct (q y) eqn:E; [rewrite (Hqp y E); cbn; lia|]. destruct (p y); cbn; lia.
Qed.

(** The [find] loop returns within one round per fragment. *)
Lemma find_loop_total fuel frs index buffer :
  Forall frag_ok frs → (length (List.filter (not_before index) frs) ≤ fuel)%nat →
  ∃ b, find_loop fuel frs index buffer = Some (buffer ++ b).
Proof.
  revert index buffer. induction fuel as [|fuel IH]; intros index buffer Hok Hfuel; cbn [find_loop].
  all: destruct (findFragment index frs) as [f|] eqn:Hf; [|exists []; by rewrite app_nil_r].
  all: apply findFragment_spec in Hf as (Hin & Hoff & Hlen).
  all: pose proof (proj1 (Forall_forall _ _) Hok f Hin) as (Ho & Hl & _).
  all: assert (Hmod : (fr_offset f + fr_length f) mod 2 ^ 64 = fr_offset f + fr_length f)
    by (apply Z.mod_small; change (2 ^ 62) with 4611686018427387904 in *; lia); rewrite ?Hmod.
  all: assert (Hshrink : (length (List.filter (not_before (fr_offset f + fr_length f)) frs) <
    length (List.filter (not_before index) frs))%nat)
    by (apply (filter_shrinks _ _ _ f); [|done|..]; unfold not_before; intros; bools;
        rewrite ?Z.leb_le, ?Z.leb_gt; lia).
  - lia.
  - destruct (IH (fr_offset f + fr_length f) (buffer ++ fr_payload f) Hok ltac:(lia)) as (b & Hb).
    exists (fr_payload f ++ b). by rewrite Hb, <- app_assoc.
Qed.

Lemma reassemble_total frs : Forall frag_ok frs → ∃ b, reassemble frs = Some (recordHeader (frameLen frs) ++ b).
Proof. intros. apply find_loop_total; [done|]. apply List.filter_length_le. Qed.

(** The fragments of a message cut into pieces. *)
Fixpoint frags (o : Z) (pieces : list (list byte)) : list qCryptoFragment :=
  match pieces with
  | [] => []
  | p :: ps => mkFragment o (len p) p :: frags (o + len p) ps
  end.

Lemma frags_bounds o ps f : f ∈ frags o ps →
  o ≤ fr_offset f ∧ fr_offset f + fr_length f ≤ o + len (concat ps) ∧ len (fr_payload f) = fr_length f ∧ 0 ≤ fr_length f.
Proof.
  revert o; induction ps as [|p ps IH]; intros o; cbn [frags concat]; [by intros ?%elem_of_nil|].
  pose proof (len_nonneg p). pose proof (len_nonneg (concat ps)). rewrite len_app.
  intros [->|H']%elem_of_cons; cbn; [lia|]. apply IH in H'. lia.
Qed.

Lemma frags_unique o ps f g : Forall (λ p, p ≠ []) ps →
  f ∈ frags o ps → g ∈ frags o ps → fr_offset f = fr_offset g → f = g.
Proof.
  revert o; induction ps as [|p ps IH]; intros o Hne; cbn [frags]; [by intros ?%elem_of_nil|].
  apply Forall_cons in Hne as [Hp Hne].
  assert (0 < len p) by (destruct p; [done|rewrite len_cons; pose proof (len_nonneg p); lia]).
  intros [->|Hf]%elem_of_cons [->|Hg]%elem_of_cons; cbn; [done|..].
  - apply frags_bounds in Hg. lia.
  - apply frags_bounds in Hf. lia.
  - by apply IH with (o := o + len p).
Qed.

Lemma frags_app o ps qs : frags o (ps ++ qs) = frags o ps ++ frags (o + len (concat ps)) qs.
Proof.
  revert o; induction ps as [|p ps IH]; intros o; cbn [frags app concat]; [by rewrite len_nil, Z.add_0_r|].
  rewrite IH, len_app. do 3 f_equal. lia.
Qed.

(** The loop walks through the pieces in their order, wherever their fragments
    are in the list. *)
Lemma find_loop_pieces frs ps done_ fuel buffer :
  Forall (λ p, p ≠ []) (done_ ++ ps) → frs ≡ₚ frags 0 (done_ ++ ps) → len (concat (done_ ++ ps)) < 2 ^ 64 →
  (length ps ≤ fuel)%nat →
  find_loop fuel frs (len (concat done_)) buffer = Some (buffer ++ concat ps).
Proof.
  revert done_ fuel buffer. induction ps as [|p ps IH]; intros done_ fuel buffer Hne Hperm Hlen Hfuel.
  - assert (findFragment (len (concat done_)) frs = None) as Hnone.
    { destruct (findFragment _ frs) as [f|] eqn:Hf; [|done]. apply findFragment_spec in Hf as (Hin & Hoff & Hl).
      rewrite Hperm, app_nil_r in Hin. apply frags_bounds in Hin. lia. }
    rewrite app_nil_r. destruct fuel; cbn [find_loop]; by rewrite Hnone.
  - destruct fuel as [|fuel]; [cbn in Hfuel; lia|]. set (g := mkFragment (len (concat done_)) (len p) p).
    assert (Hg : g ∈ frs).
    { rewrite Hperm, frags_app, Z.add_0_l. cbn [frags]. apply elem_of_app. right. left. }
    pose proof Hne as Hp. apply Forall_app in Hp as [_ [Hp _]%Forall_cons].
    assert (0 < len p) by (destruct p; [done|rewrite len_cons; pose proof (len_nonneg p); lia]).
    assert (Hfind : findFragment (len (concat done_)) frs = Some g).
    { destruct (findFragment _ frs) as [f|] eqn:Hf.
      - apply findFragment_spec in Hf as (Hin & Hoff & Hl). f_equal.
        rewrite Hperm in Hin, Hg. by apply (frags_unique 0 (done_ ++ p :: ps)).
      - unfold findFragment in Hf. eapply List.find_none in Hf; [|by apply list_elem_of_In, Hg].
        cbn in Hf. rewrite Z.eqb_refl in Hf. cbn in Hf. lia. }
    cbn [find_loop]. rewrite Hfind. cbn [fr_offset fr_length fr_payload g].
    rewrite concat_app, len_app in Hlen. cbn [concat] in Hlen. rewrite len_app in Hlen.
    pose proof (len_nonneg (concat done_)). pose proof (len_nonneg (concat ps)). rewrite Z.mod_small by lia.
    replace (len (concat done_) + len p) with (len (concat (done_ ++ [p]))) by (rewrite concat_app, len_app; cbn; by rewrite app_nil_r).
    assert (done_ ++ p :: ps = (done_ ++ [p]) ++ ps) as Heq by by rewrite <- app_assoc. rewrite Heq in *.
    rewrite IH; [by cbn [concat]; rewrite <- app_assoc|done|done| |cbn in Hfuel; lia].
    rewrite !concat_app, !len_app. cbn. rewrite app_nil_r. lia.
Qed.

Definition total_length (frs : list qCryptoFragment) : Z := foldr Z.add 0 (fr_length <$> frs).

Lemma total_length_perm frs frs' : frs ≡ₚ frs' → total_length frs = total_length frs'.
Proof. unfold total_length. induction 1; cbn in *; lia. Qed.

Lemma frameLen_total frs : frameLen frs = total_length frs mod 2 ^ 64.
Proof.
  unfold frameLen, total_length.
  assert (H : ∀ a, 0 ≤ a < 2 ^ 64 → foldl (λ n f, (n + fr_length f) mod 2 ^ 64) a frs =
    (a + foldr Z.add 0 (fr_length <$> frs)) mod 2 ^ 64).
  { induction frs as [|f frs IH]; intros a Ha; cbn -[Z.pow Z.modulo].
    - by rewrite Z.add_0_r, Z.mod_small.
    - rewrite IH by (apply Z.mod_pos_bound; lia). rewrite Z.add_mod_idemp_l by lia. f_equal. unfold fmap. lia. }
  rewrite H by lia. done.
Qed.

Lemma total_length_frags o ps : total_length (frags o ps) = len (concat ps).
Proof.
  unfold total_length. revert o; induction ps as [|p ps IH]; intros o; [done|]. cbn. unfold fmap in IH. by rewrite IH, len_app.
Qed.

Lemma frags_length o ps : length (frags o ps) = length ps.
Proof. revert o; induction ps as [|p ps IH]; intros o; cbn; [done|]. by rewrite IH. Qed.

(** Fragments of one message, in any order, give back the message. *)
Lemma reassemble_pieces frs ps :
  Forall (λ p, p ≠ []) ps → frs ≡ₚ frags 0 ps → len (concat ps) < 65536 →
  reassemble frs = Some (recordHeader (len (concat ps)) ++ concat ps).
Proof.
  intros Hne Hperm Hlen. unfold reassemble. pose proof (len_nonneg (concat ps)).
  rewrite frameLen_total, (total_length_perm _ _ Hperm), total_length_frags, Z.mod_small by lia.
  apply (find_loop_pieces frs ps []); cbn [app]; [done|done|lia|].
  by rewrite Hperm, frags_length.
Qed.

Lemma quicClient_total types fp : types ≠ [] → ∃ c, quicClient types fp = Ok c.
Proof. intros H. unfold quicClient. repeat case_match; eauto. done. Qed.

Lemma set_Client_same c m : Client m = c → set_Client c m = m.
Proof. by intros <-; destruct m. Qed.

(** ** Safety *)

Section safety.
Context {QC : QuicCrypto} {QL : QuicCryptoLaws QC}.

Lemma ReadFull_safe n bs : safe (ReadFull n bs).
Proof. unfold ReadFull. repeat case_match; done. Qed.

Lemma ReadFull_Ok n bs l bs' : 0 ≤ n → ReadFull n bs = Ok (l, bs') → len l = n ∧ len bs = n + len bs'.
Proof.
  unfold ReadFull. intros Hn H. case_match; [|by case_match]. injection H as <- <-. bools.
  rewrite len_take, len_drop. lia.
Qed.

Lemma discard_Ok n bs bs' : 0 ≤ n → discard n bs = Ok bs' → len bs = n + len bs'.
Proof. unfold discard. intros Hn H. case_match; [|done]. injection H as <-. bools. rewrite len_from; lia. Qed.

Definition header_ok (packet : list byte) (h : quicHeader) : Prop :=
  0 ≤ qh_hdrLen h ∧ 0 ≤ qh_packetLen h ∧ qh_hdrLen h + qh_packetLen h ≤ len packet ∧ qh_hdrLen h + 20 ≤ len packet.

Lemma quicParseHeader_safe packet : safe (quicParseHeader packet).
Proof.
  unfold quicParseHeader, discard, ReadBE. quic_safe; try apply ReadFull_safe.
Qed.

Lemma varint_len bs z bs' : quic_ReadUvarint bs = Ok (z, bs') → 0 ≤ z ∧ len bs' < len bs.
Proof. intros H%quic_ReadUvarint_spec. unfold len. lia. Qed.

Lemma quicParseHeader_ok packet h : quicParseHeader packet = Ok h → header_ok packet h.
Proof.
  unfold quicParseHeader, ReadBE. intros H. invert_ok. unfold header_ok. cbn.
  repeat match goal with
  | H : ReadByte _ = Ok _ |- _ => apply ReadByte_Ok in H; subst
  | H : quic_ReadUvarint _ = Ok _ |- _ => apply varint_len in H
  | H : discard (bz ?b) _ = Ok _ |- _ => apply discard_Ok in H; [|by pose proof (bz_range b); lia]
  | H : discard _ _ = Ok _ |- _ => apply discard_Ok in H; [|lia]
  | H : ReadFull (bz ?b) _ = Ok _ |- _ => apply ReadFull_Ok in H; [|by pose proof (bz_range b); lia]
  | H : ReadFull _ _ = Ok _ |- _ => apply ReadFull_Ok in H; [|lia]
  | H : invalid_if _ = Ok _ |- _ => apply invalid_if_Ok in H
  end. bools.
  repeat match goal with b : byte |- _ => lazymatch goal with
    | H : 0 ≤ bz b < 256 |- _ => fail | _ => pose proof (bz_range b) end end.
  repeat match goal with l : list byte |- _ => lazymatch goal with
    | H : 0 ≤ len l |- _ => fail | _ => pose proof (len_nonneg l) end end.
  rewrite ?len_cons in *. lia.
Qed.

Lemma HKDFExpandLabel_ok secret context label n :
  0 ≤ n ≤ 255 * 32 → ∃ out, HKDFExpandLabel secret context label n = Ok out ∧ len out = n.
Proof.
  intros Hn. unfold HKDFExpandLabel.
  match goal with |- context [hkdf_Expand secret ?b n] => destruct (hkdf_Expand_length secret b n Hn) as (out & -> & Hl) end.
  exists out. by rewrite Hl, Z.eqb_refl.
Qed.

Lemma xor_at_ok p i v : 0 ≤ i < len p → ∃ q, xor_at p i v = Ok q ∧ len q = len p.
Proof.
  intros Hi. unfold xor_at. rewrite idx_ok by done. eexists. split; [done|]. unfold len. by rewrite length_insert.
Qed.

Lemma copy_range_ok dst lo hi src :
  0 ≤ lo → lo ≤ hi → hi ≤ len dst → ∃ q, copy_range dst lo hi src = Ok q ∧ len q = len dst.
Proof.
  intros. unfold copy_range. rewrite slc_ok by done. eexists. split; [done|].
  pose proof (len_nonneg src). rewrite !len_app, !len_slice, len_from by (rewrite ?len_slice by lia; lia).
  lia.
Qed.

Lemma quicDecrypt_safe packet h : header_ok packet h → safe (quicDecrypt packet h).
Proof.
  intros (Hh & Hp & Hlen & H20). unfold quicDecrypt.
  repeat match goal with
  | |- safe (HKDFExpandLabel ?s ?c ?l ?n ≫= _) =>
      destruct (HKDFExpandLabel_ok s c l n ltac:(lia)) as (? & -> & ?); cbn [mbind result_bind]
  | |- safe (fail_if _ _ ≫= _) => apply safe_bind; [apply fail_if_safe|intros _ _]
  | |- safe (invalid_if _ ≫= _) => apply safe_bind; [apply invalid_if_safe|intros ? ?%invalid_if_Ok; bools]
  | |- safe (idx (aes_Encrypt ?k ?b) _ ≫= _) =>
      rewrite idx_ok by (rewrite aes_Encrypt_length; lia); cbn [mbind result_bind]
  | |- safe (xor_at ?p ?i ?v ≫= _) =>
      destruct (xor_at_ok p i v ltac:(lia)) as (? & -> & ?); cbn [mbind result_bind]
  end.
  rewrite idx_ok by lia. cbn [mbind result_bind].
  match goal with |- context [Z.land ?x 3] => assert (0 ≤ Z.land x 3 < 4)
    by (change 3 with (Z.ones 2); rewrite Z.land_ones by lia; apply Z.mod_pos_bound; lia) end.
  apply safe_bind; [apply invalid_if_safe|]. intros _ Hv%invalid_if_Ok. bools.
  rewrite slc_ok by lia. cbn [mbind result_bind]. rewrite slc_from_ok by lia. cbn [mbind result_bind].
  match goal with |- context [copy_range ?d ?lo ?hi ?src] =>
    destruct (copy_range_ok d lo hi src ltac:(lia) ltac:(lia) ltac:(lia)) as (? & -> & ?) end.
  cbn [mbind result_bind]. rewrite !slc_ok by lia. cbn [mbind result_bind].
  destruct (HKDFExpandLabel_ok x [] (if qh_version h =? Version2 then "quicv2 key" else "quic key") 16 ltac:(lia)) as (key & -> & Hkey).
  destruct (HKDFExpandLabel_ok x [] (if qh_version h =? Version2 then "quicv2 iv" else "quic iv") 12 ltac:(lia)) as (iv & -> & Hiv).
  cbn [mbind result_bind]. unfold AEADAESGCMTLS13_Open. rewrite Hkey, Hiv.
  cbn. apply gcm_Open_safe.
Qed.
End safety.

(** ** Fragments kept between packets *)

(** The fragments kept in the metadata are well formed and do not make a hello
    yet. *)
Definition incomplete (frs : list qCryptoFragment) : Prop :=
  Forall frag_ok frs ∧ ∀ b, reassemble frs = Some b → is_ok (ja3_Compute b) = false.

Definition quic_state_ok (m : SniffMetadata) : Prop :=
  match SniffContext m with None => True | Some frs => incomplete frs end.

Lemma no_fragments_incomplete : incomplete [].
Proof. split; [constructor|]. intros b [= <-]. vm_compute. reflexivity. Qed.

Lemma kept_incomplete m : quic_state_ok m → incomplete (default [] (SniffContext m)).
Proof. unfold quic_state_ok. destruct (SniffContext m); [done|]. intros _. apply no_fragments_incomplete. Qed.

Lemma quicFinish_ok m types frs :
  quic_state_ok m → Forall frag_ok frs → (types = [] → frs = []) →
  safe (fst (quicFinish m types frs)) ∧ quic_state_ok (snd (quicFinish m types frs)).
Proof.
  intros [Hk Hno]%kept_incomplete Hfrs Hempty. unfold quicFinish.
  set (all := frs ++ default [] (SniffContext m)).
  assert (Hall : Forall frag_ok all) by by apply Forall_app.
  destruct (reassemble_total all Hall) as (b & Hb). rewrite Hb.
  pose proof (ja3_Compute_safe (recordHeader (frameLen all) ++ b)) as Hs.
  destruct (ja3_Compute (recordHeader (frameLen all) ++ b)) as [fp|e|p] eqn:Hj; [| |done].
  - case_match; [|done]. destruct (decide (types = [])) as [->|Hne].
    + exfalso. specialize (Hempty eq_refl). subst frs.
      apply Hno in Hb. rewrite Hj in Hb. discriminate Hb.
    + destruct (quicClient_total types fp Hne) as (c & ->). done.
  - split; [done|]. cbn. split; [done|]. intros b' Hb'. 
    assert (b' = recordHeader (frameLen all) ++ b) as -> by (rewrite Hb in Hb'; congruence). by rewrite Hj.
Qed.

Lemma quicFrames_ok decrypted types frs :
  quicFrames decrypted = Ok (types, frs) → Forall frag_ok frs ∧ (types = [] → frs = []).
Proof.
  unfold quicFrames. intros H. apply frames_loop_ok in H as (H1 & _ & H2 & H3); [|constructor].
  split; [done|]. intros ->. destruct decrypted; [by apply H2|by destruct H3].
Qed.

Lemma QUICClientHello_ok (QC : QuicCrypto) (QL : QuicCryptoLaws QC) m packet :
  quic_state_ok m → safe (fst (QUICClientHello m packet)) ∧ quic_state_ok (snd (QUICClientHello m packet)).
Proof.
  intros Hstate.
  unfold QUICClientHello. pose proof (quicParseHeader_safe packet) as Hs.
  destruct (quicParseHeader packet) as [h|e|p] eqn:Hh; cbn [mbind result_bind]; [|done..].
  apply quicParseHeader_ok in Hh. pose proof (quicDecrypt_safe packet h Hh) as Hd.
  destruct (quicDecrypt packet h) as [dec|e|p]; cbn [mbind result_bind]; [|done..].
  pose proof (frames_loop_safe (length dec) [] [] dec (le_n _)) as Hf. fold (quicFrames dec) in Hf.
  destruct (quicFrames dec) as [[types frs]|e|p] eqn:Hfr; [|done..].
  apply quicFrames_ok in Hfr as [H1 H2]. by apply quicFinish_ok.
Qed.

(** The cipher the witnesses use: no encryption at all. *)
Definition plain_crypto : QuicCrypto := {|
  hkdf_Extract := λ a b, a;
  hkdf_Expand := λ _ _ n, Some (replicate (Z.to_nat n) x00);
  aes_Encrypt := λ _ _, replicate 16 x00;
  gcm_Open := λ _ _ data _, Ok data
|}.

Lemma plain_crypto_laws : QuicCryptoLaws plain_crypto.
Proof.
  split; cbn.
  - intros _ _ n Hn. eexists. split; [done|]. unfold len. rewrite length_replicate. lia.
  - reflexivity.
  - done.
Qed.

(** No packet makes the QUIC sniffer panic or loop, whatever fragments
    earlier packets of the flow have left: no index is out of range, the frame
    loop and the search for the next fragment end, and the fragments kept for
    the next packet are again such that this holds. *)
Lemma quic_never_panics (QC : QuicCrypto) (QL : QuicCryptoLaws QC) (m : SniffMetadata) (packet : list byte)
    (Hstate : quic_state_ok m) :
  safe (fst (QUICClientHello m packet)) ∧ quic_state_ok (snd (QUICClientHello m packet)).
Proof. by apply QUICClientHello_ok. Qed.

(** C19: a ClientHello cut into CRYPTO fragments is recognised once all of them
    have arrived, in whatever order, from this packet or kept from earlier ones:
    the domain is the server name of the hello, and nothing stays kept. *)
Theorem quic_hello_any_order (h : hello) (pieces : list (list byte)) (m : SniffMetadata)
    (types : list Z) (frs : list qCryptoFragment)
    (Hok : hello_ok h) (Hcut : concat pieces = enc_handshake h) (Hpieces : Forall (λ p, p ≠ []) pieces)
    (Harrived : frs ++ default [] (SniffContext m) ≡ₚ frags 0 pieces) (Htypes : types ≠ []) :
  ∃ client, quicFinish m types frs =
    (Ok tt, mkSniffMetadata
      (set_Client client (set_Domain (ServerName (describe h)) (set_Protocol "quic" (sm m))))
      None (sm_SnifferNames m) (SniffError m)).
Proof.
  pose proof (ok_size h Hok) as Hsize. pose proof (len_nonneg (enc_handshake h)).
  unfold quicFinish. rewrite (reassemble_pieces _ _ Hpieces Harrived), Hcut by (rewrite Hcut; done).
  replace (recordHeader (len (enc_handshake h)) ++ enc_handshake h) with (enc_record h [])
    by (unfold recordHeader, enc_record; rewrite Z.mod_small, app_nil_r, <- !app_assoc by lia; done).
  rewrite ja3_Compute_read by done. destruct (quicClient_total types (describe h) Htypes) as (c & ->).
  cbn. case_match; [by exists c|].
  eexists. rewrite set_Client_same by reflexivity. done.
Qed.

Definition demo_sniff (kept : option (list qCryptoFragment)) : SniffMetadata :=
  mkSniffMetadata (demo_context "") kept [] None.

(** A packet that carries a whole hello and padding, unencrypted. *)
Definition demo_initial : list byte :=
  let frame := [x06; x00] ++ put_be 2 (0x4000 + len (enc_handshake demo_hello)) ++ enc_handshake demo_hello ++ replicate 20 x00 in
  [xc0] ++ put_be 4 1 ++ [x01; x07] ++ [x00] ++ [x00] ++ put_be 2 (0x4000 + 1 + len frame) ++ [x00] ++ frame.

Example demo_initial_recognised :
  Domain (sm (snd (@QUICClientHello plain_crypto (demo_sniff None) demo_initial))) = "example.com"%string.
Proof. vm_compute. reflexivity. Qed.

(** The second piece of the hello has arrived before the first. *)
Definition demo_pieces : list (list byte) := [take 40 (enc_handshake demo_hello); drop 40 (enc_handshake demo_hello)].
Definition demo_fragment (i : nat) : list qCryptoFragment := option_list (frags 0 demo_pieces !! i).

Lemma quic_hello_any_order_witness :
  ∃ client, quicFinish (demo_sniff (Some (demo_fragment 1))) [6] (demo_fragment 0) =
    (Ok tt, mkSniffMetadata (set_Client client (set_Domain "example.com" (set_Protocol "quic" (demo_context ""))))
      None [] None).
Proof.
  exact (quic_hello_any_order demo_hello demo_pieces (demo_sniff (Some (demo_fragment 1))) [6] (demo_fragment 0)
    demo_hello_ok (take_drop 40 _) ltac:(repeat constructor; discriminate) (reflexivity _) ltac:(discriminate)).
Defined.
