(* ===== verification/SniffTheorems.v ===== *)
(** Theorems about the sniffers of [common/sniff]: none panics, the default
    order labels what the order is meant to label, and a stream is recognised
    however it is cut. *)

From S2P Require Import Prelude GoBytes GoSlices GoStrings Netip Metadata RuleItems RuleAction RuleMatch.
From S2P Require Import RuleSemantics Concrete Sniff Ja3 Quic.

(** [route.go], [defaultPacketSniffers]. *)
Definition defaultPacketSniffers {EX : External} {SL : SniffLib} {QC : QuicCrypto} (now : Z) : list packetSniffer :=
  [DomainNameQuery; QUICClientHello; STUNMessage; WireGuard; OpenVPN now; IKE; TailscaleDisco; SIP; UTP;
   UDPTracker; DTLSRecord; NTP].

(** ** No packet panics *)

(** A sniffer that neither panics nor breaks what the QUIC sniffer keeps. *)
Definition robust (s : packetSniffer) : Prop :=
  ∀ m packet, quic_state_ok m → safe (fst (s m packet)) ∧ quic_state_ok (snd (s m packet)).

Lemma sniffed_robust {A} (check : list byte → result A) f :
  (∀ packet, safe (check packet)) → robust (λ m packet, sniffed (check packet) f m).
Proof. intros H m packet Hm. specialize (H packet). unfold sniffed. destruct (check packet); done. Qed.

Ltac sniff_safe :=
  repeat match goal with
  | |- safe (_ ≫= _) => apply safe_bind; [|first [intros ? ?%invalid_if_Ok|intros ? ?; slice_facts]]
  | |- safe (let _ := _ in _) => cbv zeta
  | |- safe (invalid_if _) => apply invalid_if_safe
  | |- safe (and_then _ _) => unfold and_then
  | |- safe (if ?b then _ else _) => let E := fresh "E" in destruct b eqn:E
  | _ => progress solve_safe
  end.

Lemma STUNMessage_robust : robust STUNMessage.
Proof. apply sniffed_robust. intros packet. sniff_safe. Qed.

Lemma ReadU8_Ok bs z bs' : ReadU8 bs = Ok (z, bs') → 0 ≤ z < 256 ∧ len bs = 1 + len bs' ∧ ∃ b, bs = b :: bs' ∧ z = bz b.
Proof.
  unfold ReadU8, ReadBE, ReadFull. intros H. invert_ok. case_match; [|by case_match]. invert_ok. bools.
  destruct bs as [|b bs]; [done|]. cbn. rewrite len_cons. pose proof (bz_range b).
  change (be [b]) with (bz b). eauto 10.
Qed.

Lemma ReadU8_safe bs : safe (ReadU8 bs).
Proof. unfold ReadU8, ReadBE. apply safe_bind; [apply ReadFull_safe|]. by intros [? ?] _. Qed.

(** The extension loop ends within one round per two bytes. *)
Lemma UTP_extensions_safe fuel extension rest : (length rest < fuel)%nat → safe (UTP_extensions fuel extension rest).
Proof.
  revert extension rest. induction fuel as [|fuel IH]; intros extension rest Hf; [lia|].
  cbn [UTP_extensions]. case_match; [done|].
  apply safe_bind; [apply ReadU8_safe|]. intros [e r] (_ & H1 & _)%ReadU8_Ok.
  apply safe_bind; [apply invalid_if_safe|]. intros _ _.
  apply safe_bind; [apply ReadU8_safe|]. intros [l r'] (_ & H2 & _)%ReadU8_Ok.
  pose proof (length_from r' l). unfold len in *. apply IH. lia.
Qed.

Lemma UTP_robust : robust UTP.
Proof. apply sniffed_robust. intros packet. sniff_safe. apply UTP_extensions_safe. lia. Qed.

Lemma UDPTracker_robust : robust UDPTracker.
Proof. apply sniffed_robust. intros packet. unfold trackerConnectMinSize. sniff_safe. Qed.

Lemma DTLSRecord_robust : robust DTLSRecord.
Proof. apply sniffed_robust. intros packet. sniff_safe. Qed.

Lemma NTP_robust : robust NTP.
Proof. apply sniffed_robust. intros packet. sniff_safe. Qed.

Lemma WireGuard_robust : robust WireGuard.
Proof. apply sniffed_robust. intros packet. sniff_safe. Qed.

Lemma ovpnTLSAuth_safe now p h : 0 ≤ h → safe (ovpnTLSAuth now p h).
Proof. intros. unfold ovpnTLSAuth, and_then. sniff_safe. Qed.

Lemma ovpnTLSAuth_loop_safe now p lens : Forall (λ h, 0 ≤ h) lens → safe (ovpnTLSAuth_loop now p lens).
Proof.
  induction 1 as [|h lens Hh _ IH]; [done|]. cbn [ovpnTLSAuth_loop].
  apply safe_bind; [by apply ovpnTLSAuth_safe|]. by intros [] _.
Qed.

Lemma ovpnCheck_safe now p : safe (ovpnCheck now p).
Proof.
  unfold ovpnCheck, ovpnPlainLen. case_match; [done|]. bools. apply safe_bind; [apply idx_safe; lia|]. intros p0 _.
  repeat (case_match; [done|]). case_match.
  - bools. unfold and_then. sniff_safe.
  - apply safe_bind; [apply ovpnTLSAuth_loop_safe; repeat constructor; lia|]. intros [] _; [done|].
    unfold ovpnTLSCrypt, and_then, ovpnTLSCryptMin. sniff_safe.
Qed.

Lemma OpenVPN_robust now : robust (OpenVPN now).
Proof.
  apply sniffed_robust. intros packet. apply safe_bind; [apply ovpnCheck_safe|]. intros; apply invalid_if_safe.
Qed.

Lemma ikeHeader_safe p : safe (ikeHeader p).
Proof. unfold ikeHeader, ikeHeaderLen. sniff_safe. Qed.

Lemma IKE_robust : robust IKE.
Proof.
  apply sniffed_robust. intros packet. unfold ikeHeaderLen. apply safe_bind; [sniff_safe|]. intros [] Hm.
  - apply safe_bind; [|intros; apply ikeHeader_safe]. case_match; invert_ok; bools; sniff_safe.
  - cbn. apply ikeHeader_safe.
Qed.

Lemma TailscaleDisco_robust : robust TailscaleDisco.
Proof. apply sniffed_robust. intros packet. apply invalid_if_safe. Qed.

Lemma SIP_robust {EX : External} : robust SIP.
Proof.
  intros m packet Hm. unfold SIP, sipApply. repeat case_match; done.
Qed.

Lemma DomainNameQuery_robust {SL : SniffLib} {LL : SniffLaws SL} : robust DomainNameQuery.
Proof.
  intros m packet Hm. unfold DomainNameQuery. pose proof (Msg_Unpack_safe packet).
  destruct (Msg_Unpack packet); [case_match; done|done..].
Qed.

Lemma QUIC_robust {QC : QuicCrypto} {QL : QuicCryptoLaws QC} : robust QUICClientHello.
Proof. intros m packet Hm. by apply QUICClientHello_ok. Qed.

Lemma PeekPacket_robust {SL : SniffLib} m packet errs sniffers :
  Forall robust sniffers → quic_state_ok m →
  safe (fst (PeekPacket_loop m packet errs sniffers)) ∧ quic_state_ok (snd (PeekPacket_loop m packet errs sniffers)).
Proof.
  intros Hs. revert m errs. induction Hs as [|s ss Hs _ IH]; intros m errs Hm; cbn [PeekPacket_loop].
  - unfold errors_result. by case_match.
  - destruct (Hs m packet Hm) as [H1 H2]. destruct (s m packet) as [[u|e|p] m1]; cbn in *; [done|by apply IH|done].
Qed.

(** ** Libraries for the witnesses *)

Fixpoint demo_Is (e t : goerr) : bool :=
  match e with
  | ErrErrors errs => existsb (λ x, demo_Is x t) errs
  | ErrCause1 a b => demo_Is a t || demo_Is b t
  | ErrCause a _ | ErrExtend a _ => demo_Is a t
  | ErrNeedMoreData => match t with ErrNeedMoreData => true | _ => false end
  | ErrUnexpectedEOF => match t with ErrUnexpectedEOF => true | _ => false end
  | _ => false
  end.

Definition demo_lib : SniffLib := {|
  E_Errors := λ errs, match errs with [] => None | _ => Some (ErrErrors errs) end;
  errors_Is := demo_Is;
  SkipN := λ n bs, if n <=? len bs then Ok (from bs n) else Err ErrEOF;
  ReadFullFrom := λ n bs, if n <=? len bs then (slice bs 0 n, None) else (bs, Some ErrUnexpectedEOF);
  Msg_Unpack := λ bs, if len bs =? 12 then Ok (mkMsg false 0 ["example.com"%string] [] [] []) else Err (ErrExternal "unpack");
  tls_ClientHello := λ _, (None, ErrExternal "tls");
  http_ReadRequest := λ _, Err (ErrExternal "http");
  ParseSocksaddr := λ s, mkSocksaddr AddrZero 0 s
|}.

Lemma demo_lib_laws : SniffLaws demo_lib.
Proof.
  split; cbn; try done.
  - intros [|e errs] H; [done|]. eexists. split; [done|]. done.
  - intros n bs H. by rewrite (proj2 (Z.leb_le _ _)) by lia.
  - intros n bs H. rewrite (proj2 (Z.leb_gt _ _)) by lia. eauto.
  - intros n bs H. by rewrite (proj2 (Z.leb_le _ _)) by lia.
  - intros n bs H. rewrite (proj2 (Z.leb_gt _ _)) by lia. eauto.
  - intros bs. by case_match.
Qed.

(** No packet panics under the default sniffers, whatever it holds: every
    index and slice sits behind its length check, every loop ends, and what the
    QUIC sniffer keeps between packets stays well formed. *)
Lemma packet_sniffers_never_panic (EX : External) (SL : SniffLib) (LL : SniffLaws SL) (QC : QuicCrypto)
    (QL : QuicCryptoLaws QC) (now : Z) (m : SniffMetadata) (packet : list byte) (Hstate : quic_state_ok m) :
  safe (fst (PeekPacket m packet (defaultPacketSniffers now))) ∧
  quic_state_ok (snd (PeekPacket m packet (defaultPacketSniffers now))).
Proof.
  apply PeekPacket_robust; [|done]. unfold defaultPacketSniffers.
  repeat (apply Forall_cons; split); [apply DomainNameQuery_robust|apply QUIC_robust|apply STUNMessage_robust|
    apply WireGuard_robust|apply OpenVPN_robust|apply IKE_robust|apply TailscaleDisco_robust|apply SIP_robust|
    apply UTP_robust|apply UDPTracker_robust|apply DTLSRecord_robust|apply NTP_robust|constructor].
Qed.

Lemma packet_sniffers_never_panic_witness :
  quic_state_ok (demo_sniff None) ∧
  safe (fst (@PeekPacket demo_lib (demo_sniff None) [x41; x02] (@defaultPacketSniffers demo demo_lib plain_crypto 0))).
Proof.
  assert (H : quic_state_ok (demo_sniff None)) by exact I. split; [exact H|].
  exact (proj1 (packet_sniffers_never_panic demo demo_lib demo_lib_laws plain_crypto plain_crypto_laws 0
    (demo_sniff None) [x41; x02] H)).
Defined.

(** ** The default order *)

(** The messages of WireGuard: type and size. *)
Definition wireguard_shape (packet : list byte) : Prop :=
  ∃ t body, packet = t :: body ∧
    (bz t = 1 ∧ len packet = 148 ∨ bz t = 2 ∧ len packet = 92 ∨ bz t = 3 ∧ len packet = 64 ∨
     bz t = 4 ∧ ∃ k, 0 ≤ k ∧ len packet = 32 + 16 * k).

Lemma wireguard_first packet : wireguard_shape packet → 20 ≤ len packet ∧ 1 ≤ at_ packet 0 ≤ 4.
Proof. intros (t & body & -> & H). change (at_ (t :: body) 0) with (bz t). destruct H as [?|[?|[?|[? (k & ? & ?)]]]]; lia. Qed.

Lemma WireGuard_accepts m packet :
  wireguard_shape packet → WireGuard m packet = (Ok tt, on_context (set_Protocol "wireguard") m).
Proof.
  intros Hs. pose proof (wireguard_first packet Hs) as [Hlen _]. destruct Hs as (t & body & -> & Hs).
  unfold WireGuard, invalid_if, wgSizeInitiation, wgSizeResponse, wgSizeCookie, wgSizeTransportMin.
  rewrite (proj2 (Z.ltb_ge (len (t :: body)) 4)) by lia. rewrite idx_head.
  destruct Hs as [[-> ->]|[[-> ->]|[[-> ->]|[-> (k & Hk & ->)]]]]; [reflexivity..|].
  cbn -[Z.rem Z.ltb Z.mul Z.add]. rewrite (proj2 (Z.ltb_ge _ _)) by lia.
  replace (32 + 16 * k - 32) with (k * 16) by lia. rewrite Z.rem_mul by lia. done.
Qed.

(** The QUIC and STUN sniffers leave the metadata alone and let such a packet
    pass. *)
Lemma QUIC_rejects_low {QC : QuicCrypto} m packet :
  wireguard_shape packet → ∃ e, QUICClientHello m packet = (Err e, m).
Proof.
  intros Hs. pose proof (wireguard_first packet Hs) as [_ Hb]. destruct Hs as (t & body & -> & _).
  change (at_ (t :: body) 0) with (bz t) in Hb. unfold QUICClientHello, quicParseHeader. cbn [ReadByte mbind result_bind].
  assert (bz t = 1 ∨ bz t = 2 ∨ bz t = 3 ∨ bz t = 4) as [->|[->|[->| ->]]] by lia; eexists; reflexivity.
Qed.

Lemma STUN_rejects m packet :
  20 ≤ len packet → be (slice packet 4 8) ≠ 0x2112A442 → STUNMessage m packet = (Err ErrInvalid, m).
Proof.
  intros Hl Hc. unfold STUNMessage, invalid_if. rewrite (proj2 (Z.ltb_ge _ _)) by lia. cbn [mbind result_bind].
  rewrite (slc_ok packet 4 8) by lia. cbn [mbind result_bind].
  rewrite (uint_be_ok 4 (slice packet 4 8)), slice_whole by (rewrite len_slice by lia; lia).
  cbn [mbind result_bind]. by rewrite (proj2 (Z.eqb_neq _ _)) by done.
Qed.

(** Under the default order every WireGuard datagram is reported as
    [wireguard] - never as [bittorrent], although the uTP check, which comes
    later, accepts it - unless it also unpacks as a DNS message or carries the
    STUN cookie. *)
Theorem default_order_names_wireguard (EX : External) (SL : SniffLib) (QC : QuicCrypto) (now : Z)
    (m : SniffMetadata) (packet : list byte) (e : goerr)
    (Hshape : wireguard_shape packet) (Hdns : Msg_Unpack packet = Err e)
    (Hstun : be (slice packet 4 8) ≠ 0x2112A442) :
  PeekPacket m packet (defaultPacketSniffers now) = (Ok tt, on_context (set_Protocol "wireguard") m).
Proof.
  pose proof (wireguard_first packet Hshape) as [Hlen _]. unfold PeekPacket, defaultPacketSniffers.
  cbn [PeekPacket_loop]. unfold DomainNameQuery at 1. rewrite Hdns.
  destruct (QUIC_rejects_low m packet Hshape) as (e' & ->). rewrite STUN_rejects by done.
  by rewrite WireGuard_accepts.
Qed.

(** A handshake initiation. *)
Definition demo_initiation : list byte := [x01; x00; x00; x00] ++ replicate 144 x6c.

Lemma default_order_names_wireguard_witness :
  fst (UTP (demo_sniff None) demo_initiation) = Ok tt ∧
  @PeekPacket demo_lib (demo_sniff None) demo_initiation (@defaultPacketSniffers demo demo_lib plain_crypto 0) =
  (Ok tt, on_context (set_Protocol "wireguard") (demo_sniff None)).
Proof.
  split; [vm_compute; reflexivity|].
  apply (default_order_names_wireguard demo demo_lib plain_crypto 0 (demo_sniff None) demo_initiation (ErrExternal "unpack")).
  - exists x01, ([x00; x00; x00] ++ replicate 144 x6c). split; [reflexivity|]. left. split; reflexivity.
  - reflexivity.
  - vm_compute. discriminate.
Defined.

(** ** What the OpenVPN sniffer accepts *)

(** The three layouts of a client hard reset: no protection, [tls-auth] with an
    HMAC of a known length, [tls-crypt]. *)
Definition hard_reset (now : Z) (p : list byte) : Prop :=
  ∃ op sid rest, p = [op] ++ sid ++ rest ∧ (op = x38 ∨ op = x50) ∧ len sid = 8 ∧
    (rest = replicate 5 x00 ∨
     (∃ hmac t, rest = hmac ++ put_be 4 1 ++ put_be 4 t ++ replicate 5 x00 ∧ len hmac ∈ ovpnHMACLens ∧
        0 ≤ t < 2 ^ 32 ∧ ovpnTimePlausible now t = true) ∨
     (∃ t body, rest = put_be 4 1 ++ put_be 4 t ++ body ∧ 32 ≤ len body ∧
        0 ≤ t < 2 ^ 32 ∧ ovpnTimePlausible now t = true)).

Lemma and_then_Ok b f r : (∃ c, f = Ok c ∧ (c = true ↔ r)) → ∃ c, and_then b f = Ok c ∧ (c = true ↔ b = true ∧ r).
Proof. intros (c & -> & Hc). destruct b; cbn; eexists; (split; [done|]); naive_solver. Qed.

Lemma bind_assoc_result {A B C} (r : result A) (f : A → result B) (g : B → result C) :
  (a ← r; b ← f a; g b) = (b ← (a ← r; f a); g b).
Proof. by destruct r. Qed.

Lemma uint_be_from n p k : 0 ≤ n → 0 ≤ k → k + n ≤ len p →
  (s ← slc_from p k; uint_be n s) = Ok (be (slice p k (k + n))).
Proof.
  intros. rewrite slc_from_ok by lia. cbn. rewrite uint_be_ok by (rewrite len_from by lia; lia).
  unfold slice, from. rewrite drop_0. do 3 f_equal. lia.
Qed.

(** The conditions of the two loops over fields, in terms of the packet. *)
Definition auth_fields (now : Z) (p : list byte) (h : Z) : Prop :=
  len p = 22 + h ∧ be (slice p (9 + h) (13 + h)) = 1 ∧ ovpnTimePlausible now (be (slice p (13 + h) (17 + h))) = true ∧
  at_ p (17 + h) = 0 ∧ ovpnAllZero (slice p (18 + h) (22 + h)) = true.

Lemma ovpnTLSAuth_iff now p h : 0 ≤ h → ∃ b, ovpnTLSAuth now p h = Ok b ∧ (b = true ↔ auth_fields now p h).
Proof.
  intros Hh. unfold ovpnTLSAuth, auth_fields, and_then. destruct (Z.eqb_spec (len p) (22 + h)); [|naive_solver].
  pose proof (uint_be_from 4 p (9 + h) ltac:(lia) ltac:(lia) ltac:(lia)) as H1.
  pose proof (uint_be_from 4 p (13 + h) ltac:(lia) ltac:(lia) ltac:(lia)) as H2.
  replace (9 + h + 4) with (13 + h) in H1 by lia. replace (13 + h + 4) with (17 + h) in H2 by lia.
  rewrite bind_assoc_result, H1. cbn [mbind result_bind].
  destruct (Z.eqb_spec (be (slice p (9 + h) (13 + h))) 1); [|naive_solver].
  rewrite bind_assoc_result, H2. cbn [mbind result_bind].
  destruct (ovpnTimePlausible now (be (slice p (13 + h) (17 + h)))) eqn:Ht; [|naive_solver].
  rewrite idx_ok by lia. cbn [mbind result_bind]. destruct (Z.eqb_spec (at_ p (17 + h)) 0); [|naive_solver].
  rewrite slc_ok by lia. cbn [mbind result_bind]. naive_solver.
Qed.

Lemma ovpnTLSAuth_loop_iff now p lens : Forall (λ h, 0 ≤ h) lens →
  ∃ b, ovpnTLSAuth_loop now p lens = Ok b ∧ (b = true ↔ Exists (auth_fields now p) lens).
Proof.
  induction 1 as [|h lens Hh _ (b & Hb & Hiff)]; cbn [ovpnTLSAuth_loop].
  { exists false. split; [done|]. rewrite Exists_nil. done. }
  destruct (ovpnTLSAuth_iff now p h Hh) as (c & -> & Hc). cbn [mbind result_bind].
  destruct c; [exists true|exists b]; rewrite Exists_cons; naive_solver.
Qed.

Definition crypt_fields (now : Z) (p : list byte) : Prop :=
  49 ≤ len p ∧ be (slice p 9 13) = 1 ∧ ovpnTimePlausible now (be (slice p 13 17)) = true.

Lemma ovpnTLSCrypt_iff now p : ∃ b, ovpnTLSCrypt now p = Ok b ∧ (b = true ↔ crypt_fields now p).
Proof.
  unfold ovpnTLSCrypt, crypt_fields, and_then, ovpnTLSCryptMin.
  destruct (Z.leb_spec 49 (len p)); [|exists false; split; [done|]; split; [done|intros [? _]; lia]].
  rewrite bind_assoc_result, (uint_be_from 4 p 9) by lia. cbn [mbind result_bind].
  change (9 + 4) with 13. destruct (Z.eqb_spec (be (slice p 9 13)) 1); [|naive_solver].
  rewrite bind_assoc_result, (uint_be_from 4 p 13) by lia. cbn [mbind result_bind]. eexists. naive_solver.
Qed.

Lemma hard_reset_opcode b :
  negb (Z.land (bz b) 7 =? 0) = false ∧ negb ((Z.shiftr (bz b) 3 =? 7) || (Z.shiftr (bz b) 3 =? 10)) = false ↔
  b = x38 ∨ b = x50.
Proof. destruct b; vm_compute; naive_solver. Qed.

(** [ovpnCheck] in terms of the fields of the packet. *)
Definition reset_fields (now : Z) (p : list byte) : Prop :=
  14 ≤ len p ∧ (zb (at_ p 0) = x38 ∨ zb (at_ p 0) = x50) ∧
  (len p = 14 ∧ at_ p 9 = 0 ∧ ovpnAllZero (slice p 10 14) = true ∨
   len p ≠ 14 ∧ (Exists (auth_fields now p) ovpnHMACLens ∨ crypt_fields now p)).

Lemma ovpnCheck_fields now p : ovpnCheck now p = Ok true ↔ reset_fields now p.
Proof.
  unfold ovpnCheck, reset_fields, ovpnPlainLen. destruct (Z.ltb_spec (len p) 14); [split; [done|lia]|].
  rewrite (idx_ok p 0) by lia. cbn [mbind result_bind]. pose proof (hard_reset_opcode (zb (at_ p 0))) as Hop.
  rewrite bz_zb, Z.mod_small in Hop by apply at_range.
  assert (Hbad : ∀ P : Prop, (zb (at_ p 0) = x38 ∨ zb (at_ p 0) = x50 → False) →
    Ok false = Ok true ↔ 14 ≤ len p ∧ (zb (at_ p 0) = x38 ∨ zb (at_ p 0) = x50) ∧ P) by (split; [done|tauto]).
  unfold ovpnOpcodeHardResetClientV2, ovpnOpcodeHardResetClientV3. cbv zeta.
  destruct (negb (Z.land (at_ p 0) 7 =? 0)); [apply Hbad; by intros [? _]%Hop|].
  destruct (negb _); [apply Hbad; by intros [_ ?]%Hop|]. clear Hbad.
  assert (Hgood : zb (at_ p 0) = x38 ∨ zb (at_ p 0) = x50) by by apply Hop. clear Hop.
  destruct (Z.eqb_spec (len p) 14).
  - rewrite (idx_ok p 9) by lia. cbn [mbind result_bind]. unfold and_then.
    destruct (Z.eqb_spec (at_ p 9) 0); [rewrite slc_ok by lia; cbn [mbind result_bind]|].
    + split; [intros [= H']; tauto|]. intros (_ & _ & [(_ & _ & ->)|[? _]]); done.
    + split; [done|]. intros (_ & _ & [(_ & ? & _)|[? _]]); done.
  - destruct (ovpnTLSAuth_loop_iff now p ovpnHMACLens ltac:(repeat constructor; lia)) as (b & -> & Hb).
    destruct (ovpnTLSCrypt_iff now p) as (c & Hc & Hcrypt). cbn [mbind result_bind]. rewrite Hc.
    rewrite <- Hb, <- Hcrypt. clear Hb Hcrypt Hc. destruct b.
    + split; [|done]. intros _. split; [done|]. split; [done|]. right. auto.
    + split; [intros [= ->]; split; [done|]; split; [done|]; right; auto|].
      intros (_ & _ & [[? _]|[_ [?| ->]]]); done.
Qed.

Lemma at_field_at l b r i : i = len l → at_ (l ++ b :: r) i = bz b.
Proof.
  intros ->. unfold at_, len. rewrite Nat2Z.id, lookup_app_r, Nat.sub_diag by lia. done.
Qed.

Lemma slice_at {A} (l k r : list A) i j : i = len l → j = len l + len k → slice (l ++ k ++ r) i j = k.
Proof. intros -> ->. rewrite slice_app_skip, Z.sub_diag by lia. apply slice_app_head. lia. Qed.

Lemma ovpnAllZero_iff l : ovpnAllZero l = true ↔ l = replicate (length l) x00.
Proof.
  unfold ovpnAllZero. induction l as [|b l IH]; [done|]. cbn. rewrite andb_true_iff, IH, Z.eqb_eq. split.
  - intros [Hb <-]. f_equal. by apply bz_inj.
  - intros [= -> Hl]. done.
Qed.

Lemma slice_all {A} (p : list A) : p = slice p 0 (len p).
Proof. symmetry. by apply slice_whole. Qed.

Lemma reset_split p : 14 ≤ len p → p = [zb (at_ p 0)] ++ slice p 1 9 ++ slice p 9 (len p).
Proof.
  intros. rewrite (slice_all p) at 1. rewrite (slice_split p 0 1), (slice_split p 1 9) by lia.
  by rewrite (slice_one p 0 : _ → slice p 0 1 = _) by lia.
Qed.

Lemma be_range l n : len l = n → 0 ≤ n → 0 ≤ be l < 2 ^ (8 * n).
Proof. intros <- _. pose proof (be_bound l) as H. rewrite Z.pow_mul_r; [exact H|lia|apply len_nonneg]. Qed.

Lemma auth_layout now p h : 0 ≤ h → auth_fields now p h →
  ∃ hmac t, slice p 9 (len p) = hmac ++ put_be 4 1 ++ put_be 4 t ++ replicate 5 x00 ∧ len hmac = h ∧
    0 ≤ t < 2 ^ 32 ∧ ovpnTimePlausible now t = true.
Proof.
  intros Hh (Hl & H1 & Ht & Ha & Hz). exists (slice p 9 (9 + h)), (be (slice p (13 + h) (17 + h))).
  split_and!; [|rewrite len_slice; lia| |  |done].
  - rewrite Hl. rewrite (slice_split p 9 (9 + h)), (slice_split p (9 + h) (13 + h)), (slice_split p (13 + h) (17 + h)),
      (slice_split p (17 + h) (17 + h + 1)), (slice_one p (17 + h)), Ha by lia.
    f_equal. f_equal; [apply (be_field _ 4); [lia|rewrite len_slice; lia|done]|].
    f_equal; [apply (be_field _ 4); [lia|rewrite len_slice; lia|done]|].
    replace (17 + h + 1) with (18 + h) by lia. apply ovpnAllZero_iff in Hz. rewrite Hz.
    pose proof (len_slice p (18 + h) (22 + h) ltac:(lia) ltac:(lia) ltac:(lia)) as Hs. unfold len in Hs.
    by replace (length (slice p (18 + h) (22 + h))) with 4%nat by lia.
  - apply (be_range _ 4); [rewrite len_slice; lia|lia].
  - apply (be_range _ 4); [rewrite len_slice; lia|lia].
Qed.

Lemma hard_reset_fields now p : reset_fields now p → hard_reset now p.
Proof.
  intros (Hlen & Hop & Hrest). exists (zb (at_ p 0)), (slice p 1 9), (slice p 9 (len p)).
  split; [by apply reset_split|]. split; [done|]. split; [by rewrite len_slice by lia|].
  destruct Hrest as [(Hl & H9 & Hz)|[Hne [Hauth|(Hl & H1 & Ht)]]].
  - left. rewrite Hl, (slice_split p 9 10), (slice_one p 9 : _ → slice p 9 10 = _), H9 by lia. apply ovpnAllZero_iff in Hz. rewrite Hz.
    pose proof (len_slice p 10 14 ltac:(lia) ltac:(lia) ltac:(lia)) as Hs. unfold len in Hs.
    by replace (length (slice p 10 14)) with 4%nat by lia.
  - right; left. apply Exists_exists in Hauth as (h & Hh & Hf).
    assert (0 ≤ h) by (unfold ovpnHMACLens in Hh; rewrite !elem_of_cons, elem_of_nil in Hh; lia).
    destruct (auth_layout now p h) as (hmac & t & Heq & Hhl & Hr); [done..|]. exists hmac, t. by rewrite Hhl.
  - right; right. exists (be (slice p 13 17)), (slice p 17 (len p)). split_and!; [|rewrite len_slice; lia|..|done].
    + rewrite (slice_split p 9 13), (slice_split p 13 17) by lia.
      f_equal; [apply (be_field _ 4); [lia|rewrite len_slice; lia|done]|].
      f_equal. apply (be_field _ 4); [lia|rewrite len_slice; lia|done].
    + apply (be_range _ 4); [rewrite len_slice; lia|lia].
    + apply (be_range _ 4); [rewrite len_slice; lia|lia].
Qed.

Lemma len_put4 z : len (put_be 4 z) = 4.
Proof. by rewrite len_put_be. Qed.
#[export] Hint Rewrite len_put4 : lens.

Lemma be_put4 z : 0 ≤ z < 2 ^ 32 → be (put_be 4 z) = z.
Proof. apply (be_put_be 4). Qed.

Lemma fields_hard_reset now p : hard_reset now p → reset_fields now p.
Proof.
  intros (op & sid & rest & -> & Hop & Hsid & Hrest). unfold reset_fields.
  assert (zb (at_ ([op] ++ sid ++ rest) 0) = op) as -> by (change (at_ ([op] ++ sid ++ rest) 0) with (bz op); apply zb_bz).
  assert (Hreplicate : len (replicate 5 x00) = 5) by reflexivity.
  destruct Hrest as [->|[(hmac & t & -> & Hh & Hr & Ht)|(t & body & -> & Hl & Hr & Ht)]]; lens.
  - split; [lia|]. split; [done|]. left. split; [lia|]. rewrite app_assoc. split.
    + apply (at_field_at ([op] ++ sid) x00). lens. lia.
    + change (replicate 5 x00) with ([x00] ++ replicate 4 x00 ++ []). rewrite (app_assoc _ [x00]), slice_at; [done|..];
        change (len (replicate 4 x00)) with 4; lens; lia.
  - assert (0 ≤ len hmac) by apply len_nonneg. split; [lia|]. split; [done|]. right. split; [lia|]. left.
    apply Exists_exists. exists (len hmac). split; [done|]. unfold auth_fields. lens. split; [lia|].
    rewrite !(app_assoc [op]), (app_assoc _ hmac). split_and!.
    + rewrite slice_at; [by rewrite be_put4|lens; lia..].
    + rewrite (app_assoc _ (put_be 4 1)), slice_at; [by rewrite be_put4|lens; lia..].
    + rewrite (app_assoc _ (put_be 4 1)), (app_assoc _ (put_be 4 t)). apply (at_field_at _ x00). lens. lia.
    + rewrite (app_assoc _ (put_be 4 1)), (app_assoc _ (put_be 4 t)).
      change (replicate 5 x00) with ([x00] ++ replicate 4 x00 ++ []).
      rewrite (app_assoc _ [x00]), slice_at; [done|..]; change (len (replicate 4 x00)) with 4; lens; lia.
  - split; [lia|]. split; [done|]. right. split; [lia|]. right. unfold crypt_fields. lens. split; [lia|].
    rewrite !(app_assoc [op]). split.
    + rewrite slice_at; [by rewrite be_put4|lens; lia..].
    + rewrite (app_assoc _ (put_be 4 1)), slice_at; [by rewrite be_put4|lens; lia..].
Qed.

(** The OpenVPN check accepts exactly the client hard resets: opcode 7 or 10
    with key id 0, a session id, and one of the three documented layouts - plain,
    [tls-auth] with an HMAC of one of the known lengths, or [tls-crypt] - with a
    first replay counter and a plausible time. *)
Lemma ovpnCheck_accepts_hard_resets (now : Z) (p : list byte) :
  ovpnCheck now p = Ok true ↔ hard_reset now p.
Proof. rewrite ovpnCheck_fields. split; [apply hard_reset_fields|apply fields_hard_reset]. Qed.

(** ** Streams *)

Section streams.
Context {EX : External} {SL : SniffLib} {LL : SniffLaws SL}.

Definition wants_more (e : goerr) : bool := errors_Is e ErrNeedMoreData.

(** [y], the answer on more bytes, agrees with [x], the answer on fewer: a
    success stays, and so does a refusal that does not ask for more. *)
Definition settles {A} (x y : result A) : Prop :=
  match x with
  | Ok a => y = Ok a
  | Err e => wants_more e = false → ∃ e', y = Err e' ∧ wants_more e' = false
  | Panic _ => False
  end.

Lemma wants_more_cause e : wants_more (ErrCause1 ErrNeedMoreData e) = true.
Proof. unfold wants_more. by rewrite Is_Cause1, Is_NeedMoreData. Qed.

Lemma wants_more_invalid : wants_more ErrInvalid = false.
Proof. apply Is_Invalid. Qed.

(** A reader that reads the same from a longer input. *)
Definition extends {A} (rd : reader A) : Prop :=
  (∀ bs k a r, rd bs = Ok (a, r) → rd (bs ++ k) = Ok (a, r ++ k)) ∧ ∀ bs, safe (rd bs).

Lemma settles_read {A B} (rd : reader A) (g : A → list byte → result B) bs k :
  extends rd → (∀ a r, settles (g a r) (g a (r ++ k))) →
  settles ('(a, r) ← need_more (rd bs); g a r) ('(a, r) ← need_more (rd (bs ++ k)); g a r).
Proof.
  intros [Hext Hsafe] Hg. specialize (Hsafe bs). destruct (rd bs) as [[a r]|e|p] eqn:Hr; [| |done].
  - rewrite (Hext _ k _ _ Hr). cbn. apply Hg.
  - cbn. by rewrite wants_more_cause.
Qed.

Lemma settles_check {A} b (x y : result A) : settles x y → settles (invalid_if b;; x) (invalid_if b;; y).
Proof. destruct b; [|done]. intros _ _. exists ErrInvalid. split; [done|apply wants_more_invalid]. Qed.

Lemma ReadFull_extends n : 0 ≤ n → extends (ReadFull n).
Proof.
  intros Hn. split; [|intros; apply ReadFull_safe]. intros bs k a r H. unfold ReadFull in *.
  destruct (Z.leb_spec n (len bs)); [|by case_match]. injection H as <- <-.
  rewrite len_app, (proj2 (Z.leb_le _ _)) by (pose proof (len_nonneg k); lia).
  unfold len in *. by rewrite take_app_le, drop_app_le by lia.
Qed.

Lemma ReadBE_extends n : 0 ≤ n → extends (ReadBE n).
Proof.
  intros Hn. destruct (ReadFull_extends n Hn) as [He Hs]. split.
  - intros bs k a r H. unfold ReadBE in *. invert_ok. erewrite He by done. done.
  - intros bs. unfold ReadBE. apply safe_bind; [apply Hs|]. by intros [? ?] _.
Qed.

Lemma SkipN_settles {B} n bs k (g : list byte → result B) :
  0 ≤ n → (∀ r, settles (g r) (g (r ++ k))) →
  settles (r ← need_more (SkipN n bs); g r) (r ← need_more (SkipN n (bs ++ k)); g r).
Proof.
  intros Hn Hg. destruct (decide (n ≤ len bs)) as [Hle|Hgt].
  - pose proof (len_nonneg k). rewrite !SkipN_enough by (rewrite ?len_app; lia). cbn.
    replace (from (bs ++ k) n) with (from bs n ++ k); [apply Hg|]. unfold from, len in *. by rewrite drop_app_le by lia.
  - destruct (SkipN_short n bs ltac:(lia)) as (e & ->). cbn. by rewrite wants_more_cause.
Qed.

Lemma RDP_header_settles bs k : settles (RDP_header bs) (RDP_header (bs ++ k)).
Proof.
  unfold RDP_header.
  repeat first
    [ apply (settles_read (ReadBE 1)); [apply ReadBE_extends; lia|intros ? ?]
    | apply (settles_read (ReadBE 2)); [apply ReadBE_extends; lia|intros ? ?]
    | apply settles_check
    | apply SkipN_settles; [lia|intros ?] ].
  destruct (negb _); [|done]. intros _. exists ErrInvalid. split; [done|apply wants_more_invalid].
Qed.

(** A stream sniffer whose answer settles. *)
Definition stable (s : streamSniffer) : Prop :=
  ∀ m cs cs', concat cs `prefix_of` concat cs' →
    match s m cs with
    | (Ok _, m1) => s m cs' = (Ok tt, m1)
    | (Err e, m1) => m1 = m ∧ (wants_more e = false → ∃ e', s m cs' = (Err e', m) ∧ wants_more e' = false)
    | (Panic _, _) => False
    end.

Lemma RDP_stable : stable RDP.
Proof.
  intros m cs cs' [k Hk]. unfold RDP. rewrite Hk. pose proof (RDP_header_settles (concat cs) k) as H.
  destruct (RDP_header (concat cs)) as [[]|e|p]; cbn in *; [by rewrite H| |done].
  split; [done|]. intros Hm. destruct (H Hm) as (e' & -> & ?). eauto.
Qed.

(** The checks on the first bytes of a DNS message, as one condition. *)
Definition dns_bad (packet : list byte) : bool :=
  let n := len packet in
  (2 <? n) && negb (Z.land (at_ packet 2) 0x80 =? 0) || ((5 <? n) && ((at_ packet 4 =? 0) && (at_ packet 5 =? 0)) ||
  ((6 <? n) && negb (at_ packet 6 =? 0) || ((7 <? n) && negb (at_ packet 7 =? 0) ||
  ((8 <? n) && negb (at_ packet 8 =? 0) || (9 <? n) && negb (at_ packet 9 =? 0))))).

Lemma guarded_check i n X b Y c :
  (i < n → X = invalid_if b) → Y = invalid_if c →
  ((if i <? n then X else Ok tt);; Y) = invalid_if ((i <? n) && b || c).
Proof.
  intros HX ->. destruct (Z.ltb_spec i n); [rewrite HX by done|done]. by destruct b.
Qed.

Lemma streamDNS_prefix_bad packet : streamDNS_prefix packet = invalid_if (dns_bad packet).
Proof.
  unfold streamDNS_prefix, dns_bad. cbv zeta.
  repeat (apply guarded_check; [intros; by rewrite !idx_ok by lia|]).
  destruct (Z.ltb_spec 9 (len packet)); [by rewrite idx_ok by lia|done].
Qed.

Lemma at_app_l p q i : 0 ≤ i < len p → at_ (p ++ q) i = at_ p i.
Proof. intros. unfold at_, len in *. by rewrite lookup_app_l by lia. Qed.

Lemma dns_bad_app p q : dns_bad p = true → dns_bad (p ++ q) = true.
Proof.
  unfold dns_bad. cbv zeta. rewrite len_app. pose proof (len_nonneg q).
  assert (Hlift : ∀ i b b' c c', (i < len p → b' = b) → (c = true → c' = true) →
    (i <? len p) && b || c = true → (i <? len p + len q) && b' || c' = true).
  { intros i b b' c c' Hb Hc [[Hi ->]%andb_true_iff| ->%Hc]%orb_true_iff; [|apply orb_true_r].
    apply Z.ltb_lt in Hi. rewrite Hb by done. rewrite (proj2 (Z.ltb_lt _ _)) by lia. done. }
  repeat (apply Hlift; [intros; by rewrite !at_app_l by lia|]).
  rewrite !andb_true_iff, !Z.ltb_lt. intros [? Hn]. rewrite at_app_l by lia. split; [lia|done].
Qed.

Lemma slice_zero {A} (l : list A) n : slice l 0 n = take (Z.to_nat n) l.
Proof. unfold slice. by rewrite Z.sub_0_r. Qed.

Lemma ReadFullFrom_extend n bs k : 0 ≤ n →
  ReadFullFrom n bs = (slice bs 0 n, None) ∧ ReadFullFrom n (bs ++ k) = (slice bs 0 n, None) ∨
  ∃ e q o, ReadFullFrom n bs = (bs, Some e) ∧ ReadFullFrom n (bs ++ k) = (bs ++ q, o).
Proof.
  intros Hn. pose proof (len_nonneg k). destruct (decide (n ≤ len bs)).
  - left. rewrite !ReadFullFrom_enough by (rewrite ?len_app; lia). split; [done|].
    rewrite !slice_zero. unfold len in *. by rewrite take_app_le by lia.
  - right. destruct (ReadFullFrom_short n bs ltac:(lia)) as (e & ->). exists e.
    destruct (decide (n ≤ len (bs ++ k))).
    + rewrite ReadFullFrom_enough by lia. exists (slice k 0 (n - len bs)), None. split; [done|]. f_equal.
      rewrite !slice_zero. unfold len in *. rewrite take_app_ge by lia. do 2 f_equal. lia.
    + destruct (ReadFullFrom_short n (bs ++ k) ltac:(lia)) as (e' & ->). eauto.
Qed.

Lemma DomainNameQuery_settled m packet :
  match DomainNameQuery m packet with
  | (Ok _, m1) => DomainNameQuery m packet = (Ok tt, m1)
  | (Err e, m1) => m1 = m ∧ (wants_more e = false → ∃ e', DomainNameQuery m packet = (Err e', m) ∧ wants_more e' = false)
  | (Panic _, _) => False
  end.
Proof.
  unfold DomainNameQuery. pose proof (Msg_Unpack_safe packet).
  destruct (Msg_Unpack packet) as [msg|e|p]; [by destruct (_ || _)| |done]. split; [done|]. eauto.
Qed.

Lemma StreamDomainNameQuery_stable : stable StreamDomainNameQuery.
Proof.
  intros m cs cs' [k Hk]. unfold StreamDomainNameQuery. rewrite Hk.
  destruct (ReadBE_extends 2 ltac:(lia)) as [He Hs]. specialize (Hs (concat cs)).
  destruct (ReadBE 2 (concat cs)) as [[n r]|e|p] eqn:Hr; [| |done]; cbn [need_more].
  2: { split; [done|]. by rewrite wants_more_cause. }
  rewrite (He _ k _ _ Hr). cbn [need_more].
  assert (Hinvalid : ∀ x : result unit * SniffMetadata, x = (Err ErrInvalid, m) → m = m ∧ (wants_more ErrInvalid = false →
    ∃ e', x = (Err e', m) ∧ wants_more e' = false)) by (intros x ->; split; [done|]; intros; by exists ErrInvalid).
  destruct (Z.ltb_spec n 12) as [Hlt|Hge]; [by apply Hinvalid|].
  destruct (ReadFullFrom_extend n r k ltac:(lia)) as [[-> ->]|(e & q & o & -> & ->)];
    rewrite !streamDNS_prefix_bad.
  - destruct (dns_bad _); [by apply Hinvalid|]. apply DomainNameQuery_settled.
  - destruct (dns_bad r) eqn:Hb; cbn [invalid_if].
    + rewrite (dns_bad_app r q Hb). by apply Hinvalid.
    + split; [done|]. by rewrite wants_more_cause.
Qed.

Lemma sipMethodPrefix_app b c : sipMethodPrefix (b ++ c) = true → sipMethodPrefix b = true.
Proof.
  unfold sipMethodPrefix. rewrite !existsb_exists. intros (x & Hin & Hx). exists x. split; [done|].
  cbv zeta in *. apply bool_decide_eq_true in Hx. apply bool_decide_eq_true. rewrite length_app in Hx.
  apply (f_equal (take (Nat.min (length b) (length (str_bytes (String.append x " ")))))) in Hx.
  rewrite !take_take in Hx. replace (Nat.min (Nat.min _ _) _) with
    (Nat.min (length b) (length (str_bytes (String.append x " ")))) in Hx by lia.
  by rewrite take_app_le in Hx by lia.
Qed.

Lemma Peek_extend n bs k : 0 ≤ n →
  Peek n bs = (slice bs 0 n, None) ∧ Peek n (bs ++ k) = (slice bs 0 n, None) ∨
  ∃ q o, Peek n bs = (bs, Some ErrEOF) ∧ Peek n (bs ++ k) = (bs ++ q, o).
Proof.
  intros Hn. pose proof (len_nonneg k). unfold Peek. rewrite len_app. destruct (Z.leb_spec n (len bs)).
  - left. split; [done|]. rewrite (proj2 (Z.leb_le _ _)) by lia. rewrite !slice_zero. unfold len in *.
    by rewrite take_app_le by lia.
  - right. destruct (Z.leb_spec n (len bs + len k)); [|eauto]. exists (slice k 0 (n - len bs)), None.
    split; [done|]. rewrite !slice_zero. unfold len in *. rewrite take_app_ge by lia. do 2 f_equal. f_equal. lia.
Qed.

Lemma index_byte_app b l k i : index_byte b l = Some i → index_byte b (l ++ k) = Some i.
Proof.
  unfold index_byte. destruct (list_find (eq b) l) as [[j x]|] eqn:H; [|done]. cbn. intros [= ->].
  by rewrite (list_find_app_l _ _ _ _ _ H).
Qed.

Lemma index_byte_lt b l i : index_byte b l = Some i → (i < length l)%nat.
Proof.
  unfold index_byte. destruct (list_find (eq b) l) as [[j x]|] eqn:H; [|done]. cbn. intros [= ->].
  apply list_find_Some in H as (H & _). by apply lookup_lt_Some in H.
Qed.

Lemma ReadSlice_extend size bs k :
  match ReadSlice size bs with
  | None => ReadSlice size (bs ++ k) = None
  | Some (Ok line) => ReadSlice size (bs ++ k) = Some (Ok line)
  | Some (Err _) => True
  | Some (Panic _) => False
  end.
Proof.
  unfold ReadSlice. destruct (index_byte newline (take size bs)) as [i|] eqn:Hi.
  - pose proof (index_byte_lt _ _ _ Hi) as Hlt. rewrite length_take in Hlt.
    rewrite take_app, (index_byte_app _ _ _ _ Hi). by rewrite take_app_le by lia.
  - destruct (decide _); [|done]. rewrite take_app_le, Hi by lia.
    destruct (decide _) as [|Hn]; [done|]. exfalso. apply Hn. rewrite length_app. lia.
Qed.

Lemma sipApply_settled m line :
  match sipApply m line with
  | (Ok _, m1) => sipApply m line = (Ok tt, m1)
  | (Err e, m1) => m1 = m ∧ (wants_more e = false → ∃ e', sipApply m line = (Err e', m) ∧ wants_more e' = false)
  | (Panic _, _) => False
  end.
Proof. unfold sipApply. destruct (sipParseRequestLine line); [done|]. split; [done|]. eauto. Qed.

Lemma SIPStream_stable : stable SIPStream.
Proof.
  intros m cs cs' [k Hk]. unfold SIPStream. rewrite Hk. set (bs := concat cs).
  assert (Hinvalid : ∀ x : result unit * SniffMetadata, x = (Err ErrInvalid, m) → m = m ∧ (wants_more ErrInvalid = false →
    ∃ e', x = (Err e', m) ∧ wants_more e' = false)) by (intros x ->; split; [done|]; intros; by exists ErrInvalid).
  destruct (Peek_extend sipPeekInitial bs k ltac:(unfold sipPeekInitial; lia)) as [[-> ->]|(q & o & -> & ->)].
  - destruct (negb (sipMethodPrefix _)); [by apply Hinvalid|].
    pose proof (ReadSlice_extend (Z.to_nat sipMaxLineLen) bs k) as Hr.
    destruct (ReadSlice _ bs) as [[line|e|p]|]; [| |done|].
    + rewrite Hr. apply sipApply_settled.
    + split; [done|]. by rewrite wants_more_cause.
    + rewrite Hr. by apply Hinvalid.
  - destruct (sipMethodPrefix bs) eqn:Hp; cbn [negb].
    + split; [done|]. by rewrite wants_more_cause.
    + destruct (sipMethodPrefix (bs ++ q)) eqn:Hq; [apply sipMethodPrefix_app in Hq; congruence|]. by apply Hinvalid.
Qed.

(** Reading with one sniffer that settles: the chunks a stream arrives in do
    not matter. *)
Lemma PeekStream_loop_split s first m buffers buffer e0 chunks :
  stable s → chunks ≠ [] →
  ∃ e, fst (PeekStream_loop first m buffers buffer e0 [s] (ReadGot <$> chunks)) =
    match s m (buffers ++ [buffer ++ concat chunks]) with
    | (Ok _, m1) => (Ok tt, m1)
    | _ => (Err e, m)
    end.
Proof.
  intros Hs. revert first buffer e0. induction chunks as [|d chunks IH]; intros first buffer e0 Hne; [done|].
  cbn [fmap list_fmap PeekStream_loop PeekStream_round concat].
  specialize (Hs m (buffers ++ [buffer ++ d]) (buffers ++ [buffer ++ d ++ concat chunks])).
  rewrite !concat_app in Hs. cbn [concat] in Hs. rewrite !app_nil_r, (app_assoc buffer) in Hs.
  specialize (Hs (prefix_app _ _ _ (prefix_app_r _ _ _ (reflexivity _)))). rewrite <- (app_assoc buffer) in Hs.
  destruct (s m (buffers ++ [buffer ++ d])) as [[[]|e|p] m1] eqn:Hsm; [by rewrite Hs; exists ErrInvalid| |done].
  destruct Hs as [-> Hs]. change (option_list None ++ [e]) with [e].
  destruct (E_Errors_cons [e] ltac:(done)) as (e' & -> & He'). rewrite He'. cbn [existsb]. rewrite orb_false_r.
  fold (wants_more e) in *. destruct (wants_more e) eqn:Hm.
  - destruct chunks as [|d' chunks].
    + cbn. rewrite app_nil_r, Hsm. by exists e'.
    + destruct (IH false (buffer ++ d) (Some e') ltac:(done)) as (e'' & IH'). exists e''. rewrite IH'.
      by rewrite <- app_assoc.
  - destruct (Hs eq_refl) as (e2 & -> & _). by exists e'.
Qed.
End streams.

(** C23: the RDP, DNS and SIP stream sniffers do not depend on how the network
    cuts the stream: reading it in any chunks accepts, with the same metadata,
    exactly the streams that are accepted when all bytes arrive at once. *)
Theorem stream_split_irrelevant (EX : External) (SL : SniffLib) (LL : SniffLaws SL) (s : streamSniffer)
    (m : SniffMetadata) (buffers chunks : list (list byte))
    (Hsniffer : s = RDP ∨ s = StreamDomainNameQuery ∨ s = SIPStream) (Hread : chunks ≠ []) :
  ∃ e, fst (PeekStream m buffers [s] (ReadGot <$> chunks)) =
    match s m (buffers ++ [concat chunks]) with
    | (Ok _, m1) => (Ok tt, m1)
    | _ => (Err e, m)
    end.
Proof.
  apply (PeekStream_loop_split s true m buffers [] None chunks); [|done].
  destruct Hsniffer as [->|[->| ->]]; [apply RDP_stable|apply StreamDomainNameQuery_stable|apply SIPStream_stable].
Qed.

(** A SIP request that arrives in three pieces. *)
Definition demo_sip : list (list byte) :=
  [str_bytes "INV"; str_bytes "ITE sip:bob@exam"; str_bytes (String.append "ple.com SIP/2.0" CRLF)].

Lemma stream_split_irrelevant_witness :
  Domain (sm (snd (fst (@PeekStream demo_lib (demo_sniff None) [] [@SIPStream demo] (ReadGot <$> demo_sip))))) = "example.com"%string.
Proof.
  destruct (stream_split_irrelevant demo demo_lib demo_lib_laws SIPStream (demo_sniff None) [] demo_sip
    ltac:(auto) ltac:(discriminate)) as (e & ->).
  vm_compute. reflexivity.
Defined.

(** A [tls-crypt] hard reset of 300 bytes in its TCP frame. *)
Definition demo_reset_frame : list byte :=
  put_be 2 300 ++ [x38] ++ replicate 8 x07 ++ put_be 4 1 ++ put_be 4 1700000000 ++ replicate 283 x2a.

(** Three stream sniffers do depend on how the stream is cut.  [OpenVPNStream]
    refuses for good when the first two bytes of a frame longer than 255 bytes
    arrive alone, [BitTorrent] never recognises a handshake that straddles two
    buffers, and [SSH] reports the part of the banner that has arrived. *)
Lemma stream_split_matters :
  let read buffers sniffers events := fst (@PeekStream demo_lib (demo_sniff None) buffers sniffers events) in
  let now := 1700000000 in
  let frame := demo_reset_frame in
  let bt := x13 :: BitTorrentHeader in
  let banner := str_bytes "SSH-2.0-OpenSSH_9" in
  fst (read [] [OpenVPNStream now] [ReadGot frame]) = Ok tt ∧
  is_ok (fst (read [] [OpenVPNStream now] [ReadGot (take 2 frame); ReadGot (drop 2 frame)])) = false ∧
  fst (read [] [BitTorrent] [ReadGot bt]) = Ok tt ∧
  is_ok (fst (read [take 5 bt] [BitTorrent] [ReadGot (drop 5 bt)])) = false ∧
  Client (sm (snd (read [] [SSH] [ReadGot banner]))) = "OpenSSH_9"%string ∧
  Client (sm (snd (read [] [SSH] [ReadGot (take 12 banner); ReadGot (drop 12 banner)]))) = "Open"%string.
Proof. vm_compute. auto 10. Qed.
