(* ===== verification/StreamSafety.v ===== *)
(** The stream sniffers never panic: every index and slice of a stream sniffer
    is behind its length check, however the stream is cut. *)

From S2P Require Import Prelude GoBytes GoSlices GoStrings Netip Metadata RuleItems RuleAction RuleMatch.
From S2P Require Import RuleSemantics Concrete Sniff Ja3 Quic SniffTheorems.

(** A sniffer that returns, and leaves what the QUIC sniffer keeps alone. *)
Definition stream_robust (s : streamSniffer) : Prop :=
  ∀ m cs, safe (fst (s m cs)) ∧ SniffContext (snd (s m cs)) = SniffContext m.

Lemma sniffed_keeps {A} (r : result A) f m :
  safe r → safe (fst (sniffed r f m)) ∧ SniffContext (snd (sniffed r f m)) = SniffContext m.
Proof. intros H. unfold sniffed. by destruct r. Qed.

(** ** Readers *)

Lemma MultiRead_safe n cs : safe (fst (MultiRead n cs)).
Proof. induction cs as [|[|b c] cs IH]; [done|exact IH|done]. Qed.

Lemma MultiRead_progress n cs got cs' : MultiRead (S n) cs = (Ok got, cs') → (0 < length got ≤ S n)%nat.
Proof.
  induction cs as [|[|b c] cs IH]; cbn; [done|exact IH|]. intros [= <- _]. cbn [length]. rewrite length_take. lia.
Qed.

Lemma MultiReadFull_loop_safe fuel n acc cs :
  (n < fuel + length acc)%nat → safe (fst (MultiReadFull_loop fuel n acc cs)).
Proof.
  revert acc cs. induction fuel as [|fuel IH]; intros acc cs Hf; cbn [MultiReadFull_loop];
    destruct (decide _) as [|Hn]; [done|exfalso; lia|done|].
  destruct (MultiRead (n - length acc) cs) as [[got|e|p] cs'] eqn:Hr; [|done|].
  - destruct (n - length acc)%nat as [|k] eqn:Hk; [lia|]. apply MultiRead_progress in Hr.
    apply IH. rewrite length_app. lia.
  - pose proof (MultiRead_safe (n - length acc) cs) as Hs. by rewrite Hr in Hs.
Qed.

Lemma need_more_safe {A} (r : result A) : safe r → safe (need_more r).
Proof. by destruct r. Qed.

(** ** The sniffers *)

Lemma BitTorrent_robust : stream_robust BitTorrent.
Proof.
  intros m cs. unfold BitTorrent. pose proof (MultiReadFull_loop_safe 2 1 [] cs ltac:(cbn; lia)) as Hs.
  unfold MultiReadFull. destruct (MultiReadFull_loop 2 1 [] cs) as [r cs']. cbn [fst] in Hs. apply sniffed_keeps.
  apply safe_bind; [by apply need_more_safe|]. intros first _. apply safe_bind; [apply invalid_if_safe|]. intros _ _.
  pose proof (MultiRead_safe 19 cs') as Hr. destruct (MultiRead 19 cs') as [r' cs'']. cbn [fst] in Hr. cbv zeta.
  apply safe_bind; [apply invalid_if_safe|]. intros _ _. apply safe_bind; [by apply need_more_safe|]. intros _ _. by case_decide.
Qed.

Lemma trim_suffix_len b l : (length l ≤ S (length (trim_suffix b l)))%nat.
Proof.
  unfold trim_suffix. destruct (last l) as [c|] eqn:Hl; [|lia]. case_bool_decide; [|lia].
  destruct l as [|x l] using rev_ind; [done|]. rewrite removelast_last, length_app. cbn. lia.
Qed.

Lemma trim_suffix_other b c l : b ≠ c → trim_suffix b (l ++ [c]) = l ++ [c].
Proof. intros H. unfold trim_suffix. rewrite last_snoc. by rewrite bool_decide_eq_false_2 by congruence. Qed.

(** A line that starts with a prefix without line ends is as long as it. *)
Lemma trim_suffix_prefix b l k c : b ≠ c → l = k ++ [c] → ∀ t, (length l ≤ length (trim_suffix b (l ++ t)))%nat.
Proof.
  intros Hc -> t. destruct t as [|x t] using rev_ind; [rewrite app_nil_r; by rewrite trim_suffix_other|].
  pose proof (trim_suffix_len b ((k ++ [c]) ++ t ++ [x])) as H. rewrite !length_app in *. cbn in *. lia.
Qed.

Lemma ReadLine_prefix pre k c size t line :
  pre = k ++ [c] → c ≠ x0d → newline ∉ pre → (length pre ≤ size)%nat →
  ReadLine size (pre ++ t) = Ok line → (length pre ≤ length line)%nat.
Proof.
  intros Hpre Hc Hn Hsize. unfold ReadLine, ReadSlice, index_byte.
  destruct (list_find (eq newline) (take size (pre ++ t))) as [[i x]|] eqn:Hi; cbn [fmap option_fmap option_map fst].
  - apply list_find_Some in Hi as (Hi & <- & _). intros <-%Ok_inj.
    assert (Hi8 : (length pre ≤ i)%nat).
    { destruct (le_lt_dec (length pre) i); [done|]. exfalso. rewrite lookup_take_lt, lookup_app_l in Hi by lia.
      by apply list_elem_of_lookup_2 in Hi. }
    rewrite take_app_ge by lia. destruct (S i - length pre)%nat as [|j] eqn:Hj; [lia|].
    assert (Hdrop : take (S j) t ≠ []).
    { intros H. apply (f_equal length) in H. rewrite length_take in H. change (length (@nil byte)) with 0%nat in H.
      apply lookup_lt_Some in Hi. rewrite length_take, length_app in Hi. lia. }
    destruct (take (S j) t) as [|y k' _] using rev_ind; [done|].
    rewrite app_assoc, removelast_last. by apply (trim_suffix_prefix x0d pre k c).
  - destruct (decide _) as [Hd|Hd].
    + intros <-%Ok_inj. rewrite take_app_ge by lia. by apply (trim_suffix_prefix x0d pre k c).
    + destruct (pre ++ t) eqn:E; [done|]. intros <-%Ok_inj. rewrite <- E, length_app. lia.
Qed.

Lemma ReadLine_safe size bs : safe (ReadLine size bs).
Proof.
  unfold ReadLine, ReadSlice. destruct (index_byte _ _); [done|]. destruct (decide _); [done|]. by destruct bs.
Qed.

Lemma SSH_robust : stream_robust SSH.
Proof.
  intros m cs. unfold SSH. destruct (Peek (len sshPrefix) (concat cs)) as [prefix err] eqn:Hp. apply sniffed_keeps.
  apply safe_bind; [apply invalid_if_safe|]. intros [] Hpre%invalid_if_Ok. apply safe_bind; [by destruct err|]. intros [] He.
  destruct err as [e|]; [done|]. unfold Peek in Hp. destruct (Z.leb_spec (len sshPrefix) (len (concat cs))) as [Hl|]; [|done].
  apply (f_equal fst) in Hp. cbn [fst] in Hp. apply negb_false_iff, bool_decide_eq_true in Hpre. rewrite <- Hp in Hpre.
  change (len sshPrefix) with 8 in *. rewrite slice_zero in Hpre. change (Z.to_nat 8) with 8%nat in Hpre.
  rewrite length_take in Hpre. replace (Nat.min 8 _) with 8%nat in Hpre by (unfold len in Hl; lia).
  change (take 8 sshPrefix) with sshPrefix in Hpre. rewrite <- (take_drop 8 (concat cs)), Hpre.
  apply safe_bind; [apply ReadLine_safe|].
  - intros line Hline. apply slc_from_safe.
    apply (ReadLine_prefix sshPrefix (take 7 sshPrefix) x2d) in Hline; [|reflexivity|done| |cbn; lia].
    + change (length sshPrefix) with 8%nat in Hline. unfold len. lia.
    + apply (bool_decide_unpack _). by vm_compute.
Qed.

Section lib.
Context {EX : External} {SL : SniffLib} {LL : SniffLaws SL}.

Lemma ReadBE_safe n bs : safe (ReadBE n bs).
Proof. unfold ReadBE. apply safe_bind; [apply ReadFull_safe|]. by intros [] _. Qed.

Lemma SkipN_safe n bs : 0 ≤ n → safe (SkipN n bs).
Proof.
  intros H. destruct (Z_le_gt_dec n (len bs)); [by rewrite SkipN_enough|].
  destruct (SkipN_short n bs) as (e & ->); [lia|done].
Qed.

Ltac header_safe :=
  repeat first
    [ apply ReadU8_safe | apply ReadBE_safe | apply invalid_if_safe | apply SkipN_safe; lia
    | apply need_more_safe
    | apply safe_bind; [|intros ? _]
    | match goal with |- safe (let '(_, _) := ?x in _) => destruct x end ].

Lemma RDP_robust : stream_robust RDP.
Proof. intros m cs. apply sniffed_keeps. unfold RDP_header. header_safe. Qed.

Lemma streamDNS_prefix_safe p : safe (streamDNS_prefix p).
Proof.
  unfold streamDNS_prefix. cbv zeta. repeat (apply safe_bind; [|intros ? _]);
    match goal with |- safe (if ?b then _ else _) => destruct b eqn:?; [bools|done] end; sniff_safe.
Qed.

Lemma DomainNameQuery_keeps m p :
  safe (fst (DomainNameQuery m p)) ∧ SniffContext (snd (DomainNameQuery m p)) = SniffContext m.
Proof.
  unfold DomainNameQuery. pose proof (Msg_Unpack_safe p). destruct (Msg_Unpack p); [by case_match|done..].
Qed.

Lemma StreamDomainNameQuery_robust : stream_robust StreamDomainNameQuery.
Proof.
  intros m cs. unfold StreamDomainNameQuery. pose proof (need_more_safe _ (ReadBE_safe 2 (concat cs))) as Hs.
  destruct (need_more _) as [[n bs]|e|p]; [|done..]. destruct (n <? 12); [done|].
  destruct (ReadFullFrom n bs) as [packet err]. pose proof (streamDNS_prefix_safe packet) as Hp.
  destruct (streamDNS_prefix packet); [|done..]. destruct err; [done|]. apply DomainNameQuery_keeps.
Qed.

Lemma SIPStream_robust : stream_robust SIPStream.
Proof.
  intros m cs. unfold SIPStream, sipApply, ReadSlice. repeat case_match; try done; simplify_eq.
Qed.

Lemma OpenVPNStream_robust now : stream_robust (OpenVPNStream now).
Proof.
  intros m cs. unfold OpenVPNStream. destruct (Peek 3 (concat cs)) as [head err] eqn:Hp. apply sniffed_keeps.
  unfold Peek in Hp. destruct (Z.leb_spec 3 (len (concat cs))) as [Hl|Hl]; simplify_eq.
  - assert (len (slice (concat cs) 0 3) = 3) by (rewrite len_slice; lia).
    apply safe_bind; [apply slc_safe; lia|]. intros s Hs%slc_len. apply safe_bind; [apply uint_be_safe; lia|].
    intros frameLen Hf. apply safe_bind; [apply invalid_if_safe|]. intros [] Hb%invalid_if_Ok.
    unfold ovpnPlainLen in Hb. bools. apply safe_bind; [apply idx_safe; lia|]. intros op _.
    apply safe_bind; [apply invalid_if_safe|]. intros [] _. unfold Peek.
    destruct (Z.leb_spec (2 + frameLen) (len (concat cs))); [|done].
    apply safe_bind; [apply slc_from_safe; rewrite len_slice; lia|]. intros body _.
    apply safe_bind; [apply ovpnCheck_safe|]. intros ok _. apply invalid_if_safe.
  - apply safe_bind; [|intros [] _; done]. unfold and_then. destruct (Z.leb_spec 1 (len (concat cs))); [|done].
    apply safe_bind; [apply idx_safe; lia|done].
Qed.

Lemma TLSClientHello_robust : stream_robust TLSClientHello.
Proof. intros m cs. unfold TLSClientHello. destruct (tls_ClientHello _) as [[]]; done. Qed.

Lemma HTTPHost_robust : stream_robust HTTPHost.
Proof. intros m cs. unfold HTTPHost. pose proof (ReadRequest_safe (concat cs)). destruct (http_ReadRequest _); done. Qed.

(** ** PeekStream *)

Lemma PeekStream_round_robust m cs e sniffers :
  Forall stream_robust sniffers →
  let '(o, m') := PeekStream_round m cs e sniffers in
  match o with Panicked _ => False | _ => True end ∧ SniffContext m' = SniffContext m.
Proof.
  intros Hs. revert m e. induction Hs as [|s ss Hs _ IH]; intros m e; cbn [PeekStream_round]; [done|].
  destruct (Hs m cs) as [H1 H2]. destruct (s m cs) as [[u|e'|p] m1]; cbn in *; [done| |done].
  specialize (IH m1 (E_Errors (option_list e ++ [e']))). destruct (PeekStream_round m1 _ _ ss) as [o m2].
  destruct IH as [Ho Hc]. split; [done|congruence].
Qed.

Lemma PeekStream_loop_robust first m buffers buffer e sniffers events :
  Forall stream_robust sniffers →
  safe (fst (fst (PeekStream_loop first m buffers buffer e sniffers events))) ∧
  SniffContext (snd (fst (PeekStream_loop first m buffers buffer e sniffers events))) = SniffContext m.
Proof.
  intros Hs. revert first m buffer e. induction events as [|[e'|e'|d] events IH]; intros first m buffer e; cbn [PeekStream_loop].
  - destruct first; [done|]. unfold error_result. by destruct e.
  - done.
  - destruct first; [done|]. unfold error_result. by destruct e.
  - cbv zeta. pose proof (PeekStream_round_robust m (buffers ++ [buffer ++ d]) None sniffers Hs) as Hr.
    destruct (PeekStream_round m _ None sniffers) as [[|[e'|]|p] m1]; destruct Hr as [Ho Hc]; [done| |done|done].
    destruct (errors_Is e' ErrNeedMoreData); [|done]. destruct (IH false m1 (buffer ++ d) (Some e')) as [H1 H2].
    split; [done|congruence].
Qed.
End lib.
