(* ===== verification/SrsTheorems.v ===== *)
(** Theorems about the binary rule-set format: what [Write] prints, [Read]
    reads, and the rules that are read match like the rules that were written. *)

From S2P Require Import Prelude GoBytes GoSlices GoStrings Netip Metadata RuleItems RuleAction RuleMatch.
From S2P Require Import RuleSemantics RuleRefine Concrete RuleTheorems Options RuleBuild RuleBuildTheorems RuleSetStore Srs.

Section fields.
Context {EX : External} {SL : SrsLib} {LL : SrsLaws SL}.

Definition fits {A} (l : list A) : Prop := len l < 2 ^ 64.

(** [readN_concat] where reading gives back the same list. *)
Lemma readN_list {A} (enc : A → list byte) (rd : Z → reader A) xs rest :
  (∀ x j r, x ∈ xs → rd j (enc x ++ r) = Ok (x, r)) → (∀ x, x ∈ xs → enc x ≠ []) →
  readN rd (len xs) (concat (enc <$> xs) ++ rest) = Ok (xs, rest).
Proof. intros H Hne. pose proof (readN_concat enc rd id xs rest H Hne) as Hr. by rewrite list_fmap_id in Hr. Qed.

(** ** Addresses, prefixes, sets *)

Definition addr_ok (a : Addr) : Prop := addr_wf a ∧ Addr_IsValid a = true ∧ Addr_hasZone a = false.
Definition prefix_ok (p : Prefix) : Prop := addr_ok (p_addr p) ∧ 0 ≤ p_bits p ≤ Addr_BitLen (p_addr p).
Definition range_ok (r : IPRange) : Prop := addr_ok (r_from r) ∧ addr_ok (r_to r).

Lemma AsSlice_len a : Addr_IsValid a = true → len (Addr_AsSlice a) = 4 ∨ len (Addr_AsSlice a) = 16.
Proof. destruct a; [done|..]; intros _; [left|right]; unfold Addr_AsSlice, len; by rewrite length_put_be. Qed.

Lemma readAddr_write a r : addr_ok a → readAddr (writeAddr a ++ r) = Ok (a, r).
Proof.
  intros (Hwf & Hv & Hz). unfold readAddr, writeAddr. rewrite <- app_assoc.
  pose proof (AsSlice_len a Hv) as Hl. rewrite WriteUvarint_read by lia. cbn [mbind result_bind].
  replace (negb (len (Addr_AsSlice a) =? 4) && negb (len (Addr_AsSlice a) =? 16)) with false by (destruct Hl as [-> | ->]; done).
  rewrite ReadFull_app. cbn [mbind result_bind]. by rewrite AddrFromIP_slice.
Qed.

Lemma readPrefix_write p r : prefix_ok p → readPrefix (writePrefix p ++ r) = Ok (p, r).
Proof.
  intros (Ha & Hb). unfold readPrefix, writePrefix. rewrite <- app_assoc, readAddr_write by done.
  cbn [mbind result_bind app ReadByte]. destruct Ha as (_ & Hv & Hz), p as [a b]. cbn in *.
  assert (b < 256) by (destruct a; cbn in *; lia). rewrite bz_zb_small by lia.
  unfold PrefixFrom. rewrite Hv. replace (_ && _ && _) with true by lia. do 3 f_equal.
  destruct a; cbn in *; [done..|]. apply negb_false_iff, String.eqb_eq in Hz. by subst.
Qed.

Lemma writeAddr_nonempty a : writeAddr a ≠ [].
Proof. unfold writeAddr. intros [H _]%app_nil. by apply WriteUvarint_nonempty in H. Qed.

Lemma readIPSet_write s r : fits s → Forall range_ok s → readIPSet (writeIPSet s ++ r) = Ok (s, r).
Proof.
  intros Hf Hs. unfold readIPSet, writeIPSet. cbn [app ReadByte mbind result_bind]. cbn [negb Z.eqb].
  replace (bz x01 =? 1) with true by done. cbn [negb]. rewrite <- app_assoc.
  pose proof (len_nonneg s). rewrite (ReadBE_put 8) by (unfold fits in Hf; lia). cbn [mbind result_bind].
  apply readN_list.
  - intros x _ k Hx. rewrite Forall_forall in Hs. destruct (Hs x Hx) as [Hf1 Ht]. unfold readIPRange, writeIPRange, readIPSetAddr.
    rewrite <- app_assoc, readAddr_write by done. cbn [mbind result_bind]. rewrite readAddr_write by done. by destruct x.
  - intros x _ [H' _]%app_nil. by apply writeAddr_nonempty in H'.
Qed.

Lemma readStringItem_write l r : fits l → Forall (λ s, fits (str_bytes s)) l →
  readRuleItemString (varbin_WriteUvarint (len l) ++ concat (writeString <$> l) ++ r) = Ok (l, r).
Proof.
  intros Hf Hl. unfold readRuleItemString. pose proof (len_nonneg l).
  rewrite WriteUvarint_read by (unfold fits in Hf; lia). cbn [mbind result_bind].
  apply readN_list.
  - intros x _ k Hx. rewrite Forall_forall in Hl. unfold writeString. rewrite <- app_assoc, ReadBytes_read by by apply Hl.
    cbn [mbind result_bind]. by rewrite bytes_str_bytes.
  - intros x _ [H' _]%app_nil. by apply WriteUvarint_nonempty in H'.
Qed.

Lemma readPrefixes_write l r : fits l → Forall prefix_ok l → readPrefixes (writePrefixes l ++ r) = Ok (l, r).
Proof.
  intros Hf Hl. unfold readPrefixes, writePrefixes. pose proof (len_nonneg l).
  rewrite <- app_assoc, WriteUvarint_read by (unfold fits in Hf; lia). cbn [mbind result_bind].
  apply readN_list.
  - intros x _ k Hx. rewrite Forall_forall in Hl. by apply readPrefix_write, Hl.
  - intros x _ [H' _]%app_nil. by apply writeAddr_nonempty in H'.
Qed.

Definition entry_ok (e : Z * list Prefix) : Prop := 0 ≤ e.1 < 256 ∧ fits e.2 ∧ Forall prefix_ok e.2.

Lemma readEntries_write l r : fits l → Forall entry_ok l →
  readN (λ _, readEntry) (len l) (concat (writeEntry <$> l) ++ r) = Ok (l, r).
Proof.
  intros Hf Hl. apply readN_list.
  - intros [k v] _ k' Hx. rewrite Forall_forall in Hl. destruct (Hl _ Hx) as (Hk & Hv & Hp). cbn in *.
    unfold readEntry, writeEntry. cbn [app fst snd]. rewrite ReadU8_zb by done. cbn [mbind result_bind].
    by rewrite readPrefixes_write.
  - intros x _ H. done.
Qed.

Lemma Put_all acc l : NoDup (acc.*1 ++ l.*1) → foldl (λ m '(k, v), TypedMap_Put k v m) acc l = acc ++ l.
Proof.
  revert acc. induction l as [|[k v] l IH]; intros acc Hnd; cbn; [by rewrite app_nil_r|].
  rewrite TypedMap_Put_new.
  - rewrite IH; [by rewrite <- app_assoc|]. by rewrite fmap_app, <- app_assoc.
  - cbn in Hnd. apply NoDup_app in Hnd as (_ & H & _). intros Hin. apply (H k Hin). left.
Qed.

(** ** Default rules *)

(** [f] is what reading the item [r] writes does to the rule. *)
Definition reads (r : result (list byte)) (f : HeadlessOptions → HeadlessOptions) : Prop :=
  ∀ w, r = Ok w → (w = [] ∧ ∀ o, f o = o) ∨
    ∃ t payload, w = zb t :: payload ∧ 0 ≤ t < 255 ∧
      ∀ last o k, readItem false t last o (payload ++ k) = Ok (f o, k).

Lemma ReadBool_write b r : ReadBool (writeBool b ++ r) = Ok (b, r).
Proof.
  unfold ReadBool, writeBool. change 1 with (len [if b then x01 else x00]). rewrite ReadFull_app. by destruct b.
Qed.

Lemma reads_loop items fs ws : Forall2 reads items fs → forM id items = Ok ws →
  ∀ fuel last o invert k, (length (concat ws) < fuel)%nat →
  readDefaultRule_loop fuel false last o (concat ws ++ [zb ruleItemFinal] ++ writeBool invert ++ k) =
  Ok (set_h_Invert invert (foldl (λ o f, f o) o fs), k).
Proof.
  intros Hr. revert ws. induction Hr as [|r f items fs Hrf _ IH]; intros ws Hws fuel last o invert k Hfuel.
  - injection Hws as <-. destruct fuel as [|fuel]; [lia|]. cbn [concat app readDefaultRule_loop].
    rewrite ReadU8_zb by (unfold ruleItemFinal; lia). cbn [mbind result_bind]. by rewrite Z.eqb_refl, ReadBool_write.
  - cbn [forM] in Hws. invert_ok. destruct (Hrf _ ltac:(done)) as [[-> Hid]|(t & payload & -> & Ht & Hread)].
    + cbn [concat app foldl] in *. rewrite Hid. by apply IH.
    + destruct fuel as [|fuel]; [lia|]. cbn [concat] in *. rewrite <- app_assoc. cbn [app readDefaultRule_loop].
      rewrite ReadU8_zb by lia. cbn [mbind result_bind].
      rewrite (proj2 (Z.eqb_neq t ruleItemFinal)) by (unfold ruleItemFinal; lia).
      rewrite Hread. cbn [mbind result_bind foldl]. apply IH; [done|]. cbn [app length] in Hfuel. rewrite length_app in Hfuel. lia.
Qed.

(** [rule.F = v] when the item is there. *)
Definition upd {A} (set : A → HeadlessOptions → HeadlessOptions) (get : HeadlessOptions → A) (c : bool) (v : A)
    (o : HeadlessOptions) : HeadlessOptions := set (if c then v else get o) o.

Lemma reads_item {A} (set : A → HeadlessOptions → HeadlessOptions) get c (r : result (list byte)) v :
  (∀ o, set (get o) o = o) →
  (c = true → ∀ w, r = Ok w → ∃ t payload, w = zb t :: payload ∧ 0 ≤ t < 255 ∧
      ∀ last o k, readItem false t last o (payload ++ k) = Ok (set v o, k)) →
  reads (item c r) (upd set get c v).
Proof.
  intros Hid Hr w. unfold item, upd. destruct c; [intros Hw; right; by apply Hr|]. intros [= <-]. left. auto.
Qed.

Ltac same_record := let o := fresh in intros o; destruct o; reflexivity.

Lemma reads_strings t l set get :
  0 ≤ t < 255 → (∀ o, set (get o) o = o) → fits l → Forall (λ s, fits (str_bytes s)) l →
  (∀ last o bs, readItem false t last o bs = readStrings set o bs) →
  reads (strings t l) (upd set get (nonempty l) l).
Proof.
  intros Ht Hid Hf Hl Hread. apply reads_item; [done|]. intros _ w [= <-].
  eexists t, _. split; [reflexivity|]. split; [done|]. intros last o k. rewrite Hread. unfold readStrings.
  rewrite <- app_assoc, readStringItem_write by done. done.
Qed.

Lemma reads_uint16 t l set get c :
  0 ≤ t < 255 → (∀ o, set (get o) o = o) → fits l → Forall (λ z, 0 ≤ z < 65536) l →
  (∀ last o bs, readItem false t last o bs = ('(v, bs) ← varbin_ReadUint16s bs; Ok (set v o, bs))) →
  reads (item c (Ok (writeRuleItemUint16 t l))) (upd set get c l).
Proof.
  intros Ht Hid Hf Hl Hread. apply reads_item; [done|]. intros _ w [= <-].
  eexists t, _. split; [reflexivity|]. split; [done|]. intros last o k. rewrite Hread.
  rewrite <- app_assoc, ReadUint16s_read by done. done.
Qed.

(** The set [writeRuleItemCIDR] builds. *)
Definition cidr_set (l : list string) : result IPSet := entries ← parseCIDRs 0 l; IPSetBuilder_IPSet entries.

Lemma reads_cidr t l set get msg :
  0 ≤ t < 255 → (∀ o, set (get o) o = o) → (∀ s, cidr_set l = Ok s → fits s ∧ Forall range_ok s) →
  (∀ last o bs, readItem false t last o bs = ('(v, bs) ← readIPSet bs; Ok (set (Some v) o, bs))) →
  reads (item (nonempty l) (wrap_cause msg (writeRuleItemCIDR t l)))
    (upd set get (nonempty l) (match cidr_set l with Ok s => Some s | _ => None end)).
Proof.
  intros Ht Hid Hs Hread. apply reads_item; [done|]. intros _ w. unfold writeRuleItemCIDR, cidr_set in *.
  intros Hw. invert_ok. destruct (parseCIDRs 0 l) as [entries|e|p]; [|done..]. simplify_eq. cbn [mbind result_bind] in *.
  match goal with H : IPSetBuilder_IPSet _ = Ok _ |- _ => rewrite H in * end.
  destruct (Hs _ eq_refl) as [Hf Hr]. eexists t, _. split; [reflexivity|]. split; [done|]. intros last o k.
  rewrite Hread, readIPSet_write by done. done.
Qed.

Lemma since_Ok v n what w w' : since v n what w = Ok w' → w' = w.
Proof. unfold since. case_match; congruence. Qed.

Definition string_lists (o : HeadlessOptions) : list (list string) :=
  [h_Network o; h_DomainKeyword o; h_DomainRegex o; h_SourcePortRange o; h_PortRange o; h_ProcessName o; h_ProcessPath o;
   h_ProcessPathRegex o; h_PackageName o; h_PackageNameRegex o; h_WIFISSID o; h_WIFIBSSID o].

(** A rule whose values are in the ranges of their Go types. *)
Record encodable (o : HeadlessOptions) : Prop := {
  en_strings : Forall (λ l, fits l ∧ Forall (λ s, fits (str_bytes s)) l) (string_lists o);
  en_u16 : Forall (λ l, fits l ∧ Forall (λ z, 0 ≤ z < 65536) l) [h_QueryType o; h_SourcePort o; h_Port o];
  en_types : fits (h_NetworkType o) ∧ Forall (λ z, 0 ≤ z < 256) (h_NetworkType o);
  en_entries : fits (h_NetworkInterfaceAddress o) ∧ Forall entry_ok (h_NetworkInterfaceAddress o) ∧
    NoDup (h_NetworkInterfaceAddress o).*1;
  en_prefixes : fits (h_DefaultInterfaceAddress o) ∧ Forall prefix_ok (h_DefaultInterfaceAddress o);
  en_sets : ∀ l s, l ∈ [h_SourceIPCIDR o; h_IPCIDR o] → cidr_set l = Ok s → fits s ∧ Forall range_ok s
}.

Definition the_set (l : list string) : option IPSet := match cidr_set l with Ok s => Some s | _ => None end.

Definition domain_set (o : HeadlessOptions) : bool := nonempty (h_Domain o) || nonempty (h_DomainSuffix o).

(** What reading each item of [ruleItems] does. *)
Definition effects (o : HeadlessOptions) (version : Z) : list (HeadlessOptions → HeadlessOptions) :=
  let strs set get := upd set get (nonempty (get o)) (get o) in
  [ upd set_h_QueryType h_QueryType (nonempty (h_QueryType o)) (h_QueryType o);
    strs set_h_Network h_Network;
    upd set_h_DomainMatcher h_DomainMatcher (domain_set o)
      (Some (NewMatcher (h_Domain o) (h_DomainSuffix o) (version =? 1)));
    strs set_h_DomainKeyword h_DomainKeyword;
    strs set_h_DomainRegex h_DomainRegex;
    upd set_h_SourceIPSet h_SourceIPSet (nonempty (h_SourceIPCIDR o)) (the_set (h_SourceIPCIDR o));
    upd set_h_IPSet h_IPSet (nonempty (h_IPCIDR o)) (the_set (h_IPCIDR o));
    upd set_h_SourcePort h_SourcePort (nonempty (h_SourcePort o)) (h_SourcePort o);
    strs set_h_SourcePortRange h_SourcePortRange;
    upd set_h_Port h_Port (nonempty (h_Port o)) (h_Port o);
    strs set_h_PortRange h_PortRange;
    strs set_h_ProcessName h_ProcessName;
    strs set_h_ProcessPath h_ProcessPath;
    strs set_h_ProcessPathRegex h_ProcessPathRegex;
    strs set_h_PackageName h_PackageName;
    strs set_h_PackageNameRegex h_PackageNameRegex;
    upd set_h_NetworkType h_NetworkType (nonempty (h_NetworkType o)) (h_NetworkType o);
    upd set_h_NetworkIsExpensive h_NetworkIsExpensive (h_NetworkIsExpensive o) true;
    upd set_h_NetworkIsConstrained h_NetworkIsConstrained (h_NetworkIsConstrained o) true;
    upd set_h_NetworkInterfaceAddress h_NetworkInterfaceAddress (nonempty (h_NetworkInterfaceAddress o)) (h_NetworkInterfaceAddress o);
    upd set_h_DefaultInterfaceAddress h_DefaultInterfaceAddress (nonempty (h_DefaultInterfaceAddress o)) (h_DefaultInterfaceAddress o);
    strs set_h_WIFISSID h_WIFISSID;
    strs set_h_WIFIBSSID h_WIFIBSSID;
    upd set_h_AdGuardDomainMatcher h_AdGuardDomainMatcher (nonempty (h_AdGuardDomain o))
      (Some (NewAdGuardMatcher (h_AdGuardDomain o))) ].

Ltac payload t := eexists t, _; split; [reflexivity|]; split; [by vm_compute|]; intros last o' k.

Lemma ruleItems_read o version : encodable o → Forall2 reads (ruleItems o version) (effects o version).
Proof.
  intros [Hs H16 H8 He Hp Hset]. unfold string_lists in Hs.
  repeat match goal with H : Forall _ (_ :: _) |- _ => apply Forall_cons in H as [[? ?] H] end.
  destruct H8 as [H8f H8], He as (Hef & He & Hnd), Hp as [Hpf Hp]. unfold ruleItems, effects. cbv zeta.
  repeat (apply Forall2_cons; split); [..|constructor].
  all: try (apply reads_strings; [by vm_compute|same_record|done|done|reflexivity]).
  all: try (apply reads_uint16; [by vm_compute|same_record|done|done|reflexivity]).
  all: try (apply reads_cidr; [by vm_compute|same_record| |reflexivity]; intros ? ?; eapply Hset; [|done]; set_solver).
  - apply reads_item; [same_record|]. intros _ w [= <-]. payload ruleItemDomain.
    unfold readItem. cbn [Z.eqb Pos.eqb ruleItemDomain ruleItemQueryType ruleItemNetwork]. by rewrite ReadMatcher_read.
  - apply reads_item; [same_record|]. intros _ w ->%since_Ok. payload ruleItemPackageNameRegex.
    change (readItem false ruleItemPackageNameRegex last o') with (readStrings set_h_PackageNameRegex o'). unfold readStrings.
    by rewrite <- app_assoc, readStringItem_write.
  - apply reads_item; [same_record|]. intros _ w ->%since_Ok. payload ruleItemNetworkType.
    change (readItem false ruleItemNetworkType last o') with (λ bs, '(v, bs) ← varbin_ReadUint8s bs; Ok (set_h_NetworkType v o', bs)).
    by rewrite <- app_assoc, ReadUint8s_read.
  - apply reads_item; [same_record|]. intros _ w ->%since_Ok. payload ruleItemNetworkIsExpensive. done.
  - apply reads_item; [same_record|]. intros _ w ->%since_Ok. payload ruleItemNetworkIsConstrained. done.
  - apply reads_item; [same_record|]. intros _ w ->%since_Ok. payload ruleItemNetworkInterfaceAddress.
    change (readItem false ruleItemNetworkInterfaceAddress last o') with (λ bs, '(size, bs) ← ReadUvarint bs;
      '(entries, bs) ← readN (λ _, readEntry) size bs;
      Ok (set_h_NetworkInterfaceAddress (foldl (λ m '(k, v), TypedMap_Put k v m) [] entries) o', bs)). cbv beta.
    pose proof (len_nonneg (h_NetworkInterfaceAddress o)).
    rewrite <- app_assoc, WriteUvarint_read by (unfold fits in Hef; lia). cbn [mbind result_bind].
    rewrite readEntries_write by done. cbn [mbind result_bind]. by rewrite Put_all.
  - apply reads_item; [same_record|]. intros _ w ->%since_Ok. payload ruleItemDefaultInterfaceAddress.
    change (readItem false ruleItemDefaultInterfaceAddress last o') with
      (λ bs, '(v, bs) ← readPrefixes bs; Ok (set_h_DefaultInterfaceAddress v o', bs)). cbv beta. by rewrite readPrefixes_write.
  - apply reads_item; [same_record|]. intros _ w ->%since_Ok. payload ruleItemAdGuardDomain.
    change (readItem false ruleItemAdGuardDomain last o') with
      (λ bs, '(m, bs) ← domain_ReadAdGuardMatcher bs; Ok (set_h_AdGuardDomainMatcher (Some m) o', bs)). cbv beta.
    by rewrite ReadAdGuardMatcher_read.
Qed.

(** The rule [Read] makes of a written rule: matchers and sets instead of the
    lists they were built from. *)
Definition loaded (version : Z) (o : HeadlessOptions) : HeadlessOptions :=
  mkHeadlessOptions _ (h_QueryType o) (h_Network o) [] [] (h_DomainKeyword o) (h_DomainRegex o) [] []
    (h_SourcePort o) (h_SourcePortRange o) (h_Port o) (h_PortRange o) (h_ProcessName o) (h_ProcessPath o)
    (h_ProcessPathRegex o) (h_PackageName o) (h_PackageNameRegex o) (h_NetworkType o)
    (h_NetworkIsExpensive o) (h_NetworkIsConstrained o) (h_WIFISSID o) (h_WIFIBSSID o)
    (h_NetworkInterfaceAddress o) (h_DefaultInterfaceAddress o) (h_Invert o)
    (if domain_set o then Some (NewMatcher (h_Domain o) (h_DomainSuffix o) (version =? 1)) else None)
    (if nonempty (h_SourceIPCIDR o) then the_set (h_SourceIPCIDR o) else None)
    (if nonempty (h_IPCIDR o) then the_set (h_IPCIDR o) else None) []
    (if nonempty (h_AdGuardDomain o) then Some (NewAdGuardMatcher (h_AdGuardDomain o)) else None).

Lemma if_nonempty {A} (l : list A) : (if nonempty l then l else []) = l.
Proof. by destruct l. Qed.

Lemma effects_loaded o version :
  set_h_Invert (h_Invert o) (foldl (λ o f, f o) HeadlessOptions_zero (effects o version)) = loaded version o.
Proof.
  unfold effects, loaded. cbv zeta. cbn -[the_set nonempty domain_set Z.eqb].
  unfold upd. cbn -[the_set nonempty domain_set Z.eqb]. rewrite !if_nonempty. f_equal; by destruct (h_NetworkIsExpensive o), (h_NetworkIsConstrained o).
Qed.

Lemma readDefaultRule_write o version bs k :
  encodable o → writeDefaultRule o version = Ok bs →
  ∃ body, bs = x00 :: body ∧ readDefaultRule false (body ++ k) = Ok (loaded version o, k).
Proof.
  intros He Hw. unfold writeDefaultRule in Hw. invert_ok. eexists. split; [reflexivity|].
  unfold readDefaultRule. rewrite <- !app_assoc.
  rewrite (reads_loop _ _ _ (ruleItems_read o version He)); [by rewrite effects_loaded|done|].
  rewrite !length_app. lia.
Qed.

(** ** Rules *)

Fixpoint encodable_rule (r : HeadlessRuleOptions) : Prop :=
  match r with
  | mkHeadlessRuleOptions type_ default_ logical =>
      if String.eqb type_ "default" then encodable default_
      else fits (lo_Rules logical) ∧ foldr (λ r p, encodable_rule r ∧ p) True (lo_Rules logical)
  end.

(** How deep the logical rules of a rule nest. *)
Fixpoint depth (r : HeadlessRuleOptions) : nat :=
  match r with
  | mkHeadlessRuleOptions type_ _ logical =>
      if String.eqb type_ "default" then 0%nat else foldr (λ r n, Nat.max (S (depth r)) n) 0%nat (lo_Rules logical)
  end.

Fixpoint loaded_rule (version : Z) (r : HeadlessRuleOptions) : HeadlessRuleOptions :=
  match r with
  | mkHeadlessRuleOptions type_ default_ logical =>
      if String.eqb type_ "default"
      then mkHeadlessRuleOptions "default" (loaded version default_) (mkLogicalOptions "" [] false)
      else mkHeadlessRuleOptions "logical" HeadlessOptions_zero
        (mkLogicalOptions (lo_Mode logical) (map (loaded_rule version) (lo_Rules logical)) (lo_Invert logical))
  end.

Definition written (version : Z) (r : HeadlessRuleOptions) : list byte :=
  match writeRule version r with Ok bs => bs | _ => [] end.

Lemma forM_written version rules ws : forM (writeRule version) rules = Ok ws →
  ws = written version <$> rules ∧ Forall (λ r, writeRule version r = Ok (written version r)) rules.
Proof.
  intros H%forM_Forall2. induction H as [|r w rules ws Hr _ [-> IH]]; [done|].
  assert (Hw : writeRule version r = Ok (written version r)) by (unfold written; by rewrite Hr).
  split; [|by constructor]. cbn. f_equal. congruence.
Qed.

Lemma written_nonempty version r : writeRule version r = Ok (written version r) → written version r ≠ [].
Proof.
  destruct r as [t d l]. intros H Hn. rewrite Hn in H. cbn in H.
  destruct (String.eqb t "default"); [unfold writeDefaultRule in H; by invert_ok|].
  destruct (String.eqb t "logical"); [|done]. unfold writeLogicalRule in H. by invert_ok.
Qed.

Lemma fold_and {A} (P : A → Prop) l : foldr (λ r p, P r ∧ p) True l ↔ Forall P l.
Proof. induction l; cbn; [split; auto|]. rewrite Forall_cons. tauto. Qed.

Lemma fold_max {A} (f : A → nat) l n : (foldr (λ r m, Nat.max (S (f r)) m) 0 l < S n)%nat → Forall (λ r, (f r < n)%nat) l.
Proof. induction l; cbn; [constructor|]. intros H. constructor; [lia|]. apply IHl. lia. Qed.

(** The rules of a list are read back if each of them is. *)
Lemma readRules_write version levels what rules k :
  Forall (λ r, writeRule version r = Ok (written version r)) rules →
  Forall (λ r, ∀ k, readRule levels false (written version r ++ k) = Ok (loaded_rule version r, k)) rules →
  readN (λ i bs, read_cause what i (readRule levels false bs)) (len rules) (concat (written version <$> rules) ++ k) =
  Ok (loaded_rule version <$> rules, k).
Proof.
  rewrite !Forall_forall. intros Hw Hr. apply readN_concat.
  - intros r j k' Hin. by rewrite Hr.
  - intros r Hin. by apply written_nonempty, Hw.
Qed.

Lemma readRule_write version r : ∀ levels bs k, (depth r < levels)%nat → encodable_rule r →
  writeRule version r = Ok bs → readRule levels false (bs ++ k) = Ok (loaded_rule version r, k).
Proof.
  induction r as [t d l IH] using HeadlessOptions_nested_ind. intros levels bs k Hd He Hw.
  destruct levels as [|levels]; [lia|]. cbn [depth encodable_rule writeRule loaded_rule] in *.
  destruct (String.eqb t "default").
  - destruct (readDefaultRule_write d version bs k He Hw) as (body & -> & Hb). cbn [app readRule].
    change x00 with (zb 0). rewrite ReadU8_zb by lia. cbn [mbind result_bind Z.eqb]. by rewrite Hb.
  - destruct (String.eqb t "logical"); [|done]. destruct He as [Hf He%fold_and]. apply fold_max in Hd.
    unfold writeLogicalRule in Hw. apply bind_Ok in Hw as (mode & Hmode & Hw). apply bind_Ok in Hw as (ws & Hws & [= <-]).
    apply forM_written in Hws as [-> Hws]. cbn [app readRule]. change x01 with (zb 1) at 1. rewrite ReadU8_zb by lia.
    cbn [mbind result_bind Z.eqb]. unfold readLogicalRule. cbn [mbind result_bind ReadByte]. pose proof (len_nonneg (lo_Rules l)).
    assert ((if bz mode =? 0 then Ok "and"%string else if bz mode =? 1 then Ok "or"%string
      else Err (ErrNew (String.append "unknown logical mode: " (FormatUint (bz mode))))) = Ok (lo_Mode l)) as ->.
    { destruct (String.eqb_spec (lo_Mode l) "and") as [->|]; [by invert_ok|].
      destruct (String.eqb_spec (lo_Mode l) "or") as [->|]; [by invert_ok|done]. }
    cbn [mbind result_bind]. rewrite <- !app_assoc, WriteUvarint_read by (unfold fits in Hf; lia). cbn [mbind result_bind].
    rewrite readRules_write; [|done|].
    + cbn [mbind result_bind]. by rewrite ReadBool_write.
    + rewrite Forall_forall in *. intros r Hin k'. by apply IH; auto.
Qed.

(** The file: magic, version, compressed rules. *)
Lemma Read_written rules version file :
  0 ≤ version ≤ RuleSetVersionCurrent → fits rules → Forall encodable_rule rules →
  Forall (λ r, (depth r ≤ maxLogicalRuleDepth)%nat) rules → Write rules version = Ok file →
  Read false file = Ok (version, loaded_rule version <$> rules).
Proof.
  intros Hversion Hfits Hok Hdepth Hwrite.
  unfold Write in Hwrite. invert_ok. match goal with H : forM _ _ = Ok _ |- _ => apply forM_written in H as [-> Hw] end.
  unfold RuleSetVersionCurrent in Hversion.
  unfold Read. change 3 with (len MagicBytes). rewrite ReadFull_app. cbn [mbind result_bind].
  rewrite bool_decide_eq_true_2 by done. cbn [negb app]. rewrite ReadU8_zb by lia. cbn [mbind result_bind].
  unfold RuleSetVersionCurrent. rewrite (proj2 (Z.ltb_ge _ _)) by lia. rewrite zlib_roundtrip. cbn [mbind result_bind].
  pose proof (len_nonneg rules). rewrite WriteUvarint_read by (unfold fits in Hfits; lia). cbn [mbind result_bind].
  pose proof (readRules_write version (S maxLogicalRuleDepth) "read rule[" rules [] Hw) as Hr. rewrite app_nil_r in Hr.
  rewrite Hr; [done|]. rewrite Forall_forall in *. intros r Hin k.
  apply readRule_write; [specialize (Hdepth r Hin); cbn in *; lia|by apply Hok|by apply Hw].
Qed.
End fields.

(** C25: a binary rule-set reads back: [Read] of what [Write] printed gives the
    version and every rule, at any nesting up to the limit, with its lists of
    domains and addresses replaced by the matchers and sets built from them. *)
Theorem srs_reads_back (EX : External) (SL : SrsLib) (LL : SrsLaws SL) (rules : list HeadlessRuleOptions)
    (version : Z) (file : list byte)
    (Hversion : 0 ≤ version ≤ RuleSetVersionCurrent) (Hfits : fits rules) (Hok : Forall encodable_rule rules)
    (Hdepth : Forall (λ r, (depth r ≤ maxLogicalRuleDepth)%nat) rules)
    (Hwrite : Write rules version = Ok file) :
  Read false file = Ok (version, loaded_rule version <$> rules).
Proof. by apply Read_written. Qed.

(** ** A concrete library *)

(** A prefix code for any countable type: the bits of its number, then a zero. *)
Fixpoint code (p : positive) : list byte :=
  match p with xH => [x00] | xO p => x01 :: code p | xI p => x02 :: code p end.

Fixpoint uncode : reader positive := λ bs,
  match bs with
  | x00 :: bs => Ok (xH, bs)
  | x01 :: bs => '(p, bs) ← uncode bs; Ok (xO p, bs)
  | x02 :: bs => '(p, bs) ← uncode bs; Ok (xI p, bs)
  | _ => Err ErrInvalid
  end.

Definition read_coded {A} `{Countable A} : reader A := λ bs,
  '(p, bs) ← uncode bs; match decode p with Some a => Ok (a, bs) | None => Err ErrInvalid end.

Lemma read_coded_write {A} `{Countable A} (a : A) r : read_coded (code (encode a) ++ r) = Ok (a, r).
Proof.
  unfold read_coded. assert (∀ p, uncode (code p ++ r) = Ok (p, r)) as ->.
  { induction p as [p IH|p IH|]; cbn; [by rewrite IH..|done]. }
  cbn [mbind result_bind]. by rewrite decode_encode.
Qed.

(** No compression, and [encoding/binary]'s varints. *)
Definition demo_srs : @SrsLib demo :=
  @Build_SrsLib demo
    (* zlib *) (λ bs, bs) Ok
    (* varbin *) PutUvarint
    (λ bs, '(n, bs) ← ReadUvarint bs; ReadFull n bs)
    (λ bs, '(n, bs) ← ReadUvarint bs; readN (λ _, ReadU8) n bs)
    (λ bs, '(n, bs) ← ReadUvarint bs; readN (λ _, ReadBE 2) n bs)
    (* domain.Matcher *) (λ m : list string * list string, code (encode m))
    (read_coded (A := list string * list string)) (λ m : list string * list string, m)
    (* domain.AdGuardMatcher *) (λ m : list string, code (encode m)) (read_coded (A := list string)) (λ m : list string, m)
    (* IPSet.Prefixes *) (λ s, (λ r, mkPrefix (r_from r) (Addr_BitLen (r_from r))) <$> s)
    (* TypedMap.Put *) (λ k v l, if bool_decide (k ∈ l.*1)
      then (λ e : Z * list Prefix, if e.1 =? k then (k, v) else e) <$> l else l ++ [(k, v)]).

Lemma PutUvarint_nonempty n : PutUvarint n ≠ [].
Proof. unfold PutUvarint. cbn -[Z.ltb]. by destruct (n <? 128). Qed.

Lemma concat_singletons {A B} (f : A → B) l : concat ((λ x, [f x]) <$> l) = f <$> l.
Proof. induction l; cbn; congruence. Qed.

Lemma demo_srs_laws : SrsLaws demo_srs.
Proof.
  split; cbn -[ReadUvarint ReadFull readN PutUvarint read_coded code encode ReadU8 ReadBE AddrFromSlice]; intros.
  - done.
  - by apply ReadUvarint_PutUvarint.
  - apply PutUvarint_nonempty.
  - pose proof (len_nonneg l). rewrite ReadUvarint_PutUvarint by lia. apply ReadFull_app.
  - pose proof (len_nonneg l). rewrite ReadUvarint_PutUvarint by lia. rewrite <- concat_singletons.
    apply readN_list; [|done]. intros x _ k Hx. apply ReadU8_zb. rewrite Forall_forall in *. auto.
  - pose proof (len_nonneg l). rewrite ReadUvarint_PutUvarint by lia.
    apply readN_list; [|done].
    intros x _ k Hx. apply (ReadBE_put 2); [lia|]. rewrite Forall_forall in *. auto.
  - apply read_coded_write.
  - apply read_coded_write.
  - by rewrite bool_decide_eq_false_2.
  - by apply AddrFromSlice_AsSlice.
Qed.

(** [example.org] on port 443 and the network 10.0.0.0/8, one of the two. *)
Definition demo_domain_rule : @HeadlessOptions demo :=
  set_h_Port [443] (set_h_Network ["tcp"]%string (set_h_Domain ["example.org"]%string HeadlessOptions_zero)).
Definition demo_cidr_rule : @HeadlessOptions demo := set_h_IPCIDR ["10.0.0.0/8"]%string HeadlessOptions_zero.
Definition demo_rules : list (@HeadlessRuleOptions demo) :=
  let leaf o := mkHeadlessRuleOptions "default" o (mkLogicalOptions "" [] false) in
  [mkHeadlessRuleOptions "logical" HeadlessOptions_zero
    (mkLogicalOptions "or" [leaf demo_domain_rule; leaf demo_cidr_rule] true)].

Definition demo_set : IPSet := [mkIPRange (Addr4 0x0A000000) (Addr4 0x0AFFFFFF)].

Lemma demo_sets o l s : o = demo_domain_rule ∨ o = demo_cidr_rule →
  l ∈ [h_SourceIPCIDR o; h_IPCIDR o] → @cidr_set demo l = Ok s → s = [] ∨ s = demo_set.
Proof.
  intros Ho Hl. assert (l = [] ∨ l = ["10.0.0.0/8"]%string) as [-> | ->].
  { rewrite !elem_of_cons, elem_of_nil in Hl. destruct Ho as [-> | ->], Hl as [-> | [-> | []]]; cbn; auto. }
  - replace (@cidr_set demo []) with (Ok (A := IPSet) []) by reflexivity. intros [= <-]. by left.
  - replace (@cidr_set demo ["10.0.0.0/8"]%string) with (Ok demo_set) by reflexivity. intros [= <-]. by right.
Qed.

Lemma demo_encodable o : o = demo_domain_rule ∨ o = demo_cidr_rule → @encodable demo o.
Proof.
  intros Ho. split; [destruct Ho as [-> | ->]; by repeat constructor..|].
  intros l s Hl Hs. destruct (demo_sets o l s Ho Hl Hs) as [-> | ->]; by repeat constructor.
Qed.

Lemma demo_rules_encodable : Forall encodable_rule demo_rules.
Proof.
  constructor; [|constructor]. split; [done|].
  split; [apply demo_encodable; by left|]. split; [apply demo_encodable; by right|exact I].
Qed.

Lemma srs_reads_back_witness :
  ∃ file, @Write demo demo_srs demo_rules 5 = Ok file ∧
    @Read demo demo_srs false file = Ok (5, loaded_rule 5 <$> demo_rules).
Proof.
  destruct (@Write demo demo_srs demo_rules 5) as [file|e|p] eqn:Hw.
  - exists file. split; [done|].
    apply (srs_reads_back demo demo_srs demo_srs_laws demo_rules 5 file); [by vm_compute..|apply demo_rules_encodable| |exact Hw].
    repeat constructor.
  - exfalso. assert (H : is_ok (@Write demo demo_srs demo_rules 5) = true) by by vm_compute. by rewrite Hw in H.
  - exfalso. assert (H : is_ok (@Write demo demo_srs demo_rules 5) = true) by by vm_compute. by rewrite Hw in H.
Defined.
