(* ===== verification/SrsMatch.v ===== *)
(** Rules read from a binary rule-set match like the rules they were compiled
    from: [Write], [Read] and [NewHeadlessRule] composed. *)

From S2P Require Import Prelude GoBytes GoSlices GoStrings Netip Metadata RuleItems RuleAction RuleMatch.
From S2P Require Import RuleSemantics RuleRefine Concrete RuleTheorems Options RuleBuild RuleBuildTheorems RuleSetStore.
From S2P Require Import Srs SrsTheorems.

Section same.
Context {EX : External} {SL : SrsLib} (rt : Runtime).

(** ** Items that differ in their description only *)

Definition same_item (i j : RuleItem) : Prop := ∀ m, RuleItem_Match rt i m = RuleItem_Match rt j m.

#[export] Instance same_item_equivalence : Equivalence same_item.
Proof.
  split; [done|by intros i j H m|]. intros i j k H1 H2 m. by rewrite (H1 m), (H2 m).
Qed.

(** The same items, in the same groups and the same order. *)
Definition same_made (l l' : list (slot * RuleItem)) : Prop :=
  Forall2 (λ x y, x.1 = y.1 ∧ same_item x.2 y.2) l l'.

Lemma same_made_refl l : same_made l l.
Proof. induction l; constructor; [split|]; done. Qed.

(** [steps'] makes what [steps] makes. *)
Definition similar (steps steps' : list step) : Prop :=
  ∀ l, made steps = Ok l → ∃ l', made steps' = Ok l' ∧ same_made l l'.

Lemma similar_refl steps : similar steps steps.
Proof. intros l H. eauto using same_made_refl. Qed.

Lemma made_app steps k : made (steps ++ k) = (l ← made steps; l' ← made k; Ok (l ++ l')).
Proof.
  induction steps as [|[[c s] r] steps IH]; cbn; [by destruct (made k)|]. rewrite IH.
  destruct c; [|done]. destruct r; cbn; [|done..]. destruct (made steps); cbn; [|done..]. by destruct (made k).
Qed.

Lemma similar_app a a' b b' : similar a a' → similar b b' → similar (a ++ b) (a' ++ b').
Proof.
  intros Ha Hb l. rewrite !made_app. intros H. invert_ok.
match goal with H : made a = Ok _ |- _ => apply Ha in H as (l1 & -> & Hs1) end.
  match goal with H : made b = Ok _ |- _ => apply Hb in H as (l2 & -> & Hs2) end.
  eexists. split; [reflexivity|]. by apply Forall2_app.
Qed.

Lemma similar_cons x a b : similar a b → similar (x :: a) (x :: b).
Proof. intros H. apply (similar_app [x] [x]); [apply similar_refl|done]. Qed.

(** A list field that became a raw field. *)
Lemma similar_raw {A} (c : bool) s (r r' : result RuleItem) (raw : option A) (f : A → RuleItem) k k' :
  (∀ i, c = true → r = Ok i → ∃ x, raw = Some x ∧ same_item i (f x)) → (c = false → raw = None) → similar k k' →
  similar ((c, s, r) :: rawStep c s None f ++ k) ((false, s, r') :: rawStep false s raw f ++ k').
Proof.
  intros Ht Hf Hk. apply (similar_app [(c, s, r)] ((false, s, r') :: rawStep false s raw f)); [|done].
  intros l H. cbn in H. cbn [made]. destruct c.
  - invert_ok. destruct (Ht _ eq_refl eq_refl) as (x' & -> & Hx). cbn. eexists. split; [reflexivity|].
    constructor; [|constructor]. by split.
  - invert_ok. rewrite (Hf eq_refl). cbn. exists []. split; [done|constructor].
Qed.

(** ** Rules with the same items *)

Definition same_slots (d d' : abstractDefaultRule Rule) : Prop :=
  (∀ s, Forall2 same_item (slot_items s d) (slot_items s d')) ∧ nonempty (allItems d) = nonempty (allItems d') ∧
  invert d = invert d' ∧ ruleSetItem d = None ∧ ruleSetItem d' = None.

Lemma same_pick s l l' : same_made l l' → Forall2 same_item (pick s l) (pick s l').
Proof.
  induction 1 as [|[s1 i] [s2 j] l l' [Hs Hi] _ IH]; [constructor|]. cbn in Hs, Hi. subst s2.
  rewrite !pick_cons. cbn. case_decide; [by constructor|done].
Qed.

Lemma same_build steps steps' inv d :
  similar steps steps' → addAll steps (newAbstractRule inv None) = Ok d →
  ∃ d', addAll steps' (newAbstractRule inv None) = Ok d' ∧ same_slots d d'.
Proof.
  intros Hs. rewrite !addAll_made. intros (l & Hl & <-)%fmap_Ok. destruct (Hs l Hl) as (l' & -> & Hsame).
  eexists. split; [reflexivity|].
  destruct (appendAll_frame l (newAbstractRule inv None)) as (Ha & Hr & Hi & _).
  destruct (appendAll_frame l' (newAbstractRule inv None)) as (Ha' & Hr' & Hi' & _).
  split_and!; [|rewrite Ha, Ha'; by destruct Hsame|by rewrite Hi, Hi'|done|done].
  intros s. rewrite !slot_items_appendAll. destruct s; by apply same_pick.
Qed.

Lemma same_existsb e m l l' :
  Forall2 same_item l l' → existsb (item_holds rt e m) l = existsb (item_holds rt e m) l'.
Proof. induction 1 as [|i j l l' H _ IH]; [done|]. cbn. rewrite IH. f_equal. apply H. Qed.

Lemma same_forallb e m l l' :
  Forall2 same_item l l' → forallb (item_holds rt e m) l = forallb (item_holds rt e m) l'.
Proof. induction 1 as [|i j l l' H _ IH]; [done|]. cbn. rewrite IH. f_equal. apply H. Qed.

Lemma same_nonempty {A} (R : A → A → Prop) l l' : Forall2 R l l' → nonempty l = nonempty l'.
Proof. by destruct 1. Qed.

Lemma same_default_holds e m d d' :
  same_slots d d' → holds rt e (DefaultHeadlessRule d) m = holds rt e (DefaultHeadlessRule d') m.
Proof.
  intros (Hs & Ha & Hi & Hr & Hr'). cbn. unfold default_holds, inner_holds. rewrite Ha, Hi, Hr, Hr'.
  do 2 f_equal. f_equal; [apply (same_forallb e m _ _ (Hs ToItems))|].
  pose proof (Hs ToSourceAddress) as H1. pose proof (Hs ToSourcePort) as H2. pose proof (Hs ToDestinationAddress) as H3.
  pose proof (Hs ToDestinationIPCIDR) as H4. pose proof (Hs ToDestinationPort) as H5. cbn [slot_items] in *.
  unfold all_groups, requires, satisfies, ip_source, ip_dest.
  by rewrite (same_nonempty _ _ _ H1), (same_nonempty _ _ _ H2), (same_nonempty _ _ _ H3), (same_nonempty _ _ _ H4),
    (same_nonempty _ _ _ H5), (same_existsb e m _ _ H1), (same_existsb e m _ _ H2), (same_existsb e m _ _ H3),
    (same_existsb e m _ _ H4), (same_existsb e m _ _ H5).
Qed.

(** ** Loaded rules *)

(** A rule from a source file: the matchers and sets are not set. *)
Definition source_only (o : HeadlessOptions) : Prop :=
  h_DomainMatcher o = None ∧ h_SourceIPSet o = None ∧ h_IPSet o = None ∧ h_AdGuardDomainMatcher o = None.

Fixpoint source_rule (r : HeadlessRuleOptions) : Prop :=
  match r with
  | mkHeadlessRuleOptions _ default_ logical =>
      source_only default_ ∧ foldr (λ r p, source_rule r ∧ p) True (lo_Rules logical)
  end.

Lemma NewIPCIDRItem_set b l i msg :
  wrap_cause msg (NewIPCIDRItem b l) = Ok i → ∃ s, the_set l = Some s ∧ same_item i (NewRawIPCIDRItem b s).
Proof.
  intros H%wrap_cause_Ok. unfold NewIPCIDRItem in H. unfold the_set, cidr_set.
  destruct (parseCIDRs 0 l) as [e|e|e]; [|done..]. cbn [mbind result_bind] in *.
  destruct (IPSetBuilder_IPSet e) as [x|x|x]; [|done..]. cbn in H. invert_ok. by exists x.
Qed.

Lemma NewDomainItem_matcher d s i :
  NewDomainItem d s = Ok i → same_item i (NewRawDomainItem (NewMatcher d s false)).
Proof. unfold NewDomainItem. repeat case_match; intros; invert_ok; done. Qed.

Lemma similar_loaded nm version o :
  version ≠ 1 → source_only o → similar (headlessSteps nm o) (headlessSteps nm (loaded version o)).
Proof.
  intros Hv (H1 & H2 & H3 & H4). unfold headlessSteps. rewrite H1, H2, H3, H4. cbv zeta.
  assert (version =? 1 = false) as Hv' by lia. unfold loaded. rewrite Hv'. unfold domain_set.
  cbn -[similar rawStep NewDomainItem NewIPCIDRItem wrap_cause the_set nonempty plain].
  do 2 apply similar_cons. apply similar_raw.
  { intros i -> H. eexists. split; [reflexivity|]. by apply NewDomainItem_matcher. }
  { by intros ->. }
  do 2 apply similar_cons. apply similar_raw.
  { intros i Hn H. rewrite Hn. by eapply NewIPCIDRItem_set. }
  { by intros ->. }
  apply similar_raw.
  { intros i Hn H. rewrite Hn. by eapply NewIPCIDRItem_set. }
  { by intros ->. }
  do 9 apply similar_cons. apply similar_app; [apply similar_refl|].
  rewrite <- (app_nil_r (rawStep _ _ None _)), <- (app_nil_r (rawStep false _ _ _)). apply similar_raw.
  { intros i -> H. invert_ok. by eexists. }
  { by intros ->. }
  apply similar_refl.
Qed.

Lemma the_set_some nm o d :
  NewDefaultHeadlessRule nm o = Ok d →
  (h_SourceIPCIDR o ≠ [] → is_Some (the_set (h_SourceIPCIDR o))) ∧ (h_IPCIDR o ≠ [] → is_Some (the_set (h_IPCIDR o))).
Proof.
  unfold NewDefaultHeadlessRule. rewrite addAll_made. intros (l & Hl & _)%fmap_Ok.
  assert (is_ok (made (headlessSteps nm o)) = true) as Hok by by rewrite Hl.
  apply headlessSteps_ok in Hok as (_ & _ & Hs & Hd & _). unfold the_set, cidr_set.
  split; intros H; [destruct (Hs H) as (e & -> & He)|destruct (Hd H) as (e & -> & He)];
    cbn [mbind result_bind]; destruct (IPSetBuilder_IPSet e); done.
Qed.

Lemma loaded_valid nm version o d :
  NewDefaultHeadlessRule nm o = Ok d → HeadlessOptions_IsValid o = true → source_only o →
  HeadlessOptions_IsValid (loaded version o) = true.
Proof.
  intros [Hs Hd]%the_set_some Hv (H1 & H2 & H3 & H4). unfold HeadlessOptions_IsValid in *.
  apply negb_true_iff in Hv. apply negb_true_iff, not_true_is_false. intros Hz. revert Hv. apply not_false_iff_true.
  unfold HeadlessOptions_isZero in *. rewrite H1, H2, H3, H4. rewrite !andb_true_iff in Hz. destruct_and! Hz.
  unfold loaded, domain_set in *. cbn [h_QueryType h_Network h_Domain h_DomainSuffix h_DomainKeyword h_DomainRegex
    h_SourceIPCIDR h_IPCIDR h_SourcePort h_SourcePortRange h_Port h_PortRange h_ProcessName h_ProcessPath
    h_ProcessPathRegex h_PackageName h_PackageNameRegex h_NetworkType h_NetworkIsExpensive h_NetworkIsConstrained
    h_WIFISSID h_WIFIBSSID h_NetworkInterfaceAddress h_DefaultInterfaceAddress h_DomainMatcher h_SourceIPSet h_IPSet
    h_AdGuardDomain h_AdGuardDomainMatcher] in *.
  repeat match goal with H : negb _ = true |- _ => rewrite H; clear H end.
  destruct (h_Domain o), (h_DomainSuffix o), (h_AdGuardDomain o); try done.
  destruct (h_SourceIPCIDR o) as [|c l]; [|by destruct (Hs ltac:(done)) as [x Hx]; rewrite Hx in *].
  destruct (h_IPCIDR o) as [|c l]; [done|by destruct (Hd ltac:(done)) as [x Hx]; rewrite Hx in *].
Qed.

Lemma written_typed version r : ∀ w, writeRule version r = Ok w → typed r = true.
Proof.
  induction r as [t d l IH] using HeadlessOptions_nested_ind. intros w Hw. cbn [writeRule typed] in *.
  destruct (String.eqb t "default"); [done|]. destruct (String.eqb t "logical"); [|done]. cbn [orb andb].
  unfold writeLogicalRule in Hw. apply bind_Ok in Hw as (mode & _ & Hw). apply bind_Ok in Hw as (ws & Hws%forM_written & _).
  destruct Hws as [_ Hws]. apply forallb_forall. intros r Hr%list_elem_of_In. rewrite Forall_forall in IH, Hws. eauto.
Qed.

Lemma LogicalOptions_valid {R} (valid : R → result bool) (l : LogicalOptions R) :
  lo_Rules l ≠ [] → Forall (λ r, valid r = Ok true) (lo_Rules l) → LogicalOptions_IsValid valid l = Ok true.
Proof.
  unfold LogicalOptions_IsValid. intros Hne Hall. destruct (lo_Rules l) as [|r rules]; [done|]. cbn [nonempty negb].
  clear Hne. apply Forall_cons in Hall as [-> Hall]. cbn. induction Hall as [|r' k Hr _ IH]; [done|]. by rewrite Hr.
Qed.

Lemma subRules_intro {O} (build : O → result Rule) i rules rs :
  Forall2 (λ o r, build o = Ok r) rules rs → subRules build i rules = Ok rs.
Proof.
  intros H. revert i. induction H as [|o r os rs' Hb _ IH]; intros i; [done|]. cbn. rewrite Hb. cbn. by rewrite IH.
Qed.

(** Two rules no context tells apart. *)
Definition same_rule (x y : Rule) : Prop := ∀ e m, holds rt e x m = holds rt e y m.

#[export] Instance same_rule_equivalence : Equivalence same_rule.
Proof. split; [done|by intros x y H e m|]. intros x y z H1 H2 e m. by rewrite (H1 e m), (H2 e m). Qed.

Lemma same_logical rules rules' mode inv act :
  Forall2 same_rule rules rules' →
  same_rule (LogicalHeadlessRule (mkLogicalRule rules mode inv act)) (LogicalHeadlessRule (mkLogicalRule rules' mode inv act)).
Proof.
  intros H e m. cbn. unfold logical_holds. cbn [l_mode l_rules l_invert].
  assert (existsb (λ r, holds rt env0 r m) rules = existsb (λ r, holds rt env0 r m) rules' ∧
    forallb (λ r, holds rt env0 r m) rules = forallb (λ r, holds rt env0 r m) rules') as [-> ->]; [|done].
  induction H as [|x y l k H _ [IH1 IH2]]; [done|]. cbn. by rewrite IH1, IH2, (H env0 m).
Qed.

(** What a rule must satisfy for its compiled form to behave like it. *)
Definition compiles (nm : bool) (version : Z) (r : HeadlessRuleOptions) : Prop := ∀ x,
  typed r = true → source_rule r → NewHeadlessRule nm r = Ok x →
  HeadlessRule_IsValid (loaded_rule version r) = Ok true ∧
  ∃ x', NewHeadlessRule nm (loaded_rule version r) = Ok x' ∧ same_rule x x'.

Lemma compiles_all nm version rules rs :
  Forall (compiles nm version) rules → forallb typed rules = true → Forall source_rule rules →
  Forall2 (λ o r, NewHeadlessRule nm o = Ok r) rules rs →
  Forall (λ r, HeadlessRule_IsValid r = Ok true) (loaded_rule version <$> rules) ∧
  ∃ rs', Forall2 (λ o r, NewHeadlessRule nm o = Ok r) (loaded_rule version <$> rules) rs' ∧ Forall2 same_rule rs rs'.
Proof.
  intros Hc Ht Hs Hb. induction Hb as [|o r os rs Hb _ IH]; [split; [constructor|by exists []]|].
  cbn in Ht. apply andb_true_iff in Ht as [Ht Hts]. apply Forall_cons in Hc as [Hc Hcs]. apply Forall_cons in Hs as [Hs Hss].
  destruct (Hc r Ht Hs Hb) as (Hv & x' & Hx & Hsame). destruct (IH Hcs Hts Hss) as (Hvs & rs' & Hrs & Hrs').
  split; [by constructor|]. exists (x' :: rs'). split; by constructor.
Qed.

Lemma rule_compiles nm version r : version ≠ 1 → compiles nm version r.
Proof.
  intros Hv. induction r as [t d l IH] using HeadlessOptions_nested_ind. intros x Ht [Hs Hss%fold_and] Hb.
  cbn [typed loaded_rule NewHeadlessRule] in *. destruct (String.eqb_spec t "default") as [->|Hd].
  - cbn [String.eqb orb Ascii.eqb Bool.eqb] in *. invert_ok.
    match goal with H : checkValid _ = Ok _ |- _ => unfold checkValid in H; cbn in H;
      destruct (HeadlessOptions_IsValid d) eqn:Hval; [|done] end.
    match goal with H : NewDefaultHeadlessRule nm d = Ok _ |- _ => rename H into Hd' end.
    pose proof (loaded_valid nm version d _ Hd' Hval Hs) as Hval'.
    destruct (same_build _ _ _ _ (similar_loaded nm version d Hv Hs) Hd') as (d' & Hd'' & Hsame).
    cbn [HeadlessRule_IsValid NewHeadlessRule String.eqb orb Ascii.eqb Bool.eqb]. rewrite Hval'. split; [done|].
    cbn [checkValid mbind result_bind]. change (addAll _ _) with (NewDefaultHeadlessRule nm (loaded version d)) in Hd''. rewrite Hd''. cbn [mbind result_bind].
    eexists. split; [reflexivity|]. intros e m. by apply same_default_holds.
  - destruct (String.eqb_spec t "logical") as [->|]; [|done]. cbn [String.eqb orb andb Ascii.eqb Bool.eqb] in *.
    invert_ok. match goal with H : subRules _ _ _ = Ok _ |- _ => apply subRules_Forall2 in H; rename H into Hsub end.
    destruct (compiles_all nm version _ _ IH Ht Hss Hsub) as (Hvs & rs' & Hrs & Hsame).
    assert (Hvl : HeadlessRule_IsValid (mkHeadlessRuleOptions "logical" HeadlessOptions_zero
      (mkLogicalOptions (lo_Mode l) (loaded_rule version <$> lo_Rules l) (lo_Invert l))) = Ok true).
    { cbn [HeadlessRule_IsValid String.eqb orb Ascii.eqb Bool.eqb]. apply LogicalOptions_valid; [|done].
      cbn [lo_Rules]. match goal with H : checkValid _ = Ok _ |- _ => unfold checkValid, LogicalOptions_IsValid in H end.
      by destruct (lo_Rules l). }
    split; [exact Hvl|]. cbn [HeadlessRule_IsValid NewHeadlessRule String.eqb orb Ascii.eqb Bool.eqb] in *.
    change (map (loaded_rule version)) with (fmap (M := list) (loaded_rule version)).
    rewrite Hvl. cbn [checkValid mbind result_bind lo_Mode lo_Rules lo_Invert].
    match goal with H : checkMode _ = Ok _ |- _ => rewrite H end. cbn [mbind result_bind].
    rewrite (subRules_intro _ 0 _ rs' Hrs). cbn [mbind result_bind]. eexists. split; [reflexivity|]. by apply same_logical.
Qed.
End same.

(** C26: compiling a rule-set does not change what it matches: if the rules of a
    source build, then the rules [Read] gets from the file [Write] made of them
    build too, and each matches exactly the connections its source rule matches
    (format versions other than 1, whose domain matcher is a different one). *)
Theorem srs_preserves_matching (EX : External) (SL : SrsLib) (LL : SrsLaws SL) (rt : Runtime) (RL : RuntimeLaws rt)
    (networkManager : bool) (rules : list HeadlessRuleOptions) (built : list Rule) (version : Z) (file : list byte)
    (Hversion : 2 ≤ version ≤ RuleSetVersionCurrent) (Hfits : fits rules) (Hok : Forall encodable_rule rules)
    (Hdepth : Forall (λ r, (depth r ≤ maxLogicalRuleDepth)%nat) rules) (Hsource : Forall source_rule rules)
    (Hbuild : Forall2 (λ r x, NewHeadlessRule networkManager r = Ok x) rules built)
    (Hwrite : Write rules version = Ok file) :
  ∃ rules' built', Read false file = Ok (version, rules') ∧
    Forall2 (λ r x, NewHeadlessRule networkManager r = Ok x) rules' built' ∧
    Forall2 (λ x x', ∀ m, ignoreDst m = false → deferred m = 0 → fst (Match rt x m) = fst (Match rt x' m)) built built'.
Proof.
  assert (Hv : 0 ≤ version ≤ RuleSetVersionCurrent) by lia.
  pose proof (Read_written rules version file Hv Hfits Hok Hdepth Hwrite) as Hread.
  assert (Ht : forallb typed rules = true).
  { unfold Write in Hwrite. apply bind_Ok in Hwrite as (ws & [_ Hws]%forM_written & _).
    apply forallb_forall. intros r Hr%list_elem_of_In. rewrite Forall_forall in Hws. eauto using written_typed. }
  assert (Hc : Forall (compiles rt networkManager version) rules).
  { apply Forall_forall. intros r _. apply rule_compiles. lia. }
  destruct (compiles_all rt networkManager version rules built Hc Ht Hsource Hbuild) as (_ & built' & Hb & Hsame).
  exists (loaded_rule version <$> rules), built'. split_and!; [done|done|].
  eapply Forall2_impl; [exact Hsame|]. intros x x' H m Hi Hd.
  destruct (Match_holds rt x m Hi Hd) as (m1 & -> & _), (Match_holds rt x' m Hi Hd) as (m2 & -> & _). apply H.
Qed.

Lemma srs_preserves_matching_witness :
  ∃ built file rules' built', Forall2 (λ r x, NewHeadlessRule true r = Ok x) demo_rules built ∧
    @Write demo demo_srs demo_rules 5 = Ok file ∧ @Read demo demo_srs false file = Ok (5, rules') ∧
    Forall2 (λ r x, NewHeadlessRule true r = Ok x) rules' built' ∧
    Forall2 (λ x x', ∀ m, ignoreDst m = false → deferred m = 0 →
      fst (Match demo_rt x m) = fst (Match demo_rt x' m)) built built'.
Proof.
  assert (Hw : is_ok (@Write demo demo_srs demo_rules 5) = true) by (vm_compute; reflexivity).
  destruct (@Write demo demo_srs demo_rules 5) as [file|e|p] eqn:Hf; [|discriminate Hw..].
  assert (Hb : is_ok (forM (NewHeadlessRule true) demo_rules) = true) by (vm_compute; reflexivity).
  destruct (forM (NewHeadlessRule true) demo_rules) as [built|e|p] eqn:Hx; [|discriminate Hb..].
  apply forM_Forall2 in Hx.
  destruct (srs_preserves_matching demo demo_srs demo_srs_laws demo_rt demo_laws true demo_rules built 5 file)
    as (rules' & built' & H1 & H2 & H3).
  - unfold RuleSetVersionCurrent. lia.
  - vm_compute. reflexivity.
  - apply demo_rules_encodable.
  - repeat constructor.
  - repeat constructor.
  - exact Hx.
  - exact Hf.
  - exists built, file, rules', built'. split_and!; assumption || reflexivity.
Defined.

(** [n] logical rules around a leaf. *)
Fixpoint nest {EX : External} (n : nat) : HeadlessRuleOptions :=
  match n with
  | O => mkHeadlessRuleOptions "default" (set_h_Port [443] HeadlessOptions_zero) (mkLogicalOptions "" [] false)
  | S n => mkHeadlessRuleOptions "logical" HeadlessOptions_zero (mkLogicalOptions "and" [nest n] false)
  end.

(** The nesting limit is checked by [Read] alone: a rule nested 101 deep is
    written without an error, and the file cannot be read; at 100 it can. *)
Theorem srs_depth_unchecked_by_write :
  match @Write demo demo_srs [nest 101] 5, @Write demo demo_srs [nest 100] 5 with
  | Ok deep, Ok file => is_ok (@Read demo demo_srs false deep) = false ∧ is_ok (@Read demo demo_srs false file) = true
  | _, _ => False
  end.
Proof. vm_compute. split; reflexivity. Qed.
