(* ===== verification/Router.v ===== *)
(** The router ([route/route.go], [route/group_resolve_lx.go]).

    [matchRule] walks the route rules, running the non-final actions it meets,
    and selects the rule that decides a connection; [routeConnection] and
    [routePacketConnection] act on it; [PreMatch] asks the same rules about a
    flow before there is a connection.  The DNS router, the fake-IP store, the
    process and neighbour lookups and the outbounds are parameters. *)

From S2P Require Import Prelude GoBytes GoSlices GoStrings Netip Metadata RuleItems RuleAction RuleMatch.
From S2P Require Import Sniff Ja3 Quic SniffTheorems.

(** ** Metadata *)

(** The fields of [InboundContext] the route options of a rule set. *)
Record DialOptions : Type := mkDialOptions {
  md_NetworkStrategy : option Z;
  md_NetworkType : list Z;
  md_FallbackNetworkType : list Z;
  md_FallbackDelay : Z;
  md_UDPDisableDomainUnmapping : bool;
  md_UDPConnect : bool;
  md_UDPTimeout : Z;
  md_TLSFragment : bool;
  md_TLSFragmentFallbackDelay : Z;
  md_TLSRecordFragment : bool;
  md_TLSSpoof : string;
  md_TLSSpoofMethod : Method
}.

(** [InboundContext] as the router sees it: what rules and sniffers read, and
    the fields only the router and the outbounds use. *)
Record RouteMetadata : Type := mkRoute {
  rm : SniffMetadata;
  InboundType : string;
  InboundDetour : string;
  LastInbound : string;
  RouteOriginalDestination : Socksaddr;
  OriginDestination : Socksaddr;
  FakeIP : bool;
  dial : DialOptions;
  RouteOutbound : string;
  OutboundChain : list string
}.

(** [metadata] as a rule sees it. *)
Definition ctx (m : RouteMetadata) : InboundContext := sm (rm m).

Definition on_rm (f : SniffMetadata → SniffMetadata) (m : RouteMetadata) : RouteMetadata :=
  match m with mkRoute a b c d e f' g h i j => mkRoute (f a) b c d e f' g h i j end.
Definition on_ctx (f : InboundContext → InboundContext) : RouteMetadata → RouteMetadata := on_rm (on_context f).
Definition on_dial (f : DialOptions → DialOptions) (m : RouteMetadata) : RouteMetadata :=
  match m with mkRoute a b c d e f' g h i j => mkRoute a b c d e f' g (f h) i j end.
Definition set_RouteOriginalDestination (v : Socksaddr) (m : RouteMetadata) : RouteMetadata :=
  match m with mkRoute a b c d _ f g h i j => mkRoute a b c d v f g h i j end.
(** [metadata.OriginDestination = v; metadata.FakeIP = true]. *)
Definition set_FakeIP (v : Socksaddr) (m : RouteMetadata) : RouteMetadata :=
  match m with mkRoute a b c d e _ _ h i j => mkRoute a b c d e v true h i j end.
Definition set_route (outbound : string) (chain : list string) (m : RouteMetadata) : RouteMetadata :=
  match m with mkRoute a b c d e f g h _ _ => mkRoute a b c d e f g h outbound chain end.
(** [metadata.LastInbound = metadata.Inbound; metadata.Inbound =
    metadata.InboundDetour; metadata.InboundDetour = ""]. *)
Definition set_Inbound (v : string) (m : InboundContext) : InboundContext :=
  match m with mkContext _ b c d e f g h i j k l n o p q r s t u w =>
    mkContext v b c d e f g h i j k l n o p q r s t u w end.
Definition take_detour (m : RouteMetadata) : RouteMetadata :=
  match m with mkRoute a b c _ e f g h i j =>
    on_ctx (set_Inbound c) (mkRoute a b EmptyString (Inbound (sm a)) e f g h i j) end.

Definition set_IPVersion (v : Z) (m : InboundContext) : InboundContext :=
  match m with mkContext a _ c d e f g h i j k l n o p q r s t u w =>
    mkContext a v c d e f g h i j k l n o p q r s t u w end.
Definition set_Network (v : string) (m : InboundContext) : InboundContext :=
  match m with mkContext a b _ d e f g h i j k l n o p q r s t u w =>
    mkContext a b v d e f g h i j k l n o p q r s t u w end.
Definition set_Destination (v : Socksaddr) (m : InboundContext) : InboundContext :=
  match m with mkContext a b c d _ f g h i j k l n o p q r s t u w =>
    mkContext a b c d v f g h i j k l n o p q r s t u w end.
Definition set_DestinationAddresses (v : list Addr) (m : InboundContext) : InboundContext :=
  match m with mkContext a b c d e f g h i j _ l n o p q r s t u w =>
    mkContext a b c d e f g h i j v l n o p q r s t u w end.
Definition set_ProcessInfo (v : option ConnectionOwner) (m : InboundContext) : InboundContext :=
  match m with mkContext a b c d e f g h i j k l n o _ q r s t u w =>
    mkContext a b c d e f g h i j k l n o v q r s t u w end.
Definition set_SourceMACAddress (v : option (list byte)) (m : InboundContext) : InboundContext :=
  match m with mkContext a b c d e f g h i j k l n o p _ r s t u w =>
    mkContext a b c d e f g h i j k l n o p v r s t u w end.
Definition set_SourceHostname (v : string) (m : InboundContext) : InboundContext :=
  match m with mkContext a b c d e f g h i j k l n o p q _ s t u w =>
    mkContext a b c d e f g h i j k l n o p q v s t u w end.

(** [metadata.SnifferNames = names; metadata.SniffError = err]. *)
Definition set_sniffed (names : list string) (err : option goerr) (m : SniffMetadata) : SniffMetadata :=
  mkSniffMetadata (sm m) (SniffContext m) names err.

(** ** Outbounds *)

(** [adapter.PreMatchAction]. *)
Inductive PreMatchAction : Type :=
| PreMatchContinue | PreMatchFlow | PreMatchReject | PreMatchDrop | PreMatchBypass | PreMatchHijackDNS.

#[export] Instance PreMatchAction_eq_dec : EqDecision PreMatchAction.
Proof. solve_decision. Defined.

(** An outbound as the router uses it.  A plain outbound has its networks and,
    when it is an [adapter.FlowOutbound], its [PreMatchFlow]; a group has the
    outbound it selects for a network, and whether it picks a node per
    connection ([perConnectionGroupLx]). *)
Inductive AnOutbound : Type :=
| PlainOutbound (tag : string) (networks : list string) (flow : option (string → Addr → PreMatchAction))
| GroupOutbound (tag : string) (networks : list string) (perConnection : bool) (selected : string → option AnOutbound).

(** Induction over an outbound and the outbounds a group can select. *)
Definition AnOutbound_ind' (P : AnOutbound → Prop)
    (Hplain : ∀ tag networks flow, P (PlainOutbound tag networks flow))
    (Hgroup : ∀ tag networks per selected, (∀ n o, selected n = Some o → P o) → P (GroupOutbound tag networks per selected))
    : ∀ o, P o :=
  fix go o := match o with
  | PlainOutbound tag networks flow => Hplain tag networks flow
  | GroupOutbound tag networks per selected => Hgroup tag networks per selected
      (λ n o' H, match selected n as x return x = Some o' → P o' with
        | Some o1 => λ H', eq_ind o1 P (go o1) o' (f_equal (default o1) H')
        | None => λ H', match H' in _ = y return match y with Some _ => P o' | None => True end with eq_refl => I end
        end H)
  end.

Definition Outbound_Tag (o : AnOutbound) : string :=
  match o with PlainOutbound t _ _ | GroupOutbound t _ _ _ => t end.

Section resolve.
Context {EX : External} (strings_ToUpper : string → string).

Definition errUnsupported (network tag : string) : goerr :=
  ErrNew (String.append (strings_ToUpper network) (String.append " is not supported by outbound: " tag)).

(** [resolveOutbound(outbound, network)]; the chain starts with [outbound]. *)
Fixpoint resolveOutbound (outbound : AnOutbound) (network : string) : result (list AnOutbound) :=
  match outbound with
  | PlainOutbound tag networks _ =>
      if containsb network networks then Ok [outbound] else Err (errUnsupported network tag)
  | GroupOutbound tag _ _ selected =>
      match selected network with
      | None => Err (errUnsupported network tag)
      | Some next => chain ← resolveOutbound next network; Ok (outbound :: chain)
      end
  end.

(** The loop of [resolveOutboundLx] over all but the last element. *)
Fixpoint cutPerConnection (chain : list AnOutbound) : list AnOutbound :=
  match chain with
  | [] => []
  | o :: rest =>
      match rest, o with
      | [], _ => [o]
      | _ :: _, GroupOutbound _ _ true _ => [o]
      | _ :: _, _ => o :: cutPerConnection rest
      end
  end.

Definition resolveOutboundLx (outbound : AnOutbound) (network : string) : result (list AnOutbound) :=
  chain ← resolveOutbound outbound network; Ok (cutPerConnection chain).
End resolve.

(** ** Code outside the router *)

(** Functions of [sing] on addresses, and the other services of the process.
    [env_rt pre] is what rule items see of the process, [pre] being
    [metadata.PreMatch], which outbounds may look at. *)
Record RouterEnv {EX : External} : Type := mkRouterEnv {
  strings_ToUpper : string → string;
  IsDomainName : string → bool;
  Socksaddr_IsDomain : Socksaddr → bool;
  Socksaddr_IsIPv4 : Socksaddr → bool;
  env_rt : bool → Runtime;
  isLocalSource : Addr → bool;
  findProcessInfoCached : option (string → Socksaddr → option Socksaddr → result ConnectionOwner);
  neighborResolver : option ((Addr → option (list byte)) * (Addr → option string));
  fakeIPStore : option ((Addr → bool) * (Addr → option string));
  LookupReverseMapping : Addr → option string;
  dnsTransport : string → bool;
  dnsLookup : InboundContext → string → RuleActionResolve → result (list Addr);
  inbounds : string → option (bool * bool);
  outbounds : string → option AnOutbound;
  outboundDefault : AnOutbound;
  mux_Destination : string;
  vmess_MuxDestination : string;
  uot_MagicAddress : string;
  uot_LegacyMagicAddress : string;
  lxtrace_Routed : RouteMetadata → option Rule → AnOutbound → bool
}.

(** A packet read from a [N.PacketConn], and what a read may meet. *)
Record packet : Type := mkPacket { pk_data : list byte; pk_Destination : Socksaddr }.

Inductive packetEvent : Type :=
| PacketGot (p : packet)
| PacketTimeout
| PacketFails (e : goerr)
| ContextDone (e : goerr).

(** [inputConn] or [inputPacketConn]: what is still to be read. *)
Inductive input : Type :=
| StreamInput (events : list readEvent)
| PacketInput (events : list packetEvent).

(** A connection that is handed on: the inbound's, with the buffers put before it
    by [bufio.NewCachedConn] and [bufio.NewCachedPacketConn] of [sing]. *)
Inductive connection : Type :=
| InboundConn (rest : input)
| NewCachedConn (conn : connection) (buffer : list byte)
| NewCachedPacketConn (conn : connection) (p : packet).

(** [for _, buffer := range buffers { conn = bufio.NewCachedConn(conn, buffer) }],
    and the same loop over [packetBuffers]. *)
Definition replayStream (rest : input) (buffers : list (list byte)) : connection := fold_left NewCachedConn buffers (InboundConn rest).
Definition replayPackets (rest : input) (packets : list packet) : connection := fold_left NewCachedPacketConn packets (InboundConn rest).

(** What [matchRule] and [actionSniff] thread: the metadata, the connection,
    and the buffers read from it. *)
Record matchState : Type := mkMatch {
  ms_meta : RouteMetadata;
  ms_input : input;
  ms_buffers : list (list byte);
  ms_packets : list packet
}.

Definition with_meta (m : RouteMetadata) (s : matchState) : matchState :=
  mkMatch m (ms_input s) (ms_buffers s) (ms_packets s).

Section router.
Context {EX : External} {SL : SniffLib} {QC : QuicCrypto} (E : RouterEnv) (now : Z).

(** ** Preparing the metadata *)

(** [process_cache.go], [searchProcessInfo]. *)
Definition searchProcessInfo (m : RouteMetadata) : RouteMetadata :=
  match findProcessInfoCached E, ProcessInfo (ctx m) with
  | Some find, None =>
      if negb (isLocalSource E (sa_Addr (Source (ctx m)))) then m else
      let originDestination :=
        if Socksaddr_IsValid (OriginDestination m) then Some (OriginDestination m)
        else if Socksaddr_IsIP (Destination (ctx m)) then Some (Destination (ctx m)) else None in
      match find (Network (ctx m)) (Source (ctx m)) originDestination with
      | Ok processInfo => on_ctx (set_ProcessInfo (Some processInfo)) m
      | _ => m
      end
  | _, _ => m
  end.

(** The neighbour lookup of [prepareMatchMetadata]. *)
Definition lookupNeighbor (m : RouteMetadata) : RouteMetadata :=
  match neighborResolver E, SourceMACAddress (ctx m) with
  | Some (LookupMAC, LookupHostname), None =>
      let source := sa_Addr (Source (ctx m)) in
      if negb (Addr_IsValid source) then m else
      let m := match LookupMAC source with Some mac => on_ctx (set_SourceMACAddress (Some mac)) m | None => m end in
      match LookupHostname source with Some hostname => on_ctx (set_SourceHostname hostname) m | None => m end
  | _, _ => m
  end.

Definition reverseMapping (m : RouteMetadata) : RouteMetadata :=
  if String.eqb (Domain (ctx m)) "" then
    match LookupReverseMapping E (sa_Addr (Destination (ctx m))) with
    | Some domain => on_ctx (set_Domain domain) m
    | None => m
    end
  else m.

(** The fake-IP branch, and [else if metadata.Domain == ""]. *)
Definition lookupFakeIP (m : RouteMetadata) : result RouteMetadata :=
  let destination := Destination (ctx m) in
  match fakeIPStore E with
  | Some (Contains, Lookup) =>
      if Addr_IsValid (sa_Addr destination) && Contains (sa_Addr destination) then
        match Lookup (sa_Addr destination) with
        | None => Err (ErrNew "missing fakeip record, try enable `experimental.cache_file`")
        | Some domain =>
            if negb (String.eqb domain "") then
              Ok (on_ctx (set_Destination (mkSocksaddr AddrZero (sa_Port destination) domain)) (set_FakeIP destination m))
            else Ok m
        end
      else Ok (reverseMapping m)
  | None => Ok (reverseMapping m)
  end.

Definition prepareMatchMetadata (m : RouteMetadata) : result RouteMetadata :=
  m ← lookupFakeIP (lookupNeighbor (searchProcessInfo m));
  Ok (if Socksaddr_IsIPv4 E (Destination (ctx m)) then on_ctx (set_IPVersion 4) m
      else if Socksaddr_IsIPv6 (Destination (ctx m)) then on_ctx (set_IPVersion 6) m
      else m).

(** ** Route options *)

Definition applyRouteOptionsOverride (o : RuleActionRouteOptions) (m : RouteMetadata) : RouteMetadata :=
  let m := if Socksaddr_IsValid (OverrideAddress o)
    then on_ctx (λ c, set_Destination (mkSocksaddr (sa_Addr (OverrideAddress o)) (sa_Port (Destination c))
      (sa_Fqdn (OverrideAddress o))) c) m else m in
  let m := if 0 <? OverridePort o
    then on_ctx (λ c, set_Destination (mkSocksaddr (sa_Addr (Destination c)) (OverridePort o)
      (sa_Fqdn (Destination c))) c) m else m in
  if 0 <? UDPTimeout o then on_dial (λ d, mkDialOptions (md_NetworkStrategy d) (md_NetworkType d)
    (md_FallbackNetworkType d) (md_FallbackDelay d) (md_UDPDisableDomainUnmapping d) (md_UDPConnect d) (UDPTimeout o)
    (md_TLSFragment d) (md_TLSFragmentFallbackDelay d) (md_TLSRecordFragment d) (md_TLSSpoof d) (md_TLSSpoofMethod d)) m
  else m.

(** The assignments from [NetworkStrategy] to [TLSSpoofMethod]. *)
Definition applyDialOptions (o : RuleActionRouteOptions) (d : DialOptions) : DialOptions :=
  mkDialOptions
    (match NetworkStrategy o with Some s => Some s | None => md_NetworkStrategy d end)
    (if nonempty (NetworkType o) then NetworkType o else md_NetworkType d)
    (if nonempty (FallbackNetworkType o) then FallbackNetworkType o else md_FallbackNetworkType d)
    (if negb (FallbackDelay o =? 0) then FallbackDelay o else md_FallbackDelay d)
    (if UDPDisableDomainUnmapping o then true else md_UDPDisableDomainUnmapping d)
    (if UDPConnect o then true else md_UDPConnect d)
    (if 0 <? UDPTimeout o then UDPTimeout o else md_UDPTimeout d)
    (if TLSFragment o then true else md_TLSFragment d)
    (if TLSFragment o then TLSFragmentFallbackDelay o else md_TLSFragmentFallbackDelay d)
    (if TLSRecordFragment o then true else md_TLSRecordFragment d)
    (if negb (String.eqb (TLSSpoof o) "") then TLSSpoof o else md_TLSSpoof d)
    (if negb (String.eqb (TLSSpoof o) "") then TLSSpoofMethod o else md_TLSSpoofMethod d).

(** [if routeOptions != nil { ... }] of [matchRule]. *)
Definition applyRouteOptions (o : RuleActionRouteOptions) (m : RouteMetadata) : RouteMetadata :=
  let m := if (Socksaddr_IsValid (OverrideAddress o) || (0 <? OverridePort o)) &&
      negb (Socksaddr_IsValid (RouteOriginalDestination m))
    then set_RouteOriginalDestination (Destination (ctx m)) m else m in
  let m := if Socksaddr_IsValid (OverrideAddress o) then on_ctx (set_DestinationAddresses []) m else m in
  on_dial (applyDialOptions o) (applyRouteOptionsOverride o m).

(** The first [switch] of [matchRule]. *)
Definition routeOptionsOf (a : option RuleAction) : option RuleActionRouteOptions :=
  match a with
  | Some (RuleActionRoute _ o) | Some (RuleActionRouteOptions_ o) => Some o
  | Some (RuleActionBypass outbound o) => if negb (String.eqb outbound "") then Some o else None
  | _ => None
  end.

(** ** Sniffing *)

Definition streamSnifferOf (s : StreamSniffer) : streamSniffer :=
  match s with
  | S_TLSClientHello => TLSClientHello
  | S_HTTPHost => HTTPHost
  | S_StreamDomainNameQuery => StreamDomainNameQuery
  | S_BitTorrent => BitTorrent
  | S_OpenVPNStream => OpenVPNStream now
  | S_SIPStream => SIPStream
  | S_SSH => SSH
  | S_RDP => RDP
  end.

Definition packetSnifferOf (s : PacketSniffer) : packetSniffer :=
  match s with
  | P_QUICClientHello => QUICClientHello
  | P_DomainNameQuery => DomainNameQuery
  | P_STUNMessage => STUNMessage
  | P_UTP => UTP
  | P_UDPTracker => UDPTracker
  | P_DTLSRecord => DTLSRecord
  | P_WireGuard => WireGuard
  | P_OpenVPN => OpenVPN now
  | P_IKE => IKE
  | P_TailscaleDisco => TailscaleDisco
  | P_SIP => SIP
  | P_NTP => NTP
  end.

Definition defaultStreamSniffers : list streamSniffer :=
  [TLSClientHello; HTTPHost; StreamDomainNameQuery; BitTorrent; SSH; RDP; SIPStream; OpenVPNStream now].

Definition streamSniffers (a : RuleActionSniff) : list streamSniffer :=
  if nonempty (StreamSniffers a) then streamSnifferOf <$> StreamSniffers a else defaultStreamSniffers.
Definition packetSniffers (a : RuleActionSniff) : list packetSniffer :=
  if nonempty (PacketSniffers a) then packetSnifferOf <$> PacketSniffers a else defaultPacketSniffers now.

(** [slices.Equal(metadata.SnifferNames, action.SnifferNames) &&
    metadata.SniffError != nil && p(metadata.SniffError)]. *)
Definition sniffedBefore (p : goerr → bool) (a : RuleActionSniff) (m : SniffMetadata) : bool :=
  bool_decide (sm_SnifferNames m = SnifferNames a) && match SniffError m with Some e => p e | None => false end.

(** The previous run of the same sniffers failed for good. *)
Definition failedBefore : RuleActionSniff → SniffMetadata → bool := sniffedBefore (λ e, negb (errors_Is e ErrNeedMoreData)).
Definition quicMoreData : RuleActionSniff → SniffMetadata → bool := sniffedBefore (λ e, errors_Is e ErrNeedMoreData).

Definition error_of {A} (r : result A) : option goerr := match r with Err e => Some e | _ => None end.

(** [if action.OverrideDestination && M.IsDomainName(metadata.Domain) { ... }]. *)
Definition overrideDestination (a : RuleActionSniff) (m : RouteMetadata) : RouteMetadata :=
  if OverrideDestination a && IsDomainName E (Domain (ctx m))
  then on_ctx (λ c, set_Destination (mkSocksaddr AddrZero (sa_Port (Destination c)) (Domain c)) c) m
  else m.

(** [metadata.SnifferNames = ...; metadata.SniffError = err], after a sniffer
    ran on [m] and left [sm']. *)
Definition noteSniff (a : RuleActionSniff) (err : option goerr) (sm' : SniffMetadata) (m : RouteMetadata) : RouteMetadata :=
  on_rm (λ _, set_sniffed (SnifferNames a) err sm') m.

(** The stream half of [actionSniff]. *)
Definition actionSniffStream (a : RuleActionSniff) (events : list readEvent) (s : matchState) : result matchState :=
  let m := ms_meta s in
  if negb (nonempty (StreamSniffers a)) && nonempty (PacketSniffers a) then Ok s
  else if failedBefore a (rm m) then Ok s
  else
    let '((r, sm'), (buffer, rest)) := PeekStream (rm m) (ms_buffers s) (streamSniffers a) events in
    match r with
    | Panic p => Panic p
    | _ =>
        let m := noteSniff a (error_of r) sm' m in
        let m := if is_ok r then overrideDestination a m else m in
        Ok (mkMatch m (StreamInput rest) (ms_buffers s ++ if nonempty buffer then [buffer] else []) (ms_packets s))
    end.

(** One packet: the metadata and the error it leaves. *)
Definition sniffPacket (a : RuleActionSniff) (data : list byte) (m : RouteMetadata)
    : result (RouteMetadata * option goerr) :=
  let '(r, sm') := PeekPacket (rm m) data (if quicMoreData a (rm m) then [QUICClientHello] else packetSniffers a) in
  match r with
  | Panic p => Panic p
  | _ => Ok (noteSniff a (error_of r) sm' m, error_of r)
  end.

Definition needsMore (err : option goerr) : bool :=
  match err with Some e => errors_Is e ErrNeedMoreData | None => false end.

(** [for _, packetBuffer := range inputPacketBuffers]: [inr] is [goto finally]. *)
Fixpoint sniffBuffered (a : RuleActionSniff) (packets : list packet) (m : RouteMetadata)
    : result (RouteMetadata + (RouteMetadata * option goerr)) :=
  match packets with
  | [] => Ok (inl m)
  | p :: packets =>
      '(m, err) ← sniffPacket a (pk_data p) m;
      if needsMore err then sniffBuffered a packets m else Ok (inr (m, err))
  end.

(** The reading loop: metadata, packets read, what is left, the error of
    [finally] and the fatal one. *)
Fixpoint sniffReading (a : RuleActionSniff) (events : list packetEvent) (read : list packet) (m : RouteMetadata)
    : result (RouteMetadata * list packet * list packetEvent * option goerr * option goerr) :=
  match events with
  | [] => Ok (m, read, [], Some (ErrExternal "i/o timeout"), None)
  | ContextDone e :: rest => Ok (m, read, rest, None, Some e)
  | PacketTimeout :: rest => Ok (m, read, rest, Some (ErrExternal "i/o timeout"), None)
  | PacketFails e :: rest => Ok (m, read, rest, None, Some e)
  | PacketGot p :: rest =>
      '(m, err) ← sniffPacket a (pk_data p) m;
      if needsMore err then sniffReading a rest (read ++ [p]) m else Ok (m, read ++ [p], rest, err, None)
  end.

Definition finally (a : RuleActionSniff) (err : option goerr) (m : RouteMetadata) : RouteMetadata :=
  match err with None => overrideDestination a m | Some _ => m end.

(** The packet half of [actionSniff], with the fatal error. *)
Definition actionSniffPacket (a : RuleActionSniff) (events : list packetEvent) (s : matchState)
    : result (matchState * option goerr) :=
  let m := ms_meta s in
  if negb (nonempty (PacketSniffers a)) && nonempty (StreamSniffers a) then Ok (s, None)
  else if failedBefore a (rm m) then Ok (s, None)
  else
    buffered ← sniffBuffered a (ms_packets s) m;
    match buffered with
    | inr (m, err) => Ok (with_meta (finally a err m) s, None)
    | inl m =>
        '(m, read, rest, err, fatalErr) ← sniffReading a events [] m;
        let m := match fatalErr with None => finally a err m | Some _ => m end in
        Ok (mkMatch m (PacketInput rest) (ms_buffers s) (ms_packets s ++ read), fatalErr)
    end.

Definition actionSniff (a : RuleActionSniff) (s : matchState) : result (matchState * option goerr) :=
  let m := ms_meta s in
  if Skip (rm m) then Ok (s, None)
  else if negb (String.eqb (Protocol (ctx m)) "") then Ok (s, None)
  else match ms_input s with
  | StreamInput events => s ← actionSniffStream a events s; Ok (s, None)
  | PacketInput events => actionSniffPacket a events s
  end.

(** ** Resolving *)

Definition actionResolve (a : RuleActionResolve) (m : RouteMetadata) : result RouteMetadata :=
  if Socksaddr_IsDomain E (Destination (ctx m)) then
    if negb (String.eqb (rs_Server a) "") && negb (dnsTransport E (rs_Server a))
    then Err (ErrNew (String.append "DNS server not found: " (rs_Server a)))
    else
      addresses ← dnsLookup E (ctx m) (sa_Fqdn (Destination (ctx m))) a;
      Ok (on_ctx (set_DestinationAddresses addresses) m)
  else Ok m.

(** ** matchRule *)

(** The second [switch] of [matchRule]: sniff and resolve. *)
Definition runAction (a : option RuleAction) (s : matchState) : result (matchState * option goerr) :=
  match a with
  | Some (RuleActionSniff_ sniff) => actionSniff sniff s
  | Some (RuleActionResolve_ resolve) =>
      match actionResolve resolve (ms_meta s) with
      | Ok m => Ok (with_meta m s, None)
      | Err e => Ok (s, Some e)
      | Panic p => Panic p
      end
  | _ => Ok (s, None)
  end.

(** Whether [matchRule] stops at a rule with action [a]. *)
Definition finalAction (a : RuleAction) : bool :=
  let actionType := RuleAction_Type a in
  if String.eqb actionType "route" || String.eqb actionType "reject" || String.eqb actionType "hijack-dns" then true
  else match a with
  | RuleActionBypass outbound _ => negb (String.eqb outbound "")
  | _ => false
  end.

(** The selected rule with its index, the state, the fatal error. *)
Definition matchResult : Type := option (nat * Rule) * matchState * option goerr.

Fixpoint matchRule_loop (i : nat) (rules : list Rule) (s : matchState) : result matchResult :=
  match rules with
  | [] => Ok (None, s, None)
  | rule :: rules =>
      let '(matched, c) := Match (env_rt E false) rule (ResetRuleCache (ctx (ms_meta s))) in
      let s := with_meta (on_ctx (λ _, c) (ms_meta s)) s in
      if negb matched then matchRule_loop (S i) rules s else
      let a := Rule_Action rule in
      let s := match routeOptionsOf a with
        | Some o => with_meta (applyRouteOptions o (ms_meta s)) s
        | None => s
        end in
      '(s, fatalErr) ← runAction a s;
      match fatalErr with
      | Some e => Ok (None, s, Some e)
      | None =>
          match a with
          | None => Panic "invalid memory address or nil pointer dereference"
          | Some a => if finalAction a then Ok (Some (i, rule), s, None) else matchRule_loop (S i) rules s
          end
      end
  end.

Definition matchRule (rules : list Rule) (m : RouteMetadata) (conn : input) : result matchResult :=
  match prepareMatchMetadata m with
  | Err e => Ok (None, mkMatch m conn [] [], Some e)
  | Panic p => Panic p
  | Ok m => matchRule_loop 0 rules (mkMatch m conn [] [])
  end.

(** ** Routing a connection *)

(** What becomes of a connection: handed to another inbound, refused with an
    error, rejected, answered by the DNS router, closed by a trace, or handed to
    the last outbound of a chain, behind a NAT for fake-IP packets. *)
Inductive routeOutcome : Type :=
| Injected (m : RouteMetadata)
| RouteFailed (e : goerr)
| Rejected (o : RejectOutcome)
| HijackedDNS (m : RouteMetadata) (conn : connection) (packets : list packet)
| Traced (m : RouteMetadata)
| Handled (chain : list AnOutbound) (m : RouteMetadata) (conn : connection) (nat : option (Socksaddr * Socksaddr)).

(** The detour checks at the head of [routeConnection] and
    [routePacketConnection]; [injectable] picks the interface asked for. *)
Definition routeDetour (injectable : bool * bool → bool) (kind : string) (m : RouteMetadata) : routeOutcome :=
  let detour := InboundDetour m in
  if String.eqb (LastInbound m) detour then RouteFailed (ErrNew (String.append "routing loop on detour: " detour))
  else match inbounds E detour with
  | None => RouteFailed (ErrNew (String.append "inbound detour not found: " detour))
  | Some i =>
      if injectable i then Injected (take_detour m)
      else RouteFailed (ErrNew (String.append "inbound detour is not " (String.append kind (String.append " injectable: " detour))))
  end.

Definition checkMagic (m : RouteMetadata) : option goerr :=
  let fqdn := sa_Fqdn (Destination (ctx m)) in
  if String.eqb fqdn (mux_Destination E)
  then Some (ErrNew "global multiplex is deprecated since sing-box v1.7.0, enable multiplex in Inbound fields instead.")
  else if String.eqb fqdn (vmess_MuxDestination E)
  then Some (ErrNew "global multiplex (v2ray legacy) not supported since sing-box v1.7.0.")
  else if String.eqb fqdn (uot_MagicAddress E) then Some (ErrNew "global UoT not supported since sing-box v1.7.0.")
  else if String.eqb fqdn (uot_LegacyMagicAddress E)
  then Some (ErrNew "global UoT (legacy) not supported since sing-box v1.7.0.")
  else None.

(** Writes the drop counter of the reject action of rule [i] back. *)
Definition set_action (a : RuleAction) (r : Rule) : Rule :=
  let default_ d := match d with mkDefaultRule x1 x2 x3 x4 x5 x6 x7 x8 x9 _ =>
    mkDefaultRule x1 x2 x3 x4 x5 x6 x7 x8 x9 (Some a) end in
  let logical l := mkLogicalRule (l_rules l) (l_mode l) (l_invert l) (Some a) in
  match r with
  | DefaultHeadlessRule d => DefaultHeadlessRule (default_ d)
  | LogicalHeadlessRule l => LogicalHeadlessRule (logical l)
  | DefaultRule d => DefaultRule (default_ d)
  | LogicalRule l => LogicalRule (logical l)
  | DefaultDNSRule d x y z => DefaultDNSRule (default_ d) x y z
  | LogicalDNSRule l x y z => LogicalDNSRule (logical l) x y z
  end.

Definition note_reject (i : nat) (r : RuleActionReject) (rules : list Rule) : list Rule :=
  alter (set_action (RuleActionReject_ r)) i rules.

(** The [switch] on the selected rule's action: an outcome, or the outbound
    ([None] is Go's [nil]). *)
Definition selectOutbound (kind : string) (rules : list Rule) (selected : option (nat * Rule)) (s : matchState)
    : result ((routeOutcome + option AnOutbound) * list Rule) :=
  let find outbound := match outbounds E outbound with
    | None => Ok (inl (RouteFailed (ErrNew (String.append "outbound not found: " outbound))), rules)
    | Some o => Ok (inr (Some o), rules)
    end in
  match selected with
  | None => Ok (inr (Some (outboundDefault E)), rules)
  | Some (i, rule) =>
      match Rule_Action rule with
      | Some (RuleActionRoute outbound _) => find outbound
      | Some (RuleActionBypass outbound _) => if String.eqb outbound "" then Ok (inr None, rules) else find outbound
      | Some (RuleActionReject_ r) =>
          if String.eqb (rj_Method r) "reply"
          then Ok (inl (RouteFailed (ErrNew (String.append "reject method `reply` is not supported for "
            (String.append kind " connections")))), rules)
          else '(o, r) ← RuleActionReject_Error now r; Ok (inl (Rejected o), note_reject i r rules)
      | Some RuleActionHijackDNS =>
          Ok (inl (HijackedDNS (ms_meta s) (replayStream (ms_input s) (ms_buffers s)) (ms_packets s)), rules)
      | _ => Ok (inr None, rules)
      end
  end.

(** From [resolveOutboundLx] on: what was read for sniffing is put before the
    connection, which is traced or handed over. *)
Definition handOver (network : string) (selected : option (nat * Rule)) (outbound : option AnOutbound) (s : matchState)
    : result routeOutcome :=
  match outbound with
  | None => Panic "invalid memory address or nil pointer dereference"
  | Some o =>
      match resolveOutboundLx (strings_ToUpper E) o network with
      | Err e => Ok (RouteFailed e)
      | Panic p => Panic p
      | Ok chain =>
          let m := set_route (Outbound_Tag o) (Outbound_Tag <$> chain) (ms_meta s) in
          if lxtrace_Routed E m (snd <$> selected) o then Ok (Traced m)
          else Ok (Handled chain m
            (if String.eqb network "udp" then replayPackets (ms_input s) (ms_packets s) else replayStream (ms_input s) (ms_buffers s))
            (if String.eqb network "udp" && FakeIP m then Some (OriginDestination m, Destination (ctx m)) else None))
      end
  end.

(** The common part of the two functions, after the checks each makes. *)
Definition routeMatched (network kind : string) (rules : list Rule) (m : RouteMetadata) (conn : input)
    : result (routeOutcome * list Rule) :=
  '(selected, s, fatalErr) ← matchRule rules m conn;
  match fatalErr with
  | Some e => Ok (RouteFailed e, rules)
  | None =>
      '(decided, rules) ← selectOutbound kind rules selected s;
      match decided with
      | inl outcome => Ok (outcome, rules)
      | inr outbound => outcome ← handOver network selected outbound s; Ok (outcome, rules)
      end
  end.

Definition isTunDNS (m : RouteMetadata) : bool :=
  String.eqb (InboundType m) "tun" && String.eqb (Protocol (ctx m)) "dns".

Definition routeConnection (rules : list Rule) (m : RouteMetadata) (conn : list readEvent)
    : result (routeOutcome * list Rule) :=
  if negb (String.eqb (InboundDetour m) "") then Ok (routeDetour fst "TCP" m, rules) else
  let m := on_ctx (set_Network "tcp") m in
  match checkMagic m with
  | Some e => Ok (RouteFailed e, rules)
  | None =>
      if isTunDNS m then Ok (HijackedDNS (searchProcessInfo m) (InboundConn (StreamInput conn)) [], rules)
      else routeMatched "tcp" "TCP" rules m (StreamInput conn)
  end.

Definition routePacketConnection (rules : list Rule) (m : RouteMetadata) (conn : list packetEvent)
    : result (routeOutcome * list Rule) :=
  if negb (String.eqb (InboundDetour m) "") then Ok (routeDetour snd "UDP" m, rules) else
  let m := on_ctx (set_Network "udp") m in
  if isTunDNS m then Ok (HijackedDNS (searchProcessInfo m) (InboundConn (PacketInput conn)) [], rules)
  else routeMatched "udp" "UDP" rules m (PacketInput conn).

(** ** PreMatch *)

(** [adapter.PreMatchResult], without the tracker; [None] is the zero value. *)
Record PreMatchResult : Type := mkPreMatch {
  pm_Action : PreMatchAction;
  pm_Outbound : option string;
  pm_Destination : option (Addr * Z);
  pm_UDPTimeout : Z
}.

Definition verdict (a : PreMatchAction) : PreMatchResult := mkPreMatch a None None 0.

(** [constant/timeout.go]. *)
Definition PortProtocols (port : Z) : string :=
  if port =? 53 then "dns" else if port =? 123 then "ntp" else if port =? 3478 then "stun"
  else if port =? 443 then "quic" else "".
Definition second : Z := 1000000000.
Definition ProtocolTimeouts (protocol : string) : Z :=
  if String.eqb protocol "dns" || String.eqb protocol "ntp" || String.eqb protocol "stun" then 10 * second
  else if String.eqb protocol "quic" || String.eqb protocol "dtls" then 30 * second else 0.

(** The idle timeout of a UDP flow. *)
Definition flowTimeout (m : RouteMetadata) : Z :=
  if String.eqb (Network (ctx m)) "udp" then
    if 0 <? md_UDPTimeout (dial m) then md_UDPTimeout (dial m)
    else
      let protocol := if String.eqb (Protocol (ctx m)) "" then PortProtocols (sa_Port (Destination (ctx m)))
        else Protocol (ctx m) in
      if negb (String.eqb protocol "") then ProtocolTimeouts protocol else 0
  else 0.

(** The resolved address for a fake destination, of the family of the packet. *)
Definition flowAddress (m : RouteMetadata) (packetDestination : Socksaddr) : option Addr :=
  head (filter (λ a, Addr_Is4 a = Socksaddr_IsIPv4 E packetDestination) (DestinationAddresses (ctx m))).

Definition preMatchFlow (m : RouteMetadata) (packetDestination : Socksaddr) (outboundTag : string) : PreMatchResult :=
  match (if String.eqb outboundTag "" then Some (outboundDefault E) else outbounds E outboundTag) with
  | None => verdict PreMatchContinue
  | Some outbound =>
      match resolveOutbound (strings_ToUpper E) outbound (Network (ctx m)) with
      | Ok chain =>
          match last chain with
          | Some (PlainOutbound tag _ (Some PreMatchFlow_)) =>
              let flowAction := PreMatchFlow_ (Network (ctx m)) (sa_Addr (Destination (ctx m))) in
              if negb (bool_decide (flowAction = PreMatchFlow)) then mkPreMatch flowAction (Some tag) None 0 else
              let timeout := flowTimeout m in
              if Socksaddr_IsDomain E (Destination (ctx m)) then
                if negb (FakeIP m) then verdict PreMatchContinue else
                match flowAddress m packetDestination with
                | None => verdict PreMatchReject
                | Some newDestination =>
                    if negb (Addr_IsValid newDestination) then verdict PreMatchReject else
                    let flowAction := PreMatchFlow_ (Network (ctx m)) newDestination in
                    if negb (bool_decide (flowAction = PreMatchFlow)) then mkPreMatch flowAction (Some tag) None 0
                    else mkPreMatch PreMatchFlow (Some tag) (Some (newDestination, sa_Port (Destination (ctx m)))) timeout
                end
              else if negb (bool_decide (Destination (ctx m) = packetDestination))
              then mkPreMatch PreMatchFlow (Some tag)
                (Some (sa_Addr (Destination (ctx m)), sa_Port (Destination (ctx m)))) timeout
              else mkPreMatch PreMatchFlow (Some tag) None timeout
          | _ => verdict PreMatchContinue
          end
      | _ => verdict PreMatchContinue
      end
  end.

(** [case *R.RuleActionSniff] of [PreMatch]: [inl] goes on with the next rule,
    [inr] returns. *)
Definition preMatchSniff (a : RuleActionSniff) (firstPacket : list byte) (m : RouteMetadata)
    : result (RouteMetadata + PreMatchResult) :=
  if String.eqb (Network (ctx m)) "icmp" then Ok (inl m)
  else if negb (String.eqb (Network (ctx m)) "udp") || negb (nonempty firstPacket) then Ok (inr (verdict PreMatchContinue))
  else if Skip (rm m) || negb (String.eqb (Protocol (ctx m)) "") then Ok (inl m)
  else if negb (nonempty (PacketSniffers a)) && nonempty (StreamSniffers a) then Ok (inl m)
  else if sniffedBefore (λ _, true) a (rm m) then Ok (inl m)
  else
    let '(r, sm') := PeekPacket (rm m) firstPacket (packetSniffers a) in
    match r with
    | Panic p => Panic p
    | _ =>
        let m := noteSniff a (error_of r) sm' m in
        match error_of r with
        | Some e => if errors_Is e ErrNeedMoreData then Ok (inr (verdict PreMatchContinue)) else Ok (inl m)
        | None => Ok (inl (overrideDestination a m))
        end
    end.

(** [case *R.RuleActionBypass] of [PreMatch]. *)
Definition preMatchBypass (outbound : string) (packetDestination : Socksaddr) (m : RouteMetadata) : PreMatchResult :=
  let changed := Socksaddr_IsDomain E (Destination (ctx m)) || negb (bool_decide (Destination (ctx m) = packetDestination)) in
  if String.eqb outbound "" then verdict (if changed then PreMatchContinue else PreMatchBypass)
  else
    let result := preMatchFlow m packetDestination outbound in
    if changed then result
    else if negb (bool_decide (pm_Action result = PreMatchFlow)) then verdict PreMatchBypass
    else mkPreMatch PreMatchBypass (pm_Outbound result) (pm_Destination result) (pm_UDPTimeout result).

(** [case *R.RuleActionReject] of [PreMatch]. *)
Definition preMatchReject (o : RejectOutcome) (m : RouteMetadata) : PreMatchResult :=
  match o with
  | RejectNil => verdict (if String.eqb (Network (ctx m)) "icmp" then PreMatchContinue else PreMatchReject)
  | RejectDrop => verdict PreMatchDrop
  | RejectReset => verdict PreMatchReject
  end.

Fixpoint PreMatch_loop (i : nat) (rules all : list Rule) (packetDestination : Socksaddr) (firstPacket : list byte)
    (m : RouteMetadata) : result (PreMatchResult * list Rule) :=
  match rules with
  | [] => Ok (preMatchFlow m packetDestination "", all)
  | rule :: rules =>
      let '(matched, c) := Match (env_rt E true) rule (ResetRuleCache (ctx m)) in
      let m := on_ctx (λ _, c) m in
      if negb matched then PreMatch_loop (S i) rules all packetDestination firstPacket m else
      match Rule_Action rule with
      | Some (RuleActionSniff_ a) =>
          next ← preMatchSniff a firstPacket m;
          match next with
          | inl m => PreMatch_loop (S i) rules all packetDestination firstPacket m
          | inr v => Ok (v, all)
          end
      | Some (RuleActionRouteOptions_ o) =>
          PreMatch_loop (S i) rules all packetDestination firstPacket (applyRouteOptionsOverride o m)
      | Some (RuleActionRoute outbound o) =>
          Ok (preMatchFlow (applyRouteOptionsOverride o m) packetDestination outbound, all)
      | Some (RuleActionBypass outbound o) =>
          Ok (preMatchBypass outbound packetDestination (applyRouteOptionsOverride o m), all)
      | Some (RuleActionReject_ r) =>
          '(o, r) ← RuleActionReject_Error now r; Ok (preMatchReject o m, note_reject i r all)
      | Some RuleActionHijackDNS =>
          Ok (verdict (if String.eqb (Network (ctx m)) "udp" then PreMatchHijackDNS else PreMatchContinue), all)
      | Some (RuleActionResolve_ a) =>
          match actionResolve a m with
          | Ok m => PreMatch_loop (S i) rules all packetDestination firstPacket m
          | Err _ => Ok (verdict PreMatchReject, all)
          | Panic p => Panic p
          end
      | _ => Ok (verdict PreMatchContinue, all)
      end
  end.

Definition PreMatch (rules : list Rule) (m : RouteMetadata) (firstPacket : list byte) : result (PreMatchResult * list Rule) :=
  match prepareMatchMetadata m with
  | Err _ => Ok (verdict PreMatchContinue, rules)
  | Panic p => Panic p
  | Ok m' => PreMatch_loop 0 rules rules (Destination (ctx m)) firstPacket m'
  end.
End router.
