(* ===== verification/RouterCache.v ===== *)
(** The switches rules keep in the metadata while they match are touched by no
    sniffer and by no action of a rule. *)

From S2P Require Import Prelude GoBytes GoSlices GoStrings Netip Metadata RuleItems RuleAction RuleMatch.
From S2P Require Import Sniff Ja3 Quic SniffTheorems Router.

(** ** Sniffing leaves the switches alone *)

Section sniff.
Context {EX : External} {SL : SniffLib} {QC : QuicCrypto}.

Definition leaves (x : result unit * SniffMetadata) (m : SniffMetadata) : Prop := cache (sm x.2) = cache (sm m).

Lemma sniffed_leaves {A} (r : result A) f m : (∀ a c, cache (f a c) = cache c) → leaves (sniffed r f m) m.
Proof. intros Hf. unfold leaves, sniffed. by destruct r; cbn. Qed.
Lemma protocol_leaves {A} name (r : result A) m : leaves (sniffed r (λ _, set_Protocol name) m) m.
Proof. apply sniffed_leaves. by intros _ []. Qed.
Lemma on_context_leaves f m : (∀ c, cache (f c) = cache c) → cache (sm (on_context f m)) = cache (sm m).
Proof. intros Hf. apply Hf. Qed.

Lemma sipApply_leaves m line : leaves (sipApply m line) m.
Proof. unfold sipApply, leaves. destruct (sipParseRequestLine line) as [host|]; [|done]. destruct m as [[]]. by destruct (String.eqb host ""). Qed.
Lemma DomainNameQuery_leaves m packet : leaves (DomainNameQuery m packet) m.
Proof. unfold DomainNameQuery, leaves. destruct (Msg_Unpack packet) as [msg| |]; try done. destruct m as [[]]. by case_match. Qed.
Lemma quicFinish_leaves m types fragments : leaves (quicFinish m types fragments) m.
Proof. unfold quicFinish, leaves. destruct m as [[]]. repeat case_match; simplify_eq; done. Qed.

Lemma packetSniffer_leaves now s m packet : leaves (packetSnifferOf now s m packet) m.
Proof.
  destruct s; cbn [packetSnifferOf].
  all: try apply protocol_leaves.
  - unfold QUICClientHello. destruct (_ ≫= _) as [[types fragments]| |]; try done. apply quicFinish_leaves.
  - apply DomainNameQuery_leaves.
  - unfold SIP. case_match; [done|]. case_match; [|done]. apply sipApply_leaves.
Qed.
Lemma streamSniffer_leaves now s m chunks : leaves (streamSnifferOf now s m chunks) m.
Proof.
  destruct s; cbn [streamSnifferOf].
  - unfold TLSClientHello, leaves. destruct (tls_ClientHello _) as [[]]; [|done]. by destruct m as [[]].
  - unfold HTTPHost, leaves. destruct (http_ReadRequest _); try done. by destruct m as [[]].
  - unfold StreamDomainNameQuery. destruct (need_more _) as [[length bs]| |]; try done. case_match; [done|].
    destruct (ReadFullFrom length bs) as [packet err]. destruct (streamDNS_prefix packet); try done. destruct err; [done|]. apply DomainNameQuery_leaves.
  - unfold BitTorrent. destruct (MultiReadFull 1 chunks). apply protocol_leaves.
  - unfold OpenVPNStream. destruct (Peek 3 (concat chunks)). apply protocol_leaves.
  - unfold SIPStream. destruct (Peek _ (concat chunks)). case_match; [done|]. case_match; [done|]. case_match; [|done]. case_match; try done. apply sipApply_leaves.
  - unfold SSH. destruct (Peek _ (concat chunks)). apply sniffed_leaves. by intros ? [].
  - apply protocol_leaves.
Qed.

Lemma PeekPacket_leaves m packet errs (sniffers : list packetSniffer) :
  Forall (λ s : packetSniffer, ∀ m packet, leaves (s m packet) m) sniffers → leaves (PeekPacket_loop m packet errs sniffers) m.
Proof.
  intros H. revert m errs. induction H as [|s sniffers Hs _ IH]; intros m errs; [done|]. cbn [PeekPacket_loop]. specialize (Hs m packet). unfold leaves in *.
  destruct (s m packet) as [[| |] m'] eqn:Hr; cbn in Hs |- *; [done| |done]. by rewrite IH.
Qed.
Lemma PeekStream_round_leaves m chunks err (sniffers : list streamSniffer) :
  Forall (λ s : streamSniffer, ∀ m chunks, leaves (s m chunks) m) sniffers → cache (sm (PeekStream_round m chunks err sniffers).2) = cache (sm m).
Proof.
  intros H. revert m err. induction H as [|s sniffers Hs _ IH]; intros m err; [done|]. cbn [PeekStream_round]. specialize (Hs m chunks). unfold leaves in *.
  destruct (s m chunks) as [[| |] m'] eqn:Hr; cbn in Hs |- *; [done| |done]. by rewrite IH.
Qed.
Lemma PeekStream_leaves first m buffers buffer err (sniffers : list streamSniffer) events :
  Forall (λ s : streamSniffer, ∀ m chunks, leaves (s m chunks) m) sniffers →
  leaves (PeekStream_loop first m buffers buffer err sniffers events).1 m.
Proof.
  intros H. unfold leaves. revert first m buffer err. induction events as [|e events IH]; intros first m buffer err; cbn [PeekStream_loop]; [by destruct first|].
  destruct e; [done|by destruct first|]. pose proof (PeekStream_round_leaves m (buffers ++ [buffer ++ data]) None sniffers H) as Hr.
  destruct (PeekStream_round _ _ _ _) as [[|[e|]|] m'] eqn:Hro; cbn in Hr |- *; try done. destruct (errors_Is e ErrNeedMoreData); [|done]. by rewrite IH.
Qed.
End sniff.

(** ** Actions leave the switches alone *)

Section actions.
Context {EX : External} {SL : SniffLib} {QC : QuicCrypto} (E : RouterEnv) (now : Z).

#[local] Abbreviation cache_of m := (cache (ctx m)).

Lemma packetSniffers_leave a : Forall (λ s : packetSniffer, ∀ m packet, leaves (s m packet) m) (packetSniffers now a).
Proof.
  unfold packetSniffers. destruct (nonempty (PacketSniffers a)).
  - apply Forall_fmap, Forall_true. intros s m packet. apply packetSniffer_leaves.
  - repeat constructor; intros m packet;
      match goal with |- leaves (?f m packet) m =>
        first [apply (packetSniffer_leaves now P_QUICClientHello)|apply (packetSniffer_leaves now P_DomainNameQuery)|apply (packetSniffer_leaves now P_SIP)
              |apply protocol_leaves] end.
Qed.
Lemma streamSniffers_leave a : Forall (λ s : streamSniffer, ∀ m chunks, leaves (s m chunks) m) (streamSniffers now a).
Proof.
  unfold streamSniffers. destruct (nonempty (StreamSniffers a)).
  - apply Forall_fmap, Forall_true. intros s m chunks. apply streamSniffer_leaves.
  - repeat constructor; intros m chunks.
    all: [> apply (streamSniffer_leaves now S_TLSClientHello)|apply (streamSniffer_leaves now S_HTTPHost)|apply (streamSniffer_leaves now S_StreamDomainNameQuery)
         |apply (streamSniffer_leaves now S_BitTorrent)|apply (streamSniffer_leaves now S_SSH)|apply (streamSniffer_leaves now S_RDP)
         |apply (streamSniffer_leaves now S_SIPStream)|apply (streamSniffer_leaves now S_OpenVPNStream)].
Qed.

Lemma ctx_on_ctx f m : ctx (on_ctx f m) = f (ctx m).
Proof. by destruct m. Qed.
Lemma on_ctx_cache f m : (∀ c, cache (f c) = cache c) → cache_of (on_ctx f m) = cache_of m.
Proof. intros Hf. rewrite ctx_on_ctx. apply Hf. Qed.
Lemma noteSniff_cache a err sm' m : cache (sm sm') = cache_of m → cache_of (noteSniff a err sm' m) = cache_of m.
Proof. by destruct m, sm'. Qed.
Lemma overrideDestination_cache a m : cache_of (overrideDestination E a m) = cache_of m.
Proof. unfold overrideDestination. case_match; [|done]. apply on_ctx_cache. by intros []. Qed.
Lemma finally_cache a err m : cache_of (finally E a err m) = cache_of m.
Proof. unfold finally. destruct err; [done|]. apply overrideDestination_cache. Qed.

Lemma sniffPacket_cache a data m m' err : sniffPacket now a data m = Ok (m', err) → cache_of m' = cache_of m.
Proof.
  unfold sniffPacket, PeekPacket. set (sniffers := if quicMoreData a (rm m) then _ else _).
  assert (Hs : Forall (λ s : packetSniffer, ∀ m packet, leaves (s m packet) m) sniffers).
  { unfold sniffers. case_match; [repeat constructor; intros; apply (packetSniffer_leaves now P_QUICClientHello)|apply packetSniffers_leave]. }
  pose proof (PeekPacket_leaves (rm m) data [] sniffers Hs) as Hl. destruct (PeekPacket_loop _ _ _ _) as [r sm'].
  destruct r; intros [= <- _]; by apply noteSniff_cache.
Qed.
Lemma sniffBuffered_cache a packets m x :
  sniffBuffered now a packets m = Ok x → match x with inl m' | inr (m', _) => cache_of m' = cache_of m end.
Proof.
  revert m. induction packets as [|p packets IH]; intros m; cbn [sniffBuffered]; [by intros [= <-]|].
  intros ([m1 err] & H1 & H2)%bind_Ok. apply sniffPacket_cache in H1. destruct (needsMore err); [|by injection H2 as <-].
  apply IH in H2. destruct x as [?|[? ?]]; by rewrite H2.
Qed.
Lemma sniffReading_cache a events read m m' read' rest err fatal :
  sniffReading now a events read m = Ok (m', read', rest, err, fatal) → cache_of m' = cache_of m.
Proof.
  revert read m. induction events as [|e events IH]; intros read m; cbn [sniffReading]; [by intros [= <- _ _ _ _]|].
  destruct e; try by intros [= <- _ _ _ _]. intros ([m1 err'] & H1 & H2)%bind_Ok. apply sniffPacket_cache in H1.
  destruct (needsMore err'); [|by injection H2 as <- _ _ _ _]. apply IH in H2. by rewrite H2.
Qed.

(** No action of a rule touches the switches. *)
Lemma runAction_cache a s s' fatal : runAction E now a s = Ok (s', fatal) → cache_of (ms_meta s') = cache_of (ms_meta s).
Proof.
  unfold runAction. destruct a as [[]|]; try by intros [= <- _].
  - match goal with |- context [actionSniff _ _ ?x _] => rename x into sniff end. unfold actionSniff. case_match; [by intros [= <- _]|]. case_match; [by intros [= <- _]|]. destruct (ms_input s) as [events|events].
    + intros (s1 & Hs & [= <- _])%bind_Ok. unfold actionSniffStream in Hs. case_match; [by injection Hs as <-|]. case_match; [by injection Hs as <-|].
      unfold PeekStream in Hs. match type of Hs with context [PeekStream_loop true ?m ?b [] None ?f ?ev] =>
        pose proof (PeekStream_leaves true m b [] None f ev (streamSniffers_leave _)) as Hl; destruct (PeekStream_loop true m b [] None f ev) as [[r sm'] [buffer rest]] end.
      assert (Hn : ∀ e, cache_of (noteSniff sniff e sm' (ms_meta s)) = cache_of (ms_meta s)) by (intros e; by apply noteSniff_cache).
      destruct r; [| |done]; injection Hs as <-; cbn; rewrite ?overrideDestination_cache; apply Hn.
    + unfold actionSniffPacket. case_match; [by intros [= <- _]|]. case_match; [by intros [= <- _]|].
      intros (x & Hx & Hrest)%bind_Ok. apply sniffBuffered_cache in Hx. destruct x as [m1|[m1 err]].
      * apply bind_Ok in Hrest as ([[[[m2 read] rest] err] fatal'] & Hr & [= <- _]). apply sniffReading_cache in Hr. cbn.
        destruct fatal'; rewrite ?finally_cache; congruence.
      * injection Hrest as <- _. cbn. by rewrite finally_cache.
  - match goal with |- context [actionResolve _ ?x _] => rename x into resolve end. destruct (actionResolve E resolve (ms_meta s)) as [m| |] eqn:Hr; intros [= <- _]; [|done]. cbn. unfold actionResolve in Hr.
    case_match; [|by injection Hr as <-]. case_match; [done|]. invert_ok. apply on_ctx_cache. by intros [].
Qed.
Lemma applyRouteOptions_cache o m : cache_of (applyRouteOptions o m) = cache_of m.
Proof.
  unfold applyRouteOptions, applyRouteOptionsOverride. destruct m as [[[]]]. repeat case_match; done.
Qed.

Lemma prepareMatchMetadata_cache m m' : prepareMatchMetadata E m = Ok m' → cache_of m' = cache_of m.
Proof.
  assert (Hs : ∀ m, cache_of (searchProcessInfo E m) = cache_of m).
  { intros [[[]]]. unfold searchProcessInfo. repeat case_match; done. }
  assert (Hn : ∀ m, cache_of (lookupNeighbor E m) = cache_of m).
  { intros [[[]]]. unfold lookupNeighbor. repeat case_match; done. }
  assert (Hr : ∀ m, cache_of (reverseMapping E m) = cache_of m).
  { intros [[[]]]. unfold reverseMapping. repeat case_match; done. }
  unfold prepareMatchMetadata. intros (m1 & Hf & [= <-])%bind_Ok. transitivity (cache_of m1).
  { repeat case_match; by rewrite ?on_ctx_cache by (by intros []). }
  rewrite <- (Hs m), <- (Hn (searchProcessInfo E m)). unfold lookupFakeIP in Hf. repeat case_match; simplify_eq; rewrite ?Hr, ?on_ctx_cache by (by intros []); try done.
  by destruct (lookupNeighbor E (searchProcessInfo E m)) as [[[]]].
Qed.
End actions.
