(* ===== verification/RouterTheorems.v ===== *)
(** Theorems about the router: routing never panics, sniffing keeps every byte,
    the first rule that matches decides, and what [PreMatch] answers agrees with
    what routing does. *)

From S2P Require Import Prelude GoBytes GoSlices GoStrings Netip Metadata RuleItems RuleAction RuleMatch.
From S2P Require Import RuleSemantics RuleRefine Concrete RuleTheorems Sniff Ja3 Quic SniffTheorems StreamSafety Router RouterCache.

(** [r] does not panic, and its value satisfies [P]. *)
Definition returns {A} (P : A → Prop) (r : result A) : Prop :=
  match r with Ok a => P a | Err _ => True | Panic _ => False end.

Lemma returns_bind {A B} (P : A → Prop) (Q : B → Prop) (r : result A) (f : A → result B) :
  returns P r → (∀ a, P a → returns Q (f a)) → returns Q (r ≫= f).
Proof. destruct r; cbn; auto. Qed.

Lemma returns_safe {A} (P : A → Prop) (r : result A) : returns P r → safe r.
Proof. by destruct r. Qed.

(** What the router relies on of the DNS router: a lookup returns. *)
Class RouterLaws {EX : External} (E : RouterEnv) : Prop := {
  dnsLookup_safe : ∀ m fqdn a, safe (dnsLookup E m fqdn a)
}.

(** An action a route rule can carry; [reject] with one of its methods. *)
Definition route_action (a : RuleAction) : bool :=
  match a with
  | RuleActionRoute _ _ | RuleActionBypass _ _ | RuleActionRouteOptions_ _ | RuleActionHijackDNS
  | RuleActionSniff_ _ | RuleActionResolve_ _ => true
  | RuleActionReject_ r => containsb (rj_Method r) ["default"; "drop"; "reply"]%string
  | _ => false
  end.

Definition has_route_action {EX : External} (r : Rule) : bool :=
  match Rule_Action r with Some a => route_action a | None => false end.

Section safety.
Context {EX : External} {SL : SniffLib} {LL : SniffLaws SL} {QC : QuicCrypto} {QL : QuicCryptoLaws QC}.
Context (E : RouterEnv) {EL : RouterLaws E} (now : Z).

(** What the QUIC sniffer keeps is well formed. *)
Definition meta_ok (m : RouteMetadata) : Prop := quic_state_ok (rm m).
Definition state_ok (s : matchState) : Prop := meta_ok (ms_meta s).

(** Assignments that leave the sniffing state alone. *)
Lemma on_ctx_ok f m : meta_ok m → meta_ok (on_ctx f m).
Proof. by destruct m. Qed.
Lemma overrideDestination_ok a m : meta_ok m → meta_ok (overrideDestination E a m).
Proof. unfold overrideDestination. case_match; [apply on_ctx_ok|done]. Qed.
Lemma noteSniff_ok a err sm' m : quic_state_ok sm' → meta_ok (noteSniff a err sm' m).
Proof. by destruct m. Qed.

Lemma applyRouteOptionsOverride_ok o m : meta_ok m → meta_ok (applyRouteOptionsOverride o m).
Proof. intros H. unfold applyRouteOptionsOverride. cbv zeta. repeat case_match; by destruct m. Qed.

Lemma applyRouteOptions_ok o m : meta_ok m → meta_ok (applyRouteOptions o m).
Proof.
  intros H. unfold applyRouteOptions. cbv zeta.
  assert (∀ m d, meta_ok m → meta_ok (on_dial d m)) as Hd by by intros [].
  apply Hd, applyRouteOptionsOverride_ok. repeat case_match; by destruct m.
Qed.

(** ** Sniffing *)

Lemma streamSniffers_robust a : Forall stream_robust (streamSniffers now a).
Proof.
  unfold streamSniffers. case_match.
  - apply Forall_fmap, Forall_true. intros []; cbn; [apply TLSClientHello_robust|apply HTTPHost_robust|
      apply StreamDomainNameQuery_robust|apply BitTorrent_robust|apply OpenVPNStream_robust|apply SIPStream_robust|
      apply SSH_robust|apply RDP_robust].
  - unfold defaultStreamSniffers. repeat (apply Forall_cons; split); [apply TLSClientHello_robust|apply HTTPHost_robust|
      apply StreamDomainNameQuery_robust|apply BitTorrent_robust|apply SSH_robust|apply RDP_robust|apply SIPStream_robust|
      apply OpenVPNStream_robust|constructor].
Qed.

Lemma packetSnifferOf_robust s : robust (packetSnifferOf now s).
Proof.
  destruct s; cbn; [apply QUIC_robust|apply DomainNameQuery_robust|apply STUNMessage_robust|apply UTP_robust|
    apply UDPTracker_robust|apply DTLSRecord_robust|apply WireGuard_robust|apply OpenVPN_robust|apply IKE_robust|
    apply TailscaleDisco_robust|apply SIP_robust|apply NTP_robust].
Qed.

Lemma packetSniffers_robust a : Forall robust (packetSniffers now a).
Proof.
  unfold packetSniffers. case_match; [apply Forall_fmap, Forall_true, packetSnifferOf_robust|].
  change (defaultPacketSniffers now) with (packetSnifferOf now <$> [P_DomainNameQuery; P_QUICClientHello; P_STUNMessage;
    P_WireGuard; P_OpenVPN; P_IKE; P_TailscaleDisco; P_SIP; P_UTP; P_UDPTracker; P_DTLSRecord; P_NTP]).
  apply Forall_fmap, Forall_true, packetSnifferOf_robust.
Qed.

Lemma actionSniffStream_returns a events s : state_ok s → returns state_ok (actionSniffStream E now a events s).
Proof.
  intros Hs. unfold actionSniffStream. cbv zeta. destruct (_ && _); [done|]. destruct (failedBefore _ _); [done|].
  pose proof (PeekStream_loop_robust true (rm (ms_meta s)) (ms_buffers s) [] None (streamSniffers now a) events
    (streamSniffers_robust a)) as [H1 H2]. fold (PeekStream (rm (ms_meta s)) (ms_buffers s) (streamSniffers now a) events) in *.
  destruct (PeekStream _ _ _ _) as [[r sm'] [buffer rest]]. cbn [fst snd] in *.
  assert (quic_state_ok sm') by (unfold state_ok, meta_ok, quic_state_ok in *; by rewrite H2).
  destruct r as [u|e|p]; [|by apply noteSniff_ok|done]. by apply overrideDestination_ok, noteSniff_ok.
Qed.

Lemma sniffPacket_returns a data m : meta_ok m → returns (λ x, meta_ok (fst x)) (sniffPacket now a data m).
Proof.
  intros Hm. unfold sniffPacket. assert (Hr : Forall robust (if quicMoreData a (rm m) then [QUICClientHello] else packetSniffers now a)).
  { case_match; [constructor; [apply QUIC_robust|constructor]|apply packetSniffers_robust]. }
  destruct (PeekPacket_robust (rm m) data [] _ Hr Hm) as [H1 H2]. unfold PeekPacket.
  destruct (PeekPacket_loop _ _ _ _) as [r sm']. cbn [fst snd] in *.
  destruct r; [by apply noteSniff_ok|by apply noteSniff_ok|done].
Qed.

Lemma sniffBuffered_returns a packets m : meta_ok m →
  returns (λ x, match x with inl m => meta_ok m | inr (m, _) => meta_ok m end) (sniffBuffered now a packets m).
Proof.
  revert m. induction packets as [|p packets IH]; intros m Hm; cbn [sniffBuffered]; [done|].
  eapply returns_bind; [by apply sniffPacket_returns|]. intros [m' err] Hm'. case_match; [by apply IH|done].
Qed.

Lemma sniffReading_returns a events read m : meta_ok m →
  returns (λ x, let '(m, _, _, _, _) := x in meta_ok m) (sniffReading now a events read m).
Proof.
  revert read m. induction events as [|[p| |e|e] events IH]; intros read m Hm; cbn [sniffReading]; [done| |done..].
  eapply returns_bind; [by apply sniffPacket_returns|]. intros [m' err] Hm'. case_match; [by apply IH|done].
Qed.

Lemma finally_ok a err m : meta_ok m → meta_ok (finally E a err m).
Proof. destruct err; [done|]. apply overrideDestination_ok. Qed.

Lemma actionSniffPacket_returns a events s : state_ok s →
  returns (λ x, state_ok (fst x)) (actionSniffPacket E now a events s).
Proof.
  intros Hs. unfold actionSniffPacket. cbv zeta. destruct (_ && _); [done|]. destruct (failedBefore _ _); [done|].
  eapply returns_bind; [by apply sniffBuffered_returns|]. intros [m|[m err]] Hm; [|by apply finally_ok].
  eapply returns_bind; [by apply sniffReading_returns|]. intros [[[[m' read] rest] err] fatal] Hm'. cbn.
  destruct fatal; [done|by apply finally_ok].
Qed.

Lemma actionSniff_returns a s : state_ok s → returns (λ x, state_ok (fst x)) (actionSniff E now a s).
Proof.
  intros Hs. unfold actionSniff. cbv zeta. destruct (Skip _); [done|]. destruct (negb _); [done|].
  destruct (ms_input s); [|by apply actionSniffPacket_returns].
  eapply returns_bind; [by apply actionSniffStream_returns|done].
Qed.

Lemma actionResolve_returns a m : meta_ok m → returns meta_ok (actionResolve E a m).
Proof.
  intros Hm. unfold actionResolve. destruct (Socksaddr_IsDomain E _); [|done]. destruct (_ && _); [done|].
  pose proof (dnsLookup_safe (E := E) (ctx m) (sa_Fqdn (Destination (ctx m))) a) as Hs.
  destruct (dnsLookup E (ctx m) _ a); [|done..]. by apply on_ctx_ok.
Qed.

Lemma runAction_returns a s : state_ok s → returns (λ x, state_ok (fst x)) (runAction E now a s).
Proof.
  intros Hs. destruct a as [[]|]; try done; cbn [runAction].
  - by apply actionSniff_returns.
  - pose proof (actionResolve_returns r (ms_meta s) Hs) as Hr. by destruct (actionResolve E r (ms_meta s)).
Qed.

(** ** Matching and routing *)

(** A selected rule is one of the rules and its action is final. *)
Definition selection_ok (rules : list Rule) (selected : option (nat * Rule)) : Prop :=
  match selected with
  | None => True
  | Some (_, r) => r ∈ rules ∧ ∃ a, Rule_Action r = Some a ∧ finalAction a = true
  end.

Lemma matchRule_loop_returns i rules s :
  Forall (λ r, has_route_action r = true) rules → state_ok s →
  returns (λ x, let '(selected, s', _) := x in state_ok s' ∧ selection_ok rules selected) (matchRule_loop E now i rules s).
Proof.
  intros Hr. revert i s. induction Hr as [|r rules Hr _ IH]; intros i s Hs; cbn [matchRule_loop]; [done|].
  assert (Hmore : ∀ selected, selection_ok rules selected → selection_ok (r :: rules) selected).
  { intros [[j r']|]; [|done]. intros [H1 H2]. split; [by right|done]. }
  assert (IH' : ∀ i s, state_ok s → returns (λ x, let '(selected, s', _) := x in state_ok s' ∧
    selection_ok (r :: rules) selected) (matchRule_loop E now i rules s)).
  { intros j s1 Hs1. specialize (IH j s1 Hs1). destruct (matchRule_loop E now j rules s1) as [[[sel s2] e]| |]; [|done..].
    destruct IH as [H1 H2]. split; [done|by apply Hmore]. }
  destruct (Match _ r _) as [matched c]. set (s1 := with_meta _ s). assert (Hs1 : state_ok s1) by by apply on_ctx_ok.
  destruct matched; cbn [negb]; [|by apply IH'].
  unfold has_route_action in Hr. destruct (Rule_Action r) as [a|] eqn:Ha; [|done]. cbv zeta.
  eapply returns_bind; [apply runAction_returns|].
  { destruct (routeOptionsOf (Some a)); [by apply applyRouteOptions_ok|done]. }
  intros [s2 err] Hs2. cbn [fst] in Hs2. destruct err as [e|]; [done|]. destruct (finalAction a) eqn:Hf; [|by apply IH'].
  split; [done|]. split; [by left|]. by exists a.
Qed.

Lemma reverseMapping_ok m : meta_ok m → meta_ok (reverseMapping E m).
Proof. unfold reverseMapping. repeat case_match; try done; apply on_ctx_ok. Qed.

Lemma searchProcessInfo_ok m : meta_ok m → meta_ok (searchProcessInfo E m).
Proof. unfold searchProcessInfo. cbv zeta. repeat case_match; try done; apply on_ctx_ok. Qed.

Lemma lookupNeighbor_ok m : meta_ok m → meta_ok (lookupNeighbor E m).
Proof. unfold lookupNeighbor. cbv zeta. intros H. repeat case_match; auto using on_ctx_ok. Qed.

Lemma lookupFakeIP_returns m : meta_ok m → returns meta_ok (lookupFakeIP E m).
Proof.
  intros Hm. unfold lookupFakeIP. cbv zeta. assert (∀ v, meta_ok (set_FakeIP v m)) by by destruct m.
  repeat case_match; cbn; auto using on_ctx_ok, reverseMapping_ok.
Qed.

Lemma prepareMatchMetadata_returns m : meta_ok m → returns meta_ok (prepareMatchMetadata E m).
Proof.
  intros Hm. unfold prepareMatchMetadata. eapply returns_bind.
  - by apply lookupFakeIP_returns, lookupNeighbor_ok, searchProcessInfo_ok.
  - intros m' Hm'. cbn. repeat case_match; auto using on_ctx_ok.
Qed.

Lemma matchRule_returns rules m conn :
  Forall (λ r, has_route_action r = true) rules → meta_ok m →
  returns (λ x, let '(selected, s', _) := x in state_ok s' ∧ selection_ok rules selected) (matchRule E now rules m conn).
Proof.
  intros Hr Hm. unfold matchRule. pose proof (prepareMatchMetadata_returns m Hm) as Hp.
  destruct (prepareMatchMetadata E m) as [m'|e|p]; [|done..]. by apply matchRule_loop_returns.
Qed.

Lemma set_action_action a r : Rule_Action (set_action a r) = Some a.
Proof. by destruct r as [[]|[]|[]|[]|[]|[]]. Qed.

Lemma note_reject_ok i x rules :
  route_action (RuleActionReject_ x) = true → Forall (λ r, has_route_action r = true) rules →
  Forall (λ r, has_route_action r = true) (note_reject i x rules).
Proof.
  intros Hx Hr. apply Forall_alter; [done|]. intros r _ _. unfold has_route_action. by rewrite set_action_action.
Qed.

Lemma Reject_Error_returns r :
  route_action (RuleActionReject_ r) = true →
  returns (λ x, route_action (RuleActionReject_ (snd x)) = true) (RuleActionReject_Error now r).
Proof.
  cbn [route_action]. intros H%containsb_spec. unfold RuleActionReject_Error.
  rewrite !elem_of_cons in H. destruct H as [H|[H|[H|H]]]; [| | |by apply elem_of_nil in H];
    rewrite H; cbn -[containsb]; [destruct (rj_NoDrop r)|..]; cbn -[containsb]; by rewrite ?H.
Qed.

Lemma selectOutbound_returns kind rules selected s :
  Forall (λ r, has_route_action r = true) rules → selection_ok rules selected →
  returns (λ x, fst x ≠ inr None ∧ Forall (λ r, has_route_action r = true) (snd x)) (selectOutbound E now kind rules selected s).
Proof.
  intros Hr Hs. unfold selectOutbound. cbv zeta. destruct selected as [[i rule]|]; [|done].
  destruct Hs as (Hin & a & Ha & Hf). rewrite Forall_forall in Hr. pose proof (Hr rule Hin) as Hra.
  unfold has_route_action in Hra. rewrite Ha in *. rewrite <- Forall_forall in Hr.
  destruct a; try done; cbn in Hf.
  - by destruct (outbounds E outbound).
  - destruct (String.eqb outbound ""); [done|]. by destruct (outbounds E outbound).
  - destruct (String.eqb (rj_Method r) "reply"); [done|].
    eapply returns_bind; [by apply Reject_Error_returns|]. intros [o r'] Hr'. split; [done|]. by apply note_reject_ok.
Qed.

Lemma resolveOutbound_safe up o network : safe (resolveOutbound up o network).
Proof.
  induction o as [tag networks flow|tag networks per selected IH] using AnOutbound_ind'; cbn.
  - by case_match.
  - destruct (selected network) as [next|] eqn:Hn; [|done]. apply safe_bind; [by eapply IH|done].
Qed.

Lemma routeMatched_returns network kind rules m conn :
  Forall (λ r, has_route_action r = true) rules → meta_ok m →
  returns (λ x, Forall (λ r, has_route_action r = true) (snd x)) (routeMatched E now network kind rules m conn).
Proof.
  intros Hr Hm. unfold routeMatched. eapply returns_bind; [by apply matchRule_returns|].
  intros [[selected s] fatal] [Hs Hsel]. destruct fatal; [done|].
  eapply returns_bind; [by apply selectOutbound_returns|]. intros [[outcome|[o|]] rules'] [Hne Hr']; [done| |done].
  eapply (returns_bind (λ _, True)); [|done]. unfold handOver, resolveOutboundLx.
  pose proof (resolveOutbound_safe (strings_ToUpper E) o network) as Hsafe.
  destruct (resolveOutbound _ o network); cbn; [by case_match|done..].
Qed.
End safety.

(** C28: routing never panics: with rules that carry route actions, no stream and
    no packet makes [routeConnection] or [routePacketConnection] panic, whatever
    is sniffed; in particular a selected rule always yields an outbound, never
    Go's [nil]; and the rules keep carrying route actions. *)
Theorem routing_never_panics (EX : External) (SL : SniffLib) (LL : SniffLaws SL) (QC : QuicCrypto)
    (QL : QuicCryptoLaws QC) (E : RouterEnv) (EL : RouterLaws E) (now : Z) (rules : list Rule) (m : RouteMetadata)
    (stream : list readEvent) (packets : list packetEvent)
    (Hactions : Forall (λ r, has_route_action r = true) rules) (Hstate : quic_state_ok (rm m)) :
  returns (λ x, Forall (λ r, has_route_action r = true) (snd x)) (routeConnection E now rules m stream) ∧
  returns (λ x, Forall (λ r, has_route_action r = true) (snd x)) (routePacketConnection E now rules m packets).
Proof.
  unfold routeConnection, routePacketConnection. cbv zeta.
  split; (destruct (negb _); [done|]).
  - destruct (checkMagic E _); [done|]. destruct (isTunDNS _); [done|]. by apply routeMatched_returns, on_ctx_ok.
  - destruct (isTunDNS _); [done|]. by apply routeMatched_returns, on_ctx_ok.
Qed.

(** ** Witness data *)

(** Two outbounds; every address in 10.0.0.0/8 is a fake one for example.org. *)
Definition demo_env : @RouterEnv demo :=
  @mkRouterEnv demo (λ s, s) (λ s, negb (String.eqb s ""))
    (λ a, negb (Addr_IsValid (sa_Addr a)) && negb (String.eqb (sa_Fqdn a) "")) (λ a, Addr_Is4 (sa_Addr a))
    (λ _, demo_rt) (λ _, false) None None
    (Some (Prefix_Contains net10, λ _, Some "example.org"%string)) (λ _, None) (λ _, true)
    (λ _ fqdn _, if String.eqb fqdn "example.org" then Ok [addr_1_1_1_1] else Err (ErrExternal "no such host"))
    (λ _, None)
    (λ tag, if String.eqb tag "proxy" then Some (PlainOutbound "proxy" ["tcp"; "udp"]%string (Some (λ _ _, PreMatchFlow))) else None)
    (PlainOutbound "direct" ["tcp"; "udp"]%string None)
    "sp.mux.sing-box.arpa" "v1.mux.cool" "sp.v2.udp-over-tcp.arpa" "sp.udp-over-tcp.arpa" (λ _ _ _, false).

Lemma demo_env_laws : RouterLaws demo_env.
Proof. split. intros m fqdn a. cbn. by case_match. Qed.

Definition no_options : RuleActionRouteOptions :=
  mkRouteOptions (mkSocksaddr AddrZero 0 "") 0 None [] [] 0 false false 0 false 0 false "" MethodWrongSequence.

(** A rule that matches everything, and one for a domain. *)
Definition any_rule (a : RuleAction) : @Rule demo := DefaultRule (mkDefaultRule [] [] [] [] [] [] [] None false (Some a)).
Definition domain_rule (a : RuleAction) : @Rule demo :=
  DefaultRule (mkDefaultRule [] [] [] [domain_item] [] [] [ItemRef domain_item] None false (Some a)).

Definition demo_dial : DialOptions := mkDialOptions None [] [] 0 false false 0 false 0 false "" MethodWrongSequence.

Definition demo_route (destination : Socksaddr) : RouteMetadata :=
  mkRoute (mkSniffMetadata (set_DestinationAddresses [] (set_Destination destination (demo_context ""))) None [] None)
    "mixed" "" "" (mkSocksaddr AddrZero 0 "") (mkSocksaddr AddrZero 0 "") false demo_dial "" [].

Definition sniff_all : RuleAction := RuleActionSniff_ (mkSniff [] [] [] 0 false).

(** Sniff, then route example.org to the proxy. *)
Definition demo_route_rules : list (@Rule demo) := [any_rule sniff_all; domain_rule (RuleActionRoute "proxy" no_options)].

Lemma routing_never_panics_witness :
  Forall (λ r, has_route_action r = true) demo_route_rules ∧
  returns (λ x, Forall (λ r, has_route_action r = true) (snd x))
    (@routeConnection demo demo_lib plain_crypto demo_env 0 demo_route_rules
      (demo_route (mkSocksaddr addr_1_1_1_1 5060 "")) (ReadGot <$> demo_sip)).
Proof.
  assert (H : Forall (λ r, has_route_action r = true) demo_route_rules) by (repeat constructor).
  split; [exact H|].
  exact (proj1 (routing_never_panics demo demo_lib demo_lib_laws plain_crypto plain_crypto_laws demo_env demo_env_laws 0
    demo_route_rules (demo_route (mkSocksaddr addr_1_1_1_1 5060 "")) (ReadGot <$> demo_sip) [] H I)).
Defined.

(** ** Sniffing keeps every byte *)

Definition stream_bytes (events : list readEvent) : list byte :=
  concat (omap (λ e, match e with ReadGot data => Some data | _ => None end) events).
Definition packets_of (events : list packetEvent) : list packet :=
  omap (λ e, match e with PacketGot p => Some p | _ => None end) events.

(** What has been read and what is still to come make up the same data. *)
Definition same_data (s s' : matchState) : Prop :=
  match ms_input s, ms_input s' with
  | StreamInput a, StreamInput b => concat (ms_buffers s) ++ stream_bytes a = concat (ms_buffers s') ++ stream_bytes b
  | PacketInput a, PacketInput b => ms_packets s ++ packets_of a = ms_packets s' ++ packets_of b
  | _, _ => False
  end.

#[export] Instance same_data_preorder : PreOrder same_data.
Proof.
  split.
  - intros s. unfold same_data. by destruct (ms_input s).
  - intros s1 s2 s3. unfold same_data. destruct (ms_input s1), (ms_input s2), (ms_input s3); try done; congruence.
Qed.

Section bytes.
Context {EX : External} {SL : SniffLib} {QC : QuicCrypto} (E : RouterEnv) (now : Z).

Lemma PeekStream_bytes first m buffers buffer e sniffers events :
  let '(_, (buffer', rest)) := PeekStream_loop first m buffers buffer e sniffers events in
  buffer ++ stream_bytes events = buffer' ++ stream_bytes rest.
Proof.
  revert first m buffer e. induction events as [|[e'|e'|d] events IH]; intros first m buffer e; cbn [PeekStream_loop]; [done..|].
  cbv zeta. change (stream_bytes (ReadGot d :: events)) with (d ++ stream_bytes events). rewrite app_assoc.
  destruct (PeekStream_round _ _ _ _) as [[|[e'|]|p] m1]; [done| |done..]. destruct (errors_Is e' ErrNeedMoreData); [apply IH|done].
Qed.

Lemma concat_snoc_if (b : list byte) bs : concat (bs ++ (if nonempty b then [b] else [])) = concat bs ++ b.
Proof. rewrite concat_app. destruct b; cbn; by rewrite ?app_nil_r. Qed.

Lemma actionSniffStream_data a events s s' :
  ms_input s = StreamInput events → actionSniffStream E now a events s = Ok s' → same_data s s'.
Proof.
  intros Hi. unfold actionSniffStream. cbv zeta. destruct (_ && _); [by intros [= <-]|].
  destruct (failedBefore _ _); [by intros [= <-]|]. unfold PeekStream.
  pose proof (PeekStream_bytes true (rm (ms_meta s)) (ms_buffers s) [] None (streamSniffers now a) events) as Hb.
  destruct (PeekStream_loop _ _ _ _ _ _ _) as [[r sm'] [buffer rest]].
  intros H. assert (ms_buffers s' = ms_buffers s ++ (if nonempty buffer then [buffer] else []) ∧ ms_input s' = StreamInput rest) as [Hs' Hr].
  { destruct r; by simplify_eq. }
  unfold same_data. rewrite Hi, Hr, Hs', concat_snoc_if, <- app_assoc. f_equal. exact Hb.
Qed.

Lemma sniffReading_data a events read m m' read' rest err fatal :
  sniffReading now a events read m = Ok (m', read', rest, err, fatal) →
  read ++ packets_of events = read' ++ packets_of rest.
Proof.
  revert read m. induction events as [|[p| |e|e] events IH]; intros read m; cbn [sniffReading]; [by intros; simplify_eq| |by intros; simplify_eq..].
  intros ([m1 err1] & _ & H)%bind_Ok. change (packets_of (PacketGot p :: events)) with ([p] ++ packets_of events).
  rewrite app_assoc. destruct (needsMore err1); [by eapply IH|]. by simplify_eq.
Qed.

Lemma actionSniffPacket_data a events s s' fatal :
  ms_input s = PacketInput events → actionSniffPacket E now a events s = Ok (s', fatal) → same_data s s'.
Proof.
  intros Hi. unfold actionSniffPacket. cbv zeta. destruct (_ && _); [by intros [= <- _]|].
  destruct (failedBefore _ _); [by intros [= <- _]|]. intros (b & _ & H)%bind_Ok. destruct b as [m|[m err]].
  - apply bind_Ok in H as ([[[[m' read] rest] err] f] & Hr & H). apply sniffReading_data in Hr. simplify_eq.
    unfold same_data. rewrite Hi. cbn. rewrite <- app_assoc. f_equal. exact Hr.
  - simplify_eq. unfold same_data. cbn. by rewrite Hi.
Qed.

Lemma runAction_data a s s' fatal : runAction E now a s = Ok (s', fatal) → same_data s s'.
Proof.
  destruct a as [[]|]; cbn [runAction]; try by intros [= <- _].
  - unfold actionSniff. cbv zeta. destruct (Skip _); [by intros [= <- _]|]. destruct (negb _); [by intros [= <- _]|].
    destruct (ms_input s) eqn:Hi; [|by apply actionSniffPacket_data].
    intros (s1 & H & [= <- _])%bind_Ok. by eapply actionSniffStream_data.
  - destruct (actionResolve E r (ms_meta s)); [|by intros [= <- _]|done]. intros [= <- _]. unfold same_data. cbn. by destruct (ms_input s).
Qed.

Lemma with_meta_data m s : same_data s (with_meta m s).
Proof. unfold same_data. cbn. by destruct (ms_input s). Qed.

Lemma matchRule_loop_data i rules s selected s' fatal :
  matchRule_loop E now i rules s = Ok (selected, s', fatal) → same_data s s'.
Proof.
  revert i s. induction rules as [|r rules IH]; intros i s; cbn [matchRule_loop]; [by intros; simplify_eq|].
  destruct (Match _ r _) as [matched c]. cbv zeta. set (s1 := with_meta _ s).
  destruct matched; cbn [negb]; [|intros H%IH; etrans; [apply with_meta_data|exact H]].
  intros ([s2 err] & H2%runAction_data & H)%bind_Ok.
  assert (H12 : same_data s s2).
  { etrans; [|exact H2]. destruct (routeOptionsOf _); [|apply with_meta_data].
    etrans; [apply with_meta_data|apply with_meta_data]. }
  destruct err; [by simplify_eq|]. destruct (Rule_Action r); [|done].
  destruct (finalAction _); [by simplify_eq|]. apply IH in H. by etrans.
Qed.
End bytes.

(** ** What the outbound reads *)

(** What a connection gives to its reader, [bufio.CachedConn] and
    [bufio.CachedPacketConn] of [sing] giving their buffer first. *)
Class ConnLaws (conn_bytes : connection → list byte) (conn_packets : connection → list packet) : Prop := {
  inbound_bytes events : conn_bytes (InboundConn (StreamInput events)) = stream_bytes events;
  inbound_packets events : conn_packets (InboundConn (PacketInput events)) = packets_of events;
  cached_bytes conn buffer : conn_bytes (NewCachedConn conn buffer) = buffer ++ conn_bytes conn;
  cached_packets conn p : conn_packets (NewCachedPacketConn conn p) = p :: conn_packets conn
}.

Definition is_sniff {EX : External} (r : Rule) : bool := match Rule_Action r with Some (RuleActionSniff_ _) => true | _ => false end.
(** How many rules sniff. *)
Definition sniffs {EX : External} (rules : list Rule) : nat := length (filter (λ r, is_sniff r = true) rules).

Section replay.
Context {EX : External} {SL : SniffLib} {QC : QuicCrypto} (E : RouterEnv) (now : Z).
Context (conn_bytes : connection → list byte) (conn_packets : connection → list packet) {CL : ConnLaws conn_bytes conn_packets}.

(** The last buffer is read first. *)
Lemma replayStream_bytes events buffers :
  conn_bytes (replayStream (StreamInput events) buffers) = concat (reverse buffers) ++ stream_bytes events.
Proof using CL.
  unfold replayStream. rewrite <- (inbound_bytes (ConnLaws := CL)). generalize (InboundConn (StreamInput events)) as c.
  induction buffers as [|b bs IH]; intros c; cbn [fold_left]; [done|].
  rewrite IH, cached_bytes, reverse_cons, concat_app, <- app_assoc. cbn. by rewrite app_nil_r.
Qed.
Lemma replayPackets_packets events packets :
  conn_packets (replayPackets (PacketInput events) packets) = reverse packets ++ packets_of events.
Proof using CL.
  unfold replayPackets. rewrite <- (inbound_packets (ConnLaws := CL)). generalize (InboundConn (PacketInput events)) as c.
  induction packets as [|p ps IH]; intros c; cbn [fold_left]; [done|]. by rewrite IH, cached_packets, reverse_cons, <- app_assoc.
Qed.

Lemma reverse_short {A} (l : list A) : (length l ≤ 1)%nat → reverse l = l.
Proof. destruct l as [|x [|y l]]; cbn; [done|done|lia]. Qed.

(** A sniffing rule reads at most one buffer, of a stream only. *)
Lemma runAction_buffers a s s' fatal :
  runAction E now a s = Ok (s', fatal) →
  (length (ms_buffers s') ≤ length (ms_buffers s) + match a with Some (RuleActionSniff_ _) => 1 | _ => 0 end)%nat ∧
  match ms_input s with PacketInput _ => ms_buffers s' = ms_buffers s | StreamInput _ => ms_packets s' = ms_packets s end.
Proof.
  assert (Hsame : ∀ n, (length (ms_buffers s) ≤ length (ms_buffers s) + n)%nat ∧
    match ms_input s with PacketInput _ => ms_buffers s = ms_buffers s | StreamInput _ => ms_packets s = ms_packets s end)
    by (intros; split; [lia|by destruct (ms_input s)]).
  destruct a as [[]|]; cbn [runAction]; try by intros [= <- _].
  - unfold actionSniff. cbv zeta. destruct (Skip _); [by intros [= <- _]|]. destruct (negb _); [by intros [= <- _]|].
    destruct (ms_input s) as [ev|ev] eqn:Hi.
    + intros (s1 & H & [= <- _])%bind_Ok. unfold actionSniffStream in H. cbv zeta in H. destruct (_ && _); [by simplify_eq|].
      destruct (failedBefore _ _); [by simplify_eq|]. destruct (PeekStream _ _ _ _) as [[r sm'] [buffer rest]].
      assert (ms_buffers s1 = ms_buffers s ++ (if nonempty buffer then [buffer] else []) ∧ ms_packets s1 = ms_packets s) as [-> ?]
        by (destruct r; by simplify_eq).
      split; [|done]. rewrite length_app. destruct buffer; cbn; lia.
    + unfold actionSniffPacket. cbv zeta. destruct (_ && _); [by intros [= <- _]|]. destruct (failedBefore _ _); [by intros [= <- _]|].
      intros (b & _ & H)%bind_Ok. destruct b as [m|[m err]]; [|by simplify_eq].
      apply bind_Ok in H as ([[[[m' read] rest] err] f] & _ & H). by simplify_eq.
  - destruct (actionResolve E r (ms_meta s)); [|by intros [= <- _]|done]. by intros [= <- _].
Qed.

Lemma same_data_input s s' : same_data s s' →
  match ms_input s, ms_input s' with StreamInput _, StreamInput _ | PacketInput _, PacketInput _ => True | _, _ => False end.
Proof. unfold same_data. by destruct (ms_input s), (ms_input s'). Qed.

Lemma matchRule_loop_buffers i rules s selected s' fatal :
  matchRule_loop E now i rules s = Ok (selected, s', fatal) →
  (length (ms_buffers s') ≤ length (ms_buffers s) + sniffs rules)%nat ∧
  match ms_input s with PacketInput _ => ms_buffers s' = ms_buffers s | StreamInput _ => ms_packets s' = ms_packets s end.
Proof.
  revert i s. induction rules as [|r rules IH]; intros i s; cbn [matchRule_loop].
  { intros [= _ <- _]. split; [lia|by destruct (ms_input s)]. }
  assert (Hc : sniffs (r :: rules) = (match Rule_Action r with Some (RuleActionSniff_ _) => 1 | _ => 0 end + sniffs rules)%nat).
  { unfold sniffs. rewrite filter_cons. assert (Hs : is_sniff r = match Rule_Action r with Some (RuleActionSniff_ _) => true | _ => false end) by done.
    destruct (Rule_Action r) as [[]|]; case_decide; cbn [length]; try lia; congruence. }
  rewrite Hc. destruct (Match _ r _) as [matched c]. cbv zeta. set (s1 := with_meta _ s).
  destruct matched; cbn [negb].
  2: { intros H%IH. cbn [s1 with_meta ms_buffers ms_input ms_packets] in H. destruct H. split; [lia|done]. }
  intros ([s2 err] & H2 & H)%bind_Ok. pose proof (same_data_input _ _ (runAction_data E now _ _ _ _ H2)) as Hin.
  apply runAction_buffers in H2.
  assert (Hs : ∀ x, ms_buffers (match routeOptionsOf x with Some o => with_meta (applyRouteOptions o (ms_meta s1)) s1 | None => s1 end) = ms_buffers s ∧
    ms_input (match routeOptionsOf x with Some o => with_meta (applyRouteOptions o (ms_meta s1)) s1 | None => s1 end) = ms_input s ∧
    ms_packets (match routeOptionsOf x with Some o => with_meta (applyRouteOptions o (ms_meta s1)) s1 | None => s1 end) = ms_packets s).
  { intros x. by destruct (routeOptionsOf x). }
  destruct (Hs (Rule_Action r)) as (E1 & E2 & E3). rewrite E2 in Hin. rewrite E1, E2, E3 in H2. destruct H2 as [H2 H3]. clear Hs E1 E2 E3.
  destruct err; [simplify_eq; split; [lia|done]|]. destruct (Rule_Action r); [|done].
  destruct (finalAction _); [simplify_eq; split; [lia|done]|]. apply IH in H as [H4 H5]. split; [lia|].
  destruct (ms_input s), (ms_input s2); try done; congruence.
Qed.

(** What the rules left of a stream or of packets, as [matchRule] returns it. *)
Lemma matchRule_stream rules m stream selected s fatal :
  matchRule E now rules m (StreamInput stream) = Ok (selected, s, fatal) →
  ∃ rest, ms_input s = StreamInput rest ∧ concat (ms_buffers s) ++ stream_bytes rest = stream_bytes stream ∧
    (length (ms_buffers s) ≤ sniffs rules)%nat ∧ ms_packets s = [].
Proof.
  unfold matchRule. destruct (prepareMatchMetadata E m) as [m'|e|]; [|intros [= <- <- <-]; exists stream; cbn; split_and!; try done; lia|done].
  intros H. pose proof (matchRule_loop_buffers _ _ _ _ _ _ H) as [Hb Hp]. apply matchRule_loop_data in H. unfold same_data in H. cbn in *.
  destruct (ms_input s) as [rest|]; [|done]. by exists rest.
Qed.
Lemma matchRule_packets rules m packets selected s fatal :
  matchRule E now rules m (PacketInput packets) = Ok (selected, s, fatal) →
  ∃ rest, ms_input s = PacketInput rest ∧ ms_packets s ++ packets_of rest = packets_of packets ∧ ms_buffers s = [].
Proof.
  unfold matchRule. destruct (prepareMatchMetadata E m) as [m'|e|]; [|intros [= <- <- <-]; by exists packets|done].
  intros H. pose proof (matchRule_loop_buffers _ _ _ _ _ _ H) as [_ Hp]. apply matchRule_loop_data in H. unfold same_data in H. cbn in *.
  destruct (ms_input s) as [|rest]; [done|]. by exists rest.
Qed.

(** What is handed on comes from the state [matchRule] leaves. *)
Lemma routeMatched_handed network kind rules m conn outcome rules' :
  routeMatched E now network kind rules m conn = Ok (outcome, rules') →
  match outcome with
  | Handled _ _ c _ => ∃ selected s, matchRule E now rules m conn = Ok (selected, s, None) ∧
      c = if String.eqb network "udp" then replayPackets (ms_input s) (ms_packets s) else replayStream (ms_input s) (ms_buffers s)
  | HijackedDNS _ c ps => ∃ selected s, matchRule E now rules m conn = Ok (selected, s, None) ∧
      c = replayStream (ms_input s) (ms_buffers s) ∧ ps = ms_packets s
  | _ => True
  end.
Proof.
  unfold routeMatched. intros ([[selected s] fatal] & Hm & H)%bind_Ok. destruct fatal; [by simplify_eq|].
  apply bind_Ok in H as ([decided rules1] & Hd & H). destruct decided as [o|o].
  - simplify_eq. unfold selectOutbound in Hd. cbv zeta in Hd.
    destruct selected as [[i r]|]; [|done]. destruct (Rule_Action r) as [[]|]; try done; repeat case_match; simplify_eq; try done; try by (eexists _, _).
    all: by apply bind_Ok in Hd as ([? ?] & _ & ?); simplify_eq.
  - apply bind_Ok in H as (out & Hh & ?). simplify_eq. unfold handOver in Hh. cbv zeta in Hh.
    destruct o as [o|]; [|done]. destruct (resolveOutboundLx _ o network); simplify_eq; [|done].
    destruct (lxtrace_Routed _ _ _ _); simplify_eq; [done|]. by eexists _, _.
Qed.
End replay.


(** The connections of [sing]: a cached one gives its buffer first. *)
Fixpoint demo_bytes (c : connection) : list byte :=
  match c with
  | InboundConn (StreamInput events) => stream_bytes events
  | InboundConn _ => []
  | NewCachedConn c b => b ++ demo_bytes c
  | NewCachedPacketConn c _ => demo_bytes c
  end.
Fixpoint demo_packets (c : connection) : list packet :=
  match c with
  | InboundConn (PacketInput events) => packets_of events
  | InboundConn _ => []
  | NewCachedConn c _ => demo_packets c
  | NewCachedPacketConn c p => p :: demo_packets c
  end.
Lemma demo_conn_laws : ConnLaws demo_bytes demo_packets.
Proof. by split. Qed.

(** The connection an outbound is handed. *)
Definition handed {EX : External} (x : result (routeOutcome * list Rule)) : option connection :=
  match x with Ok (Handled _ _ c _, _) => Some c | _ => None end.


(** Two rules that sniff, over a stream neither knows at once: what the second
    read comes first for the outbound. *)
Definition sniff_one (s : StreamSniffer) (name : string) : RuleAction := RuleActionSniff_ (mkSniff [name] [s] [] 0 false).
Definition demo_two_sniffs : list (@Rule demo) :=
  [any_rule (sniff_one S_RDP "rdp"); any_rule (sniff_one S_BitTorrent "bittorrent"); any_rule (RuleActionRoute "proxy" no_options)].
Definition demo_parts : list (list byte) := [[x41; x42; x43]; [x44; x45; x46]].
Lemma two_sniffs_reorder :
  demo_bytes <$> handed (@routeConnection demo demo_lib plain_crypto demo_env 0 demo_two_sniffs
    (demo_route (mkSocksaddr addr_1_1_1_1 5060 "")) (ReadGot <$> demo_parts)) = Some (concat (reverse demo_parts)).
Proof. vm_compute. reflexivity. Qed.

(** ** The first match decides *)

(** An action that decides or is skipped, without changing the metadata first. *)
Definition static_action {EX : External} (r : Rule) : bool :=
  match Rule_Action r with
  | Some (RuleActionRoute _ _) | Some (RuleActionBypass _ _) | Some (RuleActionReject_ _) | Some RuleActionHijackDNS => true
  | _ => false
  end.

(** The actions that end the walk over the rules; that of a DNS rule has the type
    of a route. *)
Definition decides {EX : External} (r : Rule) : bool :=
  match Rule_Action r with
  | Some (RuleActionRoute _ _) | Some (RuleActionDNSRoute _ _ _) | Some (RuleActionReject_ _) | Some RuleActionHijackDNS => true
  | Some (RuleActionBypass outbound _) => negb (String.eqb outbound "")
  | _ => false
  end.
Lemma decides_final {EX : External} (r : Rule) : decides r = match Rule_Action r with Some a => finalAction a | None => false end.
Proof. unfold decides. by destruct (Rule_Action r) as [[]|]. Qed.

Section first_match.
Context {EX : External} {SL : SniffLib} {QC : QuicCrypto} (E : RouterEnv) (now : Z) {RL : RuntimeLaws (env_rt E false)}.

Lemma static_runAction r s : static_action r = true → runAction E now (Rule_Action r) s = Ok (s, None).
Proof. unfold static_action. by destruct (Rule_Action r) as [[]|]. Qed.

Lemma static_skipped r a : static_action r = true → Rule_Action r = Some a → finalAction a = false → routeOptionsOf (Some a) = None.
Proof.
  unfold static_action. intros Hs Ha. rewrite Ha in Hs. destruct a; try done. cbn. by intros ->%negb_false_iff.
Qed.

(** Matching a rule after [ResetRuleCache] answers its meaning. *)
Lemma Match_reset r c : ignoreDst c = false →
  ∃ c', Match (env_rt E false) r (ResetRuleCache c) = (holds (env_rt E false) env0 r c, c') ∧
    same_identity c c' ∧ ignoreDst c' = false.
Proof.
  intros Hi. assert (Hi' : ignoreDst (ResetRuleCache c) = false) by by destruct c as [? ? ? ? ? ? ? ? ? ? ? ? ? ? ? ? ? ? ? ? []].
  assert (Hd : deferred (ResetRuleCache c) = 0) by by destruct c as [? ? ? ? ? ? ? ? ? ? ? ? ? ? ? ? ? ? ? ? []].
  destruct (Match_holds (env_rt E false) r (ResetRuleCache c) Hi' Hd) as (c' & -> & (H1 & _ & H3) & _).
  exists c'. rewrite env_ResetRuleCache. split; [|split; [|congruence]].
  - f_equal. apply holds_identity; [done|]. apply same_identity_ResetRuleCache.
  - etrans; [|exact H1]. symmetry. apply same_identity_ResetRuleCache.
Qed.

Lemma matchRule_loop_first i rules s c0 :
  Forall (λ r, static_action r = true) rules → ignoreDst (ctx (ms_meta s)) = false → same_identity c0 (ctx (ms_meta s)) →
  ∃ s', matchRule_loop E now i rules s =
    Ok ((λ x : nat * Rule, ((i + x.1)%nat, x.2)) <$> list_find (λ r, holds (env_rt E false) env0 r c0 && decides r) rules, s', None).
Proof.
  intros Hr. revert i s. induction Hr as [|r rules Hr _ IH]; intros i s Hi Hid; cbn [matchRule_loop list_find]; [by eexists|].
  destruct (Match_reset r _ Hi) as (c & -> & Hc & Hci).
  rewrite (holds_identity (env_rt E false) r env0 _ _ (symmetry Hid)).
  set (s1 := with_meta _ s).
  assert (Hmore : ∃ s', matchRule_loop E now (S i) rules s1 = Ok ((λ x : nat * Rule, ((i + x.1)%nat, x.2)) <$>
    (prod_map S id <$> list_find (λ r, holds (env_rt E false) env0 r c0 && decides r) rules), s', None)).
  { destruct (IH (S i) s1) as (s' & ->).
    - unfold s1. cbn. by rewrite ctx_on_ctx.
    - unfold s1. cbn. rewrite ctx_on_ctx. by etrans.
    - exists s'. do 3 f_equal. destruct (list_find _ rules) as [[j x]|]; [|done]. cbn. do 2 f_equal. lia. }
  destruct (holds _ env0 r c0); cbn [negb andb]; [|exact Hmore].
  rewrite (decides_final r). unfold static_action in Hr.
  destruct (Rule_Action r) as [a|] eqn:Ha; [|done]. cbv zeta.
  rewrite <- Ha, static_runAction by (unfold static_action; by rewrite Ha). cbn [mbind result_bind]. rewrite Ha.
  destruct (finalAction a) eqn:Hf; cbn [Is_true].
  - rewrite decide_True by done. cbn. rewrite Nat.add_0_r. by eexists.
  - rewrite decide_False by (intros []). rewrite (static_skipped r a) by (unfold static_action; by rewrite ?Ha). exact Hmore.
Qed.
(** ** The walk over the rules *)

(** What the metadata of [s] makes of a rule. *)
Definition means (r : Rule) (s : matchState) : bool := holds (env_rt E false) env0 r (ctx (ms_meta s)).
(** The two differ only in what rules keep in the metadata while they match. *)
Definition recached (s s' : matchState) : Prop :=
  ∃ c, same_identity (ctx (ms_meta s)) c ∧ s' = with_meta (on_ctx (λ _, c) (ms_meta s)) s.
(** What a rule does that matches: its route options, then sniffing or resolving. *)
Definition acts (r : Rule) (s : matchState) : result (matchState * option goerr) :=
  runAction E now (Rule_Action r) (match routeOptionsOf (Rule_Action r) with
    | Some o => with_meta (applyRouteOptions o (ms_meta s)) s
    | None => s
    end).

(** [seen] are the states at the rules from the first on: a rule that does not
    match is passed over, one that matches and does not decide acts. *)
Definition passes (rules : list Rule) (seen : list matchState) : Prop :=
  ∀ j r s s', rules !! j = Some r → seen !! j = Some s → seen !! S j = Some s' →
    if means r s then decides r = false ∧ ∃ s1, recached s s1 ∧ acts r s1 = Ok (s', None) else recached s s'.
(** How the walk stops: at a rule that matches and decides, after the last rule, or
    at a rule that matches and fails. *)
Definition stops (i : nat) (rules : list Rule) (seen : list matchState) (selected : option (nat * Rule)) (s' : matchState) (fatal : option goerr) : Prop :=
  match selected, fatal with
  | Some (n, r), None => ∃ k s s1, n = (i + k)%nat ∧ rules !! k = Some r ∧ length seen = S k ∧ last seen = Some s ∧
      means r s = true ∧ decides r = true ∧ recached s s1 ∧ acts r s1 = Ok (s', None)
  | None, None => length seen = S (length rules) ∧ last seen = Some s'
  | None, Some e => ∃ k r s s1, rules !! k = Some r ∧ length seen = S k ∧ last seen = Some s ∧
      means r s = true ∧ recached s s1 ∧ acts r s1 = Ok (s', Some e)
  | Some _, Some _ => False
  end.

Lemma passes_cons r rules s s1 seen :
  head seen = Some s1 → passes rules seen →
  (if means r s then decides r = false ∧ ∃ s2, recached s s2 ∧ acts r s2 = Ok (s1, None) else recached s s1) →
  passes (r :: rules) (s :: seen).
Proof.
  intros Hh Hp H0 [|j] r' a b; cbn; [|apply Hp]. intros [= <-] [= <-] Hb. destruct seen; [done|]. injection Hh as ->. by injection Hb as <-.
Qed.
Lemma stops_cons i r rules s seen selected s' fatal :
  seen ≠ [] → stops (S i) rules seen selected s' fatal → stops i (r :: rules) (s :: seen) selected s' fatal.
Proof.
  intros Hne. assert (Hl : ∀ x, last seen = Some x → last (s :: seen) = Some x) by by destruct seen.
  destruct selected as [[n r1]|], fatal as [e|]; cbn [stops]; [done| | |].
  - intros (k & a & a1 & -> & Hr & Hlen & Hlast & H). exists (S k), a, a1. cbn. rewrite Hlen. split; [lia|]. auto.
  - intros (k & r1 & a & a1 & Hr & Hlen & Hlast & H). exists (S k), r1, a, a1. cbn. rewrite Hlen. auto.
  - intros [Hlen Hlast]. cbn. rewrite Hlen. auto.
Qed.

Lemma matchRule_loop_walks i rules s selected s' fatal :
  ignoreDst (ctx (ms_meta s)) = false → matchRule_loop E now i rules s = Ok (selected, s', fatal) →
  ∃ seen, head seen = Some s ∧ passes rules seen ∧ stops i rules seen selected s' fatal.
Proof using RL.
  revert i s. induction rules as [|r rules IH]; intros i s Hi; cbn [matchRule_loop].
  { intros [= <- <- <-]. by exists [s]. }
  destruct (Match_reset r _ Hi) as (c & -> & Hc & Hci). fold (means r s). set (s1 := with_meta _ s).
  assert (Hre : recached s s1) by by exists c. assert (Hi1 : ignoreDst (ctx (ms_meta s1)) = false) by (cbn; by rewrite ctx_on_ctx).
  assert (Hgo : ∀ s2, ignoreDst (ctx (ms_meta s2)) = false → matchRule_loop E now (S i) rules s2 = Ok (selected, s', fatal) →
    (if means r s then decides r = false ∧ ∃ s1, recached s s1 ∧ acts r s1 = Ok (s2, None) else recached s s2) →
    ∃ seen, head seen = Some s ∧ passes (r :: rules) seen ∧ stops i (r :: rules) seen selected s' fatal).
  { intros s2 Hi2 H H0. destruct (IH _ _ Hi2 H) as (seen & Hh & Hp & Hs). exists (s :: seen). split; [done|].
    split; [by eapply passes_cons|]. apply stops_cons; [by destruct seen|done]. }
  destruct (means r s) eqn:Hm; cbn [negb]; [|intros H; by apply (Hgo s1)].
  cbv zeta. intros ([s2 err] & Hact & H)%bind_Ok. fold (acts r s1) in Hact.
  assert (Hi2 : ignoreDst (ctx (ms_meta s2)) = false).
  { unfold acts in Hact. apply runAction_cache in Hact. unfold ignoreDst in *. rewrite Hact. destruct (routeOptionsOf _); cbn; [|done].
    by rewrite applyRouteOptions_cache. }
  assert (Hend : last [s] = Some s) by done. destruct err as [e|].
  { injection H as <- <- <-. exists [s]. split; [done|]. split; [by intros [|j] r' a b|]. cbn. by exists 0%nat, r, s, s1. }
  destruct (Rule_Action r) as [a|] eqn:Ha; [|done]. destruct (finalAction a) eqn:Hf.
  - injection H as <- <- <-. exists [s]. split; [done|]. split; [by intros [|j] r' a' b|]. cbn. exists 0%nat, s, s1.
    split; [lia|]. split_and!; try done. by rewrite decides_final, Ha.
  - apply (Hgo s2); [done|done|]. split; [by rewrite decides_final, Ha|]. by exists s1.
Qed.

End first_match.

(** C30: rules are taken in order and the first that matches decides.  Over any
    rules there is the sequence [seen] of the states at the rules: a rule whose
    documented meaning does not hold for the metadata at its turn is passed over, one
    whose meaning holds and that does not decide (sniff, resolve, route-options, a
    bypass without an outbound) only acts on the connection and the metadata, and
    the walk stops at the first whose meaning holds and that decides, after the last
    rule, or at an action that fails.  When every action is a route, bypass, reject
    or hijack-dns, that is the first rule whose meaning holds for the prepared
    metadata and that decides, and there is no error. *)
Theorem first_match_decides (EX : External) (SL : SniffLib) (QC : QuicCrypto) (E : RouterEnv) (now : Z)
    (RL : RuntimeLaws (env_rt E false)) (rules : list Rule) (m m' : RouteMetadata) (conn : input)
    (Hprepared : prepareMatchMetadata E m = Ok m') (Hmode : ignoreDst (ctx m') = false) :
  (∀ selected s fatal, matchRule E now rules m conn = Ok (selected, s, fatal) →
    ∃ seen, head seen = Some (mkMatch m' conn [] []) ∧ passes E now rules seen ∧ stops E now 0 rules seen selected s fatal) ∧
  (Forall (λ r, static_action r = true) rules →
    ∃ s, matchRule E now rules m conn =
      Ok (list_find (λ r, holds (env_rt E false) env0 r (ctx m') && decides r) rules, s, None)).
Proof.
  unfold matchRule. rewrite Hprepared. split; [intros selected s fatal; by apply matchRule_loop_walks|]. intros Hstatic.
  destruct (matchRule_loop_first E now 0 rules (mkMatch m' conn [] []) (ctx m') Hstatic Hmode (reflexivity _)) as (s & ->).
  exists s. do 3 f_equal. destruct (list_find _ rules) as [[j x]|]; done.
Qed.

(** Three rules for three destinations, and what each selects. *)
Definition demo_static_rules : list (@Rule demo) :=
  [any_rule (RuleActionBypass "" no_options); domain_rule (RuleActionReject_ (mkReject "drop" false []));
   any_rule (RuleActionRoute "proxy" no_options)].

Lemma first_match_decides_witness :
  (∃ s, @matchRule demo demo_lib plain_crypto demo_env 0 demo_static_rules (demo_route (mkSocksaddr AddrZero 443 "example.org"))
    (StreamInput []) = Ok (Some (1%nat, domain_rule (RuleActionReject_ (mkReject "drop" false []))), s, None)) ∧
  ∃ selected s seen, @matchRule demo demo_lib plain_crypto demo_env 0 demo_route_rules (demo_route (mkSocksaddr AddrZero 443 "example.org"))
    (StreamInput (ReadGot <$> demo_sip)) = Ok (selected, s, None) ∧ @stops demo demo_lib plain_crypto demo_env 0 0 demo_route_rules seen selected s None.
Proof.
  split.
  - assert (Hs : Forall (λ r, static_action r = true) demo_static_rules) by (repeat constructor).
    destruct (proj2 (first_match_decides demo demo_lib plain_crypto demo_env 0 demo_laws demo_static_rules
      (demo_route (mkSocksaddr AddrZero 443 "example.org")) (demo_route (mkSocksaddr AddrZero 443 "example.org"))
      (StreamInput []) eq_refl eq_refl) Hs) as (s & ->).
    exists s. do 3 f_equal.
  - assert (Hok : match @matchRule demo demo_lib plain_crypto demo_env 0 demo_route_rules (demo_route (mkSocksaddr AddrZero 443 "example.org"))
      (StreamInput (ReadGot <$> demo_sip)) with Ok (_, _, None) => True | _ => False end) by (vm_compute; exact I).
    destruct (@matchRule demo demo_lib plain_crypto demo_env 0 demo_route_rules (demo_route (mkSocksaddr AddrZero 443 "example.org"))
      (StreamInput (ReadGot <$> demo_sip))) as [[[selected s] [e|]]|e|p] eqn:Hr; [destruct Hok| |destruct Hok..].
    destruct (proj1 (first_match_decides demo demo_lib plain_crypto demo_env 0 demo_laws demo_route_rules
      (demo_route (mkSocksaddr AddrZero 443 "example.org")) (demo_route (mkSocksaddr AddrZero 443 "example.org"))
      (StreamInput (ReadGot <$> demo_sip)) eq_refl eq_refl) selected s None Hr) as (seen & _ & _ & Hs).
    exists selected, s, seen. split; [reflexivity|exact Hs].
Defined.

(** ** PreMatch *)

(** The actions [PreMatch] and [matchRule] treat alike: no sniffing, no bypass
    without an outbound, and no address override. *)
Definition plain_options {EX : External} (o : RuleActionRouteOptions) : bool := negb (Socksaddr_IsValid (OverrideAddress o)).
Definition shared_action {EX : External} (r : Rule) : bool :=
  match Rule_Action r with
  | Some (RuleActionRoute _ o) | Some (RuleActionRouteOptions_ o) => plain_options o
  | Some (RuleActionBypass outbound o) => negb (String.eqb outbound "") && plain_options o
  | Some (RuleActionReject_ x) => route_action (RuleActionReject_ x)
  | Some RuleActionHijackDNS | Some (RuleActionResolve_ _) => true
  | _ => false
  end.

Section prematch.
Context {EX : External} {SL : SniffLib} {QC : QuicCrypto} (E : RouterEnv) (now : Z) {EL : RouterLaws E}.

(** What [PreMatch] should answer when routing ends with [selected], the
    metadata [m] and the fatal error [fatal]. *)
Definition expected (destination : Socksaddr) (selected : option (nat * Rule)) (m : RouteMetadata) (fatal : option goerr)
    : PreMatchResult :=
  match fatal, selected with
  | Some _, _ => verdict PreMatchReject
  | None, None => preMatchFlow E m destination ""
  | None, Some (_, r) =>
      match Rule_Action r with
      | Some (RuleActionRoute outbound _) => preMatchFlow E m destination outbound
      | Some (RuleActionBypass outbound _) => preMatchBypass E outbound destination m
      | Some (RuleActionReject_ x) =>
          match RuleActionReject_Error now x with Ok (o, _) => preMatchReject o m | _ => verdict PreMatchContinue end
      | Some RuleActionHijackDNS =>
          verdict (if String.eqb (Network (ctx m)) "udp" then PreMatchHijackDNS else PreMatchContinue)
      | _ => verdict PreMatchContinue
      end
  end.

(** What pre-matching reads of the metadata. *)
Definition alike (m m' : RouteMetadata) : Prop :=
  rm m = rm m' ∧ FakeIP m = FakeIP m' ∧ md_UDPTimeout (dial m) = md_UDPTimeout (dial m').

Lemma alike_ctx m m' : alike m m' → ctx m = ctx m'.
Proof. intros [H _]. unfold ctx. by rewrite H. Qed.

Lemma preMatchFlow_alike m m' d tag : alike m m' → preMatchFlow E m d tag = preMatchFlow E m' d tag.
Proof.
  intros H. pose proof (alike_ctx m m' H) as Hc. destruct H as (_ & Hf & Ht).
  unfold preMatchFlow, flowTimeout, flowAddress. by rewrite Hc, Hf, Ht.
Qed.

Lemma preMatchBypass_alike m m' d tag : alike m m' → preMatchBypass E tag d m = preMatchBypass E tag d m'.
Proof. intros H. unfold preMatchBypass. by rewrite (alike_ctx m m' H), (preMatchFlow_alike m m' d tag H). Qed.

Lemma expected_alike d selected m m' fatal : alike m m' → expected d selected m fatal = expected d selected m' fatal.
Proof.
  intros H. unfold expected, preMatchReject. rewrite (alike_ctx m m' H).
  destruct fatal; [done|]. destruct selected as [[i r]|]; [|by apply preMatchFlow_alike].
  destruct (Rule_Action r) as [[]|]; try done; [by apply preMatchFlow_alike|by apply preMatchBypass_alike].
Qed.

Lemma alike_on_ctx f m m' : alike m m' → alike (on_ctx f m) (on_ctx f m').
Proof. intros (H1 & H2 & H3). destruct m, m'. cbn in *. subst. done. Qed.

Lemma alike_const c m m' : alike m m' → alike (on_ctx (λ _, c) m) (on_ctx (λ _, c) m').
Proof. apply alike_on_ctx. Qed.

(** Plain route options act alike in the two functions. *)
Lemma options_alike o m m' : plain_options o = true → alike m m' →
  alike (applyRouteOptions o m) (applyRouteOptionsOverride o m').
Proof.
  unfold plain_options. intros Ho%negb_true_iff (H1 & H2 & H3).
  unfold applyRouteOptions, applyRouteOptionsOverride. rewrite Ho. cbv zeta. cbn [orb].
  destruct m as [a b c d e f g h i j], m' as [a' b' c' d' e' f' g' h' i' j']. cbn in H1, H2, H3. subst a' g'.
  destruct (0 <? OverridePort o); destruct (0 <? UDPTimeout o) eqn:Hu; cbn [andb];
    try (destruct (negb _)); cbn; split_and!; cbn; rewrite ?Hu; done.
Qed.

Lemma actionResolve_alike a m m' : alike m m' →
  match actionResolve E a m, actionResolve E a m' with
  | Ok x, Ok y => alike x y
  | Err _, Err _ => True
  | Panic _, Panic _ => True
  | _, _ => False
  end.
Proof.
  intros H. unfold actionResolve. rewrite (alike_ctx m m' H). destruct (Socksaddr_IsDomain E _); [|done].
  destruct (_ && _); [done|]. destruct (dnsLookup E _ _ _); cbn; [|done..]. by apply alike_on_ctx.
Qed.

Lemma PreMatch_loop_agrees i rules all d pkt s m' selected s' fatal :
  env_rt E true = env_rt E false → Forall (λ r, shared_action r = true) rules → alike (ms_meta s) m' →
  matchRule_loop E now i rules s = Ok (selected, s', fatal) →
  ∃ all', PreMatch_loop E now i rules all d pkt m' = Ok (expected d selected (ms_meta s') fatal, all').
Proof.
  intros Hrt Hr. revert i s m'. induction Hr as [|r rules Hr _ IH]; intros i s m' Ha; cbn [matchRule_loop PreMatch_loop].
  { intros [= <- <- <-]. eexists. do 2 f_equal. symmetry. by apply preMatchFlow_alike. }
  rewrite Hrt, <- (alike_ctx _ _ Ha). destruct (Match _ r _) as [matched c].
  pose proof (alike_const c _ _ Ha) as Ha1.
  destruct matched; cbn [negb]; [|by apply IH].
  unfold shared_action in Hr. cbv zeta. destruct (Rule_Action r) as [a|] eqn:Hact; [|done].
  destruct a as [outbound o|outbound o|o|x| | |a| | | | |]; try done; cbn [routeOptionsOf runAction mbind result_bind].
  - intros [= <- <- <-]. eexists. cbn [expected]. rewrite Hact. do 2 f_equal. symmetry.
    by apply preMatchFlow_alike, options_alike.
  - apply andb_true_iff in Hr as [Hne Ho]. rewrite Hne.
    change (finalAction (RuleActionBypass outbound o)) with (negb (String.eqb outbound "")). rewrite Hne. cbv iota.
    intros [= <- <- <-]. eexists. cbn [expected]. rewrite Hact. do 2 f_equal. symmetry. by apply preMatchBypass_alike, options_alike.
  - change (finalAction (RuleActionRouteOptions_ o)) with false. cbv iota. apply IH. by apply options_alike.
  - intros [= <- <- <-]. cbn [expected]. rewrite Hact. pose proof (Reject_Error_returns now x Hr) as Hs.
    destruct (RuleActionReject_Error now x) as [[out x']| |] eqn:Hx; [|exfalso|done].
    + cbn. eexists. do 2 f_equal. unfold preMatchReject. by rewrite <- (alike_ctx _ _ Ha1).
    + unfold RuleActionReject_Error in Hx. repeat case_match; done.
  - intros [= <- <- <-]. cbn [expected]. rewrite Hact. eexists. do 3 f_equal. by rewrite <- (alike_ctx _ _ Ha1).
  - pose proof (actionResolve_alike a _ _ Ha1) as Hres. change (ms_meta (with_meta ?x s)) with x.
    destruct (actionResolve E a (on_ctx (λ _, c) (ms_meta s))) as [x|e|p], (actionResolve E a (on_ctx (λ _, c) m')) as [y|e'|p'];
      try done; cbn [mbind result_bind].
    + change (finalAction (RuleActionResolve_ a)) with false. cbv iota. by apply IH.
    + intros [= <- <- <-]. by eexists.
Qed.
End prematch.

(** C31: pre-matching agrees with routing: over rules that do not sniff, do not
    bypass without an outbound and do not override the address, and outbounds that
    do not ask whether the flow is pre-matched ([Hruntime]), [PreMatch] answers for
    the rule [matchRule] would select, on the metadata [matchRule] would have then.
    With an address override it may not: [prematch_uses_stale_addresses]. *)
Theorem prematch_agrees (EX : External) (SL : SniffLib) (QC : QuicCrypto) (E : RouterEnv) (EL : RouterLaws E) (now : Z)
    (rules : list Rule) (m m' : RouteMetadata) (firstPacket : list byte) (conn : input)
    (selected : option (nat * Rule)) (s : matchState) (fatal : option goerr)
    (Hruntime : env_rt E true = env_rt E false) (Hactions : Forall (λ r, shared_action r = true) rules)
    (Hprepared : prepareMatchMetadata E m = Ok m')
    (Hroute : matchRule E now rules m conn = Ok (selected, s, fatal)) :
  ∃ rules', PreMatch E now rules m firstPacket =
    Ok (expected E now (Destination (ctx m)) selected (ms_meta s) fatal, rules').
Proof.
  unfold matchRule in Hroute. unfold PreMatch. rewrite Hprepared in *.
  by eapply (PreMatch_loop_agrees E now 0 rules rules _ firstPacket (mkMatch m' conn [] [])).
Qed.

Definition resolve_any : RuleAction := RuleActionResolve_ (mkResolve "" 0 0 false false None PrefixZero).
Definition override_to (address : Socksaddr) (port : Z) : RuleActionRouteOptions :=
  mkRouteOptions address port None [] [] 0 false false 0 false 0 false "" MethodWrongSequence.

(** Resolve, rewrite the port, route example.org to the proxy. *)
Definition demo_shared_rules : list (@Rule demo) :=
  [any_rule resolve_any; any_rule (RuleActionRouteOptions_ (override_to (mkSocksaddr AddrZero 0 "") 8443));
   domain_rule (RuleActionRoute "proxy" no_options)].

Definition fake_destination : RouteMetadata := demo_route (mkSocksaddr addr_10_0_0_1 443 "").

Lemma prematch_agrees_witness :
  ∃ result rules', @PreMatch demo demo_lib plain_crypto demo_env 0 demo_shared_rules fake_destination [] = Ok (result, rules') ∧
    result = mkPreMatch PreMatchFlow (Some "proxy"%string) (Some (addr_1_1_1_1, 8443)) 0.
Proof.
  assert (Ha : Forall (λ r, shared_action r = true) demo_shared_rules) by (repeat constructor).
  assert (Hp' : is_ok (prepareMatchMetadata demo_env fake_destination) = true) by (vm_compute; reflexivity).
  destruct (prepareMatchMetadata demo_env fake_destination) as [m'|e|p] eqn:Hp; [|discriminate Hp'..].
  assert (Hm' : is_ok (@matchRule demo demo_lib plain_crypto demo_env 0 demo_shared_rules fake_destination (StreamInput [])) = true)
    by (vm_compute; reflexivity).
  destruct (@matchRule demo demo_lib plain_crypto demo_env 0 demo_shared_rules fake_destination (StreamInput []))
    as [[[selected s] fatal]|e|p] eqn:Hm; [|discriminate Hm'..].
  destruct (prematch_agrees demo demo_lib plain_crypto demo_env demo_env_laws 0 demo_shared_rules fake_destination m' []
    (StreamInput []) selected s fatal eq_refl Ha Hp Hm) as (rules' & Hr).
  assert (Hc : match @PreMatch demo demo_lib plain_crypto demo_env 0 demo_shared_rules fake_destination [] with
    | Ok (result, _) => result = mkPreMatch PreMatchFlow (Some "proxy"%string) (Some (addr_1_1_1_1, 8443)) 0
    | _ => False end) by (vm_compute; reflexivity).
  rewrite Hr in Hc. eexists _, rules'. split; [exact Hr|exact Hc].
Defined.

(** Pre-matching keeps stale addresses: when a rule overrides the destination
    of a fake-IP connection by another domain, [matchRule] forgets the addresses
    resolved for the old one, and [PreMatch] sends the flow to them. *)
Lemma prematch_uses_stale_addresses :
  let rules := [any_rule resolve_any; any_rule (RuleActionRoute "proxy" (override_to (mkSocksaddr AddrZero 0 "other.net") 0))] in
  match @matchRule demo demo_lib plain_crypto demo_env 0 rules fake_destination (StreamInput []),
        @PreMatch demo demo_lib plain_crypto demo_env 0 rules fake_destination [] with
  | Ok (Some (i, _), s, None), Ok (result, _) =>
      i = 1%nat ∧ Destination (ctx (ms_meta s)) = mkSocksaddr AddrZero 443 "other.net" ∧
      DestinationAddresses (ctx (ms_meta s)) = [] ∧
      result = mkPreMatch PreMatchFlow (Some "proxy"%string) (Some (addr_1_1_1_1, 443)) 0
  | _, _ => False
  end.
Proof. vm_compute. auto. Qed.

(** ** Chains of outbounds *)

Section chains.
Context (up : string → string).

(** [chain] follows the selections of its groups from [o] for [network]. *)
Fixpoint follows (network : string) (o : AnOutbound) (chain : list AnOutbound) : Prop :=
  match chain with
  | [] => False
  | x :: rest => x = o ∧
      match rest with
      | [] => True
      | y :: _ => match o with
                  | GroupOutbound _ _ _ selected => selected network = Some y ∧ follows network y rest
                  | PlainOutbound _ _ _ => False
                  end
      end
  end.

Lemma resolveOutbound_follows o network : ∀ chain, resolveOutbound up o network = Ok chain →
  follows network o chain ∧ ∃ tag networks flow, last chain = Some (PlainOutbound tag networks flow) ∧ network ∈ networks.
Proof.
  induction o as [tag networks flow|tag networks per selected IH] using AnOutbound_ind'; intros chain; cbn.
  - destruct (containsb network networks) eqn:Hc; [|done]. intros [= <-]. split; [done|].
    apply containsb_spec in Hc. eauto 10.
  - destruct (selected network) as [next|] eqn:Hn; [|done]. intros (rest & Hr & [= <-])%bind_Ok.
    destruct (IH network next Hn rest Hr) as [Hf (t & ns & f & Hl & Hin)]. destruct rest as [|y rest]; [done|].
    split; [|exists t, ns, f; split; [exact Hl|done]]. split; [done|].
    destruct Hf as [-> Hf]. split; [done|]. by split.
Qed.

Definition per_connection (o : AnOutbound) : bool :=
  match o with GroupOutbound _ _ per _ => per | PlainOutbound _ _ _ => false end.

(** The cut keeps the chain up to the first group that picks per connection. *)
Lemma cut_spec chain : ∃ before after,
  chain = before ++ after ∧ Forall (λ o, per_connection o = false) before ∧
  match after with
  | [] => cutPerConnection chain = before
  | [o] => cutPerConnection chain = before ++ [o]
  | o :: _ => per_connection o = true ∧ cutPerConnection chain = before ++ [o]
  end.
Proof.
  induction chain as [|o [|o' rest] IH]; [by exists [], []|by exists [], [o]|].
  destruct (per_connection o) eqn:Ho.
  - exists [], (o :: o' :: rest). split_and!; [done|constructor|done|]. destruct o as [|? ? []]; done.
  - destruct IH as (before & after & Heq & Hb & Ha). exists (o :: before), after.
    assert (Hcut : cutPerConnection (o :: o' :: rest) = o :: cutPerConnection (o' :: rest)).
    { cbn [cutPerConnection]. destruct o as [|? ? []]; done. }
    rewrite Hcut, Heq in *. split_and!; [done|by constructor|].
    destruct after as [|x [|y after]]; [by rewrite Ha|by rewrite Ha|]. destruct Ha as [Hx ->]. done.
Qed.
End chains.

(** C33: a routed connection goes to an outbound that can carry it: the chain
    follows the selections of the groups from the chosen outbound to a plain
    outbound that supports the network, and what the router hands over to is
    that outbound, or the first group on the way that picks per connection. *)
Theorem routed_chain_ends_well (up : string → string) (o : AnOutbound) (network : string) (chain : list AnOutbound)
    (Hresolve : resolveOutboundLx up o network = Ok chain) :
  ∃ full target tag networks flow, resolveOutbound up o network = Ok full ∧ follows network o full ∧
    last full = Some (PlainOutbound tag networks flow) ∧ network ∈ networks ∧
    chain `prefix_of` full ∧ head chain = Some o ∧ last chain = Some target ∧
    Forall (λ x, per_connection x = false) (removelast chain) ∧
    (target = PlainOutbound tag networks flow ∧ chain = full ∨ per_connection target = true).
Proof.
  unfold resolveOutboundLx in Hresolve. apply bind_Ok in Hresolve as (full & Hfull & [= <-]).
  destruct (resolveOutbound_follows up o network full Hfull) as [Hf (tag & networks & flow & Hl & Hin)].
  destruct (cut_spec full) as (before & after & -> & Hb & Ha).
  destruct after as [|x after]; [|assert (Hcut : cutPerConnection (before ++ x :: after) = before ++ [x]) by (destruct after; [done|by destruct Ha])].
  - rewrite app_nil_r in *. exists before, (PlainOutbound tag networks flow), tag, networks, flow. rewrite Ha.
    split_and!; try done; [destruct before; [done|by destruct Hf as [-> _]]| |by left].
    destruct before as [|b k _] using rev_ind; [done|]. rewrite removelast_last. by apply Forall_app in Hb as [Hb _].
  - exists (before ++ x :: after), x, tag, networks, flow. rewrite Hcut. split_and!; try done.
    + exists after. by rewrite <- app_assoc.
    + destruct before; cbn in *; by destruct Hf as [-> _].
    + apply last_snoc.
    + by rewrite removelast_last.
    + destruct after; [left|right; by destruct Ha]. rewrite last_snoc in Hl. by simplify_eq.
Qed.

(** A selector over a group that picks per connection over a node. *)
Definition demo_node : AnOutbound := PlainOutbound "node" ["tcp"]%string None.
Definition demo_group : AnOutbound :=
  GroupOutbound "select" ["tcp"; "udp"]%string false
    (λ _, Some (GroupOutbound "auto" ["tcp"; "udp"]%string true (λ _, Some demo_node))).

Lemma routed_chain_ends_well_witness :
  ∃ chain target, resolveOutboundLx (λ s, s) demo_group "tcp" = Ok chain ∧ last chain = Some target ∧
    Outbound_Tag <$> chain = ["select"; "auto"]%string ∧ is_ok (resolveOutboundLx (λ s, s) demo_group "udp") = false.
Proof.
  destruct (resolveOutboundLx (λ s, s) demo_group "tcp") as [chain|e|p] eqn:H; [|discriminate H..].
  destruct (routed_chain_ends_well (λ s, s) demo_group "tcp" chain H)
    as (full & target & tag & networks & flow & _ & _ & _ & _ & _ & _ & Hl & _).
  exists chain, target. split; [reflexivity|]. split; [exact Hl|]. injection H as <-. split; reflexivity.
Defined.
