(* ===== verification/Bolt.v ===== *)
(** The database under the cache file.

    [experimental/cachefile] keeps its state in a bbolt file: nested buckets of
    key/value pairs, read and written in transactions.  bbolt is not part of the
    repository, so it is a parameter: [Bolt] has the calls the code makes,
    [BoltLaws] what bbolt documents about the calls that succeed.  Any call may
    fail with an error or panic on a damaged file, which the cache file handles.
    [MapBolt] is an instance over finite maps. *)

From S2P Require Import Prelude GoBytes GoSlices.

#[export] Program Instance byte_countable : Countable byte :=
  inj_countable' Byte.to_N (λ n, default x00 (Byte.of_N n)) _.
Next Obligation. intros b. cbn. by rewrite Byte.of_to_N. Qed.

Notation dbkey := (list byte) (only parsing).
(** A bucket, by the names that lead to it from the root. *)
Notation dbpath := (list (list byte)) (only parsing).
Notation buckets := (gmap (list (list byte)) (gmap (list byte) (list byte))).

Class Bolt : Type := {
  (** The database as a transaction sees it. *)
  Tx : Type;
  (** [tx.Bucket(...)]: whether the bucket exists. *)
  Tx_Bucket : dbpath → Tx → result bool;
  Bucket_Get : dbpath → dbkey → Tx → result (option (list byte));
  Bucket_Put : dbpath → dbkey → list byte → Tx → result Tx;
  Bucket_Delete : dbpath → dbkey → Tx → result Tx;
  CreateBucketIfNotExists : dbpath → dbkey → Tx → result Tx;
  DeleteBucket : dbpath → dbkey → Tx → result Tx;
  (** [bucket.ForEach]: the key/value pairs in the order of the keys. *)
  Bucket_ForEach : dbpath → Tx → result (list (dbkey * list byte));
  (** [tx.ForEach] and [bucket.ForEachBucket]: the buckets inside. *)
  Bucket_ForEachBucket : dbpath → Tx → result (list dbkey);
  (** The commit at the end of a read-write transaction. *)
  Tx_Commit : Tx → result Tx;
  (** [bbolt.Open] on a file that was just removed. *)
  Open_removed : result Tx
}.

(** What a read answers, given what is stored: the answer or a panic. *)
Definition reads {A} (r : result A) (a : A) : Prop :=
  match r with Ok x => x = a | Err _ => False | Panic _ => True end.

(** The value under a key; there is no empty key. *)
Definition get (m : buckets) (p : dbpath) (k : dbkey) : option (list byte) :=
  if nonempty k then m !! p ≫= lookup k else None.

(** The content after a bucket and the buckets inside it are gone. *)
Definition drop_bucket (p : dbpath) (c : buckets) : buckets :=
  filter (λ x, ¬ p `prefix_of` x.1) c.

Class BoltLaws (B : Bolt) : Type := {
  content : Tx → buckets;
  Tx_Bucket_law p tx : reads (Tx_Bucket p tx) (bool_decide (is_Some (content tx !! p)));
  Bucket_Get_law p k tx : reads (Bucket_Get p k tx) (get (content tx) p k);
  Bucket_Put_law p k v tx tx' : Bucket_Put p k v tx = Ok tx' →
    content tx' = <[p := <[k := v]> (default ∅ (content tx !! p))]> (content tx);
  Bucket_Put_empty p v tx : is_ok (Bucket_Put p [] v tx) = false;
  Bucket_Delete_law p k tx tx' : Bucket_Delete p k tx = Ok tx' →
    content tx' = alter (delete k) p (content tx);
  CreateBucket_law p k tx tx' : CreateBucketIfNotExists p k tx = Ok tx' →
    content tx' = <[p ++ [k] := default ∅ (content tx !! (p ++ [k]))]> (content tx);
  DeleteBucket_law p k tx tx' : DeleteBucket p k tx = Ok tx' →
    content tx' = drop_bucket (p ++ [k]) (content tx);
  ForEach_law p tx l : Bucket_ForEach p tx = Ok l →
    list_to_map l = default ∅ (content tx !! p) ∧ NoDup l.*1;
  ForEachBucket_law p tx l : Bucket_ForEachBucket p tx = Ok l →
    ∀ k, k ∈ l ↔ is_Some (content tx !! (p ++ [k]));
  Tx_Commit_law tx tx' : Tx_Commit tx = Ok tx' → content tx' = content tx;
  Open_removed_law tx : Open_removed = Ok tx → content tx = ∅
}.

(** ** Single keys *)

Lemma get_insert m p k v p' k' : k ≠ [] →
  get (<[p := <[k := v]> (default ∅ (m !! p))]> m) p' k' = if bool_decide (p' = p ∧ k' = k) then Some v else get m p' k'.
Proof.
  intros Hk0%nonempty_true. unfold get. destruct (decide (k' = k)) as [->|Hk].
  - rewrite Hk0. destruct (decide (p' = p)) as [->|Hp].
    + rewrite lookup_insert_eq. cbn [mbind option_bind]. rewrite lookup_insert_eq. by rewrite bool_decide_eq_true_2.
    + rewrite lookup_insert_ne by done. by rewrite bool_decide_eq_false_2 by naive_solver.
  - rewrite bool_decide_eq_false_2 by naive_solver. destruct (nonempty k'); [|done].
    destruct (decide (p' = p)) as [->|Hp]; [|by rewrite lookup_insert_ne].
    rewrite lookup_insert_eq. cbn [mbind option_bind]. rewrite lookup_insert_ne by done. by destruct (m !! p).
Qed.

Lemma get_delete m p k p' k' :
  get (alter (delete k) p m) p' k' = if bool_decide (p' = p ∧ k' = k) then None else get m p' k'.
Proof.
  unfold get. destruct (nonempty k'); [|by case_bool_decide]. destruct (decide (p' = p)) as [->|Hp].
  - rewrite lookup_alter_eq. destruct (decide (k' = k)) as [->|Hk].
    + rewrite bool_decide_eq_true_2 by done. destruct (m !! p); cbn [mbind option_bind fmap option_fmap option_map]; [apply lookup_delete_eq|done].
    + rewrite bool_decide_eq_false_2 by naive_solver. destruct (m !! p); cbn [mbind option_bind fmap option_fmap option_map]; [by apply lookup_delete_ne|done].
  - rewrite lookup_alter_ne by done. by rewrite bool_decide_eq_false_2 by naive_solver.
Qed.

Lemma get_create m q p' k' : get (<[q := default ∅ (m !! q)]> m) p' k' = get m p' k'.
Proof.
  unfold get. destruct (nonempty k'); [|done]. destruct (decide (p' = q)) as [->|Hp]; [|by rewrite lookup_insert_ne].
  rewrite lookup_insert_eq. cbn [mbind option_bind]. destruct (m !! q); [done|]. apply lookup_empty.
Qed.

Lemma get_drop m q p' k' : get (drop_bucket q m) p' k' = if bool_decide (q `prefix_of` p') then None else get m p' k'.
Proof.
  unfold get, drop_bucket. destruct (nonempty k'); [|by case_bool_decide]. rewrite map_lookup_filter. case_bool_decide as Hq;
    destruct (m !! p'); cbn [mbind option_bind]; [|done| |done].
  - by rewrite option_guard_False by (intros Hn; by apply Hn).
  - by rewrite option_guard_True.
Qed.

Lemma get_empty p k : get ∅ p k = None.
Proof. unfold get. rewrite lookup_empty. by case_match. Qed.

(** Reads that answer from the content. *)
Lemma reads_bind {A C} (r : result A) (f : A → result C) a c :
  reads r a → reads (f a) c → reads (r ≫= f) c.
Proof. destruct r; cbn; [by intros ->|done|done]. Qed.

(** ** An instance *)

(** Finite maps as the database; an empty key is refused, as bbolt does. *)
Definition last_of (p q : dbpath) : option dbkey :=
  match drop (length p) q with [k] => if bool_decide (take (length p) q = p) then Some k else None | _ => None end.

Definition MapBolt : Bolt := {|
  Tx := buckets;
  Tx_Bucket p tx := Ok (bool_decide (is_Some (tx !! p)));
  Bucket_Get p k tx := Ok (get tx p k);
  Bucket_Put p k v tx :=
    match tx !! p with
    | None => Panic "nil bucket"
    | Some b => if nonempty k then Ok (<[p := <[k := v]> b]> tx) else Err (ErrExternal "key required")
    end;
  Bucket_Delete p k tx := Ok (alter (delete k) p tx);
  CreateBucketIfNotExists p k tx :=
    if nonempty k then Ok (<[p ++ [k] := default ∅ (tx !! (p ++ [k]))]> tx) else Err (ErrExternal "bucket name required");
  DeleteBucket p k tx :=
    if bool_decide (is_Some (tx !! (p ++ [k]))) then Ok (drop_bucket (p ++ [k]) tx) else Err (ErrExternal "bucket not found");
  Bucket_ForEach p tx := Ok (map_to_list (default ∅ (tx !! p)));
  Bucket_ForEachBucket p tx := Ok (omap (λ x, last_of p x.1) (map_to_list tx));
  Tx_Commit tx := Ok tx;
  Open_removed := Ok ∅
|}.

Lemma last_of_Some p q k : last_of p q = Some k ↔ q = p ++ [k].
Proof.
  unfold last_of. split.
  - destruct (drop (length p) q) as [|x [|]] eqn:E; try done. case_bool_decide as Ht; intros [= ->].
    by rewrite <- (take_drop (length p) q), Ht, E.
  - intros ->. rewrite drop_app_length, take_app_length. by case_bool_decide.
Qed.

#[export] Program Instance MapBolt_laws : BoltLaws MapBolt := { content tx := tx }.
Next Obligation. done. Qed.
Next Obligation. done. Qed.
Next Obligation. cbn. intros p k v tx tx'. destruct (tx !! p); [|done]. case_match; [|done]. by intros [= <-]. Qed.
Next Obligation. cbn. intros p v tx. by destruct (tx !! p). Qed.
Next Obligation. cbn. by intros p k tx tx' [= <-]. Qed.
Next Obligation. cbn. intros p k tx tx'. case_match; [|done]. by intros [= <-]. Qed.
Next Obligation. cbn. intros p k tx tx'. case_bool_decide; [|done]. by intros [= <-]. Qed.
Next Obligation. cbn. intros p tx l [= <-]. split; [apply list_to_map_to_list|apply NoDup_fst_map_to_list]. Qed.
Next Obligation.
  cbn. intros p tx l [= <-] k. rewrite list_elem_of_omap. split.
  - intros ([q b] & Hin & Hq). apply last_of_Some in Hq. cbn in Hq. subst q. apply elem_of_map_to_list in Hin. by eexists.
  - intros [b Hb]. exists (p ++ [k], b). split; [by apply elem_of_map_to_list|]. by apply last_of_Some.
Qed.
Next Obligation. cbn. by intros tx tx' [= <-]. Qed.
Next Obligation. cbn. by intros tx [= <-]. Qed.
