(* ===== verification/DnsMessage.v ===== *)
(** DNS messages and the functions of the DNS client that build or rewrite them.

    The message type is the part of [github.com/miekg/dns] the client reads and
    writes: the header, the questions and the records with their headers.  The
    rest of the file translates the message functions of [dns/client.go] (fixed
    responses, time to live, padding) and [dns/extension_edns0_subnet.go]. *)

From S2P Require Import Prelude GoBytes Netip Metadata.

(** ** Messages *)

Definition TypeA : Z := 1.
Definition TypeCNAME : Z := 5.
Definition TypeSOA : Z := 6.
Definition TypeMX : Z := 15.
Definition TypeTXT : Z := 16.
Definition TypeAAAA : Z := 28.
Definition TypeOPT : Z := 41.
Definition TypeHTTPS : Z := 65.
Definition ClassINET : Z := 1.
Definition RcodeFormatError : Z := 1.
Definition RcodeServerFailure : Z := 2.
Definition RcodeNameError : Z := 3.
Definition EDNS0SUBNET : Z := 8.
Definition EDNS0PADDING : Z := 12.

Record Question : Type := mkQuestion { q_Name : string; q_Qtype : Z; q_Qclass : Z }.

#[export] Instance question_eq_dec : EqDecision Question.
Proof. solve_decision. Defined.
#[export] Program Instance question_countable : Countable Question :=
  inj_countable' (λ q, (q_Name q, q_Qtype q, q_Qclass q)) (λ '(a, b, c), mkQuestion a b c) _.
Next Obligation. by intros []. Qed.

(** [dns.EDNS0]: the client-subnet option and the others by code. *)
Inductive EDNS0 : Type :=
| EDNS0_SUBNET (family netmask scope : Z) (address : list byte)
| EDNS0_Other (code : Z) (data : list byte).

Definition EDNS0_Option (o : EDNS0) : Z :=
  match o with EDNS0_SUBNET _ _ _ _ => EDNS0SUBNET | EDNS0_Other code _ => code end.

Record RR_Header : Type := mkHdr { h_Name : string; h_Rrtype : Z; h_Class : Z; h_Ttl : Z }.

(** The Go type of a record and its fields besides the header. *)
Inductive RData : Type :=
| D_A (ip : list byte)
| D_AAAA (ip : list byte)
| D_HTTPS (priority : Z) (target : string) (value : list SVCBValue)
| D_CNAME (target : string)
| D_TXT (txt : list string)
| D_MX (preference : Z) (mx : string)
| D_SOA (mname rname : string) (serial minttl : Z)
| D_OPT (option : list EDNS0)
| D_Other (rdata : string).

Record DRR : Type := mkDRR { rr_Hdr : RR_Header; rr_Data : RData }.

Record Message : Type := mkMessage {
  Id : Z;
  Response : bool;
  Authoritative : bool;
  Truncated : bool;
  RecursionDesired : bool;
  RecursionAvailable : bool;
  Rcode : Z;
  Question_ : list Question;
  Answer : list DRR;
  Ns : list DRR;
  Extra : list DRR
}.

Definition set_Id (v : Z) (m : Message) : Message :=
  match m with mkMessage _ b c d e f g h i j k => mkMessage v b c d e f g h i j k end.
Definition set_Answer (v : list DRR) (m : Message) : Message :=
  match m with mkMessage a b c d e f g h _ j k => mkMessage a b c d e f g h v j k end.
Definition set_Extra (v : list DRR) (m : Message) : Message :=
  match m with mkMessage a b c d e f g h i j _ => mkMessage a b c d e f g h i j v end.
(** The same change to every record of the three sections. *)
Definition on_records (f : DRR → DRR) (m : Message) : Message :=
  match m with mkMessage a b c d e f' g h i j k =>
    mkMessage a b c d e f' g h (f <$> i) (f <$> j) (f <$> k) end.

Definition Rrtype (r : DRR) : Z := h_Rrtype (rr_Hdr r).
Definition Ttl (r : DRR) : Z := h_Ttl (rr_Hdr r).
Definition records (m : Message) : list DRR := Answer m ++ Ns m ++ Extra m.

(** [*dns.OPT]: the options of a record that is one. *)
Definition as_OPT (r : DRR) : option (list EDNS0) :=
  match rr_Data r with D_OPT o => Some o | _ => None end.
Definition set_options (o : list EDNS0) (r : DRR) : DRR :=
  match rr_Data r with D_OPT _ => mkDRR (rr_Hdr r) (D_OPT o) | _ => r end.

(** What rule matching sees of a message ([Metadata.Msg]). *)
Definition view_rr (r : DRR) : RR :=
  match rr_Data r with
  | D_A ip => RR_A (h_Name (rr_Hdr r)) ip
  | D_AAAA ip => RR_AAAA (h_Name (rr_Hdr r)) ip
  | D_HTTPS _ _ v => RR_HTTPS (h_Name (rr_Hdr r)) v
  | D_CNAME t => RR_Other (h_Name (rr_Hdr r)) t
  | D_Other d => RR_Other (h_Name (rr_Hdr r)) d
  | _ => RR_Other (h_Name (rr_Hdr r)) ""
  end.
Definition view_msg (m : Message) : Msg :=
  mkMsg (Response m) (Rcode m) (q_Name <$> Question_ m) (view_rr <$> Answer m) (view_rr <$> Ns m) (view_rr <$> Extra m).

(** ** Fixed responses *)

Definition fixed (id rcode : Z) (questions : list Question) (answer : list DRR) : Message :=
  mkMessage id true true false true true rcode questions answer [] [].

(** [func FixedResponseStatus(message *dns.Msg, rcode int) *dns.Msg]. *)
Definition FixedResponseStatus (message : Message) (rcode : Z) : Message :=
  fixed (Id message) rcode (Question_ message) [].

(** One step of the loop of [FixedResponse]: the record of an address. *)
Definition fixedAddress (question : Question) (timeToLive : Z) (address : Addr) : list DRR :=
  match address with
  | Addr4 _ =>
      if q_Qtype question =? TypeA
      then [mkDRR (mkHdr (q_Name question) TypeA ClassINET timeToLive) (D_A (Addr_AsSlice address))] else []
  | Addr6 _ _ =>
      if q_Qtype question =? TypeAAAA
      then [mkDRR (mkHdr (q_Name question) TypeAAAA ClassINET timeToLive) (D_AAAA (Addr_AsSlice address))] else []
  | AddrZero => []
  end.

(** [func FixedResponse(id uint16, question dns.Question, addresses []netip.Addr, timeToLive uint32)]. *)
Definition FixedResponse (id : Z) (question : Question) (addresses : list Addr) (timeToLive : Z) : Message :=
  fixed id RcodeSuccess [question] (addresses ≫= fixedAddress question timeToLive).

(** [func FixedResponseCNAME(...)]. *)
Definition FixedResponseCNAME (id : Z) (question : Question) (record : string) (timeToLive : Z) : Message :=
  fixed id RcodeSuccess [question]
    [mkDRR (mkHdr (q_Name question) TypeCNAME ClassINET timeToLive) (D_CNAME record)].

(** [func FixedResponseTXT(...)]: the header of the record says A. *)
Definition FixedResponseTXT (id : Z) (question : Question) (records : list string) (timeToLive : Z) : Message :=
  fixed id RcodeSuccess [question]
    [mkDRR (mkHdr (q_Name question) TypeA ClassINET timeToLive) (D_TXT records)].

(** [func FixedResponseMX(...)]: the headers of the records say A. *)
Definition FixedResponseMX (id : Z) (question : Question) (records : list (Z * string)) (timeToLive : Z) : Message :=
  fixed id RcodeSuccess [question]
    ((λ r, mkDRR (mkHdr (q_Name question) TypeA ClassINET timeToLive) (D_MX r.1 r.2)) <$> records).

(** ** Time to live *)

(** [func extractNegativeTTL(response *dns.Msg) (uint32, bool)]: the first SOA record decides. *)
Fixpoint negativeTTL (ns : list DRR) : option Z :=
  match ns with
  | [] => None
  | r :: ns =>
      match rr_Data r with
      | D_SOA _ _ _ minttl => Some (if Ttl r <? minttl then Ttl r else minttl)
      | _ => negativeTTL ns
      end
  end.
Definition extractNegativeTTL (response : Message) : option Z := negativeTTL (Ns response).

(** The loop body of [computeTimeToLive]. *)
Definition lowerTTL (timeToLive : Z) (r : DRR) : Z :=
  if Rrtype r =? TypeOPT then timeToLive
  else if (timeToLive =? 0) || (0 <? Ttl r) && (Ttl r <? timeToLive) then Ttl r else timeToLive.

(** [func computeTimeToLive(response *dns.Msg) uint32]. *)
Definition computeTimeToLive (response : Message) : Z :=
  match (if nonempty (Answer response) then None else extractNegativeTTL response) with
  | Some soaTTL => soaTTL
  | None => fold_left lowerTTL (records response) 0
  end.

Definition setTTL (timeToLive : Z) (r : DRR) : DRR :=
  if Rrtype r =? TypeOPT then r
  else mkDRR (mkHdr (h_Name (rr_Hdr r)) (Rrtype r) (h_Class (rr_Hdr r)) timeToLive) (rr_Data r).

(** [func normalizeTTL(response *dns.Msg, timeToLive uint32)]. *)
Definition normalizeTTL (timeToLive : Z) (response : Message) : Message := on_records (setTTL timeToLive) response.

(** [func stripDNSPadding(response *dns.Msg)]. *)
Definition stripDNSPadding (response : Message) : Message :=
  set_Extra ((λ r, match as_OPT r with
    | Some o => set_options (filter (λ it, EDNS0_Option it ≠ EDNS0PADDING) o) r
    | None => r end) <$> Extra response) response.

(** ** Client subnet *)

(** The subnet option of one OPT record: [Some None] for one whose address is not one. *)
Fixpoint subnetOf (o : list EDNS0) : option Prefix :=
  match o with
  | [] => None
  | EDNS0_SUBNET _ netmask _ address :: _ =>
      Some (match AddrFromSlice address with
        | AddrZero => PrefixZero
        | a => PrefixFrom (Addr_Unmap a) netmask
        end)
  | _ :: o => subnetOf o
  end.

Fixpoint subnetOfRecords (extra : list DRR) : Prefix :=
  match extra with
  | [] => PrefixZero
  | r :: extra =>
      match as_OPT r ≫= subnetOf with Some p => p | None => subnetOfRecords extra end
  end.

(** [func clientSubnetFromMessage(message *dns.Msg) netip.Prefix]. *)
Definition clientSubnetFromMessage (message : Message) : Prefix := subnetOfRecords (Extra message).

(** [func removeClientSubnet(message *dns.Msg) *dns.Msg]. *)
Definition removeClientSubnet (message : Message) : Message :=
  if existsb (λ r, existsb (λ o, EDNS0_Option o =? EDNS0SUBNET) (default [] (as_OPT r))) (Extra message)
  then set_Extra ((λ r, match as_OPT r with
    | Some o => set_options (filter (λ it, EDNS0_Option it ≠ EDNS0SUBNET) o) r
    | None => r end) <$> Extra message) message
  else message.

(** The search [findExists] of [setClientSubnet]: the index of the record left
    in [optRecord] (none when the last record looked at is not an OPT record) and
    the index of the option left in [subnetOption]. *)
Fixpoint findSubnetOption (i : nat) (o : list EDNS0) : option nat :=
  match o with
  | [] => None
  | EDNS0_SUBNET _ _ _ _ :: _ => Some i
  | _ :: o => findSubnetOption (S i) o
  end.

Fixpoint findExists (i : nat) (optRecord : option nat) (extra : list DRR) : option nat * option nat :=
  match extra with
  | [] => (optRecord, None)
  | r :: extra =>
      match as_OPT r with
      | Some o =>
          match findSubnetOption 0 o with
          | Some j => (Some i, Some j)
          | None => findExists (S i) (Some i) extra
          end
      | None => findExists (S i) None extra
      end
  end.

Definition emptyOPT : DRR := mkDRR (mkHdr "." TypeOPT 0 0) (D_OPT []).

(** The subnet option rewritten in place: the scope of an existing one is kept. *)
Definition subnetOption (clientSubnet : Prefix) (old : option EDNS0) : EDNS0 :=
  EDNS0_SUBNET (if Addr_Is4 (p_addr clientSubnet) then 1 else 2) (p_bits clientSubnet mod 256)
    (match old with Some (EDNS0_SUBNET _ _ scope _) => scope | _ => 0 end)
    (Addr_AsSlice (p_addr clientSubnet)).

Definition writeSubnet (clientSubnet : Prefix) (j : option nat) (r : DRR) : DRR :=
  let o := default [] (as_OPT r) in
  set_options (match j with
    | Some j => <[j := subnetOption clientSubnet (o !! j)]> o
    | None => o ++ [subnetOption clientSubnet None]
    end) r.

(** [func setClientSubnet(message *dns.Msg, clientSubnet netip.Prefix, clone bool) *dns.Msg].
    The copy made when [clone] is set separates the result from the request; as
    a function of the message it changes nothing. *)
Definition SetClientSubnet (message : Message) (clientSubnet : Prefix) : Message :=
  match findExists 0 None (Extra message) with
  | (None, j) => set_Extra (Extra message ++ [writeSubnet clientSubnet j emptyOPT]) message
  | (Some i, j) => set_Extra (alter (writeSubnet clientSubnet j) i (Extra message)) message
  end.

Section fqdn.
(** [dns.IsFqdn] of [github.com/miekg/dns]. *)
Variable IsFqdn : string → bool.

(** [func FqdnToDomain(fqdn string) string]. *)
Definition FqdnToDomain (fqdn : string) : string :=
  if IsFqdn fqdn then String.substring 0 (String.length fqdn - 1) fqdn else fqdn.
End fqdn.
