(* ===== verification/FakeIP.v ===== *)
(** FakeIP: addresses handed out in place of real ones.

    [dns/transport/fakeip] answers queries with addresses of a reserved range
    and keeps, in a storage, which domain each stands for.  The file models the
    metadata codec ([adapter/fakeip_metadata.go]), the storage interface
    ([adapter/fakeip.go]) as the class [FakeIPStorage], the storage in memory
    ([memory.go]), the store ([store.go], with the wrap counter of [store_lx.go])
    and the transport ([fakeip.go]). *)

From S2P Require Import Prelude GoBytes GoSlices Netip Metadata DnsMessage.

(** ** More of [net/netip] *)

#[export] Program Instance addr_countable : Countable Addr :=
  inj_countable'
    (λ a, match a with AddrZero => inl (inl tt) | Addr4 ip => inl (inr ip) | Addr6 ip z => inr (ip, z) end)
    (λ x, match x with inl (inl _) => AddrZero | inl (inr ip) => Addr4 ip | inr (ip, z) => Addr6 ip z end) _.
Next Obligation. by intros []. Qed.

(** [Addr.Next]: the zero address past the last one.  The zero address itself
    has no successor (Go gives another invalid value there). *)
Definition Addr_Next (a : Addr) : Addr :=
  match a with
  | AddrZero => AddrZero
  | Addr4 ip => if ip + 1 =? 2 ^ 32 then AddrZero else Addr4 (ip + 1)
  | Addr6 ip z => if ip + 1 =? 2 ^ 128 then AddrZero else Addr6 (ip + 1) z
  end.

Definition Addr_zone (a : Addr) : string := match a with Addr6 _ z => z | _ => "" end.

(** [Addr.Less]: by length, then value, then zone. *)
Definition Addr_Less (a b : Addr) : bool :=
  if negb (Addr_BitLen a =? Addr_BitLen b) then Addr_BitLen a <? Addr_BitLen b
  else if negb (Addr_bits a =? Addr_bits b) then Addr_bits a <? Addr_bits b
  else match String.compare (Addr_zone a) (Addr_zone b) with Lt => true | _ => false end.

(** [Addr.As16]: an IPv4 address in its IPv4-mapped form. *)
Definition Addr_As16 (a : Addr) : list byte :=
  match a with
  | AddrZero => put_be 16 0
  | Addr4 ip => put_be 16 (0xffff * 2 ^ 32 + ip)
  | Addr6 ip _ => put_be 16 ip
  end.

(** [Addr.MarshalBinary] and [Addr.UnmarshalBinary]. *)
Definition Addr_MarshalBinary (a : Addr) : list byte :=
  match a with
  | AddrZero => []
  | Addr4 ip => put_be 4 ip
  | Addr6 ip zone => put_be 16 ip ++ str_bytes zone
  end.
Definition errUnexpectedSliceSize : goerr := ErrExternal "unexpected slice size".
Definition Addr_UnmarshalBinary (b : list byte) : result Addr :=
  let n := len b in
  if n =? 0 then Ok AddrZero
  else if n =? 4 then Ok (Addr4 (be b))
  else if n =? 16 then Ok (Addr6 (be b) "")
  else if 16 <? n then Ok (Addr6 (be (slice b 0 16)) (bytes_str (from b 16)))
  else Err errUnexpectedSliceSize.

(** [Prefix.MarshalBinary] and [Prefix.UnmarshalBinary]: the address and one byte of bits. *)
Definition Prefix_MarshalBinary (p : Prefix) : list byte :=
  Addr_MarshalBinary (Addr_withoutZone (p_addr p)) ++ [zb (p_bits p)].
Definition Prefix_UnmarshalBinary (b : list byte) : result Prefix :=
  if len b <? 1 then Err errUnexpectedSliceSize
  else
    addr ← Addr_UnmarshalBinary (slice b 0 (len b - 1));
    Ok (PrefixFrom addr (at_ b (len b - 1))).

(** ** Metadata *)

(** [adapter.FakeIPMetadata]. *)
Record FakeIPMetadata : Type := mkFakeIPMetadata {
  Inet4Range : Prefix;
  Inet6Range : Prefix;
  Inet4Current : Addr;
  Inet6Current : Addr
}.

(** The length of an element as a big-endian [uint16] and the element. *)
Definition marshalElement (data : list byte) : list byte := put_be 2 (len data) ++ data.

(** [func (m *FakeIPMetadata) MarshalBinary() (data []byte, err error)]; the
    marshalers of [net/netip] return no error. *)
Definition FakeIPMetadata_MarshalBinary (m : FakeIPMetadata) : list byte :=
  marshalElement (Prefix_MarshalBinary (Inet4Range m)) ++
  marshalElement (Prefix_MarshalBinary (Inet6Range m)) ++
  marshalElement (Addr_MarshalBinary (Inet4Current m)) ++
  marshalElement (Addr_MarshalBinary (Inet6Current m)).

(** One round of the loop of [UnmarshalBinary]; a missing length panics in [common.Must]. *)
Definition unmarshalElement {A} (unmarshal : list byte → result A) : reader A := λ bs,
  match ReadBE 2 bs with
  | Ok (length, bs) => '(element, bs) ← ReadFull length bs; a ← unmarshal element; Ok (a, bs)
  | Err _ => Panic "unexpected EOF"
  | Panic p => Panic p
  end.

(** [func (m *FakeIPMetadata) UnmarshalBinary(data []byte) error]. *)
Definition FakeIPMetadata_UnmarshalBinary (data : list byte) : result FakeIPMetadata :=
  '(range4, data) ← unmarshalElement Prefix_UnmarshalBinary data;
  '(range6, data) ← unmarshalElement Prefix_UnmarshalBinary data;
  '(current4, data) ← unmarshalElement Addr_UnmarshalBinary data;
  '(current6, _) ← unmarshalElement Addr_UnmarshalBinary data;
  Ok (mkFakeIPMetadata range4 range6 current4 current6).

(** ** The storage interface *)

(** [adapter.FakeIPStorage].  A read may change the storage: the cache file
    replaces a damaged database. *)
Class FakeIPStorage (S : Type) : Type := {
  FakeIPMetadata_ : S → option FakeIPMetadata * S;
  FakeIPSaveMetadata : FakeIPMetadata → S → option goerr * S;
  FakeIPSaveMetadataAsync : FakeIPMetadata → S → S;
  FakeIPStore : Addr → string → S → option goerr * S;
  FakeIPLoad : Addr → S → option string * S;
  FakeIPLoadDomain : string → bool → S → option Addr * S;
  FakeIPReset : S → option goerr * S
}.

(** ** The storage in memory *)

(** [MemoryStorage] of [memory.go]. *)
Record MemoryStorage : Type := mkMemoryStorage {
  addressCache : gmap Addr string;
  domainCache4 : gmap string Addr;
  domainCache6 : gmap string Addr
}.

(** [func NewMemoryStorage() *MemoryStorage]. *)
Definition NewMemoryStorage : MemoryStorage := mkMemoryStorage ∅ ∅ ∅.

(** [func (s *MemoryStorage) FakeIPStore(address netip.Addr, domain string) error]. *)
Definition MemoryStorage_FakeIPStore (address : Addr) (domain : string) (s : MemoryStorage) : MemoryStorage :=
  let s :=
    match addressCache s !! address with
    | Some oldDomain =>
        if Addr_Is4 address
        then mkMemoryStorage (addressCache s) (delete oldDomain (domainCache4 s)) (domainCache6 s)
        else mkMemoryStorage (addressCache s) (domainCache4 s) (delete oldDomain (domainCache6 s))
    | None => s
    end in
  let s := mkMemoryStorage (<[address := domain]> (addressCache s)) (domainCache4 s) (domainCache6 s) in
  if Addr_Is4 address
  then mkMemoryStorage (addressCache s) (<[domain := address]> (domainCache4 s)) (domainCache6 s)
  else mkMemoryStorage (addressCache s) (domainCache4 s) (<[domain := address]> (domainCache6 s)).

(** [func (s *MemoryStorage) FakeIPLoad(address netip.Addr) (string, bool)]. *)
Definition MemoryStorage_FakeIPLoad (address : Addr) (s : MemoryStorage) : option string := addressCache s !! address.

(** [func (s *MemoryStorage) FakeIPLoadDomain(domain string, isIPv6 bool) (netip.Addr, bool)]. *)
Definition MemoryStorage_FakeIPLoadDomain (domain : string) (isIPv6 : bool) (s : MemoryStorage) : option Addr :=
  if negb isIPv6 then domainCache4 s !! domain else domainCache6 s !! domain.

#[export] Instance memory_storage : FakeIPStorage MemoryStorage := {
  FakeIPMetadata_ s := (None, s);
  FakeIPSaveMetadata _ s := (None, s);
  FakeIPSaveMetadataAsync _ s := s;
  FakeIPStore address domain s := (None, MemoryStorage_FakeIPStore address domain s);
  FakeIPLoad address s := (MemoryStorage_FakeIPLoad address s, s);
  FakeIPLoadDomain domain isIPv6 s := (MemoryStorage_FakeIPLoadDomain domain isIPv6 s, s);
  FakeIPReset _ := (None, NewMemoryStorage)
}.

(** ** The store *)

(** One step of the loop of [broadcastAddress]: [raw[i/8] |= 1 << (7 - i%8)]. *)
Definition set_bit (raw : list byte) (i : Z) : list byte :=
  alter (λ b, zb (Z.lor (bz b) (Z.shiftl 1 (7 - i mod 8)))) (Z.to_nat (i / 8)) raw.

(** [func broadcastAddress(prefix netip.Prefix) netip.Addr]. *)
Definition broadcastAddress (prefix : Prefix) : Addr :=
  let addr := p_addr prefix in
  let bits := if Addr_Is4 addr then p_bits prefix + 96 else p_bits prefix in
  let raw := fold_left set_bit (seqZ bits (128 - bits)) (Addr_As16 addr) in
  if Addr_Is4 addr then Addr4 (be (from raw 12)) else Addr6 (be raw) "".

(** [LxWrap], [lxFamilyWraps] and [lxStoreWraps] of [store_lx.go]; times in
    nanoseconds, [None] the zero time. *)
Record lxFamilyWraps : Type := mkFamilyWraps {
  passStart : option Z;
  wrap_Count : Z;
  wrap_Last : option Z;
  wrap_Interval : Z
}.
Definition noWraps : lxFamilyWraps := mkFamilyWraps None 0 None 0.
Definition lxStoreWraps : Type := lxFamilyWraps * lxFamilyWraps.

(** [func (f *lxFamilyWraps) note(now time.Time, wrapped bool)]. *)
Definition lxFamilyWraps_note (now : Z) (wrapped : bool) (f : lxFamilyWraps) : lxFamilyWraps :=
  if negb wrapped then f
  else mkFamilyWraps (Some now) ((wrap_Count f + 1) mod 2 ^ 64) (Some now)
    (match passStart f with Some t => now - t | None => wrap_Interval f end).

Section store.
Context {S : Type} `{FakeIPStorage S}.

(** [Store]: [storage] is nil until [Start]; [wraps] is the entry of [lxWraps]. *)
Record Store : Type := mkStore {
  inet4Range : Prefix;
  inet6Range : Prefix;
  inet4Last : Addr;
  inet6Last : Addr;
  inet4Current : Addr;
  inet6Current : Addr;
  storage : option S;
  wraps : option lxStoreWraps
}.

Definition set_storage (v : S) (s : Store) : Store :=
  match s with mkStore a b c d e f _ h => mkStore a b c d e f (Some v) h end.
Definition set_current4 (v : Addr) (s : Store) : Store :=
  match s with mkStore a b c d _ f g h => mkStore a b c d v f g h end.
Definition set_current6 (v : Addr) (s : Store) : Store :=
  match s with mkStore a b c d e _ g h => mkStore a b c d e v g h end.
Definition set_wraps (v : lxStoreWraps) (s : Store) : Store :=
  match s with mkStore a b c d e f g _ => mkStore a b c d e f g (Some v) end.

(** [func NewStore(ctx, logger, inet4Range, inet6Range) *Store]. *)
Definition NewStore (range4 range6 : Prefix) : Store :=
  mkStore range4 range6
    (if Prefix_IsValid range4 then broadcastAddress range4 else AddrZero)
    (if Prefix_IsValid range6 then broadcastAddress range6 else AddrZero)
    AddrZero AddrZero None None.

(** The metadata of [Close] and [Create]. *)
Definition storeMetadata (s : Store) : FakeIPMetadata :=
  mkFakeIPMetadata (inet4Range s) (inet6Range s) (inet4Current s) (inet6Current s).

(** [func (s *Store) Start() error]: [st] is the cache file when it stores
    FakeIP records and a new memory storage otherwise. *)
Definition Store_Start (st : S) (s : Store) : Store :=
  let '(metadata, st) := FakeIPMetadata_ st in
  let fresh :=
    let s := if Prefix_IsValid (inet4Range s) then set_current4 (Addr_Next (p_addr (inet4Range s))) s else s in
    let s := if Prefix_IsValid (inet6Range s) then set_current6 (Addr_Next (p_addr (inet6Range s))) s else s in
    set_storage (FakeIPReset st).2 s in
  match metadata with
  | Some m =>
      if bool_decide (Inet4Range m = inet4Range s) && bool_decide (Inet6Range m = inet6Range s)
      then set_storage st (set_current6 (Inet6Current m) (set_current4 (Inet4Current m) s))
      else fresh
  | None => fresh
  end.

(** [func (s *Store) Contains(address netip.Addr) bool]. *)
Definition Store_Contains (s : Store) (address : Addr) : bool :=
  Prefix_Contains (inet4Range s) address || Prefix_Contains (inet6Range s) address.

(** [func (s *Store) Close() error]. *)
Definition Store_Close (s : Store) : option goerr * Store :=
  match storage s with
  | None => (None, s)
  | Some st => let '(err, st) := FakeIPSaveMetadata (storeMetadata s) st in (err, set_storage st s)
  end.

(** [func lxNoteCreate(s *Store, previous4, previous6 netip.Addr)]. *)
Definition lxNoteCreate (now : Z) (previous4 previous6 : Addr) (s : Store) : Store :=
  let w := default (noWraps, noWraps) (wraps s) in
  let w4 := if bool_decide (inet4Current s = previous4) then w.1
    else lxFamilyWraps_note now (Addr_Less (inet4Current s) previous4) w.1 in
  let w6 := if bool_decide (inet6Current s = previous6) then w.2
    else lxFamilyWraps_note now (Addr_Less (inet6Current s) previous6) w.2 in
  set_wraps (w4, w6) s.

(** The next address of a family: one further, back to the start of the range
    at its last address or outside it. *)
Definition nextAddress (range : Prefix) (last current : Addr) : Addr :=
  let next := Addr_Next current in
  if bool_decide (next = last) || negb (Prefix_Contains range next)
  then Addr_Next (Addr_Next (p_addr range)) else next.

(** [Create] once it holds [addressAccess]: the address or the error, and the
    warning logged when the storage fails. *)
Definition createLocked (now : Z) (domain : string) (isIPv6 : bool) (s : Store) : result Addr * option goerr * Store :=
  match storage s with
  | None => (Panic "invalid memory address or nil pointer dereference", None, s)
  | Some st =>
      let '(loaded, st) := FakeIPLoadDomain domain isIPv6 st in
      let s := set_storage st s in
      match loaded with
      | Some address => (Ok address, None, s)
      | None =>
          let current := if negb isIPv6 then inet4Current s else inet6Current s in
          let note := lxNoteCreate now (inet4Current s) (inet6Current s) in
          if negb (Addr_IsValid current)
          then (Err (ErrNew (if negb isIPv6 then "missing IPv4 fakeip address range" else "missing IPv6 fakeip address range")),
                None, note s)
          else
            let address := if negb isIPv6 then nextAddress (inet4Range s) (inet4Last s) current
              else nextAddress (inet6Range s) (inet6Last s) current in
            let s := if negb isIPv6 then set_current4 address s else set_current6 address s in
            let '(err, st) := FakeIPStore address domain st in
            let st := FakeIPSaveMetadataAsync (storeMetadata s) st in
            (Ok address, err, note (set_storage st s))
      end
  end.

(** [func (s *Store) Create(domain string, isIPv6 bool) (netip.Addr, error)]: a
    look before the lock, then [createLocked]. *)
Definition Store_Create (now : Z) (domain : string) (isIPv6 : bool) (s : Store) : result Addr * option goerr * Store :=
  match storage s with
  | None => (Panic "invalid memory address or nil pointer dereference", None, s)
  | Some st =>
      let '(loaded, st) := FakeIPLoadDomain domain isIPv6 st in
      let s := set_storage st s in
      match loaded with
      | Some address => (Ok address, None, s)
      | None => createLocked now domain isIPv6 s
      end
  end.

(** [func (s *Store) Lookup(address netip.Addr) (string, bool)]. *)
Definition Store_Lookup (address : Addr) (s : Store) : result (option string) * Store :=
  match storage s with
  | None => (Panic "invalid memory address or nil pointer dereference", s)
  | Some st => let '(domain, st) := FakeIPLoad address st in (Ok domain, set_storage st s)
  end.

(** [func (s *Store) Reset() error]. *)
Definition Store_Reset (s : Store) : result (option goerr) * Store :=
  match storage s with
  | None => (Panic "invalid memory address or nil pointer dereference", s)
  | Some st => let '(err, st) := FakeIPReset st in (Ok err, set_storage st s)
  end.

(** ** The transport *)

Record Transport : Type := mkTransport { tr_store : Store; inet4Enabled : bool; inet6Enabled : bool }.

(** [func NewTransport(ctx, logger, tag, options) (adapter.DNSTransport, error)]. *)
Definition NewTransport (range4 range6 : Prefix) : result Transport :=
  if negb (Prefix_IsValid range4) && negb (Prefix_IsValid range6)
  then Err (ErrNew "at least one of inet4_range or inet6_range must be set")
  else Ok (mkTransport (NewStore range4 range6) (Prefix_IsValid range4) (Prefix_IsValid range6)).

(** [func (t *Transport) Exchange(ctx, message) ( *mDNS.Msg, error)]. *)
Definition Transport_Exchange (IsFqdn : string → bool) (now : Z) (message : Message) (t : Transport)
    : result Message * Transport :=
  match Question_ message with
  | [] => (Panic "index out of range", t)
  | question :: _ =>
      let a := q_Qtype question =? TypeA in
      let aaaa := q_Qtype question =? TypeAAAA in
      if negb a && negb aaaa then (Err (ErrNew "only IP queries are supported by fakeip"), t)
      else if a && negb (inet4Enabled t) || aaaa && negb (inet6Enabled t)
      then (Ok (FixedResponseStatus message RcodeSuccess), t)
      else
        let domain := FqdnToDomain IsFqdn (q_Name question) in
        if 255 <? Z.of_nat (String.length domain) then (Err (ErrNew "domain name too long for fakeip"), t)
        else
          let '(address, _, s) := Store_Create now domain aaaa (tr_store t) in
          let t := mkTransport s (inet4Enabled t) (inet6Enabled t) in
          match address with
          | Ok address => (Ok (FixedResponse (Id message) question [address] 600), t)
          | Err e => (Err e, t)
          | Panic p => (Panic p, t)
          end
  end.
End store.
Arguments Store : clear implicits.
Arguments Transport : clear implicits.
