(* ===== verification/FakePool.v ===== *)
(** The pool of FakeIP addresses: arithmetic of a range.

    [broadcastAddress], [Prefix_Contains] and [nextAddress] on the integers of
    one address family, and the cycle [nextAddress] walks through. *)

From S2P Require Import Prelude GoBytes GoSlices Netip Metadata DnsMessage FakeIP.

(** ** [broadcastAddress] as a bit mask *)

Lemma lor_set_bit x k : 0 ≤ x → 0 ≤ k → Z.lor x (2 ^ k) = if Z.testbit x k then x else x + 2 ^ k.
Proof.
  intros Hx Hk. destruct (Z.testbit x k) eqn:E.
  - apply Z.bits_inj'. intros n Hn. rewrite Z.lor_spec, Z.pow2_bits_eqb by lia.
    destruct (Z.eqb_spec k n) as [->|]; [by rewrite E|by rewrite orb_false_r].
  - rewrite <- Z.lxor_lor, <- Z.add_nocarry_lxor; [done|..];
      apply Z.bits_inj'; intros n Hn; rewrite Z.land_spec, Z.pow2_bits_eqb, Z.bits_0 by lia;
      (destruct (Z.eqb_spec k n) as [->|]; [by rewrite E|by rewrite andb_false_r]).
Qed.

Lemma be_cons_app l b r : be (l ++ b :: r) = be l * 256 ^ (len r + 1) + bz b * 256 ^ len r + be r.
Proof.
  unfold be. rewrite be_acc_app. cbn [be_acc].
  assert (∀ r acc, be_acc acc r = acc * 256 ^ len r + be_acc 0 r) as Hacc.
  { clear. induction r as [|b r IH]; intros acc; [by rewrite len_nil, Z.pow_0_r, Z.mul_1_r, Z.add_0_r|].
    cbn [be_acc]. rewrite IH, (IH (0 * 256 + bz b)), len_cons.
    rewrite Z.pow_add_r by (pose proof (len_nonneg r); lia). lia. }
  rewrite Hacc. rewrite Z.pow_add_r by (pose proof (len_nonneg r); lia). lia.
Qed.

Lemma testbit_middle h b l j n :
  0 ≤ n → 0 ≤ j < 8 → 0 ≤ b < 256 → 0 ≤ l < 256 ^ n → 0 ≤ h →
  Z.testbit (h * 256 ^ (n + 1) + b * 256 ^ n + l) (8 * n + j) = Z.testbit b j.
Proof.
  intros Hn Hj Hb Hl Hh. rewrite Z.pow_add_r by lia.
  replace (h * (256 ^ n * 256 ^ 1) + b * 256 ^ n + l) with ((h * 256 + b) * 256 ^ n + l) by lia.
  rewrite (Z.add_comm (8 * n)), <- (Z.div_pow2_bits _ (8 * n)) by lia.
  replace (2 ^ (8 * n)) with (256 ^ n) by (rewrite Z.pow_mul_r by lia; done).
  rewrite Z.div_add_l by lia. rewrite (Z.div_small l) by lia. rewrite Z.add_0_r.
  rewrite <- (Z.mod_pow2_bits_low (h * 256 + b) 8 j) by lia.
  change (2 ^ 8) with 256. rewrite Z.add_comm, Z.mod_add by lia. by rewrite Z.mod_small by lia.
Qed.

(** Setting bit [i] of the bytes sets bit [127 - i] of the number. *)
Lemma be_set_bit raw i : len raw = 16 → 0 ≤ i < 128 → be (set_bit raw i) = Z.lor (be raw) (2 ^ (127 - i)).
Proof.
  intros Hlen Hi. unfold set_bit.
  assert (0 ≤ i / 8 < 16) as Hq by (split; [apply Z.div_pos; lia|apply Z.div_lt_upper_bound; lia]).
  assert (0 ≤ i mod 8 < 8) as Hr by (apply Z.mod_pos_bound; lia).
  assert (i = 8 * (i / 8) + i mod 8) as Hi' by (apply Z.div_mod; lia).
  destruct (lookup_lt_is_Some_2 raw (Z.to_nat (i / 8))) as [b Hb]; [unfold len in Hlen; lia|].
  assert (length (take (Z.to_nat (i / 8)) raw) = Z.to_nat (i / 8)) as Htake.
  { rewrite length_take. unfold len in Hlen. lia. }
  assert (len (drop (S (Z.to_nat (i / 8))) raw) = 15 - i / 8) as Hdrop by (rewrite len_drop; lia).
  rewrite <- (take_drop_middle raw (Z.to_nat (i / 8)) b Hb) at 1 2.
  rewrite (alter_app_r_alt _ _ _ (Z.to_nat (i / 8))) by lia. rewrite Htake, Nat.sub_diag. cbn [alter list_alter].
  set (l := take _ raw) in *. set (r := drop _ raw) in *. rewrite !be_cons_app, Hdrop.
  pose proof (bz_range b) as Hbz. pose proof (be_bound r) as Hbr. pose proof (be_bound l) as Hbl. rewrite Hdrop in Hbr.
  rewrite lor_set_bit; [|nia|lia].
  replace (127 - i) with (8 * (15 - i / 8) + (7 - i mod 8)) by lia.
  rewrite testbit_middle by lia. rewrite Z.shiftl_1_l, lor_set_bit by lia.
  destruct (Z.testbit (bz b) (7 - i mod 8)) eqn:E; [by rewrite bz_zb_small by lia|].
  rewrite bz_zb_small.
  - rewrite (Z.pow_add_r 2) by lia. rewrite (Z.pow_mul_r 2 8) by lia. change (2 ^ 8) with 256. lia.
  - assert (bz b + 2 ^ (7 - i mod 8) = Z.lor (bz b) (2 ^ (7 - i mod 8))) as -> by (rewrite lor_set_bit, E by lia; done).
    split; [apply Z.lor_nonneg; lia|]. change 256 with (2 ^ 8).
    apply Z.log2_lt_cancel. rewrite Z.log2_pow2 by lia. rewrite Z.log2_lor by lia.
    rewrite Z.log2_pow2 by lia. apply Z.max_lub_lt; [|lia].
    destruct (Z.eq_dec (bz b) 0) as [->|]; [done|]. apply Z.log2_lt_pow2; lia.
Qed.

Lemma len_set_bit raw i : len (set_bit raw i) = len raw.
Proof. unfold len, set_bit. by rewrite length_alter. Qed.

Lemma len_set_bits l raw : len (fold_left set_bit l raw) = len raw.
Proof. revert raw. induction l as [|i l IH]; intros raw; [done|]. cbn. by rewrite IH, len_set_bit. Qed.

Lemma lor_ones_succ x k : 0 ≤ k → Z.lor (Z.lor x (2 ^ k)) (Z.ones k) = Z.lor x (Z.ones (k + 1)).
Proof.
  intros Hk. apply Z.bits_inj'. intros n Hn. rewrite !Z.lor_spec, Z.pow2_bits_eqb by lia.
  destruct (Z.testbit x n); [done|]. cbn.
  destruct (Z.lt_trichotomy n k) as [?|[->|?]].
  - rewrite !Z.ones_spec_low by lia. by rewrite orb_true_r.
  - rewrite Z.eqb_refl, (Z.ones_spec_low (k + 1)) by lia. done.
  - rewrite !Z.ones_spec_high by lia. by rewrite (proj2 (Z.eqb_neq k n)) by lia.
Qed.

Lemma be_set_bits k raw : len raw = 16 → 0 ≤ k ≤ 128 →
  be (fold_left set_bit (seqZ (128 - k) k) raw) = Z.lor (be raw) (Z.ones k).
Proof.
  intros Hlen [Hk Hk']. revert raw Hlen Hk'. pattern k. revert k Hk. apply natlike_ind; [by intros; rewrite Z.lor_0_r|].
  intros k Hk IH raw Hlen Hk'. rewrite seqZ_cons by lia. cbn [fold_left].
  replace (Z.succ (128 - Z.succ k)) with (128 - k) by lia. rewrite Z.pred_succ.
  rewrite IH by (rewrite ?len_set_bit; lia). rewrite be_set_bit by lia.
  replace (127 - (128 - Z.succ k)) with k by lia. rewrite lor_ones_succ by lia. by rewrite Z.add_1_r.
Qed.

(** ** The pool of one family *)

Definition width (isIPv6 : bool) : Z := if isIPv6 then 128 else 32.
Definition mkAddr (isIPv6 : bool) (x : Z) : Addr := if isIPv6 then Addr6 x "" else Addr4 x.
Definition pool_base (r : Prefix) : Z := Addr_bits (p_addr r).
Definition pool_last (isIPv6 : bool) (r : Prefix) : Z := Z.lor (pool_base r) (Z.ones (width isIPv6 - p_bits r)).
(** How many addresses [nextAddress] walks through. *)
Definition pool_size (isIPv6 : bool) (r : Prefix) : Z := pool_last isIPv6 r - pool_base r - 2.

(** A range of the family with room for at least one address.  Ranges of
    IPv4-mapped IPv6 addresses are left out. *)
Definition range_ok (isIPv6 : bool) (r : Prefix) : Prop :=
  p_addr r = mkAddr isIPv6 (pool_base r) ∧ 0 ≤ p_bits r ≤ width isIPv6 ∧
  (if isIPv6 then 2 ^ 48 else 0) ≤ pool_base r < 2 ^ width isIPv6 ∧ 0 < pool_size isIPv6 r.

(** The current address of a family: the one before the pool or one of it. *)
Definition in_pool (isIPv6 : bool) (r : Prefix) (a : Addr) : Prop :=
  ∃ x, a = mkAddr isIPv6 x ∧ pool_base r + 1 ≤ x < pool_last isIPv6 r.

Lemma be_last l n : 0 ≤ n ≤ len l → be (from l (len l - n)) = be l mod 256 ^ n.
Proof.
  intros Hn. unfold from. set (k := Z.to_nat (len l - n)).
  assert (be l = be (take k l) * 256 ^ n + be (drop k l)) as ->.
  { destruct (drop k l) as [|b r] eqn:E.
    - assert (len (drop k l) = 0) as Hl by by rewrite E. rewrite len_drop in Hl. assert (n = 0) as -> by lia.
      rewrite <- (take_drop k l) at 1. rewrite E, app_nil_r, Z.pow_0_r. cbn. lia.
    - rewrite <- (take_drop k l) at 1. rewrite E, be_cons_app.
      assert (len (drop k l) = n) as Hl by (rewrite len_drop; lia). rewrite E, len_cons in Hl.
      rewrite <- (app_nil_l (b :: r)), be_cons_app. change (be []) with 0. rewrite Z.add_comm in Hl. rewrite Hl. lia. }
  rewrite Z.add_comm, Z.mod_add by (apply Z.pow_nonzero; lia).
  rewrite Z.mod_small; [done|]. pose proof (be_bound (drop k l)) as Hb. rewrite len_drop in Hb.
  by replace (len l - Z.of_nat k) with n in Hb by lia; rewrite Z.max_r in Hb by lia.
Qed.

Lemma lor_ones_div x k : 0 ≤ k → Z.lor x (Z.ones k) / 2 ^ k = x / 2 ^ k.
Proof.
  intros Hk. rewrite <- !Z.shiftr_div_pow2, Z.shiftr_lor by lia.
  rewrite (Z.shiftr_div_pow2 (Z.ones k)), Z.ones_equiv by lia.
  rewrite (Z.div_small (Z.pred _)); [by rewrite Z.lor_0_r|]. pose proof (Z.pow_pos_nonneg 2 k). lia.
Qed.

Lemma lor_ones_eq x k : 0 ≤ k → Z.lor x (Z.ones k) = (x / 2 ^ k) * 2 ^ k + (2 ^ k - 1).
Proof.
  intros Hk. rewrite (Z.div_mod (Z.lor x (Z.ones k)) (2 ^ k)) by (apply Z.pow_nonzero; lia).
  rewrite lor_ones_div by lia. rewrite <- Z.land_ones by lia.
  replace (Z.land (Z.lor x (Z.ones k)) (Z.ones k)) with (Z.ones k);
    [rewrite Z.ones_equiv; lia|].
  apply Z.bits_inj'. intros n Hn. rewrite Z.land_spec, Z.lor_spec.
  by destruct (Z.testbit (Z.ones k) n), (Z.testbit x n).
Qed.

Lemma div_between x b k : 0 ≤ k → b ≤ x ≤ Z.lor b (Z.ones k) → x / 2 ^ k = b / 2 ^ k.
Proof.
  intros Hk Hx. apply Z.le_antisymm.
  - rewrite <- (lor_ones_div b) by done. apply Z.div_le_mono; lia.
  - apply Z.div_le_mono; lia.
Qed.

Lemma lor_ones_bound x k w : 0 ≤ k ≤ w → 0 ≤ x < 2 ^ w → 0 ≤ Z.lor x (Z.ones k) < 2 ^ w.
Proof.
  intros Hk Hx. split; [apply Z.lor_nonneg; split; [lia|rewrite Z.ones_equiv; pose proof (Z.pow_pos_nonneg 2 k); lia]|].
  replace w with (k + (w - k)) in * by lia. rewrite Z.pow_add_r in * by lia. rewrite lor_ones_eq by lia.
  assert (x / 2 ^ k < 2 ^ (w - k)) by (apply Z.div_lt_upper_bound; lia). nia.
Qed.

Section pool.
Context (isIPv6 : bool) (r : Prefix) (Hr : range_ok isIPv6 r).

Notation base := (pool_base r).
Notation last := (pool_last isIPv6 r).

Lemma pool_bounds : 0 ≤ base ∧ base + 2 < last ∧ last < 2 ^ width isIPv6.
Proof using Hr.
  destruct Hr as (_ & Hbits & Hbase & Hsize). unfold pool_size in Hsize.
  assert (0 ≤ base) by (destruct isIPv6; lia). repeat split; [lia..|].
  unfold pool_last. apply lor_ones_bound; lia.
Qed.

Lemma broadcastAddress_pool : broadcastAddress r = mkAddr isIPv6 last.
Proof using Hr.
  pose proof pool_bounds as (Hb0 & Hlast & Hmax). destruct Hr as (Haddr & Hbits & Hbase & _).
  unfold broadcastAddress, pool_last in *. destruct isIPv6; cbn [mkAddr width] in *; rewrite Haddr; cbn [Addr_Is4 Addr_As16].
  - replace (seqZ (p_bits r) (128 - p_bits r)) with (seqZ (128 - (128 - p_bits r)) (128 - p_bits r)) by (f_equal; lia).
    rewrite be_set_bits, be_put_be by (rewrite ?len_put_be; lia). done.
  - replace (seqZ (p_bits r + 96) (128 - (p_bits r + 96))) with (seqZ (128 - (32 - p_bits r)) (32 - p_bits r)) by (f_equal; lia).
    set (raw := fold_left _ _ _).
    assert (len raw = 16) as Hlen.
    { unfold raw. by rewrite len_set_bits, len_put_be. }
    change 12 with (16 - 4). rewrite <- Hlen, be_last by lia. unfold raw. rewrite be_set_bits, be_put_be by (rewrite ?len_put_be; lia).
    change (256 ^ 4) with (2 ^ 32). rewrite <- Z.land_ones, Z.land_lor_distr_l, !Z.land_ones by lia.
    rewrite Z.add_comm, Z.mod_add, (Z.mod_small base) by lia.
    rewrite (Z.mod_small (Z.ones _)); [done|]. rewrite Z.ones_equiv.
    pose proof (Z.pow_pos_nonneg 2 (32 - p_bits r)). pose proof (Z.pow_le_mono_r 2 (32 - p_bits r) 32). lia.
Qed.

Lemma Prefix_Contains_pool x : 0 ≤ x < 2 ^ width isIPv6 →
  Prefix_Contains r (mkAddr isIPv6 x) = (x / 2 ^ (width isIPv6 - p_bits r) =? base / 2 ^ (width isIPv6 - p_bits r)).
Proof using Hr.
  intros Hx. destruct Hr as (Haddr & Hbits & Hbase & _). unfold Prefix_Contains, Prefix_IsValid, pool_base in *.
  rewrite (proj2 (Z.leb_le 0 (p_bits r))) by lia. rewrite Haddr.
  assert (∀ a b k, 0 ≤ k → (Z.shiftr (Z.lxor a b) k =? 0) = (a / 2 ^ k =? b / 2 ^ k)) as Hxor.
  { intros a b k Hk. rewrite Z.shiftr_lxor, !Z.shiftr_div_pow2 by lia. apply eq_true_iff_eq. rewrite !Z.eqb_eq. apply Z.lxor_eq_0_iff. }
  destruct isIPv6; cbn [width] in Hbits; cbn; apply Hxor; lia.
Qed.

Lemma Contains_pool x : base ≤ x ≤ last → Prefix_Contains r (mkAddr isIPv6 x) = true.
Proof using Hr.
  intros Hx. pose proof pool_bounds. rewrite Prefix_Contains_pool by lia. apply Z.eqb_eq, div_between; [|done].
  destruct Hr as (_ & ? & _). lia.
Qed.

Lemma Addr_Next_pool x : x + 1 < 2 ^ width isIPv6 → Addr_Next (mkAddr isIPv6 x) = mkAddr isIPv6 (x + 1).
Proof using. clear Hr. intros Hx. destruct isIPv6; cbn in *; by rewrite (proj2 (Z.eqb_neq _ _)) by lia. Qed.

(** [nextAddress] walks through the pool in a cycle. *)
Lemma nextAddress_pool x : base + 1 ≤ x < last →
  nextAddress r (mkAddr isIPv6 last) (mkAddr isIPv6 x) =
  mkAddr isIPv6 (base + 2 + (x - base - 1) mod pool_size isIPv6 r).
Proof using Hr.
  intros Hx. pose proof pool_bounds as (Hb & Hl & Hm). unfold nextAddress, pool_size.
  rewrite Addr_Next_pool by lia. destruct (Z.eq_dec (x + 1) last) as [He|Hne].
  - rewrite bool_decide_eq_true_2 by (by rewrite He). cbn [orb].
    destruct Hr as (Haddr & _). rewrite Haddr, !Addr_Next_pool by lia.
    replace (x - base - 1) with (last - base - 2) by lia. rewrite Z.mod_same by lia. f_equal. lia.
  - rewrite bool_decide_eq_false_2 by (destruct isIPv6; cbn; congruence).
    rewrite Contains_pool by lia. cbn. rewrite Z.mod_small by lia. f_equal. lia.
Qed.

Lemma nextAddress_in_pool x : in_pool isIPv6 r x → in_pool isIPv6 r (nextAddress r (mkAddr isIPv6 last) x).
Proof using Hr.
  intros (z & -> & Hz). rewrite nextAddress_pool by done. pose proof pool_bounds.
  pose proof (Z.mod_pos_bound (z - base - 1) (pool_size isIPv6 r)) as Hmod. unfold pool_size in *.
  eexists. split; [done|]. lia.
Qed.
End pool.
