(* ===== verification/FakeIPTheorems.v ===== *)
(** FakeIP theorems.

    The abstract view of a storage is a [FakeMap]: the name of each address and
    the address of each name and family.  [FakeIPStorageLaws] is what a storage
    promises about it, failures included; the theorems about the store are
    proved against this interface. *)

From S2P Require Import Prelude GoBytes GoSlices Netip Metadata DnsMessage FakeIP FakePool.

(** ** The abstract map *)

Record FakeMap : Type := mkFakeMap {
  fm_names : Addr → option string;
  fm_addrs : bool → string → option Addr
}.

#[export] Instance fakemap_equiv : Equiv FakeMap := λ m m',
  (∀ a, fm_names m a = fm_names m' a) ∧ (∀ v d, fm_addrs m v d = fm_addrs m' v d).
#[export] Instance fakemap_equivalence : Equivalence (≡@{FakeMap}).
Proof.
  split; [by split|by intros ?? []|intros ??? [H1 H2] [H3 H4]; split; intros].
  - by rewrite H1.
  - by rewrite H2.
Qed.

Definition is6 (a : Addr) : bool := negb (Addr_Is4 a).

Definition fm_empty : FakeMap := mkFakeMap (λ _, None) (λ _ _, None).

(** Giving address [a] to domain [d]: the name [a] had before loses it. *)
Definition fm_store (a : Addr) (d : string) (m : FakeMap) : FakeMap :=
  mkFakeMap
    (λ a', if bool_decide (a' = a) then Some d else fm_names m a')
    (λ v d', if bool_decide (v = is6 a) then
       if bool_decide (d' = d) then Some a
       else if bool_decide (fm_names m a = Some d') then None else fm_addrs m v d'
     else fm_addrs m v d').

(** Names and addresses determine each other. *)
Definition fm_ok (m : FakeMap) : Prop :=
  (∀ a d, fm_names m a = Some d → fm_addrs m (is6 a) d = Some a) ∧
  (∀ v d a, fm_addrs m v d = Some a → is6 a = v ∧ fm_names m a = Some d).

#[export] Instance fm_ok_proper : Proper ((≡) ==> iff) fm_ok.
Proof. intros m m' [H1 H2]. unfold fm_ok. by setoid_rewrite H1; setoid_rewrite H2. Qed.
#[export] Instance fm_store_proper a d : Proper ((≡) ==> (≡)) (fm_store a d).
Proof. intros m m' [H1 H2]. split; intros; cbn; by rewrite ?H1, ?H2. Qed.
#[export] Instance fm_names_proper : Proper ((≡) ==> (=) ==> (=)) fm_names.
Proof. by intros m m' [H1 _] a _ <-. Qed.
#[export] Instance fm_addrs_proper : Proper ((≡) ==> (=) ==> (=) ==> (=)) fm_addrs.
Proof. by intros m m' [_ H2] v _ <- d _ <-. Qed.

Lemma fm_ok_empty : fm_ok fm_empty.
Proof. by split. Qed.

Lemma fm_store_names a d m : fm_names (fm_store a d m) a = Some d.
Proof. cbn. by rewrite bool_decide_eq_true_2. Qed.
Lemma fm_store_addrs a d m : fm_addrs (fm_store a d m) (is6 a) d = Some a.
Proof. cbn. by rewrite !bool_decide_eq_true_2. Qed.

(** Storing for a domain without an address of the family keeps the bijection. *)
Lemma fm_ok_store a d m : fm_ok m → fm_addrs m (is6 a) d = None → fm_ok (fm_store a d m).
Proof.
  intros [Hn Ha] Hnew. split.
  - intros a' d'. cbn. case_bool_decide as Haa; [subst a'; intros [= ->]; by rewrite !bool_decide_eq_true_2|].
    intros Hd'. pose proof (Hn _ _ Hd') as Hback.
    case_bool_decide as Hv; [|done]. rewrite Hv in Hback.
    rewrite bool_decide_eq_false_2 by congruence. case_bool_decide as Hold; [|by rewrite Hv].
    apply Hn in Hold. congruence.
  - intros v d' a'. cbn. case_bool_decide as Hv.
    + case_bool_decide as Hd; [subst; intros [= <-]; by rewrite bool_decide_eq_true_2|].
      case_bool_decide as Hold; [done|]. intros Hd'. destruct (Ha _ _ _ Hd') as [? Hname].
      split; [done|]. by rewrite bool_decide_eq_false_2 by congruence.
    + intros Hd'. destruct (Ha _ _ _ Hd') as [? Hname]. split; [done|].
      by rewrite bool_decide_eq_false_2 by congruence.
Qed.

(** ** What a storage promises *)

(** The addresses the store hands out. *)
Definition fake_addr (a : Addr) : bool :=
  Addr_IsValid a && negb (Addr_hasZone a) && (0 <=? Addr_bits a) && (Addr_bits a <? 2 ^ Addr_BitLen a)
  && bool_decide (Addr_Unmap a = a).

(** A read answers from the map, or finds the database damaged and empties it. *)
Definition served {A} (r x : option A) (m m' : FakeMap) : Prop := (r = x ∧ m' ≡ m) ∨ (r = None ∧ m' ≡ fm_empty).
(** A write that fails leaves the map, or a damaged database is emptied. *)
Definition kept (m m' : FakeMap) : Prop := m' ≡ m ∨ m' ≡ fm_empty.
Definition written (err : option goerr) (m m' target : FakeMap) : Prop :=
  match err with None => m' ≡ target | Some _ => kept m m' end.

Class FakeIPStorageLaws (S : Type) `{FakeIPStorage S} : Type := {
  storage_ok : S → Prop;
  fake_view : S → FakeMap;
  FakeIPLoad_law a s r s' : storage_ok s → fake_addr a = true → FakeIPLoad a s = (r, s') →
    storage_ok s' ∧ served r (fm_names (fake_view s) a) (fake_view s) (fake_view s');
  FakeIPLoadDomain_law d v s r s' : storage_ok s → FakeIPLoadDomain d v s = (r, s') →
    storage_ok s' ∧ served r (fm_addrs (fake_view s) v d) (fake_view s) (fake_view s');
  FakeIPStore_law a d s err s' : storage_ok s → fake_addr a = true → FakeIPStore a d s = (err, s') →
    storage_ok s' ∧ written err (fake_view s) (fake_view s') (fm_store a d (fake_view s));
  FakeIPReset_law s err s' : storage_ok s → FakeIPReset s = (err, s') →
    storage_ok s' ∧ written err (fake_view s) (fake_view s') fm_empty;
  FakeIPMetadata_law s m s' : storage_ok s → FakeIPMetadata_ s = (m, s') →
    storage_ok s' ∧ kept (fake_view s) (fake_view s');
  FakeIPSaveMetadata_law m s err s' : storage_ok s → FakeIPSaveMetadata m s = (err, s') →
    storage_ok s' ∧ kept (fake_view s) (fake_view s');
  FakeIPSaveMetadataAsync_law m s : storage_ok s →
    storage_ok (FakeIPSaveMetadataAsync m s) ∧ fake_view (FakeIPSaveMetadataAsync m s) ≡ fake_view s
}.

(** A storage without failures. *)
Class ReliableStorage (S : Type) `{FakeIPStorageLaws S} : Prop := {
  FakeIPLoad_reliable a s : storage_ok s → fake_addr a = true → FakeIPLoad a s = (fm_names (fake_view s) a, s);
  FakeIPLoadDomain_reliable d v s : storage_ok s → FakeIPLoadDomain d v s = (fm_addrs (fake_view s) v d, s);
  FakeIPStore_reliable a d s : storage_ok s → fake_addr a = true → (FakeIPStore a d s).1 = None
}.

(** ** The storage in memory keeps the promises *)

Definition memory_view (s : MemoryStorage) : FakeMap :=
  mkFakeMap (λ a, addressCache s !! a) (λ v d, if negb v then domainCache4 s !! d else domainCache6 s !! d).

Lemma memory_store_view a d s :
  memory_view (MemoryStorage_FakeIPStore a d s) ≡ fm_store a d (memory_view s).
Proof.
  unfold MemoryStorage_FakeIPStore, is6. destruct s as [names d4 d6]. cbn.
  destruct (Addr_Is4 a) eqn:E4, (names !! a) as [old|] eqn:Eold; cbn;
    (split; [intros a'|intros v d']; cbn;
     [case_bool_decide; subst; by simplify_map_eq|]);
    unfold is6; rewrite E4; destruct v; cbn;
    repeat case_bool_decide; simplify_map_eq; try done;
    try (rewrite lookup_insert_ne by done); try (rewrite lookup_delete_ne by congruence); done.
Qed.

#[export] Program Instance memory_laws : FakeIPStorageLaws MemoryStorage := {
  storage_ok _ := True;
  fake_view := memory_view
}.
Next Obligation. cbn. intros a s r s' _ _ [= <- <-]. split; [done|]. by left. Qed.
Next Obligation. cbn. intros d v s r s' _ [= <- <-]. split; [done|]. by left. Qed.
Next Obligation. cbn. intros a d s err s' _ _ [= <- <-]. split; [done|]. apply memory_store_view. Qed.
Next Obligation. cbn. intros s err s' _ [= <- <-]. split; [done|]. split; [done|]. by intros []. Qed.
Next Obligation. cbn. intros s m s' _ [= <- <-]. split; [done|]. by left. Qed.
Next Obligation. cbn. intros m s err s' _ [= <- <-]. split; [done|]. by left. Qed.
Next Obligation. done. Qed.

#[export] Instance memory_reliable : ReliableStorage MemoryStorage.
Proof. by split. Qed.

(** ** The store *)

Definition family_range {S} (s : Store S) (v : bool) : Prefix := if v then inet6Range s else inet4Range s.
Definition family_last {S} (s : Store S) (v : bool) : Addr := if v then inet6Last s else inet4Last s.
Definition family_current {S} (s : Store S) (v : bool) : Addr := if v then inet6Current s else inet4Current s.

(** A family is switched off, or its range is a proper one and its current
    address belongs to it. *)
Definition range_valid (v : bool) (r : Prefix) : Prop := Prefix_IsValid r = false ∨ range_ok v r.
Definition current_ok (v : bool) (r : Prefix) (a : Addr) : Prop :=
  (Prefix_IsValid r = false ∧ a = AddrZero) ∨ (range_ok v r ∧ in_pool v r a).
Definition metadata_ok (m : FakeIPMetadata) : Prop :=
  current_ok false (Inet4Range m) (Inet4Current m) ∧ current_ok true (Inet6Range m) (Inet6Current m).

Lemma range_ok_valid v r : range_ok v r → Prefix_IsValid r = true.
Proof. intros (_ & Hbits & _). apply Z.leb_le. lia. Qed.

Lemma in_pool_fake v r a : range_ok v r → in_pool v r a → fake_addr a = true ∧ is6 a = v.
Proof.
  intros Hr (x & -> & Hx). pose proof (pool_bounds v r Hr) as (Hb & _ & Hl). destruct Hr as (_ & _ & Hbase & _).
  unfold fake_addr, is6. destruct v; cbn in *; (split; [|done]).
  - rewrite (proj2 (Z.leb_le 0 x)), (proj2 (Z.ltb_lt x _)) by lia. cbn.
    rewrite (proj2 (Z.eqb_neq (x / 2 ^ 32) 0xffff)); [by case_bool_decide|].
    assert (2 ^ 48 / 2 ^ 32 ≤ x / 2 ^ 32) by (apply Z.div_le_mono; lia). change (2 ^ 48 / 2 ^ 32) with 65536 in *. lia.
  - rewrite (proj2 (Z.leb_le 0 x)), (proj2 (Z.ltb_lt x _)) by lia. by case_bool_decide.
Qed.

Section store.
Context {S : Type} `{FakeIPStorageLaws S}.

(** The invariant of a started store. *)
Record store_ok (s : Store S) (st : S) : Prop := mkStoreOk {
  so_storage : storage s = Some st;
  so_storage_ok : storage_ok st;
  so_view : fm_ok (fake_view st);
  so_last v : range_ok v (family_range s v) → family_last s v = mkAddr v (pool_last v (family_range s v));
  so_current v : current_ok v (family_range s v) (family_current s v)
}.

(** The steps of a running system: the look of [Create] before it takes the
    lock, [Create] under the lock, the other operations, and a restart over the
    same storage, perhaps with other ranges.  The metadata a restart finds was
    saved by a store. *)
Definition metadata_found (st : S) : Prop := ∀ m, (FakeIPMetadata_ st).1 = Some m → metadata_ok m.

Inductive fake_step : Store S → Store S → Prop :=
| step_look d v s st r st' :
    storage s = Some st → FakeIPLoadDomain d v st = (r, st') → fake_step s (set_storage st' s)
| step_create now d v s : fake_step s (createLocked now d v s).2
| step_lookup a s : fake_addr a = true → fake_step s (Store_Lookup a s).2
| step_reset s : fake_step s (Store_Reset s).2
| step_close s : fake_step s (Store_Close s).2
| step_restart r4 r6 s st :
    storage s = Some st → range_valid false r4 → range_valid true r6 → metadata_found st →
    fake_step s (Store_Start st (NewStore r4 r6)).

(** A store as it comes from [Start]. *)
Definition started (s : Store S) : Prop :=
  ∃ st r4 r6, s = Store_Start st (NewStore r4 r6) ∧ range_valid false r4 ∧ range_valid true r6 ∧
    storage_ok st ∧ fm_ok (fake_view st) ∧ metadata_found st.

Lemma kept_ok m m' : kept m m' → fm_ok m → fm_ok m'.
Proof. intros [->| ->]; [done|]. intros _. apply fm_ok_empty. Qed.
Lemma served_kept {A} (r x : option A) m m' : served r x m m' → kept m m'.
Proof. intros [[_ ?]|[_ ?]]; [by left|by right]. Qed.

(** Only the storage changed. *)
Lemma store_ok_storage s st st' :
  store_ok s st → storage_ok st' → kept (fake_view st) (fake_view st') → store_ok (set_storage st' s) st'.
Proof.
  intros [Hs Hok Hv Hl Hc] Hok' Hk. destruct s. constructor; [done|done|by eapply kept_ok|exact Hl|exact Hc].
Qed.

(** The store [Start] builds over a storage, from its current addresses. *)
Definition start_store (r4 r6 : Prefix) (c4 c6 : Addr) (st : S) : Store S :=
  mkStore r4 r6 (if Prefix_IsValid r4 then broadcastAddress r4 else AddrZero)
    (if Prefix_IsValid r6 then broadcastAddress r6 else AddrZero) c4 c6 (Some st) None.
Definition first_current (r : Prefix) : Addr := if Prefix_IsValid r then Addr_Next (p_addr r) else AddrZero.

Lemma Store_Start_spec st r4 r6 :
  Store_Start st (NewStore r4 r6) =
  let '(m, st') := FakeIPMetadata_ st in
  let fresh := start_store r4 r6 (first_current r4) (first_current r6) (FakeIPReset st').2 in
  match m with
  | Some m => if bool_decide (Inet4Range m = r4) && bool_decide (Inet6Range m = r6)
              then start_store r4 r6 (Inet4Current m) (Inet6Current m) st' else fresh
  | None => fresh
  end.
Proof.
  unfold Store_Start, NewStore, start_store, first_current. destruct (FakeIPMetadata_ st) as [m st'].
  cbv zeta. cbn [inet4Range inet6Range].
  destruct (Prefix_IsValid r4); cbn [inet6Range set_current4]; destruct (Prefix_IsValid r6), m; done.
Qed.

Lemma start_store_ok r4 r6 c4 c6 st :
  current_ok false r4 c4 → current_ok true r6 c6 → storage_ok st → fm_ok (fake_view st) →
  store_ok (start_store r4 r6 c4 c6 st) st.
Proof.
  intros H4 H6 Hok Hv. constructor; [done..| |by intros []].
  intros [] Hr; cbn in *; rewrite (range_ok_valid _ _ Hr); by rewrite (broadcastAddress_pool _ _ Hr).
Qed.

Lemma first_current_ok v r : range_valid v r → current_ok v r (first_current r).
Proof.
  unfold first_current. intros [Hr|Hr]; [left; by rewrite Hr|right]. split; [done|].
  rewrite (range_ok_valid _ _ Hr). pose proof (pool_bounds v r Hr). exists (pool_base r + 1).
  split; [|lia]. rewrite (proj1 Hr) at 1. apply Addr_Next_pool. lia.
Qed.

Lemma started_ok s : started s → ∃ st, store_ok s st.
Proof.
  intros (st & r4 & r6 & -> & H4 & H6 & Hok & Hv & Hm). rewrite Store_Start_spec. unfold metadata_found in Hm.
  destruct (FakeIPMetadata_ st) as [m st1] eqn:Em. destruct (FakeIPMetadata_law _ _ _ Hok Em) as [Hok1 Hk1].
  assert (fm_ok (fake_view st1)) as Hv1 by by eapply kept_ok. cbv zeta.
  destruct (FakeIPReset st1) as [err st2] eqn:Er. destruct (FakeIPReset_law _ _ _ Hok1 Er) as [Hok2 Hk2]. cbn [snd].
  assert (∃ st', store_ok (start_store r4 r6 (first_current r4) (first_current r6) st2) st') as Hfresh.
  { exists st2. apply start_store_ok; [by apply first_current_ok..|done|].
    destruct err; cbn in Hk2; [by eapply kept_ok|rewrite Hk2; apply fm_ok_empty]. }
  destruct m as [m|]; [|done]. destruct (Hm m) as [Hm4 Hm6]; [done|].
  do 2 (case_bool_decide; [subst|done]). exists st1. by apply start_store_ok.
Qed.

(** What [createLocked] does, by the invariant. *)
Inductive created (d : string) (v : bool) (s : Store S) (st : S) : result Addr → option goerr → Store S → S → Prop :=
| created_known a s' st' : fm_addrs (fake_view st) v d = Some a → fake_view st' ≡ fake_view st →
    (∀ v', family_current s' v' = family_current s v') →
    created d v s st (Ok a) None s' st'
| created_off e s' st' : Prefix_IsValid (family_range s v) = false → FakeIPLoadDomain d v st = (None, st') →
    (∀ v', family_current s' v' = family_current s v') →
    created d v s st (Err e) None s' st'
| created_new st1 err s' st' : range_ok v (family_range s v) → FakeIPLoadDomain d v st = (None, st1) →
    fm_addrs (fake_view st1) v d = None → kept (fake_view st) (fake_view st1) →
    let a := nextAddress (family_range s v) (family_last s v) (family_current s v) in
    err = (FakeIPStore a d st1).1 → storage_ok st1 → in_pool v (family_range s v) a →
    written err (fake_view st1) (fake_view st') (fm_store a d (fake_view st1)) →
    family_current s' v = a → family_current s' (negb v) = family_current s (negb v) →
    created d v s st (Ok a) err s' st'.

Lemma store_ok_note now p4 p6 s st : store_ok s st → store_ok (lxNoteCreate now p4 p6 s) st.
Proof. intros [Hs Hok Hv Hl Hc]. destruct s. constructor; [done|done|done|exact Hl|exact Hc]. Qed.

Definition set_current (v : bool) (a : Addr) (s : Store S) : Store S :=
  if negb v then set_current4 a s else set_current6 a s.

Lemma family_set_current v v' a s :
  family_current (set_current v a s) v' = if bool_decide (v' = v) then a else family_current s v'.
Proof. destruct s, v, v'; done. Qed.
Lemma family_range_set_current v v' a s : family_range (set_current v a s) v' = family_range s v'.
Proof. destruct s, v, v'; done. Qed.
Lemma family_last_set_current v v' a s : family_last (set_current v a s) v' = family_last s v'.
Proof. destruct s, v, v'; done. Qed.

Lemma store_ok_current v a s st :
  store_ok s st → range_ok v (family_range s v) → in_pool v (family_range s v) a → store_ok (set_current v a s) st.
Proof.
  intros [Hs Hok Hv Hl Hc] Hr Ha. constructor; [by destruct s, v|done|done|..].
  - intros v'. rewrite family_range_set_current, family_last_set_current. apply Hl.
  - intros v'. rewrite family_range_set_current, family_set_current.
    case_bool_decide; [subst; by right|apply Hc].
Qed.

(** [createLocked] in terms of the families. *)
Lemma createLocked_unfold now d v s st :
  storage s = Some st →
  createLocked now d v s =
  let '(loaded, st1) := FakeIPLoadDomain d v st in
  match loaded with
  | Some a => (Ok a, None, set_storage st1 s)
  | None =>
      if negb (Addr_IsValid (family_current s v))
      then (Err (ErrNew (if negb v then "missing IPv4 fakeip address range" else "missing IPv6 fakeip address range")), None,
            lxNoteCreate now (inet4Current s) (inet6Current s) (set_storage st1 s))
      else
        let a := nextAddress (family_range s v) (family_last s v) (family_current s v) in
        let s1 := set_current v a (set_storage st1 s) in
        let '(err, st2) := FakeIPStore a d st1 in
        (Ok a, err, lxNoteCreate now (inet4Current s) (inet6Current s)
          (set_storage (FakeIPSaveMetadataAsync (storeMetadata s1) st2) s1))
  end.
Proof.
  intros Hs. unfold createLocked. rewrite Hs. destruct (FakeIPLoadDomain d v st) as [[a|] st1]; [done|].
  destruct s, v; done.
Qed.

Lemma createLocked_spec now d v s st :
  store_ok s st → ∃ st', store_ok (createLocked now d v s).2 st' ∧
    (∀ v', family_range (createLocked now d v s).2 v' = family_range s v') ∧
    created d v s st (createLocked now d v s).1.1 (createLocked now d v s).1.2 (createLocked now d v s).2 st'.
Proof.
  intros Hs. rewrite (createLocked_unfold _ _ _ _ _ (so_storage _ _ Hs)).
  destruct (FakeIPLoadDomain d v st) as [loaded st1] eqn:El.
  destruct (FakeIPLoadDomain_law _ _ _ _ _ (so_storage_ok _ _ Hs) El) as [Hok1 Hserved].
  pose proof (store_ok_storage _ _ st1 Hs Hok1 (served_kept _ _ _ _ Hserved)) as Hs1.
  destruct loaded as [a|].
  { destruct Hserved as [[Ha Hv]|[]]; [|done]. exists st1. split; [done|].
    split; [by destruct s, v|]. constructor; [done..|]. by destruct s. }
  assert (fm_addrs (fake_view st1) v d = None) as Hnone.
  { destruct Hserved as [[Ha Hv]|[_ Hv]]; rewrite Hv; done. }
  apply served_kept in Hserved. destruct (so_current _ _ Hs v) as [[Hoff Hzero]|[Hr Hpool]].
  { rewrite Hzero. cbn [Addr_IsValid negb fst snd]. exists st1. split; [by apply store_ok_note|].
    split; [by destruct s, v|]. constructor; [done..|]. by destruct s. }
  assert (Addr_IsValid (family_current s v) = true) as -> by (destruct Hpool as (x & -> & _); by destruct v).
  cbn [negb]. cbv zeta. set (a := nextAddress _ _ _).
  assert (in_pool v (family_range s v) a) as Ha.
  { unfold a. rewrite (so_last _ _ Hs v Hr). by apply nextAddress_in_pool. }
  destruct (in_pool_fake _ _ _ Hr Ha) as [Hfake H6].
  destruct (FakeIPStore a d st1) as [err st2] eqn:Est. cbn [fst snd].
  destruct (FakeIPStore_law _ _ _ _ _ Hok1 Hfake Est) as [Hok2 Hw].
  set (s1 := set_current v a (set_storage st1 s)).
  destruct (FakeIPSaveMetadataAsync_law (storeMetadata s1) st2 Hok2) as [Hok3 Hv3].
  set (st3 := FakeIPSaveMetadataAsync _ _) in *.
  assert (written err (fake_view st1) (fake_view st3) (fm_store a d (fake_view st1))) as Hw3.
  { destruct err; cbn in *; [unfold kept; by rewrite Hv3|by rewrite Hv3]. }
  exists st3. split; [|split; [by destruct s, v|]].
  - apply store_ok_note.
    assert (store_ok s1 st1) as Hs1' by (apply store_ok_current; [done|by destruct s, v..]).
    destruct Hs1' as [? _ _ Hl Hc]. assert (fm_ok (fake_view st3)) as Hv.
    { destruct err; cbn in Hw3; [by eapply kept_ok; [|apply (so_view _ _ Hs1)]|].
      rewrite Hw3. apply fm_ok_store; [apply (so_view _ _ Hs1)|by rewrite H6]. }
    destruct s, v; constructor; [done|done|done|exact Hl|exact Hc|done|done|done|exact Hl|exact Hc].
  - apply (created_new _ _ _ _ st1); [done|done|done|done|by unfold a in Est; rewrite Est|done|done|done|by destruct s, v..].
Qed.

Lemma step_ok s s' st : store_ok s st → fake_step s s' → ∃ st', store_ok s' st'.
Proof.
  intros Hs Hstep. destruct Hstep as [d v s st0 r st' Hst Hl|now d v s|a s Ha|s|s|r4 r6 s st0 Hst H4 H6 Hm];
    pose proof (so_storage _ _ Hs) as Hst'; pose proof (so_storage_ok _ _ Hs) as Hok.
  - assert (st0 = st) as -> by congruence. destruct (FakeIPLoadDomain_law _ _ _ _ _ Hok Hl) as [? Hk%served_kept].
    exists st'. by apply (store_ok_storage _ st).
  - destruct (createLocked_spec now d v s st Hs) as (st' & ? & _). by exists st'.
  - unfold Store_Lookup. rewrite Hst'. destruct (FakeIPLoad a st) as [x st1] eqn:El.
    destruct (FakeIPLoad_law _ _ _ _ Hok Ha El) as [? Hk%served_kept]. exists st1. by apply (store_ok_storage _ st).
  - unfold Store_Reset. rewrite Hst'. destruct (FakeIPReset st) as [x st1] eqn:El.
    destruct (FakeIPReset_law _ _ _ Hok El) as [? Hk]. exists st1. apply (store_ok_storage _ st); [done..|].
    destruct x; [done|by right].
  - unfold Store_Close. rewrite Hst'. destruct (FakeIPSaveMetadata _ st) as [x st1] eqn:El.
    destruct (FakeIPSaveMetadata_law _ _ _ _ Hok El) as [? Hk]. exists st1. by apply (store_ok_storage _ st).
  - assert (st0 = st) as -> by congruence. apply started_ok. exists st, r4, r6. by pose proof (so_view _ _ Hs).
Qed.

Lemma reachable_ok s0 s : started s0 → rtc fake_step s0 s → ∃ st, store_ok s st.
Proof.
  intros [st0 Hs0]%started_ok Hsteps. revert st0 Hs0.
  induction Hsteps as [s|s s1 s2 Hstep _ IH]; intros st0 Hs0; [by eexists|].
  destruct (step_ok _ _ _ Hs0 Hstep) as [st1 Hs1]. by apply (IH st1).
Qed.

#[export] Instance kept_proper : Proper ((≡) ==> (≡) ==> iff) kept.
Proof. intros m1 m2 Hm m3 m4 Hm'. unfold kept. by rewrite Hm, Hm'. Qed.

Lemma kept_trans m1 m2 m3 : kept m1 m2 → kept m2 m3 → kept m1 m3.
Proof. intros H12 [->| ->]; [done|by right]. Qed.
End store.

(** C34: FakeIP addresses and domains determine each other.  In every state a
    store can reach, whatever the interleaving of its operations, the failures
    of its storage and the restarts, the records form a bijection per family;
    [Create] answers with an address that stands for the domain, the storage
    having failed apart, and with an error only when the family is switched off. *)
Theorem fakeip_bijection {S : Type} `{FakeIPStorageLaws S} (s0 s : Store S)
    (Hstarted : started s0) (Hsteps : rtc fake_step s0 s) (now : Z) (d : string) (v : bool) :
  ∃ st st', storage s = Some st ∧ storage (createLocked now d v s).2 = Some st' ∧
    fm_ok (fake_view st) ∧ fm_ok (fake_view st') ∧
    match (createLocked now d v s).1 with
    | (Ok a, None) => is6 a = v ∧ fm_names (fake_view st') a = Some d ∧ fm_addrs (fake_view st') v d = Some a
    | (Ok _, Some _) => kept (fake_view st) (fake_view st')
    | (Err _, _) => Prefix_IsValid (family_range s v) = false
    | (Panic _, _) => False
    end.
Proof.
  destruct (reachable_ok _ _ Hstarted Hsteps) as [st Hs].
  destruct (createLocked_spec now d v s st Hs) as (st' & Hs' & _ & Hc). exists st, st'.
  split; [apply Hs|]. split; [apply Hs'|]. split; [apply Hs|]. split; [apply Hs'|].
  destruct (createLocked now d v s) as [[r err] s'] eqn:E. cbn [fst snd] in *.
  destruct Hc as [a s' st' Ha Hv _|e s' st' Hoff _ _|st1 err s' st' Hr _ Hnone Hk a _ _ Ha Hw _ _].
  - apply (so_view _ _ Hs) in Ha as Hback. destruct Hback as [-> Hname]. by rewrite !Hv.
  - done.
  - destruct (in_pool_fake _ _ _ Hr Ha) as [_ H6].
    destruct err; cbn in Hw; [by eapply kept_trans|]. split; [done|]. rewrite !Hw. split; [apply fm_store_names|].
    rewrite <- H6. apply fm_store_addrs.
Qed.

Definition demo4 : Prefix := mkPrefix (Addr4 0xC6120000) 15.
Definition demo6 : Prefix := mkPrefix (Addr6 (0xFC00 * 2 ^ 112) "") 18.
Definition demo_store : Store MemoryStorage := Store_Start NewMemoryStorage (NewStore demo4 demo6).

Lemma demo_ranges : range_ok false demo4 ∧ range_ok true demo6.
Proof. by repeat split. Qed.
Lemma demo_started : started demo_store.
Proof.
  exists NewMemoryStorage, demo4, demo6. destruct demo_ranges.
  split; [done|]. split; [by right|]. split; [by right|]. split; [done|].
  split; [|by intros m]. split; [by intros a d|by intros [] d a].
Qed.

Lemma fakeip_bijection_witness :
  let s := (createLocked 0 "example.org" true (createLocked 0 "example.org" false demo_store).2).2 in
  (createLocked 0 "example.com" false s).1 = (Ok (Addr4 0xC6120003), None) ∧
  ∃ st st', storage s = Some st ∧ storage (createLocked 0 "example.com" false s).2 = Some st' ∧
    fm_ok (fake_view st) ∧ fm_ok (fake_view st') ∧
    match (createLocked 0 "example.com" false s).1 with
    | (Ok a, None) => is6 a = false ∧ fm_names (fake_view st') a = Some "example.com" ∧
        fm_addrs (fake_view st') false "example.com" = Some a
    | (Ok _, Some _) => kept (fake_view st) (fake_view st')
    | (Err _, _) => Prefix_IsValid (family_range s false) = false
    | (Panic _, _) => False
    end.
Proof.
  split; [vm_compute; reflexivity|]. apply (fakeip_bijection demo_store); [exact demo_started|].
  eapply rtc_l; [apply step_create|]. eapply rtc_l; [apply step_create|]. apply rtc_refl.
Defined.

(** ** When an address is given to another domain *)

(** A sequence of [Create] calls: time, domain and family. *)
Definition create_all {S} `{FakeIPStorage S} (ops : list (Z * string * bool)) (s : Store S) : Store S :=
  fold_left (λ s op, (Store_Create op.1.1 op.1.2 op.2 s).2) ops s.

Definition of_family (v : bool) (ops : list (Z * string * bool)) : Z := len (filter (λ op, op.2 = v) ops).

Lemma of_family_cons v op ops : of_family v (op :: ops) = (if bool_decide (op.2 = v) then 1 else 0) + of_family v ops.
Proof.
  unfold of_family. rewrite filter_cons. destruct (decide (op.2 = v)).
  - rewrite bool_decide_eq_true_2 by done. by rewrite len_cons.
  - rewrite bool_decide_eq_false_2 by done. done.
Qed.
Lemma of_family_nonneg v ops : 0 ≤ of_family v ops.
Proof. apply len_nonneg. Qed.

(** The address [j] steps after [x] in the cycle of the pool. *)
Definition cycle (v : bool) (r : Prefix) (x j : Z) : Z := pool_base r + 2 + (x - pool_base r - 2 + j) mod pool_size v r.

Section cycle.
Context (v : bool) (r : Prefix) (Hr : range_ok v r).

Lemma cycle_range x j : pool_base r + 2 ≤ cycle v r x j < pool_last v r.
Proof using Hr.
  pose proof (pool_bounds v r Hr). unfold cycle.
  pose proof (Z.mod_pos_bound (x - pool_base r - 2 + j) (pool_size v r)) as Hm. unfold pool_size in *. lia.
Qed.

Lemma cycle_next x j :
  nextAddress r (mkAddr v (pool_last v r)) (mkAddr v (cycle v r x j)) = mkAddr v (cycle v r x (j + 1)).
Proof using Hr.
  pose proof (cycle_range x j). pose proof (pool_bounds v r Hr).
  rewrite nextAddress_pool by (done || lia). f_equal. unfold cycle, pool_size. f_equal.
  replace (_ - pool_base r - 1) with ((x - pool_base r - 2 + j) mod (pool_last v r - pool_base r - 2) + 1) by lia.
  rewrite Z.add_mod_idemp_l by lia. f_equal. lia.
Qed.

Lemma cycle_0 x : pool_base r + 2 ≤ x < pool_last v r → cycle v r x 0 = x.
Proof using. clear Hr. intros Hx. unfold cycle, pool_size. rewrite Z.add_0_r, Z.mod_small by lia. lia. Qed.

Lemma cycle_ne x j : pool_base r + 2 ≤ x < pool_last v r → 0 < j < pool_size v r → cycle v r x j ≠ x.
Proof using.
  clear Hr. intros Hx Hj. unfold cycle, pool_size in *. intros He.
  destruct (Z.lt_ge_cases (x - pool_base r - 2 + j) (pool_last v r - pool_base r - 2)).
  - rewrite Z.mod_small in He by lia. lia.
  - rewrite <- (Z.mod_add _ (-1)) in He by lia. rewrite Z.mod_small in He by lia. lia.
Qed.
End cycle.

Section reliable.
Context {S : Type} `{ReliableStorage S}.

Lemma set_storage_same (s : Store S) st : storage s = Some st → set_storage st s = s.
Proof. destruct s. cbn. by intros ->. Qed.

(** Without failures the look before the lock changes nothing. *)
Lemma Store_Create_locked now d v s st : store_ok s st → Store_Create now d v s = createLocked now d v s.
Proof.
  intros Hs. unfold Store_Create. rewrite (so_storage _ _ Hs), (FakeIPLoadDomain_reliable _ _ _ (so_storage_ok _ _ Hs)).
  rewrite (set_storage_same _ _ (so_storage _ _ Hs)).
  destruct (fm_addrs (fake_view st) v d) as [a|] eqn:Ea; [|done].
  unfold createLocked. rewrite (so_storage _ _ Hs), (FakeIPLoadDomain_reliable _ _ _ (so_storage_ok _ _ Hs)), Ea.
  by rewrite (set_storage_same _ _ (so_storage _ _ Hs)).
Qed.

(** The domain still has the address, and the family has moved [j] steps on. *)
Record alive (v : bool) (r : Prefix) (d : string) (x j : Z) (s : Store S) : Prop := mkAlive {
  al_ok : ∃ st, store_ok s st ∧ fm_names (fake_view st) (mkAddr v x) = Some d;
  al_range : family_range s v = r;
  al_current : family_current s v = mkAddr v (cycle v r x j)
}.

Lemma mkAddr_inj v x y : mkAddr v x = mkAddr v y → x = y.
Proof using. destruct v; by intros [=]. Qed.

Lemma alive_create v r d x j now d' v' s :
  range_ok v r → pool_base r + 2 ≤ x < pool_last v r → 0 ≤ j → j + (if bool_decide (v' = v) then 1 else 0) < pool_size v r →
  alive v r d x j s →
  ∃ j', alive v r d x j' (createLocked now d' v' s).2 ∧ 0 ≤ j' ≤ j + (if bool_decide (v' = v) then 1 else 0).
Proof.
  intros Hr Hx Hj Hroom [(st & Hs & Hname) Hrange Hcur].
  destruct (createLocked_spec now d' v' s st Hs) as (st' & Hs' & Hranges & Hc).
  destruct (createLocked now d' v' s) as [[res err] s']. cbn [fst snd] in *.
  assert (0 ≤ (if bool_decide (v' = v) then 1 else 0)) by (case_bool_decide; lia).
  destruct Hc as [a s' st' Ha Hv Hcs|e s' st' Hoff Hload Hcs|st1 err s' st' Hr' Hload Hnone _ a Herr Hok1 Ha Hw Hnew Hother].
  - exists j. split; [|lia]. constructor; [exists st'; split; [done|by rewrite Hv]|by rewrite Hranges|by rewrite Hcs].
  - rewrite (FakeIPLoadDomain_reliable _ _ _ (so_storage_ok _ _ Hs)) in Hload. injection Hload as _ <-.
    exists j. split; [|lia]. constructor; [by exists st|by rewrite Hranges|by rewrite Hcs].
  - rewrite (FakeIPLoadDomain_reliable _ _ _ (so_storage_ok _ _ Hs)) in Hload. injection Hload as _ <-.
    destruct (in_pool_fake _ _ _ Hr' Ha) as [Hfake H6]. rewrite FakeIPStore_reliable in Herr by done. subst err. cbn in Hw.
    assert (∀ j', a ≠ mkAddr v x → family_current s' v = mkAddr v (cycle v r x j') → alive v r d x j' s') as Hdone.
    { intros j' Hne Hcur'. constructor; [|by rewrite Hranges|done]. exists st'. split; [done|]. rewrite Hw. cbn.
      by rewrite bool_decide_eq_false_2. }
    destruct (decide (v' = v)) as [->|Hneq].
    + rewrite bool_decide_eq_true_2 in * by done. exists (j + 1). split; [|lia].
      assert (a = mkAddr v (cycle v r x (j + 1))) as Ha'.
      { unfold a. rewrite (so_last _ _ Hs v Hr'), Hrange, Hcur. by apply cycle_next. }
      apply Hdone; [|by rewrite Hnew]. rewrite Ha'. intros He%mkAddr_inj. by apply cycle_ne in He; [..|lia].
    + exists j. split; [|lia]. assert (negb v' = v) as Hv by by destruct v, v'.
      rewrite Hv in Hother. apply Hdone; [|by rewrite Hother].
      intros He. apply Hneq. rewrite <- H6, He. by destruct v.
Qed.

Lemma alive_creates v r d x ops j s :
  range_ok v r → pool_base r + 2 ≤ x < pool_last v r → 0 ≤ j → j + of_family v ops < pool_size v r →
  alive v r d x j s → ∃ j', alive v r d x j' (create_all ops s).
Proof.
  intros Hr Hx. revert j s. induction ops as [|[[now d'] v'] ops IH]; intros j s Hj Hroom Ha; [by exists j|].
  rewrite of_family_cons in Hroom. cbn [snd] in Hroom. pose proof (of_family_nonneg v ops).
  destruct (alive_create v r d x j now d' v' s) as (j' & Ha' & Hj'); [done..|lia|done|].
  destruct (al_ok _ _ _ _ _ _ Ha) as (st & Hs & _). unfold create_all. cbn [fold_left fst snd].
  rewrite (Store_Create_locked _ _ _ _ _ Hs). apply (IH j'); [lia..|done].
Qed.

Lemma allocated_alive now d v s st a s' :
  store_ok s st → fm_addrs (fake_view st) v d = None → createLocked now d v s = (Ok a, None, s') →
  range_ok v (family_range s v) ∧ ∃ x, a = mkAddr v x ∧ pool_base (family_range s v) + 2 ≤ x < pool_last v (family_range s v) ∧
    alive v (family_range s v) d x 0 s'.
Proof.
  intros Hs Hnew E. destruct (createLocked_spec now d v s st Hs) as (st' & Hs' & Hranges & Hc).
  rewrite E in *. cbn [fst snd] in *.
  inversion Hc as [a1 s1 st1 Ha1 ? ?|e s1 st1 Hoff Hload ?|st1 err s1 st2 Hr' Hload Hnone Hk a1 Herr Hok1 Hpool Hw Hcur Hother];
    [congruence|].
  split; [done|].
  destruct (so_current _ _ Hs v) as [[Hoff _]|[_ (c & Hc' & Hcr)]]; [by rewrite (range_ok_valid _ _ Hr') in Hoff|].
  set (r := family_range s v) in *. set (x := pool_base r + 2 + (c - pool_base r - 1) mod pool_size v r).
  assert (a1 = mkAddr v x) as Ha.
  { unfold a1. rewrite Hc', (so_last _ _ Hs v Hr'). by apply nextAddress_pool. }
  exists x.
  assert (pool_base r + 2 ≤ x < pool_last v r) as Hx.
  { unfold x. pose proof (pool_bounds v r Hr'). pose proof (Z.mod_pos_bound (c - pool_base r - 1) (pool_size v r)) as Hm.
    unfold pool_size in *. lia. }
  split; [exact Ha|]. split; [exact Hx|]. constructor; [|by rewrite Hranges|rewrite cycle_0 by done; congruence].
  exists st'. split; [done|]. cbn in Hw. rewrite Hw, <- Ha. apply fm_store_names.
Qed.
End reliable.

(** C35: a FakeIP address stays with its domain until the pool has been used up.
    Over a storage without failures, the address a new domain gets lies in the
    range of its family and is neither one of its first two addresses nor its
    last; and as long as fewer further addresses of the family are asked for
    than the pool holds, whatever else is asked, the address is looked up to the
    domain and the domain is answered with the address. *)
Theorem fakeip_not_recycled {S : Type} `{ReliableStorage S} (s0 s : Store S)
    (Hstarted : started s0) (Hsteps : rtc fake_step s0 s) (now : Z) (d : string) (v : bool) (st : S) (a : Addr) (s' : Store S)
    (Hst : storage s = Some st) (Hnew : fm_addrs (fake_view st) v d = None)
    (Hcreate : Store_Create now d v s = (Ok a, None, s'))
    (ops : list (Z * string * bool)) (Hroom : of_family v ops < pool_size v (family_range s v)) :
  Store_Contains s a = true ∧
  (∃ x, a = mkAddr v x ∧ pool_base (family_range s v) + 1 < x < pool_last v (family_range s v)) ∧
  let s'' := create_all ops s' in
  Store_Lookup a s'' = (Ok (Some d), s'') ∧ ∀ now', Store_Create now' d v s'' = (Ok a, None, s'').
Proof.
  destruct (reachable_ok _ _ Hstarted Hsteps) as [st0 Hs]. assert (st0 = st) as ->.
  { pose proof (so_storage _ _ Hs). congruence. }
  rewrite (Store_Create_locked _ _ _ _ _ Hs) in Hcreate.
  destruct (allocated_alive _ _ _ _ _ _ _ Hs Hnew Hcreate) as (Hr & x & -> & Hx & Halive).
  split; [|split; [exists x; split; [done|lia]|]].
  { pose proof (Contains_pool v _ Hr x ltac:(lia)) as Hc. unfold Store_Contains.
    destruct v; cbn [family_range] in *; rewrite Hc; [apply orb_true_r|done]. }
  destruct (alive_creates v _ d x ops 0 s' Hr Hx ltac:(lia) Hroom Halive) as (j & [(st2 & Hs2 & Hname) _ _]).
  cbv zeta. set (s'' := create_all ops s') in *.
  assert (fake_addr (mkAddr v x) = true ∧ is6 (mkAddr v x) = v) as [Hfake H6].
  { apply (in_pool_fake v _ _ Hr). exists x. split; [done|lia]. }
  pose proof (so_view _ _ Hs2) as Hview. apply Hview in Hname as Haddr. rewrite H6 in Haddr. split.
  - unfold Store_Lookup. rewrite (so_storage _ _ Hs2), FakeIPLoad_reliable, Hname by (done || apply Hs2).
    by rewrite (set_storage_same _ _ (so_storage _ _ Hs2)).
  - intros now'. unfold Store_Create. rewrite (so_storage _ _ Hs2), FakeIPLoadDomain_reliable, Haddr by apply Hs2.
    by rewrite (set_storage_same _ _ (so_storage _ _ Hs2)).
Qed.

Lemma fakeip_not_recycled_witness :
  let s := demo_store in
  let s' := (Store_Create 0 "a.example" false s).2 in
  let ops := [(1, "b.example", false); (2, "a.example", true); (3, "c.example", false)] in
  Store_Create 0 "a.example" false s = (Ok (Addr4 0xC6120002), None, s') ∧
  Store_Lookup (Addr4 0xC6120002) (create_all ops s') = (Ok (Some "a.example"), create_all ops s').
Proof.
  cbv zeta. split; [vm_compute; reflexivity|].
  refine (proj1 (proj2 (proj2 (fakeip_not_recycled demo_store demo_store demo_started (rtc_refl _ _) 0 "a.example" false
    (mkMemoryStorage ∅ ∅ ∅) (Addr4 0xC6120002) _ _ _ _ _ _)))); try (vm_compute; reflexivity).
Defined.

(** A range too small for the pool: the second host of a /31 does not exist, and
    the store hands out an address outside the range. *)
Lemma small_range_overruns :
  let range := mkPrefix (Addr4 0xC6120000) 31 in
  let s := Store_Start NewMemoryStorage (NewStore range PrefixZero) in
  (Store_Create 0 "a.example" false s).1 = (Ok (Addr4 0xC6120002), None) ∧
  Store_Contains s (Addr4 0xC6120002) = false.
Proof. vm_compute. done. Qed.
