(* ===== verification/CacheFile.v ===== *)
(** The cache file.

    [experimental/cachefile]: the state of a [CacheFile], how it opens, resets
    and releases its database ([cache.go], [release_lx.go]), and the small stores
    it offers: the Clash mode, the selected outbounds, the expanded groups, saved
    rule-sets ([adapter/experimental.go] for their codec) and disabled chain
    positions ([chain_lx.go]).  FakeIP and DNS records are in CacheFakeIP.v and
    DnsCache.v. *)

From S2P Require Import Prelude GoBytes GoSlices GoStrings Netip Metadata DnsMessage FakeIP Bolt.

(** Errors of [os] and bbolt. *)
Definition ErrClosed : goerr := ErrExternal "file already closed".
Definition ErrNotExist : goerr := ErrExternal "file does not exist".
Definition ErrDatabaseNotOpen : goerr := ErrExternal "database not open".
Definition errCorrupted (reason : string) : goerr := ErrNew (String.append "database corrupted: " reason).

(** Bucket names and keys. *)
Definition bucketSelected : dbkey := str_bytes "selected".
Definition bucketExpand : dbkey := str_bytes "group_expand".
Definition bucketMode : dbkey := str_bytes "clash_mode".
Definition bucketRuleSet : dbkey := str_bytes "rule_set".
Definition bucketRDRC : dbkey := str_bytes "rdrc2".
Definition bucketDNSCache : dbkey := str_bytes "dns_cache".
Definition bucketChainDisabled : dbkey := str_bytes "chain_disabled_lx".
Definition bucketNameList : list dbkey :=
  [bucketSelected; bucketExpand; bucketMode; bucketRuleSet; bucketRDRC; bucketDNSCache; bucketChainDisabled].
Definition cacheIDDefault : dbkey := str_bytes "default".
Definition fakeipBucketPrefix : dbkey := str_bytes "fakeip_".

(** [saveCacheKey] and [saveDNSCacheEntry]; times in seconds. *)
Record saveCacheKey : Type := mkSaveKey { sk_TransportName : string; sk_QuestionName : string; sk_QType : Z }.

#[export] Instance saveCacheKey_eq_dec : EqDecision saveCacheKey.
Proof. solve_decision. Defined.
#[export] Program Instance saveCacheKey_countable : Countable saveCacheKey :=
  inj_countable' (λ k, (sk_TransportName k, sk_QuestionName k, sk_QType k)) (λ '(a, b, c), mkSaveKey a b c) _.
Next Obligation. by intros []. Qed.

Record saveDNSCacheEntry : Type := mkSaveEntry {
  se_rawMessage : list byte;
  se_expireAt : Z;
  se_sequence : Z;
  se_saving : bool
}.

(** [option.CacheFileOptions]. *)
Record CacheFileOptions : Type := mkCacheFileOptions {
  co_CacheID : string;
  co_StoreFakeIP : bool;
  co_StoreRDRC : bool;
  co_RDRCTimeout : Z;
  co_StoreDNS : bool
}.

Section cachefile.
Context {B : Bolt}.

(** [CacheFile].  [DB] is [None] for a handle that is closed or not yet open. *)
Record CacheFile : Type := mkCacheFile {
  cacheID : option dbkey;
  cf_storeFakeIP : bool;
  cf_storeRDRC : bool;
  cf_storeDNS : bool;
  cf_disableExpire : bool;
  rdrcTimeout : Z;
  optimisticTimeout : Z;
  DB : option Tx;
  saveMetadata : option FakeIPMetadata;
  saveDomain : gmap Addr string;
  saveAddress4 : gmap string Addr;
  saveAddress6 : gmap string Addr;
  saveRDRC : gmap saveCacheKey bool;
  saveDNSCache : gmap saveCacheKey saveDNSCacheEntry;
  released : bool
}.

Definition set_DB (v : option Tx) (c : CacheFile) : CacheFile :=
  match c with mkCacheFile a b d e f g h _ j k l n o p q => mkCacheFile a b d e f g h v j k l n o p q end.
Definition set_saveMetadata (v : option FakeIPMetadata) (c : CacheFile) : CacheFile :=
  match c with mkCacheFile a b d e f g h i _ k l n o p q => mkCacheFile a b d e f g h i v k l n o p q end.
Definition set_saveFakeIP (d : gmap Addr string) (a4 a6 : gmap string Addr) (c : CacheFile) : CacheFile :=
  match c with mkCacheFile a b d0 e f g h i j _ _ _ o p q => mkCacheFile a b d0 e f g h i j d a4 a6 o p q end.
Definition set_saveRDRC (v : gmap saveCacheKey bool) (c : CacheFile) : CacheFile :=
  match c with mkCacheFile a b d e f g h i j k l n _ p q => mkCacheFile a b d e f g h i j k l n v p q end.
Definition set_saveDNSCache (v : gmap saveCacheKey saveDNSCacheEntry) (c : CacheFile) : CacheFile :=
  match c with mkCacheFile a b d e f g h i j k l n o _ q => mkCacheFile a b d e f g h i j k l n o v q end.
Definition set_released (c : CacheFile) : CacheFile :=
  match c with mkCacheFile a b d e f g h i j k l n o p _ => mkCacheFile a b d e f g h i j k l n o p true end.
(** [SetOptimisticTimeout] and [SetDisableExpire]. *)
Definition SetOptimisticTimeout (v : Z) (c : CacheFile) : CacheFile :=
  match c with mkCacheFile a b d e f g _ i j k l n o p q => mkCacheFile a b d e f g v i j k l n o p q end.
Definition SetDisableExpire (v : bool) (c : CacheFile) : CacheFile :=
  match c with mkCacheFile a b d e _ g h i j k l n o p q => mkCacheFile a b d e v g h i j k l n o p q end.

(** [func New(ctx, logger, options) *CacheFile]. *)
Definition NewCacheFile (o : CacheFileOptions) : CacheFile :=
  mkCacheFile
    (if String.eqb (co_CacheID o) "" then None else Some (x00 :: str_bytes (co_CacheID o)))
    (co_StoreFakeIP o) (co_StoreRDRC o) (co_StoreDNS o) false
    (if co_StoreRDRC o then if 0 <? co_RDRCTimeout o then co_RDRCTimeout o else 7 * 24 * 3600 * 10 ^ 9 else 0)
    0 None None ∅ ∅ ∅ ∅ ∅ false.

(** ** Transactions *)

(** [func (c *CacheFile) resetDB(failedDB *bbolt.DB, reason any)]: the damaged
    file is removed and opened anew; if that fails the closed handle stays. *)
Definition resetDB (c : CacheFile) : CacheFile :=
  if released c then c
  else set_DB (match Open_removed with Ok tx => Some tx | _ => None end) c.

(** [func (c *CacheFile) view(fn func(tx *bbolt.Tx) error) (err error)]. *)
Definition view {A} (fn : Tx → result A) (c : CacheFile) : result A * CacheFile :=
  if released c then (Err ErrClosed, c)
  else
    match DB c with
    | None => (Err ErrDatabaseNotOpen, c)
    | Some tx =>
        match fn tx with
        | Ok a => (Ok a, c)
        | Err e => (Err e, c)
        | Panic reason => (Err (errCorrupted reason), resetDB c)
        end
    end.

(** [func (c *CacheFile) batch(fn)] and [update(fn)]: a transaction is rolled
    back when its function or the commit fails. *)
Definition batch {A} (fn : Tx → result (A * Tx)) (c : CacheFile) : result A * CacheFile :=
  if released c then (Err ErrClosed, c)
  else
    match DB c with
    | None => (Err ErrDatabaseNotOpen, c)
    | Some tx =>
        match '(a, tx) ← fn tx; tx ← Tx_Commit tx; Ok (a, tx) with
        | Ok (a, tx) => (Ok a, set_DB (Some tx) c)
        | Err e => (Err e, c)
        | Panic reason => (Err (errCorrupted reason), resetDB c)
        end
    end.

(** A transaction that only writes. *)
Definition write (fn : Tx → result Tx) : Tx → result (unit * Tx) := λ tx, tx ← fn tx; Ok (tt, tx).
(** [_ = f()]: an error is ignored, a panic is not. *)
Definition ignore_error (fn : Tx → result Tx) (tx : Tx) : result Tx :=
  match fn tx with Err _ => Ok tx | r => r end.
Definition error_only {A} (r : result A) : option goerr := match r with Ok _ => None | Err e => Some e | Panic p => Some (errCorrupted p) end.

(** ** Opening *)

(** One round of the loop of [start]: what [bbolt.Open] and [checkDatabase] said,
    and whether the file could be removed when it had to be. *)
Inductive openAttempt : Type :=
| OpenTimeout (e : goerr)
| OpenDamaged (e : goerr) (removed : bool)   (* ErrInvalid, ErrChecksum or ErrVersionMismatch *)
| OpenFailed (e : goerr)
| OpenCorrupted (e : goerr) (removed : bool) (* checkDatabase failed *)
| Opened (tx : Tx).

(** The loop: at most ten rounds; the error of the last round is returned. *)
Fixpoint openLoop (rounds : nat) (last : option goerr) (attempts : list openAttempt) : result Tx :=
  match rounds, attempts with
  | S rounds, a :: attempts =>
      match a with
      | OpenTimeout e | OpenFailed e => openLoop rounds (Some e) attempts
      | OpenDamaged e ok | OpenCorrupted e ok => if ok then openLoop rounds (Some e) attempts else Err e
      | Opened tx => Ok tx
      end
  | _, _ => Err (default (ErrExternal "no attempt") last)
  end.

(** The buckets of other versions are dropped.  Inside the bucket of a cache id
    the code names that bucket itself to [DeleteBucket], not the one found. *)
Definition cleanBucket (name : dbkey) (tx : Tx) : result Tx :=
  match name with
  | [] => Panic "index out of range"
  | b :: _ =>
      if bool_decide (b = x00) then
        inner ← Bucket_ForEachBucket [name] tx;
        foldl (λ r k, tx ← r; if containsb k bucketNameList then Ok tx else ignore_error (DeleteBucket [name] name) tx)
          (Ok tx) inner
      else if containsb name bucketNameList || bool_decide (fakeipBucketPrefix `prefix_of` name) then Ok tx
      else ignore_error (DeleteBucket [] name) tx
  end.
Definition cleanBuckets (tx : Tx) : result Tx :=
  names ← Bucket_ForEachBucket [] tx; foldl (λ r name, tx ← r; cleanBucket name tx) (Ok tx) names.

(** [func (c *CacheFile) start() error], from the opened file on: [chown] is the
    platform's change of owner. *)
Definition start (attempts : list openAttempt) (chown : option goerr) (c : CacheFile) : result CacheFile :=
  tx ← openLoop 10 None attempts;
  match chown with
  | Some e => Err (ErrCause e "platform chown")
  | None =>
      match (tx ← cleanBuckets tx; Tx_Commit tx) with
      | Ok tx => Ok (set_DB (Some tx) c)
      | Err e => Err e
      | Panic p => Panic p
      end
  end.

(** ** Releasing *)

(** The registry of started instances by path ([cacheFileRegistry]). *)
Definition registry : Type := gmap string (gset nat).

(** [func registerCacheFile(c *CacheFile)]. *)
Definition registerCacheFile (path : string) (c : nat) (r : registry) : registry :=
  <[path := {[c]} ∪ default ∅ (r !! path)]> r.

(** [func unregisterCacheFile(c *CacheFile)]. *)
Definition unregisterCacheFile (path : string) (c : nat) (r : registry) : registry :=
  match r !! path with
  | None => r
  | Some instances =>
      let instances := instances ∖ {[c]} in
      if bool_decide (instances = ∅) then delete path r else <[path := instances]> r
  end.

(** The instances [takeOverPath] releases. *)
Definition takeOverPath (path : string) (c : nat) (r : registry) : gset nat := default ∅ (r !! path) ∖ {[c]}.

Definition bucketFakeIP : dbkey := str_bytes "fakeip_address".
Definition keyMetadata : dbkey := str_bytes "fakeip_metadata".

(** [func (c *CacheFile) FakeIPSaveMetadata(metadata *adapter.FakeIPMetadata) error]. *)
Definition CacheFile_FakeIPSaveMetadata (metadata : FakeIPMetadata) (c : CacheFile) : option goerr * CacheFile :=
  let '(r, c) := batch (write (λ tx,
    tx ← CreateBucketIfNotExists [] bucketFakeIP tx;
    Bucket_Put [bucketFakeIP] keyMetadata (FakeIPMetadata_MarshalBinary metadata) tx)) c in
  (error_only r, c).

(** [func (c *CacheFile) flushPendingFakeIPMetadata() error]. *)
Definition flushPendingFakeIPMetadata (c : CacheFile) : option goerr * CacheFile :=
  match saveMetadata c with
  | None => (None, c)
  | Some metadata =>
      let '(err, c) := CacheFile_FakeIPSaveMetadata metadata c in
      ((λ e, ErrCause e "save FakeIP metadata") <$> err, c)
  end.

(** [func (c *CacheFile) Release() error]: the error, the instance and the
    content of the file it leaves; [closeErr] is what closing the database says. *)
Definition Release (closeErr : option goerr) (c : CacheFile) : list goerr * CacheFile :=
  if released c then ([], c)
  else
    let '(flushErr, c) := flushPendingFakeIPMetadata c in
    let c := set_released c in
    match DB c with
    | None => (option_list flushErr, c)
    | Some _ => (option_list flushErr ++ option_list closeErr, c)
    end.

(** ** The small stores *)

(** [func (c *CacheFile) bucket(t, key) *bbolt.Bucket]: the path of the bucket, if it exists. *)
Definition cf_bucket (key : dbkey) (c : CacheFile) (tx : Tx) : result (option dbpath) :=
  match cacheID c with
  | None => ok ← Tx_Bucket [key] tx; Ok (if (ok : bool) then Some [key] else None)
  | Some id =>
      ok ← Tx_Bucket [id] tx;
      if (ok : bool) then ok ← Tx_Bucket [id; key] tx; Ok (if (ok : bool) then Some [id; key] else None)
      else Ok None
  end.

(** [func (c *CacheFile) createBucket(t, key) ( *bbolt.Bucket, error)]. *)
Definition createBucket (key : dbkey) (c : CacheFile) (tx : Tx) : result (dbpath * Tx) :=
  match cacheID c with
  | None => tx ← CreateBucketIfNotExists [] key tx; Ok ([key], tx)
  | Some id =>
      tx ← CreateBucketIfNotExists [] id tx;
      tx ← CreateBucketIfNotExists [id] key tx;
      Ok ([id; key], tx)
  end.

(** Reads one key of a bucket of the instance; no bucket reads like no key. *)
Definition read_key (bucket key : dbkey) (c : CacheFile) (tx : Tx) : result (option (list byte)) :=
  p ← cf_bucket bucket c tx;
  match p with None => Ok None | Some p => Bucket_Get p key tx end.
Definition put_key (bucket key : dbkey) (value : list byte) (c : CacheFile) (tx : Tx) : result Tx :=
  '(p, tx) ← createBucket bucket c tx; Bucket_Put p key value tx.

(** What a read leaves when the database failed: the zero value. *)
Definition or_zero {A} (zero : A) (r : result A * CacheFile) : A * CacheFile :=
  (match r.1 with Ok a => a | _ => zero end, r.2).
Definition saved (r : result unit * CacheFile) : option goerr * CacheFile := (error_only r.1, r.2).

Definition modeKey (c : CacheFile) : dbkey := default cacheIDDefault (cacheID c).

(** [LoadMode] and [StoreMode]: one bucket for all cache ids, the id is the key. *)
Definition LoadMode (c : CacheFile) : string * CacheFile :=
  or_zero EmptyString (view (λ tx,
    ok ← Tx_Bucket [bucketMode] tx;
    if (ok : bool) then v ← Bucket_Get [bucketMode] (modeKey c) tx; Ok (bytes_str (default [] v)) else Ok EmptyString) c).
Definition StoreMode (mode : string) (c : CacheFile) : option goerr * CacheFile :=
  saved (batch (write (λ tx,
    tx ← CreateBucketIfNotExists [] bucketMode tx; Bucket_Put [bucketMode] (modeKey c) (str_bytes mode) tx)) c).

(** [LoadSelected] and [StoreSelected]. *)
Definition LoadSelected (group : string) (c : CacheFile) : string * CacheFile :=
  or_zero EmptyString (view (λ tx, v ← read_key bucketSelected (str_bytes group) c tx; Ok (bytes_str (default [] v))) c).
Definition StoreSelected (group selected : string) (c : CacheFile) : option goerr * CacheFile :=
  saved (batch (write (put_key bucketSelected (str_bytes group) (str_bytes selected) c)) c).

(** [LoadGroupExpand] (the flag, if there is one) and [StoreGroupExpand]. *)
Definition LoadGroupExpand (group : string) (c : CacheFile) : option bool * CacheFile :=
  or_zero None (view (λ tx,
    v ← read_key bucketExpand (str_bytes group) c tx;
    Ok (match v with Some [b] => Some (bool_decide (b = x01)) | _ => None end)) c).
Definition StoreGroupExpand (group : string) (isExpand : bool) (c : CacheFile) : option goerr * CacheFile :=
  saved (batch (write (put_key bucketExpand (str_bytes group) [if isExpand then x01 else x00] c)) c).

(** ** Saved rule-sets *)

(** [adapter.SavedBinary]; [LastUpdated] in seconds. *)
Record SavedBinary : Type := mkSavedBinary {
  Content : list byte;
  LastUpdated : Z;
  LastEtag : string;
  URLHash : list byte
}.

Definition put_sized (b : list byte) : list byte := PutUvarint (len b) ++ b.

(** [func (s *SavedBinary) MarshalBinary() ([]byte, error)]. *)
Definition SavedBinary_MarshalBinary (s : SavedBinary) : list byte :=
  [x02] ++ put_sized (Content s) ++ put_be 8 (LastUpdated s) ++ put_sized (str_bytes (LastEtag s)) ++ put_sized (URLHash s).

(** A length checked against the rest of the input, and that many bytes. *)
Definition read_sized (what : string) : reader (list byte) := λ bs,
  '(n, bs) ← ReadUvarint bs;
  if len bs <? n then Err (ErrNew (String.append "invalid " (String.append what " length: "))) else ReadFull n bs.

(** The signed reading of 8 bytes. *)
Definition int64_of (z : Z) : Z := if z <? 2 ^ 63 then z else z - 2 ^ 64.

(** [func (s *SavedBinary) UnmarshalBinary(data []byte) error]. *)
Definition SavedBinary_UnmarshalBinary (data : list byte) : result SavedBinary :=
  '(version, bs) ← ReadU8 data;
  '(content, bs) ← read_sized "content" bs;
  '(lastUpdated, bs) ← ReadBE 8 bs;
  '(etag, bs) ← read_sized "etag" bs;
  if version <? 2 then Ok (mkSavedBinary content (int64_of lastUpdated) (bytes_str etag) [])
  else
    '(urlHash, _) ← read_sized "url hash" bs;
    Ok (mkSavedBinary content (int64_of lastUpdated) (bytes_str etag) urlHash).

(** [LoadRuleSet] and [SaveRuleSet]. *)
Definition LoadRuleSet (tag : string) (c : CacheFile) : option SavedBinary * CacheFile :=
  or_zero None (view (λ tx,
    p ← cf_bucket bucketRuleSet c tx;
    match p with
    | None => Err ErrNotExist
    | Some p =>
        v ← Bucket_Get p (str_bytes tag) tx;
        match default [] v with
        | [] => Err ErrInvalid
        | setBinary => Some <$> SavedBinary_UnmarshalBinary setBinary
        end
    end) c).
Definition SaveRuleSet (tag : string) (set : SavedBinary) (c : CacheFile) : option goerr * CacheFile :=
  saved (batch (write (put_key bucketRuleSet (str_bytes tag) (SavedBinary_MarshalBinary set) c)) c).

(** ** Disabled chain positions *)

Section chain.
(** [encoding/json] on a list of strings; decoding says what it leaves in the list. *)
Variable json_Marshal : list string → result (list byte).
Variable json_Unmarshal : list byte → list string.

(** [LoadChainDisabled] and [StoreChainDisabled] of [chain_lx.go]. *)
Definition LoadChainDisabled (chainTag : string) (c : CacheFile) : list string * CacheFile :=
  or_zero [] (view (λ tx,
    v ← read_key bucketChainDisabled (str_bytes chainTag) c tx;
    match default [] v with [] => Ok [] | data => Ok (json_Unmarshal data) end) c).
Definition StoreChainDisabled (chainTag : string) (disabledTags : list string) (c : CacheFile) : option goerr * CacheFile :=
  match json_Marshal disabledTags with
  | Ok data =>
      saved (batch (write (λ tx,
        '(p, tx) ← createBucket bucketChainDisabled c tx;
        if nonempty disabledTags then Bucket_Put p (str_bytes chainTag) data tx
        else Bucket_Delete p (str_bytes chainTag) tx)) c)
  | Err e => (Some e, c)
  | Panic p => (Some (errCorrupted p), c)
  end.
End chain.
End cachefile.
