(* ===== verification/CacheFakeIP.v ===== *)
(** FakeIP records in the cache file ([experimental/cachefile/fakeip.go] and the
    FakeIP part of [release_lx.go]), and that they keep the promises of
    [FakeIPStorageLaws] and survive a restart. *)

From S2P Require Import Prelude GoBytes GoSlices GoStrings Netip Metadata DnsMessage FakeIP FakePool FakeIPTheorems Bolt CacheFile.

Definition bucketFakeIPDomain4 : dbkey := str_bytes "fakeip_domain4".
Definition bucketFakeIPDomain6 : dbkey := str_bytes "fakeip_domain6".

Section cachefakeip.
Context {B : Bolt} {EX : External}.

(** [seedFakeIPMetadata] and [clearPendingFakeIPMetadata] of [release_lx.go]. *)
Definition seedFakeIPMetadata (metadata : FakeIPMetadata) (c : CacheFile) : CacheFile :=
  match saveMetadata c with None => set_saveMetadata (Some metadata) c | Some _ => c end.
Definition clearPendingFakeIPMetadata (c : CacheFile) : CacheFile := set_saveMetadata None c.

(** [func (c *CacheFile) FakeIPMetadata() *adapter.FakeIPMetadata]: read once, deleted from the file. *)
Definition CacheFile_FakeIPMetadata (c : CacheFile) : option FakeIPMetadata * CacheFile :=
  let '(r, c) := batch (λ tx,
    ok ← Tx_Bucket [bucketFakeIP] tx;
    if negb ok then Err ErrNotExist
    else
      metadataBinary ← Bucket_Get [bucketFakeIP] keyMetadata tx;
      if len (default [] metadataBinary) =? 0 then Err ErrInvalid
      else
        tx ← Bucket_Delete [bucketFakeIP] keyMetadata tx;
        metadata ← FakeIPMetadata_UnmarshalBinary (default [] metadataBinary);
        Ok (metadata, tx)) c in
  match r with
  | Ok metadata => (Some metadata, seedFakeIPMetadata metadata c)
  | _ => (None, c)
  end.

(** [func (c *CacheFile) FakeIPSaveMetadataAsync(metadata)]: the metadata is
    pending until the timer of ten seconds fires ([saveMetadataFires]) or the
    file is released. *)
Definition CacheFile_FakeIPSaveMetadataAsync (metadata : FakeIPMetadata) (c : CacheFile) : CacheFile :=
  set_saveMetadata (Some metadata) c.
Definition saveMetadataFires (c : CacheFile) : CacheFile :=
  match saveMetadata c with Some metadata => (CacheFile_FakeIPSaveMetadata metadata c).2 | None => c end.

Definition domainBucket (address : Addr) : dbkey := if Addr_Is4 address then bucketFakeIPDomain4 else bucketFakeIPDomain6.

(** The transaction of [FakeIPStore]. *)
Definition storeRecord (address : Addr) (domain : string) (tx : Tx) : result Tx :=
  tx ← CreateBucketIfNotExists [] bucketFakeIP tx;
  oldDomain ← Bucket_Get [bucketFakeIP] (Addr_AsSlice address) tx;
  tx ← Bucket_Put [bucketFakeIP] (Addr_AsSlice address) (str_bytes domain) tx;
  tx ← CreateBucketIfNotExists [] (domainBucket address) tx;
  tx ← match oldDomain with Some old => Bucket_Delete [domainBucket address] old tx | None => Ok tx end;
  Bucket_Put [domainBucket address] (str_bytes domain) (Addr_AsSlice address) tx.

(** [func (c *CacheFile) FakeIPStore(address netip.Addr, domain string) error]. *)
Definition CacheFile_FakeIPStore (address : Addr) (domain : string) (c : CacheFile) : option goerr * CacheFile :=
  saved (batch (write (storeRecord address domain)) c).

(** [func (c *CacheFile) FakeIPStoreAsync(address, domain, logger)]: the record
    is pending at once, and its goroutine stores it and drops the pending entry. *)
Definition CacheFile_FakeIPStoreAsync (address : Addr) (domain : string) (c : CacheFile) : CacheFile :=
  let drop_old (m : gmap string Addr) :=
    match saveDomain c !! address with Some oldDomain => delete oldDomain m | None => m end in
  if Addr_Is4 address
  then set_saveFakeIP (<[address := domain]> (saveDomain c)) (<[domain := address]> (drop_old (saveAddress4 c))) (saveAddress6 c) c
  else set_saveFakeIP (<[address := domain]> (saveDomain c)) (saveAddress4 c) (<[domain := address]> (drop_old (saveAddress6 c))) c.
Definition storeAsyncRuns (address : Addr) (domain : string) (c : CacheFile) : CacheFile :=
  let c := (CacheFile_FakeIPStore address domain c).2 in
  if Addr_Is4 address
  then set_saveFakeIP (delete address (saveDomain c)) (delete domain (saveAddress4 c)) (saveAddress6 c) c
  else set_saveFakeIP (delete address (saveDomain c)) (saveAddress4 c) (delete domain (saveAddress6 c)) c.

(** Reads one key of a bucket at the root. *)
Definition root_get (bucket key : dbkey) (tx : Tx) : result (option (list byte)) :=
  ok ← Tx_Bucket [bucket] tx; if (ok : bool) then Bucket_Get [bucket] key tx else Ok None.

(** [func (c *CacheFile) FakeIPLoad(address netip.Addr) (string, bool)]. *)
Definition CacheFile_FakeIPLoad (address : Addr) (c : CacheFile) : option string * CacheFile :=
  match saveDomain c !! address with
  | Some cachedDomain => (Some cachedDomain, c)
  | None =>
      let '(v, c) := or_zero None (view (root_get bucketFakeIP (Addr_AsSlice address)) c) in
      let domain := bytes_str (default [] v) in
      (if String.eqb domain "" then None else Some domain, c)
  end.

(** [func (c *CacheFile) FakeIPLoadDomain(domain string, isIPv6 bool) (netip.Addr, bool)]. *)
Definition CacheFile_FakeIPLoadDomain (domain : string) (isIPv6 : bool) (c : CacheFile) : option Addr * CacheFile :=
  match (if negb isIPv6 then saveAddress4 c !! domain else saveAddress6 c !! domain) with
  | Some cachedAddress => (Some cachedAddress, c)
  | None =>
      let bucket := if isIPv6 then bucketFakeIPDomain6 else bucketFakeIPDomain4 in
      let '(address, c) := or_zero AddrZero (view (λ tx,
        ok ← Tx_Bucket [bucket] tx;
        if negb ok then Ok AddrZero
        else v ← Bucket_Get [bucket] (str_bytes domain) tx; Ok (AddrFromIP (default [] v))) c) in
      (if Addr_IsValid address then Some address else None, c)
  end.

(** The loop of [FakeIPReset]. *)
Definition resetBucket (name : dbkey) (tx : Tx) : result Tx :=
  ok ← Tx_Bucket [name] tx; if negb ok then Ok tx else DeleteBucket [] name tx.

(** [func (c *CacheFile) FakeIPReset() error]. *)
Definition CacheFile_FakeIPReset (c : CacheFile) : option goerr * CacheFile :=
  let c := clearPendingFakeIPMetadata c in
  saved (batch (write (λ tx,
    tx ← resetBucket bucketFakeIP tx;
    tx ← resetBucket bucketFakeIPDomain4 tx;
    resetBucket bucketFakeIPDomain6 tx)) c).

#[export] Instance cachefile_storage : FakeIPStorage CacheFile := {
  FakeIPMetadata_ := CacheFile_FakeIPMetadata;
  FakeIPSaveMetadata := CacheFile_FakeIPSaveMetadata;
  FakeIPSaveMetadataAsync := CacheFile_FakeIPSaveMetadataAsync;
  FakeIPStore := CacheFile_FakeIPStore;
  FakeIPLoad := CacheFile_FakeIPLoad;
  FakeIPLoadDomain := CacheFile_FakeIPLoadDomain;
  FakeIPReset := CacheFile_FakeIPReset
}.
End cachefakeip.

(** ** The cache file keeps the promises of a storage *)

(** What the code relies on of [M.AddrFromIP]. *)
Class AddrLaws (EX : External) : Prop := {
  AddrFromIP_nil : AddrFromIP [] = AddrZero;
  AddrFromIP_AsSlice a : fake_addr a = true → AddrFromIP (Addr_AsSlice a) = a
}.

Lemma fake_addr_wf a : fake_addr a = true → addr_wf a ∧ Addr_hasZone a = false ∧ Addr_IsValid a = true.
Proof.
  unfold fake_addr. intros [[[[Hv Hz]%andb_true_iff H0%Z.leb_le]%andb_true_iff Hb%Z.ltb_lt]%andb_true_iff _]%andb_true_iff.
  apply negb_true_iff in Hz. split; [|done]. by destruct a.
Qed.

Lemma AsSlice_inj a a' : fake_addr a = true → fake_addr a' = true → Addr_AsSlice a = Addr_AsSlice a' → a = a'.
Proof.
  intros (Hw & Hz & _)%fake_addr_wf (Hw' & Hz' & _)%fake_addr_wf He.
  rewrite <- (AddrFromSlice_AsSlice a), <- (AddrFromSlice_AsSlice a') by done. by rewrite He.
Qed.

Lemma AsSlice_not_metadata a : Addr_AsSlice a ≠ keyMetadata.
Proof. intros He. apply (f_equal length) in He. destruct a; cbn in He; rewrite ?length_put_be in He; done. Qed.

Lemma str_bytes_nonempty d : d ≠ "" → str_bytes d ≠ [].
Proof. intros Hd He. apply Hd. rewrite <- (bytes_str_bytes d), He. done. Qed.

Lemma str_bytes_inj d d' : str_bytes d = str_bytes d' → d = d'.
Proof. intros He. by rewrite <- (bytes_str_bytes d), He, bytes_str_bytes. Qed.

Section laws.
Context {B : Bolt} {BL : BoltLaws B} {EX : External} {AL : AddrLaws EX}.

(** What an instance can read. *)
Definition cf_content (c : CacheFile) : buckets :=
  if released c then ∅ else match DB c with Some tx => content tx | None => ∅ end.

Definition domain_bucket (v : bool) : list byte := if v then bucketFakeIPDomain6 else bucketFakeIPDomain4.

Definition decode_name (v : option (list byte)) : option string :=
  let d := bytes_str (default [] v) in if String.eqb d "" then None else Some d.
Definition decode_addr (v : option (list byte)) : option Addr :=
  let a := AddrFromIP (default [] v) in if Addr_IsValid a then Some a else None.

Lemma get_nil m p : get m p [] = None.
Proof. done. Qed.
Lemma decode_addr_None : decode_addr None = None.
Proof using AL. unfold decode_addr. cbn. by rewrite AddrFromIP_nil. Qed.
Lemma decode_name_str d : d ≠ "" → decode_name (Some (str_bytes d)) = Some d.
Proof.
  intros Hd%String.eqb_neq. unfold decode_name. change (default [] (Some ?x)) with x. rewrite bytes_str_bytes. by rewrite Hd.
Qed.
Lemma decode_name_Some b d : decode_name b = Some d → b = Some (str_bytes d) ∧ d ≠ "".
Proof.
  unfold decode_name. destruct b as [b|]; [|done]. change (default [] (Some ?x)) with x.
  destruct (String.eqb_spec (bytes_str b) ""); [done|]. intros [= <-]. by rewrite str_bytes_str.
Qed.

(** The records in a database. *)
Definition records_of (m : buckets) : FakeMap :=
  mkFakeMap (λ a, if fake_addr a then decode_name (get m [bucketFakeIP] (Addr_AsSlice a)) else None)
    (λ v d, decode_addr (get m [domain_bucket v] (str_bytes d))).

Lemma records_of_empty : records_of ∅ ≡ fm_empty.
Proof using AL.
  split; intros; cbn; rewrite get_empty; [by case_match|].
  unfold decode_addr. cbn. by rewrite AddrFromIP_nil.
Qed.

(** Two contents with the same FakeIP records. *)
Definition same_records (m m' : buckets) : Prop :=
  (∀ a, get m' [bucketFakeIP] (Addr_AsSlice a) = get m [bucketFakeIP] (Addr_AsSlice a)) ∧
  ∀ v d, get m' [domain_bucket v] d = get m [domain_bucket v] d.
Lemma records_of_same m m' : same_records m m' → records_of m' ≡ records_of m.
Proof. intros [H1 H2]. split; intros; cbn; by rewrite ?H1, ?H2. Qed.

(** The maps of pending records are those of [c]. *)
Definition same_pending (c c' : CacheFile) : Prop :=
  saveDomain c' = saveDomain c ∧ saveAddress4 c' = saveAddress4 c ∧ saveAddress6 c' = saveAddress6 c.

Lemma resetDB_content c : cf_content (resetDB c) = ∅ ∧ same_pending c (resetDB c).
Proof using BL.
  unfold resetDB, cf_content. destruct (released c) eqn:Er; [by rewrite Er|]. destruct c. cbn in *.
  split; [|done]. rewrite Er. destruct Open_removed eqn:Eo; [|done..]. by apply Open_removed_law.
Qed.

(** A read answers from the content, or the content is lost. *)
Lemma view_spec {A} (fn : Tx → result A) (f : buckets → A) (z : A) c :
  (∀ tx, reads (fn tx) (f (content tx))) → f ∅ = z →
  let '(r, c') := or_zero z (view fn c) in
  same_pending c c' ∧ ((r = f (cf_content c) ∧ cf_content c' = cf_content c) ∨ (r = z ∧ cf_content c' = ∅)).
Proof using BL.
  intros Hfn Hz. unfold or_zero, view. destruct (released c) eqn:Er; cbn.
  { split; [done|]. left. unfold cf_content. by rewrite Er. }
  destruct (DB c) as [tx|] eqn:Ed; cbn.
  2:{ split; [done|]. left. unfold cf_content. by rewrite Er, Ed. }
  specialize (Hfn tx). destruct (fn tx) as [a|e|p]; cbn in *; [|done|].
  - subst a. split; [done|]. left. unfold cf_content. by rewrite Er, Ed.
  - destruct (resetDB_content c) as [-> Hp]. split; [done|]. by right.
Qed.

(** A transaction does its work on the content, or leaves it, or it is lost. *)
Lemma batch_spec {A} (fn : Tx → result (A * Tx)) c :
  let '(r, c') := batch fn c in
  same_pending c c' ∧ saveMetadata c' = saveMetadata c ∧
  match r with
  | Ok a => ∃ tx tx', DB c = Some tx ∧ released c = false ∧ fn tx = Ok (a, tx') ∧
      cf_content c = content tx ∧ cf_content c' = content tx'
  | Err _ => cf_content c' = cf_content c ∨ cf_content c' = ∅
  | Panic _ => False
  end.
Proof using BL.
  unfold batch. destruct (released c) eqn:Er; [by repeat split; left|].
  destruct (DB c) as [tx|] eqn:Ed; [|by repeat split; left].
  destruct (fn tx) as [[a tx1]|e|p] eqn:Ef; cbn [mbind result_bind]; [|by repeat split; left|].
  2:{ destruct (resetDB_content c) as [-> Hp]. split; [done|]. split; [unfold resetDB; destruct (released c); by destruct c|]. by right. }
  destruct (Tx_Commit tx1) as [tx2|e|p] eqn:Ec; cbn [mbind result_bind]; [|by repeat split; left|].
  2:{ destruct (resetDB_content c) as [-> Hp]. split; [done|]. split; [unfold resetDB; destruct (released c); by destruct c|]. by right. }
  split; [by destruct c|]. split; [by destruct c|]. exists tx, tx1.
  apply Tx_Commit_law in Ec. split; [done|]. split; [done|]. split; [done|].
  unfold cf_content. rewrite Er, Ed. split; [done|]. destruct c. cbn in *. by rewrite Er.
Qed.

(** The transaction of a write without a result. *)
Lemma write_spec fn c :
  let '(r, c') := saved (batch (write fn) c) in
  same_pending c c' ∧ saveMetadata c' = saveMetadata c ∧
  match r with
  | None => ∃ tx tx', fn tx = Ok tx' ∧ cf_content c = content tx ∧ cf_content c' = content tx' ∧ released c = false
  | Some _ => cf_content c' = cf_content c ∨ cf_content c' = ∅
  end.
Proof using BL.
  pose proof (batch_spec (write fn) c) as Hb. unfold saved. destruct (batch (write fn) c) as [r c']. cbn [fst snd].
  destruct Hb as (Hp & Hm & Hr). split; [done|]. split; [done|]. destruct r as [a|e|p]; cbn; [|done..].
  destruct Hr as (tx & tx' & _ & Hrel & Hfn & Hc & Hc'). exists tx, tx'. unfold write in Hfn. invert_ok. done.
Qed.

Lemma get_Put p k v tx tx' p' k' : Bucket_Put p k v tx = Ok tx' →
  get (content tx') p' k' = if bool_decide (p' = p ∧ k' = k) then Some v else get (content tx) p' k'.
Proof using BL.
  intros E. rewrite (Bucket_Put_law _ _ _ _ _ E). apply get_insert.
  intros ->. pose proof (Bucket_Put_empty p v tx) as He. by rewrite E in He.
Qed.
Lemma get_Delete p k tx tx' p' k' : Bucket_Delete p k tx = Ok tx' →
  get (content tx') p' k' = if bool_decide (p' = p ∧ k' = k) then None else get (content tx) p' k'.
Proof using BL. intros ->%Bucket_Delete_law. apply get_delete. Qed.
Lemma get_Create p k tx tx' p' k' : CreateBucketIfNotExists p k tx = Ok tx' →
  get (content tx') p' k' = get (content tx) p' k'.
Proof using BL. intros ->%CreateBucket_law. apply get_create. Qed.
Lemma get_DeleteBucket p k tx tx' p' k' : DeleteBucket p k tx = Ok tx' →
  get (content tx') p' k' = if bool_decide (p ++ [k] `prefix_of` p') then None else get (content tx) p' k'.
Proof using BL. intros ->%DeleteBucket_law. apply get_drop. Qed.
Lemma Bucket_Get_read p k tx r : Bucket_Get p k tx = Ok r → r = get (content tx) p k.
Proof using BL. intros E. pose proof (Bucket_Get_law p k tx) as Hl. by rewrite E in Hl. Qed.

(** What [storeRecord] leaves under every key of the FakeIP buckets. *)
Lemma storeRecord_get a d tx tx' : storeRecord a d tx = Ok tx' →
  d ≠ "" ∧
  (∀ k, get (content tx') [bucketFakeIP] k =
    if bool_decide (k = Addr_AsSlice a) then Some (str_bytes d) else get (content tx) [bucketFakeIP] k) ∧
  (∀ v k, get (content tx') [domain_bucket v] k =
    if bool_decide (v = is6 a) then
      if bool_decide (k = str_bytes d) then Some (Addr_AsSlice a)
      else if bool_decide (get (content tx) [bucketFakeIP] (Addr_AsSlice a) = Some k) then None
      else get (content tx) [domain_bucket v] k
    else get (content tx) [domain_bucket v] k).
Proof using BL.
  unfold storeRecord. intros E. invert_ok.
  rename x into tx1, x0 into old, x1 into tx2, x2 into tx3, x3 into tx4.
  match goal with
  | Hc1 : CreateBucketIfNotExists [] bucketFakeIP tx = _, Hg : Bucket_Get _ _ _ = _, Hp : Bucket_Put [bucketFakeIP] _ _ _ = _,
    Hc2 : CreateBucketIfNotExists _ _ tx2 = _, Hd : match old with _ => _ end = _ |- _ =>
      rename Hc1 into Hcreate1, Hg into Hget, Hp into Hput1, Hc2 into Hcreate2, Hd into Hdel
  end.
  assert (domainBucket a = domain_bucket (is6 a)) as Hdb by (unfold domainBucket, is6; by destruct (Addr_Is4 a)).
  rewrite Hdb in *. apply Bucket_Get_read in Hget. rewrite (get_Create _ _ _ _ _ _ Hcreate1) in Hget.
  assert (∀ p k, get (content tx4) p k =
    if bool_decide (p = [domain_bucket (is6 a)] ∧ old = Some k) then None else get (content tx3) p k) as Hget4.
  { intros p k. destruct old as [o|]; [rewrite (get_Delete _ _ _ _ p k Hdel)|invert_ok];
      repeat case_bool_decide; naive_solver. }
  split; [intros ->; pose proof (Bucket_Put_empty [domain_bucket (is6 a)] (Addr_AsSlice a) tx4) as He;
    change (str_bytes "") with (@nil byte) in E; by rewrite E in He|].
  assert (∀ v, [bucketFakeIP] ≠ [domain_bucket v]) as Hne by by intros [].
  assert (∀ v v', [domain_bucket v] = [domain_bucket v'] ↔ v = v') as Hinj by (intros [] []; naive_solver).
  split; intros; rewrite (get_Put _ _ _ _ _ _ _ E), Hget4, (get_Create _ _ _ _ _ _ Hcreate2),
    (get_Put _ _ _ _ _ _ _ Hput1), (get_Create _ _ _ _ _ _ Hcreate1), <- ?Hget.
  - rewrite !(bool_decide_eq_false_2 (_ = [domain_bucket _] ∧ _)) by (intros [He _]; by apply Hne in He).
    repeat case_bool_decide; naive_solver.
  - rewrite (bool_decide_eq_false_2 ([domain_bucket _] = [bucketFakeIP] ∧ _)) by (intros [He _]; symmetry in He; by apply Hne in He).
    pose proof (Hinj v (is6 a)). repeat case_bool_decide; naive_solver.
Qed.

Lemma records_of_store a d tx tx' : fake_addr a = true → storeRecord a d tx = Ok tx' →
  records_of (content tx') ≡ fm_store a d (records_of (content tx)).
Proof using BL AL.
  intros Ha (Hd & Hn & Hv)%storeRecord_get. split; cbn [fm_names fm_addrs fm_store records_of].
  - intros a'. destruct (fake_addr a') eqn:Ha'.
    + rewrite Hn. destruct (decide (a' = a)) as [->|Hne].
      * rewrite !bool_decide_eq_true_2 by done. by apply decode_name_str.
      * rewrite !bool_decide_eq_false_2; [done|done|]. intros He. by apply Hne, AsSlice_inj.
    + rewrite bool_decide_eq_false_2; [done|]. intros ->. congruence.
  - intros v d'. rewrite Hv. case_bool_decide as Hva; [|done]. rewrite Ha.
    destruct (decide (d' = d)) as [->|Hne].
    { rewrite !bool_decide_eq_true_2 by done. unfold decode_addr. cbn. rewrite AddrFromIP_AsSlice by done.
      by destruct (fake_addr_wf _ Ha) as (_ & _ & ->). }
    rewrite (bool_decide_eq_false_2 (str_bytes d' = _)) by (intros He; by apply Hne, str_bytes_inj).
    rewrite (bool_decide_eq_false_2 (d' = d)) by done.
    destruct (decide (d' = "")) as [->|Hd'].
    { rewrite !(get_nil : ∀ m p, get m p (str_bytes "") = None), decode_addr_None. by repeat case_bool_decide; rewrite ?decode_addr_None. }
    assert (get (content tx) [bucketFakeIP] (Addr_AsSlice a) = Some (str_bytes d') ↔
      decode_name (get (content tx) [bucketFakeIP] (Addr_AsSlice a)) = Some d') as Hiff.
    { split; [intros ->; by apply decode_name_str|]. by intros [? _]%decode_name_Some. }
    rewrite (bool_decide_ext _ _ Hiff). case_bool_decide; [|done]. apply decode_addr_None.
Qed.

Lemma root_get_reads b k tx : reads (root_get b k tx) (get (content tx) [b] k).
Proof using BL.
  unfold root_get. eapply reads_bind; [apply Tx_Bucket_law|]. case_bool_decide as Hb; [apply Bucket_Get_law|].
  cbn. unfold get. destruct (content tx !! [b]); [by destruct Hb|]. by case_match.
Qed.

Lemma resetBucket_get b tx tx' : resetBucket b tx = Ok tx' →
  ∀ b' k, get (content tx') [b'] k = if bool_decide (b' = b) then None else get (content tx) [b'] k.
Proof using BL.
  unfold resetBucket. intros E b' k. pose proof (Tx_Bucket_law [b] tx) as Hb. destruct (Tx_Bucket [b] tx) as [ok|e|p]; [|done..].
  cbn in E, Hb. subst ok. case_bool_decide as Hex; cbn in E.
  - rewrite (get_DeleteBucket _ _ _ _ _ _ E). cbn [app].
    rewrite (bool_decide_ext ([b] `prefix_of` [b']) (b' = b)); [done|]. split.
    + intros [l Hl]. by injection Hl.
    + intros ->. by exists [].
  - apply Ok_inj in E as <-. case_bool_decide; [subst|done]. unfold get.
    destruct (content tx !! [b]); [by destruct Hex|]. by case_match.
Qed.

Definition no_pending (c : CacheFile) : Prop := saveDomain c = ∅ ∧ saveAddress4 c = ∅ ∧ saveAddress6 c = ∅.
Lemma same_pending_none c c' : same_pending c c' → no_pending c → no_pending c'.
Proof. unfold same_pending, no_pending. intros (-> & -> & ->). done. Qed.

Lemma kept_content m m' : m' = m ∨ m' = ∅ → kept (records_of m) (records_of m').
Proof using AL. intros [->| ->]; [by left|right]. apply records_of_empty. Qed.

(** Metadata sits in the bucket of the records under a key no address has. *)
Lemma same_records_metadata m m' :
  (∀ p k, ¬ (p = [bucketFakeIP] ∧ k = keyMetadata) → get m' p k = get m p k) → same_records m m'.
Proof.
  intros Hm. split; intros; apply Hm; intros [Hp Hk]; [by apply AsSlice_not_metadata in Hk|by destruct v].
Qed.

Lemma save_metadata_spec m c :
  let '(err, c') := CacheFile_FakeIPSaveMetadata m c in
  same_pending c c' ∧ saveMetadata c' = saveMetadata c ∧ kept (records_of (cf_content c)) (records_of (cf_content c')) ∧
  (err = None → released c = false ∧ records_of (cf_content c') ≡ records_of (cf_content c) ∧
    get (cf_content c') [bucketFakeIP] keyMetadata = Some (FakeIPMetadata_MarshalBinary m)).
Proof using BL AL.
  unfold CacheFile_FakeIPSaveMetadata.
  match goal with |- context [batch (write ?fn) c] => pose proof (write_spec fn c) as Hw; unfold saved in Hw; destruct (batch (write fn) c) as [r c'] end.
  cbn [fst snd] in Hw. destruct Hw as (Hp & Hm & Hr). split; [done|]. split; [done|]. destruct (error_only r).
  { split; [by apply kept_content|done]. }
  destruct Hr as (tx & tx' & E & -> & -> & Hrel). invert_ok.
  match goal with Hc : CreateBucketIfNotExists _ _ _ = _ |- _ => pose proof (λ p k, get_Create _ _ _ _ p k Hc) as Hcr end.
  assert (records_of (content tx') ≡ records_of (content tx)) as Hsame.
  { apply records_of_same, same_records_metadata. intros p k Hne. rewrite (get_Put _ _ _ _ _ _ _ E).
    by rewrite bool_decide_eq_false_2, Hcr by done. }
  split; [by left|]. intros _. split; [done|]. split; [done|].
  rewrite (get_Put _ _ _ _ _ _ _ E). by rewrite bool_decide_eq_true_2.
Qed.

#[export] Program Instance cachefile_laws : FakeIPStorageLaws CacheFile := {
  storage_ok := no_pending;
  fake_view c := records_of (cf_content c)
}.
Next Obligation.
  cbn. intros a c r c' Hp Ha. unfold CacheFile_FakeIPLoad. pose proof Hp as [-> _]. rewrite lookup_empty.
  pose proof (view_spec (root_get bucketFakeIP (Addr_AsSlice a)) (λ m, get m [bucketFakeIP] (Addr_AsSlice a)) None c) as Hv.
  destruct (or_zero None _) as [v c1]. intros [= <- <-].
  destruct Hv as [Hsame Hv]; [intros; apply root_get_reads|apply get_empty|].
  split; [by eapply same_pending_none|]. cbn [fm_names records_of]. rewrite Ha.
  destruct Hv as [[-> ->]|[-> ->]]; [by left|right]. split; [done|]. apply records_of_empty.
Qed.
Next Obligation.
  cbn. intros d v c r c' Hp. unfold CacheFile_FakeIPLoadDomain. pose proof Hp as (_ & -> & ->).
  rewrite !lookup_empty. replace (if negb v then None else None) with (@None Addr) by by destruct v.
  match goal with |- context [view ?fn c] => set (rd := fn) end.
  pose proof (view_spec rd (λ m, AddrFromIP (default [] (get m [domain_bucket v] (str_bytes d)))) AddrZero c) as Hv.
  destruct (or_zero AddrZero _) as [a c1]. intros [= <- <-]. destruct Hv as [Hsame Hv].
  { intros tx. pose proof (root_get_reads (domain_bucket v) (str_bytes d) tx) as Hr. unfold rd, root_get in *.
    fold (domain_bucket v). destruct (Tx_Bucket _ tx) as [[]|e|p]; cbn [mbind result_bind reads negb] in *; [|by rewrite <- Hr, <- AddrFromIP_nil|done..].
    destruct (Bucket_Get _ _ _); cbn [mbind result_bind reads] in *; congruence. }
  { rewrite get_empty. apply AddrFromIP_nil. }
  split; [by eapply same_pending_none|]. cbn [fm_addrs records_of]. fold (decode_addr (get (cf_content c) [domain_bucket v] (str_bytes d))).
  destruct Hv as [[-> ->]|[-> ->]]; [by left|right]. split; [done|]. apply records_of_empty.
Qed.
Next Obligation.
  cbn. intros a d c err c' Hp Ha. unfold CacheFile_FakeIPStore. pose proof (write_spec (storeRecord a d) c) as Hw.
  destruct (saved _) as [r c1]. intros [= <- <-]. destruct Hw as (Hsame & _ & Hr).
  split; [by eapply same_pending_none|]. destruct r; cbn; [by apply kept_content|].
  destruct Hr as (tx & tx' & E & -> & -> & _). by apply records_of_store.
Qed.
Next Obligation.
  cbn. intros c err c' Hp. unfold CacheFile_FakeIPReset.
  assert (cf_content (clearPendingFakeIPMetadata c) = cf_content c ∧ no_pending (clearPendingFakeIPMetadata c)) as [Hc Hp'] by by destruct c.
  match goal with |- context [batch (write ?fn) ?c0] => pose proof (write_spec fn c0) as Hw; destruct (saved (batch (write fn) c0)) as [r c1] end.
  intros [= <- <-]. destruct Hw as (Hsame & _ & Hr). rewrite Hc in Hr.
  split; [by eapply same_pending_none|]. destruct r; cbn; [by apply kept_content|].
  destruct Hr as (tx & tx' & E & _ & -> & _). invert_ok.
  rewrite <- records_of_empty. apply records_of_same.
  repeat match goal with Hr : resetBucket _ _ = _ |- _ => pose proof (resetBucket_get _ _ _ Hr); clear Hr end.
  split; intros; rewrite get_empty; repeat match goal with Hr : ∀ b' k, get (content _) [b'] k = _ |- _ => rewrite Hr; clear Hr end.
  - done.
  - by destruct v.
Qed.
Next Obligation.
  cbn. intros c m c' Hp. unfold CacheFile_FakeIPMetadata.
  match goal with |- context [batch ?fn c] => pose proof (batch_spec fn c) as Hb; destruct (batch fn c) as [r c1] end.
  destruct Hb as (Hsame & _ & Hr). destruct r as [md|e|p]; [|intros [= <- <-]; split; [by eapply same_pending_none|by apply kept_content]|done].
  intros [= <- <-]. destruct Hr as (tx & tx' & _ & _ & E & -> & Hc').
  assert (cf_content (seedFakeIPMetadata md c1) = cf_content c1 ∧ no_pending (seedFakeIPMetadata md c1)) as [-> Hp'].
  { pose proof (same_pending_none _ _ Hsame Hp). unfold seedFakeIPMetadata. destruct (saveMetadata c1); [done|by destruct c1]. }
  split; [done|]. rewrite Hc'. left. invert_ok. case_match; [done|]. invert_ok. case_match; [done|]. invert_ok.
  apply records_of_same, same_records_metadata. intros p k Hne.
  match goal with Hd : Bucket_Delete _ _ _ = _ |- _ => rewrite (get_Delete _ _ _ _ _ _ Hd) end. by rewrite bool_decide_eq_false_2.
Qed.
Next Obligation.
  cbn. intros m c err c' Hp E. pose proof (save_metadata_spec m c) as Hs. rewrite E in Hs. destruct Hs as (Hsame & _ & Hk & _).
  split; [by eapply same_pending_none|done].
Qed.
Next Obligation. cbn. intros m c Hp. by destruct c. Qed.
End laws.
