(* ===== verification/FakeIPResume.v ===== *)
(** FakeIP across restarts: the metadata codec reads back what it wrote, and a
    store over a cache file goes on where the last one stopped, also when the
    earlier instance was released by a takeover instead of being closed. *)

From S2P Require Import Prelude GoBytes GoSlices GoStrings Netip Metadata DnsMessage FakeIP FakePool FakeIPTheorems Bolt CacheFile CacheFakeIP Concrete.

(** ** The metadata codec *)

(** A prefix as [PrefixFrom] builds them. *)
Definition prefix_wf (p : Prefix) : Prop :=
  addr_wf (p_addr p) ∧ Addr_withoutZone (p_addr p) = p_addr p ∧
  (p_bits p = -1 ∨ Addr_IsValid (p_addr p) = true ∧ 0 ≤ p_bits p ≤ Addr_BitLen (p_addr p)).
Definition metadata_wf (m : FakeIPMetadata) : Prop :=
  prefix_wf (Inet4Range m) ∧ prefix_wf (Inet6Range m) ∧
  (addr_wf (Inet4Current m) ∧ Addr_hasZone (Inet4Current m) = false) ∧
  (addr_wf (Inet6Current m) ∧ Addr_hasZone (Inet6Current m) = false).

Lemma zoneless a : Addr_withoutZone a = a → Addr_hasZone a = false.
Proof. destruct a as [| |ip z]; [done..|]. by intros [= <-]. Qed.

Lemma Addr_Marshal_AsSlice a : Addr_hasZone a = false → Addr_MarshalBinary a = Addr_AsSlice a.
Proof.
  destruct a as [| |ip z]; [done..|]. cbn [Addr_hasZone Addr_MarshalBinary]. intros Hz%negb_false_iff%String.eqb_eq. subst z.
  change (str_bytes "") with (@nil byte). by rewrite app_nil_r.
Qed.

Lemma Addr_Unmarshal_Marshal a : addr_wf a → Addr_hasZone a = false → Addr_UnmarshalBinary (Addr_MarshalBinary a) = Ok a.
Proof.
  intros Hwf Hz. rewrite Addr_Marshal_AsSlice by done.
  destruct a as [|ip|ip z]; [done|..]; unfold Addr_UnmarshalBinary; cbn [Addr_AsSlice addr_wf] in *; rewrite len_put_be; cbn -[be put_be];
    rewrite be_put_be by (cbn; lia); [done|].
  apply negb_false_iff, String.eqb_eq in Hz as ->. done.
Qed.

Lemma len_Addr_Marshal a : Addr_hasZone a = false → len (Addr_MarshalBinary a) ≤ 16.
Proof. intros Hz. rewrite Addr_Marshal_AsSlice by done. destruct a; cbn [Addr_AsSlice]; rewrite ?len_put_be; [done|lia..]. Qed.

Lemma Prefix_Unmarshal_Marshal p : prefix_wf p → Prefix_UnmarshalBinary (Prefix_MarshalBinary p) = Ok p.
Proof.
  intros (Hwf & Hzone & Hbits). unfold Prefix_UnmarshalBinary, Prefix_MarshalBinary. rewrite Hzone.
  set (m := Addr_MarshalBinary (p_addr p)). rewrite len_app. change (len [_]) with 1. pose proof (len_nonneg m).
  rewrite (proj2 (Z.ltb_ge _ _)) by lia. replace (len m + 1 - 1) with (len m) by lia.
  rewrite slice_app_head by done. unfold m. rewrite Addr_Unmarshal_Marshal by (done || by apply zoneless). cbn [mbind result_bind].
  fold m. assert (at_ (m ++ [zb (p_bits p)]) (len m) = p_bits p mod 256) as ->.
  { unfold at_, len. rewrite Nat2Z.id, lookup_app_r, Nat.sub_diag by lia. apply bz_zb. }
  f_equal. destruct p as [a bits]. cbn [p_addr p_bits] in *. unfold PrefixFrom. rewrite Hzone. f_equal.
  destruct Hbits as [->|[Hv Hb]].
  - change (-1 mod 256) with 255. by destruct a.
  - rewrite Z.mod_small by (destruct a; cbn in Hb; lia). rewrite Hv, (proj2 (Z.leb_le 0 bits)), (proj2 (Z.leb_le bits _)) by lia. done.
Qed.

Lemma len_Prefix_Marshal p : prefix_wf p → len (Prefix_MarshalBinary p) ≤ 17.
Proof.
  intros (_ & Hzone & _). unfold Prefix_MarshalBinary. rewrite Hzone, len_app. pose proof (len_Addr_Marshal _ (zoneless _ Hzone)).
  change (len [_]) with 1. lia.
Qed.

Lemma unmarshalElement_marshal {A} (f : list byte → result A) data a rest :
  len data ≤ 17 → f data = Ok a → unmarshalElement f (marshalElement data ++ rest) = Ok (a, rest).
Proof.
  intros Hlen Hf. unfold unmarshalElement, marshalElement. pose proof (len_nonneg data). rewrite <- app_assoc.
  change (put_be 2) with (put_be (Z.to_nat 2)). rewrite ReadBE_put by lia. cbv iota beta. rewrite ReadFull_app. cbn [mbind result_bind]. by rewrite Hf.
Qed.

(** What [MarshalBinary] writes, [UnmarshalBinary] reads. *)
Lemma metadata_reads_back m : metadata_wf m → FakeIPMetadata_UnmarshalBinary (FakeIPMetadata_MarshalBinary m) = Ok m.
Proof.
  destruct m as [r4 r6 c4 c6]. intros (H4 & H6 & [Hc4 Hz4] & [Hc6 Hz6]). unfold FakeIPMetadata_UnmarshalBinary, FakeIPMetadata_MarshalBinary.
  cbn [Inet4Range Inet6Range Inet4Current Inet6Current] in *.
  rewrite (unmarshalElement_marshal _ _ r4) by (by apply len_Prefix_Marshal || by apply Prefix_Unmarshal_Marshal). cbn [mbind result_bind].
  rewrite (unmarshalElement_marshal _ _ r6) by (by apply len_Prefix_Marshal || by apply Prefix_Unmarshal_Marshal). cbn [mbind result_bind].
  pose proof (len_Addr_Marshal _ Hz4). pose proof (len_Addr_Marshal _ Hz6).
  rewrite (unmarshalElement_marshal _ _ c4) by (lia || by apply Addr_Unmarshal_Marshal). cbn [mbind result_bind].
  rewrite <- (app_nil_r (marshalElement (Addr_MarshalBinary c6))).
  rewrite (unmarshalElement_marshal _ _ c6) by (lia || by apply Addr_Unmarshal_Marshal). done.
Qed.

(** Metadata cut short makes [common.Must] panic. *)
Lemma truncated_metadata_panics : FakeIPMetadata_UnmarshalBinary [x00] = Panic "unexpected EOF".
Proof. done. Qed.

(** ** Sessions *)

Section session.
Context {B : Bolt} {BL : BoltLaws B} {EX : External} {AL : AddrLaws EX}.

(** What happens to a store over a cache file while it runs: its operations and
    the timer of the pending metadata. *)
Inductive session_op : Type :=
| OpCreate (now : Z) (domain : string) (isIPv6 : bool)
| OpLookup (address : Addr)
| OpReset
| OpClose
| OpTimer.

Definition run_op (s : Store CacheFile) (op : session_op) : Store CacheFile :=
  match op with
  | OpCreate now d v => (Store_Create now d v s).2
  | OpLookup a => (Store_Lookup a s).2
  | OpReset => (Store_Reset s).2
  | OpClose => (Store_Close s).2
  | OpTimer => match storage s with Some c => set_storage (saveMetadataFires c) s | None => s end
  end.

(** The parts of an instance that only the metadata calls write. *)
Definition same_meta (c c' : CacheFile) : Prop := saveMetadata c' = saveMetadata c ∧ released c' = released c.

Lemma same_meta_reset c : same_meta c (resetDB c).
Proof. unfold resetDB. destruct (released c) eqn:E; [done|]. by destruct c. Qed.
Lemma view_meta {A} (fn : Tx → result A) c : same_meta c (view fn c).2.
Proof.
  unfold view. destruct (released c) eqn:E; [done|]. destruct (DB c) as [tx|]; [|done].
  destruct (fn tx); [done..|apply same_meta_reset].
Qed.
Lemma batch_meta {A} (fn : Tx → result (A * Tx)) c : same_meta c (batch fn c).2.
Proof.
  unfold batch. destruct (released c) eqn:E; [done|]. destruct (DB c) as [tx|]; [|done].
  case_match; [|done|apply same_meta_reset]. case_match. by destruct c.
Qed.
Lemma load_meta a c : same_meta c (FakeIPLoad a c).2.
Proof.
  cbn. unfold CacheFile_FakeIPLoad. destruct (saveDomain c !! a); [done|].
  pose proof (view_meta (root_get bucketFakeIP (Addr_AsSlice a)) c) as Hv. unfold or_zero. by destruct (view _ c).
Qed.
Lemma load_domain_meta d v c : same_meta c (FakeIPLoadDomain d v c).2.
Proof.
  cbn. unfold CacheFile_FakeIPLoadDomain. case_match; [done|].
  match goal with |- context [view ?fn c] => pose proof (view_meta fn c) as Hv end. unfold or_zero. by destruct (view _ c).
Qed.
Lemma store_meta a d c : same_meta c (FakeIPStore a d c).2.
Proof. apply batch_meta. Qed.
Lemma save_meta m c : same_meta c (FakeIPSaveMetadata m c).2.
Proof.
  cbn. unfold CacheFile_FakeIPSaveMetadata.
  match goal with |- context [batch ?fn c] => pose proof (batch_meta fn c) as Hv end. by destruct (batch _ c).
Qed.

Lemma storage_note now p4 p6 (s : Store CacheFile) : storage (lxNoteCreate now p4 p6 s) = storage s.
Proof. by destruct s. Qed.
Lemma storage_set c (s : Store CacheFile) : storage (set_storage c s) = Some c.
Proof. by destruct s. Qed.

(** A running session: pending metadata is that of the store. *)
Record session_ok (r4 r6 : Prefix) (s : Store CacheFile) (c : CacheFile) : Prop := mkSession {
  se_ok : store_ok s c;
  se_released : released c = false;
  se_pending : ∀ m, saveMetadata c = Some m → m = storeMetadata s;
  se_range4 : inet4Range s = r4;
  se_range6 : inet6Range s = r6
}.

(** Only the storage changed, and not its metadata. *)
Lemma session_storage r4 r6 s c c' :
  session_ok r4 r6 s c → no_pending c' → kept (records_of (cf_content c)) (records_of (cf_content c')) → same_meta c c' →
  session_ok r4 r6 (set_storage c' s) c'.
Proof.
  intros [Hok Hrel Hp H4 H6] Hnp Hk [Hm Hr]. constructor; [by apply (store_ok_storage _ c)|congruence|..]; [|by destruct s..].
  intros m. rewrite Hm. intros ->%Hp. by destruct s.
Qed.

Lemma session_locked r4 r6 s c now d v :
  session_ok r4 r6 s c → ∃ c', session_ok r4 r6 (createLocked now d v s).2 c'.
Proof.
  intros [Hok Hrel Hp H4 H6]. destruct (createLocked_spec now d v s c Hok) as (c' & Hok' & Hranges & _). exists c'.
  pose proof (so_storage _ _ Hok') as Hst. rewrite (createLocked_unfold _ _ _ _ _ (so_storage _ _ Hok)) in *.
  pose proof (load_domain_meta d v c) as Hlm. destruct (FakeIPLoadDomain d v c) as [loaded c1]. cbn [snd] in Hlm.
  assert (∀ s2 : Store CacheFile, storeMetadata s2 = storeMetadata s → ∀ m, saveMetadata c1 = Some m → m = storeMetadata s2) as Hkeep.
  { intros s2 -> m. destruct Hlm as [-> _]. apply Hp. }
  destruct loaded as [a|]; cbn [fst snd] in *.
  { assert (c' = c1) as -> by (destruct s; cbn in Hst; congruence).
    constructor; [done|destruct Hlm; congruence|apply Hkeep; by destruct s|by destruct s..]. }
  destruct (negb (Addr_IsValid (family_current s v))); cbn [fst snd] in *.
  { assert (c' = c1) as -> by (destruct s; cbn in Hst; congruence).
    constructor; [done|destruct Hlm; congruence|apply Hkeep; by destruct s|by destruct s..]. }
  set (a := nextAddress _ _ _) in *. pose proof (store_meta a d c1) as Hsm. destruct (FakeIPStore a d c1) as [err c2]. cbn [fst snd] in *.
  set (s1 := set_current v a (set_storage c1 s)) in *.
  rewrite storage_note, storage_set in Hst. apply (inj Some) in Hst as <-.
  constructor; [done|destruct Hlm, Hsm, c2; cbn in *; congruence|..]; [|by destruct s, v..].
  intros m. destruct c2. cbn. intros [= <-]. by destruct s, v.
Qed.

Lemma session_create r4 r6 s c now d v :
  session_ok r4 r6 s c → ∃ c', session_ok r4 r6 (Store_Create now d v s).2 c'.
Proof.
  intros Hs. unfold Store_Create. rewrite (so_storage _ _ (se_ok _ _ _ _ Hs)).
  pose proof (load_domain_meta d v c) as Hlm. destruct (FakeIPLoadDomain d v c) as [loaded c1] eqn:El. cbn [snd] in Hlm.
  destruct (FakeIPLoadDomain_law _ _ _ _ _ (so_storage_ok _ _ (se_ok _ _ _ _ Hs)) El) as [Hok1 Hk%served_kept].
  pose proof (session_storage _ _ _ _ _ Hs Hok1 Hk Hlm) as Hs1. destruct loaded; [by exists c1|].
  by apply (session_locked _ _ _ c1).
Qed.

Lemma load_kept a c : no_pending c →
  no_pending (FakeIPLoad a c).2 ∧ kept (records_of (cf_content c)) (records_of (cf_content (FakeIPLoad a c).2)).
Proof.
  intros Hp. cbn. unfold CacheFile_FakeIPLoad. destruct (saveDomain c !! a); [split; [done|by left]|].
  pose proof (view_spec (root_get bucketFakeIP (Addr_AsSlice a)) (λ m, get m [bucketFakeIP] (Addr_AsSlice a)) None c) as Hv.
  destruct (or_zero None _) as [v c1]. destruct Hv as [Hsame Hv]; [intros; apply root_get_reads|apply get_empty|].
  split; [by eapply same_pending_none|]. apply kept_content. destruct Hv as [[_ ?]|[_ ?]]; [by left|by right].
Qed.

Lemma session_run r4 r6 s c op : session_ok r4 r6 s c → ∃ c', session_ok r4 r6 (run_op s op) c'.
Proof.
  intros Hs. pose proof (se_ok _ _ _ _ Hs) as Hok. pose proof (so_storage_ok _ _ Hok) as Hnp. destruct op as [now d v|a| | |]; cbn [run_op].
  - by apply (session_create _ _ _ c).
  - unfold Store_Lookup. rewrite (so_storage _ _ Hok). pose proof (load_kept a c Hnp) as [? ?]. pose proof (load_meta a c).
    destruct (FakeIPLoad a c) as [x c1]. exists c1. by apply (session_storage _ _ _ c).
  - unfold Store_Reset. rewrite (so_storage _ _ Hok). destruct (FakeIPReset c) as [x c1] eqn:E.
    destruct (FakeIPReset_law _ _ _ Hnp E) as [Hnp1 Hk]. exists c1. cbn [snd].
    assert (saveMetadata c1 = None ∧ released c1 = released c) as [Hm Hr].
    { cbn in E. unfold CacheFile_FakeIPReset, saved in E.
      match type of E with context [batch ?fn ?c0] => pose proof (batch_meta fn c0) as [? ?]; destruct (batch fn c0) as [r c2] end.
      cbn [fst snd] in *. injection E as _ <-. by destruct c. }
    destruct Hs as [_ Hrel Hp H4 H6]. constructor; [apply (store_ok_storage _ c); [done..|destruct x; [done|by right]]|congruence|congruence|by destruct s..].
  - unfold Store_Close. rewrite (so_storage _ _ Hok). pose proof (save_meta (storeMetadata s) c) as Hm.
    destruct (FakeIPSaveMetadata _ c) as [x c1] eqn:E. destruct (FakeIPSaveMetadata_law _ _ _ _ Hnp E) as [? ?].
    exists c1. by apply (session_storage _ _ _ c).
  - rewrite (so_storage _ _ Hok). unfold saveMetadataFires. destruct (saveMetadata c) as [m|].
    + pose proof (save_meta m c) as Hm. change (CacheFile_FakeIPSaveMetadata m c) with (FakeIPSaveMetadata m c).
      destruct (FakeIPSaveMetadata m c) as [x c1] eqn:E. destruct (FakeIPSaveMetadata_law _ _ _ _ Hnp E) as [? ?].
      exists c1. by apply (session_storage _ _ _ c).
    + exists c. apply (session_storage _ _ _ c); [done|done|by left|done].
Qed.

Lemma session_runs r4 r6 ops s c : session_ok r4 r6 s c → ∃ c', session_ok r4 r6 (fold_left run_op ops s) c'.
Proof.
  revert s c. induction ops as [|op ops IH]; intros s c Hs; [by exists c|].
  destruct (session_run _ _ _ _ op Hs) as [c1 Hs1]. cbn. by apply (IH _ c1).
Qed.
End session.

(** ** Restarts *)

(** A database that answers: reads, deletions and commits do not fail. *)
Class BoltTotal (B : Bolt) : Prop := {
  Tx_Bucket_total p tx : is_ok (Tx_Bucket p tx) = true;
  Bucket_Get_total p k tx : is_ok (Bucket_Get p k tx) = true;
  Bucket_Delete_total p k tx : is_ok (Bucket_Delete p k tx) = true;
  Tx_Commit_total tx : is_ok (Tx_Commit tx) = true
}.

#[export] Instance MapBolt_total : BoltTotal MapBolt.
Proof. by split. Qed.

Lemma foldl_preserves {A S} (P : S → S → Prop) `{!Reflexive P, !Transitive P} (f : A → S → result S) l r s s' :
  r = Ok s → foldl (λ r x, s ← r; f x s) r l = Ok s' → (∀ x s s', x ∈ l → f x s = Ok s' → P s s') → P s s'.
Proof.
  revert r s. induction l as [|x l IH]; intros r s -> E Hf; [cbn in E; by apply Ok_inj in E as ->|].
  cbn [foldl] in E. cbn [mbind result_bind] in E. destruct (f x s) as [s1|e|p] eqn:E1.
  - transitivity s1; [by apply (Hf x); [left|]|]. apply (IH (Ok s1)); [done|done|]. intros y ??? ?. apply (Hf y); [by right|done].
  - exfalso. clear -E. induction l as [|y l IH]; [done|]. by apply IH.
  - exfalso. clear -E. induction l as [|y l IH]; [done|]. by apply IH.
Qed.

Section restart.
Context {B : Bolt} {BL : BoltLaws B} {EX : External} {AL : AddrLaws EX}.

(** The FakeIP buckets are the same. *)
Definition same_fakeip (tx tx' : Tx) : Prop :=
  ∀ b k, fakeipBucketPrefix `prefix_of` b → get (content tx') [b] k = get (content tx) [b] k.
#[local] Instance same_fakeip_refl : Reflexive same_fakeip.
Proof. by intros tx b k _. Qed.
#[local] Instance same_fakeip_trans : Transitive same_fakeip.
Proof. intros t1 t2 t3 H12 H23 b k Hb. rewrite H23, H12; done. Qed.

Lemma ignore_delete_fakeip p n tx tx' :
  (∀ b, fakeipBucketPrefix `prefix_of` b → ¬ p ++ [n] `prefix_of` [b]) →
  ignore_error (DeleteBucket p n) tx = Ok tx' → same_fakeip tx tx'.
Proof using BL.
  intros Hp. unfold ignore_error. destruct (DeleteBucket p n tx) as [tx1|e|m] eqn:E; [|intros [= <-]; done|done].
  intros [= <-] b k Hb. rewrite (get_DeleteBucket _ _ _ _ _ _ E). rewrite bool_decide_eq_false_2; [done|by apply Hp].
Qed.

Lemma cleanBuckets_fakeip tx tx' : cleanBuckets tx = Ok tx' → same_fakeip tx tx'.
Proof using BL.
  unfold cleanBuckets. intros E. invert_ok. rename x into names.
  eapply (foldl_preserves same_fakeip cleanBucket); [done|done|]. intros name t t' _. unfold cleanBucket.
  destruct name as [|b0 name]; [done|]. case_bool_decide as Hb0.
  - intros E1. invert_ok. eapply (foldl_preserves same_fakeip (λ k tx, if containsb k bucketNameList then Ok tx else ignore_error (DeleteBucket [b0 :: name] (b0 :: name)) tx)); [done|done|].
    intros k t1 t2 _. destruct (containsb k bucketNameList); [by intros [= <-]|].
    apply ignore_delete_fakeip. intros b _ [l Hl]. done.
  - destruct (containsb _ _); [by intros [= <-]|]. case_bool_decide as Hpre; [by intros [= <-]|].
    apply ignore_delete_fakeip. intros b Hb [l Hl]. cbn in Hl. injection Hl as -> _. done.
Qed.

Lemma same_fakeip_records tx tx' : same_fakeip tx tx' → records_of (content tx') ≡ records_of (content tx).
Proof.
  intros Hs. apply records_of_same. split; intros; apply Hs; [by exists (str_bytes "address")|].
  destruct v; [by exists (str_bytes "domain6")|by exists (str_bytes "domain4")].
Qed.

(** What [Release] leaves in the file. *)
Lemma Release_saves closeErr c c' m tx :
  released c = false → saveMetadata c = Some m → Release closeErr c = ([], c') → DB c' = Some tx →
  records_of (content tx) ≡ records_of (cf_content c) ∧
  get (content tx) [bucketFakeIP] keyMetadata = Some (FakeIPMetadata_MarshalBinary m).
Proof using BL AL.
  intros Hrel Hm. unfold Release, flushPendingFakeIPMetadata. rewrite Hrel, Hm.
  pose proof (save_metadata_spec m c) as Hs. pose proof (save_meta m c) as [_ Hr].
  change (FakeIPSaveMetadata m c) with (CacheFile_FakeIPSaveMetadata m c) in Hr.
  destruct (CacheFile_FakeIPSaveMetadata m c) as [err c1]. cbn [snd] in Hr. destruct Hs as (_ & _ & _ & Hok).
  assert (DB (set_released c1) = DB c1) as Hdb by by destruct c1. intros E Htx.
  assert (err = None ∧ c' = set_released c1) as [-> ->].
  { destruct (DB (set_released c1)); destruct err; cbn in E; injection E; naive_solver. }
  rewrite Hdb in Htx. destruct Hok as (_ & Hv & Hget); [done|]. unfold cf_content in Hv at 1, Hget.
  by rewrite Hr, Hrel, Htx in *.
Qed.

Lemma content_seed m c : cf_content (seedFakeIPMetadata m c) = cf_content c.
Proof. unfold seedFakeIPMetadata. destruct (saveMetadata c); [done|]. by destruct c. Qed.
Lemma content_set_DB tx c : released c = false → cf_content (set_DB (Some tx) c) = content tx.
Proof. destruct c. cbn. unfold cf_content. cbn. by intros ->. Qed.

(** [FakeIPMetadata] of a new instance over a file with metadata. *)
Lemma metadata_read `{!BoltTotal B} c tx m :
  released c = false → DB c = Some tx → metadata_wf m →
  get (content tx) [bucketFakeIP] keyMetadata = Some (FakeIPMetadata_MarshalBinary m) →
  ∃ c', CacheFile_FakeIPMetadata c = (Some m, c') ∧ records_of (cf_content c') ≡ records_of (content tx).
Proof using BL AL.
  intros Hrel Hdb Hwf Hget. unfold CacheFile_FakeIPMetadata, batch. rewrite Hrel, Hdb.
  pose proof (Tx_Bucket_law [bucketFakeIP] tx) as Hb. pose proof (Tx_Bucket_total [bucketFakeIP] tx) as Hbt.
  destruct (Tx_Bucket [bucketFakeIP] tx) as [ok| |]; [|done..]. cbn [reads] in Hb. subst ok.
  rewrite bool_decide_eq_true_2.
  2:{ unfold get in Hget. destruct (nonempty keyMetadata); [|done].
      destruct (content tx !! [bucketFakeIP]) as [b|]; [by exists b|done]. }
  cbn [mbind result_bind negb]. pose proof (Bucket_Get_law [bucketFakeIP] keyMetadata tx) as Hg.
  pose proof (Bucket_Get_total [bucketFakeIP] keyMetadata tx). destruct (Bucket_Get _ _ tx) as [v| |]; [|done..]. cbn [reads] in Hg. subst v.
  rewrite Hget. cbn [mbind result_bind from_option id].
  assert (len (FakeIPMetadata_MarshalBinary m) =? 0 = false) as ->.
  { apply Z.eqb_neq. unfold FakeIPMetadata_MarshalBinary, marshalElement. rewrite !len_app, len_put_be.
    pose proof (len_nonneg (Prefix_MarshalBinary (Inet4Range m))). repeat match goal with |- context [len ?x] => pose proof (len_nonneg x); generalize dependent (len x) end. lia. }
  pose proof (Bucket_Delete_total [bucketFakeIP] keyMetadata tx). destruct (Bucket_Delete _ _ tx) as [tx1| |] eqn:Ed; [|done..].
  cbn [mbind result_bind]. rewrite metadata_reads_back by done. cbn [mbind result_bind].
  pose proof (Tx_Commit_total tx1). destruct (Tx_Commit tx1) as [tx2| |] eqn:Ec; [|done..]. cbn [mbind result_bind].
  eexists. split; [done|]. apply Tx_Commit_law in Ec.
  rewrite content_seed, content_set_DB by done.
  rewrite Ec. apply records_of_same, same_records_metadata. intros p k Hne.
  rewrite (get_Delete _ _ _ _ _ _ Ed). by rewrite bool_decide_eq_false_2.
Qed.
End restart.

Section resume.
Context {B : Bolt} {BL : BoltLaws B} {EX : External} {AL : AddrLaws EX}.

(** A range as the options give it: absent or a proper one. *)
Definition configured (v : bool) (r : Prefix) : Prop := r = PrefixZero ∨ range_ok v r.

Lemma configured_valid v r : configured v r → range_valid v r.
Proof. intros [->|Hr]; [by left|by right]. Qed.

(** An instance as it comes from [New] and [start]. *)
Definition fresh_instance (c : CacheFile) : Prop := no_pending c ∧ saveMetadata c = None ∧ released c = false.

Lemma session_start r4 r6 c :
  configured false r4 → configured true r6 → fresh_instance c → fm_ok (fake_view c) → metadata_found c →
  ∃ c', session_ok r4 r6 (Store_Start c (NewStore r4 r6)) c'.
Proof.
  intros H4%configured_valid H6%configured_valid (Hnp & Hsm & Hrel) Hv Hm.
  destruct (started_ok (Store_Start c (NewStore r4 r6))) as [c' Hok]; [by exists c, r4, r6|]. exists c'.
  pose proof (so_storage _ _ Hok) as Hst. rewrite Store_Start_spec in *.
  assert (∀ m c1, FakeIPMetadata_ c = (m, c1) → released c1 = false ∧ ∀ m', saveMetadata c1 = Some m' → m = Some m') as Hload.
  { cbn. intros m c1. unfold CacheFile_FakeIPMetadata.
    match goal with |- context [batch ?fn c] => pose proof (batch_meta fn c) as [Hs1 Hr1]; destruct (batch fn c) as [r c2] end.
    cbn [snd] in *. destruct r; intros [= <- <-]; [|by split; congruence..].
    unfold seedFakeIPMetadata. rewrite Hs1, Hsm. destruct c2. cbn in *. split; [congruence|naive_solver]. }
  destruct (FakeIPMetadata_ c) as [m c1]. destruct (Hload m c1) as [Hr1 Hs1]; [done|]. cbv zeta in *.
  assert (saveMetadata (FakeIPReset c1).2 = None ∧ released (FakeIPReset c1).2 = false) as [Hr2 Hs2].
  { cbn. unfold CacheFile_FakeIPReset, saved.
    match goal with |- context [batch ?fn ?c0] => pose proof (batch_meta fn c0) as [? ?]; destruct (batch fn c0) as [r c2] end.
    cbn [snd] in *. destruct c1. cbn in *. split; congruence. }
  assert (∀ x, x = (FakeIPReset c1).2 → storage (start_store r4 r6 (first_current r4) (first_current r6) x) = Some c' →
    store_ok (start_store r4 r6 (first_current r4) (first_current r6) x) c' →
    session_ok r4 r6 (start_store r4 r6 (first_current r4) (first_current r6) x) c') as Hfresh.
  { intros x -> Hst' Hok'. cbn [start_store storage] in Hst'. apply (inj Some) in Hst'. subst c'. constructor; [done|done|congruence|done..]. }
  destruct m as [m|]; [|by apply Hfresh].
  destruct (bool_decide (Inet4Range m = r4) && bool_decide (Inet6Range m = r6)) eqn:Eb; [|by apply Hfresh].
  apply andb_true_iff in Eb as [E4%bool_decide_eq_true E6%bool_decide_eq_true].
  cbn [start_store storage] in Hst. apply (inj Some) in Hst. subst c'. constructor; [done|done| |done..].
  intros m' Hm'. apply Hs1 in Hm'. apply (inj Some) in Hm'. subst m'. destruct m. cbn in *. by subst.
Qed.

Lemma metadata_wf_store r4 r6 (s : Store CacheFile) c :
  configured false r4 → configured true r6 → session_ok r4 r6 s c → metadata_wf (storeMetadata s).
Proof.
  intros H4 H6 [Hok _ _ <- <-].
  assert (∀ v r a, configured v r → current_ok v r a → prefix_wf r ∧ addr_wf a ∧ Addr_hasZone a = false) as Hwf.
  { intros v r a Hconf [[_ ->]|[Hr Ha]].
    - split; [|done]. destruct Hconf as [->|Hr]; [by repeat split; left|].
      destruct (in_pool_fake v r (mkAddr v (pool_base r + 1))) as [_ _]; [done|exists (pool_base r + 1); pose proof (pool_bounds v r Hr); split; [done|lia]|].
      destruct Hr as (Ha & Hb & Hbase & _). unfold prefix_wf. rewrite Ha. destruct v; cbn in *; repeat split; (done || lia || (right; split; [done|lia])).
    - split.
      + destruct Hr as (Hp & Hb & Hbase & _). unfold prefix_wf. rewrite Hp. destruct v; cbn in *; repeat split; (done || lia || (right; split; [done|lia])).
      + apply in_pool_fake in Ha as [Ha _]; [|done]. by apply fake_addr_wf in Ha as (? & ? & _). }
  pose proof (Hwf false _ _ H4 (so_current _ _ Hok false)) as [? ?].
  pose proof (Hwf true _ _ H6 (so_current _ _ Hok true)) as [? ?]. done.
Qed.
End resume.

(** C36: FakeIP goes on after a restart.  A session over a cache file runs any
    operations and is released, closed or not; when it has pending metadata and
    the release saves it, the next instance over the file starts with the same
    current addresses and the same records, provided its database answers. *)
Theorem fakeip_resumes {B : Bolt} {BL : BoltLaws B} {BT : BoltTotal B} {EX : External} {AL : AddrLaws EX}
    (c0 c c' c1 : CacheFile) (r4 r6 : Prefix) (ops : list session_op) (closeErr : option goerr) (o : CacheFileOptions) (tx : Tx)
    (Hr4 : configured false r4) (Hr6 : configured true r6)
    (Hfresh : fresh_instance c0) (Hrecords : fm_ok (fake_view c0)) (Hfound : metadata_found c0)
    (Hsession : storage (fold_left run_op ops (Store_Start c0 (NewStore r4 r6))) = Some c)
    (Hpending : is_Some (saveMetadata c)) (Hrelease : Release closeErr c = ([], c')) (Hfile : DB c' = Some tx)
    (Hopen : start [Opened tx] None (NewCacheFile o) = Ok c1) :
  let s := fold_left run_op ops (Store_Start c0 (NewStore r4 r6)) in
  let s1 := Store_Start c1 (NewStore r4 r6) in
  ∃ c2, storage s1 = Some c2 ∧ fake_view c2 ≡ fake_view c ∧
    inet4Current s1 = inet4Current s ∧ inet6Current s1 = inet6Current s.
Proof.
  destruct (session_start r4 r6 c0 Hr4 Hr6 Hfresh Hrecords Hfound) as [cs Hs0].
  destruct (session_runs r4 r6 ops _ _ Hs0) as [c2 Hs]. cbv zeta. set (s := fold_left run_op ops _) in *.
  assert (c2 = c) as -> by (pose proof (so_storage _ _ (se_ok _ _ _ _ Hs)); congruence).
  destruct Hpending as [m Hm]. pose proof (se_pending _ _ _ _ Hs m Hm) as ->.
  destruct (Release_saves _ _ _ _ _ (se_released _ _ _ _ Hs) Hm Hrelease Hfile) as [Hview Hget].
  unfold start in Hopen. cbn [openLoop mbind result_bind] in Hopen.
  destruct (cleanBuckets tx) as [txc|e|p] eqn:Ec; cbn [mbind result_bind] in Hopen; [|done..].
  destruct (Tx_Commit txc) as [tx1|e|p] eqn:Et; [|done..]. apply Ok_inj in Hopen as <-.
  apply cleanBuckets_fakeip in Ec. apply Tx_Commit_law in Et.
  destruct (metadata_read (set_DB (Some tx1) (NewCacheFile o)) tx1 (storeMetadata s)) as (c3 & Hread & Hview3);
    [done|done|by apply (metadata_wf_store r4 r6 _ c)|rewrite Et, Ec; [done|by exists (str_bytes "address")]|].
  rewrite Store_Start_spec. change (FakeIPMetadata_ ?x) with (CacheFile_FakeIPMetadata x). rewrite Hread. cbv zeta.
  pose proof (se_range4 _ _ _ _ Hs) as Hrange4. pose proof (se_range6 _ _ _ _ Hs) as Hrange6.
  change (Inet4Range (storeMetadata s)) with (inet4Range s). change (Inet6Range (storeMetadata s)) with (inet6Range s).
  rewrite !bool_decide_eq_true_2 by done. cbn [andb]. exists c3. split; [done|]. split; [|done].
  cbn [fake_view cachefile_laws]. rewrite Hview3, Et, (same_fakeip_records _ _ Ec). done.
Qed.

(** The witness: a session over an empty database allocates two addresses and is
    released without being closed. *)
#[export] Instance demo_addr_laws : AddrLaws demo.
Proof. split; [done|]. intros a (Hwf & Hz & _)%fake_addr_wf. by apply AddrFromSlice_AsSlice. Qed.

Definition demo_options : CacheFileOptions := mkCacheFileOptions "" true false 0 false.
Definition demo_cache : @CacheFile MapBolt := @set_DB MapBolt (Some (∅ : buckets)) (NewCacheFile demo_options).
Definition demo_session : Store (@CacheFile MapBolt) :=
  fold_left run_op [OpCreate 0 "a.example" false; OpTimer; OpCreate 1 "b.example" true]
    (Store_Start demo_cache (NewStore demo4 demo6)).
Definition demo_running : @CacheFile MapBolt := default demo_cache (storage demo_session).
Definition demo_released : @CacheFile MapBolt := (Release None demo_running).2.
Definition demo_file : buckets := default ∅ (DB demo_released : option buckets).
Definition demo_reopened : result (@CacheFile MapBolt) := @start MapBolt [@Opened MapBolt demo_file] None (NewCacheFile demo_options).


Lemma fakeip_resumes_witness :
  ∃ c1 c2, demo_reopened = Ok c1 ∧ storage (Store_Start c1 (NewStore demo4 demo6)) = Some c2 ∧
    fake_view c2 ≡ fake_view demo_running ∧
    inet4Current (Store_Start c1 (NewStore demo4 demo6)) = Addr4 0xC6120002.
Proof.
  destruct demo_ranges as [H4 H6].
  assert (is_ok demo_reopened = true) as Hok by (vm_compute; reflexivity).
  destruct demo_reopened as [c1| |] eqn:E; [|discriminate Hok..]. exists c1.
  destruct (@fakeip_resumes MapBolt _ _ demo _ demo_cache demo_running demo_released c1 demo4 demo6
    [OpCreate 0 "a.example" false; OpTimer; OpCreate 1 "b.example" true] None demo_options demo_file)
    as (c2 & Hst & Hview & Hcur & _).
  - by right.
  - by right.
  - by repeat split.
  - change (fake_view demo_cache) with (records_of ∅). rewrite records_of_empty. apply fm_ok_empty.
  - intros m Hm. assert ((FakeIPMetadata_ demo_cache).1 = None) as E0 by (vm_compute; reflexivity).
    rewrite E0 in Hm. discriminate Hm.
  - fold demo_session. unfold demo_running.
    assert (isSome (storage demo_session) = true) as Hs by (vm_compute; reflexivity).
    destruct (storage demo_session); [reflexivity|discriminate Hs].
  - assert (isSome (saveMetadata demo_running) = true) as Hs by (vm_compute; reflexivity).
    destruct (saveMetadata demo_running) as [m|]; [by exists m|discriminate Hs].
  - unfold demo_released. assert ((Release None demo_running).1 = []) as Hs by (vm_compute; reflexivity).
    destruct (Release None demo_running) as [l c']. cbn [fst snd] in *. by rewrite Hs.
  - unfold demo_file. assert (isSome (DB demo_released) = true) as Hs by (vm_compute; reflexivity).
    destruct (DB demo_released); [reflexivity|discriminate Hs].
  - exact E.
  - exists c2. split; [done|]. split; [exact Hst|]. split; [exact Hview|]. rewrite Hcur. vm_compute. reflexivity.
Defined.
