(* ===== verification/DnsCache.v ===== *)
(** DNS records in the cache file.

    [experimental/cachefile/dns_cache.go] and [rdrc.go]: cached responses and
    rejected queries.  Saving is asynchronous: a response is queued in memory and
    one goroutine per question writes it to the database.  The second half of the
    file runs these goroutines in any interleaving. *)

From S2P Require Import Prelude GoBytes GoSlices GoStrings Netip Metadata DnsMessage FakeIP FakePool FakeIPTheorems Bolt CacheFile CacheFakeIP FakeIPResume.

Definition second : Z := 10 ^ 9.

Section dnscache.
Context {B : Bolt}.

(** The key of a question: the query type and the name. *)
Definition questionKey (k : saveCacheKey) : dbkey := put_be 2 (sk_QType k) ++ str_bytes (sk_QuestionName k).

(** The bucket of a transport inside a bucket of the instance, if it exists. *)
Definition transportBucket (bucket : dbkey) (transportName : string) (c : CacheFile) (tx : Tx) : result (option dbpath) :=
  p ← cf_bucket bucket c tx;
  match p with
  | None => Ok None
  | Some p =>
      ok ← Tx_Bucket (p ++ [str_bytes transportName]) tx;
      Ok (if (ok : bool) then Some (p ++ [str_bytes transportName]) else None)
  end.

(** The same, created when missing. *)
Definition createTransportBucket (bucket : dbkey) (transportName : string) (c : CacheFile) (tx : Tx) : result (dbpath * Tx) :=
  '(p, tx) ← createBucket bucket c tx;
  tx ← CreateBucketIfNotExists p (str_bytes transportName) tx;
  Ok (p ++ [str_bytes transportName], tx).

(** ** Rejected queries *)

(** [func (c *CacheFile) SaveRDRC(transportName, qName, qType) error]; [now] in nanoseconds. *)
Definition SaveRDRC (now : Z) (k : saveCacheKey) (c : CacheFile) : option goerr * CacheFile :=
  saved (batch (write (λ tx,
    '(p, tx) ← createTransportBucket bucketRDRC (sk_TransportName k) c tx;
    Bucket_Put p (questionKey k) (put_be 8 ((now + rdrcTimeout c) / second)) tx)) c).

(** What the transaction of [LoadRDRC] finds. *)
Inductive rdrcFound : Type := rdrcAbsent | rdrcExpired | rdrcRejected.

Definition readRDRC (now : Z) (k : saveCacheKey) (c : CacheFile) (tx : Tx) : result rdrcFound :=
  p ← transportBucket bucketRDRC (sk_TransportName k) c tx;
  match p with
  | None => Ok rdrcAbsent
  | Some p =>
      content ← Bucket_Get p (questionKey k) tx;
      match content with
      | None => Ok rdrcAbsent
      | Some content =>
          expiresAt ← uint_be 8 content;
          Ok (if int64_of expiresAt * second <? now then rdrcExpired else rdrcRejected)
      end
  end.

(** [func (c *CacheFile) LoadRDRC(transportName, qName, qType) (rejected bool)]:
    an expired record is deleted. *)
Definition LoadRDRC (now : Z) (k : saveCacheKey) (c : CacheFile) : bool * CacheFile :=
  match saveRDRC c !! k with
  | Some rejected => (rejected, c)
  | None =>
      let '(found, c) := or_zero rdrcAbsent (view (readRDRC now k c) c) in
      match found with
      | rdrcAbsent => (false, c)
      | rdrcRejected => (true, c)
      | rdrcExpired =>
          (false, (batch (write (λ tx,
            p ← transportBucket bucketRDRC (sk_TransportName k) c tx;
            match p with None => Ok tx | Some p => Bucket_Delete p (questionKey k) tx end)) c).2)
      end
  end.

(** [func (c *CacheFile) SaveRDRCAsync(...)] and its goroutine. *)
Definition SaveRDRCAsync (k : saveCacheKey) (c : CacheFile) : CacheFile := set_saveRDRC (<[k := true]> (saveRDRC c)) c.
Definition saveRDRCRuns (now : Z) (k : saveCacheKey) (c : CacheFile) : CacheFile :=
  let c := (SaveRDRC now k c).2 in set_saveRDRC (delete k (saveRDRC c)) c.

(** ** Cached responses *)

(** [func (c *CacheFile) SaveDNSCache(...) error]; [expireAt] in nanoseconds,
    stored in seconds. *)
Definition SaveDNSCache (k : saveCacheKey) (rawMessage : list byte) (expireAt : Z) (c : CacheFile) : option goerr * CacheFile :=
  saved (batch (write (λ tx,
    '(p, tx) ← createTransportBucket bucketDNSCache (sk_TransportName k) c tx;
    Bucket_Put p (questionKey k) (put_be 8 (expireAt / second) ++ rawMessage) tx)) c).

(** What a stored value says: the message and its expiry. *)
Definition decodeEntry (content : option (list byte)) : option (list byte * Z) :=
  match content with
  | Some v => if len v <? 8 then None else Some (from v 8, int64_of (be (slice v 0 8)) * second)
  | None => None
  end.

Definition readDNSCache (k : saveCacheKey) (c : CacheFile) (tx : Tx) : result (option (list byte)) :=
  p ← transportBucket bucketDNSCache (sk_TransportName k) c tx;
  match p with None => Ok None | Some p => Bucket_Get p (questionKey k) tx end.

(** [func (c *CacheFile) LoadDNSCache(...) (rawMessage []byte, expireAt time.Time, loaded bool)]. *)
Definition LoadDNSCache (k : saveCacheKey) (c : CacheFile) : option (list byte * Z) * CacheFile :=
  match saveDNSCache c !! k with
  | Some entry => (Some (se_rawMessage entry, se_expireAt entry), c)
  | None => let '(v, c) := or_zero None (view (readDNSCache k c) c) in (decodeEntry v, c)
  end.

Definition noEntry : saveDNSCacheEntry := mkSaveEntry [] 0 0 false.

(** [func (c *CacheFile) queueDNSCacheSave(saveKey, rawMessage, expireAt) bool]:
    whether a goroutine has to be started. *)
Definition queueDNSCacheSave (k : saveCacheKey) (rawMessage : list byte) (expireAt : Z) (c : CacheFile) : bool * CacheFile :=
  let entry := default noEntry (saveDNSCache c !! k) in
  (negb (se_saving entry),
   set_saveDNSCache (<[k := mkSaveEntry rawMessage expireAt ((se_sequence entry + 1) mod 2 ^ 64) true]> (saveDNSCache c)) c).

(** Deletes a bucket of the instance if it is there. *)
Definition dropBucket (bucket : dbkey) (c : CacheFile) (tx : Tx) : result Tx :=
  match cacheID c with
  | None => ok ← Tx_Bucket [bucket] tx; if (ok : bool) then DeleteBucket [] bucket tx else Ok tx
  | Some id =>
      ok ← Tx_Bucket [id] tx;
      if negb ok then Ok tx
      else ok ← Tx_Bucket [id; bucket] tx; if (ok : bool) then DeleteBucket [id] bucket tx else Ok tx
  end.

(** [func (c *CacheFile) ClearDNSCache() error]: the queue is cleared, then the bucket deleted. *)
Definition clearQueue (c : CacheFile) : CacheFile := set_saveDNSCache ∅ c.
Definition clearStored (c : CacheFile) : option goerr * CacheFile := saved (batch (write (dropBucket bucketDNSCache c)) c).
Definition ClearDNSCache (c : CacheFile) : option goerr * CacheFile := clearStored (clearQueue c).

(** [func (c *CacheFile) clearRDRC()]. *)
Definition clearRDRC (c : CacheFile) : CacheFile := (batch (write (dropBucket bucketRDRC (set_saveRDRC ∅ c))) (set_saveRDRC ∅ c)).2.

(** ** Cleaning up *)

(** The transaction of [cleanupDNSCache] and [cleanupRDRC]: the expired keys of
    every transport are deleted, then the buckets left empty.  A bucket inside
    the transport's bucket would keep it; there is none. *)
Definition cleanTransport (expired : list byte → bool) (p : dbpath) (name : dbkey) (acc : Tx * list dbkey) : result (Tx * list dbkey) :=
  let '(tx, empty) := acc in
  ok ← Tx_Bucket (p ++ [name]) tx;
  if negb ok then Ok (tx, empty)
  else
    entries ← Bucket_ForEach (p ++ [name]) tx;
    tx ← foldl (λ r k, tx ← r; Bucket_Delete (p ++ [name]) k tx) (Ok tx) (filter (λ e, expired e.2 = true) entries).*1;
    rest ← Bucket_ForEach (p ++ [name]) tx;
    Ok (tx, if nonempty rest then empty else empty ++ [name]).

Definition cleanTransports (expired : list byte → bool) (bucket : dbkey) (c : CacheFile) (tx : Tx) : result Tx :=
  p ← cf_bucket bucket c tx;
  match p with
  | None => Ok tx
  | Some p =>
      names ← Bucket_ForEachBucket p tx;
      '(tx, empty) ← foldl (λ r name, acc ← r; cleanTransport expired p name acc) (Ok (tx, [])) names;
      foldl (λ r name, tx ← r; DeleteBucket p name tx) (Ok tx) empty
  end.

(** Which stored responses have expired, and which rejections. *)
Definition dnsExpired (now : Z) (c : CacheFile) (value : list byte) : bool :=
  if len value <? 8 then true
  else if cf_disableExpire c then false
  else int64_of (be (slice value 0 8)) * second + optimisticTimeout c <? now.
Definition rdrcExpiredValue (now : Z) (value : list byte) : bool :=
  if len value <? 8 then true else int64_of (be (slice value 0 8)) * second <? now.

(** [func (c *CacheFile) cleanupDNSCache()] and [cleanupRDRC()]; errors are logged. *)
Definition cleanStored (now : Z) (c : CacheFile) : option goerr * CacheFile :=
  saved (batch (write (cleanTransports (dnsExpired now c) bucketDNSCache c)) c).
Definition cleanupDNSCache (now : Z) (c : CacheFile) : CacheFile := (cleanStored now c).2.
Definition cleanupRDRC (now : Z) (c : CacheFile) : CacheFile :=
  (batch (write (cleanTransports (rdrcExpiredValue now) bucketRDRC c)) c).2.

(** [func (c *CacheFile) startCacheCleanup()]: what runs at once; the tickers
    repeat the clean-up. *)
Definition startCacheCleanup (now : Z) (c : CacheFile) : CacheFile :=
  if cf_storeDNS c then cleanupDNSCache now (clearRDRC c)
  else if cf_storeRDRC c then cleanupRDRC now c
  else c.

(** ** Saving in the background *)

(** Where a goroutine of [flushPendingDNSCacheWith] is: about to read the queue,
    about to save an entry, about to check the queue after saving it. *)
Inductive phase : Type :=
| Reading
| Saving (entry : saveDNSCacheEntry)
| Checking (entry : saveDNSCacheEntry).

(** The file, the goroutines that save, whether a transaction has failed, and the
    response last queued for each question. *)
Record world : Type := mkWorld {
  w_file : CacheFile;
  w_threads : list (saveCacheKey * phase);
  w_failed : bool;
  w_last : gmap saveCacheKey (list byte * Z)
}.

Inductive action : Type :=
| Queue (k : saveCacheKey) (rawMessage : list byte) (expireAt : Z)   (* SaveDNSCacheAsync *)
| Run (i : nat)                                                     (* one step of a goroutine *)
| ClearQueue                                                        (* ClearDNSCache, first part *)
| ClearStored                                                       (* ClearDNSCache, second part *)
| CleanUp (now : Z).                                                (* loopCacheCleanup *)

(** One step of the loop of [flushPendingDNSCacheWith]. *)
Definition runThread (k : saveCacheKey) (ph : phase) (c : CacheFile) : option phase * bool * CacheFile :=
  match ph with
  | Reading =>
      match saveDNSCache c !! k with
      | None => (None, false, c)
      | Some entry => (Some (Saving entry), false, c)
      end
  | Saving entry =>
      let '(err, c) := SaveDNSCache k (se_rawMessage entry) (se_expireAt entry) c in
      (Some (Checking entry), match err with Some _ => true | None => false end, c)
  | Checking entry =>
      match saveDNSCache c !! k with
      | None => (None, false, c)
      | Some currentEntry =>
          if negb (se_sequence currentEntry =? se_sequence entry) then (Some Reading, false, c)
          else (None, false, set_saveDNSCache (delete k (saveDNSCache c)) c)
      end
  end.

Definition act (w : world) (a : action) : world :=
  match a with
  | Queue k raw exp =>
      let '(startFlush, c) := queueDNSCacheSave k raw exp (w_file w) in
      mkWorld c (if startFlush then w_threads w ++ [(k, Reading)] else w_threads w) (w_failed w) (<[k := (raw, exp)]> (w_last w))
  | Run i =>
      match w_threads w !! i with
      | None => w
      | Some (k, ph) =>
          let '(ph, failed, c) := runThread k ph (w_file w) in
          mkWorld c (match ph with Some ph => <[i := (k, ph)]> (w_threads w) | None => delete i (w_threads w) end)
            (w_failed w || failed) (w_last w)
      end
  | ClearQueue => mkWorld (clearQueue (w_file w)) (w_threads w) (w_failed w) ∅
  | ClearStored => mkWorld (clearStored (w_file w)).2 (w_threads w) (w_failed w) (w_last w)
  | CleanUp now =>
      let '(err, c) := cleanStored now (w_file w) in
      mkWorld c (w_threads w) (w_failed w || match err with Some _ => true | None => false end) (w_last w)
  end.

Definition acts (l : list action) (w : world) : world := fold_left act l w.
Definition quiet (c : CacheFile) : world := mkWorld c [] false ∅.
End dnscache.
Arguments world : clear implicits.
