(* ===== verification/DnsCacheClean.v ===== *)
(** The clean-up of the DNS cache: the transaction of [cleanupDNSCache] deletes the
    responses that have expired, and no other. *)

From S2P Require Import Prelude GoBytes GoSlices GoStrings Netip Metadata DnsMessage FakeIP FakePool FakeIPTheorems Bolt CacheFile CacheFakeIP FakeIPResume DnsCache.

(** A bucket lies in a bucket. *)
Definition nested (m : buckets) : Prop := ∀ p k, p ≠ [] → is_Some (m !! (p ++ [k])) → is_Some (m !! p).

Lemma nested_insert m p x : nested m → (∀ q k, p = q ++ [k] → q ≠ [] → is_Some (m !! q)) → nested (<[p := x]> m).
Proof.
  intros Hm Hp q k Hq Hqk. destruct (decide (q ++ [k] = p)) as [He|Hne].
  - assert (is_Some (m !! q)) as [y Hy] by by apply (Hp q k). destruct (decide (q = p)) as [->|]; [rewrite lookup_insert_eq; by eexists|].
    rewrite lookup_insert_ne by done. by eexists.
  - rewrite lookup_insert_ne in Hqk by done. destruct (Hm _ _ Hq Hqk) as [y Hy].
    destruct (decide (q = p)) as [->|]; [rewrite lookup_insert_eq; by eexists|]. rewrite lookup_insert_ne by done. by eexists.
Qed.

(** A loop of steps that may fail. *)
Lemma foldl_Ok {A C} (f : C → A → result A) r l a : foldl (λ r x, y ← r; f x y) r l = Ok a → ∃ y, r = Ok y.
Proof. revert r. induction l as [|x l IH]; intros r; cbn; [by eexists|]. intros H%IH. destruct H as [y H]. destruct r; [by eexists|done..]. Qed.
Lemma foldl_step {A C} (f : C → A → result A) y x l a :
  foldl (λ r x, y ← r; f x y) (Ok y) (x :: l) = Ok a → ∃ z, f x y = Ok z ∧ foldl (λ r x, y ← r; f x y) (Ok z) l = Ok a.
Proof. cbn. intros H. destruct (foldl_Ok _ _ _ _ H) as [z Hz]. exists z. split; [done|]. by rewrite Hz in H. Qed.

(** The same buckets, whatever they hold. *)
Definition same_buckets (m m' : buckets) : Prop := ∀ p, is_Some (m' !! p) ↔ is_Some (m !! p).
#[export] Instance same_buckets_preorder : PreOrder same_buckets.
Proof. split; unfold same_buckets; [done|]. intros a b c H1 H2 p. by rewrite H2. Qed.
Lemma nested_same m m' : same_buckets m m' → nested m → nested m'.
Proof. intros H Hm p k Hp Hs. apply H. apply H in Hs. by eapply Hm. Qed.
Lemma nested_drop m q : nested m → nested (drop_bucket q m).
Proof.
  intros Hm p k Hp [x Hx]. unfold drop_bucket in *. apply map_lookup_filter_Some in Hx as [Hx Hq]. cbn in Hq.
  destruct (Hm p k Hp) as [y Hy]; [by eexists|]. exists y. apply map_lookup_filter_Some. split; [done|]. cbn.
  intros Hpre. apply Hq. etrans; [exact Hpre|]. by exists [k].
Qed.

Section clean.
Context {B : Bolt} {BL : BoltLaws B}.

(** The database is open and holds these buckets. *)
Definition opened (c : CacheFile) (tx : Tx) : Prop := released c = false ∧ DB c = Some tx ∧ nested (content tx).

(** A write that succeeds changes nothing but the database. *)
Lemma write_ok fn c c' : saved (batch (write fn) c) = (None, c') →
  ∃ tx tx1 tx2, DB c = Some tx ∧ released c = false ∧ fn tx = Ok tx1 ∧ content tx2 = content tx1 ∧ c' = set_DB (Some tx2) c.
Proof using BL.
  unfold saved, batch, write. destruct (released c) eqn:Hr; [done|]. destruct (DB c) as [tx|] eqn:Hd; [|done].
  destruct (fn tx) as [tx1|e|p] eqn:Hf; cbn [mbind result_bind]; [|done..].
  destruct (Tx_Commit tx1) as [tx2|e|p] eqn:Hc; cbn [mbind result_bind fst snd]; [|done..]. intros [= <-].
  exists tx, tx1, tx2. by apply Tx_Commit_law in Hc.
Qed.

(** ** Where a question is stored *)

Definition bucket_path (bucket : list byte) (c : CacheFile) : list (list byte) :=
  match cacheID c with None => [bucket] | Some id => [id; bucket] end.
Definition dns_path (c : CacheFile) (k : saveCacheKey) : list (list byte) :=
  bucket_path bucketDNSCache c ++ [str_bytes (sk_TransportName k)].

Lemma nested_prefix m p q : nested m → p ≠ [] → is_Some (m !! (p ++ q)) → is_Some (m !! p).
Proof.
  intros Hm Hp. induction q as [|k q IH] using rev_ind; [by rewrite app_nil_r|]. rewrite app_assoc. intros Hq.
  apply IH, (Hm _ k); [by destruct p|done].
Qed.

Lemma nested_get m p q k : nested m → p ≠ [] → m !! p = None → get m (p ++ q) k = None.
Proof.
  intros Hm Hp Hnone. unfold get. case_match; [|done]. destruct (m !! (p ++ q)) eqn:E; [|done].
  destruct (nested_prefix m p q Hm Hp) as [? ?]; [by eexists|congruence].
Qed.

(** What is stored for a question. *)
Definition stored (c : CacheFile) (k : saveCacheKey) : option (list byte * Z) :=
  decodeEntry (get (cf_content c) (dns_path c k) (questionKey k)).

(** ** Deleting what has expired *)

Lemma deleteKeys_spec p ks tx tx' :
  foldl (λ r k, tx ← r; Bucket_Delete p k tx) (Ok tx) ks = Ok tx' →
  same_buckets (content tx) (content tx') ∧
  ∀ q k, get (content tx') q k = if bool_decide (q = p ∧ k ∈ ks) then None else get (content tx) q k.
Proof using BL.
  revert tx. induction ks as [|k0 ks IH]; intros tx.
  - intros [= <-]. split; [done|]. intros q k. rewrite bool_decide_eq_false_2; [done|]. intros [_ H]. by apply elem_of_nil in H.
  - intros (tx1 & H1 & H)%(foldl_step (λ k tx, Bucket_Delete p k tx)). destruct (IH _ H) as [Hs Hg]. split.
    + etrans; [|exact Hs]. intros q. rewrite (Bucket_Delete_law _ _ _ _ H1). destruct (decide (q = p)) as [->|Hne].
      * rewrite lookup_alter_eq. by rewrite fmap_is_Some.
      * by rewrite lookup_alter_ne.
    + intros q k. rewrite Hg, (get_Delete _ _ _ _ _ _ H1). repeat case_bool_decide; set_solver.
Qed.

(** What is left of a value. *)
Definition sweep (expired : list byte → bool) (v : option (list byte)) : option (list byte) :=
  v ≫= λ v, if expired v then None else Some v.
Lemma sweep_twice expired v : sweep expired (sweep expired v) = sweep expired v.
Proof. destruct v as [v|]; [|done]. cbn. destruct (expired v) eqn:E; [done|]. cbn. by rewrite E. Qed.

Lemma expired_keys (expired : list byte → bool) (l : list (list byte * list byte)) (m : gmap (list byte) (list byte)) (k : list byte) :
  list_to_map l = m → NoDup l.*1 → k ∈ (filter (λ e : list byte * list byte, expired e.2 = true) l).*1 ↔ ∃ v, m !! k = Some v ∧ expired v = true.
Proof.
  intros <- Hnd. rewrite list_elem_of_fmap. split.
  - intros ([k' v] & -> & [Hv Hin]%list_elem_of_filter). exists v. split; [by apply elem_of_list_to_map_1|done].
  - intros (v & Hv & He). exists (k, v). split; [done|]. apply list_elem_of_filter. split; [done|]. by apply elem_of_list_to_map_2.
Qed.

(** One transport: its values are swept, and a bucket noted as empty is. *)
Lemma cleanTransport_spec expired p name tx empty tx' empty' :
  cleanTransport expired p name (tx, empty) = Ok (tx', empty') →
  same_buckets (content tx) (content tx') ∧
  (∀ q k, get (content tx') q k = if bool_decide (q = p ++ [name]) then sweep expired (get (content tx) q k) else get (content tx) q k) ∧
  (empty' = empty ∨ empty' = empty ++ [name] ∧ ∀ k, get (content tx') (p ++ [name]) k = None).
Proof using BL.
  unfold cleanTransport. intros (ok & Hok & H)%bind_Ok. pose proof (Tx_Bucket_law (p ++ [name]) tx) as Hb. rewrite Hok in Hb. cbn in Hb. subst ok.
  case_bool_decide as Hb; cbn [negb] in H.
  2: { injection H as <- <-. split; [done|]. split; [|by left]. intros q k. case_bool_decide as Hq; [|done]. subst q.
    assert (content tx !! (p ++ [name]) = None) as Hn by (destruct (content tx !! (p ++ [name])); [by destruct Hb|done]).
    unfold get. rewrite Hn. by destruct (nonempty k). }
  invert_ok. match goal with
    | H1 : Bucket_ForEach _ tx = Ok ?l, H2 : foldl _ _ _ = Ok ?t, H3 : Bucket_ForEach _ ?t = Ok ?r |- _ =>
        destruct (ForEach_law _ _ _ H1) as [Hl Hnd]; destruct (deleteKeys_spec _ _ _ _ H2) as [Hs Hg]; destruct (ForEach_law _ _ _ H3) as [Hr _]; rename r into rest
    end.
  split; [done|]. split.
  - intros q k. rewrite Hg. destruct (decide (q = p ++ [name])) as [->|Hne].
    + rewrite (bool_decide_eq_true_2 (p ++ [name] = p ++ [name])) by done. unfold get at 2. unfold get.
      destruct (nonempty k) eqn:Hk; [|by case_bool_decide]. destruct Hb as [m Hm]. rewrite Hm in *. cbn [default from_option id mbind option_bind] in *.
      case_bool_decide as Hin.
      * destruct Hin as [_ Hin]. apply (expired_keys expired _ m) in Hin as (v & -> & He); [|done|done]. cbn. by rewrite He.
      * destruct (m !! k) as [v|] eqn:Hv; [|done]. cbn. destruct (expired v) eqn:He; [|done]. exfalso. apply Hin. split; [done|].
        apply (expired_keys expired _ m); [done|done|]. by exists v.
    + rewrite !bool_decide_eq_false_2; [done|done|by intros [? _]].
  - destruct rest as [|? ?]; cbn [nonempty]; [right|by left]. split; [done|]. intros k. unfold get. destruct (nonempty k); [|done].
    match goal with |- content ?t !! _ ≫= _ = None => destruct (content t !! (p ++ [name])) as [m|]; [|done] end. cbn in Hr |- *. by rewrite <- Hr.
Qed.

(** The transports of [names]. *)
Lemma cleanNames_spec expired p names tx empty tx' empty' :
  foldl (λ r name, acc ← r; cleanTransport expired p name acc) (Ok (tx, empty)) names = Ok (tx', empty') →
  (∀ t k, t ∈ empty → get (content tx) (p ++ [t]) k = None) →
  same_buckets (content tx) (content tx') ∧
  (∀ t k, get (content tx') (p ++ [t]) k = if bool_decide (t ∈ names) then sweep expired (get (content tx) (p ++ [t]) k) else get (content tx) (p ++ [t]) k) ∧
  ∀ t k, t ∈ empty' → get (content tx') (p ++ [t]) k = None.
Proof using BL.
  revert tx empty. induction names as [|name names IH]; intros tx empty.
  - intros [= <- <-] He. split; [done|]. split; [|done]. intros t k. rewrite bool_decide_eq_false_2; [done|]. by intros ?%elem_of_nil.
  - intros ([tx1 empty1] & H1 & H)%(foldl_step (λ name acc, cleanTransport expired p name acc)) He.
    destruct (cleanTransport_spec _ _ _ _ _ _ _ H1) as (Hs1 & Hg1 & Hempty).
    assert (Hone : ∀ t k, get (content tx1) (p ++ [t]) k = if bool_decide (t = name) then sweep expired (get (content tx) (p ++ [t]) k) else get (content tx) (p ++ [t]) k).
    { intros t k. rewrite Hg1. destruct (decide (t = name)) as [->|Hne]; [by rewrite !bool_decide_eq_true_2|].
      rewrite !bool_decide_eq_false_2; [done|done|]. intros Heq. by simplify_list_eq. }
    assert (He1 : ∀ t k, t ∈ empty1 → get (content tx1) (p ++ [t]) k = None).
    { intros t k Ht. rewrite Hone. assert (Hor : get (content tx) (p ++ [t]) k = None ∨ t = name ∧ get (content tx1) (p ++ [t]) k = None).
      { destruct Hempty as [->|[-> Hn]]; [left; by apply He|]. apply elem_of_app in Ht as [Ht|Ht]; [left; by apply He|].
        apply list_elem_of_singleton in Ht as ->. right. by split. }
      destruct Hor as [->|[-> Hn]]; [by case_bool_decide|]. by rewrite Hone in Hn. }
    destruct (IH _ _ H He1) as (Hs & Hg & Hend). split; [by etrans|]. split; [|done].
    intros t k. rewrite Hg, Hone. destruct (decide (t = name)) as [->|Hne].
    + rewrite (bool_decide_eq_true_2 (name = name)), (bool_decide_eq_true_2 (name ∈ name :: names)) by set_solver.
      case_bool_decide; [apply sweep_twice|done].
    + rewrite (bool_decide_eq_false_2 (t = name)) by done.
      rewrite (bool_decide_ext (t ∈ name :: names) (t ∈ names)) by set_solver. done.
Qed.

(** The buckets left empty go. *)
Lemma deleteBuckets_spec p names tx tx' :
  foldl (λ r name, tx ← r; DeleteBucket p name tx) (Ok tx) names = Ok tx' → nested (content tx) →
  (∀ t k, t ∈ names → get (content tx) (p ++ [t]) k = None) →
  nested (content tx') ∧ ∀ t k, get (content tx') (p ++ [t]) k = get (content tx) (p ++ [t]) k.
Proof using BL.
  revert tx. induction names as [|name names IH]; intros tx; [by intros [= <-]|].
  intros (tx1 & H1 & H)%(foldl_step (λ name tx, DeleteBucket p name tx)) Hn He.
  assert (Hg1 : ∀ t k, get (content tx1) (p ++ [t]) k = get (content tx) (p ++ [t]) k).
  { intros t k. rewrite (DeleteBucket_law _ _ _ _ H1), get_drop. case_bool_decide as Hpre; [|done].
    apply prefix_app_inv in Hpre. destruct Hpre as [l Hl]. injection Hl as -> _. symmetry. apply He. by left. }
  destruct (IH _ H) as [Hn' Hg].
  - rewrite (DeleteBucket_law _ _ _ _ H1). by apply nested_drop.
  - intros t k Ht. rewrite Hg1. apply He. by right.
  - split; [done|]. intros t k. by rewrite Hg, Hg1.
Qed.

Lemma cleanTransports_spec expired bucket c tx tx' :
  cleanTransports expired bucket c tx = Ok tx' → nested (content tx) →
  nested (content tx') ∧
  ∀ t k, get (content tx') (bucket_path bucket c ++ [t]) k = sweep expired (get (content tx) (bucket_path bucket c ++ [t]) k).
Proof using BL.
  unfold cleanTransports. intros (p & Hp & H)%bind_Ok Hn. set (q := bucket_path bucket c).
  assert (Hq : q ≠ []) by (unfold q, bucket_path; by destruct (cacheID c)).
  assert (Hpath : p = if bool_decide (is_Some (content tx !! q)) then Some q else None).
  { unfold cf_bucket in Hp. unfold q, bucket_path. destruct (cacheID c) as [id|].
    - apply bind_Ok in Hp as (ok & Hok & Hp). pose proof (Tx_Bucket_law [id] tx) as Hb. rewrite Hok in Hb. cbn in Hb. subst ok.
      case_bool_decide as Hid; cbn in Hp.
      + apply bind_Ok in Hp as (ok & Hok' & Hp). pose proof (Tx_Bucket_law [id; bucket] tx) as Hb. rewrite Hok' in Hb. cbn in Hb. subst ok.
        by case_bool_decide; injection Hp as <-.
      + injection Hp as <-. rewrite bool_decide_eq_false_2; [done|]. intros Hs. apply Hid. by apply (Hn [id] bucket).
    - apply bind_Ok in Hp as (ok & Hok & Hp). pose proof (Tx_Bucket_law [bucket] tx) as Hb. rewrite Hok in Hb. cbn in Hb. subst ok.
      by case_bool_decide; injection Hp as <-. }
  case_bool_decide as Hs; subst p.
  - apply bind_Ok in H as (names & Hnames & H). apply bind_Ok in H as ([tx1 empty] & H1 & H).
    destruct (cleanNames_spec _ _ _ _ _ _ _ H1) as (Hsame & Hg1 & He); [by intros t k ?%elem_of_nil|].
    destruct (deleteBuckets_spec _ _ _ _ H) as [Hn' Hg]; [by eapply nested_same|done|]. split; [done|].
    intros t k. rewrite Hg, Hg1. case_bool_decide as Ht; [done|]. rewrite (ForEachBucket_law _ _ _ Hnames) in Ht.
    unfold get. destruct (content tx !! (q ++ [t])); [by destruct Ht|]. by destruct (nonempty k).
  - injection H as <-. split; [done|]. intros t k. rewrite (nested_get _ q [t] k Hn Hq); [done|]. destruct (content tx !! q); [by destruct Hs|done].
Qed.

(** A response is stale: it expired longer ago than it may still be served. *)
Definition stale (now : Z) (c : CacheFile) (v : list byte * Z) : bool := negb (cf_disableExpire c) && (v.2 + optimisticTimeout c <? now).

Lemma sweep_stored now c v :
  decodeEntry (sweep (dnsExpired now c) v) = decodeEntry v ≫= λ v, if stale now c v then None else Some v.
Proof.
  destruct v as [v|]; [|done]. cbn. unfold dnsExpired, decodeEntry, stale. destruct (len v <? 8) eqn:Hl; cbn; [done|].
  destruct (cf_disableExpire c); cbn; [by rewrite Hl|]. destruct (_ <? now) eqn:Ht; cbn; [done|]. by rewrite Hl.
Qed.

Lemma cleanStored_spec now c tx c' :
  opened c tx → cleanStored now c = (None, c') →
  (∃ tx', opened c' tx') ∧ saveDNSCache c' = saveDNSCache c ∧ cf_disableExpire c' = cf_disableExpire c ∧ optimisticTimeout c' = optimisticTimeout c ∧
  ∀ k, stored c' k = stored c k ≫= λ v, if stale now c v then None else Some v.
Proof using BL.
  intros (Hrel & Hdb & Hn) (tx0 & tx1 & tx2 & Hdb0 & _ & E & Hc & ->)%write_ok. assert (tx0 = tx) as -> by congruence.
  destruct (cleanTransports_spec _ _ _ _ _ E Hn) as [Hn1 Hg].
  assert (released (set_DB (Some tx2) c) = false ∧ DB (set_DB (Some tx2) c) = Some tx2) as [Hrel' Hdb'] by by destruct c.
  split; [exists tx2; split; [done|]; split; [done|by rewrite Hc]|]. split; [by destruct c|]. split; [by destruct c|]. split; [by destruct c|].
  intros k. unfold stored. assert (dns_path (set_DB (Some tx2) c) k = dns_path c k) as -> by by destruct c.
  unfold cf_content. rewrite Hrel', Hdb', Hrel, Hdb, Hc. unfold dns_path. rewrite Hg. apply sweep_stored.
Qed.
End clean.
