(* ===== verification/DnsCacheTheorems.v ===== *)
(** Theorems about the DNS cache file: what is loaded is what was queued last,
    whatever the interleaving of saves and clean-ups; and how clearing the cache
    breaks it. *)

From S2P Require Import Prelude GoBytes GoSlices GoStrings Netip Metadata DnsMessage FakeIP FakePool FakeIPTheorems Bolt CacheFile CacheFakeIP FakeIPResume DnsCache DnsCacheClean.

Section dnscache.
Context {B : Bolt} {BL : BoltLaws B}.

(** ** Where a question is stored *)

(** Asks whether a bucket exists; without it there is nothing below it. *)
Ltac ask_bucket Hn :=
  match goal with |- context [Tx_Bucket ?p ?tx] =>
    let Hb := fresh "Hb" in
    pose proof (Tx_Bucket_law p tx) as Hb; destruct (Tx_Bucket p tx) as [?ok|?|?]; [|done..];
    cbn [reads] in Hb; subst; cbn [mbind result_bind negb]; case_bool_decide as Hb;
    [|cbn [mbind result_bind reads]; symmetry; eapply (nested_get _ p _ _ Hn); [done|];
      destruct (content tx !! p); [by destruct Hb|done]]
  end.

Lemma readDNSCache_reads k c tx : nested (content tx) →
  reads (readDNSCache k c tx) (get (content tx) (dns_path c k) (questionKey k)).
Proof using BL.
  intros Hn. unfold readDNSCache, transportBucket, cf_bucket, dns_path, bucket_path.
  destruct (cacheID c) as [id|]; cbn [app].
  - ask_bucket Hn. ask_bucket Hn. cbn [app]. ask_bucket Hn. apply Bucket_Get_law.
  - ask_bucket Hn. cbn [app]. ask_bucket Hn. apply Bucket_Get_law.
Qed.

(** The same for a bucket of the instance. *)
Lemma read_key_reads bucket key c tx : nested (content tx) →
  reads (read_key bucket key c tx) (get (content tx) (bucket_path bucket c) key).
Proof using BL.
  intros Hn. unfold read_key, cf_bucket, bucket_path. destruct (cacheID c) as [id|].
  - ask_bucket Hn. ask_bucket Hn. apply Bucket_Get_law.
  - ask_bucket Hn. apply Bucket_Get_law.
Qed.

(** ** Saving one response *)

Lemma createBucket_spec p k tx tx' :
  CreateBucketIfNotExists p k tx = Ok tx' → nested (content tx) → (p ≠ [] → is_Some (content tx !! p)) →
  nested (content tx') ∧ is_Some (content tx' !! (p ++ [k])) ∧ ∀ p' k', get (content tx') p' k' = get (content tx) p' k'.
Proof using BL.
  intros E Hn Hp. split; [|split; [|intros; by eapply get_Create]]; rewrite (CreateBucket_law _ _ _ _ E).
  - apply nested_insert; [done|]. intros q k' [-> ->]%app_inj_tail. done.
  - rewrite lookup_insert_eq. by eexists.
Qed.

Lemma createTransportBucket_spec bucket t c tx p tx' :
  createTransportBucket bucket t c tx = Ok (p, tx') → nested (content tx) →
  p = bucket_path bucket c ++ [str_bytes t] ∧ nested (content tx') ∧ is_Some (content tx' !! p) ∧
  ∀ p' k', get (content tx') p' k' = get (content tx) p' k'.
Proof using BL.
  unfold createTransportBucket, createBucket, bucket_path. intros E Hn. destruct (cacheID c) as [id|]; invert_ok.
  - match goal with H1 : CreateBucketIfNotExists [] _ _ = _, H2 : CreateBucketIfNotExists [id] _ _ = _, H3 : CreateBucketIfNotExists [id; _] _ _ = _ |- _ =>
      destruct (createBucket_spec _ _ _ _ H1 Hn) as (Hn1 & Hs1 & Hg1); [done|];
      destruct (createBucket_spec _ _ _ _ H2 Hn1) as (Hn2 & Hs2 & Hg2); [by intros _|];
      destruct (createBucket_spec _ _ _ _ H3 Hn2) as (Hn3 & Hs3 & Hg3); [by intros _|] end.
    split; [done|]. split; [done|]. split; [done|]. intros p' k'. by rewrite Hg3, Hg2, Hg1.
  - match goal with H1 : CreateBucketIfNotExists [] _ _ = _, H2 : CreateBucketIfNotExists [_] _ _ = _ |- _ =>
      destruct (createBucket_spec _ _ _ _ H1 Hn) as (Hn1 & Hs1 & Hg1); [done|];
      destruct (createBucket_spec _ _ _ _ H2 Hn1) as (Hn2 & Hs2 & Hg2); [by intros _|] end.
    split; [done|]. split; [done|]. split; [done|]. intros p' k'. by rewrite Hg2, Hg1.
Qed.

(** Expiry as it is stored. *)
Definition truncated (v : list byte * Z) : list byte * Z := (v.1, int64_of ((v.2 / second) mod 2 ^ 64) * second).

Definition valid_key (k : saveCacheKey) : Prop := 0 ≤ sk_QType k < 2 ^ 16.

Lemma be_put_be_mod n z : be (put_be n z) = z mod 256 ^ Z.of_nat n.
Proof.
  revert z. induction n as [|n IH]; intros z; [by rewrite Z.mod_1_r|].
  cbn [put_be]. rewrite be_snoc, bz_zb, IH, Nat2Z.inj_succ, Z.pow_succ_r by lia.
  rewrite (Z.mul_comm 256), Z.mul_comm, (Z.mul_comm _ 256), Z.rem_mul_r by (try apply Z.pow_pos_nonneg; lia). lia.
Qed.

Lemma decodeEntry_value exp raw : decodeEntry (Some (put_be 8 exp ++ raw)) = Some (raw, int64_of (exp mod 2 ^ 64) * second).
Proof.
  unfold decodeEntry. rewrite len_app, len_put_be. pose proof (len_nonneg raw).
  rewrite (proj2 (Z.ltb_ge _ _)) by lia.
  rewrite slice_app_head by by rewrite len_put_be. by rewrite be_put_be_mod.
Qed.

Lemma questionKey_inj k k' : valid_key k → valid_key k' → questionKey k = questionKey k' →
  sk_QType k = sk_QType k' ∧ sk_QuestionName k = sk_QuestionName k'.
Proof.
  unfold questionKey, valid_key. intros Hk Hk' [He1 He2]%app_inj_1; [|by rewrite !length_put_be].
  split; [|by apply str_bytes_inj].
  rewrite <- (be_put_be 2 (sk_QType k)), <- (be_put_be 2 (sk_QType k')) by (cbn; lia). by rewrite He1.
Qed.

Lemma dns_key_inj c k k' : valid_key k → valid_key k' → dns_path c k = dns_path c k' → questionKey k = questionKey k' → k = k'.
Proof.
  intros Hk Hk' [_ Ht%str_bytes_inj]%app_inj_tail [Hq Hn]%questionKey_inj; [|done..]. destruct k, k'. cbn in *. by subst.
Qed.

(** The two files expire alike. *)
Definition same_expiry (c c' : CacheFile) : Prop := cf_disableExpire c' = cf_disableExpire c ∧ optimisticTimeout c' = optimisticTimeout c.

(** A save that succeeds stores the response and leaves the other questions. *)
Lemma SaveDNSCache_spec k raw exp c tx c' :
  opened c tx → valid_key k → SaveDNSCache k raw exp c = (None, c') →
  (∃ tx', opened c' tx') ∧ same_expiry c c' ∧ saveDNSCache c' = saveDNSCache c ∧
  ∀ k', valid_key k' → stored c' k' = if bool_decide (k' = k) then Some (truncated (raw, exp)) else stored c k'.
Proof using BL.
  intros (Hrel & Hdb & Hn) Hk (tx0 & tx1 & tx2 & Hdb0 & _ & E & Hc & ->)%write_ok.
  assert (tx0 = tx) as -> by congruence. apply bind_Ok in E as ([p txc] & E1 & E).
  destruct (createTransportBucket_spec _ _ _ _ _ _ E1 Hn) as (-> & Hn1 & Hs1 & Hg1).
  assert (nested (content tx2)) as Hn2.
  { rewrite Hc, (Bucket_Put_law _ _ _ _ _ E). apply nested_insert; [done|]. intros q kk He Hq. apply (Hn1 q kk); [done|by rewrite <- He]. }
  assert (released (set_DB (Some tx2) c) = false ∧ DB (set_DB (Some tx2) c) = Some tx2) as [Hrel' Hdb'] by by destruct c.
  split; [by exists tx2|]. split; [by destruct c|]. split; [by destruct c|]. intros k' Hk'. unfold stored.
  assert (dns_path (set_DB (Some tx2) c) k' = dns_path c k') as -> by by destruct c.
  unfold cf_content. rewrite Hrel', Hdb', Hrel, Hdb. rewrite Hc, (get_Put _ _ _ _ _ _ _ E), Hg1. fold (dns_path c k).
  case_bool_decide as Hsame.
  - destruct Hsame as [Hp Hq]. rewrite bool_decide_eq_true_2 by (by apply (dns_key_inj c)). apply decodeEntry_value.
  - rewrite bool_decide_eq_false_2; [done|]. intros ->. by apply Hsame.
Qed.

(** ** The goroutines *)

Notation pending w := (saveDNSCache (w_file w)).

(** The entry a goroutine has in hand. *)
Definition in_hand (ph : phase) : option saveDNSCacheEntry :=
  match ph with Reading => None | Saving e | Checking e => Some e end.

(** A clean-up at one of the times [T] found [v] stale. *)
Definition swept (c0 : CacheFile) (T : list Z) (v : list byte * Z) : Prop := ∃ now, now ∈ T ∧ stale now c0 v = true.
(** [x] is [y], unless that was swept. *)
Definition kept (c0 : CacheFile) (T : list Z) (x y : option (list byte * Z)) : Prop :=
  x = y ∨ x = None ∧ ∃ v, y = Some v ∧ swept c0 T v.

(** The invariant of the queue after [n] actions; [T] has the times of the clean-ups
    since a question was last queued. *)
Record queue_inv (c0 : CacheFile) (n : Z) (T : saveCacheKey → list Z) (w : world B) : Prop := mkInv {
  iv_count : 0 ≤ n;
  iv_expiry : same_expiry c0 (w_file w);
  iv_open : ∃ tx, opened (w_file w) tx;
  iv_nodup : NoDup (w_threads w).*1;
  (** a goroutine runs for exactly the queued questions *)
  iv_thread k : k ∈ (w_threads w).*1 ↔ is_Some (pending w !! k);
  iv_last k e : pending w !! k = Some e →
    w_last w !! k = Some (se_rawMessage e, se_expireAt e) ∧ se_saving e = true ∧ 0 ≤ se_sequence e ≤ n ∧ valid_key k;
  (** the entry in hand is the queued one unless the sequence has moved on *)
  iv_hand k ph e : (k, ph) ∈ w_threads w → in_hand ph = Some e →
    ∃ cur, pending w !! k = Some cur ∧ se_sequence e ≤ se_sequence cur ∧ (se_sequence e = se_sequence cur → e = cur);
  iv_checked k e cur : (k, Checking e) ∈ w_threads w → pending w !! k = Some cur → se_sequence e = se_sequence cur →
    kept c0 (T k) (stored (w_file w) k) (Some (truncated (se_rawMessage e, se_expireAt e)));
  iv_stored k : valid_key k → pending w !! k = None →
    kept c0 (T k) (stored (w_file w) k) (match w_last w !! k with Some v => Some (truncated v) | None => stored c0 k end)
}.

Lemma stored_queue c q k : stored (set_saveDNSCache q c) k = stored c k.
Proof. by destruct c. Qed.
Lemma opened_queue c q tx : opened c tx → opened (set_saveDNSCache q c) tx.
Proof. by destruct c. Qed.
Lemma queue_set c q : saveDNSCache (set_saveDNSCache q c) = q.
Proof. by destruct c. Qed.

Lemma queue_inv_init c tx : opened c tx → saveDNSCache c = ∅ → queue_inv c 0 (λ _, []) (quiet c).
Proof.
  intros Ho Hq. constructor; cbn [quiet w_file w_threads w_last]; [done|done|..].
  - by exists tx.
  - constructor.
  - intros k. rewrite Hq, lookup_empty. split; [by intros ?%elem_of_nil|by intros []].
  - intros k e. by rewrite Hq, lookup_empty.
  - by intros k ph e ?%elem_of_nil.
  - by intros k e cur ?%elem_of_nil.
  - intros k _ _. rewrite lookup_empty. by left.
Qed.

(** The clean-ups since [k] was last queued. *)
Definition since (k : saveCacheKey) (T : list Z) (a : action) : list Z :=
  match a with
  | Queue k' _ _ => if bool_decide (k' = k) then [] else T
  | CleanUp now => now :: T
  | _ => T
  end.

Lemma queue_inv_queue c0 n T w k raw exp :
  queue_inv c0 n T w → valid_key k → n + 1 < 2 ^ 64 → queue_inv c0 (n + 1) (λ k', since k' (T k') (Queue k raw exp)) (act w (Queue k raw exp)).
Proof.
  intros [H0 Hexp [tx Ho] Hnd Hth Hlast Hhand Hchk Hst] Hk Hn. cbn [act]. unfold queueDNSCacheSave.
  set (old := default noEntry (pending w !! k)). set (new := mkSaveEntry raw exp ((se_sequence old + 1) mod 2 ^ 64) true).
  assert (0 ≤ se_sequence old ≤ n) as Hseq.
  { unfold old. destruct (pending w !! k) as [e|] eqn:E; cbn; [|lia]. destruct (Hlast _ _ E) as (_ & _ & ? & _). lia. }
  assert (se_sequence new = se_sequence old + 1) as Hnew by (cbn; apply Z.mod_small; lia).
  assert (se_saving old = true ↔ is_Some (pending w !! k)) as Hsaving.
  { unfold old. destruct (pending w !! k) as [e|] eqn:E; cbn; [|split; [done|by intros []]].
    destruct (Hlast _ _ E) as (_ & -> & _). split; [by eexists|done]. }
  constructor; cbn [w_file w_threads w_last]; rewrite ?queue_set; [lia|by destruct (w_file w)|..].
  - exists tx. by apply opened_queue.
  - destruct (se_saving old) eqn:Es; cbn [negb]; [done|]. rewrite fmap_app. apply NoDup_app. split; [done|].
    split; [|apply NoDup_singleton]. intros k' Hk' ->%list_elem_of_singleton. apply Hth, Hsaving in Hk'. done.
  - intros k'. destruct (decide (k' = k)) as [->|Hne].
    + rewrite lookup_insert_eq. split; [by eexists|]. intros _. destruct (se_saving old) eqn:Es; cbn [negb].
      * by apply Hth, Hsaving.
      * rewrite fmap_app. apply elem_of_app. right. by apply list_elem_of_singleton.
    + rewrite lookup_insert_ne by done. rewrite <- Hth. destruct (se_saving old); cbn [negb]; [done|].
      rewrite fmap_app, elem_of_app. cbn. rewrite list_elem_of_singleton. naive_solver.
  - intros k' e. destruct (decide (k' = k)) as [->|Hne].
    + rewrite !lookup_insert_eq. intros [= <-]. split; [done|]. split; [done|]. split; [lia|done].
    + rewrite !lookup_insert_ne by done. intros (? & ? & ? & ?)%Hlast. repeat split; [done|done|lia|lia|apply H3..].
  - intros k' ph e Hin He. assert ((k', ph) ∈ w_threads w) as Hin'.
    { destruct (se_saving old); cbn [negb] in Hin; [done|]. apply elem_of_app in Hin as [Hin|Hin]; [done|].
      apply list_elem_of_singleton in Hin. injection Hin as -> ->. done. }
    destruct (Hhand _ _ _ Hin' He) as (cur & Hcur & Hle & Heq). destruct (decide (k' = k)) as [->|Hne].
    + rewrite lookup_insert_eq. exists new. split; [done|]. assert (old = cur) as Ho' by (unfold old; by rewrite Hcur). subst cur. lia.
    + rewrite lookup_insert_ne by done. by exists cur.
  - intros k' e cur Hin. rewrite stored_queue. assert ((k', Checking e) ∈ w_threads w) as Hin'.
    { destruct (se_saving old); cbn [negb] in Hin; [done|]. apply elem_of_app in Hin as [Hin|Hin]; [done|]. by apply list_elem_of_singleton in Hin. }
    destruct (decide (k' = k)) as [->|Hne].
    + rewrite lookup_insert_eq. intros [= <-] Hs. destruct (Hhand _ _ _ Hin' eq_refl) as (cur' & Hcur' & Hle & _).
      assert (old = cur') as Ho' by (unfold old; by rewrite Hcur'). subst cur'. lia.
    + rewrite lookup_insert_ne by done. cbn [since]. rewrite bool_decide_eq_false_2 by done. by apply Hchk.
  - intros k' Hk'. rewrite stored_queue. destruct (decide (k' = k)) as [->|Hne]; [by rewrite lookup_insert_eq|].
    rewrite !lookup_insert_ne by done. cbn [since]. rewrite bool_decide_eq_false_2 by done. by apply Hst.
Qed.

(** One goroutine among the others. *)
Lemma insert_middle {A} (l1 l2 : list A) x y : <[length l1 := y]> (l1 ++ x :: l2) = l1 ++ y :: l2.
Proof. by induction l1; [|cbn; f_equal]. Qed.

Lemma fst_middle {A C} (l1 l2 : list (A * C)) k x y : (l1 ++ (k, x) :: l2).*1 = (l1 ++ (k, y) :: l2).*1.
Proof. by rewrite !fmap_app. Qed.

Lemma middle_elem {A} (l1 l2 : list A) x y z : z ∈ l1 ++ y :: l2 → z = y ∨ z ∈ l1 ++ x :: l2.
Proof. rewrite !elem_of_app, !elem_of_cons. naive_solver. Qed.

Lemma queue_inv_later c0 n T w : queue_inv c0 n T w → queue_inv c0 (n + 1) T w.
Proof.
  intros [H0 Hexp Ho Hnd Hth Hlast Hhand Hchk Hst]. constructor; [lia|done|done|done|done| |done..].
  intros k e (? & ? & [? ?] & ?)%Hlast. split; [done|]. split; [done|]. split; [lia|done].
Qed.

(** The goroutine moved on and the queue is as it was. *)
Lemma queue_inv_moved c0 n T w l1 l2 k ph ph' f :
  queue_inv c0 n T w → w_threads w = l1 ++ (k, ph) :: l2 →
  (∀ e, in_hand ph' = Some e → ∃ cur, pending w !! k = Some cur ∧ se_sequence e ≤ se_sequence cur ∧ (se_sequence e = se_sequence cur → e = cur)) →
  (∀ e, ph' ≠ Checking e) →
  queue_inv c0 (n + 1) T (mkWorld (w_file w) (l1 ++ (k, ph') :: l2) f (w_last w)).
Proof.
  intros [H0 Hexp Ho Hnd Hth Hlast Hhand Hchk Hst] Ht Hnew Hnc. rewrite Ht in *.
  constructor; cbn [w_file w_threads w_last]; [lia|done|done|by rewrite (fst_middle _ _ _ _ ph)|by intros; rewrite (fst_middle _ _ _ _ ph)|..].
  - intros k' e (? & ? & [? ?] & ?)%Hlast. split; [done|]. split; [done|]. split; [lia|done].
  - intros k' p e [Heq|Hin]%(middle_elem _ _ (k, ph)) He; [injection Heq as -> ->; by apply Hnew|by apply (Hhand _ _ _ Hin)].
  - intros k' e cur [Heq|Hin]%(middle_elem _ _ (k, ph)); [injection Heq as -> <-; by destruct (Hnc e)|by apply Hchk].
  - done.
Qed.

(** Under distinct keys the goroutine of a key is the only one. *)
Lemma middle_unique {C} (l1 l2 : list (saveCacheKey * C)) k x y :
  NoDup (l1 ++ (k, x) :: l2).*1 → (k, y) ∈ l1 ++ (k, x) :: l2 → y = x.
Proof.
  rewrite fmap_app, fmap_cons. intros (_ & Hdis & (Hk & _)%NoDup_cons)%NoDup_app. cbn in Hk.
  rewrite elem_of_app, elem_of_cons. intros [Hin|[Heq|Hin]].
  - destruct (Hdis k); [by apply (list_elem_of_fmap_2 fst) in Hin|left].
  - by injection Heq.
  - by apply (list_elem_of_fmap_2 fst) in Hin.
Qed.

Lemma queue_inv_run c0 n T w i :
  queue_inv c0 n T w → w_failed (act w (Run i)) = false → queue_inv c0 (n + 1) T (act w (Run i)).
Proof using BL.
  intros Hinv. pose proof Hinv as [H0 Hexp [tx Ho] Hnd Hth Hlast Hhand Hchk Hst]. cbn [act].
  destruct (w_threads w !! i) as [[k ph]|] eqn:Ei.
  2:{ intros _. by apply queue_inv_later. }
  pose proof (take_drop_middle _ _ _ Ei) as Ht. symmetry in Ht. set (l1 := take i _) in Ht. set (l2 := drop (S i) _) in Ht.
  assert (i = length l1) as Hi by (unfold l1; rewrite length_take; apply lookup_lt_Some in Ei; lia).
  clearbody l1 l2. subst i. clear Ei.
  assert ((k, ph) ∈ w_threads w) as Hin by (rewrite Ht; apply elem_of_app; right; left).
  assert (is_Some (pending w !! k)) as [cur Hcur] by (apply Hth, (list_elem_of_fmap_2 fst _ _ Hin)).
  destruct ph as [|e|e]; cbn [runThread].
  - rewrite Hcur, Ht, insert_middle. intros _. apply (queue_inv_moved _ _ T w _ _ k Reading); [done|done| |done].
    intros e [= <-]. by exists cur.
  - destruct (SaveDNSCache k _ _ (w_file w)) as [err c'] eqn:Esave. destruct err; cbn [w_failed]; [by rewrite orb_true_r|]. intros _. rewrite Ht, insert_middle.
    destruct (Hlast _ _ Hcur) as (_ & _ & _ & Hvk).
    destruct (SaveDNSCache_spec _ _ _ _ _ _ Ho Hvk Esave) as (Hopen' & Hsame & Hq & Hstored).
    assert (queue_inv c0 (n + 1) T w) as [H0' _ _ Hnd' Hth' Hlast' Hhand' Hchk' Hst'] by by apply queue_inv_later. rewrite Ht in *.
    constructor; cbn [w_file w_threads w_last]; rewrite ?Hq; [done|unfold same_expiry in *; destruct Hsame, Hexp; split; congruence|done|by rewrite (fst_middle _ _ _ _ (Saving e))|by intros; rewrite (fst_middle _ _ _ _ (Saving e))|done|..].
    + intros k' p e' [Heq|Hin']%(middle_elem _ _ (k, Saving e)) He'; [injection Heq as -> ->; by apply (Hhand _ _ _ Hin)|by apply (Hhand _ _ _ Hin')].
    + intros k' e' cur0 [Heq|Hin']%(middle_elem _ _ (k, Saving e)).
      * injection Heq as -> ->. intros _ _. rewrite Hstored by done. rewrite bool_decide_eq_true_2 by done. by left.
      * assert (is_Some (pending w !! k')) as [cur' Hcur'] by (apply Hth, (list_elem_of_fmap_2 fst _ _ Hin')).
        destruct (Hlast _ _ Hcur') as (_ & _ & _ & Hvk'). rewrite Hstored by done. rewrite bool_decide_eq_false_2; [by apply Hchk|].
        intros ->. by apply middle_unique in Hin'.
    + intros k' Hvk' Hnone. rewrite Hstored by done. rewrite bool_decide_eq_false_2 by congruence. by apply Hst.
  - rewrite Hcur. destruct (Hhand _ _ _ Hin eq_refl) as (cur' & Hcur' & Hle & Heq). assert (cur' = cur) as -> by congruence.
    destruct (Z.eqb_spec (se_sequence cur) (se_sequence e)) as [Hs|Hs]; cbn [negb]; intros _.
    2:{ rewrite Ht, insert_middle. by apply (queue_inv_moved _ _ T w _ _ k (Checking e)). }
    rewrite Ht, delete_middle.
    assert (e = cur) as -> by by apply Heq. destruct (Hlast _ _ Hcur) as (Hl & _ & _ & Hvk).
    assert (queue_inv c0 (n + 1) T w) as [H0' _ _ Hnd' Hth' Hlast' Hhand' Hchk' Hst'] by by apply queue_inv_later. rewrite Ht in *.
    assert (∀ k' p, (k', p) ∈ l1 ++ l2 → (k', p) ∈ l1 ++ (k, Checking cur) :: l2 ∧ k' ≠ k) as Hsub.
    { intros k' p Hin'. split; [apply elem_of_app; apply elem_of_app in Hin' as [?|?]; [by left|right; by right]|].
      intros ->. rewrite fmap_app, fmap_cons in Hnd. apply NoDup_app in Hnd as (_ & Hdis & [Hk _]%NoDup_cons).
      apply elem_of_app in Hin' as [Hin'|Hin']; apply (list_elem_of_fmap_2 fst) in Hin'; [destruct (Hdis k); [done|left]|done]. }
    constructor; cbn [w_file w_threads w_last]; rewrite ?queue_set; [done|by destruct (w_file w)|exists tx; by apply opened_queue|..].
    + rewrite fmap_app, fmap_cons in Hnd. rewrite fmap_app. apply NoDup_app in Hnd as (Hn1 & Hdis & [_ Hn2]%NoDup_cons).
      apply NoDup_app. split; [done|]. split; [|done]. intros x Hx Hx2. apply (Hdis x Hx). by right.
    + intros k'. destruct (decide (k' = k)) as [->|Hne].
      * rewrite lookup_delete_eq. split; [|by intros []]. intros ([k1 p] & -> & Hin')%list_elem_of_fmap_1. by apply Hsub in Hin' as [_ ?].
      * rewrite lookup_delete_ne by done. rewrite <- Hth, !fmap_app, fmap_cons, !elem_of_app, elem_of_cons. naive_solver.
    + intros k' e'. destruct (decide (k' = k)) as [->|Hne]; [by rewrite lookup_delete_eq|]. rewrite lookup_delete_ne by done. apply Hlast'.
    + intros k' p e' [Hin' Hne]%Hsub He'. rewrite lookup_delete_ne by done. by apply (Hhand _ _ _ Hin').
    + intros k' e' cur0 [Hin' Hne]%Hsub. rewrite stored_queue, lookup_delete_ne by done. by apply Hchk.
    + intros k' Hvk'. rewrite stored_queue. destruct (decide (k' = k)) as [->|Hne].
      * intros _. rewrite Hl. by apply (Hchk _ _ cur).
      * rewrite lookup_delete_ne by done. by apply Hst.
Qed.

(** A clean-up. *)
Lemma kept_swept c0 c T now x y :
  same_expiry c0 c → kept c0 T x y → kept c0 (now :: T) (x ≫= λ v, if stale now c v then None else Some v) y.
Proof.
  intros [He Ho] Hk. assert (Hs : ∀ v, stale now c v = stale now c0 v) by (intros v; unfold stale; by rewrite He, Ho).
  destruct Hk as [->|(-> & v & -> & t & Ht & Hv)].
  - destruct y as [v|]; [|by left]. cbn. rewrite Hs. destruct (stale now c0 v) eqn:E; [|by left]. right. split; [done|].
    exists v. split; [done|]. exists now. split; [left|done].
  - right. split; [done|]. exists v. split; [done|]. exists t. split; [by right|done].
Qed.

Lemma queue_inv_clean c0 n T w now :
  queue_inv c0 n T w → w_failed (act w (CleanUp now)) = false → queue_inv c0 (n + 1) (λ k, now :: T k) (act w (CleanUp now)).
Proof using BL.
  intros Hinv. apply queue_inv_later in Hinv. destruct Hinv as [H0 Hexp [tx Ho] Hnd Hth Hlast Hhand Hchk Hst]. cbn [act].
  destruct (cleanStored now (w_file w)) as [err c'] eqn:E. cbn [w_failed]. destruct err; [by rewrite orb_true_r|]. intros _.
  destruct (cleanStored_spec _ _ _ _ Ho E) as (Ho' & Hq & He1 & He2 & Hs).
  constructor; cbn [w_file w_threads w_last]; rewrite ?Hq; try done.
  - destruct Hexp. split; congruence.
  - intros k e cur Hin Hcur Hseq. rewrite Hs. apply kept_swept; [done|]. by eapply Hchk.
  - intros k Hk Hnone. rewrite Hs. apply kept_swept; [done|]. by apply Hst.
Qed.

(** ** Loading *)

Lemma LoadDNSCache_spec `{!BoltTotal B} k c tx : opened c tx →
  LoadDNSCache k c = (match saveDNSCache c !! k with
    | Some e => Some (se_rawMessage e, se_expireAt e) | None => stored c k end, c).
Proof using BL.
  intros (Hrel & Hdb & Hn). unfold LoadDNSCache. destruct (saveDNSCache c !! k); [done|].
  unfold view. rewrite Hrel, Hdb. pose proof (readDNSCache_reads k c tx Hn) as Hr.
  assert (is_ok (readDNSCache k c tx) = true) as Hok.
  { unfold readDNSCache, transportBucket, cf_bucket.
    destruct (cacheID c) as [id|];
      repeat (match goal with |- context [Tx_Bucket ?p tx] => pose proof (Tx_Bucket_total p tx); destruct (Tx_Bucket p tx) as [[]| |] end;
        try done; cbv [mbind result_bind]; cbv beta iota); apply Bucket_Get_total. }
  destruct (readDNSCache k c tx) as [v| |]; [|done..]. cbn [reads] in Hr. subst v. cbn [or_zero fst snd].
  unfold stored, cf_content. by rewrite Hrel, Hdb.
Qed.

Definition is_run (a : action) : bool := match a with Run _ => true | _ => false end.
Definition no_clear (a : action) : Prop := match a with Queue k _ _ => valid_key k | Run _ | CleanUp _ => True | _ => False end.

Lemma act_failed w a : w_failed w = true → w_failed (act w a) = true.
Proof.
  intros Hf. destruct a; cbn [act]; [done| |done|done|].
  - destruct (w_threads w !! i) as [[k ph]|]; [|done]. destruct (runThread k ph (w_file w)) as [[? ?] ?]. cbn. by rewrite Hf.
  - destruct (cleanStored now (w_file w)). cbn. by rewrite Hf.
Qed.
Lemma acts_failed l w : w_failed (acts l w) = false → w_failed w = false.
Proof.
  revert w. induction l as [|a l IH]; intros w; [done|]. cbn. intros Ha%IH. destruct (w_failed w) eqn:E; [|done].
  by rewrite (act_failed w a E) in Ha.
Qed.

Lemma queue_inv_acts c0 l n T w :
  queue_inv c0 n T w → Forall no_clear l → n + len l < 2 ^ 64 → w_failed (acts l w) = false →
  queue_inv c0 (n + len l) (λ k, fold_left (since k) l (T k)) (acts l w).
Proof using BL.
  revert n T w. induction l as [|a l IH]; intros n T w Hinv Hall Hn Hf; [by rewrite len_nil, Z.add_0_r|].
  apply Forall_cons in Hall as [Ha Hall]. rewrite len_cons in *. pose proof (len_nonneg l). cbn in Hf |- *.
  replace (n + (1 + len l)) with (n + 1 + len l) by lia. apply (IH _ (λ k, since k (T k) a)); [|done|lia|done].
  apply acts_failed in Hf. destruct a; [apply queue_inv_queue; (done || lia)|by apply queue_inv_run|done|done|by apply queue_inv_clean].
Qed.

(** ** Coming to rest *)

(** How many steps a goroutine has before it, given the queue. *)
Definition weight (q : gmap saveCacheKey saveDNSCacheEntry) (t : saveCacheKey * phase) : nat :=
  match t.2, q !! t.1 with
  | Reading, None => 1
  | Reading, Some _ => 3
  | Saving e, None => 2
  | Saving e, Some cur => if (se_sequence cur =? se_sequence e)%Z then 2 else 5
  | Checking e, None => 1
  | Checking e, Some cur => if (se_sequence cur =? se_sequence e)%Z then 1 else 4
  end%nat.
Definition work (w : world B) : nat := sum_list_with (weight (pending w)) (w_threads w).

Lemma weight_bound q t : (weight q t ≤ 5)%nat.
Proof. destruct t as [k []]; cbn; repeat case_match; lia. Qed.
Lemma weight_delete q k t : (weight (delete k q) t ≤ weight q t)%nat.
Proof.
  destruct t as [k' ph]. unfold weight. cbn. destruct (decide (k' = k)) as [->|Hne]; [|by rewrite lookup_delete_ne].
  rewrite lookup_delete_eq. destruct ph; repeat case_match; lia.
Qed.

Lemma sum_weight_delete q k l : (sum_list_with (weight (delete k q)) l ≤ sum_list_with (weight q) l)%nat.
Proof. induction l as [|t l IH]; [done|]. cbn. pose proof (weight_delete q k t). lia. Qed.

Lemma save_keeps_queue k raw exp c : saveDNSCache (SaveDNSCache k raw exp c).2 = saveDNSCache c.
Proof.
  unfold SaveDNSCache, saved, batch. cbn [snd]. destruct (released c) eqn:Er; [done|]. destruct (DB c); [|done].
  case_match; [case_match; by destruct c|done|]. cbn [snd]. unfold resetDB. rewrite Er. by destruct c.
Qed.

Lemma run_works w i : (i < length (w_threads w))%nat → (work (act w (Run i)) < work w)%nat.
Proof.
  intros Hi. apply lookup_lt_is_Some in Hi as [[k ph] Ei]. cbn [act]. rewrite Ei. unfold work.
  pose proof (take_drop_middle _ _ _ Ei) as Ht. symmetry in Ht. set (l1 := take i _) in Ht. set (l2 := drop (S i) _) in Ht.
  assert (i = length l1) as Hi by (unfold l1; rewrite length_take; apply lookup_lt_Some in Ei; lia).
  clearbody l1 l2. subst i. clear Ei. rewrite Ht.
  assert (∀ x, sum_list_with (weight (pending w)) (l1 ++ x :: l2) =
    (sum_list_with (weight (pending w)) (l1 ++ l2) + weight (pending w) x)%nat) as Hsum.
  { intros x. rewrite !sum_list_with_app. cbn. lia. }
  destruct ph as [|e|e]; cbn [runThread].
  - destruct (pending w !! k) as [cur|] eqn:Ek; cbn [w_file w_threads]; rewrite ?insert_middle, ?delete_middle, ?Hsum.
    + assert (weight (pending w) (k, Saving cur) = 2 ∧ weight (pending w) (k, Reading) = 3)%nat as [-> ->]; [|lia].
      unfold weight. cbn. by rewrite Ek, Z.eqb_refl.
    + assert (weight (pending w) (k, Reading) = 1)%nat as ->; [|lia]. unfold weight. cbn. by rewrite Ek.
  - pose proof (save_keeps_queue k (se_rawMessage e) (se_expireAt e) (w_file w)) as Hq.
    destruct (SaveDNSCache k _ _ (w_file w)) as [err c']. cbn [w_file w_threads snd] in *. rewrite Hq, insert_middle, !Hsum.
    unfold weight at 2 4. cbn. destruct (pending w !! k); [case_match|]; lia.
  - destruct (pending w !! k) as [cur|] eqn:Ek.
    2:{ cbn [w_file w_threads]. rewrite delete_middle, Hsum. unfold weight at 3. cbn. rewrite Ek. lia. }
    assert (weight (pending w) (k, Checking e) = if (se_sequence cur =? se_sequence e)%Z then 1 else 4)%nat as Hw.
    { unfold weight. cbn. by rewrite Ek. }
    destruct (Z.eqb_spec (se_sequence cur) (se_sequence e)); cbn [negb w_file w_threads];
      rewrite ?insert_middle, ?delete_middle, ?queue_set, !Hsum, Hw.
    + pose proof (sum_weight_delete (pending w) k (l1 ++ l2)). lia.
    + assert (weight (pending w) (k, Reading) = 3)%nat as ->; [|lia]. unfold weight. cbn. by rewrite Ek.
Qed.

(** Runs that each find a goroutine to run. *)
Fixpoint runs (l : list nat) (w : world B) : Prop :=
  match l with [] => True | i :: l => (i < length (w_threads w))%nat ∧ runs l (act w (Run i)) end.

Lemma runs_bound l w : runs l w → (length l ≤ work w)%nat.
Proof.
  revert w. induction l as [|i l IH]; intros w; cbn [runs length]; [lia|]. intros [Hi Hr%IH]. pose proof (run_works w i Hi). lia.
Qed.

Lemma work_bound w : (work w ≤ 5 * length (w_threads w))%nat.
Proof.
  unfold work. generalize (pending w). intros q. induction (w_threads w) as [|t l IH]; [done|].
  cbn [sum_list_with length]. pose proof (weight_bound q t). lia.
Qed.
End dnscache.

(** The clean-ups of [l] since [k] was last queued in it. *)
Definition cleanups (l : list action) (k : saveCacheKey) : list Z := fold_left (since k) l [].

(** C37: the DNS cache answers with the response queued last.  Whatever the
    interleaving of queueing, of the goroutines that write to the database and of
    the clean-ups, as long as no transaction has failed and the cache is not
    cleared, [LoadDNSCache] returns the response queued last for the question (its
    expiry cut to the second once it is stored), or what the file held before -
    unless a clean-up since then found it stale, when it may return nothing; when no
    goroutine that saves is left, that is in the database; and a clean-up takes away
    exactly the stored responses that are stale. *)
Theorem dns_cache_serves_last {B : Bolt} {BL : BoltLaws B} {BT : BoltTotal B} (c0 : CacheFile) (tx : Tx) (l : list action)
    (Hopened : opened c0 tx) (Hempty : saveDNSCache c0 = ∅) (Hactions : Forall no_clear l) (Hlen : len l < 2 ^ 64)
    (Hsaved : w_failed (acts l (quiet c0)) = false) (k : saveCacheKey) (Hk : valid_key k) :
  let w := acts l (quiet c0) in
  let value := match w_last w !! k with Some v => Some (truncated v) | None => stored c0 k end in
  ((LoadDNSCache k (w_file w)).1 = w_last w !! k ∧ is_Some (w_last w !! k) ∨ kept c0 (cleanups l k) (LoadDNSCache k (w_file w)).1 value) ∧
  (w_threads w = [] → saveDNSCache (w_file w) = ∅ ∧ kept c0 (cleanups l k) (stored (w_file w) k) value) ∧
  ∀ now, w_failed (act w (CleanUp now)) = false →
    stored (w_file (act w (CleanUp now))) k = stored (w_file w) k ≫= λ v, if stale now c0 v then None else Some v.
Proof.
  cbv zeta. pose proof (queue_inv_acts c0 l 0 (λ _, []) (quiet c0) (queue_inv_init c0 tx Hopened Hempty) Hactions Hlen Hsaved)
    as [_ [He1 He2] [tx' Ho] _ Hth Hlast _ _ Hst]. set (w := acts l (quiet c0)) in *. split; [|split].
  - rewrite (LoadDNSCache_spec _ _ _ Ho). cbn [fst]. destruct (saveDNSCache (w_file w) !! k) as [e|] eqn:Ek.
    + destruct (Hlast _ _ Ek) as (-> & _). left. by split; [|eexists].
    + right. by apply Hst.
  - intros Hnone. assert (saveDNSCache (w_file w) = ∅) as Hq.
    { apply map_empty. intros k'. destruct (saveDNSCache (w_file w) !! k') eqn:E; [|done].
      assert (k' ∈ (w_threads w).*1) as Hin by (apply Hth; by eexists). rewrite Hnone in Hin. by apply elem_of_nil in Hin. }
    split; [done|]. apply Hst; [done|]. by rewrite Hq.
  - intros now. cbn [act]. destruct (cleanStored now (w_file w)) as [err c'] eqn:E. cbn [w_failed w_file].
    destruct err; [by rewrite orb_true_r|]. intros _. destruct (cleanStored_spec _ _ _ _ Ho E) as (_ & _ & _ & _ & ->).
    unfold stale. by rewrite He1, He2.
Qed.

Definition demo_key : saveCacheKey := mkSaveKey "local" "example.org." 1.
Definition demo_actions : list action :=
  [Queue demo_key [x01] (5 * second); Run 0; Run 0; Queue demo_key [x02] (7 * second); Run 0; Run 0; CleanUp (4 * second); Run 0; Run 0].

Lemma demo_opened : @opened MapBolt _ demo_cache ∅.
Proof. split; [done|]. split; [done|]. intros p k _ Hp. change (content ∅) with (∅ : buckets) in *. rewrite lookup_empty in Hp. by destruct Hp. Qed.

Lemma dns_cache_serves_last_witness :
  let w := acts demo_actions (quiet demo_cache) in
  w_last w !! demo_key = Some ([x02], 7 * second) ∧
  ((LoadDNSCache demo_key (w_file w)).1 = Some ([x02], 7 * second) ∨
   kept demo_cache (cleanups demo_actions demo_key) (LoadDNSCache demo_key (w_file w)).1 (Some ([x02], 7 * second))) ∧
  stored (w_file (act w (CleanUp (30 * 24 * 3600 * second)))) demo_key = None.
Proof.
  cbv zeta.
  assert (w_last (acts demo_actions (quiet demo_cache)) !! demo_key = Some ([x02], 7 * second)) as Hl by (vm_compute; reflexivity).
  destruct (@dns_cache_serves_last MapBolt _ _ demo_cache ∅ demo_actions demo_opened) with (k := demo_key) as (Hload & _ & Hclean).
  - vm_compute. reflexivity.
  - repeat constructor; vm_compute; (reflexivity || discriminate).
  - vm_compute. reflexivity.
  - vm_compute. reflexivity.
  - vm_compute. split; [discriminate|reflexivity].
  - cbv zeta in Hload, Hclean. rewrite Hl in Hload. split; [exact Hl|]. split; [destruct Hload as [[Hload _]|Hload]; [left|right]; exact Hload|].
    rewrite Hclean by (vm_compute; reflexivity). vm_compute. reflexivity.
Defined.

(** The goroutines of the DNS cache come to rest: however they are interleaved, and
    whether their saves succeed or not, once nothing more is queued each of them
    takes at most five more steps. *)
Lemma dns_cache_flushes_end {B : Bolt} (w : world B) (l : list nat) : runs l w → (length l ≤ 5 * length (w_threads w))%nat.
Proof. intros Hruns. etrans; [by apply runs_bound|apply work_bound]. Qed.

(** Clearing the cache while a goroutine saves: its old response is written
    back after the clear, the sequence starts over, and the goroutine takes the
    response queued next for its own.  That response is lost, and the one that
    was cleared is served. *)
Definition clear_race : list action :=
  [Queue demo_key [x01] (5 * second); Run 0;      (* the first response is in hand *)
   ClearQueue; ClearStored;                       (* ClearDNSCache *)
   Run 0;                                         (* the first response is saved *)
   Queue demo_key [x02] (7 * second);             (* a new response, a second goroutine *)
   Run 0; Run 0].                                 (* the first takes it off the queue, the second ends *)

Lemma dns_cache_clear_race :
  let w := acts clear_race (quiet demo_cache) in
  w_threads w = [] ∧ w_last w !! demo_key = Some ([x02], 7 * second) ∧
  (LoadDNSCache demo_key (w_file w)).1 = Some ([x01], 5 * second).
Proof. vm_compute. done. Qed.
