(* ===== verification/DnsClient.v ===== *)
(** The DNS client ([dns/client.go]).

    A client asks a transport and keeps the responses in a memory cache or in
    the cache file.  The caches are interfaces: the LRU cache of sing and the
    [DNSCacheStore] and [RDRCStore] of [adapter/dns.go].  Waiting for another
    exchange of the same question is a return value ([ExchangeWait]), so that a
    run of the client is a sequence of the calls between its blocking points. *)

From S2P Require Import Prelude GoBytes GoSlices GoStrings Netip Metadata DnsMessage.

(** [C.DomainStrategy]. *)
Inductive DomainStrategy : Type := AsIS | PreferIPv4 | PreferIPv6 | IPv4Only | IPv6Only.
#[export] Instance strategy_eq_dec : EqDecision DomainStrategy.
Proof. solve_decision. Defined.

#[export] Program Instance prefix_countable : Countable Prefix :=
  inj_countable' (λ p, (match p_addr p with AddrZero => inl (inl tt) | Addr4 ip => inl (inr ip) | Addr6 ip z => inr (ip, z) end, p_bits p))
    (λ '(a, b), mkPrefix (match a with inl (inl _) => AddrZero | inl (inr ip) => Addr4 ip | inr (ip, z) => Addr6 ip z end) b) _.
Next Obligation. by intros [[] ?]. Qed.

(** [dnsCacheKey] and [dnsExchangeKey]. *)
Record dnsCacheKey : Type := mkCacheKey {
  ck_Question : Question;
  ck_transportTag : string;
  ck_clientSubnet : Prefix;
  ck_environment : Z
}.
#[export] Instance dnsCacheKey_eq_dec : EqDecision dnsCacheKey.
Proof. solve_decision. Defined.
#[export] Program Instance dnsCacheKey_countable : Countable dnsCacheKey :=
  inj_countable' (λ k, (ck_Question k, ck_transportTag k, ck_clientSubnet k, ck_environment k)) (λ '(a, b, c, d), mkCacheKey a b c d) _.
Next Obligation. by intros []. Qed.
Definition dnsExchangeKey : Type := dnsCacheKey * Z.

(** [adapter.DNSQueryOptions], without the transport. *)
Record DNSQueryOptions : Type := mkQueryOptions {
  qo_Strategy : DomainStrategy;
  qo_LookupStrategy : DomainStrategy;
  qo_DisableCache : bool;
  qo_DisableOptimisticCache : bool;
  qo_RewriteTTL : option Z;
  qo_Timeout : Z;
  qo_ClientSubnet : Prefix;
  qo_RemoveClientSubnet : bool
}.
Definition set_DisableCache (o : DNSQueryOptions) : DNSQueryOptions :=
  match o with mkQueryOptions a b _ d e f g h => mkQueryOptions a b true d e f g h end.

(** [adapter.DNSTransport], as far as the client looks at it; [Environment] is
    there for a [DNSTransportWithEnvironment]. *)
Record DNSTransport : Type := mkDNSTransport { tr_Tag : string; tr_Environment : option (list string) }.

(** What asking a transport gives: a message, a response code as an error, another error. *)
Inductive transportAnswer : Type :=
| Answered (response : Message)
| AnsweredRcode (rcode : Z)
| NotAnswered (e : goerr).

(** ** The caches *)

(** [freelru.Cache] of sing: entries with an optional expiry in nanoseconds.  The
    cache counts time in milliseconds: [lru_deadline] is the expiry it keeps of
    the one asked for. *)
Class LruCache : Type := {
  Lru : Type;
  lru_deadline : Z → Z;
  lru_get : dnsCacheKey → Lru → option (Message * option Z);
  lru_touch : dnsCacheKey → Lru → Lru;              (* a hit makes the entry recent *)
  lru_add : dnsCacheKey → Message → option Z → Lru → Lru;
  lru_remove : dnsCacheKey → Lru → Lru;
  lru_purge : Lru → Lru
}.

(** [adapter.DNSCacheStore] and [adapter.RDRCStore]. *)
Class DNSCacheStore : Type := {
  DnsStore : Type;
  store_Load : string → string → Z → DnsStore → option (list byte * Z) * DnsStore;
  store_SaveAsync : string → string → Z → list byte → Z → DnsStore → DnsStore;
  store_Clear : DnsStore → option goerr * DnsStore
}.
Class RDRCStore : Type := {
  RdrcStore : Type;
  rdrc_Load : string → string → Z → RdrcStore → bool * RdrcStore;
  rdrc_SaveAsync : string → string → Z → RdrcStore → RdrcStore
}.

(** Methods of [github.com/miekg/dns]: packing messages, and the EDNS record of
    a message ([msg.IsEdns0], [msg.SetEdns0] and the fields of [*dns.OPT]). *)
Class DnsCodec : Type := {
  Msg_Pack : Message → result (list byte);
  Msg_Unpack : list byte → result Message;
  Msg_IsEdns0 : Message → option DRR;
  Msg_SetEdns0 : Z → bool → Message → Message;
  OPT_Version : DRR → Z;
  OPT_UDPSize : DRR → Z;
  OPT_Do : DRR → bool
}.

Section client.
Context {EX : External} {LC : LruCache} {DS : DNSCacheStore} {RS : RDRCStore} {CO : DnsCodec}.

(** [Client]; times in nanoseconds. *)
Record Client : Type := mkClient {
  cl_timeout : Z;
  cl_disableCache : bool;
  cl_disableExpire : bool;
  cl_optimisticTimeout : Z;
  cl_clientSubnet : Prefix;
  cl_networkEnvironment : Z;             (* networkManager.NetworkEnvironment(), 0 without one *)
  cl_rdrc : option RdrcStore;
  cl_dnsCache : option DnsStore;
  cl_cache : option Lru;
  cl_cacheLock : gset dnsExchangeKey;
  cl_backgroundRefresh : gset dnsCacheKey
}.

Definition set_rdrc (v : option RdrcStore) (c : Client) : Client :=
  match c with mkClient a b d e f g _ i j k l => mkClient a b d e f g v i j k l end.
Definition set_dnsCache (v : option DnsStore) (c : Client) : Client :=
  match c with mkClient a b d e f g h _ j k l => mkClient a b d e f g h v j k l end.
Definition set_lru (v : option Lru) (c : Client) : Client :=
  match c with mkClient a b d e f g h i _ k l => mkClient a b d e f g h i v k l end.
Definition set_cacheLock (v : gset dnsExchangeKey) (c : Client) : Client :=
  match c with mkClient a b d e f g h i j _ l => mkClient a b d e f g h i j v l end.
Definition set_backgroundRefresh (v : gset dnsCacheKey) (c : Client) : Client :=
  match c with mkClient a b d e f g h i j k _ => mkClient a b d e f g h i j k v end.

(** ** Keys *)

(** [strconv.FormatUint(n, 36)]. *)
Definition digit36 (d : Z) : ascii := ascii_of_N (Z.to_N (if d <? 10 then 48 + d else 87 + d)).
Fixpoint format36 (fuel : nat) (n : Z) (acc : string) : string :=
  match fuel with
  | O => acc
  | S fuel => let acc := String (digit36 (n mod 36)) acc in if n <? 36 then acc else format36 fuel (n / 36) acc
  end.

(** [func (k dnsCacheKey) persistentName() string]. *)
Definition persistentName (k : dnsCacheKey) : string :=
  let name := ck_transportTag k in
  let name := if Prefix_IsValid (ck_clientSubnet k)
    then String.append name (String (ascii_of_nat 0) (Prefix_String (ck_clientSubnet k))) else name in
  if ck_environment k =? 0 then name
  else String.append name (String (ascii_of_nat 1) (format36 13 (ck_environment k) EmptyString)).

(** [hash/fnv.New64a] over bytes. *)
Definition fnv64a_step (h : Z) (b : byte) : Z := (Z.lxor h (bz b) * 1099511628211) mod 2 ^ 64.
Definition fnv64a (bytes : list byte) : Z := fold_left fnv64a_step bytes 14695981039346656037.

(** [func (c *Client) environmentHash(transport) uint64]. *)
Definition environmentHash (transport : DNSTransport) (c : Client) : Z :=
  match tr_Environment transport with
  | None => 0
  | Some environment =>
      if nonempty environment
      then fnv64a (concat ((λ e, str_bytes e ++ [x00]) <$> environment) ++ put_be 8 (cl_networkEnvironment c))
      else cl_networkEnvironment c
  end.

(** [func (c *Client) newCacheKey(transport, question, message, options) dnsCacheKey]. *)
Definition newCacheKey (transport : DNSTransport) (question : Question) (message : Message) (o : DNSQueryOptions) (c : Client) : dnsCacheKey :=
  let subnet :=
    if qo_RemoveClientSubnet o then PrefixZero
    else if Prefix_IsValid (qo_ClientSubnet o) then qo_ClientSubnet o
    else if Prefix_IsValid (cl_clientSubnet c) then cl_clientSubnet c
    else clientSubnetFromMessage message in
  mkCacheKey question (tr_Tag transport) subnet (environmentHash transport c).

(** [func (c *Client) finishCacheKey(transport, key) (dnsCacheKey, bool)]: the
    key under the present environment, if the environment did not change. *)
Definition finishCacheKey (transport : DNSTransport) (key : dnsCacheKey) (c : Client) : option dnsCacheKey :=
  let environment := environmentHash transport c in
  if (environment =? ck_environment key) || (ck_environment key =? 0)
  then Some (mkCacheKey (ck_Question key) (ck_transportTag key) (ck_clientSubnet key) environment)
  else None.

(** ** Storing and loading *)

Definition second_ns : Z := 10 ^ 9.

(** [func (c *Client) storeCache(key, message, timeToLive)]. *)
Definition storeCache (now : Z) (key : dnsCacheKey) (message : Message) (timeToLive : Z) (c : Client) : Client :=
  if timeToLive =? 0 then c
  else
    match cl_dnsCache c with
    | Some d =>
        match Msg_Pack message with
        | Ok packed => set_dnsCache (Some (store_SaveAsync (persistentName key) (q_Name (ck_Question key)) (q_Qtype (ck_Question key))
            packed (now + second_ns * timeToLive) d)) c
        | _ => c
        end
    | None =>
        match cl_cache c with
        | None => c
        | Some l => set_lru (Some (lru_add key message (if cl_disableExpire c then None else Some (now + second_ns * timeToLive)) l)) c
        end
    end.

(** A loaded response: the message, its time to live and whether it is stale. *)
Definition loaded : Type := option (Message * Z * bool).

(** The decision on an entry that expires: fresh, stale within the optimistic
    timeout, or expired. *)
Definition serveEntry (now : Z) (response : Message) (expireAt : Z) (c : Client) : loaded :=
  if expireAt <? now then
    if (0 <? cl_optimisticTimeout c) && (now <? expireAt + cl_optimisticTimeout c)
    then Some (normalizeTTL 1 response, 0, true) else None
  else
    let nowTTL := Z.max ((expireAt - now) / second_ns) 0 in
    Some (normalizeTTL (nowTTL mod 2 ^ 32) response, nowTTL, false).

(** [func (c *Client) loadPersistentResponse(key)]. *)
Definition loadPersistentResponse (now : Z) (key : dnsCacheKey) (d : DnsStore) (c : Client) : loaded * Client :=
  let '(found, d) := store_Load (persistentName key) (q_Name (ck_Question key)) (q_Qtype (ck_Question key)) d in
  let c := set_dnsCache (Some d) c in
  match found with
  | None => (None, c)
  | Some (rawMessage, expireAt) =>
      match Msg_Unpack rawMessage with
      | Ok response => (if cl_disableExpire c then Some (response, 0, false) else serveEntry now response expireAt c, c)
      | _ => (None, c)
      end
  end.

(** [func (c *Client) loadResponse(key) ( *dns.Msg, int, bool)]. *)
Definition loadResponse (now : Z) (key : dnsCacheKey) (c : Client) : loaded * Client :=
  match cl_dnsCache c with
  | Some d => loadPersistentResponse now key d c
  | None =>
      match cl_cache c with
      | None => (None, c)
      | Some l =>
          match lru_get key l with
          | None => (None, c)
          | Some (response, expireAt) =>
              let c := set_lru (Some (lru_touch key l)) c in
              if cl_disableExpire c then (Some (response, 0, false), c)
              else
                match serveEntry now response (default 0 expireAt) c with
                | Some r => (Some r, c)
                | None => (None, set_lru (Some (lru_remove key (lru_touch key l))) c)
                end
          end
      end
  end.

(** [func (c *Client) ClearCache()]. *)
Definition ClearCache (c : Client) : Client :=
  let c := set_lru (lru_purge <$> cl_cache c) c in
  set_dnsCache ((λ d, (store_Clear d).2) <$> cl_dnsCache c) c.

(** ** Exchanging *)

(** [func (c *Client) prepareExchangeMessage(message, options)]. *)
Definition prepareExchangeMessage (message : Message) (o : DNSQueryOptions) (c : Client) : Message :=
  if qo_RemoveClientSubnet o then removeClientSubnet message
  else
    let subnet := if Prefix_IsValid (qo_ClientSubnet o) then qo_ClientSubnet o else cl_clientSubnet c in
    if Prefix_IsValid subnet then SetClientSubnet message subnet else message.

(** [isSimpleRequest] of [beginExchange]; the type assertion panics on a record
    of type OPT that is not one. *)
Definition isSimpleRequest (message : Message) : result bool :=
  if negb (len (Question_ message) =? 1) || nonempty (Ns message) then Ok false
  else
    match Extra message with
    | [] => Ok true
    | [r] =>
        if negb (Rrtype r =? TypeOPT) || negb (0 <? h_Class (rr_Hdr r)) || negb (Ttl r =? 0) then Ok false
        else match as_OPT r with
          | Some o => Ok (forallb (λ it, EDNS0_Option it =? EDNS0SUBNET) o)
          | None => Panic "interface conversion"
          end
    | _ => Ok false
    end.

(** [exchangeOperation]: what [finishExchange] needs. *)
Record exchangeOperation : Type := mkOperation {
  op_message : Message;
  op_question : Question;
  op_messageId : Z;
  op_options : DNSQueryOptions;
  op_disableCache : bool;
  op_cacheKey : option dnsCacheKey;
  op_lock : option dnsExchangeKey         (* releaseCond *)
}.

(** The arguments of [backgroundRefreshDNS]: key, message and options. *)
Definition refreshRequest : Type := dnsCacheKey * Message * DNSQueryOptions.

(** [exchangeStatus] with what comes along; a stale hit also asks for a refresh. *)
Inductive beginning : Type :=
| ExchangeDone (response : result Message) (refresh : option refreshRequest)
| ExchangeWait (operation : exchangeOperation)
| ExchangeReady (operation : exchangeOperation).

(** [func (o *exchangeOperation) release()]. *)
Definition release (op : exchangeOperation) (c : Client) : Client :=
  match op_lock op with Some k => set_cacheLock (cl_cacheLock c ∖ {[k]}) c | None => c end.

Definition ErrResponseRejected : goerr := ErrNew "response rejected".
Definition ErrResponseRejectedCached : goerr := ErrExtend ErrResponseRejected "cached".

(** A response checker, if there is one. *)
Definition checker : Type := option (Message → bool).
Definition accepts (ch : checker) (m : Message) : bool := match ch with Some f => f m | None => true end.

(** One look into the cache in the loop of [beginExchange]. *)
Definition lookInCache (now : Z) (op : exchangeOperation) (key : dnsCacheKey) (ch : checker) (c : Client) : option beginning * Client :=
  let '(l, c) := loadResponse now key c in
  match l with
  | Some (response, _, isStale) =>
      if negb isStale || negb (qo_DisableOptimisticCache (op_options op)) then
        let c := release op c in
        let refresh := if (isStale : bool) then Some (key, op_message op, op_options op) else None in
        (Some (ExchangeDone (if accepts ch response then Ok (set_Id (Id (op_message op)) response) else Err ErrResponseRejectedCached) refresh), c)
      else (None, c)
  | None => (None, c)
  end.

(** The rest of [beginExchange]: loopback and rejected responses. *)
Definition beforeAsking (transport : DNSTransport) (contextTransport : option string) (op : exchangeOperation) (ch : checker) (c : Client)
    : beginning * Client :=
  if bool_decide (contextTransport = Some (tr_Tag transport))
  then (ExchangeDone (Err (ErrNew (String.append "DNS query loopback in transport[" (String.append (tr_Tag transport) "]")))) None, release op c)
  else
    match ch, cl_rdrc c with
    | Some _, Some r =>
        if op_disableCache op then (ExchangeReady op, c)
        else
          let '(rejected, r) := rdrc_Load (tr_Tag transport) (q_Name (op_question op)) (q_Qtype (op_question op)) r in
          let c := set_rdrc (Some r) c in
          if (rejected : bool) then (ExchangeDone (Err ErrResponseRejectedCached) None, release op c) else (ExchangeReady op, c)
    | _, _ => (ExchangeReady op, c)
    end.

(** [func (c *Client) beginExchange(ctx, transport, message, options, responseChecker, allowWait)]
    up to the wait for another exchange; [fresh] is the trace's request to leave
    the cache alone. *)
Definition beginExchange (now : Z) (ctxErr : option goerr) (fresh : bool) (contextTransport : option string) (transport : DNSTransport)
    (message : Message) (o : DNSQueryOptions) (ch : checker) (c : Client) : result (beginning * Client) :=
  match ctxErr with
  | Some e => Ok (ExchangeDone (Err e) None, c)
  | None =>
      match Question_ message with
      | [] => Ok (ExchangeDone (Ok (FixedResponseStatus message RcodeFormatError)) None, c)
      | question :: _ =>
          if (q_Qtype question =? TypeA) && bool_decide (qo_Strategy o = IPv6Only)
             || (q_Qtype question =? TypeAAAA) && bool_decide (qo_Strategy o = IPv4Only)
          then Ok (ExchangeDone (Ok (FixedResponseStatus message RcodeSuccess)) None, c)
          else
            simple ← isSimpleRequest message;
            let message := prepareExchangeMessage message o c in
            let o := if negb (qo_DisableCache o) && fresh then set_DisableCache o else o in
            let disableCache := negb simple || cl_disableCache c || qo_DisableCache o in
            if disableCache
            then Ok (beforeAsking transport contextTransport (mkOperation message question (Id message) o true None None) ch c)
            else
              let key := newCacheKey transport question message o c in
              let exchangeKey := (key, qo_Timeout o) in
              let locked := bool_decide (exchangeKey ∈ cl_cacheLock c) in
              let op := mkOperation message question (Id message) o false (Some key) (if locked then None else Some exchangeKey) in
              let c := if locked then c else set_cacheLock ({[exchangeKey]} ∪ cl_cacheLock c) c in
              let '(hit, c) := lookInCache now op key ch c in
              match hit with
              | Some done => Ok (done, c)
              | None => if locked then Ok (ExchangeWait op, c) else Ok (beforeAsking transport contextTransport op ch c)
              end
      end
  end.

(** The loop of [beginExchange] after the wait: the key is made anew and the
    cache looked at once more. *)
Definition afterWait (now : Z) (ctxErr : option goerr) (contextTransport : option string) (transport : DNSTransport)
    (op : exchangeOperation) (ch : checker) (c : Client) : beginning * Client :=
  match ctxErr with
  | Some e => (ExchangeDone (Err e) None, c)
  | None =>
      let key := newCacheKey transport (op_question op) (op_message op) (op_options op) c in
      let op := mkOperation (op_message op) (op_question op) (op_messageId op) (op_options op) (op_disableCache op) (Some key) (op_lock op) in
      let '(hit, c) := lookInCache now op key ch c in
      match hit with Some done => (done, c) | None => beforeAsking transport contextTransport op ch c end
  end.

(** The records of an HTTPS answer without the hints of the other family. *)
Definition keepHint (s : DomainStrategy) (v : SVCBValue) : bool :=
  match s, v with
  | IPv4Only, SVCBIPv6Hint _ => false
  | IPv6Only, SVCBIPv4Hint _ => false
  | _, _ => true
  end.
Definition filterHints (s : DomainStrategy) (r : DRR) : DRR :=
  match rr_Data r with
  | D_HTTPS priority target value => mkDRR (rr_Hdr r) (D_HTTPS priority target (filter (λ v, keepHint s v = true) value))
  | _ => r
  end.

(** [func applyResponseOptions(question, response, options) uint32]: the
    response as it is rewritten, and its time to live. *)
Definition applyResponseOptions (question : Question) (response : Message) (o : DNSQueryOptions) : Message * Z :=
  let only := bool_decide (qo_Strategy o = IPv4Only) || bool_decide (qo_Strategy o = IPv6Only) in
  let response := if (q_Qtype question =? TypeHTTPS) && only
    then set_Answer (filterHints (qo_Strategy o) <$> Answer response) response else response in
  let timeToLive := default (computeTimeToLive response) (qo_RewriteTTL o) in
  (normalizeTTL timeToLive response, timeToLive).

(** The EDNS part of [finishExchange]. *)
Definition matchEdns (request response : Message) : Message :=
  match Msg_IsEdns0 response with
  | None => response
  | Some ro =>
      let without := set_Extra (filter (λ it, Rrtype it ≠ TypeOPT) (Extra response)) response in
      match Msg_IsEdns0 request with
      | None => without
      | Some qo => if OPT_Version qo <? OPT_Version ro then Msg_SetEdns0 (OPT_UDPSize ro) (OPT_Do ro) without else response
      end
  end.

Definition cacheable (rcode : Z) : bool := (rcode =? RcodeSuccess) || (rcode =? RcodeNameError).

(** [func (c *Client) finishExchange(transport, operation, response) ( *dns.Msg, error)];
    a rejected response is returned with the error. *)
Definition finishExchange (now : Z) (transport : DNSTransport) (op : exchangeOperation) (response : Message) (ch : checker) (c : Client)
    : option Message * option goerr * Client :=
  let question := op_question op in
  let disableCache := op_disableCache op || negb (cacheable (Rcode response)) in
  let rejected := match ch with
    | Some f => if negb (cacheable (Rcode response)) then true else negb (f response)
    | None => false end in
  if rejected then
    let c := match cl_rdrc c with
      | Some r => if negb disableCache then set_rdrc (Some (rdrc_SaveAsync (tr_Tag transport) (q_Name question) (q_Qtype question) r)) c else c
      | None => c end in
    (Some response, Some ErrResponseRejected, c)
  else
    let '(response, timeToLive) := applyResponseOptions question response (op_options op) in
    let c :=
      match op_cacheKey op with
      | Some key =>
          if disableCache then c
          else match finishCacheKey transport key c with
            | Some key => storeCache now key response timeToLive c
            | None => c
            end
      | None => c
      end in
    (Some (matchEdns (op_message op) (set_Id (op_messageId op) response)), None, c).

(** [func (c *Client) exchangeToTransport(ctx, transport, message) ( *dns.Msg, error)]. *)
Definition exchangeToTransport (message : Message) (answer : transportAnswer) : Message + goerr :=
  match answer with
  | Answered response => inl (stripDNSPadding response)
  | AnsweredRcode rcode => inl (FixedResponseStatus message rcode)
  | NotAnswered e => inr e
  end.

(** [Exchange] and [ExchangeAsync] once the transport has answered. *)
Definition endExchange (now : Z) (transport : DNSTransport) (op : exchangeOperation) (answer : transportAnswer) (ch : checker) (c : Client)
    : option Message * option goerr * Client :=
  match exchangeToTransport (op_message op) answer with
  | inl response => let '(r, c) := finishExchange now transport op response ch c in (r, release op c)
  | inr e => (None, Some e, release op c)
  end.

(** [func (c *Client) backgroundRefreshDNS(...)]: the start of the goroutine, if
    none runs for the key, and its end. *)
Definition beginRefresh (key : dnsCacheKey) (c : Client) : bool * Client :=
  if bool_decide (key ∈ cl_backgroundRefresh c) then (false, c)
  else (true, set_backgroundRefresh ({[key]} ∪ cl_backgroundRefresh c) c).
Definition endRefresh (now : Z) (transport : DNSTransport) (key : dnsCacheKey) (message : Message) (o : DNSQueryOptions)
    (answer : transportAnswer) (ch : checker) (c : Client) : Client :=
  let c := set_backgroundRefresh (cl_backgroundRefresh c ∖ {[key]}) c in
  match exchangeToTransport message answer with
  | inl response =>
      let question := ck_Question key in
      let store (c : Client) :=
        match finishCacheKey transport key c with
        | Some storeKey =>
            let '(response, timeToLive) := applyResponseOptions question response o in
            storeCache now storeKey response timeToLive c
        | None => c
        end in
      match ch with
      | Some f =>
          if negb (cacheable (Rcode response)) || negb (f response) then
            match cl_rdrc c with
            | Some r => set_rdrc (Some (rdrc_SaveAsync (tr_Tag transport) (q_Name question) (q_Qtype question) r)) c
            | None => c
            end
          else store c
      | None => if cacheable (Rcode response) then store c else c
      end
  | inr _ => c
  end.

(** ** Looking up addresses *)

(** [func (c *Client) questionCache(...)]: the addresses of a cached response, [None] for [ErrNotCached]. *)
Definition questionCache (now : Z) (transport : DNSTransport) (message : Message) (o : DNSQueryOptions) (ch : checker) (c : Client)
    : option (result (list Addr)) * option refreshRequest * Client :=
  match Question_ message with
  | [] => (Some (Panic "index out of range"), None, c)
  | question :: _ =>
      let key := newCacheKey transport question message o c in
      let '(l, c) := loadResponse now key c in
      match l with
      | None => (None, None, c)
      | Some (response, _, isStale) =>
          if (isStale : bool) && qo_DisableOptimisticCache o then (None, None, c)
          else
            let refresh := if (isStale : bool) then Some (key, prepareExchangeMessage message o c, o) else None in
            let r :=
              if negb (accepts ch response) then Err ErrResponseRejectedCached
              else if negb (Rcode response =? RcodeSuccess) then Err (ErrExternal (dns_RcodeToString (Rcode response)))
              else Ok (DNSResponseAddresses (Some (view_msg response))) in
            (Some r, refresh, c)
      end
  end.

(** The query [lookupToExchange] makes. *)
Definition lookupMessage (name : string) (qType : Z) : Message :=
  mkMessage 0 false false false true false 0 [mkQuestion name qType ClassINET] [] [] [].

(** [func sortAddresses(response4, response6, strategy) []netip.Addr]. *)
Definition sortAddresses (response4 response6 : list Addr) (strategy : DomainStrategy) : list Addr :=
  if bool_decide (strategy = PreferIPv6) then response6 ++ response4 else response4 ++ response6.

(** The end of [Lookup]: the strategy it uses and what it makes of the two answers. *)
Definition lookupStrategy (o : DNSQueryOptions) : DomainStrategy :=
  if bool_decide (qo_LookupStrategy o = AsIS) then qo_Strategy o else qo_LookupStrategy o.
Definition joinLookups (r4 r6 : result (list Addr)) (err : goerr) (strategy : DomainStrategy) : result (list Addr) :=
  let a4 := match r4 with Ok a => a | _ => [] end in
  let a6 := match r6 with Ok a => a | _ => [] end in
  match a4, a6 with
  | [], [] => match r4, r6 with Ok _, Ok _ => Ok [] | _, _ => Err err end
  | _, _ => Ok (sortAddresses a4 a6 strategy)
  end.
End client.
