(* ===== verification/DnsClientTheorems.v ===== *)
(** Theorems about the DNS client: what the memory cache serves was given by the
    transport for the same question, and is served while it lives. *)

From Stdlib Require Import ssreflect.
From S2P Require Import Prelude GoBytes GoSlices GoStrings Netip Metadata DnsMessage DnsClient Concrete.

(** What the client relies on of the LRU cache: an entry is the one last added
    under its key, the entry just added is there, and its expiry is the one asked
    for to the millisecond. *)
Class LruLaws (LC : LruCache) : Prop := {
  lru_added k m e l : lru_get k (lru_add k m e l) = Some (m, lru_deadline <$> e);
  lru_add_other k k' m e l x : k' ≠ k → lru_get k' (lru_add k m e l) = Some x → lru_get k' l = Some x;
  lru_touched k k' l : lru_get k' (lru_touch k l) = lru_get k' l;
  lru_removed k k' l x : lru_get k' (lru_remove k l) = Some x → lru_get k' l = Some x;
  lru_purged k l : lru_get k (lru_purge l) = None;
  lru_rounds e : e - 10 ^ 6 < lru_deadline e ≤ e
}.

Section client.
Context {EX : External} {LC : LruCache} {LL : LruLaws LC} {DS : DNSCacheStore} {RS : RDRCStore} {CO : DnsCodec}.

(** ** Runs of a client *)

(** What was asked and may be stored: when it was answered and how, by which
    transport, to which message, on which client. *)
Record event : Type := mkEvent {
  ev_now : Z;
  ev_transport : DNSTransport;
  ev_key : dnsCacheKey;
  ev_message : Message;
  ev_options : DNSQueryOptions;
  ev_answer : transportAnswer;
  ev_checker : checker;
  ev_client : Client
}.

(** Exchanges in flight and background refreshes. *)
Definition flight : Type := DNSTransport * checker * exchangeOperation.
Definition refreshing : Type := DNSTransport * checker * refreshRequest.

(** A client with the exchanges that wait for another one, the exchanges whose
    transport is being asked, the refreshes, and what has been answered. *)
Record run : Type := mkRun {
  ru_client : Client;
  ru_waiting : list flight;
  ru_asking : list flight;
  ru_refreshes : list refreshing;
  ru_history : list event
}.

(** The goroutine of a refresh, if one is asked for and none runs. *)
Definition add_refresh (tr : DNSTransport) (ch : checker) (refresh : option refreshRequest) (r : run) : run :=
  match refresh with
  | None => r
  | Some q =>
      let '(started, c) := beginRefresh q.1.1 (ru_client r) in
      mkRun c (ru_waiting r) (ru_asking r) (if started then (tr, ch, q) :: ru_refreshes r else ru_refreshes r) (ru_history r)
  end.

(** What the beginning of an exchange leaves. *)
Definition add_beginning (tr : DNSTransport) (ch : checker) (b : beginning) (r : run) : run :=
  match b with
  | ExchangeDone _ refresh => add_refresh tr ch refresh r
  | ExchangeWait op => mkRun (ru_client r) ((tr, ch, op) :: ru_waiting r) (ru_asking r) (ru_refreshes r) (ru_history r)
  | ExchangeReady op => mkRun (ru_client r) (ru_waiting r) ((tr, ch, op) :: ru_asking r) (ru_refreshes r) (ru_history r)
  end.

Definition with_client (c : Client) (r : run) : run := mkRun c (ru_waiting r) (ru_asking r) (ru_refreshes r) (ru_history r).
Definition set_environment (env : Z) (c : Client) : Client :=
  match c with mkClient a b d e f _ h i j k l => mkClient a b d e f env h i j k l end.

(** The event of an exchange that may be stored. *)
Definition ended (now : Z) (tr : DNSTransport) (op : exchangeOperation) (answer : transportAnswer) (ch : checker) (c : Client) : list event :=
  match op_cacheKey op with
  | Some key => if op_disableCache op then [] else [mkEvent now tr key (op_message op) (op_options op) answer ch c]
  | None => []
  end.

(** The steps: a query begins, a waiting query goes on, the transport answers a
    query or a refresh, addresses are looked up in the cache, the cache is
    cleared, the network changes. *)
Inductive client_step : run → run → Prop :=
| step_begin now ctxErr fresh contextTransport tr message o ch b c r :
    beginExchange now ctxErr fresh contextTransport tr message o ch (ru_client r) = Ok (b, c) →
    client_step r (add_beginning tr ch b (with_client c r))
| step_resume now ctxErr contextTransport tr ch op b c l1 l2 r :
    ru_waiting r = l1 ++ (tr, ch, op) :: l2 →
    afterWait now ctxErr contextTransport tr op ch (ru_client r) = (b, c) →
    client_step r (add_beginning tr ch b (mkRun c (l1 ++ l2) (ru_asking r) (ru_refreshes r) (ru_history r)))
| step_answer now tr ch op answer l1 l2 r :
    ru_asking r = l1 ++ (tr, ch, op) :: l2 →
    client_step r (mkRun (endExchange now tr op answer ch (ru_client r)).2 (ru_waiting r) (l1 ++ l2) (ru_refreshes r)
      (ended now tr op answer ch (ru_client r) ++ ru_history r))
| step_refresh now tr ch key message o answer l1 l2 r :
    ru_refreshes r = l1 ++ (tr, ch, (key, message, o)) :: l2 →
    client_step r (mkRun (endRefresh now tr key message o answer ch (ru_client r)) (ru_waiting r) (ru_asking r) (l1 ++ l2)
      (mkEvent now tr key message o answer ch (ru_client r) :: ru_history r))
| step_look now tr message o ch x refresh c r :
    questionCache now tr message o ch (ru_client r) = (x, refresh, c) →
    client_step r (add_refresh tr ch refresh (with_client c r))
| step_clear r : client_step r (with_client (ClearCache (ru_client r)) r)
| step_network env r : client_step r (with_client (set_environment env (ru_client r)) r).

(** A client after [Start], with a memory cache and nothing in it. *)
Definition fresh_run (r : run) : Prop :=
  cl_dnsCache (ru_client r) = None ∧ (∀ l k, cl_cache (ru_client r) = Some l → lru_get k l = None) ∧
  cl_cacheLock (ru_client r) = ∅ ∧ cl_backgroundRefresh (ru_client r) = ∅ ∧
  ru_waiting r = [] ∧ ru_asking r = [] ∧ ru_refreshes r = [] ∧ ru_history r = [].

(** ** What an event puts into the cache *)

Definition asked (q : Question) (m : Message) : Prop := head (Question_ m) = Some q.

(** The answer of the event is accepted and leaves [m] under [k] for [ttl] seconds. *)
Definition gave (ev : event) (k : dnsCacheKey) (m : Message) (ttl : Z) : Prop :=
  ∃ raw, exchangeToTransport (ev_message ev) (ev_answer ev) = inl raw ∧
    cacheable (Rcode raw) = true ∧ accepts (ev_checker ev) raw = true ∧
    finishCacheKey (ev_transport ev) (ev_key ev) (ev_client ev) = Some k ∧
    applyResponseOptions (ck_Question (ev_key ev)) raw (ev_options ev) = (m, ttl) ∧ ttl ≠ 0.

(** The expiry of what the event left. *)
Definition expiry (ev : event) (ttl : Z) : Z := lru_deadline (ev_now ev + second_ns * ttl).

(** The event asked the question of its key, at the transport of its key. *)
Definition event_ok (c : Client) (ev : event) : Prop :=
  asked (ck_Question (ev_key ev)) (ev_message ev) ∧ ck_transportTag (ev_key ev) = tr_Tag (ev_transport ev) ∧
  cl_disableExpire (ev_client ev) = cl_disableExpire c.

Definition flight_ok (f : flight) : Prop :=
  asked (op_question f.2) (op_message f.2) ∧
  ∀ key, op_cacheKey f.2 = Some key → ck_Question key = op_question f.2 ∧ ck_transportTag key = tr_Tag f.1.1.
Definition refresh_ok (q : refreshing) : Prop :=
  asked (ck_Question q.2.1.1) q.2.1.2 ∧ ck_transportTag q.2.1.1 = tr_Tag q.1.1.

(** What the cache holds was given. *)
Definition cache_given (c : Client) (h : list event) : Prop :=
  ∀ l k m e, cl_cache c = Some l → lru_get k l = Some (m, e) →
    ∃ ev ttl, ev ∈ h ∧ gave ev k m ttl ∧ e = if cl_disableExpire c then None else Some (expiry ev ttl).

(** The locks held by exchanges and the keys being refreshed. *)
Definition held (l : list flight) : list dnsExchangeKey := omap (λ f, op_lock f.2) l.
Definition refreshed (l : list refreshing) : list dnsCacheKey := (λ q, q.2.1.1) <$> l.
#[global] Arguments held : simpl never.
#[global] Arguments refreshed : simpl never.

Record run_ok (r : run) : Prop := mkRunOk {
  ro_memory : cl_dnsCache (ru_client r) = None;
  ro_given : cache_given (ru_client r) (ru_history r);
  ro_events : Forall (event_ok (ru_client r)) (ru_history r);
  ro_waiting : Forall flight_ok (ru_waiting r);
  ro_unlocked : held (ru_waiting r) = [];
  ro_asking : Forall flight_ok (ru_asking r);
  ro_refreshes : Forall refresh_ok (ru_refreshes r);
  ro_locks : cl_cacheLock (ru_client r) = list_to_set (held (ru_asking r));
  ro_lock_once : NoDup (held (ru_asking r));
  ro_background : cl_backgroundRefresh (ru_client r) = list_to_set (refreshed (ru_refreshes r));
  ro_background_once : NoDup (refreshed (ru_refreshes r))
}.

(** ** What the parts of an exchange leave alone *)

(** The cache of [c'] holds nothing [c] did not hold. *)
Record keeps (c c' : Client) : Prop := mkKeeps {
  kp_memory : cl_dnsCache c = None → cl_dnsCache c' = None;
  kp_expire : cl_disableExpire c' = cl_disableExpire c;
  kp_entries l' k x : cl_cache c' = Some l' → lru_get k l' = Some x → ∃ l, cl_cache c = Some l ∧ lru_get k l = Some x
}.

#[local] Instance keeps_preorder : PreOrder keeps.
Proof.
  split.
  - intros c; split; eauto.
  - intros c1 c2 c3 [H1 H2 H3] [H4 H5 H6]; split; [by auto|congruence|].
    intros l' k x Hl Hx. destruct (H6 _ _ _ Hl Hx) as (l & Hl2 & Hx2). eauto.
Qed.

(** A client that differs elsewhere only. *)
Lemma keeps_same c c' :
  cl_dnsCache c' = cl_dnsCache c → cl_disableExpire c' = cl_disableExpire c → cl_cache c' = cl_cache c → keeps c c'.
Proof. intros H1 H2 H3; split; [congruence|done|]. intros l' k x; rewrite H3; eauto. Qed.

Lemma keeps_given c c' h : keeps c c' → cache_given c h → cache_given c' h.
Proof.
  intros [_ He Hk] Hg l k m e Hl Hm. rewrite He.
  destruct (Hk _ _ _ Hl Hm) as (l0 & Hl0 & Hm0). eauto.
Qed.

Lemma events_expire c c' h : cl_disableExpire c' = cl_disableExpire c → Forall (event_ok c) h → Forall (event_ok c') h.
Proof. intros He Hf. eapply Forall_impl; [exact Hf|]. intros ev (H1 & H2 & H3). by rewrite /event_ok He. Qed.

Lemma release_keeps op c : keeps c (release op c).
Proof. rewrite /release. destruct (op_lock op), c; by apply keeps_same. Qed.

(** [release] takes the lock of the exchange from the table. *)
Lemma release_locks op c :
  cl_cacheLock (release op c) = cl_cacheLock c ∖ list_to_set (option_list (op_lock op)) ∧
  cl_backgroundRefresh (release op c) = cl_backgroundRefresh c.
Proof. rewrite /release. destruct (op_lock op), c; cbn; split; set_solver. Qed.

(** Loading a response changes neither locks nor refreshes; what it loads was there. *)
Lemma loadResponse_keeps now k c x c' :
  loadResponse now k c = (x, c') →
  keeps c c' ∧ cl_cacheLock c' = cl_cacheLock c ∧ cl_backgroundRefresh c' = cl_backgroundRefresh c.
Proof.
  rewrite /loadResponse /loadPersistentResponse.
  destruct (cl_dnsCache c) as [d|] eqn:Hd.
  { destruct (store_Load _ _ _ d) as [found d']. intros Heq.
    assert (c' = set_dnsCache (Some d') c) as -> by (repeat case_match; by simplify_eq).
    destruct c; simplify_eq/=. split_and!; [split; [done|done|eauto]|done|done]. }
  destruct (cl_cache c) as [l|] eqn:Hl; [|by intros [= <- <-]].
  destruct (lru_get k l) as [[m e]|] eqn:Hg; [|by intros [= <- <-]].
  intros Heq.
  assert (c' = set_lru (Some (lru_touch k l)) c ∨ c' = set_lru (Some (lru_remove k (lru_touch k l))) c) as [-> | ->]
    by (cbn zeta in Heq; case_match; [simplify_eq; by left|]; case_match; simplify_eq; [by left|right; by destruct c]);
    destruct c; simplify_eq/=; (split_and!; [split; [done|done|]|done|done]); intros ? k' y [= <-].
  - rewrite lru_touched. eauto.
  - intros Hy%lru_removed. rewrite lru_touched in Hy. eauto.
Qed.

(** How an entry is served: as it is when entries do not expire, with the
    remaining seconds while it lives, with one second while it is stale. *)
Definition served (now : Z) (c : Client) (m0 : Message) (t : Z) (m : Message) (stale : bool) : Prop :=
  if cl_disableExpire c then m = m0 ∧ stale = false
  else (now ≤ t ∧ m = normalizeTTL ((t - now) / second_ns mod 2 ^ 32) m0 ∧ stale = false) ∨
       (t < now < t + cl_optimisticTimeout c ∧ m = normalizeTTL 1 m0 ∧ stale = true).

Lemma loadResponse_served now k c m ttl stale c' :
  cl_dnsCache c = None → loadResponse now k c = (Some (m, ttl, stale), c') →
  ∃ l m0 e, cl_cache c = Some l ∧ lru_get k l = Some (m0, e) ∧ served now c m0 (default 0 e) m stale.
Proof.
  intros Hn. rewrite /loadResponse Hn.
  destruct (cl_cache c) as [l|] eqn:Hl; [|done].
  destruct (lru_get k l) as [[m0 e]|] eqn:Hg; [|done]. intros Heq.
  exists l, m0, e. split_and!; [done|done|].
  rewrite /served. destruct c; cbn -[serveEntry second_ns] in *. case_match; [by simplify_eq|].
  rewrite /serveEntry in Heq; cbn -[andb Z.ltb second_ns] in Heq.
  destruct (default 0 e <? now) eqn:Hlt.
  - right. case_match; [|done]. case_match; [|done]. simplify_eq. split_and!; [lia|lia|done|done].
  - left. assert (0 ≤ (default 0 e - now) / second_ns) as Hd by (apply Z.div_pos; rewrite /second_ns; lia).
    rewrite (Z.max_l _ _ Hd) in Heq. simplify_eq. split_and!; [lia|done|done].
Qed.

(** ** Beginning an exchange *)

(** An answer out of the cache for [op]. *)
Definition from_cache (now : Z) (c : Client) (k : dnsCacheKey) (op : exchangeOperation) (ch : checker) (m : Message) (refresh : option refreshRequest) : Prop :=
  ∃ l m0 e m1, cl_cache c = Some l ∧ lru_get k l = Some (m0, e) ∧
    served now c m0 (default 0 e) m1 (bool_decide (is_Some refresh)) ∧
    accepts ch m1 = true ∧ m = set_Id (Id (op_message op)) m1.

(** The end of [beginExchange] for [op]: it is ready and keeps its lock, or done
    and has given it back; an answer is one out of the cache. *)
Definition begun (now : Z) (c : Client) (op : exchangeOperation) (ch : checker) (b : beginning) (c' : Client) : Prop :=
  keeps c c' ∧ cl_backgroundRefresh c' = cl_backgroundRefresh c ∧
  match b with
  | ExchangeReady op' => op' = op ∧ cl_cacheLock c' = cl_cacheLock c
  | ExchangeDone x refresh =>
      cl_cacheLock c' = cl_cacheLock (release op c) ∧
      (∀ q, refresh = Some q → op_cacheKey op = Some q.1.1 ∧ q.1.2 = op_message op) ∧
      ∀ m, x = Ok m → ∃ k, op_cacheKey op = Some k ∧ (cl_dnsCache c = None → from_cache now c k op ch m refresh)
  | ExchangeWait _ => False
  end.

Lemma lookInCache_begun now op k ch c hit c' :
  op_cacheKey op = Some k → lookInCache now op k ch c = (hit, c') →
  match hit with
  | Some b => (∃ x refresh, b = ExchangeDone x refresh) ∧ begun now c op ch b c'
  | None => keeps c c' ∧ cl_cacheLock c' = cl_cacheLock c ∧ cl_backgroundRefresh c' = cl_backgroundRefresh c
  end.
Proof.
  intros Hk. rewrite /lookInCache.
  destruct (loadResponse now k c) as [x c1] eqn:Hload.
  destruct (loadResponse_keeps _ _ _ _ _ Hload) as (Hc1 & Hlk & Hbg).
  destruct x as [[[m ttl] stale]|]; [|by intros [= <- <-]].
  case_match; [|by intros [= <- <-]]. intros [= <- <-]. split; [eauto|].
  destruct (release_locks op c1) as [Hr1 Hr2]. destruct (release_locks op c) as [Hr3 Hr4].
  split_and!; [by etrans; [|apply release_keeps]|by rewrite Hr2|by rewrite Hr1 Hr3 Hlk| |].
  - intros q. case_match; [|done]. by intros [= <-].
  - intros m'. destruct (accepts ch m) eqn:Hacc; [|done]. intros [= <-]. exists k. split; [done|]. intros Hn.
    destruct (loadResponse_served _ _ _ _ _ _ _ Hn Hload) as (l & m0 & e & Hl & Hm0 & Hs).
    exists l, m0, e, m. split_and!; [done|done| |done|done].
    by destruct stale.
Qed.

Lemma beforeAsking_begun now tr ct op ch c0 c b c' :
  keeps c0 c → cl_cacheLock c = cl_cacheLock c0 → cl_backgroundRefresh c = cl_backgroundRefresh c0 →
  beforeAsking tr ct op ch c = (b, c') → begun now c0 op ch b c'.
Proof.
  intros Hk Hl Hb.
  assert (∀ r, begun now c0 op ch (ExchangeReady op) (set_rdrc r c)) as Hready.
  { intros r. split_and!; [etrans; [exact Hk|]|..]; destruct c; [by apply keeps_same|done|done|done]. }
  assert (∀ r e, begun now c0 op ch (ExchangeDone (Err e) None) (release op (set_rdrc r c))) as Hdone.
  { intros r e. destruct (Hready r) as (H1 & H2 & _ & H3).
    split_and!; [etrans; [exact H1|apply release_keeps]| |by rewrite !(proj1 (release_locks _ _)) H3|done|done].
    by rewrite (proj2 (release_locks _ _)). }
  assert (c = set_rdrc (cl_rdrc c) c) as Hc by by destruct c.
  rewrite /beforeAsking. repeat case_match; intros; simplify_eq; first [apply Hready|apply Hdone|rewrite Hc; first [apply Hready|apply Hdone]].
Qed.

(** Looking into the cache and then getting ready. *)
Lemma look_then_ask now op k ch c hit c1 tr ct b c' :
  op_cacheKey op = Some k → lookInCache now op k ch c = (hit, c1) →
  match hit with Some done => (done, c1) | None => beforeAsking tr ct op ch c1 end = (b, c') →
  begun now c op ch b c'.
Proof.
  intros Hk Hlook. pose proof (lookInCache_begun _ _ _ _ _ _ _ Hk Hlook) as Hb.
  destruct hit as [b'|]; [intros [= <- <-]; apply Hb|]. destruct Hb as (H1 & H2 & H3).
  by apply beforeAsking_begun.
Qed.

Lemma prepare_same message o c :
  Question_ (prepareExchangeMessage message o c) = Question_ message ∧ Id (prepareExchangeMessage message o c) = Id message.
Proof.
  rewrite /prepareExchangeMessage /removeClientSubnet /SetClientSubnet. destruct message.
  repeat case_match; done.
Qed.

(** The answers [beginExchange] gives without a transport or a cache. *)
Definition strategyRejects (q : Question) (o : DNSQueryOptions) : bool :=
  (q_Qtype q =? TypeA) && bool_decide (qo_Strategy o = IPv6Only) || (q_Qtype q =? TypeAAAA) && bool_decide (qo_Strategy o = IPv4Only).

(** The exchange [beginExchange] makes of a message. *)
Definition operation_of (tr : DNSTransport) (message : Message) (o : DNSQueryOptions) (c : Client) (op : exchangeOperation) : Prop :=
  asked (op_question op) message ∧ op_message op = prepareExchangeMessage message o c ∧ strategyRejects (op_question op) o = false ∧
  ∀ key, op_cacheKey op = Some key → key = newCacheKey tr (op_question op) (op_message op) o c.

Lemma operation_flight tr message o c op ch : operation_of tr message o c op → flight_ok (tr, ch, op).
Proof.
  intros (Hq & Hm & _ & Hk). split; cbn.
  - by rewrite /asked Hm (proj1 (prepare_same _ _ _)).
  - by intros key ->%Hk.
Qed.

(** The three outcomes: an answer at once, an exchange that waits, and one that
    goes on, holding the lock of its key or none. *)
Inductive began (now : Z) (tr : DNSTransport) (message : Message) (o : DNSQueryOptions) (ch : checker) (c : Client) : beginning → Client → Prop :=
| began_done x :
    (∀ m q, x = Ok m → asked q message → strategyRejects q o = true) → began now tr message o ch c (ExchangeDone x None) c
| began_wait op c' :
    operation_of tr message o c op → op_lock op = None → keeps c c' → cl_cacheLock c' = cl_cacheLock c →
    cl_backgroundRefresh c' = cl_backgroundRefresh c → began now tr message o ch c (ExchangeWait op) c'
| began_plain op b c' :
    operation_of tr message o c op → op_lock op = None → begun now c op ch b c' → began now tr message o ch c b c'
| began_locked op k b c' :
    operation_of tr message o c op → op_lock op = Some k → k ∉ cl_cacheLock c →
    begun now (set_cacheLock ({[k]} ∪ cl_cacheLock c) c) op ch b c' → began now tr message o ch c b c'.

Lemma beginExchange_began now ctxErr fr ct tr message o ch c b c' :
  beginExchange now ctxErr fr ct tr message o ch c = Ok (b, c') → began now tr message o ch c b c'.
Proof.
  rewrite /beginExchange. destruct ctxErr; [intros [= <- <-]; by apply began_done|].
  rewrite /asked. destruct (Question_ message) as [|q qs] eqn:Hq.
  { intros [= <- <-]. apply began_done. intros m q _. by rewrite /asked Hq. }
  destruct (strategyRejects q o) eqn:Hrej; rewrite /strategyRejects in Hrej; rewrite Hrej; fold (strategyRejects q o) in Hrej.
  { intros [= <- <-]. apply began_done. intros m q' _. by rewrite /asked Hq; intros [= <-]. }
  destruct (isSimpleRequest message) as [simple| |]; [cbn [mbind result_bind]|done..].
  set (o' := if _ && fr then _ else o).
  assert (∀ m, newCacheKey tr q m o' c = newCacheKey tr q m o c) as Ho'.
  { intros m. rewrite /o'. case_match; [|done]. by destruct o. }
  case_match.
  { intros [= Hb]. eapply (began_plain _ _ _ _ _ _ (mkOperation _ _ _ _ _ _ _)); [|reflexivity|]; [|by eapply beforeAsking_begun, Hb].
    split_and!; [by rewrite /asked Hq|done|done|done]. }
  set (key := newCacheKey _ _ _ o' c). case_bool_decide as Hlock.
  - destruct (lookInCache _ _ _ _ c) as [hit c1] eqn:Hlook. eapply lookInCache_begun in Hlook as Hb; [|reflexivity].
    destruct hit as [b'|]; intros [= <- <-].
    + eapply began_plain; [| |apply Hb]; [|reflexivity]. split_and!; [by rewrite /asked Hq|done|done|]. intros ? [= <-]. apply Ho'.
    + destruct Hb as (H1 & H2 & H3). apply began_wait; [|done..]. split_and!; [by rewrite /asked Hq|done|done|]. intros ? [= <-]. apply Ho'.
  - destruct (lookInCache _ _ _ _ _) as [hit c1] eqn:Hlook. intros Hend.
    eapply began_locked; [| |exact Hlock|eapply look_then_ask; [|exact Hlook|by destruct hit; simplify_eq]; reflexivity]; [|reflexivity].
    split_and!; [by rewrite /asked Hq|done|done|]. intros ? [= <-]. apply Ho'.
Qed.

(** ** The invariant *)

Lemma run_ok_keeps c c' w a rs h :
  run_ok (mkRun c w a rs h) → keeps c c' → cl_cacheLock c' = cl_cacheLock c → cl_backgroundRefresh c' = cl_backgroundRefresh c →
  run_ok (mkRun c' w a rs h).
Proof.
  intros [] Hk Hl Hb; cbn in *. split; cbn; [by apply Hk|by eapply keeps_given|by eapply events_expire; [apply Hk|]|..];
    first [congruence|done].
Qed.

Lemma add_refresh_ok tr ch refresh r :
  run_ok r → (∀ q, refresh = Some q → refresh_ok (tr, ch, q)) → run_ok (add_refresh tr ch refresh r).
Proof.
  intros Hr Hq. destruct refresh as [q|]; [|done]. specialize (Hq q eq_refl). destruct r as [c w a rs h].
  rewrite /add_refresh /beginRefresh; cbn. case_bool_decide as Hin; [done|].
  destruct Hr; cbn in *. assert (keeps c (set_backgroundRefresh ({[q.1.1]} ∪ cl_backgroundRefresh c) c)) as Hk.
  { destruct c. by apply keeps_same. }
  split; cbn; [by apply Hk|by eapply keeps_given|by eapply events_expire; [apply Hk|]|done..|by constructor|by destruct c|done| |].
  - destruct c; cbn in *. by rewrite ro_background0.
  - constructor; [|done]. rewrite ro_background0 in Hin. set_solver.
Qed.

(** An exchange that ends its beginning, counted among the ones that ask. *)
Lemma begun_ok now c w a rs h tr ch op b c' :
  run_ok (mkRun c w ((tr, ch, op) :: a) rs h) → begun now c op ch b c' → run_ok (add_beginning tr ch b (mkRun c' w a rs h)).
Proof.
  intros Hr (Hk & Hb & Hend). destruct b as [x refresh|op'|op']; [|done|].
  - destruct Hend as (Hl & Hq & _). apply add_refresh_ok.
    + rewrite (proj1 (release_locks op c)) in Hl. destruct Hr; cbn in *.
      inversion ro_asking0 as [|?? Hop Hrest]; subst.
      split; cbn; [by apply Hk|by eapply keeps_given|by eapply events_expire; [apply Hk|]|done..| | |congruence|done].
      * rewrite Hl ro_locks0. rewrite /held /= in ro_lock_once0 |- *. destruct (op_lock op); cbn in *; [|set_solver].
        apply NoDup_cons in ro_lock_once0 as [Hn _]. set_solver.
      * rewrite /held /= in ro_lock_once0. destruct (op_lock op); [by apply NoDup_cons in ro_lock_once0 as [_ ?]|done].
    + intros q Hrq. destruct (Hq q Hrq) as [Hkey Hm]. destruct (Forall_inv (ro_asking _ Hr)) as [Hq1 Hq2]; cbn in *.
      destruct (Hq2 _ Hkey) as [Hq3 Hq4]. split; cbn; [by rewrite Hm Hq3|done].
  - destruct Hend as [-> Hl]. by eapply run_ok_keeps.
Qed.

(** An exchange that holds a new lock or none may be counted among the ones that ask. *)
Lemma count_asking c w a rs h tr ch op :
  run_ok (mkRun c w a rs h) → flight_ok (tr, ch, op) →
  match op_lock op with
  | None => run_ok (mkRun c w ((tr, ch, op) :: a) rs h)
  | Some k => k ∉ cl_cacheLock c → run_ok (mkRun (set_cacheLock ({[k]} ∪ cl_cacheLock c) c) w ((tr, ch, op) :: a) rs h)
  end.
Proof.
  intros [] Hf; cbn in *. destruct (op_lock op) as [k|] eqn:Hop; [intros Hn|].
  - assert (keeps c (set_cacheLock ({[k]} ∪ cl_cacheLock c) c)) as Hk by (destruct c; by apply keeps_same).
    split; cbn; [by apply Hk|by eapply keeps_given|by eapply events_expire; [apply Hk|]|done..|by constructor|done| | |by destruct c|done].
    + rewrite /held /= Hop. destruct c; cbn in *. by rewrite ro_locks0.
    + rewrite /held /= Hop. constructor; [|done]. rewrite ro_locks0 in Hn. set_solver.
  - split; cbn; [done..|by constructor|done| | |done|done]; by rewrite /held /= Hop.
Qed.

Lemma began_ok now tr message o ch b c' r :
  run_ok r → began now tr message o ch (ru_client r) b c' → run_ok (add_beginning tr ch b (with_client c' r)).
Proof.
  intros Hr Hb. destruct r as [c w a rs h]; cbn in *.
  destruct Hb as [x|op c' Hop Hnone Hk Hl Hb|op b c' Hop Hnone Hb|op k b c' Hop Hlock Hfree Hb]; [done|..];
    pose proof (operation_flight _ _ _ _ _ ch Hop) as Hf.
  - pose proof (run_ok_keeps _ _ _ _ _ _ Hr Hk Hl Hb) as []; cbn in *.
    split; cbn; [done|done|done|by constructor|by rewrite /held /= Hnone|done..].
  - pose proof (count_asking _ _ _ _ _ _ _ _ Hr Hf) as Hc. rewrite Hnone in Hc. by eapply begun_ok.
  - pose proof (count_asking _ _ _ _ _ _ _ _ Hr Hf) as Hc. rewrite Hlock in Hc. by eapply begun_ok; [apply Hc|].
Qed.

(** What an answer leaves: the locks and the settings as they were, and in the
    cache what the history gave. *)
Record settles (c c' : Client) (h : list event) : Prop := mkSettles {
  st_memory : cl_dnsCache c' = None;
  st_expire : cl_disableExpire c' = cl_disableExpire c;
  st_locks : cl_cacheLock c' = cl_cacheLock c;
  st_background : cl_backgroundRefresh c' = cl_backgroundRefresh c;
  st_given : cache_given c' h
}.

Lemma settles_same c c' h :
  cl_dnsCache c = None → cache_given c h → cl_dnsCache c' = None → cl_disableExpire c' = cl_disableExpire c → cl_cache c' = cl_cache c →
  cl_cacheLock c' = cl_cacheLock c → cl_backgroundRefresh c' = cl_backgroundRefresh c → settles c c' h.
Proof. intros Hn Hg Hn' He Hc Hl Hb. split; [done..|]. apply (keeps_given c); [apply keeps_same; congruence|done]. Qed.

Lemma given_more c h evs : cache_given c h → cache_given c (evs ++ h).
Proof.
  intros Hg l k m e Hl Hm. destruct (Hg l k m e Hl Hm) as (ev & ttl & Hin & Hgave & He).
  exists ev, ttl. split_and!; [set_solver|done|done].
Qed.

Lemma storeCache_settles ev k m ttl c h :
  cl_dnsCache c = None → cache_given c h → gave ev k m ttl → settles c (storeCache (ev_now ev) k m ttl c) (ev :: h).
Proof.
  intros Hn Hg Hev. pose proof (given_more _ _ [ev] Hg) as Hg'; cbn in Hg'.
  rewrite /storeCache Hn. case_match; [by apply settles_same|].
  destruct (cl_cache c) as [l|] eqn:Hl; [|by apply settles_same].
  destruct c; cbn in *; subst. split; cbn; [done..|].
  intros l' k' m' e [= <-] Hm'. destruct (decide (k' = k)) as [->|Hk]; cbn.
  - rewrite lru_added in Hm'. simplify_eq. exists ev, ttl. split_and!; [set_solver|done|]. by case_match.
  - apply lru_add_other in Hm'; [|done]. by eapply Hg'.
Qed.

Lemma settles_trans_r c0 c1 c2 h :
  settles c1 c2 h → cl_disableExpire c1 = cl_disableExpire c0 → cl_cacheLock c1 = cl_cacheLock c0 →
  cl_backgroundRefresh c1 = cl_backgroundRefresh c0 → settles c0 c2 h.
Proof. intros [] ???. split; first [done|congruence]. Qed.

Lemma finishExchange_settles now tr op answer response ch c h :
  flight_ok (tr, ch, op) → cl_dnsCache c = None → cache_given c h →
  exchangeToTransport (op_message op) answer = inl response →
  settles c (finishExchange now tr op response ch c).2 (ended now tr op answer ch c ++ h).
Proof.
  intros [_ Hkey] Hn Hg Hans. pose proof (given_more _ _ (ended now tr op answer ch c) Hg) as Hg'.
  rewrite /finishExchange. cbn in Hkey. case_match eqn:Hrej.
  { cbn. repeat case_match; destruct c; by apply settles_same. }
  destruct (applyResponseOptions _ _ _) as [m ttl] eqn:Happly; cbn.
  destruct (op_cacheKey op) as [key|] eqn:Hk; [|by apply settles_same].
  destruct (op_disableCache op) eqn:Hdis; cbn; [by apply settles_same|].
  destruct (cacheable (Rcode response)) eqn:Hrc; cbn; [|by apply settles_same].
  destruct (finishCacheKey tr key c) as [k|] eqn:Hfin; [|by apply settles_same].
  destruct (decide (ttl = 0)) as [->|Httl].
  { rewrite /storeCache Z.eqb_refl. by apply settles_same. }
  rewrite /ended Hk Hdis. apply (storeCache_settles (mkEvent _ _ _ _ _ _ _ _)); [done|done|].
  destruct (Hkey key eq_refl) as [Hq _]. exists response. cbn. rewrite Hq.
  split_and!; [done|done| |done|done|done].
  rewrite /accepts. destruct ch; [|done]. by destruct (b response).
Qed.

Lemma endRefresh_settles now tr ch key message o answer c h :
  cl_dnsCache c = None → cache_given c h →
  let c0 := set_backgroundRefresh (cl_backgroundRefresh c ∖ {[key]}) c in
  settles c0 (endRefresh now tr key message o answer ch c) (mkEvent now tr key message o answer ch c :: h).
Proof.
  intros Hn Hg c0. set (ev := mkEvent _ _ _ _ _ _ _ _).
  assert (cl_dnsCache c0 = None) as Hn0 by by destruct c.
  assert (cache_given c0 h) as Hg0 by (eapply keeps_given; [|exact Hg]; destruct c; by apply keeps_same).
  pose proof (given_more _ _ [ev] Hg0) as Hg0'; cbn in Hg0'.
  rewrite /endRefresh -/c0. destruct (exchangeToTransport message answer) as [response|e] eqn:Hans; [|by apply settles_same].
  assert (cacheable (Rcode response) = true → accepts ch response = true →
    settles c0 (match finishCacheKey tr key c0 with
      | Some storeKey => let '(response, timeToLive) := applyResponseOptions (ck_Question key) response o in storeCache now storeKey response timeToLive c0
      | None => c0 end) (ev :: h)) as Hstore.
  { intros Hrc Hacc. destruct (finishCacheKey tr key c0) as [k|] eqn:Hfin; [|by apply settles_same].
    destruct (applyResponseOptions _ _ _) as [m ttl] eqn:Happly.
    destruct (decide (ttl = 0)) as [->|Httl]; [rewrite /storeCache Z.eqb_refl; by apply settles_same|].
    apply (storeCache_settles ev); [done|done|]. exists response. split_and!; [done..| |done|done]. by destruct c. }
  destruct ch as [f|].
  - destruct (cacheable (Rcode response)), (f response) eqn:Hf; cbn; [by apply Hstore|..];
      destruct (cl_rdrc c0); destruct c; by apply settles_same.
  - destruct (cacheable (Rcode response)); [by apply Hstore|by apply settles_same].
Qed.

Lemma held_app l1 l2 : held (l1 ++ l2) = held l1 ++ held l2.
Proof. apply omap_app. Qed.
Lemma held_cons f l : held (f :: l) = option_list (op_lock f.2) ++ held l.
Proof. rewrite /held /=. by destruct (op_lock _). Qed.

Lemma answer_ok now tr ch op answer l1 l2 r :
  run_ok r → ru_asking r = l1 ++ (tr, ch, op) :: l2 →
  run_ok (mkRun (endExchange now tr op answer ch (ru_client r)).2 (ru_waiting r) (l1 ++ l2) (ru_refreshes r)
    (ended now tr op answer ch (ru_client r) ++ ru_history r)).
Proof.
  intros Hr Hops. destruct r as [c w a rs h]. destruct Hr; cbn in *; subst a.
  apply Forall_app in ro_asking0 as [Hf1 [Hop Hf2]%Forall_cons].
  assert (∃ c1, (endExchange now tr op answer ch c).2 = release op c1 ∧ settles c c1 (ended now tr op answer ch c ++ h)) as (c1 & -> & []).
  { rewrite /endExchange. destruct (exchangeToTransport _ _) as [response|e] eqn:Hans.
    - destruct (finishExchange _ _ _ _ _ _) as [x c1] eqn:Hfin. exists c1. split; [done|].
      pose proof (finishExchange_settles now tr op answer response ch c h Hop ro_memory0 ro_given0 Hans) as Hs. by rewrite Hfin in Hs.
    - exists c. split; [done|]. apply settles_same; [done|by apply given_more|done..]. }
  pose proof (release_keeps op c1) as Hk. destruct (release_locks op c1) as [Hl Hb].
  rewrite held_app held_cons /= in ro_locks0 ro_lock_once0.
  split; cbn; [by apply Hk|by eapply keeps_given| |done|done|by apply Forall_app|done| | |congruence|done].
  - apply Forall_app; split; [|eapply events_expire; [|done]; by rewrite (kp_expire _ _ Hk)].
    rewrite /ended. destruct (op_cacheKey op) as [key|] eqn:Hkey; [|done]. case_match; [done|].
    apply Forall_singleton. destruct Hop as [Hq1 Hq2]. destruct (Hq2 _ Hkey) as [Hq3 Hq4].
    split_and!; cbn; [by rewrite Hq3|done|by rewrite (kp_expire _ _ Hk)].
  - rewrite Hl st_locks0 ro_locks0 held_app. destruct (op_lock op); cbn in *; [|set_solver].
    apply NoDup_app in ro_lock_once0 as (_ & Hd & [Hn _]%NoDup_cons). set_solver.
  - rewrite held_app. apply NoDup_app in ro_lock_once0 as (Hn1 & Hd & Hn2). apply NoDup_app in Hn2 as (_ & Hd2 & Hn2).
    apply NoDup_app. split_and!; [done|set_solver|done].
Qed.

Lemma refresh_end_ok now tr ch key message o answer l1 l2 r :
  run_ok r → ru_refreshes r = l1 ++ (tr, ch, (key, message, o)) :: l2 →
  run_ok (mkRun (endRefresh now tr key message o answer ch (ru_client r)) (ru_waiting r) (ru_asking r) (l1 ++ l2)
      (mkEvent now tr key message o answer ch (ru_client r) :: ru_history r)).
Proof.
  intros Hr Hops. destruct r as [c w a rs h]. destruct Hr; cbn in *; subst rs.
  apply Forall_app in ro_refreshes0 as [Hf1 [[Hq1 Hq2] Hf2]%Forall_cons].
  destruct (endRefresh_settles now tr ch key message o answer c h ro_memory0 ro_given0).
  rewrite /refreshed fmap_app fmap_cons /= in ro_background0 ro_background_once0.
  apply NoDup_app in ro_background_once0 as (Hn1 & Hd & [Hn2 Hn3]%NoDup_cons).
  assert (cl_disableExpire (endRefresh now tr key message o answer ch c) = cl_disableExpire c) as He by (rewrite st_expire0; by destruct c).
  split; cbn; [done|done| |done|done|done|by apply Forall_app| |done| |].
  - constructor; [split_and!; cbn; [done|done|by rewrite He]|by eapply events_expire].
  - rewrite st_locks0. by destruct c.
  - rewrite st_background0 /refreshed fmap_app. destruct c; cbn in *. rewrite ro_background0. set_solver.
  - rewrite /refreshed fmap_app. apply NoDup_app. split_and!; [done|set_solver|done].
Qed.

Lemma fresh_run_ok r : fresh_run r → run_ok r.
Proof.
  intros (H1 & H2 & H3 & H4 & H5 & H6 & H7 & H8). split; rewrite ?H5 ?H6 ?H7 ?H8 //; [|constructor..].
  intros l k m e Hl Hm. by rewrite (H2 l k Hl) in Hm.
Qed.

Lemma resume_ok now ctxErr ct tr ch op b c' l1 l2 r :
  run_ok r → ru_waiting r = l1 ++ (tr, ch, op) :: l2 → afterWait now ctxErr ct tr op ch (ru_client r) = (b, c') →
  run_ok (add_beginning tr ch b (mkRun c' (l1 ++ l2) (ru_asking r) (ru_refreshes r) (ru_history r))).
Proof.
  intros Hr Hw. destruct r as [c w a rs h]. cbn in *. subst w.
  assert (run_ok (mkRun c (l1 ++ l2) a rs h) ∧ flight_ok (tr, ch, op) ∧ op_lock op = None) as (Hr' & Hf & Hlock).
  { destruct Hr; cbn in *. apply Forall_app in ro_waiting0 as [Hf1 [Hop Hf2]%Forall_cons].
    rewrite held_app held_cons /= in ro_unlocked0. apply app_nil in ro_unlocked0 as [Hn1 [Hn2 Hn3]%app_nil].
    split_and!; [|done|by destruct (op_lock op)].
    split; cbn; [done..|by apply Forall_app|by rewrite held_app Hn1 Hn3|done|done|done|done|done|done]. }
  rewrite /afterWait. destruct ctxErr; [by intros [= <- <-]|].
  destruct (lookInCache _ _ _ _ c) as [hit c1] eqn:Hlook. intros Hend.
  eapply look_then_ask in Hend; [|reflexivity|exact Hlook].
  set (op' := mkOperation _ _ _ _ _ _ _) in Hend.
  assert (flight_ok (tr, ch, op')) as Hf' by (destruct Hf; split; [done|]; by intros ? [= <-]).
  pose proof (count_asking _ _ _ _ _ _ _ _ Hr' Hf') as Hc. rewrite /= Hlock in Hc. by eapply begun_ok.
Qed.

Lemma client_step_ok r r' : run_ok r → client_step r r' → run_ok r'.
Proof.
  intros Hr Hs. destruct Hs as [now ctxErr fr ct tr message o ch b c r Hb|now ctxErr ct tr ch op b c l1 l2 r Hw Hb|now tr ch op answer l1 l2 r Ha
    |now tr ch key message o answer l1 l2 r Ha|now tr message o ch x refresh c r Hq|r|env r].
  - by eapply began_ok, beginExchange_began.
  - by eapply resume_ok.
  - by apply answer_ok.
  - by apply refresh_end_ok.
  - destruct r as [c0 w a rs h]. rewrite /questionCache in Hq; cbn in Hq.
    destruct (Question_ message) as [|q qs] eqn:Hm; [by simplify_eq|].
    destruct (loadResponse _ _ _) as [y c1] eqn:Hload. destruct (loadResponse_keeps _ _ _ _ _ Hload) as (Hk & Hl & Hb).
    assert (c = c1 ∧ ∀ s, refresh = Some s → s.1.1 = newCacheKey tr q message o c0 ∧ s.1.2 = prepareExchangeMessage message o c1) as [-> Hs].
    { repeat case_match; simplify_eq; split; try done; by intros s [= <-]. }
    apply add_refresh_ok; [by eapply run_ok_keeps|]. intros s [H1 H2]%Hs. rewrite /refresh_ok /= H1 H2 /asked (proj1 (prepare_same _ _ _)) Hm. done.
  - destruct r as [c w a rs h]. eapply run_ok_keeps; [exact Hr|..]; destruct c; cbn; [|done|done].
    split; cbn; [by intros ->|done|]. intros l' k x (l & _ & ->)%fmap_Some. by rewrite lru_purged.
  - destruct r as [c w a rs h]. eapply run_ok_keeps; [exact Hr|..]; destruct c; [by apply keeps_same|done|done].
Qed.

Lemma client_reachable_ok r0 r : fresh_run r0 → rtc client_step r0 r → run_ok r.
Proof.
  intros Hf%fresh_run_ok Hr. induction Hr as [|r1 r2 r3 Hs _ IH]; [done|]. apply IH. by eapply client_step_ok.
Qed.

(** ** What the cache serves *)

(** An answer served out of the cache at [now] was given by an event of the
    history, for the same question, transport, client subnet and environment; it
    is the message the event left, with the seconds that remain, or stale. *)
Definition serves_only_given (r : run) : Prop :=
  ∀ now fr ct tr message o ch m refresh c' q,
    beginExchange now None fr ct tr message o ch (ru_client r) = Ok (ExchangeDone (Ok m) refresh, c') →
    asked q message → strategyRejects q o = false →
    ∃ ev k m0 ttl m1, ev ∈ ru_history r ∧ gave ev k m0 ttl ∧
      k = newCacheKey tr q (prepareExchangeMessage message o (ru_client r)) o (ru_client r) ∧
      asked q (ev_message ev) ∧ tr_Tag (ev_transport ev) = tr_Tag tr ∧
      served now (ru_client r) m0 (expiry ev ttl) m1 (bool_decide (is_Some refresh)) ∧
      accepts ch m1 = true ∧ m = set_Id (Id message) m1.

(** A query that may be answered out of the cache. *)
Definition uses_cache (message : Message) (o : DNSQueryOptions) (q : Question) (c : Client) : Prop :=
  asked q message ∧ strategyRejects q o = false ∧ isSimpleRequest message = Ok true ∧
  cl_disableCache c = false ∧ qo_DisableCache o = false.

(** What an exchange has left is served until a millisecond before it expires. *)
Definition serves_what_was_given (r : run) : Prop :=
  ∀ now tr ch op answer key k m ttl l now' ct message o ch' q,
    (tr, ch, op) ∈ ru_asking r → op_cacheKey op = Some key → op_disableCache op = false →
    gave (mkEvent now tr key (op_message op) (op_options op) answer ch (ru_client r)) k m ttl → cl_cache (ru_client r) = Some l →
    let c := (endExchange now tr op answer ch (ru_client r)).2 in
    uses_cache message o q c → k = newCacheKey tr q (prepareExchangeMessage message o c) o c →
    now' ≤ now + second_ns * ttl - 10 ^ 6 →
    ∃ m1 c', served now' c m (lru_deadline (now + second_ns * ttl)) m1 false ∧
      beginExchange now' None false ct tr message o ch' c =
        Ok (ExchangeDone (if accepts ch' m1 then Ok (set_Id (Id message) m1) else Err ErrResponseRejectedCached) None, c').

Lemma only_given r : run_ok r → serves_only_given r.
Proof.
  intros Hr now fr ct tr message o ch m refresh c' q Hb%beginExchange_began Hq Hrej.
  assert (∃ op c0, operation_of tr message o (ru_client r) op ∧ keeps (ru_client r) c0 ∧ cl_optimisticTimeout c0 = cl_optimisticTimeout (ru_client r) ∧
    begun now c0 op ch (ExchangeDone (Ok m) refresh) c') as (op & c0 & Hop & Hk & Hopt & (_ & _ & _ & _ & Hm)).
  { inversion Hb as [x Hx| |op b c1 Hop Hnone Hbeg|op k b c1 Hop Hlock Hfree Hbeg]; subst.
    - by rewrite (Hx m q eq_refl Hq) in Hrej.
    - by exists op, (ru_client r).
    - eexists op, _. split_and!; [done| | |exact Hbeg]; destruct (ru_client r); [by apply keeps_same|done]. }
  destruct (Hm m eq_refl) as (k & Hkey & Hfrom).
  destruct (Hfrom (kp_memory _ _ Hk (ro_memory _ Hr))) as (l & m0 & e & m1 & Hl & Hm0 & Hs & Hacc & ->).
  destruct Hop as (Hq' & Hmsg & _ & Hnew). assert (op_question op = q) as Hqq by (rewrite /asked in Hq Hq'; congruence).
  destruct (keeps_given _ _ _ Hk (ro_given _ Hr) l k m0 e Hl Hm0) as (ev & ttl & Hin & Hgave & He).
  pose proof (Hnew k Hkey) as Hkn. rewrite Hqq Hmsg in Hkn.
  assert (ck_Question k = ck_Question (ev_key ev) ∧ ck_transportTag k = ck_transportTag (ev_key ev)) as [Hkq Hkt].
  { destruct Hgave as (raw & _ & _ & _ & Hfin & _). rewrite /finishCacheKey in Hfin. case_match; [|done]. by injection Hfin as <-. }
  destruct (proj1 (Forall_forall _ _) (ro_events _ Hr) _ Hin) as (Hev1 & Hev2 & Hev3).
  exists ev, k, m0, ttl, m1. split_and!; [done..| | | |done|].
  - rewrite -Hkq Hkn /= in Hev1. done.
  - rewrite -Hev2 -Hkt Hkn. done.
  - rewrite /served (kp_expire _ _ Hk) Hopt in Hs. rewrite /served. rewrite He (kp_expire _ _ Hk) in Hs. by case_match.
  - by rewrite Hmsg (proj2 (prepare_same _ _ _)).
Qed.

(** An entry that lives is loaded. *)
Lemma loadResponse_hit now k c l m t :
  cl_dnsCache c = None → cl_cache c = Some l → lru_get k l = Some (m, if cl_disableExpire c then None else Some t) → now ≤ t →
  ∃ m1 ttl c', served now c m t m1 false ∧ loadResponse now k c = (Some (m1, ttl, false), c').
Proof.
  intros Hn Hl Hg Ht. rewrite /loadResponse Hn Hl Hg /served. destruct c as [? ? dE ? ? ? ? ? ? ? ?]; cbn -[serveEntry second_ns] in *.
  destruct dE; [by eauto 10|]. rewrite /serveEntry /=. destruct (Z.ltb_spec t now); [lia|].
  do 3 eexists. split; [left; split_and!; [done|reflexivity|done]|]. rewrite Z.max_l; [|done]. apply Z.div_pos; rewrite /second_ns; lia.
Qed.

Lemma beginExchange_hit now ct tr message o ch c q l m t :
  uses_cache message o q c → cl_dnsCache c = None → cl_cache c = Some l → now ≤ t →
  lru_get (newCacheKey tr q (prepareExchangeMessage message o c) o c) l = Some (m, if cl_disableExpire c then None else Some t) →
  ∃ m1 c', served now c m t m1 false ∧ beginExchange now None false ct tr message o ch c =
    Ok (ExchangeDone (if accepts ch m1 then Ok (set_Id (Id message) m1) else Err ErrResponseRejectedCached) None, c').
Proof.
  intros (Hq & Hrej & Hsimple & Hdc & Hdo) Hn Hl Ht Hg.
  set (k := newCacheKey _ _ _ _ _) in Hg.
  assert (∀ s, ∃ m1 ttl c', served now c m t m1 false ∧ loadResponse now k (set_cacheLock s c) = (Some (m1, ttl, false), c')) as Hload.
  { intros s. destruct (loadResponse_hit now k (set_cacheLock s c) l m t) as (m1 & ttl & c' & Hs & Hload); [by destruct c..|].
    exists m1, ttl, c'. split; [|done]. by destruct c. }
  rewrite /asked in Hq. rewrite /beginExchange. destruct (Question_ message) as [|q' qs]; [done|]. injection Hq as ->.
  rewrite /strategyRejects in Hrej. rewrite Hrej Hsimple /= andb_false_r Hdc Hdo /= -/k. clear Hrej.
  case_bool_decide as Hlock; rewrite /lookInCache.
  - destruct (Hload (cl_cacheLock c)) as (m1 & ttl & c' & Hs & Hload1).
    assert (set_cacheLock (cl_cacheLock c) c = c) as Hc by by destruct c. rewrite Hc in Hload1.
    rewrite Hload1 /=. exists m1, c'. split; [done|]. by rewrite (proj2 (prepare_same _ _ _)).
  - destruct (Hload ({[(k, qo_Timeout o)]} ∪ cl_cacheLock c)) as (m1 & ttl & c' & Hs & Hload1).
    rewrite Hload1 /=. eexists m1, _. split; [done|]. by rewrite (proj2 (prepare_same _ _ _)).
Qed.

(** The client after an answer that is stored. *)
Lemma endExchange_stores now tr ch op answer key k m ttl l c :
  flight_ok (tr, ch, op) → cl_dnsCache c = None → op_cacheKey op = Some key → op_disableCache op = false →
  gave (mkEvent now tr key (op_message op) (op_options op) answer ch c) k m ttl → cl_cache c = Some l →
  (endExchange now tr op answer ch c).2 =
    release op (set_lru (Some (lru_add k m (if cl_disableExpire c then None else Some (now + second_ns * ttl)) l)) c).
Proof.
  intros [_ Hkey] Hn Hk Hdis (raw & Hans & Hrc & Hacc & Hfin & Happly & Httl) Hl; cbn in *.
  destruct (Hkey _ Hk) as [Hq _]. rewrite Hq in Happly.
  assert ((match ch with Some f => if negb true then true else negb (f raw) | None => false end) = false) as Hrej
    by (destruct ch; [cbn in Hacc; by rewrite Hacc|done]).
  rewrite /endExchange Hans /finishExchange Hrc Hdis Hk Hrej Happly /= Hfin /storeCache Hn Hl. by destruct (Z.eqb_spec ttl 0).
Qed.

Lemma what_was_given r : run_ok r → serves_what_was_given r.
Proof.
  intros Hr now tr ch op answer key k m ttl l now' ct message o ch' q Hin Hk Hdis Hgave Hl c Huse -> Hnow.
  pose proof (proj1 (Forall_forall _ _) (ro_asking _ Hr) _ Hin) as Hf.
  pose proof (ro_memory _ Hr) as Hn. pose proof (lru_rounds (now + second_ns * ttl)) as Hround.
  set (k := newCacheKey _ _ _ _ _) in *. set (e := now + second_ns * ttl) in *.
  pose proof (endExchange_stores now tr ch op answer key k m ttl l (ru_client r) Hf Hn Hk Hdis Hgave Hl) as Hc. rewrite -/c -/e in Hc.
  assert (cl_dnsCache c = None ∧ cl_cache c = Some (lru_add k m (if cl_disableExpire c then None else Some e) l)) as [Hn' Hl'].
  { rewrite Hc /release. destruct (op_lock op), (ru_client r); done. }
  eapply beginExchange_hit; [done|done|exact Hl'|lia|]. rewrite -/k lru_added. by case_match.
Qed.

(** C39: the cache of the DNS client is transparent.  In every run of a client
    with a memory cache (queries, waits, answers, background refreshes, address
    lookups, clearing the cache and changes of the network in any order), a
    query answered without asking is answered with what the transport of the
    same tag gave, to the same question, client subnet and environment, in an
    answer that was accepted and may be cached, served with the whole seconds it
    still has to live or, within the optimistic timeout, with one second and a
    refresh; and what an answer leaves in the cache is served to the next query
    of its key until a millisecond before it expires, without asking. *)
Theorem dns_cache_transparent r0 r :
  fresh_run r0 → rtc client_step r0 r → serves_only_given r ∧ serves_what_was_given r.
Proof. intros Hf Hr. pose proof (client_reachable_ok r0 r Hf Hr). split; [by apply only_given|by apply what_was_given]. Qed.

(** C40: one exchange per question.  In every run of a client the table of locks
    holds the keys of the exchanges whose transport is being asked, each of one
    exchange; an exchange that waits holds none; and the table of refreshes holds
    the keys of the refreshes that run, one for each key.  So no lock outlives
    its exchange, whatever way the exchange ends, and a waiting exchange waits
    for one that is being asked. *)
Theorem dns_single_flight r0 r :
  fresh_run r0 → rtc client_step r0 r →
  (∀ k, k ∈ cl_cacheLock (ru_client r) ↔ ∃ f, f ∈ ru_asking r ∧ op_lock f.2 = Some k) ∧
  NoDup (omap (λ f, op_lock f.2) (ru_asking r)) ∧
  (∀ f, f ∈ ru_waiting r → op_lock f.2 = None) ∧
  (∀ k, k ∈ cl_backgroundRefresh (ru_client r) ↔ ∃ q, q ∈ ru_refreshes r ∧ q.2.1.1 = k) ∧
  NoDup ((λ q, q.2.1.1) <$> ru_refreshes r).
Proof.
  intros Hf Hr. destruct (client_reachable_ok r0 r Hf Hr). split_and!; [|done| | |done].
  - intros k. rewrite ro_locks0 elem_of_list_to_set list_elem_of_omap. done.
  - intros f Hin. destruct (op_lock f.2) as [k|] eqn:Hk; [|done].
    assert (k ∈ held (ru_waiting r)) as Hheld by (apply list_elem_of_omap; eauto). rewrite ro_unlocked0 in Hheld. set_solver.
  - intros k. rewrite ro_background0 elem_of_list_to_set list_elem_of_fmap. naive_solver.
Qed.
End client.

(** ** A run *)

(** A cache over a finite map that keeps milliseconds. *)
Definition map_cache : LruCache := {|
  Lru := gmap dnsCacheKey (Message * option Z);
  lru_deadline e := e / 10 ^ 6 * 10 ^ 6;
  lru_get k l := l !! k;
  lru_touch _ l := l;
  lru_add k m e l := <[k := (m, (λ e, e / 10 ^ 6 * 10 ^ 6) <$> e)]> l;
  lru_remove k l := delete k l;
  lru_purge _ := ∅
|}.

#[local] Instance map_cache_laws : LruLaws map_cache.
Proof.
  split; cbn.
  - intros. apply lookup_insert_eq.
  - intros k k' m e l x Hk. by rewrite lookup_insert_ne.
  - done.
  - intros k k' l x. by intros [_ ?]%lookup_delete_Some.
  - intros k l. apply lookup_empty.
  - intros e. pose proof (Z.div_mod e (10 ^ 6)). pose proof (Z.mod_pos_bound e (10 ^ 6)). lia.
Qed.

Definition no_store : DNSCacheStore := {| DnsStore := unit; store_Load _ _ _ d := (None, d); store_SaveAsync _ _ _ _ _ d := d; store_Clear d := (None, d) |}.
Definition no_rdrc : RDRCStore := {| RdrcStore := unit; rdrc_Load _ _ _ d := (false, d); rdrc_SaveAsync _ _ _ d := d |}.
Definition plain_codec : DnsCodec := {|
  Msg_Pack _ := Ok []; Msg_Unpack _ := Err (ErrExternal "dns: overflow unpacking"); Msg_IsEdns0 m := list_find (λ r, Rrtype r = TypeOPT) (Extra m) ≫= λ x, Some x.2;
  Msg_SetEdns0 _ _ m := m; OPT_Version _ := 0; OPT_UDPSize r := h_Class (rr_Hdr r); OPT_Do _ := false |}.

#[local] Existing Instances map_cache no_store no_rdrc plain_codec.

(** A query begins; the transport of the first exchange that asks answers. *)
Definition then_begin (now : Z) (tr : DNSTransport) (message : Message) (o : DNSQueryOptions) (r : run) : run :=
  match beginExchange now None false None tr message o None (ru_client r) with
  | Ok (b, c) => add_beginning tr None b (with_client c r)
  | _ => r
  end.
Definition then_answer (now : Z) (answer : transportAnswer) (r : run) : run :=
  match ru_asking r with
  | [] => r
  | (tr, ch, op) :: l => mkRun (endExchange now tr op answer ch (ru_client r)).2 (ru_waiting r) l (ru_refreshes r)
      (ended now tr op answer ch (ru_client r) ++ ru_history r)
  end.

Lemma then_begin_steps now tr message o r : rtc client_step r (then_begin now tr message o r).
Proof.
  rewrite /then_begin. destruct (beginExchange _ _ _ _ _ _ _ _ _) as [[b c]| |] eqn:Hb; [|done..].
  by eapply rtc_once, step_begin.
Qed.
Lemma then_answer_steps now answer r : rtc client_step r (then_answer now answer r).
Proof.
  rewrite /then_answer. destruct (ru_asking r) as [|[[tr ch] op] l] eqn:Ha; [done|].
  apply rtc_once. by apply (step_answer now tr ch op answer [] l).
Qed.

Definition demo_options : DNSQueryOptions := mkQueryOptions AsIS AsIS false false None 0 PrefixZero false.
Definition demo_transport : DNSTransport := mkDNSTransport "local" None.
Definition demo_answer : Message :=
  mkMessage 7 true false false true true 0 [mkQuestion "example.org." TypeA ClassINET]
    [mkDRR (mkHdr "example.org." TypeA ClassINET 300) (D_A [x01; x01; x01; x01])] [] [].
Definition demo_run0 : run :=
  mkRun (mkClient 0 false false 0 PrefixZero 0 None None (Some ∅) ∅ ∅) [] [] [] [].
(** One query is asked and stored, a second one is being asked. *)
Definition demo_run : run :=
  then_begin (20 * second_ns) demo_transport (lookupMessage "example.com." TypeA) demo_options
    (then_answer second_ns (Answered demo_answer)
      (then_begin 0 demo_transport (lookupMessage "example.org." TypeA) demo_options demo_run0)).

Lemma demo_run_reached : fresh_run demo_run0 ∧ rtc client_step demo_run0 demo_run.
Proof.
  split.
  - split_and!; [done| |done..]. intros l k [= <-]. apply lookup_empty.
  - etrans; [apply then_begin_steps|]. etrans; [apply then_answer_steps|]. apply then_begin_steps.
Qed.

(** The time to live of the records of an answer out of the cache. *)
Definition cached_ttls (x : result (beginning * Client)) : option (list Z) :=
  match x with Ok (ExchangeDone (Ok m) None, _) => Some (Ttl <$> Answer m) | _ => None end.

Lemma dns_cache_transparent_witness :
  (serves_only_given demo_run ∧ serves_what_was_given demo_run) ∧
  cached_ttls (beginExchange (101 * second_ns) None false None demo_transport (lookupMessage "example.org." TypeA) demo_options None (ru_client demo_run)) = Some [200] ∧
  cached_ttls (beginExchange (302 * second_ns) None false None demo_transport (lookupMessage "example.org." TypeA) demo_options None (ru_client demo_run)) = None.
Proof.
  split; [|split; vm_compute; reflexivity].
  apply (dns_cache_transparent demo_run0); apply demo_run_reached.
Defined.

Lemma dns_single_flight_witness :
  (∀ k, k ∈ cl_cacheLock (ru_client demo_run) ↔ ∃ f, f ∈ ru_asking demo_run ∧ op_lock f.2 = Some k) ∧
  (size (cl_cacheLock (ru_client demo_run)) = 1%nat ∧ length (ru_history demo_run) = 1%nat).
Proof.
  split; [|split; vm_compute; reflexivity].
  apply (dns_single_flight demo_run0 demo_run); apply demo_run_reached.
Defined.
