(* ===== verification/Balancer.v ===== *)
(** The round-robin balancer of the urltest group
    ([protocol/group/urltest_balance_lx.go]): the pool of slots, the choice of a
    slot for a connection and the planning of the next occupancy.

    A slot holds the tag of an outbound; the empty string is a hole.  Sets of
    tags ([map[string]bool]) are finite sets.  The order in which Go ranges over
    a map is a list given with the map. *)

From S2P Require Import Prelude GoBytes GoStrings Netip Metadata.

(** ** Options *)

Definition URLTestModeLeastTest : string := "least_test".
Definition URLTestModeRoundRobin : string := "round_robin".
Definition URLTestModeFailover : string := "failover".
Definition URLTestStickyProcess : string := "process".
Definition URLTestStickyDomain : string := "domain".
Definition URLTestStickySourceIP : string := "source_ip".
Definition URLTestStickyDestIP : string := "dest_ip".
Definition URLTestStickyDestPort : string := "dest_port".
Definition URLTestStickyNone : string := "none".
Definition DefaultURLTestPool : Z := 3.

(** [option.URLTestBalancerOptions] and [option.URLTestOutboundOptions]. *)
Record URLTestBalancerOptions : Type := mkBalancerOptions {
  bo_Pool : Z;
  bo_PoolTolerance : Z;
  bo_StickyHash : list string
}.
Record URLTestOutboundOptions : Type := mkURLTestOptions {
  uo_Outbounds : list string;
  uo_Interval : Z;
  uo_Tolerance : Z;
  uo_IdleTimeout : Z;
  uo_Mode : string;
  uo_Balancer : option URLTestBalancerOptions
}.

(** [balancer]; [counter] is a 64-bit counter. *)
Record balancer : Type := mkBalancer {
  b_poolSize : Z;
  b_poolTolerance : Z;
  b_stickyHash : list string;
  b_slots : list string;
  b_counter : Z
}.
Definition set_slots (v : list string) (b : balancer) : balancer :=
  match b with mkBalancer p t s _ c => mkBalancer p t s v c end.
Definition set_counter (v : Z) (b : balancer) : balancer :=
  match b with mkBalancer p t s l _ => mkBalancer p t s l v end.

(** The switch over the components of [sticky_hash]. *)
Definition checkSticky (component : string) : option goerr :=
  if containsb component [URLTestStickyProcess; URLTestStickyDomain; URLTestStickySourceIP; URLTestStickyDestIP; URLTestStickyDestPort] then None
  else if String.eqb component URLTestStickyNone
  then Some (ErrNew (String.append "urltest sticky_hash: " (String (ascii_of_nat 34) (String.append "none"
    (String (ascii_of_nat 34) " must be the only component (it disables stickiness)")))))
  else Some (ErrNew (String.append "unknown urltest sticky_hash component: " component)).

Fixpoint firstError (l : list (option goerr)) : option goerr :=
  match l with [] => None | Some e :: _ => Some e | None :: l => firstError l end.

(** [func newBalancer(options) ( *balancer, error)]. *)
Definition newBalancer (o : URLTestOutboundOptions) : result (option balancer) :=
  let mode := uo_Mode o in
  if String.eqb mode "" || String.eqb mode URLTestModeLeastTest || String.eqb mode URLTestModeFailover then Ok None
  else if negb (String.eqb mode URLTestModeRoundRobin) then Err (ErrNew (String.append "unknown urltest mode: " mode))
  else
    let defaults := [URLTestStickyProcess; URLTestStickyDomain] in
    match uo_Balancer o with
    | Some bo =>
        if bo_Pool bo <? 0 then Err (ErrNew "urltest balancer.pool must be >= 1")
        else
          let pool := if 0 <? bo_Pool bo then bo_Pool bo else DefaultURLTestPool in
          let stickyHash := match bo_StickyHash bo with
            | [] => defaults
            | [c] => if String.eqb c URLTestStickyNone then [] else [c]
            | l => l end in
          match firstError (checkSticky <$> stickyHash) with
          | Some e => Err e
          | None =>
              if 15000 <? bo_PoolTolerance bo
              then Err (ErrNew "urltest balancer.pool_tolerance is in milliseconds and must be <= 15000 (alive delays cap at the 15s probe timeout); use 0 for first-live mode")
              else Ok (Some (mkBalancer pool (bo_PoolTolerance bo) stickyHash [] 0))
          end
    | None =>
        match firstError (checkSticky <$> defaults) with
        | Some e => Err e
        | None => Ok (Some (mkBalancer DefaultURLTestPool 0 defaults [] 0))
        end
    end.

(** [func isFailoverMode], [warnLegacyTolerance] and [warnFailoverTolerance]. *)
Definition isFailoverMode (o : URLTestOutboundOptions) : bool := String.eqb (uo_Mode o) URLTestModeFailover.
Definition warnLegacyTolerance (b : option balancer) (o : URLTestOutboundOptions) : bool :=
  match b with Some b => negb (uo_Tolerance o =? 0) && (b_poolTolerance b =? 0) | None => false end.
Definition warnFailoverTolerance (failover : bool) (o : URLTestOutboundOptions) : bool := failover && negb (uo_Tolerance o =? 0).

(** ** The sticky key *)

Section sticky.
(** [netip.Addr.String]. *)
Variable Addr_String : Addr → string.

(** [func stickyComponent(component, metadata, destination) string]. *)
Definition stickyComponent (component : string) (metadata : option InboundContext) (destination : Socksaddr) : string :=
  if String.eqb component URLTestStickyProcess then
    match metadata ≫= ProcessInfo with
    | None => EmptyString
    | Some p => match po_AndroidPackageNames p with name :: _ => name | [] => po_ProcessPath p end
    end
  else if String.eqb component URLTestStickyDomain then
    match metadata with
    | Some m => if String.eqb (Domain m) "" then sa_Fqdn destination else Domain m
    | None => sa_Fqdn destination
    end
  else if String.eqb component URLTestStickySourceIP then
    match metadata with
    | Some m => if Addr_IsValid (sa_Addr (Source m)) then Addr_String (sa_Addr (Source m)) else EmptyString
    | None => EmptyString
    end
  else if String.eqb component URLTestStickyDestIP then
    if Addr_IsValid (sa_Addr destination) then Addr_String (sa_Addr destination) else EmptyString
  else if String.eqb component URLTestStickyDestPort then
    if sa_Port destination =? 0 then EmptyString else FormatUint (sa_Port destination)
  else EmptyString.

(** [func (b *balancer) stickyKey(ctx, destination) string]. *)
Fixpoint stickyKey_loop (first : bool) (components : list string) (metadata : option InboundContext) (destination : Socksaddr) : list byte :=
  match components with
  | [] => []
  | c :: components =>
      (if first then [] else [x00]) ++ str_bytes (stickyComponent c metadata destination) ++ stickyKey_loop false components metadata destination
  end.
Definition stickyKey (b : balancer) (metadata : option InboundContext) (destination : Socksaddr) : list byte :=
  stickyKey_loop true (b_stickyHash b) metadata destination.
End sticky.

(** [func hashKey(key string) uint64]: 64-bit FNV-1a. *)
Definition hashKey_step (h : Z) (b : byte) : Z := (Z.lxor h (bz b) * 1099511628211) mod 2 ^ 64.
Definition hashKey (key : list byte) : Z := fold_left hashKey_step key 14695981039346656037.

(** ** Picking a slot *)

(** The second loop of [liveSlot]. *)
Fixpoint kthLive (alive : string → bool) (i : nat) (slots : list string) (k : Z) : option nat :=
  match slots with
  | [] => None
  | s :: slots =>
      if alive s then if k =? 0 then Some i else kthLive alive (S i) slots (k - 1)
      else kthLive alive (S i) slots k
  end.

(** [func (b *balancer) liveSlot(slots, k) (int, bool)]. *)
Definition liveSlot (alive : string → bool) (slots : list string) (k : Z) : option nat :=
  let live := Z.of_nat (length (filter (λ s, alive s = true) slots)) in
  if live =? 0 then None else kthLive alive 0 slots (k mod live).

(** [func (b *balancer) rotate(ctx) uint64]: a probe does not advance the counter. *)
Definition rotate (probe : bool) (b : balancer) : Z * balancer :=
  if probe then (b_counter b, b) else (b_counter b, set_counter ((b_counter b + 1) mod 2 ^ 64) b).

(** [func (b *balancer) pick(ctx, destination, fallback, resolve)]: the slot for
    the sticky key or the next one of the rotation.  [alive] is set when the
    group has started; an index outside the pool panics. *)
Definition pickSlot (alive : option (string → bool)) (probe : bool) (key : list byte) (b : balancer) : option nat * balancer :=
  let slots := b_slots b in
  let n := Z.of_nat (length slots) in
  if n =? 0 then (None, b)
  else if nonempty (b_stickyHash b) then
    let hash := hashKey key in
    let idx := Z.to_nat (hash mod n) in
    match alive with
    | Some alive =>
        if negb (alive (default EmptyString (slots !! idx))) then (Some (default idx (liveSlot alive slots (hash / n))), b) else (Some idx, b)
    | None => (Some idx, b)
    end
  else
    let '(counter, b) := rotate probe b in
    let idx := Z.to_nat (counter mod n) in
    match alive with
    | Some alive => (Some (default idx (liveSlot alive slots counter)), b)
    | None => (Some idx, b)
    end.

Definition pick (alive : option (string → bool)) (probe : bool) (key : list byte) (fallback : option string) (resolve : string → option string)
    (b : balancer) : result (option string) * balancer :=
  match pickSlot alive probe key b with
  | (None, b') => (Ok fallback, b')
  | (Some idx, b') =>
      match b_slots b !! idx with
      | None => (Panic "index out of range", b')
      | Some tag => (Ok (match resolve tag with Some node => Some node | None => fallback end), b')
      end
  end.

(** ** Planning the pool *)

(** [candidate]. *)
Record candidate : Type := mkCandidate { cd_tag : string; cd_delay : Z; cd_alive : bool }.

(** The order of [sortCandidatesByDelay]. *)
Definition cand_leb (a b : candidate) : bool :=
  (cd_delay a <? cd_delay b) || (cd_delay a =? cd_delay b) && String.leb (cd_tag a) (cd_tag b).

(** The inner loop of the insertion sort: [x] sinks from the right into the
    sorted part, held in reverse. *)
Fixpoint sink (x : candidate) (sorted : list candidate) : list candidate :=
  match sorted with
  | [] => [x]
  | a :: rest => if cand_leb a x then x :: a :: rest else a :: sink x rest
  end.

(** [func sortCandidatesByDelay(cs)]. *)
Definition sortCandidatesByDelay (cs : list candidate) : list candidate := rev (fold_left (λ sorted x, sink x sorted) cs []).

Definition hole (tag : string) : bool := String.eqb tag "".
Definition used (slots : list string) : gset string := list_to_set (filter (λ t, hole t = false) slots).
(** The slots with holes appended up to [n]. *)
Definition grow (n : nat) (slots : list string) : list string := slots ++ replicate (n - length slots) EmptyString.

(** A loop over the slots that may give a slot a new tag, which is then placed. *)
Fixpoint eachSlot {A} (slot : A → string) (choose : gset string → A → option string) (placed : gset string) (slots : list A) : gset string * list string :=
  match slots with
  | [] => (placed, [])
  | a :: slots =>
      match choose placed a with
      | Some t => let '(p, r) := eachSlot slot choose ({[t]} ∪ placed) slots in (p, t :: r)
      | None => let '(p, r) := eachSlot slot choose placed slots in (p, slot a :: r)
      end
  end.

(** The inner loop of the refill: the tags of [fillOrder] not looked at yet. *)
Fixpoint nextFill (live placed : gset string) (fillOrder : list string) : option string * list string :=
  match fillOrder with
  | [] => (None, [])
  | t :: rest => if negb (hole t) && bool_decide (t ∈ live) && negb (bool_decide (t ∈ placed)) then (Some t, rest) else nextFill live placed rest
  end.

Fixpoint refill (live placed : gset string) (fillOrder slots : list string) : gset string * list string :=
  match slots with
  | [] => (placed, [])
  | s :: slots =>
      if hole s then
        match nextFill live placed fillOrder with
        | (Some t, rest) => let '(p, r) := refill live ({[t]} ∪ placed) rest slots in (p, t :: r)
        | (None, rest) => let '(p, r) := refill live placed rest slots in (p, s :: r)
        end
      else let '(p, r) := refill live placed fillOrder slots in (p, s :: r)
  end.

(** A dead occupant goes back into the hole it left; a slot comes with the tag
    [current] has at its index. *)
Definition keepDead (live : gset string) (placed : gset string) (a : string * string) : option string :=
  let '(s, tag) := a in
  if hole s && negb (hole tag) && negb (bool_decide (tag ∈ live)) && negb (bool_decide (tag ∈ placed)) then Some tag else None.

(** The dead members left over go into any hole. *)
Definition surplus (live : gset string) (current : list string) (placed : gset string) (s : string) : option string :=
  if hole s then list_find (λ t, hole t = false ∧ t ∉ live ∧ t ∉ placed) current ≫= λ x, Some x.2 else None.

(** The members that answered, each in its slot. *)
Definition survivors (live : gset string) (current : list string) : list string :=
  (λ t, if negb (hole t) && bool_decide (t ∈ live) then t else EmptyString) <$> current.

(** [func planFirstLivePool(current, live, fillOrder, size) []string]. *)
Definition planFirstLivePool (current : list string) (live : gset string) (fillOrder : list string) (size : Z) : list string :=
  let next := grow (Z.to_nat size) (survivors live current) in
  let '(placed, next) := refill live (used next) fillOrder next in
  let '(placed, next) := eachSlot fst (keepDead live) placed (zip next (grow (length next) current)) in
  (eachSlot id (surplus live current) placed next).2.

(** The fastest candidate that is not in the pool. *)
Definition fastestUnused (alive : list candidate) (inPool : gset string) : option candidate :=
  list_find (λ c, cd_tag c ∉ inPool) alive ≫= λ x, Some x.2.

Definition fillFastest (alive : list candidate) (inPool : gset string) (s : string) : option string :=
  if hole s then cd_tag <$> fastestUnused alive inPool else None.

(** [func slotDelay(tag, results) (uint16, bool)]. *)
Definition slotDelay (results : gmap string candidate) (tag : string) : Z * bool :=
  if hole tag then (0, false)
  else match results !! tag with Some c => (cd_delay c, cd_alive c) | None => (0, false) end.

(** The eviction of one slot: the first unused candidate that may take it. *)
Definition evict (results : gmap string candidate) (tolerance : Z) (alive : list candidate) (inPool : gset string) (s : string) : option string :=
  let '(occDelay, occAlive) := slotDelay results s in
  list_find (λ c, cd_tag c ∉ inPool ∧ (negb occAlive || (cd_delay c + tolerance <? occDelay)) = true) alive ≫= λ x, Some (cd_tag x.2).

(** [func planTolerantPool(current, results, size, tolerance) []string]; [ranged]
    is the order of the range over [results]. *)
Definition planTolerantPool (current : list string) (results : gmap string candidate) (ranged : list candidate) (size tolerance : Z) : list string :=
  let alive := sortCandidatesByDelay (filter (λ c, cd_alive c = true) ranged) in
  let inPool := used current in
  let next := grow (Z.to_nat size) current in
  let '(inPool, next) := eachSlot id (fillFastest alive) inPool next in
  (eachSlot id (evict results tolerance alive) inPool next).2.
