(* ===== verification/BalancerTheorems.v ===== *)
(** Lemmas about the balancer: sorting, the loops over the slots, the two plans
    and the choice of a slot. *)

From Stdlib Require Import ssreflect.
From stdpp Require Import sorting.
From S2P Require Import Prelude GoBytes GoStrings Netip Metadata Balancer.

(** ** Sorting *)

Lemma string_leb_trans s1 s2 s3 : String.leb s1 s2 = true → String.leb s2 s3 = true → String.leb s1 s3 = true.
Proof.
  revert s2 s3. induction s1 as [|a1 s1 IH]; intros [|a2 s2] [|a3 s3]; try done.
  rewrite /String.leb /= /Ascii.compare.
  pose proof (N.compare_spec (N_of_ascii a1) (N_of_ascii a2)) as H12.
  pose proof (N.compare_spec (N_of_ascii a2) (N_of_ascii a3)) as H23.
  pose proof (N.compare_spec (N_of_ascii a1) (N_of_ascii a3)) as H13.
  specialize (IH s2 s3). rewrite /String.leb in IH.
  destruct H12, H23, H13; try done; try lia.
Qed.

Lemma cand_leb_total a b : cand_leb a b = true ∨ cand_leb b a = true.
Proof. rewrite /cand_leb. destruct (String.leb_total (cd_tag a) (cd_tag b)) as [-> | ->]; lia. Qed.

#[export] Instance cand_leb_trans : Transitive (λ a b, cand_leb a b = true).
Proof.
  intros a b c. rewrite /cand_leb. intros Hab%orb_prop Hbc%orb_prop. apply orb_true_intro.
  destruct Hab as [Hab|[Hab1 Hab2]%andb_prop], Hbc as [Hbc|[Hbc1 Hbc2]%andb_prop]; try (left; lia).
  right. apply andb_true_intro. split; [lia|by eapply string_leb_trans].
Qed.

Lemma sink_perm x l : sink x l ≡ₚ x :: l.
Proof. induction l as [|a l IH]; cbn; [done|]. case_match; [done|]. rewrite IH. apply Permutation_swap. Qed.

Lemma sink_sorted x l : StronglySorted (λ a b, cand_leb b a = true) l → StronglySorted (λ a b, cand_leb b a = true) (sink x l).
Proof.
  induction 1 as [|a l Hl IH Ha]; cbn; [by repeat constructor|]. case_match eqn:Hle.
  - constructor; [by constructor|]. constructor; [done|]. eapply Forall_impl; [exact Ha|]. intros y Hy. exact (cand_leb_trans y a x Hy Hle).
  - constructor; [done|]. rewrite sink_perm. constructor; [|done]. by destruct (cand_leb_total a x); congruence.
Qed.

Lemma sort_loop cs l :
  StronglySorted (λ a b, cand_leb b a = true) l →
  fold_left (λ sorted x, sink x sorted) cs l ≡ₚ cs ++ l ∧ StronglySorted (λ a b, cand_leb b a = true) (fold_left (λ sorted x, sink x sorted) cs l).
Proof.
  revert l. induction cs as [|c cs IH]; intros l Hl; cbn; [done|].
  destruct (IH (sink c l) (sink_sorted c l Hl)) as [Hp Hs]. split; [|done]. rewrite Hp sink_perm. by rewrite Permutation_middle.
Qed.

Lemma StronglySorted_rev {A} (R : A → A → Prop) l : StronglySorted (flip R) l → StronglySorted R (rev l).
Proof.
  induction 1 as [|a l Hl IH Ha]; cbn; [constructor|]. apply StronglySorted_app_2; [|done|by repeat constructor].
  intros x y Hx%list_elem_of_In%in_rev%list_elem_of_In Hy%list_elem_of_singleton. subst y. by eapply Forall_forall in Ha.
Qed.

(** The sort gives an ordered permutation. *)
Lemma sortCandidates_spec cs :
  sortCandidatesByDelay cs ≡ₚ cs ∧ StronglySorted (λ a b, cand_leb a b = true) (sortCandidatesByDelay cs).
Proof.
  destruct (sort_loop cs []) as [Hp Hs]; [constructor|]. rewrite app_nil_r in Hp. split.
  - by rewrite /sortCandidatesByDelay -Permutation_rev.
  - by apply StronglySorted_rev.
Qed.

(** It does not depend on the order of its input when tags are distinct. *)
Lemma sortCandidates_unique cs cs' :
  NoDup (cd_tag <$> cs) → cs ≡ₚ cs' → sortCandidatesByDelay cs = sortCandidatesByDelay cs'.
Proof.
  intros Hn Hp. destruct (sortCandidates_spec cs) as [Hp1 Hs1], (sortCandidates_spec cs') as [Hp2 Hs2].
  eapply StronglySorted_unique_strong; [|exact Hs1|exact Hs2|by rewrite Hp1 Hp2].
  intros a b Ha Hb Hab Hba. rewrite Hp1 in Ha. rewrite Hp2 -Hp in Hb.
  assert (cd_tag a = cd_tag b) as Htag.
  { rewrite /cand_leb in Hab Hba.
    destruct (String.leb (cd_tag a) (cd_tag b)) eqn:H1, (String.leb (cd_tag b) (cd_tag a)) eqn:H2; try lia.
    by apply String.leb_antisym. }
  apply list_elem_of_lookup in Ha as [i Hi], Hb as [j Hj].
  assert (i = j) as ->; [|congruence].
  eapply NoDup_lookup; [exact Hn|by rewrite list_lookup_fmap Hi|by rewrite list_lookup_fmap Hj /= Htag].
Qed.

(** ** Loops over the slots *)

Definition occupied (slots : list string) : list string := filter (λ t, hole t = false) slots.
#[global] Arguments occupied : simpl never.
#[global] Arguments hole : simpl never.
#[global] Arguments used : simpl never.

Lemma used_spec slots t : t ∈ used slots ↔ t ∈ slots ∧ hole t = false.
Proof. rewrite /used elem_of_list_to_set list_elem_of_filter. tauto. Qed.

Lemma occupied_app l k : occupied (l ++ k) = occupied l ++ occupied k.
Proof. apply filter_app. Qed.
Lemma occupied_cons s l : occupied (s :: l) = (if hole s then [] else [s]) ++ occupied l.
Proof. rewrite /occupied filter_cons. destruct (hole s) eqn:Hs; case_decide; done. Qed.
Lemma occupied_holes n : occupied (replicate n EmptyString) = [].
Proof. induction n as [|n IH]; [done|]. by rewrite /= occupied_cons IH. Qed.
Lemma occupied_grow n l : occupied (grow n l) = occupied l.
Proof. by rewrite /grow occupied_app occupied_holes app_nil_r. Qed.
Lemma length_grow n l : length (grow n l) = Nat.max n (length l).
Proof. rewrite /grow length_app length_replicate. lia. Qed.
Lemma used_occupied l : used l = list_to_set (occupied l).
Proof. done. Qed.

Section each.
Context {A : Type} (slot : A → string) (choose : gset string → A → option string).

(** What a slot holds after the loop: its tag of before, or the tag chosen when
    the tags of some [pl] were placed. *)
Definition chosen (placed p : gset string) (a : A) (s' : string) : Prop :=
  ∃ pl, placed ⊆ pl ∧ pl ⊆ p ∧ s' = default (slot a) (choose pl a).

Lemma eachSlot_spec placed slots p r :
  eachSlot slot choose placed slots = (p, r) →
  placed ⊆ p ∧ (∀ t, t ∈ p → t ∈ placed ∨ t ∈ r) ∧ Forall2 (chosen placed p) slots r.
Proof.
  revert placed p r. induction slots as [|a slots IH]; intros placed p r; cbn.
  { intros [= <- <-]. split_and!; [done|by left|constructor]. }
  destruct (choose placed a) as [t|] eqn:Hc.
  - destruct (eachSlot _ _ _ slots) as [p' r'] eqn:Hr. intros [= <- <-].
    destruct (IH _ _ _ Hr) as (H1 & H2 & H3). split_and!; [set_solver| |].
    + intros t' [Ht'|Ht']%H2; [|by right; right]. apply elem_of_union in Ht' as [->%elem_of_singleton|?]; [right; left|by left].
    + constructor; [exists placed; rewrite Hc; split_and!; [done|set_solver|done]|].
      eapply Forall2_impl; [exact H3|]. intros x y (pl & Hpl1 & Hpl2 & ->). exists pl. split_and!; [set_solver|done|done].
  - destruct (eachSlot _ _ _ slots) as [p' r'] eqn:Hr. intros [= <- <-].
    destruct (IH _ _ _ Hr) as (H1 & H2 & H3). split_and!; [done| |].
    + intros t' [Ht'|Ht']%H2; [by left|by right; right].
    + constructor; [exists placed; by rewrite Hc|done].
Qed.

(** Chosen tags are new and fill no second slot. *)
Lemma eachSlot_NoDup placed slots p r :
  (∀ pl a t, choose pl a = Some t → t ∉ pl ∧ hole t = false) →
  eachSlot slot choose placed slots = (p, r) → used (slot <$> slots) ⊆ placed → NoDup (occupied (slot <$> slots)) →
  NoDup (occupied r) ∧ used r ⊆ p ∧ (∀ t, t ∈ used r → t ∈ placed → t ∈ slot <$> slots).
Proof.
  intros Hnew. revert placed p r. induction slots as [|a slots IH]; intros placed p r; cbn.
  { intros [= <- <-] _ _. split_and!; [constructor|set_solver|set_solver]. }
  rewrite !used_occupied !occupied_cons list_to_set_app_L => Heq Hin /NoDup_app [Hn1 [Hd Hn2]].
  destruct (choose placed a) as [t|] eqn:Hc.
  - destruct (Hnew _ _ _ Hc) as [Ht1 Ht2]. destruct (eachSlot _ _ _ slots) as [p' r'] eqn:Hr. injection Heq as <- <-.
    destruct (eachSlot_spec _ _ _ _ Hr) as (Hp & _ & _).
    destruct (IH _ _ _ Hr) as (H1 & H2 & H3); [set_solver|done|].
    assert (∀ x, x ∈ occupied r' → x ∈ placed ∪ {[t]} → x ∈ slot <$> slots) as H3'.
    { intros x Hx Hx2. apply H3; [|set_solver]. by rewrite used_occupied elem_of_list_to_set. }
    rewrite occupied_cons Ht2. split_and!.
    + constructor; [|done]. intros Hx. apply H3' in Hx as Hx'; [|set_solver].
      apply Ht1. apply Hin. apply elem_of_union_r. rewrite elem_of_list_to_set. apply list_elem_of_filter. split; [done|]. done.
    + rewrite used_occupied in H2. set_solver.
    + intros x Hx Hp'. rewrite elem_of_list_to_set in Hx. apply elem_of_app in Hx as [Hx|Hx]; [set_solver|]. right. apply H3'; [done|set_solver].
  - destruct (eachSlot _ _ _ slots) as [p' r'] eqn:Hr. injection Heq as <- <-.
    destruct (eachSlot_spec _ _ _ _ Hr) as (Hp & _ & _).
    destruct (IH _ _ _ Hr) as (H1 & H2 & H3); [set_solver|done|].
    assert (∀ x, x ∈ occupied r' → x ∈ placed → x ∈ occupied (slot <$> slots)) as H3'.
    { intros x Hx Hx2. apply list_elem_of_filter. apply list_elem_of_filter in Hx as Hx3. split; [apply Hx3|]. apply H3; [|done].
      by rewrite used_occupied elem_of_list_to_set. }
    rewrite occupied_cons. split_and!.
    + apply NoDup_app. split_and!; [done| |done]. intros x Hx Hx2. apply (Hd x Hx). apply H3'; [done|]. set_solver.
    + rewrite used_occupied in H2. set_solver.
    + intros x Hx Hp'. rewrite elem_of_list_to_set in Hx. apply elem_of_app in Hx as [Hx|Hx].
      * destruct (hole (slot a)); set_solver.
      * right. apply H3' in Hx; [|done]. by apply list_elem_of_filter in Hx as [_ ?].
Qed.
End each.

(** A loop that only fills holes keeps the other slots. *)
Lemma eachSlot_holes {A} (slot : A → string) choose placed slots p r i a :
  (∀ pl a t, choose pl a = Some t → hole (slot a) = true) →
  eachSlot slot choose placed slots = (p, r) → slots !! i = Some a → hole (slot a) = false → r !! i = Some (slot a).
Proof.
  intros Hh Hr Hi Ha. destruct (eachSlot_spec _ _ _ _ _ _ Hr) as (_ & _ & Hall).
  destruct (Forall2_lookup_l _ _ _ _ _ Hall Hi) as (s & Hs & pl & _ & _ & ->).
  destruct (choose pl a) as [t|] eqn:Hc; [|done]. apply Hh in Hc. congruence.
Qed.

(** Where a slot comes from. *)
Lemma eachSlot_lookup {A} (slot : A → string) choose placed slots p r i s :
  eachSlot slot choose placed slots = (p, r) → r !! i = Some s →
  ∃ a pl, slots !! i = Some a ∧ placed ⊆ pl ∧ pl ⊆ p ∧ s = default (slot a) (choose pl a).
Proof.
  intros Hr Hi. destruct (eachSlot_spec _ _ _ _ _ _ Hr) as (_ & _ & Hall).
  destruct (Forall2_lookup_r _ _ _ _ _ Hall Hi) as (a & Ha & pl & H1 & H2 & ->). eauto 10.
Qed.

Lemma eachSlot_length {A} (slot : A → string) choose placed slots p r :
  eachSlot slot choose placed slots = (p, r) → length r = length slots.
Proof. intros Hr. destruct (eachSlot_spec _ _ _ _ _ _ Hr) as (_ & _ & Hall). by apply Forall2_length in Hall. Qed.

(** A tag that has been placed was there or has been chosen. *)
Lemma eachSlot_placed {A} (slot : A → string) choose placed slots p r t :
  eachSlot slot choose placed slots = (p, r) → t ∈ p → t ∈ placed ∨ ∃ i a pl, slots !! i = Some a ∧ r !! i = Some t ∧ choose pl a = Some t.
Proof.
  revert placed p r. induction slots as [|a slots IH]; intros placed p r; cbn; [intros [= <- <-]; by left|].
  destruct (choose placed a) as [t'|] eqn:Hc; destruct (eachSlot _ _ _ slots) as [p' r'] eqn:Hr; intros [= <- <-] Ht;
    destruct (IH _ _ _ Hr Ht) as [Hin|(i & a' & pl & ? & ? & ?)]; try (right; by exists (S i), a', pl).
  - apply elem_of_union in Hin as [->%elem_of_singleton|?]; [right; by exists 0%nat, a, placed|by left].
  - by left.
Qed.

(** ** Refilling *)

Definition suitable (live placed : gset string) (t : string) : Prop := hole t = false ∧ t ∈ live ∧ t ∉ placed.
#[export] Instance suitable_dec live placed t : Decision (suitable live placed t).
Proof. rewrite /suitable. apply _. Defined.

(** The first suitable tag of the whole list. *)
Definition refillChoice (live : gset string) (fillOrder : list string) (placed : gset string) (s : string) : option string :=
  if hole s then list_find (suitable live placed) fillOrder ≫= λ x, Some x.2 else None.

Lemma nextFill_spec live placed l :
  match nextFill live placed l with
  | (Some t, rest) => ∃ pre, l = pre ++ t :: rest ∧ Forall (λ x, ¬ suitable live placed x) pre ∧ suitable live placed t
  | (None, rest) => rest = [] ∧ Forall (λ x, ¬ suitable live placed x) l
  end.
Proof.
  induction l as [|x l IH]; cbn; [by split|].
  assert (negb (hole x) && bool_decide (x ∈ live) && negb (bool_decide (x ∈ placed)) = true ↔ suitable live placed x) as Hiff.
  { rewrite /suitable !andb_true_iff !negb_true_iff bool_decide_eq_true bool_decide_eq_false. tauto. }
  destruct (_ && _ && _); [exists []; split_and!; [done|constructor|by apply Hiff]|].
  destruct (nextFill live placed l) as [[t|] rest].
  - destruct IH as (pre & -> & Hpre & Ht). exists (x :: pre). split_and!; [done| |done]. constructor; [|done]. rewrite -Hiff. done.
  - destruct IH as [-> Hl]. split; [done|]. constructor; [|done]. by rewrite -Hiff.
Qed.

Lemma list_find_app_not {A} (P : A → Prop) `{∀ x, Decision (P x)} l k :
  Forall (λ x, ¬ P x) l → snd <$> list_find P (l ++ k) = snd <$> list_find P k.
Proof.
  intros Hl. induction Hl as [|x l Hx Hl IH]; [done|]. cbn. case_decide; [done|]. rewrite -IH.
  by destruct (list_find P (l ++ k)) as [[]|].
Qed.

Lemma refill_each live fillOrder slots : ∀ placed pre rest,
  fillOrder = pre ++ rest → Forall (λ x, ¬ suitable live placed x) pre →
  refill live placed rest slots = eachSlot id (refillChoice live fillOrder) placed slots.
Proof.
  induction slots as [|s slots IH]; intros placed pre rest Heq Hpre; cbn; [done|].
  rewrite {1}/refillChoice. destruct (hole s); [|by rewrite (IH placed pre rest)].
  assert (∀ o : option (nat * string), o ≫= (λ x, Some x.2) = snd <$> o) as Hsnd by by intros [[]|].
  rewrite Hsnd {1}Heq list_find_app_not; [done|].
  assert (∀ t, Forall (λ x, ¬ suitable live placed x) t → ∀ q, Forall (λ x, ¬ suitable live ({[q]} ∪ placed) x) t) as Hmono.
  { intros t Ht q. eapply Forall_impl; [exact Ht|]. rewrite /suitable. set_solver. }
  pose proof (nextFill_spec live placed rest) as Hn. destruct (nextFill live placed rest) as [[t|] rest'].
  - destruct Hn as (pre' & -> & Hpre' & Ht). rewrite list_find_app_not; [done|]. cbn. rewrite decide_True; [done|]. cbn.
    rewrite (IH ({[t]} ∪ placed) (pre ++ pre' ++ [t]) rest'); [by rewrite Heq -!app_assoc|..|done].
    apply Forall_app; split; [by apply Hmono|]. apply Forall_app; split; [by apply Hmono|]. repeat constructor. rewrite /suitable. set_solver.
  - destruct Hn as [-> Hrest]. assert (list_find (suitable live placed) rest = None) as ->.
    { apply list_find_None. done. }
    cbn. rewrite (IH placed (pre ++ rest) []); [by rewrite app_nil_r|by apply Forall_app|done].
Qed.

(** ** The first-live plan *)

Lemma find_snd_Some {A} (P : A → Prop) `{∀ x, Decision (P x)} l y :
  (list_find P l ≫= λ x, Some x.2) = Some y → P y ∧ y ∈ l.
Proof.
  destruct (list_find P l) as [[i z]|] eqn:Hf; [|done]. intros [= ->].
  apply list_find_Some in Hf as (Hi & HP & _). split; [done|]. by eapply list_elem_of_lookup_2.
Qed.
Lemma find_snd_None {A} (P : A → Prop) `{∀ x, Decision (P x)} l y :
  (list_find P l ≫= λ x, Some x.2) = None → y ∈ l → ¬ P y.
Proof.
  destruct (list_find P l) as [[i z]|] eqn:Hf; [done|]. intros _ Hy. apply list_find_None in Hf. by eapply Forall_forall in Hf.
Qed.

(** What the plan promises. *)
Record first_live (current : list string) (live : gset string) (fill : list string) (size : Z) (next : list string) : Prop := mkFirstLive {
  fl_length : length next = Nat.max (Z.to_nat size) (length current);
  fl_NoDup : NoDup (occupied next);
  fl_keeps i t : current !! i = Some t → hole t = false → t ∈ live → next !! i = Some t;
  fl_from t : t ∈ occupied next → t ∈ current ∨ (t ∈ fill ∧ t ∈ live);
  fl_full i t : current !! i = Some t → hole t = false → ∃ t', next !! i = Some t' ∧ hole t' = false;
  fl_saturated i s t : next !! i = Some s → hole s = true ∨ s ∉ live → t ∈ fill → hole t = false → t ∈ live → t ∈ next
}.

Lemma occupied_lookup l i j t : NoDup (occupied l) → l !! i = Some t → l !! j = Some t → hole t = false → i = j.
Proof.
  revert i j. induction l as [|s l IH]; intros i j Hn Hi Hj Ht; [done|].
  rewrite occupied_cons in Hn. apply NoDup_app in Hn as (_ & Hd & Hl).
  assert (∀ k, l !! k = Some t → s = t → False) as Hno.
  { intros k Hk ->. rewrite Ht in Hd. apply (Hd t); [left|]. apply list_elem_of_filter. split; [done|]. by eapply list_elem_of_lookup_2. }
  destruct i as [|i], j as [|j]; simplify_eq/=; [done|exfalso; eauto|exfalso; eauto|]. f_equal. by apply IH.
Qed.

Lemma survivors_lookup live current i s :
  survivors live current !! i = Some s → ∃ t, current !! i = Some t ∧ (s = t ∧ hole t = false ∧ t ∈ live ∨ hole s = true).
Proof.
  rewrite /survivors list_lookup_fmap. destruct (current !! i) as [t|]; [|done]. intros [= <-]. exists t. split; [done|].
  destruct (hole t) eqn:Ht; cbn; [by right|]. case_bool_decide; [by left|by right].
Qed.

Lemma survivors_occupied live current : sublist (occupied (survivors live current)) (occupied current).
Proof.
  rewrite /survivors. induction current as [|t l IH]; [done|]. cbn. rewrite !occupied_cons.
  destruct (hole t) eqn:Ht; cbn; [done|]. case_bool_decide; cbn; [rewrite Ht; by apply sublist_skip|by apply sublist_cons].
Qed.

Lemma grow_lookup n l i s : grow n l !! i = Some s → l !! i = Some s ∨ hole s = true.
Proof.
  rewrite /grow. intros [Hi|[_ Hi]]%lookup_app_Some; [by left|right]. by apply lookup_replicate_1 in Hi as [-> _].
Qed.

Lemma lookup_grow n l i s : l !! i = Some s → grow n l !! i = Some s.
Proof. apply lookup_app_l_Some. Qed.

(** The three loops of the plan. *)
Section first_live.
Context (current : list string) (live : gset string) (fill : list string) (size : Z) (p1 p2 p3 : gset string) (n1 n2 n3 : list string).
Hypothesis current_once : NoDup (occupied current).
Hypothesis fill_new : ∀ t, t ∈ fill → t ∉ used current.
#[local] Definition next0 : list string := grow (Z.to_nat size) (survivors live current).
Hypothesis loop1 : eachSlot id (refillChoice live fill) (used next0) next0 = (p1, n1).
Hypothesis loop2 : eachSlot fst (keepDead live) p1 (zip n1 (grow (length n1) current)) = (p2, n2).
Hypothesis loop3 : eachSlot id (surplus live current) p2 n2 = (p3, n3).

Lemma refillChoice_new pl s t : refillChoice live fill pl s = Some t → hole s = true ∧ suitable live pl t ∧ t ∈ fill.
Proof using. rewrite /refillChoice. destruct (hole s); [|done]. intros [??]%find_snd_Some. done. Qed.
Lemma keepDead_new pl a t : keepDead live pl a = Some t → hole a.1 = true ∧ t = a.2 ∧ hole t = false ∧ t ∉ live ∧ t ∉ pl.
Proof using.
  destruct a as [s tag]. rewrite /keepDead. case_match eqn:Hc; [|done]. intros [= <-].
  rewrite !andb_true_iff !negb_true_iff !bool_decide_eq_false in Hc. tauto.
Qed.
Lemma surplus_new pl s t : surplus live current pl s = Some t → hole s = true ∧ hole t = false ∧ t ∉ live ∧ t ∉ pl ∧ t ∈ current.
Proof using. rewrite /surplus. destruct (hole s); [|done]. intros [Ht ?]%find_snd_Some. tauto. Qed.

Lemma next0_lookup i s : next0 !! i = Some s → hole s = true ∨ (s ∈ live ∧ hole s = false ∧ current !! i = Some s).
Proof using.
  intros [Hi|?]%grow_lookup; [|by left]. apply survivors_lookup in Hi as (t & Ht & [(-> & ? & ?)|?]); [by right|by left].
Qed.

Lemma length_zip : length (zip n1 (grow (length n1) current)) = length n1.
Proof using. rewrite length_zip_with length_grow. lia. Qed.

Lemma loop_lengths : length n1 = length next0 ∧ length n2 = length n1 ∧ length n3 = length n2.
Proof using current_once fill_new loop1 loop2 loop3.
  pose proof (eachSlot_length _ _ _ _ _ _ loop1). pose proof (eachSlot_length _ _ _ _ _ _ loop2) as H2.
  pose proof (eachSlot_length _ _ _ _ _ _ loop3). rewrite length_zip in H2. done.
Qed.

Lemma zip_lookup i a : zip n1 (grow (length n1) current) !! i = Some a → n1 !! i = Some a.1 ∧ grow (length n1) current !! i = Some a.2.
Proof using. rewrite lookup_zip_with_Some. by intros (x & y & -> & Hx & Hy). Qed.

(** Tags stay once they are in. *)
Lemma stays1 i s : next0 !! i = Some s → hole s = false → n1 !! i = Some s.
Proof using current_once fill_new loop1 loop2 loop3. intros Hi Hs. eapply (eachSlot_holes id) in loop1; [exact loop1| |exact Hi|done]. intros pl a t Ht. by apply refillChoice_new in Ht as [? _]. Qed.
Lemma stays2 i s : n1 !! i = Some s → hole s = false → n2 !! i = Some s.
Proof using current_once fill_new loop1 loop2 loop3.
  intros Hi Hs. assert (is_Some (zip n1 (grow (length n1) current) !! i)) as [a Ha].
  { apply lookup_lt_is_Some. rewrite length_zip. by eapply lookup_lt_Some. }
  destruct (zip_lookup _ _ Ha) as [Ha1 _]. assert (s = a.1) as -> by congruence.
  eapply (eachSlot_holes fst) in loop2; [exact loop2| |exact Ha|done]. intros pl b t Ht. by apply keepDead_new in Ht as [? _].
Qed.
Lemma stays3 i s : n2 !! i = Some s → hole s = false → n3 !! i = Some s.
Proof using current_once fill_new loop1 loop2 loop3. intros Hi Hs. eapply (eachSlot_holes id) in loop3; [exact loop3| |exact Hi|done]. intros pl a t Ht. by apply surplus_new in Ht as [? _]. Qed.

(** Every slot after each loop. *)
Lemma after1 i s : n1 !! i = Some s →
  (hole s = false ∧ s ∈ live ∧ (current !! i = Some s ∨ s ∈ fill)) ∨
  (hole s = true ∧ ∀ t, t ∈ fill → hole t = false → t ∈ live → t ∈ p1).
Proof using current_once fill_new loop1 loop2 loop3.
  intros Hi. destruct (eachSlot_lookup _ _ _ _ _ _ _ _ loop1 Hi) as (a & pl & Ha & Hpl1 & Hpl2 & ->).
  destruct (refillChoice live fill pl a) as [t|] eqn:Hc; cbn.
  - apply refillChoice_new in Hc as (_ & (? & ? & ?) & ?). left. auto.
  - destruct (next0_lookup _ _ Ha) as [Hh|(? & ? & ?)]; [|left; auto]. right. split; [done|]. intros t Ht1 Ht2 Ht3.
    rewrite /refillChoice Hh in Hc. pose proof (find_snd_None _ _ t Hc Ht1) as Hn.
    destruct (decide (t ∈ pl)) as [Hin|Hout]; [set_solver|]. exfalso. apply Hn. done.
Qed.

Lemma after2 i s : n2 !! i = Some s →
  n1 !! i = Some s ∧ (hole s = true → ∀ t, current !! i = Some t → hole t = false → t ∉ live → t ∈ p2) ∨
  (current !! i = Some s ∧ hole s = false ∧ s ∉ live).
Proof using current_once fill_new loop1 loop2 loop3.
  intros Hi. destruct (eachSlot_lookup _ _ _ _ _ _ _ _ loop2 Hi) as (a & pl & Ha & Hpl1 & Hpl2 & ->).
  destruct (zip_lookup _ _ Ha) as [Ha1 Ha2]. destruct (keepDead live pl a) as [t|] eqn:Hc; cbn.
  - apply keepDead_new in Hc as (_ & -> & Hh & Hl & _). right. apply grow_lookup in Ha2 as [?|?]; [done|congruence].
  - left. split; [done|]. intros Hs t Ht Hh Hl. apply (lookup_grow (length n1)) in Ht. assert (t = a.2) as -> by congruence.
    destruct a as [s tag]; cbn in *. rewrite /keepDead Hs Hh in Hc.
    destruct (decide (tag ∈ pl)); [set_solver|]. by rewrite !bool_decide_false in Hc.
Qed.

Lemma after3 i s : n3 !! i = Some s → n2 !! i = Some s ∨ (hole s = false ∧ s ∉ live ∧ s ∈ current).
Proof using current_once fill_new loop1 loop2 loop3.
  intros Hi. destruct (eachSlot_lookup _ _ _ _ _ _ _ _ loop3 Hi) as (a & pl & Ha & Hpl1 & Hpl2 & ->).
  destruct (surplus live current pl a) as [t|] eqn:Hc; cbn; [|by left]. apply surplus_new in Hc as (_ & ? & ? & _ & ?). by right.
Qed.

(** The tags the first loop has placed, and those of the second. *)
Lemma placed1 t : t ∈ p1 → t ∈ n1 ∧ t ∈ live ∧ hole t = false.
Proof using current_once fill_new loop1 loop2 loop3.
  intros Ht. destruct (eachSlot_placed _ _ _ _ _ _ _ loop1 Ht) as [[[i Hi]%list_elem_of_lookup Hh]%used_spec|(i & a & pl & _ & Hi & Hc)].
  - split_and!; [by eapply list_elem_of_lookup_2, stays1| |done]. apply next0_lookup in Hi as [?|(? & _)]; [congruence|done].
  - apply refillChoice_new in Hc as (_ & (? & ? & _) & _). split_and!; [by eapply list_elem_of_lookup_2|done|done].
Qed.

Lemma placed2 t : t ∈ p2 → (t ∈ live ∧ t ∈ n1) ∨ (∃ i, current !! i = Some t ∧ n2 !! i = Some t).
Proof using current_once fill_new loop1 loop2 loop3.
  intros Ht. destruct (eachSlot_placed _ _ _ _ _ _ _ loop2 Ht) as [[? [? _]]%placed1|(i & a & pl & Ha & Hi & Hc)]; [by left|right].
  apply keepDead_new in Hc as (_ & -> & Hh & _). exists i. split; [|done]. apply zip_lookup in Ha as [_ [?|?]%grow_lookup]; [done|congruence].
Qed.

Lemma NoDup_loops : NoDup (occupied n3).
Proof using current_once fill_new loop1 loop2 loop3.
  destruct (eachSlot_NoDup id _ _ _ _ _ (λ pl a t H, let '(conj _ (conj (conj Hh (conj _ Hn)) _)) := refillChoice_new pl a t H in conj Hn Hh) loop1) as (N1 & U1 & _).
  { by rewrite list_fmap_id. }
  { rewrite list_fmap_id /next0 occupied_grow. eapply sublist_NoDup; [|apply survivors_occupied]. done. }
  destruct (eachSlot_NoDup fst _ _ _ _ _ (λ pl a t H, let '(conj _ (conj _ (conj Hh (conj _ Hn)))) := keepDead_new pl a t H in conj Hn Hh) loop2) as (N2 & U2 & _).
  { rewrite fst_zip //. rewrite length_grow. lia. }
  { rewrite fst_zip //. rewrite length_grow. lia. }
  apply (eachSlot_NoDup id _ _ _ _ _ (λ pl a t H, let '(conj _ (conj Hh (conj _ (conj Hn _)))) := surplus_new pl a t H in conj Hn Hh) loop3);
    by rewrite list_fmap_id.
Qed.

Lemma loops_first_live : first_live current live fill size n3.
Proof using current_once fill_new loop1 loop2 loop3.
  destruct loop_lengths as (L1 & L2 & L3). split.
  - rewrite L3 L2 L1 /next0 length_grow /survivors length_fmap. done.
  - apply NoDup_loops.
  - intros i t Hi Hh Hl. apply stays3, Hh. apply stays2, Hh. apply stays1, Hh. apply lookup_grow.
    rewrite /survivors list_lookup_fmap Hi /= Hh bool_decide_true; done.
  - intros t [Hh [i Hi]%list_elem_of_lookup]%list_elem_of_filter.
    destruct (after3 _ _ Hi) as [Hi2|(_ & _ & ?)]; [|by left].
    destruct (after2 _ _ Hi2) as [[Hi1 _]|[? _]]; [|left; by eapply list_elem_of_lookup_2].
    destruct (after1 _ _ Hi1) as [(_ & ? & [?|?])|[? _]]; [left; by eapply list_elem_of_lookup_2|by right|congruence].
  - intros i t Hi Hh. assert (is_Some (n2 !! i)) as [s Hs].
    { apply lookup_lt_is_Some. rewrite L2 L1 /next0 length_grow /survivors length_fmap. apply lookup_lt_Some in Hi. lia. }
    destruct (hole s) eqn:Hhs; [|exists s; split; [by apply stays3|done]]. exfalso.
    destruct (after2 _ _ Hs) as [[Hs1 Hdead]|(_ & ? & _)]; [|congruence].
    assert (t ∉ live) as Hl.
    { intros Hl. assert (n1 !! i = Some t); [|congruence]. apply stays1, Hh. apply lookup_grow.
      rewrite /survivors list_lookup_fmap Hi /= Hh bool_decide_true; done. }
    destruct (placed2 t (Hdead Hhs t Hi Hh Hl)) as [[? _]|(j & Hj & Hj2)]; [done|].
    assert (i = j) as -> by (by eapply occupied_lookup). congruence.
  - intros i s t Hi Hs Ht Hh Hl.
    assert (t ∈ n1) as [j Hj]%list_elem_of_lookup.
    { assert (is_Some (n1 !! i)) as [s1 Hs1] by (apply lookup_lt_is_Some; apply lookup_lt_Some in Hi; lia).
      destruct (after1 _ _ Hs1) as [(Hh1 & Hl1 & _)|[_ Hall]]; [|by apply placed1, Hall].
      assert (n3 !! i = Some s1) as Hs3 by (by apply stays3, Hh1; apply stays2). destruct Hs; congruence. }
    eapply list_elem_of_lookup_2. apply stays3, Hh. by apply stays2.
Qed.
End first_live.

Lemma planFirstLivePool_ok current live fill size :
  NoDup (occupied current) → (∀ t, t ∈ fill → t ∉ used current) →
  first_live current live fill size (planFirstLivePool current live fill size).
Proof.
  intros Hc Hf. rewrite /planFirstLivePool. rewrite -/(next0 current live size).
  rewrite (refill_each live fill _ _ [] fill); [done|constructor|].
  destruct (eachSlot id (refillChoice live fill) _ _) as [p1 n1] eqn:H1.
  destruct (eachSlot fst (keepDead live) p1 _) as [p2 n2] eqn:H2.
  destruct (eachSlot id (surplus live current) p2 n2) as [p3 n3] eqn:H3. by eapply loops_first_live.
Qed.

(** ** The tolerant plan *)

(** The results of a full run: every candidate under its own tag. *)
Definition results_ok (results : gmap string candidate) : Prop :=
  ∀ t c, results !! t = Some c → cd_tag c = t ∧ hole t = false.

Definition aliveIn (results : gmap string candidate) (c : candidate) : Prop := results !! cd_tag c = Some c ∧ cd_alive c = true.

(** What the plan promises. *)
Record tolerant (current : list string) (results : gmap string candidate) (size tolerance : Z) (next : list string) : Prop := mkTolerant {
  tl_length : length next = Nat.max (Z.to_nat size) (length current);
  tl_NoDup : NoDup (occupied next);
  tl_from t : t ∈ occupied next → t ∈ current ∨ ∃ c, aliveIn results c ∧ cd_tag c = t;
  tl_moves i j t : current !! i = Some t → hole t = false → next !! j = Some t → i = j;
  tl_keeps i t : current !! i = Some t → hole t = false →
    next !! i = Some t ∨ ∃ c, aliveIn results c ∧ cd_tag c ∉ used current ∧ next !! i = Some (cd_tag c) ∧
      ((slotDelay results t).2 = false ∨ cd_delay c + tolerance < (slotDelay results t).1);
  tl_best i s c : next !! i = Some s → aliveIn results c → cd_tag c ∉ next → cd_tag c ∉ used current →
    ∃ d, slotDelay results s = (d, true) ∧ d ≤ cd_delay c + tolerance
}.

Section tolerant.
Context (current : list string) (results : gmap string candidate) (ranged : list candidate) (size tolerance : Z).
Context (p1 p2 : gset string) (n1 n2 : list string).
Hypothesis current_once : NoDup (occupied current).
Hypothesis results_wf : results_ok results.
Hypothesis ranged_perm : ranged ≡ₚ (map_to_list results).*2.
Hypothesis tolerance_nonneg : 0 ≤ tolerance.
#[local] Definition alive : list candidate := sortCandidatesByDelay (filter (λ c, cd_alive c = true) ranged).
Hypothesis loop1 : eachSlot id (fillFastest alive) (used current) (grow (Z.to_nat size) current) = (p1, n1).
Hypothesis loop2 : eachSlot id (evict results tolerance alive) p1 n1 = (p2, n2).

Lemma alive_spec c : c ∈ alive ↔ aliveIn results c.
Proof using ranged_perm results_wf.
  rewrite /alive (proj1 (sortCandidates_spec _)) list_elem_of_filter ranged_perm list_elem_of_fmap /aliveIn. split.
  - intros (Ha & [t c'] & -> & Hc%elem_of_map_to_list). destruct (results_wf _ _ Hc) as [<- _]. done.
  - intros [Hc Ha]. split; [done|]. exists (cd_tag c, c). split; [done|]. by apply elem_of_map_to_list.
Qed.

Lemma alive_hole c : c ∈ alive → hole (cd_tag c) = false.
Proof using ranged_perm results_wf. intros [Hc _]%alive_spec. by destruct (results_wf _ _ Hc). Qed.

Lemma fillFastest_new pl s t : fillFastest alive pl s = Some t → hole s = true ∧ t ∉ pl ∧ ∃ c, c ∈ alive ∧ cd_tag c = t.
Proof using.
  rewrite /fillFastest /fastestUnused. destruct (hole s); [|done]. intros (c & [Hc1 Hc2]%find_snd_Some & ->)%fmap_Some. eauto.
Qed.

(** The first candidate that beats the occupant. *)
Definition beats (pl : gset string) (s : string) (c : candidate) : Prop :=
  cd_tag c ∉ pl ∧ ((slotDelay results s).2 = false ∨ cd_delay c + tolerance < (slotDelay results s).1).

Lemma evict_new pl s t :
  evict results tolerance alive pl s = Some t → ∃ c i, alive !! i = Some c ∧ cd_tag c = t ∧ beats pl s c ∧
    ∀ j c', (j < i)%nat → alive !! j = Some c' → ¬ beats pl s c'.
Proof using.
  rewrite /evict. destruct (slotDelay results s) as [d a] eqn:Hd. set (P := λ c, _ ∧ _).
  destruct (list_find P alive) as [[i c]|] eqn:Hf; [|done]. intros [= <-]. apply list_find_Some in Hf as (Hi & HP & Hfirst).
  assert (∀ c, P c ↔ beats pl s c) as Hiff.
  { intros c'. rewrite /P /beats Hd /=. destruct a; cbn; rewrite ?Z.ltb_lt; naive_solver. }
  exists c, i. split_and!; [done|done|by apply Hiff|]. intros j c' Hj Hc'. rewrite -Hiff. by eapply Hfirst.
Qed.

Lemma evict_none pl s c : evict results tolerance alive pl s = None → c ∈ alive → ¬ beats pl s c.
Proof using.
  rewrite /evict /beats. destruct (slotDelay results s) as [d a] eqn:Hd. set (P := λ c, _ ∧ _).
  destruct (list_find P alive) as [[i c']|] eqn:Hf; [done|]. intros _ Hc. apply list_find_None in Hf. eapply Forall_forall in Hf; [|exact Hc].
  rewrite /P in Hf. cbn. destruct a; cbn in Hf; rewrite ?Z.ltb_lt in Hf; naive_solver.
Qed.

(** A faster candidate comes first. *)
Lemma alive_order i j c c' : alive !! i = Some c → alive !! j = Some c' → (i ≤ j)%nat → cd_delay c ≤ cd_delay c'.
Proof using.
  intros Hi Hj Hij. destruct (decide (i = j)) as [->|]; [by simplify_eq|].
  pose proof (proj2 (sortCandidates_spec (filter (λ c, cd_alive c = true) ranged))) as Hs. fold alive in Hs.
  rewrite -(take_drop_middle _ _ _ Hi) in Hs Hj. apply StronglySorted_app_1_r in Hs. apply StronglySorted_cons in Hs as [Hf _].
  assert (c' ∈ drop (S i) alive) as Hin.
  { apply lookup_lt_Some in Hi. rewrite lookup_app_r length_take in Hj; [lia|]. replace (j - _)%nat with (S (j - S i))%nat in Hj by lia.
    by eapply list_elem_of_lookup_2. }
  eapply Forall_forall in Hf; [|exact Hin]. rewrite /cand_leb in Hf. lia.
Qed.

Lemma alive_delay c : c ∈ alive → slotDelay results (cd_tag c) = (cd_delay c, true).
Proof using ranged_perm results_wf.
  intros Hc. rewrite /slotDelay (alive_hole c Hc). by apply alive_spec in Hc as [-> ->].
Qed.

(** Every slot after each loop. *)
Lemma filled i s : n1 !! i = Some s →
  grow (Z.to_nat size) current !! i = Some s ∨
  (grow (Z.to_nat size) current !! i = Some EmptyString ∧ s ∉ used current ∧ ∃ c, c ∈ alive ∧ cd_tag c = s ∧
    ∀ c', c' ∈ alive → cd_tag c' ∉ p1 → cd_delay c ≤ cd_delay c').
Proof using current_once results_wf ranged_perm tolerance_nonneg loop1 loop2.
  intros Hi. destruct (eachSlot_lookup _ _ _ _ _ _ _ _ loop1 Hi) as (a & pl & Ha & Hpl1 & Hpl2 & ->).
  destruct (fillFastest alive pl a) as [t|] eqn:Hc; cbn; [|by left]. right.
  rewrite /fillFastest /fastestUnused in Hc. destruct (hole a) eqn:Hh; [|done].
  destruct (list_find _ alive) as [[k c]|] eqn:Hf; [|done]. injection Hc as <-. apply list_find_Some in Hf as (Hk & Hn & Hfirst). cbn.
  split_and!; [rewrite Ha; f_equal; by apply String.eqb_eq|set_solver|]. exists c. split_and!; [by eapply list_elem_of_lookup_2|done|].
  intros c' [j Hj]%list_elem_of_lookup Hc'. destruct (decide (k ≤ j)%nat); [by eapply alive_order|]. exfalso.
  apply (Hfirst j c' Hj); [lia|]. set_solver.
Qed.

Lemma evicted i s : n2 !! i = Some s → ∃ s0 pl, n1 !! i = Some s0 ∧ p1 ⊆ pl ∧ pl ⊆ p2 ∧ s = default s0 (evict results tolerance alive pl s0).
Proof using current_once results_wf ranged_perm tolerance_nonneg loop1 loop2. intros Hi. by destruct (eachSlot_lookup _ _ _ _ _ _ _ _ loop2 Hi) as (a & pl & ? & ? & ? & ->); eauto 10. Qed.

Lemma pool_grows : used current ⊆ p1 ∧ p1 ⊆ p2 ∧ (∀ t, t ∈ p2 → t ∈ used current ∨ t ∈ n1 ∨ t ∈ n2).
Proof using current_once results_wf ranged_perm tolerance_nonneg loop1 loop2.
  destruct (eachSlot_spec _ _ _ _ _ _ loop1) as (H1 & H2 & _). destruct (eachSlot_spec _ _ _ _ _ _ loop2) as (H3 & H4 & _).
  split_and!; [done|done|]. intros t [[?|?]%H2|?]%H4; auto.
Qed.

(** A candidate taken in the first loop is not evicted in the second. *)
Lemma not_evicted pl s c :
  c ∈ alive → cd_tag c = s → (∀ c', c' ∈ alive → cd_tag c' ∉ p1 → cd_delay c ≤ cd_delay c') → p1 ⊆ pl →
  evict results tolerance alive pl s = None.
Proof using current_once results_wf ranged_perm tolerance_nonneg loop1 loop2.
  intros Hc <- Hmin Hpl. destruct (evict _ _ _ _ _) as [t|] eqn:He; [|done].
  apply evict_new in He as (c' & i & Hi & _ & [Hn Hbeats] & _). rewrite (alive_delay c Hc) /= in Hbeats.
  assert (cd_delay c ≤ cd_delay c') by (apply Hmin; [by eapply list_elem_of_lookup_2|set_solver]). destruct Hbeats; [done|lia].
Qed.

Lemma unused_tag c : cd_tag c ∉ n2 → cd_tag c ∉ used current → c ∈ alive → cd_tag c ∉ p2.
Proof using current_once results_wf ranged_perm tolerance_nonneg loop1 loop2.
  intros Hn Hu Hc Hp. destruct pool_grows as (_ & _ & Hp2). destruct (Hp2 _ Hp) as [?|[[i Hi]%list_elem_of_lookup|?]]; [done| |done].
  destruct (filled _ _ Hi) as [Hg|(_ & _ & c' & Hc' & Htag & Hmin)].
  - apply Hu. apply used_spec. pose proof (alive_hole c Hc). split; [|done]. apply grow_lookup in Hg as [?|?]; [by eapply list_elem_of_lookup_2|congruence].
  - apply Hn. assert (is_Some (n2 !! i)) as [s Hs].
    { apply lookup_lt_is_Some. rewrite (eachSlot_length _ _ _ _ _ _ loop2). by eapply lookup_lt_Some. }
    destruct (evicted _ _ Hs) as (s0 & pl & Hs0 & Hpl1 & Hpl2 & ->). assert (s0 = cd_tag c) as -> by congruence.
    rewrite (not_evicted pl (cd_tag c) c') in Hs; [done..|]. by eapply list_elem_of_lookup_2.
Qed.

Lemma loops_tolerant : tolerant current results size tolerance n2.
Proof using current_once results_wf ranged_perm tolerance_nonneg loop1 loop2.
  destruct pool_grows as (Hp1 & Hp2 & _). split.
  - by rewrite (eachSlot_length _ _ _ _ _ _ loop2) (eachSlot_length _ _ _ _ _ _ loop1) length_grow.
  - destruct (eachSlot_NoDup id (fillFastest alive) (used current) (grow (Z.to_nat size) current) p1 n1) as (N1 & U1 & _); [|done|..].
    { intros pl a t (_ & ? & c & Hc & <-)%fillFastest_new. split; [done|by apply alive_hole]. }
    { by rewrite list_fmap_id !used_occupied occupied_grow. }
    { by rewrite list_fmap_id occupied_grow. }
    apply (eachSlot_NoDup id (evict results tolerance alive) p1 n1 p2 n2); [|done|by rewrite list_fmap_id..].
    intros pl a t (c & i & Hi & <- & [? _] & _)%evict_new. split; [done|]. apply alive_hole. by eapply list_elem_of_lookup_2.
  - intros t [Hh [i Hi]%list_elem_of_lookup]%list_elem_of_filter. destruct (evicted _ _ Hi) as (s0 & pl & Hs0 & _ & _ & Ht).
    destruct (evict _ _ _ pl s0) as [t'|] eqn:He; cbn in Ht; subst.
    + apply evict_new in He as (c & k & Hk & <- & _). right. exists c. split; [|done]. apply alive_spec. by eapply list_elem_of_lookup_2.
    + destruct (filled _ _ Hs0) as [[?|?]%grow_lookup|(_ & _ & c & Hc & Htag & _)]; [left; by eapply list_elem_of_lookup_2|congruence|].
      right. exists c. split; [by apply alive_spec|done].
  - intros i j t Hi Hh Hj. assert (t ∈ used current) as Hu by (apply used_spec; split; [by eapply list_elem_of_lookup_2|done]).
    destruct (evicted _ _ Hj) as (s0 & pl & Hs0 & Hpl & _ & Ht).
    destruct (evict _ _ _ pl s0) as [t'|] eqn:He; cbn in Ht; subst.
    { apply evict_new in He as (c & k & Hk & Htag & [Hn _] & _). rewrite Htag in Hn. set_solver. }
    destruct (filled _ _ Hs0) as [[?|?]%grow_lookup|(_ & ? & _)]; [by eapply occupied_lookup|congruence|done].
  - intros i t Hi Hh. assert (is_Some (n2 !! i)) as [s Hs].
    { apply lookup_lt_is_Some. rewrite (eachSlot_length _ _ _ _ _ _ loop2) (eachSlot_length _ _ _ _ _ _ loop1) length_grow. apply lookup_lt_Some in Hi. lia. }
    destruct (evicted _ _ Hs) as (s0 & pl & Hs0 & Hpl & _ & Ht).
    apply (lookup_grow (Z.to_nat size)) in Hi. assert (s0 = t) as ->.
    { destruct (filled _ _ Hs0) as [?|(Hg & _)]; [congruence|]. assert (t = EmptyString) by congruence. by subst. }
    destruct (evict _ _ _ pl t) as [t'|] eqn:He; cbn in Ht; subst; [|by left]. right.
    apply evict_new in He as (c & k & Hk & <- & [Hn Hb] & _). exists c. split_and!; [|set_solver|done|done].
    apply alive_spec. by eapply list_elem_of_lookup_2.
  - intros i s c Hi Hal%alive_spec Hn Hu. pose proof (unused_tag c Hn Hu Hal) as Hout.
    destruct (evicted _ _ Hi) as (s0 & pl & Hs0 & Hpl & Hpl2 & ->).
    assert (cd_tag c ∉ pl) as Hcpl by set_solver.
    destruct (evict _ _ _ pl s0) as [t'|] eqn:He; cbn.
    + apply evict_new in He as (c' & k & Hk & <- & [Hn' Hb] & Hfirst). exists (cd_delay c'). split; [apply alive_delay; by eapply list_elem_of_lookup_2|].
      apply list_elem_of_lookup in Hal as [j Hj]. destruct (decide (k ≤ j)%nat); [pose proof (alive_order _ _ _ _ Hk Hj); lia|].
      assert (¬ beats pl s0 c) as Hnb by (eapply Hfirst; [|exact Hj]; lia). rewrite /beats in Hnb. destruct Hb; [naive_solver|].
      assert (¬ cd_delay c + tolerance < (slotDelay results s0).1) by naive_solver. lia.
    + pose proof (evict_none _ _ c He Hal) as Hnb. rewrite /beats in Hnb. destruct (slotDelay results s0) as [d a]; cbn in *.
      exists d. destruct a; [|naive_solver]. split; [done|]. apply Z.nlt_ge. naive_solver.
Qed.
End tolerant.

Lemma planTolerantPool_ok current results ranged size tolerance :
  NoDup (occupied current) → results_ok results → ranged ≡ₚ (map_to_list results).*2 → 0 ≤ tolerance →
  tolerant current results size tolerance (planTolerantPool current results ranged size tolerance).
Proof.
  intros Hc Hr Hp Ht. rewrite /planTolerantPool. rewrite -/(alive ranged).
  destruct (eachSlot id (fillFastest _) _ _) as [p1 n1] eqn:H1.
  destruct (eachSlot id (evict _ _ _) p1 n1) as [p2 n2] eqn:H2. by eapply loops_tolerant.
Qed.

Lemma NoDup_fmap_filter {A B} (f : A → B) (P : A → Prop) `{∀ x, Decision (P x)} l : NoDup (f <$> l) → NoDup (f <$> filter P l).
Proof. intros Hn. eapply sublist_NoDup; [exact Hn|]. apply fmap_sublist, sublist_filter. Qed.

Lemma results_tags results : results_ok results → NoDup (cd_tag <$> (map_to_list results).*2).
Proof.
  intros Hr. assert (cd_tag <$> (map_to_list results).*2 = (map_to_list results).*1) as ->; [|apply NoDup_fst_map_to_list].
  rewrite -list_fmap_compose. apply list_fmap_ext. intros i [t c] Hi%list_elem_of_lookup_2%elem_of_map_to_list. by destruct (Hr _ _ Hi).
Qed.

(** The plan does not depend on the order of the range over the results. *)
Lemma planTolerantPool_deterministic current results ranged ranged' size tolerance :
  results_ok results → ranged ≡ₚ (map_to_list results).*2 → ranged' ≡ₚ (map_to_list results).*2 →
  planTolerantPool current results ranged size tolerance = planTolerantPool current results ranged' size tolerance.
Proof.
  intros Hr Hp Hp'. rewrite /planTolerantPool.
  assert (sortCandidatesByDelay (filter (λ c, cd_alive c = true) ranged) = sortCandidatesByDelay (filter (λ c, cd_alive c = true) ranged')) as ->; [|done].
  apply sortCandidates_unique; [|by rewrite Hp Hp']. rewrite Hp. by apply NoDup_fmap_filter, results_tags.
Qed.

(** ** Picking *)

(** The indices of the live slots. *)
Fixpoint live_from (alive : string → bool) (i : nat) (slots : list string) : list nat :=
  match slots with [] => [] | s :: slots => (if alive s then [i] else []) ++ live_from alive (S i) slots end.

Lemma kthLive_nth alive slots : ∀ i k, 0 ≤ k → kthLive alive i slots k = live_from alive i slots !! Z.to_nat k.
Proof.
  induction slots as [|s slots IH]; intros i k Hk; cbn; [by rewrite lookup_nil|].
  destruct (alive s); cbn; [|by apply IH]. destruct (Z.eqb_spec k 0) as [->|]; [done|].
  rewrite IH; [lia|]. replace (Z.to_nat k) with (S (Z.to_nat (k - 1))) by lia. done.
Qed.

Lemma live_from_length alive slots i : length (live_from alive i slots) = length (filter (λ s, alive s = true) slots).
Proof. revert i. induction slots as [|s slots IH]; intros i; [done|]. rewrite /= filter_cons. destruct (alive s); case_decide; cbn; by rewrite ?IH. Qed.

Lemma live_from_spec alive slots : ∀ i j, j ∈ live_from alive i slots ↔ ∃ s, (i ≤ j)%nat ∧ slots !! (j - i)%nat = Some s ∧ alive s = true.
Proof.
  induction slots as [|s slots IH]; intros i j; cbn; [set_solver|]. rewrite elem_of_app IH. split.
  - intros [Hj|(s' & Hle & Hs & Ha)].
    + destruct (alive s) eqn:Ha; [|set_solver]. apply list_elem_of_singleton in Hj as ->. exists s. rewrite Nat.sub_diag. done.
    + exists s'. split_and!; [lia| |done]. by replace (j - i)%nat with (S (j - S i)) by lia.
  - intros (s' & Hle & Hs & Ha). destruct (decide (j = i)) as [->|].
    + rewrite Nat.sub_diag in Hs. injection Hs as ->. rewrite Ha. left. set_solver.
    + right. exists s'. replace (j - i)%nat with (S (j - S i)) in Hs by lia. split_and!; [lia|done|done].
Qed.

Definition liveSlots (alive : string → bool) (slots : list string) : list nat := live_from alive 0 slots.

Lemma liveSlots_spec alive slots j : j ∈ liveSlots alive slots ↔ ∃ s, slots !! j = Some s ∧ alive s = true.
Proof. rewrite /liveSlots live_from_spec. rewrite Nat.sub_0_r. split; intros (s & H); exists s; intuition lia. Qed.

Lemma liveSlot_nth alive slots k :
  0 ≤ k → liveSlot alive slots k = liveSlots alive slots !! Z.to_nat (k mod Z.of_nat (length (liveSlots alive slots))).
Proof.
  intros Hk. rewrite /liveSlot -(live_from_length alive slots 0) -/(liveSlots alive slots). set (L := Z.of_nat _).
  destruct (Z.eqb_spec L 0) as [HL|HL].
  - assert (liveSlots alive slots = []) as ->; [|done]. apply length_zero_iff_nil. lia.
  - rewrite kthLive_nth; [|done]. pose proof (Z.mod_pos_bound k L). lia.
Qed.

Lemma liveSlot_live alive slots k : 0 ≤ k → liveSlots alive slots ≠ [] → ∃ j, liveSlot alive slots k = Some j ∧ j ∈ liveSlots alive slots.
Proof.
  intros Hk Hl. rewrite liveSlot_nth; [done|]. set (L := Z.of_nat _). assert (0 < L) by (destruct (liveSlots alive slots); [done|cbn in L; lia]).
  assert (is_Some (liveSlots alive slots !! Z.to_nat (k mod L))) as [j Hj].
  { apply lookup_lt_is_Some. pose proof (Z.mod_pos_bound k L). lia. }
  exists j. split; [done|]. by eapply list_elem_of_lookup_2.
Qed.

Lemma hashKey_range key : 0 ≤ hashKey key.
Proof.
  rewrite /hashKey. assert (∀ h, 0 ≤ h → 0 ≤ fold_left hashKey_step key h) as H; [|by apply H].
  induction key as [|b key IH]; intros h Hh; [done|]. apply IH. apply Z.mod_pos_bound. lia.
Qed.

(** ** The theorem about picking *)

(** The slots of the next [n] connections. *)
Fixpoint picks (alive : string → bool) (n : nat) (b : balancer) : list nat :=
  match n with
  | O => []
  | S n => let '(idx, b) := pickSlot (Some alive) false [] b in default 0%nat idx :: picks alive n b
  end.

Lemma mod_index (h : Z) (l : list string) : l ≠ [] → ∃ s, l !! Z.to_nat (h mod Z.of_nat (length l)) = Some s.
Proof.
  intros Hl. apply lookup_lt_is_Some. assert (0 < Z.of_nat (length l)) by (destruct l; [done|cbn; lia]).
  pose proof (Z.mod_pos_bound h (Z.of_nat (length l))). lia.
Qed.

(** A slot that is alive if any is. *)
Definition good_slot (alive : string → bool) (slots : list string) (idx : nat) : Prop :=
  ∃ tag, slots !! idx = Some tag ∧ (liveSlots alive slots ≠ [] → alive tag = true).

Lemma liveSlot_good alive slots k h :
  0 ≤ k → slots ≠ [] → good_slot alive slots (default (Z.to_nat (h mod Z.of_nat (length slots))) (liveSlot alive slots k)).
Proof.
  intros Hk Hs. destruct (decide (liveSlots alive slots = [])) as [He|Hne].
  - rewrite liveSlot_nth // He /=. destruct (mod_index h slots Hs) as [s Hi]. by exists s.
  - destruct (liveSlot_live alive slots k Hk Hne) as (j & -> & Hj). apply liveSlots_spec in Hj as (s & Hi & Ha). by exists s.
Qed.

Lemma pickSlot_good alive probe key b :
  b_slots b ≠ [] → 0 ≤ b_counter b →
  ∃ idx b', pickSlot (Some alive) probe key b = (Some idx, b') ∧ good_slot alive (b_slots b) idx ∧ (probe = true → b' = b).
Proof.
  intros Hs Hc. rewrite /pickSlot. destruct (Z.eqb_spec (Z.of_nat (length (b_slots b))) 0); [destruct (b_slots b); [done|cbn in *; lia]|].
  pose proof (hashKey_range key) as Hh. case_match.
  - destruct (mod_index (hashKey key) _ Hs) as [s Hi]. case_match eqn:Ha.
    + do 2 eexists. split; [done|]. split; [|done]. apply liveSlot_good; [apply Z.div_pos; lia|done].
    + do 2 eexists. split; [done|]. split; [|done]. exists s. split; [done|]. rewrite Hi /= in Ha. by apply negb_false_iff in Ha.
  - rewrite /Balancer.rotate. destruct probe; do 2 eexists; (split; [done|]); (split; [by apply liveSlot_good|done]).
Qed.

Lemma picks_step alive b :
  b_slots b ≠ [] → b_stickyHash b = [] → pickSlot (Some alive) false [] b =
    (Some (default (Z.to_nat (b_counter b mod Z.of_nat (length (b_slots b)))) (liveSlot alive (b_slots b) (b_counter b))),
     set_counter ((b_counter b + 1) mod 2 ^ 64) b).
Proof.
  intros Hs Hh. rewrite /pickSlot Hh. destruct (Z.eqb_spec (Z.of_nat (length (b_slots b))) 0); [destruct (b_slots b); [done|cbn in *; lia]|].
  done.
Qed.

Lemma picks_lookup alive n : ∀ b j,
  b_slots b ≠ [] → b_stickyHash b = [] → 0 ≤ b_counter b → b_counter b + Z.of_nat n ≤ 2 ^ 64 → liveSlots alive (b_slots b) ≠ [] → (j < n)%nat →
  picks alive n b !! j = liveSlots alive (b_slots b) !! Z.to_nat ((b_counter b + Z.of_nat j) mod Z.of_nat (length (liveSlots alive (b_slots b)))).
Proof.
  induction n as [|n IH]; intros b j Hs Hh Hc Hb Hl Hj; [lia|]. cbn [picks]. rewrite picks_step //.
  destruct j as [|j]; cbn [lookup list_lookup].
  - destruct (liveSlot_live alive (b_slots b) (b_counter b) Hc Hl) as (i & Hi & _). rewrite -liveSlot_nth; [lia|]. by rewrite Z.add_0_r Hi.
  - destruct b as [ps pt st sl c]; cbn [set_counter b_slots b_stickyHash b_counter] in *.
    assert ((c + 1) mod 2 ^ 64 = c + 1) as Hmod by (apply Z.mod_small; lia).
    rewrite IH; cbn [b_slots b_stickyHash b_counter]; rewrite ?Hmod; try done; try lia. do 3 f_equal. lia.
Qed.

Lemma length_picks alive n b : length (picks alive n b) = n.
Proof. revert b. induction n as [|n IH]; intros b; cbn; [done|]. destruct (pickSlot _ _ _ _) as [idx b']. cbn. by rewrite IH. Qed.

Lemma perm_rotation {A} (l k : list A) (c : Z) :
  length k = length l → 0 ≤ c →
  (∀ j, (j < length l)%nat → k !! j = l !! Z.to_nat ((c + Z.of_nat j) mod Z.of_nat (length l))) → k ≡ₚ l.
Proof.
  intros Hlen Hc Hk. assert (k = list.rotate (Z.to_nat c) l) as ->.
  { apply list_eq_same_length with (length l); [by rewrite length_rotate|done|]. intros j x y Hj Hx Hy.
    rewrite lookup_rotate_r // in Hy. rewrite Hk // in Hx. rewrite /rotate_nat_add Z2Nat.id // in Hy. congruence. }
  rewrite /list.rotate Permutation_app_comm take_drop. done.
Qed.

(** C12: the choice of a slot.  Whatever the hash of the key or the counter, the
    balancer picks a slot of its pool, one that answered its last probe as long
    as there is one, and a probe connection leaves the balancer as it is.  With
    sticky keys a connection stays with the slot of its key as long as that slot
    is alive, whatever happens to the others.  Without, every run of as many
    connections as there are live slots uses each of them once. *)
Theorem balancer_picks_live alive b :
  b_slots b ≠ [] → 0 ≤ b_counter b →
  (∀ probe key fallback resolve, ∃ idx tag b', pickSlot (Some alive) probe key b = (Some idx, b') ∧ b_slots b !! idx = Some tag ∧
    (existsb alive (b_slots b) = true → alive tag = true) ∧ (probe = true → b' = b) ∧
    pick (Some alive) probe key fallback resolve b = (Ok (match resolve tag with Some n => Some n | None => fallback end), b')) ∧
  (b_stickyHash b ≠ [] → ∀ probe key tag, let idx := Z.to_nat (hashKey key mod Z.of_nat (length (b_slots b))) in
    b_slots b !! idx = Some tag → alive tag = true → pickSlot (Some alive) probe key b = (Some idx, b)) ∧
  (b_stickyHash b = [] → existsb alive (b_slots b) = true →
    b_counter b + Z.of_nat (length (liveSlots alive (b_slots b))) ≤ 2 ^ 64 →
    picks alive (length (liveSlots alive (b_slots b))) b ≡ₚ liveSlots alive (b_slots b)).
Proof.
  intros Hs Hc.
  assert (existsb alive (b_slots b) = true → liveSlots alive (b_slots b) ≠ []) as Hex.
  { intros (s & Hin%list_elem_of_In & Ha)%existsb_exists He. apply list_elem_of_lookup in Hin as [j Hj].
    assert (j ∈ liveSlots alive (b_slots b)) as Hl by (apply liveSlots_spec; eauto). rewrite He in Hl. set_solver. }
  split_and!.
  - intros probe key fallback resolve. destruct (pickSlot_good alive probe key b Hs Hc) as (idx & b' & Hp & (tag & Hi & Ha) & Hb).
    exists idx, tag, b'. split_and!; [done|done|auto|done|]. by rewrite /pick Hp Hi.
  - intros Hst probe key tag idx Hi Ha. rewrite /pickSlot. destruct (Z.eqb_spec (Z.of_nat (length (b_slots b))) 0); [destruct (b_slots b); [done|cbn in *; lia]|].
    apply nonempty_true in Hst as ->. by rewrite -/idx Hi /= Ha.
  - intros Hst He Hb. apply (perm_rotation _ _ (b_counter b)); [by rewrite length_picks|done|]. intros j Hj. apply picks_lookup; auto.
Qed.

Definition demo_balancer : balancer := mkBalancer 3 0 [] ["a"; "b"; "c"]%string 4.

Lemma balancer_picks_live_witness :
  (∀ probe key fallback resolve, ∃ idx tag b', pickSlot (Some (λ t, negb (String.eqb t "b"))) probe key demo_balancer = (Some idx, b') ∧
    b_slots demo_balancer !! idx = Some tag ∧
    (existsb (λ t, negb (String.eqb t "b")) (b_slots demo_balancer) = true → negb (String.eqb tag "b") = true) ∧ (probe = true → b' = demo_balancer) ∧
    pick (Some (λ t, negb (String.eqb t "b"))) probe key fallback resolve demo_balancer =
      (Ok (match resolve tag with Some n => Some n | None => fallback end), b')) ∧
  picks (λ t, negb (String.eqb t "b")) 4 demo_balancer = [0; 2; 0; 2]%nat.
Proof.
  split; [|vm_compute; reflexivity]. apply (balancer_picks_live (λ t, negb (String.eqb t "b")) demo_balancer); [done|cbn; lia].
Defined.
