(* ===== verification/Group.v ===== *)
(** Outbound groups ([protocol/group]): the selector and the urltest group with
    its three modes, least_test, failover and round_robin.

    An outbound is named by its tag: the outbound manager has one outbound under
    a tag, and the groups compare outbounds by identity.  The outbounds a group
    sees, the answers of probes and of dials, and the runs of nested urltest
    groups are inputs ([GroupEnv]).  Probes run in parallel in the code and in
    order here; a connection is two steps, the pick of a node and what the end
    of the dial does. *)

From S2P Require Import Prelude GoBytes GoStrings Netip Metadata Router Balancer.

Definition tcp : string := "tcp".
Definition udp : string := "udp".

(** [func RealTag(detour, network) string]. *)
Fixpoint RealTag (detour : AnOutbound) (network : string) : string :=
  match detour with
  | PlainOutbound tag _ _ => tag
  | GroupOutbound _ _ _ selected => match selected network with Some next => RealTag next network | None => EmptyString end
  end.

Definition Outbound_Network (o : AnOutbound) : list string :=
  match o with PlainOutbound _ n _ | GroupOutbound _ n _ _ => n end.

(** [adapter.URLTestHistory] and the map of [urltest.HistoryStorage]. *)
Record URLTestHistory : Type := mkHistory { hi_Time : Z; hi_Delay : Z }.
Definition HistoryStorage : Type := gmap string URLTestHistory.

(** What a probe of a leaf gives: a delay in milliseconds, no answer, or the end
    of the context of the run. *)
Inductive probeAnswer : Type := Delayed (ms : Z) | NoAnswer | Cancelled.

(** The type switch of [urlTestBatch.test]. *)
Inductive nodeKind : Type := LeafNode | URLTestNode | GroupNode (all : list string).

(** What surrounds one operation of a group: the outbounds, the answers of
    probes and the times at which they come, the runs of nested groups, the order
    of ranges over maps, the times at which a run starts and ends, and whether its
    context has ended by then. *)
Record GroupEnv : Type := mkGroupEnv {
  env_tags : list string;                                                    (* the tags of the outbound manager *)
  env_outbound : string → option AnOutbound;                                 (* OutboundManager.Outbound *)
  env_kind : string → nodeKind;
  env_probe : string → probeAnswer;                                          (* urltest.URLTest *)
  env_stamp : string → Z;
  env_nested : string → bool → HistoryStorage → gmap string Z * HistoryStorage; (* urlTest of a nested group *)
  env_range : gmap string candidate → list candidate;
  env_now : Z;
  env_end : Z;
  env_ctxErr : bool
}.

(** The manager knows the tags it lists, and a range goes over every entry once. *)
Class GroupEnvLaws (E : GroupEnv) : Prop := {
  env_outbound_tags t : env_outbound E t ≠ None → t ∈ env_tags E;
  env_range_perm m : env_range E m ≡ₚ (map_to_list m).*2
}.

Definition networksOf (E : GroupEnv) (tag : string) : list string := default [] (Outbound_Network <$> env_outbound E tag).
Definition realTag (E : GroupEnv) (tag network : string) : string := default EmptyString ((λ o, RealTag o network) <$> env_outbound E tag).

(** [func supportsNetwork(detour, network) bool]. *)
Definition supportsNetwork (E : GroupEnv) (tag network : string) : bool := containsb network (networksOf E tag).

(** ** The group *)

Record URLTestGroup : Type := mkGroup {
  g_outbounds : list string;
  g_interval : Z;
  g_tolerance : Z;
  g_history : HistoryStorage;
  g_penalties : gmap string Z;
  g_selectedTCP : option string;
  g_selectedUDP : option string;
  g_lastSelected : string;
  g_balancer : option balancer;
  g_failover : bool;
  g_failoverSlow : gset string;
  g_lastTickRunEnd : Z;
  g_forcedRetestRunning : bool;
  g_lastForcedRetest : option Z
}.

Definition set_history (v : HistoryStorage) (g : URLTestGroup) : URLTestGroup :=
  match g with mkGroup a b c _ e h i j k l m n o p => mkGroup a b c v e h i j k l m n o p end.
Definition set_penalties (v : gmap string Z) (g : URLTestGroup) : URLTestGroup :=
  match g with mkGroup a b c d _ h i j k l m n o p => mkGroup a b c d v h i j k l m n o p end.
Definition set_lastSelected (v : string) (g : URLTestGroup) : URLTestGroup :=
  match g with mkGroup a b c d e h i _ k l m n o p => mkGroup a b c d e h i v k l m n o p end.
Definition set_balancer (v : option balancer) (g : URLTestGroup) : URLTestGroup :=
  match g with mkGroup a b c d e h i j _ l m n o p => mkGroup a b c d e h i j v l m n o p end.
Definition set_failover (v : bool) (g : URLTestGroup) : URLTestGroup :=
  match g with mkGroup a b c d e h i j k _ m n o p => mkGroup a b c d e h i j k v m n o p end.
Definition set_failoverSlow (v : gset string) (g : URLTestGroup) : URLTestGroup :=
  match g with mkGroup a b c d e h i j k l _ n o p => mkGroup a b c d e h i j k l v n o p end.
Definition set_lastTickRunEnd (v : Z) (g : URLTestGroup) : URLTestGroup :=
  match g with mkGroup a b c d e h i j k l m _ o p => mkGroup a b c d e h i j k l m v o p end.
Definition set_forcedRetest (running : bool) (last : option Z) (g : URLTestGroup) : URLTestGroup :=
  match g with mkGroup a b c d e h i j k l m n _ _ => mkGroup a b c d e h i j k l m n running last end.
(** [g.selectedOutboundTCP] and [g.selectedOutboundUDP]. *)
Definition selectedOf (network : string) (g : URLTestGroup) : option string :=
  if String.eqb network tcp then g_selectedTCP g else if String.eqb network udp then g_selectedUDP g else None.
Definition set_selected (network : string) (v : option string) (g : URLTestGroup) : URLTestGroup :=
  match g with mkGroup a b c d e h i j k l m n o p =>
    if String.eqb network tcp then mkGroup a b c d e v i j k l m n o p
    else if String.eqb network udp then mkGroup a b c d e h v j k l m n o p else g end.

(** [func NewURLTest(...)]: the checks of the options, and the balancer. *)
Definition minute_ns : Z := 60 * 10 ^ 9.
Fixpoint duplicateTag (seen tags : list string) : option string :=
  match tags with
  | [] => None
  | t :: tags => if containsb t seen then Some t else duplicateTag (seen ++ [t]) tags
  end.
Definition NewURLTest (o : URLTestOutboundOptions) : result (option balancer) :=
  b ← newBalancer o;
  if negb (isSome b) && isSome (uo_Balancer o) then Err (ErrNew "urltest: balancer is only valid with mode: round_robin")
  else
    match uo_Outbounds o with
    | [] => Err (ErrNew "missing tags")
    | _ =>
        match duplicateTag [] (uo_Outbounds o) with
        | Some t => Err (ErrNew (String.append "duplicate tag: " t))
        | None => Ok b
        end
    end.

(** [func NewURLTestGroup(...)]; [history] is the storage the context has. *)
Definition NewURLTestGroup (outbounds : list string) (interval tolerance idleTimeout : Z) (history : option HistoryStorage) : result URLTestGroup :=
  let interval := if interval =? 0 then 3 * minute_ns else interval in
  let tolerance := if tolerance =? 0 then 50 else tolerance in
  let idleTimeout := if idleTimeout =? 0 then 30 * minute_ns else idleTimeout in
  if idleTimeout <? interval then Err (ErrNew "interval must be less or equal than idle_timeout")
  else
    match history with
    | None => Err (ErrNew "missing URL test history storage")
    | Some history => Ok (mkGroup outbounds interval tolerance history ∅ None None EmptyString None false ∅ 0 false None)
    end.

(** [func (s *URLTest) Start(stage, scope)] in its first stage; [known] are the
    outbounds of the manager. *)
Definition URLTest_Start (known : string → bool) (history : option HistoryStorage) (o : URLTestOutboundOptions) (b : option balancer) : result URLTestGroup :=
  match list_find (λ t, known t = false) (uo_Outbounds o) with
  | Some (i, t) => Err (ErrNew (String.append "outbound " (String.append (FormatUint (Z.of_nat i)) (String.append " not found: " t))))
  | None =>
      g ← NewURLTestGroup (uo_Outbounds o) (uo_Interval o) (uo_Tolerance o) (uo_IdleTimeout o) history;
      Ok (set_failover (isFailoverMode o) (set_balancer b g))
  end.

(** [LoadURLTestHistory(RealTag(detour, network))]. *)
Definition historyOf (E : GroupEnv) (tag network : string) (g : URLTestGroup) : option URLTestHistory :=
  g_history g !! realTag E tag network.

(** ** Penalties ([urltest_penalty_lx.go]) *)

Definition penaltyThreshold : Z := 3.
Definition penaltyForcedRetestGap : Z := 2 * minute_ns.

Definition penaltyOf (tag : string) (g : URLTestGroup) : Z := default 0 (g_penalties g !! tag).
Definition penaltyAdd (tag : string) (g : URLTestGroup) : URLTestGroup := set_penalties (<[tag := penaltyOf tag g + 1]> (g_penalties g)) g.
(** [penaltyReset] on the table: only an entry that is there is set to zero. *)
Definition resetIn (tag : string) (p : gmap string Z) : gmap string Z := match p !! tag with Some _ => <[tag := 0]> p | None => p end.
Definition penaltyReset (tag : string) (g : URLTestGroup) : URLTestGroup := set_penalties (resetIn tag (g_penalties g)) g.

(** The error of a dial, as far as [isPathDeadDialError] tells errors apart. *)
Inductive dialError : Type :=
| DialCanceled | DialDeadline | DialUnreachable | DialNetTimeout | DialOther.
Definition isPathDeadDialError (e : dialError) : bool :=
  match e with DialCanceled | DialOther => false | DialDeadline | DialUnreachable | DialNetTimeout => true end.

(** The loop of [fastestByDelay]. *)
Fixpoint fastest_loop (E : GroupEnv) (network : string) (g : URLTestGroup) (best : option (string * Z)) (l : list string) : option (string * Z) :=
  match l with
  | [] => best
  | tag :: l =>
      if negb (supportsNetwork E tag network) then fastest_loop E network g best l
      else match historyOf E tag tcp g with
        | None => fastest_loop E network g best l
        | Some h =>
            let better := match best with None => true | Some (_, minDelay) => hi_Delay h <? minDelay end in
            fastest_loop E network g (if better then Some (tag, hi_Delay h) else best) l
        end
  end.
Definition fastestByDelay (E : GroupEnv) (network : string) (g : URLTestGroup) : option string := fst <$> fastest_loop E network g None (g_outbounds g).

(** [func (g) penaltyEmergency(network) bool]. *)
Definition penaltyEmergency (E : GroupEnv) (network : string) (g : URLTestGroup) : bool :=
  match fastestByDelay E network g with Some f => penaltyThreshold <=? penaltyOf (realTag E f tcp) g | None => false end.

(** The loop of [penaltyBest]: tag, penalty and delay of the best so far. *)
Fixpoint best_loop (E : GroupEnv) (network excludeTag : string) (g : URLTestGroup) (best : option (string * Z * Z)) (l : list string) : option (string * Z * Z) :=
  match l with
  | [] => best
  | tag :: l =>
      if negb (supportsNetwork E tag network) then best_loop E network excludeTag g best l
      else if String.eqb (realTag E tag tcp) excludeTag then best_loop E network excludeTag g best l
      else match historyOf E tag tcp g with
        | None => best_loop E network excludeTag g best l
        | Some h =>
            let penalty := penaltyOf (realTag E tag tcp) g in
            let better := match best with
              | None => true
              | Some (_, bestPenalty, bestDelay) => (penalty <? bestPenalty) || (penalty =? bestPenalty) && (hi_Delay h <? bestDelay) end in
            best_loop E network excludeTag g (if better then Some (tag, penalty, hi_Delay h) else best) l
        end
  end.
Definition penaltyBest (E : GroupEnv) (network excludeTag : string) (g : URLTestGroup) : option string :=
  (λ x, x.1.1) <$> best_loop E network excludeTag g None (g_outbounds g).

(** [func (g) penaltyTotal(network) bool]. *)
Fixpoint total_loop (E : GroupEnv) (network : string) (g : URLTestGroup) (saw : bool) (l : list string) : bool :=
  match l with
  | [] => saw
  | tag :: l =>
      if negb (supportsNetwork E tag network) then total_loop E network g saw l
      else match historyOf E tag tcp g with
        | None => total_loop E network g saw l
        | Some _ => if penaltyOf (realTag E tag tcp) g <? penaltyThreshold then false else total_loop E network g true l
        end
  end.
Definition penaltyTotal (E : GroupEnv) (network : string) (g : URLTestGroup) : bool := total_loop E network g false (g_outbounds g).

(** [func (g) maybeForceRetest()]: the flag is set when a forced run is started;
    the run and [forcedRetestEnds] follow in a goroutine. *)
Definition maybeForceRetest (E : GroupEnv) (now : Z) (g : URLTestGroup) : bool * URLTestGroup :=
  match g_balancer g with
  | Some _ => (false, g)
  | None =>
      if negb (penaltyTotal E tcp g) then (false, g)
      else if match g_lastForcedRetest g with Some last => now - last <? penaltyForcedRetestGap | None => false end then (false, g)
      else if g_forcedRetestRunning g then (false, g)
      else (true, set_forcedRetest true (g_lastForcedRetest g) g)
  end.
Definition forcedRetestEnds (now : Z) (g : URLTestGroup) : URLTestGroup := set_forcedRetest false (Some now) g.

(** ** Selecting *)

(** [func (g) Select(network) (adapter.Outbound, bool)]; the sum of the delay and
    the tolerance is one of 16-bit integers. *)
Fixpoint select_loop (E : GroupEnv) (network : string) (g : URLTestGroup) (min : option string * Z) (l : list string) : option string * Z :=
  match l with
  | [] => min
  | tag :: l =>
      if negb (supportsNetwork E tag network) then select_loop E network g min l
      else match historyOf E tag network g with
        | None => select_loop E network g min l
        | Some h =>
            select_loop E network g
              (if (min.2 =? 0) || ((hi_Delay h + g_tolerance g) mod 2 ^ 16 <? min.2) then (Some tag, hi_Delay h) else min) l
        end
  end.
Definition Select (E : GroupEnv) (network : string) (g : URLTestGroup) : option string * bool :=
  let start := match selectedOf network g with
    | Some s => match historyOf E s network g with Some h => (Some s, hi_Delay h) | None => (None, 0) end
    | None => (None, 0) end in
  match (select_loop E network g start (g_outbounds g)).1 with
  | Some o => (Some o, true)
  | None => (list_find (λ tag, supportsNetwork E tag network = true) (g_outbounds g) ≫= λ x, Some x.2, false)
  end.

(** [func (g) selectPenaltyAware(network)]. *)
Definition selectPenaltyAware (E : GroupEnv) (network : string) (g : URLTestGroup) : option string * bool :=
  match g_balancer g, penaltyEmergency E network g, penaltyBest E network EmptyString g with
  | None, true, Some best => (Some best, true)
  | _, _, _ => Select E network g
  end.

(** [func slowerBy(delay, than uint16, num, den int) bool]. *)
Definition slowerBy (delay than num den : Z) : bool := than * num <? delay * den.

(** [func (g) failoverSelect(network, reselect)] ([urltest_failover_lx.go]). *)
Definition failoverSelect (E : GroupEnv) (network : string) (reselect : bool) (g : URLTestGroup) : option string * bool :=
  let cold := match fastestByDelay E network g with Some f => (Some f, true) | None => Select E network g end in
  match penaltyEmergency E network g, penaltyBest E network EmptyString g with
  | true, Some best => (Some best, true)
  | _, _ =>
      if reselect then cold
      else
        match selectedOf network g with
        | None => cold
        | Some current =>
            match historyOf E current tcp g with
            | None => cold
            | Some history =>
                let faster :=
                  if bool_decide (current ∈ g_failoverSlow g) then
                    match fastestByDelay E network g with
                    | Some fastest =>
                        if String.eqb fastest current then None
                        else match historyOf E fastest tcp g with
                          | Some best => if slowerBy (hi_Delay history) (hi_Delay best) 3 2 then Some fastest else None
                          | None => None end
                    | None => None
                    end
                  else None in
                (Some (default current faster), true)
            end
        end
  end.

(** [func (g) selectForUpdate(network, reselect)]. *)
Definition selectForUpdate (E : GroupEnv) (network : string) (reselect : bool) (g : URLTestGroup) : option string * bool :=
  if g_failover g then failoverSelect E network reselect g else selectPenaltyAware E network g.

(** One network of [performSelectionUpdate]: the group and whether the selection
    was updated, changed and set. *)
Definition updateNetwork (E : GroupEnv) (network : string) (reselect : bool) (g : URLTestGroup) : URLTestGroup * (bool * bool * bool) :=
  match selectForUpdate E network reselect g with
  | (Some outbound, exists_) =>
      let old := selectedOf network g in
      let other := negb (bool_decide (old = Some outbound)) in
      if negb (isSome old) || (exists_ && other) then (set_selected network (Some outbound) g, (isSome old, other, true))
      else (g, (false, false, false))
  | (None, _) => (g, (false, false, false))
  end.

(** [func (g) performSelectionUpdate(reselect)]: the group, and whether
    connections are interrupted, reachability invalidated and hooks notified. *)
Definition performSelectionUpdate (E : GroupEnv) (reselect : bool) (g : URLTestGroup) : URLTestGroup * (bool * bool * bool) :=
  let '(g, (u1, c1, s1)) := updateNetwork E tcp reselect g in
  let '(g, (u2, c2, s2)) := updateNetwork E udp reselect g in
  (g, (u1 || u2, c1 || c2, s1 || s2)).

(** ** Testing nodes *)

(** [urlTestBatch]. *)
Record urlTestBatch : Type := mkBatch {
  bt_history : HistoryStorage;
  bt_penalties : gmap string Z;
  bt_checked : gset string;
  bt_groups : list string;
  bt_result : gmap string Z
}.

(** The end of the probe of a leaf. *)
Definition probed (E : GroupEnv) (onAlive : bool) (tag : string) (b : urlTestBatch) : urlTestBatch :=
  let checked := {[tag]} ∪ bt_checked b in
  match env_probe E tag with
  | Delayed d => mkBatch (<[tag := mkHistory (env_stamp E tag) d]> (bt_history b))
      (if onAlive then resetIn tag (bt_penalties b) else bt_penalties b) checked (bt_groups b) (<[tag := d]> (bt_result b))
  | NoAnswer => mkBatch (delete tag (bt_history b)) (bt_penalties b) checked (bt_groups b) (bt_result b)
  | Cancelled => mkBatch (bt_history b) (bt_penalties b) checked (bt_groups b) (bt_result b)
  end.

Definition loaded (E : GroupEnv) (tags : list string) : list string := filter (λ t, isSome (env_outbound E t) = true) tags.

(** [func (b *urlTestBatch) test(outbounds, link, interval, force)]. *)
Fixpoint test (fuel : nat) (E : GroupEnv) (interval : Z) (force onAlive : bool) (outbounds : list string) (b : urlTestBatch) : urlTestBatch :=
  match fuel with
  | O => b
  | S fuel =>
      fold_left (λ b tag,
        if bool_decide (tag ∈ bt_checked b) then b
        else
          let marked := mkBatch (bt_history b) (bt_penalties b) ({[tag]} ∪ bt_checked b) (bt_groups b ++ [tag]) (bt_result b) in
          match env_kind E tag with
          | URLTestNode =>
              let '(nestedResult, history) := env_nested E tag force (bt_history b) in
              mkBatch history (bt_penalties marked) (bt_checked marked) (bt_groups marked) (nestedResult ∪ bt_result b)
          | GroupNode all => test fuel E interval force onAlive (loaded E all) marked
          | LeafNode =>
              match bt_history b !! tag with
              | Some h => if negb force && (env_now E - hi_Time h <? interval) then b else probed E onAlive tag b
              | None => probed E onAlive tag b
              end
          end) outbounds b
  end.

(** [func urlTestOutbounds(...)]: the delays of the nodes that answered, and of
    the groups by their leaves. *)
Definition urlTestOutbounds (E : GroupEnv) (outbounds : list string) (interval : Z) (force : bool) (g : URLTestGroup) : gmap string Z * URLTestGroup :=
  let b := test (S (length (env_tags E))) E interval force true outbounds (mkBatch (g_history g) (g_penalties g) ∅ [] ∅) in
  let g := set_penalties (bt_penalties b) (set_history (bt_history b) g) in
  (fold_left (λ r tag, match historyOf E tag tcp g with Some h => <[tag := hi_Delay h]> r | None => r end) (bt_groups b) (bt_result b), g).

(** [func tickFreshWindow(interval, lastEnd, now)] and [tickTooSoon]
    ([urltest_tick_lx.go]); durations divide towards zero. *)
Definition tickFreshWindow (interval : Z) (lastEnd : option Z) (now : Z) : Z :=
  match lastEnd with
  | None => interval
  | Some lastEnd => let since := now - lastEnd in if since <? 0 then 0 else if interval <? since then interval else since
  end.
Definition tickTooSoon (E : GroupEnv) (g : URLTestGroup) : bool :=
  negb (g_lastTickRunEnd g =? 0) && (env_now E - g_lastTickRunEnd g <? Z.quot (g_interval g) 2).

(** [func (g) testNodesTick(ctx, outbounds)] and [testNodes]. *)
Definition testNodesTick (E : GroupEnv) (outbounds : list string) (g : URLTestGroup) : gmap string Z * URLTestGroup :=
  let window := tickFreshWindow (g_interval g) (if g_lastTickRunEnd g =? 0 then None else Some (g_lastTickRunEnd g)) (env_now E) in
  let '(result, g) := urlTestOutbounds E outbounds window false g in
  (result, set_lastTickRunEnd (env_end E) g).
Definition testNodes (E : GroupEnv) (outbounds : list string) (force : bool) (g : URLTestGroup) : gmap string Z * URLTestGroup :=
  if force then urlTestOutbounds E outbounds (g_interval g) true g else testNodesTick E outbounds g.

(** ** The pool *)

(** [func (g) poolSize() int]. *)
Definition poolSize (b : balancer) (g : URLTestGroup) : Z :=
  if Z.of_nat (length (g_outbounds g)) <? b_poolSize b then Z.of_nat (length (g_outbounds g)) else b_poolSize b.

(** [b.setSlots(tags)]. *)
Definition setSlots (tags : list string) (b : balancer) (g : URLTestGroup) : URLTestGroup := set_balancer (Some (set_slots tags b)) g.

(** [func (g) outboundsByTags(tags)]. *)
Definition outboundsByTags (E : GroupEnv) (tags : list string) : list string :=
  filter (λ t, hole t = false ∧ isSome (env_outbound E t) = true) tags.

(** The index of the first hole. *)
Definition emptySlot (from : nat) (next : list string) : option nat :=
  (λ x, (from + x.1)%nat) <$> list_find (λ t, hole t = true) (drop from next).

(** One batch of candidates taken into holes, in order. *)
Fixpoint takeLive (tested : gmap string Z) (batch : list string) (fill : nat) (next : list string) (result : gmap string Z)
    : nat * list string * gmap string Z :=
  match batch with
  | [] => (fill, next, result)
  | tag :: batch =>
      match emptySlot fill next with
      | None => (fill, next, result)
      | Some slot =>
          match tested !! tag with
          | Some delay => takeLive tested batch (S slot) (<[slot := tag]> next) (<[tag := delay]> result)
          | None => takeLive tested batch fill next result
          end
      end
  end.

(** The walk over the candidates in batches of [size], until no hole is left. *)
Fixpoint refillLoop (fuel : nat) (E : GroupEnv) (size : nat) (candidates : list string) (fill : nat) (next : list string) (result : gmap string Z) (g : URLTestGroup)
    : list string * gmap string Z * URLTestGroup :=
  match fuel with
  | O => (next, result, g)
  | S fuel =>
      match candidates, emptySlot fill next with
      | [], _ | _, None => (next, result, g)
      | _, Some _ =>
          let batch := take size candidates in
          let '(tested, g) := testNodes E batch true g in
          let '(fill, next, result) := takeLive tested batch fill next result in
          refillLoop fuel E size (drop size candidates) fill next result g
      end
  end.

(** Dead members back into the holes: each into its own, then into any. *)
Definition dead (result : gmap string Z) (t : string) : bool := negb (hole t) && negb (isSome (result !! t)).
Definition backToSlot (result : gmap string Z) (current next : list string) : list string :=
  imap (λ i s, match current !! i with Some t => if hole s && dead result t then t else s | None => s end) next.
Fixpoint backToAny (result : gmap string Z) (placed : gset string) (current next : list string) : list string :=
  match current with
  | [] => next
  | t :: current =>
      match emptySlot 0 next with
      | None => next
      | Some slot =>
          if dead result t && negb (bool_decide (t ∈ placed)) then backToAny result ({[t]} ∪ placed) current (<[slot := t]> next)
          else backToAny result placed current next
      end
  end.

(** [func (g) balancePoolFirstLive(ctx, size)]. *)
Definition balancePoolFirstLive (E : GroupEnv) (size : Z) (b : balancer) (g : URLTestGroup) : gmap string Z * URLTestGroup :=
  let current := b_slots b in
  let '(result, g) := testNodes E (outboundsByTags E current) true g in
  let next := grow (Z.to_nat size) ((λ t, if negb (hole t) && isSome (result !! t) then t else EmptyString) <$> current) in
  let '(next, result, g) :=
    match emptySlot 0 next with
    | None => (next, result, g)
    | Some _ =>
        let candidates := filter (λ t, t ∉ used current) (g_outbounds g) in
        refillLoop (S (length candidates)) E (Z.to_nat size) candidates 0 next result g
    end in
  let next :=
    match emptySlot 0 next with
    | None => next
    | Some _ =>
        let next := backToSlot result current next in
        backToAny result (used next) current next
    end in
  (result, setSlots next b g).

(** The map of [candidate]s of a full run, by the results or by the history. *)
Definition candidatesOf (delayOf : string → option Z) (outbounds : list string) : gmap string candidate :=
  fold_left (λ r tag, <[tag := match delayOf tag with Some d => mkCandidate tag d true | None => mkCandidate tag 0 false end]> r) outbounds ∅.

(** [func (g) balancePoolTolerant(ctx, size)]. *)
Definition balancePoolTolerant (E : GroupEnv) (size : Z) (b : balancer) (g : URLTestGroup) : gmap string Z * URLTestGroup :=
  let '(result, g) := testNodes E (g_outbounds g) true g in
  let results := candidatesOf (λ tag, result !! tag) (g_outbounds g) in
  (result, setSlots (planTolerantPool (b_slots b) results (env_range E results) size (b_poolTolerance b)) b g).

(** [func (g) balancePool(ctx)]. *)
Definition balancePool (E : GroupEnv) (b : balancer) (g : URLTestGroup) : gmap string Z * URLTestGroup :=
  let size := poolSize b g in
  if size =? 0 then (∅, g)
  else if 0 <? b_poolTolerance b then balancePoolTolerant E size b g else balancePoolFirstLive E size b g.

(** [func (g) rebuildPool()]. *)
Definition rebuildPool (E : GroupEnv) (b : balancer) (g : URLTestGroup) : URLTestGroup :=
  let size := poolSize b g in
  if size =? 0 then g
  else
    let results := candidatesOf (λ tag, hi_Delay <$> historyOf E tag tcp g) (g_outbounds g) in
    let current := b_slots b in
    if b_poolTolerance b =? 0 then
      let live : gset string := list_to_set (filter (λ t, isSome (historyOf E t tcp g) = true) (g_outbounds g)) in
      let fillCandidates := omap (λ t, match results !! t with
        | Some c => if cd_alive c && negb (bool_decide (t ∈ used current)) then Some c else None
        | None => None end) (g_outbounds g) in
      setSlots (planFirstLivePool current live (cd_tag <$> sortCandidatesByDelay fillCandidates) size) b g
    else setSlots (planTolerantPool current results (env_range E results) size (b_poolTolerance b)) b g.

(** [func (g) seedPool()]. *)
Definition seedPool (E : GroupEnv) (g : URLTestGroup) : URLTestGroup :=
  match g_balancer g with
  | None => g
  | Some b =>
      let size := poolSize b g in
      if size =? 0 then g
      else
        let withHistory := sortCandidatesByDelay (omap (λ t, (λ h, mkCandidate t (hi_Delay h) true) <$> historyOf E t tcp g) (g_outbounds g)) in
        let next := take (Z.to_nat size) (cd_tag <$> withHistory) in
        let rest := filter (λ t, t ∉ next) (g_outbounds g) in
        setSlots (next ++ take (Z.to_nat size - length next) rest) b g
  end.

(** ** Failover ([urltest_failover_lx.go]) *)

(** [func (g) failoverHeld()]. *)
Definition failoverHeld (g : URLTestGroup) : list string :=
  match g_selectedTCP g with Some t => [t] | None => [] end ++
  match g_selectedUDP g with Some u => if bool_decide (g_selectedTCP g = Some u) then [] else [u] | None => [] end.

(** The fastest other node, for one network. *)
Fixpoint otherFastest (E : GroupEnv) (network node : string) (g : URLTestGroup) (best : option Z) (l : list string) : option Z :=
  match l with
  | [] => best
  | tag :: l =>
      if String.eqb tag node || negb (supportsNetwork E tag network) then otherFastest E network node g best l
      else match historyOf E tag tcp g with
        | None => otherFastest E network node g best l
        | Some h =>
            let better := match best with None => true | Some b => hi_Delay h <? b end in
            otherFastest E network node g (if better then Some (hi_Delay h) else best) l
        end
  end.

(** [func (g) failoverDegraded(node) bool]. *)
Definition failoverDegraded (E : GroupEnv) (node : string) (g : URLTestGroup) : bool :=
  match historyOf E node tcp g with
  | None => false
  | Some h =>
      existsb (λ network, bool_decide (selectedOf network g = Some node) &&
        match otherFastest E network node g None (g_outbounds g) with
        | Some best => slowerBy (hi_Delay h) best 2 1
        | None => false end) [tcp; udp]
  end.

(** [func (g) probeNow(ctx, node)]. *)
Definition probeNow (E : GroupEnv) (node : string) (g : URLTestGroup) : gmap string Z * URLTestGroup := urlTestOutbounds E [node] 0 false g.

(** The second probes: the nodes that failed, the slow ones, the results, and
    whether the context has ended. *)
Fixpoint confirm (E : GroupEnv) (held : list string) (failed slow : gset string) (result : gmap string Z) (g : URLTestGroup)
    : gset string * gset string * gmap string Z * URLTestGroup * bool :=
  match held with
  | [] => (failed, slow, result, g, false)
  | node :: held =>
      if bool_decide (node ∈ failed) || negb (failoverDegraded E node g) then confirm E held failed slow result g
      else
        let '(r, g) := probeNow E node g in
        let result := r ∪ result in
        if env_ctxErr E then (failed, slow, result, g, true)
        else if negb (isSome (historyOf E node tcp g)) then confirm E held ({[node]} ∪ failed) slow result g
        else if failoverDegraded E node g then confirm E held failed ({[node]} ∪ slow) result g
        else confirm E held failed slow result g
  end.

(** The escalation at the end of [failoverCheck]: the others are probed and the
    selection is updated, the slow nodes counting as slow for that update. *)
Definition escalate (E : GroupEnv) (failed slow : gset string) (result : gmap string Z) (g : URLTestGroup) : gmap string Z * URLTestGroup :=
  let others := filter (λ t, t ∉ failed ∧ t ∉ slow) (g_outbounds g) in
  let '(r, g) := testNodes E others false g in
  (r ∪ result, set_failoverSlow ∅ (performSelectionUpdate E false (set_failoverSlow slow g)).1).

(** [func (g) failoverCheck(ctx)]; [E2] and [E3] surround the second probes and
    the full run. *)
Definition failoverCheck (E E2 E3 : GroupEnv) (g : URLTestGroup) : gmap string Z * URLTestGroup :=
  let held := failoverHeld g in
  match held with
  | [] => escalate E3 ∅ ∅ ∅ g
  | _ =>
      let '(result, g) := testNodes E held false g in
      if env_ctxErr E then (result, g)
      else
        let failed := list_to_set (filter (λ t, isSome (historyOf E t tcp g) = false) held) in
        let '(failed, slow, result, g, ended) := confirm E2 held failed ∅ result g in
        if ended then (result, g)
        else if bool_decide (failed = ∅) && bool_decide (slow = ∅) then (result, g) else escalate E3 failed slow result g
  end.

(** [func (g) urlTest(ctx, force)]; [checking] is set when another run goes on. *)
Definition urlTest (checking : bool) (E E2 E3 : GroupEnv) (force : bool) (g : URLTestGroup) : gmap string Z * URLTestGroup :=
  if checking then (∅, g)
  else if negb force && tickTooSoon E g then (∅, g)
  else
    match g_balancer g with
    | Some b =>
        if force then
          let '(result, g) := testNodes E (g_outbounds g) true g in (result, rebuildPool E b g)
        else balancePool E b g
    | None =>
        if g_failover g && negb force then failoverCheck E E2 E3 g
        else let '(result, g) := testNodes E (g_outbounds g) force g in (result, (performSelectionUpdate E force g).1)
    end.

(** ** Connections *)

(** [func (s *URLTest) slotAlive(tag) bool]. *)
Definition slotAlive (E : GroupEnv) (g : URLTestGroup) (tag : string) : bool :=
  isSome (env_outbound E tag) && isSome (historyOf E tag tcp g).

(** [func (s *URLTest) selectBalanced(ctx, network, destination)]; [key] is the
    sticky key of the connection. *)
Definition selectBalanced (E : GroupEnv) (probe : bool) (key : list byte) (network : string) (b : balancer) (g : URLTestGroup)
    : result (option string) * URLTestGroup :=
  let fallback := (Select E network g).1 in
  let resolve tag := if isSome (env_outbound E tag) && supportsNetwork E tag network then Some tag else None in
  let '(selected, b) := pick (Some (slotAlive E g)) probe key fallback resolve b in
  let g := set_balancer (Some b) g in
  (selected, match selected with Ok (Some tag) => if probe then g else set_lastSelected tag g | _ => g end).

(** [func (g) pickForDialNode(network)]. *)
Definition pickForDialNode (E : GroupEnv) (network : string) (g : URLTestGroup) : option string :=
  match g_balancer g, penaltyEmergency E network g, penaltyBest E network EmptyString g with
  | None, true, Some best => Some best
  | _, _, _ => match selectedOf network g with Some cached => Some cached | None => (Select E network g).1 end
  end.

(** [func (s *URLTest) DialContext(ctx, network, destination)] and [ListenPacket]
    up to the dial: the node to dial.  The network is one without a version of
    the protocol, and the node is not a link of a chain. *)
Definition beginDial (E : GroupEnv) (probe : bool) (key : list byte) (network : string) (g : URLTestGroup) : result string * URLTestGroup :=
  if negb (String.eqb network tcp || String.eqb network udp) then (Err (ErrExtend (ErrExternal "unknown network") network), g)
  else
    let '(outbound, g) := match g_balancer g with
      | Some b => selectBalanced E probe key network b g
      | None => (Ok (pickForDialNode E network g), g) end in
    (match outbound with
     | Ok (Some tag) => Ok tag
     | Ok None => Err (ErrNew "missing supported outbound")
     | Err e => Err e
     | Panic p => Panic p end, g).

(** [func (g) moveSelection(network, detour)]. *)
Definition moveSelection (network detour : string) (g : URLTestGroup) : URLTestGroup := set_selected network (Some detour) g.

Definition deleteHistory (tag : string) (g : URLTestGroup) : URLTestGroup := set_history (delete tag (g_history g)) g.

(** What the end of a dial leads to. *)
Inductive dialNext : Type := DialDone | DialFailed | DialFallback (tag : string).

(** The rest of [DialContext] once the dial of [tag] has ended, down to the
    fallback dial of [penaltyFailoverDial]. *)
Definition endDial (E : GroupEnv) (probe : bool) (network tag : string) (err : option dialError) (g : URLTestGroup) : dialNext * URLTestGroup :=
  match err, g_balancer g with
  | None, Some _ => (DialDone, g)
  | None, None => (DialDone, if probe then g else penaltyReset (realTag E tag tcp) g)
  | Some _, Some _ => (DialFailed, g)
  | Some e, None =>
      let g := if probe then g else deleteHistory tag g in
      if negb (isPathDeadDialError e) then (DialFailed, g)
      else
        let g := if probe then g else (maybeForceRetest E (env_now E) (penaltyAdd (realTag E tag tcp) g)).2 in
        match penaltyBest E network (realTag E tag tcp) g with
        | None => (DialFailed, g)
        | Some fallback => (DialFallback fallback, g)
        end
  end.

(** The end of the fallback dial. *)
Definition endFallback (E : GroupEnv) (probe : bool) (network fallback : string) (err : option dialError) (g : URLTestGroup) : dialNext * URLTestGroup :=
  match err with
  | None => (DialDone, if probe then g else moveSelection network fallback (penaltyReset (realTag E fallback tcp) g))
  | Some e =>
      (DialFailed,
        if probe then g
        else
          let g := deleteHistory (realTag E fallback tcp) g in
          if isPathDeadDialError e then (maybeForceRetest E (env_now E) (penaltyAdd (realTag E fallback tcp) g)).2 else g)
  end.

(** The end of [ListenPacket]. *)
Definition endListen (probe : bool) (tag : string) (err : option dialError) (g : URLTestGroup) : URLTestGroup :=
  match err, g_balancer g with
  | Some _, None => if probe then g else deleteHistory tag g
  | _, _ => g
  end.

(** [func (s *URLTest) Mode() string]. *)
Definition Mode (g : URLTestGroup) : string :=
  match g_balancer g with
  | Some _ => URLTestModeRoundRobin
  | None => if g_failover g then URLTestModeFailover else URLTestModeLeastTest
  end.

(** [func (s *URLTest) Selected(network)], [References] and [ActiveTags]. *)
Definition Selected (E : GroupEnv) (network : string) (g : URLTestGroup) : option string :=
  let held := match (if String.eqb network udp then g_selectedUDP g else g_selectedTCP g) with
    | Some s => Some s | None => (Select E network g).1 end in
  match g_balancer g with
  | Some _ => if isSome (env_outbound E (g_lastSelected g)) then Some (g_lastSelected g) else held
  | None => held
  end.
Definition poolReferences (g : URLTestGroup) : list string :=
  match g_balancer g with Some b => filter (λ t, hole t = false) (b_slots b) | None => [] end.
Definition References (g : URLTestGroup) : list string := failoverHeld g ++ poolReferences g.

(** [func (s *URLTest) Pool() []PoolSlot]: tag and delay of each slot. *)
Definition Pool (E : GroupEnv) (g : URLTestGroup) : list (string * Z) :=
  match g_balancer g with
  | None => []
  | Some b => (λ tag, (tag,
      match g_history g !! (match env_outbound E tag with Some o => RealTag o tcp | None => tag end) with
      | Some h => if hi_Delay h =? 0 then 1 else hi_Delay h
      | None => 0 end)) <$> b_slots b
  end.

(** ** The selector ([selector.go]) *)

Record Selector : Type := mkSelector {
  s_tag : string;
  s_tags : list string;
  s_defaultTag : string;
  s_outbounds : gset string;
  s_selected : option string
}.

(** [func NewSelector(...)]. *)
Definition NewSelector (tag : string) (outbounds : list string) (default_ : string) : result Selector :=
  match outbounds with
  | [] => Err (ErrNew "missing tags")
  | _ => match duplicateTag [] outbounds with
    | Some t => Err (ErrNew (String.append "duplicate tag: " t))
    | None => Ok (mkSelector tag outbounds default_ ∅ None)
    end
  end.

(** [func (s *Selector) Start(stage, scope)]: [cached] is what the cache file
    loads for the group, if there is one. *)
Definition Selector_Start (known : string → bool) (cached : option string) (s : Selector) : option goerr * Selector :=
  match list_find (λ t, known t = false) (s_tags s) with
  | Some (i, t) => (Some (ErrNew (String.append "outbound " (String.append (FormatUint (Z.of_nat i)) (String.append " not found: " t)))),
      mkSelector (s_tag s) (s_tags s) (s_defaultTag s) (s_outbounds s ∪ list_to_set (take i (s_tags s))) (s_selected s))
  | None =>
      let all : gset string := s_outbounds s ∪ list_to_set (s_tags s) in
      let select t := mkSelector (s_tag s) (s_tags s) (s_defaultTag s) all t in
      let unset :=
        if negb (String.eqb (s_defaultTag s) "")
        then if bool_decide (s_defaultTag s ∈ all) then (None, select (Some (s_defaultTag s)))
             else (Some (ErrNew (String.append "default outbound not found: " (s_defaultTag s))), select (s_selected s))
        else (None, select (head (s_tags s))) in
      match (if String.eqb (s_tag s) "" then None else cached) with
      | Some c => if negb (String.eqb c "") && bool_decide (c ∈ all) then (None, select (Some c)) else unset
      | None => unset
      end
  end.

(** [func (s *Selector) SelectOutbound(tag) bool]: the answer, the selector, and
    the selection to be stored in the cache file. *)
Definition SelectOutbound (tag : string) (s : Selector) : bool * Selector * option string :=
  if negb (bool_decide (tag ∈ s_outbounds s)) then (false, s, None)
  else if bool_decide (s_selected s = Some tag) then (true, s, None)
  else (true, mkSelector (s_tag s) (s_tags s) (s_defaultTag s) (s_outbounds s) (Some tag), if String.eqb (s_tag s) "" then None else Some tag).

(** [func (s *Selector) References() []string]. *)
Definition Selector_References (s : Selector) : list string :=
  match s_selected s with Some t => [t] | None => take 1 (s_tags s) end.
