(* ===== verification/GroupSelect.v ===== *)
(** The node a group without a balancer selects: the policies of least_test and
    of failover, and what a failover check may move. *)

From Stdlib Require Import ssreflect.
From S2P Require Import Prelude GoBytes GoStrings Netip Metadata Router Balancer Group.

(** [t] may be selected for [network]: it is an outbound of the group that
    supports the network, and [d] is the delay its last probe left, under the tag
    it has for the network [via]. *)
Definition candidateFor (E : GroupEnv) (via network : string) (g : URLTestGroup) (t : string) (d : Z) : Prop :=
  t ∈ g_outbounds g ∧ supportsNetwork E t network = true ∧ hi_Delay <$> historyOf E t via g = Some d.

(** The least delay, the first of several. *)
Definition fastestOf (E : GroupEnv) (network : string) (g : URLTestGroup) (t : string) (d : Z) : Prop :=
  candidateFor E tcp network g t d ∧ ∀ t' d', candidateFor E tcp network g t' d' → d ≤ d'.

(** The fewest penalties, and among those the least delay. *)
Definition leastPenalised (E : GroupEnv) (network excludeTag : string) (g : URLTestGroup) (t : string) : Prop :=
  ∃ d, candidateFor E tcp network g t d ∧ realTag E t tcp ≠ excludeTag ∧
    ∀ t' d', candidateFor E tcp network g t' d' → realTag E t' tcp ≠ excludeTag →
      penaltyOf (realTag E t tcp) g < penaltyOf (realTag E t' tcp) g ∨ penaltyOf (realTag E t tcp) g = penaltyOf (realTag E t' tcp) g ∧ d ≤ d'.

(** ** The loops *)

(** The first outbound with the least key; a key is a pair, ordered by its first
    component and then by its second. *)
Definition keyless (x y : Z * Z) : bool := (x.1 <? y.1) || (x.1 =? y.1) && (x.2 <? y.2).
Fixpoint leastKey (key : string → option (Z * Z)) (best : option (string * (Z * Z))) (l : list string) : option (string * (Z * Z)) :=
  match l with
  | [] => best
  | t :: l =>
      match key t with
      | None => leastKey key best l
      | Some k => leastKey key (if match best with None => true | Some (_, m) => keyless k m end then Some (t, k) else best) l
      end
  end.

Lemma keyless_false x y : keyless x y = false ↔ y.1 < x.1 ∨ y.1 = x.1 ∧ y.2 ≤ x.2.
Proof. rewrite /keyless orb_false_iff andb_false_iff Z.ltb_ge Z.eqb_neq Z.ltb_ge. lia. Qed.
Lemma keyless_true x y : keyless x y = true ↔ x.1 < y.1 ∨ x.1 = y.1 ∧ x.2 < y.2.
Proof. rewrite /keyless orb_true_iff andb_true_iff !Z.ltb_lt Z.eqb_eq. lia. Qed.

Lemma leastKey_spec key l : ∀ best,
  match leastKey key best l with
  | Some (t, k) => (best = Some (t, k) ∨ t ∈ l ∧ key t = Some k) ∧
      (∀ t' k', best = Some (t', k') ∨ (t' ∈ l ∧ key t' = Some k') → keyless k' k = false)
  | None => best = None ∧ ∀ t', t' ∈ l → key t' = None
  end.
Proof.
  induction l as [|a l IH]; intros best; cbn [leastKey].
  { destruct best as [[t k]|]; [|set_solver]. split; [by left|]. intros t' k' [[= <- <-]|[? _]]; [|set_solver]. apply keyless_false. lia. }
  destruct (key a) as [ka|] eqn:Ha.
  2: { specialize (IH best). destruct (leastKey _ _ _) as [[t k]|].
       - destruct IH as [IH1 IH2]. split; [destruct IH1 as [?|[? ?]]; [by left|right; set_solver]|].
         intros t' k' [?|[[->|?]%elem_of_cons ?]]; [eauto|congruence|eauto].
       - destruct IH as [? IH]. split; [done|]. intros t' [->|?]%elem_of_cons; auto. }
  set (b := if match best with None => true | Some (_, m) => keyless ka m end then Some (a, ka) else best).
  assert (∃ tb kb, b = Some (tb, kb) ∧ (best = Some (tb, kb) ∨ tb = a ∧ kb = ka) ∧ keyless ka kb = false ∧ ∀ t' k', best = Some (t', k') → keyless k' kb = false)
    as (tb & kb & Hb & Hfrom & Hle & Hbest).
  { rewrite /b. destruct best as [[t0 k0]|]; [destruct (keyless ka k0) eqn:Hk|]; do 2 eexists; (split; [done|]); (split; [auto|]).
    - apply keyless_true in Hk. split; [rewrite keyless_false; lia|]. intros t' k' [= <- <-]. rewrite keyless_false. lia.
    - split; [done|]. intros t' k' [= <- <-]. rewrite keyless_false. lia.
    - split; [rewrite keyless_false; lia|done]. }
  specialize (IH b). rewrite Hb in IH |- *. destruct (leastKey _ _ _) as [[t k]|]; [|by destruct IH]. destruct IH as [IH1 IH2].
  pose proof (IH2 tb kb (or_introl eq_refl)) as Hk. rewrite !keyless_false in Hk Hle. split.
  - destruct IH1 as [[= <- <-]|[? ?]]; [|right; set_solver]. destruct Hfrom as [?|[-> ->]]; [by left|right; split; [left|done]].
  - intros t' k' [Hb'|[[->|Hin]%elem_of_cons Hk']]; [|rewrite Ha in Hk'; injection Hk' as <-|eauto].
    + specialize (Hbest _ _ Hb'). rewrite !keyless_false in Hbest |- *. lia.
    + rewrite keyless_false. lia.
Qed.

Section loops.
Context (E : GroupEnv) (network : string) (g : URLTestGroup).

Definition delayKey (t : string) : option (Z * Z) :=
  if supportsNetwork E t network then (λ h, (0, hi_Delay h)) <$> historyOf E t tcp g else None.
Definition penaltyKey (excludeTag t : string) : option (Z * Z) :=
  if supportsNetwork E t network && negb (String.eqb (realTag E t tcp) excludeTag)
  then (λ h, (penaltyOf (realTag E t tcp) g, hi_Delay h)) <$> historyOf E t tcp g else None.

Lemma fastest_loop_least l : ∀ best,
  fastest_loop E network g best l = (λ x, (x.1, x.2.2)) <$> leastKey delayKey ((λ x, (x.1, (0, x.2))) <$> best) l.
Proof.
  induction l as [|t l IH]; intros best; cbn [fastest_loop leastKey]; [by destruct best as [[? ?]|]|]. rewrite /delayKey.
  destruct (supportsNetwork E t network); cbn; [|apply IH]. destruct (historyOf E t tcp g) as [h|]; cbn; [|apply IH]. rewrite IH -/delayKey.
  do 2 f_equal. destruct best as [[t0 d0]|]; cbn; [|done]. rewrite /keyless /=. by destruct (_ <? _).
Qed.

Lemma best_loop_least excludeTag l : ∀ best,
  best_loop E network excludeTag g best l = (λ x, (x.1, x.2.1, x.2.2)) <$> leastKey (penaltyKey excludeTag) ((λ x, (x.1.1, (x.1.2, x.2))) <$> best) l.
Proof.
  induction l as [|t l IH]; intros best; cbn [best_loop leastKey]; [by destruct best as [[[? ?] ?]|]|]. rewrite /penaltyKey.
  destruct (supportsNetwork E t network); cbn; [|apply IH]. destruct (String.eqb _ _); cbn; [apply IH|]. destruct (historyOf E t tcp g) as [h|]; cbn; [|apply IH].
  rewrite IH -/(penaltyKey excludeTag). do 2 f_equal. destruct best as [[[t0 p0] d0]|]; cbn; [|done]. rewrite /keyless /=. by destruct (_ || _).
Qed.

Lemma delayKey_spec t k : t ∈ g_outbounds g → delayKey t = Some k ↔ k.1 = 0 ∧ candidateFor E tcp network g t k.2.
Proof.
  intros Ht. rewrite /delayKey /candidateFor. destruct k as [p d]. destruct (supportsNetwork E t network); [|naive_solver].
  destruct (historyOf E t tcp g); cbn; naive_solver.
Qed.
Lemma penaltyKey_spec excludeTag t k : t ∈ g_outbounds g →
  penaltyKey excludeTag t = Some k ↔ k.1 = penaltyOf (realTag E t tcp) g ∧ realTag E t tcp ≠ excludeTag ∧ candidateFor E tcp network g t k.2.
Proof.
  intros Ht. rewrite /penaltyKey /candidateFor. destruct k as [p d]. destruct (supportsNetwork E t network); [|naive_solver].
  destruct (String.eqb_spec (realTag E t tcp) excludeTag); [naive_solver|]. destruct (historyOf E t tcp g); cbn; naive_solver.
Qed.

Lemma fastestByDelay_spec :
  match fastestByDelay E network g with
  | Some t => ∃ d, fastestOf E network g t d
  | None => ∀ t d, ~ candidateFor E tcp network g t d
  end.
Proof.
  rewrite /fastestByDelay fastest_loop_least. pose proof (leastKey_spec delayKey (g_outbounds g) None) as H. cbn [fmap option_fmap option_map] in *.
  destruct (leastKey _ _ _) as [[t k]|]; cbn.
  - destruct H as [[?|[Hin Hk]] Hmin]; [done|]. exists k.2. apply delayKey_spec in Hk as [Hz Hc]; [|done]. split; [done|]. intros t' d' Hc'.
    assert (keyless (0, d') k = false) as Hlt by (apply (Hmin t'); right; split; [apply Hc'|by apply delayKey_spec; [apply Hc'|]]).
    apply keyless_false in Hlt. cbn in Hlt. lia.
  - intros t d Hc. destruct H as [_ H]. specialize (H t (proj1 Hc)). by rewrite (proj2 (delayKey_spec t (0, d) (proj1 Hc))) in H.
Qed.

Lemma penaltyBest_spec excludeTag :
  match penaltyBest E network excludeTag g with
  | Some t => leastPenalised E network excludeTag g t
  | None => ∀ t d, candidateFor E tcp network g t d → realTag E t tcp = excludeTag
  end.
Proof.
  rewrite /penaltyBest best_loop_least. pose proof (leastKey_spec (penaltyKey excludeTag) (g_outbounds g) None) as H. cbn [fmap option_fmap option_map] in *.
  destruct (leastKey _ _ _) as [[t k]|]; cbn.
  - destruct H as [[?|[Hin Hk]] Hmin]; [done|]. apply penaltyKey_spec in Hk as (Hz & Hne & Hc); [|done]. exists k.2. split_and!; [done|done|]. intros t' d' Hc' Hne'.
    assert (keyless (penaltyOf (realTag E t' tcp) g, d') k = false) as Hlt by (apply (Hmin t'); right; split; [apply Hc'|by apply penaltyKey_spec; [apply Hc'|]]).
    apply keyless_false in Hlt. cbn in Hlt. rewrite -Hz. lia.
  - intros t d Hc. destruct (decide (realTag E t tcp = excludeTag)) as [|Hne]; [done|]. destruct H as [_ H]. specialize (H t (proj1 Hc)).
    by rewrite (proj2 (penaltyKey_spec excludeTag t (penaltyOf (realTag E t tcp) g, d) (proj1 Hc))) in H.
Qed.
End loops.

(** The delays on record leave room for the tolerance in 16 bits, and none is
    zero. *)
Definition delays_fit (E : GroupEnv) (network : string) (g : URLTestGroup) : Prop :=
  0 ≤ g_tolerance g ∧
  (∀ t d, candidateFor E network network g t d → 0 < d ∧ d + g_tolerance g < 2 ^ 16) ∧
  (∀ s h, selectedOf network g = Some s → historyOf E s network g = Some h → 0 < hi_Delay h).

(** What the loop of [Select] makes of its start. *)
Lemma select_loop_spec E network g l : ∀ o m,
  0 ≤ g_tolerance g → (∀ t, t ∈ l → t ∈ g_outbounds g) → delays_fit E network g → (o = None ∧ m = 0 ∨ isSome o = true ∧ 0 < m) →
  let '(o', m') := select_loop E network g (o, m) l in
  (o' = o ∧ m' = m ∨ (o = None ∨ m' + g_tolerance g < m) ∧ ∃ t, o' = Some t ∧ candidateFor E network network g t m') ∧
  (∀ t d, t ∈ l → candidateFor E network network g t d → 0 < m' ∧ m' ≤ d + g_tolerance g).
Proof.
  induction l as [|a l IH]; intros o m Htol Hl Hfit Hom; cbn [select_loop]; [split; [by left|set_solver]|].
  assert ((∀ d, ~ candidateFor E network network g a d) →
    let '(o', m') := select_loop E network g (o, m) l in
    (o' = o ∧ m' = m ∨ (o = None ∨ m' + g_tolerance g < m) ∧ ∃ t, o' = Some t ∧ candidateFor E network network g t m') ∧
    (∀ t d, t ∈ a :: l → candidateFor E network network g t d → 0 < m' ∧ m' ≤ d + g_tolerance g)) as Hskip.
  { intros Hn. specialize (IH o m Htol (λ t Ht, Hl t (list_elem_of_further _ _ _ Ht)) Hfit Hom). destruct (select_loop _ _ _ _ _) as [o' m'].
    destruct IH as [IH1 IH2]. split; [done|]. intros t d [->|?]%elem_of_cons Hc; [by destruct (Hn d)|eauto]. }
  destruct (supportsNetwork E a network) eqn:Hs; cbn [negb]; [|apply Hskip; intros d (_ & ? & _); congruence].
  destruct (historyOf E a network g) as [h|] eqn:Hh; [|apply Hskip; intros d (_ & _ & Hd); by rewrite Hh in Hd].
  assert (candidateFor E network network g a (hi_Delay h)) as Ha by (split_and!; [apply Hl; left|done|by rewrite Hh]).
  destruct (proj1 (proj2 Hfit) a _ Ha) as [Hpos Hroom]. rewrite Z.mod_small; [lia|]. cbn [snd].
  specialize (IH (if (m =? 0) || (hi_Delay h + g_tolerance g <? m) then Some a else o) (if (m =? 0) || (hi_Delay h + g_tolerance g <? m) then hi_Delay h else m)
    Htol (λ t Ht, Hl t (list_elem_of_further _ _ _ Ht)) Hfit).
  assert ((if (m =? 0) || (hi_Delay h + g_tolerance g <? m) then (Some a, hi_Delay h) else (o, m)) =
    (if (m =? 0) || (hi_Delay h + g_tolerance g <? m) then Some a else o, if (m =? 0) || (hi_Delay h + g_tolerance g <? m) then hi_Delay h else m)) as ->
    by by destruct (_ || _).
  assert (∀ d, candidateFor E network network g a d → d = hi_Delay h) as Hd by (intros d (_ & _ & Hd); rewrite Hh in Hd; by injection Hd).
  destruct ((m =? 0) || (hi_Delay h + g_tolerance g <? m)) eqn:Hc.
  - specialize (IH (or_intror (conj eq_refl Hpos))). destruct (select_loop _ _ _ _ _) as [o' m']. destruct IH as [IH1 IH2].
    assert (o = None ∨ hi_Delay h + g_tolerance g < m) as Hlt.
    { apply orb_true_iff in Hc as [Hz%Z.eqb_eq|?%Z.ltb_lt]; [|by right]. destruct Hom as [[? _]|[_ ?]]; [by left|lia]. }
    split.
    + right. destruct IH1 as [[-> ->]|[[?|?] (t & -> & Ht)]]; [eauto|done|]. split; [destruct Hlt; [by left|right; lia]|eauto].
    + intros t d [->|Hin]%elem_of_cons Hcd; [|eauto]. apply Hd in Hcd as ->.
      destruct IH1 as [[_ ->]|[[?|?] (t & _ & Ht)]]; [lia|done|]. destruct (proj1 (proj2 Hfit) t _ Ht). lia.
  - apply orb_false_iff in Hc as [Hz%Z.eqb_neq Hge%Z.ltb_ge]. specialize (IH Hom). destruct (select_loop _ _ _ _ _) as [o' m']. destruct IH as [IH1 IH2].
    split; [done|]. intros t d [->|Hin]%elem_of_cons Hcd; [|eauto]. apply Hd in Hcd as ->. destruct Hom as [[_ ?]|[Ho ?]]; [lia|].
    destruct IH1 as [[_ ->]|[[->|?] (t & _ & Ht)]]; [lia|done|]. destruct (proj1 (proj2 Hfit) t _ Ht). lia.
Qed.

(** ** The selection of a group *)

(** A node with its last delay, and the node the group holds for a network. *)
Definition delayVia (E : GroupEnv) (via : string) (g : URLTestGroup) (t : string) : option Z := hi_Delay <$> historyOf E t via g.

Lemma Select_spec E network g :
  delays_fit E network g →
  match Select E network g with
  | (Some t, true) => ∃ d, delayVia E network g t = Some d ∧
      (∀ t' d', candidateFor E network network g t' d' → d ≤ d' + g_tolerance g) ∧
      (∀ s ds, selectedOf network g = Some s → delayVia E network g s = Some ds → t = s ∨ d + g_tolerance g < ds)
  | (None, true) => False
  | (o, false) => (∀ t' d', ~ candidateFor E network network g t' d') ∧ (∀ s, selectedOf network g = Some s → delayVia E network g s = None) ∧
      o = snd <$> list_find (λ t, supportsNetwork E t network = true) (g_outbounds g)
  end.
Proof.
  intros Hfit. rewrite /Select /delayVia. set (start := match selectedOf network g with Some s => _ | None => _ end).
  assert (start.1 = None ∧ start.2 = 0 ∨ isSome start.1 = true ∧ 0 < start.2) as Hstart.
  { rewrite /start. destruct (selectedOf network g) as [s|] eqn:Hs; [|by left]. destruct (historyOf E s network g) as [h|] eqn:Hh; [right|by left].
    split; [done|]. by eapply (proj2 (proj2 Hfit)). }
  pose proof (select_loop_spec E network g (g_outbounds g) start.1 start.2 (proj1 Hfit) (λ t Ht, Ht) Hfit Hstart) as H. rewrite -surjective_pairing in H.
  destruct (select_loop E network g start (g_outbounds g)) as [[t|] m'] eqn:Hl; destruct H as [H1 H2]; cbn.
  - exists m'. split_and!.
    + destruct H1 as [[H1 ->]|(_ & t' & [= <-] & _ & _ & ?)]; [|done]. revert H1. rewrite /start.
      destruct (selectedOf network g) as [s|]; [|done]. destruct (historyOf E s network g) as [h|] eqn:Hh; [|done]. cbn. intros [= ->]. by rewrite Hh.
    + intros t' d' Hc. by apply (H2 t' d' (proj1 Hc) Hc).
    + intros s ds Hs Hds. rewrite /start Hs in H1. destruct (historyOf E s network g) as [h|]; [|done]. cbn in *. injection Hds as <-.
      destruct H1 as [[[= ->] _]|[[?|?] _]]; [by left|done|by right].
  - assert (start.1 = None) as Hnone by (destruct H1 as [[? _]|(_ & t' & ? & _)]; done).
    enough ((∀ t' d', ~ candidateFor E network network g t' d') ∧ (∀ s, selectedOf network g = Some s → hi_Delay <$> historyOf E s network g = None)) as [? ?]
      by by destruct (list_find (λ t, supportsNetwork E t network = true) (g_outbounds g)) as [[? ?]|].
    split.
    + intros t' d' Hc. destruct (H2 t' d' (proj1 Hc) Hc) as [Hm _]. destruct H1 as [[_ ->]|(_ & t'' & ? & _)]; [|done]. destruct Hstart as [[_ ?]|[? _]]; [lia|]. by rewrite Hnone in H.
    + intros s Hs. rewrite /start Hs in Hnone. by destruct (historyOf E s network g).
Qed.

Lemma failoverSelect_spec E network reselect g t :
  failoverSelect E network reselect g = (Some t, true) →
  (penaltyEmergency E network g = true ∧ leastPenalised E network EmptyString g t) ∨
  (reselect = false ∧ selectedOf network g = Some t ∧ delayVia E tcp g t ≠ None) ∨
  (reselect = false ∧ ∃ s ds d, selectedOf network g = Some s ∧ s ∈ g_failoverSlow g ∧ delayVia E tcp g s = Some ds ∧ fastestOf E network g t d ∧ 3 * d < 2 * ds) ∨
  ((reselect = true ∨ ∀ s, selectedOf network g = Some s → delayVia E tcp g s = None) ∧
    ((∃ d, fastestOf E network g t d) ∨ (∀ t d, ~ candidateFor E tcp network g t d) ∧ Select E network g = (Some t, true))).
Proof.
  rewrite /failoverSelect /delayVia. pose proof (penaltyBest_spec E network g EmptyString) as Hp. pose proof (fastestByDelay_spec E network g) as Hf.
  set (cold := match fastestByDelay E network g with Some f => _ | None => _ end).
  assert (cold = (Some t, true) → (∃ d, fastestOf E network g t d) ∨ (∀ t d, ~ candidateFor E tcp network g t d) ∧ Select E network g = (Some t, true)) as Hcold.
  { rewrite /cold. destruct (fastestByDelay E network g); [intros [= <-]; by left|]. intros ->. by right. }
  set (body := if reselect then cold else _). intros Hx.
  assert ((penaltyEmergency E network g = true ∧ leastPenalised E network EmptyString g t) ∨ body = (Some t, true)) as [?|Hbody].
  { destruct (penaltyEmergency E network g); [|by right]. destruct (penaltyBest E network "" g); [injection Hx as ->; by left|by right]. }
  { by left. }
  right. clear Hx Hp. rewrite /body in Hbody. destruct reselect; [right; right; split; [by left|auto]|].
  destruct (selectedOf network g) as [s|] eqn:Hs; [|right; right; split; [by right|auto]].
  destruct (historyOf E s tcp g) as [h|] eqn:Hh; [|right; right; split; [right; intros ? [= <-]; by rewrite Hh|auto]].
  injection Hbody as Ht. case_bool_decide as Hslow; [|cbn in Ht; subst; left; by rewrite Hh].
  destruct (fastestByDelay E network g) as [f|]; [|cbn in Ht; subst; left; by rewrite Hh].
  destruct (String.eqb_spec f s); [cbn in Ht; subst; left; by rewrite Hh|].
  destruct Hf as [d Hfast]. pose proof Hfast as [(_ & _ & Hd) _]. destruct (historyOf E f tcp g) as [b|]; [|done]. injection Hd as Hd.
  rewrite /slowerBy in Ht. destruct (Z.ltb_spec (hi_Delay b * 3) (hi_Delay h * 2)); cbn in Ht; subst; [|left; by rewrite Hh].
  right. left. split; [done|]. exists s, (hi_Delay h), (hi_Delay b). rewrite Hh. split_and!; [done|done|done|done|lia].
Qed.

(** ** What the selection goes by *)

(** Two groups with the same outbounds, history, penalties and mode. *)
Definition same_view (g g' : URLTestGroup) : Prop :=
  g_outbounds g' = g_outbounds g ∧ g_history g' = g_history g ∧ g_penalties g' = g_penalties g.

#[local] Instance same_view_equiv : Equivalence same_view.
Proof. split; rewrite /same_view; [by intros g|intros g g'; naive_solver|intros g1 g2 g3; intros (? & ? & ?) (? & ? & ?); split_and!; congruence]. Qed.

Section view.
Context (E : GroupEnv) (network : string) (g g' : URLTestGroup) (Hv : same_view g g').

Lemma view_history t via : historyOf E t via g' = historyOf E t via g.
Proof using Hv. destruct Hv as (_ & H & _). by rewrite /historyOf H. Qed.
Lemma view_delay via t : delayVia E via g' t = delayVia E via g t.
Proof using Hv. by rewrite /delayVia view_history. Qed.
Lemma view_penalty t : penaltyOf t g' = penaltyOf t g.
Proof using Hv. destruct Hv as (_ & _ & H). by rewrite /penaltyOf H. Qed.
Lemma view_candidate via t d : candidateFor E via network g' t d ↔ candidateFor E via network g t d.
Proof using Hv. destruct Hv as (H & _). by rewrite /candidateFor H view_history. Qed.
Lemma view_fastest t d : fastestOf E network g' t d ↔ fastestOf E network g t d.
Proof using Hv. rewrite /fastestOf. by setoid_rewrite view_candidate. Qed.
Lemma view_least excl t : leastPenalised E network excl g' t ↔ leastPenalised E network excl g t.
Proof using Hv. rewrite /leastPenalised. by setoid_rewrite view_candidate; setoid_rewrite view_penalty. Qed.
Lemma view_emergency : penaltyEmergency E network g' = penaltyEmergency E network g.
Proof using Hv.
  rewrite /penaltyEmergency /fastestByDelay !fastest_loop_least. pose proof Hv as (Ho & Hh & Hp).
  assert (delayKey E network g' = delayKey E network g) as -> by by rewrite /delayKey /historyOf Hh.
  rewrite Ho. case_match; [|done]. by rewrite view_penalty.
Qed.
End view.

Lemma view_set_selected n v g : same_view g (set_selected n v g).
Proof. rewrite /set_selected. destruct g. by repeat case_match. Qed.
Lemma view_set_slow v g : same_view g (set_failoverSlow v g). Proof. by destruct g. Qed.
Lemma selectedOf_set n v g : n = tcp ∨ n = udp → selectedOf n (set_selected n v g) = v.
Proof. by intros [-> | ->]; destruct g. Qed.
Lemma selectedOf_other n m v g : n ≠ m → selectedOf n (set_selected m v g) = selectedOf n g.
Proof.
  intros Hne. destruct g. rewrite /set_selected /selectedOf.
  destruct (String.eqb_spec m tcp) as [->|]; [by destruct (String.eqb_spec n tcp)|]. destruct (String.eqb_spec m udp) as [->|]; [|done].
  destruct (String.eqb n tcp); [done|]. by destruct (String.eqb_spec n udp).
Qed.
Lemma selectedOf_slow n v g : selectedOf n (set_failoverSlow v g) = selectedOf n g. Proof. by destruct g. Qed.
Lemma failover_set_selected n v g : g_failover (set_selected n v g) = g_failover g.
Proof. rewrite /set_selected. destruct g. by repeat case_match. Qed.

Lemma view_updateNetwork E n rs g : same_view g (updateNetwork E n rs g).1.
Proof. rewrite /updateNetwork. repeat case_match; cbn; first [apply view_set_selected|done]. Qed.
Lemma failover_updateNetwork E n rs g : g_failover (updateNetwork E n rs g).1 = g_failover g.
Proof. rewrite /updateNetwork. repeat case_match; cbn; first [apply failover_set_selected|done]. Qed.
Lemma selectedOf_updateNetwork E n m rs g : n ≠ m → selectedOf n (updateNetwork E m rs g).1 = selectedOf n g.
Proof. intros Hne. rewrite /updateNetwork. repeat case_match; cbn; first [by apply selectedOf_other|done]. Qed.

(** Why a failover group that held [s] now holds [t]. *)
Definition failover_move (E : GroupEnv) (network : string) (g : URLTestGroup) (s t : string) : Prop :=
  (penaltyEmergency E network g = true ∧ leastPenalised E network EmptyString g t) ∨
  (delayVia E tcp g s = None ∧ ((∃ t' d', candidateFor E tcp network g t' d') → ∃ d, fastestOf E network g t d)) ∨
  (∃ ds d, delayVia E tcp g s = Some ds ∧ fastestOf E network g t d ∧ 3 * d < 2 * ds).

#[local] Instance failover_move_proper E network : Proper (same_view ==> eq ==> eq ==> iff) (failover_move E network).
Proof.
  intros g g' Hv s _ <- t _ <-. rewrite /failover_move (view_emergency E network g g' Hv) (view_delay E g g' Hv).
  setoid_rewrite (view_least E network g g' Hv). setoid_rewrite (view_fastest E network g g' Hv). by setoid_rewrite (view_candidate E network g g' Hv).
Qed.

Lemma failoverSelect_cold E network g o : failoverSelect E network false g = (o, false) → ∀ t d, ~ candidateFor E tcp network g t d.
Proof.
  pose proof (fastestByDelay_spec E network g) as Hfd. rewrite /failoverSelect. destruct (fastestByDelay E network g); [|done].
  repeat case_match; intros [=].
Qed.

Lemma updateNetwork_failover E network g s :
  network = tcp ∨ network = udp → g_failover g = true → selectedOf network g = Some s →
  ∃ t, selectedOf network (updateNetwork E network false g).1 = Some t ∧ (t = s ∨ failover_move E network g s t) ∧
    (delayVia E tcp g s = None → (∃ t' d', candidateFor E tcp network g t' d') → failover_move E network g s t).
Proof.
  intros Hn Hf Hs. rewrite /updateNetwork /selectForUpdate Hf Hs.
  pose proof (failoverSelect_spec E network false g) as Hspec. destruct (failoverSelect E network false g) as [[t|] [|]] eqn:Hfs.
  - specialize (Hspec t eq_refl). assert (selectedOf network (if negb (isSome (Some s)) || true && negb (bool_decide (Some s = Some t))
      then (set_selected network (Some t) g, (isSome (Some s), negb (bool_decide (Some s = Some t)), true)) else (g, (false, false, false))).1 = Some t) as Hsel.
    { cbn. case_bool_decide as He; cbn; [by rewrite Hs He|by apply selectedOf_set]. }
    exists t. split; [done|]. rewrite /failover_move.
    destruct Hspec as [?|[(_ & Hst & Hd)|[(_ & s' & ds & d & Hs' & _ & Hds & Hfast & Hlt)|[[?|Hd] Hc]]]].
    + auto.
    + assert (s = t) as -> by congruence. split; [by left|]. intros Hd'. congruence.
    + assert (s = s') as <- by congruence. split; [right|intros _ _]; right; right; eauto.
    + done.
    + specialize (Hd s Hs). split; [right|intros _ _]; right; left; (split; [done|]); intros (t' & d' & Hc'); destruct Hc as [?|[Hno _]]; try done; by destruct (Hno t' d').
  - pose proof (failoverSelect_cold _ _ _ _ Hfs) as Hno. exists s. cbn. split; [done|]. split; [by left|]. intros _ (t' & d' & Hc). by destruct (Hno t' d').
  - exfalso. revert Hfs. rewrite /failoverSelect /Select Hs. repeat case_match; done.
  - pose proof (failoverSelect_cold _ _ _ _ Hfs) as Hno. exists s. cbn. split; [done|]. split; [by left|]. intros _ (t' & d' & Hc). by destruct (Hno t' d').
Qed.

Lemma performSelectionUpdate_failover E network g s :
  network = tcp ∨ network = udp → g_failover g = true → selectedOf network g = Some s →
  ∃ t, selectedOf network (performSelectionUpdate E false g).1 = Some t ∧ (t = s ∨ failover_move E network g s t) ∧
    (delayVia E tcp g s = None → (∃ t' d', candidateFor E tcp network g t' d') → failover_move E network g s t).
Proof.
  intros Hn Hf Hs. rewrite /performSelectionUpdate.
  pose proof (view_updateNetwork E tcp false g) as Hv. pose proof (failover_updateNetwork E tcp false g) as Hf1.
  pose proof (selectedOf_updateNetwork E udp tcp false g) as Hs1. pose proof (updateNetwork_failover E tcp g s (or_introl eq_refl) Hf) as Htcp.
  destruct (updateNetwork E tcp false g) as [g1 [[u1 c1] s1]]. cbn [fst snd] in *.
  pose proof (selectedOf_updateNetwork E tcp udp false g1) as Hs2. pose proof (updateNetwork_failover E udp g1 s (or_intror eq_refl)) as Hudp.
  destruct (updateNetwork E udp false g1) as [g2 [[u2 c2] s2]]. cbn [fst snd] in *. destruct Hn as [-> | ->].
  - destruct (Htcp Hs) as (t & Ht & Hor). exists t. by rewrite Hs2.
  - destruct Hudp as (t & Ht & Hor & Hmove); [congruence|by rewrite Hs1|]. exists t. rewrite (failover_move_proper E udp g g1 Hv s s eq_refl t t eq_refl). split; [done|]. split; [done|].
    intros Hd (t' & d' & Hc). apply Hmove; [by rewrite (view_delay E g g1 Hv)|]. exists t', d'. by apply (view_candidate E udp g g1 Hv).
Qed.

Lemma view_performSelectionUpdate E rs g : same_view g (performSelectionUpdate E rs g).1.
Proof.
  rewrite /performSelectionUpdate. pose proof (view_updateNetwork E tcp rs g) as H1. destruct (updateNetwork E tcp rs g) as [g1 [[u1 c1] s1]].
  pose proof (view_updateNetwork E udp rs g1) as H2. destruct (updateNetwork E udp rs g1) as [g2 [[u2 c2] s2]]. cbn [fst snd] in *. by etrans.
Qed.

(** Probes keep the mode and the selection. *)
Definition same_choice (g g' : URLTestGroup) : Prop := g_failover g' = g_failover g ∧ g_outbounds g' = g_outbounds g ∧ ∀ n, selectedOf n g' = selectedOf n g.
#[local] Instance same_choice_preorder : PreOrder same_choice.
Proof. split; rewrite /same_choice; [by intros g|]. intros g1 g2 g3 (? & ? & H1) (? & ? & H2). split_and!; [congruence|congruence|]. intros n. by rewrite H2 H1. Qed.

Lemma choice_urlTestOutbounds E l i f g : same_choice g (urlTestOutbounds E l i f g).2.
Proof. rewrite /urlTestOutbounds. by destruct g. Qed.
Lemma choice_testNodes E l f g : same_choice g (testNodes E l f g).2.
Proof.
  rewrite /testNodes /testNodesTick. destruct f; [apply choice_urlTestOutbounds|].
  match goal with |- context [urlTestOutbounds E l ?i false g] => pose proof (choice_urlTestOutbounds E l i false g) as H; destruct (urlTestOutbounds E l i false g) as [r1 g1] end.
  etrans; [exact H|]. by destruct g1.
Qed.

Lemma confirm_spec E held : ∀ failed slow r g f' s' r' g' e,
  confirm E held failed slow r g = (f', s', r', g', e) → same_choice g g' ∧ failed ⊆ f' ∧ (env_ctxErr E = false → e = false).
Proof.
  induction held as [|node held IH]; intros failed slow r g f' s' r' g' e; cbn [confirm]; [by intros [= <- _ _ <- <-]|].
  case_match; [apply IH|]. pose proof (choice_urlTestOutbounds E [node] 0 false g) as Hp. rewrite /probeNow. destruct (urlTestOutbounds E [node] 0 false g) as [r1 g1].
  cbn [fst snd] in Hp. destruct (env_ctxErr E) eqn:Hctx; [by intros [= <- _ _ <- <-]|].
  repeat case_match; intros (Hch & Hsub & ?)%IH; split_and!; try done; try (by etrans); set_solver.
Qed.

Lemma escalate_failover E network failed slow r0 g s r g' :
  network = tcp ∨ network = udp → g_failover g = true → selectedOf network g = Some s → escalate E failed slow r0 g = (r, g') →
  ∃ t, selectedOf network g' = Some t ∧ (t = s ∨ failover_move E network g' s t) ∧
    (delayVia E tcp g' s = None → (∃ t' d', candidateFor E tcp network g' t' d') → failover_move E network g' s t).
Proof.
  intros Hn Hf Hs. rewrite /escalate. pose proof (choice_testNodes E (filter (λ t, t ∉ failed ∧ t ∉ slow) (g_outbounds g)) false g) as (Hf1 & _ & Hs1).
  destruct (testNodes E _ false g) as [r1 g1]. cbn [fst snd] in *. intros [= _ <-].
  destruct (performSelectionUpdate_failover E network (set_failoverSlow slow g1) s) as (t & Ht & Hor & Hmove); [done|by destruct g1; cbn in *; rewrite Hf1|by rewrite selectedOf_slow Hs1|].
  set (g2 := (performSelectionUpdate E false (set_failoverSlow slow g1)).1) in *.
  assert (same_view (set_failoverSlow slow g1) (set_failoverSlow ∅ g2)) as Hv by (etrans; [apply view_performSelectionUpdate|apply view_set_slow]).
  exists t. rewrite selectedOf_slow -(failover_move_proper E network _ _ Hv s s eq_refl t t eq_refl). split; [done|]. split; [done|].
  intros Hd (t' & d' & Hc). apply Hmove; [by rewrite -(view_delay E _ _ Hv)|]. exists t', d'. by apply (view_candidate E network _ _ Hv).
Qed.

(** C5: the periodic check of a failover group.  The node held for a network is
    left only for a reason, judged by the history after the check: the penalties
    declare an emergency and the new node has the fewest; the held node has no
    answer on record and the new one is the fastest that has; or the held node is
    slow and the fastest is more than one and a half times faster.  And when the
    held node did not answer the check and still has no answer on record after
    it, any node that has one takes over. *)
Theorem failover_leaves_for_reason E E2 E3 network g s r g' :
  g_balancer g = None → g_failover g = true → tickTooSoon E g = false → network = tcp ∨ network = udp → selectedOf network g = Some s →
  urlTest false E E2 E3 false g = (r, g') →
  ∃ t, selectedOf network g' = Some t ∧ (t = s ∨ failover_move E3 network g' s t) ∧
    (env_ctxErr E = false → env_ctxErr E2 = false → delayVia E tcp (testNodes E (failoverHeld g) false g).2 s = None →
     delayVia E3 tcp g' s = None → (∃ t' d', candidateFor E3 tcp network g' t' d') → t ≠ s ∧ failover_move E3 network g' s t).
Proof.
  intros Hb Hf Hsoon Hn Hs. rewrite /urlTest Hb Hf Hsoon. cbn [negb andb]. rewrite /failoverCheck.
  assert (s ∈ failoverHeld g) as Hheld.
  { rewrite /failoverHeld. destruct Hn as [-> | ->]; cbn in Hs; rewrite Hs; [set_solver|]. case_bool_decide as He; [rewrite He|]; set_solver. }
  assert (∀ t, delayVia E3 tcp g' s = None → (∃ t' d', candidateFor E3 tcp network g' t' d') → penaltyEmergency E3 network g' = true ∧ leastPenalised E3 network EmptyString g' t ∨ (∃ d, fastestOf E3 network g' t d) → t ≠ s) as Hne.
  { intros t Hd _ Hor ->. assert (∃ d, candidateFor E3 tcp network g' s d) as (d & _ & _ & Hsd) by (destruct Hor as [[_ (d & ? & _)]|[d [? _]]]; eauto).
    rewrite /delayVia in Hd. congruence. }
  destruct (failoverHeld g) as [|h0 hs] eqn:Hh; [set_solver|]. pose proof (choice_testNodes E (h0 :: hs) false g) as Hch.
  destruct (testNodes E (h0 :: hs) false g) as [r1 g1]. cbn [fst snd] in *. destruct (env_ctxErr E); [intros [= _ <-]; exists s; rewrite (proj2 (proj2 Hch)); split; [done|]; split; [by left|done]|].
  set (failed := list_to_set _). destruct (confirm E2 (h0 :: hs) failed ∅ r1 g1) as [[[[f' s'] r'] g2] e] eqn:Hc.
  apply confirm_spec in Hc as (Hch2 & Hsub & He). assert (same_choice g g2) as (Hf2 & _ & Hs2) by by etrans.
  destruct e; [intros [= _ <-]; exists s; rewrite Hs2; split; [done|]; split; [by left|]; intros _ Hctx; by specialize (He Hctx)|].
  destruct (bool_decide (f' = ∅) && bool_decide (s' = ∅)) eqn:Hempty.
  - intros [= _ <-]. exists s. rewrite Hs2. split; [done|]. split; [by left|]. intros _ _ Hd. exfalso. apply andb_true_iff in Hempty as [Hf'%bool_decide_eq_true _].
    assert (s ∈ failed); [|set_solver]. rewrite /failed elem_of_list_to_set list_elem_of_filter. split; [|done]. by apply fmap_None in Hd as ->.
  - intros Hesc. destruct (escalate_failover E3 network f' s' r' g2 s r g') as (t & Ht & Hor & Hmove); [done|by rewrite Hf2|by rewrite Hs2|done|].
    exists t. split; [done|]. split; [done|]. intros _ _ _ Hd Hcand. specialize (Hmove Hd Hcand). split; [|done]. apply Hne; [done|done|].
    destruct Hmove as [?|[[_ ?]|(ds & d & ? & _)]]; [by left|right; auto|congruence].
Qed.

(** Of two nodes, the one held does not answer any more. *)
Definition failover_tags : list string := ["a"; "b"]%string.
Definition failover_env (now : Z) : GroupEnv :=
  mkGroupEnv failover_tags (λ t, Some (PlainOutbound t [tcp; udp] None)) (λ _, LeafNode)
    (λ t, if String.eqb t "a" then NoAnswer else Delayed 80) (λ _, now) (λ _ _ h, (∅, h)) (λ m, (map_to_list m).*2) now now false.
Definition failover_group : URLTestGroup :=
  mkGroup failover_tags minute_ns 50 {["a"%string := mkHistory 1 40]} ∅ (Some "a"%string) (Some "a"%string) "" None true ∅ 0 false None.

Lemma failover_leaves_for_reason_witness :
  selectedOf tcp (urlTest false (failover_env (10 ^ 12)) (failover_env (10 ^ 12)) (failover_env (10 ^ 12)) false failover_group).2 = Some "b"%string ∧
  let '(r, g') := urlTest false (failover_env (10 ^ 12)) (failover_env (10 ^ 12)) (failover_env (10 ^ 12)) false failover_group in
  ∃ t, selectedOf tcp g' = Some t ∧ (t = "a"%string ∨ failover_move (failover_env (10 ^ 12)) tcp g' "a" t) ∧
    (env_ctxErr (failover_env (10 ^ 12)) = false → env_ctxErr (failover_env (10 ^ 12)) = false →
     delayVia (failover_env (10 ^ 12)) tcp (testNodes (failover_env (10 ^ 12)) (failoverHeld failover_group) false failover_group).2 "a" = None →
     delayVia (failover_env (10 ^ 12)) tcp g' "a" = None → (∃ t' d', candidateFor (failover_env (10 ^ 12)) tcp tcp g' t' d') →
     t ≠ "a"%string ∧ failover_move (failover_env (10 ^ 12)) tcp g' "a" t).
Proof.
  split; [vm_compute; reflexivity|].
  destruct (urlTest false (failover_env (10 ^ 12)) (failover_env (10 ^ 12)) (failover_env (10 ^ 12)) false failover_group) as [r g'] eqn:Ht.
  apply (failover_leaves_for_reason (failover_env (10 ^ 12)) (failover_env (10 ^ 12)) (failover_env (10 ^ 12)) tcp failover_group "a" r g');
    [reflexivity|reflexivity|vm_compute; reflexivity|by left|reflexivity|exact Ht].
Defined.

(** C21: the policy of a group without a balancer.  In an emergency the node with
    the fewest penalties is selected, and of those the fastest.  Otherwise
    least_test selects a node that is within the tolerance of every node with an
    answer on record, and leaves the node it holds only for one that is faster by
    more than the tolerance; with no answer on record it takes the first outbound
    that supports the network.  Failover selects the fastest when it is asked to
    select anew, and else keeps the node it holds as long as that has an answer
    and has not been found slow. *)
Theorem selection_policy E network reselect g :
  g_balancer g = None →
  (penaltyEmergency E network g = true → (∃ t d, candidateFor E tcp network g t d ∧ realTag E t tcp ≠ EmptyString) →
    ∃ t, selectForUpdate E network reselect g = (Some t, true) ∧ leastPenalised E network EmptyString g t) ∧
  (penaltyEmergency E network g = false → g_failover g = false → delays_fit E network g →
    match selectForUpdate E network reselect g with
    | (Some t, true) => ∃ d, delayVia E network g t = Some d ∧
        (∀ t' d', candidateFor E network network g t' d' → d ≤ d' + g_tolerance g) ∧
        (∀ s ds, selectedOf network g = Some s → delayVia E network g s = Some ds → t = s ∨ d + g_tolerance g < ds)
    | (None, true) => False
    | (o, false) => (∀ t' d', ~ candidateFor E network network g t' d') ∧ (∀ s, selectedOf network g = Some s → delayVia E network g s = None) ∧
        o = snd <$> list_find (λ t, supportsNetwork E t network = true) (g_outbounds g)
    end) ∧
  (penaltyEmergency E network g = false → g_failover g = true →
    ((reselect = true ∨ ∀ s, selectedOf network g = Some s → delayVia E tcp g s = None) → (∃ t d, candidateFor E tcp network g t d) →
      ∃ t d, selectForUpdate E network reselect g = (Some t, true) ∧ fastestOf E network g t d) ∧
    (∀ s, reselect = false → selectedOf network g = Some s → delayVia E tcp g s ≠ None → s ∉ g_failoverSlow g → selectForUpdate E network reselect g = (Some s, true))).
Proof.
  intros Hb. rewrite /selectForUpdate /selectPenaltyAware Hb. split; [|split].
  - intros He (t & d & Hc & Hne). pose proof (penaltyBest_spec E network g EmptyString) as Hp. rewrite /failoverSelect He.
    destruct (penaltyBest E network EmptyString g) as [t'|]; [destruct (g_failover g); eauto|]. by apply Hp in Hc.
  - intros He -> Hfit. rewrite He. by apply Select_spec.
  - intros He ->. rewrite /failoverSelect He. split.
    + intros Hre (t & d & Hc). pose proof (fastestByDelay_spec E network g) as Hf. destruct (fastestByDelay E network g) as [f|]; [|by destruct (Hf t d)].
      destruct Hf as [df Hf]. exists f, df. split; [|done]. destruct reselect; [done|]. destruct Hre as [?|Hre]; [done|].
      destruct (selectedOf network g) as [s|]; [|done]. specialize (Hre s eq_refl). by apply fmap_None in Hre as ->.
    + intros s -> -> Hd Hslow. rewrite /delayVia in Hd. destruct (historyOf E s tcp g); [|done]. by rewrite bool_decide_false.
Qed.

(** A node 45 ms faster than the held one is within the tolerance of 50 ms. *)
Definition policy_group : URLTestGroup :=
  mkGroup failover_tags minute_ns 50 {["a" := mkHistory 1 145; "b" := mkHistory 1 100]}%string ∅ (Some "a"%string) None "" None false ∅ 0 false None.

Lemma selection_policy_witness :
  selectForUpdate (failover_env 1) tcp false policy_group = (Some "a"%string, true) ∧
  selectForUpdate (failover_env 1) udp false policy_group = (Some "a"%string, true) ∧
  ∃ d, delayVia (failover_env 1) tcp policy_group "a" = Some d ∧
    (∀ t' d', candidateFor (failover_env 1) tcp tcp policy_group t' d' → d ≤ d' + 50) ∧
    (∀ s ds, selectedOf tcp policy_group = Some s → delayVia (failover_env 1) tcp policy_group s = Some ds → "a"%string = s ∨ d + 50 < ds).
Proof.
  split; [vm_compute; reflexivity|]. split; [vm_compute; reflexivity|].
  destruct (selection_policy (failover_env 1) tcp false policy_group eq_refl) as (_ & Hleast & _).
  assert (selectForUpdate (failover_env 1) tcp false policy_group = (Some "a"%string, true)) as Hs by (vm_compute; reflexivity).
  rewrite Hs in Hleast. apply Hleast; [vm_compute; reflexivity|reflexivity|]. split; [done|]. split.
  - intros t d (Ht & _ & Hd). apply elem_of_cons in Ht as [->|[->|[]%elem_of_nil]%elem_of_cons]; vm_compute in Hd; injection Hd as <-; vm_compute; done.
  - intros s h [= <-] Hh. vm_compute in Hh. injection Hh as <-. done.
Defined.

(** ** Probes *)

Lemma leastKey_ext key key' l : (∀ t, key t = key' t) → ∀ best, leastKey key best l = leastKey key' best l.
Proof. intros Hk. induction l as [|t l IH]; intros best; cbn; [done|]. rewrite Hk. destruct (key' t); apply IH. Qed.

(** Only the excluded node differs. *)
Lemma penaltyBest_excluded E network x g g' :
  g_outbounds g' = g_outbounds g → (∀ t, t ≠ x → g_history g' !! t = g_history g !! t) → (∀ t, t ≠ x → penaltyOf t g' = penaltyOf t g) →
  penaltyBest E network x g' = penaltyBest E network x g.
Proof.
  intros Ho Hh Hp. rewrite /penaltyBest !best_loop_least Ho. do 2 f_equal. apply leastKey_ext. intros t. rewrite /penaltyKey /historyOf.
  destruct (String.eqb_spec (realTag E t tcp) x); [by rewrite andb_false_r|]. by rewrite Hh // Hp.
Qed.

Lemma view_maybeForceRetest E now g : same_view g (maybeForceRetest E now g).2.
Proof. rewrite /maybeForceRetest. repeat case_match; cbn; first [done|by destruct g]. Qed.

Lemma pickSlot_probe alive key b : (pickSlot alive true key b).1 = (pickSlot alive false key b).1 ∧ (pickSlot alive true key b).2 = b.
Proof. rewrite /pickSlot /rotate. destruct (_ =? 0); [done|]. by destruct (nonempty _), alive; [case_match|..]. Qed.

(** A connection test changes nothing in the selections, histories, penalties and
    slots of a group, and goes the way of a connection. *)
Lemma probe_keeps_choices E key network tag err g :
  (beginDial E true key network g).2 = g ∧ (beginDial E true key network g).1 = (beginDial E false key network g).1 ∧
  (endDial E true network tag err g).2 = g ∧ (endFallback E true network tag err g).2 = g ∧ endListen true tag err g = g ∧
  (realTag E tag tcp = tag → (endDial E true network tag err g).1 = (endDial E false network tag err g).1).
Proof.
  split_and!.
  - rewrite /beginDial. case_match; [done|]. destruct (g_balancer g) as [b|] eqn:Hb; [|done]. rewrite /selectBalanced /pick.
    destruct (pickSlot_probe (Some (slotAlive E g)) key b) as [_ Hp]. destruct (pickSlot _ true key b) as [idx b']. cbn in Hp. subst b'.
    assert (set_balancer (Some b) g = g) as Hg by (destruct g; cbn in *; by rewrite Hb).
    destruct idx as [i|]; [destruct (b_slots b !! i)|]; rewrite Hg; by repeat case_match.
  - rewrite /beginDial. case_match; [done|]. destruct (g_balancer g) as [b|] eqn:Hb; [|done]. rewrite /selectBalanced /pick.
    destruct (pickSlot_probe (Some (slotAlive E g)) key b) as [Hp _]. destruct (pickSlot _ true key b) as [idx b1], (pickSlot _ false key b) as [idx' b2]. cbn in Hp. subst idx'.
    by destruct idx as [i|]; [destruct (b_slots b !! i)|].
  - rewrite /endDial. by repeat case_match.
  - rewrite /endFallback. by destruct err.
  - rewrite /endListen. by repeat case_match.
  - intros Hreal. rewrite /endDial. destruct err as [e|], (g_balancer g) eqn:Hb; try done. destruct (isPathDeadDialError e); [|done]. cbn [negb].
    rewrite Hreal. set (g1 := penaltyAdd tag (deleteHistory tag g)). pose proof (view_maybeForceRetest E (env_now E) g1) as (Ho & Hh & Hp).
    assert (penaltyBest E network tag (maybeForceRetest E (env_now E) g1).2 = penaltyBest E network tag g) as ->; [apply penaltyBest_excluded|by case_match].
    + rewrite Ho. by destruct g.
    + intros t Hne. rewrite Hh. destruct g. cbn. by rewrite lookup_delete_ne.
    + intros t Hne. rewrite /penaltyOf Hp. destruct g. cbn. by rewrite lookup_insert_ne.
Qed.
