(* ===== verification/GroupTheorems.v ===== *)
(** Theorems about outbound groups: the fuel of a run, the pool under health
    checks, the selection of the other modes, and the selector. *)

From Stdlib Require Import ssreflect.
From S2P Require Import Prelude GoBytes GoStrings Netip Metadata Router Balancer BalancerTheorems Group.

(** ** Runs of probes *)

(** The body of the loop of [test]. *)
Definition testOne (fuel : nat) (E : GroupEnv) (interval : Z) (force onAlive : bool) (b : urlTestBatch) (tag : string) : urlTestBatch :=
  if bool_decide (tag ∈ bt_checked b) then b
  else
    let marked := mkBatch (bt_history b) (bt_penalties b) ({[tag]} ∪ bt_checked b) (bt_groups b ++ [tag]) (bt_result b) in
    match env_kind E tag with
    | URLTestNode =>
        let '(nestedResult, history) := env_nested E tag force (bt_history b) in
        mkBatch history (bt_penalties marked) (bt_checked marked) (bt_groups marked) (nestedResult ∪ bt_result b)
    | GroupNode all => test fuel E interval force onAlive (loaded E all) marked
    | LeafNode =>
        match bt_history b !! tag with
        | Some h => if negb force && (env_now E - hi_Time h <? interval) then b else probed E onAlive tag b
        | None => probed E onAlive tag b
        end
    end.

Lemma test_S fuel E interval force onAlive outbounds b :
  test (S fuel) E interval force onAlive outbounds b = fold_left (testOne fuel E interval force onAlive) outbounds b.
Proof. done. Qed.

(** A leaf that answers its probe. *)
Definition answers (E : GroupEnv) (t : string) : Prop := env_kind E t = LeafNode ∧ ∃ d, env_probe E t = Delayed d.

(** What is checked stays checked, what has a result keeps one, and a leaf that
    was probed and answered has one. *)
Definition grows (b b' : urlTestBatch) : Prop :=
  bt_checked b ⊆ bt_checked b' ∧ ∀ t, is_Some (bt_result b !! t) → is_Some (bt_result b' !! t).
Definition noted (E : GroupEnv) (b : urlTestBatch) : Prop := ∀ t, t ∈ bt_checked b → answers E t → is_Some (bt_result b !! t).

#[local] Instance grows_preorder : PreOrder grows.
Proof. split; [by intros b; split|]. intros b1 b2 b3 [H1 H2] [H3 H4]. split; [set_solver|auto]. Qed.

Lemma fold_grows {A} (f : urlTestBatch → A → urlTestBatch) (P : urlTestBatch → Prop) l : ∀ b,
  (∀ b a, P b → grows b (f b a) ∧ P (f b a)) → P b → grows b (fold_left f l b) ∧ P (fold_left f l b).
Proof.
  induction l as [|a l IH]; intros b Hf Hb; [done|]. cbn. destruct (Hf b a Hb) as [Hg Hp]. destruct (IH (f b a) Hf Hp) as [Hg' Hp'].
  split; [by etrans|done].
Qed.

Lemma probed_grows E onAlive tag b : noted E b → grows b (probed E onAlive tag b) ∧ noted E (probed E onAlive tag b) ∧ tag ∈ bt_checked (probed E onAlive tag b).
Proof.
  intros Hn. rewrite /probed. destruct (env_probe E tag) as [d| |] eqn:Hp; (split_and!; [split; cbn; [set_solver|]| |cbn; set_solver]).
  - intros t Ht. destruct (decide (t = tag)) as [->|]; [by rewrite lookup_insert_eq|by rewrite lookup_insert_ne].
  - intros t Ht Ha. cbn in *. destruct (decide (t = tag)) as [->|]; [by rewrite lookup_insert_eq|rewrite lookup_insert_ne //]. apply Hn; [set_solver|done].
  - done.
  - intros t Ht Ha. cbn in *. destruct (decide (t = tag)) as [->|]; [by destruct Ha as [_ [? ?]]; congruence|]. apply Hn; [set_solver|done].
  - done.
  - intros t Ht Ha. cbn in *. destruct (decide (t = tag)) as [->|]; [by destruct Ha as [_ [? ?]]; congruence|]. apply Hn; [set_solver|done].
Qed.

Lemma test_grows fuel E interval force onAlive : ∀ outbounds b,
  noted E b → grows b (test fuel E interval force onAlive outbounds b) ∧ noted E (test fuel E interval force onAlive outbounds b).
Proof.
  induction fuel as [|fuel IH]; intros outbounds b Hn; [done|]. rewrite test_S. apply fold_grows; [|done].
  clear b Hn. intros b tag Hn. rewrite /testOne. case_bool_decide as Hc; [done|].
  set (marked := mkBatch _ _ _ _ _).
  assert (env_kind E tag ≠ LeafNode → noted E marked) as Hm.
  { intros Hk t Ht Ha. cbn in *. destruct (decide (t = tag)) as [->|]; [by destruct Ha|]. apply Hn; [set_solver|done]. }
  assert (grows b marked) as Hg by (split; cbn; [set_solver|done]).
  destruct (env_kind E tag) eqn:Hk.
  - destruct (bt_history b !! tag); [case_match; [done|]|]; destruct (probed_grows E onAlive tag b Hn) as (? & ? & _); done.
  - destruct (env_nested E tag force (bt_history b)) as [r h]. split; [split; cbn; [set_solver|]|].
    + intros t Ht. rewrite lookup_union. destruct (r !! t), (bt_result b !! t); done.
    + intros t Ht Ha. cbn in *. rewrite lookup_union. destruct (decide (t = tag)) as [->|]; [destruct Ha; congruence|].
      destruct (Hn t) as [x ->]; [set_solver|done|]. by destruct (r !! t).
  - destruct (IH (loaded E all) marked) as [? ?]; [by apply Hm|]. split; [by etrans|done].
Qed.

(** A forced run has a result for every leaf of its list that answers. *)
Lemma test_answers fuel E interval onAlive outbounds b t :
  noted E b → t ∈ outbounds → answers E t → is_Some (bt_result (test (S fuel) E interval true onAlive outbounds b) !! t).
Proof.
  intros Hn Ht Ha. rewrite test_S. apply list_elem_of_split in Ht as (l1 & l2 & ->). rewrite fold_left_app. cbn [fold_left].
  set (f := testOne _ _ _ _ _).
  assert (∀ l b, noted E b → grows b (fold_left f l b) ∧ noted E (fold_left f l b)) as Hfold.
  { intros l b' Hb'. exact (test_grows (S fuel) E interval true onAlive l b' Hb'). }
  destruct (Hfold l1 b Hn) as [_ Hn1]. set (b1 := fold_left f l1 b) in *.
  assert (noted E (f b1 t) ∧ t ∈ bt_checked (f b1 t)) as [Hn2 Hc].
  { split; [by apply (Hfold [t] b1 Hn1)|]. rewrite /f /testOne. case_bool_decide; [done|]. destruct Ha as [-> _].
    destruct (bt_history b1 !! t); cbn; by apply probed_grows. }
  destruct (Hfold l2 (f b1 t) Hn2) as [[_ Hg] _]. apply Hg. by apply Hn2.
Qed.

Lemma fold_result_mono E g l : ∀ (r : gmap string Z) t, is_Some (r !! t) →
  is_Some (fold_left (λ r tag, match historyOf E tag tcp g with Some h => <[tag := hi_Delay h]> r | None => r end) l r !! t).
Proof.
  induction l as [|a l IH]; intros r t Hr; [done|]. apply IH. case_match; [|done].
  destruct (decide (t = a)) as [->|]; [by rewrite lookup_insert_eq|by rewrite lookup_insert_ne].
Qed.

Lemma testNodes_answers E outbounds g r g' t :
  testNodes E outbounds true g = (r, g') → t ∈ outbounds → answers E t → is_Some (r !! t).
Proof.
  rewrite /testNodes /urlTestOutbounds. intros [= <- _] Ht Ha. apply fold_result_mono. by apply test_answers.
Qed.

(** A run changes the history and the penalties of the group only. *)
Definition same_group (g g' : URLTestGroup) : Prop := g' = set_penalties (g_penalties g') (set_history (g_history g') g).
Lemma testNodes_same E outbounds g r g' : testNodes E outbounds true g = (r, g') → same_group g g'.
Proof. rewrite /testNodes /urlTestOutbounds /same_group. intros [= _ <-]. by destruct g. Qed.
Lemma same_group_trans g1 g2 g3 : same_group g1 g2 → same_group g2 g3 → same_group g1 g3.
Proof. rewrite /same_group. intros -> ->. by destruct g1. Qed.
Lemma same_group_fields g g' : same_group g g' →
  g_outbounds g' = g_outbounds g ∧ g_balancer g' = g_balancer g ∧ g_failover g' = g_failover g.
Proof. rewrite /same_group. intros ->. by destruct g. Qed.

(** *** Fuel *)

(** The tags of the manager that are not checked. *)
Definition unchecked (E : GroupEnv) (b : urlTestBatch) : gset string := list_to_set (env_tags E) ∖ bt_checked b.

Lemma test_checked fuel E interval force onAlive : ∀ outbounds b,
  bt_checked b ⊆ bt_checked (test fuel E interval force onAlive outbounds b).
Proof.
  induction fuel as [|fuel IH]; intros outbounds b; [done|]. rewrite test_S. revert b.
  induction outbounds as [|tag l IHl]; intros b; [done|]. cbn. etrans; [|apply IHl]. rewrite /testOne. case_bool_decide; [done|].
  destruct (env_kind E tag).
  - rewrite /probed. repeat case_match; cbn; set_solver.
  - destruct (env_nested E tag force (bt_history b)). cbn. set_solver.
  - etrans; [|apply IH]. cbn. set_solver.
Qed.

(** More fuel than there are unchecked tags changes nothing. *)
Lemma test_fuel E `{!GroupEnvLaws E} interval force onAlive fuel : ∀ outbounds b,
  (∀ t, t ∈ outbounds → t ∈ env_tags E) → (size (unchecked E b) < fuel)%nat →
  test fuel E interval force onAlive outbounds b = test (S fuel) E interval force onAlive outbounds b.
Proof.
  induction fuel as [|fuel IH]; intros outbounds b Ho Hf; [lia|]. rewrite !test_S. revert b Hf.
  induction outbounds as [|tag l IHl]; intros b Hf; [done|]. cbn [fold_left].
  assert (testOne fuel E interval force onAlive b tag = testOne (S fuel) E interval force onAlive b tag) as <-.
  { rewrite /testOne. case_bool_decide as Hc; [done|]. destruct (env_kind E tag) as [| |all]; [done|done|].
    apply IH.
    - intros t [Ht _]%list_elem_of_filter. apply env_outbound_tags. by destruct (env_outbound E t).
    - enough (size (unchecked E b) = S (size (unchecked E (mkBatch (bt_history b) (bt_penalties b) ({[tag]} ∪ bt_checked b) (bt_groups b ++ [tag]) (bt_result b))))) by lia.
      rewrite /unchecked /=. assert (tag ∈ env_tags E) as Hin by (apply Ho; left).
      set (X := list_to_set (env_tags E) ∖ ({[tag]} ∪ bt_checked b)).
      assert (list_to_set (env_tags E) ∖ bt_checked b = {[tag]} ∪ X) as ->.
      { apply set_eq. intros x. rewrite /X. destruct (decide (x = tag)) as [->|]; set_solver. }
      rewrite size_union; [rewrite /X; set_solver|]. by rewrite size_singleton. }
  apply IHl; [set_solver|]. eapply Nat.le_lt_trans; [|exact Hf]. apply subseteq_size.
  pose proof (test_checked (S fuel) E interval force onAlive [tag] b) as Hc. rewrite test_S /= in Hc. rewrite /unchecked. set_solver.
Qed.

(** ** The first-live health check *)

Lemma emptySlot_Some from next i :
  emptySlot from next = Some i → (from ≤ i)%nat ∧ (∃ s, next !! i = Some s ∧ hole s = true) ∧ ∀ j s, (from ≤ j < i)%nat → next !! j = Some s → hole s = false.
Proof.
  rewrite /emptySlot. intros ([k s] & Hf & ->)%fmap_Some. apply list_find_Some in Hf as (Hk & Hh & Hfirst). rewrite lookup_drop in Hk. cbn.
  split_and!; [lia|eauto|]. intros j s' Hj Hs'. destruct (hole s') eqn:Hh'; [|done]. exfalso.
  apply (Hfirst (j - from)%nat s'); [rewrite lookup_drop; by replace (from + (j - from))%nat with j by lia|lia|done].
Qed.
Lemma emptySlot_None from next j s : emptySlot from next = None → (from ≤ j)%nat → next !! j = Some s → hole s = false.
Proof.
  rewrite /emptySlot fmap_None list_find_None Forall_lookup. intros Hn Hj Hs. destruct (hole s) eqn:Hh; [|done]. exfalso.
  apply (Hn (j - from)%nat s); [|done]. rewrite lookup_drop. by replace (from + (j - from))%nat with j by lia.
Qed.

Lemma occupied_elem t l : t ∈ occupied l ↔ hole t = false ∧ t ∈ l.
Proof. by rewrite /occupied list_elem_of_filter. Qed.

(** A new tag in a hole. *)
Lemma insert_hole i s t l :
  l !! i = Some s → hole s = true → hole t = false → t ∉ l → NoDup (occupied l) → NoDup (occupied (<[i := t]> l)).
Proof.
  intros Hi Hs Ht Hn Hd. rewrite insert_take_drop; [by eapply lookup_lt_Some|]. rewrite -(take_drop_middle _ _ _ Hi) in Hd Hn.
  rewrite !occupied_app !occupied_cons Hs Ht /= in Hd |- *. apply NoDup_app in Hd as (H1 & H2 & H3).
  apply NoDup_app. split_and!; [done| |].
  - intros x Hx [->|Hx2]%elem_of_cons; [apply occupied_elem in Hx as [_ Hx]; set_solver|by eapply H2].
  - constructor; [|done]. intros [_ Hx]%occupied_elem. set_solver.
Qed.

(** The state of the refill: [n0] and [r0] are the slots and results before it,
    [done] the candidates looked at. *)
Record refilling (E : GroupEnv) (n0 : list string) (r0 : gmap string Z) (looked : list string) (fill : nat) (next : list string) (r : gmap string Z) : Prop := mkRefilling {
  rf_length : length next = length n0;
  rf_NoDup : NoDup (occupied next);
  rf_keeps i t : n0 !! i = Some t → hole t = false → next !! i = Some t;
  rf_from i t : next !! i = Some t → hole t = false → n0 !! i = Some t ∨ (t ∈ looked ∧ is_Some (r !! t));
  rf_result t : is_Some (r0 !! t) → is_Some (r !! t);
  rf_new t : is_Some (r !! t) → is_Some (r0 !! t) ∨ (t ∈ next ∧ t ∈ looked);
  rf_front i s : (i < fill)%nat → next !! i = Some s → hole s = false;
  rf_looked t : t ∈ looked → hole t = false;
  rf_all t i s : t ∈ looked → answers E t → next !! i = Some s → hole s = true → t ∈ next
}.

Lemma refilling_more E n0 r0 looked looked' fill next r :
  refilling E n0 r0 looked fill next r → (∀ t, t ∈ looked → t ∈ looked') → (∀ t, t ∈ looked' → hole t = false) →
  (∀ t i s, t ∈ looked' → answers E t → next !! i = Some s → hole s = true → t ∈ next) → refilling E n0 r0 looked' fill next r.
Proof.
  intros [] Hl Hh' Ha. split; [done|done|done| |done| |done|done|done].
  - intros i t Hi Hh. destruct (rf_from0 i t Hi Hh) as [?|[? ?]]; [by left|right; auto].
  - intros t Ht. destruct (rf_new0 t Ht) as [?|[? ?]]; [by left|right; auto].
Qed.

Lemma takeLive_ok E n0 r0 tested batch : ∀ looked fill next r fill' next' r',
  refilling E n0 r0 looked fill next r → (∀ t, t ∈ batch → answers E t → is_Some (tested !! t)) →
  (∀ t, t ∈ batch → hole t = false ∧ t ∉ n0 ∧ t ∉ looked) → NoDup batch →
  takeLive tested batch fill next r = (fill', next', r') → refilling E n0 r0 (looked ++ batch) fill' next' r'.
Proof.
  induction batch as [|tag batch IH]; intros looked fill next r fill' next' r' Hr Ht Hb Hd; cbn [takeLive].
  { intros [= <- <- <-]. by rewrite app_nil_r. }
  apply NoDup_cons in Hd as [Hnb Hd]. destruct (Hb tag) as (Hh & Hn0 & Hnl); [left|].
  destruct (emptySlot fill next) as [slot|] eqn:He.
  - destruct (emptySlot_Some _ _ _ He) as (Hle & (s & Hs & Hhs) & Hbefore).
    replace (looked ++ tag :: batch) with ((looked ++ [tag]) ++ batch) by by rewrite -app_assoc.
    assert (∀ t, t ∈ batch → hole t = false ∧ t ∉ n0 ∧ t ∉ looked ++ [tag]) as Hb'.
    { intros t Hin. destruct (Hb t) as (? & ? & ?); [by right|]. split_and!; [done|done|set_solver]. }
    destruct (tested !! tag) as [delay|] eqn:Htag.
    + assert (tag ∉ next) as Hnn.
      { intros [i Hi]%list_elem_of_lookup. destruct (rf_from _ _ _ _ _ _ _ Hr i tag Hi Hh) as [?|[? _]]; [|done]. apply Hn0. by eapply list_elem_of_lookup_2. }
      apply IH; [|set_solver|done|done]. destruct Hr.
      assert (∀ i t, next !! i = Some t → hole t = false → (<[slot := tag]> next) !! i = Some t) as Hkeep.
      { intros i t Hi Hh'. rewrite list_lookup_insert_ne; [|done]. intros ->. congruence. }
      assert (∀ t, t ∈ next → hole t = false → t ∈ <[slot := tag]> next) as Hin.
      { intros t [i Hi]%list_elem_of_lookup Hh'. by eapply list_elem_of_lookup_2, Hkeep. }
      split.
      * by rewrite length_insert.
      * by eapply insert_hole.
      * intros i t Hi Hh'. by apply Hkeep; [apply rf_keeps0|].
      * intros i t [[-> [-> _]]|[Hne Hi]]%list_lookup_insert_Some Hh'; [right; split; [set_solver|by rewrite lookup_insert_eq]|].
        destruct (rf_from0 i t Hi Hh') as [?|[? ?]]; [by left|right]. split; [set_solver|].
        destruct (decide (t = tag)) as [->|]; [by rewrite lookup_insert_eq|by rewrite lookup_insert_ne].
      * intros t Ht0. destruct (decide (t = tag)) as [->|]; [by rewrite lookup_insert_eq|rewrite lookup_insert_ne //; auto].
      * intros t Ht0. destruct (decide (t = tag)) as [->|].
        { right. split; [|set_solver]. eapply list_elem_of_lookup_2. apply list_lookup_insert_eq. by eapply lookup_lt_Some. }
        rewrite lookup_insert_ne // in Ht0. destruct (rf_new0 t Ht0) as [?|[? Hlk]]; [by left|right]. split; [|set_solver].
        apply Hin; [done|auto].
      * intros i s' Hi [[-> [<- _]]|[Hne Hi']]%list_lookup_insert_Some; [done|].
        destruct (decide (i < fill)%nat); [by eapply rf_front0|]. eapply Hbefore; [|done]. lia.
      * intros t [?|Hx%list_elem_of_singleton]%elem_of_app; [auto|by subst].
      * intros t i s' Hlk Ha [[-> [<- _]]|[Hne Hi']]%list_lookup_insert_Some Hh'; [congruence|].
        apply elem_of_app in Hlk as [Hlk|Hlk]; [|apply list_elem_of_singleton in Hlk as ->; eapply list_elem_of_lookup_2, list_lookup_insert_eq; by eapply lookup_lt_Some].
        apply Hin; [by eapply rf_all0|auto].
    + apply IH; [|set_solver|done|done]. eapply refilling_more; [done|set_solver| |].
      { intros t [?|Hx%list_elem_of_singleton]%elem_of_app; [by eapply rf_looked|by subst]. }
      intros t i s' [?|Hlk]%elem_of_app Ha Hi Hh'; [by eapply rf_all|]. apply list_elem_of_singleton in Hlk as ->.
      destruct (Ht tag) as [? ?]; [left|done|congruence].
  - intros [= <- <- <-]. eapply refilling_more; [done|set_solver| |].
    { intros t [?|?]%elem_of_app; [by eapply rf_looked|]. by apply Hb. }
    intros t i s Hlk Ha Hi Hhs. exfalso.
    assert (hole s = false); [|congruence]. destruct (decide (i < fill)%nat); [by eapply rf_front|]. eapply emptySlot_None; [done| |done]. lia.
Qed.

Lemma refillLoop_ok E n0 r0 size fuel : ∀ candidates looked fill next r g next' r' g',
  (0 < size)%nat → (length candidates < fuel)%nat → refilling E n0 r0 looked fill next r →
  (∀ t, t ∈ candidates → hole t = false ∧ t ∉ n0 ∧ t ∉ looked) → NoDup candidates →
  refillLoop fuel E size candidates fill next r g = (next', r', g') →
  (∃ fill', refilling E n0 r0 (looked ++ candidates) fill' next' r') ∧ same_group g g'.
Proof.
  induction fuel as [|fuel IH]; intros candidates looked fill next r g next' r' g' Hsize Hfuel Hr Hc Hd; [lia|]. cbn [refillLoop].
  assert (same_group g g) as Hg by (rewrite /same_group; by destruct g).
  destruct candidates as [|c cs] eqn:Hcs; [intros [= <- <- <-]; rewrite app_nil_r; eauto|]. rewrite -Hcs in Hc Hd Hfuel |- *.
  destruct (emptySlot fill next) as [slot|] eqn:He.
  - destruct (testNodes E (take size candidates) true g) as [tested g1] eqn:Ht.
    destruct (takeLive _ _ _ _ _) as [[fill1 next1] r1] eqn:Htake. intros Hloop.
    rewrite -(take_drop size candidates) in Hd. apply NoDup_app in Hd as (Hd1 & Hdis & Hd2).
    assert (∀ t, t ∈ take size candidates → t ∈ candidates) as Hin1 by (intros t ?; rewrite -(take_drop size candidates); set_solver).
    assert (∀ t, t ∈ drop size candidates → t ∈ candidates) as Hin2 by (intros t ?; rewrite -(take_drop size candidates); set_solver).
    eapply (takeLive_ok E n0 r0) in Htake; [|exact Hr|by intros t; eapply testNodes_answers|auto|done].
    eapply IH in Hloop as [[fill' Hr'] Hsame]; [|done| |exact Htake| |done].
    + split; [|eapply same_group_trans; [by eapply testNodes_same|done]]. exists fill'. by rewrite -app_assoc take_drop in Hr'.
    + rewrite length_drop. rewrite Hcs /= in Hfuel |- *. lia.
    + intros t Ht2. destruct (Hc t) as (? & ? & ?); [auto|]. split_and!; [done|done|]. intros [?|?]%elem_of_app; [done|]. by eapply Hdis.
  - intros Heq. assert (next' = next ∧ r' = r ∧ g' = g) as (-> & -> & ->) by (destruct candidates; by simplify_eq).
    split; [|done]. exists fill. eapply refilling_more; [done|set_solver| |].
    { intros t [?|?]%elem_of_app; [by eapply rf_looked|by apply Hc]. }
    intros t i s Hlk Ha Hi Hhs. exfalso. assert (hole s = false); [|congruence].
    destruct (decide (i < fill)%nat); [by eapply rf_front|]. eapply emptySlot_None; [done| |done]. lia.
Qed.

Lemma NoDup_occupied l : (∀ i j t, l !! i = Some t → l !! j = Some t → hole t = false → i = j) → NoDup (occupied l).
Proof.
  induction l as [|s l IH]; intros Hl; [constructor|]. rewrite occupied_cons. apply NoDup_app. split_and!.
  - destruct (hole s); [constructor|apply NoDup_singleton].
  - intros x Hx [Hh [j Hj]%list_elem_of_lookup]%occupied_elem. destruct (hole s); [set_solver|]. apply list_elem_of_singleton in Hx as ->.
    by specialize (Hl 0%nat (S j) s eq_refl Hj Hh).
  - apply IH. intros i j t Hi Hj Hh. by specialize (Hl (S i) (S j) t Hi Hj Hh) as [= ->].
Qed.

Lemma dead_spec r t : dead r t = true ↔ hole t = false ∧ r !! t = None.
Proof. rewrite /dead andb_true_iff !negb_true_iff. destruct (r !! t); naive_solver. Qed.

Lemma backToSlot_lookup r current next i s :
  backToSlot r current next !! i = Some s → ∃ s0, next !! i = Some s0 ∧
    ((s = s0 ∧ (hole s0 = true → ∀ t, current !! i = Some t → dead r t = false)) ∨ (hole s0 = true ∧ current !! i = Some s ∧ dead r s = true)).
Proof.
  rewrite /backToSlot list_lookup_imap. destruct (next !! i) as [s0|] eqn:Hi; [|done]. cbn. intros [= <-]. exists s0. split; [done|].
  destruct (current !! i) as [t|]; [|by left]. destruct (hole s0) eqn:Hh; cbn; [|by left].
  destruct (dead r t) eqn:Hd; [by right|]. left. split; [done|]. by intros _ t' [= <-].
Qed.

Lemma backToAny_ok r : ∀ current placed next, used next ⊆ placed → NoDup (occupied next) →
  let next' := backToAny r placed current next in
  length next' = length next ∧ NoDup (occupied next') ∧ (∀ i t, next !! i = Some t → hole t = false → next' !! i = Some t) ∧
  (∀ i t, next' !! i = Some t → next !! i = Some t ∨ (dead r t = true ∧ t ∈ current)).
Proof.
  induction current as [|t current IH]; intros placed next Hu Hd; cbn [backToAny]; [by split_and!; auto|].
  destruct (emptySlot 0 next) as [slot|] eqn:He; [|by split_and!; auto].
  destruct (emptySlot_Some _ _ _ He) as (_ & (s & Hs & Hh) & _).
  destruct (dead r t) eqn:Hdead; cbn [andb]; [case_bool_decide as Hp; cbn|].
  - destruct (IH placed next Hu Hd) as (H1 & H2 & H3 & H4). split_and!; [done|done|done|]. intros i t' Hi. destruct (H4 i t' Hi) as [?|[? ?]]; [by left|right; set_solver].
  - assert (hole t = false ∧ t ∉ next) as [Ht Hn].
    { apply dead_spec in Hdead as [? _]. split; [done|]. intros Hin. apply Hp, Hu. by apply used_spec. }
    destruct (IH ({[t]} ∪ placed) (<[slot := t]> next)) as (H1 & H2 & H3 & H4).
    { intros x [[i Hi]%list_elem_of_lookup Hx]%used_spec. apply list_lookup_insert_Some in Hi as [(-> & -> & _)|[_ Hi]]; [set_solver|].
      apply elem_of_union_r, Hu, used_spec. split; [by eapply list_elem_of_lookup_2|done]. }
    { by eapply insert_hole. }
    split_and!; [by rewrite H1 length_insert|done| |].
    + intros i t' Hi Ht'. apply H3; [|done]. rewrite list_lookup_insert_ne; [|done]. intros ->. congruence.
    + intros i t' Hi. destruct (H4 i t' Hi) as [[(_ & -> & _)|[_ ?]]%list_lookup_insert_Some|[? ?]]; [right; set_solver|by left|right; set_solver].
  - destruct (IH placed next Hu Hd) as (H1 & H2 & H3 & H4). split_and!; [done|done|done|]. intros i t' Hi. destruct (H4 i t' Hi) as [?|[? ?]]; [by left|right; set_solver].
Qed.

(** The members that answered, each in its slot. *)
Lemma answered_lookup (r : gmap string Z) (current : list string) i s :
  ((λ t, if negb (hole t) && isSome (r !! t) then t else EmptyString) <$> current) !! i = Some s → hole s = false →
  current !! i = Some s ∧ is_Some (r !! s).
Proof.
  rewrite list_lookup_fmap. destruct (current !! i) as [t|]; [|done]. cbn. intros [= <-]. destruct (hole t), (r !! t) eqn:Hr; cbn; done.
Qed.
Lemma lookup_answered (r : gmap string Z) (current : list string) i t :
  current !! i = Some t → hole t = false → is_Some (r !! t) →
  ((λ t, if negb (hole t) && isSome (r !! t) then t else EmptyString) <$> current) !! i = Some t.
Proof. intros Hi Hh [d Hd]. by rewrite list_lookup_fmap Hi /= Hh Hd. Qed.

(** What the slots of a check are, and that the rest of the group is kept. *)
Definition checked (E : GroupEnv) (size : Z) (b : balancer) (g : URLTestGroup) (r : gmap string Z) (g' : URLTestGroup) (next : list string) : Prop :=
  (∃ g1, same_group g g1 ∧ g' = setSlots next b g1) ∧
  length next = Nat.max (Z.to_nat size) (length (b_slots b)) ∧ NoDup (occupied next) ∧
  (∀ t, t ∈ occupied next → t ∈ b_slots b ∨ t ∈ g_outbounds g) ∧
  (∀ i t, b_slots b !! i = Some t → hole t = false → is_Some (r !! t) → next !! i = Some t) ∧
  (∀ i t, b_slots b !! i = Some t → hole t = false → ∃ t', next !! i = Some t' ∧ hole t' = false) ∧
  (∀ i s t, next !! i = Some s → hole s = true ∨ r !! s = None → t ∈ g_outbounds g → answers E t → t ∈ next ∨ t ∈ b_slots b).

Section check.
Context (E : GroupEnv) (b : balancer) (r : gmap string Z) (n1 : list string) (r0 : gmap string Z) (size : nat) (looked : list string) (fill : nat).
#[local] Definition current0 : list string := b_slots b.
#[local] Definition n0 : list string := grow size ((λ t, if negb (hole t) && isSome (r0 !! t) then t else EmptyString) <$> current0).
Hypothesis current_once : NoDup (occupied current0).
Hypothesis refilled : refilling E n0 r0 looked fill n1 r.
Hypothesis looked_new : ∀ t, t ∈ looked → t ∉ used current0.

Lemma n1_alive i t : n1 !! i = Some t → hole t = false → is_Some (r !! t) ∧ (current0 !! i = Some t ∨ t ∈ looked).
Proof using refilled.
  intros Hi Hh. destruct (rf_from _ _ _ _ _ _ _ refilled i t Hi Hh) as [H0|[? ?]]; [|auto].
  apply grow_lookup in H0 as [H0|?]; [|congruence]. apply answered_lookup in H0 as [? ?]; [|done].
  split; [by eapply rf_result|by left].
Qed.

(** The slots at the end. *)
#[local] Definition n3 : list string := backToAny r (used (backToSlot r current0 n1)) current0 (backToSlot r current0 n1).

Lemma length_backToSlot : length (backToSlot r current0 n1) = length n1.
Proof using. rewrite /backToSlot length_imap. done. Qed.

Lemma n2_once : NoDup (occupied (backToSlot r current0 n1)).
Proof using current_once refilled.
  apply NoDup_occupied. intros i j t Hi Hj Hh.
  assert (∀ i s0, n1 !! i = Some s0 → s0 = t → dead r t = true → False) as Hno.
  { intros k s0 Hk -> [_ Hd]%dead_spec. destruct (n1_alive k t Hk Hh) as [[d Hs] _]. congruence. }
  apply backToSlot_lookup in Hi as (s1 & Hi & [[-> _]|(_ & Hci & Hd1)]), Hj as (s2 & Hj & [[-> _]|(_ & Hcj & Hd2)]).
  - eapply occupied_lookup; [apply (rf_NoDup _ _ _ _ _ _ _ refilled)|done..].
  - exfalso. by eapply (Hno i).
  - exfalso. by eapply (Hno j).
  - by eapply occupied_lookup.
Qed.

Lemma n3_facts :
  length n3 = length n1 ∧ NoDup (occupied n3) ∧ (∀ i t, n1 !! i = Some t → hole t = false → n3 !! i = Some t) ∧
  (∀ i t, n3 !! i = Some t → n1 !! i = Some t ∨ (dead r t = true ∧ t ∈ current0)) ∧
  (∀ i t, (i < length n1)%nat → current0 !! i = Some t → dead r t = true → ∃ t', n3 !! i = Some t' ∧ hole t' = false).
Proof using current_once refilled.
  destruct (backToAny_ok r current0 (used (backToSlot r current0 n1)) (backToSlot r current0 n1)) as (H1 & H2 & H3 & H4); [done|apply n2_once|].
  rewrite length_backToSlot in H1. rewrite -/n3 in H1 H2 H3 H4.
  assert (∀ i s0, n1 !! i = Some s0 → is_Some (backToSlot r current0 n1 !! i)) as Hsome.
  { intros i s0 Hi. apply lookup_lt_is_Some. rewrite length_backToSlot. by eapply lookup_lt_Some. }
  split_and!; [done|done| | |].
  - intros i t Hi Hh. apply H3; [|done]. destruct (Hsome _ _ Hi) as [s Hs]. rewrite Hs.
    apply backToSlot_lookup in Hs as (s0 & Hs0 & [[-> _]|(? & _)]); congruence.
  - intros i t Hi. destruct (H4 i t Hi) as [Hs|?]; [|by right].
    apply backToSlot_lookup in Hs as (s0 & Hs0 & [[-> _]|(_ & Hc & Hd)]); [by left|right]. split; [done|]. by eapply list_elem_of_lookup_2.
  - intros i t Hi Hc Hd. apply lookup_lt_is_Some in Hi as [s0 Hs0]. destruct (Hsome _ _ Hs0) as [s Hs].
    exists s. apply dead_spec in Hd as Hdt.
    assert (hole s = false) as Hh; [|split; [by apply H3|done]].
    apply backToSlot_lookup in Hs as (s1 & Hs1 & [[-> Hno]|(_ & Hc' & Hd')]); [|by apply dead_spec in Hd' as [? _]].
    destruct (hole s1) eqn:Hh; [|done]. specialize (Hno eq_refl t Hc). congruence.
Qed.

Lemma n3_checked (outbounds : list string) :
  (∀ t, t ∈ looked → t ∈ outbounds) → (∀ t, t ∈ outbounds → t ∉ used current0 → t ∈ looked) → (∀ t, t ∈ outbounds → hole t = false) →
  length n3 = Nat.max size (length current0) ∧ NoDup (occupied n3) ∧ (∀ t, t ∈ occupied n3 → t ∈ current0 ∨ t ∈ outbounds) ∧
  (∀ i t, current0 !! i = Some t → hole t = false → is_Some (r !! t) → n3 !! i = Some t) ∧
  (∀ i t, current0 !! i = Some t → hole t = false → ∃ t', n3 !! i = Some t' ∧ hole t' = false) ∧
  (∀ i s t, n3 !! i = Some s → hole s = true ∨ r !! s = None → t ∈ outbounds → answers E t → t ∈ n3 ∨ t ∈ current0).
Proof using current_once refilled looked_new.
  intros Hl1 Hl2 Hh. destruct n3_facts as (L3 & N3 & K3 & F3 & D3). pose proof (rf_length _ _ _ _ _ _ _ refilled) as L1.
  rewrite /n0 length_grow length_fmap in L1.
  assert (∀ i t, current0 !! i = Some t → hole t = false → is_Some (r !! t) → n3 !! i = Some t) as Hkeep.
  { intros i t Hi Ht Hr. apply K3, Ht. apply (rf_keeps _ _ _ _ _ _ _ refilled), Ht. apply lookup_grow. apply lookup_answered; [done|done|].
    destruct (rf_new _ _ _ _ _ _ _ refilled t Hr) as [?|[_ Hlk]]; [done|]. exfalso. apply (looked_new _ Hlk). apply used_spec.
    split; [by eapply list_elem_of_lookup_2|done]. }
  split_and!; [by rewrite L3|done| |done| |].
  - intros t [Ht [i Hi]%list_elem_of_lookup]%occupied_elem. destruct (F3 i t Hi) as [Hi1|[_ ?]]; [|by left].
    destruct (n1_alive i t Hi1 Ht) as [_ [?|?]]; [left; by eapply list_elem_of_lookup_2|right; auto].
  - intros i t Hi Ht. destruct (r !! t) as [d|] eqn:Hr; [exists t; split; [apply Hkeep; by rewrite ?Hr|done]|].
    apply (D3 i t); [|done|by apply dead_spec]. apply lookup_lt_Some in Hi. lia.
  - intros i s t Hi Hs Ht Ha. destruct (decide (t ∈ used current0)) as [[? _]%used_spec|Hu]; [by right|left].
    assert (∃ s1, n1 !! i = Some s1 ∧ hole s1 = true) as (s1 & Hs1 & Hh1).
    { assert (is_Some (n1 !! i)) as [s1 Hs1] by (apply lookup_lt_is_Some; apply lookup_lt_Some in Hi; lia). exists s1. split; [done|].
      destruct (hole s1) eqn:Hh1; [done|]. exfalso. assert (s = s1) as -> by (rewrite (K3 _ _ Hs1 Hh1) in Hi; congruence).
      destruct (n1_alive i s1 Hs1 Hh1) as [[d ?] _]. destruct Hs; congruence. }
    assert (t ∈ n1) as [j Hj]%list_elem_of_lookup by (eapply (rf_all _ _ _ _ _ _ _ refilled); [by apply Hl2|done|exact Hs1|done]).
    eapply list_elem_of_lookup_2, K3; [done|auto].
Qed.
End check.

Lemma no_hole_n3 b r n1 : emptySlot 0 n1 = None → n3 b r n1 = n1.
Proof.
  intros He. assert (backToSlot r (current0 b) n1 = n1) as Hb.
  { apply list_eq. intros i. rewrite /backToSlot list_lookup_imap. destruct (n1 !! i) as [s|] eqn:Hi; [|done]. cbn. f_equal.
    assert (hole s = false) as Hs by (eapply emptySlot_None; [exact He| |done]; lia). rewrite Hs. by case_match. }
  rewrite /n3 Hb. destruct (current0 b); cbn; [done|]. by rewrite He.
Qed.

Lemma used_elem t l : hole t = false → t ∈ used l ↔ t ∈ l.
Proof. rewrite used_spec. tauto. Qed.

(** The group: distinct tags, none of them empty. *)
Definition outbounds_ok (g : URLTestGroup) : Prop := NoDup (g_outbounds g) ∧ ∀ t, t ∈ g_outbounds g → hole t = false.

Lemma balancePoolFirstLive_checked E size b g r g' :
  0 < size → outbounds_ok g → NoDup (occupied (b_slots b)) → balancePoolFirstLive E size b g = (r, g') →
  (∃ next, checked E size b g r g' next) ∧
  (∀ t, t ∈ b_slots b → hole t = false → env_outbound E t ≠ None → answers E t → is_Some (r !! t)).
Proof.
  intros Hsize [Hon Hoh] Hb. rewrite /balancePoolFirstLive.
  destruct (testNodes E (outboundsByTags E (b_slots b)) true g) as [r0 g0] eqn:Ht.
  pose proof (testNodes_same _ _ _ _ _ Ht) as Hg0. destruct (same_group_fields _ _ Hg0) as (Ho0 & _ & _).
  rewrite -/(n0 b r0 (Z.to_nat size)). set (N0 := n0 b r0 (Z.to_nat size)). set (cs := filter (λ t, t ∉ used (b_slots b)) (g_outbounds g0)).
  assert (NoDup cs) as Hcs by (apply NoDup_filter; by rewrite Ho0).
  assert (∀ t, t ∈ cs ↔ t ∈ g_outbounds g ∧ t ∉ used (b_slots b)) as Hcs' by (intros t; rewrite /cs list_elem_of_filter Ho0; tauto).
  assert (∀ i s, N0 !! i = Some s → hole s = false → b_slots b !! i = Some s) as HN0.
  { intros i s [Hi|?]%grow_lookup Hs; [|congruence]. by apply answered_lookup in Hi as [? _]. }
  assert (∀ t, t ∈ cs → hole t = false ∧ t ∉ N0 ∧ t ∉ @nil string) as Hcs3.
  { intros t [H1 H2]%Hcs'. split_and!; [auto| |set_solver]. intros [i Hi]%list_elem_of_lookup. apply H2, used_spec. split; [|auto]. eapply list_elem_of_lookup_2. apply HN0; [exact Hi|auto]. }
  assert (refilling E N0 r0 [] 0 N0 r0) as Hr0.
  { split; [done| |done|by left|done|by left|intros; lia|set_solver|set_solver]. apply NoDup_occupied. intros i j t Hi Hj Hh. eapply occupied_lookup; [exact Hb|by apply HN0..|done]. }
  assert (∃ n1 r1 g1 fill, (match emptySlot 0 N0 with None => (N0, r0, g0) | Some _ => refillLoop (S (length cs)) E (Z.to_nat size) cs 0 N0 r0 g0 end) = (n1, r1, g1) ∧
    refilling E N0 r0 cs fill n1 r1 ∧ same_group g0 g1) as (n1 & r1 & g1 & fill & -> & Hr1 & Hg1).
  { destruct (emptySlot 0 N0) as [k|] eqn:He.
    - destruct (refillLoop _ _ _ _ _ _ _ _) as [[n1 r1] g1] eqn:Hl. eapply (refillLoop_ok E N0 r0) in Hl as [[fill Hr1] Hg1]; [|lia|lia|exact Hr0|done|done]. eauto 10.
    - exists N0, r0, g0, 0%nat. split_and!; [done| |rewrite /same_group; by destruct g0]. eapply refilling_more; [done|set_solver|by intros t [? _]%Hcs3|].
      intros t i s _ _ Hi Hs. exfalso. assert (hole s = false); [|congruence]. eapply emptySlot_None; [exact He| |done]. lia. }
  assert (match emptySlot 0 n1 with None => n1 | Some _ => backToAny r1 (used (backToSlot r1 (b_slots b) n1)) (b_slots b) (backToSlot r1 (b_slots b) n1) end = n3 b r1 n1) as ->.
  { destruct (emptySlot 0 n1) eqn:He; [done|]. by rewrite no_hole_n3. }
  intros [= <- <-]. split.
  - exists (n3 b r1 n1). rewrite /checked. split; [exists g1; split; [by eapply same_group_trans|done]|].
    eapply (n3_checked E b r1 n1 r0 (Z.to_nat size) cs fill); [done|done|by intros t [_ ?]%Hcs'|by intros t [? _]%Hcs'| |done].
    intros t H1 H2. by apply Hcs'.
  - intros t Hin Hh Hl Ha. eapply rf_result; [exact Hr1|]. eapply testNodes_answers; [exact Ht| |done].
    rewrite /outboundsByTags. apply list_elem_of_filter. split; [split; [done|by destruct (env_outbound E t)]|done].
Qed.

(** ** The other checks *)

Lemma candidatesOf_lookup f (l : list string) (t : string) :
  candidatesOf f l !! t = if bool_decide (t ∈ l) then Some (match f t with Some d => mkCandidate t d true | None => mkCandidate t 0 false end) else None.
Proof.
  rewrite /candidatesOf. set (c := λ tag, match f tag with Some d => mkCandidate tag d true | None => mkCandidate tag 0 false end).
  assert (∀ l (m : gmap string candidate), fold_left (λ r tag, <[tag := c tag]> r) l m !! t = if bool_decide (t ∈ l) then Some (c t) else m !! t) as H; [|by rewrite H lookup_empty].
  clear l. induction l as [|a l IH]; intros m; cbn; [done|]. rewrite IH. destruct (decide (t ∈ l)); [rewrite !bool_decide_true //; by right|]. rewrite (bool_decide_false (t ∈ l)) //.
  destruct (decide (t = a)) as [->|]; [rewrite bool_decide_true; [left|by rewrite lookup_insert_eq]|]. rewrite bool_decide_false; [set_solver|by rewrite lookup_insert_ne].
Qed.

Lemma candidatesOf_ok f l : (∀ t, t ∈ l → hole t = false) → results_ok (candidatesOf f l).
Proof. intros Hl t c. rewrite candidatesOf_lookup. case_bool_decide; [|done]. intros [= <-]. split; [by destruct (f t)|auto]. Qed.

Lemma candidatesOf_alive f l c : aliveIn (candidatesOf f l) c ↔ cd_tag c ∈ l ∧ f (cd_tag c) = Some (cd_delay c) ∧ cd_alive c = true.
Proof.
  rewrite /aliveIn candidatesOf_lookup. destruct c as [t d a]; cbn. case_bool_decide; [|naive_solver]. destruct (f t); split; naive_solver.
Qed.

Lemma candidatesOf_delay f (l : list string) t : hole t = false →
  slotDelay (candidatesOf f l) t = if bool_decide (t ∈ l) then match f t with Some d => (d, true) | None => (0, false) end else (0, false).
Proof. intros Ht. rewrite /slotDelay Ht candidatesOf_lookup. case_bool_decide; [|done]. by destruct (f t). Qed.

(** What a health check does to the pool, by the delays it measured.  A slot
    that holds an outbound goes on holding one; a member that answered keeps its
    slot, unless with a tolerance an outbound from outside is faster by more; no
    such member changes slots; and while a slot is empty or its outbound did not
    answer, every outbound that does is in the pool (with a tolerance, is or has
    been). *)
Record pool_stable (tol : Z) (delay : string → option Z) (alive : string → Prop) (outbounds slots slots' : list string) (size : Z) : Prop := mkStable {
  ps_length : Z.of_nat (length slots') = size;
  ps_NoDup : NoDup (occupied slots');
  ps_from t : t ∈ slots' → hole t = false → t ∈ outbounds;
  ps_full i t : slots !! i = Some t → hole t = false → ∃ t', slots' !! i = Some t' ∧ hole t' = false;
  ps_keeps i t d : slots !! i = Some t → hole t = false → delay t = Some d →
    slots' !! i = Some t ∨ (0 < tol ∧ ∃ t' d', slots' !! i = Some t' ∧ t' ∉ slots ∧ delay t' = Some d' ∧ d' + tol < d);
  ps_place i j t : slots !! i = Some t → slots' !! j = Some t → hole t = false → delay t ≠ None → i = j;
  ps_alive i s t : slots' !! i = Some s → hole s = true ∨ delay s = None → t ∈ outbounds → alive t → t ∈ slots' ∨ (0 < tol ∧ t ∈ slots)
}.

Section stable.
Context (slots outbounds : list string) (size : Z).
Hypothesis slots_once : NoDup (occupied slots).
Hypothesis slots_in : ∀ t, t ∈ slots → hole t = false → t ∈ outbounds.
Hypothesis slots_fit : Z.of_nat (length slots) ≤ size.
Hypothesis outbounds_tags : ∀ t, t ∈ outbounds → hole t = false.

Lemma tolerant_stable f ranged tol :
  0 < tol → ranged ≡ₚ (map_to_list (candidatesOf f outbounds)).*2 →
  pool_stable tol f (λ t, f t ≠ None) outbounds slots (planTolerantPool slots (candidatesOf f outbounds) ranged size tol) size.
Proof using slots_once slots_in slots_fit outbounds_tags.
  intros Htol Hp. destruct (planTolerantPool_ok slots (candidatesOf f outbounds) ranged size tol slots_once (candidatesOf_ok f _ outbounds_tags) Hp) as [HL HN HF HM HK HB]; [lia|].
  set (next := planTolerantPool _ _ _ _ _) in *.
  assert (∀ t, t ∈ slots → hole t = false → slotDelay (candidatesOf f outbounds) t = match f t with Some d => (d, true) | None => (0, false) end) as Hdelay.
  { intros t Hin Hh. rewrite candidatesOf_delay // bool_decide_true //. auto. }
  split; [rewrite HL; lia|done| | | | |].
  - intros t Hin Hh. destruct (HF t) as [?|(c & [? _]%candidatesOf_alive & <-)]; [by apply occupied_elem|auto|done].
  - intros i t Hi Hh. destruct (HK i t Hi Hh) as [?|(c & Hc & _ & ? & _)]; [eauto|]. exists (cd_tag c). split; [done|].
    apply outbounds_tags. by apply candidatesOf_alive in Hc as [? _].
  - intros i t d Hi Hh Hd. destruct (HK i t Hi Hh) as [?|(c & [Hc1 [Hc2 _]]%candidatesOf_alive & Hn & ? & Hor)]; [by left|right].
    rewrite Hdelay // in Hor; [by eapply list_elem_of_lookup_2|]. rewrite Hd /= in Hor. split; [done|]. exists (cd_tag c), (cd_delay c).
    split_and!; [done| |done|by destruct Hor]. rewrite used_elem // in Hn. auto.
  - intros i j t Hi Hj Hh _. by eapply HM.
  - intros i s t Hi Hs Ht Ha. destruct (f t) as [d|] eqn:Hd; [|done].
    destruct (decide (t ∈ next)) as [|Hn]; [by left|]. destruct (decide (t ∈ slots)) as [|Hn2]; [by right|]. exfalso.
    destruct (HB i s (mkCandidate t d true) Hi) as (d' & Hd' & _); [by apply candidatesOf_alive|done|by rewrite used_elem; [auto|]|].
    destruct (hole s) eqn:Hh; [by rewrite /slotDelay Hh in Hd'|]. destruct Hs as [?|Hs]; [done|].
    rewrite candidatesOf_delay // Hs in Hd'. by case_match.
Qed.

Lemma first_live_stable live fill next (f : string → option Z) :
  (∀ t, t ∈ live ↔ t ∈ outbounds ∧ f t ≠ None) → (∀ t, t ∈ fill ↔ t ∈ outbounds ∧ t ∉ slots ∧ f t ≠ None) →
  first_live slots live fill size next → pool_stable 0 f (λ t, f t ≠ None) outbounds slots next size.
Proof using slots_once slots_in slots_fit outbounds_tags.
  intros Hlive Hfill [HL HN HK HF HU HS].
  assert (∀ i t, slots !! i = Some t → hole t = false → f t ≠ None → next !! i = Some t) as HK'.
  { intros i t Hi Hh Hf. apply HK; [done|done|]. apply Hlive. split; [|done]. apply slots_in; [by eapply list_elem_of_lookup_2|done]. }
  split; [rewrite HL; lia|done| |done| | |].
  - intros t Hin Hh. destruct (HF t) as [?|[_ [? _]%Hlive]]; [by apply occupied_elem|auto|done].
  - intros i t d Hi Hh Hd. left. apply HK'; [done|done|congruence].
  - intros i j t Hi Hj Hh Hd. eapply occupied_lookup; [exact HN|by apply HK'|done..].
  - intros i s t Hi Hs Ht Ha. left. destruct (decide (t ∈ slots)) as [[j Hj]%list_elem_of_lookup|Hn].
    + eapply list_elem_of_lookup_2. by apply HK'; [|auto|].
    + eapply HS; [exact Hi| |by apply Hfill|auto|by apply Hlive]. destruct Hs as [?|Hs]; [by left|right]. by intros [_ ?]%Hlive.
Qed.
End stable.

(** The pool between checks. *)
Definition pool_ok (g : URLTestGroup) : Prop :=
  outbounds_ok g ∧ g_outbounds g ≠ [] ∧ ∀ b, g_balancer g = Some b →
    0 < b_poolSize b ∧ 0 ≤ b_poolTolerance b ∧ 0 ≤ b_counter b ∧ NoDup (occupied (b_slots b)) ∧
    (∀ t, t ∈ b_slots b → hole t = false → t ∈ g_outbounds g) ∧ Z.of_nat (length (b_slots b)) ≤ poolSize b g.

Lemma poolSize_pos b g : g_outbounds g ≠ [] → 0 < b_poolSize b → 0 < poolSize b g.
Proof. intros Ho Hb. rewrite /poolSize. case_match; [|done]. destruct (g_outbounds g); [done|cbn; lia]. Qed.

(** The delays a check goes by, and which outbounds count as alive. *)
Definition measured (E : GroupEnv) (force : bool) (r : gmap string Z) (g' : URLTestGroup) (t : string) : option Z :=
  if force then hi_Delay <$> historyOf E t tcp g' else r !! t.
#[global] Arguments measured : simpl never.
Definition counts (E : GroupEnv) (force : bool) (b : balancer) (r : gmap string Z) (g' : URLTestGroup) (t : string) : Prop :=
  if negb force && (b_poolTolerance b =? 0) then answers E t else measured E force r g' t ≠ None.

Lemma setSlots_fields next b g : g_balancer (setSlots next b g) = Some (set_slots next b) ∧ g_outbounds (setSlots next b g) = g_outbounds g ∧ g_history (setSlots next b g) = g_history g.
Proof. by destruct g. Qed.

Lemma sort_tags cs t : t ∈ cd_tag <$> sortCandidatesByDelay cs ↔ t ∈ cd_tag <$> cs.
Proof. by rewrite (proj1 (sortCandidates_spec cs)). Qed.

Lemma rebuildPool_stable E `{!GroupEnvLaws E} r b g :
  pool_ok g → g_balancer g = Some b →
  ∃ slots', rebuildPool E b g = setSlots slots' b g ∧
    pool_stable (b_poolTolerance b) (measured E true r (setSlots slots' b g)) (counts E true b r (setSlots slots' b g)) (g_outbounds g) (b_slots b) slots' (poolSize b g).
Proof.
  intros ((Hon & Hoh) & Hne & Hpool) Hb. destruct (Hpool b Hb) as (Hps & Htol & Hc & Hn & Hin & Hfit).
  pose proof (poolSize_pos b g Hne Hps) as Hsize. rewrite /rebuildPool. destruct (Z.eqb_spec (poolSize b g) 0); [lia|].
  set (f := λ tag, hi_Delay <$> historyOf E tag tcp g).
  assert (∀ slots', measured E true r (setSlots slots' b g) = f) as Hm.
  { intros slots'. rewrite /f /measured /historyOf. by rewrite (proj2 (proj2 (setSlots_fields slots' b g))). }
  assert (∀ t, isSome (historyOf E t tcp g) = true ↔ f t ≠ None) as Hf.
  { intros t. rewrite /f. by destruct (historyOf E t tcp g). }
  destruct (Z.eqb_spec (b_poolTolerance b) 0) as [Hz|Hz].
  - eexists. split; [done|]. rewrite /counts /= Hm Hz. eapply first_live_stable; [done|done|done|done| | |apply planFirstLivePool_ok; [done|]].
    + intros t. rewrite elem_of_list_to_set list_elem_of_filter Hf. tauto.
    + intros t. rewrite sort_tags list_elem_of_fmap. setoid_rewrite list_elem_of_omap. split.
      * intros (c & -> & t' & Ht & Hc'). rewrite candidatesOf_lookup bool_decide_true // in Hc'. rewrite -/f in Hc'.
        destruct (f t') eqn:Hft; cbn in Hc'; [|done]. case_bool_decide as Hu; [done|]. injection Hc' as <-. cbn.
        rewrite used_elem in Hu; [auto|]. by rewrite Hft.
      * intros (Ht & Hs & Hft). destruct (f t) as [d|] eqn:Hd; [|done]. exists (mkCandidate t d true). split; [done|]. exists t. split; [done|].
        rewrite candidatesOf_lookup bool_decide_true // -/f Hd /= bool_decide_false //. rewrite used_elem; auto.
    + intros t Ht. rewrite sort_tags list_elem_of_fmap in Ht. destruct Ht as (c & -> & (t' & Ht & Hc')%list_elem_of_omap).
      rewrite candidatesOf_lookup bool_decide_true // -/f in Hc'. destruct (f t'); cbn in Hc'; [|done].
      case_bool_decide; [done|]. by injection Hc' as <-.
  - eexists. split; [done|]. rewrite /counts /= Hm. apply tolerant_stable; [done|done|done|done|lia|apply env_range_perm].
Qed.

Lemma urlTest_stable E `{!GroupEnvLaws E} E2 E3 force g b r g' :
  pool_ok g → g_balancer g = Some b → (∀ t, t ∈ g_outbounds g → env_outbound E t ≠ None) → (force = true ∨ tickTooSoon E g = false) →
  urlTest false E E2 E3 force g = (r, g') →
  ∃ slots' g1, same_group g g1 ∧ g' = setSlots slots' b g1 ∧
    pool_stable (b_poolTolerance b) (measured E force r g') (counts E force b r g') (g_outbounds g) (b_slots b) slots' (poolSize b g).
Proof.
  intros Hok Hb Hload Hgo. rewrite /urlTest. assert (negb force && tickTooSoon E g = false) as -> by (destruct Hgo as [-> | ->]; [done|apply andb_false_r]).
  rewrite Hb. destruct Hok as ((Hon & Hoh) & Hne & Hpool). destruct (Hpool b Hb) as (Hps & Htol & Hc & Hn & Hin & Hfit).
  pose proof (poolSize_pos b g Hne Hps) as Hsize. destruct force.
  - destruct (testNodes E (g_outbounds g) true g) as [r0 g1] eqn:Ht. intros [= <- <-].
    pose proof (testNodes_same _ _ _ _ _ Ht) as Hsame. destruct (same_group_fields _ _ Hsame) as (Ho & Hb1 & _).
    assert (poolSize b g1 = poolSize b g) as Hps1 by by rewrite /poolSize Ho.
    destruct (rebuildPool_stable E r0 b g1) as (slots' & -> & Hst).
    { split_and!; [by rewrite /outbounds_ok Ho|by rewrite Ho|]. intros b' Hb'. rewrite Hb1 Hb in Hb'. injection Hb' as <-. by rewrite Ho Hps1. }
    { by rewrite Hb1. }
    exists slots', g1. split_and!; [done|done|]. by rewrite Ho Hps1 in Hst.
  - rewrite /balancePool. destruct (Z.eqb_spec (poolSize b g) 0); [lia|]. destruct (Z.ltb_spec 0 (b_poolTolerance b)) as [Ht0|Ht0].
    + rewrite /balancePoolTolerant. destruct (testNodes E (g_outbounds g) true g) as [r0 g1] eqn:Ht. intros [= <- <-].
      pose proof (testNodes_same _ _ _ _ _ Ht) as Hsame. destruct (same_group_fields _ _ Hsame) as (Ho & _ & _).
      do 2 eexists. split_and!; [done|done|]. rewrite Ho /counts. destruct (Z.eqb_spec (b_poolTolerance b) 0); [lia|]. rewrite /=.
      apply tolerant_stable; [done|done|done|done|done|apply env_range_perm].
    + intros Hbal. assert (b_poolTolerance b = 0) as Hz by lia.
      destruct (balancePoolFirstLive_checked E (poolSize b g) b g r g' Hsize (conj Hon Hoh) Hn Hbal) as [(next & (g1 & Hsame & ->) & HL & HN & HF & HK & HU & HS) Hans].
      exists next, g1. split_and!; [done|done|]. rewrite /counts Hz /=. split; [rewrite HL; lia|done| |done| | |].
      * intros t Ht Hh. destruct (HF t) as [?|?]; [by apply occupied_elem|auto|done].
      * intros i t d Hi Hh Hd. left. apply HK; [done|done|]. by rewrite /measured in Hd; rewrite Hd.
      * intros i j t Hi Hj Hh Hd. eapply occupied_lookup; [exact HN| |done|done]. apply HK; [done|done|]. rewrite /measured in Hd. by destruct (r !! t).
      * intros i s t Hi Hs Ht Ha. left. destruct (decide (t ∈ b_slots b)) as [Hin2|Hout].
        { pose proof Hin2 as [j Hj]%list_elem_of_lookup. eapply list_elem_of_lookup_2, HK; [exact Hj|auto|]. apply Hans; auto. }
        destruct (HS i s t Hi Hs Ht Ha) as [?|?]; done.
Qed.

(** ** Runs of a group *)

(** Any order of the operations of a group that has started: seeding, health
    checks, connections and the end of forced runs. *)
Inductive group_step : URLTestGroup → URLTestGroup → Prop :=
| group_seed E g : group_step g (seedPool E g)
| group_test checking E E2 E3 force r g g' :
    GroupEnvLaws E → (∀ t, t ∈ g_outbounds g → env_outbound E t ≠ None) →
    urlTest checking E E2 E3 force g = (r, g') → group_step g g'
| group_begin E probe key network x g g' : beginDial E probe key network g = (x, g') → group_step g g'
| group_end E probe network tag err n g g' : endDial E probe network tag err g = (n, g') → group_step g g'
| group_fallback E probe network tag err n g g' : endFallback E probe network tag err g = (n, g') → group_step g g'
| group_listen probe tag err g : group_step g (endListen probe tag err g)
| group_retested now g : group_step g (forcedRetestEnds now g).

(** The outbounds and the balancer as they were. *)
Definition framed (g g' : URLTestGroup) : Prop := g_outbounds g' = g_outbounds g ∧ g_balancer g' = g_balancer g.

#[local] Instance framed_preorder : PreOrder framed.
Proof. split; [by intros g|]. intros g1 g2 g3 [H1 H2] [H3 H4]. split; congruence. Qed.

Lemma framed_set_history v g : framed g (set_history v g). Proof. by destruct g. Qed.
Lemma framed_set_penalties v g : framed g (set_penalties v g). Proof. by destruct g. Qed.
Lemma framed_set_selected n v g : framed g (set_selected n v g).
Proof. rewrite /set_selected. destruct g. by repeat case_match. Qed.
Lemma framed_set_lastTickRunEnd v g : framed g (set_lastTickRunEnd v g). Proof. by destruct g. Qed.
Lemma framed_set_failoverSlow v g : framed g (set_failoverSlow v g). Proof. by destruct g. Qed.
Lemma framed_set_forcedRetest a b g : framed g (set_forcedRetest a b g). Proof. by destruct g. Qed.
Lemma framed_set_lastSelected v g : framed g (set_lastSelected v g). Proof. by destruct g. Qed.
#[local] Hint Resolve framed_set_history framed_set_penalties framed_set_selected framed_set_lastTickRunEnd framed_set_failoverSlow framed_set_forcedRetest framed_set_lastSelected : singbox.

Lemma framed_maybeForceRetest E now g : framed g (maybeForceRetest E now g).2.
Proof. rewrite /maybeForceRetest. repeat case_match; cbn; auto with singbox; done. Qed.
#[local] Hint Resolve framed_maybeForceRetest : singbox.

Lemma framed_urlTestOutbounds E l i f g r g' : urlTestOutbounds E l i f g = (r, g') → framed g g'.
Proof. rewrite /urlTestOutbounds. intros [= _ <-]. etrans; [apply framed_set_history|apply framed_set_penalties]. Qed.

Lemma framed_testNodes E l f g r g' : testNodes E l f g = (r, g') → framed g g'.
Proof.
  rewrite /testNodes /testNodesTick. destruct f; [apply framed_urlTestOutbounds|].
  destruct (urlTestOutbounds _ _ _ _ _) as [r1 g1] eqn:H. intros [= _ <-]. etrans; [by eapply framed_urlTestOutbounds|apply framed_set_lastTickRunEnd].
Qed.

Lemma framed_updateNetwork E n rs g : framed g (updateNetwork E n rs g).1.
Proof. rewrite /updateNetwork. repeat case_match; cbn; auto with singbox; done. Qed.

Lemma framed_performSelectionUpdate E rs g : framed g (performSelectionUpdate E rs g).1.
Proof.
  rewrite /performSelectionUpdate. pose proof (framed_updateNetwork E tcp rs g) as H1.
  destruct (updateNetwork E tcp rs g) as [g1 [[u1 c1] s1]]. pose proof (framed_updateNetwork E udp rs g1) as H2.
  destruct (updateNetwork E udp rs g1) as [g2 [[u2 c2] s2]]. cbn in *. by etrans.
Qed.

Lemma framed_confirm E held : ∀ failed slow r g f' s' r' g' e, confirm E held failed slow r g = (f', s', r', g', e) → framed g g'.
Proof.
  induction held as [|node held IH]; intros failed slow r g f' s' r' g' e; cbn [confirm]; [by intros [= _ _ _ <- _]|].
  case_match; [apply IH|]. destruct (probeNow E node g) as [r1 g1] eqn:Hp. apply framed_urlTestOutbounds in Hp.
  repeat case_match; [by intros [= _ _ _ <- _]|..]; intros Hc%IH; by etrans.
Qed.

Lemma framed_escalate E failed slow result g r g' : escalate E failed slow result g = (r, g') → framed g g'.
Proof.
  rewrite /escalate. destruct (testNodes E _ false g) as [r1 g1] eqn:Ht. apply framed_testNodes in Ht.
  intros [= _ <-]. etrans; [exact Ht|]. etrans; [apply framed_set_failoverSlow|]. etrans; [apply framed_performSelectionUpdate|apply framed_set_failoverSlow].
Qed.

Lemma framed_failoverCheck E E2 E3 g r g' : failoverCheck E E2 E3 g = (r, g') → framed g g'.
Proof.
  rewrite /failoverCheck. destruct (failoverHeld g) as [|t l]; [apply framed_escalate|].
  destruct (testNodes E (t :: l) false g) as [r1 g1] eqn:Ht. apply framed_testNodes in Ht. case_match; [by intros [= _ <-]|].
  destruct (confirm _ _ _ _ _ _) as [[[[f' s'] r'] g2] e] eqn:Hc. apply framed_confirm in Hc.
  repeat case_match; [intros [= _ <-]; by etrans..|]. intros He%framed_escalate. etrans; [exact Ht|]. by etrans.
Qed.

Lemma framed_endDial E probe network tag err g n g' : endDial E probe network tag err g = (n, g') → framed g g'.
Proof.
  rewrite /endDial. assert (framed g (if probe then g else deleteHistory tag g)) as Hd by (destruct probe; [done|apply framed_set_history]).
  set (g1 := if probe then g else deleteHistory tag g) in *.
  assert (framed g1 (if probe then g1 else (maybeForceRetest E (env_now E) (penaltyAdd (realTag E tag tcp) g1)).2)) as Hm.
  { destruct probe; [done|]. etrans; [apply framed_set_penalties|apply framed_maybeForceRetest]. }
  repeat case_match; intros [= _ <-]; first [done|apply framed_set_penalties|by etrans].
Qed.

Lemma framed_endFallback E probe network tag err g n g' : endFallback E probe network tag err g = (n, g') → framed g g'.
Proof.
  rewrite /endFallback /moveSelection. destruct err as [e|]; intros [= _ <-]; destruct probe; try done.
  - case_match; [|apply framed_set_history]. etrans; [apply framed_set_history|]. etrans; [apply framed_set_penalties|apply framed_maybeForceRetest].
  - etrans; [apply framed_set_penalties|apply framed_set_selected].
Qed.

Lemma framed_pool g g' : framed g g' → pool_ok g → pool_ok g'.
Proof. intros [Ho Hb] H. rewrite /pool_ok /outbounds_ok /poolSize Ho Hb. done. Qed.

(** The slots and the counter of a balancer may change, within the bounds. *)
Lemma pool_ok_slots g g1 b b' :
  pool_ok g → g_balancer g = Some b → g_outbounds g1 = g_outbounds g → g_balancer g1 = Some b' →
  b_poolSize b' = b_poolSize b → b_poolTolerance b' = b_poolTolerance b → 0 ≤ b_counter b' → NoDup (occupied (b_slots b')) →
  (∀ t, t ∈ b_slots b' → hole t = false → t ∈ g_outbounds g) → Z.of_nat (length (b_slots b')) ≤ poolSize b g → pool_ok g1.
Proof.
  intros (Ho & Hne & Hp) Hb Heq Hb1 Hs Ht Hc Hn Hin Hl. destruct (Hp b Hb) as (H1 & H2 & _).
  rewrite /pool_ok /outbounds_ok Heq. split; [done|]. split; [done|]. intros b2. rewrite Hb1. intros [= <-].
  split_and!; [by rewrite Hs|by rewrite Ht|done|done|done|]. by rewrite /poolSize Hs Heq.
Qed.

Lemma pool_stable_ok b g g1 slots' tol delay alive :
  pool_ok g → g_balancer g = Some b → same_group g g1 →
  pool_stable tol delay alive (g_outbounds g) (b_slots b) slots' (poolSize b g) → pool_ok (setSlots slots' b g1).
Proof.
  intros Hok Hb Hs [HL HN HF _ _ _ _]. destruct (same_group_fields _ _ Hs) as (Ho & _ & _). destruct (setSlots_fields slots' b g1) as (Hb' & Ho' & _).
  eapply pool_ok_slots; [exact Hok|exact Hb|by rewrite Ho'|exact Hb'|by destruct b|by destruct b| | | |].
  - destruct Hok as (_ & _ & Hp). destruct (Hp b Hb) as (_ & _ & ? & _). by destruct b.
  - by destruct b.
  - destruct b; cbn in *. by intros t; apply HF.
  - destruct b; cbn in *. lia.
Qed.

Lemma seedPool_ok E g : pool_ok g → pool_ok (seedPool E g).
Proof.
  intros Hok. rewrite /seedPool. destruct (g_balancer g) as [b|] eqn:Hb; [|done]. case_match; [done|].
  set (with_ := omap _ _). set (next := take _ (cd_tag <$> sortCandidatesByDelay with_)). set (rest := take _ (filter (λ t, t ∉ next) _)).
  pose proof Hok as ((Hon & Hoh) & Hne & Hp). destruct (Hp b Hb) as (Hps & _ & Hc & _). pose proof (poolSize_pos b g Hne Hps) as Hsize.
  assert (∀ t, t ∈ next → t ∈ g_outbounds g) as Hin.
  { intros t Ht%subseteq_take. rewrite sort_tags /with_ list_elem_of_fmap in Ht. destruct Ht as (c & -> & (u & Hu & Hc')%list_elem_of_omap).
    by destruct (historyOf E u tcp g); [injection Hc' as <-|]. }
  assert (NoDup next) as Hn1.
  { eapply sublist_NoDup; [|apply sublist_take]. rewrite (proj1 (sortCandidates_spec with_)) /with_. clear -Hon. induction (g_outbounds g) as [|t l IH]; [constructor|].
    apply NoDup_cons in Hon as [Ht Hl]. cbn. destruct (historyOf E t tcp g) as [h|]; cbn; [|auto]. constructor; [|auto].
    rewrite list_elem_of_fmap. intros (c & Hc & (u & Hu & Hu')%list_elem_of_omap). destruct (historyOf E u tcp g); [|done]. injection Hu' as <-. by cbn in Hc; subst. }
  assert (∀ t, t ∈ rest → t ∉ next ∧ t ∈ g_outbounds g) as Hrest by by intros t [? ?]%subseteq_take%list_elem_of_filter.
  destruct (setSlots_fields (next ++ rest) b g) as (Hb' & Ho' & _). 
  eapply pool_ok_slots; [exact Hok|exact Hb|done|exact Hb'|by destruct b|by destruct b|by destruct b|..]; destruct b; cbn in *.
  - apply NoDup_filter, NoDup_app. split_and!; [done|by intros t ? [? _]%Hrest|]. eapply sublist_NoDup; [|apply sublist_take]. by apply NoDup_filter.
  - intros t [?|[_ ?]%Hrest]%elem_of_app _; auto.
  - rewrite length_app /rest !length_take. assert (length next ≤ Z.to_nat (poolSize (mkBalancer b_poolSize b_poolTolerance b_stickyHash b_slots b_counter) g))%nat by (rewrite length_take; lia). lia.
Qed.

(** A pick changes the counter only. *)
Lemma pick_counter alive probe key fallback resolve b r b' :
  pick alive probe key fallback resolve b = (r, b') → b' = b ∨ b' = set_counter ((b_counter b + 1) mod 2 ^ 64) b.
Proof.
  rewrite /pick. destruct (pickSlot alive probe key b) as [idx b1] eqn:Hp. intros H. assert (b' = b1) as -> by (destruct idx; [destruct (b_slots b !! n)|]; congruence).
  revert Hp. rewrite /pickSlot /Balancer.rotate. clear. case_match; [intros [= _ <-]; auto|]. case_match; [repeat case_match; intros [= _ <-]; auto|].
  destruct probe; destruct alive; intros [= _ <-]; auto.
Qed.

Lemma beginDial_ok E probe key network g x g' : beginDial E probe key network g = (x, g') → pool_ok g → pool_ok g'.
Proof.
  rewrite /beginDial. case_match; [by intros [= _ <-]|]. destruct (g_balancer g) as [b|] eqn:Hb; [|by intros [= _ <-]].
  rewrite /selectBalanced. destruct (pick _ _ _ _ _ _) as [s b'] eqn:Hp. intros Hx Hok.
  assert (framed (set_balancer (Some b') g) g') as Hf.
  { destruct s as [[t|]|e|p]; injection Hx as _ <-; [destruct probe|..]; first [done|apply framed_set_lastSelected]. }
  apply (framed_pool _ _ Hf). pose proof Hok as (_ & _ & Hall). destruct (Hall b Hb) as (_ & _ & Hc & Hn & Hin & Hl).
  apply pick_counter in Hp as [-> | ->].
  - eapply pool_ok_slots; [exact Hok|exact Hb|by destruct g|by destruct g|done..].
  - eapply (pool_ok_slots g (set_balancer (Some (set_counter ((b_counter b + 1) mod 2 ^ 64) b)) g)); [exact Hok|exact Hb|by destruct g|by destruct g|by destruct b|by destruct b| |by destruct b..].
    destruct b; cbn. apply Z.mod_pos_bound. lia.
Qed.

Lemma urlTest_ok checking E `{!GroupEnvLaws E} E2 E3 force g r g' :
  pool_ok g → (∀ t, t ∈ g_outbounds g → env_outbound E t ≠ None) → urlTest checking E E2 E3 force g = (r, g') → pool_ok g'.
Proof.
  intros Hok Hload. destruct checking; [by intros [= _ <-]|]. destruct (negb force && tickTooSoon E g) eqn:Hs; [rewrite /urlTest Hs; by intros [= _ <-]|].
  destruct (g_balancer g) as [b|] eqn:Hb.
  - intros Ht. destruct (urlTest_stable E E2 E3 force g b r g') as (slots' & g1 & Hg1 & -> & Hst); [done|done|done| |done|by eapply pool_stable_ok].
    destruct force; [by left|by right].
  - rewrite /urlTest Hs Hb. intros Ht. eapply framed_pool; [|exact Hok]. revert Ht. case_match; [apply framed_failoverCheck|].
    destruct (testNodes E _ force g) as [r1 g1] eqn:Ht. apply framed_testNodes in Ht. intros [= _ <-]. etrans; [exact Ht|apply framed_performSelectionUpdate].
Qed.

Lemma group_step_ok g g' : group_step g g' → pool_ok g → pool_ok g'.
Proof.
  intros Hs Hok. inversion Hs; subst.
  - by apply seedPool_ok.
  - by eapply urlTest_ok.
  - by eapply beginDial_ok.
  - eapply framed_pool; [by eapply framed_endDial|done].
  - eapply framed_pool; [by eapply framed_endFallback|done].
  - eapply framed_pool; [|done]. rewrite /endListen. repeat case_match; try done. apply framed_set_history.
  - eapply framed_pool; [apply framed_set_forcedRetest|done].
Qed.

Lemma duplicateTag_None : ∀ tags seen, duplicateTag seen tags = None → NoDup seen → NoDup (seen ++ tags).
Proof.
  induction tags as [|t tags IH]; intros seen; cbn; [by rewrite app_nil_r|]. case_match eqn:Hc; [done|]. intros Hd Hs.
  replace (seen ++ t :: tags) with ((seen ++ [t]) ++ tags) by by rewrite -app_assoc. apply IH; [done|]. apply NoDup_app. split_and!; [done| |apply NoDup_singleton].
  intros x Hx ->%list_elem_of_singleton. apply containsb_spec in Hx. congruence.
Qed.

(** What the decoder of the options leaves: a tolerance of milliseconds is not
    negative, and the tags are the tags of outbounds, none of them empty. *)
Definition options_ok (o : URLTestOutboundOptions) : Prop :=
  (∀ t, t ∈ uo_Outbounds o → hole t = false) ∧ (∀ bo, uo_Balancer o = Some bo → 0 ≤ bo_PoolTolerance bo).

Lemma newBalancer_ok o b : newBalancer o = Ok (Some b) → options_ok o → 0 < b_poolSize b ∧ 0 ≤ b_poolTolerance b ∧ b_counter b = 0 ∧ b_slots b = [].
Proof.
  rewrite /newBalancer /options_ok. intros Hb [_ Ht]. destruct (_ || _ || _); [done|]. destruct (negb _); [done|].
  destruct (uo_Balancer o) as [bo|]; [|by destruct (firstError _); [|injection Hb as <-]].
  specialize (Ht bo eq_refl). destruct (bo_Pool bo <? 0); [done|]. destruct (firstError _); [done|]. destruct (15000 <? _); [done|]. injection Hb as <-. cbn.
  split_and!; [|done|done|done]. destruct (Z.ltb_spec 0 (bo_Pool bo)); [done|]. reflexivity.
Qed.

Lemma URLTest_Start_ok known history o b g : NewURLTest o = Ok b → URLTest_Start known history o b = Ok g → options_ok o → pool_ok g.
Proof.
  rewrite /NewURLTest /URLTest_Start. intros Hnew Hstart Ho.
  assert (newBalancer o = Ok b ∧ uo_Outbounds o ≠ [] ∧ duplicateTag [] (uo_Outbounds o) = None) as (Hb & Hne & Hd).
  { destruct (newBalancer o) as [b'|e|p]; cbn in Hnew; [|done|done]. destruct (negb _ && _); [done|]. destruct (uo_Outbounds o) as [|t l]; [done|].
    destruct (duplicateTag [] (t :: l)); [done|]. by injection Hnew as ->. }
  destruct (list_find (λ t, known t = false) (uo_Outbounds o)) as [[i t]|]; [done|]. revert Hstart. rewrite /NewURLTestGroup.
  destruct (_ <? _); [done|]. destruct history as [h|]; [|done]. cbn. intros [= <-].
  split; [split; cbn; [by apply (duplicateTag_None _ []); [|constructor]|apply Ho]|]. split; [done|]. cbn. intros b' ->.
  destruct (newBalancer_ok o b' Hb Ho) as (H1 & H2 & H3 & H4). rewrite H3 H4. split; [done|]. split; [done|]. split; [done|].
  split; [constructor|]. split; [set_solver|]. match goal with |- _ ≤ poolSize b' ?g => pose proof (poolSize_pos b' g Hne H1) end. cbn. lia.
Qed.

Lemma group_run_ok g g' : rtc group_step g g' → pool_ok g → pool_ok g'.
Proof. induction 1; [done|]. intros. apply IHrtc. by eapply group_step_ok. Qed.


Definition demo_tags : list string := ["a"; "b"; "c"]%string.
Definition demo_history : HistoryStorage := {["a" := mkHistory 1 100; "b" := mkHistory 1 50; "c" := mkHistory 1 300]}%string.
(** Plain outbounds, of which only [dead] do not answer. *)
Definition demo_env (dead : list string) (now : Z) : GroupEnv :=
  mkGroupEnv demo_tags (λ t, if containsb t demo_tags then Some (PlainOutbound t [tcp; udp] None) else None) (λ _, LeafNode)
    (λ t, if containsb t dead then NoAnswer else Delayed 80) (λ _, now) (λ _ _ h, (∅, h)) (λ m, (map_to_list m).*2) now now false.

#[local] Instance demo_env_laws dead now : GroupEnvLaws (demo_env dead now).
Proof. split; [|done]. intros t. cbn -[demo_tags]. case_match eqn:Hc; [|done]. intros _. by apply containsb_spec. Qed.

Definition demo_options : URLTestOutboundOptions := mkURLTestOptions demo_tags 0 0 0 URLTestModeRoundRobin (Some (mkBalancerOptions 2 0 [])).
Definition demo_new : URLTestGroup := match b ← NewURLTest demo_options; URLTest_Start (λ _, true) (Some demo_history) demo_options b with Ok g => g | _ => mkGroup [] 0 0 ∅ ∅ None None "" None false ∅ 0 false None end.
Definition demo_seeded : URLTestGroup := seedPool (demo_env [] 10) demo_new.
Definition demo_pool : balancer := mkBalancer 2 0 [URLTestStickyProcess; URLTestStickyDomain] ["b"; "a"]%string 0.

