(* ===== verification/GroupLife.v ===== *)
(** The life of a group: the ticker of a urltest group and the goroutine that
    waits on it, and the selection of a selector over restarts. *)

From Stdlib Require Import ssreflect.
From S2P Require Import Prelude GoBytes GoSlices GoStrings Netip Metadata Router Balancer Group GroupSelect Bolt CacheFile CacheFakeIP FakeIPResume DnsCacheClean DnsCacheTheorems.

(** ** The ticker *)

(** Where the goroutine of [loopCheck] is: at its start, waiting for a tick, or
    about to retire the ticker. *)
Inductive loopState : Type := LoopStarts | LoopWaits | LoopRetires.

(** The fields of [URLTestGroup] that [access] guards.  A ticker is a number; the
    goroutines are kept by the ticker they wait on. *)
Record groupLife : Type := mkLife {
  l_interval : Z;
  l_idleTimeout : Z;
  l_started : bool;
  l_cancelled : bool;
  l_ticker : option nat;
  l_tickers : nat;                 (* how many tickers there have been *)
  l_closed : bool;                 (* the channel [close] is closed *)
  l_lastActive : Z;
  l_loops : gmap nat loopState
}.

Definition newLife (interval idleTimeout : Z) : groupLife := mkLife interval idleTimeout false false None 0 false 0 ∅.

(** The fields [PostStart] sets. *)
Definition startLife (now : Z) (l : groupLife) : groupLife :=
  mkLife (l_interval l) (l_idleTimeout l) true (l_cancelled l) (l_ticker l) (l_tickers l) (l_closed l) now (l_loops l).

(** [func (g) Touch()]. *)
Definition Touch (now : Z) (l : groupLife) : groupLife :=
  if negb (l_started l) then l
  else match l_ticker l with
    | Some _ => mkLife (l_interval l) (l_idleTimeout l) (l_started l) (l_cancelled l) (l_ticker l) (l_tickers l) (l_closed l) now (l_loops l)
    | None =>
        mkLife (l_interval l) (l_idleTimeout l) (l_started l) (l_cancelled l) (Some (l_tickers l)) (S (l_tickers l)) (l_closed l) (l_lastActive l)
          (<[l_tickers l := LoopStarts]> (l_loops l))
    end.

(** [func (g) Close() error]; closing a closed channel panics. *)
Definition Group_Close (l : groupLife) : result groupLife :=
  let closed ticker channel := mkLife (l_interval l) (l_idleTimeout l) false true ticker (l_tickers l) channel (l_lastActive l) (l_loops l) in
  match l_ticker l with
  | None => Ok (closed None (l_closed l))
  | Some _ => if l_closed l then Panic "close of closed channel" else Ok (closed None true)
  end.

(** The pieces of [loopCheck] between two uses of the shared fields, and whether
    a check is run: its start, a tick, and the retirement of an idle ticker. *)
Definition with_loops (v : gmap nat loopState) (l : groupLife) : groupLife :=
  mkLife (l_interval l) (l_idleTimeout l) (l_started l) (l_cancelled l) (l_ticker l) (l_tickers l) (l_closed l) (l_lastActive l) v.
Definition loopStart (id : nat) (now : Z) (l : groupLife) : groupLife * bool :=
  let waiting := with_loops (<[id := LoopWaits]> (l_loops l)) l in
  if l_interval l <? now - l_lastActive l
  then (mkLife (l_interval l) (l_idleTimeout l) (l_started l) (l_cancelled l) (l_ticker l) (l_tickers l) (l_closed l) now (l_loops waiting), true)
  else (waiting, false).
Definition loopTick (id : nat) (now : Z) (reachable : bool) (l : groupLife) : groupLife * bool :=
  if l_idleTimeout l <? now - l_lastActive l then (with_loops (<[id := LoopRetires]> (l_loops l)) l, false)
  else (l, reachable).
Definition loopRetire (id : nat) (l : groupLife) : groupLife :=
  mkLife (l_interval l) (l_idleTimeout l) (l_started l) (l_cancelled l) (if bool_decide (l_ticker l = Some id) then None else l_ticker l) (l_tickers l) (l_closed l)
    (l_lastActive l) (delete id (l_loops l)).

(** ** Checks *)

(** Who calls [urlTest]: the goroutine of [PostStart], the one of a ticker, the ones
    of [InterfaceUpdated] and of [maybeForceRetest], or somebody else, by
    [CheckOutbounds], [URLTest] or the check of a group above. *)
Inductive checkOrigin : Type := OnStart | OnLoop (id : nat) | OnNetwork | OnPenalty | OnRequest.

(** Where the caller is: before [checkAccess.Lock()] of [InterfaceUpdated], before
    [checking.Swap(true)] of [urlTest], or behind it. *)
Inductive checkState : Type := CheckLocks | CheckCalls | CheckRuns.
#[export] Instance checkState_eq_dec : EqDecision checkState.
Proof. solve_decision. Defined.

(** The group with its flags [checking] and [forcedRetestRunning], the mutex
    [checkAccess], and the calls of [urlTest] under way. *)
Record groupRun : Type := mkRun {
  r_life : groupLife;
  r_checking : bool;
  r_forced : bool;
  r_locked : bool;
  r_checks : gmap nat (checkOrigin * checkState)
}.

Definition newRun (interval idleTimeout : Z) : groupRun := mkRun (newLife interval idleTimeout) false false false ∅.

Definition with_life (l : groupLife) (r : groupRun) : groupRun := mkRun l (r_checking r) (r_forced r) (r_locked r) (r_checks r).

(** The call [i] begins. *)
Definition callCheck (i : nat) (o : checkOrigin) (s : checkState) (r : groupRun) : groupRun :=
  mkRun (r_life r) (r_checking r) (r_forced r) (r_locked r) (<[i := (o, s)]> (r_checks r)).

(** [func (g) PostStart()]. *)
Definition PostStart (E : GroupEnv) (now : Z) (g : URLTestGroup) (r : groupRun) : URLTestGroup * groupRun :=
  (seedPool E g, callCheck 0 OnStart CheckCalls (with_life (startLife now (r_life r)) r)).

(** [func (s *URLTest) DialContext(ctx, network, destination)] and [ListenPacket]
    up to the dial. *)
Definition DialContext (E : GroupEnv) (probe : bool) (key : list byte) (network : string) (now : Z) (g : URLTestGroup) (r : groupRun) :
    result string * URLTestGroup * groupRun :=
  (beginDial E probe key network g, with_life (Touch now (r_life r)) r).

(** What a call leaves when it returns: [checkAccess.Unlock()], and the end of the
    goroutine of [maybeForceRetest]. *)
Definition checkReturns (i : nat) (o : checkOrigin) (checking : bool) (r : groupRun) : groupRun :=
  mkRun (r_life r) checking (match o with OnPenalty => false | _ => r_forced r end)
    (match o with OnNetwork => false | _ => r_locked r end) (delete i (r_checks r)).

(** [if g.checking.Swap(true) { return }]. *)
Definition checkBegins (i : nat) (o : checkOrigin) (r : groupRun) : groupRun :=
  if r_checking r then checkReturns i o true r
  else mkRun (r_life r) true (r_forced r) (r_locked r) (<[i := (o, CheckRuns)]> (r_checks r)).

(** The goroutine of a ticker goes on, by way of a check when [check] is set. *)
Definition loopGoes (i id : nat) (x : groupLife * bool) (r : groupRun) : groupRun :=
  let r := with_life x.1 r in if x.2 then callCheck i (OnLoop id) CheckCalls r else r.

(** The goroutine of the ticker [id] is not in a check. *)
Definition idle (id : nat) (r : groupRun) : Prop := ∀ i s, r_checks r !! i ≠ Some (OnLoop id, s).

(** Connections, ticks, checks, network changes and the end of the group in any
    order. *)
Inductive life_step : groupRun → groupRun → Prop :=
| life_touch now r : life_step r (with_life (Touch now (r_life r)) r)
| life_close l r : Group_Close (r_life r) = Ok l → life_step r (with_life l r)
| life_start id i now r :
    l_loops (r_life r) !! id = Some LoopStarts → idle id r → r_checks r !! i = None → life_step r (loopGoes i id (loopStart id now (r_life r)) r)
| life_tick id i now reachable r :
    l_loops (r_life r) !! id = Some LoopWaits → idle id r → r_checks r !! i = None → life_step r (loopGoes i id (loopTick id now reachable (r_life r)) r)
| life_retire id r : l_loops (r_life r) !! id = Some LoopRetires → idle id r → life_step r (with_life (loopRetire id (r_life r)) r)
| life_closed id r :
    l_loops (r_life r) !! id = Some LoopWaits → idle id r → l_closed (r_life r) = true →
    life_step r (with_life (with_loops (delete id (l_loops (r_life r))) (r_life r)) r)
| life_request i r : r_checks r !! i = None → life_step r (callCheck i OnRequest CheckCalls r)
| life_network i r : r_checks r !! i = None → life_step r (callCheck i OnNetwork CheckLocks r)
| life_penalty i r :
    r_checks r !! i = None → r_forced r = false →
    life_step r (callCheck i OnPenalty CheckCalls (mkRun (r_life r) (r_checking r) true (r_locked r) (r_checks r)))
| life_lock i ended r :
    r_checks r !! i = Some (OnNetwork, CheckLocks) → r_locked r = false →
    life_step r (if ended : bool then checkReturns i OnNetwork (r_checking r) r
      else mkRun (r_life r) (r_checking r) (r_forced r) true (<[i := (OnNetwork, CheckCalls)]> (r_checks r)))
| life_check i o r : r_checks r !! i = Some (o, CheckCalls) → life_step r (checkBegins i o r)
| life_checked i o r : r_checks r !! i = Some (o, CheckRuns) → life_step r (checkReturns i o false r).

(** What a step does to the fields behind [access]. *)
Inductive life_move : groupLife → groupLife → Prop :=
| move_touch now l : life_move l (Touch now l)
| move_close l l' : Group_Close l = Ok l' → life_move l l'
| move_start id now l : l_loops l !! id = Some LoopStarts → life_move l (loopStart id now l).1
| move_tick id now reachable l : l_loops l !! id = Some LoopWaits → life_move l (loopTick id now reachable l).1
| move_retire id l : l_loops l !! id = Some LoopRetires → life_move l (loopRetire id l)
| move_closed id l : l_loops l !! id = Some LoopWaits → l_closed l = true → life_move l (with_loops (delete id (l_loops l)) l).

Lemma loopGoes_life i id x r : r_life (loopGoes i id x r) = x.1.
Proof. rewrite /loopGoes. by destruct x.2. Qed.

Lemma life_step_moves r r' : life_step r r' → r_life r' = r_life r ∨ life_move (r_life r) (r_life r').
Proof.
  intros []; rewrite ?loopGoes_life; try (by left); try (by right; constructor).
  - left. by destruct ended.
  - left. rewrite /checkBegins. by case_match.
Qed.

(** At most one goroutine, which waits on the ticker of the group as long as that
    has one. *)
Record life_ok (l : groupLife) : Prop := mkLifeOk {
  lo_closed : l_closed l = true → l_started l = false ∧ l_ticker l = None;
  lo_ticker id : l_ticker l = Some id → is_Some (l_loops l !! id);
  lo_loop id : is_Some (l_loops l !! id) → l_closed l = true ∨ l_ticker l = Some id;
  lo_one id id' : is_Some (l_loops l !! id) → is_Some (l_loops l !! id') → id = id'
}.

Lemma life_ok_start interval idle now : life_ok (startLife now (newLife interval idle)).
Proof. split; cbn; [done|done|intros id [? H]; by rewrite lookup_empty in H|intros id id' [? H]; by rewrite lookup_empty in H]. Qed.

Lemma loops_set (m : gmap nat loopState) id s s' i : m !! id = Some s → is_Some (<[id := s']> m !! i) ↔ is_Some (m !! i).
Proof. intros H. destruct (decide (i = id)) as [->|]; [rewrite lookup_insert_eq H; split; eauto|by rewrite lookup_insert_ne]. Qed.
Lemma loops_delete (m : gmap nat loopState) id i : is_Some (delete id m !! i) ↔ i ≠ id ∧ is_Some (m !! i).
Proof. destruct (decide (i = id)) as [->|]; [rewrite lookup_delete_eq; split; [by intros []|by intros []]|rewrite lookup_delete_ne //; naive_solver]. Qed.

Lemma life_ok_loops l l' id s s' :
  life_ok l → l_loops l !! id = Some s → l_loops l' = <[id := s']> (l_loops l) → l_closed l' = l_closed l → l_started l' = l_started l → l_ticker l' = l_ticker l → life_ok l'.
Proof.
  intros [] Hid Hl Hc Hs Ht. split; rewrite ?Hl ?Hc ?Hs ?Ht; [done|..]; intros ?; rewrite ?(loops_set _ _ _ _ _ Hid); eauto.
  intros ?. rewrite !(loops_set _ _ _ _ _ Hid). eauto.
Qed.

Lemma life_ok_delete l l' id :
  life_ok l → is_Some (l_loops l !! id) → l_loops l' = delete id (l_loops l) → l_closed l' = l_closed l → l_started l' = l_started l → l_ticker l' = None → life_ok l'.
Proof.
  intros [] Hid Hl Hc Hs Ht. assert (∀ i, ~ is_Some (l_loops l' !! i)) as Hnone.
  { intros i. rewrite Hl loops_delete. intros [Hne Hi]. by apply Hne, lo_one0. }
  split; rewrite ?Hc ?Hs ?Ht; [naive_solver|done|..]; intros i; [by intros ?%Hnone|intros i'; by intros ?%Hnone].
Qed.

Lemma life_move_ok l l' : life_move l l' → life_ok l → life_ok l'.
Proof.
  intros Hs Hok. pose proof Hok as []. inversion Hs; subst.
  - rewrite /Touch. destruct (l_started l) eqn:Hst; [|done]. cbn. destruct (l_ticker l) as [id|] eqn:Ht; [by split; cbn; rewrite ?Ht|].
    assert (l_closed l = false) as Hc by (destruct (l_closed l); [by destruct lo_closed0|done]).
    assert (∀ i, ~ is_Some (l_loops l !! i)) as Hnone by (intros i Hi; destruct (lo_loop0 i Hi); congruence).
    assert (∀ i, is_Some (<[l_tickers l := LoopStarts]> (l_loops l) !! i) → i = l_tickers l) as Honly.
    { intros i. destruct (decide (i = l_tickers l)); [done|]. rewrite lookup_insert_ne //. by intros ?%Hnone. }
    split; cbn; [congruence|intros i [= <-]; rewrite lookup_insert_eq; eauto|intros i ->%Honly; by right|]. by intros i i' ->%Honly ->%Honly.
  - rewrite /Group_Close in H. destruct (l_ticker l) as [id|] eqn:Ht; [destruct (l_closed l) eqn:Hc; [done|]|]; injection H as <-; split; cbn; try done.
    intros i _. by left.
  - eapply life_ok_loops; [done|done|..]; rewrite /loopStart; by case_match.
  - rewrite /loopTick. case_match; [by eapply life_ok_loops|done].
  - eapply life_ok_delete; [done|by eexists|done..|]. cbn. case_bool_decide; [done|]. destruct (lo_loop0 id) as [Hc|]; [eauto| |done]. by destruct (lo_closed0 Hc).
  - eapply life_ok_delete; [done|by eexists|done..|]. cbn. by destruct lo_closed0.
Qed.

(** After the end of the group only the goroutine that was there goes on. *)
Definition ended (l0 l : groupLife) : Prop :=
  l_started l = false ∧ l_cancelled l = true ∧ l_ticker l = None ∧ ∀ id, is_Some (l_loops l !! id) → is_Some (l_loops l0 !! id) ∧ l_closed l = true.

Lemma life_move_ended l0 l l' : life_ok l → ended l0 l → life_move l l' → ended l0 l'.
Proof.
  intros Hok (Hs & Hca & Ht & Hl) Hstep. rewrite /ended. inversion Hstep; subst.
  - by rewrite /Touch Hs.
  - rewrite /Group_Close Ht in H. by injection H as <-.
  - rewrite /loopStart. case_match; cbn; (split_and!; [done..|]); intros i; rewrite (loops_set _ _ _ _ _ H); apply Hl.
  - rewrite /loopTick. case_match; [|done]. cbn. split_and!; [done..|]. intros i. rewrite (loops_set _ _ _ _ _ H). apply Hl.
  - cbn. rewrite Ht /=. split_and!; [done..|]. intros i. rewrite loops_delete. intros [_ ?]. by apply Hl.
  - cbn. split_and!; [done..|]. intros i. rewrite loops_delete. intros [_ ?]. by apply Hl.
Qed.

(** ** Flags and their holders *)

Definition held {A} (K : A → bool) (m : gmap nat A) (i : nat) : bool := match m !! i with Some x => K x | None => false end.

(** The flag [f] is set exactly as long as there is a call in [K], and there is at
    most one. *)
Definition exclusive {A} (f : bool) (K : A → bool) (m : gmap nat A) : Prop := ∃ o, f = isSome o ∧ ∀ i, held K m i = bool_decide (o = Some i).

Lemma held_insert {A} (K : A → bool) m i x j : held K (<[i := x]> m) j = if bool_decide (j = i) then K x else held K m j.
Proof. rewrite /held. case_bool_decide; subst; [by rewrite lookup_insert_eq|by rewrite lookup_insert_ne]. Qed.
Lemma held_delete {A} (K : A → bool) m i j : held K (delete i m) j = if bool_decide (j = i) then false else held K m j.
Proof. rewrite /held. case_bool_decide; subst; [by rewrite lookup_delete_eq|by rewrite lookup_delete_ne]. Qed.

(** What is not in [K] comes, changes or goes. *)
Lemma exclusive_keep {A} f (K : A → bool) m i x : exclusive f K m → held K m i = K x → exclusive f K (<[i := x]> m).
Proof. intros (o & Hf & Ho) Hx. exists o. split; [done|]. intros j. rewrite held_insert. case_bool_decide; subst; [by rewrite -Hx|done]. Qed.
Lemma exclusive_drop {A} f (K : A → bool) m i : exclusive f K m → held K m i = false → exclusive f K (delete i m).
Proof. intros (o & Hf & Ho) Hx. exists o. split; [done|]. intros j. rewrite held_delete. case_bool_decide; subst; [by rewrite -Hx|done]. Qed.

(** The flag is taken, or given back. *)
Lemma exclusive_take {A} (K : A → bool) m i x : exclusive false K m → K x = true → exclusive true K (<[i := x]> m).
Proof.
  intros (o & Hf & Ho) Hx. destruct o; [done|]. exists (Some i). split; [done|]. intros j. rewrite held_insert.
  case_bool_decide; subst; [by rewrite bool_decide_true|]. rewrite Ho !bool_decide_false //; congruence.
Qed.
Lemma exclusive_give {A} f (K : A → bool) m i : exclusive f K m → held K m i = true → exclusive false K (delete i m).
Proof.
  intros (o & Hf & Ho) Hx. exists None. split; [done|]. intros j. rewrite held_delete Ho. rewrite Ho bool_decide_eq_true in Hx. subst o.
  case_bool_decide; [by rewrite bool_decide_false|]. rewrite !bool_decide_false //. congruence.
Qed.

Lemma exclusive_one {A} f (K : A → bool) m i j : exclusive f K m → held K m i = true → held K m j = true → i = j.
Proof. intros (o & _ & Ho). rewrite !Ho !bool_decide_eq_true. congruence. Qed.
Lemma exclusive_free {A} f (K : A → bool) m : exclusive f K m → (∀ i, held K m i = false) → f = false.
Proof. intros ([i|] & -> & Ho) Hn; [|done]. specialize (Hn i). by rewrite Ho bool_decide_true in Hn. Qed.

(** The calls behind the flag [checking], of [maybeForceRetest], and behind the
    mutex. *)
Definition isRun (x : checkOrigin * checkState) : bool := match x.2 with CheckRuns => true | _ => false end.
Definition isForced (x : checkOrigin * checkState) : bool := match x.1 with OnPenalty => true | _ => false end.
Definition isLocked (x : checkOrigin * checkState) : bool := match x with (OnNetwork, CheckLocks) => false | (OnNetwork, _) => true | _ => false end.

Record run_ok (r : groupRun) : Prop := mkRunOk {
  ro_life : life_ok (r_life r);
  ro_checking : exclusive (r_checking r) isRun (r_checks r);
  ro_forced : exclusive (r_forced r) isForced (r_checks r);
  ro_locked : exclusive (r_locked r) isLocked (r_checks r);
  ro_locks i o : r_checks r !! i = Some (o, CheckLocks) → o = OnNetwork
}.

Lemma held_none {A} (K : A → bool) m i : m !! i = None → held K m i = false.
Proof. by rewrite /held => ->. Qed.
Lemma held_some {A} (K : A → bool) m i x : m !! i = Some x → held K m i = K x.
Proof. by rewrite /held => ->. Qed.

(** A call that is none of the flags' begins. *)
Lemma run_ok_call r i o s : run_ok r → r_checks r !! i = None → o ≠ OnPenalty → s ≠ CheckRuns → (s = CheckLocks ↔ o = OnNetwork) → run_ok (callCheck i o s r).
Proof.
  intros [] Hi Ho Hs Hl. split; cbn; [done|..].
  - apply exclusive_keep; [done|]. rewrite held_none //. by destruct s.
  - apply exclusive_keep; [done|]. rewrite held_none //. by destruct o.
  - apply exclusive_keep; [done|]. rewrite held_none //. destruct o, s; cbn; naive_solver.
  - intros j o'. destruct (decide (j = i)) as [->|]; [rewrite lookup_insert_eq|rewrite lookup_insert_ne //; apply ro_locks0]. naive_solver.
Qed.

(** A call returns; [f] is the flag [checking] it leaves. *)
Lemma run_ok_return r i o s f :
  run_ok r → r_checks r !! i = Some (o, s) → f = match s with CheckRuns => false | _ => r_checking r end →
  (s = CheckLocks → r_locked r = false) → run_ok (checkReturns i o f r).
Proof.
  intros [] Hi -> Hl. split; cbn; [done|..].
  - destruct s; [apply exclusive_drop; [done|by rewrite (held_some _ _ _ _ Hi)]..|]. apply (exclusive_give (r_checking r)); [done|by rewrite (held_some _ _ _ _ Hi)].
  - destruct o; try (apply exclusive_drop; [done|by rewrite (held_some _ _ _ _ Hi)]). apply (exclusive_give (r_forced r)); [done|by rewrite (held_some _ _ _ _ Hi)].
  - destruct o; try (apply exclusive_drop; [done|by rewrite (held_some _ _ _ _ Hi); destruct s]).
    destruct s; [rewrite -(Hl eq_refl); apply exclusive_drop; [done|by rewrite (held_some _ _ _ _ Hi)]|..];
      apply (exclusive_give (r_locked r)); (done || by rewrite (held_some _ _ _ _ Hi)).
  - intros j o' [_ Hj]%lookup_delete_Some. by eapply ro_locks0.
Qed.

(** A call gets the flag [checking], or the mutex. *)
Lemma run_ok_begin r i o : run_ok r → r_checks r !! i = Some (o, CheckCalls) → run_ok (checkBegins i o r).
Proof.
  intros Hok Hi. rewrite /checkBegins. destruct (r_checking r) eqn:Hc; [by apply (run_ok_return r i o CheckCalls); rewrite ?Hc|].
  destruct Hok. split; cbn; [done|..].
  - apply exclusive_take; [by rewrite -Hc|done].
  - apply exclusive_keep; [done|]. by rewrite (held_some _ _ _ _ Hi).
  - apply exclusive_keep; [done|]. rewrite (held_some _ _ _ _ Hi). by destruct o.
  - intros j o' [[_ [=]]|[_ Hj]]%lookup_insert_Some. by eapply ro_locks0.
Qed.

Lemma run_ok_lock r i :
  run_ok r → r_checks r !! i = Some (OnNetwork, CheckLocks) → r_locked r = false →
  run_ok (mkRun (r_life r) (r_checking r) (r_forced r) true (<[i := (OnNetwork, CheckCalls)]> (r_checks r))).
Proof.
  intros [] Hi Hl. split; cbn; [done|..].
  - apply exclusive_keep; [done|]. by rewrite (held_some _ _ _ _ Hi).
  - apply exclusive_keep; [done|]. by rewrite (held_some _ _ _ _ Hi).
  - apply exclusive_take; [by rewrite -Hl|done].
  - intros j o' [[_ [=]]|[_ Hj]]%lookup_insert_Some. by eapply ro_locks0.
Qed.

Lemma run_ok_penalty r i :
  run_ok r → r_checks r !! i = None → r_forced r = false →
  run_ok (callCheck i OnPenalty CheckCalls (mkRun (r_life r) (r_checking r) true (r_locked r) (r_checks r))).
Proof.
  intros [] Hi Hf. split; cbn; [done|..].
  - apply exclusive_keep; [done|]. by rewrite held_none.
  - apply exclusive_take; [by rewrite -Hf|done].
  - apply exclusive_keep; [done|]. by rewrite held_none.
  - intros j o' [[_ [=]]|[_ Hj]]%lookup_insert_Some. by eapply ro_locks0.
Qed.

Lemma run_ok_life r l : run_ok r → life_ok l → run_ok (with_life l r).
Proof. intros [] Hl. by split. Qed.

Lemma run_ok_goes r i id x : run_ok r → life_ok x.1 → r_checks r !! i = None → run_ok (loopGoes i id x r).
Proof. intros Hok Hl Hi. rewrite /loopGoes. pose proof (run_ok_life _ _ Hok Hl). destruct x.2; [by apply run_ok_call|done]. Qed.

Lemma run_ok_step r r' : life_step r r' → run_ok r → run_ok r'.
Proof.
  intros Hs Hok. pose proof (ro_life _ Hok) as Hl. inversion Hs; subst.
  - apply run_ok_life; [done|]. eapply life_move_ok; [by apply move_touch|done].
  - apply run_ok_life; [done|]. eapply life_move_ok; [by apply move_close|done].
  - apply run_ok_goes; [done| |done]. eapply life_move_ok; [by apply move_start|done].
  - apply run_ok_goes; [done| |done]. eapply life_move_ok; [by apply move_tick|done].
  - apply run_ok_life; [done|]. eapply life_move_ok; [by apply move_retire|done].
  - apply run_ok_life; [done|]. eapply life_move_ok; [by apply move_closed|done].
  - by apply run_ok_call.
  - by apply run_ok_call.
  - by apply run_ok_penalty.
  - destruct ended0; [by eapply run_ok_return|by apply run_ok_lock].
  - by apply run_ok_begin.
  - by eapply run_ok_return.
Qed.

Lemma run_ok_steps r r' : rtc life_step r r' → run_ok r → run_ok r'.
Proof. induction 1; [done|]. intros. apply IHrtc. by eapply run_ok_step. Qed.

Lemma run_ended_steps l0 r r' : rtc life_step r r' → run_ok r → ended l0 (r_life r) → ended l0 (r_life r').
Proof.
  induction 1 as [|r r1 r' Hs _ IH]; [done|]. intros Hok He. apply IH; [by eapply run_ok_step|].
  destruct (life_step_moves _ _ Hs) as [->|Hm]; [done|]. by eapply life_move_ended; [apply ro_life|..].
Qed.

(** Calls come to an end: one can always go on, and be followed to its end. *)
Lemma check_runs_ends r i o : r_checks r !! i = Some (o, CheckRuns) → ∃ r', rtc life_step r r' ∧ r_life r' = r_life r ∧ r_checks r' = delete i (r_checks r).
Proof. intros Hi. exists (checkReturns i o false r). split; [by apply rtc_once, life_checked|done]. Qed.

Lemma check_calls_ends r i o : r_checks r !! i = Some (o, CheckCalls) → ∃ r', rtc life_step r r' ∧ r_life r' = r_life r ∧ r_checks r' = delete i (r_checks r).
Proof.
  intros Hi. pose proof (life_check _ _ _ Hi) as Hs. rewrite /checkBegins in Hs. destruct (r_checking r).
  - exists (checkReturns i o true r). split; [by apply rtc_once|done].
  - destruct (check_runs_ends (mkRun (r_life r) true (r_forced r) (r_locked r) (<[i := (o, CheckRuns)]> (r_checks r))) i o) as (r' & Hr & Hl & Hc);
      [apply lookup_insert_eq|]. exists r'. split; [by eapply rtc_l|]. rewrite Hl Hc. split; [done|]. apply delete_insert_eq.
Qed.

Lemma check_ends r : run_ok r → r_checks r ≠ ∅ → ∃ i r', is_Some (r_checks r !! i) ∧ rtc life_step r r' ∧ r_life r' = r_life r ∧ r_checks r' = delete i (r_checks r).
Proof.
  intros Hok Hne. destruct (decide (map_Exists (λ _ x, x.2 ≠ CheckLocks) (r_checks r))) as [(i & [o s] & Hi & Hs)|Hn].
  - exists i. destruct s; [done|..]; [destruct (check_calls_ends r i o Hi) as (r' & ?)|destruct (check_runs_ends r i o Hi) as (r' & ?)]; exists r'; (split; [by eexists|done]).
  - apply map_choose in Hne as (i & [o s] & Hi). exists i. assert (s = CheckLocks) as ->.
    { destruct (decide (s = CheckLocks)); [done|]. exfalso. apply Hn. by exists i, (o, s). }
    assert (r_locked r = false) as Hl.
    { apply (exclusive_free _ _ _ (ro_locked r Hok)). intros j. rewrite /held. destruct (r_checks r !! j) as [[o' s']|] eqn:Hj; [|done].
      destruct (decide (s' = CheckLocks)) as [->|Hs']; [by destruct o'|]. exfalso. apply Hn. by exists j, (o', s'). }
    pose proof (ro_locks r Hok i o Hi) as ->. exists (checkReturns i OnNetwork (r_checking r) r). split; [by eexists|].
    split; [by apply rtc_once, (life_lock i true)|done].
Qed.

Lemma checks_end r : run_ok r → ∃ r', rtc life_step r r' ∧ r_life r' = r_life r ∧ r_checks r' = ∅.
Proof.
  remember (size (r_checks r)) as n eqn:Hn. revert r Hn. induction n as [n IH] using lt_wf_ind. intros r -> Hok.
  destruct (decide (r_checks r = ∅)) as [|Hne]; [by exists r|]. destruct (check_ends r Hok Hne) as (i & r1 & [x Hi] & H1 & Hl1 & Hc1).
  destruct (IH (size (r_checks r1))) with (r := r1) as (r2 & H2 & Hl2 & Hc2); [|done|by eapply run_ok_steps|].
  - rewrite Hc1 map_size_delete_Some; [by eexists|]. assert (size (r_checks r) ≠ 0%nat) by by apply map_size_non_empty_iff. lia.
  - exists r2. split; [by etrans|]. by rewrite Hl2.
Qed.

(** A goroutine whose channel is closed can end. *)
Lemma loop_ends r id :
  run_ok r → r_checks r = ∅ → l_closed (r_life r) = true → is_Some (l_loops (r_life r) !! id) →
  ∃ r', rtc life_step r r' ∧ l_loops (r_life r') = ∅ ∧ r_checks r' = ∅.
Proof.
  intros Hok Hn Hc Hid. pose proof (ro_life _ Hok) as []. set (m := l_loops (r_life r)) in *.
  assert (Hidle : ∀ l f, idle id (mkRun l f (r_forced r) (r_locked r) (r_checks r))) by (intros l f i s; cbn; by rewrite Hn lookup_empty).
  assert (∀ s, delete id (<[id := s]> m) = ∅) as Hempty.
  { intros s. apply map_eq. intros i. rewrite lookup_empty. destruct (decide (i = id)) as [->|Hne]; [by rewrite lookup_delete_eq|].
    rewrite lookup_delete_ne // lookup_insert_ne //. destruct (m !! i) eqn:Hi; [|done]. exfalso. apply Hne, lo_one0; fold m; rewrite ?Hi; eauto. }
  destruct Hid as [s Hid]. assert (delete id m = ∅) as Hempty' by by rewrite -(Hempty s) insert_id.
  destruct r as [l f fo lo ch]. cbn in *. subst ch. destruct s.
  - set (l1 := (loopStart id (l_lastActive l) l).1).
    assert (Hl1 : l_loops l1 = <[id := LoopWaits]> m ∧ l_closed l1 = true) by (rewrite /l1 /loopStart; by case_match).
    assert (H1 : ∃ r1, rtc life_step (mkRun l f fo lo ∅) r1 ∧ r_life r1 = l1 ∧ r_checks r1 = ∅).
    { pose proof (life_start id 0 (l_lastActive l) (mkRun l f fo lo ∅) Hid (Hidle l f) (lookup_empty _)) as Hs.
      assert (Hok1 := run_ok_step _ _ Hs Hok). destruct (checks_end _ Hok1) as (r1 & Hr1 & Hlife & Hch).
      exists r1. split; [by eapply rtc_l|]. rewrite Hlife loopGoes_life. done. }
    destruct H1 as ([l2 f2 fo2 lo2 ch2] & Hr1 & Hlife & Hch). cbn in Hlife, Hch. subst l2 ch2. destruct Hl1 as [Hlo Hcl].
    exists (mkRun (with_loops (delete id (l_loops l1)) l1) f2 fo2 lo2 ∅). split; [|cbn; by rewrite Hlo Hempty].
    eapply rtc_r; [done|]. apply (life_closed id (mkRun l1 f2 fo2 lo2 ∅)); [by rewrite /= Hlo lookup_insert_eq| |done]. intros i s. cbn. by rewrite lookup_empty.
  - exists (mkRun (with_loops (delete id m) l) f fo lo ∅). split; [|done]. by apply rtc_once, (life_closed id (mkRun l f fo lo ∅)).
  - exists (mkRun (loopRetire id l) f fo lo ∅). split; [|done]. by apply rtc_once, (life_retire id (mkRun l f fo lo ∅)).
Qed.

Lemma run_ok_start E interval idle now g : run_ok (PostStart E now g (newRun interval idle)).2.
Proof.
  apply run_ok_call; [|by rewrite lookup_empty|done..]. split; cbn; [apply life_ok_start|..]; try (by exists None; split; [|intros i; rewrite /held lookup_empty bool_decide_false]).
  intros i o. by rewrite lookup_empty.
Qed.

(** C6: the goroutines of a urltest group.  In every order of connections, ticks,
    checks, network changes, forced retests and the end of the group, closing it
    never panics.  At most one goroutine waits on a ticker, and as long as the group
    runs a connection leaves one waiting on the ticker of the group.  Of all the
    calls of [urlTest], which the start of the group, the ticker, network changes
    ([InterfaceUpdated]), forced retests ([maybeForceRetest]) and requests make, at
    most one is testing, and at most one is a forced retest.  Once the group is
    closed its context is cancelled and stays so, and no goroutine is started for a
    ticker; the one that was waiting can end, and so can every check, also those
    that network changes and requests may still start. *)
Theorem group_one_loop E interval idle now g r :
  rtc life_step (PostStart E now g (newRun interval idle)).2 r →
  let l := r_life r in
  (∃ l', Group_Close l = Ok l') ∧
  (∀ id id', is_Some (l_loops l !! id) → is_Some (l_loops l !! id') → id = id') ∧
  (∀ t, l_started l = true → ∃ id, l_ticker (Touch t l) = Some id ∧ is_Some (l_loops (Touch t l) !! id)) ∧
  (∀ i j o o', r_checks r !! i = Some (o, CheckRuns) → r_checks r !! j = Some (o', CheckRuns) → i = j) ∧
  (∀ i j s s', r_checks r !! i = Some (OnPenalty, s) → r_checks r !! j = Some (OnPenalty, s') → i = j) ∧
  (∀ l' r', Group_Close l = Ok l' → rtc life_step (with_life l' r) r' →
    l_started (r_life r') = false ∧ l_cancelled (r_life r') = true ∧ l_ticker (r_life r') = None ∧
    (∀ id, is_Some (l_loops (r_life r') !! id) → is_Some (l_loops l !! id)) ∧
    ∃ r3, rtc life_step r' r3 ∧ l_loops (r_life r3) = ∅ ∧ r_checks r3 = ∅).
Proof.
  intros Hrun l. pose proof (run_ok_steps _ _ Hrun (run_ok_start E interval idle now g)) as Hok. pose proof Hok as [Hlife Hche Hfor _ _].
  pose proof Hlife as []. fold l in Hlife, lo_closed0, lo_ticker0, lo_loop0, lo_one0. split_and!.
  - rewrite /Group_Close. destruct (l_ticker l) as [id|] eqn:Ht; [|eauto]. destruct (l_closed l) eqn:Hc; [by destruct lo_closed0|eauto].
  - done.
  - intros t Hs. rewrite /Touch Hs /=. destruct (l_ticker l) as [id|] eqn:Ht; cbn; [by eauto|]. eexists. split; [done|]. rewrite lookup_insert_eq. eauto.
  - intros i j o o' Hi Hj. apply (exclusive_one _ _ _ _ _ Hche); [by rewrite (held_some _ _ _ _ Hi)|by rewrite (held_some _ _ _ _ Hj)].
  - intros i j s s' Hi Hj. apply (exclusive_one _ _ _ _ _ Hfor); [by rewrite (held_some _ _ _ _ Hi)|by rewrite (held_some _ _ _ _ Hj)].
  - intros l' r' Hc Hrun'. assert (run_ok (with_life l' r)) as Hok' by by eapply run_ok_step; [apply life_close|].
    assert (ended l l') as He.
    { revert Hc. rewrite /Group_Close /ended. destruct (l_ticker l) as [id|] eqn:Ht; [destruct (l_closed l); [done|]|]; intros [= <-]; cbn; split_and!; try done.
      intros id Hid. split; [done|]. by destruct (lo_loop0 id Hid). }
    destruct (run_ended_steps _ _ _ Hrun' Hok' He) as (Hs & Hca & Ht & Hl). split_and!; [done..|intros id Hid; by apply Hl|].
    pose proof (run_ok_steps _ _ Hrun' Hok') as Hok''. destruct (checks_end r' Hok'') as (r1 & H1 & Hl1 & Hc1).
    destruct (decide (l_loops (r_life r') = ∅)) as [?|Hne]; [exists r1; by rewrite Hl1|].
    apply map_choose in Hne as (id & s & Hid). destruct (loop_ends r1 id) as (r3 & H3 & ?); [by eapply run_ok_steps|done|rewrite Hl1..|].
    + apply (Hl id). eauto.
    + eauto.
    + exists r3. split; [by etrans|done].
Qed.

(** Touched, idle for longer than the timeout, retired, touched again, while the
    check of the start goes on and a forced retest waits its turn. *)
Definition life_demo : groupLife := Touch 100 (loopRetire 0 (loopTick 0 100 true (loopStart 0 2 (Touch 1 (startLife 0 (newLife 10 30)))).1).1).
Definition run_demo : groupRun := mkRun life_demo true true false {[0%nat := (OnStart, CheckRuns); 1%nat := (OnPenalty, CheckCalls)]}.

Lemma group_one_loop_witness :
  l_ticker (r_life run_demo) = Some 1%nat ∧ (∃ l', Group_Close (r_life run_demo) = Ok l') ∧
  (∀ j o, r_checks run_demo !! j = Some (o, CheckRuns) → j = 0%nat).
Proof.
  split; [vm_compute; reflexivity|]. destruct (group_one_loop (failover_env 1) 10 30 0 policy_group run_demo) as (H1 & _ & _ & H4 & _).
  - eapply rtc_l; [apply (life_touch 1)|]. eapply rtc_l; [apply (life_check 0 OnStart); vm_compute; reflexivity|].
    eapply rtc_l; [apply (life_penalty 1); vm_compute; reflexivity|].
    eapply rtc_l; [apply (life_start 0 2 2); [vm_compute; reflexivity| |vm_compute; reflexivity]|].
    { intros i s. cbn. rewrite !lookup_insert_Some lookup_empty. naive_solver. }
    eapply rtc_l; [apply (life_tick 0 2 100 true); [vm_compute; reflexivity| |vm_compute; reflexivity]|].
    { intros i s. cbn. rewrite !lookup_insert_Some lookup_empty. naive_solver. }
    eapply rtc_l; [apply (life_retire 0); [vm_compute; reflexivity|]|].
    { intros i s. cbn. rewrite !lookup_insert_Some lookup_empty. naive_solver. }
    apply rtc_once. assert (Hd : ∀ r, with_life (Touch 100 (r_life r)) r = run_demo → life_step r run_demo) by (intros r <-; apply life_touch).
    apply Hd. vm_compute. reflexivity.
  - split; [exact H1|]. intros j o Hj. apply (H4 j 0%nat o OnStart Hj). vm_compute. reflexivity.
Defined.

(** ** Connection tests *)

(** C27: a connection test goes the way of a connection.  Picking a node, dialling
    it, falling back to another and opening a packet connection as a probe leave the
    selections, histories, penalties and slots of the group as they are, whatever
    the outcome; like a connection it counts as activity ([Touch]), and that is all
    it does.  The node picked is the one a connection would be given, and so is the
    node it falls back to after a failed dial, when the node that failed is not a
    group ([realTag E tag tcp = tag]). *)
Theorem probe_leaves_group E key network tag err now g r :
  DialContext E true key network now g r = ((DialContext E false key network now g r).1.1, g, (DialContext E false key network now g r).2) ∧
  (DialContext E true key network now g r).2 = with_life (Touch now (r_life r)) r ∧
  (endDial E true network tag err g).2 = g ∧ (endFallback E true network tag err g).2 = g ∧ endListen true tag err g = g ∧
  (realTag E tag tcp = tag → (endDial E true network tag err g).1 = (endDial E false network tag err g).1).
Proof.
  destruct (probe_keeps_choices E key network tag err g) as (H1 & H2 & H3 & H4 & H5 & H6). split_and!; [|done..].
  rewrite /DialContext /=. rewrite -H2 (surjective_pairing (beginDial E true key network g)) H1. done.
Qed.

Lemma probe_leaves_group_witness :
  (endDial (failover_env 1) true tcp "a" (Some DialDeadline) policy_group).1 = DialFallback "b" ∧
  (endDial (failover_env 1) true tcp "a" (Some DialDeadline) policy_group).1 = (endDial (failover_env 1) false tcp "a" (Some DialDeadline) policy_group).1.
Proof. split; [vm_compute; reflexivity|]. apply (probe_leaves_group (failover_env 1) [] tcp "a" (Some DialDeadline) 5 policy_group run_demo). reflexivity. Defined.

(** ** Selections over restarts *)

#[local] Arguments LoadSelected : simpl never.

Section selectors.
Context {B : Bolt} {BL : BoltLaws B} {BT : BoltTotal B}.

#[local] Definition selected_path (c : CacheFile) : list (list byte) := bucket_path bucketSelected c.

Lemma StoreSelected_spec group selected c tx c' :
  opened c tx → StoreSelected group selected c = (None, c') →
  ∃ tx', opened c' tx' ∧ selected_path c' = selected_path c ∧
    ∀ p k, get (content tx') p k = if bool_decide (p = selected_path c ∧ k = str_bytes group) then Some (str_bytes selected) else get (content tx) p k.
Proof using BL.
  intros (Hr & Hd & Hn) Hs. apply write_ok in Hs as (tx0 & tx1 & tx2 & Hd' & _ & Hput & Hc & ->). assert (tx0 = tx) as -> by congruence.
  rewrite /put_key /createBucket in Hput. exists tx2.
  assert (∃ tx3, Bucket_Put (selected_path c) (str_bytes group) (str_bytes selected) tx3 = Ok tx1 ∧ nested (content tx3) ∧ is_Some (content tx3 !! selected_path c) ∧
    ∀ p k, get (content tx3) p k = get (content tx) p k) as (tx3 & Hp & Hn3 & Hs3 & Hg3).
  { rewrite /selected_path /bucket_path. destruct (cacheID c) as [id|]; invert_ok.
    - match goal with H1 : CreateBucketIfNotExists [] _ _ = _, H2 : CreateBucketIfNotExists [id] _ _ = _ |- _ =>
        destruct (createBucket_spec _ _ _ _ H1 Hn) as (Hn1 & Hs1 & Hg1); [done|]; destruct (createBucket_spec _ _ _ _ H2 Hn1) as (Hn2 & Hs2 & Hg2); [by intros _|] end.
      eexists. split; [done|]. split; [done|]. split; [done|]. intros p k. by rewrite Hg2 Hg1.
    - match goal with H1 : CreateBucketIfNotExists [] _ _ = _ |- _ => destruct (createBucket_spec _ _ _ _ H1 Hn) as (Hn1 & Hs1 & Hg1); [done|] end. eauto. }
  split; [split_and!|split].
  - by destruct c.
  - by destruct c.
  - rewrite Hc (Bucket_Put_law _ _ _ _ _ Hp). apply nested_insert; [done|]. intros q k Hq Hne. eapply (nested_prefix (content tx3) q [k]); [done|done|by rewrite -Hq].
  - by destruct c.
  - intros p k. rewrite Hc (get_Put _ _ _ _ _ _ _ Hp) Hg3. done.
Qed.

Lemma LoadSelected_spec group c tx : opened c tx →
  LoadSelected group c = (bytes_str (default [] (get (content tx) (selected_path c) (str_bytes group))), c).
Proof using BL BT.
  intros (Hr & Hd & Hn). rewrite /LoadSelected /view Hr Hd.
  pose proof (read_key_reads bucketSelected (str_bytes group) c tx Hn) as Hread.
  assert (is_ok (read_key bucketSelected (str_bytes group) c tx) = true) as Hok.
  { rewrite /read_key /cf_bucket. destruct (cacheID c) as [id|];
      repeat (match goal with |- context [Tx_Bucket ?p tx] => pose proof (Tx_Bucket_total p tx); destruct (Tx_Bucket p tx) as [[]| |] end;
        try done; cbv [mbind result_bind]; cbv beta iota); apply Bucket_Get_total. }
  destruct (read_key bucketSelected (str_bytes group) c tx) as [v| |]; [|done..]. cbn in Hread. by subst v.
Qed.

(** A choice made for one of the selectors that share a cache file; a choice that
    cannot be stored ends the run. *)
Definition choose (st : gmap string Selector * CacheFile) (x : string * string) : option (gmap string Selector * CacheFile) :=
  let '(ss, c) := st in
  match ss !! x.1 with
  | None => Some (ss, c)
  | Some s =>
      let '(_, s', selected) := SelectOutbound x.2 s in
      match selected with
      | None => Some (<[x.1 := s']> ss, c)
      | Some tag => match StoreSelected (s_tag s) tag c with (None, c') => Some (<[x.1 := s']> ss, c') | (Some _, _) => None end
      end
  end.
Fixpoint chooseAll (st : gmap string Selector * CacheFile) (l : list (string * string)) : option (gmap string Selector * CacheFile) :=
  match l with [] => Some st | x :: l => st ← choose st x; chooseAll st l end.

(** A selector as it is before [Start]. *)
Definition fresh (s : Selector) : Selector := mkSelector (s_tag s) (s_tags s) (s_defaultTag s) ∅ None.
Definition restarted (known : string → bool) (c : CacheFile) (s : Selector) : option goerr * Selector :=
  Selector_Start known (Some (LoadSelected (s_tag s) c).1) (fresh s).

(** The selectors are started, each under its name, which is not empty, as its
    tags are not; and each is what a restart would make of it. *)
Definition restorable (known : string → bool) (ss : gmap string Selector) (c : CacheFile) : Prop :=
  ∀ name s, ss !! name = Some s → s_tag s = name ∧ name ≠ EmptyString ∧ (∀ t, t ∈ s_tags s → t ≠ EmptyString) ∧ restarted known c s = (None, s).

Lemma restarted_all known c s s' : restarted known c s = (None, s') → s_outbounds s' = list_to_set (s_tags s) ∧ list_find (λ t, known t = false) (s_tags s) = None.
Proof.
  rewrite /restarted /Selector_Start /=. destruct (list_find (λ t, known t = false) (s_tags s)) as [[i t]|]; [done|].
  intros H. split; [|done]. revert H. repeat case_match; intros [=]; subst; cbn; set_solver.
Qed.

Lemma SelectOutbound_stored tag s ok s' v : SelectOutbound tag s = (ok, s', v) → s_tag s ≠ EmptyString →
  (s' = s ∧ v = None) ∨ (tag ∈ s_outbounds s ∧ s' = mkSelector (s_tag s) (s_tags s) (s_defaultTag s) (s_outbounds s) (Some tag) ∧ v = Some tag).
Proof.
  rewrite /SelectOutbound. intros H Hne%String.eqb_neq. revert H. rewrite Hne. repeat case_bool_decide; intros [= <- <- <-]; cbn; auto.
Qed.

Lemma choose_restorable known ss c tx x ss' c' :
  opened c tx → restorable known ss c → choose (ss, c) x = Some (ss', c') → (∃ tx', opened c' tx') ∧ restorable known ss' c'.
Proof using BL BT.
  intros Hop Hr. rewrite /choose. destruct (ss !! x.1) as [s|] eqn:Hs; [|intros [= <- <-]; eauto].
  destruct (Hr _ _ Hs) as (Htag & Hne & Htags & Hre). destruct (SelectOutbound x.2 s) as [[ok s'] v] eqn:Hsel.
  rewrite -Htag in Hne. destruct (SelectOutbound_stored _ _ _ _ _ Hsel Hne) as [[-> ->]|(Hin & -> & ->)].
  { intros [= <- <-]. rewrite insert_id //. eauto. }
  destruct (StoreSelected (s_tag s) x.2 c) as [[e|] c1] eqn:Hst; [done|]. intros [= <- <-].
  destruct (StoreSelected_spec _ _ _ _ _ Hop Hst) as (tx' & Hop' & Hpath & Hget). split; [eauto|].
  destruct (restarted_all _ _ _ _ Hre) as [Hout Hknown].
  assert (x.2 ≠ EmptyString) as Hx by (apply Htags; rewrite Hout elem_of_list_to_set in Hin; done).
  intros name s0. destruct (decide (name = x.1)) as [->|Hnx].
  - rewrite lookup_insert_eq. intros [= <-]. split_and!; [done|by rewrite -Htag|done|].
    rewrite /restarted /Selector_Start. cbn [fresh s_tag s_tags s_defaultTag s_outbounds s_selected]. rewrite Hknown (LoadSelected_spec _ _ _ Hop') Hpath Hget bool_decide_true //. cbn [default fst].
    rewrite bytes_str_bytes. apply String.eqb_neq in Hne as ->. apply String.eqb_neq in Hx as ->. rewrite Hout in Hin.
    rewrite (union_empty_l_L (list_to_set (s_tags s) : gset string)) (bool_decide_true _ Hin) Hout. done.
  - rewrite lookup_insert_ne //. intros Hs0. destruct (Hr _ _ Hs0) as (Htag0 & Hne0 & Htags0 & Hre0). split_and!; [done|done|done|].
    rewrite -Hre0 /restarted. do 2 f_equal. rewrite (LoadSelected_spec _ _ _ Hop') (LoadSelected_spec _ _ _ Hop) Hpath Hget bool_decide_false //.
    intros [_ He%str_bytes_inj]. congruence.
Qed.
End selectors.

(** C17: selections survive a restart.  Selectors that share a cache file are
    started from it; after any choices made for any of them, as long as each is
    stored, starting every selector anew from the file gives each the outbound it
    had selected: the choices of one do not disturb the others. *)
Theorem selectors_restored {B : Bolt} {BL : BoltLaws B} {BT : BoltTotal B} known ss c tx l ss' c' :
  opened c tx → restorable known ss c → chooseAll (ss, c) l = Some (ss', c') →
  ∀ name s, ss' !! name = Some s → restarted known c' s = (None, s).
Proof.
  intros Hop Hr Hl. enough (restorable known ss' c') as Hr' by (intros name s Hs; apply (Hr' name s Hs)).
  revert ss c tx Hop Hr Hl. induction l as [|x l IH]; intros ss c tx Hop Hr; cbn [chooseAll]; [by intros [= <- <-]|].
  destruct (choose (ss, c) x) as [[ss1 c1]|] eqn:Hc; [|done]. cbn. destruct (choose_restorable _ _ _ _ _ _ _ Hop Hr Hc) as [[tx1 Hop1] Hr1]. by eapply IH.
Qed.

Definition demo_selector (tag : string) (tags : list string) : Selector := mkSelector tag tags "" (list_to_set tags) (head tags).
Definition demo_selectors : gmap string Selector :=
  {["x" := demo_selector "x" ["a"; "b"]; "y" := demo_selector "y" ["b"; "c"]]}%string.

Lemma selectors_restored_witness :
  match chooseAll (demo_selectors, demo_cache) [("x", "b"); ("y", "c"); ("x", "q")]%string with
  | Some (ss', c') => (s_selected <$> ss' !! "x"%string) = Some (Some "b"%string) ∧ ∀ name s, ss' !! name = Some s → restarted (λ _, true) c' s = (None, s)
  | None => False
  end.
Proof.
  destruct (chooseAll (demo_selectors, demo_cache) [("x", "b"); ("y", "c"); ("x", "q")]%string) as [[ss' c']|] eqn:Hl.
  2: { assert (isSome (chooseAll (demo_selectors, demo_cache) [("x", "b"); ("y", "c"); ("x", "q")]%string) = true) as H by (vm_compute; reflexivity). by rewrite Hl in H. }
  split.
  - assert (∀ z, chooseAll (demo_selectors, demo_cache) [("x", "b"); ("y", "c"); ("x", "q")]%string = z →
      match z with Some (ss, _) => (s_selected <$> ss !! "x"%string) = Some (Some "b"%string) | None => True end) as H by (intros z <-; vm_compute; reflexivity).
    exact (H _ Hl).
  - apply (@selectors_restored MapBolt MapBolt_laws MapBolt_total (λ _, true) demo_selectors demo_cache ∅ [("x", "b"); ("y", "c"); ("x", "q")]%string ss' c').
    + exact demo_opened.
    + intros name s Hs. rewrite /demo_selectors in Hs. apply lookup_insert_Some in Hs as [[<- <-]|[_ [<- <-]%lookup_singleton_Some]]; (split; [done|]); (split; [done|]);
        (split; [|vm_compute; reflexivity]); intros t [->|[->|[]%elem_of_nil]%elem_of_cons]%elem_of_cons; done.
    + exact Hl.
Defined.
