(* ===== verification/DnsRouter.v ===== *)
(** The DNS router ([dns/router.go]): which server is asked, and which response
    is given.

    Rules are walked in order.  An [evaluate] rule starts an exchange without
    waiting for it (a future); a rule that looks at a response waits for the
    futures it is bound to, unless it is a [race] rule, which is armed instead and
    commits as soon as its futures are there.  In the legacy mode rules are
    pre-matched and the response of an address-limited rule is checked.

    The DNS client is a parameter: [ask] is what an exchange with a server under
    given options comes to.  A future is known by its place in the list of
    futures; the set of the futures that have come to an end is an argument
    wherever the code looks at them. *)

From S2P Require Import Prelude GoBytes GoSlices GoStrings Netip Metadata RuleItems RuleAction RuleMatch DnsMessage DnsClient.

Definition DNSTypeFakeIP : string := "fakeip".

(** [adapter.DNSTransport] and the [DNSTransportManager], as the router uses them. *)
Record Transport : Type := mkTransport { t_Tag : string; t_Type : string }.
Record TransportManager : Type := mkManager { tm_Transport : string → option Transport; tm_Default : Transport }.

Definition isFakeIP (t : Transport) : bool := String.eqb (t_Type t) DNSTypeFakeIP.

(** [C.DomainStrategy] of an action. *)
Definition strategyOf (s : Z) : DomainStrategy :=
  if s =? 1 then PreferIPv4 else if s =? 2 then PreferIPv6 else if s =? 3 then IPv4Only else if s =? 4 then IPv6Only else AsIS.

(** [adapter.DNSQueryOptions{}]. *)
Definition noOptions : DNSQueryOptions := mkQueryOptions AsIS AsIS false false None 0 PrefixZero false.

(** [func (r *Router) applyDNSRouteOptions(options, routeOptions)]. *)
Definition applyDNSRouteOptions (o : DNSQueryOptions) (r : RuleActionDNSRouteOptions) : DNSQueryOptions :=
  match o with mkQueryOptions strategy lookup dc doc ttl timeout subnet remove =>
    let '(subnet, remove) := if Prefix_IsValid (dr_ClientSubnet r) then (dr_ClientSubnet r, false) else (subnet, remove) in
    let '(subnet, remove) := if dr_RemoveClientSubnet r then (PrefixZero, true) else (subnet, remove) in
    mkQueryOptions strategy lookup (dr_DisableCache r || dc) (dr_DisableOptimisticCache r || doc)
      (match dr_RewriteTTL r with Some t => Some t | None => ttl end)
      (if 0 <? dr_Timeout r then dr_Timeout r else timeout) subnet remove
  end.

(** The options a rule sets in [matchDNS]: with the strategy, and without
    [disable_optimistic_cache]. *)
Definition set_Strategy (s : DomainStrategy) (o : DNSQueryOptions) : DNSQueryOptions :=
  match o with mkQueryOptions _ b c d e f g h => mkQueryOptions s b c d e f g h end.
Definition legacyOptions (r : RuleActionDNSRouteOptions) (o : DNSQueryOptions) : DNSQueryOptions :=
  let o := if bool_decide (strategyOf (dr_Strategy r) = AsIS) then o else set_Strategy (strategyOf (dr_Strategy r)) o in
  applyDNSRouteOptions o (mkDNSOptions (dr_Strategy r) (dr_Timeout r) (dr_DisableCache r) false (dr_RewriteTTL r) (dr_ClientSubnet r) (dr_RemoveClientSubnet r)).

(** What an exchange gives back: the message of a server, or a response made up
    by a rule. *)
Inductive response : Type :=
| FromServer (m : Message)
| Refused                                                    (* dnsRefusedResponse *)
| Predefined (rcode : Z) (answer ns extra : list RR).        (* RuleActionPredefined.Response *)

Record exchangeWithRulesResult : Type := mkResult {
  er_response : option response;
  er_transport : option Transport;
  er_rejectAction : option RuleActionReject;
  er_err : option goerr
}.

(** [strings.HasSuffix(s, suffix)]. *)
Definition HasSuffix (s suffix : string) : bool :=
  String.eqb (String.substring (String.length s - String.length suffix) (String.length suffix) s) suffix.

(** [func rewriteRecords(records, question) []dns.RR]; a nil record panics. *)
Definition RR_Name (r : RR) : string := match r with RR_A n _ | RR_AAAA n _ | RR_HTTPS n _ | RR_Other n _ => n end.
Definition RR_setName (n : string) (r : RR) : RR :=
  match r with RR_A _ ip => RR_A n ip | RR_AAAA _ ip => RR_AAAA n ip | RR_HTTPS _ v => RR_HTTPS n v | RR_Other _ d => RR_Other n d end.
Definition rewriteRecord (question : string) (r : RR) : RR :=
  match RR_Name r with
  | String "*" suffix => if HasSuffix question suffix then RR_setName question r else r
  | _ => r
  end.
Fixpoint rewriteRecords (question : string) (l : list (option RR)) : result (list RR) :=
  match l with
  | [] => Ok []
  | None :: _ => Panic "nil record"
  | Some r :: l => rest ← rewriteRecords question l; Ok (rewriteRecord question r :: rest)
  end.
Definition Predefined_Response (question : string) (rcode : Z) (answer ns extra : list (option RR)) : result response :=
  answer ← rewriteRecords question answer;
  ns ← rewriteRecords question ns;
  extra ← rewriteRecords question extra;
  Ok (Predefined rcode answer ns extra).

(** [rule.Race()] and [rule.MatchResponseTag()]. *)
Definition Race {EX : External} (r : Rule) : bool :=
  match r with DefaultDNSRule _ _ _ race | LogicalDNSRule _ _ _ race => race | _ => false end.
Definition MatchResponseTag {EX : External} (r : Rule) : string :=
  match r with DefaultDNSRule _ _ tag _ => tag | _ => EmptyString end.
Definition hasBindings {EX : External} (r : Rule) : bool := nonempty (MatchResponseTags r) || MatchResponseAnonymous r.

(** [metadata.DNSResponse = ...; metadata.NamedDNSResponses = ...;
    metadata.DestinationAddressMatchFromResponse = false]. *)
Definition set_responses (anonymous : option Msg) (named : gmap string Msg) (m : InboundContext) : InboundContext :=
  match m with mkContext a b c d e f g h i j k _ _ _ p q r s t u w =>
    mkContext a b c d e f g h i j k anonymous named false p q r s t u w end.
Definition set_fromResponse (v : bool) (m : InboundContext) : InboundContext :=
  match m with mkContext a b c d e f g h i j k l n _ p q r s t u w =>
    mkContext a b c d e f g h i j k l n v p q r s t u w end.

Definition dnsRespondMissingResponse : goerr := ErrNew "respond action requires an evaluated response from a preceding evaluate action".
Definition ErrDrop : goerr := ErrNew "drop".

(** ** The walk *)

Inductive dnsRouteStatus : Type := RouteMissing | RouteSkipped | RouteResolved (t : Transport) (o : DNSQueryOptions).

(** [dnsEvaluatedFuture]: the exchange it waits for. *)
Record dnsEvaluatedFuture : Type := mkFuture {
  fu_tag : string;
  fu_transport : Transport;
  fu_options : DNSQueryOptions;
  fu_settled : bool
}.

Section router.
Context {EX : External} (rt : Runtime) (tm : TransportManager) (defaultDomainStrategy : DomainStrategy).
(** What an exchange with a server comes to. *)
Context (ask : Transport → DNSQueryOptions → Message + goerr).
(** The name of the question, and whether a server of fake addresses may answer. *)
Context (question : string) (allowFakeIP : bool).

(** [func (r *Router) resolveDNSRoute(server, routeOptions, allowFakeIP, options)]. *)
Definition resolveDNSRoute (server : string) (r : RuleActionDNSRouteOptions) (o : DNSQueryOptions) : dnsRouteStatus :=
  match tm_Transport tm server with
  | None => RouteMissing
  | Some t =>
      if isFakeIP t && negb allowFakeIP then RouteSkipped
      else let o := applyDNSRouteOptions o r in RouteResolved t (if isFakeIP t then set_DisableCache o else o)
  end.

(** [func (r *Router) finalizeExchangeOptions(options)]. *)
Definition finalizeExchangeOptions (o : DNSQueryOptions) : DNSQueryOptions :=
  if bool_decide (qo_Strategy o = AsIS) then set_Strategy defaultDomainStrategy o else o.

Record dnsArmedRule : Type := mkArmed {
  ar_rule : Rule;
  ar_futures : list nat;
  ar_anonymous : option nat;
  ar_bindsAnonymous : bool;
  ar_options : DNSQueryOptions
}.

(** [dnsPendingExchange] and [dnsWalkSuspension]. *)
Record dnsPendingExchange : Type := mkPending { pe_transport : Transport; pe_options : DNSQueryOptions; pe_future : option nat }.
Inductive dnsWalkSuspension : Type := Await (f : nat) | Drain | Pending (p : dnsPendingExchange).

(** [dnsRuleWalkState], with the metadata of the context. *)
Record dnsRuleWalkState : Type := mkWalk {
  ws_ruleIndex : nat;
  ws_options : DNSQueryOptions;
  ws_anonymous : option nat;
  ws_namedFutures : gmap string nat;
  ws_namedResponses : gmap string Message;
  ws_namedTransports : gmap string Transport;
  ws_futures : list dnsEvaluatedFuture;
  ws_armed : list dnsArmedRule;
  ws_terminal : option (nat * nat);                          (* terminalFuture, terminalIndex *)
  ws_metadata : InboundContext
}.

Definition set_ruleIndex (v : nat) (s : dnsRuleWalkState) : dnsRuleWalkState :=
  match s with mkWalk _ b c d e f g h i j => mkWalk v b c d e f g h i j end.
Definition set_ws_options (v : DNSQueryOptions) (s : dnsRuleWalkState) : dnsRuleWalkState :=
  match s with mkWalk a _ c d e f g h i j => mkWalk a v c d e f g h i j end.
Definition set_anonymous (v : option nat) (s : dnsRuleWalkState) : dnsRuleWalkState :=
  match s with mkWalk a b _ d e f g h i j => mkWalk a b v d e f g h i j end.
Definition set_namedFutures (v : gmap string nat) (s : dnsRuleWalkState) : dnsRuleWalkState :=
  match s with mkWalk a b c _ e f g h i j => mkWalk a b c v e f g h i j end.
Definition set_settled (named : gmap string Message) (transports : gmap string Transport) (futures : list dnsEvaluatedFuture) (s : dnsRuleWalkState) : dnsRuleWalkState :=
  match s with mkWalk a b c d _ _ _ h i j => mkWalk a b c d named transports futures h i j end.
Definition set_armed (v : list dnsArmedRule) (s : dnsRuleWalkState) : dnsRuleWalkState :=
  match s with mkWalk a b c d e f g _ i j => mkWalk a b c d e f g v i j end.
Definition set_terminal (v : option (nat * nat)) (s : dnsRuleWalkState) : dnsRuleWalkState :=
  match s with mkWalk a b c d e f g h _ j => mkWalk a b c d e f g h v j end.
Definition set_ws_metadata (v : InboundContext) (s : dnsRuleWalkState) : dnsRuleWalkState :=
  match s with mkWalk a b c d e f g h i _ => mkWalk a b c d e f g h i v end.

(** [future.view()], when the futures of [done] have ended. *)
Definition futureAnswer (s : dnsRuleWalkState) (f : nat) : option Message :=
  match ws_futures s !! f with
  | Some fu => match ask (fu_transport fu) (fu_options fu) with inl m => Some m | inr _ => None end
  | None => None
  end.
Definition view (done : gset nat) (s : dnsRuleWalkState) (f : nat) : option Message :=
  if bool_decide (f ∈ done) then futureAnswer s f else None.
Definition anonymousResponse (done : gset nat) (s : dnsRuleWalkState) : option Message := ws_anonymous s ≫= view done s.
Definition transportOf (s : dnsRuleWalkState) (f : nat) : option Transport := fu_transport <$> ws_futures s !! f.

(** [func (r *Router) launchDNSEvaluate(...)]. *)
Definition launchDNSEvaluate (tag : string) (t : Transport) (o : DNSQueryOptions) (s : dnsRuleWalkState) : nat * dnsRuleWalkState :=
  (length (ws_futures s),
   set_settled (ws_namedResponses s) (ws_namedTransports s) (ws_futures s ++ [mkFuture tag t (finalizeExchangeOptions o) false]) s).

(** One future of [settleDNSFutures]; a response that is nil reads like none. *)
Definition settleOne (done : gset nat) (s : dnsRuleWalkState) (f : nat) : dnsRuleWalkState :=
  match ws_futures s !! f with
  | Some fu =>
      if fu_settled fu || negb (bool_decide (f ∈ done)) then s
      else
        let futures := <[f := mkFuture (fu_tag fu) (fu_transport fu) (fu_options fu) true]> (ws_futures s) in
        if String.eqb (fu_tag fu) "" then set_settled (ws_namedResponses s) (ws_namedTransports s) futures s
        else set_settled (partial_alter (λ _, view done s f) (fu_tag fu) (ws_namedResponses s)) (<[fu_tag fu := fu_transport fu]> (ws_namedTransports s)) futures s
  | None => s
  end.
Definition settleDNSFutures (done : gset nat) (s : dnsRuleWalkState) : dnsRuleWalkState :=
  fold_left (settleOne done) (seq 0 (length (ws_futures s))) s.

(** The matching of a rule against the responses that are there. *)
Definition matchWith (anonymous : option Message) (r : Rule) (s : dnsRuleWalkState) : bool * dnsRuleWalkState :=
  let m := set_responses (view_msg <$> anonymous) (view_msg <$> ws_namedResponses s) (ResetRuleCache (ws_metadata s)) in
  let '(b, m) := Match rt r m in (b, set_ws_metadata m s).

Definition failed (e : goerr) : exchangeWithRulesResult := mkResult None None None (Some e).
Definition responded (x : option (Message * option Transport)) : exchangeWithRulesResult :=
  match x with
  | Some (m, t) => mkResult (Some (FromServer m)) t None None
  | None => failed dnsRespondMissingResponse
  end.

(** The actions that end the walk with a response of their own. *)
Definition rejected (a : RuleActionReject) : option exchangeWithRulesResult :=
  if String.eqb (rj_Method a) "default" then Some (mkResult (Some Refused) None (Some a) None)
  else if String.eqb (rj_Method a) "drop" then Some (mkResult None None (Some a) (Some ErrDrop))
  else None.
Definition predefined (rcode : Z) (answer ns extra : list (option RR)) : exchangeWithRulesResult + string :=
  match Predefined_Response question rcode answer ns extra with
  | Ok x => inl (mkResult (Some x) None None None)
  | Err e => inl (failed e)
  | Panic p => inr p
  end.

(** How a walk or a sweep ends: with a result, with an exchange still to be made,
    or with a panic. *)
Inductive ending : Type := Answer_ (r : exchangeWithRulesResult) | Pends (p : dnsPendingExchange) | Panicked (p : string).

Definition predefinedEnding (rcode : Z) (answer ns extra : list (option RR)) : ending :=
  match predefined rcode answer ns extra with inl x => Answer_ x | inr p => Panicked p end.

(** The action of an armed rule that matches. *)
Definition armedEnding (done : gset nat) (a : dnsArmedRule) (s : dnsRuleWalkState) : option ending :=
  match Rule_Action (ar_rule a) with
  | Some RuleActionRespond =>
      let tag := MatchResponseTag (ar_rule a) in
      Some (Answer_ (responded
        (if negb (String.eqb tag "") then (λ m, (m, ws_namedTransports s !! tag)) <$> ws_namedResponses s !! tag
         else match ar_anonymous a with
           | Some f => (λ m, (m, transportOf s f)) <$> view done s f
           | None => ws_anonymous s ≫= λ f, (λ m, (m, transportOf s f)) <$> view done s f
           end)))
  | Some (RuleActionDNSRoute server _ o) =>
      match resolveDNSRoute server o (ar_options a) with
      | RouteResolved t o => Some (Pends (mkPending t o None))
      | _ => None
      end
  | Some (RuleActionReject_ a) => Answer_ <$> rejected a
  | Some (RuleActionPredefined rcode answer ns extra) => Some (predefinedEnding rcode answer ns extra)
  | _ => None
  end.

(** [func (r *Router) sweepArmedDNSRules(...)]: the armed rules that are kept, and
    those still to be looked at. *)
Fixpoint sweepLoop (done : gset nat) (kept armed : list dnsArmedRule) (s : dnsRuleWalkState) : option ending * dnsRuleWalkState :=
  match armed with
  | [] => (None, set_armed kept s)
  | a :: armed =>
      if negb (forallb (λ f, bool_decide (f ∈ done)) (ar_futures a)) then sweepLoop done (kept ++ [a]) armed s
      else
        let anonymous := if ar_bindsAnonymous a then ar_anonymous a ≫= view done s else anonymousResponse done s in
        let '(matched, s) := matchWith anonymous (ar_rule a) s in
        match (if matched then armedEnding done a s else None) with
        | Some e => (Some e, set_armed (kept ++ armed) s)
        | None => sweepLoop done kept armed s
        end
  end.
Definition sweepArmedDNSRules (done : gset nat) (s : dnsRuleWalkState) : option ending * dnsRuleWalkState := sweepLoop done [] (ws_armed s) s.

(** The futures a rule is bound to that have not ended. *)
Definition unresolved (done : gset nat) (f : option nat) : list nat :=
  match f with Some f => if bool_decide (f ∈ done) then [] else [f] | None => [] end.
Definition boundFutures (done : gset nat) (r : Rule) (s : dnsRuleWalkState) : list nat :=
  (MatchResponseTags r ≫= λ tag, unresolved done (ws_namedFutures s !! tag)) ++
  (if MatchResponseAnonymous r then unresolved done (ws_anonymous s) else []).

(** What one rule does to the walk. *)
Inductive walkMove : Type := Next (s : dnsRuleWalkState) | Stop (e : ending) (s : dnsRuleWalkState) | Suspend (x : dnsWalkSuspension) (s : dnsRuleWalkState).

(** Ends the walk, unless rules are armed. *)
Definition unlessArmed (s : dnsRuleWalkState) (k : walkMove) : walkMove := if nonempty (ws_armed s) then Suspend Drain s else k.

Definition walkAction (done : gset nat) (r : Rule) (s : dnsRuleWalkState) : walkMove :=
  match Rule_Action r with
  | Some (RuleActionDNSRouteOptions_ o) => Next (set_ws_options (applyDNSRouteOptions (ws_options s) o) s)
  | Some (RuleActionEvaluate server tag speculative o) =>
      match tm_Transport tm server with
      | None => Next (if String.eqb tag "" then set_anonymous None s else s)
      | Some t =>
          if negb speculative && nonempty (ws_armed s) then Suspend Drain s
          else
            let '(f, s) := launchDNSEvaluate tag t (applyDNSRouteOptions (ws_options s) o) s in
            Next (if String.eqb tag "" then set_anonymous (Some f) s else set_namedFutures (<[tag := f]> (ws_namedFutures s)) s)
      end
  | Some RuleActionRespond =>
      unlessArmed s (
        let tag := MatchResponseTag r in
        if negb (String.eqb tag "") then
          Stop (Answer_ (responded ((λ m, (m, ws_namedTransports s !! tag)) <$> ws_namedResponses s !! tag))) s
        else
          match (if hasBindings r then [] else unresolved done (ws_anonymous s)) with
          | f :: _ => Suspend (Await f) s
          | [] => Stop (Answer_ (responded (ws_anonymous s ≫= λ f, (λ m, (m, transportOf s f)) <$> view done s f))) s
          end)
  | Some (RuleActionDNSRoute server speculative o) =>
      match resolveDNSRoute server o (ws_options s) with
      | RouteMissing | RouteSkipped => Next s
      | RouteResolved t o =>
          if nonempty (ws_armed s) then
            match speculative, ws_terminal s with
            | true, None => let '(f, s) := launchDNSEvaluate "" t o s in Suspend Drain (set_terminal (Some (f, ws_ruleIndex s)) s)
            | _, _ => Suspend Drain s
            end
          else
            match ws_terminal s with
            | Some (f, i) =>
                if Nat.eqb i (ws_ruleIndex s) then Suspend (Pending (mkPending (default t (transportOf s f)) noOptions (Some f))) s
                else Suspend (Pending (mkPending t o None)) s
            | None => Suspend (Pending (mkPending t o None)) s
            end
      end
  | Some (RuleActionReject_ a) =>
      unlessArmed s (match rejected a with Some x => Stop (Answer_ x) s | None => Next s end)
  | Some (RuleActionPredefined rcode answer ns extra) => unlessArmed s (Stop (predefinedEnding rcode answer ns extra) s)
  | _ => Next s
  end.

(** One round of the loop of [walkDNSRules]; [settling] have ended when the
    futures are settled, [done] when they are looked at. *)
Definition walkRule (settling done : gset nat) (r : Rule) (s : dnsRuleWalkState) : walkMove :=
  let go s :=
    let '(matched, s) := matchWith (anonymousResponse done s) r s in
    if matched then walkAction done r s else Next s in
  if negb (hasBindings r) then go s
  else
    let s := settleDNSFutures settling s in
    let pending := boundFutures done r s in
    if Race r then
      let anonymous := if MatchResponseAnonymous r then ws_anonymous s else None in
      let s := set_armed (ws_armed s ++ [mkArmed r pending anonymous (MatchResponseAnonymous r) (ws_options s)]) s in
      if nonempty pending then Next s
      else match sweepArmedDNSRules done s with
        | (Some (Pends p), s) => Suspend (Pending p) (set_armed [] s)
        | (Some e, s) => Stop e s
        | (None, s) => Next s
        end
    else match pending with
      | f :: _ => Suspend (Await f) s
      | [] => go s
      end.

(** [func (r *Router) walkDNSRules(...)], over the rules from [ruleIndex] on;
    [settling] and [done] by the index of the rule. *)
Fixpoint walkLoop (settling done : nat → gset nat) (rules : list Rule) (s : dnsRuleWalkState) : walkMove :=
  match rules with
  | [] => unlessArmed s (Suspend (Pending (mkPending (tm_Default tm) (ws_options s) None)) s)
  | r :: rules =>
      match walkRule (settling (ws_ruleIndex s)) (done (ws_ruleIndex s)) r s with
      | Next s => walkLoop settling done rules (set_ruleIndex (S (ws_ruleIndex s)) s)
      | x => x
      end
  end.
Definition walkDNSRules (settling done : nat → gset nat) (rules : list Rule) (s : dnsRuleWalkState) : walkMove :=
  walkLoop settling done (drop (ws_ruleIndex s) rules) s.

(** ** The exchange *)

(** Where an exchange is: in the loop of [resumeExchangeWithRules], waiting to be
    woken, waiting for its last exchange, or at its end. *)
Inductive exchangeState : Type :=
| Looping (x : dnsWalkSuspension) (s : dnsRuleWalkState)
| Waiting (x : dnsWalkSuspension) (s : dnsRuleWalkState)
| Finishing (p : dnsPendingExchange) (s : dnsRuleWalkState)
| Finished (r : exchangeWithRulesResult)
| Crashed (p : string).

Definition ended (e : ending) (s : dnsRuleWalkState) : exchangeState :=
  match e with Answer_ r => Finished r | Pends p => Finishing p s | Panicked p => Crashed p end.

(** [func (r *Router) exchangeWithRules(...)] and [exchangeWithRulesAsync(...)], up
    to the first suspension; the latter goes on at once with an exchange that has
    not been launched. *)
Definition walked (w : walkMove) : exchangeState :=
  match w with Next s => Looping Drain s | Stop e s => ended e s | Suspend x s => Looping x s end.
Definition initialWalk (options : DNSQueryOptions) (m : InboundContext) : dnsRuleWalkState :=
  mkWalk 0 options None ∅ ∅ ∅ [] [] None m.
Definition exchangeWithRules (settling done : nat → gset nat) (rules : list Rule) (options : DNSQueryOptions) (m : InboundContext) : exchangeState :=
  walked (walkDNSRules settling done rules (initialWalk options m)).
Definition exchangeWithRulesAsync (settling done : nat → gset nat) (rules : list Rule) (options : DNSQueryOptions) (m : InboundContext) : exchangeState :=
  match walkDNSRules settling done rules (initialWalk options m) with
  | Suspend (Pending (mkPending t o None)) s => Finishing (mkPending t o None) s
  | w => walked w
  end.

(** What has ended when the loop of [resumeExchangeWithRules] settles the futures
    and when it looks at them, and the same, by rule, for the walk that may
    follow. *)
Record round : Type := mkRound { rd_settling : gset nat; rd_done : gset nat; rd_settling' : nat → gset nat; rd_done' : nat → gset nat }.

(** One round of the loop of [resumeExchangeWithRules]. *)
Definition resumeRound (rd : round) (rules : list Rule) (x : dnsWalkSuspension) (s : dnsRuleWalkState) : exchangeState :=
  let s := settleDNSFutures (rd_settling rd) s in
  match sweepArmedDNSRules (rd_done rd) s with
  | (Some e, s) => ended e s
  | (None, s) =>
      let walk := walked (walkDNSRules (rd_settling' rd) (rd_done' rd) rules s) in
      match x with
      | Pending p => Finishing p s
      | Await f => if bool_decide (f ∈ rd_done rd) then walk else Waiting x s
      | Drain => if nonempty (ws_armed s) then Waiting x s else walk
      end
  end.

(** [func (r *Router) finishPendingExchange(...)], when its future has ended. *)
Definition exchanged (t : Transport) (o : DNSQueryOptions) : exchangeWithRulesResult :=
  match ask t o with
  | inl m => mkResult (Some (FromServer m)) (Some t) None None
  | inr e => mkResult None (Some t) None (Some e)
  end.
Definition finishPendingExchange (p : dnsPendingExchange) (s : dnsRuleWalkState) : exchangeWithRulesResult :=
  match pe_future p with
  | Some f => match ws_futures s !! f with Some fu => exchanged (fu_transport fu) (fu_options fu) | None => failed (ErrExternal "no future") end
  | None => exchanged (pe_transport p) (finalizeExchangeOptions (pe_options p))
  end.

(** An exchange and the futures that end while it goes on; [wake] is the token of
    the channel. *)
Record exchangeRun : Type := mkRun { x_done : gset nat; x_wake : bool; x_state : exchangeState }.
Definition started (options : DNSQueryOptions) (m : InboundContext) : exchangeRun := mkRun ∅ false (Looping Drain (initialWalk options m)).

(** The futures that may still end. *)
Definition launched (c : exchangeState) : nat :=
  match c with Looping _ s | Waiting _ s | Finishing _ s => length (ws_futures s) | _ => 0%nat end.
Definition final (c : exchangeState) : bool := match c with Finished _ | Crashed _ => true | _ => false end.

(** A round goes on while the futures that have ended grow from [d] to [d']. *)
Definition during (d d' : gset nat) (rd : round) : Prop :=
  d ⊆ rd_settling rd ∧ rd_settling rd ⊆ rd_done rd ∧ rd_done rd ⊆ d' ∧
  ∀ i, rd_done rd ⊆ rd_settling' rd i ∧ rd_settling' rd i ⊆ rd_done' rd i ∧ rd_done' rd i ⊆ d' ∧
    ∀ j, (i < j)%nat → rd_done' rd i ⊆ rd_settling' rd j.
(** No future ends between the settling and the looking. *)
Definition unbroken (rd : round) : Prop := rd_settling rd = rd_done rd ∧ ∀ i, rd_settling' rd i = rd_done' rd i.

(** The rounds of the loop are those of [allowed]: every one, or only those in
    which no future ends between the settling and the looking. *)
Definition any_round (rd : round) : Prop := True.
Inductive exchange_step (allowed : round → Prop) (rules : list Rule) : exchangeRun → exchangeRun → Prop :=
| step_ends f d w c : (f < launched c)%nat → f ∉ d → exchange_step allowed rules (mkRun d w c) (mkRun ({[f]} ∪ d) true c)
| step_loops d d' w w' rd x s :
    during d d' rd → allowed rd →
    (∀ f, f ∈ d' → f ∈ d ∨ (f < launched (resumeRound rd rules x s))%nat ∨ final (resumeRound rd rules x s) = true) →
    w' = w || negb (bool_decide (d' = d)) →
    exchange_step allowed rules (mkRun d w (Looping x s)) (mkRun d' w' (resumeRound rd rules x s))
| step_wakes d x s : exchange_step allowed rules (mkRun d true (Waiting x s)) (mkRun d false (Looping x s))
| step_finishes d w p s : (∀ f, pe_future p = Some f → f ∈ d) →
    exchange_step allowed rules (mkRun d w (Finishing p s)) (mkRun d w (Finished (finishPendingExchange p s))).

(** The context of the exchange is done while it waits. *)
Inductive cancel_step (ctxErr : goerr) : exchangeRun → exchangeRun → Prop :=
| step_cancelled d w x s : cancel_step ctxErr (mkRun d w (Waiting x s)) (mkRun d w (Finished (failed ctxErr)))
| step_abandoned d w p s : pe_future p ≠ None →
    cancel_step ctxErr (mkRun d w (Finishing p s)) (mkRun d w (Finished (failed ctxErr))).
End router.
