(* ===== verification/DnsRouterSpec.v ===== *)
(** What the walk over DNS rules promises.

    [sequential] is the walk without concurrency: every evaluated response is
    there at once.  It gives the results the race rules offer and the result the
    other rules end with.  A rule is [bound] when it looks only at the responses
    it waits for; that is a check on the rule, and what it means for matching is
    [bound_holds]. *)

From S2P Require Import Prelude GoBytes GoSlices GoStrings Netip Metadata RuleItems RuleAction RuleMatch.
From S2P Require Import RuleSemantics RuleTheorems DnsMessage DnsClient DnsRouter.

(** ** Rules that look only at the responses they wait for *)

Section bound.
Context {EX : External}.

(** Items that do not look at a response, when addresses are not taken from it. *)
Definition blind (i : RuleItem) : bool :=
  match i with DNSResponseRCodeItem _ | DNSResponseRecordItem _ _ _ | PreferredByItem _ => false | _ => true end.
(** Items that look at no more than the response selected for them. *)
Definition unpreferred (i : RuleItem) : bool := match i with PreferredByItem _ => false | _ => true end.

Definition default_items (p : RuleItem → bool) (deep : Rule → bool) (d : abstractDefaultRule Rule) : bool :=
  forallb p (items d) && forallb p (sourceAddressItems d) && forallb p (sourcePortItems d) &&
  forallb p (destinationAddressItems d) && forallb p (destinationIPCIDRItems d) && forallb p (destinationPortItems d) &&
  match ruleSetItem d with Some rs => forallb (λ s, forallb deep (rs_rules s)) (setList rs) | None => true end.

(** Every item of a headless rule satisfies [p]. *)
Fixpoint headless_items (p : RuleItem → bool) (r : Rule) : bool :=
  match r with
  | DefaultHeadlessRule d => default_items p (headless_items p) d
  | LogicalHeadlessRule l => forallb (headless_items p) (l_rules l)
  | _ => false
  end.

(** [r] looks only at the responses of [tags], and at the untagged one if [anonymous]. *)
Fixpoint bound_to (tags : list string) (anonymous : bool) (r : Rule) : bool :=
  match r with
  | DefaultDNSRule d true tag _ =>
      default_items unpreferred (headless_items unpreferred) d &&
      (if String.eqb tag "" then anonymous else bool_decide (tag ∈ tags))
  | DefaultDNSRule d false _ _ => default_items blind (headless_items blind) d
  | LogicalDNSRule l _ _ _ => forallb (bound_to tags anonymous) (l_rules l)
  | _ => false
  end.
Definition bound (r : Rule) : bool := bound_to (MatchResponseTags r) (MatchResponseAnonymous r) r.

Context (rt : Runtime).

(** Two contexts that [p] items do not tell apart. *)
Definition alike (p : RuleItem → bool) (m m' : InboundContext) : Prop :=
  ∀ e i, p i = true → item_holds rt e m i = item_holds rt e m' i.

Lemma forallb_alike p m m' e l :
  alike p m m' → forallb p l = true → forallb (item_holds rt e m) l = forallb (item_holds rt e m') l.
Proof.
  intros Ha Hl. apply forallb_ext_in. intros i Hi. apply Ha.
  rewrite forallb_forall in Hl. apply Hl. by apply list_elem_of_In.
Qed.
Lemma existsb_alike p m m' e l :
  alike p m m' → forallb p l = true → existsb (item_holds rt e m) l = existsb (item_holds rt e m') l.
Proof.
  intros Ha Hl. apply existsb_ext_in. intros i Hi. apply Ha.
  rewrite forallb_forall in Hl. apply Hl. by apply list_elem_of_In.
Qed.

Lemma default_items_inv p deep d :
  default_items p deep d = true →
  forallb p (items d) = true ∧ forallb p (sourceAddressItems d) = true ∧ forallb p (sourcePortItems d) = true ∧
  forallb p (destinationAddressItems d) = true ∧ forallb p (destinationIPCIDRItems d) = true ∧
  forallb p (destinationPortItems d) = true ∧
  ∀ rs s r, ruleSetItem d = Some rs → s ∈ setList rs → r ∈ rs_rules s → deep r = true.
Proof.
  unfold default_items. rewrite !andb_true_iff. intros ((((((? & ?) & ?) & ?) & ?) & ?) & Hs).
  split_and!; try done. intros rs s r Hrs Hin Hr. rewrite Hrs, forallb_forall in Hs.
  specialize (Hs s). rewrite <- list_elem_of_In in Hs. specialize (Hs Hin).
  rewrite forallb_forall in Hs. apply Hs. by apply list_elem_of_In.
Qed.

Lemma satisfies_alike p deep m m' e (d : abstractDefaultRule Rule) g :
  alike p m m' → default_items p deep d = true → satisfies rt false e d m g = satisfies rt false e d m' g.
Proof.
  intros Ha Hd. apply default_items_inv in Hd as (? & ? & ? & ? & ? & ? & _).
  destruct g; cbn; rewrite ?(existsb_alike p m m') by done; done.
Qed.

(** A set whose rules are alike in their meaning is alike in its own. *)
Lemma set_holds_alike p m m' req sat sat' e s :
  alike p m m' → (∀ g, sat g = sat' g) →
  Forall (λ r, headless_items p r = true ∧ ∀ e, holds rt e r m = holds rt e r m') (rs_rules s) →
  set_holds rt (holds rt) mergeableRule req sat e m s = set_holds rt (holds rt) mergeableRule req sat' e m' s.
Proof.
  intros Ha Hsat Hs. unfold set_holds. destruct (mergeableRule s) as [b|] eqn:Hb.
  - assert (Hi : default_items p (headless_items p) b = true).
    { apply mergeableRule_Some in Hb as (Hb & _). rewrite Hb in Hs. apply Forall_cons in Hs as [[Hs _] _]. done. }
    f_equal.
    + apply (forallb_alike p); [done|]. by apply default_items_inv in Hi as [? _].
    + apply all_groups_ext. intros g. rewrite Hsat. by rewrite (satisfies_alike p (headless_items p) m m').
  - f_equal; [apply all_groups_ext; intros g; by rewrite Hsat|].
    apply existsb_ext_in. intros r Hr. rewrite Forall_forall in Hs. by apply Hs.
Qed.

Lemma default_alike p m m' e d :
  alike p m m' → default_items p (headless_items p) d = true →
  (∀ rs s r e, ruleSetItem d = Some rs → s ∈ setList rs → r ∈ rs_rules s → holds rt e r m = holds rt e r m') →
  default_holds rt (holds rt) mergeableRule e d m = default_holds rt (holds rt) mergeableRule e d m'.
Proof.
  intros Ha Hd Hn. unfold default_holds, inner_holds. do 2 f_equal.
  pose proof (default_items_inv _ _ _ Hd) as (? & _ & _ & _ & _ & _ & Hdeep). f_equal; [by apply (forallb_alike p)|].
  destruct (ruleSetItem d) as [rs|] eqn:Hrs.
  - apply existsb_ext_in. intros s Hin. apply (set_holds_alike p); [done|intros g; by apply (satisfies_alike p (headless_items p))|].
    apply Forall_forall. intros r Hr. split; [by eapply Hdeep|]. intros e'. by eapply Hn.
  - apply all_groups_ext. intros g. by rewrite (satisfies_alike p (headless_items p) m m').
Qed.

Lemma headless_alike p m m' r :
  alike p m m' → headless_items p r = true → ∀ e, holds rt e r m = holds rt e r m'.
Proof.
  intros Ha. induction r as [d IH|l IH|d IH|l IH|d ? ? ? IH|l ? ? ? IH] using Rule_nested_ind; cbn [headless_items]; intros H e; try done.
  - apply (default_alike p); [done|done|]. intros rs s r e' Hrs Hs Hr. rewrite Hrs in IH. unfold nested_all in IH.
    rewrite Forall_forall in IH. specialize (IH s Hs). rewrite Forall_forall in IH. apply IH; [done|].
    apply default_items_inv in H as (_ & _ & _ & _ & _ & _ & H). by eapply H.
  - cbn. unfold logical_holds. f_equal. rewrite forallb_forall in H. rewrite Forall_forall in IH.
    destruct (String.eqb (l_mode l) "and"); [apply forallb_ext_in|apply existsb_ext_in];
      intros r Hr; apply IH; [done| |done|]; apply H; by apply list_elem_of_In.
Qed.

Lemma default_items_alike p m m' e d :
  alike p m m' → default_items p (headless_items p) d = true →
  default_holds rt (holds rt) mergeableRule e d m = default_holds rt (holds rt) mergeableRule e d m'.
Proof.
  intros Ha Hd. apply (default_alike p); [done|done|]. intros rs s r e' Hrs Hs Hr.
  apply (headless_alike p); [done|]. apply default_items_inv in Hd as (_ & _ & _ & _ & _ & _ & Hd). by eapply Hd.
Qed.

Lemma blind_alike a n a' n' m : alike blind (set_responses a n m) (set_responses a' n' m).
Proof. intros e i. unfold item_holds. destruct m. by destruct i. Qed.
Lemma unpreferred_alike v a n a' n' m :
  alike unpreferred (with_response v (set_responses a n m)) (with_response v (set_responses a' n' m)).
Proof. intros e i. unfold item_holds. destruct m. by destruct i. Qed.

(** A rule bound to some responses means the same whatever the others are. *)
Lemma bound_holds tags anonymous r a n a' n' m e :
  bound_to tags anonymous r = true →
  (∀ tag, tag ∈ tags → n !! tag = n' !! tag) → (anonymous = true → a = a') →
  holds rt e r (set_responses a n m) = holds rt e r (set_responses a' n' m).
Proof.
  intros Hb Hn Ha. revert e Hb.
  induction r as [d IH|l IH|d IH|l IH|d mr tag race IH|l ? ? ? IH] using Rule_nested_ind; cbn [bound_to]; intros e Hb; try done.
  - cbn [holds]. destruct mr; [|by apply (default_items_alike blind); [apply blind_alike|]].
    apply andb_true_iff in Hb as [Hb Ht].
    assert (Hsel : selected_response tag (set_responses a n m) = selected_response tag (set_responses a' n' m)).
    { unfold selected_response. destruct (String.eqb tag ""); cbn [negb]; destruct m; cbn.
      - by apply Ha.
      - apply Hn. by apply bool_decide_eq_true in Ht. }
    rewrite Hsel. destruct (selected_response tag (set_responses a' n' m)) as [x|]; [|reflexivity].
    by apply (default_items_alike unpreferred); [apply unpreferred_alike|].
  - cbn [holds]. unfold logical_holds. f_equal. rewrite forallb_forall in Hb. rewrite Forall_forall in IH.
    destruct (String.eqb (l_mode l) "and"); [apply forallb_ext_in|apply existsb_ext_in];
      intros r Hr; apply IH; try done; apply Hb; by apply list_elem_of_In.
Qed.
End bound.

(** ** The sequential walk *)

(** The state of the walk: the options, and what has been evaluated - the server
    and its response, if there is one. *)
Record refState : Type := mkRef {
  rf_options : DNSQueryOptions;
  rf_anonymous : option (Transport * option Message);
  rf_named : gmap string (Transport * option Message)
}.

(** A result, or a panic. *)
Definition outcome : Type := exchangeWithRulesResult + string.

Section sequential.
Context {EX : External} (rt : Runtime) (tm : TransportManager) (defaultDomainStrategy : DomainStrategy).
Context (ask : Transport → DNSQueryOptions → Message + goerr) (question : string) (allowFakeIP : bool).
(** The metadata of the query. *)
Context (m0 : InboundContext).

Definition evaluated (t : Transport) (o : DNSQueryOptions) : Transport * option Message :=
  (t, match ask t (finalizeExchangeOptions defaultDomainStrategy o) with inl m => Some m | inr _ => None end).

Definition ref_holds (st : refState) (r : Rule) : bool :=
  holds rt env0 r (set_responses (view_msg <$> (rf_anonymous st ≫= snd)) (view_msg <$> omap snd (rf_named st)) m0).

(** What a rule that ends the walk gives. *)
Definition ref_respond (st : refState) (r : Rule) : exchangeWithRulesResult :=
  let x := if String.eqb (MatchResponseTag r) "" then rf_anonymous st else rf_named st !! MatchResponseTag r in
  responded (x ≫= λ '(t, answer), (λ m, (m, Some t)) <$> answer).
Definition ref_exchange (t : Transport) (o : DNSQueryOptions) : outcome :=
  inl (exchanged ask t (finalizeExchangeOptions defaultDomainStrategy o)).
Definition ref_end (st : refState) (r : Rule) : option outcome :=
  match Rule_Action r with
  | Some RuleActionRespond => Some (inl (ref_respond st r))
  | Some (RuleActionDNSRoute server _ o) =>
      match resolveDNSRoute tm allowFakeIP server o (rf_options st) with RouteResolved t o => Some (ref_exchange t o) | _ => None end
  | Some (RuleActionReject_ a) => inl <$> rejected a
  | Some (RuleActionPredefined rcode answer ns extra) => Some (predefined question rcode answer ns extra)
  | _ => None
  end.

(** What a rule that does not end it changes. *)
Definition ref_next (st : refState) (r : Rule) : refState :=
  match Rule_Action r with
  | Some (RuleActionDNSRouteOptions_ o) => mkRef (applyDNSRouteOptions (rf_options st) o) (rf_anonymous st) (rf_named st)
  | Some (RuleActionEvaluate server tag _ o) =>
      let answer := (λ t, evaluated t (applyDNSRouteOptions (rf_options st) o)) <$> tm_Transport tm server in
      if String.eqb tag "" then mkRef (rf_options st) answer (rf_named st)
      else match answer with Some x => mkRef (rf_options st) (rf_anonymous st) (<[tag := x]> (rf_named st)) | None => st end
  | _ => st
  end.

(** The results the matching race rules offer, in order, and the result of the
    first other rule that ends the walk. *)
Fixpoint sequential (rules : list Rule) (st : refState) : list outcome * outcome :=
  match rules with
  | [] => ([], ref_exchange (tm_Default tm) (rf_options st))
  | r :: rules =>
      if negb (ref_holds st r) then sequential rules st
      else if hasBindings r && Race r then
        let '(offers, last) := sequential rules st in
        (match ref_end st r with Some x => x :: offers | None => offers end, last)
      else match ref_end st r with Some x => ([], x) | None => sequential rules (ref_next st r) end
  end.

(** A result that may come of it: one a race rule offers; the other rules count
    only when no race rule offers one. *)
Definition may_give (x : list outcome * outcome) (r : outcome) : Prop := r ∈ fst x ∨ fst x = [] ∧ r = snd x.
End sequential.
