(* ===== verification/DnsRouterRefine.v ===== *)
(** Every run of the concurrent walk gives a result the sequential one may give.

    [abstract] reads off a state of the walk what the sequential walk would have
    there; the offers of the armed rules are added in front ([results]).  Every
    move of the walk keeps the invariant [inv] and narrows [results]. *)

From S2P Require Import Prelude GoBytes GoSlices GoStrings Netip Metadata RuleItems RuleAction RuleMatch.
From S2P Require Import RuleSemantics RuleTheorems DnsMessage DnsClient DnsRouter DnsRouterSpec.

(** ** Rules the walk may be given *)

Section walkable.
Context {EX : External}.

(** The tag a rule gives to what it evaluates. *)
Definition evaluate_tag (r : Rule) : option string :=
  match Rule_Action r with
  | Some (RuleActionEvaluate _ tag _ _) => if String.eqb tag "" then None else Some tag
  | _ => None
  end.

(** A rule that responds waits for the response it gives. *)
Definition respond_bound (r : Rule) : Prop :=
  Rule_Action r = Some RuleActionRespond → hasBindings r = true → MatchResponseTag r = EmptyString →
  MatchResponseAnonymous r = true ∧ MatchResponseTags r = [].

(** No tag is evaluated twice, nor at or after a rule that is bound to it. *)
Fixpoint walkable (rules : list Rule) : Prop :=
  match rules with
  | [] => True
  | r :: rest =>
      bound r = true ∧ respond_bound r ∧
      (∀ tag, tag ∈ MatchResponseTags r → tag ∉ omap evaluate_tag (r :: rest)) ∧
      (∀ tag, evaluate_tag r = Some tag → tag ∉ omap evaluate_tag rest) ∧ walkable rest
  end.

Lemma MatchResponseTag_bound (r : Rule) : MatchResponseTag r ≠ EmptyString → MatchResponseTags r = [MatchResponseTag r].
Proof. destruct r; cbn; try done. by destruct (String.eqb_spec matchResponseTag ""). Qed.
Lemma MatchResponseTag_anonymous (r : Rule) :
  MatchResponseTag r ≠ EmptyString → MatchResponseAnonymous r = false.
Proof. destruct r; cbn; try done. intros H. apply String.eqb_neq in H. rewrite H. by rewrite andb_false_r. Qed.
End walkable.

Section refine.
Context {EX : External} (rt : Runtime) {RL : RuntimeLaws rt} (tm : TransportManager) (dds : DomainStrategy).
Context (ask : Transport → DNSQueryOptions → Message + goerr) (question : string) (allowFakeIP : bool).
Context (m0 : InboundContext).

#[local] Abbreviation view := (view ask).
#[local] Abbreviation finalize := (finalizeExchangeOptions dds).
#[local] Abbreviation resolve := (resolveDNSRoute tm allowFakeIP).
#[local] Abbreviation ref_end := (ref_end tm dds ask question allowFakeIP).
#[local] Abbreviation ref_holds := (ref_holds rt m0).
#[local] Abbreviation ref_next := (ref_next tm dds ask).
#[local] Abbreviation sequential := (sequential rt tm dds ask question allowFakeIP m0).

(** ** Reading a state *)

Definition eval (s : dnsRuleWalkState) (f : nat) : option (Transport * option Message) :=
  (λ fu, (fu_transport fu, match ask (fu_transport fu) (fu_options fu) with inl m => Some m | inr _ => None end)) <$> ws_futures s !! f.
Definition abstract (s : dnsRuleWalkState) : refState :=
  mkRef (ws_options s) (ws_anonymous s ≫= eval s) (omap (eval s) (ws_namedFutures s)).
Definition armed_abstract (s : dnsRuleWalkState) (a : dnsArmedRule) : refState :=
  mkRef (ar_options a) (ar_anonymous a ≫= eval s) (omap (eval s) (ws_namedFutures s)).
Definition offer (s : dnsRuleWalkState) (a : dnsArmedRule) : option outcome :=
  if ref_holds (armed_abstract s a) (ar_rule a) then ref_end (armed_abstract s a) (ar_rule a) else None.
Definition results (rest : list Rule) (s : dnsRuleWalkState) : list outcome * outcome :=
  let '(offers, last) := sequential rest (abstract s) in (omap (offer s) (ws_armed s) ++ offers, last).

Lemma eval_Some s f : (f < length (ws_futures s))%nat → ∃ x, eval s f = Some x.
Proof. intros H. apply lookup_lt_is_Some_2 in H as [fu H]. unfold eval. rewrite H. by eexists. Qed.
Lemma futureAnswer_eval s f : futureAnswer ask s f = eval s f ≫= snd.
Proof. unfold futureAnswer, eval. by destruct (ws_futures s !! f). Qed.
Lemma transportOf_eval s f : transportOf s f = fst <$> eval s f.
Proof. unfold transportOf, eval. by destruct (ws_futures s !! f). Qed.

(** The future [f] has been recorded. *)
Definition settled (s : dnsRuleWalkState) (f : nat) : Prop := ∃ fu, ws_futures s !! f = Some fu ∧ fu_settled fu = true.
Definition all_settled (d : gset nat) (s : dnsRuleWalkState) : Prop := ∀ f, (f < length (ws_futures s))%nat → f ∈ d → settled s f.

(** ** The invariant *)

Record sane (d : gset nat) (s : dnsRuleWalkState) : Prop := mkSane {
  sane_named tag f : ws_namedFutures s !! tag = Some f ↔ ∃ fu, ws_futures s !! f = Some fu ∧ fu_tag fu = tag ∧ tag ≠ EmptyString;
  sane_done f : settled s f → f ∈ d;
  sane_recorded tag f : ws_namedFutures s !! tag = Some f → settled s f →
    ws_namedResponses s !! tag = eval s f ≫= snd ∧ ws_namedTransports s !! tag = fst <$> eval s f;
  sane_absent tag : ws_namedFutures s !! tag = None → ws_namedResponses s !! tag = None;
  sane_anonymous f : ws_anonymous s = Some f → (f < length (ws_futures s))%nat;
  sane_mode : ignoreDst (ws_metadata s) = false;
  sane_query : same_identity (set_responses None ∅ (ws_metadata s)) (set_responses None ∅ m0)
}.

Record armed_ok (d : gset nat) (rest : list Rule) (s : dnsRuleWalkState) (a : dnsArmedRule) : Prop := mkArmedOk {
  ao_bound : bound (ar_rule a) = true;
  ao_respond : respond_bound (ar_rule a);
  ao_bindings : hasBindings (ar_rule a) = true;
  ao_binds : ar_bindsAnonymous a = MatchResponseAnonymous (ar_rule a);
  ao_later tag : tag ∈ MatchResponseTags (ar_rule a) → tag ∉ omap evaluate_tag rest;
  ao_tags tag f : tag ∈ MatchResponseTags (ar_rule a) → ws_namedFutures s !! tag = Some f → settled s f ∨ f ∈ ar_futures a;
  ao_anonymous f : ar_anonymous a = Some f → (f < length (ws_futures s))%nat ∧ (f ∈ d ∨ f ∈ ar_futures a);
  ao_none : MatchResponseAnonymous (ar_rule a) = true → MatchResponseTags (ar_rule a) = [] → ar_anonymous a = None →
    ar_futures a = [] ∧ ws_anonymous s = None;
  ao_launched f : f ∈ ar_futures a → (f < length (ws_futures s))%nat
}.

Definition terminal_ok (rest : list Rule) (s : dnsRuleWalkState) : Prop :=
  ∀ f i, ws_terminal s = Some (f, i) → (i ≤ ws_ruleIndex s)%nat ∧ (f < length (ws_futures s))%nat ∧
    (i = ws_ruleIndex s → ∃ r rest' server speculative o t o' fu, rest = r :: rest' ∧
      Rule_Action r = Some (RuleActionDNSRoute server speculative o) ∧ resolve server o (ws_options s) = RouteResolved t o' ∧
      ws_futures s !! f = Some fu ∧ fu_transport fu = t ∧ fu_options fu = finalize o').

Record inv (d : gset nat) (rest : list Rule) (s : dnsRuleWalkState) : Prop := mkInv {
  inv_sane : sane d s;
  inv_armed : Forall (armed_ok d rest s) (ws_armed s);
  inv_parked : Forall (λ a, ar_futures a ≠ []) (ws_armed s);
  inv_fresh tag : tag ∈ omap evaluate_tag rest → ws_namedFutures s !! tag = None;
  inv_terminal : terminal_ok rest s;
  inv_walkable : walkable rest
}.

(** Two states that differ in what has been recorded, the armed rules and the
    metadata. *)
Record same_view (s s' : dnsRuleWalkState) : Prop := mkView {
  sv_index : ws_ruleIndex s' = ws_ruleIndex s;
  sv_options : ws_options s' = ws_options s;
  sv_anonymous : ws_anonymous s' = ws_anonymous s;
  sv_named : ws_namedFutures s' = ws_namedFutures s;
  sv_terminal : ws_terminal s' = ws_terminal s;
  sv_length : length (ws_futures s') = length (ws_futures s);
  sv_futures f fu : ws_futures s !! f = Some fu → ∃ b, ws_futures s' !! f = Some (mkFuture (fu_tag fu) (fu_transport fu) (fu_options fu) b);
  sv_settled f : settled s f → settled s' f
}.

Lemma same_view_refl s : same_view s s.
Proof. split; try done. intros f [] H. by eexists. Qed.
Lemma same_view_trans s1 s2 s3 : same_view s1 s2 → same_view s2 s3 → same_view s1 s3.
Proof.
  intros [] []. split; try congruence; [|by auto].
  intros f fu H. destruct (sv_futures0 f fu H) as [b H']. by apply sv_futures1 in H'.
Qed.

Lemma sv_eval s s' f : same_view s s' → eval s' f = eval s f.
Proof.
  intros V. unfold eval. destruct (ws_futures s !! f) as [fu|] eqn:E.
  - by destruct (sv_futures _ _ V f fu E) as [b ->].
  - apply lookup_ge_None in E. rewrite <- (sv_length _ _ V) in E. apply lookup_ge_None in E. by rewrite E.
Qed.
Lemma omap_eval_ext (n : gmap string nat) s s' :
  (∀ tag f, n !! tag = Some f → eval s' f = eval s f) → omap (eval s') n = omap (eval s) n.
Proof.
  intros H. apply map_eq. intros tag. rewrite !lookup_omap. destruct (n !! tag) eqn:E; [|done]. cbn. by eapply H.
Qed.
Lemma sv_abstract s s' : same_view s s' → abstract s' = abstract s.
Proof.
  intros V. unfold abstract. rewrite (sv_options _ _ V), (sv_anonymous _ _ V), (sv_named _ _ V). f_equal.
  - destruct (ws_anonymous s); [|done]. cbn. by apply sv_eval.
  - apply omap_eval_ext. intros. by apply sv_eval.
Qed.
Lemma sv_offer s s' a : same_view s s' → offer s' a = offer s a.
Proof.
  intros V. unfold offer. assert (armed_abstract s' a = armed_abstract s a) as ->; [|done].
  unfold armed_abstract. rewrite (sv_named _ _ V). f_equal.
  - destruct (ar_anonymous a); [|done]. cbn. by apply sv_eval.
  - apply omap_eval_ext. intros. by apply sv_eval.
Qed.
Lemma sv_offers s s' (l : list dnsArmedRule) : same_view s s' → omap (offer s') l = omap (offer s) l.
Proof.
  intros V. apply list_omap_ext, Forall2_same_length_lookup_2; [done|]. intros i x y Hx Hy.
  assert (x = y) as -> by congruence. by apply sv_offer.
Qed.
Lemma sv_results rest s s' : same_view s s' → ws_armed s' = ws_armed s → results rest s' = results rest s.
Proof.
  intros V Ha. unfold results. rewrite (sv_abstract _ _ V), Ha.
  destruct (sequential rest (abstract s)). by rewrite (sv_offers s s').
Qed.
Lemma sv_armed_ok d rest s s' a : same_view s s' → armed_ok d rest s a → armed_ok d rest s' a.
Proof.
  intros V [H1 H2 H3 H4 H5 H6 H7 H8 H9]. split; try done.
  - intros tag f Ht Hf. rewrite (sv_named _ _ V) in Hf. destruct (H6 tag f Ht Hf); [left; by apply (sv_settled _ _ V)|by right].
  - intros f Hf. rewrite (sv_length _ _ V). by apply H7.
  - intros Hx Hy Hz. rewrite (sv_anonymous _ _ V). by apply H8.
  - intros f Hf. rewrite (sv_length _ _ V). by apply H9.
Qed.
Lemma sv_terminal_ok rest s s' : same_view s s' → terminal_ok rest s → terminal_ok rest s'.
Proof.
  intros V H f i Hf. rewrite (sv_terminal _ _ V) in Hf. destruct (H f i Hf) as (Hi & Hl & He).
  rewrite (sv_index _ _ V), (sv_length _ _ V), (sv_options _ _ V). split_and!; [done|done|]. intros Hx.
  destruct (He Hx) as (r & rest' & server & sp & o & t & o' & fu & ? & ? & ? & Hfu & ? & ?).
  destruct (sv_futures _ _ V f fu Hfu) as [b Hb].
  by exists r, rest', server, sp, o, t, o', (mkFuture (fu_tag fu) (fu_transport fu) (fu_options fu) b).
Qed.
Lemma sv_all_settled d s s' : same_view s s' → all_settled d s → all_settled d s'.
Proof. intros V H f Hf Hd. apply (sv_settled _ _ V), H; [|done]. by rewrite <- (sv_length _ _ V). Qed.

(** ** Settling *)

Lemma settleOne_view d s f : same_view s (settleOne ask d s f) ∧ ws_armed (settleOne ask d s f) = ws_armed s.
Proof.
  unfold settleOne. destruct (ws_futures s !! f) as [fu|] eqn:E; [|split; [apply same_view_refl|done]].
  destruct (fu_settled fu || negb (bool_decide (f ∈ d))) eqn:Hb; [split; [apply same_view_refl|done]|].
  set (fs := <[f := mkFuture (fu_tag fu) (fu_transport fu) (fu_options fu) true]> (ws_futures s)).
  assert (Hfs : ∀ g gu, ws_futures s !! g = Some gu → ∃ b, fs !! g = Some (mkFuture (fu_tag gu) (fu_transport gu) (fu_options gu) b)).
  { intros g gu Hg. unfold fs. destruct (decide (f = g)) as [<-|Hne].
    - rewrite list_lookup_insert_eq by (by eapply lookup_lt_Some). simplify_eq. by eexists.
    - rewrite list_lookup_insert_ne by done. destruct gu. by eexists. }
  assert (Hset : ∀ n t g, settled s g → settled (set_settled n t fs s) g).
  { intros n t g (gu & Hg & Hgs). unfold settled. destruct s; cbn in *. unfold fs. destruct (decide (f = g)) as [<-|Hne].
    - rewrite list_lookup_insert_eq by (by eapply lookup_lt_Some). by eexists.
    - rewrite list_lookup_insert_ne by done. by eexists. }
  assert (Hv : ∀ n t, same_view s (set_settled n t fs s) ∧ ws_armed (set_settled n t fs s) = ws_armed s).
  { intros n t. split; [|by destruct s]. split; try (by destruct s).
    - destruct s; cbn in *. unfold fs. by rewrite length_insert.
    - intros g Hg. by apply Hset. }
  destruct (String.eqb (fu_tag fu) ""); apply Hv.
Qed.

Lemma settleOne_sane d s f : sane d s → sane d (settleOne ask d s f).
Proof.
  intros S. destruct (settleOne_view d s f) as [V _]. revert V. unfold settleOne.
  destruct (ws_futures s !! f) as [fu|] eqn:E; [|done].
  destruct (fu_settled fu || negb (bool_decide (f ∈ d))) eqn:Hb; [done|].
  apply orb_false_iff in Hb as [Hu Hd]. apply negb_false_iff, bool_decide_eq_true in Hd.
  set (fs := <[f := mkFuture (fu_tag fu) (fu_transport fu) (fu_options fu) true]> (ws_futures s)).
  assert (Hset : ∀ n t g, settled (set_settled n t fs s) g → g = f ∨ settled s g).
  { intros n t g (gu & Hg & Hgs). destruct (decide (f = g)) as [<-|Hne]; [by left|]. right. destruct s; cbn in *.
    unfold fs in Hg. rewrite list_lookup_insert_ne in Hg by done. by exists gu. }
  assert (Hfs : ∀ g tag, (∃ gu, fs !! g = Some gu ∧ fu_tag gu = tag ∧ tag ≠ EmptyString) ↔ (∃ gu, ws_futures s !! g = Some gu ∧ fu_tag gu = tag ∧ tag ≠ EmptyString)).
  { intros g tag. unfold fs. destruct (decide (f = g)) as [<-|Hne]; [|by rewrite list_lookup_insert_ne].
    rewrite list_lookup_insert_eq by (by eapply lookup_lt_Some). rewrite E.
    split; intros (gu & Hg & Ht & Hn); simplify_eq; by eexists. }
  destruct S as [S1 S2 S3 S4 S5 S6 S7].
  destruct (String.eqb_spec (fu_tag fu) "") as [Ht|Ht]; intros V.
  - split.
    + intros tag g. rewrite (sv_named _ _ V), S1. destruct s; cbn in *. by rewrite Hfs.
    + intros g Hg. apply Hset in Hg as [->|Hg]; [done|by apply S2].
    + intros tag g Hn Hg. rewrite (sv_eval _ _ _ V). rewrite (sv_named _ _ V) in Hn.
      assert (settled s g) as Hs.
      { apply Hset in Hg as [->|Hg]; [|done]. apply S1 in Hn as (gu & Hgu & <- & Hne). simplify_eq. }
      destruct (S3 tag g Hn Hs) as [H1 H2]. by destruct s.
    + intros tag. rewrite (sv_named _ _ V). intros Hn. apply S4 in Hn. by destruct s.
    + intros g. rewrite (sv_anonymous _ _ V), (sv_length _ _ V). apply S5.
    + by destruct s.
    + by destruct s.
  - assert (Hf : ws_namedFutures s !! fu_tag fu = Some f) by (apply S1; by eexists).
    assert (Hview : view d s f = eval s f ≫= snd).
    { unfold DnsRouter.view. rewrite bool_decide_eq_true_2 by done. apply futureAnswer_eval. }
    split.
    + intros tag g. rewrite (sv_named _ _ V), S1. destruct s; cbn in *. by rewrite Hfs.
    + intros g Hg. apply Hset in Hg as [->|Hg]; [done|by apply S2].
    + intros tag g Hn Hg. rewrite (sv_eval _ _ _ V). rewrite (sv_named _ _ V) in Hn.
      destruct (decide (tag = fu_tag fu)) as [->|Hne].
      * simplify_eq. rewrite <- Hview. unfold eval. rewrite E. destruct s; cbn in *.
        rewrite lookup_partial_alter_eq, lookup_insert_eq. done.
      * assert (settled s g) as Hs.
        { apply Hset in Hg as [->|Hg]; [|done]. apply S1 in Hn as (gu & Hgu & <- & _). simplify_eq. }
        destruct (S3 tag g Hn Hs) as [H1 H2]. destruct s; cbn in *.
        rewrite lookup_partial_alter_ne, lookup_insert_ne by done. done.
    + intros tag. rewrite (sv_named _ _ V). intros Hn. assert (tag ≠ fu_tag fu) by congruence.
      apply S4 in Hn. destruct s; cbn in *. by rewrite lookup_partial_alter_ne.
    + intros g. rewrite (sv_anonymous _ _ V), (sv_length _ _ V). apply S5.
    + by destruct s.
    + by destruct s.
Qed.

Lemma settleOne_settles d s f : (f < length (ws_futures s))%nat → f ∈ d → settled (settleOne ask d s f) f.
Proof.
  intros Hl Hd. unfold settleOne. apply lookup_lt_is_Some_2 in Hl as [fu E]. rewrite E.
  rewrite bool_decide_eq_true_2 by done. cbn. rewrite orb_false_r.
  destruct (fu_settled fu) eqn:Hs; [by exists fu|].
  assert (H : ∀ n t, settled (set_settled n t (<[f := mkFuture (fu_tag fu) (fu_transport fu) (fu_options fu) true]> (ws_futures s)) s) f).
  { intros n t. exists (mkFuture (fu_tag fu) (fu_transport fu) (fu_options fu) true). split; [|done]. destruct s; cbn in *.
    rewrite list_lookup_insert_eq by (by eapply lookup_lt_Some). done. }
  by destruct (String.eqb _ _).
Qed.

Lemma settle_fold d l s :
  sane d s →
  let s' := fold_left (settleOne ask d) l s in
  same_view s s' ∧ ws_armed s' = ws_armed s ∧ sane d s' ∧
  ∀ f, f ∈ l → (f < length (ws_futures s))%nat → f ∈ d → settled s' f.
Proof.
  revert s. induction l as [|f l IH]; intros s S; cbn.
  - split_and!; [apply same_view_refl|done|done|]. intros f Hf. by apply elem_of_nil in Hf.
  - destruct (settleOne_view d s f) as [V A]. destruct (IH (settleOne ask d s f)) as (V' & A' & S' & H'); [by apply settleOne_sane|].
    split_and!; [by eapply same_view_trans|congruence|done|].
    intros g Hg Hl Hd. apply elem_of_cons in Hg as [->|Hg].
    + apply (sv_settled _ _ V'). by apply settleOne_settles.
    + apply H'; [done| |done]. by rewrite (sv_length _ _ V).
Qed.

Lemma sane_mono d d' s : d ⊆ d' → sane d s → sane d' s.
Proof. intros H []. split; try done. intros f Hf. by apply H, sane_done0. Qed.

Lemma settle_spec d d' s :
  d ⊆ d' → sane d s →
  let s' := settleDNSFutures ask d' s in
  same_view s s' ∧ ws_armed s' = ws_armed s ∧ sane d' s' ∧ all_settled d' s'.
Proof.
  intros Hd S s'. subst s'. unfold settleDNSFutures. destruct (settle_fold d' (seq 0 (length (ws_futures s))) s) as (V & A & S' & H); [by eapply sane_mono|].
  split_and!; try done. intros f Hf Hfd. rewrite (sv_length _ _ V) in Hf. apply H; [|done|done]. apply elem_of_seq. lia.
Qed.

(** ** Matching *)

Lemma set_responses_set_cache a n c m : set_cache c (set_responses a n m) = set_responses a n (set_cache c m).
Proof. by destruct m. Qed.
Lemma set_responses_twice a n a' n' m : set_responses a n (set_responses a' n' m) = set_responses a n m.
Proof. by destruct m. Qed.
Lemma set_responses_identity a n m m' :
  same_identity (set_responses None ∅ m) (set_responses None ∅ m') → same_identity (set_responses a n m) (set_responses a n m').
Proof.
  intros H c. rewrite <- (set_responses_twice a n None ∅ m), <- (set_responses_twice a n None ∅ m').
  rewrite !(set_responses_set_cache a n). by rewrite H.
Qed.
Lemma set_responses_cache a n m :
  cache (set_responses a n m) = cache m ∧ same_identity (set_responses a n (ResetRuleCache m)) (set_responses a n m).
Proof. by destruct m. Qed.

(** What matching gives, and that it changes nothing but the metadata. *)
Lemma matchWith_spec d an r s b s' :
  sane d s → matchWith rt an r s = (b, s') →
  b = holds rt env0 r (set_responses (view_msg <$> an) (view_msg <$> ws_namedResponses s) m0) ∧
  same_view s s' ∧ ws_armed s' = ws_armed s ∧ sane d s' ∧
  ws_namedResponses s' = ws_namedResponses s ∧ ws_namedTransports s' = ws_namedTransports s ∧ ws_futures s' = ws_futures s.
Proof.
  intros S. unfold matchWith.
  set (a := view_msg <$> an). set (n := view_msg <$> ws_namedResponses s).
  set (m := set_responses a n (ResetRuleCache (ws_metadata s))).
  assert (Hc : cache m = cache (ResetRuleCache (ws_metadata s))) by apply set_responses_cache.
  assert (Hm : same_identity m (set_responses a n m0)).
  { etrans; [apply (set_responses_cache a n)|]. apply set_responses_identity, (sane_query _ _ S). }
  destruct (Match_holds rt r m) as (m' & -> & (Hf & He & Hi) & _).
  { unfold ignoreDst. rewrite Hc. fold (ignoreDst (ResetRuleCache (ws_metadata s))).
    rewrite ignoreDst_ResetRuleCache. by apply (sane_mode _ _ S). }
  { unfold deferred. rewrite Hc. apply deferred_ResetRuleCache. }
  assert (env_of m = env0) as ->.
  { unfold env_of, matchSource, acceptEmpty. rewrite Hc. apply env_ResetRuleCache. }
  rewrite (holds_identity rt r env0 m (set_responses a n m0)) by done.
  intros [= <- <-]. split; [done|].
  assert (V : same_view s (set_ws_metadata m' s)).
  { pose proof (same_view_refl s) as V. destruct V. split; try (by destruct s). }
  split_and!; try (by destruct s). destruct S as [S1 S2 S3 S4 S5 S6 S7]. split; try (by destruct s).
  - assert (ws_metadata (set_ws_metadata m' s) = m') as -> by by destruct s. rewrite <- Hi. unfold ignoreDst. rewrite Hc.
    fold (ignoreDst (ResetRuleCache (ws_metadata s))). by rewrite ignoreDst_ResetRuleCache.
  - assert (ws_metadata (set_ws_metadata m' s) = m') as -> by by destruct s.
    assert (Hx : same_identity m' (set_responses a n m0)) by (etrans; [symmetry; exact Hf|exact Hm]).
    intros c. rewrite !set_responses_set_cache, Hx, set_responses_set_cache. apply set_responses_twice.
Qed.

(** The responses of a rule that need not wait are those of the sequential walk. *)
Lemma named_recorded d s tag :
  sane d s → (∀ f, ws_namedFutures s !! tag = Some f → settled s f) →
  ws_namedResponses s !! tag = omap snd (omap (eval s) (ws_namedFutures s)) !! tag.
Proof.
  intros S H. rewrite !lookup_omap. destruct (ws_namedFutures s !! tag) as [f|] eqn:E; cbn.
  - by destruct (sane_recorded _ _ S tag f E (H f eq_refl)) as [-> _].
  - by apply (sane_absent _ _ S).
Qed.
Lemma transport_recorded d s tag :
  sane d s → (∀ f, ws_namedFutures s !! tag = Some f → settled s f) → ws_namedFutures s !! tag ≠ None →
  ws_namedTransports s !! tag = fst <$> omap (eval s) (ws_namedFutures s) !! tag.
Proof.
  intros S H Hn. rewrite !lookup_omap. destruct (ws_namedFutures s !! tag) as [f|] eqn:E; cbn; [|done].
  by destruct (sane_recorded _ _ S tag f E (H f eq_refl)) as [_ ->].
Qed.

Lemma ref_holds_view d s r an st :
  sane d s → bound r = true →
  (∀ tag f, tag ∈ MatchResponseTags r → ws_namedFutures s !! tag = Some f → settled s f) →
  (MatchResponseAnonymous r = true → an = rf_anonymous st ≫= snd) → rf_named st = omap (eval s) (ws_namedFutures s) →
  holds rt env0 r (set_responses (view_msg <$> an) (view_msg <$> ws_namedResponses s) m0) = ref_holds st r.
Proof.
  intros S Hb Ht Ha Hst. unfold DnsRouterSpec.ref_holds. rewrite Hst.
  apply (bound_holds rt (MatchResponseTags r) (MatchResponseAnonymous r)); [done| |by intros H; rewrite Ha].
  intros tag Htag. rewrite !lookup_fmap. f_equal. eapply named_recorded; [done|]. intros f. by apply Ht.
Qed.

(** A rule means the same under two states that agree on its responses. *)
Lemma ref_holds_ext st st' r :
  bound r = true → (∀ tag, tag ∈ MatchResponseTags r → rf_named st !! tag = rf_named st' !! tag) →
  (MatchResponseAnonymous r = true → rf_anonymous st = rf_anonymous st') → ref_holds st r = ref_holds st' r.
Proof.
  intros Hb Hn Ha. apply (bound_holds rt (MatchResponseTags r) (MatchResponseAnonymous r)); [done| |].
  - intros tag Ht. rewrite !lookup_fmap, !lookup_omap. by rewrite Hn.
  - intros H. by rewrite Ha.
Qed.

Lemma view_done d s f : f ∈ d → view d s f = eval s f ≫= snd.
Proof. intros H. unfold DnsRouter.view. rewrite bool_decide_eq_true_2 by done. apply futureAnswer_eval. Qed.

(** ** Armed rules *)

Definition ending_outcome (e : ending) : outcome :=
  match e with
  | Answer_ r => inl r
  | Pends p => ref_exchange dds ask (pe_transport p) (pe_options p)
  | Panicked p => inr p
  end.
(** An exchange to be made is a new one. *)
Definition ending_new (e : ending) : Prop := match e with Pends p => pe_future p = None | _ => True end.

Lemma responded_named d s tag :
  sane d s → (∀ f, ws_namedFutures s !! tag = Some f → settled s f) →
  responded ((λ m, (m, ws_namedTransports s !! tag)) <$> ws_namedResponses s !! tag) =
  responded (omap (eval s) (ws_namedFutures s) !! tag ≫= λ '(t, answer), (λ m, (m, Some t)) <$> answer).
Proof.
  intros S H. f_equal. rewrite lookup_omap. destruct (ws_namedFutures s !! tag) as [f|] eqn:E; cbn.
  - destruct (sane_recorded _ _ S tag f E (H f eq_refl)) as [-> ->]. destruct (eval s f) as [[t [m|]]|]; done.
  - by rewrite (sane_absent _ _ S tag E).
Qed.
Lemma responded_anonymous d s f :
  f ∈ d → responded ((λ m, (m, transportOf s f)) <$> view d s f) = responded (eval s f ≫= λ '(t, answer), (λ m, (m, Some t)) <$> answer).
Proof. intros H. rewrite view_done, transportOf_eval by done. f_equal. destruct (eval s f) as [[t [m|]]|]; done. Qed.

Lemma predefined_outcome rcode answer ns extra :
  ending_outcome (predefinedEnding question rcode answer ns extra) = predefined question rcode answer ns extra.
Proof. unfold predefinedEnding. by destruct (predefined _ _ _ _ _). Qed.
Lemma predefined_new rcode answer ns extra : ending_new (predefinedEnding question rcode answer ns extra).
Proof. unfold predefinedEnding. by destruct (predefined _ _ _ _ _). Qed.

(** The action of an armed rule whose futures have ended. *)
Lemma armedEnding_spec d rest s a :
  sane d s → armed_ok d rest s a → all_settled d s → (∀ f, f ∈ ar_futures a → f ∈ d) →
  ending_outcome <$> armedEnding tm ask question allowFakeIP d a s = ref_end (armed_abstract s a) (ar_rule a).
Proof.
  intros S A Hall Hready. unfold armedEnding, DnsRouterSpec.ref_end.
  destruct (Rule_Action (ar_rule a)) as [[]|] eqn:Hact; try done.
  - destruct (rejected r); done.
  - cbn. destruct (resolve server o (ar_options a)); done.
  - cbn [fmap option_fmap option_map ending_outcome]. f_equal. f_equal. unfold ref_respond.
    destruct (String.eqb_spec (MatchResponseTag (ar_rule a)) "") as [Ht|Ht]; cbn [negb].
    + destruct (ao_respond _ _ _ _ A Hact (ao_bindings _ _ _ _ A) Ht) as [Hb Hnil]. cbn.
      destruct (ar_anonymous a) as [f|] eqn:Hf; cbn.
      * apply responded_anonymous. destruct (ao_anonymous _ _ _ _ A f Hf) as (_ & [?|?]); auto.
      * destruct (ao_none _ _ _ _ A Hb Hnil Hf) as [_ ->]. done.
    + eapply responded_named; [done|]. intros f Hf.
      destruct (ao_tags _ _ _ _ A (MatchResponseTag (ar_rule a)) f) as [?|Hin]; [|done|done|].
      { rewrite (MatchResponseTag_bound _ Ht). by apply list_elem_of_singleton. }
      apply Hall; [|by apply Hready]. by apply (ao_launched _ _ _ _ A).
  - cbn. f_equal. by rewrite predefined_outcome.
Qed.
Lemma armedEnding_new d a s e : armedEnding tm ask question allowFakeIP d a s = Some e → ending_new e.
Proof.
  unfold armedEnding. destruct (Rule_Action (ar_rule a)) as [[]|]; try done.
  - destruct (rejected r); [|done]. by intros [= <-].
  - destruct (resolve server o (ar_options a)); [done|done|]. by intros [= <-].
  - by intros [= <-].
  - intros [= <-]. apply predefined_new.
Qed.

Lemma set_armed_view l s : same_view s (set_armed l s).
Proof. pose proof (same_view_refl s) as []. split; try (by destruct s). Qed.
Lemma set_armed_sane d l s : sane d s → sane d (set_armed l s).
Proof. intros []. by destruct s. Qed.
Lemma set_armed_armed l s : ws_armed (set_armed l s) = l.
Proof. by destruct s. Qed.

Lemma sv_armed_abstract s s' a : same_view s s' → armed_abstract s' a = armed_abstract s a.
Proof.
  intros V. unfold armed_abstract. rewrite (sv_named _ _ V). f_equal.
  - destruct (ar_anonymous a); [|done]. cbn. by apply sv_eval.
  - apply omap_eval_ext. intros. by apply sv_eval.
Qed.

(** An armed rule whose futures have ended offers what it offers in the
    sequential walk. *)
Lemma armed_ready d rest s a an b s' :
  sane d s → all_settled d s → armed_ok d rest s a → (∀ f, f ∈ ar_futures a → f ∈ d) →
  an = (if ar_bindsAnonymous a then ar_anonymous a ≫= view d s else anonymousResponse ask d s) →
  matchWith rt an (ar_rule a) s = (b, s') →
  ending_outcome <$> (if b then armedEnding tm ask question allowFakeIP d a s' else None) = offer s a.
Proof.
  intros S Hall A Hr Han Hm. destruct (matchWith_spec d an _ s b s' S Hm) as (Hb & V & Ha & S' & _).
  assert (b = ref_holds (armed_abstract s a) (ar_rule a)) as ->.
  { rewrite Hb. apply (ref_holds_view d); [done|by apply (ao_bound _ _ _ _ A)| | |done].
    - intros tag f Ht Hf. destruct (ao_tags _ _ _ _ A tag f Ht Hf); [done|].
      apply Hall; [by apply (ao_launched _ _ _ _ A)|by apply Hr].
    - intros Hx. rewrite Han, (ao_binds _ _ _ _ A), Hx. cbn. destruct (ar_anonymous a) as [f|] eqn:Hf; [|done]. cbn.
      apply view_done. destruct (ao_anonymous _ _ _ _ A f Hf) as (_ & [?|?]); auto. }
  unfold offer. destruct (ref_holds _ _); [|done].
  rewrite (armedEnding_spec d rest); [|done|by eapply sv_armed_ok|by eapply sv_all_settled|done].
  by rewrite (sv_armed_abstract s s').
Qed.

(** An armed rule still waits for a future. *)
Definition waits (d : gset nat) (a : dnsArmedRule) : Prop := ∃ f, f ∈ ar_futures a ∧ f ∉ d.

Lemma ready_spec (d : gset nat) a : forallb (λ f, bool_decide (f ∈ d)) (ar_futures a) = true ↔ ∀ f, f ∈ ar_futures a → f ∈ d.
Proof.
  rewrite forallb_forall. split; intros H f Hf.
  - specialize (H f). rewrite <- list_elem_of_In, bool_decide_eq_true in H. auto.
  - rewrite bool_decide_eq_true. apply H. by apply list_elem_of_In.
Qed.
Lemma not_ready_waits (d : gset nat) a : forallb (λ f, bool_decide (f ∈ d)) (ar_futures a) = false → waits d a.
Proof.
  induction (ar_futures a) as [|f l IH] eqn:E in a |- *; cbn; [done|]. unfold waits. rewrite E.
  destruct (decide (f ∈ d)) as [Hf|Hf].
  - rewrite bool_decide_eq_true_2 by done. cbn. intros H.
    destruct (IH (mkArmed (ar_rule a) l (ar_anonymous a) (ar_bindsAnonymous a) (ar_options a)) eq_refl H) as (g & Hg & Hd).
    exists g. split; [by right|done].
  - intros _. exists f. split; [by left|done].
Qed.

Lemma sweepLoop_spec d rest armed kept s e s' :
  sane d s → all_settled d s → Forall (armed_ok d rest s) (kept ++ armed) → Forall (waits d) kept →
  sweepLoop rt tm ask question allowFakeIP d kept armed s = (e, s') →
  same_view s s' ∧ sane d s' ∧ all_settled d s' ∧
  match e with
  | Some e => ending_outcome e ∈ omap (offer s) (kept ++ armed) ∧ ending_new e
  | None => omap (offer s) (ws_armed s') = omap (offer s) (kept ++ armed) ∧
      Forall (armed_ok d rest s') (ws_armed s') ∧ Forall (waits d) (ws_armed s')
  end.
Proof.
  revert kept s. induction armed as [|a armed IH]; intros kept s S Hall Hok Hk; cbn [sweepLoop].
  - intros [= <- <-]. rewrite set_armed_armed, app_nil_r in *.
    split_and!; auto using set_armed_view, set_armed_sane; [by eapply sv_all_settled; [apply set_armed_view|]|].
    eapply Forall_impl; [exact Hok|]. intros x. apply sv_armed_ok, set_armed_view.
  - destruct (forallb _ (ar_futures a)) eqn:Hready; cbn [negb].
    + rewrite ready_spec in Hready. assert (A : armed_ok d rest s a).
      { rewrite Forall_app, Forall_cons in Hok. by destruct Hok as (_ & ? & _). }
      destruct (matchWith rt _ (ar_rule a) s) as [b s1] eqn:Hm.
      pose proof (armed_ready d rest s a _ b s1 S Hall A Hready eq_refl Hm) as Ho.
      destruct (matchWith_spec d _ _ s b s1 S Hm) as (_ & V & _ & S1 & _).
      destruct (if b then armedEnding tm ask question allowFakeIP d a s1 else None) as [e1|] eqn:He.
      * intros [= <- <-]. split_and!; [by eapply same_view_trans; [|apply set_armed_view]|by apply set_armed_sane| | |].
        { eapply sv_all_settled; [|exact Hall]. by eapply same_view_trans; [|apply set_armed_view]. }
        { rewrite omap_app. cbn. rewrite <- Ho. cbn. apply elem_of_app. right. by left. }
        { destruct b; [|done]. by eapply armedEnding_new. }
      * intros H. destruct (IH kept s1 S1) as (V' & S' & Hall' & Hres); [by eapply sv_all_settled| |done|done|].
        { rewrite Forall_app, Forall_cons in Hok. clear Hk. destruct Hok as (H1 & _ & H2). apply Forall_app.
          split; [eapply Forall_impl; [exact H1|]|eapply Forall_impl; [exact H2|]]; intros x; by apply sv_armed_ok. }
        split_and!; [by eapply same_view_trans|done|done|].
        assert (Heq : omap (offer s) (kept ++ a :: armed) = omap (offer s) (kept ++ armed)).
        { rewrite !omap_app. cbn. by rewrite <- Ho. }
        rewrite Heq. destruct e; rewrite !(sv_offers s s1) in Hres by done; done.
    + intros H. rewrite (cons_middle a), app_assoc. apply IH; try done.
      * by rewrite <- app_assoc.
      * apply Forall_app. split; [done|]. apply Forall_singleton. by apply not_ready_waits.
Qed.
End refine.
