(* ===== verification/DnsRouterWalk.v ===== *)
(** The moves of the walk over DNS rules: each keeps the invariant of
    DnsRouterRefine and narrows the results the exchange may give. *)

From S2P Require Import Prelude GoBytes GoSlices GoStrings Netip Metadata RuleItems RuleAction RuleMatch.
From S2P Require Import RuleSemantics RuleTheorems DnsMessage DnsClient DnsRouter DnsRouterSpec DnsRouterRefine.

(** Every result of [x] is one of [y]. *)
Definition narrows (x y : list outcome * outcome) : Prop := ∀ r, may_give x r → may_give y r.
#[export] Instance narrows_preorder : PreOrder narrows.
Proof. split; unfold narrows; auto. Qed.

Section walk.
Context {EX : External} (rt : Runtime) {RL : RuntimeLaws rt} (tm : TransportManager) (dds : DomainStrategy).
Context (ask : Transport → DNSQueryOptions → Message + goerr) (question : string) (allowFakeIP : bool).
Context (m0 : InboundContext).

#[local] Abbreviation finalize := (finalizeExchangeOptions dds).
#[local] Abbreviation resolve := (resolveDNSRoute tm allowFakeIP).
#[local] Abbreviation eval := (eval ask).
#[local] Abbreviation abstract := (abstract ask).
#[local] Abbreviation ref_end := (ref_end tm dds ask question allowFakeIP).
#[local] Abbreviation ref_holds := (ref_holds rt m0).
#[local] Abbreviation sequential := (sequential rt tm dds ask question allowFakeIP m0).
#[local] Abbreviation offer := (offer rt tm dds ask question allowFakeIP m0).
#[local] Abbreviation results := (results rt tm dds ask question allowFakeIP m0).
#[local] Abbreviation sane := (sane ask m0).
#[local] Abbreviation inv := (inv tm dds ask allowFakeIP m0).
#[local] Abbreviation terminal_ok := (terminal_ok tm dds allowFakeIP).

(** ** Launching *)

(** The state after a launch: a new future, and what is bound to it. *)
Definition extend (fu : dnsEvaluatedFuture) (anonymous : option nat) (named : gmap string nat) (terminal : option (nat * nat)) (s : dnsRuleWalkState) : dnsRuleWalkState :=
  mkWalk (ws_ruleIndex s) (ws_options s) anonymous named (ws_namedResponses s) (ws_namedTransports s)
    (ws_futures s ++ [fu]) (ws_armed s) terminal (ws_metadata s).

Section extend.
Context (d : gset nat) (s : dnsRuleWalkState) (fu : dnsEvaluatedFuture).
Context (anonymous : option nat) (named : gmap string nat) (terminal : option (nat * nat)).
Let f := length (ws_futures s).
Let s' := extend fu anonymous named terminal s.
Context (S : sane d s) (Hfu : fu_settled fu = false).
Context (Hanon : anonymous = ws_anonymous s ∨ anonymous = Some f).
Context (Hnamed : named = if String.eqb (fu_tag fu) "" then ws_namedFutures s else <[fu_tag fu := f]> (ws_namedFutures s)).
Context (Hfresh : fu_tag fu ≠ EmptyString → ws_namedFutures s !! fu_tag fu = None).

Lemma extend_lookup g gu : ws_futures s !! g = Some gu → ws_futures s' !! g = Some gu.
Proof using. intros H. cbn. by apply lookup_app_l_Some. Qed.
Lemma extend_new : ws_futures s' !! f = Some fu.
Proof using. cbn. unfold f. by rewrite list_lookup_middle. Qed.
Lemma extend_length : length (ws_futures s') = Datatypes.S f.
Proof using. cbn. rewrite length_app. cbn. unfold f. lia. Qed.
Lemma extend_eval g : (g < f)%nat → eval s' g = eval s g.
Proof using. intros H. unfold DnsRouterRefine.eval. cbn. by rewrite lookup_app_l. Qed.
Lemma extend_settled g : settled s' g ↔ settled s g.
Proof using Hfu.
  unfold settled. split; intros (gu & Hg & Hs); [|exists gu; split; [by apply extend_lookup|done]].
  destruct (decide (g = f)) as [->|Hne].
  - rewrite extend_new in Hg. injection Hg as <-. congruence.
  - exists gu. split; [|done]. cbn in Hg. apply lookup_app_Some in Hg as [?|[Hl Hg]]; [done|].
    apply list_lookup_singleton_Some in Hg as [Hg _]. exfalso. apply Hne. unfold f. lia.
Qed.
Lemma named_launched tag g : ws_namedFutures s !! tag = Some g → (g < f)%nat.
Proof using S. intros H. apply (sane_named _ _ _ _ S) in H as (gu & Hg & _). by apply lookup_lt_Some in Hg. Qed.

Lemma extend_sane : sane d s'.
Proof using S Hfu Hanon Hnamed Hfresh.
  destruct S as [S1 S2 S3 S4 S5 S6 S7].
  assert (Hother : ∀ tag, tag ≠ fu_tag fu → named !! tag = ws_namedFutures s !! tag).
  { intros tag Ht. rewrite Hnamed. destruct (String.eqb _ _); [done|]. by rewrite lookup_insert_ne. }
  split; try done.
  - intros tag g. change (ws_namedFutures s') with named. destruct (decide (tag = fu_tag fu)) as [->|Hne].
    + rewrite Hnamed. destruct (String.eqb_spec (fu_tag fu) "") as [E|E].
      * rewrite S1. split; intros (? & _ & _ & []); done.
      * rewrite lookup_insert_eq. split; [intros [= <-]; exists fu; split_and!; [apply extend_new|done|done]|].
        intros (gu & Hg & Ht & _). destruct (decide (g = f)) as [->|Hgf]; [done|]. exfalso.
        cbn in Hg. apply lookup_app_Some in Hg as [Hg|[Hl Hg]].
        -- assert (ws_namedFutures s !! fu_tag fu = Some g) as H by (apply S1; by eexists). by rewrite Hfresh in H.
        -- apply list_lookup_singleton_Some in Hg as [Hg _]. apply Hgf. unfold f. lia.
    + rewrite Hother, S1 by done. split; intros (gu & Hg & Ht & Hn); exists gu; split_and!; try done; [by apply extend_lookup|].
      cbn in Hg. apply lookup_app_Some in Hg as [?|[Hl Hg]]; [done|].
      apply list_lookup_singleton_Some in Hg as [_ ->]. done.
  - intros g. rewrite extend_settled. apply S2.
  - intros tag g Hg Hs. rewrite extend_settled in Hs. change (ws_namedFutures s') with named in Hg.
    assert (Hgl : (g < f)%nat) by (destruct Hs as (gu & Hgu & _); by apply lookup_lt_Some in Hgu).
    rewrite extend_eval by done. apply S3; [|done].
    destruct (decide (tag = fu_tag fu)) as [->|Hne]; [|by rewrite <- Hother].
    rewrite Hnamed in Hg. destruct (String.eqb _ _); [done|]. rewrite lookup_insert_eq in Hg. simplify_eq. lia.
  - intros tag Hg. apply S4. change (ws_namedFutures s') with named in Hg. rewrite Hnamed in Hg.
    destruct (String.eqb _ _); [done|]. by apply lookup_insert_None in Hg as [? _].
  - intros g Hg. rewrite extend_length. change (ws_anonymous s') with anonymous in Hg. destruct Hanon as [->| ->].
    + apply S5 in Hg. unfold f. lia.
    + simplify_eq. lia.
Qed.

(** What the armed rules offer does not change. *)
Context (rest : list Rule) (a : dnsArmedRule) (A : armed_ok d rest s a).
Context (Hlater : fu_tag fu ∉ MatchResponseTags (ar_rule a) ∨ fu_tag fu = EmptyString).

Lemma extend_named tag : tag ∈ MatchResponseTags (ar_rule a) → named !! tag = ws_namedFutures s !! tag.
Proof using Hlater Hnamed.
  intros Ht. rewrite Hnamed. destruct (String.eqb_spec (fu_tag fu) ""); [done|]. destruct Hlater as [Hl|]; [|done].
  rewrite lookup_insert_ne; [done|]. intros E. apply Hl. by rewrite E.
Qed.
Lemma extend_offer : offer s' a = offer s a.
Proof using S A Hlater Hnamed.
  assert (Hn : ∀ tag, tag ∈ MatchResponseTags (ar_rule a) → rf_named (armed_abstract ask s' a) !! tag = rf_named (armed_abstract ask s a) !! tag).
  { intros tag Ht. cbn. rewrite !lookup_omap, extend_named by done.
    destruct (ws_namedFutures s !! tag) as [g|] eqn:E; [|done]. cbn. apply extend_eval. by eapply named_launched. }
  assert (Ha : rf_anonymous (armed_abstract ask s' a) = rf_anonymous (armed_abstract ask s a)).
  { cbn. destruct (ar_anonymous a) as [g|] eqn:E; [|done]. cbn. apply extend_eval. by apply (ao_anonymous _ _ _ _ A) in E as [? _]. }
  unfold DnsRouterRefine.offer. rewrite (ref_holds_ext rt m0 _ (armed_abstract ask s a)); [|by apply (ao_bound _ _ _ _ A)|done|done].
  destruct (ref_holds _ _); [|done]. unfold DnsRouterSpec.ref_end. destruct (Rule_Action (ar_rule a)) as [[]|]; try done.
  unfold ref_respond. destruct (String.eqb_spec (MatchResponseTag (ar_rule a)) "") as [E|E]; [by rewrite Ha|].
  rewrite Hn; [done|]. rewrite MatchResponseTag_bound by done. by apply list_elem_of_singleton.
Qed.
Lemma extend_armed_ok : ar_futures a ≠ [] → armed_ok d rest s' a.
Proof using A Hlater Hnamed Hfu.
  intros Hp. destruct A as [A1 A2 A3 A4 A5 A6 A7 A8 A9]. split; try done.
  - intros tag g Ht Hg. change (ws_namedFutures s') with named in Hg. rewrite extend_named in Hg by done.
    rewrite extend_settled. by eapply A6.
  - intros g Hg. rewrite extend_length. destruct (A7 g Hg) as (? & ?). split; [unfold f; lia|done].
  - intros H1 H2 H3. by destruct (A8 H1 H2 H3).
  - intros g Hg. rewrite extend_length. apply A9 in Hg. unfold f. lia.
Qed.
End extend.

(** ** One rule *)

(** The exchange is right to wait. *)
Definition suspend_ok (d : gset nat) (x : dnsWalkSuspension) (s : dnsRuleWalkState) : Prop :=
  match x with
  | Await f => (f < length (ws_futures s))%nat ∧ f ∉ d
  | Drain => ws_armed s ≠ []
  | Pending _ => False
  end.
Definition pending_ok (p : dnsPendingExchange) (s : dnsRuleWalkState) : Prop :=
  ∀ f, pe_future p = Some f → (f < length (ws_futures s))%nat.
(** A launch at the rule where the walk stays is the speculative one. *)
Definition stays (s s' : dnsRuleWalkState) : Prop :=
  ws_ruleIndex s' = ws_ruleIndex s ∧ ws_armed s' = ws_armed s ∧
  (length (ws_futures s') = length (ws_futures s) ∧ ws_terminal s' = ws_terminal s ∨ ws_terminal s = None ∧ ws_terminal s' ≠ None).

Definition move_ok (d : gset nat) (r : Rule) (rest : list Rule) (s : dnsRuleWalkState) (w : walkMove) : Prop :=
  match w with
  | Next s' => ws_ruleIndex s' = ws_ruleIndex s ∧ inv d rest (set_ruleIndex (S (ws_ruleIndex s)) s') ∧
      narrows (results rest s') (results (r :: rest) s)
  | Stop e _ => may_give (results (r :: rest) s) (ending_outcome dds ask e) ∧ ∀ p, e ≠ Pends p
  | Suspend (Pending p) s' => ws_armed s' = [] ∧ pending_ok p s' ∧
      may_give (results (r :: rest) s) (inl (finishPendingExchange dds ask p s'))
  | Suspend x s' => inv d (r :: rest) s' ∧ stays s s' ∧ suspend_ok d x s' ∧
      narrows (results (r :: rest) s') (results (r :: rest) s)
  end.

Lemma omap_tail {A B} (g : A → option B) x l (b : B) : b ∈ omap g l → b ∈ omap g (x :: l).
Proof. cbn. destruct (g x); [|done]. intros H. by right. Qed.
Lemma omap_head {A B} (g : A → option B) x l (b : B) : g x = Some b → b ∈ omap g (x :: l).
Proof. cbn. intros ->. by left. Qed.

Lemma armed_tail d r rest s a : armed_ok d (r :: rest) s a → armed_ok d rest s a.
Proof. intros A. destruct A as [? ? ? ? Hl]. split; try done. intros tag Ht Hin. by apply (Hl tag Ht), omap_tail. Qed.

Lemma set_ruleIndex_view i s :
  ws_armed (set_ruleIndex i s) = ws_armed s ∧ (∀ rest, results rest (set_ruleIndex i s) = results rest s).
Proof. by destruct s. Qed.

(** Passing on to the next rule. *)
Lemma inv_advance d r rest s :
  sane d s → Forall (armed_ok d rest s) (ws_armed s) → Forall (λ a, ar_futures a ≠ []) (ws_armed s) →
  (∀ tag, tag ∈ omap evaluate_tag rest → ws_namedFutures s !! tag = None) →
  (∀ f i, ws_terminal s = Some (f, i) → (i ≤ ws_ruleIndex s)%nat ∧ (f < length (ws_futures s))%nat) →
  walkable (r :: rest) → inv d rest (set_ruleIndex (S (ws_ruleIndex s)) s).
Proof.
  intros H1 H2 H3 H4 H5 (_ & _ & _ & _ & H6). split; try done.
  - destruct H1. by destruct s.
  - destruct s; cbn in *. eapply Forall_impl; [exact H2|]. intros a []. by split.
  - by destruct s.
  - by destruct s.
  - intros f i Hf. destruct (H5 f i) as [Hi Hl]; [by destruct s|]. destruct s; cbn in *. split_and!; [lia|done|lia].
Qed.
Lemma inv_next d r rest s : inv d (r :: rest) s → inv d rest (set_ruleIndex (S (ws_ruleIndex s)) s).
Proof.
  intros I. apply (inv_advance d r).
  - apply (inv_sane _ _ _ _ _ _ _ _ I).
  - eapply Forall_impl; [apply (inv_armed _ _ _ _ _ _ _ _ I)|]. intros a. apply armed_tail.
  - apply (inv_parked _ _ _ _ _ _ _ _ I).
  - intros tag Ht. apply (inv_fresh _ _ _ _ _ _ _ _ I). by apply omap_tail.
  - intros f i Hf. destruct (inv_terminal _ _ _ _ _ _ _ _ I f i Hf) as (? & ? & _). done.
  - apply (inv_walkable _ _ _ _ _ _ _ _ I).
Qed.

Lemma results_passed r rest s :
  ref_holds (abstract s) r = false → results (r :: rest) s = results rest s.
Proof. intros H. unfold DnsRouterRefine.results. cbn [DnsRouterSpec.sequential]. by rewrite H. Qed.
Lemma results_matched r rest s :
  ref_holds (abstract s) r = true → hasBindings r && Race r = false →
  results (r :: rest) s =
    match ref_end (abstract s) r with
    | Some x => (omap (offer s) (ws_armed s) ++ [], x)
    | None => let '(offers, last) := sequential rest (ref_next tm dds ask (abstract s) r) in (omap (offer s) (ws_armed s) ++ offers, last)
    end.
Proof.
  intros H Hr. unfold DnsRouterRefine.results. cbn [DnsRouterSpec.sequential]. rewrite H, Hr. cbn.
  by destruct (ref_end (abstract s) r).
Qed.

Section action.
Context (d : gset nat) (r : Rule) (rest : list Rule) (s : dnsRuleWalkState).
Context (I : inv d (r :: rest) s) (Hholds : ref_holds (abstract s) r = true) (Hrace : hasBindings r && Race r = false).

(** A rule that neither ends the walk nor changes its state. *)
Lemma pass_ok : ref_end (abstract s) r = None → ref_next tm dds ask (abstract s) r = abstract s → move_ok d r rest s (Next s).
Proof using I Hholds Hrace.
  intros He Hn. cbn. split; [done|]. split; [by apply (inv_next d r)|]. rewrite results_matched, He, Hn by done. done.
Qed.
Lemma drain_ok : ws_armed s ≠ [] → move_ok d r rest s (Suspend Drain s).
Proof using I. intros H. cbn. split_and!; [done|by split; [|split; [|left]]|done|done]. Qed.
(** The walk ends. *)
Lemma end_gives x : ws_armed s = [] → ref_end (abstract s) r = Some x → may_give (results (r :: rest) s) x.
Proof using Hholds Hrace. intros Ha He. rewrite results_matched, He, Ha by done. right. done. Qed.

Lemma unlessArmed_ok w : (ws_armed s = [] → move_ok d r rest s w) → move_ok d r rest s (unlessArmed s w).
Proof using I. intros H. unfold unlessArmed. destruct (ws_armed s) eqn:E; [by apply H|]. apply drain_ok. by rewrite E. Qed.

#[local] Abbreviation f := (length (ws_futures s)).
#[local] Abbreviation future tag t o := (mkFuture tag t (finalize o) false).

Lemma tag_not_armed a tag :
  a ∈ ws_armed s → evaluate_tag r = Some tag → tag ∉ MatchResponseTags (ar_rule a).
Proof using I.
  intros Ha He Ht. pose proof (inv_armed _ _ _ _ _ _ _ _ I) as H. rewrite Forall_forall in H.
  by apply (ao_later _ _ _ _ (H a Ha) tag Ht), omap_head.
Qed.
Lemma parked a : a ∈ ws_armed s → ar_futures a ≠ [].
Proof using I. intros Ha. pose proof (inv_parked _ _ _ _ _ _ _ _ I) as H. rewrite Forall_forall in H. by apply H. Qed.
Lemma armed_inv a : a ∈ ws_armed s → armed_ok d (r :: rest) s a.
Proof using I. intros Ha. pose proof (inv_armed _ _ _ _ _ _ _ _ I) as H. rewrite Forall_forall in H. by apply H. Qed.

(** What a launch leaves as it is. *)
Lemma extend_offers fu anonymous terminal :
  (fu_tag fu = EmptyString ∨ evaluate_tag r = Some (fu_tag fu)) →
  omap (offer (extend fu anonymous (if String.eqb (fu_tag fu) "" then ws_namedFutures s else <[fu_tag fu := f]> (ws_namedFutures s)) terminal s)) (ws_armed s) =
  omap (offer s) (ws_armed s).
Proof using I.
  intros Ht. apply list_omap_ext, Forall2_same_length_lookup_2; [done|]. intros i x y Hx Hy.
  assert (x = y) as -> by congruence. apply list_elem_of_lookup_2 in Hy.
  eapply extend_offer; [apply (inv_sane _ _ _ _ _ _ _ _ I)|done|by apply armed_inv|].
  destruct Ht as [Ht|Ht]; [by right|left]. by eapply tag_not_armed.
Qed.
Lemma extend_armed fu anonymous terminal :
  fu_settled fu = false → (fu_tag fu = EmptyString ∨ evaluate_tag r = Some (fu_tag fu)) →
  Forall (armed_ok d (r :: rest) (extend fu anonymous (if String.eqb (fu_tag fu) "" then ws_namedFutures s else <[fu_tag fu := f]> (ws_namedFutures s)) terminal s)) (ws_armed s).
Proof using I.
  intros Hs Ht. apply Forall_forall. intros a Ha.
  eapply extend_armed_ok; [done|done|by apply armed_inv| |by apply parked].
  destruct Ht as [Ht|Ht]; [by right|left]. by eapply tag_not_armed.
Qed.
Lemma omap_extend_eval fu anonymous named terminal :
  omap (eval (extend fu anonymous named terminal s)) (ws_namedFutures s) = omap (eval s) (ws_namedFutures s).
Proof using I.
  apply omap_eval_ext. intros tag g Hg. apply extend_eval. eapply named_launched; [apply (inv_sane _ _ _ _ _ _ _ _ I)|done].
Qed.
Lemma anonymous_extend_eval fu anonymous named terminal :
  ws_anonymous s ≫= eval (extend fu anonymous named terminal s) = ws_anonymous s ≫= eval s.
Proof using I.
  destruct (ws_anonymous s) as [g|] eqn:E; [|done]. cbn. apply extend_eval.
  by apply (sane_anonymous _ _ _ _ (inv_sane _ _ _ _ _ _ _ _ I)).
Qed.
Lemma extend_eval_new fu anonymous named terminal :
  eval (extend fu anonymous named terminal s) f =
  Some (fu_transport fu, match ask (fu_transport fu) (fu_options fu) with inl m => Some m | inr _ => None end).
Proof using. unfold DnsRouterRefine.eval. by rewrite extend_new. Qed.

(** The speculative launch of the server the walk is to end with. *)
Lemma terminal_launch_ok server speculative o t o' :
  Rule_Action r = Some (RuleActionDNSRoute server speculative o) → resolve server o (ws_options s) = RouteResolved t o' →
  ws_armed s ≠ [] → ws_terminal s = None →
  move_ok d r rest s (Suspend Drain (extend (future "" t o') (ws_anonymous s) (ws_namedFutures s) (Some (f, ws_ruleIndex s)) s)).
Proof using I Hholds Hrace.
  intros Hact Hres Ha Ht. cbn.
  pose proof (extend_offers (future "" t o') (ws_anonymous s) (Some (f, ws_ruleIndex s)) (or_introl eq_refl)) as Hoff.
  pose proof (extend_armed (future "" t o') (ws_anonymous s) (Some (f, ws_ruleIndex s)) eq_refl (or_introl eq_refl)) as Harm.
  cbn in Hoff, Harm. set (s' := extend _ _ _ _ _) in *.
  split_and!; [| |done|].
  - split; try done.
    + apply extend_sane; try done; [apply (inv_sane _ _ _ _ _ _ _ _ I)|by left].
    + apply (inv_parked _ _ _ _ _ _ _ _ I).
    + apply (inv_fresh _ _ _ _ _ _ _ _ I).
    + intros g i [= <- <-]. split_and!; [done|unfold s'; rewrite extend_length; lia|]. intros _.
      exists r, rest, server, speculative, o, t, o', (future "" t o'). split_and!; try done. apply extend_new.
    + apply (inv_walkable _ _ _ _ _ _ _ _ I).
  - split; [done|]. split; [done|]. right. done.
  - unfold DnsRouterRefine.results. assert (abstract s' = abstract s) as ->.
    { unfold DnsRouterRefine.abstract, s'. cbn [extend ws_options ws_anonymous ws_namedFutures].
      by rewrite anonymous_extend_eval, omap_extend_eval. }
    cbn [extend ws_armed]. change (ws_armed s') with (ws_armed s). by rewrite Hoff.
Qed.

(** The launch of an evaluation. *)
Lemma evaluate_launch_ok server tag speculative o t :
  Rule_Action r = Some (RuleActionEvaluate server tag speculative o) → tm_Transport tm server = Some t →
  move_ok d r rest s (Next (extend (future tag t (applyDNSRouteOptions (ws_options s) o))
    (if String.eqb tag "" then Some f else ws_anonymous s)
    (if String.eqb tag "" then ws_namedFutures s else <[tag := f]> (ws_namedFutures s)) (ws_terminal s) s)).
Proof using I Hholds Hrace.
  intros Hact Ht. set (fu := future tag t (applyDNSRouteOptions (ws_options s) o)).
  assert (Htag : fu_tag fu = EmptyString ∨ evaluate_tag r = Some (fu_tag fu)).
  { unfold evaluate_tag. rewrite Hact. cbn. destruct (String.eqb_spec tag ""); auto. }
  pose proof (extend_offers fu (if String.eqb tag "" then Some f else ws_anonymous s) (ws_terminal s) Htag) as Hoff.
  pose proof (extend_armed fu (if String.eqb tag "" then Some f else ws_anonymous s) (ws_terminal s) eq_refl Htag) as Harm.
  change (fu_tag fu) with tag in Hoff, Harm. cbn [move_ok]. set (s' := extend _ _ _ _ _) in *.
  assert (Hfresh : tag ≠ EmptyString → ws_namedFutures s !! tag = None).
  { intros Hne. apply (inv_fresh _ _ _ _ _ _ _ _ I). destruct Htag; [done|]. by apply omap_head. }
  split; [done|]. split.
  - change (ws_ruleIndex s) with (ws_ruleIndex s'). apply (inv_advance d r rest s').
    + apply extend_sane; try done; [apply (inv_sane _ _ _ _ _ _ _ _ I)|]. destruct (String.eqb tag ""); [by right|by left].
    + eapply Forall_impl; [exact Harm|]. intros a. apply armed_tail.
    + apply (inv_parked _ _ _ _ _ _ _ _ I).
    + intros tag' Ht'. unfold s'; cbn.
      assert (ws_namedFutures s !! tag' = None) as Hn by (apply (inv_fresh _ _ _ _ _ _ _ _ I); by apply omap_tail).
      destruct (String.eqb_spec tag "") as [|Hne]; [done|]. rewrite lookup_insert_ne; [done|]. intros ->.
      destruct (inv_walkable _ _ _ _ _ _ _ _ I) as (_ & _ & _ & Hd & _). destruct Htag as [|Htag]; [done|]. by apply (Hd tag').
    + intros g i Hg. destruct (inv_terminal _ _ _ _ _ _ _ _ I g i Hg) as (? & ? & _). split; [done|].
      unfold s'. rewrite extend_length. lia.
    + apply (inv_walkable _ _ _ _ _ _ _ _ I).
  - rewrite results_matched by done. assert (ref_end (abstract s) r = None) as ->.
    { unfold DnsRouterSpec.ref_end. by rewrite Hact. }
    unfold DnsRouterRefine.results at 1. change (ws_armed s') with (ws_armed s). rewrite Hoff.
    assert (abstract s' = ref_next tm dds ask (abstract s) r) as ->; [|done].
    unfold ref_next. rewrite Hact, Ht. cbn [fmap option_fmap option_map]. unfold DnsRouterRefine.abstract, s'.
    cbn [extend ws_options ws_anonymous ws_namedFutures rf_options rf_anonymous rf_named].
    destruct (String.eqb_spec tag "") as [E|E].
    + rewrite omap_extend_eval. cbn. by rewrite extend_eval_new.
    + rewrite anonymous_extend_eval. f_equal. apply map_eq. intros tag'. rewrite lookup_omap.
      destruct (decide (tag' = tag)) as [->|Hne].
      * rewrite !lookup_insert_eq. cbn. by rewrite extend_eval_new.
      * rewrite !lookup_insert_ne by done. rewrite <- lookup_omap. by rewrite omap_extend_eval.
Qed.

(** The responses the rule is bound to are there. *)
Definition ready : Prop :=
  (∀ tag g, tag ∈ MatchResponseTags r → ws_namedFutures s !! tag = Some g → settled s g) ∧
  (MatchResponseAnonymous r = true → ∀ g, ws_anonymous s = Some g → g ∈ d).

Lemma respond_ok : ready → Rule_Action r = Some RuleActionRespond → move_ok d r rest s (walkAction tm dds ask question allowFakeIP d r s).
Proof using I Hholds Hrace.
  intros [Htags Hanon] Hact. unfold walkAction. rewrite Hact. apply unlessArmed_ok. intros Ha.
  pose proof (inv_sane _ _ _ _ _ _ _ _ I) as S.
  assert (Hend : ref_end (abstract s) r = Some (inl (ref_respond (abstract s) r))) by (unfold DnsRouterSpec.ref_end; by rewrite Hact).
  assert (Hstop : ∀ x, x = ref_respond (abstract s) r → move_ok d r rest s (Stop (Answer_ x) s)).
  { intros x ->. split; [|done]. by apply end_gives. }
  destruct (String.eqb_spec (MatchResponseTag r) "") as [Ht|Ht]; cbn [negb].
  - assert (Hdone : (∀ g, ws_anonymous s = Some g → g ∈ d) → move_ok d r rest s
      (Stop (Answer_ (responded (ws_anonymous s ≫= λ f0, (λ m, (m, transportOf s f0)) <$> view ask d s f0))) s)).
    { intros Hg. apply Hstop. unfold ref_respond. rewrite (proj2 (String.eqb_eq _ _) Ht). cbn [abstract rf_anonymous].
      destruct (ws_anonymous s) as [g|]; [|done]. cbn. rewrite (responded_anonymous ask d) by auto. done. }
    destruct (hasBindings r) eqn:Hb.
    + destruct (inv_walkable _ _ _ _ _ _ _ _ I) as (_ & Hr & _). destruct (Hr Hact Hb Ht) as [Hx _]. auto.
    + destruct (ws_anonymous s) as [g|] eqn:Hg; cbn [unresolved]; [|by apply Hdone].
      destruct (decide (g ∈ d)) as [Hd|Hd].
      * rewrite bool_decide_eq_true_2 by done. apply Hdone. by intros ? [= <-].
      * rewrite bool_decide_eq_false_2 by done. cbn. split; [done|].
        split; [by split; [|split; [|left]]|]. split; [|done]. split; [by apply (sane_anonymous _ _ _ _ S)|done].
  - apply Hstop. unfold ref_respond. apply String.eqb_neq in Ht as Ht'. rewrite Ht'. cbn [abstract rf_named].
    eapply responded_named; [done|]. intros g. apply Htags. rewrite MatchResponseTag_bound by done. by apply list_elem_of_singleton.
Qed.

Lemma route_ok server speculative o :
  Rule_Action r = Some (RuleActionDNSRoute server speculative o) → move_ok d r rest s (walkAction tm dds ask question allowFakeIP d r s).
Proof using I Hholds Hrace.
  intros Hact. unfold walkAction. rewrite Hact.
  assert (Hend : ref_end (abstract s) r = match resolve server o (ws_options s) with RouteResolved t o => Some (ref_exchange dds ask t o) | _ => None end).
  { unfold DnsRouterSpec.ref_end. by rewrite Hact. }
  assert (Hnext : ref_next tm dds ask (abstract s) r = abstract s) by (unfold ref_next; by rewrite Hact).
  destruct (resolve server o (ws_options s)) as [| |t o'] eqn:Hres; [by apply pass_ok|by apply pass_ok|].
  assert (Hnew : ws_armed s = [] → move_ok d r rest s (Suspend (Pending (mkPending t o' None)) s)).
  { intros Ha. split; [done|]. split; [done|]. by apply end_gives. }
  destruct (ws_armed s) as [|a l] eqn:Ha; cbn [nonempty].
  - destruct (ws_terminal s) as [[g i]|] eqn:Hg; [|by apply Hnew].
    destruct (Nat.eqb_spec i (ws_ruleIndex s)) as [Hi|]; [|by apply Hnew].
    destruct (inv_terminal _ _ _ _ _ _ _ _ I g i Hg) as (_ & Hl & Hx).
    destruct (Hx Hi) as (r' & rest' & server' & sp' & o1 & t' & o2 & fu & Hr & Hact' & Hres' & Hfu & Htr & Hopt).
    injection Hr as <- <-. rewrite Hact in Hact'. injection Hact' as <- <- <-. rewrite Hres in Hres'. injection Hres' as <- <-.
    split; [done|]. split; [by intros ? [= <-]|]. unfold finishPendingExchange. cbn [pe_future]. rewrite Hfu, Htr, Hopt.
    by apply end_gives.
  - assert (Hne : ws_armed s ≠ []) by by rewrite Ha.
    destruct speculative; [|by apply drain_ok]. destruct (ws_terminal s) eqn:Ht; [by apply drain_ok|].
    pose proof (terminal_launch_ok server true o t o' Hact Hres Hne Ht) as H.
    cbn [launchDNSEvaluate].
    match goal with |- move_ok _ _ _ _ ?x => match type of H with move_ok _ _ _ _ ?y => replace x with y; [done|] end end.
    clear. by destruct s.
Qed.

Lemma evaluate_ok server tag speculative o :
  Rule_Action r = Some (RuleActionEvaluate server tag speculative o) → move_ok d r rest s (walkAction tm dds ask question allowFakeIP d r s).
Proof using I Hholds Hrace.
  intros Hact. unfold walkAction. rewrite Hact.
  assert (Hend : ref_end (abstract s) r = None) by (unfold DnsRouterSpec.ref_end; by rewrite Hact).
  destruct (tm_Transport tm server) as [t|] eqn:Ht.
  - destruct (negb speculative && nonempty (ws_armed s)) eqn:Hn.
    { apply drain_ok. intros E. by rewrite E, andb_false_r in Hn. }
    pose proof (evaluate_launch_ok server tag speculative o t Hact Ht) as H. cbn [launchDNSEvaluate].
    match goal with |- move_ok _ _ _ _ ?x => match type of H with move_ok _ _ _ _ ?y => replace x with y; [done|] end end.
    clear. destruct (String.eqb tag ""); by destruct s.
  - assert (Hnext : ref_next tm dds ask (abstract s) r = if String.eqb tag "" then mkRef (ws_options s) None (rf_named (abstract s)) else abstract s).
    { unfold ref_next. rewrite Hact, Ht. done. }
    destruct (String.eqb_spec tag "") as [E|E]; [|by apply pass_ok]. cbn [move_ok]. split; [by destruct s|]. split.
    + replace (ws_ruleIndex s) with (ws_ruleIndex (set_anonymous None s)) by by destruct s. apply (inv_advance d r).
      * pose proof (inv_sane _ _ _ _ _ _ _ _ I) as []. by destruct s.
      * replace (ws_armed (set_anonymous None s)) with (ws_armed s) by by destruct s. apply Forall_forall. intros a Ha.
        pose proof (armed_tail _ _ _ _ _ (armed_inv a Ha)) as [A1 A2 A3 A4 A5 A6 A7 A8 A9]. split; try (by destruct s).
        intros X Y Z. destruct (A8 X Y Z). split; [done|by destruct s].
      * pose proof (inv_parked _ _ _ _ _ _ _ _ I). by destruct s.
      * intros tag' Ht'. assert (ws_namedFutures s !! tag' = None) by (apply (inv_fresh _ _ _ _ _ _ _ _ I); by apply omap_tail). by destruct s.
      * intros g i Hg. destruct (inv_terminal _ _ _ _ _ _ _ _ I g i) as (? & ? & _); by destruct s.
      * apply (inv_walkable _ _ _ _ _ _ _ _ I).
    + rewrite results_matched, Hend, Hnext by done. unfold DnsRouterRefine.results.
      replace (abstract (set_anonymous None s)) with (mkRef (ws_options s) None (rf_named (abstract s))) by by destruct s.
      assert (omap (offer (set_anonymous None s)) (ws_armed (set_anonymous None s)) = omap (offer s) (ws_armed s)) as ->; [|done].
      by destruct s.
Qed.

Lemma walkAction_ok : ready → move_ok d r rest s (walkAction tm dds ask question allowFakeIP d r s).
Proof using I Hholds Hrace.
  intros Hready. destruct (Rule_Action r) as [a|] eqn:Hact.
  2: { unfold walkAction. rewrite Hact. apply pass_ok; [unfold DnsRouterSpec.ref_end|unfold ref_next]; by rewrite Hact. }
  destruct a.
  4: { unfold walkAction. rewrite Hact. apply unlessArmed_ok. intros Ha.
    assert (ref_end (abstract s) r = inl <$> rejected r0) as He by (unfold DnsRouterSpec.ref_end; by rewrite Hact).
    destruct (rejected r0) eqn:Hrej; [split; [by apply end_gives|done]|].
    apply pass_ok; [done|unfold ref_next; by rewrite Hact]. }
  7: by eapply route_ok.
  7: by eapply evaluate_ok.
  7: by apply respond_ok.
  7: { unfold walkAction. rewrite Hact. cbn [move_ok]. split; [by destruct s|]. split.
    - pose proof (inv_next d r rest s I) as [J1 J2 J3 J4 J5 J6]. destruct s; cbn in *. split; try done.
      + by destruct J1.
      + eapply Forall_impl; [exact J2|]. intros a []. by split.
      + intros g i Hg. cbn in Hg. destruct (J5 g i Hg) as (? & ? & _). split_and!; [done|done|]. intros Hi. cbn in Hi, Hg.
        destruct (inv_terminal _ _ _ _ _ _ _ _ I g i Hg) as (? & _ & _). cbn in *. lia.
    - rewrite results_matched by done. assert (ref_end (abstract s) r = None) as -> by (unfold DnsRouterSpec.ref_end; by rewrite Hact).
      unfold ref_next. rewrite Hact. by destruct s. }
  7: { unfold walkAction. rewrite Hact. apply unlessArmed_ok. intros Ha. split.
    - rewrite predefined_outcome. apply end_gives; [done|]. unfold DnsRouterSpec.ref_end. by rewrite Hact.
    - intros p. unfold predefinedEnding. by destruct (predefined _ _ _ _ _). }
  all: unfold walkAction; rewrite Hact; apply pass_ok; [unfold DnsRouterSpec.ref_end|unfold ref_next]; by rewrite Hact.
Qed.
End action.

(** ** Waiting and arming *)

Lemma armed_ok_mono d d' rest s a : d ⊆ d' → armed_ok d rest s a → armed_ok d' rest s a.
Proof.
  intros H A. destruct A as [A1 A2 A3 A4 A5 A6 A7 A8 A9]. split; try done.
  intros g Hg. destruct (A7 g Hg) as [? [?|?]]; split; auto.
Qed.
Lemma inv_view d d' rest s s' :
  d ⊆ d' → same_view s s' → ws_armed s' = ws_armed s → sane d' s' → inv d rest s → inv d' rest s'.
Proof.
  intros Hd V Ha S []. split; try done; rewrite ?Ha; try done.
  - eapply Forall_impl; [exact inv_armed|]. intros a A. eapply sv_armed_ok; [exact V|]. by eapply armed_ok_mono.
  - intros tag. rewrite (sv_named _ _ V). apply inv_fresh.
  - by eapply sv_terminal_ok.
Qed.
Lemma inv_mono d d' rest s : d ⊆ d' → inv d rest s → inv d' rest s.
Proof. intros Hd I. eapply inv_view; [exact Hd|apply same_view_refl|done| |exact I]. eapply sane_mono; [done|]. by destruct I. Qed.

Lemma move_ok_view d r rest s s' w :
  same_view s s' → ws_armed s' = ws_armed s → move_ok d r rest s' w → move_ok d r rest s w.
Proof.
  intros V Ha. pose proof (sv_results rt tm dds ask question allowFakeIP m0 (r :: rest) s s' V Ha) as Hr.
  destruct w as [s1|e s1|[g| |p] s1]; cbn; rewrite Hr, ?(sv_index _ _ V); try done.
  all: unfold stays; rewrite (sv_index _ _ V), (sv_length _ _ V), (sv_terminal _ _ V), Ha; done.
Qed.

Lemma unresolved_spec (d : gset nat) x g : g ∈ unresolved d x ↔ x = Some g ∧ g ∉ d.
Proof.
  destruct x as [g'|]; cbn; [|split; [by intros ?%elem_of_nil|by intros [? _]]].
  destruct (decide (g' ∈ d)).
  - rewrite bool_decide_eq_true_2 by done. split; [by intros ?%elem_of_nil|]. by intros [[= ->] ?].
  - rewrite bool_decide_eq_false_2 by done. rewrite list_elem_of_singleton. split; [by intros ->|by intros [[= ->] ?]].
Qed.
Lemma boundFutures_spec d r s g :
  g ∈ boundFutures d r s ↔
  g ∉ d ∧ ((∃ tag, tag ∈ MatchResponseTags r ∧ ws_namedFutures s !! tag = Some g) ∨ MatchResponseAnonymous r = true ∧ ws_anonymous s = Some g).
Proof.
  unfold boundFutures. rewrite elem_of_app, list_elem_of_bind. split.
  - intros [(tag & Hu & Ht)|H].
    + apply unresolved_spec in Hu as [? ?]. split; [done|]. left. by exists tag.
    + destruct (MatchResponseAnonymous r); [|by apply elem_of_nil in H]. apply unresolved_spec in H as [? ?]. auto.
  - intros [Hd [(tag & Ht & Hg)|[-> Hg]]].
    + left. exists tag. split; [by apply unresolved_spec|done].
    + right. by apply unresolved_spec.
Qed.
Lemma boundFutures_launched d d' r s g : sane d' s → g ∈ boundFutures d r s → (g < length (ws_futures s))%nat.
Proof.
  intros S H. apply boundFutures_spec in H as [_ [(tag & _ & Hg)|[_ Hg]]].
  - by eapply named_launched.
  - by apply (sane_anonymous _ _ _ _ S).
Qed.

(** A rule whose futures have all ended. *)
Lemma bound_ready d r s : sane d s → all_settled d s → boundFutures d r s = [] → ready d r s.
Proof.
  intros S Hall Hb. assert (Hno : ∀ g, g ∉ boundFutures d r s) by (intros g; rewrite Hb; apply not_elem_of_nil). split.
  - intros tag g Ht Hg. apply Hall; [by eapply named_launched|]. destruct (decide (g ∈ d)); [done|]. exfalso.
    apply (Hno g), boundFutures_spec. split; [done|]. left. by exists tag.
  - intros Ha g Hg. destruct (decide (g ∈ d)); [done|]. exfalso. apply (Hno g), boundFutures_spec. auto.
Qed.
Lemma unbound_ready d r s : hasBindings r = false → ready d r s.
Proof.
  intros H. unfold hasBindings in H. apply orb_false_iff in H as [H1 H2]. split; [|by rewrite H2].
  destruct (MatchResponseTags r); [|done]. intros tag g Ht. by apply elem_of_nil in Ht.
Qed.

(** The tail of a round: match the rule and act on it. *)
Definition go (d : gset nat) (r : Rule) (s : dnsRuleWalkState) : walkMove :=
  let '(matched, s) := matchWith rt (anonymousResponse ask d s) r s in
  if matched then walkAction tm dds ask question allowFakeIP d r s else Next s.
Lemma go_ok d r rest s :
  inv d (r :: rest) s → ready d r s → hasBindings r && Race r = false → move_ok d r rest s (go d r s).
Proof.
  intros I [Ht Ha] Hrace. unfold go. destruct (matchWith rt _ r s) as [b s1] eqn:Hm.
  pose proof (inv_sane _ _ _ _ _ _ _ _ I) as S.
  destruct (matchWith_spec rt ask m0 d _ r s b s1 S Hm) as (Hb & V & Harm & S1 & _).
  assert (I1 : inv d (r :: rest) s1) by by eapply inv_view.
  assert (Hv : b = ref_holds (abstract s1) r).
  { rewrite (sv_abstract ask s s1 V), Hb. apply (ref_holds_view rt ask m0 d); try done.
    - by destruct (inv_walkable _ _ _ _ _ _ _ _ I) as (? & _).
    - intros Hx. unfold anonymousResponse. cbn. destruct (ws_anonymous s) as [g|] eqn:Hg; [|done]. cbn. apply view_done. auto. }
  apply (move_ok_view d r rest s s1); [done|done|]. destruct b.
  - apply walkAction_ok; [done|done|done|]. split.
    + intros tag g Htag Hg. apply (sv_settled _ _ V). eapply Ht; [done|]. by rewrite <- (sv_named _ _ V).
    + intros Hx g. rewrite (sv_anonymous _ _ V). auto.
  - cbn. split; [done|]. split; [by apply (inv_next d r)|]. by rewrite results_passed.
Qed.

(** An armed rule takes the place of the rule in what may be given. *)
Definition arm (d : gset nat) (r : Rule) (s : dnsRuleWalkState) : dnsArmedRule :=
  mkArmed r (boundFutures d r s) (if MatchResponseAnonymous r then ws_anonymous s else None) (MatchResponseAnonymous r) (ws_options s).

Lemma arm_offer d r rest s :
  inv d (r :: rest) s → hasBindings r = true →
  offer s (arm d r s) = if ref_holds (abstract s) r then ref_end (abstract s) r else None.
Proof.
  intros I Hb. destruct (inv_walkable _ _ _ _ _ _ _ _ I) as (Hbound & Hresp & _). unfold DnsRouterRefine.offer.
  change (ar_rule (arm d r s)) with r.
  rewrite (ref_holds_ext rt m0 (armed_abstract ask s (arm d r s)) (abstract s)); [|done|done|by cbn; intros ->].
  destruct (ref_holds (abstract s) r); [|done]. unfold DnsRouterSpec.ref_end.
  destruct (Rule_Action r) as [[]|] eqn:Hact; try done. unfold ref_respond.
  destruct (String.eqb_spec (MatchResponseTag r) "") as [Ht|]; [|done].
  destruct (Hresp Hact Hb Ht) as [Hx _]. cbn. by rewrite Hx.
Qed.
Lemma arm_results d r rest s l :
  inv d (r :: rest) s → hasBindings r = true → Race r = true → l = ws_armed s ++ [arm d r s] →
  results (r :: rest) s = results rest (set_armed l s).
Proof.
  intros I Hb Hr ->. pose proof (set_armed_view (ws_armed s ++ [arm d r s]) s) as V. unfold DnsRouterRefine.results. cbn [DnsRouterSpec.sequential]. rewrite Hb, Hr. cbn [andb].
  rewrite (sv_abstract ask _ _ V), set_armed_armed, (sv_offers rt tm dds ask question allowFakeIP m0 _ _ _ V), omap_app.
  assert (omap (offer s) [arm d r s] = match offer s (arm d r s) with Some x => [x] | None => [] end) as -> by done.
  rewrite (arm_offer d r rest) by done.
  destruct (ref_holds (abstract s) r); cbn [negb].
  - destruct (sequential rest (abstract s)), (ref_end (abstract s) r); rewrite <- ?app_assoc, ?app_nil_r; done.
  - by rewrite app_nil_r.
Qed.
Lemma arm_ok d r rest s :
  inv d (r :: rest) s → all_settled d s → hasBindings r = true → armed_ok d rest s (arm d r s).
Proof.
  intros I Hall Hb. destruct (inv_walkable _ _ _ _ _ _ _ _ I) as (Hbound & Hresp & Hlater & _).
  pose proof (inv_sane _ _ _ _ _ _ _ _ I) as S. split; try done.
  - intros tag Ht Hin. by apply (Hlater tag Ht), omap_tail.
  - intros tag g Ht Hg. destruct (decide (g ∈ d)).
    + left. apply Hall; [by eapply named_launched|done].
    + right. apply boundFutures_spec. split; [done|]. left. by exists tag.
  - cbn. destruct (MatchResponseAnonymous r) eqn:E; [|done]. intros g Hg. split; [by apply (sane_anonymous _ _ _ _ S)|].
    destruct (decide (g ∈ d)); [by left|right]. apply boundFutures_spec. auto.
  - cbn. intros Hx Hy. rewrite Hx. intros Hn. split; [|done]. unfold boundFutures. by rewrite Hx, Hy, Hn.
  - intros g. by eapply boundFutures_launched.
Qed.
End walk.
