(* ===== verification/DnsRouterRuns.v ===== *)
(** Whole exchanges in which no future ends between the settling and the looking
    of a round: what they give. *)

From S2P Require Import Prelude GoBytes GoSlices GoStrings Netip Metadata RuleItems RuleAction RuleMatch.
From S2P Require Import RuleSemantics RuleTheorems DnsMessage DnsClient DnsRouter DnsRouterSpec DnsRouterRefine DnsRouterWalk.

Section runs.
Context {EX : External} (rt : Runtime) {RL : RuntimeLaws rt} (tm : TransportManager) (dds : DomainStrategy).
Context (ask : Transport → DNSQueryOptions → Message + goerr) (question : string) (allowFakeIP : bool).
Context (m0 : InboundContext).

#[local] Abbreviation results := (results rt tm dds ask question allowFakeIP m0).
#[local] Abbreviation offer := (offer rt tm dds ask question allowFakeIP m0).
#[local] Abbreviation sane := (sane ask m0).
#[local] Abbreviation inv := (inv tm dds ask allowFakeIP m0).
#[local] Abbreviation move_ok := (move_ok rt tm dds ask question allowFakeIP m0).
#[local] Abbreviation finish := (finishPendingExchange dds ask).

(** ** The walk *)

Lemma finish_new p s : pe_future p = None → inl (finish p s) = ending_outcome dds ask (Pends p).
Proof. intros H. unfold finishPendingExchange. by rewrite H. Qed.

Lemma race_ok d r rest s :
  inv d (r :: rest) s → all_settled d s → hasBindings r = true → Race r = true →
  let s' := set_armed (ws_armed s ++ [arm d r s]) s in
  move_ok d r rest s
    (if nonempty (boundFutures d r s) then Next s'
     else match sweepArmedDNSRules rt tm ask question allowFakeIP d s' with
      | (Some (Pends p), s) => Suspend (Pending p) (set_armed [] s)
      | (Some e, s) => Stop e s
      | (None, s) => Next s
      end).
Proof.
  intros I Hall Hb Hr s'. pose proof (set_armed_view (ws_armed s ++ [arm d r s]) s) as V. fold s' in V.
  pose proof (inv_sane _ _ _ _ _ _ _ _ I) as S.
  assert (S' : sane d s') by by apply set_armed_sane.
  pose proof (arm_results rt tm dds ask question allowFakeIP m0 d r rest s _ I Hb Hr eq_refl) as Hres. fold s' in Hres.
  assert (Harm : ws_armed s' = ws_armed s ++ [arm d r s]) by apply set_armed_armed.
  assert (A : Forall (armed_ok d rest s') (ws_armed s')).
  { rewrite Harm. apply Forall_app. split.
    - eapply Forall_impl; [apply (inv_armed _ _ _ _ _ _ _ _ I)|]. intros a Ha. eapply sv_armed_ok; [done|]. by eapply armed_tail.
    - apply Forall_singleton. eapply sv_armed_ok; [done|]. by eapply arm_ok. }
  assert (Hadv : ∀ s1, same_view s s1 → sane d s1 → Forall (armed_ok d rest s1) (ws_armed s1) → Forall (λ a, ar_futures a ≠ []) (ws_armed s1) →
    inv d rest (set_ruleIndex (Datatypes.S (ws_ruleIndex s)) s1)).
  { intros s1 V1 H1 H2 H3. rewrite <- (sv_index _ _ V1). apply (inv_advance tm dds ask allowFakeIP m0 d r); try done.
    - intros tag Ht. rewrite (sv_named _ _ V1). apply (inv_fresh _ _ _ _ _ _ _ _ I). by apply omap_tail.
    - intros f i Hf. rewrite (sv_terminal _ _ V1) in Hf. rewrite (sv_index _ _ V1), (sv_length _ _ V1).
      by destruct (inv_terminal _ _ _ _ _ _ _ _ I f i Hf) as (? & ? & _).
    - apply (inv_walkable _ _ _ _ _ _ _ _ I). }
  destruct (boundFutures d r s) as [|g l] eqn:Hp; cbn [nonempty].
  - destruct (sweepArmedDNSRules _ _ _ _ _ d s') as [e s1] eqn:Hsw.
    destruct (sweepLoop_spec rt tm dds ask question allowFakeIP m0 d rest (ws_armed s') [] s' e s1) as (V1 & S1 & _ & Hs); try done.
    { by eapply sv_all_settled. }
    cbn [app] in Hs. destruct e as [e|].
    + destruct Hs as [Hin Hnew]. assert (Hg : may_give (results (r :: rest) s) (ending_outcome dds ask e)).
      { rewrite Hres. left. unfold DnsRouterRefine.results. destruct (sequential _ _ _ _ _ _ _ _ _). cbn. apply elem_of_app. by left. }
      destruct e as [x|p|x]; cbn [move_ok DnsRouterWalk.move_ok].
      * by split.
      * split; [apply set_armed_armed|]. cbn in Hnew. split; [intros f; by rewrite Hnew|]. by rewrite finish_new.
      * by split.
    + destruct Hs as (Ho & Ha & Hw). cbn. split; [by rewrite (sv_index _ _ V1), (sv_index _ _ V)|]. split.
      * apply Hadv; [by eapply same_view_trans|done|done|]. eapply Forall_impl; [exact Hw|]. intros a (f & Hf & _) E. rewrite E in Hf. by apply elem_of_nil in Hf.
      * rewrite Hres. unfold DnsRouterRefine.results. rewrite (sv_abstract ask _ _ V1).
        rewrite (sv_offers rt tm dds ask question allowFakeIP m0 s' s1 (ws_armed s1) V1), Ho. done.
  - cbn. split; [by rewrite (sv_index _ _ V)|]. split; [|by rewrite Hres]. apply Hadv; [done|done|done|].
    rewrite Harm. apply Forall_app. split; [apply (inv_parked _ _ _ _ _ _ _ _ I)|]. apply Forall_singleton. cbn. by rewrite Hp.
Qed.

Lemma walkRule_ok d d' r rest s :
  d ⊆ d' → inv d (r :: rest) s → move_ok d' r rest s (walkRule rt tm dds ask question allowFakeIP d' d' r s).
Proof.
  intros Hd I. unfold walkRule. destruct (hasBindings r) eqn:Hb; cbn [negb].
  - destruct (settle_spec ask m0 d d' s Hd (inv_sane _ _ _ _ _ _ _ _ I)) as (V & Ha & S & Hall).
    set (s1 := settleDNSFutures ask d' s) in *. apply (move_ok_view _ _ _ _ _ _ _ _ _ _ s s1); [done|done|].
    assert (I1 : inv d' (r :: rest) s1) by by eapply inv_view.
    destruct (Race r) eqn:Hr; [by apply race_ok|].
    destruct (boundFutures d' r s1) as [|g l] eqn:Hp.
    + apply go_ok; [done|done| |by rewrite Hb, Hr]. by apply (bound_ready ask m0).
    + cbn. split; [done|]. split; [by split; [|split; [|left]]|]. split; [|done]. split.
      * eapply boundFutures_launched; [done|]. rewrite Hp. by left.
      * assert (g ∈ boundFutures d' r s1) as Hg by (rewrite Hp; by left). by apply boundFutures_spec in Hg as [? _].
  - apply go_ok; [done|by eapply inv_mono|by apply unbound_ready|by rewrite Hb].
Qed.

Section walk.
Context (rules : list Rule) (D : gset nat).

#[local] Abbreviation left s := (results (drop (ws_ruleIndex s) rules) s).

Definition walk_ok (d : gset nat) (s : dnsRuleWalkState) (w : walkMove) : Prop :=
  match w with
  | Next _ => False
  | Stop e _ => may_give (left s) (ending_outcome dds ask e) ∧ ∀ p, e ≠ Pends p
  | Suspend (Pending p) s' => ws_armed s' = [] ∧ pending_ok p s' ∧ may_give (left s) (inl (finish p s'))
  | Suspend x s' => ∃ d', d ⊆ d' ∧ d' ⊆ D ∧ inv d' (drop (ws_ruleIndex s') rules) s' ∧ suspend_ok d' x s' ∧
      (ws_ruleIndex s ≤ ws_ruleIndex s' ≤ length rules)%nat ∧ (ws_ruleIndex s' = ws_ruleIndex s → stays s s') ∧
      narrows (left s') (left s)
  end.

Lemma stays_refl s : stays s s.
Proof. by split; [|split; [|left]]. Qed.

Lemma walkLoop_ok at_ rest d s :
  (∀ i, at_ i ⊆ D) → (∀ i j, (i < j)%nat → at_ i ⊆ at_ j) → (∀ i, (ws_ruleIndex s ≤ i)%nat → d ⊆ at_ i) → d ⊆ D →
  rest = drop (ws_ruleIndex s) rules → (ws_ruleIndex s ≤ length rules)%nat → inv d rest s →
  walk_ok d s (walkLoop rt tm dds ask question allowFakeIP at_ at_ rest s).
Proof.
  intros HD Hmono. revert d s. induction rest as [|r rest IH]; intros d s Hd HdD Hrest Hlen I; cbn [walkLoop].
  - unfold unlessArmed. destruct (ws_armed s) as [|a l] eqn:Ha; cbn [nonempty].
    + cbn. split; [done|]. split; [done|]. rewrite <- Hrest. unfold DnsRouterRefine.results. rewrite Ha. by right.
    + cbn. exists d. rewrite <- Hrest. split_and!; try done; [by rewrite Ha|intros _; apply stays_refl].
  - pose proof (walkRule_ok d (at_ (ws_ruleIndex s)) r rest s (Hd _ (le_n _)) I) as Hm.
    assert (Hlt : (ws_ruleIndex s < length rules)%nat).
    { destruct (decide (ws_ruleIndex s < length rules)%nat); [done|]. rewrite drop_ge in Hrest by lia. done. }
    assert (Hdrop : drop (Datatypes.S (ws_ruleIndex s)) rules = rest).
    { rewrite <- Nat.add_1_r, <- drop_drop, <- Hrest. done. }
    destruct (walkRule _ _ _ _ _ _ _ _ r s) as [s1|e s1|x s1].
    + destruct Hm as (Hi & I1 & Hn). rewrite Hi. set (s2 := set_ruleIndex (Datatypes.S (ws_ruleIndex s)) s1) in *.
      assert (Hi2 : ws_ruleIndex s2 = Datatypes.S (ws_ruleIndex s)) by by destruct s1.
      specialize (IH (at_ (ws_ruleIndex s)) s2). rewrite Hi2, Hdrop in IH.
      specialize (IH (λ i Hi', Hmono _ i Hi') (HD _) eq_refl Hlt I1).
      assert (Hleft : narrows (left s2) (left s)).
      { rewrite Hi2, Hdrop, <- Hrest. destruct (set_ruleIndex_view rt tm dds ask question allowFakeIP m0 (Datatypes.S (ws_ruleIndex s)) s1) as [_ Hv].
        unfold s2. by rewrite Hv. }
      destruct (walkLoop _ _ _ _ _ _ _ _ rest s2) as [s3|e s3|[g| |p] s3]; cbn in IH |- *; [done| | | |].
      * destruct IH. split; [by apply Hleft|done].
      * destruct IH as (d' & H1 & H2 & H3 & H4 & H5 & _ & H7). exists d'. rewrite Hi2 in *.
        split; [etrans; [by apply (Hd (ws_ruleIndex s))|done]|].
        split; [done|]. split; [done|]. split; [done|]. split; [lia|]. split; [lia|]. by etrans.
      * destruct IH as (d' & H1 & H2 & H3 & H4 & H5 & _ & H7). exists d'. rewrite Hi2 in *.
        split; [etrans; [by apply (Hd (ws_ruleIndex s))|done]|].
        split; [done|]. split; [done|]. split; [done|]. split; [lia|]. split; [lia|]. by etrans.
      * destruct IH as (H1 & H2 & H3). split_and!; [done|done|by apply Hleft].
    + cbn in Hm |- *. by rewrite <- Hrest.
    + destruct x as [g| |p]; cbn in Hm |- *; [| |by rewrite <- Hrest].
      all: destruct Hm as (H1 & H2 & H3 & H4); exists (at_ (ws_ruleIndex s)); pose proof H2 as (Hi & _); rewrite Hi, <- Hrest.
      all: split; [by apply Hd|]; split; [done|]; split; [done|]; split; [done|]; split; [lia|]; done.
Qed.
End walk.

(** ** The loop *)

Lemma settle_view d s : same_view s (settleDNSFutures ask d s) ∧ ws_armed (settleDNSFutures ask d s) = ws_armed s.
Proof.
  unfold settleDNSFutures. generalize (seq 0 (length (ws_futures s))) as l. intros l. revert s.
  induction l as [|f l IH]; intros s; cbn; [split; [apply same_view_refl|done]|].
  destruct (settleOne_view ask d s f) as [V A], (IH (settleOne ask d s f)) as [V' A'].
  split; [by eapply same_view_trans|congruence].
Qed.

Lemma walkLoop_ext f g f' g' rest s :
  (∀ i, f i = f' i) → (∀ i, g i = g' i) →
  walkLoop rt tm dds ask question allowFakeIP f g rest s = walkLoop rt tm dds ask question allowFakeIP f' g' rest s.
Proof.
  intros Hf Hg. revert s. induction rest as [|r rest IH]; intros s; [done|]. cbn. rewrite Hf, Hg.
  destruct (walkRule _ _ _ _ _ _ _ _ r s); done.
Qed.

Section loop.
Context (rules : list Rule) (R : list outcome * outcome).
#[local] Abbreviation left s := (results (drop (ws_ruleIndex s) rules) s).

(** The exchange goes on from [s]. *)
Definition goes_on (d : gset nat) (x : dnsWalkSuspension) (s : dnsRuleWalkState) : Prop :=
  inv d (drop (ws_ruleIndex s) rules) s ∧ (ws_ruleIndex s ≤ length rules)%nat ∧ narrows (left s) R ∧
  match x with Await f => (f < length (ws_futures s))%nat | _ => True end.
(** Nothing can be done before another future ends. *)
Definition stuck (d : gset nat) (x : dnsWalkSuspension) (s : dnsRuleWalkState) : Prop :=
  match x with
  | Await f => f ∉ d
  | Drain => ws_armed s ≠ [] ∧ Forall (waits d) (ws_armed s)
  | Pending _ => False
  end.
Definition to_finish (p : dnsPendingExchange) (s : dnsRuleWalkState) : Prop := pending_ok p s ∧ may_give R (inl (finish p s)).

(** The loop came back to the rule it was at. *)
Definition came_back (rd : round) (d' : gset nat) (x x' : dnsWalkSuspension) (s s' : dnsRuleWalkState) : Prop :=
  ws_terminal s = None ∧ ws_terminal s' ≠ None ∨
  length (ws_futures s') = length (ws_futures s) ∧ ws_terminal s' = ws_terminal s ∧
  (∃ d1, rd_done rd ⊆ d1 ∧ d1 ⊆ d' ∧ suspend_ok d1 x' s') ∧
  match x with Await f => f ∈ rd_done rd | _ => x' ≠ Drain end.

Definition resumed (rd : round) (d' : gset nat) (x : dnsWalkSuspension) (s : dnsRuleWalkState) (c : exchangeState) : Prop :=
  match c with
  | Looping (Pending p) s' => ws_armed s' = [] ∧ to_finish p s'
  | Looping x' s' => goes_on d' x' s' ∧ (ws_ruleIndex s ≤ ws_ruleIndex s')%nat ∧
      (ws_ruleIndex s' = ws_ruleIndex s → came_back rd d' x x' s s')
  | Waiting x' s' => x' = x ∧ goes_on d' x' s' ∧ same_view s s' ∧ stuck (rd_done rd) x s'
  | Finishing p s' => to_finish p s'
  | Finished r => may_give R (inl r)
  | Crashed p => may_give R (inr p)
  end.

Lemma ended_resumed rd d' x s e s' :
  may_give R (ending_outcome dds ask e) → ending_new e → resumed rd d' x s (ended e s').
Proof.
  intros Hg Hn. destruct e as [r|p|p]; cbn in *; [done| |done]. split; [intros f; by rewrite Hn|]. by rewrite finish_new.
Qed.

Lemma resumeRound_ok d d' rd x s :
  during d d' rd → unbroken rd → goes_on d x s → (∀ p, x ≠ Pending p) →
  resumed rd d' x s (resumeRound rt tm dds ask question allowFakeIP rd rules x s).
Proof.
  intros (Hd1 & _ & HdD & Hsched) [Hu1 Hu2] (I & Hlen & Hn & Hx) Hnp. unfold resumeRound. rewrite Hu1 in *.
  set (e := rd_done rd) in *.
  destruct (settle_spec ask m0 d e s Hd1 (inv_sane _ _ _ _ _ _ _ _ I)) as (V1 & A1 & S1 & Hall).
  set (s1 := settleDNSFutures ask e s) in *.
  assert (I1 : inv e (drop (ws_ruleIndex s) rules) s1) by by eapply inv_view.
  destruct (sweepArmedDNSRules _ _ _ _ _ e s1) as [oe s2] eqn:Hsw.
  destruct (sweepLoop_spec rt tm dds ask question allowFakeIP m0 e (drop (ws_ruleIndex s) rules) (ws_armed s1) [] s1 oe s2)
    as (V2 & S2 & _ & Hs); try done; [apply (inv_armed _ _ _ _ _ _ _ _ I1)|]. cbn [app] in Hs.
  assert (V : same_view s s2) by by eapply same_view_trans.
  destruct oe as [e1|].
  { destruct Hs as [Hin Hnew]. apply ended_resumed; [|done]. apply Hn. rewrite <- (sv_results rt tm dds ask question allowFakeIP m0 _ _ _ V1 A1).
    left. unfold DnsRouterRefine.results. destruct (sequential _ _ _ _ _ _ _ _ _). cbn. apply elem_of_app. by left. }
  destruct Hs as (Ho & Hok & Hw).
  assert (I2 : inv e (drop (ws_ruleIndex s) rules) s2).
  { split; try done.
    - eapply Forall_impl; [exact Hw|]. intros a (f & Hf & _) E. rewrite E in Hf. by apply elem_of_nil in Hf.
    - intros tag. rewrite (sv_named _ _ V). apply (inv_fresh _ _ _ _ _ _ _ _ I).
    - eapply sv_terminal_ok; [exact V|]. apply (inv_terminal _ _ _ _ _ _ _ _ I).
    - apply (inv_walkable _ _ _ _ _ _ _ _ I). }
  assert (Hn2 : narrows (left s2) R).
  { etrans; [|exact Hn]. rewrite (sv_index _ _ V). unfold DnsRouterRefine.results.
    rewrite (sv_abstract ask _ _ V), (sv_offers rt tm dds ask question allowFakeIP m0 s1 s2 (ws_armed s2) V2), Ho.
    by rewrite (sv_offers rt tm dds ask question allowFakeIP m0 s s1 (ws_armed s1) V1), A1. }
  assert (Hgo : goes_on d' x s2).
  { split; [rewrite (sv_index _ _ V); by eapply inv_mono|]. split; [by rewrite (sv_index _ _ V)|]. split; [done|].
    destruct x; [by rewrite (sv_length _ _ V)|done|done]. }
  set (walk := walked (walkDNSRules rt tm dds ask question allowFakeIP (rd_settling' rd) (rd_done' rd) rules s2)).
  assert (Hwalk : match x with Await f => f ∈ e | _ => ws_armed s2 = [] end → resumed rd d' x s walk).
  { intros Hready.
    assert (Hok2 : walk_ok rules d' e s2 (walkDNSRules rt tm dds ask question allowFakeIP (rd_settling' rd) (rd_done' rd) rules s2)).
    { unfold walkDNSRules. rewrite (walkLoop_ext _ _ (rd_done' rd) (rd_done' rd)) by done. apply walkLoop_ok; try done.
      - intros i. by destruct (Hsched i) as (_ & _ & ? & _).
      - intros i j Hij. destruct (Hsched i) as (_ & _ & _ & H). rewrite <- (Hu2 j). by apply H.
      - intros i _. destruct (Hsched i) as (H & _). by rewrite Hu2 in H.
      - by rewrite (sv_index _ _ V).
      - by rewrite (sv_index _ _ V). }
    unfold walk. destruct (walkDNSRules _ _ _ _ _ _ _ _ rules s2) as [s3|e3 s3|[g| |p] s3]; cbn in Hok2; [done| | | |].
    - destruct Hok2 as [Hg He]. apply ended_resumed; [by apply Hn2|]. destruct e3; [done| |done]. by destruct (He p).
    - destruct Hok2 as (d1 & H1 & H2 & H3 & H4 & H5 & H6 & H7). cbn. rewrite (sv_index _ _ V) in *. split.
      { split; [by eapply inv_mono|]. split; [lia|]. split; [by etrans|]. apply H4. }
      split; [lia|]. intros Hi. destruct (H6 Hi) as (_ & Ha3 & Hst). unfold came_back.
      rewrite (sv_length _ _ V), (sv_terminal _ _ V) in Hst. destruct Hst as [[Hl Ht]|]; [right|by left].
      split; [done|]. split; [done|]. split; [by exists d1|]. by destruct x.
    - destruct Hok2 as (d1 & H1 & H2 & H3 & H4 & H5 & H6 & H7). cbn. rewrite (sv_index _ _ V) in *. split.
      { split; [by eapply inv_mono|]. split; [lia|]. split; [by etrans|done]. }
      split; [lia|]. intros Hi. destruct (H6 Hi) as (_ & Ha3 & Hst). unfold came_back.
      rewrite (sv_length _ _ V), (sv_terminal _ _ V) in Hst. destruct Hst as [[Hl Ht]|]; [right|by left].
      split; [done|]. split; [done|]. split; [by exists d1|]. cbn in H4. destruct x; [done| |by destruct (Hnp p)].
      congruence.
    - destruct Hok2 as (H1 & H2 & H3). cbn. split; [done|]. split; [done|]. by apply Hn2. }
  destruct x as [f| |p]; [| |by destruct (Hnp p)].
  - destruct (decide (f ∈ e)).
    + rewrite bool_decide_eq_true_2 by done. by apply Hwalk.
    + rewrite bool_decide_eq_false_2 by done. cbn. done.
  - destruct (ws_armed s2) eqn:E; cbn [nonempty]; [by apply Hwalk|]. cbn. split; [done|]. split; [done|]. split; [done|]. rewrite E. done.
Qed.

(** ** Runs *)

Context (ctxErr : goerr).
#[local] Abbreviation step := (λ a b, exchange_step rt tm dds ask question allowFakeIP unbroken rules a b ∨ cancel_step ctxErr a b).

Definition run_ok (x : exchangeRun) : Prop :=
  match x_state x with
  | Looping (Pending p) s => ws_armed s = [] ∧ to_finish p s
  | Looping y s => goes_on (x_done x) y s
  | Waiting y s => goes_on (x_done x) y s ∧ (∀ p, y ≠ Pending p) ∧ (x_wake x = false → stuck (x_done x) y s)
  | Finishing p s => to_finish p s
  | Finished r => may_give R (inl r) ∨ r = failed ctxErr
  | Crashed p => may_give R (inr p)
  end.

Lemma goes_on_mono d d' x s : d ⊆ d' → goes_on d x s → goes_on d' x s.
Proof. intros H (I & ?). split; [by eapply inv_mono|done]. Qed.

(** An exchange that waits to be made is not affected by the loop. *)
Lemma resumeRound_pending rd p s :
  ws_armed s = [] → to_finish p s →
  ∃ s', resumeRound rt tm dds ask question allowFakeIP rd rules (Pending p) s = Finishing p s' ∧ to_finish p s' ∧ same_view s s'.
Proof.
  intros Ha [Hp Hg]. unfold resumeRound. destruct (settle_view (rd_settling rd) s) as [V A].
  set (s1 := settleDNSFutures ask (rd_settling rd) s) in *. unfold sweepArmedDNSRules. rewrite A, Ha. cbn [sweepLoop].
  pose proof (set_armed_view [] s1) as V'. assert (V2 : same_view s (set_armed [] s1)) by by eapply same_view_trans.
  eexists. split; [done|]. split; [|done]. split; [intros f Hf; rewrite (sv_length _ _ V2); by apply Hp|].
  replace (finish p (set_armed [] s1)) with (finish p s); [done|]. unfold finishPendingExchange.
  destruct (pe_future p) as [f|] eqn:Hf; [|done].
  destruct (lookup_lt_is_Some_2 (ws_futures s) f) as [fu Hfu]; [by apply Hp|].
  destruct (sv_futures _ _ V2 f fu Hfu) as [b ->]. by rewrite Hfu.
Qed.

Lemma exchange_step_ok x y : step x y → run_ok x → run_ok y.
Proof.
  intros [Hs|Hs]; [destruct Hs as [f d w c Hf Hd|d d' w w' rd x s Hdur Hu Hnew Hw|d x s|d w p s Hf]|destruct Hs as [d w x s|d w p s Hp]]; unfold run_ok; cbn.
  - assert (d ⊆ {[f]} ∪ d) by set_solver. destruct c as [[g| |p] s|[g| |p] s|p s|r|p]; try done; try (by apply goes_on_mono).
    all: intros (H1 & H2 & _); split; [by eapply goes_on_mono|done].
  - destruct x as [g| |p].
    3: { intros [Ha Hfin]. destruct (resumeRound_pending rd p s Ha Hfin) as (s' & -> & H & _). done. }
    all: intros Hgo; pose proof (resumeRound_ok d d' rd _ s Hdur Hu Hgo ltac:(done)) as H.
    all: destruct (resumeRound rt tm dds ask question allowFakeIP rd rules _ s) as [[h| |q] s'|y s'|q s'|r|q]; cbn in H |- *; try done; try (by left); try (by destruct H as [? _]).
    all: destruct H as (-> & H1 & _ & H3); split; [done|]; split; [done|]; intros ->.
    all: symmetry in Hw; apply orb_false_iff in Hw as [_ Hw]; apply negb_false_iff, bool_decide_eq_true in Hw; subst d'.
    all: destruct Hdur as (D1 & D2 & D3 & _); assert (rd_done rd = d) as <- by set_solver; done.
  - intros (H1 & H2 & _). destruct x; [done|done|]. by destruct (H2 p).
  - intros [_ H]. by left.
  - by right.
  - by right.
Qed.

Lemma steps_ok x y : rtc step x y → run_ok x → run_ok y.
Proof. induction 1; auto. intros. apply IHrtc. by eapply exchange_step_ok. Qed.
End loop.

(** The start of an exchange. *)
Lemma exchange_started_ok rules ctxErr options :
  walkable rules → ignoreDst m0 = false →
  run_ok rules (sequential rt tm dds ask question allowFakeIP m0 rules (mkRef options None ∅)) ctxErr (started options m0).
Proof.
  intros Hw Hm. cbn. split; [|split; [cbn; lia|split; [|done]]].
  - split; try done.
    + split; try done.
      * intros tag f. cbn. rewrite lookup_empty. split; [done|]. by intros (? & ? & _).
      * by intros f (? & ? & _).
  - cbn [drop]. unfold DnsRouterRefine.results. cbn [initialWalk ws_armed ws_ruleIndex drop].
    assert (abstract ask (initialWalk options m0) = mkRef options None ∅) as ->.
    { unfold abstract. cbn. f_equal. }
    by destruct (sequential _ _ _ _ _ _ _ _ _).
Qed.
End runs.
