(* ===== verification/DnsRouterEnds.v ===== *)
(** Every exchange ends, whenever its futures end: also when one does between the
    settling of the futures and the look at them.  What is needed for this is only
    the shape of the walk: the futures it names have been launched. *)

From Stdlib Require Import Relation_Operators Wellfounded.Lexicographic_Product.
From S2P Require Import Prelude GoBytes GoSlices GoStrings Netip Metadata RuleItems RuleAction RuleMatch.
From S2P Require Import DnsMessage DnsClient DnsRouter DnsRouterSpec DnsRouterRefine DnsRouterWalk DnsRouterRuns.

(** Every future the walk refers to has been launched. *)
Definition launched_in {EX : External} (s : dnsRuleWalkState) (a : dnsArmedRule) : Prop := ∀ f, f ∈ ar_futures a → (f < length (ws_futures s))%nat.
Record shape {EX : External} (s : dnsRuleWalkState) : Prop := mkShape {
  sh_named tag f : ws_namedFutures s !! tag = Some f → (f < length (ws_futures s))%nat;
  sh_anonymous f : ws_anonymous s = Some f → (f < length (ws_futures s))%nat;
  sh_terminal f i : ws_terminal s = Some (f, i) → (f < length (ws_futures s))%nat;
  sh_armed : Forall (launched_in s) (ws_armed s)
}.

Section ends.
Context {EX : External} (rt : Runtime) (tm : TransportManager) (dds : DomainStrategy).
Context (ask : Transport → DNSQueryOptions → Message + goerr) (question : string) (allowFakeIP : bool).

(** ** The shape of a walk *)

Lemma shape_view s s' : same_view s s' → Forall (launched_in s) (ws_armed s') → shape s → shape s'.
Proof.
  intros V Ha []. split.
  - intros tag f. rewrite (sv_named _ _ V), (sv_length _ _ V). apply sh_named0.
  - intros f. rewrite (sv_anonymous _ _ V), (sv_length _ _ V). apply sh_anonymous0.
  - intros f i. rewrite (sv_terminal _ _ V), (sv_length _ _ V). apply sh_terminal0.
  - eapply Forall_impl; [exact Ha|]. intros a H f Hf. rewrite (sv_length _ _ V). auto.
Qed.
Lemma shape_same s s' : same_view s s' → ws_armed s' = ws_armed s → shape s → shape s'.
Proof. intros V Ha H. apply (shape_view s); [done| |done]. rewrite Ha. by apply sh_armed. Qed.

Lemma matchWith_view an r s b s' : matchWith rt an r s = (b, s') → same_view s s' ∧ ws_armed s' = ws_armed s.
Proof.
  unfold matchWith. destruct (Match rt r _) as [b1 m]. intros [= _ <-].
  pose proof (same_view_refl s) as []. split; [split; try (by destruct s)|by destruct s].
Qed.

Lemma boundFutures_shape d r s f : shape s → f ∈ boundFutures d r s → (f < length (ws_futures s))%nat ∧ f ∉ d.
Proof.
  intros H Hf. apply boundFutures_spec in Hf as [Hd [(tag & _ & Hg)|[_ Hg]]]; (split; [|done]).
  - by eapply sh_named.
  - by eapply sh_anonymous.
Qed.

(** A sweep commits a rule, or leaves only rules that still wait. *)
Lemma sweepLoop_shape d kept armed s e s' :
  sweepLoop rt tm ask question allowFakeIP d kept armed s = (e, s') → Forall (waits d) kept →
  same_view s s' ∧ (∀ a, a ∈ ws_armed s' → a ∈ kept ++ armed) ∧
  match e with Some e => ending_new e | None => Forall (waits d) (ws_armed s') end.
Proof.
  revert kept s. induction armed as [|a armed IH]; intros kept s; cbn [sweepLoop].
  - intros [= <- <-] Hk. rewrite set_armed_armed, app_nil_r. by split; [apply set_armed_view|].
  - destruct (forallb _ (ar_futures a)) eqn:Hf; cbn [negb].
    + destruct (matchWith rt _ (ar_rule a) s) as [b s1] eqn:Hm. destruct (matchWith_view _ _ _ _ _ Hm) as [V _].
      destruct (if b then armedEnding tm ask question allowFakeIP d a s1 else None) as [e1|] eqn:He.
      * intros [= <- <-] Hk. rewrite set_armed_armed. split; [by eapply same_view_trans; [|apply set_armed_view]|].
        split; [set_solver|]. destruct b; [|done]. by eapply armedEnding_new.
      * intros H Hk. destruct (IH _ _ H Hk) as (V' & Hin & Hres). split; [by eapply same_view_trans|]. split; [set_solver|done].
    + intros H Hk. destruct (IH _ _ H) as (V & Hin & Hres).
      * apply Forall_app. split; [done|]. apply Forall_singleton. by apply not_ready_waits.
      * split; [done|]. split; [|done]. by rewrite <- app_assoc in Hin.
Qed.
Lemma sweep_shape d s e s' :
  sweepArmedDNSRules rt tm ask question allowFakeIP d s = (e, s') → shape s →
  same_view s s' ∧ shape s' ∧ match e with Some e => ending_new e | None => Forall (waits d) (ws_armed s') end.
Proof.
  intros H Hs. destruct (sweepLoop_shape _ _ _ _ _ _ H) as (V & Hin & He); [done|]. split; [done|]. split; [|done].
  apply (shape_view s); [done| |done]. apply Forall_forall. intros a Ha. apply Hin in Ha. cbn in Ha.
  by eapply Forall_forall; [apply (sh_armed _ Hs)|].
Qed.

(** What a rule may do to the walk. *)
Definition move_shape (d : gset nat) (s : dnsRuleWalkState) (w : walkMove) : Prop :=
  match w with
  | Next s' => ws_ruleIndex s' = ws_ruleIndex s ∧ shape s'
  | Stop e _ => ∀ p, e ≠ Pends p
  | Suspend (Pending p) s' => ws_armed s' = [] ∧ pending_ok p s'
  | Suspend x s' => shape s' ∧ stays s s' ∧ suspend_ok d x s'
  end.

Lemma move_shape_view d s s' w : same_view s s' → ws_armed s' = ws_armed s → move_shape d s' w → move_shape d s w.
Proof.
  intros V Ha. destruct w as [s1|e s1|[g| |p] s1]; cbn; rewrite ?(sv_index _ _ V); try done.
  all: unfold stays; rewrite (sv_index _ _ V), (sv_length _ _ V), (sv_terminal _ _ V), Ha; done.
Qed.

Lemma drain_shape d s : shape s → nonempty (ws_armed s) = true → move_shape d s (Suspend Drain s).
Proof. intros H Ha. split; [done|]. split; [apply stays_refl|]. cbn. by destruct (ws_armed s). Qed.
Lemma unlessArmed_shape d s k : shape s → (ws_armed s = [] → move_shape d s k) → move_shape d s (unlessArmed s k).
Proof.
  intros H Hk. unfold unlessArmed. destruct (nonempty (ws_armed s)) eqn:E; [by apply drain_shape|].
  apply Hk. by destruct (ws_armed s).
Qed.

(** The state after a launch. *)
Lemma shape_extend fu an named term s :
  shape s →
  (∀ f, an = Some f → (f ≤ length (ws_futures s))%nat) → (∀ tag f, named !! tag = Some f → (f ≤ length (ws_futures s))%nat) →
  (∀ f i, term = Some (f, i) → (f ≤ length (ws_futures s))%nat) → shape (extend fu an named term s).
Proof.
  intros [] Ha Hn Ht. split; cbn; rewrite ?length_app; cbn.
  - intros tag f H. apply Hn in H. lia.
  - intros f H. apply Ha in H. lia.
  - intros f i H. apply Ht in H. lia.
  - eapply Forall_impl; [exact sh_armed0|]. intros a H f Hf. cbn. rewrite length_app. apply H in Hf. lia.
Qed.
Lemma shape_bounds s : shape s →
  (∀ f, ws_anonymous s = Some f → (f ≤ length (ws_futures s))%nat) ∧ (∀ tag f, ws_namedFutures s !! tag = Some f → (f ≤ length (ws_futures s))%nat) ∧
  (∀ f i, ws_terminal s = Some (f, i) → (f ≤ length (ws_futures s))%nat).
Proof. intros []. split_and!; intros; apply Nat.lt_le_incl; eauto. Qed.

Lemma route_shape d s t o (sp : bool) :
  shape s → move_shape d s
    (if nonempty (ws_armed s) then
       match sp, ws_terminal s with
       | true, None => let '(f, s) := launchDNSEvaluate dds "" t o s in Suspend Drain (set_terminal (Some (f, ws_ruleIndex s)) s)
       | _, _ => Suspend Drain s
       end
     else
       match ws_terminal s with
       | Some (f, i) =>
           if Nat.eqb i (ws_ruleIndex s) then Suspend (Pending (mkPending (default t (transportOf s f)) noOptions (Some f))) s
           else Suspend (Pending (mkPending t o None)) s
       | None => Suspend (Pending (mkPending t o None)) s
       end).
Proof.
  intros H. destruct (nonempty (ws_armed s)) eqn:Ha.
  - destruct sp; [|by apply drain_shape]. destruct (ws_terminal s) eqn:Ht; [by apply drain_shape|]. cbn [launchDNSEvaluate].
    match goal with |- move_shape _ _ (Suspend Drain ?x) =>
      replace x with (extend (mkFuture "" t (finalizeExchangeOptions dds o) false) (ws_anonymous s) (ws_namedFutures s)
        (Some (length (ws_futures s), ws_ruleIndex s)) s) by by destruct s end.
    destruct (shape_bounds s H) as (H1 & H2 & _). split; [|split].
    + apply shape_extend; auto. intros f i [= <- _]. lia.
    + split; [done|]. split; [done|]. right. done.
    + cbn. by destruct (ws_armed s).
  - assert (ws_armed s = []) by by destruct (ws_armed s).
    destruct (ws_terminal s) as [[f i]|] eqn:Ht; [destruct (Nat.eqb i _)|]; cbn; (split; [done|]); try done.
    intros g [= <-]. by eapply sh_terminal.
Qed.

Lemma evaluate_shape d s tag t o :
  shape s →
  move_shape d s (let '(f, s) := launchDNSEvaluate dds tag t o s in
    Next (if String.eqb tag "" then set_anonymous (Some f) s else set_namedFutures (<[tag := f]> (ws_namedFutures s)) s)).
Proof.
  intros H. destruct (shape_bounds s H) as (H1 & H2 & H3). cbn [launchDNSEvaluate].
  set (fu := mkFuture tag t (finalizeExchangeOptions dds o) false). destruct (String.eqb tag "").
  - split; [by destruct s|].
    match goal with |- shape ?x => replace x with (extend fu (Some (length (ws_futures s))) (ws_namedFutures s) (ws_terminal s) s) by by destruct s end.
    apply shape_extend; auto. intros f [= <-]. lia.
  - split; [by destruct s|].
    match goal with |- shape ?x =>
      replace x with (extend fu (ws_anonymous s) (<[tag := length (ws_futures s)]> (ws_namedFutures s)) (ws_terminal s) s) by by destruct s end.
    apply shape_extend; auto. intros tag' f. rewrite lookup_insert_Some. intros [[_ <-]|[_ Hf]]; [lia|]. by eapply H2.
Qed.

Lemma respond_shape d r s :
  shape s →
  move_shape d s
    (match (if hasBindings r then [] else unresolved d (ws_anonymous s)) with
     | f :: _ => Suspend (Await f) s
     | [] => Stop (Answer_ (responded (ws_anonymous s ≫= λ f, (λ m, (m, transportOf s f)) <$> view ask d s f))) s
     end).
Proof.
  intros H. destruct (if hasBindings r then [] else unresolved d (ws_anonymous s)) as [|f l] eqn:E; [done|].
  assert (Hf : f ∈ unresolved d (ws_anonymous s)).
  { destruct (hasBindings r); [done|]. rewrite E. by left. }
  apply unresolved_spec in Hf as [Hf Hd]. split; [done|]. split; [apply stays_refl|]. split; [by eapply sh_anonymous|done].
Qed.

Lemma walkAction_shape d r s : shape s → move_shape d s (walkAction tm dds ask question allowFakeIP d r s).
Proof.
  intros H. unfold walkAction. destruct (Rule_Action r) as [[]|]; try (by split).
  - apply unlessArmed_shape; [done|]. intros _. by destruct (rejected _).
  - destruct (resolveDNSRoute _ _ _ _ _); [by split|by split|by apply route_shape].
  - destruct (tm_Transport tm server) as [t|].
    + destruct (negb speculative && nonempty (ws_armed s)) eqn:E; [|by apply evaluate_shape].
      apply andb_true_iff in E as [_ E]. by apply drain_shape.
    + split; [by destruct s, (String.eqb tag "")|]. destruct H, (String.eqb tag ""); [|by split]. by destruct s.
  - apply unlessArmed_shape; [done|]. intros _. cbn zeta. destruct (negb _); [done|by apply respond_shape].
  - split; [by destruct s|]. destruct H. by destruct s.
  - apply unlessArmed_shape; [done|]. intros _ p. unfold predefinedEnding. by destruct (predefined _ _ _ _ _).
Qed.

Lemma walkRule_shape settling d r s : shape s → move_shape d s (walkRule rt tm dds ask question allowFakeIP settling d r s).
Proof.
  intros H. unfold walkRule.
  assert (Hgo : ∀ s, shape s → move_shape d s (let '(matched, s) := matchWith rt (anonymousResponse ask d s) r s in
    if matched then walkAction tm dds ask question allowFakeIP d r s else Next s)).
  { intros s1 H1. destruct (matchWith rt _ r s1) as [b s2] eqn:Hm. destruct (matchWith_view _ _ _ _ _ Hm) as [V A].
    apply (move_shape_view d s1 s2); [done|done|]. pose proof (shape_same _ _ V A H1). destruct b; [by apply walkAction_shape|by split]. }
  destruct (hasBindings r); cbn [negb]; [|by apply Hgo].
  destruct (settle_view ask settling s) as [V A]. set (s1 := settleDNSFutures ask settling s) in *.
  apply (move_shape_view d s s1); [done|done|]. assert (H1 : shape s1) by by eapply shape_same.
  destruct (Race r).
  - fold (arm d r s1). set (s2 := set_armed (ws_armed s1 ++ [arm d r s1]) s1).
    assert (V2 : same_view s1 s2) by apply set_armed_view.
    assert (H2 : shape s2).
    { apply (shape_view s1); [done| |done]. unfold s2. rewrite set_armed_armed. apply Forall_app. split; [by apply sh_armed|].
      apply Forall_singleton. intros f Hf. by apply (boundFutures_shape d r s1). }
    destruct (nonempty _); [by split; [apply (sv_index _ _ V2)|]|].
    destruct (sweepArmedDNSRules _ _ _ _ _ d s2) as [e s3] eqn:Hsw. destruct (sweep_shape _ _ _ _ Hsw H2) as (V3 & H3 & He).
    destruct e as [[x|p|x]|]; cbn; try done.
    + split; [apply set_armed_armed|]. intros f. cbn in He. by rewrite He.
    + split; [by rewrite (sv_index _ _ V3), (sv_index _ _ V2)|done].
  - destruct (boundFutures d r s1) as [|f l] eqn:Hb; [by apply Hgo|]. split; [done|]. split; [apply stays_refl|].
    apply (boundFutures_shape d r s1); [done|]. rewrite Hb. by left.
Qed.

Context (rules : list Rule).

(** A walk ends, or is suspended further on or where it was. *)
Definition walk_shape (at_ : nat → gset nat) (s : dnsRuleWalkState) (w : walkMove) : Prop :=
  match w with
  | Next _ => False
  | Stop e _ => ∀ p, e ≠ Pends p
  | Suspend (Pending p) s' => ws_armed s' = [] ∧ pending_ok p s'
  | Suspend x s' => shape s' ∧ (ws_ruleIndex s ≤ ws_ruleIndex s' ≤ length rules)%nat ∧ (∃ i, suspend_ok (at_ i) x s') ∧
      (ws_ruleIndex s' = ws_ruleIndex s → stays s s')
  end.

Lemma walkLoop_shape settling at_ rest s :
  rest = drop (ws_ruleIndex s) rules → (ws_ruleIndex s ≤ length rules)%nat → shape s →
  walk_shape at_ s (walkLoop rt tm dds ask question allowFakeIP settling at_ rest s).
Proof.
  revert s. induction rest as [|r rest IH]; intros s Hrest Hlen H; cbn [walkLoop].
  - unfold unlessArmed. destruct (ws_armed s) as [|a l] eqn:Ha; cbn [nonempty]; [by split|].
    split; [done|]. split; [lia|]. split; [exists 0%nat; cbn; by rewrite Ha|]. intros _. apply stays_refl.
  - pose proof (walkRule_shape (settling (ws_ruleIndex s)) (at_ (ws_ruleIndex s)) r s H) as Hm.
    assert (Hlt : (ws_ruleIndex s < length rules)%nat).
    { destruct (decide (ws_ruleIndex s < length rules)%nat); [done|]. rewrite drop_ge in Hrest by lia. done. }
    assert (Hdrop : drop (Datatypes.S (ws_ruleIndex s)) rules = rest).
    { rewrite <- Nat.add_1_r, <- drop_drop, <- Hrest. done. }
    destruct (walkRule _ _ _ _ _ _ _ _ r s) as [s1|e s1|x s1].
    + destruct Hm as (Hi & H1). rewrite Hi. set (s2 := set_ruleIndex (Datatypes.S (ws_ruleIndex s)) s1).
      assert (Hi2 : ws_ruleIndex s2 = Datatypes.S (ws_ruleIndex s)) by by destruct s1.
      assert (H2 : shape s2) by (destruct H1; by destruct s1).
      specialize (IH s2). rewrite Hi2, Hdrop in IH. specialize (IH eq_refl Hlt H2).
      destruct (walkLoop _ _ _ _ _ _ _ _ rest s2) as [s3|e s3|[g| |p] s3]; cbn in IH |- *; try done.
      all: destruct IH as (H3 & Hle & Hs & _); rewrite Hi2 in Hle; split; [done|]; split; [lia|]; split; [done|lia].
    + done.
    + destruct x as [g| |p]; cbn in Hm |- *; [| |done].
      all: destruct Hm as (H1 & Hst & Hs); pose proof Hst as (Hi & _); rewrite Hi; split; [done|]; split; [lia|].
      all: split; [by exists (ws_ruleIndex s)|done].
Qed.

(** ** The loop *)

(** The exchange can go on from [s]. *)
Definition good (x : dnsWalkSuspension) (s : dnsRuleWalkState) : Prop :=
  match x with
  | Pending p => ws_armed s = [] ∧ pending_ok p s
  | Await f => shape s ∧ (ws_ruleIndex s ≤ length rules)%nat ∧ (f < length (ws_futures s))%nat
  | Drain => shape s ∧ (ws_ruleIndex s ≤ length rules)%nat
  end.
(** The loop came back to the rule it was at. *)
Definition back (rd : round) (x x' : dnsWalkSuspension) (s s' : dnsRuleWalkState) : Prop :=
  ws_terminal s = None ∧ ws_terminal s' ≠ None ∨
  length (ws_futures s') = length (ws_futures s) ∧ ws_terminal s' = ws_terminal s ∧
  (∃ i, suspend_ok (rd_done' rd i) x' s') ∧
  match x with Await f => f ∈ rd_done rd | _ => x' ≠ Drain end.
Definition round_shape (rd : round) (x : dnsWalkSuspension) (s : dnsRuleWalkState) (c : exchangeState) : Prop :=
  match c with
  | Looping (Pending p) s' => good (Pending p) s'
  | Looping x' s' => good x' s' ∧ (ws_ruleIndex s ≤ ws_ruleIndex s')%nat ∧ (ws_ruleIndex s' = ws_ruleIndex s → back rd x x' s s')
  | Waiting x' s' => x' = x ∧ good x' s' ∧ same_view s s' ∧ stuck (rd_done rd) x s'
  | Finishing p s' => pending_ok p s'
  | Finished _ | Crashed _ => True
  end.

Lemma ended_shape rd x s e s' : ending_new e → round_shape rd x s (ended e s').
Proof. intros Hn. destruct e as [r|p|p]; cbn in *; [done| |done]. intros f. by rewrite Hn. Qed.

Lemma walked_shape rd x s s2 :
  same_view s s2 → shape s2 → (ws_ruleIndex s ≤ length rules)%nat → (∀ p, x ≠ Pending p) →
  match x with Await f => f ∈ rd_done rd | _ => ws_armed s2 = [] end →
  round_shape rd x s (walked (walkDNSRules rt tm dds ask question allowFakeIP (rd_settling' rd) (rd_done' rd) rules s2)).
Proof.
  intros V H2 Hlen Hnp Hready.
  pose proof (walkLoop_shape (rd_settling' rd) (rd_done' rd) _ s2 eq_refl ltac:(by rewrite (sv_index _ _ V)) H2) as H.
  unfold walkDNSRules. destruct (walkLoop _ _ _ _ _ _ _ _ _ s2) as [s3|e3 s3|[g| |p] s3]; cbn in H; [done| | | |done].
  - apply ended_shape. destruct e3; [done| |done]. by destruct (H p).
  - destruct H as (H3 & Hle & (i & Hs) & Hst). rewrite (sv_index _ _ V) in *. cbn. split; [split; [done|]; split; [lia|apply Hs]|]. split; [lia|].
    intros Hi. destruct (Hst Hi) as (_ & _ & Hx). rewrite (sv_length _ _ V), (sv_terminal _ _ V) in Hx. destruct Hx as [[Hl Ht]|]; [right|by left].
    split; [done|]. split; [done|]. split; [by exists i|]. by destruct x.
  - destruct H as (H3 & Hle & (i & Hs) & Hst). rewrite (sv_index _ _ V) in *. cbn. split; [split; [done|lia]|]. split; [lia|].
    intros Hi. destruct (Hst Hi) as (_ & Ha & Hx). rewrite (sv_length _ _ V), (sv_terminal _ _ V) in Hx. destruct Hx as [[Hl Ht]|]; [right|by left].
    split; [done|]. split; [done|]. split; [by exists i|]. cbn in Hs. destruct x; [done| |by destruct (Hnp p)]. congruence.
Qed.

Lemma resumeRound_shape rd x s : good x s → round_shape rd x s (resumeRound rt tm dds ask question allowFakeIP rd rules x s).
Proof.
  intros Hg. unfold resumeRound. destruct (settle_view ask (rd_settling rd) s) as [V1 A1].
  set (s1 := settleDNSFutures ask (rd_settling rd) s) in *. destruct x as [f| |p].
  3: { destruct Hg as [Ha Hp]. unfold sweepArmedDNSRules. rewrite A1, Ha. cbn. intros f Hf.
    rewrite (sv_length _ _ (set_armed_view [] s1)), (sv_length _ _ V1). by apply Hp. }
  all: assert (shape s ∧ (ws_ruleIndex s ≤ length rules)%nat) as [Hs Hlen] by (by destruct Hg as (? & ? & _) || by destruct Hg).
  all: destruct (sweepArmedDNSRules _ _ _ _ _ (rd_done rd) s1) as [e s2] eqn:Hsw.
  all: destruct (sweep_shape _ _ _ _ Hsw ltac:(by eapply shape_same)) as (V2 & H2 & He).
  all: assert (V : same_view s s2) by (by eapply same_view_trans); destruct e as [e|]; [by apply ended_shape|].
  - case_bool_decide as Hf; [by apply walked_shape|]. split; [done|]. split; [|done]. split; [done|].
    rewrite (sv_index _ _ V), (sv_length _ _ V). by destruct Hg as (_ & _ & ?).
  - destruct (ws_armed s2) eqn:E; cbn [nonempty]; [by apply walked_shape|]. split; [done|]. split; [|split; [done|]].
    + split; [done|]. by rewrite (sv_index _ _ V).
    + cbn. by rewrite E.
Qed.

(** ** Runs *)

(** How many launched futures have not ended. *)
Definition undone (d : gset nat) (l : list nat) : nat := length (filter (λ f, f ∉ d) l).

Lemma undone_le (d d' : gset nat) l : d ⊆ d' → (undone d' l ≤ undone d l)%nat.
Proof.
  intros H. induction l as [|f l IH]; [done|]. unfold undone in *. rewrite !filter_cons.
  destruct (decide (f ∉ d')), (decide (f ∉ d)); cbn; try lia. set_solver.
Qed.
Lemma undone_lt (d d' : gset nat) f l : d ⊆ d' → f ∈ l → f ∈ d' → f ∉ d → (undone d' l < undone d l)%nat.
Proof.
  intros H Hl Hf Hd. induction l as [|g l IH]; [by apply elem_of_nil in Hl|].
  pose proof (undone_le d d' l H). unfold undone in *. rewrite !filter_cons.
  apply elem_of_cons in Hl as [<-|Hl].
  - rewrite decide_False by (intros ?; done). rewrite decide_True by done. cbn. lia.
  - specialize (IH Hl). destruct (decide (g ∉ d')), (decide (g ∉ d)); cbn; try lia. set_solver.
Qed.

(** What is left of the rules, of the futures, and of the loop. *)
Definition ahead (s : dnsRuleWalkState) : nat :=
  (2 * (length rules - ws_ruleIndex s) + (match ws_terminal s with None => 1 | Some _ => 0 end))%nat.
Definition phase (d : gset nat) (x : dnsWalkSuspension) : nat :=
  match x with Await f => if bool_decide (f ∈ d) then 3 else 1 | _ => 2 end%nat.
Definition weight (x : exchangeRun) : nat * (nat * (nat * nat)) :=
  let d := x_done x in
  let left s := undone d (seq 0 (length (ws_futures s))) in
  let token := if x_wake x then 4%nat else 0%nat in
  match x_state x with
  | Looping (Pending p) s => (2, (0, (left s, 0)))
  | Looping y s => (3, (ahead s, (left s, token + phase d y)))
  | Waiting _ s => (3, (ahead s, (left s, token)))
  | Finishing _ s => (1, (0, (left s, 0)))
  | _ => (0, (0, (0, 0)))
  end%nat.

Definition lighter : nat * (nat * (nat * nat)) → nat * (nat * (nat * nat)) → Prop :=
  slexprod _ _ lt (slexprod _ _ lt (slexprod _ _ lt lt)).
Lemma lighter_wf : well_founded lighter.
Proof. repeat apply wf_slexprod; apply lt_wf. Qed.

Lemma lighter_level a b x y : (a < b)%nat → lighter (a, x) (b, y).
Proof. intros. by left. Qed.
Lemma lighter_rules a b c x y : (b < c)%nat → lighter (a, (b, x)) (a, (c, y)).
Proof. intros. right. by left. Qed.
Lemma lighter_futures a b c e x y : (c < e)%nat → lighter (a, (b, (c, x))) (a, (b, (e, y))).
Proof. intros. right. right. by left. Qed.
Lemma lighter_loop a b c x y : (x < y)%nat → lighter (a, (b, (c, x))) (a, (b, (c, y))).
Proof. intros. right. right. by right. Qed.

Context (ctxErr : goerr).
#[local] Abbreviation step := (λ a b, exchange_step rt tm dds ask question allowFakeIP any_round rules a b ∨ cancel_step ctxErr a b).

Definition run_shape (x : exchangeRun) : Prop :=
  match x_state x with
  | Looping y s => good y s
  | Waiting y s => good y s ∧ (∀ p, y ≠ Pending p) ∧ (x_wake x = false → stuck (x_done x) y s)
  | Finishing p s => pending_ok p s
  | Finished _ | Crashed _ => True
  end.

Lemma round_same d d' (w : bool) rd :
  during d d' rd → w || negb (bool_decide (d' = d)) = false → rd_done rd = d'.
Proof.
  intros (D1 & D2 & D3 & _) Hw. apply orb_false_iff in Hw as [_ Hw]. apply negb_false_iff, bool_decide_eq_true in Hw. subst d'.
  apply set_eq. set_solver.
Qed.

Lemma step_shape x y : step x y → run_shape x → run_shape y.
Proof.
  intros [Hs|Hs]; [destruct Hs as [f d w c Hf Hd|d d' w w' rd x s Hdur _ Hnew Hw|d x s|d w p s Hf]|by destruct Hs]; unfold run_shape; cbn.
  - destruct c; try done. intros (H1 & H2 & _). by split.
  - intros Hg. pose proof (resumeRound_shape rd x s Hg) as H.
    destruct (resumeRound rt tm dds ask question allowFakeIP rd rules x s) as [[h| |q] s'|y s'|q s'|r|q] eqn:E; cbn in H |- *; try done; try apply H.
    destruct H as (-> & H1 & _ & H3). split; [done|]. split; [|intros ->; by rewrite <- (round_same d d' w rd Hdur (eq_sym Hw))].
    intros p ->. done.
  - by intros (? & _ & _).
  - done.
Qed.
Lemma steps_shape x y : rtc step x y → run_shape x → run_shape y.
Proof. induction 1; auto. intros. apply IHrtc. by eapply step_shape. Qed.

(** In a round some future ends, or nothing but the loop goes on. *)
Lemma round_weight d d' (w : bool) b n x y :
  d ⊆ d' → (∀ f, f ∈ d' → f ∈ d ∨ (f < n)%nat) → (d' = d → (x < y)%nat) →
  lighter (3%nat, (b, (undone d' (seq 0 n), ((if w || negb (bool_decide (d' = d)) then 4 else 0) + x)%nat)))
          (3%nat, (b, (undone d (seq 0 n), ((if w then 4 else 0) + y)%nat))).
Proof.
  intros Hd Hn Hxy. destruct (decide (d' = d)) as [->|Hne].
  - rewrite bool_decide_eq_true_2 by done. cbn [negb]. rewrite orb_false_r. apply lighter_loop. specialize (Hxy eq_refl). lia.
  - apply lighter_futures. destruct (set_choose_or_empty (d' ∖ d)) as [[f Hf]|He].
    + apply elem_of_difference in Hf as [Hf Hfd]. apply (undone_lt d d' f); [done| |done|done].
      destruct (Hn f Hf) as [|Hlt]; [done|]. apply elem_of_seq. lia.
    + exfalso. apply Hne, set_eq. intros f. split; [|by apply Hd]. intros Hf. destruct (decide (f ∈ d)) as [|Hfd]; [done|].
      exfalso. apply (not_elem_of_empty (C := gset nat) f). rewrite <- He. by apply elem_of_difference.
Qed.

(** A round of the loop: the walk is further on, or a future has ended, or the loop
    is nearer to its wait. *)
Lemma round_lighter d d' (w : bool) rd x s :
  let c := resumeRound rt tm dds ask question allowFakeIP rd rules x s in
  during d d' rd → (∀ f, f ∈ d' → f ∈ d ∨ (f < launched c)%nat ∨ final c = true) → good x s →
  lighter (weight (mkRun d' (w || negb (bool_decide (d' = d))) c)) (weight (mkRun d w (Looping x s))).
Proof.
  intros c Hdur Hnew Hg. assert (Hdd : d ⊆ d') by (destruct Hdur as (? & ? & ? & _); set_solver).
  pose proof (resumeRound_shape rd x s Hg) as H. fold c in H. destruct x as [g| |p].
  3: { unfold c, resumeRound. unfold sweepArmedDNSRules. destruct Hg as [Ha _].
    rewrite (proj2 (settle_view ask (rd_settling rd) s)), Ha. cbn. by apply lighter_level, Nat.lt_succ_diag_r. }
  all: destruct c as [[h| |q] s'|y s'|q s'|r|q]; cbn [round_shape launched final] in *; unfold weight; cbn [x_state x_done x_wake];
    try (apply lighter_level; lia).
  all: assert (Hlim : ∀ f, f ∈ d' → f ∈ d ∨ (f < length (ws_futures s'))%nat) by (intros f Hf; destruct (Hnew f Hf) as [?|[?|?]]; auto; done).
  3, 6: destruct H as (-> & _ & V & _); unfold ahead; rewrite (sv_index _ _ V), (sv_terminal _ _ V);
    rewrite (sv_length _ _ V) in *; rewrite <- (Nat.add_0_r (if w || _ then _ else _)); apply round_weight; [done|done|intros _; cbn; try case_bool_decide; lia].
  all: destruct H as (Hg' & Hle & Hback).
  all: assert (Hlen : (ws_ruleIndex s' ≤ length rules)%nat) by (by destruct Hg' as (_ & ? & _) || by destruct Hg').
  all: destruct (decide (ws_ruleIndex s' = ws_ruleIndex s)) as [Hi|Hi];
    [|apply lighter_rules; unfold ahead; destruct (ws_terminal s), (ws_terminal s'); lia].
  all: destruct (Hback Hi) as [[Ht Ht']|(Hl & Ht & (i & H3) & H4)].
  1, 3, 5, 7: apply lighter_rules; unfold ahead; rewrite Ht, Hi; destruct (ws_terminal s'); [lia|done].
  all: unfold ahead; rewrite Hi, Ht; rewrite Hl in *; apply round_weight; [done|done|]; intros ->.
  all: destruct Hdur as (D1 & D2 & D3 & D4); destruct (D4 i) as (E1 & E2 & E3 & _);
    assert (rd_done rd = d) as Hrd by (apply set_eq; set_solver); assert (rd_done' rd i = d) as Hri by (apply set_eq; set_solver);
    rewrite Hri in H3; cbn in H3, H4 |- *.
  - rewrite bool_decide_eq_false_2, bool_decide_eq_true_2; [lia|by rewrite <- Hrd|by destruct H3].
  - rewrite bool_decide_eq_true_2; [lia|by rewrite <- Hrd].
  - rewrite bool_decide_eq_false_2; [lia|by destruct H3].
  - done.
Qed.

Lemma step_lighter x y : step x y → run_shape x → lighter (weight y) (weight x).
Proof.
  intros [Hs|Hs]; [destruct Hs as [f d w c Hf Hd|d d' w w' rd x s Hdur _ Hnew Hw|d x s|d w p s Hf]|destruct Hs as [d w x s|d w p s Hp]]; unfold run_shape, weight; cbn.
  - intros _. assert (∀ s, (f < length (ws_futures s))%nat → (undone ({[f]} ∪ d) (seq 0 (length (ws_futures s))) < undone d (seq 0 (length (ws_futures s))))%nat) as H.
    { intros s Hl. apply (undone_lt _ _ f); [set_solver|apply elem_of_seq; lia|set_solver|done]. }
    destruct c as [[g| |p] s|y s|p s|r|p]; cbn in Hf |- *; try lia; apply lighter_futures, H, Hf.
  - intros Hg. subst w'. by apply round_lighter.
  - intros (_ & Hnp & _). destruct x as [g| |p]; [| |by destruct (Hnp p)]; apply lighter_loop; cbn; try case_bool_decide; lia.
  - intros _. by apply lighter_level, Nat.lt_0_succ.
  - intros _. by apply lighter_level, Nat.lt_0_succ.
  - intros _. by apply lighter_level, Nat.lt_0_succ.
Qed.

Lemma run_ends x : run_shape x → Acc (λ b a : exchangeRun, step a b) x.
Proof.
  remember (weight x) as m eqn:Hm. revert x Hm. induction m as [m IH] using (well_founded_induction lighter_wf).
  intros x -> Hok. constructor. intros y Hy. apply (IH (weight y)); [by apply step_lighter|done|by eapply step_shape].
Qed.

(** A run that has not ended can go on, if only by the end of a future that was
    launched; this even when no future ends within a round. *)
Lemma run_goes_on x : run_shape x → final (x_state x) = false → ∃ y, exchange_step rt tm dds ask question allowFakeIP unbroken rules x y.
Proof.
  destruct x as [d w c]. unfold run_shape. destruct c as [x s|x s|p s|r|p]; cbn; try done.
  - intros _ _. eexists. apply (step_loops _ _ _ _ _ _ _ _ d d w w (mkRound d d (λ _, d) (λ _, d))); [|done|auto|].
    + split; [done|]. split; [done|]. by split.
    + rewrite bool_decide_eq_true_2 by done. by rewrite orb_false_r.
  - intros (Hg & Hnp & Hst) _. destruct w; [eexists; apply step_wakes|]. specialize (Hst eq_refl).
    assert (∃ f, (f < length (ws_futures s))%nat ∧ f ∉ d) as (f & Hf & Hd); [|eexists; by apply (step_ends _ _ _ _ _ _ _ _ f)].
    destruct x as [f| |p]; [exists f; by destruct Hg as (_ & _ & ?)| |done]. destruct Hst as [Hne Hw], Hg as [Hs _].
    pose proof (sh_armed _ Hs) as HA. destruct (ws_armed s) as [|a l] eqn:E; [done|].
    apply Forall_cons in Hw as [(f & Hf & Hd) _]. apply Forall_cons in HA as [HA _]. exists f. split; [by apply HA|done].
  - intros Hp _. destruct (pe_future p) as [f|] eqn:Hf.
    + destruct (decide (f ∈ d)) as [Hd|Hd].
      * eexists. apply step_finishes. rewrite Hf. by intros ? [= <-].
      * eexists. apply (step_ends _ _ _ _ _ _ _ _ f); [by apply Hp|done].
    + eexists. apply step_finishes. by rewrite Hf.
Qed.

(** The steps of some rounds are steps. *)
Lemma step_allowed (allowed : round → Prop) x y :
  exchange_step rt tm dds ask question allowFakeIP allowed rules x y → exchange_step rt tm dds ask question allowFakeIP any_round rules x y.
Proof. destruct 1; by econstructor. Qed.

Lemma started_shape options m : run_shape (started options m).
Proof. cbn. split; [|lia]. split; cbn; try done. Qed.
End ends.
