(* ===== verification/DnsMode.v ===== *)
(** The life of the DNS router ([dns/router.go]): which mode its rules put it in,
    the checks they pass, the building of the rules, and the updates of rule-sets
    that are refused.

    The rule-sets of the router are a parameter: [sets] gives a set by its tag,
    or is [None] when there is no router. *)

From S2P Require Import Prelude GoBytes GoSlices GoStrings Netip Metadata RuleItems RuleAction RuleMatch Options RuleBuild.
From S2P Require Import DnsMessage DnsClient DnsRouter.

(** [deprecated.Note], what a message says of it. *)
Record Note : Type := mkNote { n_Description : string; n_DeprecatedVersion : string; n_ScheduledVersion : string; n_MigrationLink : string }.
(** [func (n Note) MessageWithLink() string]. *)
Definition MessageWithLink (n : Note) : string :=
  let removedIn := if negb (String.eqb (n_ScheduledVersion n) "") then String.append "sing-box " (n_ScheduledVersion n) else "a future version"%string in
  String.append (n_Description n) (String.append " is deprecated in sing-box " (String.append (n_DeprecatedVersion n)
    (String.append " and will be removed in " (String.append removedIn
      (if negb (String.eqb (n_MigrationLink n) "") then String.append ", checkout documentation for migration: " (n_MigrationLink n) else "."%string))))).
Definition OptionLegacyDNSAddressFilter : Note :=
  mkNote "Legacy Address Filter Fields in DNS rules" "1.14.0" "1.16.0"
    "https://sing-box.sagernet.org/migration/#migrate-address-filter-fields-to-response-matching".
Definition OptionLegacyDNSRuleStrategy : Note :=
  mkNote "Legacy `strategy` DNS rule action option" "1.14.0" "1.16.0"
    "https://sing-box.sagernet.org/migration/#migrate-dns-rule-action-strategy-to-rule-items".

(** [E.Cause(err, kind, "[", i, "]")]. *)
Definition at_index {A} (kind : string) (i : nat) (r : result A) : result A :=
  wrap_cause (String.append kind (String.append "[" (String.append (pretty i) "]"))) r.
Definition rule_error (i : nat) (msg : string) : goerr :=
  ErrNew (String.append "dns rule[" (String.append (pretty i) (String.append "]: " msg))).

(** ** What the options of a rule say *)

Definition isDefault (type_ : string) : bool := String.eqb type_ "" || String.eqb type_ "default".

Definition dnsRuleActionOf (o : DNSRuleOptions) : option DNSRuleActionOptions :=
  match o with mkDNSRuleOptions type_ _ rawAction _ logicalAction =>
    if isDefault type_ then Some rawAction else if String.eqb type_ "logical" then Some logicalAction else None end.

Definition dnsRuleActionType (o : DNSRuleOptions) : string :=
  match dnsRuleActionOf o with
  | Some a => if String.eqb (da_Action a) "" then "route"%string else da_Action a
  | None => EmptyString
  end.
Definition dnsRuleActionServer (o : DNSRuleOptions) : string :=
  match dnsRuleActionOf o with
  | Some a => if String.eqb (dnsRuleActionType o) "evaluate" then deo_Server (da_EvaluateOptions a) else dro_Server (da_RouteOptions a)
  | None => EmptyString
  end.
Definition dnsRuleActionEvaluateTag (o : DNSRuleOptions) : string :=
  match dnsRuleActionOf o with Some a => deo_Tag (da_EvaluateOptions a) | None => EmptyString end.
Definition dnsRuleActionSpeculative (o : DNSRuleOptions) : bool :=
  match dnsRuleActionOf o with
  | Some a => if String.eqb (dnsRuleActionType o) "evaluate" then deo_Speculative (da_EvaluateOptions a) else dro_Speculative (da_RouteOptions a)
  | None => false
  end.
Definition dnsRuleRace (o : DNSRuleOptions) : bool := match dnsRuleActionOf o with Some a => da_Race a | None => false end.

Definition isRoute (kind : string) : bool := String.eqb kind "" || String.eqb kind "route".
Definition dnsRuleActionDisablesLegacyDNSMode (a : DNSRuleActionOptions) : bool :=
  if da_Race a then true
  else if isRoute (da_Action a) then do_DisableOptimisticCache (dro_Abstract (da_RouteOptions a)) || dro_Speculative (da_RouteOptions a)
  else if String.eqb (da_Action a) "evaluate" then do_DisableOptimisticCache (deo_Abstract (da_EvaluateOptions a)) || deo_Speculative (da_EvaluateOptions a)
  else if String.eqb (da_Action a) "route-options" then do_DisableOptimisticCache (da_RouteOptionsOptions a)
  else false.
Definition dnsRuleActionHasStrategy (a : DNSRuleActionOptions) : bool :=
  if isRoute (da_Action a) then negb (do_Strategy (dro_Abstract (da_RouteOptions a)) =? 0)
  else if String.eqb (da_Action a) "evaluate" then negb (do_Strategy (deo_Abstract (da_EvaluateOptions a)) =? 0)
  else if String.eqb (da_Action a) "route-options" then negb (do_Strategy (da_RouteOptionsOptions a) =? 0)
  else false.

Definition defaultRuleNeedsLegacyDNSModeFromAddressFilter (o : RawDefaultDNSRule) : bool :=
  d_RuleSetIPCIDRAcceptEmpty o ||
  negb (MatchResponse_IsEnabled (d_MatchResponse o)) && (d_IPAcceptAny o || nonempty (d_IPCIDR o) || d_IPIsPrivate o).
Definition hasResponseMatchFields (o : RawDefaultDNSRule) : bool :=
  isSome (d_ResponseRcode o) || nonempty (d_ResponseAnswer o) || nonempty (d_ResponseNs o) || nonempty (d_ResponseExtra o).
Definition defaultRuleDisablesLegacyDNSMode (o : RawDefaultDNSRule) (a : DNSRuleActionOptions) : bool :=
  MatchResponse_IsEnabled (d_MatchResponse o) || hasResponseMatchFields o ||
  String.eqb (da_Action a) "evaluate" || String.eqb (da_Action a) "respond" || (0 <? d_IPVersion o) || nonempty (d_QueryType o).

Record dnsRuleModeFlags : Type := mkFlags { fl_disabled : bool; fl_needed : bool; fl_neededFromStrategy : bool }.
Definition noFlags : dnsRuleModeFlags := mkFlags false false false.
Definition flags_merge (f g : dnsRuleModeFlags) : dnsRuleModeFlags :=
  mkFlags (fl_disabled f || fl_disabled g) (fl_needed f || fl_needed g) (fl_neededFromStrategy f || fl_neededFromStrategy g).

(** The responses a rule looks at. *)
Record dnsRuleResponseUse : Type := mkUse { us_needsAnonymous : bool; us_referencedTags : list string }.
Definition noUse : dnsRuleResponseUse := mkUse false [].
Definition use_merge (u v : dnsRuleResponseUse) : dnsRuleResponseUse :=
  mkUse (us_needsAnonymous u || us_needsAnonymous v) (us_referencedTags u ++ us_referencedTags v).

(** [for i, rule := range rules { x, err := f(rule); E.Cause(err, kind, "[", i, "]"); acc.merge(x) }]. *)
Section fold.
Context {O A : Type} (kind : string) (f : O → result A) (merge : A → A → A).
Fixpoint foldRules (i : nat) (rules : list O) (acc : A) : result A :=
  match rules with
  | [] => Ok acc
  | o :: rules => x ← at_index kind i (f o); foldRules (S i) rules (merge acc x)
  end.
End fold.

Section mode.
Context {EX : External}.
(** [router.RuleSet(tag)], and the metadata that takes the place of that of a set. *)
Context (sets : option (string → option (RuleSet Rule))) (overrides : gmap string RuleSetMetadata).

Definition lookupDNSRuleSetMetadata (lookup : string → option (RuleSet Rule)) (tag : string) : result RuleSetMetadata :=
  match overrides !! tag with
  | Some m => Ok m
  | None => match lookup tag with Some s => Ok (rs_metadata s) | None => Err (ErrNew (String.append "rule-set not found: " tag)) end
  end.

(** ** The mode *)

(** The flags of one rule-set of a rule. *)
Definition setFlags (matchSource : bool) (flags : dnsRuleModeFlags) (m : RuleSetMetadata) : dnsRuleModeFlags :=
  mkFlags (fl_disabled flags || ContainsDNSQueryTypeRule m)
    (if negb matchSource && ContainsIPCIDRRule m then true else fl_needed flags) (fl_neededFromStrategy flags).
Fixpoint setsFlags (lookup : string → option (RuleSet Rule)) (matchSource : bool) (tags : list string) (flags : dnsRuleModeFlags) : result dnsRuleModeFlags :=
  match tags with
  | [] => Ok flags
  | tag :: tags => m ← lookupDNSRuleSetMetadata lookup tag; setsFlags lookup matchSource tags (setFlags matchSource flags m)
  end.

Definition dnsRuleModeRequirementsInDefaultRule (o : RawDefaultDNSRule) (a : DNSRuleActionOptions) : result dnsRuleModeFlags :=
  let flags := mkFlags (defaultRuleDisablesLegacyDNSMode o a || dnsRuleActionDisablesLegacyDNSMode a)
    (defaultRuleNeedsLegacyDNSModeFromAddressFilter o || dnsRuleActionHasStrategy a) (dnsRuleActionHasStrategy a) in
  if negb (nonempty (d_RuleSet o)) then Ok flags
  else match sets with
    | None => Err (ErrNew "router service not found")
    | Some lookup => setsFlags lookup (d_RuleSetIPCIDRMatchSource o) (d_RuleSet o) flags
    end.

Fixpoint dnsRuleModeRequirementsInRule (o : DNSRuleOptions) : result dnsRuleModeFlags :=
  match o with
  | mkDNSRuleOptions type_ raw rawAction logical logicalAction =>
      if isDefault type_ then dnsRuleModeRequirementsInDefaultRule raw rawAction
      else if String.eqb type_ "logical" then
        let kind := if String.eqb (da_Action logicalAction) "" then "route"%string else da_Action logicalAction in
        foldRules "sub rule" dnsRuleModeRequirementsInRule flags_merge 0 (lo_Rules logical)
          (mkFlags (String.eqb kind "evaluate" || String.eqb kind "respond" || dnsRuleActionDisablesLegacyDNSMode logicalAction)
            (dnsRuleActionHasStrategy logicalAction) (dnsRuleActionHasStrategy logicalAction))
      else Ok noFlags
  end.
Definition dnsRuleModeRequirements (rules : list DNSRuleOptions) : result dnsRuleModeFlags :=
  foldRules "dns rule" dnsRuleModeRequirementsInRule flags_merge 0 rules noFlags.

Definition resolveLegacyDNSMode (rules : list DNSRuleOptions) : result (bool * dnsRuleModeFlags) :=
  flags ← dnsRuleModeRequirements rules;
  if fl_disabled flags && fl_neededFromStrategy flags then Err (ErrNew (MessageWithLink OptionLegacyDNSRuleStrategy))
  else Ok (if fl_disabled flags then false else fl_needed flags, flags).

(** ** The checks of the mode that is not the legacy one *)

Definition responseFieldsMessage : string :=
  "Response Match Fields (ip_cidr, ip_is_private, ip_accept_any, response_rcode, response_answer, response_ns, response_extra) require match_response to be enabled".

(** No referenced rule-set holds addresses alone. *)
Fixpoint checkPureIPSets (lookup : string → option (RuleSet Rule)) (tags : list string) : result unit :=
  match tags with
  | [] => Ok tt
  | tag :: tags =>
      m ← lookupDNSRuleSetMetadata lookup tag;
      if ContainsIPCIDRRule m && negb (ContainsNonIPCIDRRule m) then Err (ErrNew (MessageWithLink OptionLegacyDNSAddressFilter)) else checkPureIPSets lookup tags
  end.

(** A router that is not there is a nil dereference in [lookupDNSRuleSetMetadata]. *)
Definition validateLegacyDNSModeDisabledDefaultRule (o : RawDefaultDNSRule) (a : DNSRuleActionOptions) : result dnsRuleResponseUse :=
  let enabled := MatchResponse_IsEnabled (d_MatchResponse o) in
  let tag := MatchResponse_ResponseTag (d_MatchResponse o) in
  if (hasResponseMatchFields o || nonempty (d_IPCIDR o) || d_IPIsPrivate o || d_IPAcceptAny o) && negb enabled
  then Err (ErrNew responseFieldsMessage)
  else
    _ ← (if negb enabled && nonempty (d_RuleSet o) then
          match sets with Some lookup => checkPureIPSets lookup (d_RuleSet o) | None => Panic "nil router" end
         else Ok tt);
    if d_RuleSetIPCIDRAcceptEmpty o then Err (ErrNew acceptEmptyMessage)
    else
      let use := if enabled then if negb (String.eqb tag "") then mkUse false [tag] else mkUse true [] else noUse in
      Ok (if String.eqb (da_Action a) "respond" && String.eqb tag "" then mkUse true (us_referencedTags use) else use).

Fixpoint validateLegacyDNSModeDisabledRuleTree (o : DNSRuleOptions) : result dnsRuleResponseUse :=
  match o with
  | mkDNSRuleOptions type_ raw rawAction logical logicalAction =>
      if isDefault type_ then validateLegacyDNSModeDisabledDefaultRule raw rawAction
      else if String.eqb type_ "logical" then
        use ← foldRules "sub rule" validateLegacyDNSModeDisabledRuleTree use_merge 0 (lo_Rules logical) noUse;
        if String.eqb (da_Action logicalAction) "respond" then
          if nonempty (us_referencedTags use)
          then Err (ErrNew "respond on a logical rule cannot bind a `match_response` tag from its sub rules; use a non-logical rule")
          else Ok (mkUse true (us_referencedTags use))
        else Ok use
      else Ok noUse
  end.

(** The variables of [validateLegacyDNSModeDisabledRules]. *)
Record validation : Type := mkValidation {
  va_warnings : list string;
  va_seenAnonymousEvaluate : bool;
  va_seenRace : bool;
  va_definedTags : list string;
  va_referencedTags : gset string;
  va_lastAnonymousEvaluate : Z;
  va_anonymousReadSinceLast : bool
}.
Definition warning_at (i : string) (msg : string) : string := String.append "dns rule[" (String.append i (String.append "]: " msg)).

(** [for _, tag := range use.referencedTags]. *)
Fixpoint checkReferenced (i : nat) (defined tags : list string) (referenced : gset string) : result (gset string) :=
  match tags with
  | [] => Ok referenced
  | tag :: tags =>
      if negb (bool_decide (tag ∈ defined)) then Err (rule_error i (String.append "undefined evaluate tag: " tag))
      else checkReferenced i defined tags ({[tag]} ∪ referenced)
  end.

(** One rule of [validateLegacyDNSModeDisabledRules]. *)
Definition validateRule (i : nat) (o : DNSRuleOptions) (v : validation) : result validation :=
  use ← at_index "validate dns rule" i (validateLegacyDNSModeDisabledRuleTree o);
  let warnings := if dnsRuleActionSpeculative o && negb (va_seenRace v)
    then va_warnings v ++ [warning_at (pretty i) "`speculative` has no effect without a preceding `race` rule"] else va_warnings v in
  let seenRace := dnsRuleRace o || va_seenRace v in
  if us_needsAnonymous use && negb (va_seenAnonymousEvaluate v) then
    Err (rule_error i (if nonempty (va_definedTags v)
      then "response-based matching requires a preceding evaluate action without `tag`; use `match_response` with an evaluate tag to reference a tagged result"
      else "response-based matching requires a preceding evaluate action"))
  else
    let read := us_needsAnonymous use || va_anonymousReadSinceLast v in
    referenced ← checkReferenced i (va_definedTags v) (us_referencedTags use) (va_referencedTags v);
    if String.eqb (dnsRuleActionType o) "evaluate" then
      let tag := dnsRuleActionEvaluateTag o in
      if String.eqb tag "" then
        let warnings := if (0 <=? va_lastAnonymousEvaluate v) && negb read
          then warnings ++ [warning_at (pretty (va_lastAnonymousEvaluate v)) (String.append "evaluated response is overwritten by dns rule[" (String.append (pretty i) "] before any use"))]
          else warnings in
        Ok (mkValidation warnings true seenRace (va_definedTags v) referenced (Z.of_nat i) false)
      else if bool_decide (tag ∈ va_definedTags v) then Err (rule_error i (String.append "duplicate evaluate tag: " tag))
      else Ok (mkValidation warnings (va_seenAnonymousEvaluate v) seenRace (va_definedTags v ++ [tag]) referenced (va_lastAnonymousEvaluate v) read)
    else Ok (mkValidation warnings (va_seenAnonymousEvaluate v) seenRace (va_definedTags v) referenced (va_lastAnonymousEvaluate v) read).

Fixpoint validateRules (i : nat) (rules : list DNSRuleOptions) (v : validation) : result validation :=
  match rules with
  | [] => Ok v
  | o :: rules => v ← validateRule i o v; validateRules (S i) rules v
  end.
(** The warnings it gives. *)
Definition validateLegacyDNSModeDisabledRules (rules : list DNSRuleOptions) : result (list string) :=
  v ← validateRules 0 rules (mkValidation [] false false [] ∅ (-1) false);
  Ok (va_warnings v ++ (String.append "evaluate tag is never referenced: " <$> filter (λ tag, tag ∉ va_referencedTags v) (va_definedTags v))).
End mode.

(** No rule evaluates with a server of fake addresses. *)
Fixpoint validateEvaluateFakeIPRules (i : nat) (tm : TransportManager) (rules : list DNSRuleOptions) : result unit :=
  match rules with
  | [] => Ok tt
  | o :: rules =>
      if String.eqb (dnsRuleActionType o) "evaluate" && negb (String.eqb (dnsRuleActionServer o) "") &&
         match tm_Transport tm (dnsRuleActionServer o) with Some t => isFakeIP t | None => false end
      then Err (rule_error i (String.append "evaluate action cannot use fakeip server: " (dnsRuleActionServer o)))
      else validateEvaluateFakeIPRules (S i) tm rules
  end.

(** ** Building and starting the rules *)

(** What the items look up when they start: rule-sets, and the servers and
    outbounds that may prefer names, with their types. *)
Record Services `{!External} : Type := mkServices {
  sv_RuleSet : string → option (RuleSet Rule);
  sv_Outbound : string → option (string * bool);
  sv_Server : string → option (string * bool)
}.

Section router.
Context {EX : External}.

(** [Start] of [PreferredByItem] and [PreferredByDNSItem]: every tag is that of an
    outbound or server that can prefer names. *)
Fixpoint checkPreferred (lookup : string → option (string * bool)) (missing unsupported : string) (tags : list string) : result unit :=
  match tags with
  | [] => Ok tt
  | tag :: tags =>
      match lookup tag with
      | None => Err (ErrNew (String.append missing tag))
      | Some (type_, false) => Err (ErrNew (String.append unsupported type_))
      | Some (_, true) => checkPreferred lookup missing unsupported tags
      end
  end.
Definition RuleItem_Start (sv : Services) (i : RuleItem) : result unit :=
  match i with
  | PreferredByItem tags => checkPreferred (sv_Outbound sv) "outbound not found: " "outbound type does not support preferred routes: " tags
  | PreferredByDNSItem tags => checkPreferred (sv_Server sv) "DNS server not found: " "DNS server type does not support preferred_by: " tags
  | _ => Ok tt
  end.

(** [func (r *RuleSetItem) Start() error], without the counting of references. *)
Fixpoint startSets (sv : Services) (tags : list string) : result (list (RuleSet Rule)) :=
  match tags with
  | [] => Ok []
  | tag :: tags =>
      match sv_RuleSet sv tag with
      | None => Err (ErrNew (String.append "rule-set not found: " tag))
      | Some s => rest ← startSets sv tags; Ok (s :: rest)
      end
  end.
Definition startItem (sv : Services) (rs : option (RuleSetItem Rule)) : result (option (RuleSetItem Rule)) :=
  match rs with
  | None => Ok None
  | Some (mkRuleSetItem tags _ matchSource acceptEmpty) => l ← startSets sv tags; Ok (Some (mkRuleSetItem tags l matchSource acceptEmpty))
  end.
(** [func (r *abstractDefaultRule) Start() error]. *)
Fixpoint startItems (sv : Services) (all : list itemRef) (rs : option (RuleSetItem Rule)) : result (option (RuleSetItem Rule)) :=
  match all with
  | [] => Ok rs
  | ItemRef i :: all => _ ← RuleItem_Start sv i; startItems sv all rs
  | RuleSetRef :: all => rs ← startItem sv rs; startItems sv all rs
  end.
Definition abstractDefaultRule_Start (sv : Services) (d : abstractDefaultRule Rule) : result (abstractDefaultRule Rule) :=
  match d with mkDefaultRule it sa sp da di dp all rs inv act =>
    rs ← startItems sv all rs; Ok (mkDefaultRule it sa sp da di dp all rs inv act) end.

(** [for _, rule := range r.rules { err := rule.Start() }]. *)
Section rules.
Context {A B : Type} (f : A → result B).
Fixpoint startAll (l : list A) : result (list B) :=
  match l with [] => Ok [] | x :: l => y ← f x; l ← startAll l; Ok (y :: l) end.
End rules.
Fixpoint Rule_Start (sv : Services) (r : Rule) : result Rule :=
  let logical (l : abstractLogicalRule Rule) :=
    rules ← startAll (Rule_Start sv) (l_rules l); Ok (mkLogicalRule rules (l_mode l) (l_invert l) (l_action l)) in
  match r with
  | DefaultHeadlessRule d => d ← abstractDefaultRule_Start sv d; Ok (DefaultHeadlessRule d)
  | LogicalHeadlessRule l => l ← logical l; Ok (LogicalHeadlessRule l)
  | DefaultRule d => d ← abstractDefaultRule_Start sv d; Ok (DefaultRule d)
  | LogicalRule l => l ← logical l; Ok (LogicalRule l)
  | DefaultDNSRule d matchResponse tag race => d ← abstractDefaultRule_Start sv d; Ok (DefaultDNSRule d matchResponse tag race)
  | LogicalDNSRule l tags anonymous race => l ← logical l; Ok (LogicalDNSRule l tags anonymous race)
  end.

(** [for i, x := range l { y, err := f(x); E.Cause(err, kind, "[", i, "]") }]. *)
Section each.
Context {A B : Type} (kind : string) (f : A → result B).
Fixpoint eachRule (i : nat) (l : list A) : result (list B) :=
  match l with [] => Ok [] | x :: l => y ← at_index kind i (f x); l ← eachRule (S i) l; Ok (y :: l) end.
End each.

(** [func (r *Router) buildRules(startRules)]. *)
Definition buildRules (sv : Services) (tm : TransportManager) (startRules : bool) (rawRules : list DNSRuleOptions) : result (list Rule * bool * dnsRuleModeFlags) :=
  _ ← eachRule "parse dns rule" (validateNoNestedDNSRuleActions false) 0 rawRules;
  '(legacyDNSMode, modeFlags) ← resolveLegacyDNSMode (Some (sv_RuleSet sv)) ∅ rawRules;
  _ ← (if negb legacyDNSMode then validateLegacyDNSModeDisabledRules (Some (sv_RuleSet sv)) ∅ rawRules else Ok []);
  _ ← validateEvaluateFakeIPRules 0 tm rawRules;
  newRules ← eachRule "parse dns rule" (NewDNSRule true legacyDNSMode) 0 rawRules;
  newRules ← (if startRules then eachRule "initialize DNS rule" (Rule_Start sv) 0 newRules else Ok newRules);
  Ok (newRules, legacyDNSMode, modeFlags).

(** ** The router *)

Record Router : Type := mkRouter {
  dr_rawRules : list DNSRuleOptions;
  dr_rules : list Rule;
  dr_legacyDNSMode : bool;
  dr_started : bool;
  dr_closing : bool
}.
Definition newRouter : Router := mkRouter [] [] false false false.

(** [func (r *Router) Initialize(rules) error]: the rules are built and thrown away. *)
Definition Initialize (sv : Services) (tm : TransportManager) (rules : list DNSRuleOptions) (r : Router) : Router * result unit :=
  (mkRouter rules (dr_rules r) (dr_legacyDNSMode r) (dr_started r) (dr_closing r), _ ← buildRules sv tm false rules; Ok tt).
(** [func (r *Router) Start(StartStateStart, scope) error]. *)
Definition Start (sv : Services) (tm : TransportManager) (r : Router) : Router * result unit :=
  match buildRules sv tm true (dr_rawRules r) with
  | Ok (rules, legacyDNSMode, _) => (if dr_closing r then r else mkRouter (dr_rawRules r) rules legacyDNSMode true (dr_closing r), Ok tt)
  | Err e => (r, Err e)
  | Panic p => (r, Panic p)
  end.
(** What [Start] leaves to be done at the end. *)
Definition Close (r : Router) : Router := mkRouter (dr_rawRules r) [] (dr_legacyDNSMode r) (dr_started r) true.

(** [func (r *Router) ValidateRuleSetMetadataUpdate(tag, metadata) error]; [sets]
    is [None] when there is no router. *)
Definition ValidateRuleSetMetadataUpdate (sets : option (string → option (RuleSet Rule))) (tag : string) (m : RuleSetMetadata) (r : Router) : result unit :=
  if negb (nonempty (dr_rawRules r)) then Ok tt
  else match sets with
  | None => Err (ErrNew "router service not found")
  | Some _ =>
      let overrides : gmap string RuleSetMetadata := {[tag := m]} in
      let validate : result unit := _ ← validateLegacyDNSModeDisabledRules sets overrides (dr_rawRules r); Ok tt in
      if dr_closing r then Ok tt
      else
        '(candidateLegacyDNSMode, flags) ← resolveLegacyDNSMode sets overrides (dr_rawRules r);
        if negb (dr_started r) then if candidateLegacyDNSMode : bool then Ok tt else validate
        else if dr_legacyDNSMode r then
          if negb candidateLegacyDNSMode && fl_disabled flags then _ ← validate; Err (ErrNew (MessageWithLink OptionLegacyDNSAddressFilter)) else Ok tt
        else if candidateLegacyDNSMode then Err (ErrNew (MessageWithLink OptionLegacyDNSAddressFilter))
        else validate
  end.
End router.
