(* ===== verification/DnsModeTheorems.v ===== *)
(** Rules that pass the checks of the DNS router are ones its walk may be given:
    they look only at responses they wait for, and no tag is evaluated twice or
    after its use. *)

From S2P Require Import Prelude GoBytes GoSlices GoStrings Netip Metadata RuleItems RuleAction RuleMatch.
From S2P Require Import RuleSemantics RuleTheorems Options RuleBuild RuleBuildTheorems DnsMessage DnsClient DnsRouter DnsRouterSpec DnsRouterRefine DnsMode.

Create HintDb blind.

Section build.
Context {EX : External}.

(** ** Items of built rules *)

(** Every item a step adds satisfies [p]. *)
Definition step_fits (p : RuleItem → bool) (x : step) : Prop :=
  let '(c, _, r) := x in c = true → ∀ i, r = Ok i → p i = true.

Lemma appendItem_items p deep s i d :
  p i = true → default_items p deep d = true → default_items p deep (appendItem s i d) = true.
Proof.
  intros Hi. unfold default_items. destruct d, s; cbn; rewrite ?forallb_app; cbn; rewrite Hi, ?andb_true_r; done.
Qed.
Lemma appendItem_ruleSet s i d : ruleSetItem (appendItem s i d) = ruleSetItem d.
Proof. by destruct d, s. Qed.
Lemma addAll_items p deep steps d d' :
  Forall (step_fits p) steps → default_items p deep d = true → addAll steps d = Ok d' →
  default_items p deep d' = true ∧ ruleSetItem d' = ruleSetItem d.
Proof.
  intros Hs. revert d. induction Hs as [|[[c s] r] steps H Hs IH]; intros d Hd; cbn; [intros [= <-]; done|].
  intros Ha. apply bind_Ok in Ha as (d1 & H1 & H2). cbn in H1, H. destruct c.
  - apply bind_Ok in H1 as (i & Hi & [= <-]). destruct (IH _ (appendItem_items p deep s i d (H eq_refl i Hi) Hd) H2) as [? ->].
    split; [done|apply appendItem_ruleSet].
  - injection H1 as <-. by apply IH.
Qed.

Lemma plain_fits p c s i : (c = true → p i = true) → step_fits p (plain c s i).
Proof. intros H Hc j [= <-]. auto. Qed.
Lemma result_fits p c s r : (∀ i, r = Ok i → p i = true) → step_fits p (c, s, r).
Proof. intros H _. auto. Qed.
Lemma failWhen_fits p c m s : step_fits p (failWhen c m s).
Proof. by intros _ i. Qed.

Lemma ipVersionStep_fits p v : (∀ b, p (IPVersionItem b) = true) → step_fits p (ipVersionStep v).
Proof. intros H _ i. cbn. destruct (_ || _); [|done]. intros [= <-]. apply H. Qed.

Lemma blind_unpreferred i : blind i = true → unpreferred i = true.
Proof. by destruct i. Qed.
Lemma NewDomainItem_blind d s i : NewDomainItem d s = Ok i → blind i = true.
Proof. unfold NewDomainItem. destruct (containsb _ d); [done|]. destruct (containsb _ s); [done|]. by intros [= <-]. Qed.
Lemma NewDomainRegexItem_blind l i : NewDomainRegexItem l = Ok i → blind i = true.
Proof. unfold NewDomainRegexItem. intros H. invert_ok. done. Qed.
Lemma NewProcessPathRegexItem_blind l i : NewProcessPathRegexItem l = Ok i → blind i = true.
Proof. unfold NewProcessPathRegexItem. intros H. invert_ok. done. Qed.
Lemma NewPackageNameRegexItem_blind l i : NewPackageNameRegexItem l = Ok i → blind i = true.
Proof. unfold NewPackageNameRegexItem. intros H. invert_ok. done. Qed.
Lemma NewIPCIDRItem_blind b l i : NewIPCIDRItem b l = Ok i → blind i = true.
Proof. unfold NewIPCIDRItem. intros H. invert_ok. done. Qed.
Lemma NewPortRangeItem_blind b l i : NewPortRangeItem b l = Ok i → blind i = true.
Proof. unfold NewPortRangeItem. intros H. invert_ok. done. Qed.
Lemma NewOutboundRule_blind l : blind (NewOutboundRule l) = true.
Proof. unfold NewOutboundRule. by destruct (foldl _ _ _). Qed.
Hint Resolve NewOutboundRule_blind NewDomainItem_blind NewDomainRegexItem_blind NewProcessPathRegexItem_blind NewPackageNameRegexItem_blind
  NewIPCIDRItem_blind NewPortRangeItem_blind blind_unpreferred : blind.

Lemma step_fits_impl (p q : RuleItem → bool) x : (∀ i, p i = true → q i = true) → step_fits p x → step_fits q x.
Proof. destruct x as [[c s] r]. intros Hpq H Hc i Hi. apply Hpq. by eapply H. Qed.

Ltac fits_one :=
  match goal with
  | |- step_fits _ (plain _ _ _) => apply plain_fits; first [done|intros _; eauto with blind]
  | |- step_fits _ (ipVersionStep _) => apply ipVersionStep_fits; done
  | |- step_fits _ (failWhen _ _ _) => apply failWhen_fits
  | |- step_fits _ (_, _, _) => apply result_fits; intros i Hi; try apply wrap_cause_Ok in Hi; eauto with blind
  end.
Ltac fits_all := repeat first [apply Forall_nil_2|apply Forall_cons_2; [fits_one|]].

Lemma rawStep_fits {A} p c s (raw : option A) f : (∀ x, p (f x) = true) → Forall (step_fits p) (rawStep c s raw f).
Proof. intros H. destruct raw; cbn; [|constructor]. apply Forall_singleton, plain_fits. done. Qed.

Lemma headlessSteps_fit nm o : Forall (step_fits blind) (headlessSteps nm o).
Proof.
  unfold headlessSteps, headlessNetworkSteps. repeat (apply Forall_app_2); try (by apply rawStep_fits); try (fits_all; done).
  destruct nm; [fits_all|constructor].
Qed.

Section headless_ind.
Context (P : HeadlessRuleOptions → Prop).
Context (H : ∀ t o l, Forall P (lo_Rules l) → P (mkHeadlessRuleOptions t o l)).
Fixpoint HeadlessRuleOptions_nested_ind (o : HeadlessRuleOptions) : P o :=
  match o with
  | mkHeadlessRuleOptions t raw (mkLogicalOptions mode rules inv) =>
      H t raw (mkLogicalOptions mode rules inv)
        ((fix all (l : list HeadlessRuleOptions) : Forall P l :=
          match l with
          | [] => Forall_nil_2 P
          | x :: l => Forall_cons_2 P x l (HeadlessRuleOptions_nested_ind x) (all l)
          end) rules)
  end.
End headless_ind.

(** The rules of a rule-set look at no response. *)
Lemma NewHeadlessRule_blind nm o r : NewHeadlessRule nm o = Ok r → headless_items blind r = true.
Proof.
  revert r. induction o as [t o l IH] using HeadlessRuleOptions_nested_ind. intros r. cbn [NewHeadlessRule].
  destruct (String.eqb t "" || String.eqb t "default").
  { intros H. apply bind_Ok in H as (u & _ & H). apply bind_Ok in H as (d & Hd & [= <-]).
    by destruct (addAll_items blind (headless_items blind) _ (newAbstractRule (h_Invert o) None) d (headlessSteps_fit nm o) eq_refl Hd). }
  destruct (String.eqb t "logical"); [|done]. intros H. invert_ok. cbn.
  match goal with H : subRules _ _ _ = Ok _ |- _ => apply subRules_Forall2 in H; rename H into Hs end.
  apply forallb_forall. intros r' Hr'%list_elem_of_In.
  destruct (Forall2_elem_r _ _ _ _ Hs Hr') as (o' & Ho' & Hb). rewrite Forall_forall in IH. eauto.
Qed.

Lemma headless_items_impl (p q : RuleItem → bool) r :
  (∀ i, p i = true → q i = true) → headless_items p r = true → headless_items q r = true.
Proof.
  intros Hpq. assert (Hf : ∀ l, forallb p l = true → forallb q l = true).
  { intros l. rewrite !forallb_forall. auto. }
  induction r as [d IH|l IH|d IH|l IH|d ? ? ? IH|l ? ? ? IH] using Rule_nested_ind; cbn [headless_items]; try done.
  - unfold default_items. rewrite !andb_true_iff. intros ((((((? & ?) & ?) & ?) & ?) & ?) & Hs). split_and!; auto.
    destruct (ruleSetItem d) as [rs|]; [|done]. cbn in IH. rewrite Forall_forall in IH. rewrite forallb_forall in Hs.
    apply forallb_forall. intros s Hin. specialize (Hs s Hin). apply list_elem_of_In in Hin. specialize (IH s Hin).
    rewrite Forall_forall in IH. rewrite forallb_forall in Hs. apply forallb_forall. intros r Hr.
    apply IH; [by apply list_elem_of_In|]. by apply Hs.
  - intros H. rewrite Forall_forall in IH. rewrite forallb_forall in H. apply forallb_forall. intros r Hr.
    apply IH; [by apply list_elem_of_In|]. by apply H.
Qed.

(** ** Starting a rule *)

Section started.
Context (sv : Services).
(** The rule-sets hold headless rules that look at no response. *)
Definition sets_quiet : Prop :=
  ∀ tag s, sv_RuleSet sv tag = Some s → Forall (λ r, headless_items blind r = true) (rs_rules s).
Context (Hsets : sets_quiet).

Lemma startSets_quiet tags l :
  startSets sv tags = Ok l → Forall (λ s, Forall (λ r, headless_items blind r = true) (rs_rules s)) l.
Proof using Hsets.
  revert l. induction tags as [|tag tags IH]; intros l; cbn; [intros [= <-]; constructor|].
  destruct (sv_RuleSet sv tag) as [s|] eqn:E; [|done]. intros H. invert_ok. constructor; [by eapply Hsets|]. by apply IH.
Qed.

Definition rules_quiet (rs : option (RuleSetItem Rule)) : Prop :=
  ∀ x, rs = Some x → Forall (λ s, Forall (λ r, headless_items blind r = true) (rs_rules s)) (setList x).
Lemma startItems_quiet all rs rs' : rules_quiet rs → startItems sv all rs = Ok rs' → rules_quiet rs'.
Proof using Hsets.
  revert rs. induction all as [|[i|] all IH]; intros rs Hq; cbn; [by intros [= <-]| |].
  - intros H. invert_ok. by eapply IH.
  - intros H. apply bind_Ok in H as (rs1 & H1 & H2). eapply IH; [|done]. destruct rs as [[tags l ms ae]|]; cbn in H1; invert_ok.
    + intros y [= <-]. by eapply startSets_quiet.
    + by intros y.
Qed.

(** A started rule has the same items, and quiet rule-sets. *)
Lemma default_started p d d' deep :
  (∀ i, blind i = true → p i = true) → rules_quiet (ruleSetItem d) → default_items p deep d = true →
  abstractDefaultRule_Start sv d = Ok d' →
  default_items p (headless_items p) d' = true ∧ action d' = action d ∧ invert d' = invert d.
Proof using Hsets.
  intros Hp Hq Hd. destruct d as [it sa sp da di dp all rs inv act]. cbn. intros H. apply bind_Ok in H as (rs' & Hrs & [= <-]).
  split; [|done]. apply default_items_inv in Hd as (H1 & H2 & H3 & H4 & H5 & H6 & _). unfold default_items. cbn in *.
  rewrite H1, H2, H3, H4, H5, H6. cbn. destruct rs' as [x|]; [|done].
  pose proof (startItems_quiet _ _ _ Hq Hrs x eq_refl) as Hx. rewrite Forall_forall in Hx.
  apply forallb_forall. intros s Hs%list_elem_of_In. apply forallb_forall. intros r Hr%list_elem_of_In.
  specialize (Hx s Hs). rewrite Forall_forall in Hx. apply (headless_items_impl blind); [done|]. by apply Hx.
Qed.

(** *** Default rules *)

Lemma dnsRuleSteps_unpreferred o : Forall (step_fits unpreferred) (dnsRuleSteps o).
Proof using.
  unfold dnsRuleSteps, dnsRuleStepsAddress, dnsRuleStepsRest. repeat (apply Forall_app_2); try (fits_all; done).
  destruct (d_ResponseRcode o); [fits_all|constructor].
Qed.
Lemma dnsRuleSteps_blind o : hasResponseMatchFields o = false → Forall (step_fits blind) (dnsRuleSteps o).
Proof using.
  unfold hasResponseMatchFields. rewrite !orb_false_iff. intros (((H1 & H2) & H3) & H4).
  unfold dnsRuleSteps, dnsRuleStepsAddress, dnsRuleStepsRest. rewrite H2, H3, H4.
  destruct (d_ResponseRcode o); [done|]. repeat (apply Forall_app_2); fits_all.
Qed.

Lemma addRuleSet_items p deep tags dep ms ae d d' :
  addRuleSet tags dep ms ae d = Ok d' → ruleSetItem d = None → default_items p deep d = true →
  default_items p deep d' = true ∧ rules_quiet (ruleSetItem d').
Proof using.
  unfold addRuleSet. destruct (nonempty tags); [destruct dep; [done|]|]; intros [= <-] Hn Hd.
  - split; [|intros x; destruct d; cbn; intros [= <-]; constructor]. destruct d; cbn in *. subst. done.
  - split; [done|]. by rewrite Hn.
Qed.

Lemma NewDefaultDNSRule_items o a r p :
  NewDefaultDNSRule o a false = Ok r → Forall (step_fits p) (dnsRuleSteps o) →
  ∃ d, r = DefaultDNSRule d (MatchResponse_IsEnabled (d_MatchResponse o)) (MatchResponse_ResponseTag (d_MatchResponse o)) (da_Race a) ∧
    default_items p (headless_items p) d = true ∧ rules_quiet (ruleSetItem d) ∧ NewDNSRuleAction a = Ok (action d).
Proof using.
  intros H Hs. pose proof (NewDefaultDNSRule_shape _ _ _ _ H) as (d0 & -> & Hact). exists d0. split; [done|].
  unfold NewDefaultDNSRule in H. apply bind_Ok in H as (act & _ & H). apply bind_Ok in H as (d1 & H1 & H).
  apply bind_Ok in H as (u & _ & H). apply bind_Ok in H as (d2 & H2 & H). injection H as ->.
  destruct (addAll_items p (headless_items p) _ (newAbstractRule (d_Invert o) act) d1 Hs eq_refl H1) as [Hi Hr].
  destruct (addRuleSet_items p (headless_items p) _ _ _ _ _ _ H2 Hr Hi) as [? ?]. done.
Qed.

(** *** Trees of rules *)

(** A response that has a tag is one that is matched, as the parser of
    [match_response] makes sure. *)
Fixpoint tags_enabled (o : DNSRuleOptions) : bool :=
  match o with mkDNSRuleOptions type_ raw _ logical _ =>
    if isDefault type_ then MatchResponse_IsEnabled (d_MatchResponse raw) || String.eqb (MatchResponse_ResponseTag (d_MatchResponse raw)) ""
    else forallb tags_enabled (lo_Rules logical) end.

(** [common.Uniq] keeps the elements of a list. *)
Definition uniq_keeps : Prop := ∀ l x, x ∈ common_Uniq l ↔ x ∈ l.
Context (Huniq : uniq_keeps).

Lemma bound_to_mono tags tags' an an' r :
  (∀ x, x ∈ tags → x ∈ tags') → (an = true → an' = true) → bound_to tags an r = true → bound_to tags' an' r = true.
Proof using.
  intros Ht Ha. induction r as [d IH|l IH|d IH|l IH|d mr tag race IH|l ? ? ? IH] using Rule_nested_ind; cbn [bound_to]; try done.
  - destruct mr; [|done]. rewrite !andb_true_iff. intros [? H]. split; [done|]. destruct (String.eqb tag ""); [by apply Ha|].
    rewrite bool_decide_eq_true in *. by apply Ht.
  - intros H. rewrite forallb_forall in H. rewrite Forall_forall in IH. apply forallb_forall. intros r Hr.
    apply IH; [by apply list_elem_of_In|by apply H].
Qed.

Lemma startAll_Forall2 {A B} (f : A → result B) l l' : startAll f l = Ok l' → Forall2 (λ x y, f x = Ok y) l l'.
Proof using. revert l'. induction l as [|x l IH]; intros l'; cbn; intros H; invert_ok; constructor; auto. Qed.
Lemma eachRule_Forall2 {A B} kind (f : A → result B) i l l' : eachRule kind f i l = Ok l' → Forall2 (λ x y, f x = Ok y) l l'.
Proof using.
  revert i l'. induction l as [|x l IH]; intros i l'; cbn; unfold at_index; intros H; invert_ok; [constructor|].
  constructor; [done|]. eauto.
Qed.
Lemma foldRules_use kind (f : DNSRuleOptions → result dnsRuleResponseUse) i l acc use :
  foldRules kind f use_merge i l acc = Ok use →
  Forall (λ o, ∃ u, f o = Ok u ∧ ∀ tag, tag ∈ us_referencedTags u → tag ∈ us_referencedTags use) l ∧
  ∀ tag, tag ∈ us_referencedTags acc → tag ∈ us_referencedTags use.
Proof using.
  revert i acc. induction l as [|o l IH]; intros i acc; cbn; unfold at_index.
  - intros [= <-]. by split; [constructor|].
  - intros H. apply bind_Ok in H as (u & Hu & H). apply wrap_cause_Ok in Hu. destruct (IH _ _ H) as [H1 H2]. split.
    + constructor; [|done]. exists u. split; [done|]. intros tag Ht. apply H2. cbn. apply elem_of_app. by right.
    + intros tag Ht. apply H2. cbn. apply elem_of_app. by left.
Qed.

(** What starting keeps of a DNS rule. *)
Lemma Rule_Start_keeps r r' :
  Rule_Start sv r = Ok r' →
  MatchResponseTags r' = MatchResponseTags r ∧ MatchResponseAnonymous r' = MatchResponseAnonymous r ∧
  MatchResponseTag r' = MatchResponseTag r ∧ Rule_Action r' = Rule_Action r.
Proof using.
  assert (Hd : ∀ d d', abstractDefaultRule_Start sv d = Ok d' → action d' = action d).
  { intros [] d'. cbn. intros H. invert_ok. done. }
  destruct r; cbn; intros H; apply bind_Ok in H as (x & Hx & [= <-]); cbn; split_and!; try done; try (by apply Hd).
  all: apply bind_Ok in Hx as (y & _ & [= <-]); done.
Qed.

Context (sets : option (string → option (RuleSet Rule))) (overrides : gmap string RuleSetMetadata).

Lemma validated_default o a use :
  validateLegacyDNSModeDisabledDefaultRule sets overrides o a = Ok use →
  (MatchResponse_IsEnabled (d_MatchResponse o) = false → hasResponseMatchFields o = false) ∧
  (MatchResponse_IsEnabled (d_MatchResponse o) = true → MatchResponse_ResponseTag (d_MatchResponse o) ≠ EmptyString →
    MatchResponse_ResponseTag (d_MatchResponse o) ∈ us_referencedTags use).
Proof using.
  unfold validateLegacyDNSModeDisabledDefaultRule. destruct (_ && negb _) eqn:E; [done|]. intros H.
  apply bind_Ok in H as (u & _ & H). destruct (d_RuleSetIPCIDRAcceptEmpty o); [done|]. apply Ok_inj in H. split.
  - intros Hn. rewrite Hn, andb_true_r in E. rewrite !orb_false_iff in E. by destruct E as [[[? _] _] _].
  - intros Hy Ht. rewrite Hy in H. apply String.eqb_neq in Ht. rewrite Ht in H. cbn in H. rewrite andb_false_r in H.
    subst use. cbn. by left.
Qed.

Lemma tree_bound o : ∀ check r r' use,
  NewDNSRule check false o = Ok r → Rule_Start sv r = Ok r' → validateLegacyDNSModeDisabledRuleTree sets overrides o = Ok use →
  tags_enabled o = true →
  bound r' = true ∧ ∀ tag, tag ∈ MatchResponseTags r' → tag ∈ us_referencedTags use.
Proof using Hsets Huniq.
  induction o as [t raw a l la IH] using DNSRuleOptions_nested_ind.
  intros check r r' use. cbn [NewDNSRule validateLegacyDNSModeDisabledRuleTree tags_enabled]. unfold isDefault.
  destruct (String.eqb t "" || String.eqb t "default").
  - intros H Hst Hv He. do 4 apply bind_Ok in H as (? & _ & H). destruct (validated_default _ _ _ Hv) as [Hv1 Hv2].
    assert (Hp : ∃ p, (∀ i, blind i = true → p i = true) ∧ Forall (step_fits p) (dnsRuleSteps raw) ∧
      (p = if MatchResponse_IsEnabled (d_MatchResponse raw) then unpreferred else blind)).
    { destruct (MatchResponse_IsEnabled (d_MatchResponse raw)).
      - exists unpreferred. split_and!; [apply blind_unpreferred|apply dnsRuleSteps_unpreferred|done].
      - exists blind. split_and!; [done|by apply dnsRuleSteps_blind, Hv1|done]. }
    destruct Hp as (p & Hp1 & Hp2 & Hp3). destruct (NewDefaultDNSRule_items _ _ _ p H Hp2) as (d & -> & Hd & Hq & _).
    cbn in Hst. apply bind_Ok in Hst as (d' & Hd' & [= <-]).
    destruct (default_started p d d' _ Hp1 Hq Hd Hd') as [Hi _]. split.
    + unfold bound. cbn. destruct (MatchResponse_IsEnabled (d_MatchResponse raw)); subst p; [|done]. rewrite Hi. cbn.
      destruct (String.eqb_spec (MatchResponse_ResponseTag (d_MatchResponse raw)) ""); [done|]. apply bool_decide_eq_true. by left.
    + intros tag. cbn. destruct (String.eqb_spec (MatchResponse_ResponseTag (d_MatchResponse raw)) "") as [|Hne]; [by intros ?%elem_of_nil|].
      rewrite list_elem_of_singleton. intros ->. apply Hv2; [|done]. rewrite orb_false_r in He. done.
  - destruct (String.eqb t "logical"); [|done]. intros H Hst Hv He. do 5 apply bind_Ok in H as (? & _ & H).
    apply bind_Ok in H as (rules & Hsub & H). apply subRules_Forall2 in Hsub. unfold finishLogicalDNSRule in H.
    destruct (_ && _); [done|]. apply Ok_inj in H. subst r. cbn in Hst.
    apply bind_Ok in Hst as (l' & Hl & [= <-]). apply bind_Ok in Hl as (rules' & Hr & [= <-]). apply startAll_Forall2 in Hr.
    apply bind_Ok in Hv as (u & Hu & Hv). destruct (foldRules_use _ _ _ _ _ _ Hu) as [Hf _]. rewrite Forall_forall in Hf, IH.
    assert (Hall : ∀ r', r' ∈ rules' → ∃ r, r ∈ rules ∧ bound r' = true ∧ MatchResponseTags r' = MatchResponseTags r ∧
      MatchResponseAnonymous r' = MatchResponseAnonymous r).
    { intros r' Hin. destruct (Forall2_elem_r _ _ _ _ Hr Hin) as (r & Hrin & Hst).
      destruct (Forall2_elem_r _ _ _ _ Hsub Hrin) as (o' & Ho' & Hb). apply bind_Ok in Hb as (_ & _ & Hb).
      destruct (Hf o' Ho') as (u' & Hu' & _). rewrite forallb_forall in He.
      destruct (IH o' Ho' _ _ _ _ Hb Hst Hu') as [Hbd _]; [by apply He, list_elem_of_In|].
      destruct (Rule_Start_keeps _ _ Hst) as (? & ? & _). by exists r. }
    assert (Htags : ∀ tag, tag ∈ rules ≫= MatchResponseTags → tag ∈ us_referencedTags u).
    { intros tag. rewrite list_elem_of_bind. intros (r & Ht & Hin).
      destruct (Forall2_elem_r _ _ _ _ Hsub Hin) as (o' & Ho' & Hb). apply bind_Ok in Hb as (_ & _ & Hb).
      destruct (Hf o' Ho') as (u' & Hu' & Hincl). apply Hincl.
      apply list_elem_of_lookup in Hin as [k Hk]. destruct (Forall2_lookup_l _ _ _ _ _ Hr Hk) as (r' & Hr' & Hst).
      rewrite forallb_forall in He. destruct (IH o' Ho' _ _ _ _ Hb Hst Hu') as [_ Ht']; [by apply He, list_elem_of_In|].
      apply Ht'. by destruct (Rule_Start_keeps _ _ Hst) as (-> & _). }
    split.
    + unfold bound. cbn. apply forallb_forall. intros r' Hin%list_elem_of_In. destruct (Hall r' Hin) as (r & Hrin & Hb & Ht & Ha).
      eapply bound_to_mono; [| |exact Hb].
      * intros y Hy. apply Huniq, list_elem_of_bind. exists r. by rewrite <- Ht.
      * intros Hx. apply existsb_exists. exists r. split; [by apply list_elem_of_In|]. by rewrite <- Ha.
    + cbn. intros tag Ht%Huniq%Htags. destruct (String.eqb (da_Action la) "respond").
      * destruct (nonempty (us_referencedTags u)); [done|]. apply Ok_inj in Hv. by subst use.
      * apply Ok_inj in Hv. by subst use.
Qed.

Lemma NewDNSRuleAction_respond a : NewDNSRuleAction a = Ok (Some RuleActionRespond) → da_Action a = "respond"%string.
Proof using.
  unfold NewDNSRuleAction.
  repeat match goal with |- context [if String.eqb (da_Action a) ?k then _ else _] => destruct (String.eqb_spec (da_Action a) k) as [?|?] end; done.
Qed.
Lemma NewDNSRuleAction_evaluate a server tag sp o :
  NewDNSRuleAction a = Ok (Some (RuleActionEvaluate server tag sp o)) → da_Action a = "evaluate"%string ∧ deo_Tag (da_EvaluateOptions a) = tag.
Proof using.
  unfold NewDNSRuleAction.
  repeat match goal with |- context [if String.eqb (da_Action a) ?k then _ else _] => destruct (String.eqb_spec (da_Action a) k) as [?|?] end; try done.
  by intros [= <- <- <- <-].
Qed.

(** The action of a built rule is that of its options. *)
Lemma NewDNSRule_action check o r :
  NewDNSRule check false o = Ok r → ∃ a, dnsRuleActionOf o = Some a ∧ NewDNSRuleAction a = Ok (Rule_Action r).
Proof using.
  destruct o as [t raw a l la]. cbn [NewDNSRule dnsRuleActionOf]. unfold isDefault.
  destruct (String.eqb t "" || String.eqb t "default").
  - intros H. do 4 apply bind_Ok in H as (? & _ & H). apply NewDefaultDNSRule_shape in H as (d & -> & Hd). by exists a.
  - destruct (String.eqb t "logical"); [|done]. intros H. do 3 apply bind_Ok in H as (? & _ & H).
    apply bind_Ok in H as (act & Hact & H). do 2 apply bind_Ok in H as (? & _ & H). unfold finishLogicalDNSRule in H.
    destruct (_ && _); [done|]. apply Ok_inj in H. subst r. by exists la.
Qed.

Lemma tree_respond o check r r' use :
  NewDNSRule check false o = Ok r → Rule_Start sv r = Ok r' → validateLegacyDNSModeDisabledRuleTree sets overrides o = Ok use →
  tags_enabled o = true → respond_bound r'.
Proof using Hsets Huniq.
  intros Hn Hst Hv He Hact Hb Ht. destruct (Rule_Start_keeps _ _ Hst) as (K1 & K2 & K3 & K4).
  destruct (tree_bound o check r r' use Hn Hst Hv He) as [_ Htags]. rewrite K4 in Hact.
  destruct (NewDNSRule_action _ _ _ Hn) as (a & Ha & Hna). rewrite Hact in Hna. apply NewDNSRuleAction_respond in Hna.
  assert (MatchResponseTags r' = []) as Hnil.
  { destruct o as [t raw a0 l la]. cbn [NewDNSRule dnsRuleActionOf validateLegacyDNSModeDisabledRuleTree] in Hn, Ha, Hv. unfold isDefault in *.
    destruct (String.eqb t "" || String.eqb t "default").
    - do 4 apply bind_Ok in Hn as (? & _ & Hn). apply NewDefaultDNSRule_shape in Hn as (d & -> & _). rewrite K1. rewrite K3 in Ht.
      cbn in *. by rewrite (proj2 (String.eqb_eq _ _) Ht).
    - destruct (String.eqb t "logical"); [|done]. injection Ha as ->. apply bind_Ok in Hv as (u & _ & Hv). rewrite Hna in Hv. cbn in Hv.
      destruct (us_referencedTags u) as [|] eqn:Hu; [|done]. cbn in Hv. apply Ok_inj in Hv. subst use. cbn in Htags.
      destruct (MatchResponseTags r') as [|x k]; [done|]. specialize (Htags x ltac:(by left)). by apply elem_of_nil in Htags. }
  split; [|done]. unfold hasBindings in Hb. by rewrite Hnil in Hb.
Qed.

Lemma built_evaluate check o r r' tag :
  NewDNSRule check false o = Ok r → Rule_Start sv r = Ok r' → evaluate_tag r' = Some tag →
  dnsRuleActionType o = "evaluate"%string ∧ dnsRuleActionEvaluateTag o = tag ∧ tag ≠ EmptyString.
Proof using.
  intros Hn Hst He. destruct (Rule_Start_keeps _ _ Hst) as (_ & _ & _ & K4). destruct (NewDNSRule_action _ _ _ Hn) as (a & Ha & Hna).
  unfold evaluate_tag in He. rewrite K4 in He. destruct (Rule_Action r) as [[]|]; try done.
  destruct (String.eqb_spec tag0 ""); [done|]. injection He as ->. apply NewDNSRuleAction_evaluate in Hna as [Hk Ht].
  unfold dnsRuleActionType, dnsRuleActionEvaluateTag. by rewrite Ha, Hk.
Qed.

(** *** Lists of rules *)

Lemma checkReferenced_defined i defined tags referenced y :
  checkReferenced i defined tags referenced = Ok y → ∀ tag, tag ∈ tags → tag ∈ defined.
Proof using.
  revert referenced. induction tags as [|t tags IH]; intros referenced; cbn; [intros _ tag Ht; by apply elem_of_nil in Ht|].
  destruct (decide (t ∈ defined)) as [Hin|Hin].
  - rewrite bool_decide_eq_true_2 by done. cbn. intros H tag Ht. apply elem_of_cons in Ht as [->|Ht]; [done|]. by eapply IH.
  - rewrite bool_decide_eq_false_2 by done. done.
Qed.

Lemma validateRule_spec i o v v' :
  validateRule sets overrides i o v = Ok v' →
  ∃ use, validateLegacyDNSModeDisabledRuleTree sets overrides o = Ok use ∧
    (∀ tag, tag ∈ us_referencedTags use → tag ∈ va_definedTags v) ∧
    (∀ tag, tag ∈ va_definedTags v → tag ∈ va_definedTags v') ∧
    (dnsRuleActionType o = "evaluate"%string → dnsRuleActionEvaluateTag o ≠ EmptyString →
      dnsRuleActionEvaluateTag o ∉ va_definedTags v ∧ dnsRuleActionEvaluateTag o ∈ va_definedTags v').
Proof using.
  unfold validateRule, at_index. intros H. apply bind_Ok in H as (use & Hu & H). apply wrap_cause_Ok in Hu. exists use. split; [done|].
  destruct (us_needsAnonymous use && negb (va_seenAnonymousEvaluate v)); [done|]. apply bind_Ok in H as (rf & Hrf & H).
  split; [by eapply checkReferenced_defined|].
  destruct (String.eqb_spec (dnsRuleActionType o) "evaluate") as [Hk|Hk]; [|apply Ok_inj in H; subst v'; split; [done|by intros ?]].
  destruct (String.eqb_spec (dnsRuleActionEvaluateTag o) "") as [Ht|Ht]; [apply Ok_inj in H; subst v'; split; [done|by intros _ ?]|].
  destruct (decide (dnsRuleActionEvaluateTag o ∈ va_definedTags v)) as [Hin|Hin].
  - rewrite bool_decide_eq_true_2 in H by done. done.
  - rewrite bool_decide_eq_false_2 in H by done. apply Ok_inj in H. subst v'. cbn. split.
    + intros tag Htag. apply elem_of_app. by left.
    + intros _ _. split; [done|]. apply elem_of_app. right. by left.
Qed.

Lemma validated_walkable raw built rules i v v' :
  Forall2 (λ o r, NewDNSRule true false o = Ok r) raw built → Forall2 (λ r r', Rule_Start sv r = Ok r') built rules →
  validateRules sets overrides i raw v = Ok v' → Forall (λ o, tags_enabled o = true) raw →
  walkable rules ∧ ∀ tag, tag ∈ omap evaluate_tag rules → tag ∉ va_definedTags v.
Proof using Hsets Huniq.
  intros Hn. revert rules i v. induction Hn as [|o r raw built Hr Hn IH]; intros rules i v Hs Hv He.
  - inversion Hs; subst. split; [done|]. cbn. intros tag Ht. by apply elem_of_nil in Ht.
  - inversion Hs as [|r0 r' built0 rules' Hst Hs' E1 E2]; subst. cbn in Hv. apply bind_Ok in Hv as (v1 & Hv1 & Hv).
    apply Forall_cons in He as [He He'].
    destruct (validateRule_spec _ _ _ _ Hv1) as (use & Hu & Hdef & Hkeep & Hev).
    destruct (IH rules' _ v1 Hs' Hv He') as [Hw Hlater].
    destruct (tree_bound o true r r' use Hr Hst Hu He) as [Hb Htags].
    assert (Hown : ∀ tag, evaluate_tag r' = Some tag → tag ∉ va_definedTags v ∧ tag ∈ va_definedTags v1).
    { intros tag Ht. destruct (built_evaluate _ _ _ _ _ Hr Hst Ht) as (Hk & <- & Hne). by apply Hev. }
    assert (Hall : ∀ tag, tag ∈ omap evaluate_tag (r' :: rules') → tag ∉ va_definedTags v).
    { intros tag. cbn. destruct (evaluate_tag r') as [t|] eqn:Et.
      - rewrite elem_of_cons. intros [->|Ht]; [by apply Hown|]. intros Hin. by apply (Hlater tag Ht), Hkeep.
      - intros Ht Hin. by apply (Hlater tag Ht), Hkeep. }
    split; [|done]. split; [done|]. split; [by eapply tree_respond|]. split; [|split; [|done]].
    + intros tag Ht Hin. by apply (Hall tag Hin), Hdef, Htags.
    + intros tag Ht Hin. apply (Hlater tag Hin). by apply Hown.
Qed.
End started.

(** The rules a router is given by [buildRules] outside the legacy mode may be
    walked. *)
Lemma buildRules_walkable sv tm raw rules flags :
  sets_quiet sv → uniq_keeps → Forall (λ o, tags_enabled o = true) raw →
  buildRules sv tm true raw = Ok (rules, false, flags) → walkable rules.
Proof.
  intros Hq Hu He H. unfold buildRules in H. apply bind_Ok in H as (? & _ & H).
  apply bind_Ok in H as ([legacy fl] & _ & H). apply bind_Ok in H as (w & Hw & H). apply bind_Ok in H as (? & _ & H).
  apply bind_Ok in H as (built & Hb & H). apply bind_Ok in H as (started & Hs & H). injection H as -> -> ->.
  cbn [negb] in Hw. apply bind_Ok in Hw as (v & Hv & _). apply eachRule_Forall2 in Hb, Hs.
  by destruct (validated_walkable sv Hq Hu _ _ _ _ _ _ _ _ Hb Hs Hv He).
Qed.
End build.
