(* ===== verification/DnsRouterTheorems.v ===== *)
(** Main theorems on the DNS router outside its legacy mode: what an exchange
    gives, that it ends, and what a future that ends at the wrong moment does. *)

From S2P Require Import Prelude GoBytes GoSlices GoStrings Netip Metadata RuleItems RuleAction RuleMatch.
From S2P Require Import RuleSemantics RuleTheorems Concrete Options RuleBuild DnsMessage DnsClient.
From S2P Require Import DnsRouter DnsRouterSpec DnsRouterRefine DnsRouterWalk DnsRouterRuns DnsRouterEnds DnsMode DnsModeTheorems.

(** The first round of a run is the first walk of [exchangeWithRules]; that of
    [exchangeWithRulesAsync] saves a round when it ends with one more exchange. *)
Lemma exchangeWithRules_first {EX : External} rt tm dds ask question allow rd rules o m :
  exchangeWithRules rt tm dds ask question allow (rd_settling' rd) (rd_done' rd) rules o m =
    resumeRound rt tm dds ask question allow rd rules Drain (initialWalk o m).
Proof. done. Qed.
Lemma exchangeWithRulesAsync_first {EX : External} rt tm dds ask question allow settling done rules o m :
  let first := exchangeWithRules rt tm dds ask question allow settling done rules o m in
  let async := exchangeWithRulesAsync rt tm dds ask question allow settling done rules o m in
  async = first ∨ ∃ t o' s, first = Looping (Pending (mkPending t o' None)) s ∧ async = Finishing (mkPending t o' None) s.
Proof.
  unfold exchangeWithRules, exchangeWithRulesAsync. cbn zeta.
  destruct (walkDNSRules _ _ _ _ _ _ _ _ _) as [s|e s|[f| |[t o' [f|]]] s]; eauto 10.
Qed.

(** C24: an exchange over rules the router has built and started gives a result
    the sequential walk may give, in whatever order the servers answer, as long as
    none answers between the settling of the futures and the look at them within
    one round ([unbroken]): one that a matching race rule offers, and, when no race
    rule offers any, that of the first other rule that ends the walk - unless the
    caller gives up, which gives the error of its context.  An answer that comes
    just then may be missed: [torn_round_misses]. *)
Theorem exchange_is_sequential {EX : External} (rt : Runtime) (RL : RuntimeLaws rt) (sv : Services) (tm : TransportManager)
    (defaultDomainStrategy : DomainStrategy) (ask : Transport → DNSQueryOptions → Message + goerr) (question : string)
    (allowFakeIP : bool) (raw : list DNSRuleOptions) (rules : list Rule) (flags : dnsRuleModeFlags)
    (options : DNSQueryOptions) (m : InboundContext) (ctxErr : goerr) (x : exchangeRun)
    (Huniq : uniq_keeps) (Hsets : sets_quiet sv) (Htags : Forall (λ o, tags_enabled o = true) raw)
    (Hbuilt : buildRules sv tm true raw = Ok (rules, false, flags)) (Hmode : ignoreDst m = false)
    (Hrun : rtc (λ a b, exchange_step rt tm defaultDomainStrategy ask question allowFakeIP unbroken rules a b ∨ cancel_step ctxErr a b)
      (started options m) x) :
  let walk := sequential rt tm defaultDomainStrategy ask question allowFakeIP m rules (mkRef options None ∅) in
  match x_state x with
  | Finished r => may_give walk (inl r) ∨ r = failed ctxErr
  | Crashed p => may_give walk (inr p)
  | _ => True
  end.
Proof.
  pose proof (buildRules_walkable sv tm raw rules flags Hsets Huniq Htags Hbuilt) as Hw.
  pose proof (exchange_started_ok rt tm defaultDomainStrategy ask question allowFakeIP m rules ctxErr options Hw Hmode) as Hs.
  pose proof (steps_ok rt tm defaultDomainStrategy ask question allowFakeIP m _ _ ctxErr _ _ Hrun Hs) as Hx.
  unfold run_ok in Hx. cbn zeta. by destruct (x_state x).
Qed.

(** C32: an exchange ends, whatever its rules and whenever the servers answer,
    between the settling of the futures and the look at them too: its steps cannot
    go on for ever, and until it is at its end it can make one - if it can do
    nothing itself, a future it has launched has not ended, and it will be woken
    when that future ends. *)
Theorem exchange_ends {EX : External} (rt : Runtime) (tm : TransportManager)
    (defaultDomainStrategy : DomainStrategy) (ask : Transport → DNSQueryOptions → Message + goerr) (question : string)
    (allowFakeIP : bool) (rules : list Rule) (options : DNSQueryOptions) (m : InboundContext) (ctxErr : goerr) :
  let exchanges := exchange_step rt tm defaultDomainStrategy ask question allowFakeIP any_round rules in
  let step := λ a b, exchanges a b ∨ cancel_step ctxErr a b in
  Acc (λ b a, step a b) (started options m) ∧
  ∀ x, rtc step (started options m) x → final (x_state x) = false → ∃ y, exchanges x y.
Proof.
  pose proof (started_shape rules options m) as Hs.
  cbn zeta. split; [by eapply run_ends|]. intros x Hrun Hf.
  pose proof (steps_shape rt tm defaultDomainStrategy ask question allowFakeIP _ ctxErr _ _ Hrun Hs) as Hx.
  destruct (run_goes_on rt tm defaultDomainStrategy ask question allowFakeIP rules x Hx Hf) as [y Hy]. exists y. by eapply step_allowed.
Qed.

(** ** A router with two servers *)

Definition demo_servers : TransportManager :=
  mkManager (λ tag, if String.eqb tag "local" then Some (mkTransport "local" "udp")
                    else if String.eqb tag "remote" then Some (mkTransport "remote" "tls") else None)
    (mkTransport "fallback" "udp").
Definition demo_services : Services := mkServices _ (λ _, None) (λ _, None) (λ _, None).

Definition demo_answer (id : Z) : Message := mkMessage id true false false true true 0 [mkQuestion "example.org." TypeA ClassINET] [] [] [].
Definition demo_ask (t : Transport) (o : DNSQueryOptions) : Message + goerr :=
  inl (demo_answer (if String.eqb (t_Tag t) "local" then 1 else 2)).

Definition dns_raw (response : option DNSRuleMatchResponse) (rcode : option Z) : RawDefaultDNSRule :=
  mkRawDefaultDNSRule [] 0 [] [] false [] [] [] [] [] [] [] [] false [] [] [] [] [] [] [] [] [] [] []
    [] "" [] false false [] [] [] [] [] [] [] [] [] false response [] false false rcode [] [] [] false
    [] [] [] false false.
Definition dns_rule (response : option DNSRuleMatchResponse) (rcode : option Z) (kind : string) (race : bool) (server tag : string) : DNSRuleOptions :=
  mkDNSRuleOptions "" (dns_raw response rcode)
    (mkDNSRuleAction kind race (mkDNSRouteActionOptions server false AbstractDNSRoute_zero)
      (mkDNSEvaluateOptions server tag true AbstractDNSRoute_zero) AbstractDNSRoute_zero (mkRejectOptions "" false) (mkPredefinedOptions None [] [] []))
    (mkLogicalOptions "" [] false) DNSRuleActionOptions_zero.

(** Both servers are asked; the first that answers without an error wins. *)
Definition demo_raw : list DNSRuleOptions :=
  [ dns_rule None None "evaluate" false "local" "l";
    dns_rule (Some (mkMatchResponse true "l")) (Some 0) "respond" true "" "";
    dns_rule None None "evaluate" false "remote" "r";
    dns_rule (Some (mkMatchResponse true "r")) (Some 0) "respond" true "" "";
    dns_rule None None "route" false "local" "" ].
Definition demo_rules : list Rule :=
  match buildRules demo_services demo_servers true demo_raw with Ok (rules, _, _) => rules | _ => [] end.

Lemma demo_uniq : uniq_keeps.
Proof. intros l x. apply elem_of_remove_dups. Qed.
Lemma demo_quiet : sets_quiet demo_services.
Proof. by intros tag s. Qed.

(** A round in which nothing ends. *)
Definition now (d : gset nat) : round := mkRound d d (λ _, d) (λ _, d).
Lemma step_now {EX : External} rt tm dds ask question allow rules d w x s :
  exchange_step rt tm dds ask question allow unbroken rules (mkRun d w (Looping x s)) (mkRun d w (resumeRound rt tm dds ask question allow (now d) rules x s)).
Proof.
  apply step_loops; [|done|auto|].
  - split; [done|]. split; [done|]. by split.
  - rewrite bool_decide_eq_true_2 by done. by rewrite orb_false_r.
Qed.

Abbreviation demo_round d x s := (resumeRound demo_rt demo_servers AsIS demo_ask "example.org." true (now d) demo_rules x s).
Definition demo_walk1 : exchangeState := demo_round ∅ Drain (initialWalk noOptions (demo_context "example.org")).
Definition demo_walk2 : exchangeState := match demo_walk1 with Looping x s => demo_round ∅ x s | c => c end.
Definition demo_walk3 : exchangeState := match demo_walk2 with Waiting x s => demo_round {[1%nat]} x s | c => c end.

Definition is_looping (c : exchangeState) : bool := match c with Looping _ _ => true | _ => false end.
Definition is_waiting (c : exchangeState) : bool := match c with Waiting _ _ => true | _ => false end.
Definition answer_id (c : exchangeState) : Z :=
  match c with Finished r => match er_response r with Some (FromServer m) => Id m | _ => -1 end | _ => -1 end.
Lemma demo_check : is_looping demo_walk1 = true ∧ is_waiting demo_walk2 = true ∧ launched demo_walk2 = 2%nat ∧ answer_id demo_walk3 = 2.
Proof. vm_compute. done. Qed.

Definition built_legacy {A} (r : result (list Rule * bool * A)) : option bool := match r with Ok (_, legacy, _) => Some legacy | _ => None end.
Lemma demo_built : ∃ flags, buildRules demo_services demo_servers true demo_raw = Ok (demo_rules, false, flags).
Proof.
  assert (H : built_legacy (buildRules demo_services demo_servers true demo_raw) = Some false) by (vm_compute; reflexivity).
  unfold demo_rules. destruct (buildRules demo_services demo_servers true demo_raw) as [[[rules legacy] flags]| |]; [|done|done].
  injection H as ->. by exists flags.
Qed.
Lemma demo_tags : Forall (λ o, tags_enabled o = true) demo_raw.
Proof. by repeat constructor. Qed.

(** The second server answers first, and its answer is the result. *)
Lemma demo_run ctxErr :
  rtc (λ a b, exchange_step demo_rt demo_servers AsIS demo_ask "example.org." true unbroken demo_rules a b ∨ cancel_step ctxErr a b)
    (started noOptions (demo_context "example.org")) (mkRun {[1%nat]} false demo_walk3).
Proof.
  destruct demo_check as (H1 & H2 & H3 & _). unfold demo_walk3, demo_walk2 in *.
  eapply rtc_l; [left; apply step_now|]. fold demo_walk1. destruct demo_walk1 as [x1 s1| | | |]; try done.
  eapply rtc_l; [left; apply step_now|]. destruct (demo_round ∅ x1 s1) as [|x2 s2| | |]; try done.
  eapply rtc_l; [left; apply (step_ends _ _ _ _ _ _ _ _ 1%nat); [rewrite H3; lia|set_solver]|].
  assert (({[1%nat]} ∪ ∅ : gset nat) = {[1%nat]}) as -> by (apply set_eq; set_solver).
  eapply rtc_l; [left; apply step_wakes|]. eapply rtc_l; [left; apply step_now|]. done.
Qed.

Lemma exchange_is_sequential_witness :
  answer_id demo_walk3 = 2 ∧
  match demo_walk3 with
  | Finished r =>
      may_give (sequential demo_rt demo_servers AsIS demo_ask "example.org." true (demo_context "example.org") demo_rules
        (mkRef noOptions None ∅)) (inl r) ∨ r = failed (ErrNew "context canceled")
  | Crashed _ => False
  | _ => True
  end.
Proof.
  split; [apply demo_check|]. destruct demo_built as [flags Hb].
  pose proof (exchange_is_sequential demo_rt demo_laws demo_services demo_servers AsIS demo_ask "example.org." true demo_raw demo_rules flags
    noOptions (demo_context "example.org") (ErrNew "context canceled") _ demo_uniq demo_quiet demo_tags Hb eq_refl (demo_run _)) as H.
  cbn [x_state] in H. destruct demo_check as (_ & _ & _ & Hid). destruct demo_walk3; done.
Defined.

Lemma exchange_ends_witness :
  Acc (λ b a, exchange_step demo_rt demo_servers AsIS demo_ask "example.org." true any_round demo_rules a b ∨ cancel_step (ErrNew "context canceled") a b)
    (started noOptions (demo_context "example.org")).
Proof.
  apply (exchange_ends demo_rt demo_servers AsIS demo_ask "example.org." true demo_rules noOptions (demo_context "example.org") (ErrNew "context canceled")).
Defined.

(** ** A future that ends at the wrong moment *)

(** A round in which the first future ends between the settling of the futures
    and the look at them, at the rule [i]. *)
Definition torn (i : nat) : round :=
  mkRound ∅ ∅ (λ j, if Nat.ltb i j then {[0%nat]} else ∅) (λ j, if Nat.ltb j i then ∅ else {[0%nat]}).
Lemma torn_during i : during ∅ {[0%nat]} (torn i).
Proof.
  split; [done|]. split; [done|]. split; [apply empty_subseteq|]. intros j. cbn [torn rd_done rd_settling' rd_done']. split; [apply empty_subseteq|].
  destruct (Nat.ltb_spec i j), (Nat.ltb_spec j i); try lia.
  all: split; [first [done|apply empty_subseteq]|]; split; [first [done|apply empty_subseteq]|]; intros k Hk.
  all: destruct (Nat.ltb_spec i k); try lia; first [done|apply empty_subseteq].
Qed.

(** One server is asked and its response is given, whatever it is. *)
Definition respond_raw : list DNSRuleOptions :=
  [ dns_rule None None "evaluate" false "local" "l"; dns_rule (Some (mkMatchResponse true "l")) None "respond" false "" "" ].
Definition respond_rules : list Rule :=
  match buildRules demo_services demo_servers true respond_raw with Ok (rules, _, _) => rules | _ => [] end.
Definition respond_round (rd : round) : exchangeState :=
  resumeRound demo_rt demo_servers AsIS demo_ask "example.org." true rd respond_rules Drain (initialWalk noOptions (demo_context "example.org")).

(** The rule that gives the response is passed over when the future ends between
    the settling of the futures and the look at it, and the exchange goes to the
    default server instead.  When the future ends before both, its answer is
    given. *)
Lemma torn_round_misses :
  during ∅ {[0%nat]} (torn 1) ∧
  match respond_round (torn 1) with Looping (Pending p) _ => String.eqb (t_Tag (pe_transport p)) "fallback" | _ => false end = true ∧
  answer_id (respond_round (mkRound ∅ ∅ (λ j, if Nat.ltb 0 j then {[0%nat]} else ∅) (λ j, if Nat.ltb 0 j then {[0%nat]} else ∅))) = 1.
Proof. split; [apply torn_during|]. vm_compute. done. Qed.
