(* ===== verification/DnsLookup.v ===== *)
(** The entry points of the DNS router ([dns/router.go]): the preparation of a
    query, the legacy mode, [Exchange], [Lookup] and the reverse mapping.

    The client is a parameter, with the check of a response as an argument; the
    result of the walk over the rules is an argument of the functions that use
    it. *)

From S2P Require Import Prelude GoBytes GoSlices GoStrings Netip Metadata RuleItems RuleAction RuleMatch.
From S2P Require Import DnsMessage DnsClient DnsRouter DnsMode.

Definition TypeSVCB : Z := 64.
(** [netip.Addr.Is6]. *)
Definition Addr_Is6 (a : Addr) : bool := match a with Addr6 _ _ => true | _ => false end.

(** [func isAddressQuery(message) bool]. *)
Definition isAddressQuery (message : Message) : bool :=
  existsb (λ q, (q_Qtype q =? TypeA) || (q_Qtype q =? TypeAAAA) || (q_Qtype q =? TypeHTTPS)) (Question_ message).

Section lookup.
Context {EX : External}.
(** [dns.IsFqdn], and the [DO] flag of the OPT record, of [github.com/miekg/dns]. *)
Context (IsFqdn : string → bool) (queryDNSSEC : Message → bool).

(** [func isResolverDiscoveryQuery(question) bool]. *)
Definition isResolverDiscoveryQuery (q : Question) : bool :=
  (q_Qtype q =? TypeSVCB) && (5 <? Z.of_nat (String.length (q_Name q))) && strings_EqualFold (String.substring 0 5 (q_Name q)) "_dns.".

(** ** Preparing a query *)

Definition set_query (destination : Socksaddr) (ipVersion : Z) (domain : string) (qType : Z) (subnet : Prefix) (dnssec : bool) (m : InboundContext) : InboundContext :=
  match m with mkContext a _ c d _ f g h _ j k _ _ _ p q r _ _ _ w =>
    mkContext a ipVersion c d destination f g h domain j k None ∅ false p q r qType subnet dnssec w end.

(** What [prepareExchange] gives: a response or an error at once, or the context
    of the exchange. *)
Inductive prepared : Type :=
| Early (m : Message)
| EarlyError (e : goerr)
| Context (rules : list Rule) (legacyDNSMode : bool) (m : InboundContext).

(** [switch qType { case A: 4; case AAAA: 6 }], [other] elsewhere. *)
Definition versionOf (qType other : Z) : Z := if qType =? TypeA then 4 else if qType =? TypeAAAA then 6 else other.
Definition noAddress : Socksaddr := mkSocksaddr AddrZero 0 "".

(** [func (r *Router) prepareExchange(ctx, message)]. *)
Definition prepareExchange (r : Router) (m : InboundContext) (message : Message) : prepared :=
  match Question_ message with
  | [q] =>
      if isResolverDiscoveryQuery q
      then Early (mkMessage (Id message) true false false (RecursionDesired message) true RcodeSuccess (Question_ message) [] [] [])
      else if dr_closing r then EarlyError (ErrNew "dns router closed")
      else Context (dr_rules r) (dr_legacyDNSMode r)
        (set_query noAddress (versionOf (q_Qtype q) (IPVersion m)) (FqdnToDomain IsFqdn (q_Name q)) (q_Qtype q)
          (clientSubnetFromMessage message) (queryDNSSEC message) m)
  | questions => Early (mkMessage (Id message) true false false false false RcodeFormatError questions [] [] [])
  end.

(** ** The legacy mode *)

Section legacy.
Context (rt : Runtime) (tm : TransportManager) (defaultDomainStrategy : DomainStrategy) (question : string).

(** What [matchDNS] gives: the server, the rule and its index, with the options
    and the metadata it leaves. *)
Record matchedDNS : Type := mkMatched {
  md_transport : option Transport;
  md_rule : option (Rule * nat);
  md_options : DNSQueryOptions;
  md_metadata : InboundContext
}.

(** The loop of [func (r *Router) matchDNS(...)]. *)
Fixpoint matchDNS (allowFakeIP addressQuery : bool) (rules : list Rule) (i : nat) (o : DNSQueryOptions) (m : InboundContext) : matchedDNS :=
  match rules with
  | [] => mkMatched (Some (tm_Default tm)) None o m
  | r :: rules =>
      let next := matchDNS allowFakeIP addressQuery rules (S i) in
      if WithAddressLimit r && negb addressQuery then next o m
      else match LegacyPreMatch rt r with
        | None => next o m
        | Some pre =>
            let '(matched, m) := pre (set_fromResponse false (ResetRuleCache m)) in
            if negb matched then next o m
            else match Rule_Action r with
              | Some (RuleActionDNSRoute server _ a) =>
                  match tm_Transport tm server with
                  | None => next o m
                  | Some t =>
                      if isFakeIP t && negb allowFakeIP then next o m
                      else mkMatched (Some t) (Some (r, i)) (let o := legacyOptions a o in if isFakeIP t then set_DisableCache o else o) m
                  end
              | Some (RuleActionDNSRouteOptions_ a) => next (legacyOptions a o) m
              | Some (RuleActionReject_ _) | Some (RuleActionPredefined _ _ _ _) => mkMatched None (Some (r, i)) o m
              | _ => next o m
              end
        end
  end.

(** [func addressLimitResponseCheck(rule, metadata)]. *)
Definition addressLimitResponseCheck (r : option (Rule * nat)) (m : InboundContext) : checker :=
  match r with
  | Some (r, _) =>
      if WithAddressLimit r then match MatchAddressLimit rt r with Some limit => Some (λ response, limit m (Some (view_msg response))) | None => None end
      else None
  | None => None
  end.

(** [errors.Is(err, ErrResponseRejected)]; [ErrResponseRejectedCached] wraps it. *)
Definition isRejected (e : goerr) : bool :=
  match e with
  | ErrNew msg => String.eqb msg "response rejected"
  | ErrExtend (ErrNew msg) extra => String.eqb msg "response rejected" && String.eqb extra "cached"
  | _ => false
  end.

(** [client.Exchange], with the check of the response. *)
Context (ask : Transport → DNSQueryOptions → checker → Message + goerr).

(** The action of a rule that makes up its response. *)
Definition legacyEnding (r : option (Rule * nat)) : option ending :=
  match r with
  | Some (r, _) =>
      match Rule_Action r with
      | Some (RuleActionReject_ a) => Answer_ <$> rejected a
      | Some (RuleActionPredefined rcode answer ns extra) => Some (predefinedEnding question rcode answer ns extra)
      | _ => None
      end
  | None => None
  end.

(** The loop of [func (r *Router) exchangeLegacy(...)], from the rule [i]; a
    server that is nil is a nil dereference. *)
Fixpoint exchangeLegacy (fuel : nat) (rules : list Rule) (i : nat) (addressQuery : bool) (o : DNSQueryOptions) (m : InboundContext) : option (exchangeWithRulesResult + string) :=
  match fuel with
  | O => None
  | S fuel =>
      let x := matchDNS true addressQuery (drop i rules) i o m in
      match legacyEnding (md_rule x) with
      | Some (Answer_ r) => Some (inl (mkResult (er_response r) None None (er_err r)))
      | Some (Panicked p) => Some (inr p)
      | Some (Pends _) => None
      | None =>
          match md_transport x with
          | None => Some (inr "nil transport"%string)
          | Some t =>
              let check := addressLimitResponseCheck (md_rule x) (md_metadata x) in
              let again := match md_rule x with Some (_, j) => exchangeLegacy fuel rules (S j) addressQuery o (md_metadata x) | None => None end in
              match ask t (finalizeExchangeOptions defaultDomainStrategy (md_options x)) check with
              | inl response => Some (inl (mkResult (Some (FromServer response)) (Some t) None None))
              | inr e => if isSome check && isRejected e then again else Some (inl (mkResult None (Some t) None (Some e)))
              end
          end
      end
  end.

(** ** Lookups *)

(** [client.Lookup]. *)
Context (lookup : Transport → string → DNSQueryOptions → checker → list Addr + goerr).
Definition looked (x : list Addr + goerr) : result (list Addr) := match x with inl l => Ok l | inr e => Err e end.
Context (rejectError : RuleActionReject → goerr).

(** [&R.RejectedError{Cause: err}]. *)
Definition RejectedError (err : goerr) : goerr := ErrCause err "rejected".

(** The addresses of the records of [RuleActionPredefined]. *)
Definition predefinedAddresses (answer : list (option RR)) : list Addr :=
  answer ≫= λ r, match r with Some (RR_A _ ip) | Some (RR_AAAA _ ip) => [AddrFromIP ip] | _ => [] end.
Definition RcodeError (rcode : Z) : goerr := ErrNew (dns_RcodeToString rcode).

(** The loop of [Lookup] in the legacy mode; [inr] is the error it returns at once. *)
Fixpoint lookupLegacy (fuel : nat) (rules : list Rule) (i : nat) (domain : string) (o : DNSQueryOptions) (m : InboundContext) : option (result (list Addr) + goerr) :=
  match fuel with
  | O => None
  | S fuel =>
      let x := matchDNS false true (drop i rules) i o m in
      match md_rule x ≫= λ '(r, _), Rule_Action r with
      | Some (RuleActionReject_ a) => Some (inr (RejectedError (rejectError a)))
      | Some (RuleActionPredefined rcode answer _ _) =>
          Some (inl (if negb (rcode =? RcodeSuccess) then Err (RcodeError rcode) else Ok (predefinedAddresses answer)))
      | _ =>
          match md_transport x with
          | None => Some (inl (Panic "nil transport"))
          | Some t =>
              let check := addressLimitResponseCheck (md_rule x) (md_metadata x) in
              let y := looked (lookup t domain (finalizeExchangeOptions defaultDomainStrategy (md_options x)) check) in
              match md_rule x with
              | Some (_, j) => if isSome check && negb (is_ok y) then lookupLegacy fuel rules (S j) domain o (md_metadata x) else Some (inl y)
              | None => Some (inl y)
              end
          end
      end
  end.

(** [func (r *Router) resolveLookupStrategy(options)]. *)
Definition resolveLookupStrategy (o : DNSQueryOptions) : DomainStrategy :=
  if negb (bool_decide (qo_LookupStrategy o = AsIS)) then qo_LookupStrategy o
  else if negb (bool_decide (qo_Strategy o = AsIS)) then qo_Strategy o
  else defaultDomainStrategy.

(** [func withLookupQueryMetadata(ctx, qType)]. *)
Definition withLookupQueryMetadata (qType : Z) (m : InboundContext) : InboundContext :=
  match m with mkContext a _ c d e f g h i j k l n o p q r _ _ _ w =>
    mkContext a (versionOf qType 0) c d e f g h i j k l n o p q r qType PrefixZero false w end.

(** [func filterAddressesByQueryType(addresses, qType)]. *)
Definition filterAddressesByQueryType (l : list Addr) (qType : Z) : list Addr :=
  if qType =? TypeA then filter (λ a, Addr_Is4 a) l else if qType =? TypeAAAA then filter (λ a, Addr_Is6 a) l else l.

(** The message of a response. *)
Definition responseMsg (r : response) : Msg :=
  match r with
  | FromServer m => view_msg m
  | Refused => mkMsg true 5 [question] [] [] []
  | Predefined rcode answer ns extra => mkMsg true rcode [question] answer ns extra
  end.

(** [func (r *Router) lookupWithRulesType(...)], given the result of the walk. *)
Definition lookupWithRulesType (x : exchangeWithRulesResult) (qType : Z) : result (list Addr) :=
  match er_rejectAction x, er_err x, er_response x with
  | Some a, _, _ => Err (rejectError a)
  | None, Some e, _ => Err e
  | None, None, None => Panic "nil response"
  | None, None, Some r =>
      if negb (msg_Rcode (responseMsg r) =? RcodeSuccess) then Err (RcodeError (msg_Rcode (responseMsg r)))
      else Ok (filterAddressesByQueryType (DNSResponseAddresses (Some (responseMsg r))) qType)
  end.

(** [func (r *Router) lookupWithRules(...)]: [walk] is the walk for a type of
    query under given options, [groupError] the error of the two lookups. *)
Definition lookupWithRules (walk : Z → DNSQueryOptions → exchangeWithRulesResult) (groupError : goerr) (o : DNSQueryOptions) : result (list Addr) :=
  let strategy := resolveLookupStrategy o in
  let o := if negb (bool_decide (strategy = AsIS)) then set_Strategy strategy o else o in
  let by_type t := lookupWithRulesType (walk t o) t in
  if bool_decide (strategy = IPv4Only) then by_type TypeA
  else if bool_decide (strategy = IPv6Only) then by_type TypeAAAA
  else joinLookups (by_type TypeA) (by_type TypeAAAA) groupError strategy.

(** ** Exchange and Lookup *)

(** What [Exchange] does once prepared: with the server of the options, by the
    rules, or in the legacy mode. *)
Definition Exchange (r : Router) (transport : option Transport) (walk : list Rule → InboundContext → exchangeWithRulesResult)
    (m : InboundContext) (message : Message) (o : DNSQueryOptions) : option (exchangeWithRulesResult + string) :=
  match prepareExchange r m message with
  | Early response => Some (inl (mkResult (Some (FromServer response)) None None None))
  | EarlyError e => Some (inl (failed e))
  | Context rules legacyDNSMode m =>
      match transport with
      | Some t => Some (inl (match ask t (finalizeExchangeOptions defaultDomainStrategy o) None with
          | inl response => mkResult (Some (FromServer response)) (Some t) None None
          | inr e => mkResult None (Some t) None (Some e) end))
      | None => if negb legacyDNSMode then Some (inl (walk rules m)) else exchangeLegacy (S (length rules)) rules 0 (isAddressQuery message) o m
      end
  end.

(** [printResult] of [Lookup]. *)
Definition lookupResult (domain : string) (y : result (list Addr)) : result (list Addr) :=
  wrap_cause (String.append "lookup " domain) (match y with Ok [] => Err (ErrNew "empty result") | _ => y end).

(** [func (r *Router) Lookup(ctx, domain, options)]. *)
Definition set_lookup (domain : string) (m : InboundContext) : InboundContext :=
  set_query noAddress (IPVersion m) (FqdnToDomain IsFqdn domain) (QueryType m) (QueryClientSubnet m) (QueryDNSSEC m) m.
Definition Lookup (r : Router) (transport : option Transport) (walk : list Rule → InboundContext → Z → DNSQueryOptions → exchangeWithRulesResult)
    (groupError : goerr) (m : InboundContext) (domain : string) (o : DNSQueryOptions) : option (result (list Addr)) :=
  if dr_closing r then Some (Err (ErrNew "dns router closed"))
  else
    let m := set_lookup domain m in
    match transport with
    | Some t => Some (lookupResult domain (looked (lookup t domain (finalizeExchangeOptions defaultDomainStrategy o) None)))
    | None =>
        if negb (dr_legacyDNSMode r)
        then Some (lookupResult domain (lookupWithRules (λ qType, walk (dr_rules r) (withLookupQueryMetadata qType m) qType) groupError o))
        else (λ y, match y with inl y => lookupResult domain y | inr e => Err e end) <$> lookupLegacy (S (length (dr_rules r))) (dr_rules r) 0 domain o m
    end.
End legacy.

(** ** The reverse mapping *)

(** [func (r *Router) recordReverseMapping(message, response, transport)]: the
    names it gives to addresses, without the time they are kept. *)
Definition reverseRecord (r : RR) : list (Addr * string) :=
  match r with RR_A name ip | RR_AAAA name ip => [(AddrFromIP ip, FqdnToDomain IsFqdn name)] | _ => [] end.
Definition recordReverseMapping (enabled : bool) (message : Message) (response : option response) (transport : option Transport) : list (Addr * string) :=
  if enabled && nonempty (Question_ message) && match transport with None => true | Some t => negb (isFakeIP t) end
  then match response with
    | Some (FromServer m) => view_rr <$> Answer m
    | Some (Predefined _ answer _ _) => answer
    | _ => []
    end ≫= reverseRecord
  else [].
End lookup.
