(* ===== verification/DnsLookupTheorems.v ===== *)
(** Theorems on the entry points of the DNS router: the legacy mode picks a rule
    that matches the response it gives, and lookups give addresses of the family
    asked for. *)

From S2P Require Import Prelude GoBytes GoSlices GoStrings Netip Metadata RuleItems RuleAction RuleMatch.
From S2P Require Import RuleSemantics RuleRefine RuleTheorems Concrete DnsMessage DnsClient DnsClientTheorems DnsRouter DnsMode DnsRouterTheorems DnsLookup.

(** ** What the client gives *)

Section client.
Context {EX : External} {CO : DnsCodec} {LC : LruCache} {DS : DNSCacheStore} {RS : RDRCStore}.

(** What [finishExchange] makes of a message it has checked. *)
Definition adjusted (message : Message) (o : DNSQueryOptions) (checked response : Message) : Prop :=
  (∃ id, response = set_Id id checked) ∨
  ∃ request q qs id, Question_ message = q :: qs ∧
    response = matchEdns request (set_Id id (applyResponseOptions q checked o).1).

(** A response of the client: an empty one, for a query that the strategy refuses
    or that asks nothing, or one made from a message the check has accepted. *)
Definition client_given (message : Message) (o : DNSQueryOptions) (ch : checker) (response : Message) : Prop :=
  Answer response = [] ∧ (∀ q qs, Question_ message = q :: qs → strategyRejects q o = true) ∨
  ∃ checked, accepts ch checked = true ∧ adjusted message o checked response.

Lemma client_given_weaken message o (ch ch' : checker) response :
  (∀ checked, accepts ch checked = true → accepts ch' checked = true) → client_given message o ch response → client_given message o ch' response.
Proof. intros Hch [H|(checked & H & Ha)]; [by left|right]. eauto. Qed.

(** The law holds of the client: of an answer at once, of one after a wait, and of
    one the server has given. *)
Lemma lookInCache_given now op key ch c hit c' response refresh message o :
  lookInCache now op key ch c = (hit, c') → hit = Some (ExchangeDone (Ok response) refresh) → client_given message o ch response.
Proof.
  unfold lookInCache. destruct (loadResponse now key c) as [[[[checked ?] stale]|] ?]; [|by intros [= <- <-]].
  case_match; [|by intros [= <- <-]]. intros [= <- <-] [= Hx _]. destruct (accepts ch checked) eqn:Hch; [|done]. injection Hx as <-.
  right. exists checked. split; [done|]. left. by eexists.
Qed.
Lemma beforeAsking_given tr ct op ch c response refresh c' : beforeAsking tr ct op ch c ≠ (ExchangeDone (Ok response) refresh, c').
Proof. unfold beforeAsking. repeat case_match; by intros [=]. Qed.

Lemma beginExchange_given now ctxErr fresh ct tr message o ch c response refresh c' :
  beginExchange now ctxErr fresh ct tr message o ch c = Ok (ExchangeDone (Ok response) refresh, c') → client_given message o ch response.
Proof.
  unfold beginExchange. destruct ctxErr; [done|]. destruct (Question_ message) as [|q qs] eqn:Hq; [intros [= <- <- <-]; left; split; [done|by rewrite Hq]|].
  destruct (strategyRejects q o) eqn:Hrej; unfold strategyRejects in Hrej; rewrite Hrej; fold (strategyRejects q o) in Hrej.
  { intros [= <- <- <-]. left. split; [done|]. rewrite Hq. by intros q' qs' [= <- <-]. }
  destruct (isSimpleRequest message) as [simple| |]; [cbn [mbind result_bind]|done..]. case_match; [by intros [= ?%beforeAsking_given]|].
  case_bool_decide; destruct (lookInCache _ _ _ _ _) as [[b|] c1] eqn:Hl; intros [=]; simplify_eq.
  all: first [by eapply lookInCache_given|by exfalso; eapply beforeAsking_given].
Qed.
Lemma afterWait_given now ctxErr ct tr op ch c response refresh c' message o :
  afterWait now ctxErr ct tr op ch c = (ExchangeDone (Ok response) refresh, c') → client_given message o ch response.
Proof.
  unfold afterWait. destruct ctxErr; [done|]. destruct (lookInCache _ _ _ _ _) as [[b|] c1] eqn:Hl; intros H.
  - injection H as -> ->. by eapply lookInCache_given.
  - by apply beforeAsking_given in H.
Qed.
Lemma endExchange_given now tr op answer ch c response c' message qs o :
  endExchange now tr op answer ch c = (Some response, None, c') → Question_ message = op_question op :: qs →
  qo_Strategy (op_options op) = qo_Strategy o → qo_RewriteTTL (op_options op) = qo_RewriteTTL o → client_given message o ch response.
Proof.
  intros Hend Hq Hs Ht. unfold endExchange in Hend. destruct (exchangeToTransport _ _) as [raw|]; [|done].
  unfold finishExchange in Hend. destruct (match ch with Some f => _ | None => false end) eqn:Hrej; [done|].
  assert (Happly : applyResponseOptions (op_question op) raw (op_options op) = applyResponseOptions (op_question op) raw o).
  { unfold applyResponseOptions. by rewrite Hs, Ht. }
  destruct (applyResponseOptions _ raw (op_options op)) as [response' ttl] eqn:Ha. injection Hend as <- _.
  right. exists raw. split; [destruct ch as [f|]; cbn; [destruct (negb _), (f raw)|]; done|].
  right. eexists _, _, _, _. split; [done|]. by rewrite <- Happly.
Qed.
End client.

Section legacy.
Context {EX : External} {CO : DnsCodec} (rt : Runtime) {RL : RuntimeLaws rt} (tm : TransportManager) (dds : DomainStrategy) (question : string).

(** An action that makes up its response without a panic: a reject rule drops or
    refuses, and no predefined record is nil. *)
Definition quiet_action (r : Rule) : Prop :=
  match Rule_Action r with
  | Some (RuleActionReject_ a) => rejected a ≠ None
  | Some (RuleActionPredefined rcode answer ns extra) => ∀ p, predefined question rcode answer ns extra ≠ inr p
  | _ => True
  end.

(** A rule the legacy mode is sound for: a DNS rule without [match_response] that
    has a quiet action and whose rule-sets are described by their metadata, and
    which is [prematchable]: no item but the destination addresses reads the
    response, and no default rule in it, merged with its rule-sets, has both a
    domain and a destination address condition (for such rules pre-matching may
    err, see [inverted_prematch_misses]). *)
Definition legacy_rule (r : Rule) : Prop :=
  isDNSRule r = true ∧ prematchable env0 r = true ∧ dns_described r ∧ quiet_action r.

(** The meaning of a rule on a response. *)
Definition means (m : InboundContext) (r : Rule) (v : option Msg) : bool := holds rt env0 r (limitMetadata v m).
(** A rule that ends the search, if it matches. *)
Definition decides (allowFakeIP : bool) (r : Rule) : bool :=
  match Rule_Action r with
  | Some (RuleActionDNSRoute server _ _) => match tm_Transport tm server with Some t => negb (isFakeIP t && negb allowFakeIP) | None => false end
  | Some (RuleActionReject_ _) | Some (RuleActionPredefined _ _ _ _) => true
  | _ => false
  end.

Lemma limitMetadata_fromResponse v b m : limitMetadata v (set_fromResponse b m) = limitMetadata v m.
Proof. by destruct m. Qed.
Lemma set_fromResponse_reset b m : set_fromResponse b (ResetRuleCache m) = ResetRuleCache (set_fromResponse b m).
Proof. by destruct m. Qed.
Lemma ignoreDst_fromResponse b m : ignoreDst (set_fromResponse b m) = ignoreDst m.
Proof. by destruct m. Qed.
Lemma means_identity m m' r v : same_identity m m' → means m r v = means m' r v.
Proof.
  intros H. apply holds_identity; [done|]. apply with_response_identity.
  etrans; [apply same_identity_ResetRuleCache|]. etrans; [done|symmetry; apply same_identity_ResetRuleCache].
Qed.

(** One pre-match of [matchDNS]. *)
Lemma prematched r m b m' pre :
  legacy_rule r → ignoreDst m = false → LegacyPreMatch rt r = Some pre →
  pre (set_fromResponse false (ResetRuleCache m)) = (b, m') →
  ignoreDst m' = false ∧ (∀ q v, means m' q v = means m q v) ∧
  (b = false → ∀ v, means m r v = false) ∧ (b = true → WithAddressLimit r = false → ∀ v, means m r v = true).
Proof.
  intros (Hr & Hok & Hd & _) Hg Hpre Hrun. rewrite (LegacyPreMatch_Match rt r Hr Hok) in Hpre. injection Hpre as <-.
  rewrite set_fromResponse_reset in Hrun.
  destruct (prematch_verdict rt r (set_fromResponse false m) b m' Hr Hok) as (u & _ & Hu & Hi & Hid & Hv); [by rewrite ignoreDst_fromResponse|done|].
  split; [done|]. split; [intros q v; rewrite (means_identity _ _ q v Hid); unfold means; by rewrite limitMetadata_fromResponse|]. split.
  - intros Hb v. destruct (Hv v) as [V _]. unfold means. rewrite <- (limitMetadata_fromResponse v false m). by apply V.
  - intros Hb Hl v. destruct (Hv v) as [_ V]. unfold means. rewrite <- (limitMetadata_fromResponse v false m). apply V; [done|].
    destruct u; [|done]. specialize (Hu eq_refl). apply may_defer_limit in Hu; [congruence|done].
Qed.

(** What [matchDNS] finds among [rules], the first of which has the index [i]. *)
Definition found (allowFakeIP addressQuery : bool) (rules : list Rule) (i : nat) (m : InboundContext) (x : matchedDNS) : Prop :=
  ignoreDst (md_metadata x) = false ∧ (∀ q v, means (md_metadata x) q v = means m q v) ∧
  (∀ k r, rules !! k = Some r → (match md_rule x with Some (_, j) => i + k < j | None => True end)%nat →
    decides allowFakeIP r = true → (WithAddressLimit r = false ∨ addressQuery = true) → ∀ v, means m r v = false) ∧
  match md_rule x with
  | None => md_transport x = Some (tm_Default tm)
  | Some (r, j) => (i ≤ j)%nat ∧ rules !! (j - i)%nat = Some r ∧ (WithAddressLimit r = false → ∀ v, means m r v = true) ∧
      match Rule_Action r with
      | Some (RuleActionDNSRoute server _ _) => tm_Transport tm server = md_transport x ∧ md_transport x ≠ None
      | Some (RuleActionReject_ _) | Some (RuleActionPredefined _ _ _ _) => md_transport x = None
      | _ => False
      end
  end.

(** A rule that is passed over. *)
Lemma found_next allow aq r rules i m m1 x :
  found allow aq rules (S i) m1 x → (∀ q v, means m1 q v = means m q v) →
  (decides allow r = true → (WithAddressLimit r = false ∨ aq = true) → ∀ v, means m r v = false) →
  found allow aq (r :: rules) i m x.
Proof.
  intros (H1 & H2 & H3 & H4) Hm Hr. split; [done|]. split; [intros; by rewrite H2|]. split.
  - intros [|k] r' Hk Hlt Hd Hl v; [injection Hk as <-; by apply Hr|]. rewrite <- Hm. apply (H3 k); try done.
    destruct (md_rule x) as [[? j]|]; [lia|done].
  - destruct (md_rule x) as [[r' j]|]; [|done]. destruct H4 as (Hj & Hk & Hv & Ha). split; [lia|]. split.
    + replace (j - i)%nat with (S (j - S i)) by lia. done.
    + split; [|done]. intros Hl v. rewrite <- Hm. by apply Hv.
Qed.

Lemma matchDNS_found allow aq rules i o m :
  Forall legacy_rule rules → ignoreDst m = false → found allow aq rules i m (matchDNS rt tm allow aq rules i o m).
Proof.
  intros Hall. revert i o m. induction Hall as [|r rules Hr Hall IH]; intros i o m Hg; cbn [matchDNS]; [by split; [|split]|].
  destruct (WithAddressLimit r && negb aq) eqn:Hskip.
  { apply andb_true_iff in Hskip as [Hl Hq]. apply negb_true_iff in Hq. eapply found_next; [by apply IH|done|]. intros _ [H|H]; congruence. }
  destruct (LegacyPreMatch rt r) as [pre|] eqn:Hpre; [|exfalso; destruct Hr as (Hr & _); by destruct r].
  destruct (pre (set_fromResponse false (ResetRuleCache m))) as [b m1] eqn:Hrun.
  destruct (prematched r m b m1 pre Hr Hg Hpre Hrun) as (Hg1 & Hm & Hf & Ht). destruct b; cbn [negb].
  2: { eapply found_next; [by apply IH|done|]. intros _ _. by apply Hf. }
  assert (Hpass : ∀ o, decides allow r = false → found allow aq (r :: rules) i m (matchDNS rt tm allow aq rules (S i) o m1)).
  { intros o' Hd. eapply found_next; [by apply IH|done|]. by rewrite Hd. }
  assert (Hstop : ∀ t o, match Rule_Action r with
      | Some (RuleActionDNSRoute server _ _) => tm_Transport tm server = t ∧ t ≠ None
      | Some (RuleActionReject_ _) | Some (RuleActionPredefined _ _ _ _) => t = None | _ => False end →
    found allow aq (r :: rules) i m (mkMatched t (Some (r, i)) o m1)).
  { intros t o' Ha. split; [done|]. split; [done|]. cbn. split; [intros; lia|]. split; [lia|]. rewrite Nat.sub_diag.
    split; [done|]. split; [by apply Ht|]. by destruct (Rule_Action r) as [[]|]. }
  unfold decides in Hpass. destruct (Rule_Action r) as [[]|] eqn:Hact; try (by apply Hpass); try (by apply Hstop).
  destruct (tm_Transport tm server) as [t|] eqn:Htm; [|by apply Hpass].
  destruct (isFakeIP t && negb allow) eqn:Hfk; [by apply Hpass|]. by apply Hstop.
Qed.

(** ** The exchange *)

Context (ask : Transport → DNSQueryOptions → checker → Message + goerr) (message : Message).
(** The law of the client: what it gives is refused by the strategy, or is made
    from a message the check has accepted ([beginExchange_given], [afterWait_given], [endExchange_given]). *)
Definition ask_checks : Prop := ∀ t o ch response, ask t o ch = inl response → client_given message o ch response.
Context (Hask : ask_checks).

(** A rule that is rightly passed over: it matches no response, or it has an
    address limit and the query does not ask for addresses or the response of its
    server does not match. *)
Definition passed (aq : bool) (m : InboundContext) (r : Rule) : Prop :=
  (∀ v, means m r v = false) ∨
  WithAddressLimit r = true ∧
    (aq = false ∨
     ∃ server speculative a t o f e, Rule_Action r = Some (RuleActionDNSRoute server speculative a) ∧ tm_Transport tm server = Some t ∧
       ask t o (Some f) = inr e ∧ isRejected e = true ∧ ∀ checked, f checked = means m r (Some (view_msg checked))).
Definition all_passed (aq : bool) (m : InboundContext) (rules : list Rule) (j : nat) : Prop :=
  ∀ k r, rules !! k = Some r → (k < j)%nat → decides true r = true → passed aq m r.

(** What the legacy mode promises of a result: every rule before the one that
    gives it is rightly passed over, and
    - a response of the server [t] comes from the default server when no rule is
      left, or is made from a message that matches a rule which routes to [t];
    - any other response is the one the rule at hand makes up, which matches
      unless that is left to its address limit;
    - an error is that of the server.
    It is never a panic. *)
Definition legacy_outcome (aq : bool) (m : InboundContext) (rules : list Rule) (y : exchangeWithRulesResult + string) : Prop :=
  match y with
  | inl (mkResult (Some (FromServer response)) (Some t) None None) =>
      ∃ j, all_passed aq m rules j ∧
        ((length rules ≤ j)%nat ∧ t = tm_Default tm ∨
         ∃ r server speculative a o, rules !! j = Some r ∧ Rule_Action r = Some (RuleActionDNSRoute server speculative a) ∧
           tm_Transport tm server = Some t ∧ client_given message o (Some (λ checked, means m r (Some (view_msg checked)))) response)
  | inl (mkResult response None None e) =>
      ∃ j r x, all_passed aq m rules j ∧ rules !! j = Some r ∧ legacyEnding question (Some (r, j)) = Some (Answer_ x) ∧
        er_response x = response ∧ er_err x = e ∧ (WithAddressLimit r = false → ∀ v, means m r v = true)
  | inl (mkResult None (Some t) None (Some e)) => ∃ o ch, ask t o ch = inr e
  | inl _ => False
  | inr _ => False
  end.

Lemma check_means r j m :
  legacy_rule r → ignoreDst m = false → WithAddressLimit r = true →
  ∃ f, addressLimitResponseCheck rt (Some (r, j)) m = Some f ∧ ∀ response, f response = means m r (Some (view_msg response)).
Proof using RL.
  intros (Hr & Hok & _) Hg Hl. destruct (MatchAddressLimit_Match rt r m None Hr Hok) as (limit & Hlim & _).
  unfold addressLimitResponseCheck. rewrite Hl, Hlim. eexists. split; [done|]. intros response. cbn.
  destruct (MatchAddressLimit_Match rt r m (Some (view_msg response)) Hr Hok) as (limit' & Hlim' & Hv).
  rewrite Hlim in Hlim'. injection Hlim' as <-. by rewrite Hv, limit_holds.
Qed.

(** The rules [matchDNS] passes over. *)
Lemma found_passed aq o m m0 rules i :
  Forall legacy_rule rules → ignoreDst m = false → (∀ q v, means m q v = means m0 q v) → (i ≤ length rules)%nat → all_passed aq m0 rules i →
  let x := matchDNS rt tm true aq (drop i rules) i o m in
  ignoreDst (md_metadata x) = false ∧ (∀ q v, means (md_metadata x) q v = means m0 q v) ∧
  all_passed aq m0 rules (match md_rule x with Some (_, j) => j | None => length rules end) ∧
  match md_rule x with
  | None => md_transport x = Some (tm_Default tm)
  | Some (r, j) => legacy_rule r ∧ (i ≤ j)%nat ∧ rules !! j = Some r ∧ (WithAddressLimit r = false → ∀ v, means m0 r v = true) ∧
      match Rule_Action r with
      | Some (RuleActionDNSRoute server _ _) => tm_Transport tm server = md_transport x ∧ md_transport x ≠ None
      | Some (RuleActionReject_ _) | Some (RuleActionPredefined _ _ _ _) => md_transport x = None
      | _ => False
      end
  end.
Proof using RL.
  intros Hall Hg Hm Hi Hbefore x. destruct (matchDNS_found true aq (drop i rules) i o m) as (Hg1 & Hm1 & Hskip & Hx); [by apply Forall_drop|done|].
  fold x in Hg1, Hm1, Hskip, Hx. split; [done|]. split; [intros; by rewrite Hm1|]. split.
  - intros k r Hk Hlt Hd. destruct (decide (k < i)%nat); [by eapply Hbefore|].
    destruct (WithAddressLimit r && negb aq) eqn:Hs; [apply andb_true_iff in Hs as [? ?%negb_true_iff]; right; auto|].
    left. intros v. rewrite <- Hm. apply (Hskip (k - i)%nat); [rewrite lookup_drop; by replace (i + (k - i))%nat with k by lia| |done|].
    + destruct (md_rule x) as [[? j]|]; [lia|done].
    + destruct (WithAddressLimit r), aq; auto.
  - destruct (md_rule x) as [[r j]|]; [|done]. destruct Hx as (Hj & Hk & Hfree & Hact). rewrite lookup_drop in Hk.
    replace (i + (j - i))%nat with j in Hk by lia. split; [rewrite Forall_lookup in Hall; by eapply Hall|]. do 2 (split; [done|]).
    split; [|done]. intros Hl v. rewrite <- Hm. by apply Hfree.
Qed.

(** The message a rule's server gives, under the check of the rule. *)
Lemma check_accepts r j m m0 ch :
  legacy_rule r → ignoreDst m = false → (∀ q v, means m q v = means m0 q v) → (WithAddressLimit r = false → ∀ v, means m0 r v = true) →
  addressLimitResponseCheck rt (Some (r, j)) m = ch →
  match ch with
  | Some f => WithAddressLimit r = true ∧ ∀ checked, f checked = means m0 r (Some (view_msg checked))
  | None => ∀ v, means m0 r v = true
  end.
Proof using RL.
  intros Hr Hg Hm Hfree <-. destruct (WithAddressLimit r) eqn:Hl.
  - destruct (check_means r j m Hr Hg Hl) as (f & -> & Hf). split; [done|]. intros checked. by rewrite Hf.
  - cbn. rewrite Hl. auto.
Qed.

Lemma exchangeLegacy_outcome fuel rules i aq o m m0 :
  Forall legacy_rule rules → ignoreDst m = false → (∀ q v, means m q v = means m0 q v) → (length rules < i + fuel)%nat → (i ≤ length rules)%nat →
  all_passed aq m0 rules i →
  ∃ y, exchangeLegacy rt tm dds question ask fuel rules i aq o m = Some y ∧ legacy_outcome aq m0 rules y.
Proof using RL Hask.
  intros Hall. revert i m. induction fuel as [|fuel IH]; intros i m Hg Hm Hfuel Hi Hbefore; [lia|]. cbn [exchangeLegacy].
  destruct (found_passed aq o m m0 rules i Hall Hg Hm Hi Hbefore) as (Hg1 & Hm1 & Hpassed & Hx).
  set (x := matchDNS _ _ _ _ _ _ _ _) in *. destruct (md_rule x) as [[r j]|].
  2: { rewrite Hx. cbn [addressLimitResponseCheck legacyEnding]. destruct (ask _ _ None) as [response|err] eqn:Hresp; eexists; (split; [done|]); cbn; eauto. }
  destruct Hx as (Hr & Hj & Hk & Hfree & Hact). assert (Hjl : (j < length rules)%nat) by (by eapply lookup_lt_Some).
  destruct (legacyEnding question (Some (r, j))) as [e|] eqn:He.
  { destruct e as [z|p|p].
    - eexists. split; [done|]. cbn. assert (∃ j r z', all_passed aq m0 rules j ∧ rules !! j = Some r ∧ legacyEnding question (Some (r, j)) = Some (Answer_ z') ∧
        er_response z' = er_response z ∧ er_err z' = er_err z ∧ (WithAddressLimit r = false → ∀ v, means m0 r v = true)) by (exists j, r, z; auto 10).
      by destruct (er_response z) as [[]|].
    - exfalso. cbn in He. destruct (Rule_Action r) as [[]|]; try done; [by destruct (rejected r0)|].
      unfold predefinedEnding in He. by destruct (predefined _ _ _ _ _).
    - exfalso. cbn in He. destruct Hr as (_ & _ & _ & Hquiet). unfold quiet_action in Hquiet. destruct (Rule_Action r) as [[]|]; try done; [by destruct (rejected r0)|].
      unfold predefinedEnding in He. destruct (predefined _ _ _ _ _) as [|p'] eqn:Hp; [done|]. by apply (Hquiet p'). }
  destruct (md_transport x) as [t|] eqn:Ht.
  2: { exfalso. destruct Hr as (_ & _ & _ & Hquiet). unfold quiet_action in Hquiet. cbn in He.
    destruct (Rule_Action r) as [[]|]; try done; first [by destruct Hact|by destruct (rejected _)]. }
  destruct (Rule_Action r) as [[]|] eqn:Ha; try done. destruct Hact as [Htm _].
  destruct (addressLimitResponseCheck rt (Some (r, j)) (md_metadata x)) as [f|] eqn:Hch.
  all: pose proof (check_accepts r j _ m0 _ Hr Hg1 Hm1 Hfree Hch) as Hf; cbv beta iota in Hf.
  all: destruct (ask _ _ _) as [response|err] eqn:Hresp; cbn [isSome andb]; try (by eexists; split; [done|cbn; eauto]).
  - eexists. split; [done|]. exists j. split; [done|]. right. eexists r, server, speculative, o0, _. split_and!; [done..|].
    eapply client_given_weaken; [|exact (Hask _ _ _ _ Hresp)]. cbn. intros checked. by rewrite (proj2 Hf).
  - destruct (isRejected err) eqn:Hrej; [|eexists; split; [done|cbn; eauto]].
    apply IH; try done; try lia. intros k r' Hk' Hlt Hd. destruct (decide (k = j)) as [->|]; [|apply (Hpassed k r'); [done|lia|done]].
    rewrite Hk in Hk'. injection Hk' as <-. right. split; [apply Hf|]. right. eexists server, speculative, o0, t, _, f, err. by destruct Hf.
  - eexists. split; [done|]. exists j. split; [done|]. right. eexists r, server, speculative, o0, _. split_and!; [done..|].
    eapply client_given_weaken; [|exact (Hask _ _ _ _ Hresp)]. cbn. auto.
Qed.
End legacy.

(** C9: in the legacy mode an exchange always ends, after at most one look at each
    rule and without a panic, and its result is the one the rules promise: every rule
    before the one that decides is rightly passed over - it matches no response, or
    the response of its server has been refused by its address limit, or it has such
    a limit and the query asks for no address - and a response comes from the server
    of a rule that matches the message it is made from, from a rule that makes it up,
    or from the default server when no rule is left.  The rules are [legacy_rule]s:
    among others, none combines a domain with a destination address condition in one
    default rule, for which pre-matching may err. *)
Theorem legacy_exchange_sound {EX : External} {CO : DnsCodec} (IsFqdn : string → bool) (queryDNSSEC : Message → bool)
    (rt : Runtime) (RL : RuntimeLaws rt) (tm : TransportManager) (defaultDomainStrategy : DomainStrategy) (question : string)
    (ask : Transport → DNSQueryOptions → checker → Message + goerr) (r : Router)
    (walk : list Rule → InboundContext → exchangeWithRulesResult) (m : InboundContext) (message : Message) (q : Question) (o : DNSQueryOptions)
    (Hask : ask_checks ask message) (Hrules : Forall (legacy_rule question) (dr_rules r)) (Hmode : dr_legacyDNSMode r = true)
    (Hopen : dr_closing r = false) (Hq : Question_ message = [q]) (Hdiscovery : isResolverDiscoveryQuery q = false) (Hctx : ignoreDst m = false) :
  ∃ m' y, prepareExchange IsFqdn queryDNSSEC r m message = Context (dr_rules r) true m' ∧
    Exchange IsFqdn queryDNSSEC rt tm defaultDomainStrategy question ask r None walk m message o = Some y ∧
    legacy_outcome rt tm question ask message (isAddressQuery message) m' (dr_rules r) y.
Proof.
  unfold Exchange, prepareExchange. rewrite Hq, Hdiscovery, Hopen, Hmode. cbn [negb]. set (m' := set_query _ _ _ _ _ _ m).
  destruct (exchangeLegacy_outcome rt tm defaultDomainStrategy question ask message Hask (S (length (dr_rules r))) (dr_rules r) 0
    (isAddressQuery message) o m' m') as (y & Hy & Hout); try done; try lia; [by destruct m|by intros k ? _ ?%Nat.nlt_0_r|].
  exists m', y. by split.
Qed.

(** ** A router with a server for each kind of address *)

Definition legacy_routes (d : abstractDefaultRule Rule) (server : string) : Rule :=
  LogicalDNSRule (mkLogicalRule [DefaultDNSRule d false "" false] "and" false
    (Some (RuleActionDNSRoute server false (dnsRouteOptions AbstractDNSRoute_zero)))) [] false false.
Definition legacy_rules : list Rule :=
  [ legacy_routes (plain_rule [] [net10_item] None false) "local"; legacy_routes (plain_rule [domain_item] [] None false) "remote" ].
Definition legacy_router : Router := mkRouter [] legacy_rules true true false.
Definition legacy_query : Message := mkMessage 7 false false false true false 0 [mkQuestion "example.org" TypeA ClassINET] [] [] [].
Definition legacy_answer (id : Z) : Message :=
  mkMessage id true false false true true 0 [mkQuestion "example.org" TypeA ClassINET]
    [mkDRR (mkHdr "example.org" TypeA ClassINET 60) (D_A [Byte.x01; Byte.x01; Byte.x01; Byte.x01])] [] [].
(** Each server answers 1.1.1.1, and its answer is checked. *)
Definition legacy_ask (t : Transport) (o : DNSQueryOptions) (ch : checker) : Message + goerr :=
  let answer := legacy_answer (if String.eqb (t_Tag t) "local" then 1 else 2) in
  if accepts ch answer then inl (set_Id 7 answer) else inr ErrResponseRejected.
Definition legacy_exchange : option (exchangeWithRulesResult + string) :=
  Exchange (λ _, false) (λ _, false) demo_rt demo_servers AsIS "example.org" legacy_ask legacy_router None
    (λ _ _, failed (ErrNew "not walked")) (demo_context "") legacy_query noOptions.

#[local] Existing Instance plain_codec.
Lemma legacy_ask_checks : ask_checks legacy_ask legacy_query.
Proof.
  intros t o ch response. unfold legacy_ask. set (answer := legacy_answer _). destruct (accepts ch answer) eqn:Hch; intros [= <-].
  right. exists answer. split; [done|]. left. by eexists.
Qed.

Lemma legacy_exchange_sound_witness :
  legacy_exchange = Some (inl (mkResult (Some (FromServer (legacy_answer 7))) (Some (mkTransport "remote" "tls")) None None)) ∧
  ∃ m' y, prepareExchange (λ _, false) (λ _, false) legacy_router (demo_context "") legacy_query = Context legacy_rules true m' ∧
    legacy_exchange = Some y ∧ legacy_outcome demo_rt demo_servers "example.org" legacy_ask legacy_query true m' legacy_rules y.
Proof.
  split; [vm_compute; reflexivity|].
  apply (legacy_exchange_sound (λ _, false) (λ _, false) demo_rt demo_laws demo_servers AsIS "example.org" legacy_ask legacy_router
    (λ _ _, failed (ErrNew "not walked")) (demo_context "") legacy_query (mkQuestion "example.org" TypeA ClassINET) noOptions);
    [apply legacy_ask_checks| |reflexivity..].
  repeat constructor.
Defined.

(** ** Options of a rule that are lost *)

(** A rule sets the options of the queries that follow. *)
Definition options_rule (o : AbstractDNSRouteActionOptions) : Rule :=
  LogicalDNSRule (mkLogicalRule [DefaultDNSRule (plain_rule [domain_item] [] None false) false "" false] "and" false
    (Some (RuleActionDNSRouteOptions_ (dnsRouteOptions o)))) [] false false.
Definition with_ttl : AbstractDNSRouteActionOptions := mkDNSRouteOptions 0 0 false false (Some 5) None false.
(** Each server answers [a], with the time to live the query asks for in the message. *)
Definition tell_ask (a : list byte) (t : Transport) (o : DNSQueryOptions) (ch : checker) : Message + goerr :=
  let answer := mkMessage (default 0 (qo_RewriteTTL o)) true false false true true 0 [mkQuestion "example.org" TypeA ClassINET]
    [mkDRR (mkHdr "example.org" TypeA ClassINET 60) (D_A a)] [] [] in
  if accepts ch answer then inl answer else inr ErrResponseRejected.
Definition told (a : list byte) : option (string * Z) :=
  match exchangeLegacy demo_rt demo_servers AsIS "example.org" (tell_ask a) 4 (options_rule with_ttl :: legacy_rules) 0 true noOptions
    (demo_context "example.org") with
  | Some (inl (mkResult (Some (FromServer m)) (Some t) _ _)) => Some (t_Tag t, Id m)
  | _ => None
  end.

(** The options of a [route-options] rule reach the server of the first rule that
    matches; once its response is refused, the next server is asked without them. *)
Lemma legacy_retry_drops_options :
  told [Byte.x0a; Byte.x00; Byte.x00; Byte.x01] = Some ("local"%string, 5) ∧
  told [Byte.x01; Byte.x01; Byte.x01; Byte.x01] = Some ("remote"%string, 0).
Proof. vm_compute. done. Qed.

(** ** Lookups *)

(** Only addresses of the type asked for come out of a response. *)
Lemma lookupWithRulesType_family {EX : External} question rejectError x qType l :
  lookupWithRulesType question rejectError x qType = Ok l →
  (qType = TypeA → Forall (λ a, Addr_Is4 a = true) l) ∧ (qType = TypeAAAA → Forall (λ a, Addr_Is6 a = true) l).
Proof.
  unfold lookupWithRulesType, filterAddressesByQueryType. repeat case_match; intros [= <-]; split; intros ->; try done.
  all: apply Forall_forall; intros a; rewrite list_elem_of_filter; by intros [? _]; apply Is_true_true.
Qed.
Lemma lookupWithRules_family {EX : External} dds question rejectError walk groupError o l :
  lookupWithRules dds question rejectError walk groupError o = Ok l →
  (resolveLookupStrategy dds o = IPv4Only → Forall (λ a, Addr_Is4 a = true) l) ∧
  (resolveLookupStrategy dds o = IPv6Only → Forall (λ a, Addr_Is6 a = true) l).
Proof.
  unfold lookupWithRules. intros H. split; intros Hs; rewrite Hs in H; cbn in H; by eapply lookupWithRulesType_family in H as [? ?]; auto.
Qed.
