(* ===== verification/Reference.v ===== *)
(** Which outbounds and DNS servers the configuration can use in the current mode
    ([route/reference.go], [route/reference_rule.go]), and what the manager tells
    those that are in use and those that are not; and the scans of the rules that
    decide what the router has to look up ([route/rule_conds.go]).

    The other managers are a parameter: [RefEnv] is what [update] asks of them. *)

From S2P Require Import Prelude GoBytes GoSlices GoStrings Netip Metadata RuleItems RuleAction RuleMatch Options RuleBuild.

(** ** What a rule does in a mode, as far as its options say *)

Inductive staticMatch : Type := staticMatchUnknown | staticMatchNever | staticMatchAlways.
#[export] Instance staticMatch_eq_dec : EqDecision staticMatch.
Proof. solve_decision. Defined.

(** [func (m staticMatch) invert() staticMatch]. *)
Definition staticMatch_invert (m : staticMatch) : staticMatch :=
  match m with staticMatchNever => staticMatchAlways | staticMatchAlways => staticMatchNever | staticMatchUnknown => staticMatchUnknown end.

Section rules.
Context {EX : External}.

(** [func evaluateClashMode(clashMode, mode, invert, otherConditions) staticMatch]. *)
Definition evaluateClashMode (clashMode mode : string) (invert otherConditions : bool) : staticMatch :=
  let match_ :=
    if negb (String.eqb clashMode "") && negb (strings_EqualFold clashMode mode) then staticMatchNever
    else if negb otherConditions then staticMatchAlways else staticMatchUnknown in
  if invert then staticMatch_invert match_ else match_.

(** The loop of [evaluateLogical]. *)
Fixpoint evaluateLogical_loop (matches : list staticMatch) (logicalMode : string) (match_ : staticMatch) : staticMatch :=
  match matches with
  | [] => match_
  | ruleMatch :: matches =>
      if String.eqb logicalMode "and" && bool_decide (ruleMatch = staticMatchNever) then staticMatchNever
      else if String.eqb logicalMode "or" && bool_decide (ruleMatch = staticMatchAlways) then staticMatchAlways
      else evaluateLogical_loop matches logicalMode (if bool_decide (ruleMatch = staticMatchUnknown) then staticMatchUnknown else match_)
  end.
(** [func evaluateLogical(matches, logicalMode, invert) staticMatch]. *)
Definition evaluateLogical (matches : list staticMatch) (logicalMode : string) (invert : bool) : staticMatch :=
  let match_ := evaluateLogical_loop matches logicalMode (if String.eqb logicalMode "and" then staticMatchAlways else staticMatchNever) in
  if invert then staticMatch_invert match_ else match_.

(** [conditions.ClashMode = ...]. *)
Definition set_ClashMode (v : string) (o : RawDefaultRule) : RawDefaultRule :=
  match o with mkRawDefaultRule y1 y2 y3 y4 y5 y6 y7 y8 y9 y10 y11 y12 y13 y14 y15 y16 y17 y18 y19 y20 y21 y22 y23 y24 y25 y26 y27 y28 _ y30 y31 y32 y33 y34 y35 y36 y37 y38 y39 y40 y41 y42 y43 y44 =>
    mkRawDefaultRule y1 y2 y3 y4 y5 y6 y7 y8 y9 y10 y11 y12 y13 y14 y15 y16 y17 y18 y19 y20 y21 y22 y23 y24 y25 y26 y27 y28 v y30 y31 y32 y33 y34 y35 y36 y37 y38 y39 y40 y41 y42 y43 y44 end.
Definition set_DNSClashMode (v : string) (o : RawDefaultDNSRule) : RawDefaultDNSRule :=
  match o with mkRawDefaultDNSRule y1 y2 y3 y4 y5 y6 y7 y8 y9 y10 y11 y12 y13 y14 y15 y16 y17 y18 y19 y20 y21 y22 y23 y24 y25 y26 _ y28 y29 y30 y31 y32 y33 y34 y35 y36 y37 y38 y39 y40 y41 y42 y43 y44 y45 y46 y47 y48 y49 y50 y51 y52 y53 y54 =>
    mkRawDefaultDNSRule y1 y2 y3 y4 y5 y6 y7 y8 y9 y10 y11 y12 y13 y14 y15 y16 y17 y18 y19 y20 y21 y22 y23 y24 y25 y26 v y28 y29 y30 y31 y32 y33 y34 y35 y36 y37 y38 y39 y40 y41 y42 y43 y44 y45 y46 y47 y48 y49 y50 y51 y52 y53 y54 end.
(** [!reflect.DeepEqual(conditions, option.RawDefaultRule{})], with the mode and
    the inversion of [conditions] cleared.  A list that is empty but not nil counts
    as a condition there; the verdict is then the weaker "unknown". *)
Definition otherConditions (o : RawDefaultRule) : bool := negb (bool_decide (set_ClashMode "" o = RawDefaultRule_zero (r_Invert o))).
Definition otherDNSConditions (o : RawDefaultDNSRule) : bool := negb (bool_decide (set_DNSClashMode "" o = RawDefaultDNSRule_zero (d_Invert o))).

(** [func evaluateRule(rule, mode) staticMatch] and [evaluateDNSRule]. *)
Fixpoint evaluateRule (mode : string) (o : RuleOptions) : staticMatch :=
  match o with
  | mkRuleOptions type_ raw _ logical _ =>
      if String.eqb type_ "default" then evaluateClashMode (r_ClashMode raw) mode (r_Invert raw) (otherConditions raw)
      else if String.eqb type_ "logical" then evaluateLogical (evaluateRule mode <$> lo_Rules logical) (lo_Mode logical) (lo_Invert logical)
      else staticMatchUnknown
  end.
Fixpoint evaluateDNSRule (mode : string) (o : DNSRuleOptions) : staticMatch :=
  match o with
  | mkDNSRuleOptions type_ raw _ logical _ =>
      if String.eqb type_ "default" then evaluateClashMode (d_ClashMode raw) mode (d_Invert raw) (otherDNSConditions raw)
      else if String.eqb type_ "logical" then evaluateLogical (evaluateDNSRule mode <$> lo_Rules logical) (lo_Mode logical) (lo_Invert logical)
      else staticMatchUnknown
  end.

(** The action of a rule; a rule of another type has the zero one. *)
Definition ruleActionOf (o : RuleOptions) : RuleActionOptions :=
  match o with mkRuleOptions type_ _ rawAction _ logicalAction =>
    if String.eqb type_ "default" then rawAction else if String.eqb type_ "logical" then logicalAction else RuleActionOptions_zero end.
Definition dnsActionOf (o : DNSRuleOptions) : DNSRuleActionOptions :=
  match o with mkDNSRuleOptions type_ _ rawAction _ logicalAction =>
    if String.eqb type_ "default" then rawAction else if String.eqb type_ "logical" then logicalAction else DNSRuleActionOptions_zero end.

(** The outbounds and servers an action names, and whether it ends the search. *)
Definition actionReferences (a : RuleActionOptions) : list string * list string * bool :=
  if String.eqb (ra_Action a) "route" then ([rao_Outbound (ra_RouteOptions a)], [], true)
  else if String.eqb (ra_Action a) "bypass" then
    if negb (String.eqb (rao_Outbound (ra_BypassOptions a)) "") then ([rao_Outbound (ra_BypassOptions a)], [], true) else ([], [], false)
  else if String.eqb (ra_Action a) "reject" || String.eqb (ra_Action a) "hijack-dns" then ([], [], true)
  else if String.eqb (ra_Action a) "resolve" then ([], [rso_Server (ra_ResolveOptions a)], false)
  else ([], [], false).
Definition dnsActionReferences (a : DNSRuleActionOptions) : list string * bool :=
  if String.eqb (da_Action a) "route" then ([dro_Server (da_RouteOptions a)], true)
  else if String.eqb (da_Action a) "evaluate" then ([deo_Server (da_EvaluateOptions a)], false)
  else if String.eqb (da_Action a) "respond" || String.eqb (da_Action a) "reject" || String.eqb (da_Action a) "predefined" then ([], true)
  else ([], false).

(** [func collectRuleReferences(rules, mode, outbounds, transports) (shadowed bool)]. *)
Fixpoint collectRuleReferences (rules : list RuleOptions) (mode : string) (outbounds transports : list string) : bool * list string * list string :=
  match rules with
  | [] => (false, outbounds, transports)
  | rule :: rules =>
      let match_ := evaluateRule mode rule in
      if bool_decide (match_ = staticMatchNever) then collectRuleReferences rules mode outbounds transports
      else
        let '(o, t, final) := actionReferences (ruleActionOf rule) in
        if final && bool_decide (match_ = staticMatchAlways) then (true, outbounds ++ o, transports ++ t)
        else collectRuleReferences rules mode (outbounds ++ o) (transports ++ t)
  end.
(** [func collectDNSRuleReferences(rules, mode, transports) (shadowed bool)]. *)
Fixpoint collectDNSRuleReferences (rules : list DNSRuleOptions) (mode : string) (transports : list string) : bool * list string :=
  match rules with
  | [] => (false, transports)
  | rule :: rules =>
      let match_ := evaluateDNSRule mode rule in
      if bool_decide (match_ = staticMatchNever) then collectDNSRuleReferences rules mode transports
      else
        let '(t, final) := dnsActionReferences (dnsActionOf rule) in
        if final && bool_decide (match_ = staticMatchAlways) then (true, transports ++ t)
        else collectDNSRuleReferences rules mode (transports ++ t)
  end.
End rules.

(** ** The scans of the rules *)

(** [func hasRule(rules, cond) bool] and [hasDNSRule]. *)
Fixpoint hasRule_in (cond : RawDefaultRule → bool) (o : RuleOptions) : bool :=
  match o with
  | mkRuleOptions type_ raw _ logical _ =>
      if String.eqb type_ "default" then cond raw
      else if String.eqb type_ "logical" then existsb (hasRule_in cond) (lo_Rules logical) else false
  end.
Definition hasRule (rules : list RuleOptions) (cond : RawDefaultRule → bool) : bool := existsb (hasRule_in cond) rules.
Fixpoint hasDNSRule_in (cond : RawDefaultDNSRule → bool) (o : DNSRuleOptions) : bool :=
  match o with
  | mkDNSRuleOptions type_ raw _ logical _ =>
      if String.eqb type_ "default" then cond raw
      else if String.eqb type_ "logical" then existsb (hasDNSRule_in cond) (lo_Rules logical) else false
  end.
Definition hasDNSRule (rules : list DNSRuleOptions) (cond : RawDefaultDNSRule → bool) : bool := existsb (hasDNSRule_in cond) rules.

Definition isProcessRule (o : RawDefaultRule) : bool :=
  nonempty (r_ProcessName o) || nonempty (r_ProcessPath o) || nonempty (r_ProcessPathRegex o) || nonempty (r_PackageName o) ||
  nonempty (r_PackageNameRegex o) || nonempty (r_User o) || nonempty (r_UserID o).
Definition isProcessDNSRule (o : RawDefaultDNSRule) : bool :=
  nonempty (d_ProcessName o) || nonempty (d_ProcessPath o) || nonempty (d_ProcessPathRegex o) || nonempty (d_PackageName o) ||
  nonempty (d_PackageNameRegex o) || nonempty (d_User o) || nonempty (d_UserID o).
Definition isNeighborRule (o : RawDefaultRule) : bool := nonempty (r_SourceMACAddress o) || nonempty (r_SourceHostname o).
Definition isNeighborDNSRule (o : RawDefaultDNSRule) : bool := nonempty (d_SourceMACAddress o) || nonempty (d_SourceHostname o).
Definition isWIFIRule (o : RawDefaultRule) : bool := nonempty (r_WIFISSID o) || nonempty (r_WIFIBSSID o).
Definition isWIFIDNSRule (o : RawDefaultDNSRule) : bool := nonempty (d_WIFISSID o) || nonempty (d_WIFIBSSID o).
(** [func hasLocalNeighborDNSServer(servers) bool]: of each server its type and, when
    its options are [*option.LocalDNSServerOptions], their [NeighborDomain]. *)
Definition hasLocalNeighborDNSServer (servers : list (string * option (list string))) : bool :=
  existsb (λ '(type_, neighborDomain), String.eqb type_ "local" && match neighborDomain with Some l => nonempty l | None => false end) servers.

(** ** The manager *)

(** [adapter.Outbound] and [adapter.DNSTransport] as the manager sees them: the
    references of one that is a [Referrer], and whether it is an
    [IdleConnectionKeeper]. *)
Record Referenced : Type := mkReferenced {
  rd_Tag : string;
  rd_Dependencies : list string;
  rd_References : option (list string);
  rd_Keeper : bool
}.

(** What [update] asks of the other services.  Lookup of an outbound also finds
    endpoints and the inner outbounds of chains, which [Outbounds] does not list. *)
Record RefEnv : Type := mkRefEnv {
  re_Mode : option string;                            (* clashmode.Manager *)
  re_Outbounds : list Referenced;
  re_Outbound : gmap string Referenced;
  re_DefaultOutbound : option string;
  re_Endpoints : list string;
  re_Referrers : list (list string);                  (* inbounds, services, the HTTP client manager *)
  re_Transports : list Referenced;
  re_Transport : gmap string Referenced;
  re_DefaultTransport : option string;
  re_DomainResolver : string
}.

(** [ReferenceManager].  The keys of [keepIdle] are the objects; here the kind and
    the tag, one object having each tag between two updates. *)
Record ReferenceManager : Type := mkManager_ {
  rm_rules : list RuleOptions;
  rm_dnsRules : list DNSRuleOptions;
  rm_staticOutbounds : list string;
  rm_staticTransports : list string;
  rm_keepIdle : gmap (bool * string) bool;
  rm_unreferencedTransports : option (gset string)
}.

(** [func appendDomainResolver(transports, rawOptions) []string], given the resolver
    of the dialer options, if there are any. *)
Definition appendDomainResolver (transports : list string) (resolver : option string) : list string :=
  match resolver with Some server => if String.eqb server "" then transports else transports ++ [server] | None => transports end.
(** [func NewReferenceManager(ctx, logger, options)]; [detour] is that of an enabled
    NTP service. *)
Definition NewReferenceManager (rules : list RuleOptions) (dnsRules : list DNSRuleOptions) (detour : option string) (outbounds endpoints : list (option string)) : ReferenceManager :=
  mkManager_ rules dnsRules
    (match detour with Some tag => if String.eqb tag "" then [] else [tag] | None => [] end)
    (fold_left appendDomainResolver endpoints (fold_left appendDomainResolver outbounds []))
    ∅ None.

(** The two loops of [update] over a queue of tags: those visited, in order. *)
Fixpoint visit (fuel : nat) (next : gmap string (list string)) (queue seen : list string) : option (list string) :=
  match fuel with
  | O => None
  | S fuel =>
      match queue with
      | [] => Some seen
      | tag :: queue =>
          if String.eqb tag "" || bool_decide (tag ∈ seen) then visit fuel next queue seen
          else match next !! tag with
            | None => visit fuel next queue seen
            | Some more => visit fuel next (queue ++ more) (seen ++ [tag])
            end
      end
  end.
(** Enough rounds: one for each tag in the queue, now or later. *)
Definition visit_fuel (next : gmap string (list string)) (queue : list string) : nat :=
  S (length queue + map_fold (λ _ l n, (length l + n)%nat) 0%nat next).

Section manager.
Context {EX : External}.

(** What a visit of a server or of an outbound appends. *)
Definition transportNext (t : Referenced) : list string := rd_Dependencies t.
Definition outboundNext (o : Referenced) : list string := match rd_References o with Some l => l | None => rd_Dependencies o end.

(** The queues [update] starts with. *)
Definition queues (e : RefEnv) (m : ReferenceManager) : list string * list string :=
  let mode := default EmptyString (re_Mode e) in
  let '(shadowed, transports) := collectDNSRuleReferences (rm_dnsRules m) mode (rm_staticTransports m) in
  let transports := if negb shadowed then transports ++ match re_DefaultTransport e with Some tag => [tag] | None => [] end else transports in
  let transports := transports ++ [re_DomainResolver e] in
  let '(shadowed, outbounds, transports) := collectRuleReferences (rm_rules m) mode (rm_staticOutbounds m) transports in
  let outbounds := if negb shadowed then outbounds ++ match re_DefaultOutbound e with Some tag => [tag] | None => [] end else outbounds in
  (outbounds ++ re_Endpoints e ++ concat (re_Referrers e), transports).

(** The servers and outbounds in use. *)
Definition references (e : RefEnv) (m : ReferenceManager) : option (list string * list string) :=
  let '(outboundQueue, transportQueue) := queues e m in
  let nextTransport := transportNext <$> re_Transport e in
  let nextOutbound := outboundNext <$> re_Outbound e in
  match visit (visit_fuel nextTransport transportQueue) nextTransport transportQueue [] with
  | None => None
  | Some transports =>
      let outboundQueue := outboundQueue ++ (transports ≫= λ tag, match re_Transport e !! tag ≫= rd_References with Some l => l | None => [] end) in
      match visit (visit_fuel nextOutbound outboundQueue) nextOutbound outboundQueue [] with
      | None => None
      | Some outbounds => Some (outbounds, transports)
      end
  end.

(** What the manager does to the others: [SetKeepIdleConnections] and
    [CloseIdleConnections] of an outbound ([true]) or server, and [Reset] of a
    server. *)
Inductive refEffect : Type :=
| SetKeepIdle (outbound : bool) (tag : string) (keep : bool)
| ResetTransport (tag : string)
| CloseIdle (outbound : bool) (tag : string).

(** [func (m *ReferenceManager) applyKeepIdle(keepIdle, target)]. *)
Definition applyKeepIdle (previous : gmap (bool * string) bool) (outbound : bool) (tag : string) (keep : bool) (x : gmap (bool * string) bool * list refEffect)
    : gmap (bool * string) bool * list refEffect :=
  let '(keepIdle, effects) := x in
  (<[(outbound, tag) := keep]> keepIdle,
   effects ++ if bool_decide (previous !! (outbound, tag) = Some keep) then [] else [SetKeepIdle outbound tag keep]).

(** One outbound and one server of the last loops of [update]. *)
Definition updateOutbound (previous : gmap (bool * string) bool) (used : list string) (x : gmap (bool * string) bool * list refEffect) (o : Referenced) :=
  if rd_Keeper o then applyKeepIdle previous true (rd_Tag o) (bool_decide (rd_Tag o ∈ used)) x else x.
Definition updateTransport (m : ReferenceManager) (used : list string) (x : gmap (bool * string) bool * list refEffect * gset string) (t : Referenced)
    : gmap (bool * string) bool * list refEffect * gset string :=
  let '(keepIdle, effects, unreferenced) := x in
  let tag := rd_Tag t in
  if rd_Keeper t then (applyKeepIdle (rm_keepIdle m) false tag (bool_decide (tag ∈ used)) (keepIdle, effects), unreferenced)
  else if bool_decide (tag ∈ used) then x
  else (keepIdle,
        effects ++ match rm_unreferencedTransports m with Some old => if bool_decide (tag ∈ old) then [] else [ResetTransport tag] | None => [] end,
        {[tag]} ∪ unreferenced).

(** [func (m *ReferenceManager) update()]. *)
Definition update (e : RefEnv) (m : ReferenceManager) : option (ReferenceManager * list refEffect) :=
  match references e m with
  | None => None
  | Some (outbounds, transports) =>
      let x := fold_left (updateOutbound (rm_keepIdle m) outbounds) (re_Outbounds e) (∅, []) in
      let '(keepIdle, effects, unreferenced) := fold_left (updateTransport m transports) (re_Transports e) (x, ∅) in
      Some (mkManager_ (rm_rules m) (rm_dnsRules m) (rm_staticOutbounds m) (rm_staticTransports m) keepIdle (Some unreferenced), effects)
  end.

(** [func (m *ReferenceManager) CloseIdleConnections()]. *)
Definition CloseIdleConnections (e : RefEnv) : list refEffect :=
  omap (λ o, if rd_Keeper o then Some (CloseIdle true (rd_Tag o)) else None) (re_Outbounds e) ++
  omap (λ t, if rd_Keeper t then Some (CloseIdle false (rd_Tag t)) else None) (re_Transports e).

(** [Start] at the stage "started" and [loop]: an update, and one more for each
    signal of the test history or of the mode; [envs] is what each of them finds. *)
Fixpoint loop (envs : list RefEnv) (m : ReferenceManager) : option (ReferenceManager * list (list refEffect)) :=
  match envs with
  | [] => Some (m, [])
  | e :: envs =>
      match update e m with
      | None => None
      | Some (m, effects) => match loop envs m with None => None | Some (m, rest) => Some (m, effects :: rest) end
      end
  end.
End manager.
