(* ===== verification/ReferenceTheorems.v ===== *)
(** Theorems on the manager of references: the static evaluation of a rule agrees
    with its matching, the queues are closed under references, and an outbound
    that routing can select is never told to close its idle connections. *)

From S2P Require Import Prelude GoBytes GoSlices GoStrings Netip Metadata RuleItems RuleAction RuleMatch.
From S2P Require Import RuleSemantics RuleRefine RuleTheorems Concrete Options RuleBuild RuleBuildTheorems.
From S2P Require Import Sniff Router RouterTheorems DnsMode DnsModeTheorems Reference.

(** ** The loops over a queue *)

Section visit.
Context (next : gmap string (list string)).

(** What the visit of [queue] should reach. *)
Inductive reach (queue : list string) : string → Prop :=
| reach_here t : t ∈ queue → t ≠ EmptyString → is_Some (next !! t) → reach queue t
| reach_next a l t : reach queue a → next !! a = Some l → t ∈ l → t ≠ EmptyString → is_Some (next !! t) → reach queue t.

Definition weight (m : gmap string (list string)) : nat := map_fold (λ _ l n, (length l + n)%nat) 0%nat m.
Definition unseen (seen : list string) : gmap string (list string) := filter (λ x, x.1 ∉ seen) next.

Lemma sizes_delete m t l : m !! t = Some l → weight m = (length l + weight (delete t m))%nat.
Proof. intros H. unfold weight. rewrite (map_fold_delete_L _ _ t l m); [done| |done]. intros. lia. Qed.
Lemma unseen_snoc seen t : unseen (seen ++ [t]) = delete t (unseen seen).
Proof.
  apply map_eq. intros k. unfold unseen. destruct (decide (k = t)) as [->|Hk].
  - rewrite lookup_delete_eq. apply map_lookup_filter_None. right. intros x _. cbn. set_solver.
  - rewrite lookup_delete_ne by done. apply option_eq. intros l. rewrite !map_lookup_filter_Some. cbn. set_solver.
Qed.

Lemma visit_ends fuel queue seen : (length queue + weight (unseen seen) < fuel)%nat → is_Some (visit fuel next queue seen).
Proof.
  revert queue seen. induction fuel as [|fuel IH]; intros queue seen Hf; [lia|]. cbn [visit]. destruct queue as [|t queue]; [by eexists|]. cbn in Hf.
  destruct (String.eqb t "" || bool_decide (t ∈ seen)) eqn:Hs; [apply IH; lia|]. apply orb_false_iff in Hs as [_ Hs%bool_decide_eq_false].
  destruct (next !! t) as [l|] eqn:Hl; [|apply IH; lia]. apply IH. rewrite length_app, unseen_snoc.
  assert (H : unseen seen !! t = Some l) by (by apply map_lookup_filter_Some). apply sizes_delete in H. lia.
Qed.

Lemma visit_spec fuel queue seen r (P : string → Prop) :
  visit fuel next queue seen = Some r →
  (∀ a l t, a ∈ seen → next !! a = Some l → t ∈ l → t ≠ EmptyString → is_Some (next !! t) → t ∈ seen ∨ t ∈ queue) →
  (∀ t, t ∈ seen → P t) → (∀ t, t ∈ queue → t ≠ EmptyString → is_Some (next !! t) → P t) →
  (∀ a l t, P a → next !! a = Some l → t ∈ l → t ≠ EmptyString → is_Some (next !! t) → P t) →
  (∀ t, t ∈ seen → t ∈ r) ∧ (∀ t, t ∈ queue → t ≠ EmptyString → is_Some (next !! t) → t ∈ r) ∧
  (∀ a l t, a ∈ r → next !! a = Some l → t ∈ l → t ≠ EmptyString → is_Some (next !! t) → t ∈ r) ∧ (∀ t, t ∈ r → P t).
Proof.
  revert queue seen. induction fuel as [|fuel IH]; intros queue seen Hv Hc Hs Hq HP; [done|]. cbn [visit] in Hv.
  destruct queue as [|t queue].
  { injection Hv as <-. split; [done|]. split; [by intros ? ?%elem_of_nil|]. split; [|done].
    intros a l t Ha Hl Ht He Hn. destruct (Hc a l t Ha Hl Ht He Hn) as [|?%elem_of_nil]; done. }
  assert (Hskip : visit fuel next queue seen = Some r → (t ≠ EmptyString → is_Some (next !! t) → t ∈ seen) →
    (∀ t', t' ∈ seen → t' ∈ r) ∧ (∀ t', t' ∈ t :: queue → t' ≠ EmptyString → is_Some (next !! t') → t' ∈ r) ∧
    (∀ a l t', a ∈ r → next !! a = Some l → t' ∈ l → t' ≠ EmptyString → is_Some (next !! t') → t' ∈ r) ∧ (∀ t', t' ∈ r → P t')).
  { intros Hv' Ht. destruct (IH queue seen Hv') as (H1 & H2 & H3 & H4); try done.
    - intros a l t' Ha Hl Ht' He Hn. destruct (Hc a l t' Ha Hl Ht' He Hn) as [|[->|]%elem_of_cons]; auto.
    - intros t' Ht'. apply Hq. by apply elem_of_cons; right.
    - split; [done|]. split; [|done]. intros t' [->|Ht']%elem_of_cons He Hn; auto. }
  destruct (String.eqb t "" || bool_decide (t ∈ seen)) eqn:Hsk.
  { apply Hskip; [done|]. intros He _. apply orb_true_iff in Hsk as [?%String.eqb_eq|?%bool_decide_eq_true]; done. }
  apply orb_false_iff in Hsk as [He%String.eqb_neq Hns%bool_decide_eq_false].
  destruct (next !! t) as [l|] eqn:Hl; [|apply Hskip; [done|]; intros _ [? ?]; done].
  assert (Pt : P t) by (apply Hq; [by left|done|by eexists]).
  destruct (IH (queue ++ l) (seen ++ [t]) Hv) as (H1 & H2 & H3 & H4); try done.
  - intros a l' t' [Ha| ->%list_elem_of_singleton]%elem_of_app Hl' Ht' He' Hn.
    + destruct (Hc a l' t' Ha Hl' Ht' He' Hn) as [|[->|]%elem_of_cons]; [left|left|right]; apply elem_of_app; auto. right. by apply list_elem_of_singleton.
    + rewrite Hl in Hl'. injection Hl' as <-. right. apply elem_of_app. by right.
  - intros t' [Ht'| ->%list_elem_of_singleton]%elem_of_app; auto.
  - intros t' [Ht'|Ht']%elem_of_app He' Hn; [apply Hq; try done; by right|by eapply HP].
  - split; [intros t' Ht'; apply H1, elem_of_app; by left|]. split; [|done].
    intros t' [->|Ht']%elem_of_cons He' Hn; [apply H1, elem_of_app; right; by apply list_elem_of_singleton|]. apply H2; try done. apply elem_of_app. by left.
Qed.

(** The loop ends with exactly what can be reached. *)
Lemma visit_reach queue : ∃ r, visit (visit_fuel next queue) next queue [] = Some r ∧ ∀ t, t ∈ r ↔ reach queue t.
Proof.
  destruct (visit_ends (visit_fuel next queue) queue []) as [r Hr].
  { unfold visit_fuel, unseen. rewrite map_filter_id by (intros ? ? _; cbn; by apply not_elem_of_nil). unfold weight. lia. }
  exists r. split; [done|]. intros t.
  destruct (visit_spec _ _ _ _ (reach queue) Hr) as (_ & H2 & H3 & H4).
  - by intros ? ? ? ?%elem_of_nil.
  - by intros ? ?%elem_of_nil.
  - intros. by apply reach_here.
  - intros. by eapply reach_next.
  - split; [apply H4|]. induction 1; [by apply H2|by eapply H3].
Qed.
End visit.

(** ** The static evaluation of a rule *)

(** What [strings.EqualFold] promises. *)
Class FoldLaws {EX : External} : Prop := {
  fold_sym s t : strings_EqualFold s t = strings_EqualFold t s;
  fold_empty s : strings_EqualFold s "" = true → s = EmptyString
}.

(** A verdict that a condition keeps, whatever the connection. *)
Definition keeps_verdict (f : InboundContext → bool) (v : staticMatch) : Prop :=
  match v with
  | staticMatchUnknown => True
  | staticMatchNever => ∀ m, f m = false
  | staticMatchAlways => ∀ m, f m = true
  end.
Lemma keeps_verdict_invert f v inv :
  keeps_verdict f v → keeps_verdict (λ m, xorb inv (f m)) (if inv then staticMatch_invert v else v).
Proof. destruct v, inv; cbn; try done; intros H m; by rewrite H. Qed.
Lemma keeps_verdict_ext f g v : (∀ m, f m = g m) → keeps_verdict f v → keeps_verdict g v.
Proof. intros Hf. destruct v; cbn; try done; intros H m; by rewrite <- Hf. Qed.

Section static.
Context {EX : External} {FL : FoldLaws} (rt : Runtime).
#[local] Abbreviation mode := (default EmptyString (rt_ClashMode rt)).

(** The item of the mode answers what the evaluation expects. *)
Lemma clash_item e m clash : clash ≠ EmptyString → item_holds rt e m (ClashModeItem clash) = strings_EqualFold clash mode.
Proof.
  intros Hc. unfold item_holds. cbn. unfold ClashModeItem_Match. destruct (rt_ClashMode rt) as [current|]; cbn; [apply fold_sym|].
  destruct (strings_EqualFold clash "") eqn:H; [|done]. by apply fold_empty in H.
Qed.

(** A rule made of fields with the mode [clash] and, if [other], more. *)
Record clash_rule (d : abstractDefaultRule Rule) (clash : string) (other : bool) : Prop := {
  cr_item : clash ≠ EmptyString → ClashModeItem clash ∈ items d ∧ nonempty (allItems d) = true;
  cr_alone : other = false →
    items d = (if decide (clash = EmptyString) then [] else [ClashModeItem clash]) ∧ sourceAddressItems d = [] ∧ sourcePortItems d = [] ∧
    destinationAddressItems d = [] ∧ destinationIPCIDRItems d = [] ∧ destinationPortItems d = [] ∧ ruleSetItem d = None ∧
    (clash = EmptyString → allItems d = [])
}.

Lemma clash_rule_verdict d clash other :
  clash_rule d clash other → (other = false → clash = EmptyString → invert d = false) →
  keeps_verdict (default_holds rt (holds rt) mergeableRule env0 d) (evaluateClashMode clash mode (invert d) other).
Proof.
  intros [Hi Ha] Hg. unfold evaluateClashMode. destruct (String.eqb_spec clash "") as [->|Hc]; cbn [negb andb].
  - destruct other; cbn [negb]; [by destruct (invert d)|]. destruct (Ha eq_refl) as (_ & _ & _ & _ & _ & _ & _ & Hall).
    rewrite (Hg eq_refl eq_refl). intros m. unfold default_holds. by rewrite Hall.
  - destruct (Hi Hc) as [Hin Hne]. apply (keeps_verdict_ext (λ m, xorb (invert d) (inner_holds rt (holds rt) mergeableRule env0 d m))).
    { intros m. unfold default_holds. by rewrite Hne. }
    apply keeps_verdict_invert. destruct (strings_EqualFold clash mode) eqn:Hf; cbn [negb].
    + destruct other; cbn [negb]; [done|]. destruct (Ha eq_refl) as (H1 & H2 & H3 & H4 & H5 & H6 & H7 & _). intros m.
      unfold inner_holds, all_groups, requires, satisfies, ip_source, ip_dest. rewrite H1, H2, H3, H4, H5, H6, H7.
      rewrite decide_False by done. cbn [forallb existsb nonempty orb andb negb]. rewrite clash_item, Hf by done. done.
    + intros m. unfold inner_holds. apply andb_false_iff. left. apply not_true_is_false. rewrite forallb_forall. intros H.
      specialize (H (ClashModeItem clash)). rewrite clash_item, Hf in H by done. by discriminate H; apply list_elem_of_In.
Qed.


(** A logical rule whose rules keep their verdicts. *)
#[local] Hint Resolve Exists_cons_hd Exists_cons_tl Forall_cons : core.
Lemma evaluateLogical_loop_and vs acc :
  match evaluateLogical_loop vs "and" acc with
  | staticMatchAlways => acc = staticMatchAlways ∧ Forall (eq staticMatchAlways) vs
  | staticMatchNever => acc = staticMatchNever ∨ Exists (eq staticMatchNever) vs
  | staticMatchUnknown => True
  end.
Proof.
  revert acc. induction vs as [|v vs IH]; intros acc; cbn; [destruct acc; auto|]. destruct v; repeat (case_bool_decide; try done); cbn.
  - specialize (IH staticMatchUnknown). destruct (evaluateLogical_loop _ _ _); [done| |by destruct IH as [[=] _]]. destruct IH as [[=]|]; auto.
  - auto.
  - specialize (IH acc). destruct (evaluateLogical_loop _ _ _); [done| |]; destruct IH; auto.
Qed.
Lemma evaluateLogical_loop_or vs acc :
  match evaluateLogical_loop vs "or" acc with
  | staticMatchNever => acc = staticMatchNever ∧ Forall (eq staticMatchNever) vs
  | staticMatchAlways => acc = staticMatchAlways ∨ Exists (eq staticMatchAlways) vs
  | staticMatchUnknown => True
  end.
Proof.
  revert acc. induction vs as [|v vs IH]; intros acc; cbn; [destruct acc; auto|]. destruct v; repeat (case_bool_decide; try done); cbn.
  - specialize (IH staticMatchUnknown). destruct (evaluateLogical_loop _ _ _); [done|by destruct IH as [[=] _]|]. destruct IH as [[=]|]; auto.
  - specialize (IH acc). destruct (evaluateLogical_loop _ _ _); [done| |]; destruct IH; auto.
  - auto.
Qed.

Lemma logical_verdict (l : abstractLogicalRule Rule) vs :
  Forall2 (λ r v, keeps_verdict (holds rt env0 r) v) (l_rules l) vs → l_mode l = "and"%string ∨ l_mode l = "or"%string →
  keeps_verdict (logical_holds (holds rt) l) (evaluateLogical vs (l_mode l) (l_invert l)).
Proof.
  intros H Hm. unfold evaluateLogical, logical_holds. apply keeps_verdict_invert. destruct Hm as [-> | ->]; cbn [String.eqb].
  - pose proof (evaluateLogical_loop_and vs staticMatchAlways) as Hl. cbn in *. destruct (evaluateLogical_loop _ _ _); [done| |].
    + destruct Hl as [[=]|Hl]. intros m. apply not_true_is_false. rewrite forallb_forall. intros Hall.
      apply Exists_exists in Hl as (v & Hv & <-). destruct (Forall2_elem_r _ _ _ _ H Hv) as (r & Hr & Hk).
      specialize (Hall r). rewrite Hk in Hall. by discriminate Hall; apply list_elem_of_In.
    + intros m. apply forallb_forall. intros r Hr%list_elem_of_In. destruct Hl as [_ Hl]. rewrite Forall_forall in Hl.
      apply Forall2_flip in H. destruct (Forall2_elem_r _ _ _ _ H Hr) as (v & Hv & Hk). cbn in Hk. rewrite <- (Hl v Hv) in Hk. apply Hk.
  - pose proof (evaluateLogical_loop_or vs staticMatchNever) as Hl. cbn in *. destruct (evaluateLogical_loop _ _ _); [done| |].
    + intros m. apply not_true_is_false. rewrite existsb_exists. intros (r & Hr%list_elem_of_In & Ht). destruct Hl as [_ Hl]. rewrite Forall_forall in Hl.
      apply Forall2_flip in H. destruct (Forall2_elem_r _ _ _ _ H Hr) as (v & Hv & Hk). cbn in Hk. rewrite <- (Hl v Hv) in Hk. by rewrite Hk in Ht.
    + destruct Hl as [[=]|Hl]. intros m. apply existsb_exists. apply Exists_exists in Hl as (v & Hv & <-).
      destruct (Forall2_elem_r _ _ _ _ H Hv) as (r & Hr & Hk). exists r. split; [by apply list_elem_of_In|apply Hk].
Qed.

(** ** Built rules *)

Lemma made_elem steps l s i : made steps = Ok l → (true, s, Ok i) ∈ steps → (s, i) ∈ l.
Proof.
  revert l. induction steps as [|[[c s'] r] steps IH]; intros l; [by intros _ ?%elem_of_nil|]. cbn. intros H [E|Hin]%elem_of_cons.
  - injection E as <- <- <-. invert_ok. by left.
  - destruct c; invert_ok; [right|]; eauto.
Qed.

(** The fields of a rule with the mode [clash]. *)
Lemma addAll_clash steps inv act d clash :
  addAll steps (newAbstractRule inv act) = Ok d → (true, ToItems, Ok (ClashModeItem clash)) ∈ steps →
  ClashModeItem clash ∈ items d ∧ nonempty (allItems d) = true ∧ invert d = inv.
Proof using.
  rewrite addAll_made. intros (l & Hl & <-)%fmap_Ok Hin. pose proof (made_elem _ _ _ _ Hl Hin) as He.
  destruct (appendAll_frame l (newAbstractRule inv act)) as (Ha & _ & Hi & _). rewrite Ha, Hi.
  split; [|split; [|done]].
  - change (items ?x) with (slot_items ToItems x). rewrite slot_items_appendAll. apply elem_of_app. right.
    unfold pick. apply list_elem_of_fmap. exists (ToItems, ClashModeItem clash). split; [done|]. by apply list_elem_of_filter.
  - apply nonempty_true. cbn. apply list_elem_of_split in He as (l1 & l2 & ->). rewrite fmap_app. by destruct (ItemRef ∘ snd <$> l1).
Qed.
Lemma addRuleSet_keeps tags dep ms ae d d' :
  addRuleSet tags dep ms ae d = Ok d' → items d' = items d ∧ invert d' = invert d ∧ (nonempty (allItems d) = true → nonempty (allItems d') = true).
Proof using.
  unfold addRuleSet. destruct (nonempty tags), dep; intros H; invert_ok; try done. destruct d. cbn. split; [done|]. split; [done|].
  intros H. apply nonempty_true in H. apply nonempty_true. by destruct allItems.
Qed.

(** Starting a rule gives its rule-set item its sets, and nothing else. *)
Lemma Start_clash sv d d' clash other :
  abstractDefaultRule_Start sv d = Ok d' → clash_rule d clash other → clash_rule d' clash other ∧ invert d' = invert d.
Proof using.
  destruct d as [it sa sp da di dp all rs inv act]. cbn [abstractDefaultRule_Start]. intros (rs' & Hs & [= <-])%bind_Ok [Hi Ha]. cbn in *.
  split; [|done]. split; [done|]. cbn. intros Ho. destruct (Ha Ho) as (H1 & H2 & H3 & H4 & H5 & H6 & -> & H8).
  assert (rs' = None) as ->; [|done].
  clear -Hs. induction all as [|[i|] all IH]; cbn in Hs; [by injection Hs as <-| |]; invert_ok; auto.
Qed.

Lemma set_ClashMode_self o : set_ClashMode (r_ClashMode o) o = o.
Proof using. by destruct o. Qed.
Lemma set_ClashMode_twice v w o : set_ClashMode v (set_ClashMode w o) = set_ClashMode v o.
Proof using. by destruct o. Qed.
Lemma otherConditions_false o : otherConditions o = false → o = set_ClashMode (r_ClashMode o) (RawDefaultRule_zero (r_Invert o)).
Proof using.
  intros H%negb_false_iff%bool_decide_eq_true. by rewrite <- H, set_ClashMode_twice, set_ClashMode_self.
Qed.

Lemma built_clash PlatformSupported o a d :
  NewDefaultRule PlatformSupported o a = Ok d → clash_rule d (r_ClashMode o) (otherConditions o) ∧ invert d = r_Invert o.
Proof using.
  unfold NewDefaultRule. intros (act & _ & (d0 & Hadd & Hset)%bind_Ok)%bind_Ok. destruct (addRuleSet_keeps _ _ _ _ _ _ Hset) as (Hi & Hv & Hn).
  assert (Hinv : invert d0 = r_Invert o).
  { rewrite addAll_made in Hadd. apply fmap_Ok in Hadd as (l & _ & <-). by destruct (appendAll_frame l (newAbstractRule (r_Invert o) act)) as (_ & _ & ? & _). }
  split; [|by rewrite Hv]. split.
  - intros Hc. destruct (addAll_clash _ _ _ _ (r_ClashMode o) Hadd) as (H1 & H2 & _); [|rewrite Hi; auto].
    unfold ruleSteps, ruleStepsRest. apply elem_of_app. right. do 11 (apply elem_of_cons; right). apply elem_of_cons. left. unfold plain.
    by apply String.eqb_neq in Hc as ->.
  - intros Ho%otherConditions_false. clear Hi Hv Hn Hinv. destruct (r_Invert o); rewrite Ho in Hadd, Hset |- *; cbn in Hset; injection Hset as <-; clear Ho.
    all: cbn in Hadd; destruct (String.eqb_spec (r_ClashMode o) "") as [E|E]; cbn in Hadd; injection Hadd as <-; cbn.
    all: first [rewrite decide_True by done|rewrite decide_False by done]; split_and!; done.
Qed.

(** A rule decoded from the configuration has a type, and is not an inverted rule
    without conditions, which matches everything ([empty_inverted_misjudged]). *)
Fixpoint grounded (o : RuleOptions) : bool :=
  match o with
  | mkRuleOptions type_ raw _ logical _ =>
      negb (String.eqb type_ "") &&
      (if String.eqb type_ "default" then otherConditions raw || negb (String.eqb (r_ClashMode raw) "") || negb (r_Invert raw)
       else forallb grounded (lo_Rules logical))
  end.


Lemma evaluateRule_keeps sv PlatformSupported o : ∀ check r r',
  grounded o = true → NewRule PlatformSupported check o = Ok r → Rule_Start sv r = Ok r' → keeps_verdict (holds rt env0 r') (evaluateRule mode o).
Proof.
  induction o as [t raw a l la IH] using RuleOptions_nested_ind. intros check r r'. cbn [grounded NewRule evaluateRule].
  intros [Ht Hg]%andb_true_iff. apply negb_true_iff in Ht. rewrite Ht. cbn [orb]. destruct (String.eqb t "default").
  - intros (? & _ & (? & _ & (d & Hd & [= <-])%bind_Ok)%bind_Ok)%bind_Ok (d' & Hs & [= <-])%bind_Ok.
    destruct (built_clash _ _ _ _ Hd) as [Hc Hi]. destruct (Start_clash _ _ _ _ _ Hs Hc) as [Hc' Hi']. cbn [holds].
    rewrite <- Hi, <- Hi'. apply clash_rule_verdict; [done|]. rewrite Hi', Hi. intros Ho Hm. rewrite Ho, Hm in Hg. by apply negb_true_iff in Hg.
  - destruct (String.eqb t "logical"); [|done]. intros Hb Hs. invert_ok. cbn [Rule_Start] in Hs.
    apply bind_Ok in Hs as (y & Hy & [= <-]). apply bind_Ok in Hy as (rules' & Hr' & [= <-]). cbn [holds].
    repeat match goal with H : checkMode _ = Ok _ |- _ => unfold checkMode in H; destruct (String.eqb (lo_Mode l) "and" || String.eqb (lo_Mode l) "or") eqn:Hm; [|done]; injection H as <- end.
    match goal with H : subRules _ _ _ = Ok _ |- _ => apply subRules_Forall2 in H; rename H into Hsub end.
    apply (logical_verdict (mkLogicalRule rules' (lo_Mode l) (lo_Invert l) _)); cbn.
    + apply startAll_Forall2 in Hr'. rewrite forallb_forall in Hg. rewrite Forall_forall in IH.
      assert (Hin : ∀ o', o' ∈ lo_Rules l → grounded o' = true) by (intros o' Ho'; apply Hg; by apply list_elem_of_In).
      clear -Hsub Hr' IH Hin. revert rules' Hr'. induction Hsub as [|o' r ? ? Hb Hrest IHs]; intros rules' Hr'; inversion Hr'; subst; cbn; constructor.
      * apply bind_Ok in Hb as (? & _ & Hb). eapply IH; [by left|apply Hin; by left|exact Hb|done].
      * apply IHs; [intros; eapply IH; try done; by right|intros; apply Hin; by right|done].
    + apply orb_true_iff in Hm as [?%String.eqb_eq|?%String.eqb_eq]; auto.
Qed.
End static.
