(* ===== verification/ReferenceRouting.v ===== *)
(** What routing selects is referenced: the loop of [matchRule] keeps the switches
    that rules set while they match, so every rule it passes or selects is one the
    static evaluation has judged rightly. *)

From S2P Require Import Prelude GoBytes GoSlices GoStrings Netip Metadata RuleItems RuleAction RuleMatch.
From S2P Require Import RuleSemantics RuleRefine RuleTheorems Concrete Options RuleBuild RuleBuildTheorems.
From S2P Require Import Sniff SniffTheorems Quic Router RouterCache RouterTheorems DnsMode DnsModeTheorems Reference ReferenceTheorems.

(** ** The loop of matchRule *)

Section loop.
Context {EX : External} {SL : SniffLib} {QC : QuicCrypto} (E : RouterEnv) (now : Z).

(** ** What the queues hold *)

Context {FL : FoldLaws} {RL : RuntimeLaws (env_rt E false)} (sv : Services) (PlatformSupported : bool).
#[local] Abbreviation mode := (default EmptyString (rt_ClashMode (env_rt E false))).

(** A rule built from options and started. *)
Definition built_from (o : RuleOptions) (r : Rule) : Prop :=
  ∃ r0, NewRule PlatformSupported true o = Ok r0 ∧ Rule_Start sv r0 = Ok r.

Lemma built_action o r : grounded o = true → built_from o r → NewRuleAction PlatformSupported (ruleActionOf o) = Ok (Rule_Action r).
Proof using.
  intros Hg (r0 & Hb & Hs). destruct (Rule_Start_keeps _ _ _ Hs) as (_ & _ & _ & ->). destruct o as [t raw a l la]. cbn [grounded NewRule ruleActionOf] in *.
  apply andb_true_iff in Hg as [Ht _]. apply negb_true_iff in Ht. rewrite Ht in Hb. cbn [orb] in Hb. destruct (String.eqb t "default").
  - apply bind_Ok in Hb as (? & _ & Hb). apply bind_Ok in Hb as (? & _ & Hb). apply bind_Ok in Hb as (d & Hd & [= <-]). by apply NewDefaultRule_action in Hd.
  - destruct (String.eqb t "logical"); [|done]. invert_ok. cbn.
    match goal with H : NewRuleAction _ _ = Ok _ |- _ => exact H end.
Qed.

(** The outbounds of [a], and whether it ends the search, agree with the action. *)
Lemma references_action a act :
  NewRuleAction PlatformSupported a = Ok act →
  match act with
  | Some (RuleActionRoute out _) => (actionReferences a).1.1 = [out]
  | Some (RuleActionBypass out _) => out ≠ EmptyString → (actionReferences a).1.1 = [out]
  | _ => True
  end ∧ ((actionReferences a).2 = true → ∃ b, act = Some b ∧ finalAction b = true).
Proof using.
  unfold NewRuleAction, actionReferences. set (k := ra_Action a). destruct (String.eqb k "") eqn:E0; [apply String.eqb_eq in E0 as ->; by intros [= <-]|].
  destruct (String.eqb k "route"); [intros (o & _ & [= <-])%bind_Ok; cbn; eauto|].
  destruct (String.eqb k "route-options") eqn:E2; [apply String.eqb_eq in E2 as ->; by intros (o & _ & [= <-])%bind_Ok|].
  destruct (String.eqb k "bypass").
  { intros (o & _ & [= <-])%bind_Ok. destruct (String.eqb_spec (rao_Outbound (ra_BypassOptions a)) ""); cbn; [done|]. split; [done|]. intros _.
    eexists. split; [done|]. cbn. by apply negb_true_iff, String.eqb_neq. }
  destruct (String.eqb k "reject"); [intros [= <-]; cbn; eauto|]. destruct (String.eqb k "hijack-dns"); [intros [= <-]; cbn; eauto|]. cbn [orb].
  destruct (String.eqb k "sniff") eqn:E6; [apply String.eqb_eq in E6 as ->; by intros (o & _ & [= <-])%bind_Ok|].
  destruct (String.eqb k "resolve"); [by intros [= <-]|done].
Qed.

Lemma collect_grows rules md outs trans : ∀ x, x ∈ outs → x ∈ (collectRuleReferences rules md outs trans).1.2.
Proof using.
  revert outs trans. induction rules as [|o rules IH]; intros outs trans x Hx; cbn [collectRuleReferences]; [done|].
  case_match; [by apply IH|]. destruct (actionReferences (ruleActionOf o)) as [[out tr] final]. case_match; [cbn; apply elem_of_app; by left|].
  apply IH, elem_of_app. by left.
Qed.

(** A rule the loop selects names a referenced outbound; when it selects none, the
    default outbound is not shadowed. *)
Lemma matchRule_loop_referenced raw rules i s selected s' outs trans :
  Forall2 built_from raw rules → Forall (λ o, grounded o = true) raw → ignoreDst (ctx (ms_meta s)) = false →
  matchRule_loop E now i rules s = Ok (selected, s', None) →
  match selected with
  | None => (collectRuleReferences raw mode outs trans).1.1 = false
  | Some (_, r) =>
      match Rule_Action r with
      | Some (RuleActionRoute out _) => out ∈ (collectRuleReferences raw mode outs trans).1.2
      | Some (RuleActionBypass out _) => out ≠ EmptyString → out ∈ (collectRuleReferences raw mode outs trans).1.2
      | _ => True
      end
  end.
Proof.
  intros Hb Hg. revert i s outs trans. induction Hb as [|o r raw rules Ho _ IH]; intros i s outs trans Hi; cbn [matchRule_loop collectRuleReferences]; [by intros [= <- _]|].
  inversion Hg as [|? ? Hgo Hgr]; subst. specialize (IH Hgr). destruct (Match_reset E r _ Hi) as (c & Hm & _ & Hci). rewrite Hm.
  assert (Hv : keeps_verdict (holds (env_rt E false) env0 r) (evaluateRule mode o)).
  { destruct Ho as (r0 & Hr0 & Hr). by eapply evaluateRule_keeps. }
  destruct (references_action _ _ (built_action o r Hgo Ho)) as [Hout Hfin]. destruct (actionReferences (ruleActionOf o)) as [[out tr] final]. cbn in Hout, Hfin.
  destruct (holds _ env0 r _) eqn:Hh; cbn [negb].
  - rewrite bool_decide_eq_false_2 by (intros Hn; rewrite Hn in Hv; by rewrite Hv in Hh). intros Hrun. cbv zeta in Hrun.
    apply bind_Ok in Hrun as ([s1 fatal] & Hact & Hrun). destruct fatal; [done|].
    assert (Hi1 : ignoreDst (ctx (ms_meta s1)) = false).
    { apply runAction_cache in Hact. unfold ignoreDst. rewrite Hact. destruct (routeOptionsOf _); cbn; rewrite ?applyRouteOptions_cache, ctx_on_ctx; done. }
    destruct (Rule_Action r) as [a|] eqn:Ha; [|done]. destruct (finalAction a) eqn:Hf.
    + injection Hrun as <- _. rewrite Ha. destruct a; try done; [|intros Hne]; destruct (final && bool_decide (evaluateRule mode o = staticMatchAlways)).
      all: try apply collect_grows; cbn; apply elem_of_app; right; rewrite Hout by done; by left.
    + assert (final = false) as ->. { destruct final; [|done]. destruct (Hfin eq_refl) as (b & [= <-] & Hb). congruence. }
      cbn [andb]. by eapply IH.
  - intros Hrun. assert (Hi1 : ignoreDst (ctx (ms_meta (with_meta (on_ctx (λ _, c) (ms_meta s)) s))) = false) by (cbn; by rewrite ctx_on_ctx).
    assert (Hna : evaluateRule mode o ≠ staticMatchAlways) by (intros Hn; rewrite Hn in Hv; by rewrite Hv in Hh).
    case_bool_decide; [by eapply IH|]. rewrite (bool_decide_eq_false_2 (evaluateRule mode o = staticMatchAlways)) by done. rewrite andb_false_r. by eapply IH.
Qed.
End loop.

(** ** What update does *)

Section update.
Context {EX : External} (e : RefEnv) (m : ReferenceManager).

(** The effects [l] and the table [k] say of each of [kind] whether it is in [used]. *)
Definition told (kind : bool) (used : list string) (nodes : list Referenced) (k : gmap (bool * string) bool) (l : list refEffect) : Prop :=
  (∀ tag keep, SetKeepIdle kind tag keep ∈ l → keep = bool_decide (tag ∈ used)) ∧
  (∀ r, r ∈ nodes → rd_Keeper r = true → k !! (kind, rd_Tag r) = Some (bool_decide (rd_Tag r ∈ used))).

Lemma told_apply kind kind' previous used used' nodes tag k l k' l' :
  told kind used nodes k l → (kind = kind' → used' = used) → applyKeepIdle previous kind' tag (bool_decide (tag ∈ used')) (k, l) = (k', l') →
  told kind used nodes k' l' ∧ k' !! (kind', tag) = Some (bool_decide (tag ∈ used')).
Proof.
  intros [H1 H2] Hk [= <- <-]. split; [|by rewrite lookup_insert_eq]. split.
  - intros tag' keep [Hin|Hin]%elem_of_app; [by eapply H1|]. case_bool_decide; [by apply elem_of_nil in Hin|].
    apply list_elem_of_singleton in Hin. injection Hin as -> -> ->. by rewrite Hk.
  - intros r Hr Hkeep. destruct (decide ((kind, rd_Tag r) = (kind', tag))) as [Heq|Hne].
    + injection Heq as <- <-. rewrite lookup_insert_eq. by rewrite Hk.
    + rewrite lookup_insert_ne by done. by apply H2.
Qed.
Lemma told_snoc kind used nodes k l r :
  told kind used nodes k l → (rd_Keeper r = true → k !! (kind, rd_Tag r) = Some (bool_decide (rd_Tag r ∈ used))) → told kind used (nodes ++ [r]) k l.
Proof.
  intros [H1 H2] Hr. split; [done|]. intros r' [Hin|Hin]%elem_of_app; [by apply H2|]. apply list_elem_of_singleton in Hin as ->. done.
Qed.

Lemma outbounds_told used nodes : let '(k, l) := fold_left (updateOutbound (rm_keepIdle m) used) nodes (∅, []) in told true used nodes k l.
Proof.
  induction nodes as [|r nodes IH] using rev_ind; [split; [by intros ? ? ?%elem_of_nil|by intros ? ?%elem_of_nil]|].
  rewrite fold_left_app. cbn [fold_left]. destruct (fold_left _ nodes _) as [k l]. unfold updateOutbound. destruct (rd_Keeper r) eqn:Hr; [|apply told_snoc; [done|congruence]].
  destruct (applyKeepIdle _ true (rd_Tag r) _ (k, l)) as [k' l'] eqn:Ha. destruct (told_apply true true _ used used nodes _ _ _ _ _ IH (λ _, eq_refl) Ha).
  by apply told_snoc.
Qed.
Lemma transports_told usedO nodesO usedT nodes x :
  let '(k, l) := x in told true usedO nodesO k l →
  let '(k', l', _) := fold_left (updateTransport m usedT) nodes (x, ∅) in told true usedO nodesO k' l'.
Proof.
  destruct x as [k l]. intros H. induction nodes as [|r nodes IH] using rev_ind; [done|]. rewrite fold_left_app. cbn [fold_left].
  destruct (fold_left _ nodes _) as [[k1 l1] unref]. cbn [updateTransport]. destruct (rd_Keeper r).
  - destruct (applyKeepIdle _ false (rd_Tag r) _ (k1, l1)) as [k' l'] eqn:Ha. by eapply (told_apply true false) in Ha as [? _].
  - case_bool_decide; [done|]. destruct IH as [H1 H2]. split; [|done]. intros tag keep [Hin|Hin]%elem_of_app; [by eapply H1|].
    destruct (rm_unreferencedTransports m); [case_bool_decide|]; set_solver.
Qed.

(** [update] always ends; it tells each outbound whether it is in use, and what is
    in use is what can be reached from the queue. *)
Lemma update_spec :
  ∃ outbounds transports m' effects, update e m = Some (m', effects) ∧ references e m = Some (outbounds, transports) ∧
    told true outbounds (re_Outbounds e) (rm_keepIdle m') effects ∧
    (∀ t, t ∈ transports ↔ reach (transportNext <$> re_Transport e) (queues e m).2 t) ∧
    ∀ t, t ∈ outbounds ↔ reach (outboundNext <$> re_Outbound e)
      ((queues e m).1 ++ (transports ≫= λ tag, match re_Transport e !! tag ≫= rd_References with Some l => l | None => [] end)) t.
Proof.
  unfold update, references. destruct (queues e m) as [outboundQueue transportQueue]. cbv beta iota zeta. cbn [fst snd].
  destruct (visit_reach (transportNext <$> re_Transport e) transportQueue) as (transports & -> & Ht).
  set (queue := outboundQueue ++ _). destruct (visit_reach (outboundNext <$> re_Outbound e) queue) as (outbounds & -> & Ho).
  pose proof (outbounds_told outbounds (re_Outbounds e)) as H1. destruct (fold_left _ (re_Outbounds e) _) as [k l].
  pose proof (transports_told outbounds (re_Outbounds e) transports (re_Transports e) (k, l) H1) as H2.
  destruct (fold_left _ (re_Transports e) _) as [[k' l'] unref]. by eexists outbounds, transports, _, l'.
Qed.
End update.

(** ** What an outbound has heard *)

(** The last value [SetKeepIdleConnections] of the outbound was called with. *)
Definition heard (effects : list refEffect) (tag : string) : option bool :=
  last (omap (λ x, match x with SetKeepIdle true t keep => if String.eqb t tag then Some keep else None | _ => None end) effects).

Lemma heard_app l k tag : heard (l ++ k) tag = match heard k tag with Some b => Some b | None => heard l tag end.
Proof. unfold heard. by rewrite omap_app, last_app. Qed.
Lemma heard_one t keep tag : heard [SetKeepIdle true t keep] tag = if String.eqb t tag then Some keep else None.
Proof. unfold heard. cbn. by destruct (String.eqb t tag). Qed.

Section heard.
Context {EX : External}.

(** The table says what was heard, [past] being the effects of earlier updates. *)
Definition records (past : list refEffect) (k : gmap (bool * string) bool) : Prop := ∀ tag b, k !! (true, tag) = Some b → heard past tag = Some b.

Lemma outbounds_record previous past used nodes :
  records past previous → let '(k, l) := fold_left (updateOutbound previous used) nodes (∅, []) in
  records (past ++ l) k ∧ ∀ tag b, heard l tag = Some b → b = bool_decide (tag ∈ used).
Proof.
  intros Hp. induction nodes as [|r nodes IH] using rev_ind; [split; [by intros tag b; rewrite lookup_empty|done]|].
  rewrite fold_left_app. cbn [fold_left]. destruct (fold_left _ nodes _) as [k l]. destruct IH as [Hk Hl]. unfold updateOutbound. destruct (rd_Keeper r); [|done].
  cbn [applyKeepIdle]. set (keep := bool_decide (rd_Tag r ∈ used)).
  assert (Hl' : ∀ tag b, heard (l ++ (if bool_decide (previous !! (true, rd_Tag r) = Some keep) then [] else [SetKeepIdle true (rd_Tag r) keep])) tag = Some b → b = bool_decide (tag ∈ used)).
  { intros tag b. rewrite heard_app. case_bool_decide; [by apply Hl|]. rewrite heard_one. destruct (String.eqb_spec (rd_Tag r) tag) as [<-|]; [by intros [= <-]|apply Hl]. }
  split; [|done]. intros tag b. destruct (decide (rd_Tag r = tag)) as [<-|Hne].
  - rewrite lookup_insert_eq. intros [= <-]. rewrite heard_app. destruct (heard (l ++ _) (rd_Tag r)) as [b|] eqn:Hb; [f_equal; by rewrite (Hl' _ _ Hb)|].
    revert Hb. case_bool_decide as Hprev; [intros _; by apply Hp|]. by rewrite heard_app, heard_one, String.eqb_refl.
  - rewrite lookup_insert_ne by congruence. intros Hb%Hk. rewrite app_assoc, heard_app. case_bool_decide; [done|]. rewrite heard_one.
    by apply String.eqb_neq in Hne as ->.
Qed.
Lemma transports_record m past used nodes x :
  records (past ++ x.2) x.1 → let '(k, l, _) := fold_left (updateTransport m used) nodes (x, ∅) in records (past ++ l) k.
Proof.
  destruct x as [k l]. intros H. induction nodes as [|r nodes IH] using rev_ind; [done|]. rewrite fold_left_app. cbn [fold_left].
  destruct (fold_left _ nodes _) as [[k1 l1] unref]. cbn [updateTransport].
  assert (Hsame : ∀ effs tag, effs = [] ∨ effs = [ResetTransport (rd_Tag r)] ∨ (∃ keep, effs = [SetKeepIdle false (rd_Tag r) keep]) → heard (past ++ l1 ++ effs) tag = heard (past ++ l1) tag).
  { intros effs tag Heffs. rewrite app_assoc, heard_app. by destruct Heffs as [->|[->|[keep ->]]]. }
  destruct (rd_Keeper r).
  - cbn [applyKeepIdle]. intros tag b. rewrite lookup_insert_ne by done. intros Hb%IH. rewrite Hsame by (case_bool_decide; eauto). done.
  - case_bool_decide; [done|]. intros tag b Hb%IH. rewrite Hsame; [done|]. destruct (rm_unreferencedTransports m); [case_bool_decide|]; auto.
Qed.
Lemma update_records e m m' past effects : records past (rm_keepIdle m) → update e m = Some (m', effects) → records (past ++ effects) (rm_keepIdle m').
Proof.
  intros Hp. unfold update. destruct (references e m) as [[outs trans]|]; [|done].
  pose proof (outbounds_record (rm_keepIdle m) past outs (re_Outbounds e) Hp) as H1. destruct (fold_left _ (re_Outbounds e) _) as [k l]. destruct H1 as [H1 _].
  pose proof (transports_record m past trans (re_Transports e) (k, l) H1) as H2. destruct (fold_left _ (re_Transports e) _) as [[k' l'] unref].
  by intros [= <- <-].
Qed.

(** However often it runs: the table holds what each outbound was told last. *)
Lemma loop_records envs : ∀ m past, records past (rm_keepIdle m) →
  ∃ m' log, loop envs m = Some (m', log) ∧ records (past ++ concat log) (rm_keepIdle m') ∧
    rm_rules m' = rm_rules m ∧ rm_staticOutbounds m' = rm_staticOutbounds m ∧ length log = length envs.
Proof.
  induction envs as [|e envs IH]; intros m past Hp; cbn [loop]; [exists m, []; cbn; by rewrite app_nil_r|].
  destruct (update_spec e m) as (outs & trans & m1 & effects & Hu & _). rewrite Hu. pose proof (update_records _ _ _ _ _ Hp Hu) as H1.
  destruct (IH m1 _ H1) as (m' & log & -> & Hr & Hrules & Hstatic & Hlen). exists m', (effects :: log).
  assert (rm_rules m1 = rm_rules m ∧ rm_staticOutbounds m1 = rm_staticOutbounds m) as [E1 E2].
  { unfold update in Hu. repeat case_match; by simplify_eq. }
  cbn. rewrite app_assoc, Hlen, Hrules, Hstatic. done.
Qed.
Lemma loop_app envs e m : loop (envs ++ [e]) m =
  match loop envs m with
  | None => None
  | Some (m1, log) => match update e m1 with None => None | Some (m', effects) => Some (m', log ++ [effects]) end
  end.
Proof.
  revert m. induction envs as [|e' envs IH]; intros m; cbn [loop app]; [by destruct (update e m) as [[]|]|].
  destruct (update e' m) as [[m1 effects]|]; [|done]. rewrite IH. destruct (loop envs m1) as [[m2 log]|]; [|done]. by destruct (update e m2) as [[]|].
Qed.
End heard.

(** ** Routing and references *)

(** An outbound the managers know by its tag; the references of a group hold what
    it can select. *)
Inductive known (e : RefEnv) : AnOutbound → Prop :=
| known_plain tag networks flow : tag ≠ EmptyString → is_Some (re_Outbound e !! tag) → known e (PlainOutbound tag networks flow)
| known_group tag networks per selected r :
    tag ≠ EmptyString → re_Outbound e !! tag = Some r →
    (∀ n o, selected n = Some o → Outbound_Tag o ∈ outboundNext r ∧ known e o) → known e (GroupOutbound tag networks per selected).

(** The router and the manager of references see the same outbounds and mode. *)
Record coherent {EX : External} (E : RouterEnv) (e : RefEnv) : Prop := {
  co_mode : re_Mode e = rt_ClashMode (env_rt E false);
  co_outbounds tag o : outbounds E tag = Some o → Outbound_Tag o = tag ∧ known e o;
  co_default : re_DefaultOutbound e = Some (Outbound_Tag (outboundDefault E)) ∧ known e (outboundDefault E)
}.

Lemma known_here e o : known e o → Outbound_Tag o ≠ EmptyString ∧ is_Some ((outboundNext <$> re_Outbound e) !! Outbound_Tag o).
Proof. destruct 1; rewrite lookup_fmap; cbn; (split; [done|]); [by apply fmap_is_Some|]. rewrite H0. by eexists. Qed.

Lemma chain_reached e up queue network o : ∀ chain,
  known e o → reach (outboundNext <$> re_Outbound e) queue (Outbound_Tag o) → resolveOutbound up o network = Ok chain →
  ∀ x, x ∈ chain → reach (outboundNext <$> re_Outbound e) queue (Outbound_Tag x).
Proof.
  induction o as [tag networks flow|tag networks per selected IH] using AnOutbound_ind'; intros chain Hk Hr; cbn [resolveOutbound].
  - case_match; [|done]. intros [= <-] x ->%list_elem_of_singleton. done.
  - destruct (selected network) as [next|] eqn:Hn; [|done]. intros (rest & Hrest & [= <-])%bind_Ok x [->|Hx]%elem_of_cons; [done|].
    inversion Hk as [|? ? ? ? r Htag Hl Hsel]; subst. destruct (Hsel network next Hn) as [Hin Hkn]. destruct (known_here e next Hkn).
    eapply (IH network next Hn rest Hkn); [|done|done]. eapply reach_next; [exact Hr| |exact Hin|done|done]. cbn [Outbound_Tag]. by rewrite lookup_fmap, Hl.
Qed.
Lemma cut_elem chain x : x ∈ cutPerConnection chain → x ∈ chain.
Proof.
  induction chain as [|o rest IH]; [done|]. cbn [cutPerConnection].
  destruct rest as [|y rest], o as [| ? ? []]; rewrite ?list_elem_of_singleton, ?elem_of_cons in *; naive_solver.
Qed.

(** The servers in the queue do not matter to the outbounds. *)
Lemma collect_same {EX : External} raw md outs t t' : (collectRuleReferences raw md outs t).1 = (collectRuleReferences raw md outs t').1.
Proof.
  revert outs t t'. induction raw as [|o raw IH]; intros outs t t'; cbn [collectRuleReferences]; [done|].
  destruct (bool_decide (evaluateRule md o = staticMatchNever)); [apply IH|].
  destruct (actionReferences (ruleActionOf o)) as [[a b] c], (c && _); [done|apply IH].
Qed.

Section routing.
Context {EX : External} {SL : SniffLib} {QC : QuicCrypto} (E : RouterEnv) (now : Z) {FL : FoldLaws} {RL : RuntimeLaws (env_rt E false)}.
Context (sv : Services) (PlatformSupported : bool) (e : RefEnv) (rm_ : ReferenceManager) (rules : list Rule).
Context (Hco : coherent E e) (Hbuilt : Forall2 (built_from sv PlatformSupported) (rm_rules rm_) rules).
Context (Hground : Forall (λ o, grounded o = true) (rm_rules rm_)).

Lemma collect_outbounds trans x :
  x ∈ (collectRuleReferences (rm_rules rm_) (default EmptyString (re_Mode e)) (rm_staticOutbounds rm_) trans).1.2 → x ∈ (queues e rm_).1.
Proof using.
  unfold queues. destruct (collectDNSRuleReferences _ _ _) as [sh tr]. set (t' := (_ ++ [re_DomainResolver e])). rewrite (collect_same _ _ _ trans t').
  destruct (collectRuleReferences _ _ _ t') as [[s outs] t2]. cbn. intros Hx. apply elem_of_app. left. destruct s; cbn; [done|]. apply elem_of_app. by left.
Qed.
Lemma collect_default trans tag :
  (collectRuleReferences (rm_rules rm_) (default EmptyString (re_Mode e)) (rm_staticOutbounds rm_) trans).1.1 = false →
  re_DefaultOutbound e = Some tag → tag ∈ (queues e rm_).1.
Proof using.
  unfold queues. destruct (collectDNSRuleReferences _ _ _) as [sh tr]. set (t' := (_ ++ [re_DomainResolver e])). rewrite (collect_same _ _ _ trans t').
  destruct (collectRuleReferences _ _ _ t') as [[s outs] t2]. cbn. intros -> ->. cbn. rewrite !elem_of_app, list_elem_of_singleton. auto.
Qed.

Lemma selectOutbound_hands_nothing kind rs selected s chain meta' s' nat_ rs' :
  selectOutbound E now kind rs selected s ≠ Ok (inl (Handled chain meta' s' nat_), rs').
Proof using.
  unfold selectOutbound. cbv zeta. destruct selected as [[i r]|]; [|done]. destruct (Rule_Action r) as [[]|]; try done.
  all: repeat case_match; try done. intros ([? ?] & _ & [=])%bind_Ok.
Qed.

Lemma routeMatched_referenced network kind meta conn chain meta' s nat_ rules' :
  ignoreDst (ctx meta) = false → routeMatched E now network kind rules meta conn = Ok (Handled chain meta' s nat_, rules') →
  ∀ queue o, o ∈ chain → reach (outboundNext <$> re_Outbound e) ((queues e rm_).1 ++ queue) (Outbound_Tag o).
Proof using All.
  intros Hi. unfold routeMatched. intros ([[selected s1] fatal] & Hm & Hrest)%bind_Ok queue. destruct fatal; [done|].
  unfold matchRule in Hm. destruct (prepareMatchMetadata E meta) as [meta1| |] eqn:Hp; [|done..].
  assert (Hi1 : ignoreDst (ctx meta1) = false) by (unfold ignoreDst; by rewrite (prepareMatchMetadata_cache E meta meta1 Hp)).
  pose proof (matchRule_loop_referenced E now sv PlatformSupported (rm_rules rm_) rules 0 (mkMatch meta1 conn [] []) selected s1 (rm_staticOutbounds rm_) [] Hbuilt Hground Hi1 Hm) as Hsel.
  rewrite <- (co_mode E e Hco) in Hsel. apply bind_Ok in Hrest as ([decided rules1] & Hd & Hrest).
  assert (Hpick : ∀ o, decided = inr (Some o) → known e o ∧ Outbound_Tag o ∈ (queues e rm_).1).
  { intros o ->. unfold selectOutbound in Hd. destruct selected as [[i r]|].
    - destruct (Rule_Action r) as [[]|]; try done.
      + destruct (outbounds E outbound) as [o1|] eqn:Ho; [|done]. injection Hd as <- _. destruct (co_outbounds E e Hco _ _ Ho) as [<- Hk].
        split; [done|]. by eapply collect_outbounds.
      + destruct (String.eqb_spec outbound ""); [done|]. destruct (outbounds E outbound) as [o1|] eqn:Ho; [|done]. injection Hd as <- _.
        destruct (co_outbounds E e Hco _ _ Ho) as [<- Hk]. split; [done|]. by eapply collect_outbounds, Hsel.
      + case_match; [done|]. apply bind_Ok in Hd as ([? ?] & _ & [=]).
    - injection Hd as <- _. destruct (co_default E e Hco) as [Hdef Hk]. split; [done|]. by eapply collect_default. }
  destruct decided as [outcome|o]; [injection Hrest as -> _; by apply selectOutbound_hands_nothing in Hd|].
  apply bind_Ok in Hrest as (outcome & Hh & [= -> _]). unfold handOver in Hh. destruct o as [o|]; [|done].
  destruct (Hpick o eq_refl) as [Hk Hq]. destruct (known_here e o Hk) as [Hne Hsome].
  destruct (resolveOutboundLx _ o network) as [chain1| |] eqn:Hres; [|done..]. cbv zeta in Hh. destruct (lxtrace_Routed _ _ _ _); [done|]. injection Hh as <- _ _ _.
  unfold resolveOutboundLx in Hres. apply bind_Ok in Hres as (full & Hfull & [= <-]). intros x Hx%cut_elem.
  eapply chain_reached; [exact Hk| |exact Hfull|exact Hx]. apply reach_here; [apply elem_of_app; by left|done|done].
Qed.
Lemma routed_referenced meta stream packets chain meta' s nat_ rules' :
  ignoreDst (ctx meta) = false →
  routeConnection E now rules meta stream = Ok (Handled chain meta' s nat_, rules') ∨ routePacketConnection E now rules meta packets = Ok (Handled chain meta' s nat_, rules') →
  ∀ queue o, o ∈ chain → reach (outboundNext <$> re_Outbound e) ((queues e rm_).1 ++ queue) (Outbound_Tag o).
Proof using All.
  intros Hfresh Hrouted queue. unfold routeConnection, routePacketConnection, routeDetour in Hrouted. cbv zeta in Hrouted.
  assert (Hfresh' : ∀ network, ignoreDst (ctx (on_ctx (set_Network network) meta)) = false).
  { intros network. rewrite ctx_on_ctx. by destruct (ctx meta). }
  destruct (negb _) in Hrouted; [destruct Hrouted; repeat case_match; done|].
  destruct Hrouted as [Hr|Hr]; [destruct (checkMagic E _) in Hr; [done|]|]; destruct (isTunDNS _) in Hr; try done.
  all: intros o Ho; by eapply routeMatched_referenced in Hr.
Qed.
End routing.

(** C11: what is routed to is kept: take the manager as it was made, any updates it
    has run - each of them ends, whatever cycles the references have - and one more
    in the mode and with the outbounds the router sees.  When the router then hands
    a connection to a chain of outbounds, the last thing each of them that keeps
    idle connections has been told is to keep them.  The rules are built from the
    options the manager reads, so its static evaluation of their modes must agree
    with what matching them does. *)
Theorem routing_uses_referenced {EX : External} {SL : SniffLib} {QC : QuicCrypto} (E : RouterEnv) (now : Z)
    (FL : FoldLaws) (RL : RuntimeLaws (env_rt E false)) (sv : Services) (PlatformSupported : bool)
    (envs : list RefEnv) (e : RefEnv) (raw : list RuleOptions) (dnsRules : list DNSRuleOptions) (detour : option string)
    (resolvers endpoints : list (option string))
    (rules rules' : list Rule) (meta meta' : RouteMetadata) (stream : list readEvent) (packets : list packetEvent)
    (chain : list AnOutbound) (conn : connection) (nat_ : option (Socksaddr * Socksaddr))
    (Hco : coherent E e) (Hbuilt : Forall2 (built_from sv PlatformSupported) raw rules)
    (Hground : Forall (λ o, grounded o = true) raw) (Hfresh : ignoreDst (ctx meta) = false)
    (Hrouted : routeConnection E now rules meta stream = Ok (Handled chain meta' conn nat_, rules') ∨
               routePacketConnection E now rules meta packets = Ok (Handled chain meta' conn nat_, rules')) :
  ∃ m log, loop (envs ++ [e]) (NewReferenceManager raw dnsRules detour resolvers endpoints) = Some (m, log) ∧
    ∀ o r, o ∈ chain → r ∈ re_Outbounds e → rd_Keeper r = true → rd_Tag r = Outbound_Tag o → heard (concat log) (rd_Tag r) = Some true.
Proof.
  set (m0 := NewReferenceManager _ _ _ _ _). destruct (loop_records envs m0 []) as (m & log & Hl & Hrec & Hrules & _); [by intros tag b; cbn; rewrite lookup_empty|].
  destruct (update_spec e m) as (outs & trans & m' & effects & Hu & _ & [_ Hkept] & _ & Hreach).
  exists m', (log ++ [effects]). rewrite loop_app, Hl, Hu. split; [done|]. intros o r Ho Hr Hk Ht. rewrite concat_app. cbn [concat]. rewrite app_nil_r.
  apply (update_records _ _ _ _ _ Hrec Hu). rewrite (Hkept r Hr Hk), Ht. f_equal. apply bool_decide_eq_true, Hreach.
  change raw with (rm_rules m0) in Hbuilt, Hground. rewrite <- Hrules in Hbuilt, Hground. by eapply routed_referenced.
Qed.

(** ** Witness *)

#[export] Instance demo_fold : FoldLaws.
Proof. split; [apply String.eqb_sym|]. by intros s ->%String.eqb_eq. Qed.

(** Everything to "other" in the mode "global", and example.org to the proxy. *)
Definition global_rule : RuleOptions :=
  mkRuleOptions "default" (set_ClashMode "global" (RawDefaultRule_zero false))
    (mkRuleAction "route" (mkRouteActionOptions "other" RawRouteOptions_zero) RawRouteOptions_zero
      RouteActionOptions_zero (mkRejectOptions "" false) (mkSniffOptions [] 0) (mkResolveOptions "" 0 0 false false None None))
    (mkLogicalOptions "" [] false) RuleActionOptions_zero.
Definition demo_manager : ReferenceManager := NewReferenceManager [global_rule; demo_domain "example.org" demo_action] [] None [] [].
Definition demo_node (tag : string) : Referenced := mkReferenced tag [] None true.
Definition demo_refs : RefEnv :=
  mkRefEnv (Some "rule"%string) (demo_node <$> ["proxy"; "direct"; "other"]%string)
    (list_to_map ((λ tag, (tag, demo_node tag)) <$> ["proxy"; "direct"; "other"]%string)) (Some "direct"%string) [] [] [] ∅ None "".
Definition no_services : Services := mkServices _ (λ _, None) (λ _, None) (λ _, None).
Definition started (o : RuleOptions) : result Rule := r ← NewRule true true o; Rule_Start no_services r.
Definition demo_started : list Rule :=
  match forM started (rm_rules demo_manager) with Ok l => l | _ => [] end.

Lemma demo_coherent : coherent demo_env demo_refs.
Proof.
  split; [done| |].
  - intros tag o. cbn. destruct (String.eqb_spec tag "proxy") as [->|]; [|done]. intros [= <-]. split; [done|]. by constructor.
  - split; [done|]. by constructor.
Qed.
Lemma demo_built_from : Forall2 (built_from no_services true) (rm_rules demo_manager) demo_started.
Proof.
  assert (H : is_ok (forM started (rm_rules demo_manager)) = true) by (vm_compute; reflexivity). unfold demo_started.
  destruct (forM started (rm_rules demo_manager)) as [l| |] eqn:Hl; [|done..]. clear H.
  apply forM_Forall2 in Hl. eapply Forall2_impl; [exact Hl|]. intros o r (r0 & Hr0 & Hr)%bind_Ok. by exists r0.
Qed.

Definition demo_routed : result (routeOutcome * list Rule) :=
  @routeConnection demo demo_lib plain_crypto demo_env 0 demo_started (demo_route (mkSocksaddr AddrZero 443 "example.org")) [].
Definition routed_tags (x : result (routeOutcome * list Rule)) : list string :=
  match x with Ok (Handled chain _ _ _, _) => Outbound_Tag <$> chain | _ => [] end.

(** The mode was "global" when the manager started, so the proxy was told that it
    is unused; now the mode is "rule", the connection goes to the proxy, and the
    proxy has been told to keep its connections. *)
Definition global_refs : RefEnv :=
  mkRefEnv (Some "global"%string) (re_Outbounds demo_refs) (re_Outbound demo_refs) (Some "direct"%string) [] [] [] ∅ None "".

Lemma routing_uses_referenced_witness :
  routed_tags demo_routed = ["proxy"%string] ∧
  (option_map (λ x, heard (concat (snd x)) "proxy") (loop [global_refs] demo_manager) = Some (Some false)) ∧
  ∃ m log, loop [global_refs; demo_refs] demo_manager = Some (m, log) ∧ heard (concat log) "proxy" = Some true.
Proof.
  assert (Ht : routed_tags demo_routed = ["proxy"%string]) by (vm_compute; reflexivity). split; [exact Ht|]. split; [vm_compute; reflexivity|].
  assert (Hg : Forall (λ o, grounded o = true) (rm_rules demo_manager)) by (repeat constructor).
  destruct demo_routed as [[[| | | | |chain meta' s nat_] rules']| |] eqn:Hr; try discriminate Ht.
  destruct (@routing_uses_referenced demo demo_lib plain_crypto demo_env 0 demo_fold demo_laws no_services true [global_refs] demo_refs
    (rm_rules demo_manager) [] None [] [] demo_started rules'
    (demo_route (mkSocksaddr AddrZero 443 "example.org")) meta' [] [] chain s nat_ demo_coherent demo_built_from
    Hg eq_refl (or_introl Hr)) as (m' & log & Hu & Hin).
  exists m', log. split; [exact Hu|]. cbn in Ht. destruct chain as [|o [|]]; try discriminate Ht. injection Ht as Ht.
  apply (Hin o (demo_node "proxy")); [by left| |done|by rewrite Ht]. by left.
Defined.

(** ** An inverted rule without conditions *)

(** [Match] answers true for a rule without items, inverted or not, while
    [evaluateRule] says of an inverted one that it never matches: the outbound it
    routes everything to is told that it is unused. *)
Definition inverted_rule : RuleOptions :=
  mkRuleOptions "default" (RawDefaultRule_zero true) demo_action (mkLogicalOptions "" [] false) RuleActionOptions_zero.
Lemma empty_inverted_misjudged :
  evaluateRule "rule" inverted_rule = staticMatchNever ∧
  (∀ meta, (r ← started inverted_rule; Ok (fst (Match demo_rt r meta))) = Ok true) ∧
  option_map snd (update demo_refs (NewReferenceManager [inverted_rule] [] None [] [])) =
    Some [SetKeepIdle true "proxy" false; SetKeepIdle true "direct" true; SetKeepIdle true "other" false].
Proof. split; [vm_compute; reflexivity|]. split; [|vm_compute; reflexivity]. intros meta. reflexivity. Qed.
