(* ===== verification/Lifecycle.v ===== *)
(** The life of components ([adapter/lifecycle.go]): a scope collects what has to be
    undone, has a scope of its own for each component it starts, and undoes all of
    it, last things first, when it is closed.

    What a component does with the scope it is given is a list of actions; a run is
    sequential.  The monitors and the log of elapsed times are left out. *)

From S2P Require Import Prelude.

(** [StartStage] and its names. *)
Inductive StartStage : Type := StartStateInitialize | StartStateStart | StartStatePostStart | StartStateStarted.
#[export] Instance StartStage_eq_dec : EqDecision StartStage.
Proof. solve_decision. Defined.
Definition ListStartStages : list StartStage := [StartStateInitialize; StartStateStart; StartStatePostStart; StartStateStarted].
Definition StartStage_String (s : StartStage) : string :=
  match s with
  | StartStateInitialize => "initialize"
  | StartStateStart => "start"
  | StartStatePostStart => "post-start"
  | StartStateStarted => "finish-start"
  end.

(** The [E] package (sing's exceptions) as [Close] uses it. *)
Class ErrorsLib : Type := {
  E_Expand : goerr → list goerr;
  E_Errors : list goerr → option goerr;
  E_IsClosed : goerr → bool;
  E_IsCanceled : goerr → bool
}.

(** [context.Canceled]. *)
Definition context_Canceled : goerr := ErrExternal "context canceled".

(** A clean-up is a function, known by a number, or the closing of the scope of a
    component, known by the number of the component: a component is in [children]
    exactly when its clean-up is in [cleanups]. *)
Inductive ScopeCleanup : Type :=
| CleanupFunc (id : nat)
| CleanupChild (name : string) (component : nat) (cancelled : bool) (cleanups : list ScopeCleanup).

(** [Scope]: whether its context is cancelled, and its clean-ups. *)
Record Scope : Type := mkScope { sc_cancelled : bool; sc_cleanups : list ScopeCleanup }.

(** [func NewScope(ctx, logger) *Scope]. *)
Definition NewScope : Scope := mkScope false [].
(** [func (s *Scope) Add(cleanup)]. *)
Definition Scope_Add (id : nat) (s : Scope) : Scope := mkScope (sc_cancelled s) (sc_cleanups s ++ [CleanupFunc id]).

(** [s.children[component]], and a change of that scope. *)
Definition childOf (component : nat) (c : ScopeCleanup) : option Scope :=
  match c with CleanupChild _ k cancelled cleanups => if bool_decide (k = component) then Some (mkScope cancelled cleanups) else None | CleanupFunc _ => None end.
Definition set_child (component : nat) (child : Scope) (c : ScopeCleanup) : ScopeCleanup :=
  match c with
  | CleanupChild name k _ _ => if bool_decide (k = component) then CleanupChild name k (sc_cancelled child) (sc_cleanups child) else c
  | CleanupFunc _ => c
  end.

(** [func (s *Scope) Start(name, component, stage) error]; [start] is the component's
    own [Start] on its scope. *)
Definition Scope_Start (name : string) (component : nat) (stage : StartStage) (start : Scope → Scope * option goerr) (s : Scope) : Scope * option goerr :=
  if sc_cancelled s then (s, Some context_Canceled)
  else
    let cleanups := match head (omap (childOf component) (sc_cleanups s)) with
      | Some _ => sc_cleanups s
      | None => sc_cleanups s ++ [CleanupChild name component false []]
      end in
    let '(child, err) := start (default NewScope (head (omap (childOf component) cleanups))) in
    (mkScope false (set_child component child <$> cleanups),
     match err with Some e => Some (ErrCause e (String.append (StartStage_String stage) (String.append " " name))) | None => None end).

Section close.
Context {EL : ErrorsLib} (result_of : nat → option goerr).

(** The errors of [Close] that are reported. *)
Definition closeErrors (errs : list (option goerr)) : option goerr :=
  E_Errors (filter (λ e, negb (E_IsClosed e) && negb (E_IsCanceled e))
    (concat ((λ o, match o with Some e => E_Expand e | None => [] end) <$> errs))).

(** One clean-up: the functions it calls, in order, and what it returns.  The
    inner function is [Close] of the scope of a component. *)
Fixpoint runCleanup (c : ScopeCleanup) : list nat * option goerr :=
  match c with
  | CleanupFunc id => ([id], result_of id)
  | CleanupChild name _ _ cleanups =>
      let done := reverse (runCleanup <$> cleanups) in
      (concat (fst <$> done), match closeErrors (snd <$> done) with Some e => Some (ErrCause e (String.append "close " name)) | None => None end)
  end.
(** [func (s *Scope) Close() error]: the closed scope, the functions called, and the
    error. *)
Definition Scope_Close (s : Scope) : Scope * list nat * option goerr :=
  let done := reverse (runCleanup <$> sc_cleanups s) in
  (mkScope true [], concat (fst <$> done), closeErrors (snd <$> done)).
End close.

(** What a component does with its scope. *)
Inductive scopeAction : Type :=
| ActAdd (id : nat)
| ActStart (name : string) (component : nat) (stage : StartStage) (acts : list scopeAction) (err : option goerr).

Fixpoint perform (a : scopeAction) (s : Scope) : Scope :=
  match a with
  | ActAdd id => Scope_Add id s
  | ActStart name component stage acts err => (Scope_Start name component stage (λ child, (fold_left (λ s a, perform a s) acts child, err)) s).1
  end.
Definition performs (acts : list scopeAction) (s : Scope) : Scope := fold_left (λ s a, perform a s) acts s.

(** ** What closing calls *)

Section ScopeCleanup_induction.
Context (P : ScopeCleanup → Prop) (Hfunc : ∀ id, P (CleanupFunc id))
  (Hchild : ∀ name component cancelled cleanups, Forall P cleanups → P (CleanupChild name component cancelled cleanups)).
Fixpoint ScopeCleanup_nested_ind (c : ScopeCleanup) : P c :=
  match c with
  | CleanupFunc id => Hfunc id
  | CleanupChild name component cancelled cleanups => Hchild name component cancelled cleanups
      ((fix go l := match l return Forall P l with [] => Forall_nil_2 _ | c :: l => Forall_cons_2 _ _ _ (ScopeCleanup_nested_ind c) (go l) end) cleanups)
  end.
End ScopeCleanup_induction.
Section scopeAction_induction.
Context (P : scopeAction → Prop) (Hadd : ∀ id, P (ActAdd id))
  (Hstart : ∀ name component stage acts err, Forall P acts → P (ActStart name component stage acts err)).
Fixpoint scopeAction_nested_ind (a : scopeAction) : P a :=
  match a with
  | ActAdd id => Hadd id
  | ActStart name component stage acts err => Hstart name component stage acts err
      ((fix go l := match l return Forall P l with [] => Forall_nil_2 _ | a :: l => Forall_cons_2 _ _ _ (scopeAction_nested_ind a) (go l) end) acts)
  end.
End scopeAction_induction.

(** The functions that clean-ups call, without their results. *)
Fixpoint called (c : ScopeCleanup) : list nat :=
  match c with CleanupFunc id => [id] | CleanupChild _ _ _ cleanups => concat (reverse (called <$> cleanups)) end.
Definition calledAll (l : list ScopeCleanup) : list nat := concat (reverse (called <$> l)).
Definition closing (s : Scope) : list nat := calledAll (sc_cleanups s).

Lemma runCleanup_called {EL : ErrorsLib} result_of c : (runCleanup result_of c).1 = called c.
Proof.
  induction c as [|name component cancelled cleanups IH] using ScopeCleanup_nested_ind; [done|]. cbn. rewrite fmap_reverse, <- list_fmap_compose. f_equal. f_equal.
  apply list_fmap_ext. intros i c Hc. exact (Forall_lookup_1 _ _ _ _ IH Hc).
Qed.
Lemma Close_closing {EL : ErrorsLib} result_of s : (Scope_Close result_of s).1 = (mkScope true [], closing s).
Proof.
  unfold Scope_Close, closing, calledAll. cbn. f_equal. rewrite fmap_reverse, <- list_fmap_compose. f_equal. f_equal.
  apply list_fmap_ext. intros i c _. apply runCleanup_called.
Qed.

(** ** Scopes that are not closed *)

(** No scope inside is cancelled and every component has one. *)
Definition component_of (c : ScopeCleanup) : option nat := match c with CleanupFunc _ => None | CleanupChild _ k _ _ => Some k end.
Fixpoint live (c : ScopeCleanup) : Prop :=
  match c with
  | CleanupFunc _ => True
  | CleanupChild _ _ cancelled cleanups =>
      cancelled = false ∧ NoDup (omap component_of cleanups) ∧ (fix go l := match l with [] => True | c :: l => live c ∧ go l end) cleanups
  end.
Definition open (s : Scope) : Prop := sc_cancelled s = false ∧ NoDup (omap component_of (sc_cleanups s)) ∧ Forall live (sc_cleanups s).

Lemma live_child name k cancelled cleanups : live (CleanupChild name k cancelled cleanups) ↔ open (mkScope cancelled cleanups).
Proof.
  unfold open. cbn. split; intros (? & ? & H); (split_and!; [done..|]).
  - induction cleanups as [|c l IH]; constructor; [apply H|]. apply IH; [|apply H]. cbn in *. destruct (component_of c); [by eapply NoDup_cons_1_2|done].
  - clear -H. induction H; done.
Qed.

(** Finding a component among the clean-ups. *)
Lemma childOf_some k c child : childOf k c = Some child → ∃ name, c = CleanupChild name k (sc_cancelled child) (sc_cleanups child).
Proof. destruct c as [|name k' cancelled cleanups]; cbn; [done|]. case_bool_decide; [|done]. intros [= <-]. subst. by exists name. Qed.
Lemma child_absent k l : k ∉ omap component_of l → omap (childOf k) l = [] ∧ ∀ child, set_child k child <$> l = l.
Proof.
  induction l as [|[id|name k' cancelled cleanups] l IH]; cbn; [done|by intros [-> Hs]%IH; split; [|intros child; rewrite Hs]|].
  intros [Hne Hk]%not_elem_of_cons. destruct (IH Hk) as [-> Hs]. rewrite bool_decide_false by congruence. split; [done|]. intros child. by rewrite Hs.
Qed.
Lemma child_present k l : NoDup (omap component_of l) → k ∈ omap component_of l →
  ∃ l1 name cancelled cleanups l2, l = l1 ++ CleanupChild name k cancelled cleanups :: l2 ∧ head (omap (childOf k) l) = Some (mkScope cancelled cleanups) ∧
    ∀ child, set_child k child <$> l = l1 ++ CleanupChild name k (sc_cancelled child) (sc_cleanups child) :: l2.
Proof.
  induction l as [|c l IH]; [by intros _ ?%elem_of_nil|]. destruct c as [id|name k' cancelled cleanups]; cbn.
  - intros Hnd Hin. destruct (IH Hnd Hin) as (l1 & name & cancelled & cleanups & l2 & -> & Hh & Hs).
    exists (CleanupFunc id :: l1), name, cancelled, cleanups, l2. split_and!; [done..|]. intros child. cbn. f_equal. apply Hs.
  - intros [Hk' Hnd]%NoDup_cons Hin. case_bool_decide as Heq.
    + subst k'. exists [], name, cancelled, cleanups, l. split_and!; [done..|]. intros child. cbn. f_equal. by apply child_absent.
    + apply elem_of_cons in Hin as [->|Hin]; [done|]. destruct (IH Hnd Hin) as (l1 & name1 & cancelled1 & cleanups1 & l2 & -> & Hh & Hs).
      exists (CleanupChild name k' cancelled cleanups :: l1), name1, cancelled1, cleanups1, l2. split_and!; [done..|]. intros child. cbn. f_equal. apply Hs.
Qed.

(** What starting a component does to an open scope: its scope, a new one at the end
    when it has none, is changed in its place. *)
Lemma Start_place name k stage f s : open s → ∃ l1 name' cleanups l2,
  (∀ child err, f (mkScope false cleanups) = (child, err) →
    (Scope_Start name k stage f s).1 = mkScope false (l1 ++ CleanupChild name' k (sc_cancelled child) (sc_cleanups child) :: l2)) ∧
  open (mkScope false cleanups) ∧
  (sc_cleanups s = l1 ++ CleanupChild name' k false cleanups :: l2 ∨ (cleanups = [] ∧ sc_cleanups s = l1 ∧ l2 = [] ∧ k ∉ omap component_of l1)).
Proof.
  destruct s as [cancelled l]. intros (Hc & Hnd & Hl). cbn in *. subst. unfold Scope_Start. cbn [sc_cancelled sc_cleanups].
  destruct (decide (k ∈ omap component_of l)) as [Hin|Hin].
  - destruct (child_present k l Hnd Hin) as (l1 & name' & cancelled & cleanups & l2 & -> & Hh & Hs). rewrite Hh, Hh. cbn [default].
    apply Forall_app in Hl as [_ [Hchild _]%Forall_cons]. apply live_child in Hchild as Hopen. destruct Hopen as (E & ? & ?). cbn in E. subst cancelled.
    exists l1, name', cleanups, l2. split_and!; [|done|by left]. intros child err Hf. cbn. rewrite Hf. cbn. by rewrite Hs.
  - destruct (child_absent k l Hin) as [Hh Hs]. rewrite Hh. cbn [head]. rewrite omap_app, Hh. cbn. rewrite bool_decide_true by done. cbn.
    exists l, name, [], []. split_and!; [|repeat constructor|by right]. intros child err Hf. rewrite Hf. cbn. rewrite fmap_app, Hs. cbn. by rewrite bool_decide_true by done.
Qed.

Lemma perform_open a : ∀ s, open s → open (perform a s).
Proof.
  induction a as [id|name k stage acts err IH] using scopeAction_nested_ind; intros s Hs; cbn [perform].
  { destruct Hs as (? & ? & ?). split_and!; cbn; [done|by rewrite omap_app, app_nil_r|]. apply Forall_app. by repeat constructor. }
  set (f := λ child, (fold_left _ acts child, err)). destruct (Start_place name k stage f s Hs) as (l1 & name' & cleanups & l2 & Heq & Hc & Hcase). rewrite (Heq _ _ eq_refl).
  assert (Hopen : open (fold_left (λ s a, perform a s) acts (mkScope false cleanups))).
  { clear f Heq Hcase. revert Hc. generalize (mkScope false cleanups). induction IH as [|a acts Ha _ IHl]; intros c Hc; [done|]. by apply IHl, Ha. }
  destruct Hs as (_ & Hnd & Hl). assert (Hch : live (CleanupChild name' k (sc_cancelled (fold_left (λ s a, perform a s) acts (mkScope false cleanups)))
    (sc_cleanups (fold_left (λ s a, perform a s) acts (mkScope false cleanups))))) by (apply live_child; by destruct (fold_left _ acts _)).
  split_and!; [done|..]; cbn; destruct Hcase as [E|(_ & E & -> & Hk)]; rewrite E in Hnd, Hl.
  - by rewrite omap_app in *.
  - rewrite omap_app. apply NoDup_app. split_and!; [done| |apply NoDup_singleton]. by intros x Hx ->%list_elem_of_singleton.
  - apply Forall_app in Hl as [? [_ ?]%Forall_cons]. apply Forall_app. split; [done|]. by constructor.
  - apply Forall_app. split; [done|]. by constructor.
Qed.
Lemma performs_open acts s : open s → open (performs acts s).
Proof. revert s. induction acts as [|a acts IH]; intros s Hs; [done|]. by apply IH, perform_open. Qed.

(** The functions that the actions add. *)
Fixpoint added (a : scopeAction) : list nat :=
  match a with ActAdd id => [id] | ActStart _ _ _ acts _ => concat (added <$> acts) end.

Lemma calledAll_app l1 l2 : calledAll (l1 ++ l2) = calledAll l2 ++ calledAll l1.
Proof. unfold calledAll. by rewrite fmap_app, reverse_app, concat_app. Qed.
Lemma calledAll_cons c l : calledAll (c :: l) = calledAll l ++ called c.
Proof. unfold calledAll. rewrite fmap_cons, reverse_cons, concat_app. cbn. by rewrite app_nil_r. Qed.

Lemma perform_adds a : ∀ s, open s → closing (perform a s) ≡ₚ closing s ++ added a.
Proof.
  induction a as [id|name k stage acts err IH] using scopeAction_nested_ind; intros s Hs; cbn [perform added].
  { destruct s as [b l]. unfold Scope_Add, closing. cbn [sc_cleanups]. rewrite calledAll_app. apply (Permutation_app_comm [id]). }
  set (f := λ child, (fold_left _ acts child, err)). destruct (Start_place name k stage f s Hs) as (l1 & name' & cleanups & l2 & Heq & Hc & Hcase). rewrite (Heq _ _ eq_refl).
  assert (Hadd : closing (performs acts (mkScope false cleanups)) ≡ₚ calledAll cleanups ++ concat (added <$> acts)).
  { clear f Heq Hcase. change (calledAll cleanups) with (closing (mkScope false cleanups)). revert Hc. generalize (mkScope false cleanups).
    induction IH as [|a acts Ha _ IHl]; intros c Hc; cbn; [by rewrite app_nil_r|].
    rewrite (IHl (perform a c)) by by apply perform_open. rewrite Ha by done. by rewrite <- app_assoc. }
  unfold closing at 1 2. cbn [sc_cleanups]. rewrite calledAll_app, calledAll_cons. cbn [called]. fold (performs acts (mkScope false cleanups)).
  change (concat (reverse (called <$> ?l))) with (calledAll l). unfold closing in Hadd. rewrite Hadd.
  destruct Hcase as [->|(-> & -> & -> & _)]; rewrite ?calledAll_app, ?calledAll_cons; cbn [called]; change (concat (reverse (called <$> ?l))) with (calledAll l).
  - solve_Permutation.
  - cbn. by rewrite (Permutation_app_comm (concat _)).
Qed.
Lemma performs_adds acts s : open s → closing (performs acts s) ≡ₚ closing s ++ concat (added <$> acts).
Proof.
  revert s. induction acts as [|a acts IH]; intros s Hs; cbn; [by rewrite app_nil_r|].
  rewrite IH by by apply perform_open. rewrite perform_adds by done. by rewrite <- app_assoc.
Qed.

(** ** Frames: actions on other components leave what is there alone *)

Definition starts (a : scopeAction) : option nat := match a with ActAdd _ => None | ActStart _ k _ _ _ => Some k end.

Lemma perform_frame a l1 l2 : (∀ k, starts a = Some k → k ∉ omap component_of l1) →
  perform a (mkScope false (l1 ++ l2)) = mkScope false (l1 ++ sc_cleanups (perform a (mkScope false l2))).
Proof.
  destruct a as [id|name k stage acts err]; intros Hk; cbn [perform]; [unfold Scope_Add; cbn; by rewrite <- app_assoc|].
  destruct (child_absent k l1 (Hk k eq_refl)) as [Hh Hs]. unfold Scope_Start. cbn [sc_cancelled sc_cleanups]. rewrite omap_app, Hh. cbn [app].
  destruct (head (omap (childOf k) l2)) eqn:Hl2; cbn.
  - rewrite omap_app, Hh. cbn. by rewrite Hl2, fmap_app, Hs.
  - rewrite <- app_assoc, omap_app, Hh. cbn [app]. by rewrite fmap_app, Hs.
Qed.
Lemma perform_false a l : sc_cancelled (perform a (mkScope false l)) = false.
Proof. by destruct a. Qed.
Lemma performs_frame acts l1 l2 : (∀ k, k ∈ omap starts acts → k ∉ omap component_of l1) →
  performs acts (mkScope false (l1 ++ l2)) = mkScope false (l1 ++ sc_cleanups (performs acts (mkScope false l2))).
Proof.
  revert l2. induction acts as [|a acts IH]; intros l2 Hk; [done|]. cbn. rewrite perform_frame.
  - pose proof (perform_false a l2). destruct (perform a (mkScope false l2)) as [b l]. cbn in *. subst. apply IH. intros k Hin. apply Hk. cbn. destruct (starts a); [by right|done].
  - intros k Ha. apply Hk. cbn. rewrite Ha. by left.
Qed.

(** Only the components that the actions start have scopes. *)
Lemma performs_components acts k : k ∈ omap component_of (sc_cleanups (performs acts NewScope)) → k ∈ omap starts acts.
Proof.
  induction acts as [|a acts IH] using rev_ind; [done|]. unfold performs. rewrite fold_left_app, omap_app, elem_of_app. cbn [fold_left].
  fold (performs acts NewScope). assert (Ho : open (performs acts NewScope)) by (apply performs_open; repeat constructor).
  destruct a as [id|name k' stage acts' err]; cbn [perform].
  - unfold Scope_Add. cbn [sc_cleanups]. rewrite omap_app, app_nil_r. auto.
  - set (f := λ child, (fold_left _ acts' child, err)). destruct (Start_place name k' stage f _ Ho) as (l1 & name' & cleanups & l2 & Heq & _ & Hcase). rewrite (Heq _ _ eq_refl).
    cbn [sc_cleanups]. rewrite omap_app. cbn. rewrite elem_of_app, elem_of_cons, list_elem_of_singleton.
    destruct Hcase as [E|(_ & E & -> & _)]; rewrite E in IH; [rewrite omap_app, elem_of_app in IH; cbn in IH; rewrite elem_of_cons in IH|]; intros [?|[?|?]]; auto.
    by apply elem_of_nil in H.
Qed.

(** A component that is started again goes on in its scope. *)
Lemma performs_first name k stage body err later : k ∉ omap starts later →
  performs (ActStart name k stage body err :: later) NewScope =
  mkScope false (CleanupChild name k false (sc_cleanups (performs body NewScope)) :: sc_cleanups (performs later NewScope)).
Proof.
  intros Hk. destruct (performs_open body NewScope) as (Hc & _); [repeat constructor|].
  assert (Hone : perform (ActStart name k stage body err) NewScope = mkScope false ([CleanupChild name k false (sc_cleanups (performs body NewScope))] ++ [])).
  { unfold performs in Hc |- *. cbn [perform]. unfold Scope_Start. cbn. rewrite !bool_decide_true by done. cbn. rewrite ?bool_decide_true by done. change (mkScope false []) with NewScope. by rewrite Hc. }
  unfold performs. cbn [fold_left]. rewrite Hone. change (fold_left _ later ?x) with (performs later x). rewrite performs_frame; [done|].
  cbn. by intros c Hin ->%list_elem_of_singleton.
Qed.
Lemma performs_again name k stage first err later name' stage' again err' : k ∉ omap starts later →
  performs (ActStart name k stage first err :: later ++ [ActStart name' k stage' again err']) NewScope =
  performs (ActStart name k stage (first ++ again) err :: later) NewScope.
Proof.
  intros Hk. rewrite (performs_first name k stage (first ++ again) err later Hk). pose proof (performs_first name k stage first err later Hk) as Hf. unfold performs in Hf |- *. cbn [fold_left] in Hf |- *.
  rewrite fold_left_app, Hf. cbn [fold_left perform]. unfold Scope_Start. cbn. rewrite !bool_decide_true by done. cbn. rewrite ?bool_decide_true by done. cbn. rewrite ?bool_decide_true by done. cbn.
  destruct (child_absent k (sc_cleanups (performs later NewScope))) as [_ Hs]; [by intros ?%performs_components|].
  unfold performs in Hs. rewrite Hs, fold_left_app. destruct (performs_open first NewScope) as (Hc & _); [repeat constructor|]. unfold performs in Hc.
  destruct (performs_open (first ++ again) NewScope) as (Hc' & _); [repeat constructor|]. unfold performs in Hc'. rewrite fold_left_app in Hc'.
  destruct (fold_left _ first NewScope) as [b l]. cbn in *. subst b. by rewrite Hc'.
Qed.

(** C22: closing a scope undoes what was done, once, last things first.  Whatever
    components did with it, in any nesting: closing calls each function that was
    added exactly once; what was done later on other components is undone before
    what was done earlier; a component that is started again at a later stage goes
    on in the scope it has, and is undone in the place of its first start; and a
    scope that is closed calls nothing again and starts nothing. *)
Theorem scope_closes_last_first {EL : ErrorsLib} (result_of : nat → option goerr) (acts earlier later : list scopeAction)
    (name name' : string) (k : nat) (stage stage' : StartStage) (first again : list scopeAction) (err err' : option goerr)
    (Hdisjoint : ∀ c, c ∈ omap starts later → c ∉ omap starts earlier) (Hfirst : k ∉ omap starts later) :
  let calls acts := (Scope_Close result_of (performs acts NewScope)).1.2 in
  calls acts ≡ₚ concat (added <$> acts) ∧
  calls (earlier ++ later) = calls later ++ calls earlier ∧
  calls (ActStart name k stage first err :: later ++ [ActStart name' k stage' again err']) = calls (ActStart name k stage (first ++ again) err :: later) ∧
  ∀ s f, let closed := (Scope_Close result_of s).1.1 in
    (Scope_Close result_of closed).1.2 = [] ∧ Scope_Start name k stage f closed = (closed, Some context_Canceled).
Proof.
  intros calls. assert (Hcalls : ∀ acts, calls acts = closing (performs acts NewScope)) by (intros l; unfold calls; by rewrite Close_closing).
  rewrite !Hcalls. split_and!.
  - rewrite performs_adds by (repeat constructor). done.
  - unfold performs. rewrite fold_left_app. fold (performs earlier NewScope). destruct (performs_open earlier NewScope) as (Hc & _); [repeat constructor|].
    pose proof (performs_components earlier) as Hcomp. destruct (performs earlier NewScope) as [b l]. cbn in Hc, Hcomp. subst b.
    pose proof (performs_frame later l [] ltac:(naive_solver)) as Hf. rewrite app_nil_r in Hf. unfold performs in Hf. rewrite Hf.
    unfold closing. cbn [sc_cleanups]. by rewrite calledAll_app.
  - by rewrite performs_again.
  - intros s f. cbn. done.
Qed.

(** A listener (0) and a router (1) are initialized and then started. *)
Definition demo_errors : ErrorsLib := {| E_Expand := λ e, [e]; E_Errors := λ l, match l with [] => None | _ => Some (ErrErrors l) end; E_IsClosed := λ _, false; E_IsCanceled := λ _, false |}.
Definition demo_earlier : list scopeAction := [ActStart "listener" 0 StartStateInitialize [ActAdd 10] None].
Definition demo_later : list scopeAction := [ActStart "router" 1 StartStateInitialize [ActAdd 20; ActStart "rules" 2 StartStateStart [ActAdd 21] None] None].

Lemma scope_closes_last_first_witness :
  @Scope_Close demo_errors (λ _, None) (performs (demo_earlier ++ demo_later ++ [ActStart "listener" 0 StartStateStart [ActAdd 11] None]) NewScope) =
    (mkScope true [], [21; 20; 11; 10]%nat, None) ∧
  (@Scope_Close demo_errors (λ _, None) (performs (demo_earlier ++ demo_later) NewScope)).1.2 =
    (@Scope_Close demo_errors (λ _, None) (performs demo_later NewScope)).1.2 ++ (@Scope_Close demo_errors (λ _, None) (performs demo_earlier NewScope)).1.2.
Proof.
  split; [vm_compute; reflexivity|].
  refine (proj1 (proj2 (@scope_closes_last_first demo_errors (λ _, None) [] demo_earlier demo_later "" "" 0 StartStateStart StartStateStart [] [] None None _ _))).
  - cbn. intros c ->%list_elem_of_singleton. by intros ?%list_elem_of_singleton.
  - cbn. by intros ?%list_elem_of_singleton.
Defined.
