(* ===== verification/Startup.v ===== *)
(** The managers of outbounds, endpoints and DNS servers
    ([adapter/outbound/manager.go], [adapter/endpoint/manager.go],
    [dns/transport_manager.go]): what they hold, and the order in which they start
    it.

    The registries that make components from options are a parameter, and so is
    what a component does when it is started. *)

From S2P Require Import Prelude GoStrings Lifecycle.

(** ** Components *)

(** What the managers see of an outbound, endpoint or server; [cp_Id] is its
    identity. *)
Record Component : Type := mkComponent {
  cp_Id : nat;
  cp_Type : string;
  cp_Tag : string;
  cp_Dependencies : list string;
  cp_Lifecycle : bool;       (* it is an adapter.Lifecycle *)
  cp_Endpoint : bool         (* it is an adapter.Endpoint *)
}.
#[export] Instance Component_eq_dec : EqDecision Component.
Proof. solve_decision. Defined.

(** [name := kind + Type() + "[" + Tag() + "]"]. *)
Definition componentName (kind : string) (c : Component) : string :=
  String.append kind (String.append (cp_Type c) (String.append "[" (String.append (cp_Tag c) "]"))).

(** What [component.Start(stage, scope)] does. *)
Definition behaviour : Type := Component → StartStage → Scope → Scope * option goerr.

(** ** Starting in the order of the dependencies *)

(** [startOutbounds] and [startTransports] differ in what starting one component
    does ([begin], on a state [W]), in how [find] looks up a tag, and in the words
    of their errors. *)
Section start.
Context {W : Type} (begin : Component → W → W * result unit) (find : string → option Component) (circular missing : string).

(** [started], the components in the order in which they were started, the state. *)
Record startState : Type := mkStart { ss_started : gset string; ss_order : list Component; ss_world : W }.

(** The loop [startOne]. *)
Fixpoint startOne (nodes : list Component) (st : startState) (canContinue : bool) : startState * bool * result unit :=
  match nodes with
  | [] => (st, canContinue, Ok tt)
  | c :: nodes =>
      if bool_decide (cp_Tag c ∈ ss_started st) then startOne nodes st canContinue
      else if negb (forallb (λ dependency, bool_decide (dependency ∈ ss_started st)) (cp_Dependencies c)) then startOne nodes st canContinue
      else
        let '(w, r) := begin c (ss_world st) in
        let st := mkStart ({[cp_Tag c]} ∪ ss_started st) (ss_order st ++ [c]) w in
        match r with Ok _ => startOne nodes st true | Err e => (st, true, Err e) | Panic p => (st, true, Panic p) end
  end.

(** [common.Find]: the zero value when there is none. *)
Definition problemTag (started : gset string) (c : Component) : string :=
  default EmptyString (List.find (λ it, negb (bool_decide (it ∈ started))) (cp_Dependencies c)).

Definition circularError (oTree : list string) (problem : string) : goerr :=
  ErrNew (String.append circular (String.append (Join oTree " -> ") (String.append " -> " problem))).
Definition missingError (problem : string) (c : Component) : goerr :=
  ErrNew (String.append "dependency[" (String.append problem (String.append missing (String.append (cp_Tag c) "]")))).

(** [lintOutbound] and [lintTransport]; [None] when the fuel is used up. *)
Fixpoint lint (fuel : nat) (started : gset string) (oTree : list string) (oCurrent : Component) : option goerr :=
  match fuel with
  | O => None
  | S fuel =>
      let problem := problemTag started oCurrent in
      if containsb problem oTree then Some (circularError oTree problem)
      else match find problem with
        | None => Some (missingError problem oCurrent)
        | Some c => lint fuel started (oTree ++ [problem]) c
        end
  end.

(** The outer loop; [None] when the fuel is used up. *)
Fixpoint startRounds (fuel : nat) (nodes : list Component) (st : startState) : option (startState * result unit) :=
  match fuel with
  | O => None
  | S fuel =>
      match startOne nodes st false with
      | (st, _, Err e) => Some (st, Err e)
      | (st, _, Panic p) => Some (st, Panic p)
      | (st, canContinue, Ok _) =>
          if bool_decide (size (ss_started st) = length nodes) then Some (st, Ok tt)
          else if canContinue then startRounds fuel nodes st
          else match List.find (λ it, negb (bool_decide (cp_Tag it ∈ ss_started st))) nodes with
            | None => Some (st, Panic "invalid memory address or nil pointer dereference")
            | Some current =>
                match lint (S (S (length nodes))) (ss_started st) [cp_Tag current] current with
                | None => None
                | Some e => Some (st, Err e)
                end
            end
      end
  end.
(** One round more than there are components: each but the last starts one. *)
Definition startNodes (nodes : list Component) (w : W) : option (startState * result unit) :=
  startRounds (S (length nodes)) nodes (mkStart ∅ [] w).
End start.
Arguments mkStart {W} _ _ _.
Arguments ss_started {W} _.
Arguments ss_order {W} _.
Arguments ss_world {W} _.

(** ** The manager of endpoints *)

Definition nil_dereference : string := "invalid memory address or nil pointer dereference".

Section managers.
Context {Options : Type} (create : string → string → Options → result Component) (behave : behaviour).

(** [endpoint.Manager].  [em_scope] is the context of the scope it was given,
    cancelled or not; the closers share their scopes with [em_endpointScopes]. *)
Record EndpointManager : Type := mkEndpointManager {
  em_endpoints : list Component;
  em_endpointByTag : gmap string Component;
  em_optionsByTag : gmap string (string * Options);
  em_scope : option bool;
  em_endpointScopes : gmap nat Scope;
  em_endpointClosers : list (string * nat)
}.
Definition NewEndpointManager : EndpointManager := mkEndpointManager [] ∅ ∅ None ∅ [].
Definition with_scopes (m : EndpointManager) scope scopes closers : EndpointManager :=
  mkEndpointManager (em_endpoints m) (em_endpointByTag m) (em_optionsByTag m) scope scopes closers.

Definition EM_Get (m : EndpointManager) (tag : string) : option Component := em_endpointByTag m !! tag.
(** [func (m *Manager) Create(ctx, router, logger, tag, outboundType, options) error]. *)
Definition EM_Create (tag type_ : string) (options : Options) (m : EndpointManager) : EndpointManager * result unit :=
  match create tag type_ options with
  | Err e => (m, Err e)
  | Panic p => (m, Panic p)
  | Ok endpoint =>
      match em_endpointByTag m !! tag with
      | Some _ => (m, Err (ErrNew (String.append "duplicate endpoint tag: " tag)))
      | None => (mkEndpointManager (em_endpoints m ++ [endpoint]) (<[tag := endpoint]> (em_endpointByTag m)) (<[tag := (type_, options)]> (em_optionsByTag m))
                   (em_scope m) (em_endpointScopes m) (em_endpointClosers m), Ok tt)
      end
  end.

(** [func (m *Manager) endpointScope(endpoint) *adapter.Scope]. *)
Definition endpointScope (c : Component) (m : EndpointManager) : EndpointManager * result Scope :=
  match em_endpointScopes m !! cp_Id c with
  | Some s => (m, Ok s)
  | None =>
      match em_scope m with
      | None => (m, Panic nil_dereference)
      | Some cancelled =>
          let s := mkScope cancelled [] in
          (with_scopes m (em_scope m) (<[cp_Id c := s]> (em_endpointScopes m)) (em_endpointClosers m ++ [(cp_Tag c, cp_Id c)]), Ok s)
      end
  end.
(** [m.endpointScope(endpoint).Start(name, endpoint, stage)], of [Start] and of
    [StartEndpoint]. *)
Definition startIn (stage : StartStage) (c : Component) (m : EndpointManager) : EndpointManager * result unit :=
  match endpointScope c m with
  | (m, Ok s) =>
      let '(s, err) := Scope_Start (componentName "endpoint/" c) (cp_Id c) stage (behave c stage) s in
      (with_scopes m (em_scope m) (<[cp_Id c := s]> (em_endpointScopes m)) (em_endpointClosers m), match err with Some e => Err e | None => Ok tt end)
  | (m, Err e) => (m, Err e)
  | (m, Panic p) => (m, Panic p)
  end.
Definition StartEndpoint (c : Component) (m : EndpointManager) : EndpointManager * result unit := startIn StartStateStart c m.

Fixpoint startEndpoints (stage : StartStage) (l : list Component) (m : EndpointManager) : EndpointManager * result unit :=
  match l with
  | [] => (m, Ok tt)
  | c :: l => match startIn stage c m with (m, Ok _) => startEndpoints stage l m | x => x end
  end.
(** [func (m *Manager) Start(stage, scope) error]; [closer] is the number of
    [m.closeEndpoints] among the clean-ups. *)
Definition EM_Start (closer : nat) (stage : StartStage) (m : EndpointManager) (scope : Scope) : EndpointManager * Scope * result unit :=
  let '(m, scope) := if bool_decide (stage = StartStateInitialize)
    then (with_scopes m (Some (sc_cancelled scope)) (em_endpointScopes m) (em_endpointClosers m), Scope_Add closer scope) else (m, scope) in
  if bool_decide (stage = StartStateStart) then (m, scope, Ok tt)
  else let '(m, r) := startEndpoints stage (em_endpoints m) m in (m, scope, r).

(** [func (m *Manager) closeEndpoints() error]: what the closing of each scope
    calls; they run at the same time. *)
Definition closeEndpoints {EL : ErrorsLib} (result_of : nat → option goerr) (m : EndpointManager) : EndpointManager * list (string * (list nat * option goerr)) :=
  (with_scopes m (em_scope m) ∅ [],
   (λ '(tag, id), let '(_, calls, err) := Scope_Close result_of (default NewScope (em_endpointScopes m !! id)) in (tag, (calls, err))) <$> em_endpointClosers m).

(** ** The manager of outbounds *)

(** [outbound.Manager]. *)
Record OutboundManager : Type := mkOutboundManager {
  om_defaultTag : string;
  om_outbounds : list Component;
  om_outboundByTag : gmap string Component;
  om_defaultOutbound : option Component;
  om_optionsByTag : gmap string (string * Options);
  om_internalByTag : gmap string Component
}.
Definition NewOutboundManager (defaultTag : string) : OutboundManager := mkOutboundManager defaultTag [] ∅ None ∅ ∅.
Definition with_default (m : OutboundManager) (c : Component) : OutboundManager :=
  mkOutboundManager (om_defaultTag m) (om_outbounds m) (om_outboundByTag m) (Some c) (om_optionsByTag m) (om_internalByTag m).
Definition with_internal (m : OutboundManager) internal : OutboundManager :=
  mkOutboundManager (om_defaultTag m) (om_outbounds m) (om_outboundByTag m) (om_defaultOutbound m) (om_optionsByTag m) internal.

(** [func (m *Manager) Create(ctx, router, logger, tag, inboundType, options) error]. *)
Definition OM_Create (tag type_ : string) (options : Options) (m : OutboundManager) : OutboundManager * result unit :=
  if String.eqb tag "" then (m, Err ErrInvalid)
  else match create tag type_ options with
  | Err e => (m, Err e)
  | Panic p => (m, Panic p)
  | Ok outbound =>
      match om_outboundByTag m !! tag with
      | Some _ => (m, Err (ErrNew (String.append "duplicate outbound tag: " tag)))
      | None =>
          let m' := mkOutboundManager (om_defaultTag m) (om_outbounds m ++ [outbound]) (<[tag := outbound]> (om_outboundByTag m)) (om_defaultOutbound m)
                      (<[tag := (type_, options)]> (om_optionsByTag m)) (om_internalByTag m) in
          (if String.eqb tag (om_defaultTag m) || (String.eqb (om_defaultTag m) "" && negb (isSome (om_defaultOutbound m))) then with_default m' outbound else m', Ok tt)
      end
  end.

(** [func (m *Manager) Outbound(tag) (adapter.Outbound, bool)]. *)
Definition OM_Outbound (em : EndpointManager) (m : OutboundManager) (tag : string) : option Component :=
  match om_outboundByTag m !! tag with
  | Some c => Some c
  | None => match om_internalByTag m !! tag with Some c => Some c | None => EM_Get em tag end
  end.
(** [OptionsOf], [AddInternal], [RemoveInternal] of [manager_chain_lx.go]. *)
Definition OptionsOf (m : OutboundManager) (tag : string) : option (string * Options) := om_optionsByTag m !! tag.
Definition AddInternal (em : option EndpointManager) (c : Component) (m : OutboundManager) : OutboundManager * result unit :=
  let tag := cp_Tag c in
  if String.eqb tag "" then (m, Err ErrInvalid)
  else if isSome (om_outboundByTag m !! tag) then (m, Err (ErrNew (String.append "internal outbound tag collides with outbound: " tag)))
  else if isSome (om_internalByTag m !! tag) then (m, Err (ErrNew (String.append "internal outbound already registered: " tag)))
  else if match em with Some em => isSome (EM_Get em tag) | None => false end then (m, Err (ErrNew (String.append "internal outbound tag collides with endpoint: " tag)))
  else (with_internal m (<[tag := c]> (om_internalByTag m)), Ok tt).
Definition RemoveInternal (tag : string) (m : OutboundManager) : OutboundManager := with_internal m (delete tag (om_internalByTag m)).

(** The default outbound at the stage "initialize"; [fallback] is what
    [defaultOutboundFallback] returns. *)
Definition OM_initialize (fallback : result Component) (em : EndpointManager) (m : OutboundManager) : OutboundManager * result unit :=
  match om_defaultOutbound m with
  | Some _ => (m, Ok tt)
  | None =>
      if negb (String.eqb (om_defaultTag m) "") then
        match EM_Get em (om_defaultTag m) with
        | None => (m, Err (ErrNew (String.append "default outbound not found: " (om_defaultTag m))))
        | Some c => (with_default m c, Ok tt)
        end
      else match fallback with
        | Err e => (m, Err (ErrCause e "create direct outbound for fallback"))
        | Panic p => (m, Panic p)
        | Ok direct =>
            (with_default (mkOutboundManager (om_defaultTag m) (om_outbounds m ++ [direct]) (<[cp_Tag direct := direct]> (om_outboundByTag m)) None (om_optionsByTag m) (om_internalByTag m)) direct, Ok tt)
        end
  end.

(** [scope.Start(name, lifecycle, stage)]. *)
Definition startComponent (kind : string) (stage : StartStage) (c : Component) (scope : Scope) : Scope * result unit :=
  let '(scope, err) := Scope_Start (componentName kind c) (cp_Id c) stage (behave c stage) scope in
  (scope, match err with Some e => Err e | None => Ok tt end).
Fixpoint startEach (kind : string) (stage : StartStage) (l : list Component) (scope : Scope) : Scope * result unit :=
  match l with
  | [] => (scope, Ok tt)
  | c :: l => match startComponent kind stage c scope with (scope, Ok _) => startEach kind stage l scope | x => x end
  end.

(** One outbound or endpoint of [startOutbounds]. *)
Definition beginOutbound (c : Component) (w : Scope * EndpointManager) : (Scope * EndpointManager) * result unit :=
  let '(scope, em) := w in
  if cp_Endpoint c then let '(em, r) := StartEndpoint c em in (scope, em, r)
  else if negb (cp_Lifecycle c) then (w, Ok tt)
  else let '(scope, r) := startComponent "outbound/" StartStateStart c scope in (scope, em, r).
(** [func (m *Manager) startOutbounds(scope, outbounds) error]. *)
Definition startOutbounds (outbounds : list Component) (w : Scope * EndpointManager) : option (startState * result unit) :=
  startNodes beginOutbound (λ tag, List.find (λ it, String.eqb (cp_Tag it) tag) outbounds)
    "circular outbound dependency: " "] not found for outbound[" outbounds w.

(** [func (m *Manager) Start(stage, scope) error]; [None] when [startOutbounds] does
    not end. *)
Definition OM_Start (fallback : result Component) (stage : StartStage) (m : OutboundManager) (w : Scope * EndpointManager)
    : option (OutboundManager * (Scope * EndpointManager) * result unit) :=
  match (if bool_decide (stage = StartStateInitialize) then OM_initialize fallback w.2 m else (m, Ok tt)) with
  | (m, Ok _) =>
      if bool_decide (stage = StartStateStart) then
        match startOutbounds (om_outbounds m ++ em_endpoints w.2) w with None => None | Some (st, r) => Some (m, ss_world st, r) end
      else let '(scope, r) := startEach "outbound/" stage (filter (λ c, cp_Lifecycle c = true) (om_outbounds m)) w.1 in Some (m, (scope, w.2), r)
  | (m, r) => Some (m, w, r)
  end.

(** ** The manager of DNS servers *)

(** [dns.TransportManager]. *)
Record DNSTransportManager : Type := mkTransportManager {
  dm_defaultTag : string;
  dm_transports : list Component;
  dm_transportByTag : gmap string Component;
  dm_defaultTransport : option Component;
  dm_fakeIPTransport : option Component
}.
Definition NewTransportManager (defaultTag : string) : DNSTransportManager := mkTransportManager defaultTag [] ∅ None None.

(** [func (m *TransportManager) Create(ctx, logger, tag, transportType, options) error].
    An error after the insertion leaves the server in the lists. *)
Definition DM_Create (tag type_ : string) (options : Options) (m : DNSTransportManager) : DNSTransportManager * result unit :=
  if String.eqb tag "" then (m, Err ErrInvalid)
  else match create tag type_ options with
  | Err e => (m, Err e)
  | Panic p => (m, Panic p)
  | Ok transport =>
      match dm_transportByTag m !! tag with
      | Some _ => (m, Err (ErrNew (String.append "duplicate DNS server tag: " tag)))
      | None =>
          let put default_ fakeip := mkTransportManager (dm_defaultTag m) (dm_transports m ++ [transport]) (<[tag := transport]> (dm_transportByTag m)) default_ fakeip in
          let isDefault := String.eqb tag (dm_defaultTag m) || (String.eqb (dm_defaultTag m) "" && negb (isSome (dm_defaultTransport m))) in
          let isFakeIP := String.eqb (cp_Type transport) "fakeip" in
          if isDefault && isFakeIP then (put (dm_defaultTransport m) (dm_fakeIPTransport m), Err (ErrNew "default server cannot be fakeip"))
          else
            let default_ := if isDefault then Some transport else dm_defaultTransport m in
            if isFakeIP then
              if isSome (dm_fakeIPTransport m) then (put default_ (dm_fakeIPTransport m), Err (ErrNew "multiple fakeip server are not supported"))
              else (put default_ (Some transport), Ok tt)
            else (put default_ (dm_fakeIPTransport m), Ok tt)
      end
  end.

Definition DM_initialize (fallback : result Component) (m : DNSTransportManager) : DNSTransportManager * result unit :=
  match dm_defaultTransport m with
  | Some _ => (m, Ok tt)
  | None =>
      if negb (String.eqb (dm_defaultTag m) "") then (m, Err (ErrNew (String.append "default DNS server not found: " (dm_defaultTag m))))
      else match fallback with
        | Err e => (m, Err (ErrCause e "default DNS server fallback"))
        | Panic p => (m, Panic p)
        | Ok t => (mkTransportManager (dm_defaultTag m) (dm_transports m ++ [t]) (<[cp_Tag t := t]> (dm_transportByTag m)) (Some t) (dm_fakeIPTransport m), Ok tt)
        end
  end.
(** [func (m *TransportManager) startTransports(scope, transports) error]. *)
Definition startTransports (m : DNSTransportManager) (transports : list Component) (scope : Scope) : option (startState * result unit) :=
  startNodes (startComponent "dns/" StartStateStart) (λ tag, dm_transportByTag m !! tag)
    "circular server dependency: " "] not found for server[" transports scope.
(** [func (m *TransportManager) Start(stage, scope) error]. *)
Definition DM_Start (fallback : result Component) (stage : StartStage) (m : DNSTransportManager) (scope : Scope)
    : option (DNSTransportManager * Scope * result unit) :=
  match (if bool_decide (stage = StartStateInitialize) then DM_initialize fallback m else (m, Ok tt)) with
  | (m, Ok _) =>
      if bool_decide (stage = StartStateStart) then
        match startTransports m (dm_transports m) scope with None => None | Some (st, r) => Some (m, ss_world st, r) end
      else let '(scope, r) := startEach "dns/" stage (dm_transports m) scope in Some (m, scope, r)
  | (m, r) => Some (m, scope, r)
  end.
End managers.
Arguments EndpointManager : clear implicits.
Arguments OutboundManager : clear implicits.

(** ** Tags of the configuration *)

(** The tag of the [i]-th element ([box.go], [option/options.go]): its own, or its
    index. *)
Definition tagOr (i : nat) (tag : string) : string := if String.eqb tag "" then FormatUint (Z.of_nat i) else tag.
Definition tagsOf (tags : list string) : list string := imap tagOr tags.

(** The loops of [checkInbounds], [checkOutbounds] and [checkCertificateProviders]. *)
Fixpoint checkTags (message : string) (tags : list string) (seen : gset string) : result (gset string) :=
  match tags with
  | [] => Ok seen
  | tag :: tags => if bool_decide (tag ∈ seen) then Err (ErrNew (String.append message tag)) else checkTags message tags ({[tag]} ∪ seen)
  end.
Definition checkInbounds (inbounds : list string) : result unit :=
  _ ← checkTags "duplicate inbound tag: " (tagsOf inbounds) ∅; Ok tt.
Definition checkOutbounds (outbounds endpoints : list string) : result unit :=
  seen ← checkTags "duplicate outbound/endpoint tag: " (tagsOf outbounds) ∅;
  _ ← checkTags "duplicate outbound/endpoint tag: " (tagsOf endpoints) seen; Ok tt.
Definition checkCertificateProviders (providers : list string) : result unit :=
  _ ← checkTags "duplicate certificate provider tag: " (tagsOf providers) ∅; Ok tt.

(** The loops of [box.New] that create endpoints and outbounds: an element is its
    tag, type and options. *)
Definition initializing (kind : string) (i : nat) (type_ tag : string) : string :=
  String.append "initialize " (String.append kind (String.append "[" (String.append (FormatUint (Z.of_nat i)) (String.append "] "
    (String.append type_ (String.append "[" (String.append tag "]"))))))).

Section creation.
Context {Options : Type} (createEndpoint createOutbound : string → string → Options → result Component).

Fixpoint createEndpoints (i : nat) (l : list (string * string * Options)) (m : EndpointManager Options) : EndpointManager Options * result unit :=
  match l with
  | [] => (m, Ok tt)
  | (tag, type_, options) :: l =>
      match EM_Create createEndpoint (tagOr i tag) type_ options m with
      | (m, Ok _) => createEndpoints (S i) l m
      | (m, Err e) => (m, Err (ErrCause e (initializing "endpoint" i type_ (tagOr i tag))))
      | (m, Panic p) => (m, Panic p)
      end
  end.
Fixpoint createOutbounds (i : nat) (l : list (string * string * Options)) (m : OutboundManager Options) : OutboundManager Options * result unit :=
  match l with
  | [] => (m, Ok tt)
  | (tag, type_, options) :: l =>
      match OM_Create createOutbound (tagOr i tag) type_ options m with
      | (m, Ok _) => createOutbounds (S i) l m
      | (m, Err e) => (m, Err (ErrCause e (initializing "outbound" i type_ (tagOr i tag))))
      | (m, Panic p) => (m, Panic p)
      end
  end.
End creation.
