(* ===== verification/StartupTheorems.v ===== *)
(** Startup is right: components are started after what they depend on, all of them
    when that is possible, and otherwise the error names a real cycle or a real gap. *)

From S2P Require Import Prelude GoStrings Lifecycle Startup.

(** ** Orders and dependencies *)

(** Every component of the list has its dependencies before it. *)
Definition ordered (l : list Component) : Prop :=
  ∀ i c d, l !! i = Some c → d ∈ cp_Dependencies c → ∃ j c', (j < i)%nat ∧ l !! j = Some c' ∧ cp_Tag c' = d.
(** [a] depends on [b]; a path follows dependencies. *)
Definition depends (nodes : list Component) (a b : string) : Prop := ∃ c, c ∈ nodes ∧ cp_Tag c = a ∧ b ∈ cp_Dependencies c.
Definition path (nodes : list Component) (l : list string) : Prop := ∀ i a b, l !! i = Some a → l !! S i = Some b → depends nodes a b.
(** An order in which all can be started. *)
Definition startable (nodes : list Component) : Prop := ∃ l, l ≡ₚ nodes ∧ ordered l.

Lemma ordered_snoc l c : ordered l → Forall (λ d, d ∈ cp_Tag <$> l) (cp_Dependencies c) → ordered (l ++ [c]).
Proof.
  intros Hl Hc i c' d Hi Hd. apply lookup_app_Some in Hi as [Hi|[Hlen Hi]].
  - destruct (Hl i c' d Hi Hd) as (j & c'' & Hj & Hl' & Ht). exists j, c''. split_and!; [done| |done]. by apply lookup_app_l_Some.
  - apply list_lookup_singleton_Some in Hi as [Hz <-]. rewrite Forall_forall in Hc. specialize (Hc d Hd).
    apply list_elem_of_fmap in Hc as (c'' & -> & Hin). apply list_elem_of_lookup in Hin as (j & Hj). exists j, c''.
    split_and!; [apply lookup_lt_Some in Hj; lia| |done]. by apply lookup_app_l_Some.
Qed.
Lemma path_snoc nodes l a b : path nodes l → last l = Some a → depends nodes a b → path nodes (l ++ [b]).
Proof.
  intros Hp Hlast Hd i x y Hx Hy. apply lookup_app_Some in Hy as [Hy|[Hlen Hy]].
  - eapply Hp; [|exact Hy]. rewrite lookup_app_l in Hx; [done|]. apply lookup_lt_Some in Hy. lia.
  - apply list_lookup_singleton_Some in Hy as [Hz <-]. assert (i = pred (length l)) as -> by lia.
    destruct l as [|z l'] eqn:E; [done|]. rewrite <- E in *. assert (length l = S (length l')) by by rewrite E.
    rewrite lookup_app_l in Hx by lia. rewrite last_lookup in Hlast. congruence.
Qed.

(** In an order, dependencies come strictly earlier; so there is no cycle. *)
Lemma ordered_depends l a b i : ordered l → NoDup (cp_Tag <$> l) → depends l a b → (cp_Tag <$> l) !! i = Some a → ∃ j, (j < i)%nat ∧ (cp_Tag <$> l) !! j = Some b.
Proof.
  intros Hl Hnd (c & Hc & <- & Hd) Hi. apply list_elem_of_lookup in Hc as (k & Hk).
  assert (k = i) as ->. { eapply NoDup_lookup; [exact Hnd| |exact Hi]. by rewrite list_lookup_fmap, Hk. }
  destruct (Hl i c b Hk Hd) as (j & c' & Hj & Hl' & <-). exists j. split; [done|]. by rewrite list_lookup_fmap, Hl'.
Qed.
Lemma depends_perm l l' a b : l ≡ₚ l' → depends l a b → depends l' a b.
Proof. intros Hp (c & Hc & ? & ?). exists c. split; [by rewrite <- Hp|done]. Qed.
Lemma path_descends l t i : ordered l → NoDup (cp_Tag <$> l) → path l t → ∀ n k a b, t !! k = Some a → t !! (k + S n)%nat = Some b → (cp_Tag <$> l) !! i = Some a →
  ∃ j, (j < i)%nat ∧ (cp_Tag <$> l) !! j = Some b.
Proof.
  intros Hl Hnd Hp n. revert i. induction n as [|n IH]; intros i k a b Ha Hb Hi.
  - rewrite Nat.add_1_r in Hb. eapply ordered_depends; [done..| |exact Hi]. by eapply Hp.
  - assert (is_Some (t !! S k)) as [x Hx]. { apply lookup_lt_is_Some. apply lookup_lt_Some in Hb. lia. }
    destruct (ordered_depends l a x i Hl Hnd (Hp k a x Ha Hx) Hi) as (j & Hj & Hjx).
    destruct (IH j (S k) x b Hx) as (j' & Hj' & ?); [by replace (S k + S n)%nat with (k + S (S n))%nat by lia|done|]. exists j'. split; [lia|done].
Qed.
Lemma cycle_unstartable nodes t p : NoDup (cp_Tag <$> nodes) → p ∈ t → path nodes (t ++ [p]) → ¬ startable nodes.
Proof.
  intros Hnd Hp Hpath (l & Hl & Ho). assert (Hnd' : NoDup (cp_Tag <$> l)) by by rewrite Hl.
  assert (Hpath' : path l (t ++ [p])) by (intros i a b Ha Hb; eapply depends_perm; [symmetry; exact Hl|]; by eapply Hpath).
  apply list_elem_of_lookup in Hp as (k & Hk). assert (Hlt := lookup_lt_Some _ _ _ Hk).
  assert (Hk' : (t ++ [p]) !! k = Some p) by by apply lookup_app_l_Some.
  assert (Hend : (t ++ [p]) !! (k + S (length t - S k))%nat = Some p). { replace (k + S (length t - S k))%nat with (length t + 0)%nat by lia. by rewrite lookup_app_r, Nat.add_0_r, Nat.sub_diag by lia. }
  assert (Hx : ∃ x, depends l p x).
  { assert (is_Some ((t ++ [p]) !! S k)) as [x Hx]; [apply lookup_lt_is_Some; rewrite length_app; cbn; lia|]. exists x. exact (Hpath' k p x Hk' Hx). }
  destruct Hx as (x & c & Hc & Ht & _). apply list_elem_of_lookup in Hc as (i & Hi).
  assert (Hi' : (cp_Tag <$> l) !! i = Some p) by by rewrite list_lookup_fmap, Hi, <- Ht.
  destruct (path_descends l _ i Ho Hnd' Hpath' _ _ _ _ Hk' Hend Hi') as (j & Hj & Hjp).
  assert (j = i) by (by eapply NoDup_lookup). lia.
Qed.
Lemma missing_unstartable nodes c d : c ∈ nodes → d ∈ cp_Dependencies c → d ∉ cp_Tag <$> nodes → ¬ startable nodes.
Proof.
  intros Hc Hd Hnot (l & Hl & Ho). rewrite <- Hl in Hc, Hnot. apply list_elem_of_lookup in Hc as (i & Hi).
  destruct (Ho i c d Hi Hd) as (j & c' & _ & Hj & <-). apply Hnot, list_elem_of_fmap. exists c'. split; [done|]. by eapply list_elem_of_lookup_2.
Qed.

(** ** The loops *)

Section loops.
Context {W : Type} (begin : Component → W → W * result unit) (find : string → option Component) (circular missing : string).
Context (nodes : list Component) (Hnd : NoDup (cp_Tag <$> nodes)).
Context (Hfind : ∀ t c, find t = Some c → c ∈ nodes ∧ cp_Tag c = t) (Hnone : ∀ t, find t = None → t ∉ cp_Tag <$> nodes).
Context (I : W → Prop) (Hbegin : ∀ c w, I w → I (begin c w).1 ∧ ∀ p, (begin c w).2 ≠ Panic p).

(** What holds between two starts. *)
Record sound (st : startState) : Prop := {
  so_ordered : ordered (ss_order st);
  so_nodes : ∀ c, c ∈ ss_order st → c ∈ nodes;
  so_once : NoDup (cp_Tag <$> ss_order st);
  so_started : ss_started st = list_to_set (cp_Tag <$> ss_order st);
  so_world : I (ss_world st)
}.
(** No component that is left can be started. *)
Definition stuck (st : startState (W:=W)) : Prop := ∀ c, c ∈ nodes → cp_Tag c ∉ ss_started st → ∃ d, d ∈ cp_Dependencies c ∧ d ∉ ss_started st.
(** Starting the last component failed. *)
Definition failed (st : startState (W:=W)) (e : goerr) : Prop := ∃ c w, last (ss_order st) = Some c ∧ (begin c w).2 = Err e.

Lemma started_in st t : sound st → t ∈ ss_started st ↔ t ∈ cp_Tag <$> ss_order st.
Proof. intros Hs. rewrite (so_started st Hs). apply elem_of_list_to_set. Qed.

Lemma start_one st c w : sound st → c ∈ nodes → cp_Tag c ∉ ss_started st → Forall (λ d, d ∈ ss_started st) (cp_Dependencies c) → I w →
  sound (mkStart ({[cp_Tag c]} ∪ ss_started st) (ss_order st ++ [c]) w).
Proof using.
  intros Hs Hc Ht Hd Hw. split; cbn [ss_order ss_started ss_world]; [| | | |done].
  - apply ordered_snoc; [by apply so_ordered|]. eapply Forall_impl; [exact Hd|]. intros d. cbn. by rewrite (started_in st d Hs).
  - intros c' [H|H%list_elem_of_singleton]%elem_of_app; [by eapply so_nodes|by subst].
  - rewrite fmap_app. apply NoDup_app. split_and!; [by apply so_once| |apply NoDup_singleton]. intros x Hx ->%list_elem_of_singleton. by apply Ht, (started_in st).
  - rewrite fmap_app, list_to_set_app_L, (so_started st Hs). cbn. rewrite union_empty_r_L. by rewrite (union_comm_L {[_]}).
Qed.

Lemma startOne_sound l st cc : (∀ c, c ∈ l → c ∈ nodes) → sound st →
  let '(st', cc', r) := startOne begin l st cc in
  sound st' ∧
  match r with
  | Ok _ => if cc' then cc = true ∨ (length (ss_order st) < length (ss_order st'))%nat
            else cc = false ∧ st' = st ∧ ∀ c, c ∈ l → cp_Tag c ∉ ss_started st → ∃ d, d ∈ cp_Dependencies c ∧ d ∉ ss_started st
  | Err e => failed st' e
  | Panic _ => False
  end ∧ (length (ss_order st) ≤ length (ss_order st'))%nat.
Proof using Hbegin.
  revert st cc. induction l as [|c l IH]; intros st cc Hl Hs; cbn [startOne].
  { split_and!; [done| |lia]. destruct cc; [by left|]. split_and!; [done..|]. by intros c ?%elem_of_nil. }
  assert (Hl' : ∀ c, c ∈ l → c ∈ nodes) by (intros; apply Hl; by right).
  case_bool_decide as Ht.
  { specialize (IH st cc Hl' Hs). destruct (startOne begin l st cc) as [[st' cc'] r]. destruct IH as (? & Hr & ?). split_and!; [done| |done].
    destruct r; [|done..]. destruct cc'; [done|]. destruct Hr as (-> & -> & Hst). split_and!; [done..|]. intros c' [->|Hc]%elem_of_cons Hc'; [done|by apply Hst]. }
  destruct (forallb _ _) eqn:Hd; cbn [negb]; last first.
  { specialize (IH st cc Hl' Hs). destruct (startOne begin l st cc) as [[st' cc'] r]. destruct IH as (? & Hr & ?). split_and!; [done| |done].
    destruct r; [|done..]. destruct cc'; [done|]. destruct Hr as (-> & -> & Hst). split_and!; [done..|]. intros c' [->|Hc]%elem_of_cons Hc'; [|by apply Hst].
    destruct (decide (Forall (λ d, d ∈ ss_started st) (cp_Dependencies c))) as [HF|HF].
    - rewrite Forall_forall in HF. apply not_true_iff_false in Hd as []. apply forallb_forall. intros x Hx%list_elem_of_In. by apply bool_decide_eq_true, HF.
    - apply not_Forall_Exists in HF; [|apply _]. by apply Exists_exists in HF. }
  rewrite forallb_forall in Hd. destruct (Hbegin c (ss_world st) (so_world st Hs)) as [Hw Hp]. destruct (begin c (ss_world st)) as [w r] eqn:Hb. cbn in Hw, Hp.
  assert (Hs' : sound (mkStart ({[cp_Tag c]} ∪ ss_started st) (ss_order st ++ [c]) w)).
  { apply start_one; [done|apply Hl; by left|done| |done]. rewrite Forall_forall. intros d Hin. eapply bool_decide_eq_true, Hd. by apply list_elem_of_In. }
  destruct r as [u|e|p]; [| |by destruct (Hp p)].
  - specialize (IH _ true Hl' Hs'). destruct (startOne begin l _ true) as [[st' cc'] r]. destruct IH as (? & Hr & Hlen). cbn in Hlen. rewrite length_app in Hlen. cbn in Hlen.
    split_and!; [done| |lia]. destruct r; [|done..]. destruct cc'; [right; lia|by destruct Hr].
  - split_and!; [done| |cbn; rewrite length_app; lia]. exists c, (ss_world st). cbn. rewrite last_snoc, Hb. done.
Qed.

(** What an error says is so: a cycle, or a dependency that no component has. *)
Definition blames (e : goerr) : Prop :=
  (∃ t p, e = circularError circular t p ∧ p ∈ t ∧ path nodes (t ++ [p])) ∨
  (∃ c p, e = missingError missing p c ∧ c ∈ nodes ∧ p ∈ cp_Dependencies c ∧ p ∉ cp_Tag <$> nodes).

Lemma problemTag_spec st c : stuck st → c ∈ nodes → cp_Tag c ∉ ss_started st → problemTag (ss_started st) c ∈ cp_Dependencies c ∧ problemTag (ss_started st) c ∉ ss_started st.
Proof using.
  intros Hst Hc Ht. unfold problemTag. destruct (List.find _ _) as [d|] eqn:Hf; cbn.
  - apply find_some in Hf as [Hd Hn]. apply negb_true_iff, bool_decide_eq_false in Hn. split; [by apply list_elem_of_In|done].
  - destruct (Hst c Hc Ht) as (d & Hd & Hn). apply list_elem_of_In in Hd. eapply find_none in Hf; [|exact Hd]. by rewrite bool_decide_false in Hf.
Qed.
Lemma lint_blames fuel st t c : stuck st → c ∈ nodes → cp_Tag c ∉ ss_started st → last t = Some (cp_Tag c) → NoDup t → (∀ x, x ∈ t → x ∈ cp_Tag <$> nodes) → path nodes t →
  (length nodes < fuel + length t)%nat → ∃ e, lint find circular missing fuel (ss_started st) t c = Some e ∧ blames e.
Proof using Hfind Hnone.
  intros Hst. revert t c. induction fuel as [|fuel IH]; intros t c Hc Ht Hlast Hndt Hsub Hpath Hfuel; cbn [lint].
  { assert (length t ≤ length (cp_Tag <$> nodes))%nat by (apply submseteq_length, NoDup_submseteq; auto). rewrite length_fmap in *. lia. }
  destruct (problemTag_spec st c Hst Hc Ht) as [Hd Hn]. set (p := problemTag (ss_started st) c) in *.
  assert (Hpath' : path nodes (t ++ [p])) by (eapply path_snoc; [done..|]; by exists c).
  destruct (containsb p t) eqn:Hp; [apply containsb_spec in Hp; eexists; split; [done|]; left; by exists t, p|]. apply not_true_iff_false in Hp. rewrite containsb_spec in Hp.
  destruct (find p) as [c'|] eqn:Hf; [|apply Hnone in Hf; eexists; split; [done|]; right; by exists c, p].
  destruct (Hfind p c' Hf) as [Hc' Htag]. apply IH; [done|by rewrite Htag|by rewrite last_snoc, Htag| | |done|rewrite length_app; cbn; lia].
  - apply NoDup_app. split_and!; [done| |apply NoDup_singleton]. by intros x Hx ->%list_elem_of_singleton.
  - intros x [Hx|Hx%list_elem_of_singleton]%elem_of_app; [by apply Hsub|]. subst x. rewrite <- Htag. by apply list_elem_of_fmap_2.
Qed.

Lemma sound_size st : sound st → size (ss_started st) = length (ss_order st) ∧ ss_order st ⊆+ nodes.
Proof using Hnd.
  intros Hs. rewrite (so_started st Hs), size_list_to_set by by apply so_once. rewrite length_fmap. split; [done|].
  apply NoDup_submseteq; [eapply NoDup_fmap_1; by apply so_once|by apply so_nodes].
Qed.

Lemma startRounds_ends fuel st : sound st → (length nodes < fuel + length (ss_order st))%nat →
  ∃ st' r, startRounds begin find circular missing fuel nodes st = Some (st', r) ∧ sound st' ∧
    match r with Ok _ => ss_order st' ≡ₚ nodes | Err e => failed st' e ∨ blames e | Panic _ => False end.
Proof using Hbegin Hfind Hnone Hnd.
  revert st. induction fuel as [|fuel IH]; intros st Hs Hfuel; cbn [startRounds].
  { destruct (sound_size st Hs) as [_ H%submseteq_length]. lia. }
  pose proof (startOne_sound nodes st false (λ _ H, H) Hs) as H1. destruct (startOne begin nodes st false) as [[st' cc] r]. destruct H1 as (Hs' & Hr & Hle).
  destruct r as [u|e|p]; [|by eexists _, _; split_and!; [done..|left]|done]. destruct (sound_size st' Hs') as [Hsize Hsub].
  case_bool_decide as Hlen.
  { eexists _, _. split_and!; [done..|]. apply submseteq_length_Permutation; [done|lia]. }
  destruct cc; [destruct Hr as [|Hr]; [done|]; apply IH; [done|lia]|]. destruct Hr as (_ & -> & Hst).
  destruct (List.find _ nodes) as [c|] eqn:Hf.
  - apply find_some in Hf as [Hc%list_elem_of_In Hn]. apply negb_true_iff, bool_decide_eq_false in Hn.
    destruct (lint_blames (S (S (length nodes))) st [cp_Tag c] c) as (e & -> & He); [done..|apply NoDup_singleton| | |cbn; lia|by eexists _, _; split_and!; [done..|right]].
    + intros x ->%list_elem_of_singleton. by apply list_elem_of_fmap_2.
    + by intros [|i] a b.
  - exfalso. apply Hlen. rewrite Hsize. apply submseteq_length in Hsub as Hle'. assert (cp_Tag <$> nodes ⊆+ cp_Tag <$> ss_order st) as H%submseteq_length; [|rewrite !length_fmap in H; lia].
    apply NoDup_submseteq; [done|]. intros t (c & -> & Hc)%list_elem_of_fmap. apply (started_in st _ Hs). apply list_elem_of_In in Hc.
    eapply find_none in Hf; [|exact Hc]. apply negb_false_iff, bool_decide_eq_true in Hf. done.
Qed.

(** The whole of it, from the start. *)
Lemma startNodes_ends w : I w →
  ∃ st r, startNodes begin find circular missing nodes w = Some (st, r) ∧ sound st ∧
    match r with Ok _ => ss_order st ≡ₚ nodes | Err e => failed st e ∨ blames e | Panic _ => False end.
Proof using Hbegin Hfind Hnone Hnd.
  intros Hw. unfold startNodes. apply startRounds_ends; [|cbn; lia]. split; cbn; [by intros i c d ?|by intros c ?%elem_of_nil|constructor|done|done].
Qed.
Lemma blames_unstartable e : blames e → ¬ startable nodes.
Proof using Hnd. intros [(t & p & _ & Hp & Hpath)|(c & p & _ & Hc & Hd & Hn)]; [by eapply cycle_unstartable|by eapply missing_unstartable]. Qed.
End loops.

(** ** What the managers hold *)

(** The list and the table of a manager agree, and tags are unique. *)
Definition registered (l : list Component) (m : gmap string Component) : Prop :=
  NoDup (cp_Tag <$> l) ∧ ∀ t c, m !! t = Some c ↔ c ∈ l ∧ cp_Tag c = t.

Lemma registered_empty : registered [] ∅.
Proof. split; [constructor|]. intros t c. rewrite lookup_empty. split; [done|]. by intros [?%elem_of_nil _]. Qed.
Lemma registered_absent l m t : registered l m → m !! t = None ↔ t ∉ cp_Tag <$> l.
Proof.
  intros [_ Hm]. split.
  - intros Ht (c & -> & Hc)%list_elem_of_fmap. assert (m !! cp_Tag c = Some c) by (by apply Hm). congruence.
  - intros Ht. apply eq_None_not_Some. intros [c Hc]. apply Hm in Hc as [Hc <-]. apply Ht. by apply list_elem_of_fmap_2.
Qed.
Lemma registered_add l m c : registered l m → m !! cp_Tag c = None → registered (l ++ [c]) (<[cp_Tag c := c]> m).
Proof.
  intros Hr Hn. pose proof Hr as [Hnd Hm]. apply (registered_absent _ _ _ Hr) in Hn as Hout. split.
  - rewrite fmap_app. apply NoDup_app. split_and!; [done| |apply NoDup_singleton]. by intros x Hx ->%list_elem_of_singleton.
  - intros t c'. rewrite elem_of_app, list_elem_of_singleton. destruct (decide (cp_Tag c = t)) as [<-|Hne].
    + rewrite lookup_insert_eq. split; [intros [= <-]; auto|]. intros [[Hc'| ->] Ht]; [|done]. destruct Hout. rewrite <- Ht. by apply list_elem_of_fmap_2.
    + rewrite lookup_insert_ne, Hm by done. naive_solver.
Qed.

(** [checkOutbounds] accepts exactly distinct tags. *)
Lemma checkTags_spec message tags seen : (∃ seen', checkTags message tags seen = Ok seen') ↔ NoDup tags ∧ ∀ t, t ∈ tags → t ∉ seen.
Proof.
  revert seen. induction tags as [|t tags IH]; intros seen; cbn.
  { split; [intros _; split; [constructor|by intros t ?%elem_of_nil]|eauto]. }
  case_bool_decide as Ht; [split; [by intros [? ?]|intros [_ H]; by destruct (H t); [left|]]|]. rewrite IH, NoDup_cons. set_solver.
Qed.
Lemma checkTags_seen message tags seen seen' : checkTags message tags seen = Ok seen' → seen' = list_to_set tags ∪ seen.
Proof.
  revert seen. induction tags as [|t tags IH]; intros seen; cbn; [intros [= <-]; by rewrite union_empty_l_L|]. case_bool_decide; [done|]. intros ->%IH. set_solver.
Qed.
Lemma checkOutbounds_spec outbounds endpoints : checkOutbounds outbounds endpoints = Ok tt ↔ NoDup (tagsOf outbounds ++ tagsOf endpoints).
Proof.
  unfold checkOutbounds. set (msg := "duplicate outbound/endpoint tag: "%string). rewrite NoDup_app. split.
  - intros (seen & H1 & (seen' & H2 & _)%bind_Ok)%bind_Ok. destruct (checkTags_spec msg (tagsOf outbounds) ∅) as [[Hnd1 _] _]; [by eexists|].
    destruct (checkTags_spec msg (tagsOf endpoints) seen) as [[Hnd2 Hn] _]; [by eexists|]. apply checkTags_seen in H1 as ->. split_and!; [done| |done]. set_solver.
  - intros (H1 & H2 & H3). destruct (checkTags_spec msg (tagsOf outbounds) ∅) as [_ [seen Hs]]; [set_solver|]. rewrite Hs. cbn. apply checkTags_seen in Hs as ->.
    destruct (checkTags_spec msg (tagsOf endpoints) (list_to_set (tagsOf outbounds) ∪ ∅)) as [_ [seen' Hs']]; [set_solver|]. by rewrite Hs'.
Qed.

Section managers.
Context {Options : Type} (createEndpoint createOutbound : string → string → Options → result Component) (behave : behaviour).
Context (Hendpoint : ∀ tag type_ o c, createEndpoint tag type_ o = Ok c → cp_Tag c = tag).
Context (Houtbound : ∀ tag type_ o c, createOutbound tag type_ o = Ok c → cp_Tag c = tag).

Lemma createEndpoints_made i l (m m' : EndpointManager Options) : registered (em_endpoints m) (em_endpointByTag m) → createEndpoints createEndpoint i l m = (m', Ok tt) →
  registered (em_endpoints m') (em_endpointByTag m') ∧ (cp_Tag <$> em_endpoints m') = (cp_Tag <$> em_endpoints m) ++ imap (λ j x, tagOr (i + j) x.1.1) l ∧ em_scope m' = em_scope m.
Proof using Hendpoint.
  revert i m. induction l as [|[[tag type_] options] l IH]; intros i m Hm; cbn [createEndpoints imap]; [intros [= <-]; by rewrite app_nil_r|].
  unfold EM_Create. destruct (createEndpoint (tagOr i tag) type_ options) as [c| |] eqn:Hc; [|done..]. apply Hendpoint in Hc as Ht.
  destruct (em_endpointByTag m !! tagOr i tag) eqn:Hn; [done|]. rewrite <- Ht in Hn |- *. intros Hrest. apply IH in Hrest as (H1 & H2 & H3); [|by apply registered_add].
  cbn in H2, H3. split_and!; [done| |done]. rewrite H2, fmap_app, <- app_assoc. cbn. rewrite Nat.add_0_r, Ht. do 2 f_equal. apply imap_ext. intros j x _. cbn. do 2 f_equal. lia.
Qed.
(** Of an outbound manager, also: without a default tag the first outbound is the
    default. *)
Definition outbounds_ok (m : OutboundManager Options) : Prop :=
  registered (om_outbounds m) (om_outboundByTag m) ∧ (om_defaultTag m = EmptyString → om_defaultOutbound m = None → om_outbounds m = []).
Lemma createOutbounds_made i l m m' : outbounds_ok m → createOutbounds createOutbound i l m = (m', Ok tt) →
  outbounds_ok m' ∧ (cp_Tag <$> om_outbounds m') = (cp_Tag <$> om_outbounds m) ++ imap (λ j x, tagOr (i + j) x.1.1) l ∧ om_defaultTag m' = om_defaultTag m.
Proof using Houtbound.
  revert i m. induction l as [|[[tag type_] options] l IH]; intros i m Hm; cbn [createOutbounds imap]; [intros [= <-]; by rewrite app_nil_r|].
  unfold OM_Create. destruct (String.eqb_spec (tagOr i tag) ""); [done|]. destruct (createOutbound (tagOr i tag) type_ options) as [c| |] eqn:Hc; [|done..]. apply Houtbound in Hc as Ht.
  destruct (om_outboundByTag m !! tagOr i tag) eqn:Hn; [done|]. rewrite <- Ht in Hn |- *. destruct Hm as [Hr Hd].
  match goal with |- createOutbounds _ _ _ ?x = _ → _ => set (m1 := x) end.
  assert (Hm1 : om_outbounds m1 = om_outbounds m ++ [c] ∧ om_outboundByTag m1 = <[cp_Tag c := c]> (om_outboundByTag m) ∧ om_defaultTag m1 = om_defaultTag m ∧
    (om_defaultTag m = EmptyString → om_defaultOutbound m1 ≠ None)).
  { unfold m1. case_match eqn:Hb; cbn; split_and!; try done. intros Hdt. apply orb_false_iff in Hb as [_ Hb]. rewrite Hdt in Hb. cbn in Hb. apply negb_false_iff in Hb. by destruct (om_defaultOutbound m). }
  destruct Hm1 as (E1 & E2 & E3 & E4). intros Hrest. apply IH in Hrest as (H1 & H2 & H3).
  - split_and!; [done| |congruence]. rewrite H2, E1, fmap_app, <- app_assoc. cbn. rewrite Nat.add_0_r, Ht. do 2 f_equal. apply imap_ext. intros j x _. cbn. do 2 f_equal. lia.
  - split; [rewrite E1, E2; by apply registered_add|]. rewrite E3. intros Hdt Hnone. by destruct (E4 Hdt).
Qed.

(** Starting an endpoint does not panic once the manager has its scope. *)
Definition scoped (w : Scope * EndpointManager Options) : Prop := isSome (em_scope w.2) = true.
Lemma startIn_scoped stage c (m : EndpointManager Options) : isSome (em_scope m) = true → em_scope (startIn behave stage c m).1 = em_scope m ∧ ∀ p, (startIn behave stage c m).2 ≠ Panic p.
Proof using.
  intros Hs. unfold startIn, endpointScope. destruct (em_endpointScopes m !! cp_Id c) as [s|].
  - destruct (Scope_Start _ _ _ _ s) as [s' err]. cbn. split; [done|]. by destruct err.
  - destruct (em_scope m) as [b|] eqn:E; [|done]. cbn. destruct (Scope_Start _ _ _ _ _) as [s' err]. cbn. split; [done|]. by destruct err.
Qed.
Lemma beginOutbound_scoped c w : scoped w → scoped (beginOutbound behave c w).1 ∧ ∀ p, (beginOutbound behave c w).2 ≠ Panic p.
Proof using.
  destruct w as [scope em]. unfold scoped, beginOutbound, StartEndpoint. cbn. intros Hs. destruct (cp_Endpoint c).
  - destruct (startIn_scoped StartStateStart c em Hs) as [H1 H2]. destruct (startIn behave StartStateStart c em) as [em' r]. cbn in *. by rewrite H1.
  - destruct (cp_Lifecycle c); cbn; [|done]. unfold startComponent. destruct (Scope_Start _ _ _ _ scope) as [s err]. cbn. split; [done|]. by destruct err.
Qed.
Lemma startEndpoints_keeps stage l (m : EndpointManager Options) : isSome (em_scope m) = true → em_scope (startEndpoints behave stage l m).1 = em_scope m ∧ em_endpoints (startEndpoints behave stage l m).1 = em_endpoints m.
Proof using.
  revert m. induction l as [|c l IH]; intros m Hs; cbn [startEndpoints]; [done|]. destruct (startIn_scoped stage c m Hs) as [H1 _].
  assert (H2 : em_endpoints (startIn behave stage c m).1 = em_endpoints m).
  { unfold startIn, endpointScope. destruct (em_endpointScopes m !! cp_Id c); [by destruct (Scope_Start _ _ _ _ _)|]. destruct (em_scope m); [by destruct (Scope_Start _ _ _ _ _)|done]. }
  destruct (startIn behave stage c m) as [m1 [u|e|p]]; cbn in *; [|done..]. destruct (IH m1) as [-> ->]; [by rewrite H1|done].
Qed.

(** The outbounds after the stage "initialize". *)
Lemma initialize_outbounds fallback om om1 w w1 : outbounds_ok om → OM_Start behave fallback StartStateInitialize om w = Some (om1, w1, Ok tt) →
  w1.2 = w.2 ∧ (om_outbounds om1 = om_outbounds om ∨ ∃ d, fallback = Ok d ∧ om_defaultTag om = EmptyString ∧ om_outbounds om = [] ∧ om_outbounds om1 = [d]).
Proof using.
  intros [_ Hd]. unfold OM_Start. rewrite bool_decide_true by done. rewrite bool_decide_false by done. unfold OM_initialize.
  assert (Hrest : ∀ m, (let '(scope, r) := startEach behave "outbound/" StartStateInitialize (filter (λ c, cp_Lifecycle c = true) (om_outbounds m)) w.1 in Some (m, (scope, w.2), r)) = Some (om1, w1, Ok tt) →
    w1.2 = w.2 ∧ om1 = m).
  { intros m. destruct (startEach _ _ _ _ _) as [scope r]. by intros [= <- <- _]. }
  destruct (om_defaultOutbound om) as [d0|]; [intros [-> ->]%Hrest; auto|]. destruct (String.eqb_spec (om_defaultTag om) "") as [E|E]; cbn [negb].
  - destruct fallback as [d| |]; [|done..]. intros [-> ->]%Hrest. split; [done|]. right. exists d. cbn. by rewrite (Hd E eq_refl).
  - destruct (EM_Get w.2 (om_defaultTag om)); [|done]. intros [-> ->]%Hrest. auto.
Qed.
End managers.

(** C20: startup in the order of the dependencies.  Take a configuration whose tags
    [checkOutbounds] accepts and whose endpoints and outbounds could be created, the
    outbound and the endpoint manager past the stage "initialize", and no endpoint
    called "direct" when that outbound is made up as the default.  Then starting the
    outbounds and endpoints ends and does not panic, nothing is started twice or
    before what it depends on, and: without an error everything is started; an error
    is that of the component started last, or names a cycle that is there or a
    dependency that is not; and when no component fails, it succeeds exactly if
    there is an order in which everything can be started. *)
Theorem startup_in_order {Options : Type} (createEndpoint createOutbound : string → string → Options → result Component) (behave : behaviour)
    (endpoints outbounds : list (string * string * Options)) (defaultTag : string) (fallback : result Component)
    (em em1 : EndpointManager Options) (om om1 : OutboundManager Options) (closer : nat) (scope scope1 escope escope1 : Scope)
    (Hendpoint : ∀ tag type_ o c, createEndpoint tag type_ o = Ok c → cp_Tag c = tag)
    (Houtbound : ∀ tag type_ o c, createOutbound tag type_ o = Ok c → cp_Tag c = tag)
    (Hfallback : ∀ d, fallback = Ok d → cp_Tag d = "direct"%string)
    (Hcheck : checkOutbounds (fst ∘ fst <$> outbounds) (fst ∘ fst <$> endpoints) = Ok tt)
    (Hem : createEndpoints createEndpoint 0 endpoints NewEndpointManager = (em, Ok tt))
    (Hom : createOutbounds createOutbound 0 outbounds (NewOutboundManager defaultTag) = (om, Ok tt))
    (Hdirect : outbounds = [] → defaultTag = EmptyString → "direct"%string ∉ tagsOf (fst ∘ fst <$> endpoints))
    (Hinit : OM_Start behave fallback StartStateInitialize om (scope, em) = Some (om1, (scope1, em), Ok tt))
    (Heinit : EM_Start behave closer StartStateInitialize em escope = (em1, escope1, Ok tt)) :
  let nodes := om_outbounds om1 ++ em_endpoints em1 in
  ∃ st r, startOutbounds behave nodes (scope1, em1) = Some (st, r) ∧
    OM_Start behave fallback StartStateStart om1 (scope1, em1) = Some (om1, ss_world st, r) ∧
    ordered (ss_order st) ∧ NoDup (ss_order st) ∧
    match r with
    | Ok _ => ss_order st ≡ₚ nodes
    | Err e => failed (beginOutbound behave) st e ∨ blames "circular outbound dependency: " "] not found for outbound[" nodes e
    | Panic _ => False
    end ∧
    ((∀ e, ¬ failed (beginOutbound behave) st e) → r = Ok tt ↔ startable nodes).
Proof.
  intros nodes. destruct (createEndpoints_made createEndpoint Hendpoint 0 endpoints NewEndpointManager em registered_empty Hem) as (Hrem & Htem & _).
  destruct (createOutbounds_made createOutbound Houtbound 0 outbounds (NewOutboundManager defaultTag) om) as (Hrom & Htom & Hdt); [split; [apply registered_empty|done]|done|].
  cbn in Htem, Htom, Hdt. assert (Htags : ∀ l : list (string * string * Options), imap (λ j x, tagOr (0 + j) x.1.1) l = tagsOf (fst ∘ fst <$> l)).
  { intros l. unfold tagsOf. by rewrite imap_fmap. }
  rewrite Htags in Htem, Htom. apply checkOutbounds_spec in Hcheck.
  assert (He1 : isSome (em_scope em1) = true ∧ em_endpoints em1 = em_endpoints em).
  { unfold EM_Start in Heinit. rewrite bool_decide_true in Heinit by done. rewrite bool_decide_false in Heinit by done.
    set (m0 := with_scopes em _ _ _) in Heinit. destruct (startEndpoints_keeps behave StartStateInitialize (em_endpoints m0) m0 eq_refl) as [H1 H2].
    destruct (startEndpoints behave StartStateInitialize (em_endpoints m0) m0) as [m1 r]. injection Heinit as <- _ _. cbn in H1, H2. by rewrite H1, H2. }
  destruct He1 as [Hscoped Hends]. assert (Hnd : NoDup (cp_Tag <$> nodes)).
  { unfold nodes. rewrite fmap_app, Hends, Htem. destruct (initialize_outbounds behave fallback om om1 _ _ Hrom Hinit) as [_ [->|(d & Hd & Hdt' & Hnil & ->)]]; [by rewrite Htom|].
    cbn. rewrite (Hfallback d Hd). rewrite Hnil in Htom. assert (outbounds = []) by (destruct outbounds; [done|discriminate Htom]).
    apply NoDup_app in Hcheck as (_ & _ & Hc). apply NoDup_cons. split; [|done]. apply Hdirect; [done|congruence]. }
  destruct (startNodes_ends (beginOutbound (Options:=Options) behave) (λ tag, List.find (λ it, String.eqb (cp_Tag it) tag) nodes) "circular outbound dependency: " "] not found for outbound[" nodes Hnd)
    with (I := scoped (Options:=Options)) (w := (scope1, em1)) as (st & r & Hst & Hs & Hr).
  - intros t c [Hc Ht]%find_some. split; [by apply list_elem_of_In|by apply String.eqb_eq].
  - intros t Hf (c & -> & Hc%list_elem_of_In)%list_elem_of_fmap. eapply find_none in Hf; [|exact Hc]. by rewrite String.eqb_refl in Hf.
  - intros c w. apply beginOutbound_scoped.
  - done.
  - exists st, r. split_and!; [done| |by eapply so_ordered|eapply NoDup_fmap_1; by eapply so_once|done|].
    { unfold OM_Start. rewrite bool_decide_false by done. rewrite bool_decide_true by done. unfold startOutbounds. cbn [snd]. fold nodes. by rewrite Hst. }
    intros Hfail. destruct r as [[]|e|]; [| |done].
    + split; [|done]. intros _. exists (ss_order st). split; [done|]. by eapply so_ordered.
    + destruct Hr as [Hr|Hr]; [by destruct (Hfail e)|]. split; [done|]. by intros ?%(blames_unstartable _ _ _ Hnd e Hr).
Qed.

(** ** Witness *)

(** The options of the demonstration are the dependencies; nothing fails. *)
Definition demo_create (endpoint : bool) (tag type_ : string) (dependencies : list string) : result Component :=
  Ok (mkComponent (String.length tag) type_ tag dependencies true endpoint).
Definition demo_behave : behaviour := λ c _ s, (Scope_Add (cp_Id c) s, None).
Definition demo_fallback : result Component := Ok (mkComponent 100 "direct" "direct" [] true false).
(** A chain of three: the first outbound dials through the second, that through an
    endpoint. *)
Definition demo_outbounds : list (string * string * list string) := [("a", "vless", ["bb"]); ("bb", "socks", ["ccc"])]%string.
Definition demo_endpoints : list (string * string * list string) := [("ccc", "wireguard", [])]%string.
Definition demo_em : EndpointManager (list string) := (createEndpoints (demo_create true) 0 demo_endpoints NewEndpointManager).1.
Definition demo_om : OutboundManager (list string) := (createOutbounds (demo_create false) 0 demo_outbounds (NewOutboundManager "")).1.
Definition demo_em1 : EndpointManager (list string) := (EM_Start demo_behave 0 StartStateInitialize demo_em NewScope).1.1.
Definition demo_init := OM_Start demo_behave demo_fallback StartStateInitialize demo_om (NewScope, demo_em).
Definition demo_om1 : OutboundManager (list string) := match demo_init with Some (m, _, _) => m | None => demo_om end.
Definition demo_scope1 : Scope := match demo_init with Some (_, w, _) => w.1 | None => NewScope end.

Lemma startup_in_order_witness :
  ∃ st r, startOutbounds demo_behave (om_outbounds demo_om1 ++ em_endpoints demo_em1) (demo_scope1, demo_em1) = Some (st, r) ∧
    r = Ok tt ∧ ordered (ss_order st) ∧ (cp_Tag <$> ss_order st) = ["ccc"; "bb"; "a"]%string.
Proof.
  destruct (startup_in_order (demo_create true) (demo_create false) demo_behave demo_endpoints demo_outbounds "" demo_fallback
    demo_em demo_em1 demo_om demo_om1 0 NewScope demo_scope1 NewScope (EM_Start demo_behave 0 StartStateInitialize demo_em NewScope).1.2)
    as (st & r & Hst & _ & Ho & _).
  - intros tag type_ o c [= <-]. reflexivity.
  - intros tag type_ o c [= <-]. reflexivity.
  - intros d [= <-]. reflexivity.
  - vm_compute. reflexivity.
  - vm_compute. reflexivity.
  - vm_compute. reflexivity.
  - discriminate.
  - vm_compute. reflexivity.
  - vm_compute. reflexivity.
  - exists st, r. split; [exact Hst|]. assert (H : option_map (λ x, (x.2, cp_Tag <$> ss_order x.1)) (startOutbounds demo_behave (om_outbounds demo_om1 ++ em_endpoints demo_em1) (demo_scope1, demo_em1)) =
      Some (Ok tt, ["ccc"; "bb"; "a"]%string)) by (vm_compute; reflexivity).
    rewrite Hst in H. injection H as -> Ht. split; [reflexivity|]. split; [exact Ho|exact Ht].
Defined.

(** ** An endpoint called "direct" *)

(** With no outbound and no default tag, the outbound "direct" is made up after the
    tags were checked.  An endpoint with that tag is then never started, the count of
    tags never reaches the count of components, and the search for a component that
    is not started returns nil. *)
Definition direct_em : EndpointManager (list string) := (createEndpoints (demo_create true) 0 [("direct", "wireguard", [])]%string NewEndpointManager).1.
Definition direct_em1 : EndpointManager (list string) := (EM_Start demo_behave 0 StartStateInitialize direct_em NewScope).1.1.
Definition direct_start : option (result unit) :=
  match OM_Start demo_behave demo_fallback StartStateInitialize (NewOutboundManager "") (NewScope, direct_em) with
  | Some (om, (scope, _), Ok _) => option_map snd (OM_Start demo_behave demo_fallback StartStateStart om (scope, direct_em1))
  | _ => None
  end.
Lemma direct_endpoint_panics : checkOutbounds [] ["direct"%string] = Ok tt ∧ direct_start = Some (Panic nil_dereference).
Proof. split; vm_compute; reflexivity. Qed.

(** ** DNS servers *)

Section servers.
Context {Options : Type} (createTransport : string → string → Options → result Component) (behave : behaviour).
Context (Htransport : ∀ tag type_ o c, createTransport tag type_ o = Ok c → cp_Tag c = tag).

(** The list and the table agree after every creation, also one that fails. *)
Lemma DM_Create_registered tag type_ options m :
  registered (dm_transports m) (dm_transportByTag m) →
  registered (dm_transports (DM_Create createTransport tag type_ options m).1) (dm_transportByTag (DM_Create createTransport tag type_ options m).1).
Proof using Htransport.
  intros Hr. unfold DM_Create. destruct (String.eqb tag ""); [done|]. destruct (createTransport tag type_ options) as [c| |] eqn:Hc; [|done..]. apply Htransport in Hc as <-.
  destruct (dm_transportByTag m !! cp_Tag c) eqn:Hn; [done|]. pose proof (registered_add _ _ c Hr Hn). by repeat case_match.
Qed.

(** The servers are started as the outbounds are. *)
Lemma servers_in_order m scope : registered (dm_transports m) (dm_transportByTag m) →
  ∃ st r, startTransports behave m (dm_transports m) scope = Some (st, r) ∧ ordered (ss_order st) ∧ NoDup (ss_order st) ∧
    match r with
    | Ok _ => ss_order st ≡ₚ dm_transports m
    | Err e => failed (startComponent behave "dns/" StartStateStart) st e ∨ blames "circular server dependency: " "] not found for server[" (dm_transports m) e
    | Panic _ => False
    end ∧
    ((∀ e, ¬ failed (startComponent behave "dns/" StartStateStart) st e) → r = Ok tt ↔ startable (dm_transports m)).
Proof using.
  intros Hr. pose proof Hr as [Hnd Hm]. destruct (startNodes_ends (startComponent behave "dns/" StartStateStart) (λ tag, dm_transportByTag m !! tag)
    "circular server dependency: " "] not found for server[" (dm_transports m) Hnd) with (I := λ _ : Scope, True) (w := scope) as (st & r & Hst & Hs & Hres); [|intros t; by apply registered_absent| |done|].
  - intros t c Hc. by apply Hm.
  - intros c w _. split; [done|]. unfold startComponent. destruct (Scope_Start _ _ _ _ w) as [? []]; done.
  - exists st, r. split_and!; [done|by eapply so_ordered|eapply NoDup_fmap_1; by eapply so_once|done|]. intros Hfail. destruct r as [[]|e|]; [| |done].
    + split; [|done]. intros _. exists (ss_order st). split; [done|]. by eapply so_ordered.
    + destruct Hres as [Hr'|Hr']; [by destruct (Hfail e)|]. split; [done|]. by intros ?%(blames_unstartable _ _ _ Hnd e Hr').
Qed.
End servers.
