(* ===== verification/DnsGroup.v ===== *)
(** The [group] DNS server ([dns/transport/group]): several servers behind one tag,
    chosen by records of errors and wins that expire.

    A query goes through critical sections; between two of them anything else may
    happen.  The functions are the critical sections, and [dnsgroup_step] a run of them
    in any order.  The servers that are asked are the environment: a step says what
    one of them answered.  Logging, the query trace and the connection test are left
    out. *)

From S2P Require Import Prelude GoBytes GoStrings Netip Metadata DnsMessage.

Definition ModeStable : string := "stable".
Definition ModeFastest : string := "fastest".
Definition ModeParallel : string := "parallel".
Definition DefaultErrorTTL : Z := 120000000000.
Definition DefaultWinTTL : Z := 300000000000.
Definition maxRecords : nat := 64.

(** [member]: the tag and the type of its transport. *)
Record member : Type := mkMember { mb_tag : string; mb_type : string }.
#[export] Instance member_eq_dec : EqDecision member.
Proof. solve_decision. Defined.
(** [memberRecord]; times are nanoseconds. *)
Record memberRecord : Type := mkMemberRecord { mr_errors : list Z; mr_wins : list Z; mr_lastRTT : Z }.

(** [Transport] (of package group). *)
Record GroupTransport : Type := mkGroup {
  g_tag : string;
  g_serverTags : list string;
  g_hostsTags : list string;
  g_mode : string;
  g_errorTTL : Z;
  g_winTTL : Z;
  g_members : list member;
  g_hosts : list member;
  g_records : gmap string memberRecord;
  g_current : string;
  g_election : bool;
  g_gen : nat
}.
Definition with_state (t : GroupTransport) records current election gen : GroupTransport :=
  mkGroup (g_tag t) (g_serverTags t) (g_hostsTags t) (g_mode t) (g_errorTTL t) (g_winTTL t) (g_members t) (g_hosts t) records current election gen.
Definition with_records (t : GroupTransport) records : GroupTransport := with_state t records (g_current t) (g_election t) (g_gen t).
Definition with_members (t : GroupTransport) members hosts : GroupTransport :=
  mkGroup (g_tag t) (g_serverTags t) (g_hostsTags t) (g_mode t) (g_errorTTL t) (g_winTTL t) members hosts (g_records t) (g_current t) (g_election t) (g_gen t).

(** ** Construction and start *)

Definition groupError (tag : string) (l : list string) : goerr := ErrNew (foldr String.append EmptyString ("group["%string :: tag :: "]: "%string :: l)).

(** The loops over [options.Servers] and [options.Hosts]. *)
Fixpoint checkServers (tag : string) (servers : list string) (seen : gset string) : result (gset string) :=
  match servers with
  | [] => Ok seen
  | s :: servers =>
      if String.eqb s tag then Err (groupError tag ["group cannot contain itself"])
      else if bool_decide (s ∈ seen) then Err (groupError tag ["duplicate server: "; s])
      else checkServers tag servers ({[s]} ∪ seen)
  end%string.
Fixpoint checkHosts (tag : string) (hosts : list string) (seen seenHosts : gset string) : result unit :=
  match hosts with
  | [] => Ok tt
  | h :: hosts =>
      if String.eqb h tag then Err (groupError tag ["group cannot contain itself"])
      else if bool_decide (h ∈ seen) then Err (groupError tag ["server "; h; " is listed in both servers and hosts"])
      else if bool_decide (h ∈ seenHosts) then Err (groupError tag ["duplicate hosts server: "; h])
      else checkHosts tag hosts seen ({[h]} ∪ seenHosts)
  end%string.
(** [func NewTransport(ctx, logger, tag, options) (adapter.DNSTransport, error)]. *)
Definition NewGroupTransport (tag : string) (servers hosts : list string) (mode : string) (errorTTL winTTL : Z) : result GroupTransport :=
  if negb (nonempty servers) then Err (groupError tag ["servers is required and must not be empty"%string])
  else
    seen ← checkServers tag servers ∅;
    _ ← checkHosts tag hosts seen ∅;
    mode ← (if String.eqb mode "" then Ok ModeStable
            else if String.eqb mode ModeStable || String.eqb mode ModeFastest || String.eqb mode ModeParallel then Ok mode
            else Err (groupError tag ["unknown mode: "; mode; " (expected "; ModeStable; ", "; ModeFastest; " or "; ModeParallel; ")"]%string));
    let winTTL := if negb (String.eqb mode ModeFastest) then 0 else winTTL in
    let winTTL := if winTTL <=? 0 then DefaultWinTTL else winTTL in
    let errorTTL := if errorTTL <=? 0 then DefaultErrorTTL else errorTTL in
    Ok (mkGroup tag servers hosts mode errorTTL winTTL [] [] ∅ EmptyString false 0).

Definition quote : string := String (ascii_of_N 34) EmptyString.

(** [Start] and [startHosts]; [lookup] is the transport manager: the type of a server
    and whether it reports the names it knows. *)
Fixpoint startMembers (tag : string) (lookup : string → option (string * bool)) (tags : list string) (members : list member) : result (list member) :=
  match tags with
  | [] => Ok members
  | s :: tags =>
      match lookup s with
      | None => Err (groupError tag ["DNS server not found: "; s])
      | Some (type_, _) =>
          if String.eqb type_ "hosts" then Err (groupError tag ["server type hosts is not allowed in servers, put it under "; quote; "hosts"; quote; ": "; s])
          else if String.eqb type_ "fakeip" then Err (groupError tag ["server type "; type_; " is not allowed in a group: "; s])
          else startMembers tag lookup tags (members ++ [mkMember s type_])
      end
  end%string.
Fixpoint startHosts (tag : string) (lookup : string → option (string * bool)) (tags : list string) (members : list member) : result (list member) :=
  match tags with
  | [] => Ok members
  | h :: tags =>
      match lookup h with
      | None => Err (groupError tag ["DNS server not found: "; h])
      | Some (type_, preferred) =>
          if negb (String.eqb type_ "hosts") then Err (groupError tag ["hosts accepts only servers of type hosts, got "; type_; ": "; h])
          else if negb preferred then Err (groupError tag ["server of type hosts does not report the names it knows: "; h])
          else startHosts tag lookup tags (members ++ [mkMember h type_])
      end
  end%string.
Definition GroupTransport_Start (lookup : option (string → option (string * bool))) (t : GroupTransport) : GroupTransport * result unit :=
  match lookup with
  | None => (t, Err (groupError (g_tag t) ["missing DNS transport manager"%string]))
  | Some lookup =>
      match startMembers (g_tag t) lookup (g_serverTags t) (g_members t) with
      | Ok members =>
          match startHosts (g_tag t) lookup (g_hostsTags t) [] with
          | Ok hosts => (with_members t members hosts, Ok tt)
          | Err e => (with_members t members (g_hosts t), Err e)
          | Panic p => (t, Panic p)
          end
      | Err e => (t, Err e)
      | Panic p => (t, Panic p)
      end
  end.

(** ** Records *)

(** [func (t *Transport) Reset()]. *)
Definition GroupTransport_Reset (t : GroupTransport) : GroupTransport := with_state t ∅ EmptyString (g_election t) (S (g_gen t)).

Definition recordOf (t : GroupTransport) (tag : string) : memberRecord := default (mkMemberRecord [] [] 0) (g_records t !! tag).
(** [func pruneTimes(times, ttl, now)]. *)
Fixpoint pruneTimes (times : list Z) (ttl now : Z) : list Z :=
  match times with [] => [] | at_ :: rest => if now - at_ <? ttl then times else pruneTimes rest ttl now end.
(** [func appendCapped(times, at)]. *)
Definition appendCapped (times : list Z) (at_ : Z) : list Z :=
  let times := times ++ [at_] in
  if (maxRecords <? length times)%nat then drop (length times - maxRecords) times else times.

(** [liveErrorsLocked], [liveWinsLocked]: reading drops what has expired. *)
Definition pruneErrors (tag : string) (now : Z) (t : GroupTransport) : GroupTransport :=
  match g_records t !! tag with
  | None => t
  | Some r => with_records t (<[tag := mkMemberRecord (pruneTimes (mr_errors r) (g_errorTTL t) now) (mr_wins r) (mr_lastRTT r)]> (g_records t))
  end.
Definition pruneWins (tag : string) (now : Z) (t : GroupTransport) : GroupTransport :=
  match g_records t !! tag with
  | None => t
  | Some r => with_records t (<[tag := mkMemberRecord (mr_errors r) (pruneTimes (mr_wins r) (g_winTTL t) now) (mr_lastRTT r)]> (g_records t))
  end.
Definition liveErrorsLocked (tag : string) (now : Z) (t : GroupTransport) : GroupTransport * list Z :=
  let t := pruneErrors tag now t in (t, mr_errors (recordOf t tag)).
Definition liveWinsLocked (tag : string) (now : Z) (t : GroupTransport) : GroupTransport * list Z :=
  let t := pruneWins tag now t in (t, mr_wins (recordOf t tag)).

(** [noteError], [noteSuccess], [noteWin], [setCurrent]. *)
Definition noteError (tag : string) (gen : nat) (now : Z) (t : GroupTransport) : GroupTransport :=
  if negb (bool_decide (g_gen t = gen)) then t
  else let r := recordOf t tag in with_records t (<[tag := mkMemberRecord (appendCapped (mr_errors r) now) [] (mr_lastRTT r)]> (g_records t)).
Definition noteSuccess (tag : string) (rtt : Z) (gen : nat) (t : GroupTransport) : GroupTransport :=
  if negb (bool_decide (g_gen t = gen)) then t
  else let r := recordOf t tag in with_records t (<[tag := mkMemberRecord [] (mr_wins r) (if 0 <? rtt then rtt else mr_lastRTT r)]> (g_records t)).
Definition noteWin (tag : string) (gen : nat) (now : Z) (t : GroupTransport) : GroupTransport :=
  if negb (bool_decide (g_gen t = gen)) then t
  else let r := recordOf t tag in with_records t (<[tag := mkMemberRecord (mr_errors r) (appendCapped (mr_wins r) now) (mr_lastRTT r)]> (g_records t)).
Definition setCurrent (tag : string) (gen : nat) (t : GroupTransport) : GroupTransport :=
  if negb (bool_decide (g_gen t = gen)) || String.eqb (g_current t) tag then t
  else with_state t (g_records t) tag (g_election t) (g_gen t).

(** ** Selection *)

(** [selection]; a fan is not nil exactly when it is not empty. *)
Record selection : Type := mkSelection {
  sel_target : option member;
  sel_fan : list member;
  sel_election : bool;
  sel_survival : bool;
  sel_provisional : bool;
  sel_gen : nat
}.

(** [l[rand.IntN(len(l))]], [choice] being the random number. *)
Definition pickRandom (choice : nat) (l : list member) : result member :=
  match l !! (choice mod length l)%nat with Some m => Ok m | None => Panic "invalid argument to IntN" end.

(** The members without live errors. *)
Fixpoint cleanMembers (members : list member) (now : Z) (t : GroupTransport) : GroupTransport * list member :=
  match members with
  | [] => (t, [])
  | m :: members =>
      let '(t, errs) := liveErrorsLocked (mb_tag m) now t in
      let '(t, clean) := cleanMembers members now t in
      (t, if nonempty errs then clean else m :: clean)
  end.
(** [func (t *Transport) stickyPickLocked(candidates) *member]. *)
Definition stickyPickLocked (choice : nat) (t : GroupTransport) (candidates : list member) : result member :=
  match (if String.eqb (g_current t) "" then None else List.find (λ c, String.eqb (mb_tag c) (g_current t)) candidates) with
  | Some c => Ok c
  | None => pickRandom choice candidates
  end.
(** [func (t *Transport) fastestCandidatesLocked(clean, now) ([]*member, int)]. *)
Fixpoint fastestLoop (clean : list member) (now : Z) (best : list member) (maxWins : nat) (t : GroupTransport) : GroupTransport * list member * nat :=
  match clean with
  | [] => (t, best, maxWins)
  | candidate :: clean =>
      let '(t, w) := liveWinsLocked (mb_tag candidate) now t in
      let wins := length w in
      if (maxWins <? wins)%nat then fastestLoop clean now [candidate] wins t
      else if (wins =? maxWins)%nat then fastestLoop clean now (best ++ [candidate]) maxWins t
      else fastestLoop clean now best maxWins t
  end.
(** [func (t *Transport) leastDirtyLocked(now) *member]; [bestCount] is [None] for -1;
    [last.Before] and [last.Equal] on the zero time when there is none. *)
Fixpoint leastDirtyLoop (members : list member) (now : Z) (best : list member) (bestCount : option nat) (bestLast : Z) (t : GroupTransport) : GroupTransport * list member :=
  match members with
  | [] => (t, best)
  | candidate :: members =>
      let '(t, errs) := liveErrorsLocked (mb_tag candidate) now t in
      let count := length errs in
      let last_ := default 0 (last errs) in
      if match bestCount with None => true | Some c => (count <? c)%nat || ((count =? c)%nat && (last_ <? bestLast)) end
      then leastDirtyLoop members now [candidate] (Some count) last_ t
      else if match bestCount with None => false | Some c => (count =? c)%nat end && (last_ =? bestLast)
      then leastDirtyLoop members now (best ++ [candidate]) bestCount bestLast t
      else leastDirtyLoop members now best bestCount bestLast t
  end.
Definition leastDirtyLocked (choice : nat) (now : Z) (t : GroupTransport) : GroupTransport * result member :=
  let '(t, best) := leastDirtyLoop (g_members t) now [] None 0 t in (t, pickRandom choice best).

(** [func (t *Transport) selectTarget() (selection, error)]. *)
Definition selectTarget (now : Z) (choice : nat) (t : GroupTransport) : GroupTransport * result selection :=
  if negb (nonempty (g_members t)) then (t, Err (groupError (g_tag t) ["not started"%string]))
  else
    let '(t, clean) := cleanMembers (g_members t) now t in
    if negb (nonempty clean) then
      let '(t, target) := leastDirtyLocked choice now t in
      (t, m ← target; Ok (mkSelection (Some m) [] false true false (g_gen t)))
    else if String.eqb (g_mode t) ModeParallel then (t, Ok (mkSelection None clean false false false (g_gen t)))
    else if String.eqb (g_mode t) ModeFastest then
      let '(t, best, maxWins) := fastestLoop clean now [] 0 t in
      if (0 <? maxWins)%nat then (t, m ← stickyPickLocked choice t best; Ok (mkSelection (Some m) [] false false false (g_gen t)))
      else if negb (g_election t) then
        (with_state t (g_records t) (g_current t) true (g_gen t), Ok (mkSelection None clean true false false (g_gen t)))
      else (t, m ← pickRandom choice clean; Ok (mkSelection (Some m) [] false false true (g_gen t)))
    else (t, m ← stickyPickLocked choice t clean; Ok (mkSelection (Some m) [] false false false (g_gen t))).

(** [func (t *Transport) cleanExcept(exceptTag) []*member]. *)
Definition cleanExcept (except : string) (now : Z) (t : GroupTransport) : GroupTransport * list member :=
  cleanMembers (filter (λ m, mb_tag m ≠ except) (g_members t)) now t.

(** [MemberState] and [State]. *)
Record MemberState : Type := mkMemberState {
  ms_Tag : string;
  ms_ServerType : string;
  ms_Clean : bool;
  ms_LiveErrors : nat;
  ms_LastErrorAge : option Z;
  ms_LiveWins : nat;
  ms_Current : bool;
  ms_LastRTT : Z
}.
(** [func (t *Transport) GroupState() State]: its members. *)
Fixpoint groupState (members : list member) (now : Z) (t : GroupTransport) : GroupTransport * list MemberState :=
  match members with
  | [] => (t, [])
  | m :: members =>
      let '(t, errs) := liveErrorsLocked (mb_tag m) now t in
      let '(t, wins) := liveWinsLocked (mb_tag m) now t in
      let s := mkMemberState (mb_tag m) (mb_type m) (negb (nonempty errs)) (length errs) ((λ at_, now - at_) <$> last errs) (length wins)
                 (String.eqb (mb_tag m) (g_current t)) (mr_lastRTT (recordOf t (mb_tag m))) in
      let '(t, rest) := groupState members now t in (t, s :: rest)
  end.

(** ** Exchanges *)

(** What a server returns, and what [Exchange] does. *)
Definition answer : Type := option Message * option goerr.

Section exchange.
(** [errors.As(err, &rcode)] for a [dns.RcodeError]. *)
Context (As_RcodeError : goerr → option Z).

(** [func isFailure(response, err) bool]. *)
Definition isFailure (a : answer) : bool :=
  match a with
  | (_, Some err) => match As_RcodeError err with Some rcode => rcode =? RcodeServerFailure | None => true end
  | (Some response, None) => Rcode response =? RcodeServerFailure
  | (None, None) => false
  end.

(** [func outcomeOf(response, err) string]; [timeout] says whether the error is a
    deadline that was exceeded. *)
Definition outcomeOf (timeout : goerr → bool) (a : answer) : string :=
  if negb (isFailure a) then "answered"
  else match a.2 with
  | Some err =>
      if match As_RcodeError err with Some rcode => rcode =? RcodeServerFailure | None => false end then "servfail"
      else if timeout err then "timeout" else "network_error"
  | None => "servfail"
  end.

(** [func (t *Transport) exchangeHosts(ctx, message) (response, bool)]: [preferred] is
    [PreferredDomain] of a hosts member and [ask] its [Exchange], which is local. *)
Fixpoint exchangeHosts_loop (preferred : string → string → bool) (ask : string → Message → answer) (domain : string) (message : Message) (hosts : list member) : option Message :=
  match hosts with
  | [] => None
  | h :: hosts =>
      if negb (preferred (mb_tag h) domain) then exchangeHosts_loop preferred ask domain message hosts
      else match ask (mb_tag h) message with
        | (Some response, None) => if Rcode response =? 0 then Some response else exchangeHosts_loop preferred ask domain message hosts
        | _ => exchangeHosts_loop preferred ask domain message hosts
        end
  end.
Definition exchangeHosts {EX : External} (preferred : string → string → bool) (ask : string → Message → answer) (message : Message) (t : GroupTransport) : option Message :=
  if negb (nonempty (g_hostsTags t)) then None
  else match Question_ message with
  | [] => None
  | question :: _ =>
      if negb (q_Qtype question =? TypeA) && negb (q_Qtype question =? TypeAAAA) then None
      else exchangeHosts_loop preferred ask (dns_CanonicalName (q_Name question)) message (g_hosts t)
  end.

(** [func (t *Transport) targetBudget(ctx) time.Duration]: half of what remains. *)
Definition targetBudget (remaining : option Z) : Z :=
  match remaining with Some r => if 0 <? r then r / 2 else 5000000000 | None => 5000000000 end.

(** Where the goroutine of [collectFan] is: waiting for a result, after
    [noteSuccess], or after [noteWin]. *)
Inductive collector : Type := Receive | Succeeded (tag : string) (a : answer) | Winning (tag : string) (a : answer).

(** A fan: the participants whose results are not there yet, the errors, whether an
    answer was delivered, and what is in the channel of the winner. *)
Record fanState : Type := mkFan {
  f_pending : list string;
  f_errs : list goerr;
  f_delivered : bool;
  f_winner : option answer;
  f_gen : nat;
  f_election : bool;
  f_pc : collector
}.

(** Where a query is.  [AskTarget] waits for the only server that is asked;
    [TargetFailed] is before [cleanExcept]. *)
Inductive queryState : Type :=
| Chosen (sel : selection)
| AskTarget (sel : selection) (target : member)
| TargetFailed (sel : selection) (target : member) (a : answer)
| Fanning (f : fanState)
| FanEnded (winner : answer)
| QueryEnded.
Record query : Type := mkQuery { q_state : queryState; q_cancelled : bool; q_answer : option answer }.
Definition with_q (q : query) (s : queryState) : query := mkQuery s (q_cancelled q) (q_answer q).

Definition startFan (participants : list member) (gen : nat) (election : bool) : queryState :=
  Fanning (mkFan (mb_tag <$> participants) [] false None gen election Receive).

(** The head of [Exchange] after [selectTarget], up to the exchange with the target. *)
Definition beginQuery (sel : selection) (t : GroupTransport) : GroupTransport * queryState :=
  if nonempty (sel_fan sel) then (t, startFan (sel_fan sel) (sel_gen sel) (sel_election sel))
  else match sel_target sel with
  | None => (t, QueryEnded)
  | Some target =>
      if sel_survival sel || sel_provisional sel then (t, AskTarget sel target)
      else (setCurrent (mb_tag target) (sel_gen sel) t, AskTarget sel target)
  end.

(** [exchangeSurvival] and the first half of [exchangeSingle], when the target has
    answered. *)
Definition targetAnswered (sel : selection) (target : member) (a : answer) (rtt now : Z) (q : query) (t : GroupTransport) : GroupTransport * query :=
  if negb (isFailure a) then (noteSuccess (mb_tag target) rtt (sel_gen sel) t, mkQuery QueryEnded (q_cancelled q) (Some a))
  else
    let t := noteError (mb_tag target) (sel_gen sel) now t in
    if sel_survival sel then (t, mkQuery QueryEnded (q_cancelled q) (Some a)) else (t, with_q q (TargetFailed sel target a)).
(** The second half of [exchangeSingle]. *)
Definition rescue (sel : selection) (target : member) (a : answer) (now : Z) (q : query) (t : GroupTransport) : GroupTransport * query :=
  let '(t, rescuers) := cleanExcept (mb_tag target) now t in
  if negb (nonempty rescuers) then (t, mkQuery QueryEnded (q_cancelled q) (Some a))
  else (t, with_q q (startFan rescuers (sel_gen sel) false)).

(** [collectFan]: a result arrives. *)
Definition collectResult (tag : string) (a : answer) (rtt now : Z) (cancelled : bool) (f : fanState) (t : GroupTransport) : GroupTransport * fanState :=
  let pending := filter (λ p, p ≠ tag) (f_pending f) in
  if isFailure a then
    if cancelled then (t, mkFan pending (f_errs f) (f_delivered f) (f_winner f) (f_gen f) (f_election f) Receive)
    else
      let e := match a.2 with Some err => ErrCause err tag | None => ErrNew (String.append tag ": SERVFAIL") end in
      (noteError tag (f_gen f) now t, mkFan pending (f_errs f ++ [e]) (f_delivered f) (f_winner f) (f_gen f) (f_election f) Receive)
  else (noteSuccess tag rtt (f_gen f) t, mkFan pending (f_errs f) (f_delivered f) (f_winner f) (f_gen f) (f_election f) (Succeeded tag a)).
(** After [noteSuccess]: a success of a request that is over, or a late one, wins
    nothing. *)
Definition collectWin (tag : string) (a : answer) (now : Z) (cancelled : bool) (f : fanState) (t : GroupTransport) : GroupTransport * fanState :=
  if cancelled || f_delivered f then (t, mkFan (f_pending f) (f_errs f) (f_delivered f) (f_winner f) (f_gen f) (f_election f) Receive)
  else (if String.eqb (g_mode t) ModeFastest then noteWin tag (f_gen f) now t else t,
        mkFan (f_pending f) (f_errs f) true (f_winner f) (f_gen f) (f_election f) (Winning tag a)).
(** The sticky target, and the answer. *)
Definition collectCurrent (tag : string) (a : answer) (f : fanState) (t : GroupTransport) : GroupTransport * fanState :=
  (if String.eqb (g_mode t) ModeParallel then t else setCurrent tag (f_gen f) t,
   mkFan (f_pending f) (f_errs f) (f_delivered f) (Some a) (f_gen f) (f_election f) Receive).
(** The end of [collectFan]; [Errors] is [E.Errors] and [cause] the error of the
    request's context when it is over. *)
Definition collectEnd (Errors : list goerr → option goerr) (cause : option goerr) (f : fanState) (t : GroupTransport) : GroupTransport * answer :=
  (if f_election f then with_state t (g_records t) (g_current t) false (g_gen t) else t,
   if f_delivered f then default (None, None) (f_winner f)
   else match Errors (f_errs f) with
     | Some failure => (None, Some failure)
     | None => (None, Some (match cause with
         | Some e => ErrCause e (foldr String.append EmptyString ["group["; g_tag t; "]: all fan probes abandoned"]%string)
         | None => groupError (g_tag t) ["fan yielded no result"%string] end))
     end).
(** What [fan] returns for the result in the channel. *)
Definition fanReturns (tag : string) (cause : option goerr) (a : answer) : answer :=
  match a with
  | (None, None) => (None, Some (default (groupError tag ["fan yielded no result"%string]) cause))
  | _ => a
  end.
End exchange.

(** ** Runs *)

(** The history: what was noted, of which generation, and the resets. *)
Inductive noted : Type :=
| NotedError (tag : string) (at_ : Z) (gen : nat)
| NotedSuccess (tag : string) (gen : nat)
| NotedWin (tag : string) (at_ : Z) (gen : nat)
| NotedReset.

(** The group, its queries, the time, and the history, which is not in the code. *)
Record groupWorld : Type := mkWorld {
  w_group : GroupTransport;
  w_queries : gmap nat query;
  w_now : Z;
  w_log : list noted
}.
Definition with_query (w : groupWorld) (id : nat) (t : GroupTransport) (q : query) (log : list noted) : groupWorld :=
  mkWorld t (<[id := q]> (w_queries w)) (w_now w) (w_log w ++ log).

Section runs.
Context (As_RcodeError : goerr → option Z) (Errors : list goerr → option goerr) (ctx_Err : goerr).
(** What the server with a tag may return. *)
Context (may_return : string → answer → Prop).

Definition noteOf (tag : string) (gen : nat) (now : Z) (a : answer) : noted :=
  if isFailure As_RcodeError a then NotedError tag now gen else NotedSuccess tag gen.
Definition causeOf (q : query) : option goerr := if q_cancelled q then Some ctx_Err else None.

Inductive dnsgroup_step (w : groupWorld) : groupWorld → Prop :=
| step_tick now : w_now w ≤ now → dnsgroup_step w (mkWorld (w_group w) (w_queries w) now (w_log w))
| step_reset : dnsgroup_step w (mkWorld (GroupTransport_Reset (w_group w)) (w_queries w) (w_now w) (w_log w ++ [NotedReset]))
| step_query id choice t sel :
    w_queries w !! id = None → selectTarget (w_now w) choice (w_group w) = (t, Ok sel) →
    dnsgroup_step w (with_query w id t (mkQuery (Chosen sel) false None) [])
| step_refused id choice t e :
    w_queries w !! id = None → selectTarget (w_now w) choice (w_group w) = (t, Err e) →
    dnsgroup_step w (with_query w id t (mkQuery QueryEnded false (Some (None, Some e))) [])
| step_begin id q sel t s :
    w_queries w !! id = Some q → q_state q = Chosen sel → beginQuery sel (w_group w) = (t, s) →
    dnsgroup_step w (with_query w id t (with_q q s) [])
| step_target id q sel target a rtt t q' :
    w_queries w !! id = Some q → q_state q = AskTarget sel target → may_return (mb_tag target) a →
    targetAnswered As_RcodeError sel target a rtt (w_now w) q (w_group w) = (t, q') →
    dnsgroup_step w (with_query w id t q' [noteOf (mb_tag target) (sel_gen sel) (w_now w) a])
| step_rescue id q sel target a t q' :
    w_queries w !! id = Some q → q_state q = TargetFailed sel target a → rescue sel target a (w_now w) q (w_group w) = (t, q') →
    dnsgroup_step w (with_query w id t q' [])
| step_result id q f tag a rtt t f' :
    w_queries w !! id = Some q → q_state q = Fanning f → f_pc f = Receive → tag ∈ f_pending f → may_return tag a →
    collectResult As_RcodeError tag a rtt (w_now w) (q_cancelled q) f (w_group w) = (t, f') →
    dnsgroup_step w (with_query w id t (with_q q (Fanning f'))
      (if isFailure As_RcodeError a && q_cancelled q then [] else [noteOf tag (f_gen f) (w_now w) a]))
| step_win id q f tag a t f' :
    w_queries w !! id = Some q → q_state q = Fanning f → f_pc f = Succeeded tag a → collectWin tag a (w_now w) (q_cancelled q) f (w_group w) = (t, f') →
    dnsgroup_step w (with_query w id t (with_q q (Fanning f'))
      (if q_cancelled q || f_delivered f || negb (String.eqb (g_mode (w_group w)) ModeFastest) then [] else [NotedWin tag (w_now w) (f_gen f)]))
| step_current id q f tag a t f' :
    w_queries w !! id = Some q → q_state q = Fanning f → f_pc f = Winning tag a → collectCurrent tag a f (w_group w) = (t, f') →
    dnsgroup_step w (with_query w id t (with_q q (Fanning f')) [])
| step_end id q f t a :
    w_queries w !! id = Some q → q_state q = Fanning f → f_pc f = Receive → f_pending f = [] →
    collectEnd Errors (causeOf q) f (w_group w) = (t, a) →
    dnsgroup_step w (with_query w id t (with_q q (FanEnded a)) [])
| step_take id q a :
    w_queries w !! id = Some q → q_answer q = None → (q_state q = FanEnded a ∨ ∃ f, q_state q = Fanning f ∧ f_winner f = Some a) →
    dnsgroup_step w (with_query w id (w_group w) (mkQuery (q_state q) (q_cancelled q) (Some (fanReturns (g_tag (w_group w)) (causeOf q) a))) [])
| step_leave id q :
    w_queries w !! id = Some q → q_answer q = None → q_cancelled q = true → (∃ f, q_state q = Fanning f) ∨ (∃ a, q_state q = FanEnded a) →
    dnsgroup_step w (with_query w id (w_group w) (mkQuery (q_state q) true (Some (None, Some ctx_Err))) [])
| step_cancel id q :
    w_queries w !! id = Some q → dnsgroup_step w (with_query w id (w_group w) (mkQuery (q_state q) true (q_answer q)) []).

(** A run of a group that was just started. *)
Inductive dnsgroup_run (t : GroupTransport) (now : Z) : groupWorld → Prop :=
| run_start : dnsgroup_run t now (mkWorld t ∅ now [])
| run_step w w' : dnsgroup_run t now w → dnsgroup_step w w' → dnsgroup_run t now w'.
End runs.
