(* ===== verification/DnsGroupTheorems.v ===== *)
(** The [group] DNS server is right: its records are those of the history, it selects
    by them, an election has one owner, and every query comes to an end. *)

From Stdlib Require Import Sorting.Sorted.
From S2P Require Import Prelude GoBytes GoStrings Netip Metadata DnsMessage DnsGroup.

(** ** Times *)

Definition alive (ttl now at_ : Z) : bool := now - at_ <? ttl.

(** The list [times] of the code stands for the list [spec] of all that was noted:
    it has lost old entries that are dead, or it is full. *)
Definition tracks (ttl now : Z) (spec times : list Z) : Prop :=
  StronglySorted Z.le spec ∧ Forall (λ a, a ≤ now) spec ∧ ∃ pre, spec = pre ++ times ∧ (length times ≤ maxRecords)%nat ∧
    (length times = maxRecords ∨ Forall (λ a, alive ttl now a = false) pre).

Lemma alive_later ttl now now' a : now ≤ now' → alive ttl now a = false → alive ttl now' a = false.
Proof. unfold alive. lia. Qed.
Lemma alive_older ttl now a b : a ≤ b → alive ttl now b = false → alive ttl now a = false.
Proof. unfold alive. lia. Qed.

Lemma prune_split times ttl now : ∃ dead, times = dead ++ pruneTimes times ttl now ∧ Forall (λ a, alive ttl now a = false) dead ∧
  match pruneTimes times ttl now with [] => True | a :: _ => alive ttl now a = true end.
Proof.
  induction times as [|a times IH]; cbn; [by exists []|]. fold (alive ttl now a). destruct (alive ttl now a) eqn:Ha; [by exists []|].
  destruct IH as (dead & E & Hd & Hp). exists (a :: dead). split_and!; [by rewrite <- app_comm_cons, <- E|by constructor|done].
Qed.
Lemma prune_idem times ttl now : pruneTimes (pruneTimes times ttl now) ttl now = pruneTimes times ttl now.
Proof. destruct (prune_split times ttl now) as (_ & _ & _ & H). destruct (pruneTimes times ttl now) as [|a l]; [done|]. cbn. fold (alive ttl now a). by rewrite H. Qed.

Lemma sorted_snoc l a : StronglySorted Z.le l → Forall (λ b, b ≤ a) l → StronglySorted Z.le (l ++ [a]).
Proof. induction 1 as [|b l Hl IH Hb]; intros Ha; cbn; [repeat constructor|]. inversion Ha; subst. constructor; [by apply IH|]. apply Forall_app. by repeat constructor. Qed.
Lemma sorted_app l k : StronglySorted Z.le (l ++ k) → StronglySorted Z.le k ∧ ∀ a b, a ∈ l → b ∈ k → a ≤ b.
Proof.
  induction l as [|x l IH]; cbn; [intros H; split; [done|]; by intros a b ?%elem_of_nil|]. intros [H Hx]%StronglySorted_inv. destruct (IH H) as [Hk Hlk]. split; [done|].
  intros a b [->|Ha]%elem_of_cons Hb; [|by apply Hlk]. rewrite Forall_forall in Hx. apply Hx, elem_of_app. by right.
Qed.

Lemma tracks_nil ttl now : tracks ttl now [] [].
Proof. split_and!; [constructor..|]. exists []. split_and!; [done|cbn; lia|by right]. Qed.
Lemma tracks_later ttl now now' spec times : now ≤ now' → tracks ttl now spec times → tracks ttl now' spec times.
Proof.
  intros Hle (Hs & Hn & pre & E & Hlen & H). split_and!; [done|eapply Forall_impl; [exact Hn|]; cbn; lia|]. exists pre. split_and!; [done..|].
  destruct H as [H|H]; [by left|right]. eapply Forall_impl; [exact H|]. intros a. by apply alive_later.
Qed.
Lemma tracks_append ttl now spec times : tracks ttl now spec times → tracks ttl now (spec ++ [now]) (appendCapped times now).
Proof.
  intros (Hs & Hn & pre & E & Hlen & H). split_and!; [by apply sorted_snoc|apply Forall_app; repeat constructor; [done|cbn; lia]|]. unfold appendCapped. rewrite length_app. cbn [length].
  destruct (Nat.ltb_spec maxRecords (length times + 1)) as [Hl|Hl].
  - exists (pre ++ take (length times + 1 - maxRecords) (times ++ [now])). rewrite length_drop, length_app. cbn [length]. split_and!; [|lia|left; lia].
    rewrite <- app_assoc, take_drop, E, <- app_assoc. done.
  - exists pre. rewrite length_app. cbn [length]. split_and!; [by rewrite E, <- app_assoc|lia|]. destruct H as [H|H]; [lia|by right].
Qed.
Lemma tracks_prune ttl now spec times : tracks ttl now spec times → tracks ttl now spec (pruneTimes times ttl now).
Proof.
  intros (Hs & Hn & pre & E & Hlen & H). destruct (prune_split times ttl now) as (dead & E' & Hd & _). split_and!; [done..|]. exists (pre ++ dead).
  rewrite E' in Hlen. rewrite length_app in Hlen. split_and!; [by rewrite <- app_assoc, <- E'|lia|].
  destruct dead as [|d dead]; [rewrite app_nil_r; cbn in E'; by rewrite <- E'|]. right. apply Forall_app. split; [|done].
  rewrite Forall_forall. intros a Ha. eapply (alive_older ttl now a d); [|by inversion Hd]. rewrite E, E' in Hs. destruct (sorted_app _ _ Hs) as [_ Hlk]. apply Hlk; [done|]. by left.
Qed.
Lemma filter_drops_all {A} (P : A → Prop) `{∀ x, Decision (P x)} l : Forall (λ x, ¬ P x) l → filter P l = [].
Proof. induction 1 as [|x l Hx _ IH]; [done|]. by rewrite filter_cons_False. Qed.
Lemma filter_all {A} (P : A → Prop) `{∀ x, Decision (P x)} l : Forall P l → filter P l = l.
Proof. induction 1 as [|x l Hx _ IH]; [done|]. by rewrite filter_cons_True, IH. Qed.

(** How many live entries there are. *)
Lemma tracks_live ttl now spec times : tracks ttl now spec times →
  length (pruneTimes times ttl now) = Nat.min maxRecords (length (filter (λ a, alive ttl now a = true) spec)).
Proof.
  intros (Hs & Hn & pre & E & Hlen & H). destruct (prune_split times ttl now) as (dead & E' & Hd & Hp). set (rest := pruneTimes times ttl now) in *.
  assert (Hrest : Forall (λ a, alive ttl now a = true) rest).
  { destruct rest as [|a tl_] eqn:Er; [constructor|]. constructor; [done|]. rewrite E in Hs. apply sorted_app in Hs as [Hs _]. rewrite E' in Hs. apply sorted_app in Hs as [Hs _].
    apply StronglySorted_inv in Hs as [_ Ha]. eapply Forall_impl; [exact Ha|]. intros b Hab. unfold alive in *. lia. }
  assert (Hnot : ∀ l, Forall (λ a, alive ttl now a = false) l → filter (λ a, alive ttl now a = true) l = []).
  { intros l Hl. apply filter_drops_all. eapply Forall_impl; [exact Hl|]. intros a ->. done. }
  rewrite E, E', !filter_app, (Hnot dead Hd), (filter_all _ rest Hrest), !length_app. cbn [length app]. assert (Hlen2 : (length dead + length rest ≤ maxRecords)%nat) by (rewrite E' in Hlen; rewrite length_app in Hlen; done).
  destruct dead as [|d dead].
  - cbn in E', Hlen2. destruct H as [H|H]; [assert (length rest = maxRecords) by (by rewrite <- E'); unfold maxRecords in *; lia|]. rewrite (Hnot pre H). cbn [length]. unfold maxRecords in *. lia.
  - rewrite (Hnot pre); [cbn [length] in *; unfold maxRecords in *; lia|]. rewrite Forall_forall. intros a Ha. eapply (alive_older ttl now a d); [|by inversion Hd].
    rewrite E, E' in Hs. destruct (sorted_app _ _ Hs) as [_ Hlk]. apply Hlk; [done|]. by left.
Qed.

(** ** The history *)

(** The failures and the wins of a server that count after [log], and the
    generation: those of an older generation never do. *)
Definition histStep (tag : string) (h : nat * list Z * list Z) (e : noted) : nat * list Z * list Z :=
  let '(gen, errs, wins) := h in
  match e with
  | NotedReset => (S gen, [], [])
  | NotedError t at_ g => if String.eqb t tag && bool_decide (g = gen) then (gen, errs ++ [at_], []) else h
  | NotedSuccess t g => if String.eqb t tag && bool_decide (g = gen) then (gen, [], wins) else h
  | NotedWin t at_ g => if String.eqb t tag && bool_decide (g = gen) then (gen, errs, wins ++ [at_]) else h
  end.
Definition history (gen : nat) (log : list noted) (tag : string) : nat * list Z * list Z := fold_left (histStep tag) log (gen, [], []).
Definition failuresOf gen log tag : list Z := (history gen log tag).1.2.
Definition winsOf gen log tag : list Z := (history gen log tag).2.

Lemma history_snoc gen log e tag : history gen (log ++ [e]) tag = histStep tag (history gen log tag) e.
Proof. unfold history. by rewrite fold_left_app. Qed.

(** The records of the code track the history. *)
Definition records_track (gen0 : nat) (now : Z) (log : list noted) (t : GroupTransport) : Prop :=
  ∀ tag, (history gen0 log tag).1.1 = g_gen t ∧
    tracks (g_errorTTL t) now (failuresOf gen0 log tag) (mr_errors (recordOf t tag)) ∧
    tracks (g_winTTL t) now (winsOf gen0 log tag) (mr_wins (recordOf t tag)).

(** What never changes. *)
Definition same_setup (t t' : GroupTransport) : Prop :=
  g_tag t' = g_tag t ∧ g_mode t' = g_mode t ∧ g_errorTTL t' = g_errorTTL t ∧ g_winTTL t' = g_winTTL t ∧ g_members t' = g_members t.
#[export] Instance same_setup_refl : Reflexive same_setup.
Proof. by intros t. Qed.
#[export] Instance same_setup_trans : Transitive same_setup.
Proof. intros t1 t2 t3 (? & ? & ? & ? & ?) (? & ? & ? & ? & ?). split_and!; congruence. Qed.

Lemma recordOf_insert t records tag r : recordOf (with_records t (<[tag := r]> records)) tag = r.
Proof. unfold recordOf. cbn. by rewrite lookup_insert_eq. Qed.
Lemma recordOf_other t tag tag' r : tag ≠ tag' → recordOf (with_records t (<[tag := r]> (g_records t))) tag' = recordOf t tag'.
Proof. intros H. unfold recordOf. cbn. by rewrite lookup_insert_ne. Qed.

(** Reading only prunes. *)
Definition pruned (now : Z) (t t' : GroupTransport) : Prop :=
  same_setup t t' ∧ g_current t' = g_current t ∧ g_election t' = g_election t ∧ g_gen t' = g_gen t ∧
  ∀ tag, (mr_errors (recordOf t' tag) = mr_errors (recordOf t tag) ∨ mr_errors (recordOf t' tag) = pruneTimes (mr_errors (recordOf t tag)) (g_errorTTL t) now) ∧
    (mr_wins (recordOf t' tag) = mr_wins (recordOf t tag) ∨ mr_wins (recordOf t' tag) = pruneTimes (mr_wins (recordOf t tag)) (g_winTTL t) now).

#[export] Instance pruned_refl now : Reflexive (pruned now).
Proof. intros t. split_and!; [done..|]. intros tag. auto. Qed.
#[export] Instance pruned_trans now : Transitive (pruned now).
Proof.
  intros t1 t2 t3 (HA & ? & ? & ? & Ha) (HB & ? & ? & ? & Hb). split_and!; [by etrans|congruence..|]. intros tag. destruct HA as (_ & _ & E1 & E2 & _). rewrite E1, E2 in Hb.
  destruct (Ha tag) as [Ha1 Ha2], (Hb tag) as [Hb1 Hb2]. split.
  - destruct Ha1 as [Ha1|Ha1], Hb1 as [Hb1|Hb1]; rewrite Hb1, Ha1, ?prune_idem; auto.
  - destruct Ha2 as [Ha2|Ha2], Hb2 as [Hb2|Hb2]; rewrite Hb2, Ha2, ?prune_idem; auto.
Qed.
Lemma pruned_live now t t' tag : pruned now t t' →
  pruneTimes (mr_errors (recordOf t' tag)) (g_errorTTL t') now = pruneTimes (mr_errors (recordOf t tag)) (g_errorTTL t) now ∧
  pruneTimes (mr_wins (recordOf t' tag)) (g_winTTL t') now = pruneTimes (mr_wins (recordOf t tag)) (g_winTTL t) now.
Proof. intros ((_ & _ & -> & -> & _) & _ & _ & _ & H). destruct (H tag) as [[->| ->] [->| ->]]; by rewrite ?prune_idem. Qed.
Lemma pruneErrors_pruned tag now t : pruned now t (pruneErrors tag now t) ∧ mr_errors (recordOf (pruneErrors tag now t) tag) = pruneTimes (mr_errors (recordOf t tag)) (g_errorTTL t) now.
Proof.
  unfold pruneErrors. destruct (g_records t !! tag) as [r|] eqn:Hr.
  - assert (Hrec : recordOf t tag = r) by (unfold recordOf; by rewrite Hr). rewrite recordOf_insert, Hrec. split; [|done]. split_and!; [done..|]. intros tag'. destruct (decide (tag = tag')) as [<-|Hne].
    + rewrite recordOf_insert, Hrec. cbn. auto.
    + rewrite recordOf_other by done. auto.
  - split; [done|]. unfold recordOf. by rewrite Hr.
Qed.
Lemma pruneWins_pruned tag now t : pruned now t (pruneWins tag now t) ∧ mr_wins (recordOf (pruneWins tag now t) tag) = pruneTimes (mr_wins (recordOf t tag)) (g_winTTL t) now.
Proof.
  unfold pruneWins. destruct (g_records t !! tag) as [r|] eqn:Hr.
  - assert (Hrec : recordOf t tag = r) by (unfold recordOf; by rewrite Hr). rewrite recordOf_insert, Hrec. split; [|done]. split_and!; [done..|]. intros tag'. destruct (decide (tag = tag')) as [<-|Hne].
    + rewrite recordOf_insert, Hrec. cbn. auto.
    + rewrite recordOf_other by done. auto.
  - split; [done|]. unfold recordOf. by rewrite Hr.
Qed.
Lemma pruned_track gen0 now log t t' : pruned now t t' → records_track gen0 now log t → records_track gen0 now log t'.
Proof.
  intros ((_ & _ & E1 & E2 & _) & _ & _ & E3 & H) Ht tag. destruct (Ht tag) as (Hg & He & Hw), (H tag) as [[->| ->] [->| ->]]; rewrite E1, E2, E3; split_and!; try done; by apply tracks_prune.
Qed.

(** ** Notes *)

Lemma note_track gen0 now log t t' e :
  records_track gen0 now log t → same_setup t t' →
  (∀ tag, let '(gen, errs, wins) := histStep tag (g_gen t, failuresOf gen0 log tag, winsOf gen0 log tag) e in
    gen = g_gen t' ∧ tracks (g_errorTTL t) now errs (mr_errors (recordOf t' tag)) ∧ tracks (g_winTTL t) now wins (mr_wins (recordOf t' tag))) →
  records_track gen0 now (log ++ [e]) t'.
Proof.
  intros Ht (_ & _ & E1 & E2 & _) H tag. specialize (H tag). destruct (Ht tag) as [Hg _]. unfold failuresOf, winsOf in *. rewrite history_snoc.
  destruct (history gen0 log tag) as [[gen errs] wins]. cbn in Hg. subst gen. cbn [fst snd] in *. destruct (histStep tag _ e) as [[gen' errs'] wins']. cbn. rewrite E1, E2. done.
Qed.

Lemma noteError_track gen0 now log t tag gen : records_track gen0 now log t → records_track gen0 now (log ++ [NotedError tag now gen]) (noteError tag gen now t).
Proof.
  intros Ht. unfold noteError. case_bool_decide as Hg; cbn [negb].
  - apply (note_track _ _ _ t); [done..|]. intros tag'. destruct (Ht tag') as (_ & He & Hw). cbn. rewrite (bool_decide_true _ (eq_sym Hg)), andb_true_r.
    destruct (String.eqb_spec tag tag') as [<-|Hne]; [rewrite recordOf_insert|rewrite recordOf_other by done]; split_and!; try done; [by apply tracks_append|apply tracks_nil].
  - apply (note_track _ _ _ t); [done..|]. intros tag'. destruct (Ht tag') as (_ & He & Hw). cbn. by rewrite bool_decide_false, andb_false_r by congruence.
Qed.
Lemma noteSuccess_track gen0 now log t tag rtt gen : records_track gen0 now log t → records_track gen0 now (log ++ [NotedSuccess tag gen]) (noteSuccess tag rtt gen t).
Proof.
  intros Ht. unfold noteSuccess. case_bool_decide as Hg; cbn [negb].
  - apply (note_track _ _ _ t); [done..|]. intros tag'. destruct (Ht tag') as (_ & He & Hw). cbn. rewrite (bool_decide_true _ (eq_sym Hg)), andb_true_r.
    destruct (String.eqb_spec tag tag') as [<-|Hne]; [rewrite recordOf_insert|rewrite recordOf_other by done]; split_and!; try done. apply tracks_nil.
  - apply (note_track _ _ _ t); [done..|]. intros tag'. destruct (Ht tag') as (_ & He & Hw). cbn. by rewrite bool_decide_false, andb_false_r by congruence.
Qed.
Lemma noteWin_track gen0 now log t tag gen : records_track gen0 now log t → records_track gen0 now (log ++ [NotedWin tag now gen]) (noteWin tag gen now t).
Proof.
  intros Ht. unfold noteWin. case_bool_decide as Hg; cbn [negb].
  - apply (note_track _ _ _ t); [done..|]. intros tag'. destruct (Ht tag') as (_ & He & Hw). cbn. rewrite (bool_decide_true _ (eq_sym Hg)), andb_true_r.
    destruct (String.eqb_spec tag tag') as [<-|Hne]; [rewrite recordOf_insert|rewrite recordOf_other by done]; split_and!; try done. by apply tracks_append.
  - apply (note_track _ _ _ t); [done..|]. intros tag'. destruct (Ht tag') as (_ & He & Hw). cbn. by rewrite bool_decide_false, andb_false_r by congruence.
Qed.
Lemma Reset_track gen0 now log t : records_track gen0 now log t → records_track gen0 now (log ++ [NotedReset]) (GroupTransport_Reset t).
Proof. intros Ht. apply (note_track _ _ _ t); [done..|]. intros tag. cbn. split_and!; [done|apply tracks_nil..]. Qed.
Lemma setCurrent_track gen0 now log t tag gen : records_track gen0 now log t → records_track gen0 now log (setCurrent tag gen t).
Proof. intros Ht. unfold setCurrent. by destruct (_ || _). Qed.

(** ** Selection *)

Section selection.
Context (now : Z).
(** The live entries of a member. *)
Definition liveErrors (t : GroupTransport) (m : member) : list Z := pruneTimes (mr_errors (recordOf t (mb_tag m))) (g_errorTTL t) now.
Definition liveWins (t : GroupTransport) (m : member) : list Z := pruneTimes (mr_wins (recordOf t (mb_tag m))) (g_winTTL t) now.

Lemma cleanMembers_spec members t : ∃ t', cleanMembers members now t = (t', filter (λ m, liveErrors t m = []) members) ∧ pruned now t t'.
Proof.
  revert t. induction members as [|m members IH]; intros t; cbn [cleanMembers]; [by exists t|]. unfold liveErrorsLocked. cbv zeta.
  destruct (pruneErrors_pruned (mb_tag m) now t) as [Hp He]. destruct (IH (pruneErrors (mb_tag m) now t)) as (t' & -> & Hp'). exists t'. split; [|by etrans].
  f_equal. rewrite He. fold (liveErrors t m).
  assert (Hsame : ∀ k, liveErrors (pruneErrors (mb_tag m) now t) k = liveErrors t k) by (intros k; by apply pruned_live).
  rewrite (list_filter_iff (λ k, liveErrors (pruneErrors (mb_tag m) now t) k = []) (λ k, liveErrors t k = [])) by (intros k; by rewrite Hsame).
  destruct (liveErrors t m) eqn:E; cbn [nonempty]; [by rewrite filter_cons_True|by rewrite filter_cons_False by (by rewrite E)].
Qed.

(** The candidates of the mode "fastest" are the members with the most live wins. *)
Lemma fastestLoop_spec clean best mx t : ∃ t' mx',
  fastestLoop clean now best mx t = (t', (if bool_decide (mx' = mx) then best else []) ++ filter (λ m, length (liveWins t m) = mx') clean, mx') ∧ pruned now t t' ∧
  (mx ≤ mx')%nat ∧ Forall (λ m, length (liveWins t m) ≤ mx')%nat clean ∧ (mx' = mx ∨ ∃ m, m ∈ clean ∧ length (liveWins t m) = mx').
Proof.
  revert best mx t. induction clean as [|m clean IH]; intros best mx t; cbn [fastestLoop].
  { exists t, mx. rewrite bool_decide_true, app_nil_r by done. split_and!; [done..|constructor|by left]. }
  unfold liveWinsLocked. cbv zeta. destruct (pruneWins_pruned (mb_tag m) now t) as [Hp Hw]. rewrite Hw. fold (liveWins t m). set (t1 := pruneWins (mb_tag m) now t) in *.
  assert (Hsame : ∀ k, liveWins t1 k = liveWins t k) by (intros k; by apply (pruned_live now t t1)).
  assert (Hfilter : ∀ n l, filter (λ k, length (liveWins t1 k) = n) l = filter (λ k, length (liveWins t k) = n) l) by (intros n l; apply list_filter_iff; intros k; by rewrite Hsame).
  destruct (Nat.ltb_spec mx (length (liveWins t m))) as [Hlt|Hge].
  - destruct (IH [m] (length (liveWins t m)) t1) as (t' & mx' & -> & Hp' & Hle & Hall & Hex). exists t', mx'. rewrite Hfilter.
    assert (Hall' : Forall (λ m, length (liveWins t m) ≤ mx')%nat clean) by (eapply Forall_impl; [exact Hall|]; intros k; cbn; by rewrite Hsame).
    split_and!; [|by etrans|lia|by constructor|].
    + do 2 f_equal. rewrite (bool_decide_false (mx' = mx)) by lia. cbn [app]. case_bool_decide as Hm; [by rewrite filter_cons_True by done|by rewrite filter_cons_False by congruence].
    + destruct Hex as [->|(k & Hk & Hlk)]; [right; exists m; split; [by left|done]|right; exists k; split; [by right|by rewrite <- Hsame]].
  - assert (Hrest : ∀ b, ∃ t' mx', fastestLoop clean now b mx t1 = (t', (if bool_decide (mx' = mx) then b else []) ++ filter (λ k, length (liveWins t k) = mx') clean, mx') ∧ pruned now t t' ∧
      (mx ≤ mx')%nat ∧ Forall (λ m, length (liveWins t m) ≤ mx')%nat (m :: clean) ∧ (mx' = mx ∨ ∃ k, k ∈ m :: clean ∧ length (liveWins t k) = mx')).
    { intros b. destruct (IH b mx t1) as (t' & mx' & -> & Hp' & Hle & Hall & Hex). exists t', mx'. rewrite Hfilter. split_and!; [done|by etrans|done|constructor; [lia|]|].
      - eapply Forall_impl; [exact Hall|]. intros k. cbn. by rewrite Hsame.
      - destruct Hex as [->|(k & Hk & Hlk)]; [by left|right; exists k; split; [by right|by rewrite <- Hsame]]. }
    destruct (Nat.eqb_spec (length (liveWins t m)) mx) as [Heq|Hne].
    + destruct (Hrest (best ++ [m])) as (t' & mx' & -> & ?). exists t', mx'. split; [|done]. do 2 f_equal. case_bool_decide as Hm.
      * subst mx'. rewrite filter_cons_True by done. by rewrite <- app_assoc.
      * by rewrite filter_cons_False by congruence.
    + destruct (Hrest best) as (t' & mx' & -> & Hrp & Hle & Hall & Hex). exists t', mx'. split; [|done]. do 2 f_equal. rewrite filter_cons_False; [done|]. lia.
Qed.

(** The survival target has the fewest live errors, the last one longest ago. *)
Definition cleaner (t : GroupTransport) (m m' : member) : Prop :=
  (length (liveErrors t m) < length (liveErrors t m'))%nat ∨
  (length (liveErrors t m) = length (liveErrors t m') ∧ default 0 (last (liveErrors t m)) ≤ default 0 (last (liveErrors t m'))).
Lemma leastDirtyLoop_spec members best bc bl t t0 :
  pruned now t0 t → (∀ m, m ∈ best → bc = Some (length (liveErrors t0 m)) ∧ bl = default 0 (last (liveErrors t0 m))) → (best = [] ↔ bc = None) →
  ∃ t' best', leastDirtyLoop members now best bc bl t = (t', best') ∧ pruned now t0 t' ∧ (best' = [] → best = [] ∧ members = []) ∧
    ∀ m, m ∈ best' → (m ∈ best ∨ m ∈ members) ∧ (∀ m', m' ∈ best ∨ m' ∈ members → cleaner t0 m m').
Proof.
  revert best bc bl t. induction members as [|c members IH]; intros best bc bl t Hp Hb Hn; cbn [leastDirtyLoop].
  { exists t, best. split_and!; [done..|]. intros m Hm. split; [by left|]. intros m' [Hm'|?%elem_of_nil]; [|done]. destruct (Hb m Hm) as [H1 H2], (Hb m' Hm') as [H3 H4]. right. split; [congruence|]. rewrite <- H2, <- H4. lia. }
  unfold liveErrorsLocked. cbv zeta. destruct (pruneErrors_pruned (mb_tag c) now t) as [Hp1 He]. rewrite He. set (t1 := pruneErrors (mb_tag c) now t) in *.
  assert (Hc : pruneTimes (mr_errors (recordOf t (mb_tag c))) (g_errorTTL t) now = liveErrors t0 c) by (by apply pruned_live). rewrite Hc. assert (Hp' : pruned now t0 t1) by by etrans.
  destruct (match bc with None => true | Some n => _ end) eqn:Hlt.
  - destruct (IH [c] (Some (length (liveErrors t0 c))) (default 0 (last (liveErrors t0 c))) t1) as (t' & best' & -> & Hpt & Hne & Hall); [done|by intros m ->%list_elem_of_singleton|done|].
    exists t', best'. split_and!; [done..|by intros [? _]%Hne|]. intros m Hm. destruct (Hall m Hm) as [Hin Hcl]. split; [destruct Hin as [->%list_elem_of_singleton|]; [right; by left|right; by right]|].
    intros m' [Hm'|[->|Hm']%elem_of_cons]; [|apply Hcl; left; by left|apply Hcl; by right]. destruct (Hb m' Hm') as [-> ->].
    assert (Hmc : cleaner t0 m c) by (apply Hcl; left; by left). unfold cleaner in *.
    apply orb_true_iff in Hlt as [H0%Nat.ltb_lt|[H1%Nat.eqb_eq H2%Z.ltb_lt]%andb_true_iff]; destruct Hmc as [?|[? ?]]; lia.
  - destruct bc as [n|]; [|done]. destruct ((length (liveErrors t0 c) =? n)%nat && (default 0 (last (liveErrors t0 c)) =? bl)) eqn:Heq.
    + apply andb_true_iff in Heq as [Heq1%Nat.eqb_eq Heq2%Z.eqb_eq]. destruct (IH (best ++ [c]) (Some n) bl t1) as (t' & best' & -> & Hpt & Hne & Hall); [done| | |].
      * intros m [Hm| ->%list_elem_of_singleton]%elem_of_app; [by apply Hb|]. by rewrite Heq1, Heq2.
      * split; [|done]. by destruct best.
      * exists t', best'. split_and!; [done..|by intros [? _]%Hne; destruct best|]. intros m Hm. destruct (Hall m Hm) as [Hin Hcl]. rewrite elem_of_app, list_elem_of_singleton in Hin. split; [set_solver|].
        intros m' [Hm'|[->|Hm']%elem_of_cons]; apply Hcl; set_solver.
    + destruct (IH best (Some n) bl t1 Hp' Hb Hn) as (t' & best' & -> & Hpt & Hne & Hall). exists t', best'. split_and!; [done..|intros [-> _]%Hne; by destruct Hn as [Hn _]; specialize (Hn eq_refl)|].
      intros m Hm. destruct (Hall m Hm) as [Hin Hcl]. split; [set_solver|]. intros m' [Hm'|[->|Hm']%elem_of_cons]; [apply Hcl; auto| |apply Hcl; auto].
      destruct best as [|b best]; [destruct Hn as [Hn _]; by specialize (Hn eq_refl)|]. assert (Hbm : cleaner t0 m b) by (apply Hcl; left; by left). destruct (Hb b) as [[= Hnb] Hlb]; [by left|].
      apply orb_false_iff in Hlt as [H0%Nat.ltb_ge H1]. unfold cleaner in *. subst n bl.
      destruct (Nat.eqb_spec (length (liveErrors t0 c)) (length (liveErrors t0 b))) as [E|E]; cbn in H1, Heq; [apply Z.ltb_ge in H1; apply Z.eqb_neq in Heq|]; destruct Hbm as [?|[? ?]]; lia.
Qed.
Lemma pickRandom_spec choice l : l ≠ [] → ∃ m, pickRandom choice l = Ok m ∧ m ∈ l.
Proof.
  intros Hl. unfold pickRandom. assert (is_Some (l !! (choice mod length l)%nat)) as [m Hm]; [|rewrite Hm; exists m; split; [done|by eapply list_elem_of_lookup_2]].
  apply lookup_lt_is_Some. apply Nat.mod_upper_bound. by destruct l.
Qed.
Lemma stickyPick_spec choice t l : l ≠ [] → ∃ m, stickyPickLocked choice t l = Ok m ∧ m ∈ l ∧ (g_current t ≠ EmptyString → (∃ c, c ∈ l ∧ mb_tag c = g_current t) → mb_tag m = g_current t).
Proof.
  intros Hl. unfold stickyPickLocked. destruct (String.eqb_spec (g_current t) "") as [E|E].
  - destruct (pickRandom_spec choice l Hl) as (m & -> & Hm). exists m. split_and!; [done..|]. by intros [].
  - destruct (List.find _ l) as [m|] eqn:Hf.
    + apply find_some in Hf as [Hin Ht%String.eqb_eq]. exists m. split_and!; [done|by apply list_elem_of_In|done].
    + destruct (pickRandom_spec choice l Hl) as (m & -> & Hm). exists m. split_and!; [done..|]. intros _ (c & Hc%list_elem_of_In & Ht). eapply find_none in Hf; [|exact Hc]. by rewrite Ht, String.eqb_refl in Hf.
Qed.

(** A snapshot of the group changes nothing that can be seen. *)
Lemma groupState_pruned members t : pruned now t (groupState members now t).1 ∧ ms_Tag <$> (groupState members now t).2 = mb_tag <$> members.
Proof.
  revert t. induction members as [|m members IH]; intros t; cbn [groupState]; [done|]. unfold liveErrorsLocked, liveWinsLocked. cbv zeta.
  destruct (pruneErrors_pruned (mb_tag m) now t) as [H1 _]. set (t1 := pruneErrors _ now t) in *. destruct (pruneWins_pruned (mb_tag m) now t1) as [H2 _]. set (t2 := pruneWins _ now t1) in *.
  destruct (IH t2) as [H3 H4]. destruct (groupState members now t2) as [t3 l]. cbn in *. split; [etrans; [exact H1|]; by etrans|by f_equal].
Qed.

(** Pruned, or the election flag was taken as well. *)
Definition selected (t t' : GroupTransport) (election : bool) : Prop :=
  ∃ t1, pruned now t t1 ∧ t' = if election then with_state t1 (g_records t1) (g_current t1) true (g_gen t1) else t1.

(** What [selectTarget] decides, for a group that is started. *)
Definition decides (t : GroupTransport) (sel : selection) : Prop :=
  let clean := filter (λ m, liveErrors t m = []) (g_members t) in
  let single m := sel_target sel = Some m ∧ sel_fan sel = [] ∧ sel_election sel = false in
  let fans l := sel_target sel = None ∧ sel_fan sel = l ∧ sel_survival sel = false ∧ sel_provisional sel = false in
  let sticks m l := m ∈ l ∧ (g_current t ≠ EmptyString → (∃ c, c ∈ l ∧ mb_tag c = g_current t) → mb_tag m = g_current t) in
  sel_gen sel = g_gen t ∧
  if negb (nonempty clean) then
    ∃ m, single m ∧ sel_survival sel = true ∧ m ∈ g_members t ∧ ∀ m', m' ∈ g_members t → cleaner t m m'
  else if String.eqb (g_mode t) ModeParallel then fans clean ∧ sel_election sel = false
  else if String.eqb (g_mode t) ModeFastest then
    (∃ best most m, single m ∧ sel_survival sel = false ∧ sel_provisional sel = false ∧ (0 < most)%nat ∧ sticks m best ∧ Forall (λ k, length (liveWins t k) ≤ most)%nat clean ∧
      ∀ k, k ∈ best ↔ k ∈ clean ∧ length (liveWins t k) = most) ∨
    (Forall (λ k, liveWins t k = []) clean ∧
      if g_election t then ∃ m, single m ∧ sel_survival sel = false ∧ sel_provisional sel = true ∧ m ∈ clean else fans clean ∧ sel_election sel = true)
  else ∃ m, single m ∧ sel_survival sel = false ∧ sel_provisional sel = false ∧ sticks m clean.

Lemma selectTarget_spec choice t : g_members t ≠ [] → ∃ t' sel, selectTarget now choice t = (t', Ok sel) ∧ selected t t' (sel_election sel) ∧ decides t sel.
Proof.
  intros Hm. unfold selectTarget, decides. apply nonempty_true in Hm as Hm'. rewrite Hm'. cbn [negb]. destruct (cleanMembers_spec (g_members t) t) as (t1 & -> & Hp). set (clean := filter _ (g_members t)).
  pose proof Hp as ((Htag & Hmode & HeT & HwT & Hmem) & Hcur & Hel & Hgen & _). destruct (nonempty clean) eqn:Hc; cbn [negb]; last first.
  { unfold leastDirtyLocked. rewrite Hmem. destruct (leastDirtyLoop_spec (g_members t) [] None 0 t1 t Hp) as (t2 & best & -> & Hp2 & Hne & Hall); [by intros m ?%elem_of_nil|done|].
    destruct (pickRandom_spec choice best) as (m & Hpick & Hin); [by intros [_ ?]%Hne|]. cbn. rewrite Hpick. cbn. exists t2, (mkSelection (Some m) [] false true false (g_gen t2)).
    destruct (Hall m Hin) as [Hinm Hcl]. pose proof Hp2 as (_ & _ & _ & Hg2 & _). split_and!; [done|by exists t2|done|]. exists m. split_and!; [done..| |intros m' Hm2; apply Hcl; by right].
    destruct Hinm as [?%elem_of_nil|]; done. }
  apply nonempty_true in Hc as Hcn. rewrite Hmode. destruct (String.eqb (g_mode t) ModeParallel).
  { eexists _, _. split_and!; [done|by exists t1|done..]. }
  destruct (String.eqb (g_mode t) ModeFastest).
  - destruct (fastestLoop_spec clean [] 0 t1) as (t2 & most & -> & Hp2 & _ & Hall & Hex). replace (if bool_decide (most = 0%nat) then [] else []) with (@nil member) by (by case_bool_decide). cbn [app].
    assert (Hsame : ∀ k, liveWins t1 k = liveWins t k) by (intros k; by apply (pruned_live now t t1)). pose proof Hp2 as (_ & Hcur2 & Hel2 & Hgen2 & _).
    assert (Hall' : Forall (λ k, length (liveWins t k) ≤ most)%nat clean) by (eapply Forall_impl; [exact Hall|]; intros k; cbn; by rewrite Hsame).
    assert (Hp12 : pruned now t t2) by by etrans. destruct (Nat.ltb_spec 0 most) as [Hpos|Hz].
    + destruct (stickyPick_spec choice t2 (filter (λ m, length (liveWins t1 m) = most) clean)) as (m & Hpick & Hin & Hst).
      { destruct Hex as [->|(k & Hk & Hlk)]; [lia|]. intros Hnil. assert (k ∈ filter (λ m, length (liveWins t1 m) = most) clean) as H by (by apply list_elem_of_filter). rewrite Hnil in H. by apply elem_of_nil in H. }
      rewrite Hpick. cbn. eexists _, _. split_and!; [done|by exists t2|cbn; congruence|]. left. exists (filter (λ m, length (liveWins t1 m) = most) clean), most, m. rewrite Hcur2, Hcur in Hst.
      split_and!; [done..|]. intros k. rewrite list_elem_of_filter, Hsame. tauto.
    + assert (Hzero : Forall (λ k, liveWins t k = []) clean). { eapply Forall_impl; [exact Hall'|]. intros k Hk. cbn in Hk. apply length_zero_iff_nil. lia. }
      rewrite Hel2, Hel. destruct (g_election t); cbn [negb].
      * destruct (pickRandom_spec choice clean Hcn) as (m & -> & Hin). cbn. eexists _, _. split_and!; [done|by exists t2|cbn; congruence|]. right. split; [done|]. by exists m.
      * eexists _, _. split_and!; [done|by exists t2|cbn; congruence|]. right. split; [done|]. done.
  - destruct (stickyPick_spec choice t1 clean Hcn) as (m & -> & Hin & Hst). cbn. eexists _, _. rewrite Hcur in Hst. split_and!; [done|by exists t1|done|]. by exists m.
Qed.
End selection.

(** ** Runs *)

Section runs.
Context (As_RcodeError : goerr → option Z) (Errors : list goerr → option goerr) (ctx_Err : goerr) (may_return : string → answer → Prop).
Context (Hreturn : ∀ tag a, may_return tag a → a ≠ (None, None)).
Context (t0 : GroupTransport) (Hfresh : g_records t0 = ∅ ∧ g_election t0 = false) (Hstarted : g_members t0 ≠ []).
#[local] Abbreviation gstep := (dnsgroup_step As_RcodeError Errors ctx_Err may_return).
#[local] Abbreviation grun := (dnsgroup_run As_RcodeError Errors ctx_Err may_return t0).

(** A query that owns the election. *)
Definition holds_election (s : queryState) : bool :=
  match s with Chosen sel => sel_election sel | Fanning f => f_election f | _ => false end.

(** Queries are well formed: a choice has a target or a fan, a winner was delivered,
    and an answer is a response or an error. *)
Definition query_ok (q : query) : Prop :=
  q_answer q ≠ Some (None, None) ∧
  match q_state q with
  | Chosen sel => q_answer q = None ∧ (length (sel_fan sel) ≤ length (g_members t0))%nat ∧ (sel_fan sel = [] → sel_election sel = false ∧ sel_target sel ≠ None)
  | AskTarget sel _ => q_answer q = None
  | TargetFailed sel _ a => q_answer q = None ∧ a ≠ (None, None)
  | Fanning f => (length (f_pending f) ≤ length (g_members t0))%nat ∧
      match f_pc f with Receive | Succeeded _ _ => f_delivered f = true → f_winner f ≠ None | Winning _ _ => True end
  | FanEnded _ => True
  | QueryEnded => q_answer q ≠ None
  end.

Record group_inv (w : groupWorld) : Prop := {
  gi_setup : same_setup t0 (w_group w);
  gi_track : records_track (g_gen t0) (w_now w) (w_log w) (w_group w);
  gi_owned : g_election (w_group w) = true → ∃ id q, w_queries w !! id = Some q ∧ holds_election (q_state q) = true;
  gi_unique id q : w_queries w !! id = Some q → holds_election (q_state q) = true → g_election (w_group w) = true ∧
    ∀ id' q', w_queries w !! id' = Some q' → holds_election (q_state q') = true → id' = id;
  gi_queries id q : w_queries w !! id = Some q → query_ok q
}.

(** A step of one query: it keeps what it owns, takes the election, or releases it. *)
Lemma query_step_inv w id t q log :
  let old := match w_queries w !! id with Some q0 => holds_election (q_state q0) | None => false end in
  group_inv w → same_setup (w_group w) t → records_track (g_gen t0) (w_now w) (w_log w ++ log) t → query_ok q →
  (g_election t = g_election (w_group w) ∧ holds_election (q_state q) = old) ∨
  (g_election (w_group w) = false ∧ g_election t = true ∧ holds_election (q_state q) = true) ∨
  (old = true ∧ g_election t = false ∧ holds_election (q_state q) = false) →
  group_inv (with_query w id t q log).
Proof using.
  intros old Hi Hs Ht Hq He. pose proof Hi as [I1 I2 I3 I4 I5].
  assert (Hfree : g_election (w_group w) = false → ∀ id' q', w_queries w !! id' = Some q' → holds_election (q_state q') = false).
  { intros Hf id' q' Hl. destruct (holds_election (q_state q')) eqn:Hh; [|done]. destruct (I4 id' q' Hl Hh). congruence. }
  assert (Hold : old = true → g_election (w_group w) = true ∧ ∀ id' q', w_queries w !! id' = Some q' → holds_election (q_state q') = true → id' = id).
  { unfold old. destruct (w_queries w !! id) as [q0|] eqn:Hq0; [|done]. intros Hh. by apply (I4 id q0). }
  split; cbn [w_group w_queries w_now w_log with_query]; [by etrans|done|..].
  - intros Ht1. destruct He as [[E1 E2]|[(E1 & E2 & E3)|(E1 & E2 & E3)]]; [|exists id, q; by rewrite lookup_insert_eq|congruence].
    destruct (I3 ltac:(congruence)) as (id' & q' & Hl & Hh). destruct (decide (id = id')) as [<-|Hne]; [|exists id', q'; by rewrite lookup_insert_ne].
    exists id, q. rewrite lookup_insert_eq. split; [done|]. rewrite E2. unfold old. by rewrite Hl.
  - intros id1 q1 Hl Hh. destruct (decide (id = id1)) as [<-|Hne].
    + rewrite lookup_insert_eq in Hl. injection Hl as <-. destruct He as [[E1 E2]|[(E1 & E2 & E3)|(_ & _ & E3)]]; [| |congruence].
      * rewrite Hh in E2. destruct (Hold (eq_sym E2)) as [He' Hu]. split; [congruence|]. intros id' q'. destruct (decide (id = id')); [done|]. rewrite lookup_insert_ne by done. intros Hl' Hh'. by apply (Hu id' q').
      * split; [done|]. intros id' q'. destruct (decide (id = id')); [done|]. rewrite lookup_insert_ne by done. intros Hl' Hh'. rewrite (Hfree E1 id' q' Hl') in Hh'. done.
    + rewrite lookup_insert_ne in Hl by done. destruct (I4 id1 q1 Hl Hh) as [He1 Hu]. destruct He as [[E1 E2]|[(E1 & _)|(E1 & _)]]; [|congruence|destruct (Hold E1) as [_ Hu']; by destruct Hne; symmetry; apply (Hu' id1 q1)].
      split; [congruence|]. intros id' q'. destruct (decide (id = id')) as [<-|]; [|rewrite lookup_insert_ne by done; apply Hu].
      rewrite lookup_insert_eq. intros [= <-]. rewrite E2. unfold old. destruct (w_queries w !! id) as [q0|] eqn:Hq0; [|done]. by apply Hu.
  - intros id1 q1. destruct (decide (id = id1)) as [<-|Hne]; [rewrite lookup_insert_eq; by intros [= <-]|rewrite lookup_insert_ne by done; apply I5].
Qed.

Lemma notes_keep t tag gen now rtt :
  (same_setup t (noteError tag gen now t) ∧ g_election (noteError tag gen now t) = g_election t) ∧
  (same_setup t (noteSuccess tag rtt gen t) ∧ g_election (noteSuccess tag rtt gen t) = g_election t) ∧
  (same_setup t (noteWin tag gen now t) ∧ g_election (noteWin tag gen now t) = g_election t) ∧
  (same_setup t (setCurrent tag gen t) ∧ g_election (setCurrent tag gen t) = g_election t).
Proof using. unfold noteError, noteSuccess, noteWin, setCurrent. split_and!; repeat case_match; done. Qed.

(** Steps that only prune. *)
Lemma pruned_keep w t : group_inv w → pruned (w_now w) (w_group w) t → same_setup (w_group w) t ∧ records_track (g_gen t0) (w_now w) (w_log w ++ []) t ∧ g_election t = g_election (w_group w).
Proof using. intros Hi Hp. rewrite app_nil_r. split; [apply Hp|]. split; [eapply pruned_track; [exact Hp|]; by apply gi_track|apply Hp]. Qed.

Lemma select_inv w id choice t sel : group_inv w → w_queries w !! id = None → selectTarget (w_now w) choice (w_group w) = (t, Ok sel) →
  group_inv (with_query w id t (mkQuery (Chosen sel) false None) []).
Proof using Hstarted.
  intros Hi Hn Hsel. destruct (gi_setup w Hi) as (Htag & Hmode & _ & _ & Hmem).
  destruct (selectTarget_spec (w_now w) choice (w_group w)) as (t' & sel' & E & (t1 & Hp & Ht) & Hgen & Hd); [by rewrite Hmem|]. rewrite E in Hsel. injection Hsel as -> ->.
  destruct (pruned_keep w t1 Hi Hp) as (Hs & Htr & He). set (clean := filter _ _) in Hd.
  assert (Hlen : (length clean ≤ length (g_members t0))%nat) by (unfold clean; rewrite <- Hmem; apply length_filter).
  assert (Hq : query_ok (mkQuery (Chosen sel) false None) ∧ (sel_election sel = true → g_election (w_group w) = false)).
  { unfold query_ok. cbn. destruct (nonempty clean) eqn:Hc; cbn [negb] in Hd; [|destruct Hd as (m & (-> & -> & ->) & _); cbn; split_and!; try done; lia].
    apply nonempty_true in Hc. destruct (String.eqb _ ModeParallel); [destruct Hd as [(_ & -> & _) ->]; split_and!; done|].
    destruct (String.eqb _ ModeFastest); [|destruct Hd as (m & (-> & -> & ->) & _); cbn; split_and!; try done; lia].
    destruct Hd as [(best & most & m & (-> & -> & ->) & _)|[_ Hd]]; [cbn; split_and!; try done; lia|].
    destruct (g_election (w_group w)); [destruct Hd as (m & (-> & -> & ->) & _); cbn; split_and!; try done; lia|destruct Hd as [(_ & -> & _) ->]; split_and!; done]. }
  destruct Hq as [Hq Hfree]. apply query_step_inv; [done|..|done|].
  - subst t. destruct (sel_election sel); done.
  - subst t. destruct (sel_election sel); done.
  - rewrite Hn. cbn. subst t. destruct (sel_election sel) eqn:Ee; [right; left; by rewrite Hfree|by left].
Qed.
Lemma rescue_fan w q : group_inv w → ∀ sel target a t q', query_ok q → q_state q = TargetFailed sel target a → rescue sel target a (w_now w) q (w_group w) = (t, q') →
  pruned (w_now w) (w_group w) t ∧ query_ok q' ∧ holds_election (q_state q') = false.
Proof using.
  intros Hi sel target a t q' [Hq1 Hq2] Hs. rewrite Hs in Hq2. destruct Hq2 as [Hnone Ha]. unfold rescue, cleanExcept. set (others := filter _ _). destruct (cleanMembers_spec (w_now w) others (w_group w)) as (t1 & -> & Hp).
  destruct (gi_setup w Hi) as (_ & _ & _ & _ & Hmem). set (rescuers := filter _ others). destruct (nonempty rescuers); cbn [negb]; intros [= <- <-]; (split; [done|]); (split; [|done]).
  - split; cbn; [done|]. split; [|done]. rewrite length_fmap. unfold rescuers, others. rewrite <- Hmem. etrans; [apply length_filter|apply length_filter].
  - split; cbn; [congruence|done].
Qed.

(** The fan's steps keep it well formed. *)
Lemma fan_result_inv w id q f tag a rtt t f' : group_inv w → w_queries w !! id = Some q → q_state q = Fanning f → f_pc f = Receive →
  collectResult As_RcodeError tag a rtt (w_now w) (q_cancelled q) f (w_group w) = (t, f') →
  group_inv (with_query w id t (with_q q (Fanning f')) (if isFailure As_RcodeError a && q_cancelled q then [] else [noteOf As_RcodeError tag (f_gen f) (w_now w) a])).
Proof using.
  intros Hi Hq Hf Hpc Hc. destruct (gi_queries w Hi id q Hq) as [Hqa Hok]. rewrite Hf, Hpc in Hok. destruct Hok as [Hlen Hw].
  destruct (notes_keep (w_group w) tag (f_gen f) (w_now w) rtt) as ([S1 E1] & [S2 E2] & _). pose proof (gi_track w Hi) as Ht. unfold collectResult in Hc. unfold noteOf.
  assert (Hpend : (length (filter (λ p, p ≠ tag) (f_pending f)) ≤ length (g_members t0))%nat) by (etrans; [apply length_filter|done]).
  destruct (isFailure As_RcodeError a); [destruct (q_cancelled q) eqn:Hcan|]; cbn [andb]; injection Hc as <- <-.
  - apply query_step_inv; [done|done|by rewrite app_nil_r|done|]. left. split; [done|]. by rewrite Hq, Hf.
  - apply query_step_inv; [done|done|by apply noteError_track|done|]. left. split; [done|]. by rewrite Hq, Hf.
  - apply query_step_inv; [done|done|by apply noteSuccess_track|done|]. left. split; [done|]. by rewrite Hq, Hf.
Qed.
Lemma fan_win_inv w id q f tag a t f' : group_inv w → w_queries w !! id = Some q → q_state q = Fanning f → f_pc f = Succeeded tag a →
  collectWin tag a (w_now w) (q_cancelled q) f (w_group w) = (t, f') →
  group_inv (with_query w id t (with_q q (Fanning f')) (if q_cancelled q || f_delivered f || negb (String.eqb (g_mode (w_group w)) ModeFastest) then [] else [NotedWin tag (w_now w) (f_gen f)])).
Proof using.
  intros Hi Hq Hf Hpc Hc. destruct (gi_queries w Hi id q Hq) as [Hqa Hok]. rewrite Hf, Hpc in Hok. destruct Hok as [Hlen Hw].
  destruct (notes_keep (w_group w) tag (f_gen f) (w_now w) 0) as (_ & _ & [S3 E3] & _). pose proof (gi_track w Hi) as Ht. unfold collectWin in Hc.
  destruct (q_cancelled q || f_delivered f); [|destruct (String.eqb (g_mode (w_group w)) ModeFastest)]; cbn [orb negb]; injection Hc as <- <-.
  - apply query_step_inv; [done|done|by rewrite app_nil_r|done|]. left. split; [done|]. by rewrite Hq, Hf.
  - apply query_step_inv; [done|done|by apply noteWin_track|done|]. left. split; [done|]. by rewrite Hq, Hf.
  - apply query_step_inv; [done|done|by rewrite app_nil_r|done|]. left. split; [done|]. by rewrite Hq, Hf.
Qed.
Lemma fan_current_inv w id q f tag a t f' : group_inv w → w_queries w !! id = Some q → q_state q = Fanning f → f_pc f = Winning tag a →
  collectCurrent tag a f (w_group w) = (t, f') → group_inv (with_query w id t (with_q q (Fanning f')) []).
Proof using.
  intros Hi Hq Hf Hpc [= <- <-]. destruct (gi_queries w Hi id q Hq) as [Hqa Hok]. rewrite Hf, Hpc in Hok. destruct Hok as [Hlen _].
  destruct (notes_keep (w_group w) tag (f_gen f) (w_now w) 0) as (_ & _ & _ & [S4 E4]). pose proof (gi_track w Hi) as Ht.
  assert (Hs : same_setup (w_group w) (if String.eqb (g_mode (w_group w)) ModeParallel then w_group w else setCurrent tag (f_gen f) (w_group w))) by by case_match.
  apply query_step_inv; [done|done| |done|].
  - rewrite app_nil_r. case_match; [done|by apply setCurrent_track].
  - left. split; [by case_match|]. by rewrite Hq, Hf.
Qed.
Lemma fan_end_inv w id q f t a : group_inv w → w_queries w !! id = Some q → q_state q = Fanning f → f_pc f = Receive →
  collectEnd Errors (causeOf ctx_Err q) f (w_group w) = (t, a) → group_inv (with_query w id t (with_q q (FanEnded a)) []).
Proof using.
  intros Hi Hq Hf Hpc Hc. destruct (gi_queries w Hi id q Hq) as [Hqa _]. pose proof (gi_track w Hi) as Ht. injection Hc as <- _.
  apply query_step_inv; [done|by destruct (f_election f)|rewrite app_nil_r; by destruct (f_election f)|done|]. rewrite Hq, Hf. cbn. destruct (f_election f); [right; by right|by left].
Qed.

Lemma target_inv w id q sel target a rtt t q' : group_inv w → w_queries w !! id = Some q → q_state q = AskTarget sel target → may_return (mb_tag target) a →
  targetAnswered As_RcodeError sel target a rtt (w_now w) q (w_group w) = (t, q') →
  group_inv (with_query w id t q' [noteOf As_RcodeError (mb_tag target) (sel_gen sel) (w_now w) a]).
Proof using Hreturn.
  intros Hi Hq Hs Ha Hc. destruct (gi_queries w Hi id q Hq) as [Hqa Hok]. rewrite Hs in Hok. apply Hreturn in Ha.
  destruct (notes_keep (w_group w) (mb_tag target) (sel_gen sel) (w_now w) rtt) as ([S1 E1] & [S2 E2] & _). pose proof (gi_track w Hi) as Ht. unfold targetAnswered in Hc. unfold noteOf.
  destruct (isFailure As_RcodeError a); cbn [negb] in Hc; [destruct (sel_survival sel)|]; injection Hc as <- <-.
  - apply query_step_inv; [done|done|by apply noteError_track|split; cbn; [congruence|done]|]. left. split; [done|]. by rewrite Hq, Hs.
  - apply query_step_inv; [done|done|by apply noteError_track|split; cbn; [congruence|done]|]. left. split; [done|]. by rewrite Hq, Hs.
  - apply query_step_inv; [done|done|by apply noteSuccess_track|split; cbn; [congruence|done]|]. left. split; [done|]. by rewrite Hq, Hs.
Qed.
Lemma begin_inv w id q sel t s : group_inv w → w_queries w !! id = Some q → q_state q = Chosen sel → beginQuery sel (w_group w) = (t, s) → group_inv (with_query w id t (with_q q s) []).
Proof using.
  intros Hi Hq Hs Hc. destruct (gi_queries w Hi id q Hq) as [Hqa Hok]. rewrite Hs in Hok. destruct Hok as (Hnone & Hlen & Hfan). pose proof (gi_track w Hi) as Ht. unfold beginQuery in Hc.
  destruct (nonempty (sel_fan sel)) eqn:Hne.
  { injection Hc as <- <-. apply query_step_inv; [done|done|by rewrite app_nil_r|split; cbn; [done|by rewrite length_fmap]|]. left. split; [done|]. by rewrite Hq, Hs. }
  apply nonempty_false in Hne. destruct (Hfan Hne) as [He Htarget]. destruct (sel_target sel) as [target|]; [|done].
  destruct (notes_keep (w_group w) (mb_tag target) (sel_gen sel) (w_now w) 0) as (_ & _ & _ & [S4 E4]).
  destruct (sel_survival sel || sel_provisional sel); injection Hc as <- <-.
  - apply query_step_inv; [done|done|by rewrite app_nil_r|done|]. left. split; [done|]. rewrite Hq, Hs. cbn. done.
  - apply query_step_inv; [done|done|rewrite app_nil_r; by apply setCurrent_track|done|]. left. split; [done|]. rewrite Hq, Hs. cbn. done.
Qed.

Lemma dnsgroup_step_inv w w' : group_inv w → gstep w w' → group_inv w'.
Proof using Hreturn Hstarted.
  intros Hi Hstep. pose proof (gi_track w Hi) as Ht. destruct Hstep as [now Hle| |id choice t sel Hn Hsel|id choice t e Hn Hsel|id q sel t s Hq Hs Hc|id q sel target a rtt t q' Hq Hs Ha Hc|id q sel target a t q' Hq Hs Hc
    |id q f tag a rtt t f' Hq Hf Hpc Htag Ha Hc|id q f tag a t f' Hq Hf Hpc Hc|id q f tag a t f' Hq Hf Hpc Hc|id q f t a Hq Hf Hpc Hpend Hc|id q a Hq Hnone Hs|id q Hq Hnone Hcan Hs|id q Hq].
  - destruct Hi as [I1 I2 I3 I4 I5]. split; try done. intros tag. destruct (I2 tag) as (? & ? & ?). split_and!; [done|by eapply tracks_later..].
  - destruct Hi as [I1 I2 I3 I4 I5]. split; try done. by apply Reset_track.
  - by eapply select_inv.
  - destruct (gi_setup w Hi) as (_ & _ & _ & _ & Hmem). destruct (selectTarget_spec (w_now w) choice (w_group w)) as (t' & sel' & E & _); [by rewrite Hmem|]. congruence.
  - by eapply begin_inv.
  - by eapply target_inv.
  - destruct (rescue_fan w q Hi sel target a t q' (gi_queries w Hi id q Hq) Hs Hc) as (Hp & Hok & Hh). destruct (pruned_keep w t Hi Hp) as (H1 & H2 & H3).
    apply query_step_inv; [done..|]. left. split; [done|]. by rewrite Hq, Hs.
  - by eapply fan_result_inv.
  - by eapply fan_win_inv.
  - by eapply fan_current_inv.
  - by eapply fan_end_inv.
  - destruct (gi_queries w Hi id q Hq) as [Hqa Hok]. apply query_step_inv; [done|done|by rewrite app_nil_r| |left; split; [done|by rewrite Hq]]. split; cbn.
    + destruct a as [[?|] [?|]]; cbn; by destruct (causeOf ctx_Err q).
    + destruct Hs as [Hs|(f & Hs & Hw)]; rewrite Hs in Hok |- *; done.
  - destruct (gi_queries w Hi id q Hq) as [Hqa Hok]. apply query_step_inv; [done|done|by rewrite app_nil_r| |left; split; [done|by rewrite Hq]]. split; cbn; [done|]. destruct Hs as [(f & Hs)|(a & Hs)]; rewrite Hs in Hok |- *; done.
  - destruct (gi_queries w Hi id q Hq) as [Hqa Hok]. apply query_step_inv; [done|done|by rewrite app_nil_r|done|left; split; [done|by rewrite Hq]].
Qed.
Lemma group_run_inv now w : grun now w → group_inv w.
Proof using Hreturn Hstarted Hfresh.
  induction 1 as [|w w' _ IH Hstep]; [|by eapply dnsgroup_step_inv]. destruct Hfresh as [Hr He]. split; cbn; try done; try congruence.
  - intros tag. unfold recordOf. rewrite Hr, lookup_empty. split_and!; [done|apply tracks_nil..].
Qed.

(** ** Work *)

Definition pcWork (c : collector) : nat := match c with Receive => 0 | Succeeded _ _ => 2 | Winning _ _ => 1 end.
(** How many steps a query has left at most. *)
Definition work (q : query) : nat :=
  ((match q_state q with
    | Chosen _ => 3 * length (g_members t0) + 5
    | AskTarget _ _ => 3 * length (g_members t0) + 4
    | TargetFailed _ _ _ => 3 * length (g_members t0) + 3
    | Fanning f => 3 * length (f_pending f) + 1 + pcWork (f_pc f)
    | FanEnded _ | QueryEnded => 0
    end) + match q_answer q with None => 1 | Some _ => 0 end)%nat.

Lemma pending_shrinks tag (l : list string) : tag ∈ l → (length (filter (λ p, p ≠ tag) l) < length l)%nat.
Proof using.
  induction l as [|x l IH]; [by intros ?%elem_of_nil|]. pose proof (length_filter (λ p, p ≠ tag) l) as Hle. destruct (decide (x = tag)) as [->|Hne].
  - rewrite filter_cons_False by (intros Hf; by apply Hf). cbn. lia.
  - intros [->|Hin]%elem_of_cons; [done|]. rewrite filter_cons_True by done. cbn. specialize (IH Hin). lia.
Qed.

(** The steps of a query use its work up. *)
Lemma begin_work w id q sel t s : group_inv w → w_queries w !! id = Some q → q_state q = Chosen sel → beginQuery sel (w_group w) = (t, s) → (work (with_q q s) < work q)%nat.
Proof using.
  intros Hi Hq Hs Hc. destruct (gi_queries w Hi id q Hq) as [_ Hok]. unfold work. rewrite Hs in Hok |- *. destruct Hok as (_ & Hlen & _). cbn [with_q q_state q_answer].
  unfold beginQuery in Hc. destruct (nonempty (sel_fan sel)); [injection Hc as <- <-; cbn; rewrite length_fmap; lia|]. destruct (sel_target sel); [case_match|]; injection Hc as <- <-; lia.
Qed.
Lemma target_work q sel target a rtt now g t q' : q_state q = AskTarget sel target → q_answer q = None → targetAnswered As_RcodeError sel target a rtt now q g = (t, q') → (work q' < work q)%nat.
Proof using. intros Hs Hn Hc. unfold targetAnswered in Hc. unfold work. rewrite Hs, Hn. destruct (isFailure As_RcodeError a), (sel_survival sel); cbn in Hc; injection Hc as <- <-; cbn; rewrite ?Hn; lia. Qed.
Lemma rescue_work w q sel target a t q' : group_inv w → query_ok q → q_state q = TargetFailed sel target a → rescue sel target a (w_now w) q (w_group w) = (t, q') → (work q' < work q)%nat.
Proof using.
  intros Hi Hq Hs Hr. destruct (rescue_fan w q Hi sel target a t q' Hq Hs Hr) as (_ & [_ Hok] & _). destruct Hq as [_ Hq]. rewrite Hs in Hq. destruct Hq as [Hn _]. unfold work. rewrite Hs, Hn.
  unfold rescue in Hr. destruct (cleanExcept _ _ _) as [t1 l]. destruct (nonempty l); cbn [negb] in Hr; injection Hr as <- <-; cbn in *; rewrite ?Hn; lia.
Qed.
Lemma result_work q f tag a rtt now cancelled g t f' : q_state q = Fanning f → f_pc f = Receive → tag ∈ f_pending f → collectResult As_RcodeError tag a rtt now cancelled f g = (t, f') → (work (with_q q (Fanning f')) < work q)%nat.
Proof using.
  intros Hf Hpc Hin%pending_shrinks. unfold collectResult, work. rewrite Hf. cbn [with_q q_state q_answer]. rewrite Hpc. repeat case_match; intros [= <- <-]; cbn; lia.
Qed.
Lemma win_work q f tag a now cancelled g t f' : q_state q = Fanning f → f_pc f = Succeeded tag a → collectWin tag a now cancelled f g = (t, f') → (work (with_q q (Fanning f')) < work q)%nat.
Proof using. intros Hf Hpc. unfold collectWin, work. rewrite Hf. cbn [with_q q_state q_answer]. rewrite Hpc. case_match; intros [= <- <-]; cbn; lia. Qed.
Lemma current_work q f tag a g t f' : q_state q = Fanning f → f_pc f = Winning tag a → collectCurrent tag a f g = (t, f') → (work (with_q q (Fanning f')) < work q)%nat.
Proof using. intros Hf Hpc [= <- <-]. unfold work. rewrite Hf. cbn. rewrite Hpc. cbn. lia. Qed.

(** No step gives a query more work. *)
Lemma step_work w w' id q : group_inv w → gstep w w' → w_queries w !! id = Some q → ∃ q', w_queries w' !! id = Some q' ∧ (work q' ≤ work q)%nat.
Proof using.
  intros Hi Hstep Hid.
  assert (Hset : ∀ id' t q' log, (id' = id → (work q' ≤ work q)%nat) → ∃ q2, w_queries (with_query w id' t q' log) !! id = Some q2 ∧ (work q2 ≤ work q)%nat).
  { intros id' t q' log Hw. cbn. destruct (decide (id' = id)) as [->|Hne]; [rewrite lookup_insert_eq; eauto|rewrite lookup_insert_ne by done; eauto]. }
  destruct Hstep as [now Hle| |id' choice t sel Hn Hsel|id' choice t e Hn Hsel|id' q0 sel t s Hq Hs Hc|id' q0 sel target a rtt t q' Hq Hs Ha Hc|id' q0 sel target a t q' Hq Hs Hc
    |id' q0 f tag a rtt t f' Hq Hf Hpc Htag Ha Hc|id' q0 f tag a t f' Hq Hf Hpc Hc|id' q0 f tag a t f' Hq Hf Hpc Hc|id' q0 f t a Hq Hf Hpc Hpend Hc|id' q0 a Hq Hnone Hs|id' q0 Hq Hnone Hcan Hs|id' q0 Hq].
  1, 2: eauto. all: apply Hset; intros ->; try congruence; rewrite Hid in Hq; injection Hq as <-; pose proof (gi_queries w Hi id q Hid) as Hok.
  - by eapply Nat.lt_le_incl, begin_work.
  - eapply Nat.lt_le_incl, target_work; [done| |done]. destruct Hok as [_ Hok]. by rewrite Hs in Hok.
  - by eapply Nat.lt_le_incl, rescue_work.
  - by eapply Nat.lt_le_incl, result_work.
  - by eapply Nat.lt_le_incl, win_work.
  - by eapply Nat.lt_le_incl, current_work.
  - unfold work. rewrite Hf. cbn. lia.
  - unfold work. cbn. rewrite Hnone. lia.
  - unfold work. cbn. rewrite Hnone. lia.
  - unfold work. cbn. lia.
Qed.
(** A query with work left can do some of it. *)
Lemma step_possible w id q : (∀ tag, ∃ a, may_return tag a) → group_inv w → w_queries w !! id = Some q → (0 < work q)%nat → ∃ w' q', gstep w w' ∧ w_queries w' !! id = Some q' ∧ (work q' < work q)%nat.
Proof using.
  intros Hans Hi Hq Hw. destruct (gi_queries w Hi id q Hq) as [Hqa Hok].
  assert (Hgo : ∀ t q' log, gstep w (with_query w id t q' log) → (work q' < work q)%nat → ∃ w' q2, gstep w w' ∧ w_queries w' !! id = Some q2 ∧ (work q2 < work q)%nat).
  { intros t q' log Hs Hlt. eexists _, q'. split; [exact Hs|]. cbn. by rewrite lookup_insert_eq. }
  destruct (q_state q) as [sel|sel target|sel target a|f|a|] eqn:Hs.
  - destruct (beginQuery sel (w_group w)) as [t s] eqn:Hb. eapply Hgo; [by eapply step_begin|]. by eapply begin_work.
  - destruct (Hans (mb_tag target)) as [a Ha]. destruct (targetAnswered As_RcodeError sel target a 0 (w_now w) q (w_group w)) as [t q'] eqn:Hb. eapply Hgo; [by eapply step_target|]. by eapply target_work.
  - destruct (rescue sel target a (w_now w) q (w_group w)) as [t q'] eqn:Hb. eapply Hgo; [by eapply step_rescue|]. eapply rescue_work; [done| |done..]. split; [done|]. by rewrite Hs.
  - destruct (f_pc f) as [|tag a|tag a] eqn:Hpc.
    + destruct (f_pending f) as [|tag rest] eqn:Hpend.
      * destruct (collectEnd Errors (causeOf ctx_Err q) f (w_group w)) as [t a] eqn:Hb. eapply Hgo; [by eapply step_end|]. unfold work. rewrite Hs. cbn. lia.
      * destruct (Hans tag) as [a Ha]. destruct (collectResult As_RcodeError tag a 0 (w_now w) (q_cancelled q) f (w_group w)) as [t f'] eqn:Hb.
        assert (Htag : tag ∈ f_pending f) by (rewrite Hpend; by left). eapply Hgo; [by eapply step_result|]. by eapply result_work.
    + destruct (collectWin tag a (w_now w) (q_cancelled q) f (w_group w)) as [t f'] eqn:Hb. eapply Hgo; [by eapply step_win|]. by eapply win_work.
    + destruct (collectCurrent tag a f (w_group w)) as [t f'] eqn:Hb. eapply Hgo; [by eapply step_current|]. by eapply current_work.
  - destruct (q_answer q) as [a'|] eqn:Ha; [unfold work in Hw; rewrite Hs, Ha in Hw; lia|]. eapply Hgo; [eapply step_take; [done..|by left]|]. unfold work. cbn. rewrite Hs, Ha. lia.
  - destruct (q_answer q) eqn:Ha; [|done]. unfold work in Hw. rewrite Hs, Ha in Hw. lia.
Qed.
End runs.
