(* ===== verification/DnsGroupSpec.v ===== *)
(** What the [group] DNS server promises: it selects by what has happened, and its
    elections and queries come to an end. *)

From S2P Require Import Prelude GoBytes GoStrings Netip Metadata DnsMessage DnsGroup DnsGroupTheorems.

(** ** The history, read off the log *)

Definition isReset (e : noted) : bool := match e with NotedReset => true | _ => false end.
(** The generation after [log]. *)
Definition generation (gen0 : nat) (log : list noted) : nat := (gen0 + length (List.filter isReset log))%nat.
(** The server failed at [at_], and since then neither it has answered nor the network
    has changed; what was asked before the last change does not count. *)
Definition unforgiven (gen0 : nat) (log : list noted) (tag : string) (at_ : Z) : Prop :=
  ∃ l1 l2, log = l1 ++ NotedError tag at_ (generation gen0 log) :: l2 ∧ NotedReset ∉ l2 ∧ NotedSuccess tag (generation gen0 log) ∉ l2.
(** ... and that is not too long ago. *)
Definition dirty (gen0 : nat) (log : list noted) (ttl now : Z) (tag : string) : Prop :=
  ∃ at_, unforgiven gen0 log tag at_ ∧ now - at_ < ttl.

Lemma history_gen gen0 log tag : (history gen0 log tag).1.1 = generation gen0 log.
Proof.
  unfold generation. induction log as [|e log IH] using rev_ind; [cbn; lia|]. rewrite history_snoc, List.filter_app, length_app, Nat.add_assoc, <- IH.
  destruct (history gen0 log tag) as [[gen errs] wins]. destruct e; cbn; try case_match; cbn; lia.
Qed.
Lemma generation_snoc gen0 log e : generation gen0 (log ++ [e]) = if isReset e then S (generation gen0 log) else generation gen0 log.
Proof. unfold generation. rewrite List.filter_app, length_app. cbn. destruct (isReset e); cbn; lia. Qed.

Lemma snoc_split {A} (log : list A) e x l1 l2 : log ++ [e] = l1 ++ x :: l2 → (l2 = [] ∧ l1 = log ∧ x = e) ∨ (∃ l2', l2 = l2' ++ [e] ∧ log = l1 ++ x :: l2').
Proof.
  intros H. destruct l2 as [|y l2 _] using rev_ind; [left; apply app_inj_tail in H as [-> ->]; done|]. right. exists l2.
  rewrite app_comm_cons, app_assoc in H. apply app_inj_tail in H as [-> ->]. done.
Qed.
(** The fold of the model keeps exactly the failures that count. *)
Lemma failures_unforgiven gen0 log tag at_ : at_ ∈ failuresOf gen0 log tag ↔ unforgiven gen0 log tag at_.
Proof.
  unfold failuresOf. induction log as [|e log IH] using rev_ind.
  { split; [by intros ?%elem_of_nil|]. intros (l1 & l2 & H & _). by destruct l1. }
  rewrite history_snoc. pose proof (history_gen gen0 log tag) as Hg. destruct (history gen0 log tag) as [[gen errs] wins]. cbn in IH, Hg. subst gen.
  assert (Hkeep : isReset e = false → e ≠ NotedSuccess tag (generation gen0 log) → (∀ a, e = NotedError tag a (generation gen0 log) → a ≠ at_) → unforgiven gen0 log tag at_ ↔ unforgiven gen0 (log ++ [e]) tag at_).
  { intros Hr Hs He. unfold unforgiven. rewrite generation_snoc, Hr. clear IH. generalize dependent (generation gen0 log). intros g Hs He. split.
    - intros (l1 & l2 & -> & Hn & Hn'). exists l1, (l2 ++ [e]). split; [by rewrite <- app_assoc|]. rewrite !elem_of_app, !list_elem_of_singleton. split; [intros [|<-]; done|intros [|<-]; done].
    - intros (l1 & l2 & H & Hn & Hn'). apply snoc_split in H as [(-> & -> & Heq)|(l2' & -> & ->)]; [by destruct (He at_)|]. exists l1, l2'. rewrite !elem_of_app in Hn, Hn'. tauto. }
  destruct e as [t a g|t g|t a g|]; cbn [histStep].
  - destruct (String.eqb_spec t tag) as [->|Hne]; cbn [andb]; [case_bool_decide as Hgen|]; cbn [fst snd].
    + subst g. rewrite elem_of_app, list_elem_of_singleton. destruct (decide (at_ = a)) as [->|Ha].
      * split; [|auto]. intros _. exists log, []. rewrite generation_snoc. cbn. split_and!; [done|by intros ?%elem_of_nil..].
      * rewrite IH, <- Hkeep; [tauto|done..|]. by intros a' [= <-].
    + rewrite IH, <- Hkeep; [done..|]. intros a' [= _ ->]. done.
    + rewrite IH, <- Hkeep; [done..|]. by intros a' [= -> _ _].
  - destruct (String.eqb_spec t tag) as [->|Hne]; cbn [andb]; [case_bool_decide as Hgen|]; cbn [fst snd].
    + subst g. split; [by intros ?%elem_of_nil|]. intros (l1 & l2 & H & _ & Hn). rewrite generation_snoc in *. cbn in *. apply snoc_split in H as [(_ & _ & ?)|(l2' & -> & _)]; [done|]. destruct Hn. apply elem_of_app. right. by left.
    + rewrite IH, <- Hkeep; [done..| |done]. congruence.
    + rewrite IH, <- Hkeep; [done..| |done]. congruence.
  - replace ((if String.eqb t tag && bool_decide (g = generation gen0 log) then (generation gen0 log, errs, wins ++ [a]) else (generation gen0 log, errs, wins)).1.2) with errs by (by case_match). by rewrite IH, <- Hkeep.
  - cbn. split; [by intros ?%elem_of_nil|]. intros (l1 & l2 & H & Hn & _). apply snoc_split in H as [(_ & _ & ?)|(l2' & -> & _)]; [done|]. destruct Hn. apply elem_of_app. right. by left.
Qed.

Section health.
Context (As_RcodeError : goerr → option Z) (Errors : list goerr → option goerr) (ctx_Err : goerr) (may_return : string → answer → Prop).
Context (Hreturn : ∀ tag a, may_return tag a → a ≠ (None, None)).
Context (t0 : GroupTransport) (Hfresh : g_records t0 = ∅ ∧ g_election t0 = false) (Hstarted : g_members t0 ≠ []) (now : Z) (w : groupWorld).
Context (Hi : group_inv t0 w).
#[local] Abbreviation dirtyTag := (dirty (g_gen t0) (w_log w) (g_errorTTL t0) (w_now w)).

Lemma live_dirty m : liveErrors (w_now w) (w_group w) m = [] ↔ ¬ dirtyTag (mb_tag m).
Proof using Hi.
  destruct (gi_track t0 w Hi (mb_tag m)) as (_ & Htr & _). destruct (gi_setup t0 w Hi) as (_ & _ & Hettl & _). pose proof (tracks_live _ _ _ _ Htr) as Hlen. rewrite Hettl in Hlen.
  unfold liveErrors. rewrite Hettl. split.
  - intros Hnil (a & Hu & Ha). rewrite Hnil in Hlen. cbn [length] in Hlen. assert (Hin : a ∈ filter (λ a, alive (g_errorTTL t0) (w_now w) a = true) (failuresOf (g_gen t0) (w_log w) (mb_tag m))).
    { apply list_elem_of_filter. split; [unfold alive; lia|by apply failures_unforgiven]. }
    destruct (filter _ (failuresOf _ _ _)) as [|? l]; [by apply elem_of_nil in Hin|]. unfold maxRecords in Hlen. cbn [length] in Hlen. lia.
  - intros Hnd. apply length_zero_iff_nil. rewrite Hlen. replace (filter _ _) with (@nil Z); [done|]. symmetry. apply filter_drops_all. rewrite Forall_forall. intros a Ha Hal. apply Hnd. exists a.
    split; [by apply failures_unforgiven|unfold alive in Hal; lia].
Qed.
(** The wins that count, by the log; the code counts to 64. *)
Definition winCount (m : member) : nat :=
  Nat.min maxRecords (length (filter (λ a, alive (g_winTTL t0) (w_now w) a = true) (winsOf (g_gen t0) (w_log w) (mb_tag m)))).
Lemma live_winCount m : length (liveWins (w_now w) (w_group w) m) = winCount m.
Proof using Hi.
  destruct (gi_track t0 w Hi (mb_tag m)) as (_ & _ & Htr). destruct (gi_setup t0 w Hi) as (_ & _ & _ & Hwttl & _). pose proof (tracks_live _ _ _ _ Htr) as Hlen. unfold liveWins. by rewrite Hlen, Hwttl.
Qed.
End health.

(** C15: a group selects by what has happened.  In every run - queries, answers in
    any order, cancelled requests and network changes - a server is clean unless it
    has failed within the time to live of errors and has neither answered since nor
    been forgiven by a change of the network.  Then a group that is started always
    selects: with no clean server one server is asked alone, one with the fewest
    errors; otherwise only clean servers are asked, all of them in the mode
    "parallel" and in an election, the current one in the mode "stable" as long as
    it is clean, and in the mode "fastest" one with the most wins. *)
Theorem dns_group_selects_by_history (As_RcodeError : goerr → option Z) (Errors : list goerr → option goerr) (ctx_Err : goerr)
    (may_return : string → answer → Prop) (t0 : GroupTransport) (start : Z) (w : groupWorld) (choice : nat)
    (Hreturn : ∀ tag a, may_return tag a → a ≠ (None, None)) (Hfresh : g_records t0 = ∅ ∧ g_election t0 = false) (Hstarted : g_members t0 ≠ [])
    (Hrun : dnsgroup_run As_RcodeError Errors ctx_Err may_return t0 start w) :
  let isClean m := m ∈ g_members t0 ∧ ¬ dirty (g_gen t0) (w_log w) (g_errorTTL t0) (w_now w) (mb_tag m) in
  ∃ t' sel, selectTarget (w_now w) choice (w_group w) = (t', Ok sel) ∧
    (sel_survival sel = true ↔ ∀ m, ¬ isClean m) ∧
    (sel_survival sel = true → sel_fan sel = [] ∧ ∃ m, sel_target sel = Some m ∧ m ∈ g_members t0 ∧ ∀ m', m' ∈ g_members t0 → cleaner (w_now w) (w_group w) m m') ∧
    (sel_survival sel = false →
      (sel_fan sel = [] → ∃ m, sel_target sel = Some m ∧ isClean m) ∧
      (sel_fan sel ≠ [] → ∀ m, m ∈ sel_fan sel ↔ isClean m) ∧
      (g_mode t0 = ModeParallel → sel_fan sel ≠ []) ∧
      (g_mode t0 = ModeStable → g_current (w_group w) ≠ EmptyString → (∃ c, isClean c ∧ mb_tag c = g_current (w_group w)) →
        ∃ m, sel_target sel = Some m ∧ mb_tag m = g_current (w_group w)) ∧
      (g_mode t0 = ModeFastest → ∀ m, sel_target sel = Some m → sel_provisional sel = false → ∀ k, isClean k → (winCount t0 w k ≤ winCount t0 w m)%nat)) ∧
    (sel_election sel = true → g_mode t0 = ModeFastest ∧ g_election (w_group w) = false ∧ ∀ k, isClean k → winCount t0 w k = 0%nat).
Proof.
  intros isClean. pose proof (group_run_inv As_RcodeError Errors ctx_Err may_return Hreturn t0 Hfresh Hstarted start w Hrun) as Hi.
  destruct (gi_setup t0 w Hi) as (_ & Hmode & _ & _ & Hmem). destruct (selectTarget_spec (w_now w) choice (w_group w)) as (t' & sel & Hsel & _ & Hgen & Hd); [by rewrite Hmem|].
  exists t', sel. split; [done|]. set (clean := filter _ (g_members (w_group w))) in Hd.
  assert (Hclean : ∀ m, m ∈ clean ↔ isClean m). { intros m. unfold clean, isClean. rewrite list_elem_of_filter, Hmem, (live_dirty t0 w Hi). tauto. }
  rewrite Hmem, Hmode in Hd. destruct (nonempty clean) eqn:Hc; cbn [negb] in Hd; last first.
  { apply nonempty_false in Hc. destruct Hd as (m & (H1 & H2 & H3) & H4 & H5 & H6). rewrite H3, H4, H2. split_and!; [|by eauto 10|done|done]. split; [|done]. intros _ k Hk%Hclean. rewrite Hc in Hk. by apply elem_of_nil in Hk. }
  apply nonempty_true in Hc. assert (Hex : ¬ ∀ m, ¬ isClean m). { destruct clean as [|c l]; [done|]. intros H. apply (H c), Hclean. by left. }
  destruct (String.eqb_spec (g_mode t0) ModeParallel) as [Hpar|Hpar].
  { destruct Hd as [(H1 & H2 & H3 & H4) H5]. rewrite H1, H2, H3, H5, Hpar. split_and!; [by split|done| |done]. intros _. split_and!; [done|by intros _ m; apply Hclean|done..]. }
  destruct (String.eqb_spec (g_mode t0) ModeFastest) as [Hfast|Hfast].
  - rewrite Hfast. destruct Hd as [(best & most & m & (H1 & H2 & H3) & H4 & H5 & Hpos & [Hin Hst] & Hall & Hbest)|[Hall Hd]].
    + rewrite H1, H2, H3, H4, H5. apply Hbest in Hin as [Hmc Hmw]. split_and!; [by split|done| |done]. intros _. split_and!; [intros _; exists m; by rewrite <- Hclean|done..|].
      intros _ m' [= <-] _ k Hk%Hclean. rewrite Forall_forall in Hall. specialize (Hall k Hk). by rewrite <- !(live_winCount t0 w Hi), Hmw.
    + rewrite Forall_forall in Hall. assert (Hzero : ∀ k, isClean k → winCount t0 w k = 0%nat). { intros k Hk%Hclean. rewrite <- (live_winCount t0 w Hi), (Hall k Hk). done. }
      destruct (g_election (w_group w)).
      * destruct Hd as (m & (H1 & H2 & H3) & H4 & H5 & Hin). rewrite H1, H2, H3, H4, H5. split_and!; [by split|done| |done]. intros _. split_and!; [intros _; exists m; by rewrite <- Hclean|done..].
      * destruct Hd as [(H1 & H2 & H3 & H4) H5]. rewrite H1, H2, H3. split_and!; [by split|done| |done]. intros _. split_and!; [done|by intros _ m; apply Hclean|done..].
  - destruct Hd as (m & (H1 & H2 & H3) & H4 & H5 & Hin & Hst). rewrite H1, H2, H3, H4. split_and!; [by split|done| |done]. intros _. split_and!; [intros _; exists m; by rewrite <- Hclean|done..| |done].
    intros _ Hne (c & Hcc & Hct). exists m. split; [done|]. apply Hst; [done|]. exists c. split; [by apply Hclean|done].
Qed.

(** C14: an election has one owner, and every query comes to an end.  In every run the
    flag is set exactly while one query owns the election; no step of any goroutine
    gives a query more to do, and as long as it has something to do it can do it when
    the servers answer - so the flag is released whatever becomes of the request,
    and every query is answered, never with neither a response nor an error. *)
Theorem dns_group_queries_end (As_RcodeError : goerr → option Z) (Errors : list goerr → option goerr) (ctx_Err : goerr)
    (may_return : string → answer → Prop) (t0 : GroupTransport) (start : Z) (w : groupWorld)
    (Hreturn : ∀ tag a, may_return tag a → a ≠ (None, None)) (Hanswer : ∀ tag, ∃ a, may_return tag a)
    (Hfresh : g_records t0 = ∅ ∧ g_election t0 = false) (Hstarted : g_members t0 ≠ [])
    (Hrun : dnsgroup_run As_RcodeError Errors ctx_Err may_return t0 start w) :
  let step := dnsgroup_step As_RcodeError Errors ctx_Err may_return in
  (g_election (w_group w) = true ↔ ∃ id q, w_queries w !! id = Some q ∧ holds_election (q_state q) = true) ∧
  (∀ id id' q q', w_queries w !! id = Some q → w_queries w !! id' = Some q' → holds_election (q_state q) = true → holds_election (q_state q') = true → id = id') ∧
  ∀ id q, w_queries w !! id = Some q →
    (∀ w', step w w' → ∃ q', w_queries w' !! id = Some q' ∧ (work t0 q' ≤ work t0 q)%nat) ∧
    ((0 < work t0 q)%nat → ∃ w' q', step w w' ∧ w_queries w' !! id = Some q' ∧ (work t0 q' < work t0 q)%nat) ∧
    (work t0 q = 0%nat → holds_election (q_state q) = false ∧ ∃ a, q_answer q = Some a ∧ a ≠ (None, None)).
Proof.
  intros step. pose proof (group_run_inv As_RcodeError Errors ctx_Err may_return Hreturn t0 Hfresh Hstarted start w Hrun) as Hi. split_and!.
  - split; [apply (gi_owned t0 w Hi)|]. intros (id & q & Hq & Hh). by destruct (gi_unique t0 w Hi id q Hq Hh).
  - intros id id' q q' Hq Hq' Hh Hh'. destruct (gi_unique t0 w Hi id' q' Hq' Hh') as [_ Hu]. by apply (Hu id q).
  - intros id q Hq. split_and!.
    + intros w' Hs. by eapply step_work.
    + intros Hw. by eapply step_possible.
    + destruct (gi_queries t0 w Hi id q Hq) as [Hqa Hok]. unfold work. destruct (q_answer q) as [a|] eqn:Ha; [|lia]. destruct (q_state q); try lia; intros _; (split; [done|]); exists a; (split; [done|]); intros ->; by apply Hqa.
Qed.

(** ** Witnesses *)

Definition demo_group (mode : string) : GroupTransport :=
  mkGroup "dns" ["a"; "b"]%string [] mode DefaultErrorTTL DefaultWinTTL [mkMember "a" "udp"; mkMember "b" "tls"]%string [] ∅ EmptyString false 0.
Definition canceled : goerr := ErrExternal "context canceled".
Definition cancelled_answer : answer := (None, Some canceled).
(** Servers return an error or a response. *)
Definition demo_return (tag : string) (a : answer) : Prop := a ≠ (None, None).
#[local] Abbreviation demo_step := (dnsgroup_step (λ _, None) (λ l, head l) canceled demo_return).
#[local] Abbreviation demo_run := (dnsgroup_run (λ _, None) (λ l, head l) canceled demo_return).

Lemma demo_returns tag : ∃ a, demo_return tag a.
Proof. by exists cancelled_answer. Qed.

(** A query selects "a" in the mode "stable" and begins; in the mode "fastest" it owns
    an election. *)
Definition demo_target : member := mkMember "a" "udp".
Definition demo_sel : selection := mkSelection (Some demo_target) [] false false false 0.
Definition asking : groupWorld :=
  mkWorld (setCurrent "a" 0 (demo_group ModeStable)) {[ 0%nat := mkQuery (AskTarget demo_sel demo_target) false None ]} 0 [].
Lemma demo_asking : demo_run (demo_group ModeStable) 0 asking.
Proof.
  eapply run_step; [eapply run_step; [apply run_start|]|].
  - apply (step_query _ _ _ _ _ 0 0 (demo_group ModeStable) demo_sel); [apply lookup_empty|vm_compute; reflexivity].
  - match goal with |- dnsgroup_step _ _ _ _ ?w _ =>
      replace asking with (with_query w 0 (setCurrent "a" 0 (demo_group ModeStable)) (with_q (mkQuery (Chosen demo_sel) false None) (AskTarget demo_sel demo_target)) [])
        by (vm_compute; reflexivity) end.
    by eapply (step_begin _ _ _ _ _ 0 (mkQuery (Chosen demo_sel) false None) demo_sel); [apply lookup_insert_eq|..].
Qed.
(** The request is cancelled, and so the exchange with "a" fails. *)
Definition blamed : groupWorld :=
  mkWorld (noteError "a" 0 0 (setCurrent "a" 0 (demo_group ModeStable))) {[ 0%nat := mkQuery (TargetFailed demo_sel demo_target cancelled_answer) true None ]} 0 [NotedError "a" 0 0].
Lemma demo_blamed : demo_run (demo_group ModeStable) 0 blamed.
Proof.
  eapply run_step; [eapply run_step; [apply demo_asking|]|].
  - apply (step_cancel _ _ _ _ _ 0 (mkQuery (AskTarget demo_sel demo_target) false None)). reflexivity.
  - match goal with |- dnsgroup_step _ _ _ _ ?w _ =>
      replace blamed with (with_query w 0 (noteError "a" 0 0 (setCurrent "a" 0 (demo_group ModeStable))) (mkQuery (TargetFailed demo_sel demo_target cancelled_answer) true None)
        [noteOf (λ _, None) (mb_tag demo_target) (sel_gen demo_sel) (w_now w) cancelled_answer]) by (vm_compute; reflexivity) end.
    by eapply (step_target _ _ _ _ _ 0 (mkQuery (AskTarget demo_sel demo_target) true None) demo_sel demo_target cancelled_answer 0).
Qed.

(** After the failure of "a" the group goes to "b". *)
Lemma dns_group_selects_by_history_witness :
  ∃ t' sel, selectTarget 0 0 (w_group blamed) = (t', Ok sel) ∧ (sel_target sel = Some (mkMember "b" "tls")) ∧
    (sel_survival sel = true ↔ ∀ m, ¬ (m ∈ g_members (demo_group ModeStable) ∧ ¬ dirty 0 [NotedError "a" 0 0] DefaultErrorTTL 0 (mb_tag m))).
Proof.
  destruct (dns_group_selects_by_history (λ _, None) (λ l, head l) canceled demo_return (demo_group ModeStable) 0 blamed 0) as (t' & sel & Hsel & Hsurv & _);
    [intros tag a H; exact H|split; reflexivity|discriminate|apply demo_blamed|].
  exists t', sel. split; [exact Hsel|]. split; [|exact Hsurv].
  assert (H : match selectTarget 0 0 (w_group blamed) with (_, Ok s) => sel_target s | _ => None end = Some (mkMember "b" "tls")) by (vm_compute; reflexivity).
  change (selectTarget 0 0 (w_group blamed) = (t', Ok sel)) in Hsel. rewrite Hsel in H. exact H.
Defined.

(** The request that was cancelled leaves its server with an error. *)
Lemma cancelled_query_blames_server : demo_run (demo_group ModeStable) 0 blamed ∧
  q_cancelled <$> (w_queries blamed !! 0%nat) = Some true ∧ dirty 0 (w_log blamed) DefaultErrorTTL (w_now blamed) "a".
Proof.
  split; [apply demo_blamed|]. split; [reflexivity|]. exists 0. split; [|unfold DefaultErrorTTL; cbn; lia]. exists [], []. split_and!; [reflexivity|by intros ?%elem_of_nil..].
Qed.

Definition electing : groupWorld :=
  mkWorld (with_state (demo_group ModeFastest) ∅ EmptyString true 0)
    {[ 0%nat := mkQuery (Chosen (mkSelection None (g_members (demo_group ModeFastest)) true false false 0)) false None ]} 0 [].
Lemma demo_electing : demo_run (demo_group ModeFastest) 0 electing.
Proof.
  eapply run_step; [apply run_start|].
  match goal with |- dnsgroup_step _ _ _ _ ?w _ =>
    replace electing with (with_query w 0 (with_state (demo_group ModeFastest) ∅ EmptyString true 0)
      (mkQuery (Chosen (mkSelection None (g_members (demo_group ModeFastest)) true false false 0)) false None) []) by (vm_compute; reflexivity) end.
  apply (step_query _ _ _ _ _ 0 0); [apply lookup_empty|vm_compute; reflexivity].
Qed.
Lemma dns_group_queries_end_witness :
  g_election (w_group electing) = true ∧ ∃ w', demo_step electing w' ∧ ∃ q', w_queries w' !! 0%nat = Some q' ∧ (work (demo_group ModeFastest) q' < 12)%nat.
Proof.
  destruct (dns_group_queries_end (λ _, None) (λ l, head l) canceled demo_return (demo_group ModeFastest) 0 electing) as (Hown & _ & Hq);
    [intros tag a H; exact H|apply demo_returns|split; reflexivity|discriminate|apply demo_electing|].
  split; [apply Hown; eexists 0%nat, _; split; reflexivity|].
  destruct (Hq 0%nat (mkQuery (Chosen (mkSelection None (g_members (demo_group ModeFastest)) true false false 0)) false None) eq_refl) as (_ & Hgo & _).
  destruct Hgo as (w' & q' & Hs & Hl & Hw); [cbn; lia|]. exists w'. split; [exact Hs|]. exists q'. split; [exact Hl|exact Hw].
Defined.
