(* ===== verification/TlsFragment.v ===== *)
(** The fragmentation of a TLS ClientHello, [common/tlsfragment].

    [IndexTLSServerName] finds the server name of the hello in the first packet
    of a connection; [Conn.Write] cuts the packet inside the name, into several
    packets, several TLS records or both.  The calls on the connection are
    recorded: a run is the list of its calls.  What they answer, the numbers that
    are drawn and the public suffix list are parameters. *)

From S2P Require Import Prelude GoBytes GoSlices GoStrings Ja3.

(** ** Finding the server name *)

Record MyServerName : Type := mkServerName {
  msn_Index : Z;
  msn_Length : Z;
  msn_ServerName : string;
  msn_ExtensionsListLengthIndex : Z
}.

(** One round of [for currentIndex := extensionsHeaderLen; len(exs) > 0; {...}]:
    the function returns, or the loop goes on.  [4+exLen] is a [uint16] in
    [exs[4+exLen:]] and an [int] in the sum. *)
Definition extensionStep (currentIndex : Z) (exs : list byte) : result (option MyServerName + Z * list byte) :=
  if len exs <? extensionHeaderLen then Ok (inl None) else
  exType ← u16 exs 0; exLen ← u16 exs 2;
  if len exs <? extensionHeaderLen + exLen then Ok (inl None) else
  sex ← slc exs extensionHeaderLen (extensionHeaderLen + exLen);
  if exType =? 0 then
    if len sex <? sniExtensionHeaderLen then Ok (inl None) else
    sniType ← idx sex 2;
    if negb (sniType =? 0) then Ok (inl None) else
    sniLen ← u16 sex 3;
    sex ← slc_from sex sniExtensionHeaderLen;
    Ok (inl (Some (mkServerName (currentIndex + extensionHeaderLen + sniExtensionHeaderLen) sniLen (bytes_str sex) 0)))
  else
    exs ← slc_from exs ((4 + exLen) mod 65536);
    Ok (inr (currentIndex + (4 + exLen), exs)).

(** The loop; [None] means that it has not ended after [fuel] rounds. *)
Fixpoint extensionLoop (fuel : nat) (currentIndex : Z) (exs : list byte) : option (result (option MyServerName)) :=
  if len exs <=? 0 then Some (Ok None) else
  match fuel with
  | O => None
  | S fuel =>
      match extensionStep currentIndex exs with
      | Ok (inl r) => Some (Ok r)
      | Ok (inr (currentIndex, exs)) => extensionLoop fuel currentIndex exs
      | Err e => Some (Err e)
      | Panic p => Some (Panic p)
      end
  end.

(** [indexTLSServerNameFromExtensions(exs)], with as many rounds as there are
    bytes. *)
Definition indexTLSServerNameFromExtensions (exs : list byte) : option (result (option MyServerName)) :=
  if len exs =? 0 then Some (Ok None) else
  if len exs <? extensionsHeaderLen then Some (Ok None) else
  match u16 exs 0, slc_from exs extensionsHeaderLen with
  | Ok exsLen, Ok exs =>
      if len exs <? exsLen then Some (Ok None)
      else extensionLoop (length exs) extensionsHeaderLen exs
  | _, _ => Some (Panic "index out of range")
  end.

(** What the callers add to a name that was found. *)
Definition shiftName (f : MyServerName → MyServerName) (r : option (result (option MyServerName))) :
    option (result (option MyServerName)) :=
  fmap (fmap (M := result) (fmap (M := option) f)) r.

(** The part of [indexTLSServerNameFromHandshake] before the extensions: where
    they begin. *)
Definition extensionsIndex (handshake : list byte) : result (option Z) :=
  if len handshake <? handshakeHeaderLen + randomDataLen + sessionIDHeaderLen then Ok None else
  handshakeType ← idx handshake 0;
  if negb (handshakeType =? 1) then Ok None else
  h1 ← idx handshake 1; h2 ← idx handshake 2; h3 ← idx handshake 3;
  let handshakeLen := Z.lor (Z.lor (Z.shiftl h1 16) (Z.shiftl h2 8)) h3 in
  rest ← slc_from handshake 4;
  if negb (len rest =? handshakeLen) then Ok None else
  tlsVersion ← u16 handshake 4;
  if bad_version tlsVersion then Ok None else
  sessionIDLen ← idx handshake 38;
  let currentIndex := handshakeHeaderLen + randomDataLen + sessionIDHeaderLen + sessionIDLen in
  if len handshake <? currentIndex then Ok None else
  cipherSuites ← slc_from handshake currentIndex;
  if len cipherSuites <? cipherSuiteHeaderLen then Ok None else
  csLen ← u16 cipherSuites 0;
  if len cipherSuites <? cipherSuiteHeaderLen + csLen + compressMethodHeaderLen then Ok None else
  compressMethodLen ← idx cipherSuites (cipherSuiteHeaderLen + csLen);
  let currentIndex := currentIndex + (cipherSuiteHeaderLen + csLen + compressMethodHeaderLen + compressMethodLen) in
  if len handshake <? currentIndex then Ok None else Ok (Some currentIndex).

Definition indexTLSServerNameFromHandshake (handshake : list byte) : option (result (option MyServerName)) :=
  match extensionsIndex handshake with
  | Ok None => Some (Ok None)
  | Ok (Some currentIndex) =>
      match slc_from handshake currentIndex with
      | Ok exs =>
          shiftName (λ n, mkServerName (msn_Index n + currentIndex) (msn_Length n) (msn_ServerName n) currentIndex)
            (indexTLSServerNameFromExtensions exs)
      | Err e => Some (Err e)
      | Panic p => Some (Panic p)
      end
  | Err e => Some (Err e)
  | Panic p => Some (Panic p)
  end.

(** The guards of [IndexTLSServerName]: the handshake behind the record header. *)
Definition recordHandshake (payload : list byte) : result (option (list byte)) :=
  if len payload <? recordLayerHeaderLen then Ok None else
  contentType ← idx payload 0;
  if negb (contentType =? 22) then Ok None else
  field ← slc payload 3 5; segmentLen ← uint_be 2 field;
  if len payload <? recordLayerHeaderLen + segmentLen then Ok None else
  Some <$> slc_from payload recordLayerHeaderLen.

Definition IndexTLSServerName (payload : list byte) : option (result (option MyServerName)) :=
  match recordHandshake payload with
  | Ok None => Some (Ok None)
  | Ok (Some handshake) =>
      shiftName (λ n, mkServerName (msn_Index n + recordLayerHeaderLen) (msn_Length n) (msn_ServerName n)
          (msn_ExtensionsListLengthIndex n + recordLayerHeaderLen))
        (indexTLSServerNameFromHandshake handshake)
  | Err e => Some (Err e)
  | Panic p => Some (Panic p)
  end.

(** ** The connection *)

(** [Conn]; [fc_tcp] tells whether [tcpConn] is set. *)
Record FragmentConn : Type := mkFragmentConn {
  fc_tcp : bool;
  fc_firstPacketWritten : bool;
  fc_splitPacket : bool;
  fc_splitRecord : bool;
  fc_fallbackDelay : Z
}.

(** [C.TLSFragmentFallbackDelay], in nanoseconds. *)
Definition C_TLSFragmentFallbackDelay : Z := 500 * 1000000.

Definition NewConn (tcp splitPacket splitRecord : bool) (fallbackDelay : Z) : FragmentConn :=
  let fallbackDelay := if fallbackDelay =? 0 then C_TLSFragmentFallbackDelay else fallbackDelay in
  mkFragmentConn tcp false splitPacket splitRecord fallbackDelay.

Definition WriterReplaceable (c : FragmentConn) : bool := fc_firstPacketWritten c.

(** A call on the connection or the clock.  [OpWaitAck] is the wait of
    [writeAndWaitAck] for the acknowledgement of what was written: it polls the
    socket, or sleeps where that is not possible, and sends nothing. *)
Inductive op : Type :=
| OpSetNoDelay (on : bool)
| OpWrite (payload : list byte)
| OpWaitAck (fallbackDelay : Z)
| OpSleep (delay : Z).

(** Calls in order; an error ends the function. *)
Definition io (A : Type) : Type := list op → list op * result A.
#[export] Instance io_ret : MRet io := λ A a calls, (calls, Ok a).
#[export] Instance io_bind : MBind io := λ A B f m calls,
  match m calls with
  | (calls, Ok a) => f a calls
  | (calls, Err e) => (calls, Err e)
  | (calls, Panic p) => (calls, Panic p)
  end.

(** A computation without calls. *)
Definition lift {A} (r : result A) : io A := λ calls, (calls, r).

(** [strings.Count(s, sep)] for a one-byte separator. *)
Fixpoint Count (s : string) (sep : ascii) : Z :=
  match s with
  | EmptyString => 0
  | String c s => (if Ascii.eqb c sep then 1 else 0) + Count s sep
  end.

Definition dot : ascii := ".".
Definition strlen (s : string) : Z := Z.of_nat (String.length s).

(** [splitIndexes[i]]. *)
Definition index_at (l : list Z) (i : Z) : result Z :=
  match (if i <? 0 then None else l !! Z.to_nat i) with Some z => Ok z | None => Panic "index out of range" end.

Section conn.
(** [publicsuffix.List.PublicSuffix]; what a call answers after the calls before
    it; the [k]-th random number. *)
Context (PublicSuffix : string → string) (answer : list op → op → Z * option goerr) (draw : nat → Z).

Definition doCall (o : op) : io Z := λ calls,
  let '(n, err) := answer calls o in
  (calls ++ [o], match err with Some e => Err e | None => Ok n end).

(** [rand.Intn(n)], the [k]-th one. *)
Definition Intn (k : nat) (n : Z) : result Z :=
  if n <=? 0 then Panic "invalid argument to Intn" else Ok (draw k mod n).

Definition writeAndWaitAck (payload : list byte) (fallbackDelay : Z) : io Z :=
  doCall (OpWrite payload);; doCall (OpWaitAck fallbackDelay).

(** [for i, split := range splits { ... }]: where the packet is cut. *)
Fixpoint splitIndexesLoop (i : nat) (currentIndex : Z) (splits : list string) : result (list Z) :=
  match splits with
  | [] => Ok []
  | split :: rest =>
      splitAt ← Intn i (strlen split);
      more ← splitIndexesLoop (S i) (currentIndex + strlen split + (if nonempty rest then 1 else 0)) rest;
      Ok (currentIndex + splitAt :: more)
  end.

(** From [splits := strings.Split(...)] to the loop. *)
Definition splitIndexes (serverName : MyServerName) : result (list Z) :=
  let name := msn_ServerName serverName in
  let splits := Split name dot in
  let currentIndex := msn_Index serverName in
  splits ← (if negb (String.eqb (PublicSuffix name) "") then slc splits 0 (len splits - Count name dot) else Ok splits);
  let '(currentIndex, splits) :=
    match splits with
    | first :: rest => if (1 <? len splits) && String.eqb first "..." then (currentIndex + (strlen first + 1), rest)
                       else (currentIndex, splits)
    | [] => (currentIndex, splits)
    end in
  splitIndexesLoop 0 currentIndex splits.

(** The bytes of the [i]-th fragment. *)
Definition fragmentPayload (c : FragmentConn) (b : list byte) (indexes : list Z) (i : Z) : result (list byte) :=
  if i =? 0 then
    hi ← index_at indexes i; payload ← slc b 0 hi;
    if fc_splitRecord c then slc_from payload recordLayerHeaderLen else Ok payload
  else if i =? len indexes then lo ← index_at indexes (i - 1); slc_from b lo
  else lo ← index_at indexes (i - 1); hi ← index_at indexes i; slc b lo hi.

(** The record of a fragment, added to the buffer. *)
Definition bufferRecord (c : FragmentConn) (b payload buffer : list byte) : result (list byte) :=
  let buffer := if fc_splitPacket c then [] else buffer in
  header ← slc b 0 3;
  Ok (buffer ++ header ++ put_be 2 (len payload mod 65536) ++ payload).

(** A packet of its own: written, and acknowledged unless it is the last. *)
Definition writePacket (c : FragmentConn) (payload : list byte) (last : bool) : io unit :=
  if fc_tcp c && negb last then writeAndWaitAck payload (fc_fallbackDelay c);; mret tt
  else
    doCall (OpWrite payload);;
    (if last then mret tt else doCall (OpSleep (fc_fallbackDelay c));; mret tt).

(** [for i := 0; i <= len(splitIndexes); i++], with [n] rounds to go; the buffer
    at the end. *)
Fixpoint writeFragments (c : FragmentConn) (b : list byte) (indexes : list Z) (n : nat) (i : Z) (buffer : list byte) : io (list byte) :=
  match n with
  | O => mret buffer
  | S n =>
      payload ← lift (fragmentPayload c b indexes i);
      buffer ← (if fc_splitRecord c then lift (bufferRecord c b payload buffer) else mret buffer);
      let payload := if fc_splitRecord c && fc_splitPacket c then buffer else payload in
      (if fc_splitPacket c then writePacket c payload (i =? len indexes) else mret tt);;
      writeFragments c b indexes n (i + 1) buffer
  end.

(** The body of [if serverName != nil {...}]. *)
Definition writeHello (c : FragmentConn) (b : list byte) (serverName : MyServerName) : io Z :=
  (if fc_splitPacket c && fc_tcp c then doCall (OpSetNoDelay true);; mret tt else mret tt);;
  indexes ← lift (splitIndexes serverName);
  buffer ← writeFragments c b indexes (S (length indexes)) 0 [];
  (if fc_splitRecord c && negb (fc_splitPacket c) then doCall (OpWrite buffer);; mret tt else mret tt);;
  (if fc_tcp c then doCall (OpSetNoDelay false);; mret tt else mret tt);;
  mret (len b).

Definition setWritten (c : FragmentConn) : FragmentConn :=
  mkFragmentConn (fc_tcp c) true (fc_splitPacket c) (fc_splitRecord c) (fc_fallbackDelay c).

(** [c.Conn.Write(b)], whose answer is returned as it is. *)
Definition passOn (b : list byte) : list op * result (Z * option goerr) :=
  ([OpWrite b], Ok (answer [] (OpWrite b))).

(** [Write]: the connection afterwards, the calls, and [(n, err)]; [None] when
    the search for the name does not end. *)
Definition Conn_Write (c : FragmentConn) (b : list byte) : option (FragmentConn * (list op * result (Z * option goerr))) :=
  if negb (fc_firstPacketWritten c) && (0 <? len b) then
    match IndexTLSServerName b with
    | None => None
    | Some (Ok None) => Some (setWritten c, passOn b)
    | Some (Ok (Some serverName)) =>
        let '(calls, r) := writeHello c b serverName [] in
        Some (setWritten c, (calls,
          match r with Ok n => Ok (n, None) | Err e => Ok (0, Some e) | Panic p => Panic p end))
    | Some (Err e) => Some (setWritten c, ([], Err e))
    | Some (Panic p) => Some (setWritten c, ([], Panic p))
    end
  else Some (c, passOn b).
End conn.
