(* ===== verification/TlsFragmentTheorems.v ===== *)
(** The fragments of a ClientHello carry the bytes that were written.

    [IndexTLSServerName] never panics, ends on every packet below 64 KiB, and what
    it finds is the place of the name in the packet.  The packet is cut inside the
    name only, and a peer that reads the packets, or the TLS records in them, gets
    the bytes of the packet. *)

From S2P Require Import Prelude GoBytes GoSlices GoStrings Ja3 TlsFragment.

(** ** Where the name is *)

(** The name lies in [b] at its index. *)
Definition located (b : list byte) (n : MyServerName) : Prop :=
  0 ≤ msn_Index n ∧ msn_Index n + strlen (msn_ServerName n) ≤ len b ∧
  slice b (msn_Index n) (msn_Index n + strlen (msn_ServerName n)) = str_bytes (msn_ServerName n).

Lemma strlen_bytes l : strlen (bytes_str l) = len l.
Proof.
  unfold strlen, len, bytes_str. f_equal. unfold String.string_of_list_byte.
  rewrite <- (length_map ascii_of_byte l). generalize (map ascii_of_byte l) as k.
  induction k as [|a k IH]; cbn; congruence.
Qed.

Lemma strlen_nonneg s : 0 ≤ strlen s.
Proof. unfold strlen. lia. Qed.

Lemma slice_slice {A} (l : list A) lo hi lo' hi' :
  0 ≤ lo → 0 ≤ lo' → lo' ≤ hi' → hi' ≤ hi - lo → slice (slice l lo hi) lo' hi' = slice l (lo + lo') (lo + hi').
Proof.
  intros. unfold slice. rewrite skipn_firstn_comm, take_take, drop_drop. f_equal; [lia|]. f_equal; lia.
Qed.

Lemma from_slice {A} (l : list A) lo : 0 ≤ lo ≤ len l → from l lo = slice l lo (len l).
Proof. intros. unfold from, slice. rewrite take_ge; [done|]. rewrite length_drop. unfold len. lia. Qed.

(** Found in the rest of a packet, found in the packet. *)
Lemma located_skip pre b n :
  located b n → located (pre ++ b) (mkServerName (msn_Index n + len pre) (msn_Length n) (msn_ServerName n)
    (msn_ExtensionsListLengthIndex n)).
Proof.
  unfold located. cbn [msn_Index msn_ServerName]. intros (H0 & H1 & H2). pose proof (len_nonneg pre).
  rewrite len_app. split_and!; [lia..|]. rewrite slice_app_skip by lia. rewrite <- H2. f_equal; lia.
Qed.

Lemma located_ext b n n' :
  msn_Index n = msn_Index n' → msn_ServerName n = msn_ServerName n' → located b n → located b n'.
Proof. unfold located. by intros -> ->. Qed.

Lemma from_take_drop {A} (l : list A) d : l = take (Z.to_nat d) l ++ from l d.
Proof. unfold from. by rewrite take_drop. Qed.

(** ** Results without errors *)

(** The call returns, without an error, a value with [P]. *)
Definition yields {A} (r : result A) (P : A → Prop) : Prop := match r with Ok a => P a | _ => False end.

Lemma yields_bind {A B} (r : result A) (f : A → result B) P Q :
  yields r P → (∀ a, P a → yields (f a) Q) → yields (r ≫= f) Q.
Proof. destruct r; cbn; auto. Qed.

Lemma yields_idx p i : 0 ≤ i < len p → yields (idx p i) (λ z, 0 ≤ z < 256).
Proof. intros. rewrite idx_ok by done. apply at_range. Qed.

Lemma yields_u16 p i : 0 ≤ i → i + 1 < len p → yields (u16 p i) (λ z, 0 ≤ z < 65536).
Proof.
  intros. pose proof (at_range p i). pose proof (at_range p (i + 1)).
  unfold u16. rewrite !idx_ok by lia. cbn. rewrite lor_bytes by done. lia.
Qed.

Lemma yields_slc {A} (p : list A) lo hi : 0 ≤ lo → lo ≤ hi → hi ≤ len p → yields (slc p lo hi) (λ s, s = slice p lo hi ∧ len s = hi - lo).
Proof. intros. rewrite slc_ok by done. split; [done|]. by apply len_slice. Qed.

Lemma yields_slc_from {A} (p : list A) lo : 0 ≤ lo ≤ len p → yields (slc_from p lo) (λ s, s = from p lo ∧ len s = len p - lo).
Proof. intros. rewrite slc_from_ok by done. split; [done|]. by apply len_from. Qed.

Lemma yields_uint_be n p : 0 ≤ n ≤ len p → yields (uint_be n p) (λ z, 0 ≤ z < 256 ^ n).
Proof.
  intros. rewrite uint_be_ok by done. cbn. pose proof (be_bound (slice p 0 n)) as H'.
  rewrite len_slice, Z.sub_0_r in H' by lia. done.
Qed.

(** Runs a function whose accesses sit behind their guards. *)
Ltac yield_step :=
  first [ eapply yields_bind;
          [ first [ apply yields_idx | apply yields_u16 | apply yields_slc_from | apply yields_slc | apply yields_uint_be ];
            bools; lia
          | cbv beta; intros ? ?; destruct_and? ]
        | match goal with |- yields (if ?b then _ else _) _ => let E := fresh "E" in destruct b eqn:E; [done|] end ].

Section constants.
Local Ltac consts :=
  unfold recordLayerHeaderLen, handshakeHeaderLen, randomDataLen, sessionIDHeaderLen, cipherSuiteHeaderLen,
    compressMethodHeaderLen, extensionsHeaderLen, extensionHeaderLen, sniExtensionHeaderLen in *.

(** A round of the loop: a name is where it says; the rest is a proper suffix. *)
Lemma extensionStep_ok cur exs :
  0 < len exs < 65536 →
  yields (extensionStep cur exs) (λ r, match r with
    | inl (Some n) => located exs (mkServerName (msn_Index n - cur) (msn_Length n) (msn_ServerName n) 0)
    | inl None => True
    | inr (cur', exs') => 4 ≤ cur' - cur ≤ len exs ∧ exs' = from exs (cur' - cur)
    end).
Proof.
  intros Hlen. unfold extensionStep. consts. do 5 yield_step. bools. case_match.
  - do 5 yield_step. bools. subst. cbn.
    unfold located. cbn [msn_Index msn_ServerName]. rewrite strlen_bytes, str_bytes_str. split_and!; [lia..|].
    match goal with |- context [from ?s 5] => rewrite (from_slice s 5) by lia end.
    rewrite slice_slice, (len_slice exs (4 + 5)) by lia. f_equal; lia.
  - rewrite (Z.mod_small (4 + _)) by lia. yield_step. subst. cbn. split; [lia|]. f_equal. lia.
Qed.
(** The loop: [pre] is what lies before the rest it looks at. *)
Lemma extensionLoop_ok fuel pre exs :
  len exs < 65536 → (length exs ≤ fuel)%nat →
  ∃ found, extensionLoop fuel (len pre) exs = Some (Ok found) ∧
    match found with Some n => located (pre ++ exs) n | None => True end.
Proof.
  revert pre exs. induction fuel as [|fuel IH]; intros pre exs Hlen Hfuel.
  { destruct exs; [by exists None|cbn in Hfuel; lia]. }
  cbn [extensionLoop]. case_match; [by exists None|]. bools.
  pose proof (extensionStep_ok (len pre) exs) as Hstep.
  destruct (extensionStep (len pre) exs) as [[[n|]|[cur' exs']]| |]; cbn in Hstep; [| |  |by destruct Hstep..].
  - exists (Some n). split; [done|]. eapply located_ext, located_skip, Hstep; [cbn; lia|done..].
  - by exists None.
  - destruct Hstep as [Hd ->]; [done|]. pose proof (from_take_drop exs (cur' - len pre)) as Hcut.
    assert (Hpre : len (pre ++ take (Z.to_nat (cur' - len pre)) exs) = cur') by (rewrite len_app, len_take; lia).
    destruct (IH (pre ++ take (Z.to_nat (cur' - len pre)) exs) (from exs (cur' - len pre))) as (found & Hrun & Hloc).
    + rewrite len_from; lia.
    + unfold from. rewrite length_drop. unfold len in *. lia.
    + rewrite Hpre, <- app_assoc, <- Hcut in *. by exists found.
Qed.

Lemma indexTLSServerNameFromExtensions_ok exs :
  len exs < 65536 →
  ∃ found, indexTLSServerNameFromExtensions exs = Some (Ok found) ∧
    match found with Some n => located exs n | None => True end.
Proof.
  intros Hlen. unfold indexTLSServerNameFromExtensions. consts.
  case_match; [by exists None|]. case_match; [by exists None|]. bools.
  pose proof (yields_u16 exs 0) as Hu. destruct (u16 exs 0); [|by destruct Hu; lia..].
  rewrite slc_from_ok by lia. case_match; [by exists None|].
  destruct (extensionLoop_ok (length (from exs 2)) (take (Z.to_nat 2) exs) (from exs 2)) as (found & Hrun & Hloc).
  - rewrite len_from; lia.
  - done.
  - rewrite len_take, <- from_take_drop in *. replace (Z.min _ _) with 2 in Hrun by lia. by exists found.
Qed.

Lemma extensionsIndex_ok handshake :
  yields (extensionsIndex handshake) (λ r, match r with Some i => 0 ≤ i ≤ len handshake | None => True end).
Proof.
  unfold extensionsIndex. consts. repeat yield_step. bools. cbn. lia.
Qed.

Lemma indexTLSServerNameFromHandshake_ok handshake :
  len handshake < 65536 →
  ∃ found, indexTLSServerNameFromHandshake handshake = Some (Ok found) ∧
    match found with Some n => located handshake n | None => True end.
Proof.
  intros Hlen. unfold indexTLSServerNameFromHandshake. pose proof (extensionsIndex_ok handshake) as Hi.
  destruct (extensionsIndex handshake) as [[i|]| |]; cbn in Hi; [|by exists None|done..].
  rewrite slc_from_ok by lia. destruct (indexTLSServerNameFromExtensions_ok (from handshake i)) as (found & -> & Hloc).
  { rewrite len_from; lia. }
  eexists. split; [done|]. destruct found as [n|]; [|done]. cbn.
  rewrite (from_take_drop handshake i). eapply located_ext, located_skip, Hloc; [|done].
  cbn. rewrite len_take. lia.
Qed.

(** A search below 64 KiB ends without an error, with a name in its place. *)
Lemma IndexTLSServerName_ok payload :
  len payload < 65536 →
  ∃ found, IndexTLSServerName payload = Some (Ok found) ∧
    match found with Some n => located payload n ∧ recordLayerHeaderLen ≤ msn_Index n | None => True end.
Proof.
  intros Hlen. unfold IndexTLSServerName.
  assert (Hh : yields (recordHandshake payload) (λ r, match r with
    | Some handshake => handshake = from payload 5 ∧ 5 ≤ len payload | None => True end)).
  { unfold recordHandshake. consts. do 6 yield_step. bools. rewrite slc_from_ok by lia. done. }
  destruct (recordHandshake payload) as [[hs|]| |]; cbn in Hh; [|by exists None|done..]. destruct Hh as [-> Hh].
  destruct (indexTLSServerNameFromHandshake_ok (from payload 5)) as (found & -> & Hloc).
  { rewrite len_from; lia. }
  eexists. split; [done|]. destruct found as [n|]; [|done]. cbn. split; [|destruct Hloc; consts; lia].
  rewrite (from_take_drop payload 5). eapply located_ext, located_skip, Hloc; [|done].
  cbn. rewrite len_take. consts. lia.
Qed.

(** The sum [4+exLen] wraps to zero at 65532: an extension of that size that is
    not a server name is looked at for ever. *)
Lemma extensionLoop_stalls fuel cur t exs :
  0 < t < 65536 → 65532 ≤ len exs → extensionLoop fuel cur (put_be 2 t ++ put_be 2 65532 ++ exs) = None.
Proof.
  intros Ht Hlen. revert cur. induction fuel as [|fuel IH]; intros cur; cbn [extensionLoop].
  { rewrite (proj2 (Z.leb_gt _ _)) by (lens; lia). done. }
  rewrite (proj2 (Z.leb_gt _ _)) by (lens; lia). unfold extensionStep. consts.
  rewrite (proj2 (Z.ltb_ge _ _)) by (lens; lia). rewrite u16_put by (unfold u16_range; lia). cbn [mbind result_bind].
  at_field. rewrite u16_put by (unfold u16_range; lia). cbn [mbind result_bind].
  rewrite (proj2 (Z.ltb_ge _ _)) by (lens; lia). rewrite slc_ok by (lens; lia). cbn [mbind result_bind].
  rewrite (proj2 (Z.eqb_neq _ _)) by lia. change ((4 + 65532) mod 65536) with 0. rewrite slc_from_0. apply IH.
Qed.

(** ** The name of a printed hello *)

(** The first name a hello gives. *)
Fixpoint first_host (l : list extension) : option (list byte) :=
  match l with
  | [] => None
  | ServerNameExt host :: _ => Some host
  | _ :: l => first_host l
  end.

Lemma first_host_skip e l : ext_ok e → ext_type e ≠ 0 → first_host (e :: l) = first_host l.
Proof. by destruct e. Qed.

Lemma ext_type_0 e : ext_ok e → ext_type e = 0 → ∃ host, e = ServerNameExt host.
Proof.
  intros [H _] Ht. destruct e; cbn in *; try lia; [eauto|]. subst. destruct H as [_ H].
  exfalso. apply H. left.
Qed.

Lemma extensionLoop_read l fuel cur :
  Forall ext_ok l → len (enc_exts l) < 65536 → (length (enc_exts l) ≤ fuel)%nat →
  ∃ found, extensionLoop fuel cur (enc_exts l) = Some (Ok found) ∧ msn_ServerName <$> found = bytes_str <$> first_host l.
Proof.
  revert cur fuel. induction l as [|e l IH]; intros cur fuel Hok Hlen Hfuel.
  { exists None. by destruct fuel. }
  apply Forall_cons in Hok as [He Hl]. rewrite enc_exts_cons in *. pose proof (ext_type_range e He) as Ht.
  pose proof (len_nonneg (ext_body e)). pose proof (len_nonneg (enc_exts l)).
  assert (Hsize : len (enc_ext e ++ enc_exts l) = 4 + len (ext_body e) + len (enc_exts l)) by (unfold enc_ext; lens; lia).
  destruct fuel as [|fuel]; [unfold len in Hsize; lia|].
  cbn [extensionLoop]. rewrite (proj2 (Z.leb_gt _ _)) by lia. unfold extensionStep. consts.
  rewrite (proj2 (Z.ltb_ge _ _)) by lia. unfold enc_ext in *. rewrite <- !app_assoc in *.
  rewrite u16_put by done. cbn [mbind result_bind]. at_field. rewrite u16_put by (unfold u16_range; lia).
  cbn [mbind result_bind]. rewrite (proj2 (Z.ltb_ge _ _)) by lia.
  rewrite !slc_skip by (lens; lia). lens. rewrite slc_head by lia. cbn [mbind result_bind].
  destruct (ext_type e =? 0) eqn:E; bools.
  - destruct (ext_type_0 e) as [host ->]; [done..|]. cbn [ext_body first_host fmap option_fmap option_map] in *.
    pose proof (len_nonneg host). lens. rewrite (proj2 (Z.ltb_ge _ _)) by (lens; lia). at_field.
    cbn [app]. rewrite idx_head. cbn [mbind result_bind bz]. cbn -[u16 slc_from app put_be].
    change (x00 :: ?r) with ([x00] ++ r). at_field. rewrite u16_put by (unfold u16_range; lia).
    rewrite slc_from_0. cbn. eauto.
  - rewrite Z.mod_small by lia. at_field. rewrite slc_from_0. cbn [mbind result_bind].
    rewrite first_host_skip by done. apply IH; [done|lia|].
    rewrite !length_app, !length_put_be in Hfuel. lia.
Qed.

(** Where the extensions of a printed hello begin. *)
Lemma extensionsIndex_read h :
  hello_ok h → ∃ i pre, extensionsIndex (enc_handshake h) = Ok (Some i) ∧ i = len pre ∧
    enc_handshake h = pre ++ put_be 2 (len (enc_exts (he_extensions h))) ++ enc_exts (he_extensions h).
Proof.
  intros [Hv Hr Hs Hc Hcomp He Hsize]. destruct (version_good _ Hv) as [Hgood Hrange].
  unfold enc_handshake, enc_body in *.
  pose proof (len_nonneg (he_session h)). pose proof (len_nonneg (he_ciphers h)).
  pose proof (len_nonneg (he_compression h)). pose proof (len_nonneg (enc_exts (he_extensions h))).
  unfold extensionsIndex. consts. lens.
  match goal with |- context [put_be 3 ?n ++ ?r] => destruct (idx_put3 n r) as (I0 & I1 & I2); set (k := n) in * end.
  rewrite (proj2 (Z.ltb_ge _ _)) by (lens; lia). cbn [app]. rewrite idx_head. cbn [mbind result_bind].
  change (negb (bz x01 =? 1)) with false. cbv iota.
  change (x01 :: ?l) with ([x01] ++ l). rewrite !(idx_skip [x01]) by done. lens.
  change (1 - (1 + 0)) with 0. change (2 - (1 + 0)) with 1. change (3 - (1 + 0)) with 2.
  rewrite I0, I1, I2. cbn [mbind result_bind]. rewrite put3_value by (subst k; lia). clear I0 I1 I2.
  at_field. rewrite slc_from_0. cbn [mbind result_bind]. lens. subst k. rewrite (proj2 (Z.eqb_eq _ _)) by lia. cbn [negb].
  rewrite u16_put by done. cbn [mbind result_bind]. rewrite Hgood. rewrite idx_put1 by lia. cbn [mbind result_bind].
  rewrite (proj2 (Z.ltb_ge _ _)) by lia. at_field. rewrite slc_from_0. cbn [mbind result_bind]. lens.
  rewrite (proj2 (Z.ltb_ge _ _)) by lia. rewrite u16_put by (unfold u16_range; lia). cbn [mbind result_bind].
  rewrite (proj2 (Z.ltb_ge _ _)) by lia. at_field. rewrite idx_put1 by lia. cbn [mbind result_bind].
  rewrite (proj2 (Z.ltb_ge _ _)) by lia.
  eexists _, ([x01] ++ put_be 3 _ ++ put_be 2 (he_version h) ++ he_random h ++ put_be 1 (len (he_session h)) ++
    he_session h ++ put_be 2 (2 * len (he_ciphers h)) ++ u16s (he_ciphers h) ++ put_be 1 (len (he_compression h)) ++
    he_compression h).
  split; [done|]. rewrite <- !app_assoc. split; [|done]. lens. lia.
Qed.

(** A client's hello is recognised: the name found is the first it gives. *)
Lemma IndexTLSServerName_read h :
  hello_ok h → ∃ found, IndexTLSServerName (enc_record h []) = Some (Ok found) ∧
    msn_ServerName <$> found = bytes_str <$> first_host (he_extensions h).
Proof.
  intros Hok. destruct (extensionsIndex_read h Hok) as (i & pre & Hi & Hpre & Henc).
  destruct Hok as [_ _ _ _ _ He Hsize]. pose proof (len_nonneg (enc_handshake h)). pose proof (len_nonneg pre).
  set (exts := enc_exts (he_extensions h)) in *. pose proof (len_nonneg exts).
  assert (Hrec : recordHandshake (enc_record h []) = Ok (Some (enc_handshake h))).
  { unfold recordHandshake, enc_record. rewrite app_nil_r. consts. lens. rewrite (proj2 (Z.ltb_ge _ _)) by lia.
    cbn [app]. rewrite idx_head. cbn [mbind result_bind]. change (negb (bz x16 =? 22)) with false. cbv iota.
    change (x16 :: ?l) with ([x16] ++ l). rewrite !slc_skip by (lens; lia). lens. rewrite slc_head by (lens; lia).
    cbn [mbind result_bind]. rewrite <- (app_nil_r (put_be 2 (len _))), (uint_be_put 2), app_nil_r by lia.
    cbn [mbind result_bind]. rewrite (proj2 (Z.ltb_ge _ _)) by lia. at_field. by rewrite slc_from_0. }
  unfold IndexTLSServerName. rewrite Hrec. unfold indexTLSServerNameFromHandshake. rewrite Hi, Henc, Hpre.
  rewrite slc_from_skip by lia. replace (len pre - len pre) with 0 by lia. rewrite slc_from_0.
  assert (Hall : len exts < 65536) by (rewrite Henc in Hsize; lens; lia).
  destruct (extensionLoop_read (he_extensions h) (length exts) 2) as (found & Hrun & Hname); [done..|].
  unfold indexTLSServerNameFromExtensions. consts. lens.
  rewrite (proj2 (Z.eqb_neq _ _)), (proj2 (Z.ltb_ge _ _)), u16_put by (unfold u16_range; lia).
  at_field. rewrite slc_from_0, Z.ltb_irrefl. fold exts in Hrun. rewrite Hrun. cbn.
  eexists. split; [done|]. rewrite <- Hname. by destruct found.
Qed.
End constants.
