(* ===== verification/TlsFragmentWrite.v ===== *)
(** What [Conn.Write] of [common/tlsfragment] sends.

    The labels of the server name give the cuts; the fragments between them are
    written as packets, as TLS records, or both.  [helloOps] lists the calls of a
    write that meets no error; a write makes them in order up to the first that
    fails. *)

From S2P Require Import Prelude GoBytes GoSlices GoStrings Ja3 TlsFragment TlsFragmentTheorems.

(** ** Labels *)

Lemma Split_ne s c : Split s c ≠ [].
Proof. destruct s; cbn; [done|]. case_match; [done|]. by case_match. Qed.

Lemma len_Split s c : len (Split s c) = Count s c + 1.
Proof.
  induction s as [|a s IH]; [done|]. cbn. case_match; [rewrite len_cons; lia|].
  destruct (Split s c) as [|w ws] eqn:E; [by apply Split_ne in E|]. rewrite len_cons in *. lia.
Qed.

Lemma Split_clean s c : Forall (λ w, Count w c = 0) (Split s c).
Proof.
  induction s as [|a s IH]; [by repeat constructor|]. cbn. destruct (Ascii.eqb a c) eqn:E; [by constructor|].
  destruct (Split s c) as [|w ws]; [by repeat constructor; cbn; rewrite E|].
  apply Forall_cons in IH as [Hw Hws]. constructor; [|done]. cbn. by rewrite E.
Qed.

(** The room labels take, with the dots between them. *)
Fixpoint span (labels : list string) : Z :=
  match labels with
  | [] => 0
  | [w] => strlen w
  | w :: labels => strlen w + 1 + span labels
  end.

Lemma span_cons w ws : span (w :: ws) = strlen w + (if nonempty ws then 1 else 0) + span ws.
Proof. destruct ws; cbn [span nonempty]; lia. Qed.

Lemma span_nonneg ws : 0 ≤ span ws.
Proof.
  induction ws as [|w ws IH]; [done|]. rewrite span_cons. pose proof (strlen_nonneg w). case_match; lia.
Qed.

Lemma span_Split s c : span (Split s c) = strlen s.
Proof.
  induction s as [|a s IH]; [done|]. cbn [Split]. pose proof (Split_ne s c).
  assert (Hs : ∀ r, strlen (String a r) = 1 + strlen r) by (intros; unfold strlen; cbn; lia).
  destruct (Split s c) as [|w ws] eqn:E; [done|].
  case_match; rewrite Hs, <- IH, !span_cons; cbn [nonempty]; rewrite ?Hs; unfold strlen; cbn; lia.
Qed.

(** The labels that are cut: the first one when the name has a public suffix, all
    of them otherwise. *)
Definition cutLabels (PublicSuffix : string → string) (name : string) : list string :=
  if String.eqb (PublicSuffix name) "" then Split name dot else take 1 (Split name dot).

Definition labels_ok (PublicSuffix : string → string) (name : string) : Prop :=
  Forall (λ w, w ≠ EmptyString) (cutLabels PublicSuffix name).

Lemma cutLabels_span PS name : span (cutLabels PS name) ≤ strlen name.
Proof.
  unfold cutLabels. rewrite <- (span_Split name dot). pose proof (Split_ne name dot).
  case_match; [done|]. destruct (Split name dot) as [|w ws]; [done|]. rewrite span_cons.
  pose proof (span_nonneg ws). change (take 1 (w :: ws)) with [w]. cbn [span]. destruct (nonempty ws); lia.
Qed.

Lemma cutLabels_ne PS name : cutLabels PS name ≠ [].
Proof.
  unfold cutLabels. pose proof (Split_ne name dot). case_match; [done|]. by destruct (Split name dot).
Qed.

(** ** Cuts *)

(** Increasing cuts between [lo] and [hi]. *)
Fixpoint ascending (lo : Z) (cuts : list Z) (hi : Z) : Prop :=
  match cuts with
  | [] => lo ≤ hi
  | cut :: cuts => lo ≤ cut ∧ ascending (cut + 1) cuts hi
  end.

Lemma ascending_mono lo lo' cuts hi hi' : lo' ≤ lo → hi ≤ hi' → ascending lo cuts hi → ascending lo' cuts hi'.
Proof.
  revert lo lo'. induction cuts as [|c cuts IH]; cbn; intros lo lo' Hl Hh H; [lia|]. destruct H as [H1 H2].
  split; [lia|]. eapply IH, H2; lia.
Qed.

Lemma ascending_bounds lo cuts hi : ascending lo cuts hi → lo ≤ hi ∧ Forall (λ c, lo ≤ c < hi) cuts.
Proof.
  revert lo. induction cuts as [|c cuts IH]; cbn; intros lo H; [by split|]. destruct H as [H1 H2].
  destruct (IH _ H2) as [H3 H4]. split; [lia|]. constructor; [lia|]. eapply Forall_impl; [exact H4|]. cbn. lia.
Qed.

(** The fragments between the cuts, from [lo] on. *)
Fixpoint cutAt (b : list byte) (lo : Z) (cuts : list Z) : list (list byte) :=
  match cuts with
  | [] => [from b lo]
  | cut :: cuts => slice b lo cut :: cutAt b cut cuts
  end.

Lemma length_cutAt b lo cuts : length (cutAt b lo cuts) = S (length cuts).
Proof. revert lo. induction cuts as [|c cuts IH]; intros; cbn; [done|]. by rewrite IH. Qed.

(** Nothing is lost or repeated at the cuts. *)
Lemma concat_cutAt b lo cuts : 0 ≤ lo → ascending lo cuts (len b) → concat (cutAt b lo cuts) = from b lo.
Proof.
  revert lo. induction cuts as [|c cuts IH]; cbn; intros lo Hlo H; [by rewrite app_nil_r|]. destruct H as [H1 H2].
  pose proof (ascending_bounds _ _ _ H2) as [H3 _]. rewrite IH; [|lia|eapply ascending_mono, H2; lia].
  rewrite !(from_slice b) by lia. symmetry. apply slice_split; lia.
Qed.

Lemma cutAt_lookup b lo cuts k p :
  cutAt b lo cuts !! k = Some p →
  ∃ a, (lo :: cuts) !! k = Some a ∧
    match cuts !! k with Some h => p = slice b a h | None => k = length cuts ∧ p = from b a end.
Proof.
  revert lo k. induction cuts as [|c cuts IH]; intros lo [|k] H; cbn in H; simplify_eq; [by eexists..|].
  destruct (IH c k H) as (a & Ha & Hp). exists a. split; [done|].
  change ((c :: cuts) !! S k) with (cuts !! k). destruct (cuts !! k); [done|]. destruct Hp as [-> ?]. done.
Qed.

Lemma fragment_len b lo cuts k p : cutAt b lo cuts !! k = Some p → len p ≤ len b.
Proof.
  intros (a & _ & Hp)%cutAt_lookup. pose proof (len_nonneg b).
  case_match; [|destruct Hp as [_ Hp]]; subst; unfold slice, from; rewrite ?len_take, len_drop; lia.
Qed.

Lemma ascending_lookup lo cuts hi k a :
  ascending lo cuts hi → (lo :: cuts) !! k = Some a →
  lo ≤ a ≤ hi ∧ ∀ h, cuts !! k = Some h → a ≤ h ≤ hi.
Proof.
  revert lo k. induction cuts as [|c cuts IH]; intros lo [|k] H Ha; cbn in Ha; simplify_eq; cbn in H.
  - split; [lia|done].
  - destruct H as [H1 H2]. pose proof (ascending_bounds _ _ _ H2) as [H3 _]. split; [lia|].
    intros h Hh. cbn in Hh. simplify_eq. lia.
  - destruct H as [H1 H2]. destruct (IH c k) as [H3 H4]; [eapply ascending_mono, H2; lia|done|]. split; [lia|done].
Qed.

Lemma index_at_ok l (k : nat) z : l !! k = Some z → index_at l (Z.of_nat k) = Ok z.
Proof. intros H. unfold index_at. rewrite (proj2 (Z.ltb_ge _ _)), Nat2Z.id, H by lia. done. Qed.

(** Where the fragments begin: behind the header of the record when records are
    cut. *)
Definition cutStart (c : FragmentConn) : Z := if fc_splitRecord c then recordLayerHeaderLen else 0.

Lemma fragmentPayload_ok c b cuts k p :
  cuts ≠ [] → ascending (cutStart c) cuts (len b) → cutAt b (cutStart c) cuts !! k = Some p →
  fragmentPayload c b cuts (Z.of_nat k) = Ok p.
Proof.
  intros Hne Hasc Hk. pose proof (cutAt_lookup _ _ _ _ _ Hk) as (a & Ha & Hp).
  pose proof (ascending_lookup _ _ _ _ _ Hasc Ha) as [Hb Hh].
  assert (Hstart : 0 ≤ cutStart c) by (unfold cutStart, recordLayerHeaderLen; destruct (fc_splitRecord c); lia).
  unfold fragmentPayload. destruct k as [|k].
  - destruct cuts as [|h cuts]; [done|]. cbn in Ha, Hp, Hh. simplify_eq. specialize (Hh h eq_refl).
    cbn [Z.of_nat Z.eqb]. rewrite (index_at_ok _ 0 h) by done. cbn [mbind result_bind].
    rewrite slc_ok by lia. cbn [mbind result_bind]. unfold cutStart, recordLayerHeaderLen in *.
    destruct (fc_splitRecord c); [|done].
    rewrite slc_from_ok by (rewrite len_slice by lia; lia). f_equal. rewrite from_slice by (rewrite len_slice by lia; lia).
    rewrite len_slice, slice_slice by lia. f_equal; lia.
  - rewrite (proj2 (Z.eqb_neq _ 0)) by lia. replace (Z.of_nat (S k) - 1) with (Z.of_nat k) by lia.
    cbn in Ha. rewrite (index_at_ok cuts k a) by done. cbn [mbind result_bind]. unfold len at 1.
    destruct (cuts !! S k) as [h|] eqn:Eh.
    + pose proof (lookup_lt_Some _ _ _ Eh). rewrite (proj2 (Z.eqb_neq _ _)) by lia.
      rewrite (index_at_ok cuts (S k) h) by done. cbn [mbind result_bind]. specialize (Hh h eq_refl).
      rewrite slc_ok by lia. by subst.
    + destruct Hp as [Hp ->]. rewrite (proj2 (Z.eqb_eq _ _)) by lia. by rewrite slc_from_ok by lia.
Qed.

(** ** The calls of a write *)

(** A fragment as a TLS record of the kind and version of the packet. *)
Definition record (b p : list byte) : list byte := take 3 b ++ put_be 2 (len p) ++ p.

(** A fragment as it is sent. *)
Definition wire (c : FragmentConn) (b p : list byte) : list byte := if fc_splitRecord c then record b p else p.

Lemma bufferRecord_ok c b p buffer :
  3 ≤ len b → len p < 65536 →
  bufferRecord c b p buffer = Ok ((if fc_splitPacket c then [] else buffer) ++ record b p).
Proof.
  intros Hb Hp. unfold bufferRecord. rewrite slc_ok by lia. cbn [mbind result_bind].
  pose proof (len_nonneg p). by rewrite Z.mod_small by lia.
Qed.

(** The calls for a packet and for packets. *)
Definition packetOps (c : FragmentConn) (p : list byte) (last : bool) : list op :=
  OpWrite p :: (if last then [] else [if fc_tcp c then OpWaitAck (fc_fallbackDelay c) else OpSleep (fc_fallbackDelay c)]).

Fixpoint packetsOps (c : FragmentConn) (ps : list (list byte)) : list op :=
  match ps with
  | [] => []
  | p :: ps => packetOps c p (negb (nonempty ps)) ++ packetsOps c ps
  end.

(** The calls of a write that meets no error. *)
Definition helloOps (c : FragmentConn) (b : list byte) (fragments : list (list byte)) : list op :=
  (if fc_splitPacket c && fc_tcp c then [OpSetNoDelay true] else []) ++
  (if fc_splitPacket c then packetsOps c (wire c b <$> fragments)
   else if fc_splitRecord c then [OpWrite (concat (wire c b <$> fragments))] else []) ++
  (if fc_tcp c then [OpSetNoDelay false] else []).

(** The calls up to the first that fails, and its error. *)
Fixpoint runOps (answer : list op → op → Z * option goerr) (calls ops : list op) : list op * option goerr :=
  match ops with
  | [] => (calls, None)
  | o :: ops =>
      match snd (answer calls o) with
      | Some e => (calls ++ [o], Some e)
      | None => runOps answer (calls ++ [o]) ops
      end
  end.

Section draws.
Context (draw : nat → Z).

Lemma Intn_ok k w : w ≠ EmptyString → ∃ z, Intn draw k (strlen w) = Ok z ∧ 0 ≤ z < strlen w.
Proof.
  intros Hw. assert (0 < strlen w) by (destruct w; [done|unfold strlen; cbn; lia]).
  unfold Intn. rewrite (proj2 (Z.leb_gt _ _)) by lia. eexists. split; [done|]. by apply Z.mod_pos_bound.
Qed.

(** Each label is cut once, inside it. *)
Lemma splitIndexesLoop_ok i cur labels :
  Forall (λ w, w ≠ EmptyString) labels →
  ∃ cuts, splitIndexesLoop draw i cur labels = Ok cuts ∧ length cuts = length labels ∧ ascending cur cuts (cur + span labels).
Proof.
  revert i cur. induction labels as [|w ws IH]; intros i cur Hok; [exists []; cbn; split_and!; [done..|lia]|].
  apply Forall_cons in Hok as [Hw Hws]. destruct (Intn_ok i w Hw) as (z & Hz & Hr). cbn [splitIndexesLoop].
  rewrite Hz. cbn [mbind result_bind].
  destruct (IH (S i) (cur + strlen w + (if nonempty ws then 1 else 0)) Hws) as (cuts & -> & Hl & Ha).
  eexists. cbn [mbind result_bind]. split; [done|]. cbn [length ascending]. split; [lia|]. split; [lia|].
  rewrite span_cons. eapply ascending_mono, Ha; case_match; lia.
Qed.

Lemma splitIndexesLoop_panics i cur labels :
  ¬ Forall (λ w, w ≠ EmptyString) labels → ∃ p, splitIndexesLoop draw i cur labels = Panic p.
Proof.
  revert i cur. induction labels as [|w ws IH]; intros i cur H; [by destruct H|]. cbn [splitIndexesLoop].
  destruct (decide (w = EmptyString)) as [->|Hw]; [by eexists|]. destruct (Intn_ok i w Hw) as (z & -> & _).
  cbn [mbind result_bind]. destruct (IH (S i) (cur + strlen w + (if nonempty ws then 1 else 0))) as [p ->].
  { intros Hws. apply H. by constructor. }
  by exists p.
Qed.

End draws.

Section write.
Context (PublicSuffix : string → string) (answer : list op → op → Z * option goerr) (draw : nat → Z).

(** The computation of the cuts looks at [cutLabels] only: no label is three
    dots. *)
Lemma splitIndexes_labels n :
  splitIndexes PublicSuffix draw n = splitIndexesLoop draw 0 (msn_Index n) (cutLabels PublicSuffix (msn_ServerName n)).
Proof.
  unfold splitIndexes, cutLabels. set (name := msn_ServerName n). pose proof (Split_clean name dot) as Hc.
  pose proof (Split_ne name dot) as Hne. pose proof (len_Split name dot) as Hlen.
  destruct (Split name dot) as [|w ws] eqn:E; [done|]. apply Forall_cons in Hc as [Hw Hws].
  destruct (String.eqb (PublicSuffix name) ""); cbn [negb].
  - cbn [mbind result_bind]. destruct (String.eqb_spec w "...") as [->|]; [by vm_compute in Hw|].
    by rewrite andb_false_r.
  - replace (len (w :: ws) - Count name dot) with 1 by lia. pose proof (len_nonneg ws).
    rewrite slc_ok by (rewrite ?len_cons; lia). reflexivity.
Qed.
(** [m] makes the calls [ops] up to the first error, and then returns [a]. *)
Definition follows {A} (m : io A) (ops : list op) (a : A) : Prop :=
  ∀ calls, m calls = (fst (runOps answer calls ops), match snd (runOps answer calls ops) with Some e => Err e | None => Ok a end).

Lemma runOps_app calls ops ops' :
  runOps answer calls (ops ++ ops') =
  match runOps answer calls ops with (calls, None) => runOps answer calls ops' | r => r end.
Proof. revert calls. induction ops as [|o ops IH]; intros; cbn; [done|]. by case_match. Qed.

Lemma follows_bind {A B} (m : io A) (f : A → io B) ops ops' a b :
  follows m ops a → follows (f a) ops' b → follows (m ≫= f) (ops ++ ops') b.
Proof.
  intros Hm Hf calls. cbn. unfold mbind, io_bind. rewrite Hm, runOps_app.
  destruct (runOps answer calls ops) as [calls' [e|]]; cbn; [done|]. apply Hf.
Qed.

Lemma follows_ret {A} (a : A) : follows (mret a) [] a.
Proof. done. Qed.

Lemma follows_lift {A} (r : result A) a : r = Ok a → follows (lift r) [] a.
Proof. by intros -> calls. Qed.

(** A call whose answer is not used. *)
Lemma follows_perform {B} o (k : io B) ops b : follows k ops b → follows (doCall answer o;; k) (o :: ops) b.
Proof.
  intros Hk calls. cbn. unfold mbind, io_bind, doCall. destruct (answer calls o) as [n [e|]]; cbn; [done|]. apply Hk.
Qed.

Lemma follows_when (cond : bool) o : follows (if cond then doCall answer o;; mret tt else mret tt) (if cond then [o] else []) tt.
Proof. destruct cond; [apply follows_perform|]; apply follows_ret. Qed.

Lemma writePacket_ok c p last : follows (writePacket answer c p last) (packetOps c p last) tt.
Proof.
  unfold writePacket, writeAndWaitAck, packetOps. destruct last, (fc_tcp c); cbn [andb negb].
  all: first [ repeat apply follows_perform; apply follows_ret
             | intros calls; cbn; unfold mbind, io_bind, doCall;
               repeat (destruct (answer _ _) as [? [?|]]; cbn; try done) ].
Qed.

Lemma writeFragments_ok c b cuts n k buffer :
  cuts ≠ [] → ascending (cutStart c) cuts (len b) → 3 ≤ len b < 65536 →
  let fragments := cutAt b (cutStart c) cuts in
  (n + k = length fragments)%nat →
  ∃ buffer', follows (writeFragments answer c b cuts n (Z.of_nat k) buffer)
      (if fc_splitPacket c then packetsOps c (wire c b <$> drop k fragments) else []) buffer' ∧
    (fc_splitRecord c = true → fc_splitPacket c = false → buffer' = buffer ++ concat (wire c b <$> drop k fragments)).
Proof.
  intros Hne Hasc Hb fragments. revert k buffer. induction n as [|n IH]; intros k buffer Hn.
  { exists buffer. rewrite drop_ge by lia. cbn. rewrite app_nil_r. split; [|done]. by destruct (fc_splitPacket c). }
  destruct (lookup_lt_is_Some_2 fragments k) as [p Hp]; [lia|].
  pose proof (fragmentPayload_ok c b cuts k p Hne Hasc Hp) as Hpay. pose proof (fragment_len _ _ _ _ _ Hp) as Hlen.
  assert (Hlast : (Z.of_nat k =? len cuts) = negb (nonempty (wire c b <$> drop (S k) fragments))).
  { pose proof (length_cutAt b (cutStart c) cuts) as Hl. fold fragments in Hl.
    destruct (drop (S k) fragments) as [|q qs] eqn:E; pose proof (f_equal length E) as Hd;
      rewrite length_drop in Hd; cbn in Hd |- *; unfold len; [apply Z.eqb_eq|apply Z.eqb_neq]; lia. }
  set (buffer1 := if fc_splitRecord c then (if fc_splitPacket c then [] else buffer) ++ record b p else buffer).
  destruct (IH (S k) buffer1) as (buffer' & Hrun & Hbuf); [lia|]. exists buffer'.
  rewrite (drop_S fragments p k Hp). cbn [fmap list_fmap packetsOps concat]. rewrite <- Hlast. split.
  - cbn [writeFragments]. apply (follows_bind _ _ [] _ p); [by apply follows_lift|].
    apply (follows_bind _ _ [] _ buffer1).
    { subst buffer1. destruct (fc_splitRecord c); [|done]. apply follows_lift. apply bufferRecord_ok; lia. }
    replace (Z.of_nat k + 1) with (Z.of_nat (S k)) by lia. unfold wire in *.
    destruct (fc_splitPacket c); [|exact (follows_bind _ _ [] _ tt _ (follows_ret tt) Hrun)].
    eapply follows_bind; [|exact Hrun]. rewrite andb_true_r. subst buffer1.
    destruct (fc_splitRecord c); apply writePacket_ok.
  - intros Hr Hk. rewrite (Hbuf Hr Hk). subst buffer1. unfold wire. rewrite Hr, Hk. by rewrite <- app_assoc.
Qed.

(** The write of a packet with a name makes the calls of [helloOps]. *)
Lemma writeHello_ok c b n :
  located b n → recordLayerHeaderLen ≤ msn_Index n → len b < 65536 → labels_ok PublicSuffix (msn_ServerName n) →
  ∃ cuts, cuts ≠ [] ∧ ascending (msn_Index n) cuts (msn_Index n + strlen (msn_ServerName n)) ∧
    follows (writeHello PublicSuffix answer draw c b n) (helloOps c b (cutAt b (cutStart c) cuts)) (len b).
Proof.
  intros (H0 & H1 & _) H5 Hb Hlabels.
  destruct (splitIndexesLoop_ok draw 0 (msn_Index n) _ Hlabels) as (cuts & Hcuts & Hl & Hasc).
  rewrite <- splitIndexes_labels in Hcuts. pose proof (cutLabels_span PublicSuffix (msn_ServerName n)) as Hspan.
  pose proof (cutLabels_ne PublicSuffix (msn_ServerName n)) as Hne. exists cuts.
  assert (Hcne : cuts ≠ []) by (intros ->; by destruct (cutLabels _ _)).
  split; [done|]. split; [eapply ascending_mono, Hasc; lia|].
  assert (Hstart : ascending (cutStart c) cuts (len b)).
  { eapply ascending_mono, Hasc; [|lia]. unfold cutStart, recordLayerHeaderLen in *. destruct (fc_splitRecord c); lia. }
  destruct (writeFragments_ok c b cuts (S (length cuts)) 0 [] Hcne Hstart) as (buffer & Hrun & Hbuf).
  { unfold recordLayerHeaderLen in *. pose proof (strlen_nonneg (msn_ServerName n)). lia. }
  { rewrite length_cutAt. lia. }
  unfold writeHello, helloOps. eapply follows_bind; [apply follows_when|].
  apply (follows_bind _ _ [] _ cuts); [by apply follows_lift|]. rewrite drop_0 in *.
  set (fragments := cutAt b (cutStart c) cuts) in *.
  assert (Hend : follows ((if fc_tcp c then doCall answer (OpSetNoDelay false);; mret tt else mret tt);; mret (len b))
    (if fc_tcp c then [OpSetNoDelay false] else []) (len b)).
  { rewrite <- (app_nil_r (if fc_tcp c then _ else _)). eapply follows_bind; [apply follows_when|apply follows_ret]. }
  destruct (fc_splitPacket c) eqn:Ep.
  - rewrite andb_false_r. eapply follows_bind; [exact Hrun|].
    apply (follows_bind _ _ [] _ tt); [apply follows_ret|exact Hend].
  - apply (follows_bind _ _ [] _ buffer); [exact Hrun|]. rewrite andb_true_r. eapply follows_bind; [|exact Hend].
    destruct (fc_splitRecord c) eqn:Er; [|apply follows_ret]. rewrite (Hbuf eq_refl eq_refl). apply (follows_when true).
Qed.
End write.

Lemma runOps_fine (n : Z) calls ops : runOps (λ _ _, (n, None)) calls ops = (calls ++ ops, None).
Proof. revert calls. induction ops as [|o ops IH]; intros; cbn; [by rewrite app_nil_r|]. by rewrite IH, <- app_assoc. Qed.

(** ** The peer *)

(** What is written on the connection. *)
Definition writes (ops : list op) : list (list byte) :=
  omap (λ o, match o with OpWrite p => Some p | _ => None end) ops.

(** A peer that reads TLS records: kind and version, and the content, of each. *)
Fixpoint readRecords (fuel : nat) (s : list byte) : option (list (list byte * list byte)) :=
  match s, fuel with
  | [], _ => Some []
  | _, O => None
  | _, S fuel =>
      if len s <? recordLayerHeaderLen then None else
      let n := be (slice s 3 5) in
      if len s <? recordLayerHeaderLen + n then None else
      rest ← readRecords fuel (from s (recordLayerHeaderLen + n));
      Some ((slice s 0 3, slice s 5 (5 + n)) :: rest)
  end.

(** The peer has the packet [b]: as it is, or, when records are cut, its content
    in records of its kind and version. *)
Definition received (c : FragmentConn) (b s : list byte) : Prop :=
  if fc_splitRecord c
  then ∃ contents, readRecords (length s) s = Some ((λ p, (take 3 b, p)) <$> contents) ∧
         concat contents = from b recordLayerHeaderLen
  else s = b.

Lemma readRecords_record fuel b p rest :
  3 ≤ len b → len p < 65536 →
  readRecords (S fuel) (record b p ++ rest) = (λ l, (take 3 b, p) :: l) <$> readRecords fuel rest.
Proof.
  intros Hb Hp. pose proof (len_nonneg p). pose proof (len_nonneg rest).
  assert (H3 : len (take 3 b) = 3) by (rewrite len_take; lia).
  assert (Hlen : len (record b p ++ rest) = 5 + len p + len rest) by (unfold record; lens; lia).
  assert (Hn : be (slice (record b p ++ rest) 3 5) = len p).
  { unfold record. rewrite <- !app_assoc, slice_app_skip, H3 by lia. rewrite (slice_app_head (put_be 2 _)) by (rewrite len_put2; lia).
    apply be_put_be. lia. }
  assert (Hhead : slice (record b p ++ rest) 0 3 = take 3 b).
  { unfold record. rewrite <- !app_assoc. by apply slice_app_head. }
  assert (Hbody : slice (record b p ++ rest) 5 (5 + len p) = p).
  { unfold record. rewrite <- !app_assoc, !slice_app_skip by (lens; lia). lens.
    rewrite H3. replace (5 - 3 - 2) with 0 by lia. apply slice_app_head. lia. }
  assert (Hrest : from (record b p ++ rest) (5 + len p) = rest).
  { unfold from. apply drop_app_length'. unfold len in *. rewrite length_app in Hlen. lia. }
  cbn [readRecords]. destruct (record b p ++ rest) as [|x l] eqn:E; [rewrite len_nil in Hlen; lia|].
  rewrite Hn, Hhead.
  unfold recordLayerHeaderLen. rewrite !(proj2 (Z.ltb_ge _ _)), Hrest, Hbody by lia. by destruct (readRecords fuel rest).
Qed.

Lemma readRecords_records fuel b ps :
  3 ≤ len b → Forall (λ p, len p < 65536) ps → (length ps ≤ fuel)%nat →
  readRecords fuel (concat (record b <$> ps)) = Some ((λ p, (take 3 b, p)) <$> ps).
Proof.
  intros Hb Hps. revert fuel. induction Hps as [|p ps Hp Hps IH]; intros fuel Hf; [by destruct fuel|].
  destruct fuel as [|fuel]; [cbn in Hf; lia|]. cbn [fmap list_fmap concat].
  rewrite readRecords_record by done. rewrite IH by (cbn in Hf; lia). done.
Qed.

Lemma records_length b ps : 3 ≤ len b → (length ps ≤ length (concat (record b <$> ps)))%nat.
Proof.
  intros Hb. induction ps as [|p ps IH]; [done|]. cbn [fmap list_fmap concat length]. rewrite length_app.
  unfold record at 1. rewrite !length_app, length_put_be. lia.
Qed.

Lemma writes_app l k : writes (l ++ k) = writes l ++ writes k.
Proof. apply omap_app. Qed.

Lemma writes_packets c ps : writes (packetsOps c ps) = ps.
Proof.
  induction ps as [|p ps IH]; [done|]. cbn [packetsOps]. rewrite writes_app, IH. unfold packetOps.
  by destruct ps, (fc_tcp c).
Qed.

Lemma writes_hello c b fragments :
  fc_splitPacket c || fc_splitRecord c = true →
  concat (writes (helloOps c b fragments)) = concat (wire c b <$> fragments).
Proof.
  intros Hmode. unfold helloOps. rewrite !writes_app.
  assert (Hn : writes (if fc_tcp c then [OpSetNoDelay false] else []) = []) by by destruct (fc_tcp c).
  assert (Hp : writes (if fc_splitPacket c && fc_tcp c then [OpSetNoDelay true] else []) = [])
    by by destruct (fc_splitPacket c && fc_tcp c).
  rewrite Hn, Hp, app_nil_r. destruct (fc_splitPacket c); cbn [app]; [by rewrite writes_packets|].
  cbn in Hmode. rewrite Hmode. cbn. by rewrite app_nil_r.
Qed.

(** The fragments, sent in any mode, reach the peer as the packet. *)
Lemma fragments_received c b cuts :
  fc_splitPacket c || fc_splitRecord c = true → 3 ≤ len b < 65536 → ascending (cutStart c) cuts (len b) →
  received c b (concat (writes (helloOps c b (cutAt b (cutStart c) cuts)))).
Proof.
  intros Hmode Hb Hasc. rewrite writes_hello by done. unfold received, wire, cutStart in *.
  destruct (fc_splitRecord c).
  - exists (cutAt b recordLayerHeaderLen cuts). split; [|by apply concat_cutAt].
    apply (readRecords_records _ b); [lia| |by apply (records_length b); lia].
    apply Forall_lookup_2. intros k p Hk%fragment_len. lia.
  - rewrite list_fmap_id. by rewrite concat_cutAt.
Qed.

(** C18: the first packet of a connection below 64 KiB is searched for a server
    name without a panic and in finitely many rounds, and in a hello that a client
    prints the first name is found.  Without a name the packet is written as it is.
    With a name, none of whose cut labels is empty, it is cut at increasing places
    inside the name; the write makes the calls [helloOps] in order, stops at the
    first that fails with its error and otherwise reports the whole packet; and
    what is written reaches a peer as the packet: unchanged when packets are cut,
    as records of the same kind and version with the same content when records
    are. *)
Theorem tls_fragments_reassemble (PublicSuffix : string → string) (answer : list op → op → Z * option goerr)
    (draw : nat → Z) (c : FragmentConn) (b : list byte)
    (Hfirst : fc_firstPacketWritten c = false) (Hmode : fc_splitPacket c || fc_splitRecord c = true)
    (Hlen : 0 < len b < 65536) :
  ∃ found, IndexTLSServerName b = Some (Ok found) ∧
    (∀ h, hello_ok h → b = enc_record h [] → msn_ServerName <$> found = bytes_str <$> first_host (he_extensions h)) ∧
    match found with
    | None => Conn_Write PublicSuffix answer draw c b = Some (setWritten c, passOn answer b)
    | Some n =>
        located b n ∧
        (labels_ok PublicSuffix (msn_ServerName n) →
         ∃ cuts, cuts ≠ [] ∧ ascending (msn_Index n) cuts (msn_Index n + strlen (msn_ServerName n)) ∧
           let ops := helloOps c b (cutAt b (cutStart c) cuts) in
           Conn_Write PublicSuffix answer draw c b =
             Some (setWritten c, (fst (runOps answer [] ops),
               Ok match snd (runOps answer [] ops) with Some e => (0, Some e) | None => (len b, None) end)) ∧
           received c b (concat (writes ops)))
    end.
Proof.
  destruct (IndexTLSServerName_ok b) as (found & Hindex & Hfound); [lia|]. exists found. split; [done|]. split.
  { intros h Hok ->. destruct (IndexTLSServerName_read h Hok) as (found' & H & ?). congruence. }
  unfold Conn_Write. rewrite Hfirst, (proj2 (Z.ltb_lt _ _)), Hindex by lia. cbn [negb andb].
  destruct found as [n|]; [|done]. destruct Hfound as [Hloc H5]. split; [done|]. intros Hlabels.
  destruct (writeHello_ok PublicSuffix answer draw c b n Hloc H5) as (cuts & Hne & Hasc & Hrun); [lia|done|].
  exists cuts. split; [done|]. split; [done|]. cbv zeta. rewrite (Hrun []). split.
  { cbv iota beta. by destruct (snd (runOps answer [] _)). }
  destruct Hloc as (H0 & H1 & _). pose proof (strlen_nonneg (msn_ServerName n)). unfold recordLayerHeaderLen in H5.
  apply fragments_received; [done|lia|]. eapply ascending_mono, Hasc; [|lia].
  unfold cutStart, recordLayerHeaderLen. case_match; lia.
Qed.

Definition demo_fragment_conn : FragmentConn := NewConn true true true 0.
Definition demo_packet : list byte := enc_record demo_hello [].
Definition demo_write : option (FragmentConn * (list op * result (Z * option goerr))) :=
  Conn_Write (λ _, "com"%string) (λ _ _, (0, None)) (λ _, 10) demo_fragment_conn demo_packet.

(** The hello for example.com in two packets of one record each. *)
Lemma tls_fragments_reassemble_witness :
  (λ r, length (writes (fst (snd r)))) <$> demo_write = Some 2%nat ∧
  ∃ n cuts, IndexTLSServerName demo_packet = Some (Ok (Some n)) ∧ msn_ServerName n = "example.com"%string ∧ cuts ≠ [] ∧
    demo_write = Some (setWritten demo_fragment_conn,
      (helloOps demo_fragment_conn demo_packet (cutAt demo_packet (cutStart demo_fragment_conn) cuts), Ok (len demo_packet, None))) ∧
    received demo_fragment_conn demo_packet
      (concat (writes (helloOps demo_fragment_conn demo_packet (cutAt demo_packet (cutStart demo_fragment_conn) cuts)))).
Proof.
  split; [vm_compute; reflexivity|].
  destruct (tls_fragments_reassemble (λ _, "com"%string) (λ _ _, (0, None)) (λ _, 10) demo_fragment_conn
    demo_packet eq_refl eq_refl ltac:(vm_compute; split; reflexivity)) as (found & Hindex & _ & Hfound).
  assert (Hname : msn_ServerName <$> found = Some "example.com"%string).
  { vm_compute in Hindex. injection Hindex as <-. reflexivity. }
  destruct found as [n|]; [|discriminate Hname]. injection Hname as Hname. destruct Hfound as [_ Hfound].
  destruct Hfound as (cuts & Hne & _ & Hrun & Hrec); [rewrite Hname; repeat constructor; discriminate|].
  exists n, cuts. rewrite !runOps_fine in Hrun. exact (conj Hindex (conj Hname (conj Hne (conj Hrun Hrec)))).
Defined.

(** A name with an empty label among those that are cut makes the write panic:
    [rand.Intn(0)]. *)
Lemma empty_label_panics PublicSuffix answer draw c b n :
  fc_firstPacketWritten c = false → 0 < len b → IndexTLSServerName b = Some (Ok (Some n)) →
  snd (answer [] (OpSetNoDelay true)) = None → ¬ labels_ok PublicSuffix (msn_ServerName n) →
  ∃ calls p, Conn_Write PublicSuffix answer draw c b = Some (setWritten c, (calls, Panic p)).
Proof.
  intros Hfirst Hlen Hindex Hfine Hlabels. unfold Conn_Write. rewrite Hfirst, (proj2 (Z.ltb_lt _ _)), Hindex by lia.
  cbn [negb andb]. destruct (splitIndexesLoop_panics draw 0 (msn_Index n) _ Hlabels) as [p Hp].
  rewrite <- splitIndexes_labels in Hp. unfold writeHello. destruct (fc_splitPacket c && fc_tcp c).
  - cbn. unfold mbind, io_bind, doCall, lift. destruct (answer [] (OpSetNoDelay true)) as [k [e|]]; [done|].
    rewrite Hp. by eexists _, p.
  - cbn. unfold mbind, io_bind, lift. rewrite Hp. by eexists _, p.
Qed.

(** A hello with an empty name is such a packet. *)
Definition empty_name_hello : hello :=
  mkHelloMessage 0x0303 (replicate 32 x07) [] [0x1301] [x00] [ServerNameExt []].

Example empty_name_panics tcp splitPacket splitRecord delay :
  ∃ calls p, Conn_Write (λ _, EmptyString) (λ _ _, (0, None)) (λ _, 0) (NewConn tcp splitPacket splitRecord delay)
      (enc_record empty_name_hello []) = Some (setWritten (NewConn tcp splitPacket splitRecord delay), (calls, Panic p)).
Proof.
  eapply empty_label_panics; [done|by vm_compute|vm_compute; reflexivity|done|].
  intros H. vm_compute in H. inversion H. done.
Qed.
