(* ===== verification/ConnPool.v ===== *)
(** The connection pool of DNS servers ([dns/transport/conn_pool.go], with the parts
    of [conntest_lx.go] that change its state).

    The pool shares one connection ([ConnPoolSingle]) or parks idle ones
    ([ConnPoolOrdered]).  A critical section of its mutex is a function on the pool;
    [pool_step] interleaves them in any order.  The states, pending connects and
    contexts the code points to are in stores, under numbers.  Dialling, closing and
    asking a connection whether it is alive belong to the environment; the query
    trace is left out. *)

From S2P Require Import Prelude GoBytes.

Inductive ConnPoolMode : Type := ConnPoolSingle | ConnPoolOrdered.
#[export] Instance ConnPoolMode_eq_dec : EqDecision ConnPoolMode.
Proof. solve_decision. Defined.

(** [net.ErrClosed]. *)
Definition net_ErrClosed : goerr := ErrExternal "use of closed network connection".

(** Connections, compared by identity. *)
Notation conn := nat (only parsing).

(** [connPoolState]: [ps_cause] is the cause its context was cancelled with;
    [ps_sharedCtx] stands for [sharedCtx] with its cancel function, and the values
    of [ps_owned] for the contexts of fresh connections with theirs. *)
Record connPoolState : Type := mkPoolState {
  ps_cause : option goerr;
  ps_all : gset conn;
  ps_idle : list conn;
  ps_idleElements : gset conn;
  ps_shared : option conn;
  ps_sharedClaimed : bool;
  ps_sharedUsers : Z;
  ps_sharedWaiters : Z;
  ps_sharedCtx : option nat;
  ps_connecting : option nat;
  ps_owned : gmap conn (option nat)
}.

(** [connPoolConnect]. *)
Record connPoolConnect : Type := mkConnect { cn_done : bool; cn_err : option goerr }.

(** A context made by the pool: the state whose context it belongs to, and the
    cause it was itself cancelled with. *)
Record poolCtx : Type := mkPoolCtx { pc_parent : nat; pc_cause : option goerr }.

(** [ConnPool], with the stores; [cp_next] is a number not in use. *)
Record ConnPool : Type := mkPool {
  cp_mode : ConnPoolMode;
  cp_MaxInflight : Z;
  cp_closed : bool;
  cp_state : option nat;
  cp_sem : Z;
  cp_states : gmap nat connPoolState;
  cp_connects : gmap nat connPoolConnect;
  cp_ctxs : gmap nat poolCtx;
  cp_next : nat
}.

Definition newConnPoolState : connPoolState := mkPoolState None ∅ [] ∅ None false 0 0 None None ∅.

Definition NewConnPool (mode : ConnPoolMode) (maxInflight : Z) : ConnPool :=
  mkPool mode maxInflight false (Some 0%nat) 0 {[0%nat := newConnPoolState]} ∅ ∅ 1.

(** Whether [p.sem] is set. *)
Definition hasSem (p : ConnPool) : bool := bool_decide (cp_mode p = ConnPoolOrdered) && (0 <? cp_MaxInflight p).

Definition with_states (p : ConnPool) states ctxs : ConnPool :=
  mkPool (cp_mode p) (cp_MaxInflight p) (cp_closed p) (cp_state p) (cp_sem p) states (cp_connects p) ctxs (cp_next p).
Definition with_connects (p : ConnPool) connects next : ConnPool :=
  mkPool (cp_mode p) (cp_MaxInflight p) (cp_closed p) (cp_state p) (cp_sem p) (cp_states p) connects (cp_ctxs p) next.
Definition with_sem (p : ConnPool) sem : ConnPool :=
  mkPool (cp_mode p) (cp_MaxInflight p) (cp_closed p) (cp_state p) sem (cp_states p) (cp_connects p) (cp_ctxs p) (cp_next p).
Definition with_current (p : ConnPool) closed state states next : ConnPool :=
  mkPool (cp_mode p) (cp_MaxInflight p) closed state (cp_sem p) states (cp_connects p) (cp_ctxs p) next.

(** The state [g] points to is replaced. *)
Definition put_state (p : ConnPool) (g : nat) (st : connPoolState) : ConnPool :=
  with_states p (<[g := st]> (cp_states p)) (cp_ctxs p).

Definition set_all (st : connPoolState) all : connPoolState :=
  mkPoolState (ps_cause st) all (ps_idle st) (ps_idleElements st) (ps_shared st) (ps_sharedClaimed st) (ps_sharedUsers st)
    (ps_sharedWaiters st) (ps_sharedCtx st) (ps_connecting st) (ps_owned st).
Definition set_idle (st : connPoolState) idle elements : connPoolState :=
  mkPoolState (ps_cause st) (ps_all st) idle elements (ps_shared st) (ps_sharedClaimed st) (ps_sharedUsers st)
    (ps_sharedWaiters st) (ps_sharedCtx st) (ps_connecting st) (ps_owned st).
Definition set_shared (st : connPoolState) shared claimed users ctx : connPoolState :=
  mkPoolState (ps_cause st) (ps_all st) (ps_idle st) (ps_idleElements st) shared claimed users
    (ps_sharedWaiters st) ctx (ps_connecting st) (ps_owned st).
Definition set_waiters (st : connPoolState) waiters connecting : connPoolState :=
  mkPoolState (ps_cause st) (ps_all st) (ps_idle st) (ps_idleElements st) (ps_shared st) (ps_sharedClaimed st) (ps_sharedUsers st)
    waiters (ps_sharedCtx st) connecting (ps_owned st).
Definition set_owned (st : connPoolState) owned : connPoolState :=
  mkPoolState (ps_cause st) (ps_all st) (ps_idle st) (ps_idleElements st) (ps_shared st) (ps_sharedClaimed st) (ps_sharedUsers st)
    (ps_sharedWaiters st) (ps_sharedCtx st) (ps_connecting st) owned.
Definition set_cause (st : connPoolState) cause : connPoolState :=
  mkPoolState cause (ps_all st) (ps_idle st) (ps_idleElements st) (ps_shared st) (ps_sharedClaimed st) (ps_sharedUsers st)
    (ps_sharedWaiters st) (ps_sharedCtx st) (ps_connecting st) (ps_owned st).

(** [cancel(cause)] of a context of the pool; the first cause stays. *)
Definition cancelCtx (ctxs : gmap nat poolCtx) (x : nat) (cause : goerr) : gmap nat poolCtx :=
  alter (λ c, mkPoolCtx (pc_parent c) (match pc_cause c with Some e => Some e | None => Some cause end)) x ctxs.
Definition cancelOpt (ctxs : gmap nat poolCtx) (x : option nat) (cause : goerr) : gmap nat poolCtx :=
  match x with Some x => cancelCtx ctxs x cause | None => ctxs end.

(** ** Forgetting a connection *)

Definition forgetProbeOwnedLx (st : connPoolState) (ctxs : gmap nat poolCtx) (c : conn) (cause : goerr) :
    connPoolState * gmap nat poolCtx :=
  match ps_owned st !! c with
  | None => (st, ctxs)
  | Some cancel => (set_owned st (delete c (ps_owned st)), cancelOpt ctxs cancel cause)
  end.

Definition removeConn (p : ConnPool) (g : nat) (st : connPoolState) (c : conn) (cause : goerr) : ConnPool :=
  let st := set_all st (ps_all st ∖ {[c]}) in
  let '(st, ctxs) := forgetProbeOwnedLx st (cp_ctxs p) c cause in
  let '(st, ctxs) :=
    match cp_mode p with
    | ConnPoolSingle =>
        if bool_decide (ps_shared st = Some c)
        then (set_shared st None false 0 None, cancelOpt ctxs (ps_sharedCtx st) cause)
        else (st, ctxs)
    | ConnPoolOrdered =>
        if bool_decide (c ∈ ps_idleElements st)
        then (set_idle st (filter (λ d, d ≠ c) (ps_idle st)) (ps_idleElements st ∖ {[c]}), ctxs)
        else (st, ctxs)
    end in
  with_states p (<[g := st]> (cp_states p)) ctxs.

Definition releaseProbeOwnedLx (p : ConnPool) (st : connPoolState) (c : conn) : bool :=
  match ps_owned st !! c with
  | None => false
  | Some _ =>
      negb (bool_decide (cp_mode p = ConnPoolSingle) && bool_decide (ps_shared st = Some c) && (1 <? ps_sharedUsers st))
  end.

(** The current state, when the pool is open. *)
Definition current (p : ConnPool) : option (nat * connPoolState) :=
  if cp_closed p then None
  else g ← cp_state p; st ← cp_states p !! g; Some (g, st).

(** ** Release, Invalidate, CloseIdle, Reset, Close *)

(** What a section leaves: the pool, and the connections to close. *)
Definition Pool_Release (alive : conn → bool) (p : ConnPool) (c : conn) (reuse : bool) : ConnPool * list conn :=
  match current p with
  | None => (p, [c])
  | Some (g, st) =>
      if negb (bool_decide (c ∈ ps_all st)) then (p, [c]) else
      let reuse := reuse && negb (releaseProbeOwnedLx p st c) in
      if negb reuse || negb (alive c) then (removeConn p g st c net_ErrClosed, [c]) else
      let st := if bool_decide (cp_mode p = ConnPoolSingle) && bool_decide (ps_shared st = Some c) && (0 <? ps_sharedUsers st)
                then set_shared st (ps_shared st) (ps_sharedClaimed st) (ps_sharedUsers st - 1) (ps_sharedCtx st) else st in
      let st := if bool_decide (cp_mode p = ConnPoolOrdered) && negb (bool_decide (c ∈ ps_idleElements st))
                then set_idle st (ps_idle st ++ [c]) ({[c]} ∪ ps_idleElements st) else st in
      (put_state p g st, [])
  end.

Definition Invalidate (p : ConnPool) (c : conn) (cause : goerr) : ConnPool * list conn :=
  match current p with
  | None => (p, [c])
  | Some (g, st) =>
      if negb (bool_decide (c ∈ ps_all st)) then (p, [])
      else (removeConn p g st c cause, [c])
  end.

Definition CloseIdle (p : ConnPool) : ConnPool * list conn :=
  match current p with
  | None => (p, [])
  | Some (g, st) =>
      match ps_shared st with
      | Some c =>
          if bool_decide (cp_mode p ≠ ConnPoolSingle) || (0 <? ps_sharedUsers st) || (0 <? ps_sharedWaiters st)
          then (p, []) else (removeConn p g st c net_ErrClosed, [c])
      | None => (p, [])
      end
  end.

(** The critical sections of [Reset] and [Close]: the state [closeState] gets. *)
Definition Pool_Reset (p : ConnPool) : ConnPool * option nat :=
  if cp_closed p then (p, None)
  else (with_current p false (Some (cp_next p)) (<[cp_next p := newConnPoolState]> (cp_states p)) (S (cp_next p)), cp_state p).
Definition Pool_Close (p : ConnPool) : ConnPool * option nat :=
  if cp_closed p then (p, None)
  else (with_current p true None (cp_states p) (cp_next p), cp_state p).

(** [closeState]: the context of the state ends, its connections are closed. *)
Definition closeState (p : ConnPool) (g : nat) (cause : goerr) : ConnPool * list conn :=
  match cp_states p !! g with
  | Some st =>
      (put_state p g (set_cause st (match ps_cause st with Some e => Some e | None => Some cause end)), elements (ps_all st))
  | None => (p, [])
  end.

(** ** Acquire *)

(** Where a goroutine of the pool is.  [Waiting] is the [select] of
    [acquireShared]; [WantSlot], [Dialling] and [Installing] are the stages of
    [dialAndInstall]; [FreshInstalled] is between the two sections of
    [acquireFreshLx]; the last three belong to [connectSingle]. *)
Inductive pool_pc : Type :=
| AtLoop
| Waiting (g k : nat) (startDial : bool)
| WantSlot (g : nat)
| Dialling (g : nat)
| Installing (g : nat) (c : conn)
| FreshInstalled (g : nat) (c : conn)
| Holding (c : conn) (ctx : option nat) (created : bool)
| Failed (e : goerr)
| Ended
| Connecting (g k : nat)
| ConnectEnd (g k : nat) (r : conn + goerr)
| ConnectDone (k : nat).

(** [installedLx], for a dial on a context of a connection test or another. *)
Definition installedLx (probe : bool) (st : connPoolState) (c : conn) : connPoolState :=
  if probe then set_owned st (<[c := None]> (ps_owned st)) else st.

(** A round of the loop of [acquireOrdered]. *)
Definition acquireOrdered (alive : conn → bool) (p : ConnPool) : ConnPool * list conn * pool_pc :=
  match current p with
  | None => (p, [], Failed net_ErrClosed)
  | Some (g, st) =>
      match ps_idle st with
      | idleConn :: rest =>
          let st := set_idle st rest (ps_idleElements st ∖ {[idleConn]}) in
          if alive idleConn then (put_state p g st, [], Holding idleConn None false)
          else (put_state p g (set_all st (ps_all st ∖ {[idleConn]})), [idleConn], AtLoop)
      | [] => (p, [], WantSlot g)
      end
  end.

(** The shared connection is taken. *)
Definition claimShared (p : ConnPool) (g : nat) (st : connPoolState) (c : conn) : ConnPool * list conn * pool_pc :=
  (put_state p g (set_shared st (ps_shared st) true (ps_sharedUsers st + 1) (ps_sharedCtx st)), [],
   Holding c (ps_sharedCtx st) (negb (ps_sharedClaimed st))).

(** A round of the loop of [acquireShared]; the goroutine it starts, if any. *)
Definition acquireShared (alive : conn → bool) (p : ConnPool) : ConnPool * list conn * pool_pc * option pool_pc :=
  match current p with
  | None => (p, [], Failed net_ErrClosed, None)
  | Some (g, st) =>
      match ps_shared st with
      | Some c =>
          if alive c then (claimShared p g st c, None)
          else (removeConn p g st c net_ErrClosed, [c], AtLoop, None)
      | None =>
          match ps_connecting st with
          | Some k => (put_state p g (set_waiters st (ps_sharedWaiters st + 1) (Some k)), [], Waiting g k false, None)
          | None =>
              let k := cp_next p in
              let p := with_connects p (<[k := mkConnect false None]> (cp_connects p)) (S k) in
              (put_state p g (set_waiters st (ps_sharedWaiters st + 1) (Some k)), [], Waiting g k true, Some (Connecting g k))
          end
      end
  end.

(** [current.sharedWaiters--]. *)
Definition leaveWaiting (p : ConnPool) (g : nat) : ConnPool :=
  match cp_states p !! g with
  | Some st => put_state p g (set_waiters st (ps_sharedWaiters st - 1) (ps_connecting st))
  | None => p
  end.

Definition collectShared (alive : conn → bool) (p : ConnPool) (g k : nat) (startDial : bool) : ConnPool * list conn * pool_pc :=
  let p := leaveWaiting p g in
  match cp_connects p !! k ≫= cn_err with
  | Some err => (p, [], if startDial then Failed err else AtLoop)
  | None =>
      match current p with
      | None => (p, [], Failed net_ErrClosed)
      | Some (g', st) =>
          if negb (g' =? g)%nat then (p, [], Failed net_ErrClosed) else
          match ps_shared st with
          | None => (p, [], AtLoop)
          | Some c =>
              if alive c then claimShared p g st c
              else (removeConn p g st c net_ErrClosed, [c], AtLoop)
          end
      end
  end.

(** The other cases of the [select]: the context of the caller, or of the state,
    is done. *)
Definition waitCancelled (p : ConnPool) (g : nat) (e : goerr) : ConnPool * pool_pc := (leaveWaiting p g, Failed e).
Definition waitReset (p : ConnPool) (g : nat) : ConnPool * pool_pc :=
  (leaveWaiting p g, if cp_closed p then Failed net_ErrClosed else AtLoop).

(** [dialErr]: the cause of the dial's context, [ended] the error of the caller's
    context; when both have ended either may have been first. *)
Definition dialErr (p : ConnPool) (g : nat) (ended : option goerr) (stateFirst : bool) : option goerr :=
  let state := cp_states p !! g ≫= ps_cause in
  if stateFirst then match state with Some e => Some e | None => ended end
  else match ended with Some e => Some e | None => state end.

Definition releaseSlot (p : ConnPool) : ConnPool := if hasSem p then with_sem p (cp_sem p - 1) else p.

(** [dialAndInstall] after the dial: before its critical section, and the
    section. *)
Definition dialReturned (p : ConnPool) (g : nat) (r : conn + goerr) (dialErr : option goerr) : ConnPool * list conn * pool_pc :=
  match r, dialErr with
  | inl c, None => (p, [], Installing g c)
  | inl c, Some e => (releaseSlot p, [c], Failed e)
  | inr e, None => (releaseSlot p, [], Failed e)
  | inr _, Some e => (releaseSlot p, [], Failed e)
  end.
Definition dialAndInstall (fresh probe : bool) (p : ConnPool) (g : nat) (c : conn) : ConnPool * list conn * pool_pc :=
  match current p with
  | None => (releaseSlot p, [c], Failed net_ErrClosed)
  | Some (g', st) =>
      if negb (g' =? g)%nat then (releaseSlot p, [c], Failed net_ErrClosed) else
      let st := installedLx probe (set_all st ({[c]} ∪ ps_all st)) c in
      (releaseSlot (put_state p g st), [], if fresh then FreshInstalled g c else Holding c None true)
  end.

(** The second critical section of [acquireFreshLx]: the context of the
    connection. *)
Definition acquireFreshLx (p : ConnPool) (g : nat) (c : conn) : ConnPool * pool_pc :=
  let x := cp_next p in
  match cp_states p !! g with
  | Some st =>
      match ps_owned st !! c with
      | Some _ =>
          (mkPool (cp_mode p) (cp_MaxInflight p) (cp_closed p) (cp_state p) (cp_sem p)
             (<[g := set_owned st (<[c := Some x]> (ps_owned st))]> (cp_states p)) (cp_connects p)
             (<[x := mkPoolCtx g None]> (cp_ctxs p)) (S x), Holding c (Some x) true)
      | None =>
          (mkPool (cp_mode p) (cp_MaxInflight p) (cp_closed p) (cp_state p) (cp_sem p) (cp_states p) (cp_connects p)
             (<[x := mkPoolCtx g (Some net_ErrClosed)]> (cp_ctxs p)) (S x), Holding c (Some x) true)
      end
  | None => (p, Failed net_ErrClosed)
  end.

(** [connectSingle] after the dial, and its critical section: the connection to
    close and the error of the waiters. *)
Definition connectReturned (r : conn + goerr) (dialErr : option goerr) : list conn * (conn + goerr) :=
  match r, dialErr with
  | inl c, Some e => ([c], inr e)
  | inr _, Some e => ([], inr e)
  | r, None => ([], r)
  end.
Definition connectSingle (probe : bool) (p : ConnPool) (g k : nat) (r : conn + goerr) : ConnPool * list conn :=
  match cp_states p !! g with
  | None => (p, [])
  | Some st =>
      let st := set_waiters st (ps_sharedWaiters st) None in
      let fails e := with_connects (put_state p g st) (<[k := mkConnect false (Some e)]> (cp_connects p)) (cp_next p) in
      match r with
      | inr e => (fails e, [])
      | inl c =>
          if cp_closed p then (fails net_ErrClosed, [c])
          else if negb (bool_decide (cp_state p = Some g)) then (fails net_ErrClosed, [c])
          else
            let x := cp_next p in
            let st := set_shared st (Some c) (ps_sharedClaimed st) (ps_sharedUsers st) (Some x) in
            let st := installedLx probe (set_all st ({[c]} ∪ ps_all st)) c in
            (mkPool (cp_mode p) (cp_MaxInflight p) (cp_closed p) (cp_state p) (cp_sem p) (<[g := st]> (cp_states p))
               (cp_connects p) (<[x := mkPoolCtx g None]> (cp_ctxs p)) (S x), [])
      end
  end.

(** [close(state.done)]. *)
Definition connectDone (p : ConnPool) (k : nat) : ConnPool :=
  with_connects p (alter (λ c, mkConnect true (cn_err c)) k (cp_connects p)) (cp_next p).

(** ** Runs *)

(** A goroutine: [th_ctx] is the context of its caller, [th_probe] and [th_fresh]
    tell whether that belongs to a connection test, and to a fresh one. *)
Record pool_thread : Type := mkThread { th_pc : pool_pc; th_ctx : nat; th_probe : bool; th_fresh : bool }.

(** The pool, its goroutines, the contexts of callers that have ended, the
    connections that were dialled, that are about to be closed and that were closed
    by the pool, the states on their way to [closeState], and the connections that
    were reported as created. *)
Record poolWorld : Type := mkPoolWorld {
  pw_pool : ConnPool;
  pw_threads : gmap nat pool_thread;
  pw_ended : gmap nat goerr;
  pw_dialled : gset conn;
  pw_closing : gset conn;
  pw_closed : gset conn;
  pw_retiring : gset nat;
  pw_created : list conn
}.

(** The connection a goroutine gets as a new one. *)
Definition createdBy (pc : pool_pc) : list conn := match pc with Holding c _ true => [c] | _ => [] end.

(** The pool becomes [p], and [l] is to be closed. *)
Definition setPool (w : poolWorld) (p : ConnPool) (l : list conn) : poolWorld :=
  mkPoolWorld p (pw_threads w) (pw_ended w) (pw_dialled w) (list_to_set l ∪ pw_closing w) (pw_closed w) (pw_retiring w) (pw_created w).

(** Goroutine [t], with the fields of [th], goes to [pc]. *)
Definition goTo (w : poolWorld) (t : nat) (th : pool_thread) (pc : pool_pc) : poolWorld :=
  mkPoolWorld (pw_pool w) (<[t := mkThread pc (th_ctx th) (th_probe th) (th_fresh th)]> (pw_threads w)) (pw_ended w) (pw_dialled w)
    (pw_closing w) (pw_closed w) (pw_retiring w) (createdBy pc ++ pw_created w).

Definition addDialled (w : poolWorld) (r : conn + goerr) : poolWorld :=
  match r with
  | inl c => mkPoolWorld (pw_pool w) (pw_threads w) (pw_ended w) ({[c]} ∪ pw_dialled w) (pw_closing w) (pw_closed w) (pw_retiring w) (pw_created w)
  | inr _ => w
  end.

(** A dial gives a new connection. *)
Definition newDial (w : poolWorld) (r : conn + goerr) : Prop := match r with inl c => c ∉ pw_dialled w | inr _ => True end.

(** The steps of a goroutine [th] that lead to the pool [p], close [l] and go on
    at [pc]. *)
Inductive thread_moves (w : poolWorld) (th : pool_thread) : ConnPool → list conn → pool_pc → Prop :=
| moves_ordered alive p l pc :
    th_pc th = AtLoop → th_fresh th = false → cp_mode (pw_pool w) = ConnPoolOrdered →
    acquireOrdered alive (pw_pool w) = (p, l, pc) → thread_moves w th p l pc
| moves_shared alive p l pc :
    th_pc th = AtLoop → th_fresh th = false → cp_mode (pw_pool w) = ConnPoolSingle →
    acquireShared alive (pw_pool w) = (p, l, pc, None) → thread_moves w th p l pc
| moves_fresh :
    th_pc th = AtLoop → th_fresh th = true →
    thread_moves w th (pw_pool w) [] (match current (pw_pool w) with Some (g, _) => WantSlot g | None => Failed net_ErrClosed end)
| moves_collect alive g k startDial p l pc :
    th_pc th = Waiting g k startDial → (∃ c, cp_connects (pw_pool w) !! k = Some c ∧ cn_done c = true) →
    collectShared alive (pw_pool w) g k startDial = (p, l, pc) → thread_moves w th p l pc
| moves_wait_cancelled g k startDial e p pc :
    th_pc th = Waiting g k startDial → pw_ended w !! th_ctx th = Some e → waitCancelled (pw_pool w) g e = (p, pc) →
    thread_moves w th p [] pc
| moves_wait_reset g k startDial p pc :
    th_pc th = Waiting g k startDial → (∃ st, cp_states (pw_pool w) !! g = Some st ∧ ps_cause st ≠ None) →
    waitReset (pw_pool w) g = (p, pc) → thread_moves w th p [] pc
| moves_slot g :
    th_pc th = WantSlot g → hasSem (pw_pool w) = true → cp_sem (pw_pool w) < cp_MaxInflight (pw_pool w) →
    thread_moves w th (with_sem (pw_pool w) (cp_sem (pw_pool w) + 1)) [] (Dialling g)
| moves_no_slot g :
    th_pc th = WantSlot g → hasSem (pw_pool w) = false → thread_moves w th (pw_pool w) [] (Dialling g)
| moves_slot_failed g e :
    th_pc th = WantSlot g → hasSem (pw_pool w) = true → dialErr (pw_pool w) g (pw_ended w !! th_ctx th) false = Some e →
    thread_moves w th (pw_pool w) [] (Failed e)
| moves_install g c p l pc :
    th_pc th = Installing g c → dialAndInstall (th_fresh th) (th_probe th || th_fresh th) (pw_pool w) g c = (p, l, pc) →
    thread_moves w th p l pc
| moves_fresh_ctx g c p pc :
    th_pc th = FreshInstalled g c → acquireFreshLx (pw_pool w) g c = (p, pc) → thread_moves w th p [] pc
| moves_connect g k r p l :
    th_pc th = ConnectEnd g k r → connectSingle (th_probe th) (pw_pool w) g k r = (p, l) → thread_moves w th p l (ConnectDone k)
| moves_connect_done k :
    th_pc th = ConnectDone k → thread_moves w th (connectDone (pw_pool w) k) [] Ended
| moves_release alive c ctx created reuse p l :
    th_pc th = Holding c ctx created → Pool_Release alive (pw_pool w) c reuse = (p, l) → thread_moves w th p l Ended
| moves_invalidate c ctx created cause p l :
    th_pc th = Holding c ctx created → Invalidate (pw_pool w) c cause = (p, l) → thread_moves w th p l Ended.

Inductive pool_step (w : poolWorld) : poolWorld → Prop :=
| pool_acquire t ctx probe fresh :
    pw_threads w !! t = None → pool_step w (goTo w t (mkThread AtLoop ctx probe fresh) AtLoop)
| pool_moves t th p l pc :
    pw_threads w !! t = Some th → thread_moves w th p l pc → pool_step w (goTo (setPool w p l) t th pc)
| pool_spawns alive t t' th p l pc pc' :
    pw_threads w !! t = Some th → pw_threads w !! t' = None → th_pc th = AtLoop → th_fresh th = false →
    cp_mode (pw_pool w) = ConnPoolSingle → acquireShared alive (pw_pool w) = (p, l, pc, Some pc') →
    pool_step w (goTo (goTo (setPool w p l) t th pc) t' th pc')
| pool_dials t th g r stateFirst p l pc :
    pw_threads w !! t = Some th → th_pc th = Dialling g → newDial w r →
    dialReturned (pw_pool w) g r (dialErr (pw_pool w) g (pw_ended w !! th_ctx th) stateFirst) = (p, l, pc) →
    pool_step w (goTo (setPool (addDialled w r) p l) t th pc)
| pool_connects t th g k r stateFirst l r' :
    pw_threads w !! t = Some th → th_pc th = Connecting g k → newDial w r →
    connectReturned r (dialErr (pw_pool w) g (pw_ended w !! th_ctx th) stateFirst) = (l, r') →
    pool_step w (goTo (setPool (addDialled w r) (pw_pool w) l) t th (ConnectEnd g k r'))
| pool_invalidates c cause p l :
    c ∈ pw_created w → Invalidate (pw_pool w) c cause = (p, l) → pool_step w (setPool w p l)
| pool_closes_idle p l : CloseIdle (pw_pool w) = (p, l) → pool_step w (setPool w p l)
| pool_resets p g :
    Pool_Reset (pw_pool w) = (p, g) ∨ Pool_Close (pw_pool w) = (p, g) →
    pool_step w (mkPoolWorld p (pw_threads w) (pw_ended w) (pw_dialled w) (pw_closing w) (pw_closed w)
      (match g with Some g => {[g]} | None => ∅ end ∪ pw_retiring w) (pw_created w))
| pool_retires g p l :
    g ∈ pw_retiring w → closeState (pw_pool w) g net_ErrClosed = (p, l) →
    pool_step w (mkPoolWorld p (pw_threads w) (pw_ended w) (pw_dialled w) (list_to_set l ∪ pw_closing w) (pw_closed w)
      (pw_retiring w ∖ {[g]}) (pw_created w))
| pool_closed c :
    c ∈ pw_closing w →
    pool_step w (mkPoolWorld (pw_pool w) (pw_threads w) (pw_ended w) (pw_dialled w) (pw_closing w ∖ {[c]}) ({[c]} ∪ pw_closed w)
      (pw_retiring w) (pw_created w))
| pool_ctx_ends ctx e :
    pw_ended w !! ctx = None →
    pool_step w (mkPoolWorld (pw_pool w) (pw_threads w) (<[ctx := e]> (pw_ended w)) (pw_dialled w) (pw_closing w) (pw_closed w)
      (pw_retiring w) (pw_created w)).

(** A run of a new pool. *)
Inductive pool_run (mode : ConnPoolMode) (maxInflight : Z) : poolWorld → Prop :=
| pool_start : pool_run mode maxInflight (mkPoolWorld (NewConnPool mode maxInflight) ∅ ∅ ∅ ∅ ∅ ∅ [])
| pool_run_step w w' : pool_run mode maxInflight w → pool_step w w' → pool_run mode maxInflight w'.
