(* ===== verification/ConnPoolInv.v ===== *)
(** The invariant of the DNS connection pool.

    [pool_inv] says of every reachable world what the pool knows about each
    connection: where it is tracked, who holds it, how it is counted.  Every step
    keeps it: [evolves] collects what the other goroutines need of a step. *)

From S2P Require Import Prelude GoBytes ConnPool.

(** ** Counting goroutines *)

Definition b2z (b : bool) : Z := if b then 1 else 0.

Definition countOf (P : pool_pc → bool) (m : gmap nat pool_thread) : Z :=
  map_fold (λ _ th n, b2z (P (th_pc th)) + n) 0 m.

Lemma countOf_new P m t th : m !! t = None → countOf P (<[t := th]> m) = b2z (P (th_pc th)) + countOf P m.
Proof. intros H. unfold countOf. rewrite map_fold_insert_L; [done| |done]. intros. lia. Qed.

Lemma countOf_update P m t th th' :
  m !! t = Some th → countOf P (<[t := th']> m) = countOf P m - b2z (P (th_pc th)) + b2z (P (th_pc th')).
Proof.
  intros H. rewrite <- (insert_id m t th H) at 2. rewrite <- !(insert_delete_eq m).
  rewrite !countOf_new by apply lookup_delete_eq. lia.
Qed.

Lemma countOf_nonneg P m : 0 ≤ countOf P m.
Proof.
  unfold countOf. induction m as [|t th m Hn IH] using map_ind; [done|].
  rewrite map_fold_insert_L; [|intros; lia|done]. destruct (P (th_pc th)); cbn; lia.
Qed.

Lemma countOf_zero P m t th : countOf P m = 0 → m !! t = Some th → P (th_pc th) = false.
Proof.
  intros H0 H. rewrite <- (insert_delete_id m t th H), countOf_new in H0 by apply lookup_delete_eq.
  pose proof (countOf_nonneg P (delete t m)). destruct (P (th_pc th)); cbn in H0; [lia|done].
Qed.

Lemma countOf_none P m : (∀ t th, m !! t = Some th → P (th_pc th) = false) → countOf P m = 0.
Proof.
  induction m as [|t th m Hn IH] using map_ind; intros H; [done|]. rewrite countOf_new by done.
  rewrite (H t th) by apply lookup_insert_eq. rewrite IH; [done|]. intros t' th' H'. apply (H t'). rewrite lookup_insert_ne; congruence.
Qed.

(** ** What a goroutine has *)

(** A connection that was dialled and is not known to others yet. *)
Definition claims (pc : pool_pc) : option conn :=
  match pc with
  | Installing _ c | FreshInstalled _ c | ConnectEnd _ _ (inl c) => Some c
  | _ => None
  end.

(** The same, not installed yet. *)
Definition flight (pc : pool_pc) : option conn :=
  match pc with Installing _ c | ConnectEnd _ _ (inl c) => Some c | _ => None end.

Definition holds (pc : pool_pc) : option conn := match pc with Holding c _ _ => Some c | _ => None end.

(** A connection that no other goroutine may have. *)
Definition owns (mode : ConnPoolMode) (pc : pool_pc) : option conn :=
  match claims pc, mode with Some c, _ => Some c | None, ConnPoolOrdered => holds pc | None, ConnPoolSingle => None end.

Definition touches (pc : pool_pc) : option conn := match claims pc with Some c => Some c | None => holds pc end.

(** The connect a goroutine of [connectSingle] is at work on, and its state. *)
Definition connector (pc : pool_pc) : option (nat * nat) :=
  match pc with Connecting g k | ConnectEnd g k _ => Some (g, k) | _ => None end.

Definition waitsFor (g : nat) (pc : pool_pc) : bool := match pc with Waiting g' _ _ => (g' =? g)%nat | _ => false end.
Definition hasSlot (pc : pool_pc) : bool := match pc with Dialling _ | Installing _ _ => true | _ => false end.
Definition holdsConn (c : conn) (pc : pool_pc) : bool := bool_decide (holds pc = Some c).

(** ** The invariant *)

Section inv.
Context (w : poolWorld).
Let p := pw_pool w.

(** Closed by the pool, or about to be. *)
Definition dropped (c : conn) : Prop := c ∈ pw_closing w ∨ c ∈ pw_closed w.

(** Known to some state of the pool. *)
Definition known (c : conn) : Prop := ∃ g st, cp_states p !! g = Some st ∧ c ∈ ps_all st.

(** The context [x] that came with [c] has ended, or the state it belongs to still
    tracks [c] and will end it. *)
Definition watched (c : conn) (x : nat) : Prop :=
  ∃ g cause, cp_ctxs p !! x = Some (mkPoolCtx g cause) ∧
    (cause ≠ None ∨ ∃ st, cp_states p !! g = Some st ∧ c ∈ ps_all st ∧
      (ps_shared st = Some c ∧ ps_sharedCtx st = Some x ∨ ps_owned st !! c = Some (Some x))).

Record state_ok (g : nat) (st : connPoolState) : Prop := {
  so_fresh : (g < cp_next p)%nat;
  so_connecting : ∀ k, ps_connecting st = Some k → (k < cp_next p)%nat ∧ ps_shared st = None ∧ cp_mode p = ConnPoolSingle;
  so_dialled : ∀ c, c ∈ ps_all st → c ∈ pw_dialled w;
  so_idle : NoDup (ps_idle st) ∧ ps_idleElements st = list_to_set (ps_idle st);
  so_idle_all : ∀ c, c ∈ ps_idle st → c ∈ ps_all st ∧ ps_owned st !! c = None ∧ c ∈ pw_created w;
  so_owned : ∀ c x, ps_owned st !! c = Some x → c ∈ ps_all st;
  so_shared : match ps_shared st with
    | Some c => c ∈ ps_all st ∧ ∃ x cause, ps_sharedCtx st = Some x ∧ cp_ctxs p !! x = Some (mkPoolCtx g cause)
    | None => ps_sharedUsers st = 0 ∧ ps_sharedClaimed st = false
    end;
  so_mode : match cp_mode p with ConnPoolSingle => ps_idle st = [] | ConnPoolOrdered => ps_shared st = None end;
  so_waiters : ps_sharedWaiters st = countOf (waitsFor g) (pw_threads w)
}.

Definition thread_ok (pc : pool_pc) : Prop :=
  (∀ c, claims pc = Some c → c ∈ pw_dialled w ∧ c ∉ pw_created w) ∧
  (∀ c, holds pc = Some c → c ∈ pw_created w) ∧
  (∀ c, touches pc = Some c → ∀ g st, cp_states p !! g = Some st → c ∉ ps_idle st) ∧
  (∀ g k, connector pc = Some (g, k) → ∃ st, cp_states p !! g = Some st ∧ ps_connecting st = Some k) ∧
  match pc with
  | Installing _ c | ConnectEnd _ _ (inl c) => ¬ known c ∧ ¬ dropped c
  | FreshInstalled g c => is_Some (cp_states p !! g) ∧ ∀ g st, cp_states p !! g = Some st → ps_shared st ≠ Some c
  | Holding c (Some x) _ => watched c x
  | Waiting g _ _ => is_Some (cp_states p !! g)
  | _ => True
  end.

(** Two goroutines do not meet: at a connection one of them owns, at a connect. *)
Definition apart (pc pc' : pool_pc) : Prop :=
  (∀ c, owns (cp_mode p) pc = Some c → touches pc' ≠ Some c) ∧
  (∀ g k g' k', connector pc = Some (g, k) → connector pc' = Some (g', k') → k ≠ k').

Record pool_inv : Prop := {
  pi_current : if cp_closed p then cp_state p = None
    else ∃ g st, cp_state p = Some g ∧ cp_states p !! g = Some st ∧ ps_cause st = None ∧ g ∉ pw_retiring w;
  pi_retired : ∀ g st, cp_states p !! g = Some st → cp_state p = Some g ∨ g ∈ pw_retiring w ∨ ps_cause st ≠ None;
  pi_retiring : ∀ g, g ∈ pw_retiring w → is_Some (cp_states p !! g);
  pi_states : ∀ g st, cp_states p !! g = Some st → state_ok g st;
  pi_disjoint : ∀ g st g' st' c, cp_states p !! g = Some st → cp_states p !! g' = Some st' →
    c ∈ ps_all st → c ∈ ps_all st' → g = g';
  pi_ctxs : ∀ x c, cp_ctxs p !! x = Some c → (x < cp_next p)%nat;
  pi_threads : ∀ t th, pw_threads w !! t = Some th → thread_ok (th_pc th);
  pi_apart : ∀ t t' th th', t ≠ t' → pw_threads w !! t = Some th → pw_threads w !! t' = Some th' → apart (th_pc th) (th_pc th');
  pi_tracked : ∀ g st c, current p = Some (g, st) → c ∈ ps_all st → ¬ dropped c;
  pi_users : ∀ g st c, current p = Some (g, st) → ps_shared st = Some c →
    ps_sharedUsers st = countOf (holdsConn c) (pw_threads w) ∧ (ps_sharedClaimed st = true ↔ c ∈ pw_created w);
  pi_created : NoDup (pw_created w) ∧ (∀ c, c ∈ pw_created w → c ∈ pw_dialled w);
  pi_dropped : ∀ c, dropped c → c ∈ pw_dialled w;
  pi_slots : if hasSem p then cp_sem p = countOf hasSlot (pw_threads w) ∧ cp_sem p ≤ cp_MaxInflight p else cp_sem p = 0;
  pi_leak : ∀ c, c ∈ pw_dialled w → dropped c ∨
    (∃ g st, cp_states p !! g = Some st ∧ c ∈ ps_all st ∧ (cp_state p = Some g ∨ g ∈ pw_retiring w)) ∨
    (∃ t th, pw_threads w !! t = Some th ∧ flight (th_pc th) = Some c)
}.
End inv.

(** ** A new pool *)

Lemma pool_inv_start mode n : pool_inv (mkPoolWorld (NewConnPool mode n) ∅ ∅ ∅ ∅ ∅ ∅ []).
Proof.
  split; cbn [pw_pool pw_threads pw_dialled pw_created pw_retiring NewConnPool cp_closed cp_state cp_states cp_ctxs cp_sem cp_MaxInflight].
  - exists 0%nat, newConnPoolState. rewrite lookup_singleton_eq. set_solver.
  - intros g st [<- <-]%lookup_singleton_Some. by left.
  - set_solver.
  - intros g st [<- <-]%lookup_singleton_Some. split; cbn; try done; try set_solver; try lia.
    + split; [constructor|done].
    + by destruct mode.
  - intros g st g' st' c [<- <-]%lookup_singleton_Some [<- _]%lookup_singleton_Some. done.
  - intros x c H. by rewrite lookup_empty in H.
  - intros t th H. by rewrite lookup_empty in H.
  - intros t t' th th' _ H. by rewrite lookup_empty in H.
  - cbn. intros g st c H. rewrite lookup_singleton_eq in H. cbn in H. simplify_eq. set_solver.
  - cbn. intros g st c H. rewrite lookup_singleton_eq in H. cbn in H. by simplify_eq.
  - split; [constructor|set_solver].
  - intros c []; set_solver.
  - unfold hasSem. cbn. case_match eqn:E; [|done]. apply andb_true_iff in E as [_ E]. rewrite Z.ltb_lt in E.
    split; [done|lia].
  - set_solver.
Qed.

(** ** What a step leaves to the other goroutines *)

(** [news] may become known, dropped or reported, [newi] idle, and the connects
    [newk] may be finished. *)
Record evolves (w w' : poolWorld) (news newi : conn → Prop) (newk : nat → Prop) : Prop := {
  ev_dialled : ∀ c, c ∈ pw_dialled w → c ∈ pw_dialled w';
  ev_created : ∀ c, c ∈ pw_created w → c ∈ pw_created w';
  ev_created_inv : ∀ c, c ∈ pw_created w' → c ∈ pw_created w ∨ news c;
  ev_known : ∀ c, known w' c → known w c ∨ news c;
  ev_dropped : ∀ c, dropped w' c → dropped w c ∨ known w c ∨ news c;
  ev_shared : ∀ g st' c, cp_states (pw_pool w') !! g = Some st' → ps_shared st' = Some c →
    (∃ g st, cp_states (pw_pool w) !! g = Some st ∧ ps_shared st = Some c) ∨ news c;
  ev_idle : ∀ g st' c, cp_states (pw_pool w') !! g = Some st' → c ∈ ps_idle st' →
    (∃ g st, cp_states (pw_pool w) !! g = Some st ∧ c ∈ ps_idle st) ∨ newi c;
  ev_states : ∀ g, is_Some (cp_states (pw_pool w) !! g) → is_Some (cp_states (pw_pool w') !! g);
  ev_connecting : ∀ g st k, cp_states (pw_pool w) !! g = Some st → ps_connecting st = Some k →
    (∃ st', cp_states (pw_pool w') !! g = Some st' ∧ ps_connecting st' = Some k) ∨ newk k;
  ev_watched : ∀ c x, watched w c x → watched w' c x ∨ newi c
}.

Lemma touches_claims pc c : claims pc = Some c → touches pc = Some c.
Proof. unfold touches. by intros ->. Qed.

Lemma flight_claims pc c : flight pc = Some c → claims pc = Some c.
Proof. by destruct pc. Qed.

Lemma touches_holds pc c : holds pc = Some c → touches pc = Some c.
Proof. by destruct pc. Qed.

Lemma thread_ok_evolves w w' news newi newk pc :
  evolves w w' news newi newk → thread_ok w pc →
  (∀ c, claims pc = Some c → ¬ news c) → (∀ c, touches pc = Some c → ¬ newi c) →
  (∀ g k, connector pc = Some (g, k) → ¬ newk k) → thread_ok w' pc.
Proof.
  intros E (T1 & T2 & T3 & T4 & T5) Hn Hi Hk. split_and!.
  - intros c Hc. destruct (T1 c Hc). split; [by apply E|]. intros Hcr. apply E in Hcr as [|]; [done|by eapply Hn].
  - intros c Hc. apply E. auto.
  - intros c Hc g st Hg Hin. destruct (ev_idle _ _ _ _ _ E g st c Hg Hin) as [(g' & st' & Hg' & Hin')|]; [by eapply T3|by eapply Hi].
  - intros g k Hc. destruct (T4 g k Hc) as (st & Hg & Hst).
    destruct (ev_connecting _ _ _ _ _ E g st k Hg Hst); [done|by destruct (Hk g k)].
  - destruct pc as [|g k s|g|g|g c|g c|c [x|] cr|e| |g k|g k [c|e]|k]; cbn in *; try done.
    + by apply E.
    + destruct T5 as [K D]. split; [intros [|]%E; [done|by eapply Hn]|]. intros [|[|]]%E; [done..|by eapply Hn].
    + destruct T5 as [K D]. split; [by apply E|]. intros g' st Hg Hs.
      destruct (ev_shared _ _ _ _ _ E g' st c Hg Hs) as [(g2 & st2 & ? & ?)|]; [by eapply D|by eapply Hn].
    + destruct (ev_watched _ _ _ _ _ E c x T5); [done|]. by destruct (Hi c).
    + destruct T5 as [K D]. split; [intros [|]%E; [done|by eapply Hn]|]. intros [|[|]]%E; [done..|by eapply Hn].
Qed.

(** The goroutine [t] goes to [pc]; what it may meet. *)
Lemma threads_step w w' t th pc news newi newk :
  pool_inv w → pw_threads w !! t = Some th →
  pw_threads w' = <[t := mkThread pc (th_ctx th) (th_probe th) (th_fresh th)]> (pw_threads w) →
  cp_mode (pw_pool w') = cp_mode (pw_pool w) → evolves w w' news newi newk → thread_ok w' pc →
  (∀ t' th', t' ≠ t → pw_threads w !! t' = Some th' → thread_ok w (th_pc th') → apart w (th_pc th) (th_pc th') →
     apart w (th_pc th') (th_pc th) →
     (∀ c, claims (th_pc th') = Some c → ¬ news c) ∧ (∀ c, touches (th_pc th') = Some c → ¬ newi c) ∧
     (∀ g k, connector (th_pc th') = Some (g, k) → ¬ newk k) ∧ apart w' pc (th_pc th') ∧ apart w' (th_pc th') pc) →
  (∀ t th, pw_threads w' !! t = Some th → thread_ok w' (th_pc th)) ∧
  (∀ t t' th th', t ≠ t' → pw_threads w' !! t = Some th → pw_threads w' !! t' = Some th' → apart w' (th_pc th) (th_pc th')).
Proof.
  intros I Ht Hts Hm E Hpc Ho. rewrite Hts.
  assert (Hother : ∀ t' th', t' ≠ t → pw_threads w !! t' = Some th' →
    thread_ok w' (th_pc th') ∧ apart w' pc (th_pc th') ∧ apart w' (th_pc th') pc).
  { intros t' th' Hne Ht'. pose proof (pi_threads w I t' th' Ht') as Hok.
    destruct (Ho t' th') as (H1 & H2 & H3 & H4 & H5); [done..|by eapply (pi_apart w I t t')|by eapply (pi_apart w I t' t)|].
    split; [|done]. by eapply thread_ok_evolves. }
  split.
  - intros t' th' H. apply lookup_insert_Some in H as [[<- <-]|[Hne H]]; [done|]. by apply (Hother t' th').
  - intros t1 t2 th1 th2 Hne H1 H2. apply lookup_insert_Some in H1 as [[<- <-]|[Hn1 H1]], H2 as [[<- <-]|[Hn2 H2]]; [done|..].
    + by apply (Hother t2 th2).
    + by apply (Hother t1 th1).
    + unfold apart. rewrite Hm. by apply (pi_apart w I t1 t2).
Qed.

(** No goroutine moves. *)
Lemma threads_stay w w' news newi newk :
  pool_inv w → pw_threads w' = pw_threads w → cp_mode (pw_pool w') = cp_mode (pw_pool w) → evolves w w' news newi newk →
  (∀ t th, pw_threads w !! t = Some th → thread_ok w (th_pc th) →
     (∀ c, claims (th_pc th) = Some c → ¬ news c) ∧ (∀ c, touches (th_pc th) = Some c → ¬ newi c) ∧
     (∀ g k, connector (th_pc th) = Some (g, k) → ¬ newk k)) →
  (∀ t th, pw_threads w' !! t = Some th → thread_ok w' (th_pc th)) ∧
  (∀ t t' th th', t ≠ t' → pw_threads w' !! t = Some th → pw_threads w' !! t' = Some th' → apart w' (th_pc th) (th_pc th')).
Proof.
  intros I Hts Hm E Ho. rewrite Hts. split.
  - intros t th H. pose proof (pi_threads w I t th H) as Hok. destruct (Ho t th H Hok) as (H1 & H2 & H3).
    by eapply thread_ok_evolves.
  - intros t t' th th' Hne H H'. unfold apart. rewrite Hm. by apply (pi_apart w I t t').
Qed.

(** ** Steps that replace one state, and steps that replace none *)

Lemma current_lookup p g st :
  current p = Some (g, st) → cp_closed p = false ∧ cp_state p = Some g ∧ cp_states p !! g = Some st.
Proof.
  unfold current. destruct (cp_closed p); [done|]. destruct (cp_state p) as [g0|]; [|done]. cbn.
  destruct (cp_states p !! g0) eqn:E; cbn; intros; by simplify_eq.
Qed.

Definition threads_inv (w : poolWorld) : Prop :=
  (∀ t th, pw_threads w !! t = Some th → thread_ok w (th_pc th)) ∧
  (∀ t t' th th', t ≠ t' → pw_threads w !! t = Some th → pw_threads w !! t' = Some th' → apart w (th_pc th) (th_pc th')).

Definition slots_ok (w : poolWorld) : Prop :=
  if hasSem (pw_pool w) then cp_sem (pw_pool w) = countOf hasSlot (pw_threads w) ∧ cp_sem (pw_pool w) ≤ cp_MaxInflight (pw_pool w)
  else cp_sem (pw_pool w) = 0.

Definition created_ok (w : poolWorld) : Prop :=
  NoDup (pw_created w) ∧ (∀ c, c ∈ pw_created w → c ∈ pw_dialled w) ∧ (∀ c, dropped w c → c ∈ pw_dialled w).

(** What every step keeps of the frame of the pool. *)
Record framed (w w' : poolWorld) : Prop := {
  fr_mode : cp_mode (pw_pool w') = cp_mode (pw_pool w);
  fr_closed : cp_closed (pw_pool w') = cp_closed (pw_pool w);
  fr_state : cp_state (pw_pool w') = cp_state (pw_pool w);
  fr_next : (cp_next (pw_pool w) ≤ cp_next (pw_pool w'))%nat;
  fr_ctxs : ∀ x c, cp_ctxs (pw_pool w') !! x = Some c → is_Some (cp_ctxs (pw_pool w) !! x) ∨ (x < cp_next (pw_pool w'))%nat;
  fr_keep : ∀ x g cause, cp_ctxs (pw_pool w) !! x = Some (mkPoolCtx g cause) → ∃ cause', cp_ctxs (pw_pool w') !! x = Some (mkPoolCtx g cause');
  fr_retiring : pw_retiring w' = pw_retiring w;
  fr_dialled : ∀ c, c ∈ pw_dialled w → c ∈ pw_dialled w';
  fr_created : ∀ c, c ∈ pw_created w → c ∈ pw_created w';
  fr_dropped : ∀ c, dropped w c → dropped w' c
}.

(** Where a dialled connection may be after the step. *)
Definition placed (w' : poolWorld) (c : conn) : Prop :=
  dropped w' c ∨
  (∃ g st, cp_states (pw_pool w') !! g = Some st ∧ c ∈ ps_all st ∧ (cp_state (pw_pool w') = Some g ∨ g ∈ pw_retiring w')) ∨
  (∃ t th, pw_threads w' !! t = Some th ∧ flight (th_pc th) = Some c).

Lemma framed_ctxs w w' x c : pool_inv w → framed w w' → cp_ctxs (pw_pool w') !! x = Some c → (x < cp_next (pw_pool w'))%nat.
Proof.
  intros I F Hx. destruct (fr_ctxs _ _ F x c Hx) as [[c' Hc]|]; [|done].
  pose proof (pi_ctxs w I x c' Hc). pose proof (fr_next _ _ F). lia.
Qed.

(** A state of another number stays as it should be. *)
Lemma state_ok_framed w w' g st :
  framed w w' → countOf (waitsFor g) (pw_threads w') = countOf (waitsFor g) (pw_threads w) → state_ok w g st → state_ok w' g st.
Proof.
  intros F Hc [S1 S2 S3 S4 S5 S6 S7 S8 S9]. pose proof (fr_next _ _ F). split; try done.
  - lia.
  - intros k Hk. destruct (S2 k Hk) as (? & ? & ?). rewrite (fr_mode _ _ F). split; [lia|done].
  - intros c Hin. by apply (fr_dialled _ _ F), S3.
  - intros c Hin. destruct (S5 c Hin) as (? & ? & ?). split_and!; [done..|]. by apply (fr_created _ _ F).
  - destruct (ps_shared st); [|done]. destruct S7 as (? & x & cause & Hx & Hcx). split; [done|].
    destruct (fr_keep _ _ F x g cause Hcx) as [cause' ?]. by exists x, cause'.
  - by rewrite (fr_mode _ _ F).
  - by rewrite Hc.
Qed.

Lemma inv_quiet w w' :
  pool_inv w → framed w w' → cp_states (pw_pool w') = cp_states (pw_pool w) → threads_inv w' →
  (∀ g, countOf (waitsFor g) (pw_threads w') = countOf (waitsFor g) (pw_threads w)) →
  (∀ g st c, current (pw_pool w) = Some (g, st) → c ∈ ps_all st → dropped w' c → dropped w c) →
  (∀ g st c, current (pw_pool w) = Some (g, st) → ps_shared st = Some c →
     countOf (holdsConn c) (pw_threads w') = countOf (holdsConn c) (pw_threads w) ∧ (c ∈ pw_created w' ↔ c ∈ pw_created w)) →
  created_ok w' → slots_ok w' → (∀ c, c ∈ pw_dialled w' → placed w' c) → pool_inv w'.
Proof.
  intros I F Hs [T1 T2] Hw Hd Hu (C1 & C2 & C3) Hsl Hl.
  assert (Hcur : current (pw_pool w') = current (pw_pool w)).
  { unfold current. by rewrite (fr_closed _ _ F), (fr_state _ _ F), Hs. }
  pose proof (pi_current w I) as P1. split; try done.
  - by rewrite (fr_closed _ _ F), (fr_state _ _ F), (fr_retiring _ _ F), Hs.
  - rewrite (fr_state _ _ F), (fr_retiring _ _ F), Hs. apply I.
  - rewrite (fr_retiring _ _ F), Hs. apply I.
  - rewrite Hs. intros g st Hg. apply (state_ok_framed w w' g st F (Hw g)). by apply I.
  - rewrite Hs. apply I.
  - intros x c Hx. by eapply framed_ctxs.
  - intros g st c Hc Hin Hdr. rewrite Hcur in Hc. eapply (pi_tracked w I); [done..|]. by eapply Hd.
  - intros g st c Hc Hsh. rewrite Hcur in Hc. destruct (Hu g st c Hc Hsh) as [-> Hcr].
    destruct (pi_users w I g st c Hc Hsh) as [-> H]. split; [done|]. by rewrite Hcr.
Qed.

Record updates (w w' : poolWorld) (g : nat) (st st' : connPoolState) : Prop := {
  up_old : cp_states (pw_pool w) !! g = Some st;
  up_states : cp_states (pw_pool w') = <[g := st']> (cp_states (pw_pool w));
  up_cause : ps_cause st' = ps_cause st;
  up_all : ∀ c, c ∈ ps_all st' → c ∈ ps_all st ∨ ¬ known w c
}.

Lemma updates_current w w' g st st' g1 st1 :
  framed w w' → updates w w' g st st' → current (pw_pool w') = Some (g1, st1) →
  (g1 = g ∧ st1 = st' ∧ current (pw_pool w) = Some (g, st)) ∨ (g1 ≠ g ∧ current (pw_pool w) = Some (g1, st1)).
Proof.
  intros F U. unfold current. rewrite (fr_closed _ _ F), (fr_state _ _ F), (up_states _ _ _ _ _ U).
  destruct (cp_closed (pw_pool w)); [done|]. destruct (cp_state (pw_pool w)) as [g0|]; [|done]. cbn. intros H.
  destruct (decide (g0 = g)) as [->|Hne].
  - rewrite lookup_insert_eq in H. cbn in H. simplify_eq. left. by rewrite (up_old _ _ _ _ _ U).
  - rewrite lookup_insert_ne in H by done. destruct (cp_states (pw_pool w) !! g0); cbn in H; simplify_eq. by right.
Qed.

Lemma inv_update w w' g st st' :
  pool_inv w → framed w w' → updates w w' g st st' → threads_inv w' → state_ok w' g st' →
  (∀ g1, g1 ≠ g → countOf (waitsFor g1) (pw_threads w') = countOf (waitsFor g1) (pw_threads w)) →
  (∀ c, dropped w' c → dropped w c ∨ c ∈ ps_all st ∨ ¬ known w c) →
  (∀ c, current (pw_pool w) = Some (g, st) → c ∈ ps_all st' → ¬ dropped w' c) →
  (∀ c, current (pw_pool w) = Some (g, st) → ps_shared st' = Some c →
     ps_sharedUsers st' = countOf (holdsConn c) (pw_threads w') ∧ (ps_sharedClaimed st' = true ↔ c ∈ pw_created w')) →
  (∀ g1 st1 c, g1 ≠ g → current (pw_pool w) = Some (g1, st1) → ps_shared st1 = Some c →
     countOf (holdsConn c) (pw_threads w') = countOf (holdsConn c) (pw_threads w) ∧ (c ∈ pw_created w' ↔ c ∈ pw_created w)) →
  created_ok w' → slots_ok w' → (∀ c, c ∈ pw_dialled w' → placed w' c) → pool_inv w'.
Proof.
  intros I F U [T1 T2] Hst Hw Hd Htr Hu Hu' (C1 & C2 & C3) Hsl Hl. pose proof U as [Hold Hs Hca Hall].
  pose proof (pi_current w I) as P1. split; try done.
  - rewrite (fr_closed _ _ F), (fr_state _ _ F), (fr_retiring _ _ F), Hs. case_match; [done|].
    destruct P1 as (g0 & st0 & H1 & H2 & H3 & H4). destruct (decide (g0 = g)) as [->|Hne].
    + exists g, st'. rewrite lookup_insert_eq. split_and!; [done..| |done]. rewrite Hca. by simplify_eq.
    + exists g0, st0. by rewrite lookup_insert_ne.
  - rewrite (fr_state _ _ F), (fr_retiring _ _ F), Hs. intros g0 st0 [[<- <-]|[Hne H]]%lookup_insert_Some; [|by apply I].
    rewrite Hca. by apply (pi_retired w I).
  - rewrite (fr_retiring _ _ F), Hs. intros g0 Hg0. apply (pi_retiring w I) in Hg0. by rewrite lookup_insert_is_Some'; right.
  - rewrite Hs. intros g0 st0 [[<- <-]|[Hne H]]%lookup_insert_Some; [done|].
    eapply state_ok_framed; [done|by apply Hw|by apply (pi_states w I)].
  - rewrite Hs. intros g1 st1 g2 st2 c [[<- <-]|[Hn1 H1]]%lookup_insert_Some [[<- <-]|[Hn2 H2]]%lookup_insert_Some A1 A2; [done|..].
    + apply Hall in A1 as [A1|A1]; [by eapply (pi_disjoint w I)|]. destruct A1. by exists g2, st2.
    + apply Hall in A2 as [A2|A2]; [by eapply (pi_disjoint w I)|]. destruct A2. by exists g1, st1.
    + by eapply (pi_disjoint w I).
  - intros x c Hx. by eapply framed_ctxs.
  - intros g1 st1 c Hc Hin Hdr. destruct (updates_current _ _ _ _ _ _ _ F U Hc) as [(-> & -> & Hc')|[Hne Hc']].
    + by eapply Htr.
    + assert (H1 : cp_states (pw_pool w) !! g1 = Some st1).
      { by apply current_lookup in Hc' as (_ & _ & ?). }
      destruct (Hd c Hdr) as [?|[?|Hk]]; [by eapply (pi_tracked w I)| |].
      * apply Hne. symmetry. by eapply (pi_disjoint w I g st g1 st1).
      * apply Hk. by exists g1, st1.
  - intros g1 st1 c Hc Hsh. destruct (updates_current _ _ _ _ _ _ _ F U Hc) as [(-> & -> & Hc')|[Hne Hc']].
    + by apply Hu.
    + destruct (Hu' g1 st1 c Hne Hc' Hsh) as [-> Hcr]. destruct (pi_users w I g1 st1 c Hc' Hsh) as [-> H].
      split; [done|]. by rewrite Hcr.
Qed.
