(* ===== verification/ConnPoolSteps.v ===== *)
(** Every step of the DNS connection pool keeps its invariant. *)

From S2P Require Import Prelude GoBytes ConnPool ConnPoolInv.

(** ** Forgetting a connection *)

(** The contexts that end with a connection. *)
Definition endsWith (st : connPoolState) (c : conn) (x : nat) : Prop :=
  ps_shared st = Some c ∧ ps_sharedCtx st = Some x ∨ ps_owned st !! c = Some (Some x).

(** Contexts may end; those with [P] do. *)
Definition ctxs_ended (ctxs ctxs' : gmap nat poolCtx) (P : nat → Prop) : Prop :=
  (∀ x, is_Some (ctxs' !! x) → is_Some (ctxs !! x)) ∧
  ∀ x g cause, ctxs !! x = Some (mkPoolCtx g cause) →
    ∃ cause', ctxs' !! x = Some (mkPoolCtx g cause') ∧ (cause ≠ None → cause' ≠ None) ∧ (P x → cause' ≠ None).

Lemma ctxs_ended_none ctxs : ctxs_ended ctxs ctxs (λ _, False).
Proof. split; [done|]. intros x g cause H. exists cause. by split_and!. Qed.

Lemma ctxs_ended_cancel ctxs ctxs' P x0 cause0 :
  ctxs_ended ctxs ctxs' P → ctxs_ended ctxs (cancelOpt ctxs' x0 cause0) (λ x, P x ∨ x0 = Some x).
Proof.
  intros [H1 H2]. destruct x0 as [x0|]; cbn.
  - split.
    + intros x [c Hx]. apply H1. destruct (decide (x = x0)) as [->|].
      * unfold cancelCtx in Hx. rewrite lookup_alter_eq in Hx. by destruct (ctxs' !! x0).
      * unfold cancelCtx in Hx. rewrite lookup_alter_ne in Hx by done. by eexists.
    + intros x g cause Hx. destruct (H2 x g cause Hx) as (cause' & Hx' & Hc & HP). unfold cancelCtx.
      destruct (decide (x = x0)) as [->|Hne].
      * rewrite lookup_alter_eq, Hx'. cbn. eexists. split; [done|]. split; [destruct cause'; auto|]. by destruct cause'.
      * rewrite lookup_alter_ne by done. exists cause'. split_and!; [done..|]. intros [?|?]; [auto|congruence].
  - split; [done|]. intros x g cause Hx. destruct (H2 x g cause Hx) as (cause' & Hx' & Hc & HP).
    exists cause'. split_and!; [done..|]. intros [?|?]; [auto|done].
Qed.

Lemma ctxs_ended_weaken ctxs ctxs' P Q : (∀ x, Q x → P x) → ctxs_ended ctxs ctxs' P → ctxs_ended ctxs ctxs' Q.
Proof.
  intros HQ [H1 H2]. split; [done|]. intros x g cause Hx. destruct (H2 x g cause Hx) as (cause' & ? & ? & ?).
  exists cause'. split_and!; auto.
Qed.

Record removed (mode : ConnPoolMode) (st : connPoolState) (c : conn) (st' : connPoolState) : Prop := {
  rm_cause : ps_cause st' = ps_cause st;
  rm_all : ps_all st' = ps_all st ∖ {[c]};
  rm_idle : ps_idle st' = filter (λ d, d ≠ c) (ps_idle st);
  rm_elements : ps_idleElements st' = ps_idleElements st ∖ {[c]};
  rm_shared : ps_shared st' = if bool_decide (ps_shared st = Some c) then None else ps_shared st;
  rm_users : ps_sharedUsers st' = (if bool_decide (ps_shared st = Some c) then 0 else ps_sharedUsers st) ∧
    ps_sharedClaimed st' = (if bool_decide (ps_shared st = Some c) then false else ps_sharedClaimed st) ∧
    ps_sharedCtx st' = (if bool_decide (ps_shared st = Some c) then None else ps_sharedCtx st);
  rm_waiters : ps_sharedWaiters st' = ps_sharedWaiters st ∧ ps_connecting st' = ps_connecting st;
  rm_owned : ps_owned st' = delete c (ps_owned st)
}.

Lemma filter_ne_id {A} `{EqDecision A} (l : list A) (c : A) : c ∉ l → filter (λ d, d ≠ c) l = l.
Proof.
  induction l as [|d l IH]; intros H; [done|]. apply not_elem_of_cons in H as [H1 H2].
  rewrite filter_cons_True by auto. by rewrite IH.
Qed.

Lemma removeConn_spec w g st c cause :
  state_ok w g st →
  ∃ st' ctxs', removeConn (pw_pool w) g st c cause = with_states (pw_pool w) (<[g := st']> (cp_states (pw_pool w))) ctxs' ∧
    removed (cp_mode (pw_pool w)) st c st' ∧ ctxs_ended (cp_ctxs (pw_pool w)) ctxs' (endsWith st c).
Proof.
  intros [_ _ _ [Hnd Hel] _ _ _ Hmode _]. unfold removeConn, forgetProbeOwnedLx.
  cbn [ps_owned set_all]. pose proof (ctxs_ended_none (cp_ctxs (pw_pool w))) as E0.
  pose proof (ctxs_ended_cancel _ _ _ (default None (ps_owned st !! c)) cause E0) as E1.
  set (own := match ps_owned st !! c with Some cancel => cancelOpt (cp_ctxs (pw_pool w)) cancel cause | None => cp_ctxs (pw_pool w) end).
  assert (Hown : ctxs_ended (cp_ctxs (pw_pool w)) own (λ x, ps_owned st !! c = Some (Some x))).
  { subst own. destruct (ps_owned st !! c) as [x|]; cbn in E1.
    - eapply ctxs_ended_weaken, E1. intros y ?. right. congruence.
    - eapply ctxs_ended_weaken, E0. done. }
  set (st1 := set_owned (set_all st (ps_all st ∖ {[c]})) (delete c (ps_owned st))).
  assert (Hst1 : (match ps_owned st !! c with
      | Some cancel => (st1, cancelOpt (cp_ctxs (pw_pool w)) cancel cause)
      | None => (set_all st (ps_all st ∖ {[c]}), cp_ctxs (pw_pool w)) end) = (st1, own)).
  { subst own st1. destruct (ps_owned st !! c) eqn:E; [done|]. f_equal. unfold set_owned, set_all. cbn. by rewrite delete_id. }
  rewrite Hst1. assert (Hidle : c ∉ ps_idleElements st → filter (λ d, d ≠ c) (ps_idle st) = ps_idle st).
  { intros H. apply filter_ne_id. rewrite Hel in H. by rewrite elem_of_list_to_set in H. }
  destruct (cp_mode (pw_pool w)).
  - rewrite Hmode in *. cbn [ps_shared st1 set_owned set_all]. destruct (bool_decide (ps_shared st = Some c)) eqn:Es.
    + eexists _, _. split; [reflexivity|]. apply bool_decide_eq_true in Es. split.
      * split; cbn; rewrite ?Hmode, ?bool_decide_eq_true_2 by done; try done. rewrite Hel. set_solver.
      * eapply ctxs_ended_weaken, ctxs_ended_cancel, Hown. intros x [[_ ?]|?]; [by right|by left].
    + eexists _, _. split; [reflexivity|]. split.
      * split; cbn; rewrite ?Hmode, ?Es; try done. rewrite Hel. set_solver.
      * apply bool_decide_eq_false in Es. eapply ctxs_ended_weaken, Hown. by intros x [[? _]|?].
  - cbn [ps_idleElements st1 set_owned set_all].
    assert (Hctx : ctxs_ended (cp_ctxs (pw_pool w)) own (endsWith st c)).
    { eapply ctxs_ended_weaken, Hown. intros x [[? _]|?]; [congruence|done]. }
    case_bool_decide as Ei; eexists _, _; (split; [reflexivity|]); (split; [|exact Hctx]); split; cbn;
      rewrite ?(bool_decide_eq_false_2 (ps_shared st = Some c)) by congruence; try done; [by rewrite Hidle|set_solver].
Qed.

(** ** Replacing a state *)

Lemma evolves_update w w' g st st' news newi newk :
  framed w w' → updates w w' g st st' →
  (∀ c, c ∈ pw_created w → c ∈ pw_created w') → (∀ c, c ∈ pw_created w' → c ∈ pw_created w ∨ news c) →
  (∀ c, c ∈ ps_all st' → c ∈ ps_all st ∨ news c) →
  (∀ c, dropped w' c → dropped w c ∨ known w c ∨ news c) →
  (∀ c, ps_shared st' = Some c → ps_shared st = Some c ∨ news c) →
  (∀ c, c ∈ ps_idle st' → c ∈ ps_idle st ∨ newi c) →
  (∀ k, ps_connecting st = Some k → ps_connecting st' = Some k ∨ newk k) →
  (∀ x g0 cause, cp_ctxs (pw_pool w) !! x = Some (mkPoolCtx g0 cause) →
     ∃ cause', cp_ctxs (pw_pool w') !! x = Some (mkPoolCtx g0 cause') ∧ (cause ≠ None → cause' ≠ None) ∧
       ∀ c, c ∈ ps_all st → endsWith st c x → (c ∈ ps_all st' ∧ endsWith st' c x) ∨ cause' ≠ None ∨ newi c) →
  evolves w w' news newi newk.
Proof.
  intros F [Hold Hs _ _] Hc Hc' Ha Hd Hsh Hi Hk Hx. split; try done.
  - apply F.
  - intros c (g1 & st1 & H1 & Hin). rewrite Hs in H1. apply lookup_insert_Some in H1 as [[<- <-]|[Hne H1]].
    + apply Ha in Hin as [?|?]; [left; by exists g, st|by right].
    + left. by exists g1, st1.
  - intros g1 st1 c H1 Hin. rewrite Hs in H1. apply lookup_insert_Some in H1 as [[<- <-]|[Hne H1]]; [|left; by exists g1, st1].
    apply Hsh in Hin as [?|?]; [left; by exists g, st|by right].
  - intros g1 st1 c H1 Hin. rewrite Hs in H1. apply lookup_insert_Some in H1 as [[<- <-]|[Hne H1]]; [|left; by exists g1, st1].
    apply Hi in Hin as [?|?]; [left; by exists g, st|by right].
  - intros g1 Hg1. rewrite Hs, lookup_insert_is_Some'. by right.
  - intros g1 st1 k H1 Hc1. rewrite Hs. destruct (decide (g1 = g)) as [->|Hne].
    + rewrite lookup_insert_eq. simplify_eq. apply Hk in Hc1 as [?|?]; [left; by exists st'|by right].
    + left. exists st1. by rewrite lookup_insert_ne.
  - intros c x (g0 & cause & H1 & H2). destruct (Hx x g0 cause H1) as (cause' & H1' & Hca & Hend).
    destruct H2 as [H2|(st0 & H0 & Hin & He)]; [left; exists g0, cause'; by auto|].
    destruct (decide (g0 = g)) as [->|Hne].
    + simplify_eq. destruct (Hend c Hin He) as [[? ?]|[?|?]]; [| |by right]; left; exists g, cause'; (split; [done|]); [|by left].
      right. exists st'. by rewrite Hs, lookup_insert_eq.
    + left. exists g0, cause'. split; [done|]. right. exists st0. by rewrite Hs, lookup_insert_ne.
Qed.

(** A dialled connection stays somewhere. *)
Lemma placed_update w w' g st st' c :
  pool_inv w → framed w w' → updates w w' g st st' → c ∈ pw_dialled w →
  (c ∈ ps_all st → c ∈ ps_all st' ∨ dropped w' c) →
  (∀ t th, pw_threads w !! t = Some th → flight (th_pc th) = Some c → placed w' c) → placed w' c.
Proof.
  intros I F [Hold Hs _ _] Hc Ha Ht. destruct (pi_leak w I c Hc) as [?|[(g1 & st1 & H1 & H2 & H3)|(t & th & H1 & H2)]].
  - left. by apply F.
  - rewrite <- (fr_state _ _ F), <- (fr_retiring _ _ F) in H3. destruct (decide (g1 = g)) as [->|Hn].
    + simplify_eq. destruct (Ha H2); [|by left]. right; left. exists g, st'. by rewrite Hs, lookup_insert_eq.
    + right; left. exists g1, st1. by rewrite Hs, lookup_insert_ne.
  - by eapply Ht.
Qed.

Lemma removed_ok w w' g st c st' :
  framed w w' → pw_threads w' = pw_threads w → removed (cp_mode (pw_pool w)) st c st' → state_ok w g st → state_ok w' g st'.
Proof.
  intros F Ht R S. apply (state_ok_framed w w' g st F) in S; [|by rewrite Ht].
  destruct S as [S1 S2 S3 [S4 S4'] S5 S6 S7 S8 S9]. split.
  - done.
  - rewrite (proj2 (rm_waiters _ _ _ _ R)). intros k Hk. destruct (S2 k Hk) as (? & Hns & ?). split_and!; [done| |done].
    rewrite (rm_shared _ _ _ _ R). by case_bool_decide.
  - rewrite (rm_all _ _ _ _ R). set_solver.
  - rewrite (rm_idle _ _ _ _ R), (rm_elements _ _ _ _ R). split; [by apply NoDup_filter|]. rewrite S4'.
    apply set_eq. intros d. rewrite elem_of_difference, !elem_of_list_to_set, list_elem_of_filter. set_solver.
  - rewrite (rm_idle _ _ _ _ R), (rm_all _ _ _ _ R), (rm_owned _ _ _ _ R). intros d [Hne Hd]%list_elem_of_filter.
    destruct (S5 d Hd) as (? & ? & ?). split_and!; [set_solver| |done]. by rewrite lookup_delete_ne.
  - rewrite (rm_all _ _ _ _ R), (rm_owned _ _ _ _ R). intros d x [Hne Hd]%lookup_delete_Some. pose proof (S6 d x Hd). set_solver.
  - rewrite (rm_shared _ _ _ _ R), (rm_all _ _ _ _ R). destruct (rm_users _ _ _ _ R) as (-> & -> & _).
    case_bool_decide as Es; [done|]. destruct (rm_users _ _ _ _ R) as (_ & _ & Hsc).
    rewrite Hsc, bool_decide_eq_false_2 by done. destruct (ps_shared st); [|done]. destruct S7. split; [set_solver|done].
  - rewrite (rm_shared _ _ _ _ R), (rm_idle _ _ _ _ R).
    destruct (cp_mode (pw_pool w')); [by rewrite S8|]. rewrite S8. by case_bool_decide.
  - by rewrite (proj1 (rm_waiters _ _ _ _ R)).
Qed.

Lemma removed_evolves w w' g st c st' :
  framed w w' → updates w w' g st st' → pw_created w' = pw_created w → removed (cp_mode (pw_pool w)) st c st' → c ∈ ps_all st →
  (∀ d, dropped w' d ↔ d = c ∨ dropped w d) →
  ctxs_ended (cp_ctxs (pw_pool w)) (cp_ctxs (pw_pool w')) (endsWith st c) →
  evolves w w' (λ _, False) (λ _, False) (λ _, False).
Proof.
  intros F U Hcr R Hin Hdrop X. apply (evolves_update w w' g st st'); try done.
  - by rewrite Hcr.
  - rewrite Hcr. by left.
  - intros d. rewrite (rm_all _ _ _ _ R). set_solver.
  - intros d [->|?]%Hdrop; [right; left; exists g, st; split; [apply U|done]|by left].
  - intros d. rewrite (rm_shared _ _ _ _ R). case_bool_decide; [done|by left].
  - intros d. rewrite (rm_idle _ _ _ _ R), list_elem_of_filter. left. tauto.
  - intros k. rewrite (proj2 (rm_waiters _ _ _ _ R)). by left.
  - intros x g0 ca Hx. destruct (proj2 X x g0 ca Hx) as (ca' & Hx' & H1 & H2). exists ca'. split_and!; [done..|].
    intros d Hd He. destruct (decide (d = c)) as [->|Hne]; [by right; left; apply H2|]. left.
    rewrite (rm_all _ _ _ _ R). split; [set_solver|]. destruct He as [[He He']|He].
    + left. rewrite (rm_shared _ _ _ _ R). destruct (rm_users _ _ _ _ R) as (_ & _ & ->).
      rewrite bool_decide_eq_false_2 by congruence. done.
    + right. rewrite (rm_owned _ _ _ _ R). by rewrite lookup_delete_ne.
Qed.

(** A connection of the current state is forgotten and closed. *)
Lemma inv_remove w g st c cause :
  pool_inv w → current (pw_pool w) = Some (g, st) → c ∈ ps_all st →
  pool_inv (setPool w (removeConn (pw_pool w) g st c cause) [c]).
Proof.
  intros I Hcur Hin. pose proof (current_lookup _ _ _ Hcur) as (Hcl & Hstate & Hg). pose proof (pi_states w I g st Hg) as Hst.
  destruct (removeConn_spec w g st c cause Hst) as (st' & ctxs' & -> & R & X). set (w' := setPool w _ [c]).
  assert (Hdrop : ∀ d, dropped w' d ↔ d = c ∨ dropped w d) by (unfold dropped; subst w'; cbn; set_solver).
  assert (F : framed w w').
  { split; subst w'; cbn; try done.
    - intros x ctx Hx. left. apply X. by eexists.
    - intros x g0 ca Hx. destruct (proj2 X x g0 ca Hx) as (ca' & ? & _). by exists ca'.
    - intros d Hd. apply Hdrop. by right. }
  assert (U : updates w w' g st st').
  { split; [done..|apply R|]. intros d. rewrite (rm_all _ _ _ _ R). set_solver. }
  assert (E : evolves w w' (λ _, False) (λ _, False) (λ _, False)) by (by eapply removed_evolves).
  assert (T : threads_inv w') by (eapply threads_stay; [done..|]; cbn; naive_solver).
  apply (inv_update w w' g st st'); try done.
  - by eapply removed_ok.
  - intros d [->|?]%Hdrop; [right; by left|by left].
  - intros d _. rewrite (rm_all _ _ _ _ R). intros Hd [->|Hdr]%Hdrop; [set_solver|].
    eapply (pi_tracked w I g st d); [done|set_solver|done].
  - intros d _. rewrite (rm_shared _ _ _ _ R). destruct (rm_users _ _ _ _ R) as (-> & -> & _).
    case_bool_decide; [done|]. intros Hs. by apply (pi_users w I g st d).
  - destruct (pi_created w I). split_and!; [done..|]. intros d [->|?]%Hdrop; [by apply (so_dialled _ _ _ Hst)|by apply (pi_dropped w I)].
  - by apply (pi_slots w I).
  - intros d Hd. apply (placed_update w w' g st st'); try done.
    + rewrite (rm_all _ _ _ _ R), Hdrop. intros ?. destruct (decide (d = c)); [by right; left|left; set_solver].
    + intros t th Ht Hc. right; right. by exists t, th.
Qed.

(** ** Moves that leave the states alone *)

(** [pc'] has nothing that [pc] has not. *)
Definition less (mode : ConnPoolMode) (pc' pc : pool_pc) : Prop :=
  (owns mode pc' = None ∨ owns mode pc' = owns mode pc) ∧ (touches pc' = None ∨ touches pc' = touches pc) ∧
  (connector pc' = None ∨ connector pc' = connector pc).

Lemma less_apart w pc pc' q : less (cp_mode (pw_pool w)) pc' pc → apart w pc q → apart w pc' q.
Proof.
  intros (L1 & L2 & L3) [A1 A2]. split.
  - intros c Hc. destruct L1 as [L|L]; rewrite L in Hc; [done|by apply A1].
  - intros g k g' k' Hc. destruct L3 as [L|L]; rewrite L in Hc; [done|by eapply A2].
Qed.

Lemma less_apart_r w pc pc' q : less (cp_mode (pw_pool w)) pc' pc → apart w q pc → apart w q pc'.
Proof.
  intros (L1 & L2 & L3) [A1 A2]. split.
  - intros c Hc. destruct L2 as [L|L]; rewrite L; [done|by apply A1].
  - intros g k g' k' Hc Hc'. destruct L3 as [L|L]; rewrite L in Hc'; [done|by eapply A2].
Qed.

Lemma evolves_quiet w w' news :
  cp_states (pw_pool w') = cp_states (pw_pool w) → cp_ctxs (pw_pool w') = cp_ctxs (pw_pool w) →
  (∀ c, c ∈ pw_dialled w → c ∈ pw_dialled w') → (∀ c, c ∈ pw_created w → c ∈ pw_created w') →
  (∀ c, c ∈ pw_created w' → c ∈ pw_created w ∨ news c) → (∀ c, dropped w' c → dropped w c ∨ known w c ∨ news c) →
  evolves w w' news (λ _, False) (λ _, False).
Proof.
  intros Hs Hx Hd Hc Hc' Hdr. split; try done; rewrite ?Hs.
  - intros c H. left. unfold known in *. by rewrite Hs in H.
  - intros g st c H1 H2. left. by exists g, st.
  - intros g st c H1 H2. left. by exists g, st.
  - done.
  - intros g st k H1 H2. left. by exists st.
  - intros c x H. left. unfold watched in *. by rewrite Hs, Hx.
Qed.

(** The goroutine [t] gives up what it has, or keeps it. *)
Lemma inv_go w w' t th pc news :
  pool_inv w → pw_threads w !! t = Some th →
  pw_threads w' = <[t := mkThread pc (th_ctx th) (th_probe th) (th_fresh th)]> (pw_threads w) →
  framed w w' → cp_states (pw_pool w') = cp_states (pw_pool w) → cp_ctxs (pw_pool w') = cp_ctxs (pw_pool w) →
  pw_created w' = pw_created w → (∀ c, dropped w' c → dropped w c ∨ news c) →
  (∀ g, waitsFor g pc = waitsFor g (th_pc th)) →
  (∀ g st c, current (pw_pool w) = Some (g, st) → c ∈ ps_all st → ¬ news c) →
  (∀ g st c, current (pw_pool w) = Some (g, st) → ps_shared st = Some c → holdsConn c pc = holdsConn c (th_pc th)) →
  (∀ c, news c → c ∈ pw_dialled w' ∧ owns (cp_mode (pw_pool w)) (th_pc th) = Some c ∨ c ∈ pw_dialled w' ∧ c ∈ pw_created w) →
  thread_ok w' pc → less (cp_mode (pw_pool w)) pc (th_pc th) → slots_ok w' → (∀ c, c ∈ pw_dialled w' → placed w' c) →
  pool_inv w'.
Proof.
  intros I Ht Hts F Hs Hx Hcr Hdr Hw Hn Hh Hnews Hpc Hless Hsl Hl.
  assert (Hother : ∀ t' th', t' ≠ t → pw_threads w !! t' = Some th' → ∀ c, claims (th_pc th') = Some c → ¬ news c).
  { intros t' th' Hne Ht' c Hc Hnc. destruct (Hnews c Hnc) as [[_ Ho]|[_ Ho]].
    - eapply (proj1 (pi_apart w I t t' th th' (not_eq_sym Hne) Ht Ht')); [done|by apply touches_claims].
    - by apply (proj1 (pi_threads w I t' th' Ht') c Hc). }
  assert (E : evolves w w' news (λ _, False) (λ _, False)).
  { apply evolves_quiet; try done; [apply F|by rewrite Hcr|rewrite Hcr; by left|]. intros c [?|?]%Hdr; tauto. }
  apply (inv_quiet w w'); try done.
  - eapply threads_step; [done..|apply F|done|done|]. intros t' th' Hne Ht' _ A1 A2. split_and!; [by eapply Hother|naive_solver..| |].
    + apply (less_apart w' (th_pc th)); unfold apart in *; by rewrite ?(fr_mode _ _ F).
    + apply (less_apart_r w' (th_pc th)); unfold apart in *; by rewrite ?(fr_mode _ _ F).
  - intros g. rewrite Hts, (countOf_update _ _ _ th) by done. cbn. rewrite Hw. lia.
  - intros g st c Hc Hin [?|Hnc]%Hdr; [done|]. by destruct (Hn g st c Hc Hin).
  - intros g st c Hc Hsh. rewrite Hcr. split; [|done]. rewrite Hts, (countOf_update _ _ _ th) by done. cbn. rewrite (Hh g st c) by done. lia.
  - destruct (pi_created w I) as [C1 C2]. unfold created_ok. rewrite Hcr. split_and!; [done|intros c ?; by apply F, C2|].
    intros c [?|Hnc]%Hdr; [by apply F, (pi_dropped w I)|]. destruct (Hnews c Hnc) as [[? _]|[? _]]; done.
Qed.

Lemma placed_go w w' t th pc c :
  pool_inv w → pw_threads w !! t = Some th →
  pw_threads w' = <[t := mkThread pc (th_ctx th) (th_probe th) (th_fresh th)]> (pw_threads w) →
  framed w w' → cp_states (pw_pool w') = cp_states (pw_pool w) → c ∈ pw_dialled w →
  (flight (th_pc th) = Some c → flight pc = Some c ∨ dropped w' c) → placed w' c.
Proof.
  intros I Ht Hts F Hs Hc Hcl. destruct (pi_leak w I c Hc) as [?|[(g1 & st1 & H1 & H2 & H3)|(t' & th' & H1 & H2)]].
  - left. by apply F.
  - right; left. exists g1, st1. by rewrite Hs, (fr_state _ _ F), (fr_retiring _ _ F).
  - destruct (decide (t' = t)) as [->|Hne].
    + simplify_eq. destruct (Hcl H2); [|by left]. right; right. rewrite Hts. eexists t, _. by rewrite lookup_insert_eq.
    + right; right. exists t', th'. by rewrite Hts, lookup_insert_ne.
Qed.

Lemma slots_go w w' t th pc :
  pool_inv w → pw_threads w !! t = Some th →
  pw_threads w' = <[t := mkThread pc (th_ctx th) (th_probe th) (th_fresh th)]> (pw_threads w) →
  cp_mode (pw_pool w') = cp_mode (pw_pool w) → cp_MaxInflight (pw_pool w') = cp_MaxInflight (pw_pool w) →
  cp_sem (pw_pool w') = (if hasSem (pw_pool w) then cp_sem (pw_pool w) - b2z (hasSlot (th_pc th)) + b2z (hasSlot pc) else cp_sem (pw_pool w)) →
  (hasSem (pw_pool w) = true → cp_sem (pw_pool w') ≤ cp_MaxInflight (pw_pool w)) → slots_ok w'.
Proof.
  intros I Ht Hts Hm Hx Hsem Hle. pose proof (pi_slots w I) as S. unfold slots_ok, hasSem in *. rewrite Hm, Hx.
  case_match eqn:E; [|by rewrite Hsem].
  destruct S as [S1 S2]. rewrite Hts, (countOf_update _ _ _ th), <- S1 by done. cbn. split; [lia|by apply Hle].
Qed.

(** A pool with the same states and contexts. *)
Definition same_states (p p' : ConnPool) : Prop :=
  cp_mode p' = cp_mode p ∧ cp_MaxInflight p' = cp_MaxInflight p ∧ cp_closed p' = cp_closed p ∧ cp_state p' = cp_state p ∧
  cp_next p' = cp_next p ∧ cp_ctxs p' = cp_ctxs p ∧ cp_states p' = cp_states p.

Lemma same_states_refl p : same_states p p.
Proof. done. Qed.

Lemma same_states_framed w w' :
  same_states (pw_pool w) (pw_pool w') → pw_retiring w' = pw_retiring w → (∀ c, c ∈ pw_dialled w → c ∈ pw_dialled w') →
  (∀ c, c ∈ pw_created w → c ∈ pw_created w') → (∀ c, dropped w c → dropped w' c) → framed w w'.
Proof.
  intros (P1 & P2 & P3 & P4 & P5 & P6 & P7) Hr Hd Hcr Hdr. split; try done; [by rewrite P5|rewrite P6..].
  - intros x c Hx. left. by eexists.
  - intros x g cause Hx. by exists cause.
Qed.

(** A position where nothing is held, waited for or begun. *)
Definition plain (pc : pool_pc) : Prop :=
  touches pc = None ∧ (∀ g, waitsFor g pc = false) ∧ match pc with FreshInstalled _ _ | Waiting _ _ _ => False | _ => True end.

Lemma plain_none pc : plain pc → claims pc = None ∧ holds pc = None ∧ createdBy pc = [].
Proof. intros (H & _ & _). unfold touches in H. destruct pc as [| | | | | |? ? ?| | | |? ? [|]|]; done. Qed.

Lemma thread_ok_plain w w' pc pc' :
  plain pc' → connector pc' = None ∨ connector pc' = connector pc → cp_states (pw_pool w') = cp_states (pw_pool w) →
  thread_ok w pc → thread_ok w' pc'.
Proof.
  intros Hp Hco Hs (_ & _ & _ & T4 & _). destruct (plain_none pc' Hp) as (Hc & Hh & _). destruct Hp as (Ht & _ & Hpc).
  unfold thread_ok. rewrite Hc, Hh, Ht, Hs. split_and!; [done..| |].
  - intros g k Hk. destruct Hco as [Hco|Hco]; rewrite Hco in Hk; [done|]. by apply T4.
  - destruct pc' as [| | | | | |? ? ?| | | |? ? [|]|]; done.
Qed.

Lemma less_plain mode pc pc' : plain pc' → connector pc' = None ∨ connector pc' = connector pc → less mode pc' pc.
Proof.
  intros Hp Hco. destruct (plain_none pc' Hp) as (Hc & Hh & _). destruct Hp as (Ht & _ & _).
  unfold less, owns. rewrite Hc, Hh, Ht. split_and!; [left; by destruct mode|by left|done].
Qed.

(** A goroutine without connections moves; the pool keeps its states. *)
Lemma inv_plain w t th p pc :
  pool_inv w → pw_threads w !! t = Some th → same_states (pw_pool w) p → plain (th_pc th) → plain pc →
  connector pc = None ∨ connector pc = connector (th_pc th) → slots_ok (goTo (setPool w p []) t th pc) →
  pool_inv (goTo (setPool w p []) t th pc).
Proof.
  intros I Ht Hp Hold Hpc Hco Hsl. set (w' := goTo _ _ _ _) in *.
  destruct (plain_none _ Hpc) as (Hc & Hh & Hcr), (plain_none _ Hold) as (Hc0 & Hh0 & _).
  assert (Hdrop : ∀ c, dropped w' c ↔ dropped w c) by (unfold dropped; subst w'; cbn; set_solver).
  assert (F : framed w w').
  { apply same_states_framed; try done; [|intros c ?; by apply Hdrop]. subst w'. cbn [goTo pw_created setPool]. by rewrite Hcr. }
  destruct Hp as (P1 & P2 & P3 & P4 & P5 & P6 & P7).
  apply (inv_go w w' t th pc (λ _, False)); try done.
  - subst w'. cbn [goTo pw_created setPool]. by rewrite Hcr.
  - intros c ?. left. by apply Hdrop.
  - intros g. by rewrite (proj1 (proj2 Hpc)), (proj1 (proj2 Hold)).
  - by intros g st c _ _ [].
  - intros g st c _ _. unfold holdsConn. by rewrite Hh, Hh0.
  - apply (thread_ok_plain w w' (th_pc th)); try done. by apply (pi_threads w I t).
  - by apply less_plain.
  - intros c Hc'. apply (placed_go w _ t th pc); try done. intros Hf%flight_claims. congruence.
Qed.

(** The slots when no goroutine gains or loses one. *)
Lemma slots_keep w w' t th pc :
  pool_inv w → pw_threads w !! t = Some th →
  pw_threads w' = <[t := mkThread pc (th_ctx th) (th_probe th) (th_fresh th)]> (pw_threads w) →
  cp_mode (pw_pool w') = cp_mode (pw_pool w) → cp_MaxInflight (pw_pool w') = cp_MaxInflight (pw_pool w) →
  cp_sem (pw_pool w') = cp_sem (pw_pool w) → hasSlot pc = hasSlot (th_pc th) → slots_ok w'.
Proof.
  intros I Ht Hts Hm Hx Hs Hsl. apply (slots_go w w' t th pc); try done.
  - rewrite Hs, Hsl. destruct (hasSem (pw_pool w)); lia.
  - intros Hsem. pose proof (pi_slots w I) as S. rewrite Hsem, <- Hs in S. apply S.
Qed.

(** The slots when a goroutine gives up its slot. *)
Lemma slots_release w w' t th pc p :
  pool_inv w → pw_threads w !! t = Some th →
  pw_threads w' = <[t := mkThread pc (th_ctx th) (th_probe th) (th_fresh th)]> (pw_threads w) →
  pw_pool w' = releaseSlot p → cp_mode p = cp_mode (pw_pool w) → cp_MaxInflight p = cp_MaxInflight (pw_pool w) →
  cp_sem p = cp_sem (pw_pool w) → hasSlot pc = false → hasSlot (th_pc th) = true → slots_ok w'.
Proof.
  intros I Ht Hts Hp Hm Hx Hs H0 H1. pose proof (pi_slots w I) as S.
  assert (Hsem : hasSem p = hasSem (pw_pool w)) by (unfold hasSem; by rewrite Hm, Hx).
  unfold releaseSlot in Hp. rewrite Hsem in Hp.
  apply (slots_go w w' t th pc); try done; rewrite Hp; destruct (hasSem (pw_pool w)) eqn:E; cbn; try done;
    rewrite ?H0, ?H1, ?Hs; cbn; lia.
Qed.

Lemma releaseSlot_states p p' : same_states p p' → same_states p (releaseSlot p').
Proof. unfold releaseSlot. by destruct (hasSem p'). Qed.

(** ** Dialling *)

Lemma not_dialled w c : pool_inv w → c ∉ pw_dialled w → ¬ known w c ∧ ¬ dropped w c ∧ c ∉ pw_created w.
Proof.
  intros I Hn. split_and!.
  - intros (g & st & Hg & Hin). apply Hn. by apply (so_dialled _ _ _ (pi_states w I g st Hg)).
  - intros H. by apply Hn, (pi_dropped w I).
  - intros H. by apply Hn, (proj2 (pi_created w I)).
Qed.

Lemma touches_dialled w t th c : pool_inv w → pw_threads w !! t = Some th → touches (th_pc th) = Some c → c ∈ pw_dialled w.
Proof.
  intros I Ht H. destruct (pi_threads w I t th Ht) as (T1 & T2 & _). unfold touches in H. destruct (claims (th_pc th)) eqn:E.
  - simplify_eq. by apply T1.
  - by apply (proj2 (pi_created w I)), T2.
Qed.

Lemma owns_claims mode pc c : claims pc = Some c → owns mode pc = Some c.
Proof. unfold owns. by intros ->. Qed.

(** The position after a dial that gave [c]. *)
Definition dialledAt (pc pc' : pool_pc) (c : conn) : Prop :=
  (∃ g, pc = Dialling g ∧ pc' = Installing g c) ∨ (∃ g k, pc = Connecting g k ∧ pc' = ConnectEnd g k (inl c)).

Lemma inv_dial w t th pc c :
  pool_inv w → pw_threads w !! t = Some th → dialledAt (th_pc th) pc c → c ∉ pw_dialled w →
  pool_inv (goTo (setPool (addDialled w (inl c)) (pw_pool w) []) t th pc).
Proof.
  intros I Ht Hpc Hn. destruct (not_dialled w c I Hn) as (Nk & Nd & Nc). set (w' := goTo _ _ _ _).
  assert (Hf : claims pc = Some c ∧ touches pc = Some c ∧ connector pc = connector (th_pc th) ∧ touches (th_pc th) = None ∧
    (∀ g, waitsFor g pc = waitsFor g (th_pc th)) ∧ hasSlot pc = hasSlot (th_pc th) ∧
    (∀ d, holdsConn d pc = holdsConn d (th_pc th)) ∧ createdBy pc = [])
    by (destruct Hpc as [(g & -> & ->)|(g & k & -> & ->)]; by split_and!).
  destruct Hf as (Hc & Hto & Hco & Hto0 & Hw & Hsl & Hh & Hcr).
  assert (Hcr' : pw_created w' = pw_created w) by (subst w'; cbn [goTo pw_created setPool addDialled]; by rewrite Hcr).
  assert (Hdrop : ∀ d, dropped w' d ↔ dropped w d) by (unfold dropped; subst w'; cbn; clear; set_solver).
  assert (F : framed w w').
  { apply same_states_framed; try done; [|by rewrite Hcr'|intros d ?; by apply Hdrop]. subst w'. cbn. clear. set_solver. }
  assert (E : evolves w w' (λ _, False) (λ _, False) (λ _, False)).
  { apply evolves_quiet; try done; [apply F|by rewrite Hcr'|rewrite Hcr'; by left|]. intros d ?. left. by apply Hdrop. }
  assert (Hin : c ∈ pw_dialled w') by (subst w'; cbn; clear; set_solver).
  pose proof (pi_threads w I t th Ht) as Hok.
  apply (inv_quiet w w'); try done.
  - eapply threads_step; [done..| |].
    + destruct Hok as (_ & _ & _ & T4 & _). split_and!.
      * intros d Hd. rewrite Hc in Hd. simplify_eq. by rewrite Hcr'.
      * intros d Hd. by destruct Hpc as [(g & _ & ->)|(g & k & _ & ->)].
      * intros d Hd g st Hg Hi. rewrite Hto in Hd. simplify_eq. apply Nk. exists g, st. split; [done|].
        by apply (so_idle_all _ _ _ (pi_states w I g st Hg)).
      * rewrite Hco. apply T4.
      * destruct Hpc as [(g & _ & ->)|(g & k & _ & ->)]; (split; [exact Nk|]); intros ?%Hdrop; done.
    + intros t' th' Hne Ht' _ A1 A2. split_and!; [naive_solver..| |].
      * split; [|intros g k; rewrite Hco; apply A1]. intros d Hd Hd'. rewrite (owns_claims _ _ _ Hc) in Hd. simplify_eq.
        by apply Hn, (touches_dialled w t' th').
      * split; [|intros g k g' k'; rewrite Hco; apply A2]. intros d Hd Hd'. rewrite Hto in Hd'. simplify_eq.
        apply Hn, (touches_dialled w t' th'); [done..|]. revert Hd. unfold owns, touches. case_match; [done|].
        by destruct (cp_mode (pw_pool w')).
  - intros g. subst w'. cbn [goTo pw_threads setPool addDialled]. rewrite (countOf_update _ _ _ th) by done. cbn. rewrite Hw. lia.
  - intros g st d _ _. by rewrite Hdrop.
  - intros g st d _ _. rewrite Hcr'. split; [|done]. subst w'. cbn [goTo pw_threads setPool addDialled].
    rewrite (countOf_update _ _ _ th) by done. cbn [th_pc]. rewrite Hh. lia.
  - destruct (pi_created w I) as [C1 C2]. unfold created_ok. rewrite Hcr'.
    split_and!; [done|intros d ?; by apply F, C2|]. intros d ?%Hdrop. by apply F, (pi_dropped w I).
  - by apply (slots_keep w _ t th pc).
  - intros d Hd. subst w'. cbn in Hd. apply elem_of_union in Hd as [->%elem_of_singleton|Hd].
    + right; right. eexists t, _. cbn. rewrite lookup_insert_eq. split; [done|].
      by destruct Hpc as [(g & _ & ->)|(g & k & _ & ->)].
    + apply (placed_go w _ t th pc); try done. intros Hd'%flight_claims%touches_claims. congruence.
Qed.

(** A connection that was dialled and is not wanted is closed. *)
Lemma inv_drop_claim w t th p pc c :
  pool_inv w → pw_threads w !! t = Some th → same_states (pw_pool w) p → claims (th_pc th) = Some c →
  (∀ g, th_pc th ≠ FreshInstalled g c) → plain pc → connector pc = None ∨ connector pc = connector (th_pc th) →
  slots_ok (goTo (setPool w p [c]) t th pc) → pool_inv (goTo (setPool w p [c]) t th pc).
Proof.
  intros I Ht Hp Hold Hnf Hpc Hco Hsl. set (w' := goTo _ _ _ _) in *.
  destruct (plain_none _ Hpc) as (Hc & Hh & Hcr). pose proof (pi_threads w I t th Ht) as Hok.
  assert (Hnk : ¬ known w c ∧ c ∈ pw_dialled w).
  { destruct Hok as (T1 & _ & _ & _ & T5). split; [|by apply T1].
    destruct (th_pc th) as [| | | | | | | | | |? ? [|]|]; try done; cbn in Hold; simplify_eq; [apply T5|by edestruct Hnf|apply T5]. }
  assert (Hdrop : ∀ d, dropped w' d ↔ d = c ∨ dropped w d) by (unfold dropped; subst w'; cbn; clear; set_solver).
  assert (F : framed w w').
  { apply same_states_framed; try done; [|intros d ?; apply Hdrop; by right]. subst w'. cbn [goTo pw_created setPool]. by rewrite Hcr. }
  destruct Hp as (P1 & P2 & P3 & P4 & P5 & P6 & P7).
  apply (inv_go w w' t th pc (eq c)); try done.
  - subst w'. cbn [goTo pw_created setPool]. by rewrite Hcr.
  - intros d [->|?]%Hdrop; [by right|by left].
  - intros g. rewrite (proj1 (proj2 Hpc)). by destruct (th_pc th).
  - intros g st d Hcur Hin <-. apply (proj1 Hnk). exists g, st. by apply current_lookup in Hcur as (_ & _ & ?).
  - intros g st d _ _. unfold holdsConn. rewrite Hh. by destruct (th_pc th).
  - intros d <-. left. split; [apply Hnk|by apply owns_claims].
  - by apply (thread_ok_plain w w' (th_pc th)).
  - by apply less_plain.
  - intros d Hd. apply (placed_go w _ t th pc); try done. intros Hd'%flight_claims. right. apply Hdrop. left. congruence.
Qed.

(** A goroutine lets go of a connection that is not the shared one any more;
    [l] tells whether it is closed. *)
Lemma inv_end_hold w t th c x cr l :
  pool_inv w → pw_threads w !! t = Some th → th_pc th = Holding c x cr → l = [] ∨ l = [c] →
  (∀ g st, current (pw_pool w) = Some (g, st) → ps_shared st ≠ Some c) →
  (l = [c] → ∀ g st, current (pw_pool w) = Some (g, st) → c ∉ ps_all st) →
  pool_inv (goTo (setPool w (pw_pool w) l) t th Ended).
Proof.
  intros I Ht Hold Hl Hsh Hall. set (w' := goTo _ _ _ _) in *. pose proof (pi_threads w I t th Ht) as Hok.
  assert (Hcr : c ∈ pw_created w) by (apply Hok; by rewrite Hold).
  assert (Hdrop : ∀ d, dropped w' d ↔ (d = c ∧ l = [c]) ∨ dropped w d).
  { intros d. unfold dropped. subst w'. cbn. destruct Hl as [->| ->]; cbn; clear; set_solver. }
  assert (F : framed w w') by (apply same_states_framed; [done..|]; intros d ?; apply Hdrop; by right).
  apply (inv_go w w' t th Ended (λ d, d = c ∧ l = [c])); try done; rewrite ?Hold; try done.
  - intros d [?|?]%Hdrop; [by right|by left].
  - intros g st d Hcur Hin [-> Hlc]. by eapply Hall.
  - intros g st d Hcur Hs. unfold holdsConn. cbn [holds]. rewrite !bool_decide_eq_false_2; [done| |done].
    intros [= <-]. by eapply Hsh.
  - intros d [-> _]. right. split; [by apply (proj2 (pi_created w I))|done].
  - unfold less. split_and!; [left; by destruct (cp_mode (pw_pool w))|by left..].
  - apply (slots_keep w _ t th Ended); try done. by rewrite Hold.
  - intros d Hd. apply (placed_go w _ t th Ended); try done. by rewrite Hold.
Qed.

(** ** Moves that replace a state *)

(** The goroutine [t] goes to [pc] and the state [g] becomes [st']; nothing is
    closed. *)
Record moves_with (w w' : poolWorld) (t : nat) (th : pool_thread) (pc : pool_pc) (g : nat) (st st' : connPoolState) : Prop := {
  mw_threads : pw_threads w' = <[t := mkThread pc (th_ctx th) (th_probe th) (th_fresh th)]> (pw_threads w);
  mw_framed : framed w w';
  mw_updates : updates w w' g st st';
  mw_created : pw_created w' = createdBy pc ++ pw_created w;
  mw_dialled : pw_dialled w' = pw_dialled w;
  mw_dropped : ∀ c, dropped w' c ↔ dropped w c;
  mw_ctxs : ∀ x c, cp_ctxs (pw_pool w) !! x = Some c → cp_ctxs (pw_pool w') !! x = Some c
}.

Lemma inv_move w w' t th pc g st st' news newi newk :
  pool_inv w → pw_threads w !! t = Some th → moves_with w w' t th pc g st st' →
  (∀ c, c ∈ ps_all st → c ∈ ps_all st') → (∀ c, c ∈ ps_all st' → c ∈ ps_all st ∨ news c ∧ ¬ dropped w c) →
  (∀ c, ps_shared st' = Some c → ps_shared st = Some c ∨ news c) → (∀ c, c ∈ ps_idle st' → c ∈ ps_idle st ∨ newi c) →
  (∀ k, ps_connecting st = Some k → ps_connecting st' = Some k ∨ newk k) →
  (∀ c x, c ∈ ps_all st → endsWith st c x → endsWith st' c x ∨ newi c) →
  (∀ c, c ∈ createdBy pc → news c ∧ c ∉ pw_created w ∧ c ∈ pw_dialled w) →
  thread_ok w' pc → state_ok w' g st' → (∀ g1, g1 ≠ g → waitsFor g1 pc = waitsFor g1 (th_pc th)) →
  (∀ t' th', t' ≠ t → pw_threads w !! t' = Some th' → thread_ok w (th_pc th') → apart w (th_pc th) (th_pc th') →
     apart w (th_pc th') (th_pc th) →
     (∀ c, claims (th_pc th') = Some c → ¬ news c) ∧ (∀ c, touches (th_pc th') = Some c → ¬ newi c) ∧
     (∀ g k, connector (th_pc th') = Some (g, k) → ¬ newk k) ∧ apart w' pc (th_pc th') ∧ apart w' (th_pc th') pc) →
  (∀ c, current (pw_pool w) = Some (g, st) → ps_shared st' = Some c →
     ps_sharedUsers st' = countOf (holdsConn c) (pw_threads w) - b2z (holdsConn c (th_pc th)) + b2z (holdsConn c pc) ∧
     (ps_sharedClaimed st' = true ↔ c ∈ createdBy pc ∨ c ∈ pw_created w)) →
  (∀ g1 st1 c, g1 ≠ g → current (pw_pool w) = Some (g1, st1) → ps_shared st1 = Some c →
     holdsConn c pc = holdsConn c (th_pc th) ∧ c ∉ createdBy pc) →
  slots_ok w' → (∀ c, flight (th_pc th) = Some c → flight pc = Some c ∨ c ∈ ps_all st' ∧ cp_state (pw_pool w) = Some g) →
  pool_inv w'.
Proof.
  intros I Ht M Ha Ha' Hsh Hi Hk Hx Hcr Hpc Hst Hw Ho Hu Hu' Hsl Hcl. destruct M as [M1 F U M4 M5 M6 M7].
  assert (Hcr' : ∀ c, c ∈ pw_created w' ↔ c ∈ createdBy pc ∨ c ∈ pw_created w) by (intros c; by rewrite M4, elem_of_app).
  assert (E : evolves w w' news newi newk).
  { apply (evolves_update w w' g st st'); try done.
    - intros c ?. apply Hcr'. by right.
    - intros c [?|?]%Hcr'; [right; by apply Hcr|by left].
    - intros c Hc. destruct (Ha' c Hc); tauto.
    - intros c ?%M6. by left.
    - intros x g0 cause Hc. exists cause. split_and!; [by apply M7|done|]. intros c Hin He.
      destruct (Hx c x Hin He); [left|]; auto. }
  apply (inv_update w w' g st st'); try done.
  - apply (threads_step w w' t th pc news newi newk); try done. apply F.
  - intros g1 Hg1. rewrite M1, (countOf_update _ _ _ th) by done. cbn. rewrite Hw by done. lia.
  - intros c ?%M6. by left.
  - intros c Hcur Hin Hdr%M6. destruct (Ha' c Hin) as [?|[_ ?]]; [|done]. by eapply (pi_tracked w I g st).
  - intros c Hcur Hs. destruct (Hu c Hcur Hs) as [-> Hc]. rewrite M1, (countOf_update _ _ _ th) by done. split; [done|].
    by rewrite Hcr'.
  - intros g1 st1 c Hne Hcur Hs. destruct (Hu' g1 st1 c Hne Hcur Hs) as [Hh Hc]. rewrite M1, (countOf_update _ _ _ th) by done. cbn.
    rewrite Hh. split; [lia|]. rewrite Hcr'. tauto.
  - destruct (pi_created w I) as [C1 C2]. split_and!.
    + rewrite M4. apply NoDup_app. split_and!; [destruct pc as [| | | | | |? ? []| | | | |]; cbn; repeat constructor; set_solver| |done].
      intros c Hc. by apply Hcr.
    + rewrite M5. intros c [?|?]%Hcr'; [by apply Hcr|by apply C2].
    + rewrite M5. intros c ?%M6. by apply (pi_dropped w I).
  - rewrite M5. intros c Hc. apply (placed_update w w' g st st'); try done; [intros ?; left; by apply Ha|].
    intros t' th' Ht' Hc'. destruct (decide (t' = t)) as [->|Hne].
    + simplify_eq. destruct (Hcl c Hc') as [?|[? ?]].
      * right; right. eexists t, _. by rewrite M1, lookup_insert_eq.
      * right; left. exists g, st'. by rewrite (up_states _ _ _ _ _ U), lookup_insert_eq, (fr_state _ _ F); auto.
    + right; right. exists t', th'. by rewrite M1, lookup_insert_ne.
Qed.
