(* ===== verification/ConnPoolMoves.v ===== *)
(** The moves of goroutines of the DNS connection pool that change a state: waiting
    for the shared connection, taking and giving it back, idle connections,
    installing a connection, its context, the end of a connect. *)

From S2P Require Import Prelude GoBytes ConnPool ConnPoolInv ConnPoolSteps.

Lemma less_both w w' pc pc' q :
  framed w w' → less (cp_mode (pw_pool w)) pc' pc → apart w pc q → apart w q pc → apart w' pc' q ∧ apart w' q pc'.
Proof.
  intros F L A1 A2. pose proof (fr_mode _ _ F) as Hm. unfold apart in A1, A2. rewrite <- Hm in *. split.
  - by apply (less_apart w' pc).
  - by apply (less_apart_r w' pc).
Qed.

(** The pool [p'] is the pool of [w] with another state [g]. *)
Definition pool_put (w : poolWorld) (p' : ConnPool) (g : nat) (st' : connPoolState) : Prop :=
  cp_mode p' = cp_mode (pw_pool w) ∧ cp_closed p' = cp_closed (pw_pool w) ∧ cp_state p' = cp_state (pw_pool w) ∧
  (cp_next (pw_pool w) ≤ cp_next p')%nat ∧ cp_states p' = <[g := st']> (cp_states (pw_pool w)) ∧
  (∀ x c, cp_ctxs (pw_pool w) !! x = Some c → cp_ctxs p' !! x = Some c) ∧
  (∀ x c, cp_ctxs p' !! x = Some c → is_Some (cp_ctxs (pw_pool w) !! x) ∨ (x < cp_next p')%nat).

Lemma pool_put_state w g st' : pool_put w (put_state (pw_pool w) g st') g st'.
Proof. split_and!; try done. intros x c Hx. left. by eexists. Qed.

Lemma moves_put w t th pc p' g st st' :
  cp_states (pw_pool w) !! g = Some st → pool_put w p' g st' → ps_cause st' = ps_cause st →
  (∀ c, c ∈ ps_all st' → c ∈ ps_all st ∨ ¬ known w c) →
  moves_with w (goTo (setPool w p' []) t th pc) t th pc g st st'.
Proof.
  intros Hg (P1 & P2 & P3 & P4 & P5 & P6 & P7) Hca Hall. set (w' := goTo _ _ _ _).
  assert (Hdrop : ∀ d, dropped w' d ↔ dropped w d) by (unfold dropped; subst w'; cbn; clear; set_solver).
  split; try done.
  split; try done.
  - intros x g0 cause Hx. exists cause. by apply P6.
  - intros c Hc. subst w'. cbn [goTo pw_created setPool]. apply elem_of_app. by right.
  - intros c ?. by apply Hdrop.
Qed.

Lemma thread_ok_idle w pc : plain pc → connector pc = None → thread_ok w pc.
Proof.
  intros Hp Hco. destruct (plain_none pc Hp) as (Hc & Hh & _). destruct Hp as (Ht & _ & Hpc).
  unfold thread_ok. rewrite Hc, Hh, Ht, Hco. split_and!; [done..|]. by destruct pc as [| | | | | |? ? ?| | | |? ? [|]|].
Qed.

(** ** Waiting *)

Lemma state_ok_waiters w w' g st n k :
  framed w w' → n = countOf (waitsFor g) (pw_threads w') →
  (∀ k0, k = Some k0 → (k0 < cp_next (pw_pool w'))%nat ∧ ps_shared st = None ∧ cp_mode (pw_pool w) = ConnPoolSingle) →
  state_ok w g st → state_ok w' g (set_waiters st n k).
Proof.
  intros F Hn Hk [S1 S2 S3 S4 S5 S6 S7 S8 S9]. pose proof (fr_next _ _ F). split; cbn; try done.
  - lia.
  - by rewrite (fr_mode _ _ F).
  - intros c Hin. by apply (fr_dialled _ _ F), S3.
  - intros c Hin. destruct (S5 c Hin) as (? & ? & ?). split_and!; [done..|]. by apply (fr_created _ _ F).
  - destruct (ps_shared st); [|done]. destruct S7 as (? & x & cause & Hx & Hcx). split; [done|].
    destruct (fr_keep _ _ F x g cause Hcx) as [cause' ?]. by exists x, cause'.
  - by rewrite (fr_mode _ _ F).
Qed.

Lemma so_connecting_mono w w' g st : framed w w' → state_ok w g st →
  ∀ k, ps_connecting st = Some k → (k < cp_next (pw_pool w'))%nat ∧ ps_shared st = None ∧ cp_mode (pw_pool w) = ConnPoolSingle.
Proof. intros F S k Hk. destruct (so_connecting _ _ _ S k Hk) as (? & ? & ?). pose proof (fr_next _ _ F). split_and!; [lia|done..]. Qed.

Lemma holdsConn_true c pc : holds pc = Some c → holdsConn c pc = true.
Proof. apply bool_decide_eq_true_2. Qed.
Lemma holdsConn_false c pc : holds pc ≠ Some c → holdsConn c pc = false.
Proof. apply bool_decide_eq_false_2. Qed.

(** A goroutine that holds nothing keeps the countOf of users. *)
Lemma users_same w g st c pc pc' :
  pool_inv w → current (pw_pool w) = Some (g, st) → ps_shared st = Some c → holds pc = None → holds pc' = None → createdBy pc' = [] →
  ps_sharedUsers st = countOf (holdsConn c) (pw_threads w) - b2z (holdsConn c pc) + b2z (holdsConn c pc') ∧
  (ps_sharedClaimed st = true ↔ c ∈ createdBy pc' ∨ c ∈ pw_created w).
Proof.
  intros I Hcur Hs Hh Hh' Hcr. destruct (pi_users w I g st c Hcur Hs) as [Hu Hcl].
  rewrite !(holdsConn_false c) by congruence. rewrite Hcr. cbn.
  split; [lia|]. rewrite Hcl, elem_of_nil. tauto.
Qed.

(** A goroutine stops to wait. *)
Lemma inv_leave w t th pc g k s :
  pool_inv w → pw_threads w !! t = Some th → th_pc th = Waiting g k s → plain pc → connector pc = None → hasSlot pc = false →
  pool_inv (goTo (setPool w (leaveWaiting (pw_pool w) g) []) t th pc).
Proof.
  intros I Ht Hold Hpc Hco Hsl. pose proof (pi_threads w I t th Ht) as Hok. unfold leaveWaiting.
  assert (Hg : is_Some (cp_states (pw_pool w) !! g)) by (rewrite Hold in Hok; by destruct Hok as (_ & _ & _ & _ & ?)). destruct Hg as [st Hg]. rewrite Hg.
  set (st' := set_waiters _ _ _). pose proof (moves_put w t th pc _ g st st' Hg (pool_put_state w g st') eq_refl) as M.
  specialize (M ltac:(by left)). destruct (plain_none _ Hpc) as (Hc & Hh & Hcr). pose proof (mw_framed _ _ _ _ _ _ _ _ M) as F.
  pose proof (pi_states w I g st Hg) as Hst.
  apply (inv_move _ _ t th pc g st st' (λ _, False) (λ _, False) (λ _, False) I Ht M);
    cbn [ps_all ps_shared ps_idle ps_connecting st' set_waiters]; auto.
  - rewrite Hcr. intros c []%not_elem_of_nil.
  - by apply thread_ok_idle.
  - apply (state_ok_waiters w); [done| |by apply (so_connecting_mono w _ g st)|done].
    cbn [goTo setPool pw_threads]. rewrite (countOf_update _ _ _ th), Hold by done. cbn [th_pc]. rewrite (proj1 (proj2 Hpc)).
    rewrite (so_waiters _ _ _ Hst). cbn. rewrite Nat.eqb_refl. cbn. lia.
  - intros g1 Hne. rewrite (proj1 (proj2 Hpc)), Hold. cbn. symmetry. by apply Nat.eqb_neq.
  - intros t' th' _ _ _ A1 A2. split_and!; [naive_solver..| |];
      apply (less_both w _ (th_pc th) pc (th_pc th') F); auto; apply less_plain; auto.
  - intros c Hcur Hs. by apply (users_same w g st c); rewrite ?Hold.
  - intros g1 st1 c _ _ _. unfold holdsConn. rewrite Hh, Hcr, Hold. split; [done|apply not_elem_of_nil].
  - apply (slots_keep w _ t th pc); try done. by rewrite Hold.
  - rewrite Hold. done.
Qed.

(** A goroutine that has nothing meets nobody. *)
Lemma apart_nothing w pc q : touches pc = None → connector pc = None → apart w pc q ∧ apart w q pc.
Proof.
  intros Ht Hc. assert (Ho : owns (cp_mode (pw_pool w)) pc = None).
  { unfold touches in Ht. unfold owns. destruct (claims pc); [done|]. by rewrite Ht; destruct (cp_mode (pw_pool w)). }
  split; split; rewrite ?Ho, ?Ht, ?Hc; try done; intros; by rewrite ?Hc in *.
Qed.

(** A goroutine begins to wait for the connect of the current state. *)
Lemma inv_wait w t th g st k s :
  pool_inv w → pw_threads w !! t = Some th → plain (th_pc th) → connector (th_pc th) = None → hasSlot (th_pc th) = false →
  cp_states (pw_pool w) !! g = Some st → ps_connecting st = Some k →
  pool_inv (goTo (setPool w (put_state (pw_pool w) g (set_waiters st (ps_sharedWaiters st + 1) (Some k))) []) t th (Waiting g k s)).
Proof.
  intros I Ht Hold Hco Hsl Hg Hk. set (st' := set_waiters _ _ _).
  pose proof (moves_put w t th (Waiting g k s) _ g st st' Hg (pool_put_state w g st') eq_refl) as M.
  specialize (M ltac:(by left)). destruct (plain_none _ Hold) as (Hc & Hh & Hcr). pose proof (mw_framed _ _ _ _ _ _ _ _ M) as F.
  pose proof (pi_states w I g st Hg) as Hst.
  apply (inv_move _ _ t th _ g st st' (λ _, False) (λ _, False) (λ _, False) I Ht M);
    cbn [ps_all ps_shared ps_idle ps_connecting st' set_waiters]; auto.
  - intros k0 Hk0. left. congruence.
  - intros c []%not_elem_of_nil.
  - split_and!; try done. cbn. by rewrite lookup_insert_eq.
  - apply (state_ok_waiters w); [done| | |done].
    + cbn [goTo setPool pw_threads]. rewrite (countOf_update _ _ _ th) by done. cbn [th_pc]. rewrite (proj1 (proj2 Hold)).
      rewrite (so_waiters _ _ _ Hst). cbn. rewrite Nat.eqb_refl. cbn. lia.
    + intros k0 Hk0. apply (so_connecting_mono w _ g st F Hst). congruence.
  - intros g1 Hne. rewrite (proj1 (proj2 Hold)). cbn. by apply Nat.eqb_neq.
  - intros t' th' _ _ _ _ _. split_and!; [naive_solver..| |]; by apply (apart_nothing _ (Waiting g k s)).
  - intros c Hcur Hs. by apply (users_same w g st c).
  - intros g1 st1 c _ _ _. unfold holdsConn. rewrite Hh. split; [done|apply not_elem_of_nil].
  - by apply (slots_keep w _ t th (Waiting g k s)).
  - intros d Hf%flight_claims. congruence.
Qed.

(** A goroutine begins. *)
Lemma inv_spawn w t th pc :
  pool_inv w → pw_threads w !! t = None → plain pc → connector pc = None → hasSlot pc = false → pool_inv (goTo w t th pc).
Proof.
  intros I Ht Hpc Hco Hsl. set (w' := goTo w t th pc). destruct (plain_none _ Hpc) as (Hc & Hh & Hcr).
  assert (Hcr' : pw_created w' = pw_created w) by (subst w'; cbn [goTo pw_created]; by rewrite Hcr).
  assert (F : framed w w') by (apply same_states_framed; try done; by rewrite Hcr').
  assert (E : evolves w w' (λ _, False) (λ _, False) (λ _, False)).
  { apply evolves_quiet; try done; [by rewrite Hcr'|rewrite Hcr'; by left|by left]. }
  assert (Hcount : ∀ P, P pc = false → countOf P (pw_threads w') = countOf P (pw_threads w)).
  { intros P HP. subst w'. cbn [goTo pw_threads]. rewrite countOf_new by done. cbn [th_pc]. rewrite HP. cbn. lia. }
  apply (inv_quiet w w'); try done.
  - unfold threads_inv. change (pw_threads w') with (<[t := mkThread pc (th_ctx th) (th_probe th) (th_fresh th)]> (pw_threads w)). split.
    + intros t' th' [[<- <-]|[Hne H]]%lookup_insert_Some; [by apply thread_ok_idle|].
      apply (thread_ok_evolves w w' _ _ _ _ E); [by apply (pi_threads w I t')|naive_solver..].
    + intros t1 t2 th1 th2 Hne [[<- <-]|[Hn1 H1]]%lookup_insert_Some [[<- <-]|[Hn2 H2]]%lookup_insert_Some; [done|..].
      * apply (apart_nothing w' pc); [apply Hpc|done].
      * apply (apart_nothing w' pc); [apply Hpc|done].
      * by apply (pi_apart w I t1 t2).
  - intros g. apply Hcount, Hpc.
  - intros g st c _ _. rewrite Hcr'. split; [|done]. apply Hcount. unfold holdsConn. by rewrite Hh.
  - destruct (pi_created w I). split_and!; rewrite ?Hcr'; try done. apply (pi_dropped w I).
  - pose proof (pi_slots w I) as S. unfold slots_ok, hasSem in *. cbn. case_match; [|done]. by rewrite Hcount.
  - intros c Hd. destruct (pi_leak w I c Hd) as [?|[?|(t' & th' & H1 & H2)]]; [by left|by right; left|]. right; right.
    exists t', th'. split; [|done]. cbn. rewrite lookup_insert_ne; [done|]. intros <-. congruence.
Qed.

(** A connect of the current state begins. *)
Lemma inv_connect_start w t th g st :
  pool_inv w → pw_threads w !! t = Some th → plain (th_pc th) → connector (th_pc th) = None → hasSlot (th_pc th) = false →
  cp_states (pw_pool w) !! g = Some st → ps_connecting st = None → ps_shared st = None → cp_mode (pw_pool w) = ConnPoolSingle →
  let k := cp_next (pw_pool w) in
  pool_inv (goTo (setPool w (put_state (with_connects (pw_pool w) (<[k := mkConnect false None]> (cp_connects (pw_pool w))) (S k))
    g (set_waiters st (ps_sharedWaiters st) (Some k))) []) t th (Connecting g k)).
Proof.
  intros I Ht Hold Hco Hsl Hg Hk Hsh Hmode k. set (st' := set_waiters _ _ _). set (p := put_state _ _ _).
  assert (Hput : pool_put w p g st') by (split_and!; try done; [cbn; lia|intros x c Hx; left; by eexists]).
  pose proof (moves_put w t th (Connecting g k) p g st st' Hg Hput eq_refl) as M.
  specialize (M ltac:(by left)). destruct (plain_none _ Hold) as (Hc & Hh & Hcr). pose proof (mw_framed _ _ _ _ _ _ _ _ M) as F.
  pose proof (pi_states w I g st Hg) as Hst.
  apply (inv_move _ _ t th _ g st st' (λ _, False) (λ _, False) (λ _, False) I Ht M);
    cbn [ps_all ps_shared ps_idle ps_connecting st' set_waiters]; auto.
  - by rewrite Hk.
  - intros c []%not_elem_of_nil.
  - split_and!; try done. intros g0 k0 [= <- <-]. exists st'. cbn. by rewrite lookup_insert_eq.
  - apply (state_ok_waiters w); [done| | |done].
    + cbn [goTo setPool pw_threads]. rewrite (countOf_update _ _ _ th) by done. cbn [th_pc]. rewrite (proj1 (proj2 Hold)).
      rewrite (so_waiters _ _ _ Hst). cbn. lia.
    + intros k0 [= <-]. cbn. split_and!; [lia|done..].
  - intros g1 Hne. by rewrite (proj1 (proj2 Hold)).
  - intros t' th' _ Ht' Hok _ _.
    assert (Hnew : ∀ g1 k1, connector (th_pc th') = Some (g1, k1) → (k1 < k)%nat).
    { intros g1 k1 Hc1. destruct Hok as (_ & _ & _ & T4 & _). destruct (T4 g1 k1 Hc1) as (st1 & Hg1 & Hk1).
      by apply (so_connecting _ _ _ (pi_states w I g1 st1 Hg1)). }
    split_and!; [naive_solver..| |].
    + split; [by destruct (cp_mode _)|]. intros ? ? g1 k1 [= <- <-] Hc1. pose proof (Hnew g1 k1 Hc1). lia.
    + split; [by intros|]. intros g1 k1 ? ? Hc1 [= <- <-]. pose proof (Hnew g1 k1 Hc1). lia.
  - intros c Hcur Hs. congruence.
  - intros g1 st1 c _ _ _. unfold holdsConn. rewrite Hh. split; [done|apply not_elem_of_nil].
  - by apply (slots_keep w _ t th (Connecting g k)).
  - intros d Hf%flight_claims. congruence.
Qed.

(** ** The shared connection *)

Lemma shared_not_claimed w g st c pc :
  pool_inv w → cp_states (pw_pool w) !! g = Some st → ps_shared st = Some c → thread_ok w pc → claims pc ≠ Some c.
Proof.
  intros I Hg Hs (_ & _ & _ & _ & T5) Hc.
  assert (Hk : known w c).
  { exists g, st. split; [done|]. pose proof (so_shared _ _ _ (pi_states w I g st Hg)) as S. rewrite Hs in S. apply S. }
  destruct pc as [| | | |? ?|? ?| | | | |? ? [|]|]; cbn in Hc; simplify_eq.
  - by destruct T5.
  - destruct T5 as [_ T5]. by eapply T5.
  - by destruct T5.
Qed.

Lemma shared_single w g st c : state_ok w g st → ps_shared st = Some c → cp_mode (pw_pool w) = ConnPoolSingle.
Proof. intros S Hs. pose proof (so_mode _ _ _ S) as Hm. destruct (cp_mode (pw_pool w)); [done|congruence]. Qed.

Lemma single_no_idle w g st : pool_inv w → cp_mode (pw_pool w) = ConnPoolSingle → cp_states (pw_pool w) !! g = Some st → ps_idle st = [].
Proof. intros I Hm Hg. pose proof (so_mode _ _ _ (pi_states w I g st Hg)) as S. by rewrite Hm in S. Qed.

(** Other counts of the shared connection. *)
Lemma state_ok_users w w' g st claimed n :
  framed w w' → countOf (waitsFor g) (pw_threads w') = countOf (waitsFor g) (pw_threads w) → ps_shared st ≠ None →
  state_ok w g st → state_ok w' g (set_shared st (ps_shared st) claimed n (ps_sharedCtx st)).
Proof.
  intros F Hw Hs S. destruct (state_ok_framed w w' g st F Hw S) as [S1 S2 S3 S4 S5 S6 S7 S8 S9]. split; cbn; try done.
  by destruct (ps_shared st).
Qed.

Lemma inv_claim w t th g st c :
  pool_inv w → pw_threads w !! t = Some th → plain (th_pc th) → connector (th_pc th) = None → hasSlot (th_pc th) = false →
  current (pw_pool w) = Some (g, st) → ps_shared st = Some c →
  let '(p, l, pc) := claimShared (pw_pool w) g st c in pool_inv (goTo (setPool w p l) t th pc).
Proof.
  intros I Ht Hold Hco Hsl Hcur Hs. unfold claimShared. set (pc := Holding _ _ _). set (st' := set_shared _ _ _ _ _).
  pose proof (current_lookup _ _ _ Hcur) as (_ & _ & Hg). pose proof (pi_states w I g st Hg) as Hst.
  pose proof (shared_single w g st c Hst Hs) as Hm. destruct (pi_users w I g st c Hcur Hs) as [Hu Hcl].
  pose proof (moves_put w t th pc _ g st st' Hg (pool_put_state w g st') eq_refl) as M.
  specialize (M ltac:(by left)). destruct (plain_none _ Hold) as (Hc & Hh & _). pose proof (mw_framed _ _ _ _ _ _ _ _ M) as F.
  pose proof (so_shared _ _ _ Hst) as Hin. rewrite Hs in Hin. destruct Hin as (Hin & x & cause & Hx & Hcx).
  assert (Hcr : ∀ d, d ∈ createdBy pc ↔ d = c ∧ ps_sharedClaimed st = false).
  { intros d. subst pc. cbn. destruct (ps_sharedClaimed st); cbn; clear; set_solver. }
  assert (Hhold : ∀ d, b2z (holdsConn d (th_pc th)) = 0) by (intros d; unfold holdsConn; by rewrite Hh).
  apply (inv_move _ _ t th pc g st st' (eq c) (λ _, False) (λ _, False) I Ht M);
    cbn [ps_all ps_shared ps_idle ps_connecting st' set_shared]; auto.
  - intros d [-> Hf]%Hcr. split; [done|]. split; [|by apply (so_dialled _ _ _ Hst)]. rewrite <- Hcl. congruence.
  - split_and!; try done.
    + intros d [= <-]. rewrite (mw_created _ _ _ _ _ _ _ _ M), elem_of_app, Hcr, <- Hcl.
      destruct (ps_sharedClaimed st); tauto.
    + intros d _ g1 st1 Hg1. cbn in Hg1. apply lookup_insert_Some in Hg1 as [[<- <-]|[_ Hg1]]; cbn.
      * rewrite (single_no_idle w g st I Hm Hg). apply not_elem_of_nil.
      * rewrite (single_no_idle w g1 st1 I Hm Hg1). apply not_elem_of_nil.
    + subst pc. cbn. rewrite Hx. exists g, cause. split; [done|]. right. exists st'. cbn. rewrite lookup_insert_eq. auto.
  - apply (state_ok_users w); [done| |congruence|done]. cbn [goTo setPool pw_threads]. rewrite (countOf_update _ _ _ th) by done.
    cbn [th_pc]. rewrite (proj1 (proj2 Hold)). subst pc. cbn. lia.
  - intros g1 _. by rewrite (proj1 (proj2 Hold)).
  - intros t' th' _ Ht' Hok _ _. pose proof (shared_not_claimed w g st c _ I Hg Hs Hok) as Hnc.
    split_and!; [naive_solver..| |].
    + split; [|done]. intros d. cbn. rewrite Hm. done.
    + split; [|intros g1 k1 g2 k2 _; done]. intros d Hd [= <-]. apply Hnc. cbn in Hd. rewrite Hm in Hd. unfold owns in Hd.
      by destruct (claims (th_pc th')).
  - intros d _ Hd. rewrite Hs in Hd. simplify_eq.
    change (ps_sharedUsers st') with (ps_sharedUsers st + 1). change (ps_sharedClaimed st') with true.
    rewrite Hhold, Hu, (holdsConn_true d pc) by done. split; [cbn; lia|]. rewrite Hcr, <- Hcl. destruct (ps_sharedClaimed st); tauto.
  - intros g1 st1 d Hne Hcur1. congruence.
  - by apply (slots_keep w _ t th pc).
  - intros d Hf%flight_claims. congruence.
Qed.

(** The shared connection is given back. *)
Lemma inv_unclaim w t th g st c x cr :
  pool_inv w → pw_threads w !! t = Some th → th_pc th = Holding c x cr → current (pw_pool w) = Some (g, st) → ps_shared st = Some c →
  pool_inv (goTo (setPool w (put_state (pw_pool w) g (set_shared st (ps_shared st) (ps_sharedClaimed st) (ps_sharedUsers st - 1) (ps_sharedCtx st))) [])
    t th Ended).
Proof.
  intros I Ht Hold Hcur Hs. set (st' := set_shared _ _ _ _ _).
  pose proof (current_lookup _ _ _ Hcur) as (_ & _ & Hg). pose proof (pi_states w I g st Hg) as Hst.
  destruct (pi_users w I g st c Hcur Hs) as [Hu Hcl].
  pose proof (moves_put w t th Ended _ g st st' Hg (pool_put_state w g st') eq_refl) as M.
  specialize (M ltac:(by left)). pose proof (mw_framed _ _ _ _ _ _ _ _ M) as F.
  apply (inv_move _ _ t th Ended g st st' (λ _, False) (λ _, False) (λ _, False) I Ht M);
    cbn [ps_all ps_shared ps_idle ps_connecting st' set_shared]; auto; rewrite ?Hold; try done.
  - intros d []%not_elem_of_nil.
  - apply (state_ok_users w); [done| |congruence|done]. cbn [goTo setPool pw_threads]. rewrite (countOf_update _ _ _ th) by done.
    rewrite Hold. cbn. lia.
  - intros t' th' _ _ _ _ _. split_and!; [naive_solver..| |]; by apply (apart_nothing _ Ended).
  - intros d _ Hd. rewrite Hs in Hd. simplify_eq.
    change (ps_sharedUsers st') with (ps_sharedUsers st - 1). change (ps_sharedClaimed st') with (ps_sharedClaimed st).
    rewrite Hu, holdsConn_true, (holdsConn_false _ Ended) by done. cbn. split; [lia|]. rewrite Hcl, elem_of_nil. tauto.
  - intros g1 st1 d Hne Hcur1. congruence.
  - apply (slots_keep w _ t th Ended); try done. by rewrite Hold.
Qed.

(** ** Idle connections *)

Lemma ordered_no_shared w g st : pool_inv w → cp_mode (pw_pool w) = ConnPoolOrdered → cp_states (pw_pool w) !! g = Some st → ps_shared st = None.
Proof. intros I Hm Hg. pose proof (so_mode _ _ _ (pi_states w I g st Hg)) as S. by rewrite Hm in S. Qed.

(** Other idle connections. *)
Lemma state_ok_idle w w' g st idle elements :
  framed w w' → countOf (waitsFor g) (pw_threads w') = countOf (waitsFor g) (pw_threads w) → cp_mode (pw_pool w) = ConnPoolOrdered →
  NoDup idle → elements = list_to_set idle →
  (∀ c, c ∈ idle → c ∈ ps_all st ∧ ps_owned st !! c = None ∧ c ∈ pw_created w) →
  state_ok w g st → state_ok w' g (set_idle st idle elements).
Proof.
  intros F Hw Hm Hn He Ha S. pose proof (so_mode _ _ _ S) as Hs. rewrite Hm in Hs.
  destruct (state_ok_framed w w' g st F Hw S) as [S1 S2 S3 S4 S5 S6 S7 S8 S9]. split; cbn; try done.
  - intros c Hc. destruct (Ha c Hc) as (? & ? & ?). split_and!; [done..|]. by apply (fr_created _ _ F).
  - by rewrite (fr_mode _ _ F), Hm.
Qed.

(** The first idle connection is taken. *)
Lemma inv_pop w t th g st c rest :
  pool_inv w → pw_threads w !! t = Some th → plain (th_pc th) → connector (th_pc th) = None → hasSlot (th_pc th) = false →
  cp_mode (pw_pool w) = ConnPoolOrdered → current (pw_pool w) = Some (g, st) → ps_idle st = c :: rest →
  pool_inv (goTo (setPool w (put_state (pw_pool w) g (set_idle st rest (ps_idleElements st ∖ {[c]}))) []) t th (Holding c None false)).
Proof.
  intros I Ht Hold Hco Hsl Hm Hcur Hidle. set (pc := Holding _ _ _). set (st' := set_idle _ _ _).
  pose proof (current_lookup _ _ _ Hcur) as (_ & _ & Hg). pose proof (pi_states w I g st Hg) as Hst.
  pose proof (moves_put w t th pc _ g st st' Hg (pool_put_state w g st') eq_refl) as M.
  specialize (M ltac:(by left)). destruct (plain_none _ Hold) as (Hc & Hh & _). pose proof (mw_framed _ _ _ _ _ _ _ _ M) as F.
  pose proof (so_idle_all _ _ _ Hst) as Hall. destruct (so_idle _ _ _ Hst) as [Hnd Hel]. rewrite Hidle in Hall, Hnd, Hel.
  apply NoDup_cons in Hnd as [Hnc Hnd]. destruct (Hall c) as (Hin & _ & Hcr); [left|].
  apply (inv_move _ _ t th pc g st st' (λ _, False) (λ _, False) (λ _, False) I Ht M);
    cbn [ps_all ps_shared ps_idle ps_connecting st' set_idle]; auto.
  - rewrite Hidle. intros d ?. left. by right.
  - intros d []%not_elem_of_nil.
  - split_and!; try done.
    + intros d [= <-]. by apply F.
    + intros d [= <-] g1 st1 Hg1. cbn in Hg1. apply lookup_insert_Some in Hg1 as [[<- <-]|[Hne Hg1]]; [done|].
      intros Hi. apply Hne. destruct (so_idle_all _ _ _ (pi_states w I g1 st1 Hg1) c Hi) as (? & _). by eapply (pi_disjoint w I g st g1 st1).
  - apply (state_ok_idle w); try done.
    + cbn [goTo setPool pw_threads]. rewrite (countOf_update _ _ _ th) by done. cbn [th_pc]. rewrite (proj1 (proj2 Hold)). cbn. lia.
    + rewrite Hel. apply set_eq. intros d. rewrite list_to_set_cons. set_solver.
    + intros d ?. apply Hall. by right.
  - intros g1 _. by rewrite (proj1 (proj2 Hold)).
  - intros t' th' _ Ht' (_ & _ & T3 & _) _ _. assert (Hnt : touches (th_pc th') ≠ Some c).
    { intros Hto. apply (T3 c Hto g st Hg). rewrite Hidle. left. }
    split_and!; [naive_solver..| |].
    + split; [|done]. intros d. cbn. rewrite Hm. by intros [= <-].
    + split; [|intros g1 k1 g2 k2 _; done]. intros d Hd [= <-]. apply Hnt. revert Hd. cbn. rewrite Hm. unfold owns, touches.
      by destruct (claims (th_pc th')).
  - intros d _ Hd. rewrite (ordered_no_shared w g st) in Hd by done. done.
  - intros g1 st1 d Hne Hcur1. congruence.
  - by apply (slots_keep w _ t th pc).
  - intros d Hf%flight_claims. congruence.
Qed.

(** A connection is parked. *)
Lemma inv_push w t th g st c x cr :
  pool_inv w → pw_threads w !! t = Some th → th_pc th = Holding c x cr → cp_mode (pw_pool w) = ConnPoolOrdered →
  current (pw_pool w) = Some (g, st) → c ∈ ps_all st → ps_owned st !! c = None →
  pool_inv (goTo (setPool w (put_state (pw_pool w) g (set_idle st (ps_idle st ++ [c]) ({[c]} ∪ ps_idleElements st))) []) t th Ended).
Proof.
  intros I Ht Hold Hm Hcur Hin Hown. set (st' := set_idle _ _ _).
  pose proof (current_lookup _ _ _ Hcur) as (_ & _ & Hg). pose proof (pi_states w I g st Hg) as Hst.
  pose proof (moves_put w t th Ended _ g st st' Hg (pool_put_state w g st') eq_refl) as M.
  specialize (M ltac:(by left)). pose proof (mw_framed _ _ _ _ _ _ _ _ M) as F.
  destruct (pi_threads w I t th Ht) as (_ & T2 & T3 & _). rewrite Hold in T2, T3.
  destruct (so_idle _ _ _ Hst) as [Hnd Hel]. pose proof (T3 c eq_refl g st Hg) as Hni.
  apply (inv_move _ _ t th Ended g st st' (λ _, False) (eq c) (λ _, False) I Ht M);
    cbn [ps_all ps_shared ps_idle ps_connecting st' set_idle]; auto; rewrite ?Hold; try done.
  - intros d. rewrite elem_of_app, list_elem_of_singleton. intros [?| ->]; auto.
  - intros d []%not_elem_of_nil.
  - apply (state_ok_idle w); try done.
    + cbn [goTo setPool pw_threads]. rewrite (countOf_update _ _ _ th) by done. rewrite Hold. cbn. lia.
    + apply NoDup_app. split_and!; [done| |apply NoDup_singleton]. intros d Hd Hd'. apply list_elem_of_singleton in Hd'. by subst.
    + rewrite Hel. apply set_eq. intros d. rewrite list_to_set_app. set_solver.
    + intros d. rewrite elem_of_app, list_elem_of_singleton. intros [?| ->]; [by apply (so_idle_all _ _ _ Hst)|].
      split_and!; [done..|by apply T2].
  - intros t' th' _ _ _ [A1 _] _. split_and!; [naive_solver| |naive_solver| |]; [|by apply (apart_nothing _ Ended)..].
    intros d Hto <-. apply (A1 c); [|done]. unfold owns. cbn. by rewrite Hm.
  - intros d _ Hd. rewrite (ordered_no_shared w g st) in Hd by done. done.
  - intros g1 st1 d Hne Hcur1. congruence.
  - apply (slots_keep w _ t th Ended); try done. by rewrite Hold.
Qed.
