(* ===== verification/ConnPoolInstall.v ===== *)
(** A connection that was dialled enters the pool, gets its context, or is refused;
    the end of a connect. *)

From S2P Require Import Prelude GoBytes ConnPool ConnPoolInv ConnPoolSteps ConnPoolMoves.

(** The state with the new connection [c]; [mark] tells whether a test owns it. *)
Lemma installedLx_fields mark st c :
  let st' := installedLx mark st c in
  ps_cause st' = ps_cause st ∧ ps_all st' = ps_all st ∧ ps_idle st' = ps_idle st ∧ ps_idleElements st' = ps_idleElements st ∧
  ps_shared st' = ps_shared st ∧ ps_sharedClaimed st' = ps_sharedClaimed st ∧ ps_sharedUsers st' = ps_sharedUsers st ∧
  ps_sharedWaiters st' = ps_sharedWaiters st ∧ ps_sharedCtx st' = ps_sharedCtx st ∧ ps_connecting st' = ps_connecting st ∧
  (∀ d, d ≠ c → ps_owned st' !! d = ps_owned st !! d).
Proof. destruct mark; cbn; split_and!; try done. intros d Hd. by rewrite lookup_insert_ne. Qed.

(** What a new connection is not. *)
Lemma new_conn w pc c :
  pool_inv w → thread_ok w pc → claims pc = Some c → (∀ g, pc ≠ FreshInstalled g c) →
  c ∈ pw_dialled w ∧ c ∉ pw_created w ∧ ¬ known w c ∧ ¬ dropped w c.
Proof.
  intros I (T1 & _ & _ & _ & T5) Hc Hf. destruct (T1 c Hc). split_and!; [done..| |].
  all: destruct pc as [| | | |? ?|? ?| | | | |? ? [|]|]; cbn in Hc; simplify_eq; [apply T5|by edestruct Hf|apply T5].
Qed.

Lemma known_idle w g st c : pool_inv w → ¬ known w c → cp_states (pw_pool w) !! g = Some st → c ∉ ps_idle st ∧ c ∉ ps_all st ∧ ps_shared st ≠ Some c.
Proof.
  intros I Hk Hg. assert (Hall : c ∉ ps_all st) by (intros H; apply Hk; by exists g, st). pose proof (pi_states w I g st Hg) as S.
  split_and!; [|done|].
  - intros H. by apply Hall, (so_idle_all _ _ _ S).
  - intros H. pose proof (so_shared _ _ _ S) as S7. rewrite H in S7. by destruct S7.
Qed.

(** A state with one more connection, that no other state has. *)
Lemma state_ok_install w w' g st c mark :
  pool_inv w → framed w w' → countOf (waitsFor g) (pw_threads w') = countOf (waitsFor g) (pw_threads w) → c ∈ pw_dialled w → ¬ known w c →
  cp_states (pw_pool w) !! g = Some st → state_ok w' g (installedLx mark (set_all st ({[c]} ∪ ps_all st)) c).
Proof.
  intros I F Hw Hd Hk Hg. destruct (known_idle w g st c I Hk Hg) as (Hni & Hna & Hns).
  pose proof (state_ok_framed w w' g st F Hw (pi_states w I g st Hg)) as [S1 S2 S3 S4 S5 S6 S7 S8 S9].
  destruct (installedLx_fields mark (set_all st ({[c]} ∪ ps_all st)) c) as (E1 & E2 & E3 & E4 & E5 & E6 & E7 & E8 & E9 & E10 & E11).
  split; rewrite ?E2, ?E3, ?E4, ?E5, ?E6, ?E7, ?E8, ?E9, ?E10; cbn [ps_all ps_idle ps_idleElements ps_shared ps_sharedUsers ps_sharedClaimed ps_sharedWaiters ps_sharedCtx ps_connecting set_all]; try done.
  - intros d [->%elem_of_singleton|?]%elem_of_union; [by apply (fr_dialled _ _ F)|by apply S3].
  - intros d Hi. destruct (S5 d Hi) as (? & ? & ?). split_and!; [set_solver| |done]. rewrite E11; [done|]. by intros ->.
  - intros d x Hx. destruct (decide (d = c)) as [->|Hne]; [set_solver|]. rewrite E11 in Hx by done. apply S6 in Hx. set_solver.
  - destruct (ps_shared st); [|done]. destruct S7. split; [set_solver|done].
Qed.

(** Where a goroutine goes with the connection it has installed. *)
Definition installedAt (pc : pool_pc) (g : nat) (c : conn) : Prop := pc = FreshInstalled g c ∨ pc = Holding c None true.

Lemma installedAt_facts pc g c : installedAt pc g c →
  touches pc = Some c ∧ connector pc = None ∧ hasSlot pc = false ∧ (∀ g1, waitsFor g1 pc = false) ∧
  (∀ d, d ≠ c → holdsConn d pc = false) ∧ (∀ d, d ∈ createdBy pc → d = c) ∧ (∀ mode, less mode pc (Installing g c)).
Proof.
  intros [-> | ->]; split_and!; try done.
  all: try (intros mode; unfold less, owns; cbn; destruct mode; by auto).
  - by intros d []%not_elem_of_nil.
  - intros d Hd. apply holdsConn_false. by intros [= <-].
  - by intros d ->%list_elem_of_singleton.
Qed.

Lemma installedAt_ok w w' pc g c :
  installedAt pc g c → c ∈ pw_dialled w' → c ∉ pw_created w → pw_created w' = createdBy pc ++ pw_created w →
  is_Some (cp_states (pw_pool w') !! g) →
  (∀ g1 st1, cp_states (pw_pool w') !! g1 = Some st1 → c ∉ ps_idle st1 ∧ ps_shared st1 ≠ Some c) → thread_ok w' pc.
Proof.
  intros Hpc Hd Hnc Hcr Hg Hidle. unfold thread_ok. rewrite Hcr. destruct Hpc as [-> | ->]; cbn; split_and!; try done.
  - by intros d [= <-].
  - intros d [= <-] g1 st1 Hg1. by apply (Hidle g1 st1).
  - intros g1 st1 Hg1. by apply (Hidle g1 st1).
  - intros d [= <-]. left.
  - intros d [= <-] g1 st1 Hg1. by apply (Hidle g1 st1).
Qed.

(** The step of [dialAndInstall] into the current state. *)
Lemma inv_install w t th g st c mark pc :
  pool_inv w → pw_threads w !! t = Some th → th_pc th = Installing g c → current (pw_pool w) = Some (g, st) → installedAt pc g c →
  pool_inv (goTo (setPool w (releaseSlot (put_state (pw_pool w) g (installedLx mark (set_all st ({[c]} ∪ ps_all st)) c))) []) t th pc).
Proof.
  intros I Ht Hold Hcur Hpc. set (st' := installedLx _ _ _). set (p := releaseSlot _).
  pose proof (current_lookup _ _ _ Hcur) as (_ & Hcs & Hg). pose proof (pi_threads w I t th Ht) as Hok.
  destruct (new_conn w (th_pc th) c I Hok) as (Hd & Hnc & Hnk & Hndr); [by rewrite Hold|by rewrite Hold|].
  destruct (installedLx_fields mark (set_all st ({[c]} ∪ ps_all st)) c) as (E1 & E2 & E3 & _ & E5 & E6 & E7 & _ & E9 & E10 & E11).
  fold st' in E1, E2, E3, E5, E6, E7, E9, E10, E11.
  cbn [ps_cause ps_all ps_idle ps_shared ps_sharedClaimed ps_sharedUsers ps_sharedCtx ps_connecting ps_owned set_all] in E1, E2, E3, E5, E6, E7, E9, E10, E11.
  assert (Hput : pool_put w p g st').
  { subst p. unfold releaseSlot. case_match; (split_and!; try done); intros x d Hx; left; by eexists. }
  pose proof (moves_put w t th pc p g st st' Hg Hput E1) as M.
  specialize (M ltac:(rewrite E2; intros d [->%elem_of_singleton|?]%elem_of_union; auto)). pose proof (mw_framed _ _ _ _ _ _ _ _ M) as F.
  destruct (installedAt_facts pc g c Hpc) as (Hto & Hco & Hsl & Hw & Hhold & Hcr & Hless). destruct Hput as (_ & _ & _ & _ & Hs & _).
  apply (inv_move _ _ t th pc g st st' (eq c) (λ _, False) (λ _, False) I Ht M); rewrite ?E2, ?E3, ?E5, ?E6, ?E7, ?E10; auto.
  - set_solver.
  - intros d [->%elem_of_singleton|?]%elem_of_union; auto.
  - intros d x Hin He. left. unfold endsWith. rewrite E5, E9, E11; [done|]. intros ->. apply Hnk. by exists g, st.
  - intros d ->%Hcr. auto.
  - apply (installedAt_ok w _ pc g c); try done; cbn [goTo setPool pw_pool]; rewrite Hs; [by rewrite lookup_insert_eq|].
    intros g1 st1 [[<- <-]|[_ Hg1]]%lookup_insert_Some.
    + rewrite E3, E5. by destruct (known_idle w g st c I Hnk Hg) as (? & _ & ?).
    + by destruct (known_idle w g1 st1 c I Hnk Hg1) as (? & _ & ?).
  - apply (state_ok_install w); try done. cbn [goTo setPool pw_threads]. rewrite (countOf_update _ _ _ th), Hold by done.
    cbn [th_pc]. rewrite Hw. cbn. lia.
  - intros g1 _. by rewrite Hw, Hold.
  - intros t' th' _ _ _ A1 A2. rewrite Hold in A1, A2. assert (Hoc : ∀ d, claims (th_pc th') = Some d → c ≠ d).
    { intros d Hd' <-. by apply (proj1 A1 c); [|apply touches_claims]. }
    split_and!; [done|naive_solver..| |]; by apply (less_both w _ (Installing g c) pc (th_pc th') F).
  - intros d _ Hsd. destruct (pi_users w I g st d Hcur Hsd) as [Hu Hcl].
    assert (Hne : d ≠ c) by (intros ->; by apply (known_idle w g st c I Hnk Hg)).
    rewrite Hold, Hhold, (holdsConn_false d (Installing g c)), Hcl by done. cbn. split; [lia|]. split; [auto|]. intros [->%Hcr|?]; done.
  - intros g1 st1 d Hne Hcur1. congruence.
  - eapply (slots_release w _ t th pc); try done. by rewrite Hold.
  - rewrite Hold. intros d [= <-]. right. split; [set_solver|done].
Qed.

(** ** The context of a fresh connection *)

(** A goroutine with a connection of its own takes it as created. *)
Lemma fresh_others w w' g c x q :
  framed w w' → apart w (FreshInstalled g c) q → apart w q (FreshInstalled g c) →
  (∀ d, claims q = Some d → ¬ c = d) ∧ (∀ d, touches q = Some d → ¬ c = d) ∧
  apart w' (Holding c x true) q ∧ apart w' q (Holding c x true).
Proof.
  intros F A1 A2. assert (Hto : ∀ d, touches q = Some d → ¬ c = d) by (intros d Hd <-; by apply (proj1 A1 c)).
  split_and!; [|done|..].
  - intros d ?%touches_claims. by apply Hto.
  - apply (less_both w w' (FreshInstalled g c) _ q F); try done. unfold less. cbn. destruct (cp_mode (pw_pool w)); auto.
  - apply (less_both w w' (FreshInstalled g c) _ q F); try done. unfold less. cbn. destruct (cp_mode (pw_pool w)); auto.
Qed.

Lemma state_ok_owned w w' g st c x :
  framed w w' → countOf (waitsFor g) (pw_threads w') = countOf (waitsFor g) (pw_threads w) → is_Some (ps_owned st !! c) →
  state_ok w g st → state_ok w' g (set_owned st (<[c := x]> (ps_owned st))).
Proof.
  intros F Hw [y Hy] S. destruct (state_ok_framed w w' g st F Hw S) as [S1 S2 S3 S4 S5 S6 S7 S8 S9]. split; cbn; try done.
  - intros d Hd. destruct (S5 d Hd) as (? & ? & ?). split_and!; [done| |done]. rewrite lookup_insert_ne; [done|]. intros <-. congruence.
  - intros d z [[<- <-]|[_ ?]]%lookup_insert_Some; by eapply S6.
Qed.

(** The context number [x] comes into being, and the goroutine holds [c] with it. *)
Lemma pool_put_ctx w g st' cause connects :
  pool_inv w → let x := cp_next (pw_pool w) in
  pool_put w (mkPool (cp_mode (pw_pool w)) (cp_MaxInflight (pw_pool w)) (cp_closed (pw_pool w)) (cp_state (pw_pool w))
    (cp_sem (pw_pool w)) (<[g := st']> (cp_states (pw_pool w))) connects (<[x := mkPoolCtx g cause]> (cp_ctxs (pw_pool w))) (S x)) g st'.
Proof.
  intros I x. split_and!; try done; cbn.
  - subst x. lia.
  - intros y d Hy. rewrite lookup_insert_ne; [done|]. intros <-. apply (pi_ctxs w I) in Hy. subst x. lia.
  - intros y d [[<- _]|[_ ?]]%lookup_insert_Some; [right; lia|left; by eexists].
Qed.

(** A state that differs in the context of [c] only. *)
Record same_but_owned (st st' : connPoolState) (c : conn) : Prop := {
  sb_cause : ps_cause st' = ps_cause st;
  sb_all : ps_all st' = ps_all st;
  sb_idle : ps_idle st' = ps_idle st;
  sb_shared : ps_shared st' = ps_shared st ∧ ps_sharedClaimed st' = ps_sharedClaimed st ∧ ps_sharedUsers st' = ps_sharedUsers st ∧
    ps_sharedCtx st' = ps_sharedCtx st;
  sb_connecting : ps_connecting st' = ps_connecting st;
  sb_owned : ∀ d, d ≠ c → ps_owned st' !! d = ps_owned st !! d
}.

Lemma inv_fresh_put w t th g c st st' cause :
  pool_inv w → pw_threads w !! t = Some th → th_pc th = FreshInstalled g c → cp_states (pw_pool w) !! g = Some st →
  same_but_owned st st' c →
  (∀ w', framed w w' → countOf (waitsFor g) (pw_threads w') = countOf (waitsFor g) (pw_threads w) → state_ok w' g st') →
  let x := cp_next (pw_pool w) in
  cause ≠ None ∨ c ∈ ps_all st ∧ ps_owned st' !! c = Some (Some x) →
  pool_inv (goTo (setPool w (mkPool (cp_mode (pw_pool w)) (cp_MaxInflight (pw_pool w)) (cp_closed (pw_pool w)) (cp_state (pw_pool w))
    (cp_sem (pw_pool w)) (<[g := st']> (cp_states (pw_pool w))) (cp_connects (pw_pool w)) (<[x := mkPoolCtx g cause]> (cp_ctxs (pw_pool w))) (S x)) [])
    t th (Holding c (Some x) true)).
Proof.
  intros I Ht Hold Hg [E1 E2 E3 (E5 & E6 & E7 & E9) E10 E11] Hst' x Hcause. set (p' := mkPool _ _ _ _ _ _ _ _ _).
  destruct (pi_threads w I t th Ht) as (T1 & _ & T3 & _ & T5). rewrite Hold in T1, T3, T5. destruct T5 as [_ Hsh], (T1 c eq_refl) as [Hd Hnc].
  pose proof (moves_put w t th (Holding c (Some x) true) p' g st st' Hg (pool_put_ctx w g st' cause _ I) E1) as M.
  specialize (M ltac:(rewrite E2; by left)). pose proof (mw_framed _ _ _ _ _ _ _ _ M) as F.
  assert (Hne : ∀ g1 st1 d, current (pw_pool w) = Some (g1, st1) → ps_shared st1 = Some d → c ≠ d).
  { intros g1 st1 d (_ & _ & Hg1)%current_lookup Hs ->. by eapply Hsh. }
  apply (inv_move _ _ t th _ g st st' (eq c) (eq c) (λ _, False) I Ht M); rewrite ?E2, ?E3, ?E5, ?E6, ?E7, ?E10; auto.
  - intros d y Hin He. destruct (decide (d = c)) as [->|Hn]; [by right|]. left. unfold endsWith. by rewrite E5, E9, E11.
  - intros d ->%list_elem_of_singleton. auto.
  - split_and!; try done.
    + intros d [= <-]. left.
    + intros d [= <-] g1 st1 Hg1. cbn in Hg1. apply lookup_insert_Some in Hg1 as [[<- <-]|[_ Hg1]]; [rewrite E3|]; by eapply T3.
    + exists g, cause. cbn. rewrite !lookup_insert_eq. split; [done|]. destruct Hcause as [?|[? ?]]; [by left|].
      right. exists st'. rewrite E2. auto.
  - apply Hst'; [done|]. cbn [goTo setPool pw_threads]. rewrite (countOf_update _ _ _ th), Hold by done. cbn. lia.
  - by rewrite Hold.
  - rewrite Hold. intros t' th' _ _ _ A1 A2. destruct (fresh_others w _ g c (Some x) (th_pc th') F A1 A2) as (? & ? & ? & ?).
    split_and!; naive_solver.
  - intros d Hcur Hs. destruct (pi_users w I g st d Hcur Hs) as [Hu Hcl]. pose proof (Hne g st d Hcur Hs).
    rewrite Hold, !holdsConn_false, Hcl by (cbn; congruence). cbn. rewrite list_elem_of_singleton. split; [lia|]. naive_solver.
  - intros g1 st1 d _ Hcur Hs. pose proof (Hne g1 st1 d Hcur Hs).
    rewrite Hold, !holdsConn_false by (cbn; congruence). split; [done|]. by intros <-%list_elem_of_singleton.
  - apply (slots_keep w _ t th (Holding c (Some x) true)); try done. by rewrite Hold.
  - by rewrite Hold.
Qed.

Lemma inv_fresh_ctx w t th g c p pc :
  pool_inv w → pw_threads w !! t = Some th → th_pc th = FreshInstalled g c → acquireFreshLx (pw_pool w) g c = (p, pc) →
  pool_inv (goTo (setPool w p []) t th pc).
Proof.
  intros I Ht Hold. destruct (pi_threads w I t th Ht) as (_ & _ & _ & _ & T5). rewrite Hold in T5.
  destruct T5 as [[st Hg] _]. unfold acquireFreshLx. rewrite Hg. pose proof (pi_states w I g st Hg) as Hst.
  destruct (ps_owned st !! c) as [y|] eqn:Ho; intros [= <- <-].
  - apply (inv_fresh_put w t th g c st); try done.
    + split; try done. intros d Hne. cbn. by rewrite lookup_insert_ne.
    + intros w' F Hw. by apply (state_ok_owned w).
    + right. split; [by apply (so_owned _ _ _ Hst c y)|]. cbn. by rewrite lookup_insert_eq.
  - rewrite <- (insert_id (cp_states (pw_pool w)) g st Hg) at 1. apply (inv_fresh_put w t th g c st); try done; [|by left].
    intros w' F Hw. by apply (state_ok_framed w).
Qed.

(** ** The end of a connect *)

Lemma connector_state w t th g k :
  pool_inv w → pw_threads w !! t = Some th → connector (th_pc th) = Some (g, k) →
  ∃ st, cp_states (pw_pool w) !! g = Some st ∧ ps_connecting st = Some k ∧ ps_shared st = None ∧ cp_mode (pw_pool w) = ConnPoolSingle.
Proof.
  intros I Ht Hc. destruct (pi_threads w I t th Ht) as (_ & _ & _ & T4 & _). destruct (T4 g k Hc) as (st & Hg & Hk).
  destruct (so_connecting _ _ _ (pi_states w I g st Hg) k Hk) as (_ & ? & ?). by exists st.
Qed.

(** The connect failed. *)
Lemma inv_connect_failed w t th g k st e e' :
  pool_inv w → pw_threads w !! t = Some th → th_pc th = ConnectEnd g k (inr e) → cp_states (pw_pool w) !! g = Some st →
  pool_inv (goTo (setPool w (with_connects (put_state (pw_pool w) g (set_waiters st (ps_sharedWaiters st) None))
    (<[k := mkConnect false (Some e')]> (cp_connects (pw_pool w))) (cp_next (pw_pool w))) []) t th (ConnectDone k)).
Proof.
  intros I Ht Hold Hg. destruct (connector_state w t th g k I Ht) as (st0 & Hg0 & Hk & Hsh & _); [by rewrite Hold|]. simplify_eq.
  set (st' := set_waiters _ _ _). set (p := with_connects _ _ _).
  assert (Hput : pool_put w p g st') by (split_and!; try done; intros x c Hx; left; by eexists).
  pose proof (moves_put w t th (ConnectDone k) p g st st' Hg Hput eq_refl) as M.
  specialize (M ltac:(by left)). pose proof (mw_framed _ _ _ _ _ _ _ _ M) as F. pose proof (pi_states w I g st Hg) as Hst.
  apply (inv_move _ _ t th _ g st st' (λ _, False) (λ _, False) (eq k) I Ht M);
    cbn [ps_all ps_shared ps_idle ps_connecting st' set_waiters]; auto; rewrite ?Hold; try done.
  - intros k0 Hk0. right. congruence.
  - intros c []%not_elem_of_nil.
  - apply (state_ok_waiters w); [done| |done|done]. cbn [goTo setPool pw_threads]. rewrite (countOf_update _ _ _ th), Hold by done.
    rewrite (so_waiters _ _ _ Hst). cbn. lia.
  - intros t' th' _ _ _ [_ A2] _. split_and!; [naive_solver..| | |]; [|by apply (apart_nothing _ (ConnectDone k))..].
    intros g1 k1 Hc1. by apply (A2 g k g1 k1).
  - intros c _ Hs. congruence.
  - intros g1 st1 c _ _ _. split; [done|apply not_elem_of_nil].
  - apply (slots_keep w _ t th (ConnectDone k)); try done. by rewrite Hold.
Qed.

(** A state with a new shared connection. *)
Lemma state_ok_connected w w' g st c mark x :
  pool_inv w → framed w w' → countOf (waitsFor g) (pw_threads w') = countOf (waitsFor g) (pw_threads w) → c ∈ pw_dialled w → ¬ known w c →
  cp_states (pw_pool w) !! g = Some st → cp_mode (pw_pool w) = ConnPoolSingle → cp_ctxs (pw_pool w') !! x = Some (mkPoolCtx g None) →
  state_ok w' g (installedLx mark (set_all (set_shared (set_waiters st (ps_sharedWaiters st) None) (Some c) (ps_sharedClaimed st)
    (ps_sharedUsers st) (Some x)) ({[c]} ∪ ps_all st)) c).
Proof.
  intros I F Hw Hd Hk Hg Hm Hx. pose proof (state_ok_install w w' g st c mark I F Hw Hd Hk Hg) as [S1 _ S3 S4 S5 S6 _ S8 S9].
  rewrite (fr_mode _ _ F), Hm in S8.
  split; try done; [by destruct mark|by destruct mark..| | |by destruct mark].
  - destruct mark; cbn; (split; [set_solver|]); by exists x, None.
  - rewrite (fr_mode _ _ F), Hm. by destruct mark.
Qed.

(** The connect succeeded, and the connection becomes the shared one. *)
Lemma inv_connect_install w t th g k st c mark :
  pool_inv w → pw_threads w !! t = Some th → th_pc th = ConnectEnd g k (inl c) → current (pw_pool w) = Some (g, st) →
  let x := cp_next (pw_pool w) in
  let st1 := set_shared (set_waiters st (ps_sharedWaiters st) None) (Some c) (ps_sharedClaimed st) (ps_sharedUsers st) (Some x) in
  let st' := installedLx mark (set_all st1 ({[c]} ∪ ps_all st)) c in
  pool_inv (goTo (setPool w (mkPool (cp_mode (pw_pool w)) (cp_MaxInflight (pw_pool w)) (cp_closed (pw_pool w)) (cp_state (pw_pool w))
    (cp_sem (pw_pool w)) (<[g := st']> (cp_states (pw_pool w))) (cp_connects (pw_pool w)) (<[x := mkPoolCtx g None]> (cp_ctxs (pw_pool w))) (S x)) [])
    t th (ConnectDone k)).
Proof.
  intros I Ht Hold Hcur x st1 st'. set (p := mkPool _ _ _ _ _ _ _ _ _).
  pose proof (current_lookup _ _ _ Hcur) as (_ & Hcs & Hg). pose proof (pi_threads w I t th Ht) as Hok.
  destruct (connector_state w t th g k I Ht) as (st0 & Hg0 & Hk & Hsh & Hm); [by rewrite Hold|]. simplify_eq.
  destruct (new_conn w (th_pc th) c I Hok) as (Hd & Hnc & Hnk & Hndr); [by rewrite Hold|by rewrite Hold|].
  pose proof (pi_states w I g st Hg) as Hst.
  destruct (installedLx_fields mark (set_all st1 ({[c]} ∪ ps_all st)) c) as (E1 & E2 & E3 & E4 & E5 & E6 & E7 & E8 & E9 & E10 & E11).
  fold st' in E1, E2, E3, E4, E5, E6, E7, E8, E9, E10, E11. subst st1.
  cbn [ps_cause ps_all ps_idle ps_idleElements ps_shared ps_sharedClaimed ps_sharedUsers ps_sharedWaiters ps_sharedCtx ps_connecting ps_owned set_all set_shared set_waiters]
    in E1, E2, E3, E4, E5, E6, E7, E8, E9, E10, E11.
  pose proof (moves_put w t th (ConnectDone k) p g st st' Hg (pool_put_ctx w g st' None _ I) E1) as M.
  specialize (M ltac:(rewrite E2; intros d [->%elem_of_singleton|?]%elem_of_union; auto)). pose proof (mw_framed _ _ _ _ _ _ _ _ M) as F.
  pose proof (so_shared _ _ _ Hst) as S7. rewrite Hsh in S7. destruct S7 as [Hu Hcl].
  apply (inv_move _ _ t th _ g st st' (eq c) (λ _, False) (eq k) I Ht M); rewrite ?E2, ?E3, ?E5, ?E6, ?E7, ?E10, ?Hold; try done; auto.
  - set_solver.
  - intros d [->%elem_of_singleton|?]%elem_of_union; auto.
  - intros d [= <-]. auto.
  - intros k0 Hk0. right. congruence.
  - intros d y Hin [[He _]|He]; [congruence|]. left. right. rewrite E11; [done|]. intros ->. apply Hnk. by exists g, st.
  - intros d []%not_elem_of_nil.
  - apply (state_ok_connected w); try done; [|cbn; by rewrite lookup_insert_eq].
    cbn [goTo setPool pw_threads]. rewrite (countOf_update _ _ _ th), Hold by done. cbn. lia.
  - intros t' th' _ _ _ [A1 A2] _. split_and!; [|naive_solver| | |]; [|by intros g1 k1 Hc1; apply (A2 g k g1 k1)|by apply (apart_nothing _ (ConnectDone k))..].
    intros d Hd' <-. by apply (A1 c); [|apply touches_claims].
  - intros d _ [= <-]. rewrite countOf_none.
    + rewrite Hu, Hcl. cbn. split; [done|]. rewrite elem_of_nil. naive_solver.
    + intros t' th' Ht'. apply holdsConn_false. intros Hh. by apply Hnc, (pi_threads w I t' th' Ht').
  - intros g1 st1 d Hne Hcur1. congruence.
  - apply (slots_keep w _ t th (ConnectDone k)); try done. by rewrite Hold.
  - intros d [= <-]. right. split; [set_solver|done].
Qed.
