(* ===== verification/ConnPoolReset.v ===== *)
(** [Reset], [Close] and [closeState] keep the invariant of the DNS connection
    pool. *)

From S2P Require Import Prelude GoBytes ConnPool ConnPoolInv ConnPoolSteps ConnPoolMoves ConnPoolInstall.

Lemma no_news w : ∀ t th, pw_threads w !! t = Some th → thread_ok w (th_pc th) →
  (∀ c, claims (th_pc th) = Some c → ¬ (λ _ : conn, False) c) ∧ (∀ c, touches (th_pc th) = Some c → ¬ (λ _ : conn, False) c) ∧
  (∀ g k, connector (th_pc th) = Some (g, k) → ¬ (λ _ : nat, False) k).
Proof. cbn. naive_solver. Qed.

(** The world after [Reset] or [Close] has replaced the current state. *)
Definition retire (w : poolWorld) (p : ConnPool) (g : option nat) : poolWorld :=
  mkPoolWorld p (pw_threads w) (pw_ended w) (pw_dialled w) (pw_closing w) (pw_closed w)
    (match g with Some g => {[g]} | None => ∅ end ∪ pw_retiring w) (pw_created w).

(** A world that differs in the new state [n] only. *)
Definition hasNew (w w' : poolWorld) (n : nat) : Prop :=
  cp_states (pw_pool w) !! n = None ∧ cp_states (pw_pool w') = <[n := newConnPoolState]> (cp_states (pw_pool w)).

Lemma hasNew_lookup w w' n g st : hasNew w w' n → cp_states (pw_pool w) !! g = Some st → cp_states (pw_pool w') !! g = Some st.
Proof. intros [Hn Hs] Hg. rewrite Hs, lookup_insert_ne; [done|]. congruence. Qed.

Lemma hasNew_inv w w' n g st : hasNew w w' n → cp_states (pw_pool w') !! g = Some st → st = newConnPoolState ∨ cp_states (pw_pool w) !! g = Some st.
Proof. intros [_ Hs]. rewrite Hs. intros [[_ <-]|[_ ?]]%lookup_insert_Some; auto. Qed.

Lemma reset_evolves w g :
  pool_inv w → let n := cp_next (pw_pool w) in
  let w' := retire w (with_current (pw_pool w) false (Some n) (<[n := newConnPoolState]> (cp_states (pw_pool w))) (S n)) (Some g) in
  hasNew w w' n ∧ evolves w w' (λ _, False) (λ _, False) (λ _, False).
Proof.
  intros I n w'. assert (N : hasNew w w' n).
  { split; [|done]. destruct (cp_states (pw_pool w) !! n) eqn:E; [|done]. apply (pi_states w I), so_fresh in E. subst n. lia. }
  split; [done|]. split; try done; try (by left).
  - intros c (g1 & st1 & [->|H1]%(hasNew_inv _ _ _ _ _ N) & Hin); [done|]. left. by exists g1, st1.
  - intros g1 st1 c [->|H1]%(hasNew_inv _ _ _ _ _ N) Hc; [done|]. left. by exists g1, st1.
  - intros g1 st1 c [->|H1]%(hasNew_inv _ _ _ _ _ N) Hc; [by apply not_elem_of_nil in Hc|]. left. by exists g1, st1.
  - intros g1 [st1 H1]. exists st1. by apply (hasNew_lookup _ _ _ _ _ N).
  - intros g1 st1 k H1 H2. left. exists st1. split; [by apply (hasNew_lookup _ _ _ _ _ N)|done].
  - intros c x (g0 & cause & Hx & H). left. exists g0, cause. split; [done|]. destruct H as [?|(st0 & H0 & ?)]; [by left|].
    right. exists st0. split; [by apply (hasNew_lookup _ _ _ _ _ N)|done].
Qed.

Lemma inv_reset w g st :
  pool_inv w → current (pw_pool w) = Some (g, st) →
  pool_inv (retire w (with_current (pw_pool w) false (Some (cp_next (pw_pool w)))
    (<[cp_next (pw_pool w) := newConnPoolState]> (cp_states (pw_pool w))) (S (cp_next (pw_pool w)))) (Some g)).
Proof.
  intros I Hcur. pose proof (current_lookup _ _ _ Hcur) as (Hcl & Hcs & Hg). destruct (reset_evolves w g I) as [N E].
  set (n := cp_next (pw_pool w)) in *. set (w' := retire _ _ _) in *. destruct (N) as [Hn Hs].
  assert (Hlook : ∀ g1 st1, cp_states (pw_pool w) !! g1 = Some st1 → cp_states (pw_pool w') !! g1 = Some st1)
    by (intros g1 st1; by apply (hasNew_lookup _ _ n)).
  destruct (threads_stay w w' _ _ _ I eq_refl eq_refl E (no_news w)) as [T1 T2].
  assert (Hcur' : current (pw_pool w') = Some (n, newConnPoolState)) by (cbn; by rewrite lookup_insert_eq).
  split; try done.
  - exists n, newConnPoolState. rewrite Hs, lookup_insert_eq. split_and!; try done. cbn.
    intros [->%elem_of_singleton|Hr]%elem_of_union; [congruence|]. destruct (pi_retiring w I n Hr). congruence.
  - intros g1 st1 H1. rewrite Hs in H1. apply lookup_insert_Some in H1 as [[<- <-]|[_ H1]]; [by left|]. right.
    destruct (pi_retired w I g1 st1 H1) as [?|[?|?]]; [left|left|by right]; cbn; [|set_solver]. simplify_eq. set_solver.
  - cbn. intros g1 [->%elem_of_singleton|Hr]%elem_of_union; [exists st; by apply Hlook|].
    destruct (pi_retiring w I g1 Hr) as [st1 ?]. exists st1. by apply Hlook.
  - intros g1 st1 H1. rewrite Hs in H1. apply lookup_insert_Some in H1 as [[<- <-]|[_ H1]].
    + split; cbn; try done; try set_solver; try lia; [by split; [constructor|]|by destruct (cp_mode (pw_pool w))|].
      rewrite countOf_none; [done|]. intros t th Ht. pose proof (pi_threads w I t th Ht) as (_ & _ & _ & _ & T5).
      destruct (th_pc th); try done. cbn. apply Nat.eqb_neq. intros ->. destruct T5. congruence.
    + destruct (pi_states w I g1 st1 H1) as [S1 S2 S3 S4 S5 S6 S7 S8 S9]. split; try done; cbn; [lia|].
      intros k Hk. destruct (S2 k Hk) as (? & ? & ?). split_and!; [lia|done..].
  - rewrite Hs. intros g1 st1 g2 st2 c [[<- <-]|[_ H1]]%lookup_insert_Some [[<- <-]|[_ H2]]%lookup_insert_Some A1 A2; [done..|].
    by eapply (pi_disjoint w I).
  - intros x c Hx. pose proof (pi_ctxs w I x c Hx). cbn. lia.
  - intros g1 st1 c Hc Hin. rewrite Hcur' in Hc. by simplify_eq.
  - intros g1 st1 c Hc Hin. rewrite Hcur' in Hc. by simplify_eq.
  - apply (pi_created w I).
  - apply (pi_dropped w I).
  - apply (pi_slots w I).
  - intros c Hd. destruct (pi_leak w I c Hd) as [?|[(g1 & st1 & H1 & H2 & H3)|?]]; [by left| |by right; right].
    right; left. exists g1, st1. split_and!; [by apply Hlook|done|]. right. cbn. destruct H3; [simplify_eq|]; set_solver.
Qed.

Lemma inv_pool_close w g st :
  pool_inv w → current (pw_pool w) = Some (g, st) →
  pool_inv (retire w (with_current (pw_pool w) true None (cp_states (pw_pool w)) (cp_next (pw_pool w))) (Some g)).
Proof.
  intros I Hcur. pose proof (current_lookup _ _ _ Hcur) as (Hcl & Hcs & Hg). set (w' := retire _ _ _).
  assert (E : evolves w w' (λ _, False) (λ _, False) (λ _, False)) by (apply evolves_quiet; try done; by left).
  destruct (threads_stay w w' _ _ _ I eq_refl eq_refl E (no_news w)) as [T1 T2].
  split; try done.
  - intros g1 st1 H1. right. destruct (pi_retired w I g1 st1 H1) as [?|[?|?]]; [left|left|by right]; cbn; [|set_solver]. simplify_eq. set_solver.
  - cbn. intros g1 [->%elem_of_singleton|Hr]%elem_of_union; [by exists st|by apply (pi_retiring w I)].
  - intros g1 st1 H1. by destruct (pi_states w I g1 st1 H1).
  - apply (pi_disjoint w I).
  - apply (pi_ctxs w I).
  - apply (pi_created w I).
  - apply (pi_dropped w I).
  - apply (pi_slots w I).
  - intros c Hd. destruct (pi_leak w I c Hd) as [?|[(g1 & st1 & H1 & H2 & H3)|?]]; [by left| |by right; right].
    right; left. exists g1, st1. split_and!; [done|done|]. right. cbn. destruct H3; [simplify_eq|]; set_solver.
Qed.

(** The world after [closeState]. *)
Definition retired (w : poolWorld) (g : nat) (p : ConnPool) (l : list conn) : poolWorld :=
  mkPoolWorld p (pw_threads w) (pw_ended w) (pw_dialled w) (list_to_set l ∪ pw_closing w) (pw_closed w) (pw_retiring w ∖ {[g]}) (pw_created w).

(** The state [g] has ended, and its connections are to be closed. *)
Record endedState (w w' : poolWorld) (g : nat) (st st' : connPoolState) : Prop := {
  es_states : cp_states (pw_pool w') = <[g := st']> (cp_states (pw_pool w));
  es_dropped c : dropped w' c ↔ c ∈ ps_all st ∨ dropped w c;
  es_back g1 st1 : cp_states (pw_pool w') !! g1 = Some st1 →
    ∃ st0, cp_states (pw_pool w) !! g1 = Some st0 ∧ (st1 = st0 ∨ g1 = g ∧ st0 = st ∧ st1 = st');
  es_forth g1 st0 : cp_states (pw_pool w) !! g1 = Some st0 →
    ∃ st1, cp_states (pw_pool w') !! g1 = Some st1 ∧ (st1 = st0 ∨ st0 = st ∧ st1 = st')
}.

Lemma retire_ends w g st cause :
  cp_states (pw_pool w) !! g = Some st →
  endedState w (retired w g (put_state (pw_pool w) g (set_cause st cause)) (elements (ps_all st))) g st (set_cause st cause).
Proof.
  intros Hg. split; [done|..]; cbn.
  - intros c. unfold dropped. cbn. rewrite elem_of_union, elem_of_list_to_set, elem_of_elements. tauto.
  - intros g1 st1 [[<- <-]|[_ H1]]%lookup_insert_Some; [exists st|exists st1]; auto.
  - intros g1 st0 H1. destruct (decide (g1 = g)) as [->|Hne].
    + rewrite lookup_insert_eq. eexists. split; [done|]. right. split; [congruence|done].
    + rewrite lookup_insert_ne by done. eauto.
Qed.

Lemma retire_evolves w g st cause :
  cp_states (pw_pool w) !! g = Some st →
  evolves w (retired w g (put_state (pw_pool w) g (set_cause st cause)) (elements (ps_all st))) (λ _, False) (λ _, False) (λ _, False).
Proof.
  intros Hg. pose proof (retire_ends w g st cause Hg) as [_ Hdrop Hback Hforth]. set (w' := retired _ _ _ _) in *.
  split; try done; try (by left).
  - intros c (g1 & st1 & H1 & Hin). destruct (Hback g1 st1 H1) as (st0 & H0 & [->|(_ & -> & ->)]); left; by eexists g1, _.
  - intros c [?|?]%Hdrop; [right; left; by exists g, st|by left].
  - intros g1 st1 c H1 Hin. destruct (Hback g1 st1 H1) as (st0 & H0 & [->|(_ & -> & ->)]); left; by eexists g1, _.
  - intros g1 st1 c H1 Hin. destruct (Hback g1 st1 H1) as (st0 & H0 & [->|(_ & -> & ->)]); left; by eexists g1, _.
  - intros g1 [st0 H0]. destruct (Hforth g1 st0 H0) as (st1 & ? & _). by exists st1.
  - intros g1 st0 k H0 Hk. destruct (Hforth g1 st0 H0) as (st1 & ? & [->|[-> ->]]); left; by eexists.
  - intros c x (g0 & ca & Hx & H). left. exists g0, ca. split; [done|]. destruct H as [?|(st0 & H0 & Hin & He)]; [by left|].
    right. destruct (Hforth g0 st0 H0) as (st1 & ? & [->|[-> ->]]); by eexists.
Qed.

Lemma inv_retire w g st cause :
  pool_inv w → g ∈ pw_retiring w → cp_states (pw_pool w) !! g = Some st → cause ≠ None →
  pool_inv (retired w g (put_state (pw_pool w) g (set_cause st cause)) (elements (ps_all st))).
Proof.
  intros I Hr Hg Hca. pose proof (retire_ends w g st cause Hg) as [Hs Hdrop Hback Hforth].
  pose proof (retire_evolves w g st cause Hg) as E. set (st' := set_cause st cause) in *. set (w' := retired _ _ _ _) in *.
  destruct (threads_stay w w' _ _ _ I eq_refl eq_refl E (no_news w)) as [T1 T2].
  pose proof (pi_current w I) as P1.
  assert (Hcur : ∀ g1 st1, current (pw_pool w') = Some (g1, st1) → current (pw_pool w) = Some (g1, st1) ∧ g1 ≠ g).
  { intros g1 st1 Hc. pose proof (current_lookup _ _ _ Hc) as (Hcl & Hcs & H1). cbn in Hcl, Hcs. rewrite Hcl in P1.
    destruct P1 as (g0 & st0 & ? & ? & _ & Hnr). assert (Hne : g1 ≠ g) by (intros ->; congruence). split; [|done].
    unfold current. rewrite Hcl, Hcs. cbn. rewrite Hs, lookup_insert_ne in H1 by done. by rewrite H1. }
  split; try done.
  - cbn. destruct (cp_closed (pw_pool w)); [done|]. destruct P1 as (g0 & st0 & ? & ? & ? & Hnr). exists g0, st0.
    rewrite lookup_insert_ne by congruence. split_and!; try done. set_solver.
  - intros g1 st1 H1. destruct (Hback g1 st1 H1) as (st0 & H0 & [->|(-> & -> & ->)]); [|by right; right].
    destruct (pi_retired w I g1 st0 H0) as [?|[?|?]]; [by left| |by right; right]. destruct (decide (g1 = g)) as [->|Hne].
    + rewrite Hs, lookup_insert_eq in H1. simplify_eq. by right; right.
    + right; left. cbn. set_solver.
  - cbn. intros g1 [Hr1 _]%elem_of_difference. destruct (pi_retiring w I g1 Hr1) as [st0 H0].
    destruct (Hforth g1 st0 H0) as (st1 & ? & _). by exists st1.
  - intros g1 st1 H1. destruct (Hback g1 st1 H1) as (st0 & H0 & [->|(-> & -> & ->)]).
    + by destruct (pi_states w I g1 st0 H0).
    + by destruct (pi_states w I g st H0).
  - intros g1 st1 g2 st2 c H1 H2 A1 A2.
    destruct (Hback g1 st1 H1) as (st3 & H3 & [->|(-> & -> & ->)]), (Hback g2 st2 H2) as (st4 & H4 & [->|(-> & -> & ->)]);
      by eapply (pi_disjoint w I _ _ _ _ c H3 H4).
  - apply (pi_ctxs w I).
  - intros g1 st1 c [Hc Hne]%Hcur Hin [Hin'|Hdr]%Hdrop; [|by eapply (pi_tracked w I)].
    pose proof (current_lookup _ _ _ Hc) as (_ & _ & H1). apply Hne. by eapply (pi_disjoint w I g1 st1 g st).
  - intros g1 st1 c [Hc _]%Hcur. by apply (pi_users w I g1).
  - apply (pi_created w I).
  - intros c [Hin|?]%Hdrop; [by apply (so_dialled _ _ _ (pi_states w I g st Hg))|by apply (pi_dropped w I)].
  - apply (pi_slots w I).
  - intros c Hd. destruct (pi_leak w I c Hd) as [?|[(g1 & st1 & H1 & H2 & H3)|?]]; [left; apply Hdrop; by right| |by right; right].
    destruct (decide (g1 = g)) as [->|Hne]; [left; apply Hdrop; left; congruence|].
    right; left. exists g1, st1. rewrite Hs, lookup_insert_ne by done. split_and!; [done..|]. destruct H3; [by left|right]. cbn. set_solver.
Qed.
