(* ===== verification/ConnPoolTheorems.v ===== *)
(** What the DNS connection pool promises: no connection is lost, parked connections
    have one user, shared ones are counted, and whoever holds a connection that the
    pool forgets is told. *)

From S2P Require Import Prelude GoBytes ConnPool ConnPoolInv ConnPoolSteps ConnPoolMoves ConnPoolInstall ConnPoolReset.

(** ** Steps in parts *)

Lemma setPool_nil w : setPool w (pw_pool w) [] = w.
Proof. destruct w. unfold setPool. cbn. f_equal. apply union_empty_l_L. Qed.

Lemma setPool_goTo w p p' l t th pc : setPool (goTo (setPool w p []) t th pc) p' l = goTo (setPool w p' l) t th pc.
Proof. unfold setPool, goTo. cbn. by rewrite union_empty_l_L. Qed.

Lemma goTo_goTo w t th pc pc' :
  createdBy pc = [] → goTo (goTo w t th pc) t (mkThread pc (th_ctx th) (th_probe th) (th_fresh th)) pc' = goTo w t th pc'.
Proof.
  intros H. unfold goTo. cbn [pw_pool pw_threads pw_ended pw_dialled pw_closing pw_closed pw_retiring pw_created th_ctx th_probe th_fresh].
  by rewrite insert_insert_eq, H.
Qed.

Lemma plain_intro pc : touches pc = None → (∀ g, waitsFor g pc = false) →
  match pc with FreshInstalled _ _ | Waiting _ _ _ => False | _ => True end → plain pc.
Proof. done. Qed.

(** A goroutine that has nothing stays where it is, after the pool has changed. *)
Lemma inv_after w t th pc :
  pool_inv w → pw_threads w !! t = Some th → plain (th_pc th) → plain pc → connector pc = None → hasSlot pc = hasSlot (th_pc th) →
  pool_inv (goTo w t th pc).
Proof.
  intros I Ht Hold Hpc Hco Hsl. pose proof (inv_plain w t th (pw_pool w) pc I Ht (same_states_refl _) Hold Hpc) as H.
  rewrite setPool_nil in H. apply H; [by left|]. by apply (slots_keep w _ t th pc).
Qed.

(** Forgetting the connection of a holder. *)
Lemma inv_remove_held w t th g st c x cr cause :
  pool_inv w → pw_threads w !! t = Some th → th_pc th = Holding c x cr → current (pw_pool w) = Some (g, st) → c ∈ ps_all st →
  pool_inv (goTo (setPool w (removeConn (pw_pool w) g st c cause) [c]) t th Ended).
Proof.
  intros I Ht Hold Hcur Hin. pose proof (inv_remove w g st c cause I Hcur Hin) as I1. set (w1 := setPool w _ _) in *.
  pose proof (current_lookup _ _ _ Hcur) as (Hcl & Hcs & Hg).
  assert (Hsh : ∀ g1 st1, current (pw_pool w1) = Some (g1, st1) → ps_shared st1 ≠ Some c).
  { destruct (removeConn_spec w g st c cause (pi_states w I g st Hg)) as (st' & ctxs' & Heq & R & _). subst w1. cbn. rewrite Heq.
    intros g1 st1 Hc. apply current_lookup in Hc as (_ & Hcs1 & H1). cbn in Hcs1, H1. rewrite Hcs in Hcs1. simplify_eq.
    rewrite lookup_insert_eq in H1. simplify_eq. rewrite (rm_shared _ _ _ _ R). case_bool_decide; congruence. }
  pose proof (inv_end_hold w1 t th c x cr [] I1 Ht Hold (or_introl eq_refl) Hsh ltac:(done)) as H. by rewrite setPool_nil in H.
Qed.

(** ** The moves *)

Lemma moves_release_inv w t th alive c x cr reuse p l :
  pool_inv w → pw_threads w !! t = Some th → th_pc th = Holding c x cr → Pool_Release alive (pw_pool w) c reuse = (p, l) →
  pool_inv (goTo (setPool w p l) t th Ended).
Proof.
  intros I Ht Hold. unfold Pool_Release. destruct (current (pw_pool w)) as [[g st]|] eqn:Hcur.
  2: { intros [= <- <-]. apply (inv_end_hold w t th c x cr); try done; [by right|by rewrite Hcur..]. }
  pose proof (current_lookup _ _ _ Hcur) as (_ & _ & Hg). pose proof (pi_states w I g st Hg) as Hst.
  case_bool_decide as Hin; cbn [negb]; cycle 1.
  { intros [= <- <-]. apply (inv_end_hold w t th c x cr); try done; [by right| |].
    - rewrite Hcur. intros g1 st1 [= <- <-] Hs. pose proof (so_shared _ _ _ Hst) as S. rewrite Hs in S. by destruct S.
    - rewrite Hcur. by intros _ g1 st1 [= <- <-]. }
  destruct (_ || _) eqn:Hkeep; [intros [= <- <-]; by eapply inv_remove_held|]. apply orb_false_iff in Hkeep as [Hkeep _].
  apply negb_false_iff, andb_true_iff in Hkeep as [_ Hkeep]. apply negb_true_iff in Hkeep.
  destruct (cp_mode (pw_pool w)) eqn:Hm.
  - rewrite (bool_decide_eq_true_2 (ConnPoolSingle = ConnPoolSingle)), (bool_decide_eq_false_2 (ConnPoolSingle = ConnPoolOrdered)) by done. cbn [andb].
    destruct (decide (ps_shared st = Some c)) as [Hs|Hs].
    + rewrite bool_decide_eq_true_2 by done. destruct (pi_users w I g st c Hcur Hs) as [Hu _].
      assert (0 < ps_sharedUsers st) as ->%Z.ltb_lt.
      { rewrite Hu. pose proof (countOf_nonneg (holdsConn c) (pw_threads w)). destruct (decide (countOf (holdsConn c) (pw_threads w) = 0)) as [E|]; [|lia].
        pose proof (countOf_zero _ _ t th E Ht) as Hz. rewrite Hold in Hz. by rewrite holdsConn_true in Hz. }
      intros [= <- <-]. by eapply inv_unclaim.
    + rewrite bool_decide_eq_false_2 by done. cbn [andb]. intros [= <- <-].
      assert (Heq : put_state (pw_pool w) g st = pw_pool w).
      { unfold put_state, with_states. rewrite insert_id by done. by destruct (pw_pool w). }
      rewrite Heq. apply (inv_end_hold w t th c x cr); try done; [by left|]. rewrite Hcur. intros; by simplify_eq.
  - rewrite (bool_decide_eq_false_2 (ConnPoolOrdered = ConnPoolSingle)), (bool_decide_eq_true_2 (ConnPoolOrdered = ConnPoolOrdered)) by done. cbn [andb].
    assert (Hni : c ∉ ps_idleElements st).
    { destruct (so_idle _ _ _ Hst) as [_ ->]. rewrite elem_of_list_to_set. destruct (pi_threads w I t th Ht) as (_ & _ & T3 & _).
      apply (T3 c ltac:(by rewrite Hold) g st Hg). }
    rewrite bool_decide_eq_false_2 by done. cbn [negb]. intros [= <- <-]. eapply inv_push; try done.
    unfold releaseProbeOwnedLx in Hkeep. destruct (ps_owned st !! c); [|done]. rewrite Hm in Hkeep. by cbn in Hkeep.
Qed.

Lemma moves_invalidate_inv w t th c x cr cause p l :
  pool_inv w → pw_threads w !! t = Some th → th_pc th = Holding c x cr → Invalidate (pw_pool w) c cause = (p, l) →
  pool_inv (goTo (setPool w p l) t th Ended).
Proof.
  intros I Ht Hold. unfold Invalidate. destruct (current (pw_pool w)) as [[g st]|] eqn:Hcur.
  2: { intros [= <- <-]. apply (inv_end_hold w t th c x cr); try done; [by right|by rewrite Hcur..]. }
  pose proof (current_lookup _ _ _ Hcur) as (_ & _ & Hg). case_bool_decide as Hin; cbn [negb].
  - intros [= <- <-]. by eapply inv_remove_held.
  - intros [= <- <-]. apply (inv_end_hold w t th c x cr); try done; [by left|]. rewrite Hcur. intros g1 st1 [= <- <-] Hs.
    pose proof (so_shared _ _ _ (pi_states w I g st Hg)) as S. rewrite Hs in S. by destruct S.
Qed.

Lemma acquireOrdered_dead w g st c rest :
  pool_inv w → cp_mode (pw_pool w) = ConnPoolOrdered → cp_states (pw_pool w) !! g = Some st → ps_idle st = c :: rest →
  put_state (pw_pool w) g (set_all (set_idle st rest (ps_idleElements st ∖ {[c]})) (ps_all st ∖ {[c]})) =
  removeConn (pw_pool w) g st c net_ErrClosed.
Proof.
  intros I Hm Hg Hidle. pose proof (pi_states w I g st Hg) as Hst. destruct (so_idle _ _ _ Hst) as [Hnd Hel].
  destruct (so_idle_all _ _ _ Hst c) as (_ & Hown & _); [rewrite Hidle; left|]. rewrite Hidle in Hnd. apply NoDup_cons in Hnd as [Hnc _].
  unfold removeConn, forgetProbeOwnedLx. cbn [ps_owned set_all]. rewrite Hown, Hm. cbn [ps_idleElements set_all].
  rewrite bool_decide_eq_true_2 by (rewrite Hel, elem_of_list_to_set, Hidle; left). cbn [ps_idle set_all]. rewrite Hidle.
  rewrite filter_cons_False by auto. by rewrite filter_ne_id.
Qed.

Lemma moves_ordered_inv w t th alive p l pc :
  pool_inv w → pw_threads w !! t = Some th → th_pc th = AtLoop → cp_mode (pw_pool w) = ConnPoolOrdered →
  acquireOrdered alive (pw_pool w) = (p, l, pc) → pool_inv (goTo (setPool w p l) t th pc).
Proof.
  intros I Ht Hold Hm. unfold acquireOrdered. destruct (current (pw_pool w)) as [[g st]|] eqn:Hcur.
  2: { intros [= <- <- <-]. rewrite setPool_nil. apply inv_after; try done; by rewrite Hold. }
  pose proof (current_lookup _ _ _ Hcur) as (_ & _ & Hg). destruct (ps_idle st) as [|c rest] eqn:Hidle.
  { intros [= <- <- <-]. rewrite setPool_nil. apply inv_after; try done; by rewrite Hold. }
  destruct (alive c); intros [= <- <- <-].
  - apply inv_pop; try done; by rewrite Hold.
  - cbn [ps_all set_idle]. rewrite (acquireOrdered_dead w g st c rest) by done.
    apply inv_after; try done; try (by rewrite Hold). apply inv_remove; try done.
    apply (so_idle_all _ _ _ (pi_states w I g st Hg)). rewrite Hidle. left.
Qed.

Lemma shared_in_all w g st c : pool_inv w → cp_states (pw_pool w) !! g = Some st → ps_shared st = Some c → c ∈ ps_all st.
Proof. intros I Hg Hs. pose proof (so_shared _ _ _ (pi_states w I g st Hg)) as S. rewrite Hs in S. by destruct S. Qed.

Lemma moves_shared_inv w t th alive p l pc :
  pool_inv w → pw_threads w !! t = Some th → th_pc th = AtLoop →
  acquireShared alive (pw_pool w) = (p, l, pc, None) → pool_inv (goTo (setPool w p l) t th pc).
Proof.
  intros I Ht Hold. unfold acquireShared. destruct (current (pw_pool w)) as [[g st]|] eqn:Hcur.
  2: { intros [= <- <- <-]. rewrite setPool_nil. apply inv_after; try done; by rewrite Hold. }
  pose proof (current_lookup _ _ _ Hcur) as (_ & _ & Hg). destruct (ps_shared st) as [c|] eqn:Hs.
  - destruct (alive c).
    + intros [= <- <- <-]. by apply (inv_claim w t th g st c I Ht); rewrite ?Hold.
    + intros [= <- <- <-]. apply inv_after; try done; try (by rewrite Hold). apply inv_remove; try done. by eapply shared_in_all.
  - destruct (ps_connecting st) as [k|] eqn:Hk; intros [= <- <- <-]. apply inv_wait; try done; by rewrite Hold.
Qed.

Lemma moves_spawn_inv w t t' th alive p l pc pc' :
  pool_inv w → pw_threads w !! t = Some th → pw_threads w !! t' = None → th_pc th = AtLoop → cp_mode (pw_pool w) = ConnPoolSingle →
  acquireShared alive (pw_pool w) = (p, l, pc, Some pc') → pool_inv (goTo (goTo (setPool w p l) t th pc) t' th pc').
Proof.
  intros I Ht Ht' Hold Hm. unfold acquireShared. destruct (current (pw_pool w)) as [[g st]|] eqn:Hcur; [|done].
  pose proof (current_lookup _ _ _ Hcur) as (_ & _ & Hg). destruct (ps_shared st) as [c|] eqn:Hs; [by destruct (alive c)|].
  destruct (ps_connecting st) as [k|] eqn:Hk; intros [= <- <- <- <-]. set (k := cp_next (pw_pool w)).
  pose proof (inv_spawn w t' th Ended I Ht' ltac:(done) eq_refl eq_refl) as I1. set (w1 := goTo w t' th Ended) in I1.
  set (th' := mkThread Ended (th_ctx th) (th_probe th) (th_fresh th)).
  assert (Ht1 : pw_threads w1 !! t' = Some th') by (cbn; apply lookup_insert_eq).
  pose proof (inv_connect_start w1 t' th' g st I1 Ht1 ltac:(done) eq_refl eq_refl Hg Hk Hs Hm) as I2. cbv zeta in I2.
  set (w2 := goTo _ _ _ _) in I2. assert (Hne : t ≠ t') by congruence.
  assert (Ht2 : pw_threads w2 !! t = Some th) by (cbn; by rewrite !lookup_insert_ne).
  set (st1 := set_waiters st (ps_sharedWaiters st) (Some k)).
  assert (Hg2 : cp_states (pw_pool w2) !! g = Some st1) by (cbn; apply lookup_insert_eq).
  pose proof (inv_wait w2 t th g st1 k true I2 Ht2 ltac:(by rewrite Hold) ltac:(by rewrite Hold) ltac:(by rewrite Hold) Hg2 eq_refl) as I3.
  match goal with H : pool_inv ?a |- pool_inv ?b => replace b with a; [exact H|] end.
  unfold w2, w1, goTo, setPool, put_state, with_states, with_connects, st1, th', set_waiters. cbn.
  rewrite !union_empty_l_L, !insert_insert_eq. f_equal. by rewrite insert_insert_ne.
Qed.

Lemma moves_collect_inv w t th alive g k s p l pc :
  pool_inv w → pw_threads w !! t = Some th → th_pc th = Waiting g k s →
  collectShared alive (pw_pool w) g k s = (p, l, pc) → pool_inv (goTo (setPool w p l) t th pc).
Proof.
  intros I Ht Hold. unfold collectShared. set (p1 := leaveWaiting (pw_pool w) g).
  assert (Hleave : ∀ pc, plain pc → connector pc = None → hasSlot pc = false → pool_inv (goTo (setPool w p1 []) t th pc)).
  { intros pc0 ???. by eapply inv_leave. }
  destruct (cp_connects p1 !! k ≫= cn_err); [intros [= <- <- <-]; apply Hleave; by destruct s|].
  destruct (current p1) as [[g' st]|] eqn:Hcur; [|intros [= <- <- <-]; by apply Hleave].
  destruct (Nat.eqb_spec g' g) as [->|]; cbn [negb]; [|intros [= <- <- <-]; by apply Hleave].
  destruct (ps_shared st) as [c|] eqn:Hs; [|intros [= <- <- <-]; by apply Hleave].
  pose proof (Hleave AtLoop ltac:(done) eq_refl eq_refl) as I1. set (w1 := goTo _ _ _ _) in I1.
  set (th1 := mkThread AtLoop (th_ctx th) (th_probe th) (th_fresh th)).
  assert (Ht1 : pw_threads w1 !! t = Some th1) by (cbn; apply lookup_insert_eq).
  assert (Hg : cp_states p1 !! g = Some st) by (by apply current_lookup in Hcur as (_ & _ & ?)).
  destruct (alive c).
  - intros H. pose proof (inv_claim w1 t th1 g st c I1 Ht1 ltac:(done) eq_refl eq_refl Hcur Hs) as I2. change (pw_pool w1) with p1 in I2.
    rewrite H in I2. unfold w1 in I2. rewrite setPool_goTo in I2. unfold th1 in I2. by rewrite goTo_goTo in I2.
  - intros [= <- <- <-]. pose proof (inv_remove w1 g st c net_ErrClosed I1 Hcur (shared_in_all w1 g st c I1 Hg Hs)) as I2.
    unfold w1 in I2. by rewrite setPool_goTo in I2.
Qed.

Lemma moves_install_inv w t th g c fresh mark p l pc :
  pool_inv w → pw_threads w !! t = Some th → th_pc th = Installing g c →
  dialAndInstall fresh mark (pw_pool w) g c = (p, l, pc) → pool_inv (goTo (setPool w p l) t th pc).
Proof.
  intros I Ht Hold. unfold dialAndInstall.
  assert (Hfail : pool_inv (goTo (setPool w (releaseSlot (pw_pool w)) [c]) t th (Failed net_ErrClosed))).
  { apply inv_drop_claim; try done; rewrite ?Hold; try done; [apply releaseSlot_states, same_states_refl|by left|].
    apply (slots_release w _ t th (Failed net_ErrClosed) (pw_pool w)); try done. by rewrite Hold. }
  destruct (current (pw_pool w)) as [[g' st]|] eqn:Hcur; [|by intros [= <- <- <-]].
  destruct (Nat.eqb_spec g' g) as [->|]; cbn [negb]; [|by intros [= <- <- <-]].
  intros [= <- <- <-]. apply inv_install; try done. unfold installedAt. destruct fresh; auto.
Qed.

Lemma moves_connect_inv w t th g k r mark p l :
  pool_inv w → pw_threads w !! t = Some th → th_pc th = ConnectEnd g k r →
  connectSingle mark (pw_pool w) g k r = (p, l) → pool_inv (goTo (setPool w p l) t th (ConnectDone k)).
Proof.
  intros I Ht Hold. destruct (connector_state w t th g k I Ht) as (st & Hg & _); [by rewrite Hold|]. unfold connectSingle. rewrite Hg.
  destruct r as [c|e]; [|intros [= <- <-]; by eapply inv_connect_failed].
  assert (Hfail : pool_inv (goTo (setPool w (with_connects (put_state (pw_pool w) g (set_waiters st (ps_sharedWaiters st) None))
    (<[k := mkConnect false (Some net_ErrClosed)]> (cp_connects (pw_pool w))) (cp_next (pw_pool w))) [c]) t th (ConnectDone k))).
  { pose proof (inv_drop_claim w t th (pw_pool w) (ConnectEnd g k (inr net_ErrClosed)) c I Ht (same_states_refl _)) as I1.
    rewrite Hold in I1. specialize (I1 eq_refl ltac:(done) ltac:(done) (or_intror eq_refl)).
    specialize (I1 ltac:(by apply (slots_keep w _ t th (ConnectEnd g k (inr net_ErrClosed))); rewrite ?Hold)).
    set (w1 := goTo _ _ _ _) in I1. set (th1 := mkThread (ConnectEnd g k (inr net_ErrClosed)) (th_ctx th) (th_probe th) (th_fresh th)).
    pose proof (inv_connect_failed w1 t th1 g k st net_ErrClosed net_ErrClosed I1 ltac:(cbn; apply lookup_insert_eq) eq_refl Hg) as I2.
    match goal with H : pool_inv ?a |- pool_inv ?b => replace b with a; [exact H|] end.
    unfold w1, th1, goTo, setPool. cbn. by rewrite !insert_insert_eq, union_empty_l_L. }
  destruct (cp_closed (pw_pool w)) eqn:Hcl; [by intros [= <- <-]|]. case_bool_decide as Hst; cbn [negb]; [|by intros [= <- <-]].
  intros [= <- <-]. assert (Hcur : current (pw_pool w) = Some (g, st)) by (unfold current; rewrite Hcl, Hst; cbn; by rewrite Hg).
  pose proof (inv_connect_install w t th g k st c mark I Ht Hold Hcur) as I1. cbv zeta in I1. by rewrite Hcl in I1.
Qed.

(** A step of a goroutine. *)
Lemma thread_moves_inv w t th p l pc :
  pool_inv w → pw_threads w !! t = Some th → thread_moves w th p l pc → pool_inv (goTo (setPool w p l) t th pc).
Proof.
  intros I Ht [alive p' l' pc' Hold _ Hm Heq|alive p' l' pc' Hold _ _ Heq|Hold _|alive g k s p' l' pc' Hold _ Heq|
    g k s e p' pc' Hold _ Heq|g k s p' pc' Hold _ Heq|g Hold Hsem Hlt|g Hold Hsem|g e Hold _ _|g c p' l' pc' Hold Heq|
    g c p' pc' Hold Heq|g k r p' l' Hold Heq|k Hold|alive c x cr reuse p' l' Hold Heq|c x cr cause p' l' Hold Heq].
  - by eapply moves_ordered_inv.
  - by eapply moves_shared_inv.
  - rewrite setPool_nil. destruct (current (pw_pool w)) as [[g st]|]; apply inv_after; try done; by rewrite Hold.
  - by eapply moves_collect_inv.
  - injection Heq as <- <-. by eapply inv_leave.
  - injection Heq as <- <-. eapply inv_leave; try done; by destruct (cp_closed (pw_pool w)).
  - apply inv_plain; try done; rewrite ?Hold; try done; [by left|].
    apply (slots_go w _ t th (Dialling g)); try done; rewrite ?Hold, ?Hsem; cbn; [lia|]. intros _. lia.
  - rewrite setPool_nil. pose proof (inv_plain w t th (pw_pool w) (Dialling g) I Ht (same_states_refl _)) as H. rewrite setPool_nil in H.
    apply H; try done; rewrite ?Hold; try done; [by left|]. pose proof (pi_slots w I) as S. unfold slots_ok.
    change (hasSem _) with (hasSem (pw_pool w)). by rewrite Hsem in S |- *.
  - rewrite setPool_nil. apply inv_after; try done; by rewrite Hold.
  - by eapply moves_install_inv.
  - by eapply inv_fresh_ctx.
  - by eapply moves_connect_inv.
  - apply inv_plain; try done; rewrite ?Hold; try done; [by left|]. apply (slots_keep w _ t th Ended); try done. by rewrite Hold.
  - by eapply moves_release_inv.
  - by eapply moves_invalidate_inv.
Qed.

(** ** The other steps *)

Lemma dials_inv w t th g r err p l pc :
  pool_inv w → pw_threads w !! t = Some th → th_pc th = Dialling g → newDial w r → dialReturned (pw_pool w) g r err = (p, l, pc) →
  pool_inv (goTo (setPool (addDialled w r) p l) t th pc).
Proof.
  intros I Ht Hold Hn. destruct r as [c|e]; cbn [addDialled].
  - pose proof (inv_dial w t th (Installing g c) c I Ht) as I1.
    specialize (I1 ltac:(left; by exists g) Hn). destruct err as [e|]; intros [= <- <- <-]; [|done].
    set (w1 := goTo _ _ _ _) in I1. set (th1 := mkThread (Installing g c) (th_ctx th) (th_probe th) (th_fresh th)).
    assert (Ht1 : pw_threads w1 !! t = Some th1) by (cbn; apply lookup_insert_eq).
    pose proof (inv_drop_claim w1 t th1 (releaseSlot (pw_pool w)) (Failed e) c I1 Ht1) as I2.
    specialize (I2 ltac:(apply releaseSlot_states, same_states_refl) eq_refl ltac:(done) ltac:(done) (or_introl eq_refl)).
    specialize (I2 ltac:(by apply (slots_release w1 _ t th1 (Failed e) (pw_pool w)))).
    unfold w1 in I2. rewrite setPool_goTo in I2. unfold th1 in I2. by rewrite goTo_goTo in I2.
  - assert (Hfail : ∀ e, pool_inv (goTo (setPool w (releaseSlot (pw_pool w)) []) t th (Failed e))).
    { intros e0. apply inv_plain; try done; rewrite ?Hold; try done; [apply releaseSlot_states, same_states_refl|by left|].
      apply (slots_release w _ t th (Failed e0) (pw_pool w)); try done. by rewrite Hold. }
    destruct err; intros [= <- <- <-]; apply Hfail.
Qed.

Lemma connects_inv w t th g k r err l r' :
  pool_inv w → pw_threads w !! t = Some th → th_pc th = Connecting g k → newDial w r → connectReturned r err = (l, r') →
  pool_inv (goTo (setPool (addDialled w r) (pw_pool w) l) t th (ConnectEnd g k r')).
Proof.
  intros I Ht Hold Hn. destruct r as [c|e]; cbn [addDialled].
  - pose proof (inv_dial w t th (ConnectEnd g k (inl c)) c I Ht) as I1.
    specialize (I1 ltac:(right; by exists g, k) Hn). destruct err as [e|]; intros [= <- <-]; [|done].
    set (w1 := goTo _ _ _ _) in I1. set (th1 := mkThread (ConnectEnd g k (inl c)) (th_ctx th) (th_probe th) (th_fresh th)).
    assert (Ht1 : pw_threads w1 !! t = Some th1) by (cbn; apply lookup_insert_eq).
    pose proof (inv_drop_claim w1 t th1 (pw_pool w) (ConnectEnd g k (inr e)) c I1 Ht1 (same_states_refl _) eq_refl ltac:(done) ltac:(done) (or_intror eq_refl)) as I2.
    specialize (I2 ltac:(by apply (slots_keep w1 _ t th1 (ConnectEnd g k (inr e))))).
    unfold w1 in I2. rewrite setPool_goTo in I2. unfold th1 in I2. by rewrite goTo_goTo in I2.
  - assert (Hplain : ∀ e, pool_inv (goTo (setPool w (pw_pool w) []) t th (ConnectEnd g k (inr e)))).
    { intros e0. apply inv_plain; try done; rewrite ?Hold; try done; [by right|].
      apply (slots_keep w _ t th (ConnectEnd g k (inr e0))); try done. by rewrite Hold. }
    destruct err; intros [= <- <-]; apply Hplain.
Qed.

(** The pool stays; more connections are dropped, of those that were handed out. *)
Lemma inv_drop_more w w' :
  pool_inv w → pw_pool w' = pw_pool w → pw_threads w' = pw_threads w → pw_dialled w' = pw_dialled w → pw_created w' = pw_created w →
  pw_retiring w' = pw_retiring w → (∀ c, dropped w c → dropped w' c) →
  (∀ c, dropped w' c → dropped w c ∨ c ∈ pw_created w ∧ current (pw_pool w) = None) → pool_inv w'.
Proof.
  intros I Hp Ht Hd Hc Hr H1 H2. set (news := λ c, c ∈ pw_created w).
  assert (E : evolves w w' news (λ _, False) (λ _, False)).
  { apply evolves_quiet; rewrite ?Hp, ?Hd, ?Hc; try done; [by left|]. intros c [?|[? _]]%H2; auto. }
  apply (inv_quiet w w'); rewrite ?Hp, ?Ht, ?Hc, ?Hd; try done.
  - apply same_states_framed; rewrite ?Hp, ?Hd, ?Hc; try done.
  - apply (threads_stay w w' news (λ _, False) (λ _, False)); rewrite ?Hp; try done. intros t th _ (T1 & _). split_and!; [|naive_solver..].
    intros c Hcl. by apply T1.
  - intros g st c Hcur _ [?|[_ ?]]%H2; [done|congruence].
  - destruct (pi_created w I). split_and!; rewrite ?Hc, ?Hd; try done. intros c [?|[? _]]%H2; [by apply (pi_dropped w I)|auto].
  - pose proof (pi_slots w I) as S. unfold slots_ok. by rewrite Hp, Ht.
  - intros c Hdc. unfold placed. rewrite Hp, Ht, Hr. destruct (pi_leak w I c Hdc) as [?|[?|?]]; auto.
Qed.

Lemma pool_inv_step w w' : pool_inv w → pool_step w w' → pool_inv w'.
Proof.
  intros I [t ctx probe fresh Ht|t th p l pc Ht Hm|alive t t' th p l pc pc' Ht Ht' Hold _ Hm Heq|t th g r sf p l pc Ht Hold Hn Heq|
    t th g k r sf l r' Ht Hold Hn Heq|c cause p l Hc Heq|p l Heq|p g Heq|g p l Hg Heq|c Hc|ctx e _].
  - by apply inv_spawn.
  - by apply thread_moves_inv.
  - by eapply moves_spawn_inv.
  - by eapply dials_inv.
  - by eapply connects_inv.
  - unfold Invalidate in Heq. destruct (current (pw_pool w)) as [[g st]|] eqn:Hcur.
    + case_bool_decide as Hin; cbn in Heq; injection Heq as <- <-; [by apply inv_remove|]. by rewrite setPool_nil.
    + injection Heq as <- <-. apply (inv_drop_more w); try done; unfold dropped; cbn; [set_solver|]. intros d. rewrite Hcur. set_solver.
  - unfold CloseIdle in Heq. destruct (current (pw_pool w)) as [[g st]|] eqn:Hcur; [|injection Heq as <- <-; by rewrite setPool_nil].
    pose proof (current_lookup _ _ _ Hcur) as (_ & _ & Hg).
    destruct (ps_shared st) as [c|] eqn:Hs; [|injection Heq as <- <-; by rewrite setPool_nil].
    destruct (_ || _ || _); injection Heq as <- <-; [by rewrite setPool_nil|]. apply inv_remove; try done. by eapply shared_in_all.
  - destruct (cp_closed (pw_pool w)) eqn:Hcl.
    + assert (p = pw_pool w ∧ g = None) as [-> ->].
      { unfold Pool_Reset, Pool_Close in Heq. rewrite Hcl in Heq. by destruct Heq as [[= <- <-]|[= <- <-]]. }
      apply (inv_drop_more w); try done; [cbn; apply union_empty_l_L|by left].
    + pose proof (pi_current w I) as P1. rewrite Hcl in P1. destruct P1 as (g0 & st & Hs & Hg & _).
      assert (Hcur : current (pw_pool w) = Some (g0, st)) by (unfold current; rewrite Hcl, Hs; cbn; by rewrite Hg).
      unfold Pool_Reset, Pool_Close in Heq. rewrite Hcl, Hs in Heq. destruct Heq as [[= <- <-]|[= <- <-]].
      * by eapply inv_reset.
      * by eapply inv_pool_close.
  - destruct (pi_retiring w I g Hg) as [st Hst]. unfold closeState in Heq. rewrite Hst in Heq. injection Heq as <- <-.
    apply inv_retire; try done. by destruct (ps_cause st).
  - apply (inv_drop_more w); try done; unfold dropped; cbn; [|set_solver]. intros d. destruct (decide (d = c)); set_solver.
  - apply (inv_drop_more w); try done. by left.
Qed.

Lemma pool_run_inv mode n w : pool_run mode n w → pool_inv w.
Proof. induction 1; [apply pool_inv_start|by eapply pool_inv_step]. Qed.

(** ** The promises *)

(** The pool tracks [c]. *)
Definition tracked (w : poolWorld) (c : conn) : Prop := ∃ g st, current (pw_pool w) = Some (g, st) ∧ c ∈ ps_all st.

(** The context [x] has ended, or ends with the state that is being closed. *)
Definition ctxEnded (w : poolWorld) (x : nat) : Prop :=
  ∃ g cause, cp_ctxs (pw_pool w) !! x = Some (mkPoolCtx g cause) ∧
    (cause ≠ None ∨ g ∈ pw_retiring w ∨ ∃ st, cp_states (pw_pool w) !! g = Some st ∧ ps_cause st ≠ None).

(** [t] holds [c], with the context [x]. *)
Definition holder (w : poolWorld) (t : nat) (c : conn) (x : option nat) : Prop :=
  ∃ th cr, pw_threads w !! t = Some th ∧ th_pc th = Holding c x cr.

(** [c] is on its way: dialled and not installed, or in a state that is being
    closed. *)
Definition inHand (w : poolWorld) (c : conn) : Prop :=
  (∃ t th, pw_threads w !! t = Some th ∧ flight (th_pc th) = Some c) ∨
  (∃ g st, g ∈ pw_retiring w ∧ cp_states (pw_pool w) !! g = Some st ∧ c ∈ ps_all st).

Lemma inv_current w g st : pool_inv w → cp_state (pw_pool w) = Some g → cp_states (pw_pool w) !! g = Some st → current (pw_pool w) = Some (g, st).
Proof.
  intros I Hs Hg. unfold current. pose proof (pi_current w I) as P. destruct (cp_closed (pw_pool w)); [congruence|]. rewrite Hs. cbn. by rewrite Hg.
Qed.

Lemma inv_told w t c x : pool_inv w → holder w t c (Some x) → tracked w c ∨ ctxEnded w x.
Proof.
  intros I (th & cr & Ht & Hpc). pose proof (pi_threads w I t th Ht) as (_ & _ & _ & _ & T5). rewrite Hpc in T5.
  destruct T5 as (g & cause & Hx & [Hc|(st & Hg & Hin & _)]); [right; exists g, cause; auto|].
  destruct (pi_retired w I g st Hg) as [Hs|[Hr|Hc]].
  - left. exists g, st. split; [by apply inv_current|done].
  - right. exists g, cause. auto.
  - right. exists g, cause. split; [done|]. right; right. by exists st.
Qed.

Lemma closeIdle_unused w p c t x :
  pool_inv w → CloseIdle (pw_pool w) = (p, [c]) → ¬ holder w t c x.
Proof.
  intros I Hci (th & cr & Ht & Hpc). unfold CloseIdle in Hci. destruct (current (pw_pool w)) as [[g st]|] eqn:Hcur; [|done].
  destruct (ps_shared st) as [d|] eqn:Hs; [|done]. destruct (_ || _ || _) eqn:E; [done|]. injection Hci as _ <-.
  apply orb_false_iff in E as [E _]. apply orb_false_iff in E as [_ E]. apply Z.ltb_ge in E.
  destruct (pi_users w I g st d Hcur Hs) as [Hu _]. pose proof (countOf_nonneg (holdsConn d) (pw_threads w)).
  assert (H0 : countOf (holdsConn d) (pw_threads w) = 0) by lia. pose proof (countOf_zero _ _ t th H0 Ht) as Hz.
  rewrite Hpc in Hz. by rewrite holdsConn_true in Hz.
Qed.

(** The options of a pool do not change. *)
Definition options (p : ConnPool) : ConnPoolMode * Z := (cp_mode p, cp_MaxInflight p).

Lemma removeConn_options p g st c cause : options (removeConn p g st c cause) = options p.
Proof. unfold removeConn, forgetProbeOwnedLx. repeat case_match; by simplify_eq. Qed.

Lemma releaseSlot_options p : options (releaseSlot p) = options p.
Proof. unfold releaseSlot. by case_match. Qed.

Lemma leaveWaiting_options p g : options (leaveWaiting p g) = options p.
Proof. unfold leaveWaiting. by case_match. Qed.

Lemma thread_moves_options w th p l pc : thread_moves w th p l pc → options p = options (pw_pool w).
Proof.
  intros [alive p' l' pc' _ _ _ Heq|alive p' l' pc' _ _ _ Heq| |alive g k s p' l' pc' _ _ Heq|g k s e p' pc' _ _ Heq|g k s p' pc' _ _ Heq| | | |
    g c p' l' pc' _ Heq|g c p' pc' _ Heq|g k r p' l' _ Heq|k _|alive c x cr reuse p' l' _ Heq|c x cr cause p' l' _ Heq]; try done.
  - unfold acquireOrdered in Heq. repeat case_match; by simplify_eq.
  - unfold acquireShared, claimShared in Heq. repeat case_match; simplify_eq; try done. apply removeConn_options.
  - unfold collectShared, claimShared in Heq. repeat case_match; simplify_eq; rewrite ?removeConn_options; apply leaveWaiting_options.
  - injection Heq as <- _. apply leaveWaiting_options.
  - injection Heq as <- _. apply leaveWaiting_options.
  - unfold dialAndInstall in Heq. repeat case_match; simplify_eq; by rewrite releaseSlot_options.
  - unfold acquireFreshLx in Heq. repeat case_match; by simplify_eq.
  - unfold connectSingle in Heq. repeat case_match; by simplify_eq.
  - unfold Pool_Release in Heq. repeat case_match; simplify_eq; try done. apply removeConn_options.
  - unfold Invalidate in Heq. repeat case_match; simplify_eq; try done. apply removeConn_options.
Qed.

Lemma pool_step_options w w' : pool_step w w' → options (pw_pool w') = options (pw_pool w).
Proof.
  intros [ |t th p l pc _ Hm|alive t t' th p l pc pc' _ _ _ _ _ Heq|t th g r sf p l pc _ _ _ Heq| |c cause p l _ Heq|p l Heq|p g Heq|g p l _ Heq| |];
    try done; cbn.
  - by eapply thread_moves_options.
  - unfold acquireShared, claimShared in Heq. repeat case_match; by simplify_eq.
  - unfold dialReturned in Heq. repeat case_match; simplify_eq; try done; apply releaseSlot_options.
  - unfold Invalidate in Heq. repeat case_match; simplify_eq; try done. apply removeConn_options.
  - unfold CloseIdle in Heq. repeat case_match; simplify_eq; try done. apply removeConn_options.
  - unfold Pool_Reset, Pool_Close in Heq. destruct Heq as [Heq|Heq]; case_match; by simplify_eq.
  - unfold closeState in Heq. case_match; by simplify_eq.
Qed.

Lemma pool_run_options mode n w : pool_run mode n w → options (pw_pool w) = (mode, n).
Proof. induction 1 as [|w w' _ IH Hs]; [done|]. by rewrite (pool_step_options w w' Hs). Qed.

(** C38: in every run of a DNS connection pool, whatever the order of acquires,
    dials, releases, invalidations, resets, closing and cancelled callers, no
    connection is lost: one that was dialled is closed or about to be, tracked, or
    on its way.  A tracked connection was not closed by the pool.  A connection is
    reported as created once.  Parked connections have one user at a time and are
    not idle meanwhile; the users of the shared connection are counted, so that
    closing an idle one takes it from nobody; at most [MaxInflight] dials run.
    Whoever holds a connection with a context has one the pool tracks, or the
    context has ended. *)
Theorem pool_accounts (mode : ConnPoolMode) (n : Z) (w : poolWorld) (Hrun : pool_run mode n w) :
  (∀ c, c ∈ pw_dialled w → dropped w c ∨ tracked w c ∨ inHand w c) ∧
  (∀ c, tracked w c → ¬ dropped w c) ∧
  NoDup (pw_created w) ∧
  (∀ t t' c x x', mode = ConnPoolOrdered → holder w t c x → holder w t' c x' → t = t') ∧
  (∀ t c x g st, holder w t c x → current (pw_pool w) = Some (g, st) → c ∉ ps_idle st) ∧
  (∀ g st c, current (pw_pool w) = Some (g, st) → ps_shared st = Some c →
     ps_sharedUsers st = countOf (holdsConn c) (pw_threads w)) ∧
  (∀ p c t x, CloseIdle (pw_pool w) = (p, [c]) → ¬ holder w t c x) ∧
  (mode = ConnPoolOrdered → 0 < n → countOf hasSlot (pw_threads w) ≤ n) ∧
  (∀ t c x, holder w t c (Some x) → tracked w c ∨ ctxEnded w x).
Proof.
  pose proof (pool_run_inv mode n w Hrun) as I. pose proof (pool_run_options mode n w Hrun) as [= Hmode Hmax]. split_and!.
  - intros c Hc. destruct (pi_leak w I c Hc) as [?|[(g & st & Hg & Hin & [Hs|Hr])|?]]; [by left|..].
    + right; left. exists g, st. split; [by apply inv_current|done].
    + right; right. right. by exists g, st.
    + right; right. by left.
  - intros c (g & st & Hcur & Hin). by eapply (pi_tracked w I).
  - apply (pi_created w I).
  - intros t t' c x x' Hm (th & cr & Ht & Hpc) (th' & cr' & Ht' & Hpc'). destruct (decide (t = t')) as [|Hne]; [done|]. exfalso.
    apply (proj1 (pi_apart w I t t' th th' Hne Ht Ht') c); [|by rewrite Hpc']. rewrite Hpc. unfold owns. cbn. by rewrite Hmode, Hm.
  - intros t c x g st (th & cr & Ht & Hpc) (_ & _ & Hg)%current_lookup.
    pose proof (pi_threads w I t th Ht) as (_ & _ & T3 & _). apply (T3 c ltac:(by rewrite Hpc) g st Hg).
  - intros g st c Hcur Hs. apply (pi_users w I g st c Hcur Hs).
  - intros p c t x. by apply closeIdle_unused.
  - intros Hm Hn. pose proof (pi_slots w I) as S. unfold hasSem in S. rewrite Hmode, Hmax, bool_decide_eq_true_2, (proj2 (Z.ltb_lt 0 n)) in S by done.
    cbn in S. lia.
  - intros t c x. by apply inv_told.
Qed.

(** The goroutine 1 has the shared connection 7 dialled by the goroutine 2, for a
    connection test or not; then one more step. *)
Ltac run_dialled probe :=
  eapply pool_run_step; [eapply pool_run_step; [eapply pool_run_step; [eapply pool_run_step; [eapply pool_run_step; [apply pool_start|]|]|]|]|];
  [by eapply (pool_acquire _ 1 0 probe false)|eapply (pool_spawns _ (λ _, true) 1 2); reflexivity
  |eapply (pool_connects _ 2 _ 0 1 (inl 7%nat) false); try reflexivity; cbn; set_solver
  |eapply (pool_moves _ 2); [reflexivity|]; eapply moves_connect; reflexivity
  |eapply (pool_moves _ 2); [reflexivity|]; eapply moves_connect_done; reflexivity].

(** It takes the connection. *)
Lemma demo_pool_held : ∃ w, pool_run ConnPoolSingle 0 w ∧ 7%nat ∈ pw_dialled w ∧ holder w 1 7 (Some 2%nat).
Proof.
  eexists. split.
  { eapply pool_run_step; [run_dialled false|]. eapply (pool_moves _ 1); [reflexivity|].
    eapply (moves_collect _ _ (λ _, true)); [reflexivity|eexists; split; reflexivity|reflexivity]. }
  split; [cbn; set_solver|]. eexists _, true. split; reflexivity.
Qed.

Lemma pool_accounts_witness :
  ∃ w, pool_run ConnPoolSingle 0 w ∧ holder w 1 7 (Some 2%nat) ∧ (dropped w 7 ∨ tracked w 7 ∨ inHand w 7) ∧ (tracked w 7 ∨ ctxEnded w 2).
Proof.
  destruct demo_pool_held as (w & R & Hd & Hh). exists w.
  destruct (pool_accounts ConnPoolSingle 0 w R) as (A1 & _ & _ & _ & _ & _ & _ & _ & A9).
  exact (conj R (conj Hh (conj (A1 7%nat Hd) (A9 1%nat 7%nat 2%nat Hh)))).
Defined.

(** A connection test whose caller goes away after the dial leaves its connection
    behind: nobody uses it or waits for it, no goroutine is left, and it is the
    shared one. *)
Lemma abandoned_test_stays_parked :
  ∃ w st, pool_run ConnPoolSingle 0 w ∧ current (pw_pool w) = Some (0%nat, st) ∧ ps_shared st = Some 7%nat ∧
    is_Some (ps_owned st !! 7%nat) ∧ ps_sharedUsers st = 0 ∧ ps_sharedWaiters st = 0 ∧
    map_Forall (λ _ th, th_pc th = Ended ∨ ∃ e, th_pc th = Failed e) (pw_threads w).
Proof.
  eexists _, _. split.
  { eapply pool_run_step; [eapply pool_run_step; [run_dialled true|]|].
    - eapply (pool_ctx_ends _ 0 (ErrExternal "context canceled")). reflexivity.
    - eapply (pool_moves _ 1); [reflexivity|]. eapply moves_wait_cancelled; reflexivity. }
  split; [reflexivity|]. split_and!; try reflexivity; [by eexists|].
  intros t th Ht. cbn in Ht. rewrite !lookup_insert_Some, lookup_empty in Ht. naive_solver.
Qed.
